(* ===== verification/_CoqProject ===== *)
-Q . S2P
Prelude.v
Bytes.v
Vocab.v
Varint.v
Cmp.v
Value.v
Plain.v
Flake.v
StringDict.v
CommitFormat.v
OpCodec.v
Envelope.v
CommitCodec.v
CommitDag.v
CommitDagWalk.v
CommitDagAncestor.v
CommitDagPlain.v
PrefixTrie.v
IriSplit.v
NsCodes.v
NsRegistry.v
NsImport.v
NsPlain.v
GraphRegistry.v
Dicts.v
Snapshot.v
FactState.v
Segment.v
SegmentRead.v
Novelty.v
NoveltyRead.v
PlainNovelty.v
NoveltyApply.v
NoveltyCompact.v
NoveltyBulk.v
NoveltyHistory.v
CommitFlakes.v
Ledger.v
LedgerLaws.v
LedgerIndex.v
LedgerReach.v
LedgerCatchUp.v
LedgerReload.v
SameAs.v
Views.v
Range.v
LedgerPlain.v
RunRecord.v
Columns.v
HistorySidecar.v
IndexLog.v
NoveltyMerge.v
MergeLaws.v
Replay.v
ReplayLaws.v
TimeTravel.v
Leaflet.v
LeafBlob.v
LeafUpdate.v
LeafUpdateLaws.v
IndexFilter.v
Overlay.v
Cursor.v
CursorLaws.v
CursorStored.v
KWayMerge.v
LeafWriter.v
IndexBuild.v
Branch.v
IndexPlain.v
LedgerId.v
RaftTypes.v
RaftApply.v
RaftAdapter.v
RaftInv.v
RaftEffect.v
RaftSafety.v
RaftHeads.v
RaftWaiters.v
RaftPlain.v
