(* ===== verification/Prelude.v ===== *)
(** * Fluree DB: a verification development

    Fluree DB is a temporal graph database.  A transaction becomes a commit: a
    set of flakes (subject, predicate, object, datatype, transaction time,
    assert or retract) written as one binary blob to a content-addressed store.
    The index keeps the facts in four sort orders, as leaves of compressed
    columns with the history of their facts beside them.  Commits that are not in
    the on-disk index yet live in an in-memory overlay, the novelty, which
    queries merge with the index.  Which commit is the head
    of which branch is decided by the nameservice; in a cluster it is a Raft
    state machine that also queues the transactions of each branch.

    This library models eight stacks of the program and the values they share,
    and proves what each promises to the next.  Files are listed in dependency
    order; source paths are relative to [src/].

    ** Values and order

    - [Prelude] (this file): outcomes (results with panics kept apart), machine
      integers, slices, tactics.  [Bytes]: byte strings and UTF-8.
    - [Varint]: [fluree-db-core/src/commit/codec/varint.rs] and the cursor of
      [error.rs]; LEB128 and ZigZag.
    - [Cmp], [Value], [Plain]: [sid.rs], [value.rs]; subject ids, flake values
      and their order, numbers compared by exact value.  [ValueLib] is the
      interface to chrono, bigdecimal and geo values (text forms and their
      order); [Plain] is an instance the witnesses run on.
    - [Flake]: [flake.rs], [comparator.rs]; flakes, bound flakes and the four
      index orders.  Theorems: the orders are total preorders on ordinary
      values, agree with numeric value, identify the same rows, and scan bounds
      enclose what they should.

    ** The commit codec ([fluree-db-core/src/commit/codec])

    - [StringDict] ([string_dict.rs]), [CommitFormat] ([format.rs]), [OpCodec]
      ([op_codec.rs], [raw_reader.rs]), [Envelope] ([envelope.rs] and the
      envelope types of [commit.rs]), [CommitCodec] ([writer.rs], [reader.rs],
      [codec.rs], the loaders of [commit.rs]).
    - Interfaces: [CidLib] (content ids: bytes in and out), [CommitLib] (zstd,
      SHA-256, signature encoding), [LegacyV3] (the version 3 readers), each
      with a class of laws and an instance.
    - Theorems: a written blob reads back to its commit with every combination
      of compression and signature; dictionaries, operations, envelope, header,
      footer and signature blocks round-trip; the zero-copy replay decoder and
      the range-probe loader agree with the full reader; the writer fails on
      exactly the transaction numbers the header cannot hold; varints of up to
      ten bytes decode exactly.

    ** Commit histories ([fluree-db-core/src/commit.rs])

    - [CommitDag]: loading from a content store, the walk, its streams, the
      graph probe, the common-ancestor search and the summaries.
      [CommitDagWalk]: depth-first order and what the walks collect.
      [CommitDagAncestor]: the search.  [CommitDagPlain]: a store of written
      commits and concrete runs.
    - Theorems: on a finite history the walk, the probe and the summaries end
      and are exact; the search ends with a common ancestor when there is one,
      the most recent one when there are no merges.

    ** Namespaces ([fluree-db-core/src], [fluree-db-transact/src/namespace.rs])

    - [Vocab]: namespace codes and their built-in prefixes.  [PrefixTrie]
      ([prefix_trie.rs]): the byte trie.  [IriSplit] ([ns_encoding.rs]):
      [canonical_split] on UTF-8 text, slices outside character boundaries being
      panics.  [NsCodes] ([ns_encoding.rs]): the bimap of prefixes and codes.
      [NsRegistry]: registry, shared allocator and worker caches.  [NsImport]:
      interleaved import workers.  [NsPlain]: concrete runs.
    - Interface: [NsOrder], the iteration order of a hash map.
    - Theorems: the trie finds the longest registered prefix; splitting is total
      (one exception) and lossless, and keeps built-in names together; the table
      stays a bimap and never forgets; merges are exact in any order; ids decode
      to their IRIs; deltas reproduce tables; parallel imports lose nothing.

    ** The novelty overlay ([fluree-db-novelty/src])

    - [FactState] ([fact_state.rs]): the current state of each fact.
    - [Segment], [SegmentRead] ([lib.rs]): sorted immutable segments, range
      search, zone-map pruning, k-way merge, packed flake ids.
    - [Novelty]: the overlay and all its operations (commit, bulk load,
      tiered compaction, clearing, reads).  [NoveltyRead], [NoveltyApply],
      [NoveltyCompact], [NoveltyBulk]: its theorems.  [PlainNovelty]: instances
      of the interfaces [SortLib] (a sorted permutation), [HashOrder] (hash-map
      iteration order) and [Attachments] (the annotation overlay).
    - Theorems: a range read returns exactly the flakes of the range, in index
      order; commits add exactly what is new and are atomic on error; an
      invariant of every reachable overlay; compaction and clearing change only
      what they should; a bulk load gives each fact the state of its history,
      and where it differs from commits applied one by one.

    ** Ledger state ([fluree-db-ledger/src/lib.rs])

    - [GraphRegistry] ([graph_registry.rs]), [Dicts] ([subject_id.rs],
      [vec_bi_dict.rs], [ns_vec_bi_dict.rs], [dict_novelty.rs],
      [runtime_small_dicts.rs]) and [Snapshot] ([db.rs]), all of
      [fluree-db-core/src]: graph ids, the dictionaries of ids above the
      watermarks of an index, and the snapshot with its namespaces and graph
      routing.  [CommitFlakes] ([fluree-db-novelty/src/commit_flakes.rs]): the
      flakes that describe a commit; its interface [CommitText] is the text of a
      content id and RFC 3339 parsing.
    - [Ledger]: the state and its operations (loading from a nameservice record,
      commits, staged flakes, new indexes).  The content store is its [get], the
      decoder of index roots an argument.
    - [LedgerLaws]: the invariant, commits.  [LedgerIndex]: new indexes.
      [LedgerReach]: every operation as a step.  [NoveltyHistory],
      [LedgerCatchUp], [LedgerReload]: facts over a history, commits one by one,
      the bulk load.  [LedgerPlain]: a stored ledger, concrete runs, and where
      the code and its comments part.
    - Theorems: graph ids are deterministic within a delta; dictionaries are
      bijections that only grow; every reachable ledger state is well-formed and
      an operation panics only on stored content that makes a reader panic; a
      commit goes in whole or not at all (names aside); an index takes over what
      it covers; loading in bulk agrees with catching up, on the commits for which
      the two paths do not differ.

    ** Overlays and queries without an index

    - [SameAs] ([fluree-db-reasoner/src/same_as.rs]): the union-find of the
      reasoner; [SidOrder] is the iteration order of its hash maps.
    - [Views]: the trait [OverlayProvider] ([fluree-db-core/src/overlay.rs]) as
      a class and its documented contract as [OverlayContract]; the overlays that
      implement it: no overlay, the novelty, staged flakes over a ledger
      ([fluree-db-ledger/src/staged.rs]), a historical view ([historical.rs]),
      derived facts ([fluree-db-reasoner/src/overlay.rs]) over a base
      ([fluree-db-query/src/reasoning.rs]), a schema bundle over a base
      ([schema_bundle.rs]), several overlays ([fluree-db-api/src/overlay.rs]).
    - [Range] ([fluree-db-core/src/range.rs], [query_bounds.rs]): range queries;
      a ledger without an index is answered from any overlay that keeps the
      contract.  Concrete runs are in [LedgerPlain].
    - Theorems: the union-find decides the equivalence its unions generate; each
      overlay keeps the contract, and a stack of them shows the union of what
      they hold; a query without an index shows each fact asserted at its newest
      time, once.

    ** The binary index ([fluree-db-binary-index/src],
       [fluree-db-indexer/src/run_index/build])

    - Records and leaves: [RunRecord] ([format/run_record_v2.rs]): the facts of
      an index, their wire forms, the four orders, routing keys.  [Columns]
      ([read/column_types.rs]): column batches.  [Leaflet], [LeafBlob]
      ([format/column_block.rs], [leaflet.rs], [leaf.rs],
      [read/column_loader.rs]): compressed columns, leaflets and leaf blobs, and
      that encoding and decoding compose.  [HistorySidecar]
      ([format/history_sidecar.rs]): the history of a leaf.  [Branch]
      ([format/branch.rs]): manifests and routing.
    - Building: [KWayMerge] ([merge.rs]): the heap merge of run streams.
      [LeafWriter] ([format/leaf.rs]): records in, leaves out.  [IndexBuild]
      ([index_build.rs]): runs to leaves, and reading them back.
    - Updating: [NoveltyMerge], [MergeLaws] ([novelty_merge.rs]): novelty merged
      into the rows and the history of a leaflet.  [LeafUpdate],
      [LeafUpdateLaws] ([incremental_leaf.rs]): the leaflets of a leaf sliced,
      merged, split and re-encoded.
    - Reading: [IndexFilter] ([read/column_types.rs]): filters and skipping.
      [Overlay] ([read/types.rs]): overlay operations.  [Cursor], [CursorLaws],
      [CursorStored] ([read/binary_cursor.rs], [read/leaf_access.rs]): the
      cursor.  [Replay], [ReplayLaws] ([read/replay.rs]): a leaflet at an
      earlier time.
    - [IndexLog] is the specification: the log of assertions and retractions of
      a key range and its state at each time.  [TimeTravel] is the theorem that
      built and merged leaflets replay to it, for merges that the code
      records completely ([valid_novelty]).  [IndexPlain]: concrete runs.
    - Interfaces: [ColumnZstd] (the compressor), [LeafStore] (fetching a blob by
      content id); an argument gives the content id of a blob.
    - Theorems: routing keys compare as their records; leaves decode to the rows
      they were built from; a merge keeps exactly the facts it should, and its
      history replays to every earlier state, if the merge is valid; the k-way merge yields each fact
      once with its latest record; the leaf writer writes leaves that decode to what it is fed; filters
      are exact and skip nothing that matches; routing finds the right leaves; a
      scan at the present returns the rows of the leaves with the overlay applied,
      if no operation falls between two leaves; a built index,
      scanned, is the current state of its runs.

    ** The replicated nameservice ([fluree-db-consensus/src/raft])

    - [LedgerId] ([fluree-db-core/src/ledger_id.rs]): [name:branch] ids.
    - [RaftTypes], [RaftApply] ([state_machine.rs]): the state as a record of
      finite maps, the commands, the responses, one definition per handler and
      [apply].  [CacheOrder] is the iteration order of the idempotency cache.
    - [RaftAdapter] ([state_machine_adapter.rs], [waiter.rs],
      [staged_receipt.rs], [ownership.rs]): applying a batch of log entries
      with the events, waiter deliveries and releases it causes; membership
      changes; snapshots once decoded; rendezvous hashing over any hash.
    - [RaftInv]: the invariant and reachability along a log.  [RaftEffect]: the
      five things a command can do to queues and cache.  [RaftSafety]: keys,
      envelopes, determinism across replicas.  [RaftHeads]: heads, lineage,
      draining.  [RaftWaiters]: waiters and owners.  [RaftPlain]: concrete runs.
    - Theorems: the invariant holds after every log; a request is processed
      once however often it is retried; envelopes neither leak nor are released
      twice; replicas agree whatever their hash order; heads advance and
      retracted branches are frozen; child counters count children; a worker
      drains its queue; proposers are woken exactly when their entry leaves.

    ** Conventions

    A [w]-bit integer is a [Z] with its casts and wrap-around written out, an
    [f64] its bit pattern.  Fallible code returns [outcome]; a panic (capacity
    overflow, arithmetic overflow in an index) is a value of its own.  Stateful
    code takes and returns its state.  Code outside the repository is a class
    of operations with a class of laws, and every theorem that uses the laws is
    also instantiated.

    Fuel: the varint encoder stops after ten bytes; the size class of a segment count needs
    at most 64 divisions by two; compaction runs at most 66 rounds, since each
    merge moves to a higher class; a k-way merge has as many steps as its
    streams have flakes, plus one; chunking a list has at most its length many
    steps; a history walk pops one entry per parent link, plus two; the ancestor
    search takes at most two rounds per commit; sifting a heap entry down takes at
    most as many steps as the heap has entries; a merge of runs reads each record
    once, plus the end; a walk to a root of the union-find visits each id at most
    once; a cursor returns at most one batch per leaflet and one per
    leaf, and the scan theorems give the list of its batches.  The theorems show that the fuel
    is enough.  Log indexes stay below
    the largest [u64], which keeps queue ids from wrapping.

    Concrete runs that contradict a comment of the source, or that look
    unintended, are lemmas next to the definitions they run: among others
    [bulk_loses_reassertion], [bulk_apply_not_atomic], [lang_items_conflated],
    [footer_underflow_panic], [unborn_reset_strands_parent],
    [purge_keeps_status], [late_waiter_parked], [unrelated_heads_diverge],
    [older_ancestor_returned], [query_before_scheme_panics],
    [import_commit_unresolvable], [index_swap_misroutes_graphs],
    [apply_index_forgets_graphs], [refused_commit_grows_snapshot],
    [load_moves_commit_data], [same_window_retract_survives],
    [emptied_leaflet_stuck], [gap_assertion_lost], [window_end_ignored],
    [closed_leaf_keys], [closed_leaf_panics], [first_fact_history_misplaced],
    [cleared_index_regresses], [inverted_range_panics], [staged_epochs_shared],
    [same_time_assert_shown], [genesis_ignores_history].

    ** Not modelled

    Storage back ends, network, async scheduling and serialization libraries
    (I/O or third-party code); the version 3 commit reader (an interface here);
    chrono and bigdecimal arithmetic (an interface); the parsers, planners and
    operators of the query languages, the transaction stager, the rules of the
    reasoner and SHACL, the graph formats, virtual graphs and the servers, which are separate subsystems on top of the ones above.
    Of the index, the generation of runs from commits, the dictionaries and
    arenas on disk, the roots, uploads and garbage collection are left out.
    Of the modelled files, the FIR6 decoder of index roots, statistics, schema,
    range providers of indexed ledgers, the loading of a historical view, the reads
    that collect a schema bundle, caches and logging are left out; so are the
    annotation overlay with its edge keys and the in-memory nameservice. *)

From stdpp Require Import base list numbers gmap strings sorting.
From Stdlib Require Import ZArith Lia.

Local Open Scope Z_scope.

(** ** Outcomes

    A Rust function that returns [Result<A, E>] and may panic.  A panic is kept
    apart from an error value: the callers of the modelled code handle [Err]
    and never recover from a panic. *)
Inductive outcome (E A : Type) : Type :=
| Ok (a : A)
| Err (e : E)
| Panic.
Arguments Ok {E A} a.
Arguments Err {E A} e.
Arguments Panic {E A}.

#[global] Instance outcome_ret {E} : MRet (outcome E) := fun A a => Ok a.
#[global] Instance outcome_bind {E} : MBind (outcome E) := fun A B f m =>
  match m with
  | Ok a => f a
  | Err e => Err e
  | Panic => Panic
  end.

#[global] Instance outcome_fmap {E} : FMap (outcome E) := fun A B f m =>
  match m with
  | Ok a => Ok (f a)
  | Err e => Err e
  | Panic => Panic
  end.

(** [Result::map_err] and [Option::ok_or]. *)
Definition map_err {E F A} (f : E -> F) (m : outcome E A) : outcome F A :=
  match m with Ok a => Ok a | Err e => Err (f e) | Panic => Panic end.

Definition ok_or {E A} (e : E) (o : option A) : outcome E A :=
  match o with Some a => Ok a | None => Err e end.

Definition err_of {E A} (m : outcome E A) : option E :=
  match m with Err e => Some e | _ => None end.

Definition is_panic {E A} (m : outcome E A) : bool :=
  match m with Panic => true | _ => false end.

Definition is_ok {E A} (m : outcome E A) : bool :=
  match m with Ok _ => true | _ => false end.

Lemma outcome_bind_Ok {E A B} (m : outcome E A) (f : A -> outcome E B) b :
  (m ≫= f) = Ok b <-> exists a, m = Ok a /\ f a = Ok b.
Proof.
  destruct m; simpl; split; first [by intros (?&[= ->]&?) | by eauto | done | by intros (?&?&?)].
Qed.

Lemma outcome_bind_assoc {E A B C} (m : outcome E A) (f : A -> outcome E B)
    (g : B -> outcome E C) :
  ((m ≫= f) ≫= g) = (m ≫= (fun a => f a ≫= g)).
Proof. by destruct m. Qed.

(** ** Machine integers

    A [w]-bit unsigned integer is a [Z] in [0, 2^w); a signed one a [Z] in
    [-2^(w-1), 2^(w-1)).  [as_uw] is Rust's truncating [as] cast to an unsigned
    type, [as_iw] the cast to a signed one. *)
Definition as_u (w z : Z) : Z := z `mod` 2 ^ w.
Definition as_i (w z : Z) : Z :=
  let u := z `mod` 2 ^ w in if u <? 2 ^ (w - 1) then u else u - 2 ^ w.

Definition in_u (w z : Z) : Prop := 0 <= z < 2 ^ w.
Definition in_i (w z : Z) : Prop := - 2 ^ (w - 1) <= z < 2 ^ (w - 1).

Definition u16_max : Z := 2 ^ 16 - 1.
Definition u32_max : Z := 2 ^ 32 - 1.
Definition i32_max : Z := 2 ^ 31 - 1.
Definition isize_max : Z := 2 ^ 63 - 1.

#[global] Instance in_u_dec w z : Decision (in_u w z).
Proof. unfold in_u. apply _. Defined.
#[global] Instance in_i_dec w z : Decision (in_i w z).
Proof. unfold in_i. apply _. Defined.

Lemma as_u_id w z : in_u w z -> as_u w z = z.
Proof. intros H. unfold as_u. by apply Z.mod_small. Qed.

Lemma as_u_range w z : 0 <= w -> in_u w (as_u w z).
Proof. intros H. unfold in_u, as_u. apply Z.mod_pos_bound. lia. Qed.

Lemma as_i_id w z : 0 < w -> in_i w z -> as_i w z = z.
Proof.
  intros Hw [H1 H2]. unfold as_i.
  assert (2 ^ w = 2 * 2 ^ (w - 1)) as Hp.
  { rewrite <- Z.pow_succ_r by lia. f_equal. lia. }
  destruct (decide (0 <= z)).
  - rewrite Z.mod_small by lia. destruct (Z.ltb_spec z (2 ^ (w - 1))); lia.
  - assert (z `mod` 2 ^ w = z + 2 ^ w) as ->.
    { rewrite <- (Z.mod_add _ 1) by lia. rewrite Z.mod_small by lia. lia. }
    destruct (Z.ltb_spec (z + 2 ^ w) (2 ^ (w - 1))); lia.
Qed.

(** A low part and a shifted high part do not overlap. *)
Lemma lor_shiftl_add lo hi k :
  0 <= k -> 0 <= lo < 2 ^ k -> Z.lor lo (Z.shiftl hi k) = lo + hi * 2 ^ k.
Proof.
  intros Hk Hlo. rewrite <- Z.add_nocarry_lor; [by rewrite Z.shiftl_mul_pow2|].
  apply Z.bits_inj'. intros n Hn. rewrite Z.land_spec, Z.bits_0.
  rewrite Z.shiftl_spec by done. destruct (decide (n < k)).
  - rewrite (Z.testbit_neg_r hi) by lia. by rewrite andb_false_r.
  - rewrite (proj1 (Z.bounded_iff_bits_nonneg' k lo Hk (proj1 Hlo)) Hlo) by lia. done.
Qed.

Lemma lor_range w a b : 0 <= w -> in_u w a -> in_u w b -> in_u w (Z.lor a b).
Proof.
  unfold in_u. intros Hw [Ha0 Ha] [Hb0 Hb].
  assert (0 <= Z.lor a b) by (apply Z.lor_nonneg; lia). split; [done|].
  apply Z.bounded_iff_bits_nonneg; [done..|]. intros l Hl. rewrite Z.lor_spec.
  rewrite (proj1 (Z.bounded_iff_bits_nonneg w a Hw Ha0) Ha) by done.
  by rewrite (proj1 (Z.bounded_iff_bits_nonneg w b Hw Hb0) Hb).
Qed.

Lemma land_ones_mod z k : 0 <= k -> Z.land z (2 ^ k - 1) = z `mod` 2 ^ k.
Proof. intros. rewrite Z.sub_1_r, <- Z.ones_equiv. by apply Z.land_ones. Qed.

(** ** Lists measured in [Z] *)
Definition zlen {A} (l : list A) : Z := Z.of_nat (length l).

Lemma zlen_nonneg {A} (l : list A) : 0 <= zlen l.
Proof. unfold zlen. lia. Qed.
Lemma zlen_nil {A} : zlen (@nil A) = 0.
Proof. done. Qed.
Lemma zlen_cons {A} (x : A) l : zlen (x :: l) = 1 + zlen l.
Proof. unfold zlen. simpl. lia. Qed.
Lemma zlen_app {A} (l k : list A) : zlen (l ++ k) = zlen l + zlen k.
Proof. unfold zlen. rewrite length_app. lia. Qed.
Lemma zlen_fmap {A B} (f : A -> B) l : zlen (f <$> l) = zlen l.
Proof. unfold zlen. by rewrite length_fmap. Qed.
Lemma zlen_to_nat {A} (l : list A) : Z.to_nat (zlen l) = length l.
Proof. unfold zlen. lia. Qed.
Create Rewrite HintDb zlen.
#[global] Hint Rewrite @zlen_nil @zlen_cons @zlen_app @zlen_fmap : zlen.

(** [&l[i..j]] for [0 <= i <= j <= len]. *)
Definition slice {A} (l : list A) (i j : Z) : list A :=
  take (Z.to_nat (j - i)) (drop (Z.to_nat i) l).

Lemma slice_app {A} (pre mid post : list A) i j :
  i = zlen pre -> j = zlen pre + zlen mid ->
  slice (pre ++ mid ++ post) i j = mid.
Proof.
  intros -> ->. unfold slice.
  replace (zlen pre + zlen mid - zlen pre) with (zlen mid) by lia.
  by rewrite !zlen_to_nat, drop_app_length, take_app_length.
Qed.

Lemma zlen_slice {A} (l : list A) i j :
  0 <= i <= j -> j <= zlen l -> zlen (slice l i j) = j - i.
Proof.
  intros ??. unfold slice, zlen in *. rewrite length_take, length_drop. lia.
Qed.

(** ** Tactics

    [case_Z] splits on the boolean comparisons of the goal; [simp_out]
    unpacks successful binds in the hypotheses. *)
Ltac case_Z :=
  repeat match goal with
  | |- context [?a <? ?b] => destruct (Z.ltb_spec a b); try lia
  | |- context [?a <=? ?b] => destruct (Z.leb_spec a b); try lia
  | |- context [?a =? ?b] => destruct (Z.eqb_spec a b); try lia
  end.

Ltac simp_out :=
  repeat match goal with
  | H : (_ ≫= _) = Ok _ |- _ =>
      let a := fresh "a" in let H1 := fresh H in
      apply outcome_bind_Ok in H as (a & H1 & H)
  | H : mret _ = Ok _ |- _ => unfold mret, outcome_ret in H
  | H : Ok _ = Ok _ |- _ => injection H as H
  | H : Err _ = Ok _ |- _ => discriminate H
  | H : Panic = Ok _ |- _ => discriminate H
  | H : (_, _) = (_, _) |- _ => injection H as ? ?
  end; simplify_eq/=.

Ltac zlen_norm := autorewrite with zlen in *.
