(* ===== verification/Bytes.v ===== *)
(** * Byte buffers, cursors and the reader monad

    The binary formats of fluree-db-core are read by functions of the shape
    [fn(data: &[u8], pos: &mut usize) -> Result<A, CommitCodecError>].  Such a
    function is a [reader A] here: it takes the buffer and the cursor and
    returns the value with the advanced cursor.  [decodes r bs v] states that
    the reader [r] consumes exactly the bytes [bs], wherever they stand in a
    buffer, and returns [v]; it composes along the monad's bind, so the round
    trip of a record follows from the round trips of its fields.

    The file also models what the code uses of the standard library on bytes:
    little-endian integers ([to_le_bytes], [from_le_bytes]) and the UTF-8 check
    of [std::str::from_utf8]. *)

From S2P Require Import Prelude.
From stdpp Require Import base list numbers.
From Stdlib Require Import ZArith Lia.
From Stdlib Require Ascii String.

Local Open Scope Z_scope.

(** A byte is a [Z] in [0, 256); a Rust [str] is its UTF-8 bytes. *)
Abbreviation bytes := (list Z).
Abbreviation str := (list Z).

(** A string literal of the source. *)
Definition bytes_of_string (s : String.string) : bytes :=
  (fun a => Z.of_N (Ascii.N_of_ascii a)) <$> String.list_ascii_of_string s.

Definition byte_ok (b : Z) : Prop := 0 <= b < 256.
Definition bytes_ok (bs : bytes) : Prop := Forall byte_ok bs.

(** ** Errors of the commit codec

    The variants of [CommitCodecError] (commit/codec/error.rs) with their
    numeric payloads.  The diagnostic texts are left out. *)
Inductive CommitCodecError : Type :=
| InvalidMagic
| UnsupportedVersion (v : Z)
| TooSmall (got min : Z)
| InvalidDictionary
| InvalidOp
| InvalidOpTag (tag : Z)
| DecompressionFailed
| CompressionFailed
| EnvelopeDecode
| EnvelopeEncode
| UnexpectedEof
| UnsupportedValue
| NonDefaultGraph (ns_code name_id : Z)
| LimitExceeded
| TOutOfRange (t : Z)
| GIdOutOfRange (g : Z)
| NegativeListIndex (i : Z)
| HashMismatch.

Abbreviation result := (outcome CommitCodecError).

(** ** Readers *)
Definition reader (A : Type) : Type := bytes -> Z -> result (A * Z).

#[global] Instance reader_ret : MRet reader := fun A a _ pos => Ok (a, pos).
#[global] Instance reader_bind : MBind reader := fun A B f r data pos =>
  match r data pos with
  | Ok (a, pos') => f a data pos'
  | Err e => Err e
  | Panic => Panic
  end.

Definition rfail {A} (e : CommitCodecError) : reader A := fun _ _ => Err e.
Definition rpanic {A} : reader A := fun _ _ => Panic.

(** A step that neither reads nor moves the cursor. *)
Definition rlift {A} (m : result A) : reader A := fun _ pos =>
  match m with Ok a => Ok (a, pos) | Err e => Err e | Panic => Panic end.

Definition rmap_err {A} (e : CommitCodecError) (r : reader A) : reader A :=
  fun data pos => map_err (fun _ => e) (r data pos).

(** [read_exact] of commit/codec/varint.rs. *)
Definition read_exact (n : Z) : reader bytes := fun data pos =>
  let end_ := pos + n in
  if 2 ^ 64 <=? end_ then Err UnexpectedEof (* checked_add *)
  else if zlen data <? end_ then Err UnexpectedEof
  else Ok (slice data pos end_, end_).

(** [read_u8] of commit/codec/varint.rs. *)
Definition read_u8 : reader Z := fun data pos =>
  match data !! Z.to_nat pos with
  | Some b => Ok (b, pos + 1)
  | None => Err UnexpectedEof
  end.

(** [for _ in 0..count { xs.push(r?) }].  The count comes off the wire, so the
    loop is on a binary natural: it stops at the first failing read. *)
Fixpoint rrepeat_pos {A} (r : reader A) (n : positive) : reader (list A) :=
  match n with
  | xH => x ← r; mret [x]
  | xO n => xs ← rrepeat_pos r n; ys ← rrepeat_pos r n; mret (xs ++ ys)
  | xI n => x ← r; xs ← rrepeat_pos r n; ys ← rrepeat_pos r n; mret (x :: xs ++ ys)
  end.

Definition rrepeat {A} (r : reader A) (count : Z) : reader (list A) :=
  match count with Zpos n => rrepeat_pos r n | _ => mret [] end.

(** ** The round-trip predicate

    A Rust slice never exceeds [isize::MAX] bytes, hence the side condition. *)
Definition decodes {A} (r : reader A) (bs : bytes) (v : A) : Prop :=
  forall pre post, zlen (pre ++ bs ++ post) <= isize_max ->
    r (pre ++ bs ++ post) (zlen pre) = Ok (v, zlen pre + zlen bs).

Create HintDb decodes.

Lemma decodes_ret {A} (v : A) : decodes (mret v) [] v.
Proof.
  intros pre post _. unfold mret, reader_ret. f_equal. f_equal.
  rewrite zlen_nil. lia.
Qed.

Lemma decodes_bind {A B} (r : reader A) (f : A -> reader B) bs1 bs2 v w :
  decodes r bs1 v -> decodes (f v) bs2 w -> decodes (r ≫= f) (bs1 ++ bs2) w.
Proof.
  intros H1 H2 pre post Hfit. unfold mbind, reader_bind.
  rewrite <- app_assoc in *. rewrite H1 by done.
  specialize (H2 (pre ++ bs1) post). rewrite <- app_assoc in H2.
  rewrite (zlen_app pre bs1) in H2. rewrite H2 by done. f_equal. f_equal.
  rewrite zlen_app. lia.
Qed.

Lemma decodes_bind_last {A B} (r : reader A) (f : A -> reader B) bs v w :
  decodes r bs v -> decodes (f v) [] w -> decodes (r ≫= f) bs w.
Proof. intros. rewrite <- (app_nil_r bs). by eapply decodes_bind. Qed.

(** The last read of a record, whose value is only wrapped. *)
Lemma decodes_bind_ret {A B} (r : reader A) (g : A -> B) bs v :
  decodes r bs v -> decodes (x ← r; mret (g x)) bs (g v).
Proof.
  intros H. rewrite <- (app_nil_r bs). eapply decodes_bind; [done|apply decodes_ret].
Qed.

Lemma decodes_rlift {A} (m : result A) v : m = Ok v -> decodes (rlift m) [] v.
Proof.
  intros -> pre post _. unfold rlift. f_equal. f_equal. rewrite zlen_nil. lia.
Qed.

Lemma decodes_rlift_bind {A B} (m : result A) (f : A -> reader B) bs v w :
  m = Ok v -> decodes (f v) bs w -> decodes (rlift m ≫= f) bs w.
Proof. intros Hm Hf. apply (decodes_bind _ _ [] bs v w); [by apply decodes_rlift|done]. Qed.

Lemma decodes_rmap_err {A} e (r : reader A) bs v :
  decodes r bs v -> decodes (rmap_err e r) bs v.
Proof. intros H pre post Hfit. unfold rmap_err. by rewrite H. Qed.

Lemma decodes_read_exact n bs : n = zlen bs -> decodes (read_exact n) bs bs.
Proof.
  intros -> pre post Hfit. unfold read_exact, isize_max in *.
  zlen_norm. pose proof (zlen_nonneg pre). pose proof (zlen_nonneg post).
  pose proof (zlen_nonneg bs).
  case_Z. f_equal. f_equal. by apply slice_app.
Qed.

Lemma decodes_read_u8 b : decodes read_u8 [b] b.
Proof.
  intros pre post _. unfold read_u8. simpl.
  rewrite lookup_app_r by (rewrite zlen_to_nat; lia).
  by rewrite zlen_to_nat, Nat.sub_diag.
Qed.

Lemma decodes_bind_u8 {B} (f : Z -> reader B) b bs w :
  decodes (f b) bs w -> decodes (read_u8 ≫= f) (b :: bs) w.
Proof. intros H. apply (decodes_bind read_u8 f [b] bs b w); [apply decodes_read_u8|done]. Qed.

(** Decoding at the very end of a buffer of its own. *)
Lemma decodes_whole {A} (r : reader A) bs v :
  decodes r bs v -> zlen bs <= isize_max -> r bs 0 = Ok (v, zlen bs).
Proof.
  intros H Hfit. specialize (H [] []). rewrite app_nil_r in H. by apply H.
Qed.

#[export] Hint Resolve decodes_ret decodes_read_u8 decodes_rmap_err : decodes.

(** Running a reader several times decodes a list of items written one after
    the other. *)
Inductive decodes_list {A} (r : reader A) : bytes -> list A -> Prop :=
| decodes_nil : decodes_list r [] []
| decodes_cons bs1 bs2 v vs :
    decodes r bs1 v -> decodes_list r bs2 vs ->
    decodes_list r (bs1 ++ bs2) (v :: vs).

Lemma decodes_list_app_inv {A} (r : reader A) bs vs1 vs2 :
  decodes_list r bs (vs1 ++ vs2) ->
  exists bs1 bs2, bs = bs1 ++ bs2 /\ decodes_list r bs1 vs1 /\ decodes_list r bs2 vs2.
Proof.
  revert bs. induction vs1 as [|v vs1 IH]; intros bs H; simpl in H.
  - exists [], bs. repeat split; [constructor|done].
  - inversion H as [|b1 b2 ? ? Hv Hvs]; subst.
    destruct (IH _ Hvs) as (c1 & c2 & -> & Hc1 & Hc2).
    exists (b1 ++ c1), c2. rewrite app_assoc. repeat split; [by constructor|done].
Qed.

Lemma decodes_rrepeat_pos {A} (r : reader A) n bs vs :
  zlen vs = Zpos n -> decodes_list r bs vs -> decodes (rrepeat_pos r n) bs vs.
Proof.
  revert bs vs. induction n as [n IH|n IH|]; intros bs vs Hlen Hvs; simpl.
  - destruct vs as [|v vs]; [done|]. inversion Hvs as [|b1 b2 ? ? Hv Hrest]; subst.
    rewrite zlen_cons in Hlen.
    rewrite <- (take_drop (Pos.to_nat n) vs) in Hrest.
    apply decodes_list_app_inv in Hrest as (c1 & c2 & -> & Hc1 & Hc2).
    eapply decodes_bind; [done|]. eapply decodes_bind.
    { eapply IH, Hc1. unfold zlen in *. rewrite length_take. lia. }
    eapply eq_rect; [eapply decodes_bind_ret, IH, Hc2|].
    { unfold zlen in *. rewrite length_drop. lia. }
    simpl. by rewrite take_drop.
  - rewrite <- (take_drop (Pos.to_nat n) vs) in Hvs.
    apply decodes_list_app_inv in Hvs as (c1 & c2 & -> & Hc1 & Hc2).
    eapply decodes_bind.
    { eapply IH, Hc1. unfold zlen in *. rewrite length_take. lia. }
    eapply eq_rect; [eapply decodes_bind_ret, IH, Hc2|].
    { unfold zlen in *. rewrite length_drop. lia. }
    simpl. by rewrite take_drop.
  - destruct vs as [|v [|w vs]]; [done| |exfalso; rewrite !zlen_cons in Hlen; pose proof (zlen_nonneg vs); lia].
    inversion Hvs as [|b1 b2 ? ? Hv Hrest]; subst. inversion Hrest; subst.
    rewrite app_nil_r. by apply (decodes_bind_ret r (fun x => [x])).
Qed.

Lemma decodes_rrepeat {A} (r : reader A) count bs vs :
  count = zlen vs -> decodes_list r bs vs -> decodes (rrepeat r count) bs vs.
Proof.
  intros -> Hvs. destruct vs as [|v vs].
  - inversion Hvs. apply decodes_ret.
  - unfold rrepeat. destruct (zlen (v :: vs)) eqn:E;
      rewrite zlen_cons in E; pose proof (zlen_nonneg vs); [lia| |lia].
    apply decodes_rrepeat_pos; [rewrite zlen_cons; lia|done].
Qed.

(** ** Little-endian integers *)
Fixpoint le_bytes (n : nat) (z : Z) : bytes :=
  match n with
  | O => []
  | S n => z `mod` 256 :: le_bytes n (z `div` 256)
  end.

Fixpoint le_int (bs : bytes) : Z :=
  match bs with
  | [] => 0
  | b :: bs => b + 256 * le_int bs
  end.

Lemma length_le_bytes n z : length (le_bytes n z) = n.
Proof. revert z. induction n; intros; simpl; congruence. Qed.

Lemma zlen_le_bytes n z : zlen (le_bytes n z) = Z.of_nat n.
Proof. unfold zlen. by rewrite length_le_bytes. Qed.
#[global] Hint Rewrite zlen_le_bytes : zlen.

Lemma le_bytes_ok n z : bytes_ok (le_bytes n z).
Proof.
  revert z. induction n as [|n IH]; intros z; constructor; [|apply IH].
  unfold byte_ok. pose proof (Z.mod_pos_bound z 256). lia.
Qed.

Lemma le_int_bytes n z : in_u (8 * Z.of_nat n) z -> le_int (le_bytes n z) = z.
Proof.
  unfold in_u. revert z. induction n as [|n IH]; intros z Hz; simpl.
  - simpl in Hz. lia.
  - rewrite Nat2Z.inj_succ in Hz.
    replace (8 * Z.succ (Z.of_nat n)) with (8 + 8 * Z.of_nat n) in Hz by lia.
    rewrite Z.pow_add_r in Hz by lia.
    rewrite IH; [pose proof (Z.div_mod z 256); lia|].
    split; [apply Z.div_pos; lia|apply Z.div_lt_upper_bound; lia].
Qed.

Lemma le_int_range bs : bytes_ok bs -> in_u (8 * zlen bs) (le_int bs).
Proof.
  unfold in_u. induction 1 as [|b bs Hb Hbs IH]; simpl.
  - done.
  - rewrite zlen_cons. replace (8 * (1 + zlen bs)) with (8 + 8 * zlen bs) by lia.
    pose proof (zlen_nonneg bs). rewrite Z.pow_add_r by lia.
    unfold byte_ok in Hb. change (2 ^ 8) with 256. nia.
Qed.

(** [from_le_bytes(read_exact(data, pos, n)?)] *)
Definition read_le (n : Z) : reader Z := bs ← read_exact n; mret (le_int bs).

Lemma decodes_read_le n z :
  in_u (8 * Z.of_nat n) z -> decodes (read_le (Z.of_nat n)) (le_bytes n z) z.
Proof.
  intros Hz. unfold read_le. rewrite <- (le_int_bytes n z) at 2 by done.
  apply (decodes_bind_ret _ le_int), decodes_read_exact. by rewrite zlen_le_bytes.
Qed.

(** ** UTF-8

    The acceptance table of [std::str::from_utf8]: no overlong form, no
    surrogate, nothing past U+10FFFF. *)
Definition between (lo hi b : Z) : bool := (lo <=? b) && (b <=? hi).
Definition is_cont (b : Z) : bool := between 0x80 0xBF b.

Fixpoint utf8_valid (bs : bytes) : bool :=
  match bs with
  | [] => true
  | b0 :: bs =>
      if between 0 0x7F b0 then utf8_valid bs
      else if between 0xC2 0xDF b0 then
        match bs with b1 :: bs => is_cont b1 && utf8_valid bs | [] => false end
      else if between 0xE0 0xEF b0 then
        match bs with
        | b1 :: b2 :: bs =>
            (if b0 =? 0xE0 then between 0xA0 0xBF b1
             else if b0 =? 0xED then between 0x80 0x9F b1 else is_cont b1)
            && is_cont b2 && utf8_valid bs
        | _ => false
        end
      else if between 0xF0 0xF4 b0 then
        match bs with
        | b1 :: b2 :: b3 :: bs =>
            (if b0 =? 0xF0 then between 0x90 0xBF b1
             else if b0 =? 0xF4 then between 0x80 0x8F b1 else is_cont b1)
            && is_cont b2 && is_cont b3 && utf8_valid bs
        | _ => false
        end
      else false
  end.

(** [std::str::from_utf8(bytes).map_err(|_| e)] *)
Definition from_utf8 (e : CommitCodecError) (bs : bytes) : result str :=
  if utf8_valid bs then Ok bs else Err e.

Lemma from_utf8_Ok e bs : utf8_valid bs = true -> from_utf8 e bs = Ok bs.
Proof. intros H. unfold from_utf8. by rewrite H. Qed.

(** ** Capacity requests

    [Vec::with_capacity(n)] panics when the buffer would exceed [isize::MAX]
    bytes; [HashMap::with_capacity(n)] panics when its bucket array would:
    hashbrown asks for [(8n/7).next_power_of_two()] buckets, and with 32-byte
    entries and one control byte a bucket, 2^57 buckets still fit. *)
Definition vec_with_capacity (elem_size n : Z) : result unit :=
  if isize_max <? elem_size * n then Panic else Ok tt.

Definition hashmap_with_capacity (n : Z) : result unit :=
  if (2 ^ 64 <=? 8 * n) || (2 ^ 57 <? (8 * n) `div` 7) then Panic else Ok tt.

Lemma vec_with_capacity_Ok elem_size n :
  elem_size * n <= isize_max -> vec_with_capacity elem_size n = Ok tt.
Proof. intros H. unfold vec_with_capacity. case_Z. done. Qed.

Lemma hashmap_with_capacity_Ok n :
  0 <= n <= 2 ^ 56 -> hashmap_with_capacity n = Ok tt.
Proof.
  intros H. unfold hashmap_with_capacity.
  assert ((8 * n) `div` 7 <= 2 ^ 57) by (apply Z.div_le_upper_bound; lia).
  case_Z; done.
Qed.
