(* ===== verification/Vocab.v ===== *)
(** * Namespace vocabulary

    The namespace codes of [fluree-vocab/src/lib.rs] and the prefixes that
    [default_namespace_codes] of [fluree-db-core/src/namespaces.rs] registers
    for them. *)

From stdpp Require Import base list numbers gmap strings.
From Stdlib Require Import ZArith.
From S2P Require Import Prelude Bytes.

Local Open Scope Z_scope.

Definition EMPTY : Z := 0.
Definition JSON_LD : Z := 1.
Definition XSD : Z := 2.
Definition RDF : Z := 3.
Definition RDFS : Z := 4.
Definition SHACL : Z := 5.
Definition OWL : Z := 6.
Definition FLUREE_DB : Z := 7.
Definition DID_KEY : Z := 8.
Definition FLUREE_COMMIT : Z := 9.
Definition BLANK_NODE : Z := 10.
Definition OGC_GEO : Z := 11.
Definition FLUREE_URN : Z := 12.
Definition USER_START : Z := 13.
Definition OVERFLOW : Z := 0xFFFE.

(** The insertions of [default_namespace_codes], in order. *)
Definition default_entries : list (Z * str) :=
  [(EMPTY, []); (JSON_LD, bytes_of_string "@"%string);
   (XSD, bytes_of_string "http://www.w3.org/2001/XMLSchema#"%string);
   (RDF, bytes_of_string "http://www.w3.org/1999/02/22-rdf-syntax-ns#"%string);
   (RDFS, bytes_of_string "http://www.w3.org/2000/01/rdf-schema#"%string);
   (SHACL, bytes_of_string "http://www.w3.org/ns/shacl#"%string);
   (OWL, bytes_of_string "http://www.w3.org/2002/07/owl#"%string);
   (FLUREE_DB, bytes_of_string "https://ns.flur.ee/db#"%string);
   (DID_KEY, bytes_of_string "did:key:"%string);
   (FLUREE_COMMIT, bytes_of_string "fluree:commit:sha256:"%string);
   (BLANK_NODE, bytes_of_string "_:"%string);
   (OGC_GEO, bytes_of_string "http://www.opengis.net/ont/geosparql#"%string);
   (FLUREE_URN, bytes_of_string "urn:fluree:"%string)].

Definition default_namespace_codes : gmap Z str :=
  foldl (fun m e => <[e.1 := e.2]> m) ∅ default_entries.
