(* ===== verification/Varint.v ===== *)
(** * Varints and zigzag integers

    Models src/fluree-db-core/src/commit/codec/varint.rs.  [encode_varint]
    appends the LEB128 bytes of a [u64] to a buffer; [decode_varint] is a
    [reader].  The decoder is modelled as the release profile compiles it: no
    overflow checks, so that [payload << shift] masks the shift amount to six
    bits and [shift += 7] wraps at 32 bits. *)

From S2P Require Import Prelude Bytes.
From stdpp Require Import base list numbers.
From Stdlib Require Import ZArith Lia.

Local Open Scope Z_scope.

(** The loop body of [encode_varint].  A [u64] has at most ten groups of seven
    bits, so ten rounds always reach the [break] ([varint_bytes_fuel]). *)
Fixpoint varint_loop (fuel : nat) (value : Z) : bytes :=
  match fuel with
  | O => []
  | S fuel =>
      let byte := Z.land value 0x7F in
      let value := Z.shiftr value 7 in
      if value =? 0 then [byte] else Z.lor byte 0x80 :: varint_loop fuel value
  end.

Definition varint_bytes (value : Z) : bytes := varint_loop 10 value.

Definition encode_varint (value : Z) (buf : bytes) : bytes :=
  buf ++ varint_bytes value.

(** The loop of [decode_varint] on what is left of the buffer. *)
Fixpoint decode_varint_loop (rest : bytes) (pos acc shift : Z) : result (Z * Z) :=
  match rest with
  | [] => Err UnexpectedEof
  | byte :: rest =>
      let pos := pos + 1 in
      let payload := Z.land byte 0x7F in
      if (63 <=? shift) && (1 <? payload) then Err InvalidOp
      else
        let acc := Z.lor acc (as_u 64 (Z.shiftl payload (shift `mod` 64))) in
        if Z.land byte 0x80 =? 0 then Ok (acc, pos)
        else decode_varint_loop rest pos acc (as_u 32 (shift + 7))
  end.

Definition decode_varint : reader Z := fun buf pos =>
  decode_varint_loop (drop (Z.to_nat pos) buf) pos 0 0.

(** On [i64] values: [<<] wraps, [>>] is arithmetic, [as u64] reinterprets. *)
Definition zigzag_encode (value : Z) : Z :=
  as_u 64 (Z.lxor (as_i 64 (Z.shiftl value 1)) (Z.shiftr value 63)).

Definition zigzag_decode (value : Z) : Z :=
  Z.lxor (as_i 64 (Z.shiftr value 1)) (- as_i 64 (Z.land value 1)).

(** ** The encoder *)

Lemma land_7F z : Z.land z 0x7F = z `mod` 128.
Proof. apply (land_ones_mod z 7). lia. Qed.

Lemma shiftr_7 z : Z.shiftr z 7 = z `div` 128.
Proof. by rewrite Z.shiftr_div_pow2. Qed.

Lemma lor_80 b : 0 <= b < 128 -> Z.lor b 0x80 = b + 128.
Proof. intros H. by apply (lor_shiftl_add b 1 7). Qed.

Lemma land_80 b : byte_ok b -> Z.land b 0x80 = 0 <-> b < 128.
Proof.
  unfold byte_ok. intros H. change 0x80 with (2 ^ 7).
  assert (Z.land b (2 ^ 7) = if Z.testbit b 7 then 2 ^ 7 else 0) as ->.
  { apply Z.bits_inj'. intros n Hn. rewrite Z.land_spec, Z.pow2_bits_eqb by lia.
    destruct (Z.eqb_spec 7 n) as [<-|]; [by destruct (Z.testbit b 7)|].
    rewrite andb_false_r. destruct (Z.testbit b 7); [|by rewrite Z.bits_0].
    rewrite Z.pow2_bits_eqb by lia. by destruct (Z.eqb_spec 7 n). }
  rewrite Z.testbit_eqb by lia. change (2 ^ 7) with 128.
  assert (b / 128 = 0 \/ b / 128 = 1) as [E|E] by (pose proof (Z.div_mod b 128); pose proof (Z.mod_pos_bound b 128); lia);
    rewrite E; simpl; pose proof (Z.div_mod b 128); pose proof (Z.mod_pos_bound b 128); lia.
Qed.

(** Ten rounds are enough for every [u64]: the loop is left through its
    [break], and more fuel changes nothing. *)
Lemma varint_loop_fuel n m value :
  0 <= value < 128 ^ Z.of_nat (S n) -> varint_loop (S n + m) value = varint_loop (S n) value.
Proof.
  revert value. induction n as [|n IH]; intros value Hv; cbn [Nat.add varint_loop];
    rewrite shiftr_7; destruct (Z.eqb_spec (value / 128) 0) as [|Hne]; try done.
  - exfalso. apply Hne, Z.div_small. by simpl in Hv.
  - f_equal. apply IH. split; [apply Z.div_pos; lia|].
    apply Z.div_lt_upper_bound; [lia|].
    rewrite Nat2Z.inj_succ, Z.pow_succ_r in Hv by lia. lia.
Qed.

Lemma varint_loop_ok n value : 0 <= value -> bytes_ok (varint_loop n value).
Proof.
  revert value. induction n as [|n IH]; intros value Hv; [constructor|].
  cbn [varint_loop]. rewrite land_7F, shiftr_7.
  pose proof (Z.mod_pos_bound value 128). unfold bytes_ok, byte_ok in *.
  destruct (value / 128 =? 0); repeat constructor; rewrite ?lor_80; try lia.
  apply IH, Z.div_pos; lia.
Qed.

Lemma zlen_varint_loop n value : zlen (varint_loop n value) <= Z.of_nat n.
Proof.
  revert value. induction n as [|n IH]; intros value; [done|]. cbn [varint_loop].
  specialize (IH (Z.shiftr value 7)).
  destruct (Z.shiftr value 7 =? 0); rewrite !zlen_cons, ?zlen_nil; lia.
Qed.

Lemma varint_bytes_ok value : 0 <= value -> bytes_ok (varint_bytes value).
Proof. apply varint_loop_ok. Qed.

Lemma zlen_varint_bytes value : 1 <= zlen (varint_bytes value) <= 10.
Proof.
  split; [|apply (zlen_varint_loop 10)]. unfold varint_bytes. cbn [varint_loop].
  destruct (_ =? 0); rewrite zlen_cons; [done|].
  pose proof (zlen_nonneg (varint_loop 9 (Z.shiftr value 7))). cbn [varint_loop] in *. lia.
Qed.

(** ** The decoder *)

(** One round of the loop on a payload that fits. *)
Lemma decode_varint_step byte rest pos acc shift :
  byte_ok byte -> 0 <= shift < 64 -> 0 <= acc < 2 ^ shift ->
  byte `mod` 128 * 2 ^ shift < 2 ^ 64 ->
  decode_varint_loop (byte :: rest) pos acc shift =
    let acc := acc + byte `mod` 128 * 2 ^ shift in
    if byte <? 128 then Ok (acc, pos + 1)
    else decode_varint_loop rest (pos + 1) acc (shift + 7).
Proof.
  intros Hb Hs Hacc Hfit. cbn [decode_varint_loop]. rewrite land_7F.
  pose proof (Z.mod_pos_bound byte 128) as Hm.
  destruct (Z.leb_spec 63 shift); destruct (Z.ltb_spec 1 (byte `mod` 128)); simpl.
  1: { assert (shift = 63) as -> by lia. lia. }
  all: rewrite (Z.mod_small shift 64) by lia.
  all: rewrite as_u_id by (unfold in_u; rewrite Z.shiftl_mul_pow2 by lia;
    split; [apply Z.mul_nonneg_nonneg|]; lia).
  all: rewrite lor_shiftl_add by lia.
  all: rewrite as_u_id by (unfold in_u; lia).
  all: pose proof (land_80 byte Hb).
  all: destruct (Z.eqb_spec (Z.land byte 0x80) 0), (Z.ltb_spec byte 128); try done; lia.
Qed.

Lemma decode_varint_loop_encoded n value post pos acc shift :
  0 <= value < 128 ^ Z.of_nat n -> n <> O ->
  0 <= shift < 64 -> 0 <= acc < 2 ^ shift -> value * 2 ^ shift < 2 ^ 64 ->
  decode_varint_loop (varint_loop n value ++ post) pos acc shift =
    Ok (acc + value * 2 ^ shift, pos + zlen (varint_loop n value)).
Proof.
  revert value pos acc shift.
  induction n as [|n IH]; intros value pos acc shift Hv Hn Hs Hacc Hfit; [done|].
  cbn [varint_loop]. rewrite land_7F, shiftr_7.
  pose proof (Z.mod_pos_bound value 128 ltac:(lia)) as Hmod.
  pose proof (Z.div_mod value 128 ltac:(lia)) as Hdm.
  set (q := value / 128) in *. set (m := value `mod` 128) in *.
  assert (0 <= q) by lia.
  assert (m * 2 ^ shift < 2 ^ 64).
  { eapply Z.le_lt_trans; [apply Z.mul_le_mono_nonneg_r|exact Hfit]; lia. }
  rewrite Nat2Z.inj_succ, Z.pow_succ_r in Hv by lia.
  assert (m `mod` 128 = m) as Hmm by (apply Z.mod_small; lia).
  destruct (Z.eqb_spec q 0) as [E|E]; cbn [app].
  - rewrite decode_varint_step; rewrite ?Hmm; unfold byte_ok; try lia.
    case_Z. do 3 f_equal. lia.
  - rewrite lor_80 by lia.
    assert ((m + 128) `mod` 128 = m) as Hm1.
    { rewrite <- (Z.mul_1_l 128) at 1. by rewrite Z.mod_add. }
    rewrite decode_varint_step; rewrite ?Hm1; unfold byte_ok; try lia.
    case_Z. set (p := 2 ^ shift) in *.
    assert (2 ^ (shift + 7) = p * 128) as Hp by (rewrite Z.pow_add_r by lia; lia).
    assert (value * p = m * p + q * (p * 128)) as Hvp by (rewrite Hdm; ring).
    assert (0 <= m * p <= 127 * p) by nia.
    assert (shift < 57).
    { assert (p < 2 ^ 57) by nia. unfold p in *. apply (Z.pow_lt_mono_r_iff 2); lia. }
    rewrite IH; rewrite ?Hp; try lia.
    + do 2 f_equal; [lia|]. rewrite zlen_cons. lia.
    + destruct n; [simpl in Hv; lia|done].
Qed.

Lemma decodes_varint value :
  in_u 64 value -> decodes decode_varint (varint_bytes value) value.
Proof.
  intros Hv pre post Hfit. unfold decode_varint, in_u in *.
  rewrite zlen_to_nat, drop_app_length. unfold varint_bytes.
  rewrite decode_varint_loop_encoded; [by rewrite Z.add_0_l, Z.mul_1_r| |done..|lia].
  simpl. lia.
Qed.

(** Whatever the buffer holds, a successful decode returns a [u64] and leaves
    the cursor strictly further, inside the buffer. *)
Lemma decode_varint_loop_range rest pos acc shift v pos' :
  in_u 64 acc -> decode_varint_loop rest pos acc shift = Ok (v, pos') ->
  in_u 64 v /\ pos < pos' <= pos + zlen rest.
Proof.
  unfold in_u. revert pos acc shift.
  induction rest as [|byte rest IH]; intros pos acc shift Hacc H; [done|].
  cbn [decode_varint_loop] in H. destruct ((63 <=? shift) && _); [done|].
  set (acc' := Z.lor acc _) in *.
  assert (in_u 64 acc') as Hacc'.
  { apply lor_range; [lia|done|]. by apply as_u_range. }
  rewrite zlen_cons. pose proof (zlen_nonneg rest). destruct (_ =? 0).
  - injection H as <- <-. split; [done|lia].
  - apply IH in H as [? ?]; [|done]. split; [done|lia].
Qed.

(** ** Zigzag *)

Lemma zigzag_encode_spec v :
  in_i 64 v -> zigzag_encode v = if v <? 0 then - 2 * v - 1 else 2 * v.
Proof.
  unfold in_i, zigzag_encode. intros Hv. rewrite Z.shiftr_div_pow2, Z.shiftl_mul_pow2 by lia.
  change (64 - 1) with 63 in *.
  destruct (Z.ltb_spec v 0).
  - replace (v / 2 ^ 63) with (-1) by (apply Z.div_unique with (v + 2 ^ 63); lia).
    rewrite Z.lxor_m1_r. unfold Z.lnot, as_u, as_i.
    destruct (decide (v < - 2 ^ 62)).
    + rewrite <- (Z.mod_unique (v * 2 ^ 1) (2 ^ 64) (-1) (v * 2 + 2 ^ 64)) by lia.
      case_Z. rewrite <- (Z.mod_unique _ (2 ^ 64) (-1) (- 2 * v - 1)); lia.
    + rewrite <- (Z.mod_unique (v * 2 ^ 1) (2 ^ 64) (-1) (v * 2 + 2 ^ 64)) by lia.
      case_Z. rewrite Z.mod_small; lia.
  - rewrite (Z.div_small v) by lia. rewrite Z.lxor_0_r. unfold as_u, as_i.
    rewrite (Z.mod_small (v * 2 ^ 1)) by lia. case_Z.
    + rewrite Z.mod_small; lia.
    + rewrite <- (Z.mod_unique _ (2 ^ 64) (-1) (2 * v)); lia.
Qed.

Lemma zigzag_decode_spec u :
  in_u 64 u -> zigzag_decode u = if Z.even u then u / 2 else - (u / 2) - 1.
Proof.
  unfold in_u, zigzag_decode. intros Hu.
  assert (Z.land u 1 = u `mod` 2) as -> by (apply (land_ones_mod u 1); lia).
  rewrite Z.shiftr_div_pow2 by lia.
  change (2 ^ 1) with 2. pose proof (Z.div_mod u 2).
  rewrite as_i_id by (done || (unfold in_i; split; [|apply Z.div_lt_upper_bound]; pose proof (Z.div_pos u 2); lia)).
  rewrite Zmod_even. destruct (Z.even u).
  - change (as_i 64 0) with 0. by rewrite Z.lxor_0_r.
  - change (- as_i 64 1) with (-1). rewrite Z.lxor_m1_r. unfold Z.lnot. lia.
Qed.

Lemma zigzag_encode_range v : in_i 64 v -> in_u 64 (zigzag_encode v).
Proof.
  intros Hv. rewrite zigzag_encode_spec by done. unfold in_i, in_u in *. case_Z.
Qed.

Lemma zigzag_decode_encode v : in_i 64 v -> zigzag_decode (zigzag_encode v) = v.
Proof.
  intros Hv. rewrite zigzag_decode_spec by by apply zigzag_encode_range.
  rewrite zigzag_encode_spec by done. destruct (Z.ltb_spec v 0).
  - replace (-2 * v - 1) with (1 + 2 * (- v - 1)) by lia. rewrite Z.even_add_mul_2. simpl.
    rewrite (Z.mul_comm 2), Z.div_add by lia. change (1 / 2) with 0. lia.
  - rewrite Z.even_mul. simpl. rewrite Z.mul_comm, Z.div_mul; lia.
Qed.

Lemma zigzag_encode_decode u : in_u 64 u -> zigzag_encode (zigzag_decode u) = u.
Proof.
  intros Hu. rewrite zigzag_decode_spec by done. pose proof (Z.div_mod u 2 ltac:(lia)) as Hdm.
  rewrite Zmod_even in Hdm. unfold in_u in Hu.
  destruct (Z.even u); rewrite zigzag_encode_spec by (unfold in_i; lia); case_Z.
Qed.

(** A zigzag integer read back through its varint. *)
Lemma decodes_zigzag v :
  in_i 64 v ->
  decodes (x ← decode_varint; mret (zigzag_decode x)) (varint_bytes (zigzag_encode v)) v.
Proof.
  intros Hv. rewrite <- (zigzag_decode_encode v) at 2 by done.
  by apply (decodes_bind_ret _ zigzag_decode), decodes_varint, zigzag_encode_range.
Qed.

#[export] Hint Resolve decodes_varint decodes_zigzag zigzag_encode_range : decodes.

(** ** Properties *)

(** Varint round trip: decoding at the position where a [u64] was encoded
    returns it and stops right after it, whatever follows; the encoding takes
    at most ten bytes. *)
Theorem varint_roundtrip value buf rest :
  in_u 64 value -> zlen (encode_varint value buf ++ rest) <= isize_max ->
  decode_varint (encode_varint value buf ++ rest) (zlen buf) =
    Ok (value, zlen (encode_varint value buf)) /\
  zlen (encode_varint value buf) <= zlen buf + 10.
Proof.
  unfold encode_varint. intros Hv Hfit. rewrite <- app_assoc in *. split.
  - rewrite decodes_varint by done. by rewrite zlen_app.
  - rewrite zlen_app. pose proof (zlen_varint_bytes value). lia.
Qed.

Lemma varint_roundtrip_witness :
  decode_varint (encode_varint (2 ^ 64 - 1) [7] ++ [9]) 1 =
    Ok (2 ^ 64 - 1, zlen (encode_varint (2 ^ 64 - 1) [7])) /\
  zlen (encode_varint (2 ^ 64 - 1) [7]) <= zlen [7] + 10.
Proof. apply (varint_roundtrip (2 ^ 64 - 1) [7] [9]); vm_compute; split || done; done. Defined.

(** Zigzag is a bijection between the 64-bit signed and unsigned integers:
    each direction undoes the other, at full machine width. *)
Theorem zigzag_bijection :
  (forall v, in_i 64 v -> in_u 64 (zigzag_encode v) /\ zigzag_decode (zigzag_encode v) = v) /\
  (forall u, in_u 64 u -> zigzag_encode (zigzag_decode u) = u).
Proof.
  split; intros; [split|]; eauto using zigzag_encode_range, zigzag_decode_encode, zigzag_encode_decode.
Qed.

(** The number that groups of seven bits spell, the least significant first. *)
Definition groups_value (groups : bytes) : Z := foldr (fun byte acc => byte `mod` 128 + 128 * acc) 0 groups.

Lemma groups_value_snoc groups byte :
  groups_value (groups ++ [byte]) = groups_value groups + byte `mod` 128 * 2 ^ (7 * zlen groups).
Proof.
  induction groups as [|g groups IH]; cbn [app groups_value foldr].
  - change (byte `mod` 128 + 128 * 0 = 0 + byte `mod` 128 * 2 ^ 0). lia.
  - unfold groups_value in *. rewrite IH, zlen_cons. pose proof (zlen_nonneg groups).
    replace (7 * (1 + zlen groups)) with (7 + 7 * zlen groups) by lia. rewrite Z.pow_add_r by lia. change (2 ^ 7) with 128. lia.
Qed.

Lemma groups_value_range groups : 0 <= groups_value groups < 2 ^ (7 * zlen groups).
Proof.
  induction groups as [|g groups IH]; [done|]. cbn [groups_value foldr]. rewrite zlen_cons. pose proof (zlen_nonneg groups).
  replace (7 * (1 + zlen groups)) with (7 + 7 * zlen groups) by lia. rewrite Z.pow_add_r by lia. change (2 ^ 7) with 128.
  fold (groups_value groups). pose proof (Z.mod_pos_bound g 128 ltac:(lia)). lia.
Qed.

(** Groups that continue are collected. *)
Lemma decode_varint_continues groups : forall rest pos acc shift,
  Forall (fun byte => 128 <= byte < 256) groups -> 0 <= shift -> shift + 7 * zlen groups <= 63 -> 0 <= acc < 2 ^ shift ->
  decode_varint_loop (groups ++ rest) pos acc shift =
    decode_varint_loop rest (pos + zlen groups) (acc + groups_value groups * 2 ^ shift) (shift + 7 * zlen groups).
Proof.
  induction groups as [|byte groups IH]; intros rest pos acc shift Hg Hs Hfit Hacc.
  { cbn. change (zlen (@nil Z)) with 0. by rewrite !Z.add_0_r. }
  apply Forall_cons_1 in Hg as [Hb Hg]. rewrite zlen_cons in Hfit. pose proof (zlen_nonneg groups).
  pose proof (Z.mod_pos_bound byte 128 ltac:(lia)) as Hm.
  assert (2 ^ shift <= 2 ^ 56) by (apply Z.pow_le_mono_r; lia). assert (0 < 2 ^ shift) by (apply Z.pow_pos_nonneg; lia).
  assert (2 ^ (shift + 7) = 128 * 2 ^ shift) as Hp by (rewrite Z.pow_add_r by lia; lia).
  cbn [app]. rewrite decode_varint_step; [|unfold byte_ok; lia|lia|done|nia]. cbv zeta.
  rewrite (proj2 (Z.ltb_ge byte 128)) by lia. rewrite IH; [|done|lia|lia|nia].
  rewrite zlen_cons. cbn [groups_value foldr]. fold (groups_value groups). rewrite Hp. f_equal; lia.
Qed.

(** C40: Decoding a varint of at most ten bytes is exact: nine groups at most that
    continue and one that ends give the number they spell if it fits a [u64], and
    the cursor right after them, and are refused if it does not; a buffer that
    ends before the last group is refused.  Whatever the bytes, a number that is
    returned is a [u64] and the cursor stays inside the buffer.  (Longer
    encodings: [overlong_varint_accepted].) *)
Theorem decode_varint_exact buf pos groups rest :
  0 <= pos <= zlen buf -> drop (Z.to_nat pos) buf = groups ++ rest ->
  Forall (fun byte => 128 <= byte < 256) groups -> zlen groups <= 9 ->
  (rest = [] -> decode_varint buf pos = Err UnexpectedEof) /\
  (forall byte post, rest = byte :: post -> 0 <= byte < 128 ->
    decode_varint buf pos =
      if groups_value (groups ++ [byte]) <? 2 ^ 64 then Ok (groups_value (groups ++ [byte]), pos + zlen groups + 1)
      else Err InvalidOp) /\
  (forall v pos', decode_varint buf pos = Ok (v, pos') -> in_u 64 v /\ pos < pos' <= zlen buf).
Proof.
  intros Hpos E Hg Hn. pose proof (zlen_nonneg groups) as H0. pose proof (groups_value_range groups) as Hr.
  unfold decode_varint. rewrite E, decode_varint_continues; [|done|lia|lia|done].
  rewrite !Z.add_0_l, Z.mul_1_r. split_and!.
  - by intros ->.
  - intros byte post -> Hb. rewrite groups_value_snoc. rewrite (Z.mod_small byte 128) by lia.
    set (p := 2 ^ (7 * zlen groups)) in *. assert (0 < p) by (apply Z.pow_pos_nonneg; lia).
    destruct (decide (zlen groups = 9 /\ 1 < byte)) as [[E9 Hbig]|Hsmall].
    + assert (p = 2 ^ 63) as Hp by (subst p; by rewrite E9). rewrite (proj2 (Z.ltb_ge _ _)) by lia. rewrite E9.
      cbn [decode_varint_loop]. rewrite land_7F, (Z.mod_small byte 128) by lia. by rewrite (proj2 (Z.ltb_lt 1 byte)) by lia.
    + assert (byte * p <= 2 ^ 63) as Hle.
      { destruct (decide (zlen groups = 9)) as [E9|]; [assert (p = 2 ^ 63) by (subst p; by rewrite E9); nia|].
        assert (p <= 2 ^ 56) by (apply Z.pow_le_mono_r; lia). nia. }
      assert (p <= 2 ^ 63) by (apply Z.pow_le_mono_r; lia).
      rewrite (proj2 (Z.ltb_lt _ _)) by lia. rewrite decode_varint_step; [|unfold byte_ok; lia|lia|done|rewrite Z.mod_small by lia; fold p; lia].
      cbv zeta. rewrite (Z.mod_small byte 128), (proj2 (Z.ltb_lt byte 128)) by lia. done.
  - intros v pos' H. assert (in_u 64 (groups_value groups)) as Ha.
    { unfold in_u. assert (2 ^ (7 * zlen groups) <= 2 ^ 63) by (apply Z.pow_le_mono_r; lia). lia. }
    apply decode_varint_loop_range in H as [Hv Hp]; [|done]. split; [done|].
    apply (f_equal zlen) in E. unfold zlen in *. rewrite length_drop, length_app in E. lia.
Qed.

Lemma decode_varint_exact_witness :
  decode_varint [9; 0xAC; 0x02; 7] 1 = Ok (300, 3) /\
  decode_varint (repeat 0xFF 9 ++ [2]) 0 = Err InvalidOp.
Proof.
  split.
  - destruct (decode_varint_exact [9; 0xAC; 0x02; 7] 1 [0xAC] [2; 7]) as (_ & H & _);
      [by vm_compute|reflexivity|by repeat constructor|by vm_compute|].
    exact (H 2 [7] eq_refl (conj (Z.le_0_2) eq_refl)).
  - destruct (decode_varint_exact (repeat 0xFF 9 ++ [2]) 0 (repeat 0xFF 9) [2]) as (_ & H & _);
      [by vm_compute|reflexivity|by repeat constructor|by vm_compute|].
    exact (H 2 [] eq_refl (conj (Z.le_0_2) eq_refl)).
Defined.

(** The check on [shift] does not stop an overlong encoding: eleven groups
    decode to 64, where a [u64] varint has at most ten. *)
Lemma overlong_varint_accepted :
  decode_varint [0x80; 0x80; 0x80; 0x80; 0x80; 0x80; 0x80; 0x80; 0x80; 0x80; 1] 0 = Ok (64, 11).
Proof. vm_compute. reflexivity. Qed.
