(* ===== verification/Cmp.v ===== *)
(** * Three-way comparisons

    Rust's [Ord::cmp] is a function to [comparison].  [CmpLaws P c] states that
    [c] is a total preorder on the values that satisfy [P]: swapping the
    arguments reverses the answer, equivalent values compare alike and [Lt] is
    transitive.  The instances follow the way the code builds comparators: by
    [then_with], through a key, on options, slices and machine integers. *)

From S2P Require Import Prelude.
From stdpp Require Import base list numbers sorting.
From Stdlib Require Import ZArith QArith Lia.

Local Open Scope Z_scope.

(** [Ordering::then_with] *)
Definition then_with (c d : comparison) : comparison :=
  match c with Eq => d | _ => c end.

Class CmpLaws {A} (P : A -> Prop) (c : A -> A -> comparison) : Prop := {
  cmp_sym x y : P x -> P y -> c y x = CompOpp (c x y);
  cmp_eq_l x y z : P x -> P y -> P z -> c x y = Eq -> c x z = c y z;
  cmp_lt_trans x y z : P x -> P y -> P z -> c x y = Lt -> c y z = Lt -> c x z = Lt;
}.

Definition everything {A} (_ : A) : Prop := True.
#[export] Hint Unfold everything : core.

Section derived.
Context {A} {P : A -> Prop} {c : A -> A -> comparison} `{!CmpLaws P c}.

Lemma cmp_refl x : P x -> c x x = Eq.
Proof. intros Hx. pose proof (cmp_sym (c := c) x x Hx Hx) as H. by destruct (c x x). Qed.

Lemma cmp_eq_sym x y : P x -> P y -> c x y = Eq -> c y x = Eq.
Proof. intros Hx Hy H. by rewrite (cmp_sym (c := c) x y), H. Qed.

Lemma cmp_gt_lt x y : P x -> P y -> c x y = Gt <-> c y x = Lt.
Proof. intros Hx Hy. rewrite (cmp_sym (c := c) x y) by done. by destruct (c x y). Qed.

Lemma cmp_eq_r x y z : P x -> P y -> P z -> c y z = Eq -> c x y = c x z.
Proof.
  intros Hx Hy Hz H. rewrite (cmp_sym (c := c) y x), (cmp_sym (c := c) z x) by done.
  by rewrite (cmp_eq_l (c := c) y z x).
Qed.

Lemma cmp_le_trans x y z :
  P x -> P y -> P z -> c x y <> Gt -> c y z <> Gt -> c x z <> Gt.
Proof.
  intros Hx Hy Hz H1 H2. destruct (c x y) eqn:E1; [|destruct (c y z) eqn:E2|]; try done.
  - by rewrite (cmp_eq_l (c := c) x y z).
  - by rewrite <- (cmp_eq_r x y z), E1.
  - by rewrite (cmp_lt_trans (c := c) x y z).
Qed.

Lemma cmp_le_total x y : P x -> P y -> c x y <> Gt \/ c y x <> Gt.
Proof. intros Hx Hy. rewrite (cmp_sym (c := c) x y) by done. destruct (c x y); auto. Qed.

Lemma cmp_lt_le x y z : P x -> P y -> P z -> c x y = Lt -> c y z <> Gt -> c x z = Lt.
Proof.
  intros Hx Hy Hz H1 H2. destruct (c y z) eqn:E; [| |done].
  - by rewrite <- (cmp_eq_r x y z).
  - by apply (cmp_lt_trans (c := c) x y z).
Qed.

Lemma cmp_le_lt x y z : P x -> P y -> P z -> c x y <> Gt -> c y z = Lt -> c x z = Lt.
Proof.
  intros Hx Hy Hz H1 H2. destruct (c x y) eqn:E; [| |done].
  - by rewrite (cmp_eq_l (c := c) x y z).
  - by apply (cmp_lt_trans (c := c) x y z).
Qed.
End derived.

(** ** Combinators *)

Lemma then_with_Eq c d : then_with c d = Eq <-> c = Eq /\ d = Eq.
Proof. destruct c, d; simpl; intuition congruence. Qed.
Lemma then_with_Lt c d : then_with c d = Lt <-> c = Lt \/ c = Eq /\ d = Lt.
Proof. destruct c, d; simpl; intuition congruence. Qed.
Lemma then_with_assoc a b c : then_with (then_with a b) c = then_with a (then_with b c).
Proof. by destruct a. Qed.
Lemma then_with_Eq_r c : then_with c Eq = c.
Proof. by destruct c. Qed.
Lemma CompOpp_then_with c d : CompOpp (then_with c d) = then_with (CompOpp c) (CompOpp d).
Proof. by destruct c. Qed.

#[export] Instance cmp_laws_then {A} (P : A -> Prop) c d :
  CmpLaws P c -> CmpLaws P d -> CmpLaws P (fun x y => then_with (c x y) (d x y)).
Proof.
  intros Hc Hd. split.
  - intros x y Hx Hy. by rewrite CompOpp_then_with, (cmp_sym (c := c) x y), (cmp_sym (c := d) x y).
  - intros x y z Hx Hy Hz [H1 H2]%then_with_Eq.
    by rewrite (cmp_eq_l (c := c) x y z), (cmp_eq_l (c := d) x y z).
  - intros x y z Hx Hy Hz. rewrite !then_with_Lt. intros [H1|[H1 H1']] [H2|[H2 H2']].
    + left. by apply (cmp_lt_trans (c := c) x y z).
    + left. by rewrite <- (cmp_eq_r (c := c) x y z).
    + left. by rewrite (cmp_eq_l (c := c) x y z).
    + right. rewrite (cmp_eq_l (c := c) x y z) by done. split; [done|].
      by apply (cmp_lt_trans (c := d) x y z).
Qed.

Lemma cmp_laws_key {A B} (P : A -> Prop) (Q : B -> Prop) (f : A -> B) c :
  (forall x, P x -> Q (f x)) -> CmpLaws Q c -> CmpLaws P (fun x y => c (f x) (f y)).
Proof.
  intros HQ Hc. split; intros.
  - apply cmp_sym; auto.
  - apply (cmp_eq_l (f x) (f y)); auto.
  - apply (cmp_lt_trans (f x) (f y)); auto.
Qed.

Lemma cmp_laws_ext {A} (P : A -> Prop) c d :
  (forall x y, P x -> P y -> c x y = d x y) -> CmpLaws P d -> CmpLaws P c.
Proof.
  intros E Hd. split.
  - intros x y Hx Hy. rewrite !E by done. by apply cmp_sym.
  - intros x y z Hx Hy Hz. rewrite !E by done. by apply cmp_eq_l.
  - intros x y z Hx Hy Hz. rewrite !E by done. by apply cmp_lt_trans.
Qed.

#[export] Instance cmp_laws_Z : CmpLaws everything Z.compare.
Proof.
  split; intros x y; intros; [by rewrite Z.compare_antisym| |].
  - match goal with H : _ = Eq |- _ => apply Z.compare_eq in H as -> end. done.
  - rewrite Z.compare_lt_iff in *. lia.
Qed.

#[export] Instance cmp_laws_Q : CmpLaws everything Qcompare.
Proof.
  split; intros x y; intros; [by rewrite Qcompare_antisym| |].
  - match goal with H : _ = Eq |- _ => apply Qeq_alt in H as -> end. done.
  - rewrite <- !Qlt_alt in *. by eapply Qlt_trans.
Qed.

(** [bool::cmp]: [false < true]. *)
Definition bool_cmp (a b : bool) : comparison := Z.compare (Z.b2z a) (Z.b2z b).
#[export] Instance cmp_laws_bool : CmpLaws everything bool_cmp.
Proof. apply (cmp_laws_key _ everything Z.b2z); [done|apply _]. Qed.

(** [Option::cmp] and the matches written like it: [None < Some]. *)
Definition option_cmp {A} (c : A -> A -> comparison) (a b : option A) : comparison :=
  match a, b with
  | None, None => Eq
  | None, Some _ => Lt
  | Some _, None => Gt
  | Some a, Some b => c a b
  end.

Definition option_all {A} (P : A -> Prop) (o : option A) : Prop :=
  match o with Some a => P a | None => True end.

#[export] Instance cmp_laws_option {A} (P : A -> Prop) c :
  CmpLaws P c -> CmpLaws (option_all P) (option_cmp c).
Proof.
  intros Hc. split.
  - intros [x|] [y|]; simpl; intros; try done. by apply cmp_sym.
  - intros [x|] [y|] [z|]; simpl; intros; try done. by apply cmp_eq_l.
  - intros [x|] [y|] [z|]; simpl; intros; try done. by apply (cmp_lt_trans (c := c) x y z).
Qed.

(** Slices and strings: lexicographic. *)
Fixpoint list_cmp {A} (c : A -> A -> comparison) (l k : list A) : comparison :=
  match l, k with
  | [], [] => Eq
  | [], _ :: _ => Lt
  | _ :: _, [] => Gt
  | x :: l, y :: k => then_with (c x y) (list_cmp c l k)
  end.

#[export] Instance cmp_laws_list {A} (P : A -> Prop) c :
  CmpLaws P c -> CmpLaws (Forall P) (list_cmp c).
Proof.
  intros Hc. split.
  - intros l k Hl. revert k. induction Hl as [|x l Hx Hl IH]; intros [|y k] Hk; try done.
    apply Forall_cons in Hk as [Hy Hk]. simpl. rewrite CompOpp_then_with, (cmp_sym (c := c) x y), (IH k) by done. done.
  - intros l k m Hl. revert k m. induction Hl as [|x l Hx Hl IH]; intros [|y k] [|z m] Hk Hm; try done.
    apply Forall_cons in Hk as [Hy Hk], Hm as [Hz Hm]. simpl. intros [H1 H2]%then_with_Eq.
    by rewrite (cmp_eq_l (c := c) x y z), (IH k m).
  - intros l k m Hl. revert k m. induction Hl as [|x l Hx Hl IH]; intros [|y k] [|z m] Hk Hm; try done.
    apply Forall_cons in Hk as [Hy Hk], Hm as [Hz Hm]. simpl.
    rewrite !then_with_Lt. intros [H1|[H1 H1']] [H2|[H2 H2']].
    + left. by apply (cmp_lt_trans (c := c) x y z).
    + left. by rewrite <- (cmp_eq_r (c := c) x y z).
    + left. by rewrite (cmp_eq_l (c := c) x y z).
    + right. rewrite (cmp_eq_l (c := c) x y z) by done. split; [done|]. by apply (IH k m).
Qed.

(** [str::cmp] compares the bytes. *)
Definition str_cmp : list Z -> list Z -> comparison := list_cmp Z.compare.

#[export] Instance cmp_laws_str : CmpLaws everything str_cmp.
Proof.
  eapply (cmp_laws_key _ (Forall everything) id); [|apply _].
  intros x _. by apply Forall_true.
Qed.

Lemma list_cmp_Eq {A} (c : A -> A -> comparison) l k :
  (forall x y, c x y = Eq -> x = y) -> list_cmp c l k = Eq -> l = k.
Proof.
  intros Hc. revert k. induction l as [|x l IH]; intros [|y k]; simpl; try done.
  intros [H1 H2]%then_with_Eq. f_equal; auto.
Qed.

Lemma str_cmp_Eq l k : str_cmp l k = Eq -> l = k.
Proof. apply list_cmp_Eq. apply Z.compare_eq. Qed.

Lemma list_cmp_nil_l {A} (c : A -> A -> comparison) l : list_cmp c [] l <> Gt.
Proof. by destruct l. Qed.
