(* ===== verification/Value.v ===== *)
(** * Subject ids and object values

    Models [Sid] (src/fluree-db-core/src/sid.rs) and [FlakeValue]
    (src/fluree-db-core/src/value.rs) with their orderings, which every index
    and every sorted segment of the database relies on.

    The lexical value types (dates, times, durations: temporal.rs over chrono)
    and the printers and parsers of big numbers enter through the interface
    [ValueLib]: a type per kind with its [Display], [parse] and [Ord::cmp]. An
    [f64] is its 64-bit pattern; comparisons read the IEEE-754 fields. *)

From S2P Require Import Prelude Bytes Cmp.
From stdpp Require Import base list numbers.
From Stdlib Require Import ZArith QArith Lia.

Local Open Scope Z_scope.

(** ** Subject ids *)
Record Sid := mkSid { namespace_code : Z; name : str }.

#[export] Instance Sid_eq_dec : EqDecision Sid.
Proof. solve_decision. Defined.

Definition sid_min : Sid := mkSid 0 [].
Definition sid_max : Sid := mkSid u16_max [].

Definition sid_cmp (a b : Sid) : comparison :=
  then_with (Z.compare (namespace_code a) (namespace_code b)) (str_cmp (name a) (name b)).

#[export] Instance sid_cmp_laws : CmpLaws everything sid_cmp.
Proof.
  apply (cmp_laws_then (A := Sid) everything
    (fun a b => Z.compare (namespace_code a) (namespace_code b))
    (fun a b => str_cmp (name a) (name b)));
  eapply (cmp_laws_key (A := Sid) _ everything _); done || apply _.
Qed.

Lemma sid_cmp_Eq a b : sid_cmp a b = Eq <-> a = b.
Proof.
  split; [|intros ->; by apply (cmp_refl (P := everything))].
  destruct a, b. unfold sid_cmp. simpl. intros [->%Z.compare_eq ->%str_cmp_Eq]%then_with_Eq.
  done.
Qed.

(** ** Floats *)
Abbreviation f64 := Z.

Definition f64_mag (b : f64) : Z := b `mod` 2 ^ 63.
Definition f64_neg (b : f64) : bool := 2 ^ 63 <=? b.
Definition f64_inf_mag : Z := 0x7FF * 2 ^ 52.
Definition f64_is_nan (b : f64) : bool := f64_inf_mag <? f64_mag b.
Definition f64_is_finite (b : f64) : bool := f64_mag b <? f64_inf_mag.

(** IEEE comparison: sign and magnitude, with [-0 = +0] and nothing on a NaN. *)
Definition f64_key (b : f64) : Z := if f64_neg b then - f64_mag b else f64_mag b.
Definition f64_partial_cmp (a b : f64) : option comparison :=
  if f64_is_nan a || f64_is_nan b then None
  else Some (Z.compare (f64_key a) (f64_key b)).

(** [partial_cmp(..).unwrap_or_else(|| a.to_bits().cmp(&b.to_bits()))] *)
Definition f64_cmp (a b : f64) : comparison :=
  default (Z.compare a b) (f64_partial_cmp a b).

(** The exact value of a finite float, in units of 2^-1074. *)
Definition mag_scaled (m : Z) : Z :=
  let e := m `div` 2 ^ 52 in
  let f := m `mod` 2 ^ 52 in
  if e =? 0 then f else (2 ^ 52 + f) * 2 ^ (e - 1).
Definition f64_scaled (b : f64) : Z :=
  if f64_neg b then - mag_scaled (f64_mag b) else mag_scaled (f64_mag b).
Definition f64_Q (b : f64) : Q := f64_scaled b # (2 ^ 1074).

(** ** The interface to lexical values and big numbers *)
Inductive LexKind :=
| KDateTime | KDate | KTime | KGYear | KGYearMonth | KGMonth | KGDay | KGMonthDay
| KYearMonthDuration | KDayTimeDuration | KDuration.

#[export] Instance LexKind_eq_dec : EqDecision LexKind.
Proof. solve_decision. Defined.

(** [BigDecimal]: the number [unscaled * 10^-scale]. *)
Record BigDecimal := mkDec { unscaled : Z; scale : Z }.

Definition dec_Q (d : BigDecimal) : Q :=
  if scale d <=? 0 then inject_Z (unscaled d * 10 ^ (- scale d))
  else unscaled d # Z.to_pos (10 ^ scale d).

Class ValueLib := {
  (** temporal.rs: the value types, their [original()] (which [Display]
      prints), [parse] and [Ord::cmp]; [Duration] alone has a coarser
      [partial_cmp] *)
  lex : LexKind -> Type;
  lex_original : forall k, lex k -> str;
  lex_parse : forall k, str -> option (lex k);
  lex_cmp : forall k, lex k -> lex k -> comparison;
  duration_partial_cmp : lex KDuration -> lex KDuration -> option comparison;
  (** num-bigint and bigdecimal: [Display] and [FromStr] *)
  bigint_display : Z -> str;
  bigint_parse : str -> option Z;
  dec_display : BigDecimal -> str;
  dec_parse : str -> option BigDecimal;
  (** [GeoPointBits::lat]/[lng]/[new] on the packed form *)
  geo_lat : Z -> f64;
  geo_lng : Z -> f64;
  geo_new : f64 -> f64 -> option Z;
}.

(** What the orderings rely on: each lexical kind is totally preordered. *)
Class ValueLibLaws `{ValueLib} := {
  lex_cmp_laws :: forall k, CmpLaws everything (lex_cmp k);
}.

(** ** Values *)
Inductive FlakeValue `{ValueLib} :=
| Ref (s : Sid)
| Boolean (b : bool)
| Long (v : Z)
| Double (v : f64)
| BigInt (v : Z)
| Decimal (v : BigDecimal)
| DateTime (v : lex KDateTime)
| Date (v : lex KDate)
| Time (v : lex KTime)
| GYear (v : lex KGYear)
| GYearMonth (v : lex KGYearMonth)
| GMonth (v : lex KGMonth)
| GDay (v : lex KGDay)
| GMonthDay (v : lex KGMonthDay)
| YearMonthDuration (v : lex KYearMonthDuration)
| DayTimeDuration (v : lex KDayTimeDuration)
| Duration (v : lex KDuration)
| String (s : str)
| Vector (v : list f64)
| Json (s : str)
| GeoPoint (bits : Z)
| Null.

Section values.
Context `{VL : ValueLib}.

Definition value_min : FlakeValue := Null.
Definition value_max : FlakeValue := Vector [].

Definition type_discriminant (v : FlakeValue) : Z :=
  match v with
  | Null => 0
  | Ref _ => 1
  | Boolean _ => 2
  | Long _ => 3
  | BigInt _ => 4
  | Double _ => 5
  | Decimal _ => 6
  | Date _ => 7
  | Time _ => 8
  | DateTime _ => 9
  | GYear _ => 10
  | GYearMonth _ => 11
  | GMonth _ => 12
  | GDay _ => 13
  | GMonthDay _ => 14
  | YearMonthDuration _ => 15
  | DayTimeDuration _ => 16
  | Duration _ => 17
  | String _ => 18
  | Json _ => 19
  | GeoPoint _ => 20
  | Vector _ => 21
  end.

Definition is_ref (v : FlakeValue) : bool :=
  match v with Ref _ => true | _ => false end.
Definition is_numeric (v : FlakeValue) : bool :=
  match v with Long _ | Double _ | BigInt _ | Decimal _ => true | _ => false end.
Definition is_temporal (v : FlakeValue) : bool :=
  match v with
  | DateTime _ | Date _ | Time _ | GYear _ | GYearMonth _ | GMonth _ | GDay _ | GMonthDay _ => true
  | _ => false
  end.
Definition is_duration (v : FlakeValue) : bool :=
  match v with
  | YearMonthDuration _ | DayTimeDuration _ | Duration _ => true
  | _ => false
  end.

(** [v.abs() <= 1 << 53]; [abs] wraps on [i64::MIN]. *)
Definition i64_fits_f64 (v : Z) : bool := as_i 64 (Z.abs v) <=? 2 ^ 53.

(** [(a as f64).partial_cmp(&b)] for an [a] that a float holds exactly. *)
Definition exact_int_partial_cmp (a : Z) (b : f64) : option comparison :=
  if f64_is_nan b then None
  else if f64_is_finite b then Some (Qcompare (inject_Z a) (f64_Q b))
  else Some (if f64_neg b then Gt else Lt).

(** [BigDecimal::try_from(d).ok()]: exact on finite floats. *)
Definition dec_try_from (b : f64) : option Q :=
  if f64_is_finite b then Some (f64_Q b) else None.

Definition long_double_cmp (a : Z) (b : f64) : option comparison :=
  if i64_fits_f64 a then exact_int_partial_cmp a b
  else Qcompare (inject_Z a) <$> dec_try_from b.
Definition double_bigint_cmp (a : f64) (b : Z) : option comparison :=
  (fun a_dec => Qcompare a_dec (inject_Z b)) <$> dec_try_from a.
Definition double_decimal_cmp (a : f64) (b : BigDecimal) : option comparison :=
  (fun a_dec => Qcompare a_dec (dec_Q b)) <$> dec_try_from a.

Definition numeric_cmp (x y : FlakeValue) : option comparison :=
  match x, y with
  | Long a, Long b => Some (Z.compare a b)
  | Double a, Double b => Some (f64_cmp a b)
  | BigInt a, BigInt b => Some (Z.compare a b)
  | Decimal a, Decimal b => Some (Qcompare (dec_Q a) (dec_Q b))
  | Long a, Double b => long_double_cmp a b
  | Double a, Long b => CompOpp <$> long_double_cmp b a
  | Long a, BigInt b => Some (Z.compare a b)
  | BigInt a, Long b => Some (Z.compare a b)
  | Long a, Decimal b => Some (Qcompare (inject_Z a) (dec_Q b))
  | Decimal a, Long b => Some (Qcompare (dec_Q a) (inject_Z b))
  | Double a, BigInt b => double_bigint_cmp a b
  | BigInt a, Double b => CompOpp <$> double_bigint_cmp b a
  | Double a, Decimal b => double_decimal_cmp a b
  | Decimal a, Double b => CompOpp <$> double_decimal_cmp b a
  | BigInt a, Decimal b => Some (Qcompare (inject_Z a) (dec_Q b))
  | Decimal a, BigInt b => Some (Qcompare (dec_Q a) (inject_Z b))
  | _, _ => None
  end.

Definition temporal_cmp (x y : FlakeValue) : option comparison :=
  match x, y with
  | DateTime a, DateTime b => Some (lex_cmp _ a b)
  | Date a, Date b => Some (lex_cmp _ a b)
  | Time a, Time b => Some (lex_cmp _ a b)
  | GYear a, GYear b => Some (lex_cmp _ a b)
  | GYearMonth a, GYearMonth b => Some (lex_cmp _ a b)
  | GMonth a, GMonth b => Some (lex_cmp _ a b)
  | GDay a, GDay b => Some (lex_cmp _ a b)
  | GMonthDay a, GMonthDay b => Some (lex_cmp _ a b)
  | YearMonthDuration a, YearMonthDuration b => Some (lex_cmp _ a b)
  | DayTimeDuration a, DayTimeDuration b => Some (lex_cmp _ a b)
  | Duration a, Duration b => duration_partial_cmp a b
  | _, _ => None
  end.

(** The loop over the zipped vectors, then the lengths. *)
Definition vector_cmp (a b : list f64) : comparison :=
  match a, b with
  | [], [] => Eq
  | [], _ :: _ => Gt
  | _ :: _, [] => Lt
  | _, _ => list_cmp f64_cmp a b
  end.

Definition same_type_cmp (x y : FlakeValue) : comparison :=
  match x, y with
  | Null, Null => Eq
  | Ref a, Ref b => sid_cmp a b
  | Boolean a, Boolean b => bool_cmp a b
  | Long a, Long b => Z.compare a b
  | Double a, Double b => f64_cmp a b
  | BigInt a, BigInt b => Z.compare a b
  | Decimal a, Decimal b => Qcompare (dec_Q a) (dec_Q b)
  | DateTime a, DateTime b => lex_cmp _ a b
  | Date a, Date b => lex_cmp _ a b
  | Time a, Time b => lex_cmp _ a b
  | GYear a, GYear b => lex_cmp _ a b
  | GYearMonth a, GYearMonth b => lex_cmp _ a b
  | GMonth a, GMonth b => lex_cmp _ a b
  | GDay a, GDay b => lex_cmp _ a b
  | GMonthDay a, GMonthDay b => lex_cmp _ a b
  | YearMonthDuration a, YearMonthDuration b => lex_cmp _ a b
  | DayTimeDuration a, DayTimeDuration b => lex_cmp _ a b
  | Duration a, Duration b => lex_cmp _ a b
  | String a, String b => str_cmp a b
  | Json a, Json b => str_cmp a b
  | Vector a, Vector b => vector_cmp a b
  | GeoPoint a, GeoPoint b => Z.compare a b
  | _, _ => Eq
  end.

(** [Ord::cmp].  The enum discriminants agree exactly when the type
    discriminants do. *)
Definition value_cmp (x y : FlakeValue) : comparison :=
  let by_discriminant := Z.compare (type_discriminant x) (type_discriminant y) in
  if type_discriminant x =? type_discriminant y then same_type_cmp x y
  else if is_numeric x && is_numeric y then default by_discriminant (numeric_cmp x y)
  else if is_temporal x && is_temporal y then default by_discriminant (temporal_cmp x y)
  else if is_duration x && is_duration y then default by_discriminant (temporal_cmp x y)
  else by_discriminant.

Definition is_Equal (o : option comparison) : bool :=
  match o with Some Eq => true | _ => false end.

(** [PartialEq::eq] *)
Definition value_eq (x y : FlakeValue) : bool :=
  if is_numeric x && is_numeric y then is_Equal (numeric_cmp x y)
  else if is_temporal x && is_temporal y then is_Equal (temporal_cmp x y)
  else if is_duration x && is_duration y then is_Equal (temporal_cmp x y)
  else match x, y with
  | Null, Null => true
  | Ref a, Ref b => bool_decide (a = b)
  | Boolean a, Boolean b => eqb a b
  | String a, String b => bool_decide (a = b)
  | Json a, Json b => bool_decide (a = b)
  | Vector a, Vector b => bool_decide (a = b)
  | GeoPoint a, GeoPoint b => a =? b
  | _, _ => false
  end.
End values.

(** ** Floats in order *)

Lemma mag_scaled_nonneg m : 0 <= m -> 0 <= mag_scaled m.
Proof.
  intros Hm. unfold mag_scaled. pose proof (Z.mod_pos_bound m (2 ^ 52) ltac:(lia)).
  pose proof (Z.div_pos m (2 ^ 52) Hm ltac:(lia)).
  destruct (Z.eqb_spec (m `div` 2 ^ 52) 0); [lia|].
  apply Z.mul_nonneg_nonneg; [lia|]. apply Z.pow_nonneg. lia.
Qed.

(** A larger exponent field wins over any fraction. *)
Lemma mag_scaled_exp e f g :
  0 <= e -> 0 <= f < 2 ^ 52 -> 0 <= g ->
  (if e =? 0 then f else (2 ^ 52 + f) * 2 ^ (e - 1)) < (2 ^ 52 + g) * 2 ^ e.
Proof.
  intros He Hf Hg. destruct (Z.eqb_spec e 0) as [->|].
  - change (2 ^ 0) with 1. lia.
  - assert (2 ^ e = 2 * 2 ^ (e - 1)) as ->.
    { rewrite <- Z.pow_succ_r by lia. f_equal. lia. }
    assert (0 < 2 ^ (e - 1)) by (apply Z.pow_pos_nonneg; lia). nia.
Qed.

Lemma mag_scaled_lt m n : 0 <= m < n -> mag_scaled m < mag_scaled n.
Proof.
  intros H. unfold mag_scaled.
  pose proof (Z.div_mod m (2 ^ 52) ltac:(lia)). pose proof (Z.div_mod n (2 ^ 52) ltac:(lia)).
  pose proof (Z.mod_pos_bound m (2 ^ 52) ltac:(lia)) as Hf.
  pose proof (Z.mod_pos_bound n (2 ^ 52) ltac:(lia)) as Hg.
  pose proof (Z.div_pos m (2 ^ 52) ltac:(lia) ltac:(lia)) as He.
  set (e := m `div` 2 ^ 52) in *. set (e' := n `div` 2 ^ 52) in *.
  set (f := m `mod` 2 ^ 52) in *. set (g := n `mod` 2 ^ 52) in *.
  destruct (decide (e = e')) as [<-|Hne].
  - assert (f < g) by lia. destruct (Z.eqb_spec e 0); [lia|].
    apply Z.mul_lt_mono_pos_r; [apply Z.pow_pos_nonneg; lia|lia].
  - assert (e < e') by lia. destruct (Z.eqb_spec e' 0); [lia|].
    eapply Z.lt_le_trans; [apply (mag_scaled_exp e f g); lia|].
    apply Z.mul_le_mono_nonneg_l; [lia|]. apply Z.pow_le_mono_r; lia.
Qed.

Lemma f64_scaled_compare a b :
  Z.compare (f64_scaled a) (f64_scaled b) = Z.compare (f64_key a) (f64_key b).
Proof.
  unfold f64_scaled, f64_key.
  assert (forall x, 0 <= f64_mag x) as Hm by (intros; apply Z.mod_pos_bound; lia).
  assert (mag_scaled 0 = 0) as H0 by done.
  assert (forall x, 0 < f64_mag x -> 0 < mag_scaled (f64_mag x)) as Hp.
  { intros x Hx. rewrite <- H0. by apply mag_scaled_lt. }
  pose proof (Hm a). pose proof (Hm b). pose proof (Hp a). pose proof (Hp b).
  pose proof (mag_scaled_lt (f64_mag a) (f64_mag b)).
  pose proof (mag_scaled_lt (f64_mag b) (f64_mag a)).
  assert (forall x, f64_mag x = 0 -> mag_scaled (f64_mag x) = 0) as Hz by by intros x ->.
  pose proof (Hz a). pose proof (Hz b). symmetry.
  destruct (Z.compare_spec (f64_mag a) (f64_mag b)) as [E| |].
  1: rewrite E.
  all: destruct (f64_neg a), (f64_neg b);
    match goal with |- Z.compare ?x ?y = _ => destruct (Z.compare_spec x y) end;
    symmetry; rewrite ?Z.compare_eq_iff, ?Z.compare_lt_iff, ?Z.compare_gt_iff; lia.
Qed.

Lemma f64_Q_compare a b : Qcompare (f64_Q a) (f64_Q b) = Z.compare (f64_key a) (f64_key b).
Proof.
  rewrite <- f64_scaled_compare. unfold f64_Q, Qcompare. cbn [Qnum Qden].
  symmetry. by apply Zmult_compare_compat_r || (rewrite Z.mul_comm; by apply Zmult_compare_compat_r).
Qed.

(** ** The order of values *)
Section value_order.
Context `{VL : ValueLib, VLL : !ValueLibLaws}.

(** Values on which the ordering is meant to be total: no NaN anywhere and no
    infinite [Double] (the section on exceptional floats shows why). *)
Definition ordinary (v : FlakeValue) : Prop :=
  match v with
  | Double d => f64_is_finite d = true
  | Vector l => Forall (fun d => f64_is_nan d = false) l
  | _ => True
  end.

(** The classes the ordering is made of: the four numeric types are one. *)
Definition value_class (v : FlakeValue) : Z :=
  if is_numeric v then 3 else type_discriminant v.

Definition num_Q (v : FlakeValue) : Q :=
  match v with
  | Long a | BigInt a => inject_Z a
  | Double a => f64_Q a
  | Decimal a => dec_Q a
  | _ => 0
  end.

Definition class_cmp (x y : FlakeValue) : comparison :=
  if is_numeric x then Qcompare (num_Q x) (num_Q y) else same_type_cmp x y.

Lemma finite_not_nan d : f64_is_finite d = true -> f64_is_nan d = false.
Proof.
  unfold f64_is_finite, f64_is_nan. intros H%Z.ltb_lt. apply Z.ltb_ge. lia.
Qed.

Lemma f64_cmp_ordered a b :
  f64_is_nan a = false -> f64_is_nan b = false ->
  f64_cmp a b = Z.compare (f64_key a) (f64_key b).
Proof. intros Ha Hb. unfold f64_cmp, f64_partial_cmp. by rewrite Ha, Hb. Qed.

Lemma inject_Z_compare a b : Qcompare (inject_Z a) (inject_Z b) = Z.compare a b.
Proof. unfold Qcompare, inject_Z. simpl. by rewrite !Z.mul_1_r. Qed.

Lemma Qcompare_opp a b : CompOpp (Qcompare a b) = Qcompare b a.
Proof. apply Qcompare_antisym. Qed.

Lemma long_double_cmp_finite a b :
  f64_is_finite b = true -> long_double_cmp a b = Some (Qcompare (inject_Z a) (f64_Q b)).
Proof.
  intros Hb. unfold long_double_cmp, exact_int_partial_cmp, dec_try_from.
  rewrite (finite_not_nan b Hb), Hb. by destruct (i64_fits_f64 a).
Qed.

(** Numbers are compared by value whatever their types. *)
Lemma numeric_cmp_value x y :
  ordinary x -> ordinary y -> is_numeric x = true -> is_numeric y = true ->
  numeric_cmp x y = Some (Qcompare (num_Q x) (num_Q y)).
Proof.
  destruct x, y; try done; cbn [ordinary]; intros Hx Hy _ _; cbn [numeric_cmp num_Q];
    rewrite ?inject_Z_compare; try done.
  all: rewrite ?long_double_cmp_finite by done;
    unfold double_bigint_cmp, double_decimal_cmp, dec_try_from; rewrite ?Hx, ?Hy; simpl;
    rewrite ?Qcompare_opp; try done.
  by rewrite f64_cmp_ordered, f64_Q_compare by (by apply finite_not_nan).
Qed.

Lemma value_cmp_spec x y :
  ordinary x -> ordinary y ->
  value_cmp x y = then_with (Z.compare (value_class x) (value_class y)) (class_cmp x y).
Proof.
  intros Hx Hy. unfold value_cmp, class_cmp, value_class.
  destruct (is_numeric x) eqn:Ex, (is_numeric y) eqn:Ey.
  - pose proof (numeric_cmp_value x y Hx Hy Ex Ey) as E.
    destruct (Z.eqb_spec (type_discriminant x) (type_discriminant y)) as [Ed|].
    + destruct x, y; try done; simpl in *; by injection E.
    + simpl. by rewrite E.
  - destruct x; try done; destruct y; done.
  - destruct y; try done; destruct x; done.
  - destruct (Z.eqb_spec (type_discriminant x) (type_discriminant y)) as [Ed|Hd].
    + by rewrite Ed, Z.compare_refl.
    + assert (temporal_cmp x y = None) as -> by (by destruct x, y).
      rewrite !andb_false_l || idtac. simpl.
      destruct (Z.compare_spec (type_discriminant x) (type_discriminant y)); try done;
      by destruct (is_temporal x && is_temporal y), (is_duration x && is_duration y).
Qed.

Lemma vector_cmp_laws :
  CmpLaws (Forall (fun d => f64_is_nan d = false)) vector_cmp.
Proof.
  eapply (cmp_laws_ext _ _ (fun a b => then_with
    (Z.compare (if a is [] then 1 else 0) (if b is [] then 1 else 0))
    (list_cmp f64_cmp a b))).
  - intros [|x a] [|y b] _ _; done.
  - apply cmp_laws_then.
    + apply (cmp_laws_key _ everything (fun a : list f64 => if a is [] then 1 else 0)); done || apply _.
    + apply cmp_laws_list. eapply cmp_laws_ext.
      { intros x y Hx Hy. by apply f64_cmp_ordered. }
      apply (cmp_laws_key _ everything f64_key); done || apply _.
Qed.

(** Within one class the values are one type, or all numbers. *)
Lemma same_type_cmp_sym x y :
  ordinary x -> ordinary y -> type_discriminant x = type_discriminant y ->
  is_numeric x = false -> same_type_cmp y x = CompOpp (same_type_cmp x y).
Proof.
  pose proof vector_cmp_laws.
  destruct x, y; try done; simpl; intros Hx Hy _ _;
    first [done | by apply (cmp_sym (P := everything)) | by eapply cmp_sym].
Qed.

Lemma same_type_cmp_eq_l x y z :
  ordinary x -> ordinary y -> ordinary z ->
  type_discriminant x = type_discriminant y -> type_discriminant y = type_discriminant z ->
  is_numeric x = false -> same_type_cmp x y = Eq -> same_type_cmp x z = same_type_cmp y z.
Proof.
  pose proof vector_cmp_laws. intros Hx Hy Hz Exy Eyz.
  destruct x, y; try done; destruct z; try done; simpl in *; intros _;
    first [done | by apply (cmp_eq_l (P := everything)) | by eapply cmp_eq_l].
Qed.

Lemma same_type_cmp_lt_trans x y z :
  ordinary x -> ordinary y -> ordinary z ->
  type_discriminant x = type_discriminant y -> type_discriminant y = type_discriminant z ->
  is_numeric x = false ->
  same_type_cmp x y = Lt -> same_type_cmp y z = Lt -> same_type_cmp x z = Lt.
Proof.
  pose proof vector_cmp_laws. intros Hx Hy Hz Exy Eyz.
  destruct x, y; try done; destruct z; try done; simpl in *; intros _;
    first [done | by apply (cmp_lt_trans (P := everything)) | by eapply cmp_lt_trans].
Qed.

Lemma value_class_numeric x : value_class x = 3 <-> is_numeric x = true.
Proof. by destruct x. Qed.

Lemma value_class_same x y :
  value_class x = value_class y ->
  is_numeric x = is_numeric y /\
  (is_numeric x = false -> type_discriminant x = type_discriminant y).
Proof.
  intros Hc. assert (is_numeric x = is_numeric y) as E.
  { apply eq_bool_prop_intro. pose proof (value_class_numeric x). pose proof (value_class_numeric y).
    rewrite Hc in *. destruct (is_numeric x), (is_numeric y); simpl; intuition congruence. }
  split; [done|]. intros Hx. unfold value_class in Hc. by rewrite <- E, Hx in Hc.
Qed.

Lemma class_cmp_sym x y :
  ordinary x -> ordinary y -> value_class x = value_class y ->
  class_cmp y x = CompOpp (class_cmp x y).
Proof.
  intros Hx Hy [E Ed]%value_class_same. unfold class_cmp. rewrite <- E.
  destruct (is_numeric x) eqn:En; [by rewrite Qcompare_opp|].
  apply same_type_cmp_sym; auto.
Qed.

Lemma class_cmp_eq_l x y z :
  ordinary x -> ordinary y -> ordinary z ->
  value_class x = value_class y -> value_class y = value_class z ->
  class_cmp x y = Eq -> class_cmp x z = class_cmp y z.
Proof.
  intros Hx Hy Hz [E1 Ed1]%value_class_same [E2 Ed2]%value_class_same. unfold class_cmp.
  rewrite <- E1 in *. destruct (is_numeric x) eqn:En.
  - by apply (cmp_eq_l (P := everything)).
  - apply same_type_cmp_eq_l; auto.
Qed.

Lemma class_cmp_lt_trans x y z :
  ordinary x -> ordinary y -> ordinary z ->
  value_class x = value_class y -> value_class y = value_class z ->
  class_cmp x y = Lt -> class_cmp y z = Lt -> class_cmp x z = Lt.
Proof.
  intros Hx Hy Hz [E1 Ed1]%value_class_same [E2 Ed2]%value_class_same. unfold class_cmp.
  rewrite <- E1 in *. destruct (is_numeric x) eqn:En.
  - by apply (cmp_lt_trans (P := everything)).
  - intros. apply (same_type_cmp_lt_trans x y z); auto.
Qed.

#[export] Instance value_cmp_laws : CmpLaws ordinary value_cmp.
Proof.
  split.
  - intros x y Hx Hy. rewrite !value_cmp_spec, CompOpp_then_with, Z.compare_antisym by done.
    destruct (Z.compare_spec (value_class x) (value_class y)); simpl; [|done..].
    by apply class_cmp_sym.
  - intros x y z Hx Hy Hz. rewrite !value_cmp_spec by done.
    intros [E%Z.compare_eq H2]%then_with_Eq. rewrite E.
    destruct (Z.compare_spec (value_class y) (value_class z)); simpl; [|done..].
    by apply class_cmp_eq_l.
  - intros x y z Hx Hy Hz. rewrite !value_cmp_spec by done.
    rewrite !then_with_Lt, !Z.compare_lt_iff, !Z.compare_eq_iff.
    intros [|[E1 H1]] [|[E2 H2]]; [left; lia..|].
    right. split; [lia|]. by apply (class_cmp_lt_trans x y z).
Qed.

Lemma value_min_least v : value_cmp value_min v <> Gt.
Proof. by destruct v. Qed.

Lemma value_max_greatest v :
  value_cmp v value_max = match v with Vector [] => Eq | _ => Lt end.
Proof. by destruct v as [| | | | | | | | | | | | | | | | | |[|]| | |]. Qed.

(** Away from vectors and general durations, [eq] is what [cmp] calls equal. *)
Lemma value_eq_cmp x y :
  ordinary x -> ordinary y ->
  match x with Vector _ | Duration _ => False | _ => True end ->
  value_eq x y = true <-> value_cmp x y = Eq.
Proof.
  intros Hx Hy Hk. rewrite value_cmp_spec, then_with_Eq, Z.compare_eq_iff by done.
  destruct (is_numeric x && is_numeric y) eqn:En.
  - unfold value_eq. rewrite En. apply andb_true_iff in En as [Ex Ey].
    rewrite numeric_cmp_value by done. unfold value_class, class_cmp. rewrite Ex, Ey. simpl.
    destruct (Qcompare _ _); simpl; intuition congruence.
  - destruct x, y; try done; cbn in En |- *;
      try (by split; [|intros [? ?]]);
      rewrite ?bool_decide_eq_true, ?sid_cmp_Eq, ?Z.eqb_eq, ?Z.compare_eq_iff.
    all: try (by destruct (lex_cmp _ _ _); simpl; intuition congruence).
    all: try (intuition congruence).
    all: try (split; [intros ->; split; [done|]; by apply (cmp_refl (P := everything))
                     |by intros [_ ->%str_cmp_Eq]]).
    destruct b, b0; unfold bool_cmp; simpl; intuition congruence.
Qed.
End value_order.

(** ** Exceptional floats *)

Definition f64_nan : f64 := 0x7FF8000000000000.
Definition f64_inf : f64 := 0x7FF0000000000000.
Definition f64_one : f64 := 0x3FF0000000000000.
Definition f64_minus_one : f64 := 0xBFF0000000000000.
Definition f64_minus_zero : f64 := 0x8000000000000000.

(** One NaN closes a cycle: the fallback compares bit patterns, where a
    negative number lies above every positive one. *)
Lemma nan_cycle `{ValueLib} :
  value_cmp (Double f64_minus_one) (Double f64_one) = Lt /\
  value_cmp (Double f64_one) (Double f64_nan) = Lt /\
  value_cmp (Double f64_nan) (Double f64_minus_one) = Lt.
Proof. by vm_compute. Qed.

(** An infinite [Double] is not comparable with a [Decimal]: the fallback on
    the discriminants puts every decimal above [+inf]. *)
Lemma infinity_cycle `{ValueLib} :
  value_cmp (Long 2) (Double f64_inf) = Lt /\
  value_cmp (Double f64_inf) (Decimal (mkDec 1 0)) = Lt /\
  value_cmp (Decimal (mkDec 1 0)) (Long 2) = Lt.
Proof. by vm_compute. Qed.

(** [cmp] and [eq] disagree on vectors that differ by the sign of a zero. *)
Lemma vector_zero_cmp_eq `{ValueLib} :
  value_cmp (Vector [0]) (Vector [f64_minus_zero]) = Eq /\
  value_eq (Vector [0]) (Vector [f64_minus_zero]) = false.
Proof. by vm_compute. Qed.
