(* ===== verification/Plain.v ===== *)
(** * A concrete value library

    An instance of [ValueLib] on which the witnesses of the properties
    evaluate: lexical values are their own text, ordered as text; integers and
    decimals are printed in decimal notation; a geographic point is its packed
    form. *)

From S2P Require Import Prelude Bytes Cmp Value.
From stdpp Require Import base list numbers.
From Stdlib Require Import ZArith Lia Ascii String DecimalString DecimalZ.

Local Open Scope Z_scope.

Definition string_of_bytes (bs : bytes) : string :=
  string_of_list_ascii ((fun b => ascii_of_N (Z.to_N b)) <$> bs).

Definition int_display (z : Z) : bytes := bytes_of_string (NilZero.string_of_int (Z.to_int z)).
Definition int_parse (bs : bytes) : option Z :=
  Z.of_int <$> NilZero.int_of_string (string_of_bytes bs).

(** Unscaled digits, the letter E and the power of ten. *)
Definition plain_dec_display (d : BigDecimal) : bytes :=
  int_display (unscaled d) ++ [0x45] ++ int_display (- scale d).

Fixpoint split_at (sep : Z) (bs : bytes) : option (bytes * bytes) :=
  match bs with
  | [] => None
  | b :: bs =>
      if b =? sep then Some ([], bs)
      else '(l, r) ← split_at sep bs; Some (b :: l, r)
  end.

Definition plain_dec_parse (bs : bytes) : option BigDecimal :=
  '(l, r) ← split_at 0x45 bs; u ← int_parse l; e ← int_parse r; Some (mkDec u (- e)).

#[export] Instance PlainLib : ValueLib := {|
  lex _ := bytes;
  lex_original _ v := v;
  lex_parse _ s := Some s;
  lex_cmp _ := str_cmp;
  duration_partial_cmp a b := Some (str_cmp a b);
  bigint_display := int_display;
  bigint_parse := int_parse;
  dec_display := plain_dec_display;
  dec_parse := plain_dec_parse;
  geo_lat bits := bits `div` 2 ^ 30;
  geo_lng bits := bits `mod` 2 ^ 30;
  geo_new lat lng := Some (lat * 2 ^ 30 + lng);
|}.

#[export] Instance PlainLaws : ValueLibLaws.
Proof. split. intros k. apply cmp_laws_str. Qed.
