(* ===== verification/Flake.v ===== *)
(** * Flakes and the index orders

    Models [FlakeMeta] and [Flake] (src/fluree-db-core/src/flake.rs) and the
    four index comparators (src/fluree-db-core/src/comparator.rs), with the
    range bounds that subject and predicate scans use. *)

From S2P Require Import Prelude Bytes Cmp Value Plain.
From stdpp Require Import base list numbers.
From Stdlib Require Import ZArith Lia.

Local Open Scope Z_scope.

Definition i32_min : Z := - 2 ^ 31.
Definition i64_min : Z := - 2 ^ 63.
Definition i64_max : Z := 2 ^ 63 - 1.

(** ** Metadata *)
Record FlakeMeta := mkMeta { lang : option str; li : option Z }.

#[export] Instance FlakeMeta_eq_dec : EqDecision FlakeMeta.
Proof. solve_decision. Defined.

Definition meta_min : FlakeMeta := mkMeta None (Some i32_min).
Definition meta_max : FlakeMeta := mkMeta None (Some i32_max).

Definition meta_cmp (a b : FlakeMeta) : comparison :=
  match li a, li b with
  | Some x, Some y => Z.compare x y
  | Some _, None => Gt
  | None, Some _ => Lt
  | None, None =>
      match lang a, lang b with
      | Some x, Some y => str_cmp x y
      | Some _, None => Gt
      | None, Some _ => Lt
      | None, None => Eq
      end
  end.

(** ** Flakes *)
Record Flake `{ValueLib} := mkFlake {
  f_g : option Sid;
  f_s : Sid;
  f_p : Sid;
  f_o : FlakeValue;
  f_dt : Sid;
  f_t : Z;
  f_op : bool;
  f_m : option FlakeMeta;
}.

Section flakes.
Context `{VL : ValueLib}.

Definition flake_new (s p : Sid) (o : FlakeValue) (dt : Sid) (t : Z) (op : bool)
    (m : option FlakeMeta) : Flake := mkFlake VL None s p o dt t op m.
Definition flake_new_in_graph (g s p : Sid) (o : FlakeValue) (dt : Sid) (t : Z) (op : bool)
    (m : option FlakeMeta) : Flake := mkFlake VL (Some g) s p o dt t op m.

Definition min_for_subject (s : Sid) : Flake :=
  mkFlake VL None s sid_min value_min sid_min i64_min false (Some meta_min).
Definition max_for_subject (s : Sid) : Flake :=
  mkFlake VL None s sid_max value_max sid_max i64_max true (Some meta_max).
Definition min_for_subject_predicate (s p : Sid) : Flake :=
  mkFlake VL None s p value_min sid_min i64_min false (Some meta_min).
Definition max_for_subject_predicate (s p : Sid) : Flake :=
  mkFlake VL None s p value_max sid_max i64_max true (Some meta_max).
Definition min_spot : Flake := min_for_subject sid_min.
Definition max_spot : Flake := max_for_subject sid_max.
Definition min_psot : Flake := min_spot.
Definition max_psot : Flake := max_spot.
Definition min_for_predicate (p : Sid) : Flake :=
  mkFlake VL None sid_min p value_min sid_min i64_min false (Some meta_min).
Definition max_for_predicate (p : Sid) : Flake :=
  mkFlake VL None sid_max p value_max sid_max i64_max true (Some meta_max).

Definition retract (f : Flake) : Flake :=
  mkFlake VL (f_g f) (f_s f) (f_p f) (f_o f) (f_dt f) (f_t f) false (f_m f).
Definition retract_at (f : Flake) (t' : Z) : Flake :=
  mkFlake VL (f_g f) (f_s f) (f_p f) (f_o f) (f_dt f) t' false (f_m f).
Definition invert (f : Flake) : Flake :=
  mkFlake VL (f_g f) (f_s f) (f_p f) (f_o f) (f_dt f) (f_t f) (negb (f_op f)) (f_m f).
Definition invert_at (f : Flake) (t' : Z) : Flake :=
  mkFlake VL (f_g f) (f_s f) (f_p f) (f_o f) (f_dt f) t' (negb (f_op f)) (f_m f).

(** [PartialEq]: the fact, without [t], [op] and the graph. *)
Definition flake_eq (a b : Flake) : bool :=
  bool_decide (f_s a = f_s b) && bool_decide (f_p a = f_p b) && value_eq (f_o a) (f_o b) &&
  bool_decide (f_dt a = f_dt b) && bool_decide (f_m a = f_m b).

Definition value_size (v : FlakeValue) : Z :=
  match v with
  | Null | Boolean _ => 1
  | Long _ | Double _ => 8
  | BigInt v => 16 + zlen (bigint_display v)
  | Decimal v => 16 + zlen (dec_display v)
  | DateTime v => 16 + zlen (lex_original _ v)
  | Date v => 16 + zlen (lex_original _ v)
  | Time v => 16 + zlen (lex_original _ v)
  | GYear v => 16 + zlen (lex_original _ v)
  | GYearMonth v => 16 + zlen (lex_original _ v)
  | GMonth v => 16 + zlen (lex_original _ v)
  | GDay v => 16 + zlen (lex_original _ v)
  | GMonthDay v => 16 + zlen (lex_original _ v)
  | YearMonthDuration v => 16 + zlen (lex_original _ v)
  | DayTimeDuration v => 16 + zlen (lex_original _ v)
  | Duration v => 16 + zlen (lex_original _ v)
  | String s | Json s => 8 + zlen s
  | Ref sid => 8 + zlen (name sid)
  | Vector v => 8 + zlen v * 8
  | GeoPoint _ => 8
  end.

Definition size_bytes (f : Flake) : Z :=
  let base := 16 + (8 + zlen (name (f_s f))) + (8 + zlen (name (f_p f))) + (8 + zlen (name (f_dt f))) in
  let m_size := match f_m f with
                | Some m => 8 + match lang m with Some l => zlen l | None => 0 end + 4
                | None => 0
                end in
  base + value_size (f_o f) + m_size + 9.

(** ** Comparators *)
Inductive IndexType := Spot | Psot | Post | Opst.

Definition cmp_object (f1 f2 : Flake) : comparison :=
  then_with (value_cmp (f_o f1) (f_o f2)) (sid_cmp (f_dt f1) (f_dt f2)).

Definition cmp_meta (f1 f2 : Flake) : comparison :=
  match f_m f1, f_m f2 with
  | None, None => Eq
  | None, Some _ => Lt
  | Some _, None => Gt
  | Some m1, Some m2 => meta_cmp m1 m2
  end.

Definition cmp_spot (f1 f2 : Flake) : comparison :=
  then_with (sid_cmp (f_s f1) (f_s f2)) (then_with (sid_cmp (f_p f1) (f_p f2))
  (then_with (cmp_object f1 f2) (then_with (Z.compare (f_t f1) (f_t f2))
  (then_with (bool_cmp (f_op f1) (f_op f2)) (cmp_meta f1 f2))))).

Definition cmp_psot (f1 f2 : Flake) : comparison :=
  then_with (sid_cmp (f_p f1) (f_p f2)) (then_with (sid_cmp (f_s f1) (f_s f2))
  (then_with (cmp_object f1 f2) (then_with (Z.compare (f_t f1) (f_t f2))
  (then_with (bool_cmp (f_op f1) (f_op f2)) (cmp_meta f1 f2))))).

Definition cmp_post (f1 f2 : Flake) : comparison :=
  then_with (sid_cmp (f_p f1) (f_p f2)) (then_with (cmp_object f1 f2)
  (then_with (sid_cmp (f_s f1) (f_s f2)) (then_with (Z.compare (f_t f1) (f_t f2))
  (then_with (bool_cmp (f_op f1) (f_op f2)) (cmp_meta f1 f2))))).

Definition cmp_opst (f1 f2 : Flake) : comparison :=
  then_with (cmp_object f1 f2) (then_with (sid_cmp (f_p f1) (f_p f2))
  (then_with (sid_cmp (f_s f1) (f_s f2)) (then_with (Z.compare (f_t f1) (f_t f2))
  (then_with (bool_cmp (f_op f1) (f_op f2)) (cmp_meta f1 f2))))).

Definition comparator (i : IndexType) : Flake -> Flake -> comparison :=
  match i with
  | Spot => cmp_spot
  | Psot => cmp_psot
  | Post => cmp_post
  | Opst => cmp_opst
  end.

Definition compare (i : IndexType) (a b : Flake) : comparison := comparator i a b.

Definition for_query (s_bound p_bound o_bound o_is_ref : bool) : IndexType :=
  if s_bound then Spot
  else if p_bound && negb o_bound then Psot
  else if p_bound && o_bound then Post
  else if o_bound && o_is_ref then Opst
  else Spot.
End flakes.

#[export] Instance IndexType_eq_dec : EqDecision IndexType.
Proof. solve_decision. Defined.

(** ** The orders are total preorders *)

#[export] Instance meta_cmp_laws : CmpLaws everything meta_cmp.
Proof.
  eapply (cmp_laws_ext _ _ (fun a b => then_with (option_cmp Z.compare (li a) (li b))
    (option_cmp str_cmp (if li a is None then lang a else None)
                        (if li b is None then lang b else None)))).
  - intros [[?|] [?|]] [[?|] [?|]] _ _; simpl; rewrite ?then_with_Eq_r; done.
  - assert (forall A (x : option A), option_all everything x) by by intros A [].
    apply cmp_laws_then.
    + apply (cmp_laws_key _ (option_all everything) li); done || apply _.
    + apply (cmp_laws_key _ (option_all everything)
        (fun a => if li a is None then lang a else None)); done || apply _.
Qed.

Lemma then_with_le a b : a <> Gt -> b <> Gt -> then_with a b <> Gt.
Proof. by destruct a. Qed.

Section flake_order.
Context `{VL : ValueLib, VLL : !ValueLibLaws}.

Definition flake_ordinary (f : Flake) : Prop := ordinary (f_o f).

Lemma flake_key_laws {B} (key : Flake -> B) c :
  CmpLaws everything c -> CmpLaws flake_ordinary (fun a b => c (key a) (key b)).
Proof. intros. by apply (cmp_laws_key _ everything key). Qed.

Lemma cmp_object_laws : CmpLaws flake_ordinary cmp_object.
Proof.
  apply cmp_laws_then; [|apply flake_key_laws, _].
  apply (cmp_laws_key _ ordinary f_o); done || apply _.
Qed.

Lemma cmp_meta_laws : CmpLaws flake_ordinary cmp_meta.
Proof.
  apply (cmp_laws_key _ (option_all everything) f_m (option_cmp meta_cmp));
    [by intros f _; destruct (f_m f)|apply _].
Qed.

#[export] Instance comparator_laws i : CmpLaws flake_ordinary (comparator i).
Proof.
  pose proof cmp_object_laws. pose proof cmp_meta_laws.
  destruct i; simpl; unfold cmp_spot, cmp_psot, cmp_post, cmp_opst;
    repeat first [assumption | apply flake_key_laws, _ | apply cmp_laws_then].
Qed.

(** Two flakes that an index cannot tell apart. *)
Definition same_row (a b : Flake) : Prop :=
  f_s a = f_s b /\ f_p a = f_p b /\ value_cmp (f_o a) (f_o b) = Eq /\ f_dt a = f_dt b /\
  f_t a = f_t b /\ f_op a = f_op b /\ cmp_meta a b = Eq.

Lemma bool_cmp_Eq a b : bool_cmp a b = Eq <-> a = b.
Proof. by destruct a, b. Qed.

Lemma comparator_Eq i a b : comparator i a b = Eq <-> same_row a b.
Proof.
  unfold same_row. destruct i; simpl;
    unfold cmp_spot, cmp_psot, cmp_post, cmp_opst, cmp_object;
    rewrite !then_with_Eq, !sid_cmp_Eq, Z.compare_eq_iff, bool_cmp_Eq; tauto.
Qed.

(** ** Range bounds *)

Lemma sid_min_least x : 0 <= namespace_code x -> sid_cmp sid_min x <> Gt.
Proof.
  intros Hx. unfold sid_cmp. apply then_with_le; [|apply list_cmp_nil_l].
  by apply Z.compare_le_iff.
Qed.

Lemma sid_max_greatest x : namespace_code x < u16_max -> sid_cmp x sid_max = Lt.
Proof. intros Hx. unfold sid_cmp. simpl. by rewrite (proj2 (Z.compare_lt_iff _ _) Hx). Qed.

(** Flakes as the database builds them: namespace codes below the reserved
    maximum and a transaction time above the lower sentinel. *)
Definition in_bounds (f : Flake) : Prop :=
  0 <= namespace_code (f_s f) < u16_max /\ 0 <= namespace_code (f_p f) < u16_max /\
  0 <= namespace_code (f_dt f) < u16_max /\ i64_min < f_t f.

Lemma object_min_least f :
  in_bounds f -> then_with (value_cmp value_min (f_o f)) (sid_cmp sid_min (f_dt f)) <> Gt.
Proof.
  intros (_ & _ & Hd & _). apply then_with_le; [apply value_min_least|]. apply sid_min_least. lia.
Qed.

Lemma object_max_greatest f :
  in_bounds f -> then_with (value_cmp (f_o f) value_max) (sid_cmp (f_dt f) sid_max) = Lt.
Proof.
  intros (_ & _ & Hd & _). rewrite value_max_greatest, sid_max_greatest by lia.
  by destruct (f_o f) as [| | | | | | | | | | | | | | | | | |[|]| | |].
Qed.

Lemma t_min_least f : in_bounds f -> Z.compare i64_min (f_t f) = Lt.
Proof. intros (_ & _ & _ & Ht). by apply Z.compare_lt_iff. Qed.

Lemma then_with_Lt_l a b : a = Lt -> then_with a b <> Gt.
Proof. by intros ->. Qed.

Ltac bounds_step := first
  [ apply then_with_Lt_l; first
      [ apply sid_max_greatest; lia | by apply t_min_least | by apply object_max_greatest ]
  | apply then_with_le; [first
      [ apply sid_min_least; lia | by apply object_min_least
      | by rewrite (cmp_refl (P := everything)) ] |] ].

Lemma then_with_le_l a b : then_with a b <> Gt -> a <> Gt.
Proof. by destruct a. Qed.

Lemma sid_cmp_between a b : sid_cmp a b <> Gt -> sid_cmp b a <> Gt -> a = b.
Proof.
  intros H1 H2. apply sid_cmp_Eq. rewrite (cmp_sym (P := everything) a b) in H2 by done.
  by destruct (sid_cmp a b).
Qed.

(** A scan of the flakes between the bounds of a subject returns exactly the
    flakes of the subject; likewise for a subject and predicate, and for a
    predicate in the two predicate-first orders. *)
Lemma subject_scan f s0 :
  in_bounds f ->
  (cmp_spot (min_for_subject s0) f <> Gt /\ cmp_spot f (max_for_subject s0) <> Gt) <->
  f_s f = s0.
Proof.
  intros Hf. pose proof Hf as (Hs & Hp & Hd & Ht). split.
  - intros [H1%then_with_le_l H2%then_with_le_l]. by apply sid_cmp_between.
  - intros <-. unfold cmp_spot, cmp_object, min_for_subject, max_for_subject.
    cbn [f_s f_p f_o f_dt f_t f_op f_m]. split; repeat bounds_step.
Qed.

Lemma subject_predicate_scan f s0 p0 :
  in_bounds f ->
  (cmp_spot (min_for_subject_predicate s0 p0) f <> Gt /\
   cmp_spot f (max_for_subject_predicate s0 p0) <> Gt) <->
  f_s f = s0 /\ f_p f = p0.
Proof.
  intros Hf. pose proof Hf as (Hs & Hp & Hd & Ht). split.
  - unfold cmp_spot. simpl. intros [H1 H2].
    assert (f_s f = s0) as <-.
    { apply sid_cmp_between; [by apply then_with_le_l in H2|by apply then_with_le_l in H1]. }
    rewrite (cmp_refl (P := everything)) in H1, H2 by done. simpl in H1, H2.
    apply then_with_le_l in H1, H2. by split; [|apply sid_cmp_between].
  - intros [<- <-]. unfold cmp_spot, cmp_object, min_for_subject_predicate, max_for_subject_predicate.
    cbn [f_s f_p f_o f_dt f_t f_op f_m]. split; repeat bounds_step.
Qed.

Lemma predicate_scan f p0 :
  in_bounds f ->
  ((cmp_psot (min_for_predicate p0) f <> Gt /\ cmp_psot f (max_for_predicate p0) <> Gt) <->
   f_p f = p0) /\
  ((cmp_post (min_for_predicate p0) f <> Gt /\ cmp_post f (max_for_predicate p0) <> Gt) <->
   f_p f = p0).
Proof.
  intros Hf. pose proof Hf as (Hs & Hp & Hd & Ht).
  split; split; try (intros [H1%then_with_le_l H2%then_with_le_l]; by apply sid_cmp_between).
  all: intros <-; unfold cmp_psot, cmp_post, cmp_object, min_for_predicate, max_for_predicate;
    cbn [f_s f_p f_o f_dt f_t f_op f_m]; split; repeat bounds_step.
Qed.
End flake_order.

(** ** Properties *)

(** C30: Every index order (SPOT, PSOT, POST, OPST) is a total preorder on
    flakes whose objects are ordinary values: comparing the other way round
    reverses the answer, [<=] is transitive, and flakes that compare equal are
    interchangeable on either side of a comparison. *)
Theorem index_order_total `{VL : ValueLib, VLL : !ValueLibLaws} (i : IndexType) (a b c : Flake) :
  flake_ordinary a -> flake_ordinary b -> flake_ordinary c ->
  compare i b a = CompOpp (compare i a b) /\
  (compare i a b <> Gt -> compare i b c <> Gt -> compare i a c <> Gt) /\
  (compare i a b = Eq -> compare i a c = compare i b c).
Proof.
  intros Ha Hb Hc. unfold compare. repeat split.
  - by apply cmp_sym.
  - by apply cmp_le_trans.
  - by apply cmp_eq_l.
Qed.

(** The four index orders identify the same flakes: two flakes compare
    equal in an order exactly when they agree on subject, predicate, datatype,
    transaction time and operation, and their objects and metadata compare
    equal. *)
Theorem index_orders_same_rows `{VL : ValueLib} (i : IndexType) (a b : Flake) :
  compare i a b = Eq <-> same_row a b.
Proof. apply comparator_Eq. Qed.

(** Numbers of different types are ordered by their mathematical value:
    on finite numeric objects, the value order is the order of rationals. *)
Theorem numbers_ordered_by_value `{VL : ValueLib} (x y : FlakeValue) :
  ordinary x -> ordinary y -> is_numeric x = true -> is_numeric y = true ->
  value_cmp x y = QArith_base.Qcompare (num_Q x) (num_Q y).
Proof.
  intros Hx Hy Nx Ny. rewrite value_cmp_spec by done.
  by rewrite (proj2 (value_class_numeric x) Nx), (proj2 (value_class_numeric y) Ny),
    Z.compare_refl; unfold class_cmp; rewrite Nx.
Qed.

(** The bounds built for a scan select exactly the wanted flakes: a flake
    lies between [min_for_subject s] and [max_for_subject s] in SPOT order iff
    its subject is [s]; likewise for a subject with a predicate, and for a
    predicate in PSOT and POST order. *)
Theorem scan_bounds_exact `{VL : ValueLib} (f : Flake) (s0 p0 : Sid) :
  in_bounds f ->
  ((cmp_spot (min_for_subject s0) f <> Gt /\ cmp_spot f (max_for_subject s0) <> Gt) <->
   f_s f = s0) /\
  ((cmp_spot (min_for_subject_predicate s0 p0) f <> Gt /\
    cmp_spot f (max_for_subject_predicate s0 p0) <> Gt) <-> f_s f = s0 /\ f_p f = p0) /\
  ((cmp_psot (min_for_predicate p0) f <> Gt /\ cmp_psot f (max_for_predicate p0) <> Gt) <->
   f_p f = p0) /\
  ((cmp_post (min_for_predicate p0) f <> Gt /\ cmp_post f (max_for_predicate p0) <> Gt) <->
   f_p f = p0).
Proof.
  intros Hf. split; [by apply subject_scan|]. split; [by apply subject_predicate_scan|].
  by apply predicate_scan.
Qed.

(** Witnesses on the concrete value library. *)
Definition sample_flake (o : FlakeValue) (t : Z) : Flake :=
  flake_new (mkSid 5 [97]) (mkSid 6 [98]) o (mkSid 2 [105]) t true None.

Lemma index_order_total_witness :
  let a := sample_flake (Long 3) 1 in
  let b := sample_flake (Double f64_one) 2 in
  let c := sample_flake (Decimal (mkDec 25 1)) 3 in
  compare Post b a = CompOpp (compare Post a b) /\
  (compare Post a b <> Gt -> compare Post b c <> Gt -> compare Post a c <> Gt) /\
  (compare Post a b = Eq -> compare Post a c = compare Post b c).
Proof. apply (index_order_total Post); vm_compute; done. Defined.

Lemma numbers_ordered_by_value_witness :
  value_cmp (Double f64_one) (Decimal (mkDec 25 1)) =
    QArith_base.Qcompare (num_Q (Double f64_one)) (num_Q (Decimal (mkDec 25 1))).
Proof. apply (numbers_ordered_by_value (Double f64_one) (Decimal (mkDec 25 1))); vm_compute; done. Defined.

Lemma scan_bounds_exact_witness :
  let f := sample_flake (Long 3) 1 in
  cmp_spot (min_for_subject (mkSid 5 [97])) f <> Gt /\
  cmp_spot f (max_for_subject (mkSid 5 [97])) <> Gt.
Proof.
  apply (scan_bounds_exact (sample_flake (Long 3) 1) (mkSid 5 [97]) (mkSid 6 [98]));
    [repeat split; vm_compute; done|reflexivity].
Defined.
