(* ===== verification/StringDict.v ===== *)
(** * Commit-local string dictionaries

    Models src/fluree-db-core/src/commit/codec/string_dict.rs: the builder of
    the write path (a hash map for deduplication beside the ordered entries)
    and the dictionary of the read path. *)

From S2P Require Import Prelude Bytes Varint.
From stdpp Require Import base list numbers gmap.
From Stdlib Require Import ZArith Lia.

Local Open Scope Z_scope.

(** ** Write path *)
Record StringDictBuilder := mkBuilder {
  b_map : gmap str Z;
  b_entries : list str;
}.

Definition dict_new : StringDictBuilder := mkBuilder ∅ [].

Definition dict_insert (b : StringDictBuilder) (s : str) : Z * StringDictBuilder :=
  match b_map b !! s with
  | Some id => (id, b)
  | None =>
      let id := as_u 32 (as_u 32 (zlen (b_entries b)) + 1) in
      (id, mkBuilder (<[s := id]> (b_map b)) (b_entries b ++ [s]))
  end.

Definition dict_serialize (b : StringDictBuilder) : bytes :=
  fold_left (fun buf s => encode_varint (zlen s) buf ++ s)
    (b_entries b) (encode_varint (zlen (b_entries b)) []).

(** ** Read path *)
Record StringDict := mkDict { entries : list str }.

Definition read_dict_entry : reader str :=
  len ← decode_varint;
  bs ← rmap_err InvalidDictionary (read_exact len);
  rlift (from_utf8 InvalidDictionary bs).

Definition read_dict : reader StringDict :=
  count ← decode_varint;
  _ ← rlift (vec_with_capacity 24 count);
  es ← rrepeat read_dict_entry count;
  mret (mkDict es).

Definition dict_deserialize (data : bytes) : result StringDict :=
  fst <$> read_dict data 0.

Definition dict_get (d : StringDict) (local_id : Z) : result str :=
  if local_id =? 0 then Err InvalidDictionary
  else ok_or InvalidDictionary (entries d !! Z.to_nat (local_id - 1)).

(** ** Invariant of the builder

    The map is the inverse of the entry list, ids being positions from one;
    the ids have not wrapped. *)
Record dict_wf (b : StringDictBuilder) : Prop := {
  wf_map s id : b_map b !! s = Some id <->
    exists i : nat, b_entries b !! i = Some s /\ id = Z.of_nat i + 1;
  wf_size : zlen (b_entries b) < 2 ^ 32;
  wf_utf8 : Forall (fun s => utf8_valid s = true) (b_entries b);
}.

(** [extends b b']: later states of a builder keep the ids given out. *)
Definition extends (b b' : StringDictBuilder) : Prop := b_entries b `prefix_of` b_entries b'.

#[export] Instance extends_preorder : PreOrder extends.
Proof. unfold extends. split; [by intros b|intros b1 b2 b3; apply transitivity]. Qed.

(** The entry that an id stands for. *)
Definition id_names (b : StringDictBuilder) (id : Z) (s : str) : Prop :=
  0 < id < 2 ^ 32 /\ b_entries b !! Z.to_nat (id - 1) = Some s.

Lemma id_names_extends b b' id s : extends b b' -> id_names b id s -> id_names b' id s.
Proof. intros Hext [Hid Hs]. split; [done|]. by eapply prefix_lookup_Some. Qed.

Lemma dict_new_wf : dict_wf dict_new.
Proof. split; [|done|constructor]. intros s id. split; [done|]. by intros (i & ? & ?). Qed.

Lemma dict_insert_spec b s id b' :
  dict_wf b -> utf8_valid s = true -> zlen (b_entries b) < 2 ^ 32 - 1 ->
  dict_insert b s = (id, b') ->
  dict_wf b' /\ extends b b' /\ id_names b' id s /\ zlen (b_entries b') <= zlen (b_entries b) + 1.
Proof.
  intros Hwf Hs Hroom. unfold dict_insert. pose proof (zlen_nonneg (b_entries b)).
  destruct (b_map b !! s) as [i|] eqn:E; intros [= <- <-].
  - split; [done|]. split; [done|]. split; [|lia].
    apply (wf_map b Hwf) in E as (n & Hn & ->).
    pose proof (lookup_lt_Some _ _ _ Hn). unfold zlen in *. split; [lia|].
    by replace (Z.to_nat (Z.of_nat n + 1 - 1)) with n by lia.
  - rewrite (as_u_id 32 (zlen _)), as_u_id by (unfold in_u; lia).
    assert (b_entries b !! Z.to_nat (zlen (b_entries b) + 1 - 1) = None) as Hnone.
    { apply lookup_ge_None. unfold zlen. lia. }
    unfold extends, id_names. simpl. split; [split|split; [|split; [split|]]].
    + intros s' id'. simpl. destruct (decide (s' = s)) as [->|Hne].
      * rewrite lookup_insert_eq. split.
        -- intros [= <-]. exists (length (b_entries b)). rewrite lookup_app_r, Nat.sub_diag by lia.
           done.
        -- intros (i & [Hi|[Hi1 Hi2]]%lookup_app_Some & ->).
           ++ assert (b_map b !! s = Some (Z.of_nat i + 1)) by (apply (wf_map b Hwf); eauto).
              congruence.
           ++ apply list_lookup_singleton_Some in Hi2 as [Hi2 _]. f_equal. unfold zlen. lia.
      * rewrite lookup_insert_ne, (wf_map b Hwf) by done. split.
        -- intros (i & Hi & ->). exists i. split; [|done]. by apply lookup_app_l_Some.
        -- intros (i & [Hi|[Hi1 Hi2]]%lookup_app_Some & ->); [by eauto|].
           apply list_lookup_singleton_Some in Hi2 as [_ ?]. done.
    + simpl. rewrite zlen_app, zlen_cons, zlen_nil. lia.
    + simpl. apply Forall_app. split; [apply Hwf|]. by repeat constructor.
    + by apply prefix_app_r.
    + lia.
    + replace (Z.to_nat (zlen (b_entries b) + 1 - 1)) with (length (b_entries b)) by (unfold zlen; lia).
      by rewrite lookup_app_r, Nat.sub_diag by lia.
    + rewrite zlen_app, zlen_cons, zlen_nil. lia.
Qed.

(** Inserting what is already there changes nothing. *)
Lemma dict_insert_idem b s id b' :
  dict_insert b s = (id, b') -> dict_insert b' s = (id, b').
Proof.
  unfold dict_insert. destruct (b_map b !! s) as [i|] eqn:E; intros [= <- <-].
  - by rewrite E.
  - simpl. by rewrite lookup_insert_eq.
Qed.

(** ** Serialisation *)

Definition dict_entry_bytes (s : str) : bytes := varint_bytes (zlen s) ++ s.

Lemma dict_serialize_app es buf :
  fold_left (fun buf s => encode_varint (zlen s) buf ++ s) es buf =
    buf ++ concat (dict_entry_bytes <$> es).
Proof.
  revert buf. induction es as [|s es IH]; intros buf; simpl; [by rewrite app_nil_r|].
  rewrite IH. unfold encode_varint, dict_entry_bytes. by rewrite <- !app_assoc.
Qed.

Lemma zlen_isize_u64 {A} (l : list A) : zlen l <= isize_max -> in_u 64 (zlen l).
Proof. pose proof (zlen_nonneg l). unfold in_u, isize_max. lia. Qed.

Lemma decodes_dict_entry s :
  utf8_valid s = true -> zlen s <= isize_max -> decodes read_dict_entry (dict_entry_bytes s) s.
Proof.
  intros Hs Hlen. unfold read_dict_entry, dict_entry_bytes.
  eapply decodes_bind; [by apply decodes_varint, zlen_isize_u64|].
  eapply decodes_bind_last.
  - by apply decodes_rmap_err, decodes_read_exact.
  - by apply decodes_rlift, from_utf8_Ok.
Qed.

Lemma decodes_list_map {A} (r : reader A) enc vs :
  Forall (fun v => decodes r (enc v) v) vs -> decodes_list r (concat (enc <$> vs)) vs.
Proof. induction 1; simpl; by constructor. Qed.

Lemma zlen_concat_elem {A B} (enc : A -> list B) x xs :
  x ∈ xs -> zlen (enc x) <= zlen (concat (enc <$> xs)).
Proof.
  induction xs as [|y xs IH]; [by intros ?%not_elem_of_nil|].
  intros [->|Hx]%elem_of_cons; rewrite fmap_cons; cbn [concat]; rewrite zlen_app.
  - pose proof (zlen_nonneg (concat (enc <$> xs))). lia.
  - pose proof (zlen_nonneg (enc y)). specialize (IH Hx). lia.
Qed.

Lemma dict_serialize_eq b :
  dict_serialize b =
    varint_bytes (zlen (b_entries b)) ++ concat (dict_entry_bytes <$> b_entries b).
Proof. unfold dict_serialize. by rewrite dict_serialize_app. Qed.

Lemma decodes_dict b :
  dict_wf b -> decodes read_dict (dict_serialize b) (mkDict (b_entries b)).
Proof.
  intros Hwf pre post Hfit. rewrite dict_serialize_eq in *.
  assert (Forall (fun s => zlen s <= isize_max) (b_entries b)) as Hsz.
  { apply Forall_forall. intros s Hs. pose proof (zlen_concat_elem dict_entry_bytes _ _ Hs) as Hc.
    unfold dict_entry_bytes in Hc at 1. zlen_norm.
    pose proof (zlen_nonneg pre). pose proof (zlen_nonneg post).
    pose proof (zlen_varint_bytes (zlen s)). pose proof (zlen_varint_bytes (zlen (b_entries b))). lia. }
  pose proof (wf_size b Hwf). pose proof (zlen_nonneg (b_entries b)).
  revert pre post Hfit. change (decodes read_dict
    (varint_bytes (zlen (b_entries b)) ++ concat (dict_entry_bytes <$> b_entries b)) (mkDict (b_entries b))).
  unfold read_dict. eapply decodes_bind; [apply decodes_varint; unfold in_u; lia|].
  eapply decodes_rlift_bind; [apply vec_with_capacity_Ok; unfold isize_max; lia|].
  apply (decodes_bind_ret _ mkDict), decodes_rrepeat; [done|].
  apply decodes_list_map. apply Forall_forall. intros s Hs.
  apply decodes_dict_entry.
  - by apply (proj1 (Forall_forall _ _) (wf_utf8 b Hwf)).
  - by apply (proj1 (Forall_forall _ _) Hsz).
Qed.

Lemma dict_roundtrip_lemma b :
  dict_wf b -> zlen (dict_serialize b) <= isize_max ->
  dict_deserialize (dict_serialize b) = Ok (mkDict (b_entries b)).
Proof.
  intros Hwf Hfit. unfold dict_deserialize.
  by rewrite (decodes_whole _ _ _ (decodes_dict b Hwf) Hfit).
Qed.

Lemma dict_get_names b id s : id_names b id s -> dict_get (mkDict (b_entries b)) id = Ok s.
Proof.
  intros [Hid Hs]. unfold dict_get. case_Z. simpl. by rewrite Hs.
Qed.

(** A crafted count makes the allocation panic before the first entry is
    read: a nine-byte dictionary is enough. *)
Lemma dict_deserialize_capacity_panic :
  dict_deserialize (varint_bytes (2 ^ 62)) = Panic.
Proof. vm_compute. reflexivity. Qed.

(** ** Properties *)

(** Inserting a list of strings, one after the other. *)
Fixpoint insert_strings (b : StringDictBuilder) (ss : list str) : list Z * StringDictBuilder :=
  match ss with
  | [] => ([], b)
  | s :: ss =>
      let '(id, b) := dict_insert b s in
      let '(ids, b) := insert_strings b ss in (id :: ids, b)
  end.

Lemma insert_strings_spec ss b ids b' :
  dict_wf b -> Forall (fun s => utf8_valid s = true) ss ->
  zlen (b_entries b) + zlen ss < 2 ^ 32 -> insert_strings b ss = (ids, b') ->
  dict_wf b' /\ extends b b' /\ Forall2 (id_names b') ids ss.
Proof.
  intros Hb Hss. revert b ids b' Hb.
  induction Hss as [|s ss Hs Hss IH]; intros b ids b' Hb Hroom; cbn [insert_strings].
  - intros [= <- <-]. split; [done|]. split; [done|constructor].
  - rewrite zlen_cons in Hroom. pose proof (zlen_nonneg ss).
    destruct (dict_insert b s) as [id b1] eqn:E1, (insert_strings b1 ss) as [ids1 b2] eqn:E2.
    intros [= <- <-]. destruct (dict_insert_spec _ _ _ _ Hb Hs ltac:(lia) E1) as (Hb1 & X1 & N1 & Z1).
    destruct (IH _ _ _ Hb1 ltac:(lia) E2) as (Hb2 & X2 & F2).
    split; [done|]. split; [by etransitivity|]. constructor; [|done].
    by eapply id_names_extends.
Qed.

(** A dictionary filled with any sequence of strings and serialised gives
    every string back under the id its insertion returned, also when strings
    repeat; the read dictionary has one entry per distinct string. *)
Theorem dict_ids_roundtrip (ss : list str) (ids : list Z) (b : StringDictBuilder) :
  Forall (fun s => utf8_valid s = true) ss -> zlen ss < 2 ^ 32 ->
  insert_strings dict_new ss = (ids, b) -> zlen (dict_serialize b) <= isize_max ->
  exists d, dict_deserialize (dict_serialize b) = Ok d /\
    Forall2 (fun id s => dict_get d id = Ok s) ids ss /\ NoDup (entries d).
Proof.
  intros Hss Hlen Hins Hfit.
  destruct (insert_strings_spec _ _ _ _ dict_new_wf Hss Hlen Hins) as (Hb & _ & HF).
  exists (mkDict (b_entries b)). split; [by apply dict_roundtrip_lemma|]. split.
  - eapply Forall2_impl; [exact HF|]. intros id s. apply dict_get_names.
  - apply NoDup_alt. intros i j s Hi Hj.
    assert (Some (Z.of_nat i + 1) = Some (Z.of_nat j + 1)) as E; [|injection E; lia].
    rewrite <- (proj2 (wf_map b Hb s (Z.of_nat i + 1))) by (exists i; done).
    apply (wf_map b Hb). by exists j.
Qed.

Lemma dict_ids_roundtrip_witness :
  let b := (insert_strings dict_new [[97]; [98; 99]; [97]]).2 in
  exists d, dict_deserialize (dict_serialize b) = Ok d /\
    Forall2 (fun id s => dict_get d id = Ok s) [1; 2; 1] [[97]; [98; 99]; [97]] /\ NoDup (entries d).
Proof.
  apply (dict_ids_roundtrip [[97]; [98; 99]; [97]] [1; 2; 1]);
    [repeat constructor|vm_compute; done|vm_compute; done|vm_compute; done].
Defined.
