(* ===== verification/CommitFormat.v ===== *)
(** * Layout of a commit blob

    Models src/fluree-db-core/src/commit/codec/format.rs: the constants, the
    object tags, the 32-byte header, the 64-byte footer and the signature
    block of commit format v4. *)

From S2P Require Import Prelude Bytes Varint StringDict.
From stdpp Require Import base list numbers.
From Stdlib Require Import ZArith Lia.

Local Open Scope Z_scope.

Definition MAGIC : bytes := [0x46; 0x43; 0x56; 0x32]. (* FCV2 *)
Definition VERSION : Z := 4.
Definition VERSION_V3 : Z := 3.
Definition HEADER_LEN : Z := 32.
Definition FOOTER_LEN : Z := 64.
Definition MIN_COMMIT_LEN : Z := HEADER_LEN + FOOTER_LEN.
Definition FLAG_ZSTD : Z := 0x01.
Definition FLAG_HAS_COMMIT_SIG : Z := 0x02.
Definition OP_FLAG_ASSERT : Z := 0x01.
Definition OP_FLAG_HAS_LANG : Z := 0x02.
Definition OP_FLAG_HAS_I : Z := 0x04.

(** ** Object tags *)
Inductive OTag :=
| TRef | TLong | TDouble | TString | TBoolean | TDateTime | TDate | TTime | TBigInt
| TDecimal | TJson | TNull | TGYear | TGYearMonth | TGMonth | TGDay | TGMonthDay
| TYearMonthDuration | TDayTimeDuration | TDuration | TGeoPoint | TVector.

Definition otag_u8 (tag : OTag) : Z :=
  match tag with
  | TRef => 0 | TLong => 1 | TDouble => 2 | TString => 3 | TBoolean => 4
  | TDateTime => 5 | TDate => 6 | TTime => 7 | TBigInt => 8 | TDecimal => 9
  | TJson => 10 | TNull => 11 | TGYear => 12 | TGYearMonth => 13 | TGMonth => 14
  | TGDay => 15 | TGMonthDay => 16 | TYearMonthDuration => 17
  | TDayTimeDuration => 18 | TDuration => 19 | TGeoPoint => 20 | TVector => 21
  end.

Definition otag_from_u8 (b : Z) : result OTag :=
  match b with
  | 0 => Ok TRef | 1 => Ok TLong | 2 => Ok TDouble | 3 => Ok TString | 4 => Ok TBoolean
  | 5 => Ok TDateTime | 6 => Ok TDate | 7 => Ok TTime | 8 => Ok TBigInt | 9 => Ok TDecimal
  | 10 => Ok TJson | 11 => Ok TNull | 12 => Ok TGYear | 13 => Ok TGYearMonth
  | 14 => Ok TGMonth | 15 => Ok TGDay | 16 => Ok TGMonthDay | 17 => Ok TYearMonthDuration
  | 18 => Ok TDayTimeDuration | 19 => Ok TDuration | 20 => Ok TGeoPoint | 21 => Ok TVector
  | _ => Err (InvalidOpTag b)
  end.

Lemma otag_roundtrip tag : otag_from_u8 (otag_u8 tag) = Ok tag.
Proof. by destruct tag. Qed.

(** ** Signature block *)
Definition ALGO_ED25519 : Z := 0x01.
Definition MAX_SIG_COUNT : Z := 64.
Definition MAX_SIGNER_LEN : Z := 256.
Definition MAX_METADATA_LEN : Z := 4096.

Record CommitSignature := mkSig {
  signer : str;
  algo : Z;
  signature : bytes;
  metadata : option bytes;
}.

Definition encode_sig (sig : CommitSignature) (buf : bytes) : bytes :=
  let buf := buf ++ le_bytes 2 (zlen (signer sig)) ++ signer sig in
  let buf := buf ++ [algo sig] ++ signature sig in
  match metadata sig with
  | Some meta => buf ++ le_bytes 2 (zlen meta) ++ meta
  | None => buf ++ le_bytes 2 0
  end.

Definition encode_sig_block (sigs : list CommitSignature) (buf : bytes) : bytes :=
  fold_left (fun buf sig => encode_sig sig buf) sigs (buf ++ le_bytes 2 (zlen sigs)).

Definition decode_sig : reader CommitSignature :=
  signer_len ← read_le 2;
  if MAX_SIGNER_LEN <? signer_len then rfail EnvelopeDecode else
  signer_bytes ← read_exact signer_len;
  signer ← rlift (from_utf8 EnvelopeDecode signer_bytes);
  algo ← read_u8;
  if negb (algo =? ALGO_ED25519) then rfail EnvelopeDecode else
  signature ← read_exact 64;
  meta_len ← read_le 2;
  metadata ← (if 0 <? meta_len then
                if MAX_METADATA_LEN <? meta_len then rfail EnvelopeDecode
                else meta ← read_exact meta_len; mret (Some meta)
              else mret None);
  mret (mkSig signer algo signature metadata).

Definition read_sigs : reader (list CommitSignature) :=
  sig_count ← read_le 2;
  if MAX_SIG_COUNT <? sig_count then rfail EnvelopeDecode else
  rrepeat decode_sig sig_count.

Definition decode_sig_block (data : bytes) : result (list CommitSignature) :=
  '(sigs, pos) ← read_sigs data 0;
  if pos =? zlen data then Ok sigs else Err EnvelopeDecode.

Definition sig_size (sig : CommitSignature) : Z :=
  2 + zlen (signer sig) + 1 + 64 + 2 +
  match metadata sig with Some meta => zlen meta | None => 0 end.

Definition sig_block_size (sigs : list CommitSignature) : Z :=
  fold_left (fun size sig => size + sig_size sig) sigs 2.

(** ** Header *)
Record CommitHeader := mkHeader {
  version : Z;
  flags : Z;
  header_t : Z;
  op_count : Z;
  envelope_len : Z;
  sig_block_len : Z;
}.

Definition header_bytes (h : CommitHeader) : bytes :=
  MAGIC ++ [version h] ++ [flags h] ++ le_bytes 4 (header_t h) ++ le_bytes 4 (op_count h) ++
  le_bytes 4 (envelope_len h) ++ le_bytes 2 (sig_block_len h) ++ replicate 12 0.

(** [write_to]: overwrites the first 32 bytes. *)
Definition header_write_to (h : CommitHeader) (buf : bytes) : bytes :=
  header_bytes h ++ drop (Z.to_nat HEADER_LEN) buf.

Definition header_read_from (buf : bytes) : result CommitHeader :=
  if zlen buf <? HEADER_LEN then Err (TooSmall (zlen buf) HEADER_LEN)
  else if negb (bool_decide (slice buf 0 4 = MAGIC)) then Err InvalidMagic
  else
    let version := le_int (slice buf 4 5) in
    if negb (version =? VERSION) && negb (version =? VERSION_V3)
    then Err (UnsupportedVersion version)
    else Ok {| version := version;
               flags := le_int (slice buf 5 6);
               header_t := le_int (slice buf 6 10);
               op_count := le_int (slice buf 10 14);
               envelope_len := le_int (slice buf 14 18);
               sig_block_len := le_int (slice buf 18 20) |}.

(** ** Footer *)
Record DictLocation := mkLoc { offset : Z; loc_len : Z }.

Record CommitFooter := mkFooter {
  loc_graph : DictLocation;
  loc_subject : DictLocation;
  loc_predicate : DictLocation;
  loc_datatype : DictLocation;
  loc_object_ref : DictLocation;
  ops_section_len : Z;
}.

Definition loc_bytes (d : DictLocation) : bytes :=
  le_bytes 8 (offset d) ++ le_bytes 4 (loc_len d).

Definition footer_bytes (f : CommitFooter) : bytes :=
  loc_bytes (loc_graph f) ++ loc_bytes (loc_subject f) ++ loc_bytes (loc_predicate f) ++
  loc_bytes (loc_datatype f) ++ loc_bytes (loc_object_ref f) ++ le_bytes 4 (ops_section_len f).

Definition loc_at (buf : bytes) (pos : Z) : DictLocation :=
  mkLoc (le_int (slice buf pos (pos + 8))) (le_int (slice buf (pos + 8) (pos + 12))).

Definition footer_read_from (buf : bytes) : result CommitFooter :=
  if zlen buf <? FOOTER_LEN then Err (TooSmall (zlen buf) FOOTER_LEN)
  else Ok {| loc_graph := loc_at buf 0;
             loc_subject := loc_at buf 12;
             loc_predicate := loc_at buf 24;
             loc_datatype := loc_at buf 36;
             loc_object_ref := loc_at buf 48;
             ops_section_len := le_int (slice buf 60 64) |}.

(** ** Header and footer round trips *)

Record header_wf (h : CommitHeader) : Prop := {
  hw_version : version h = VERSION \/ version h = VERSION_V3;
  hw_flags : in_u 8 (flags h);
  hw_t : in_u 32 (header_t h);
  hw_ops : in_u 32 (op_count h);
  hw_env : in_u 32 (envelope_len h);
  hw_sig : in_u 16 (sig_block_len h);
}.

Lemma zlen_header_bytes h : zlen (header_bytes h) = HEADER_LEN.
Proof. unfold header_bytes. by rewrite !zlen_app, !zlen_le_bytes. Qed.

Lemma zlen_footer_bytes f : zlen (footer_bytes f) = FOOTER_LEN.
Proof. unfold footer_bytes, loc_bytes. by rewrite !zlen_app, !zlen_le_bytes. Qed.
#[export] Hint Rewrite zlen_header_bytes zlen_footer_bytes : zlen.

(** Splits a slice off a concatenation of fields of known length. *)
Lemma slice_field {A} (pre mid post buf : list A) i j :
  buf = pre ++ mid ++ post -> i = zlen pre -> j = i + zlen mid -> slice buf i j = mid.
Proof. intros -> -> ->. by apply slice_app. Qed.

Lemma le_field_value (n : nat) z pre post buf i j :
  in_u (8 * Z.of_nat n) z -> buf = pre ++ le_bytes n z ++ post ->
  i = zlen pre -> j = i + Z.of_nat n -> le_int (slice buf i j) = z.
Proof.
  intros Hz Hbuf Hi Hj. rewrite (slice_field pre (le_bytes n z) post) by (rewrite ?zlen_le_bytes; done).
  by apply le_int_bytes.
Qed.

Ltac take_field n z pre post :=
  rewrite (le_field_value n z pre post); [|done|rewrite <- ?app_assoc; done|done|done].

Lemma header_read_bytes h rest :
  header_wf h -> header_read_from (header_bytes h ++ rest) = Ok h.
Proof.
  intros [Hv Hf Ht Ho He Hs]. unfold header_read_from.
  rewrite zlen_app, zlen_header_bytes. pose proof (zlen_nonneg rest).
  destruct (Z.ltb_spec (HEADER_LEN + zlen rest) HEADER_LEN); [lia|].
  assert (le_bytes 1 (version h) = [version h]) as Ev.
  { simpl. by destruct Hv as [-> | ->]. }
  assert (le_bytes 1 (flags h) = [flags h]) as Ef.
  { simpl. rewrite Z.mod_small; [done|apply Hf]. }
  unfold header_bytes. rewrite <- Ev, <- Ef. set (v := le_bytes 1 (version h)).
  set (f := le_bytes 1 (flags h)). set (t := le_bytes 4 (header_t h)).
  set (n := le_bytes 4 (op_count h)). set (e := le_bytes 4 (envelope_len h)).
  set (k := le_bytes 2 (sig_block_len h)).
  rewrite (slice_field [] MAGIC (v ++ f ++ t ++ n ++ e ++ k ++ replicate 12 0 ++ rest) _ 0 4)
    by (rewrite <- ?app_assoc; done).
  rewrite bool_decide_eq_true_2 by done. cbn [negb].
  rewrite (le_field_value 1 (version h) MAGIC (f ++ t ++ n ++ e ++ k ++ replicate 12 0 ++ rest));
    [|destruct Hv as [-> | ->]; done|rewrite <- ?app_assoc; done|done|done].
  assert (negb (version h =? VERSION) && negb (version h =? VERSION_V3) = false) as ->
    by by destruct Hv as [-> | ->].
  f_equal.
  take_field 1%nat (flags h) (MAGIC ++ v) (t ++ n ++ e ++ k ++ replicate 12 0 ++ rest).
  take_field 4%nat (header_t h) (MAGIC ++ v ++ f) (n ++ e ++ k ++ replicate 12 0 ++ rest).
  take_field 4%nat (op_count h) (MAGIC ++ v ++ f ++ t) (e ++ k ++ replicate 12 0 ++ rest).
  take_field 4%nat (envelope_len h) (MAGIC ++ v ++ f ++ t ++ n) (k ++ replicate 12 0 ++ rest).
  take_field 2%nat (sig_block_len h) (MAGIC ++ v ++ f ++ t ++ n ++ e) (replicate 12 0 ++ rest).
  by destruct h.
Qed.

Definition loc_wf (d : DictLocation) : Prop := in_u 64 (offset d) /\ in_u 32 (loc_len d).

Record footer_wf (f : CommitFooter) : Prop := {
  fw_graph : loc_wf (loc_graph f);
  fw_subject : loc_wf (loc_subject f);
  fw_predicate : loc_wf (loc_predicate f);
  fw_datatype : loc_wf (loc_datatype f);
  fw_object_ref : loc_wf (loc_object_ref f);
  fw_ops : in_u 32 (ops_section_len f);
}.

Lemma loc_at_bytes d pre post buf pos :
  loc_wf d -> buf = pre ++ loc_bytes d ++ post -> pos = zlen pre -> loc_at buf pos = d.
Proof.
  intros [Ho Hl] -> ->. unfold loc_at, loc_bytes.
  rewrite (le_field_value 8 (offset d) pre (le_bytes 4 (loc_len d) ++ post));
    [|done|by rewrite <- ?app_assoc|done|done].
  rewrite (le_field_value 4 (loc_len d) (pre ++ le_bytes 8 (offset d)) post);
    [by destruct d|done|by rewrite <- ?app_assoc|by rewrite zlen_app, zlen_le_bytes|lia].
Qed.

Lemma footer_read_bytes f : footer_wf f -> footer_read_from (footer_bytes f) = Ok f.
Proof.
  intros [Hg Hs Hp Hd Hr Ho]. unfold footer_read_from. rewrite zlen_footer_bytes.
  unfold footer_bytes. cbn [Z.ltb Z.compare Pos.compare]. simpl (_ <? _).
  set (lg := loc_bytes (loc_graph f)). set (ls := loc_bytes (loc_subject f)).
  set (lp := loc_bytes (loc_predicate f)). set (ld := loc_bytes (loc_datatype f)).
  set (lr := loc_bytes (loc_object_ref f)). set (n := le_bytes 4 (ops_section_len f)).
  rewrite (loc_at_bytes (loc_graph f) [] (ls ++ lp ++ ld ++ lr ++ n)) by done.
  rewrite (loc_at_bytes (loc_subject f) lg (lp ++ ld ++ lr ++ n)) by done.
  rewrite (loc_at_bytes (loc_predicate f) (lg ++ ls) (ld ++ lr ++ n)) by (rewrite <- ?app_assoc; done).
  rewrite (loc_at_bytes (loc_datatype f) (lg ++ ls ++ lp) (lr ++ n)) by (rewrite <- ?app_assoc; done).
  rewrite (loc_at_bytes (loc_object_ref f) (lg ++ ls ++ lp ++ ld) n) by (rewrite <- ?app_assoc; done).
  rewrite (le_field_value 4 (ops_section_len f) (lg ++ ls ++ lp ++ ld ++ lr) []);
    [by destruct f|done|by rewrite app_nil_r, <- ?app_assoc|done|done].
Qed.

(** ** Signature block round trip *)

Record sig_wf (sig : CommitSignature) : Prop := {
  sw_signer : utf8_valid (signer sig) = true;
  sw_signer_len : zlen (signer sig) <= MAX_SIGNER_LEN;
  sw_algo : algo sig = ALGO_ED25519;
  sw_signature : zlen (signature sig) = 64;
  sw_metadata : match metadata sig with
                | Some meta => 0 < zlen meta <= MAX_METADATA_LEN
                | None => True
                end;
}.

Definition sig_bytes (sig : CommitSignature) : bytes := encode_sig sig [].

Lemma encode_sig_app sig buf : encode_sig sig buf = buf ++ sig_bytes sig.
Proof. unfold sig_bytes, encode_sig. destruct (metadata sig); by rewrite <- ?app_assoc. Qed.

Lemma encode_sig_block_app sigs buf :
  encode_sig_block sigs buf = buf ++ le_bytes 2 (zlen sigs) ++ concat (sig_bytes <$> sigs).
Proof.
  unfold encode_sig_block. rewrite app_assoc. generalize (buf ++ le_bytes 2 (zlen sigs)).
  induction sigs as [|sig sigs IH]; intros b; simpl; [by rewrite app_nil_r|].
  by rewrite IH, encode_sig_app, <- app_assoc.
Qed.

Lemma decodes_metadata meta :
  match meta with Some m => 0 < zlen m <= MAX_METADATA_LEN | None => True end ->
  decodes (meta_len ← read_le 2;
           if 0 <? meta_len then
             if MAX_METADATA_LEN <? meta_len then rfail EnvelopeDecode
             else meta ← read_exact meta_len; mret (Some meta)
           else mret None)
    (match meta with Some m => le_bytes 2 (zlen m) ++ m | None => le_bytes 2 0 end) meta.
Proof.
  unfold MAX_METADATA_LEN. destruct meta as [meta|]; intros Hm.
  - eapply decodes_bind; [apply (decodes_read_le 2); unfold in_u; lia|]. case_Z.
    by apply (decodes_bind_ret _ Some), decodes_read_exact.
  - eapply decodes_bind_last; [by apply (decodes_read_le 2)|]. apply decodes_ret.
Qed.

Lemma reader_bind_assoc {A B C} (r : reader A) (f : A -> reader B) (k : B -> reader C) data pos :
  ((r ≫= f) ≫= k) data pos = (r ≫= (fun a => f a ≫= k)) data pos.
Proof. unfold mbind, reader_bind. by destruct (r data pos) as [[]| |]. Qed.

Lemma decodes_ext {A} (r r' : reader A) bs v :
  (forall data pos, r data pos = r' data pos) -> decodes r' bs v -> decodes r bs v.
Proof. intros E H pre post Hfit. rewrite E. by apply H. Qed.

(** A record field decoded by two steps of the monad. *)
Lemma decodes_assoc {A B C} (r : reader A) (f : A -> reader B) (k : B -> reader C) bs1 bs2 v w :
  decodes (r ≫= f) bs1 v -> decodes (k v) bs2 w ->
  decodes (r ≫= (fun a => f a ≫= k)) (bs1 ++ bs2) w.
Proof.
  intros H1 H2. eapply decodes_ext; [intros; symmetry; apply reader_bind_assoc|].
  by eapply decodes_bind.
Qed.

Lemma decodes_sig sig : sig_wf sig -> decodes decode_sig (sig_bytes sig) sig.
Proof.
  intros [Hu Hlen Ha Hs Hm]. unfold MAX_SIGNER_LEN in *.
  assert (sig_bytes sig = le_bytes 2 (zlen (signer sig)) ++ signer sig ++ [algo sig] ++
    signature sig ++ match metadata sig with
                     | Some m => le_bytes 2 (zlen m) ++ m | None => le_bytes 2 0 end) as ->.
  { unfold sig_bytes, encode_sig. destruct (metadata sig); by rewrite <- ?app_assoc. }
  unfold decode_sig, MAX_SIGNER_LEN. pose proof (zlen_nonneg (signer sig)).
  eapply decodes_bind; [apply (decodes_read_le 2); unfold in_u; lia|]. case_Z.
  eapply decodes_bind; [by apply decodes_read_exact|].
  eapply decodes_rlift_bind; [by apply from_utf8_Ok|].
  eapply decodes_bind; [apply decodes_read_u8|]. rewrite Ha. cbn [Z.eqb Pos.eqb ALGO_ED25519 negb].
  eapply decodes_bind; [by apply decodes_read_exact|].
  rewrite <- (app_nil_r (match metadata sig with Some _ => _ | None => _ end)).
  eapply decodes_assoc; [by apply decodes_metadata|].
  destruct sig; simpl in *; subst. apply decodes_ret.
Qed.

Lemma zlen_sig_bytes sig : zlen (signature sig) = 64 -> zlen (sig_bytes sig) = sig_size sig.
Proof.
  intros Hs. unfold sig_bytes, encode_sig, sig_size.
  destruct (metadata sig); zlen_norm; rewrite ?zlen_le_bytes; simpl; lia.
Qed.

Lemma sig_block_size_bytes sigs :
  Forall sig_wf sigs -> sig_block_size sigs = zlen (encode_sig_block sigs []).
Proof.
  intros Hs. rewrite encode_sig_block_app. unfold sig_block_size.
  assert (forall n, fold_left (fun size sig => size + sig_size sig) sigs n =
    n + zlen (concat (sig_bytes <$> sigs))) as ->.
  { induction Hs as [|sig sigs Hsig Hs IH]; intros n; [by rewrite Z.add_0_r|].
    rewrite fmap_cons. cbn [fold_left concat]. rewrite IH, zlen_app, zlen_sig_bytes by apply Hsig. lia. }
  by rewrite app_nil_l, zlen_app, zlen_le_bytes.
Qed.

Lemma decode_encode_sig_block sigs :
  Forall sig_wf sigs -> zlen sigs <= MAX_SIG_COUNT ->
  zlen (encode_sig_block sigs []) <= isize_max ->
  decode_sig_block (encode_sig_block sigs []) = Ok sigs.
Proof.
  intros Hs Hlen Hfit. unfold MAX_SIG_COUNT in Hlen. pose proof (zlen_nonneg sigs).
  assert (decodes read_sigs (encode_sig_block sigs []) sigs) as Hd.
  { rewrite encode_sig_block_app, app_nil_l. unfold read_sigs, MAX_SIG_COUNT.
    eapply decodes_bind; [apply (decodes_read_le 2); unfold in_u; lia|]. case_Z.
    apply decodes_rrepeat; [done|]. apply decodes_list_map.
    eapply Forall_impl; [apply decodes_sig|exact Hs]. }
  unfold decode_sig_block. rewrite (decodes_whole _ _ _ Hd Hfit).
  unfold mbind, outcome_bind. by rewrite Z.eqb_refl.
Qed.

(** ** Properties *)

(** Header and footer round trip: fields of their wire widths read back
    as written, whatever bytes follow the header. *)
Theorem header_footer_roundtrip h f rest :
  header_wf h -> footer_wf f ->
  header_read_from (header_write_to h (replicate 32 0 ++ rest)) = Ok h /\
  footer_read_from (footer_bytes f) = Ok f.
Proof.
  intros Hh Hf. split; [|by apply footer_read_bytes].
  unfold header_write_to. by apply header_read_bytes.
Qed.

Lemma header_footer_roundtrip_witness :
  let h := mkHeader 4 3 77 5 600 71 in
  let f := mkFooter (mkLoc 632 1) (mkLoc 633 2) (mkLoc 635 3) (mkLoc 638 4) (mkLoc 642 5) 0 in
  header_read_from (header_write_to h (replicate 32 0 ++ [1; 2])) = Ok h /\
  footer_read_from (footer_bytes f) = Ok f.
Proof.
  apply (header_footer_roundtrip (mkHeader 4 3 77 5 600 71)
    (mkFooter (mkLoc 632 1) (mkLoc 633 2) (mkLoc 635 3) (mkLoc 638 4) (mkLoc 642 5) 0) [1; 2]);
    split; repeat split; try (by left); vm_compute; done.
Defined.

(** Signature block round trip: up to 64 Ed25519 signatures with bounded
    signers and metadata decode to themselves and consume the block exactly;
    [sig_block_size] predicts the encoded length. *)
Theorem sig_block_roundtrip sigs :
  Forall sig_wf sigs -> zlen sigs <= MAX_SIG_COUNT ->
  zlen (encode_sig_block sigs []) <= isize_max ->
  decode_sig_block (encode_sig_block sigs []) = Ok sigs /\
  sig_block_size sigs = zlen (encode_sig_block sigs []).
Proof. intros. split; [by apply decode_encode_sig_block|by apply sig_block_size_bytes]. Qed.

Lemma sig_block_roundtrip_witness :
  let sigs := [mkSig [100; 105; 100] ALGO_ED25519 (replicate 64 9) (Some [1; 2])] in
  decode_sig_block (encode_sig_block sigs []) = Ok sigs /\
  sig_block_size sigs = zlen (encode_sig_block sigs []).
Proof.
  apply (sig_block_roundtrip [mkSig [100; 105; 100] ALGO_ED25519 (replicate 64 9) (Some [1; 2])]);
    [apply Forall_singleton; split; vm_compute; done|vm_compute; done|vm_compute; done].
Defined.
