(* ===== verification/OpCodec.v ===== *)
(** * Ops: one flake in the commit's op stream

    Models src/fluree-db-core/src/commit/codec/op_codec.rs (encoding a flake
    against the five commit-local dictionaries, decoding it back) and the
    zero-copy decoder of src/fluree-db-core/src/commit/codec/raw_reader.rs,
    whose object decoder the flake decoder shares. *)

From S2P Require Import Prelude Bytes Varint Cmp Value Plain Flake StringDict CommitFormat.
From stdpp Require Import base list numbers gmap.
From Stdlib Require Import ZArith Lia.

Local Open Scope Z_scope.

(** ** Dictionaries *)
Record CommitDicts := mkDicts {
  d_graph : StringDictBuilder;
  d_subject : StringDictBuilder;
  d_predicate : StringDictBuilder;
  d_datatype : StringDictBuilder;
  d_object_ref : StringDictBuilder;
}.

Definition dicts_new : CommitDicts := mkDicts dict_new dict_new dict_new dict_new dict_new.

Record ReadDicts := mkReadDicts {
  r_graph : StringDict;
  r_subject : StringDict;
  r_predicate : StringDict;
  r_datatype : StringDict;
  r_object_ref : StringDict;
}.

(** ** Encoding *)

Definition encode_len_prefixed_str (s : str) (buf : bytes) : bytes :=
  encode_varint (zlen s) buf ++ s.

(** The display value is written after a one-byte gap for its length; a longer
    length prefix is spliced over the gap. *)
Definition encode_len_prefixed_display (value : str) (buf : bytes) : bytes :=
  let len_pos := Z.to_nat (zlen buf) in
  let buf := buf ++ [0] in
  let data_start := zlen buf in
  let buf := buf ++ value in
  let data_len := zlen buf - data_start in
  if data_len <? 128 then <[len_pos := as_u 8 data_len]> buf
  else take len_pos buf ++ encode_varint data_len [] ++ drop (S len_pos) buf.

(** [encode_varint(sid.namespace_code, buf); encode_varint(dict.insert(name), buf)] *)
Definition encode_sid (sid : Sid) (b : StringDictBuilder) (buf : bytes)
    : StringDictBuilder * bytes :=
  let buf := encode_varint (namespace_code sid) buf in
  let '(name_id, b) := dict_insert b (name sid) in
  (b, encode_varint name_id buf).

Section codec.
Context `{VL : ValueLib}.

Definition encode_lex (tag : OTag) (display : str) (buf : bytes) : bytes :=
  encode_len_prefixed_display display (buf ++ [otag_u8 tag]).

Definition encode_object (value : FlakeValue) (refs : StringDictBuilder) (buf : bytes)
    : StringDictBuilder * bytes :=
  match value with
  | Ref sid => encode_sid sid refs (buf ++ [otag_u8 TRef])
  | Long n => (refs, encode_varint (zigzag_encode n) (buf ++ [otag_u8 TLong]))
  | Double d => (refs, buf ++ [otag_u8 TDouble] ++ le_bytes 8 d)
  | String s => (refs, encode_len_prefixed_str s (buf ++ [otag_u8 TString]))
  | Boolean b => (refs, buf ++ [otag_u8 TBoolean] ++ [Z.b2z b])
  | DateTime v => (refs, encode_lex TDateTime (lex_original _ v) buf)
  | Date v => (refs, encode_lex TDate (lex_original _ v) buf)
  | Time v => (refs, encode_lex TTime (lex_original _ v) buf)
  | BigInt n => (refs, encode_lex TBigInt (bigint_display n) buf)
  | Decimal d => (refs, encode_lex TDecimal (dec_display d) buf)
  | Json s => (refs, encode_len_prefixed_str s (buf ++ [otag_u8 TJson]))
  | Null => (refs, buf ++ [otag_u8 TNull])
  | GYear v => (refs, encode_lex TGYear (lex_original _ v) buf)
  | GYearMonth v => (refs, encode_lex TGYearMonth (lex_original _ v) buf)
  | GMonth v => (refs, encode_lex TGMonth (lex_original _ v) buf)
  | GDay v => (refs, encode_lex TGDay (lex_original _ v) buf)
  | GMonthDay v => (refs, encode_lex TGMonthDay (lex_original _ v) buf)
  | YearMonthDuration v => (refs, encode_lex TYearMonthDuration (lex_original _ v) buf)
  | DayTimeDuration v => (refs, encode_lex TDayTimeDuration (lex_original _ v) buf)
  | Duration v => (refs, encode_lex TDuration (lex_original _ v) buf)
  | GeoPoint bits =>
      (refs, buf ++ [otag_u8 TGeoPoint] ++ le_bytes 8 (geo_lat bits) ++ le_bytes 8 (geo_lng bits))
  | Vector v =>
      (refs, fold_left (fun buf e => buf ++ le_bytes 8 e) v
               (encode_varint (zlen v) (buf ++ [otag_u8 TVector])))
  end.

Definition meta_lang (m : option FlakeMeta) : option str := m ≫= lang.
Definition meta_i (m : option FlakeMeta) : option Z := m ≫= li.

Definition op_flags (op : bool) (lang : option str) (i : option Z) : Z :=
  let flags := 0 in
  let flags := if op then Z.lor flags OP_FLAG_ASSERT else flags in
  let flags := if lang is Some _ then Z.lor flags OP_FLAG_HAS_LANG else flags in
  if i is Some _ then Z.lor flags OP_FLAG_HAS_I else flags.

Definition encode_op (flake : Flake) (dicts : CommitDicts) (buf : bytes)
    : result (CommitDicts * bytes) :=
  let '(graph, buf) :=
    match f_g flake with
    | Some g => encode_sid g (d_graph dicts) buf
    | None => (d_graph dicts, encode_varint 0 (encode_varint 0 buf))
    end in
  let '(subject, buf) := encode_sid (f_s flake) (d_subject dicts) buf in
  let '(predicate, buf) := encode_sid (f_p flake) (d_predicate dicts) buf in
  let '(datatype, buf) := encode_sid (f_dt flake) (d_datatype dicts) buf in
  let '(object_ref, buf) := encode_object (f_o flake) (d_object_ref dicts) buf in
  let dicts := mkDicts graph subject predicate datatype object_ref in
  let lang := meta_lang (f_m flake) in
  let i := meta_i (f_m flake) in
  let buf := buf ++ [op_flags (f_op flake) lang i] in
  let buf := match lang with Some l => encode_varint (zlen l) buf ++ l | None => buf end in
  match i with
  | Some i => if i <? 0 then Err (NegativeListIndex i) else Ok (dicts, encode_varint i buf)
  | None => Ok (dicts, buf)
  end.

(** ** Decoding *)

(** [decode_inline_str], and [decode_len_prefixed_str] of op_codec.rs. *)
Definition decode_inline_str : reader str :=
  len ← decode_varint;
  bs ← read_exact len;
  rlift (from_utf8 InvalidOp bs).

Definition decode_ns_code : reader Z :=
  raw ← decode_varint;
  if u16_max <? raw then rfail InvalidOp else mret raw.

Inductive RawObject :=
| RawRef (ns_code : Z) (name : str)
| RawLong (n : Z)
| RawDouble (d : f64)
| RawStr (s : str)
| RawBoolean (b : bool)
| RawDateTimeStr (s : str)
| RawDateStr (s : str)
| RawTimeStr (s : str)
| RawBigIntStr (s : str)
| RawDecimalStr (s : str)
| RawJsonStr (s : str)
| RawNull
| RawGYearStr (s : str)
| RawGYearMonthStr (s : str)
| RawGMonthStr (s : str)
| RawGDayStr (s : str)
| RawGMonthDayStr (s : str)
| RawYearMonthDurationStr (s : str)
| RawDayTimeDurationStr (s : str)
| RawDurationStr (s : str)
| RawGeoPoint (lat lng : f64)
| RawVector (v : list f64).

(** [TryFrom<RawObject> for FlakeValue], its error already mapped to
    [InvalidOp] as [decode_object] does. *)
Definition parse_as {A} (p : option A) (k : A -> FlakeValue) : result FlakeValue :=
  k <$> ok_or InvalidOp p.

Definition value_try_from (raw : RawObject) : result FlakeValue :=
  match raw with
  | RawRef ns_code name => Ok (Ref (mkSid ns_code name))
  | RawLong n => Ok (Long n)
  | RawDouble n => Ok (Double n)
  | RawStr s => Ok (String s)
  | RawBoolean b => Ok (Boolean b)
  | RawNull => Ok Null
  | RawJsonStr s => Ok (Json s)
  | RawDateTimeStr s => parse_as (lex_parse KDateTime s) DateTime
  | RawDateStr s => parse_as (lex_parse KDate s) Date
  | RawTimeStr s => parse_as (lex_parse KTime s) Time
  | RawBigIntStr s => parse_as (bigint_parse s) BigInt
  | RawDecimalStr s => parse_as (dec_parse s) Decimal
  | RawGYearStr s => parse_as (lex_parse KGYear s) GYear
  | RawGYearMonthStr s => parse_as (lex_parse KGYearMonth s) GYearMonth
  | RawGMonthStr s => parse_as (lex_parse KGMonth s) GMonth
  | RawGDayStr s => parse_as (lex_parse KGDay s) GDay
  | RawGMonthDayStr s => parse_as (lex_parse KGMonthDay s) GMonthDay
  | RawYearMonthDurationStr s => parse_as (lex_parse KYearMonthDuration s) YearMonthDuration
  | RawDayTimeDurationStr s => parse_as (lex_parse KDayTimeDuration s) DayTimeDuration
  | RawDurationStr s => parse_as (lex_parse KDuration s) Duration
  | RawGeoPoint lat lng => parse_as (geo_new lat lng) GeoPoint
  | RawVector v => Ok (Vector v)
  end.

(** [varint as u16], [varint as u32]: truncating casts. *)
Definition decode_as (w : Z) : reader Z := raw ← decode_varint; mret (as_u w raw).

Definition read_name (d : StringDict) : reader str :=
  name_id ← decode_as 32; rlift (dict_get d name_id).

Definition vector_elements (len : Z) (vec_bytes : bytes) : list f64 :=
  (fun i => le_int (slice vec_bytes (8 * i) (8 * i + 8))) <$> seqZ 0 len.

Definition decode_raw_object (tag : OTag) (dicts : ReadDicts) : reader RawObject :=
  match tag with
  | TRef => ns_code ← decode_as 16; name ← read_name (r_object_ref dicts); mret (RawRef ns_code name)
  | TLong => raw ← decode_varint; mret (RawLong (zigzag_decode raw))
  | TDouble => d ← read_le 8; mret (RawDouble d)
  | TString => s ← decode_inline_str; mret (RawStr s)
  | TBoolean => b ← read_u8; mret (RawBoolean (negb (b =? 0)))
  | TDateTime => s ← decode_inline_str; mret (RawDateTimeStr s)
  | TDate => s ← decode_inline_str; mret (RawDateStr s)
  | TTime => s ← decode_inline_str; mret (RawTimeStr s)
  | TBigInt => s ← decode_inline_str; mret (RawBigIntStr s)
  | TDecimal => s ← decode_inline_str; mret (RawDecimalStr s)
  | TJson => s ← decode_inline_str; mret (RawJsonStr s)
  | TNull => mret RawNull
  | TGYear => s ← decode_inline_str; mret (RawGYearStr s)
  | TGYearMonth => s ← decode_inline_str; mret (RawGYearMonthStr s)
  | TGMonth => s ← decode_inline_str; mret (RawGMonthStr s)
  | TGDay => s ← decode_inline_str; mret (RawGDayStr s)
  | TGMonthDay => s ← decode_inline_str; mret (RawGMonthDayStr s)
  | TYearMonthDuration => s ← decode_inline_str; mret (RawYearMonthDurationStr s)
  | TDayTimeDuration => s ← decode_inline_str; mret (RawDayTimeDurationStr s)
  | TDuration => s ← decode_inline_str; mret (RawDurationStr s)
  | TGeoPoint =>
      coord_bytes ← read_exact 16;
      mret (RawGeoPoint (le_int (slice coord_bytes 0 8)) (le_int (slice coord_bytes 8 16)))
  | TVector =>
      len ← decode_varint;
      if 2 ^ 64 <=? len * 8 then rfail UnexpectedEof else
      vec_bytes ← read_exact (len * 8);
      _ ← rlift (vec_with_capacity 8 len);
      mret (RawVector (vector_elements len vec_bytes))
  end.

Definition decode_object (tag : OTag) (dicts : ReadDicts) : reader FlakeValue :=
  raw ← decode_raw_object tag dicts; rlift (value_try_from raw).

Definition has_flag (flags bit : Z) : bool := negb (Z.land flags bit =? 0).

(** The optional language and list index that end an op. *)
Definition decode_lang (flags : Z) : reader (option str) :=
  if has_flag flags OP_FLAG_HAS_LANG then l ← decode_inline_str; mret (Some l) else mret None.

Definition decode_list_index (flags : Z) : reader (option Z) :=
  if has_flag flags OP_FLAG_HAS_I then
    raw ← decode_varint;
    if i32_max <? raw then rfail InvalidOp else mret (Some raw)
  else mret None.

Definition op_meta (lang : option str) (i : option Z) : option FlakeMeta :=
  match lang, i with
  | Some l, Some idx => Some (mkMeta (Some l) (Some idx))
  | Some l, None => Some (mkMeta (Some l) None)
  | None, Some idx => Some (mkMeta None (Some idx))
  | None, None => None
  end.

Definition decode_sid (d : StringDict) : reader Sid :=
  ns_code ← decode_ns_code; name ← read_name d; mret (mkSid ns_code name).

Definition decode_graph (d : StringDict) : reader (option Sid) :=
  g_ns_code ← decode_ns_code;
  g_name_id ← decode_as 32;
  if (g_ns_code =? 0) && (g_name_id =? 0) then mret None
  else if g_name_id =? 0 then rfail InvalidOp
  else g_name ← rlift (dict_get d g_name_id); mret (Some (mkSid g_ns_code g_name)).

Definition decode_op (dicts : ReadDicts) (t : Z) : reader Flake :=
  g ← decode_graph (r_graph dicts);
  s ← decode_sid (r_subject dicts);
  p ← decode_sid (r_predicate dicts);
  dt ← decode_sid (r_datatype dicts);
  tag ← read_u8;
  o_tag ← rlift (otag_from_u8 tag);
  o ← decode_object o_tag dicts;
  flags ← read_u8;
  lang ← decode_lang flags;
  i ← decode_list_index flags;
  mret (mkFlake VL g s p o dt t (has_flag flags OP_FLAG_ASSERT) (op_meta lang i)).

(** ** The raw decoder *)
Record RawOp := mkRawOp {
  g_ns_code : Z; g_name : str;
  s_ns_code : Z; s_name : str;
  p_ns_code : Z; p_name : str;
  dt_ns_code : Z; dt_name : str;
  raw_o : RawObject;
  raw_op : bool;
  raw_lang : option str;
  raw_i : option Z;
}.

Definition decode_raw_graph (d : StringDict) : reader (Z * str) :=
  g_ns_code ← decode_as 16;
  g_name_id ← decode_as 32;
  g_name ← rlift (if g_name_id =? 0 then Ok [] else dict_get d g_name_id);
  mret (g_ns_code, g_name).

Definition decode_raw_sid (d : StringDict) : reader (Z * str) :=
  ns_code ← decode_as 16; name ← read_name d; mret (ns_code, name).

Definition decode_raw_op (dicts : ReadDicts) : reader RawOp :=
  '(g_ns_code, g_name) ← decode_raw_graph (r_graph dicts);
  '(s_ns_code, s_name) ← decode_raw_sid (r_subject dicts);
  '(p_ns_code, p_name) ← decode_raw_sid (r_predicate dicts);
  '(dt_ns_code, dt_name) ← decode_raw_sid (r_datatype dicts);
  tag ← read_u8;
  o_tag ← rlift (otag_from_u8 tag);
  o ← decode_raw_object o_tag dicts;
  flags ← read_u8;
  lang ← decode_lang flags;
  i ← decode_list_index flags;
  mret (mkRawOp g_ns_code g_name s_ns_code s_name p_ns_code p_name dt_ns_code dt_name
          o (has_flag flags OP_FLAG_ASSERT) lang i).
End codec.

(** ** What the encoder writes *)

Lemma varint_bytes_small n : 0 <= n < 128 -> varint_bytes n = [n].
Proof.
  intros H. unfold varint_bytes. cbn [varint_loop].
  rewrite land_7F, shiftr_7, Z.div_small, Z.mod_small by lia. done.
Qed.

(** The splice of [encode_len_prefixed_display] writes what the plain
    length-prefixed encoding writes. *)
Lemma encode_len_prefixed_display_eq value buf :
  encode_len_prefixed_display value buf = encode_len_prefixed_str value buf.
Proof.
  unfold encode_len_prefixed_display, encode_len_prefixed_str, encode_varint.
  rewrite !zlen_app, zlen_cons, zlen_nil, zlen_to_nat.
  replace (zlen buf + (1 + 0) + zlen value - (zlen buf + (1 + 0))) with (zlen value) by lia.
  pose proof (zlen_nonneg value). rewrite <- !app_assoc. simpl.
  destruct (Z.ltb_spec (zlen value) 128).
  - rewrite varint_bytes_small, as_u_id by (unfold in_u; lia).
    rewrite insert_app_r_alt, Nat.sub_diag by lia. done.
  - rewrite take_app_length. f_equal. f_equal.
    rewrite drop_app_ge by lia. by replace (S (length buf) - length buf)%nat with 1%nat by lia.
Qed.

Lemma encode_sid_eq sid b buf b' bs :
  encode_sid sid b buf = (b', bs) ->
  exists id, dict_insert b (name sid) = (id, b') /\
    bs = buf ++ varint_bytes (namespace_code sid) ++ varint_bytes id.
Proof.
  unfold encode_sid, encode_varint. destruct (dict_insert b (name sid)) as [id b1].
  intros [= <- <-]. exists id. by rewrite <- app_assoc.
Qed.

(** ** Well-formed flakes

    What the writer relies on: ids and strings of their Rust types, lexical
    values in the form their parser reproduces, a metadata record that is not
    empty, a list index that is not negative. *)
Definition sid_wf (sid : Sid) : Prop := in_u 16 (namespace_code sid) /\ utf8_valid (name sid) = true.

Section wf.
Context `{VL : ValueLib}.

Definition lex_wf (k : LexKind) (v : lex k) : Prop :=
  utf8_valid (lex_original k v) = true /\ lex_parse k (lex_original k v) = Some v.

Definition value_wf (v : FlakeValue) : Prop :=
  match v with
  | Ref sid => sid_wf sid
  | Long n => in_i 64 n
  | Double d => in_u 64 d
  | String s | Json s => utf8_valid s = true
  | BigInt n => utf8_valid (bigint_display n) = true /\ bigint_parse (bigint_display n) = Some n
  | Decimal d => utf8_valid (dec_display d) = true /\ dec_parse (dec_display d) = Some d
  | DateTime v => lex_wf _ v
  | Date v => lex_wf _ v
  | Time v => lex_wf _ v
  | GYear v => lex_wf _ v
  | GYearMonth v => lex_wf _ v
  | GMonth v => lex_wf _ v
  | GDay v => lex_wf _ v
  | GMonthDay v => lex_wf _ v
  | YearMonthDuration v => lex_wf _ v
  | DayTimeDuration v => lex_wf _ v
  | Duration v => lex_wf _ v
  | GeoPoint bits =>
      in_u 64 (geo_lat bits) /\ in_u 64 (geo_lng bits) /\
      geo_new (geo_lat bits) (geo_lng bits) = Some bits
  | Vector v => Forall (in_u 64) v
  | Boolean _ | Null => True
  end.

Definition meta_wf (m : option FlakeMeta) : Prop :=
  match m with
  | Some m =>
      (lang m <> None \/ li m <> None) /\
      match lang m with Some l => utf8_valid l = true | None => True end /\
      match li m with Some i => 0 <= i <= i32_max | None => True end
  | None => True
  end.

Definition flake_wf (t : Z) (f : Flake) : Prop :=
  match f_g f with Some g => sid_wf g | None => True end /\
  sid_wf (f_s f) /\ sid_wf (f_p f) /\ sid_wf (f_dt f) /\
  value_wf (f_o f) /\ meta_wf (f_m f) /\ f_t f = t.

Definition tag_of (v : FlakeValue) : OTag :=
  match v with
  | Ref _ => TRef | Long _ => TLong | Double _ => TDouble | String _ => TString
  | Boolean _ => TBoolean | DateTime _ => TDateTime | Date _ => TDate | Time _ => TTime
  | BigInt _ => TBigInt | Decimal _ => TDecimal | Json _ => TJson | Null => TNull
  | GYear _ => TGYear | GYearMonth _ => TGYearMonth | GMonth _ => TGMonth | GDay _ => TGDay
  | GMonthDay _ => TGMonthDay | YearMonthDuration _ => TYearMonthDuration
  | DayTimeDuration _ => TDayTimeDuration | Duration _ => TDuration
  | GeoPoint _ => TGeoPoint | Vector _ => TVector
  end.

Definition raw_of (v : FlakeValue) : RawObject :=
  match v with
  | Ref sid => RawRef (namespace_code sid) (name sid)
  | Long n => RawLong n
  | Double d => RawDouble d
  | String s => RawStr s
  | Boolean b => RawBoolean b
  | DateTime v => RawDateTimeStr (lex_original _ v)
  | Date v => RawDateStr (lex_original _ v)
  | Time v => RawTimeStr (lex_original _ v)
  | BigInt n => RawBigIntStr (bigint_display n)
  | Decimal d => RawDecimalStr (dec_display d)
  | Json s => RawJsonStr s
  | Null => RawNull
  | GYear v => RawGYearStr (lex_original _ v)
  | GYearMonth v => RawGYearMonthStr (lex_original _ v)
  | GMonth v => RawGMonthStr (lex_original _ v)
  | GDay v => RawGDayStr (lex_original _ v)
  | GMonthDay v => RawGMonthDayStr (lex_original _ v)
  | YearMonthDuration v => RawYearMonthDurationStr (lex_original _ v)
  | DayTimeDuration v => RawDayTimeDurationStr (lex_original _ v)
  | Duration v => RawDurationStr (lex_original _ v)
  | GeoPoint bits => RawGeoPoint (geo_lat bits) (geo_lng bits)
  | Vector v => RawVector v
  end.

(** What a raw reader is handed for a flake: the default graph is the empty
    name under code 0. *)
Definition raw_op_of (f : Flake) : RawOp :=
  let g := default (mkSid 0 []) (f_g f) in
  mkRawOp (namespace_code g) (name g) (namespace_code (f_s f)) (name (f_s f))
    (namespace_code (f_p f)) (name (f_p f)) (namespace_code (f_dt f)) (name (f_dt f))
    (raw_of (f_o f)) (f_op f) (meta_lang (f_m f)) (meta_i (f_m f)).

Lemma value_try_from_raw v : value_wf v -> value_try_from (raw_of v) = Ok v.
Proof.
  destruct v as [sid| | | | | | | | | | | | | | | | | | | | |]; simpl; unfold lex_wf, parse_as;
    first [ done | by intros (? & -> ) | by intros (? & ? & ->) | by destruct sid ].
Qed.

(** ** Decoding the pieces *)

Lemma decodes_guard {A} (r : reader A) bs v :
  (zlen bs <= isize_max -> decodes r bs v) -> decodes r bs v.
Proof.
  intros H pre post Hfit. apply H; [|done]. zlen_norm.
  pose proof (zlen_nonneg pre). pose proof (zlen_nonneg post). lia.
Qed.

Lemma decodes_inline_str s :
  utf8_valid s = true -> decodes decode_inline_str (varint_bytes (zlen s) ++ s) s.
Proof.
  intros Hs. apply decodes_guard. intros Hfit. rewrite zlen_app in Hfit.
  pose proof (zlen_varint_bytes (zlen s)).
  eapply decodes_bind; [apply decodes_varint, zlen_isize_u64; lia|].
  eapply decodes_bind_last; [by apply decodes_read_exact|].
  by apply decodes_rlift, from_utf8_Ok.
Qed.

Lemma in_u_mono w w' z : 0 <= w <= w' -> in_u w z -> in_u w' z.
Proof.
  intros Hw [H1 H2]. split; [done|]. eapply Z.lt_le_trans; [done|]. apply Z.pow_le_mono_r; lia.
Qed.

Lemma decodes_as w z : 0 <= w <= 64 -> in_u w z -> decodes (decode_as w) (varint_bytes z) z.
Proof.
  intros Hw Hz. unfold decode_as. rewrite <- (as_u_id w z) at 2 by done.
  apply (decodes_bind_ret _ (as_u w)), decodes_varint. by eapply in_u_mono.
Qed.

Lemma decodes_ns_code z : in_u 16 z -> decodes decode_ns_code (varint_bytes z) z.
Proof.
  intros Hz. eapply decodes_bind_last; [apply decodes_varint; by eapply (in_u_mono 16)|].
  unfold u16_max, in_u in *. case_Z. apply decodes_ret.
Qed.

Lemma decodes_read_name b id s :
  id_names b id s -> decodes (read_name (mkDict (b_entries b))) (varint_bytes id) s.
Proof.
  intros Hid. eapply decodes_bind_last.
  - apply decodes_as; [lia|]. unfold in_u. destruct Hid. lia.
  - by apply decodes_rlift, dict_get_names.
Qed.

Lemma decodes_sid b id sid :
  in_u 16 (namespace_code sid) -> id_names b id (name sid) ->
  decodes (decode_sid (mkDict (b_entries b))) (varint_bytes (namespace_code sid) ++ varint_bytes id) sid.
Proof.
  intros Hns Hid. eapply decodes_bind; [by apply decodes_ns_code|].
  eapply decodes_bind_last; [by apply decodes_read_name|]. destruct sid. apply decodes_ret.
Qed.

Lemma vector_elements_concat v :
  Forall (in_u 64) v -> vector_elements (zlen v) (concat (le_bytes 8 <$> v)) = v.
Proof.
  intros Hv. unfold vector_elements. apply list_eq. intros i.
  rewrite list_lookup_fmap. destruct (decide (i < length v)%nat) as [Hi|Hi].
  - rewrite (lookup_seqZ_lt 0 (zlen v) i) by (unfold zlen; lia). simpl.
    apply lookup_lt_is_Some_2 in Hi as [x Hx]. rewrite Hx. f_equal.
    assert (in_u 64 x) by (by eapply Forall_lookup_1).
    rewrite <- (take_drop_middle v i x Hx).
    rewrite fmap_app, fmap_cons, concat_app. cbn [concat].
    assert (forall l, zlen (concat (le_bytes 8 <$> l)) = 8 * zlen l) as Hlen.
    { induction l as [|y l IH]; [done|]. rewrite fmap_cons. cbn [concat].
      rewrite zlen_app, IH, zlen_cons, zlen_le_bytes. lia. }
    apply (le_field_value 8 x (concat (le_bytes 8 <$> take i v))
      (concat (le_bytes 8 <$> drop (S i) v))); try done.
    rewrite Hlen. unfold zlen. apply lookup_lt_Some in Hx. rewrite length_take. lia.
  -
    rewrite !lookup_ge_None_2; [done|lia|]. rewrite length_seqZ. unfold zlen. lia.
Qed.

(** The bytes of an object after its tag, with the id given to a reference. *)
Definition object_bytes (v : FlakeValue) (ref_id : Z) : bytes :=
  match v with
  | Ref sid => varint_bytes (namespace_code sid) ++ varint_bytes ref_id
  | Long n => varint_bytes (zigzag_encode n)
  | Double d => le_bytes 8 d
  | Boolean b => [Z.b2z b]
  | Null => []
  | GeoPoint bits => le_bytes 8 (geo_lat bits) ++ le_bytes 8 (geo_lng bits)
  | Vector v => varint_bytes (zlen v) ++ concat (le_bytes 8 <$> v)
  | _ =>
      let s := match v with
               | String s | Json s => s
               | BigInt n => bigint_display n
               | Decimal d => dec_display d
               | DateTime v => lex_original _ v
               | Date v => lex_original _ v
               | Time v => lex_original _ v
               | GYear v => lex_original _ v
               | GYearMonth v => lex_original _ v
               | GMonth v => lex_original _ v
               | GDay v => lex_original _ v
               | GMonthDay v => lex_original _ v
               | YearMonthDuration v => lex_original _ v
               | DayTimeDuration v => lex_original _ v
               | Duration v => lex_original _ v
               | _ => []
               end in
      varint_bytes (zlen s) ++ s
  end.

Lemma fold_le_bytes v buf :
  fold_left (fun buf e => buf ++ le_bytes 8 e) v buf = buf ++ concat (le_bytes 8 <$> v).
Proof.
  revert buf. induction v as [|e v IH]; intros buf; [by rewrite app_nil_r|].
  cbn [fold_left]. by rewrite IH, fmap_cons, <- app_assoc.
Qed.

Lemma encode_object_eq v refs buf refs' out :
  encode_object v refs buf = (refs', out) ->
  exists id, out = buf ++ otag_u8 (tag_of v) :: object_bytes v id /\
    match v with Ref sid => dict_insert refs (name sid) = (id, refs') | _ => refs' = refs end.
Proof.
  destruct v; cbn [encode_object tag_of object_bytes];
    try (intros [= <- <-]; exists 0; split; [|done];
         unfold encode_lex; rewrite ?encode_len_prefixed_display_eq, ?fold_le_bytes;
         unfold encode_len_prefixed_str, encode_varint; by rewrite <- ?app_assoc).
  intros (id & Hid & ->)%encode_sid_eq. exists id. split; [|done]. by rewrite <- !app_assoc.
Qed.

Lemma decodes_raw_object v id refs dicts :
  value_wf v -> r_object_ref dicts = mkDict (b_entries refs) ->
  match v with Ref sid => id_names refs id (name sid) | _ => True end ->
  decodes (decode_raw_object (tag_of v) dicts) (object_bytes v id) (raw_of v).
Proof.
  intros Hwf Hd Hid.
  destruct v; cbn [decode_raw_object tag_of object_bytes raw_of value_wf] in *;
    try (unfold lex_wf in Hwf; apply (decodes_bind_ret decode_inline_str), decodes_inline_str;
         by (apply Hwf || exact Hwf)).
  - destruct Hwf as [Hns _]. rewrite Hd. eapply decodes_bind; [by apply decodes_as|].
    by apply (decodes_bind_ret (read_name _)), decodes_read_name.
  - eapply decodes_bind_last; [apply decodes_read_u8|]. destruct b; apply decodes_ret.
  - eapply decodes_bind_last; [by apply decodes_varint, zigzag_encode_range|].
    rewrite zigzag_decode_encode by done. apply decodes_ret.
  - by apply (decodes_bind_ret (read_le 8) RawDouble), (decodes_read_le 8).
  - apply decodes_guard. intros Hfit. unfold isize_max in Hfit.
    assert (zlen (concat (le_bytes 8 <$> v)) = zlen v * 8) as Hlen.
    { clear. induction v as [|y l IH]; [done|]. rewrite fmap_cons. cbn [concat].
      rewrite zlen_app, IH, zlen_cons, zlen_le_bytes. lia. }
    rewrite zlen_app, Hlen in Hfit. pose proof (zlen_varint_bytes (zlen v)).
    pose proof (zlen_nonneg v).
    eapply decodes_bind; [apply decodes_varint; unfold in_u; lia|]. case_Z.
    eapply decodes_bind_last; [by apply decodes_read_exact|].
    eapply decodes_rlift_bind; [apply vec_with_capacity_Ok; unfold isize_max; lia|].
    rewrite vector_elements_concat by done. apply decodes_ret.
  - destruct Hwf as (H1 & H2 & _). eapply decodes_bind_last.
    { apply decodes_read_exact. by rewrite zlen_app, !zlen_le_bytes. }
    rewrite (le_field_value 8 (geo_lat bits) [] (le_bytes 8 (geo_lng bits))) by done.
    rewrite (le_field_value 8 (geo_lng bits) (le_bytes 8 (geo_lat bits)) []);
      [apply decodes_ret|done|by rewrite app_nil_r|by rewrite zlen_le_bytes|done].
  - apply decodes_ret.
Qed.

Lemma decodes_object v id refs dicts :
  value_wf v -> r_object_ref dicts = mkDict (b_entries refs) ->
  match v with Ref sid => id_names refs id (name sid) | _ => True end ->
  decodes (decode_object (tag_of v) dicts) (object_bytes v id) v.
Proof.
  intros. eapply decodes_bind_last; [by eapply decodes_raw_object|].
  by apply decodes_rlift, value_try_from_raw.
Qed.

(** ** Flags and metadata *)

Lemma op_flags_spec op l i :
  has_flag (op_flags op l i) OP_FLAG_ASSERT = op /\
  has_flag (op_flags op l i) OP_FLAG_HAS_LANG = bool_decide (is_Some l) /\
  has_flag (op_flags op l i) OP_FLAG_HAS_I = bool_decide (is_Some i).
Proof. by destruct op, l, i. Qed.

Definition meta_bytes (l : option str) (i : option Z) : bytes :=
  (match l with Some l => varint_bytes (zlen l) ++ l | None => [] end) ++
  (match i with Some i => varint_bytes i | None => [] end).

Lemma op_meta_of m : meta_wf m -> op_meta (meta_lang m) (meta_i m) = m.
Proof. destruct m as [[[l|] [i|]]|]; simpl; try done. by intros [[?|?] _]. Qed.

Lemma decodes_lang op l i :
  match l with Some l => utf8_valid l = true | None => True end ->
  decodes (decode_lang (op_flags op l i))
    (match l with Some l => varint_bytes (zlen l) ++ l | None => [] end) l.
Proof.
  intros Hl. unfold decode_lang. destruct (op_flags_spec op l i) as (_ & -> & _).
  destruct l as [l|]; simpl; [|apply decodes_ret].
  by apply (decodes_bind_ret decode_inline_str Some), decodes_inline_str.
Qed.

Lemma decodes_list_index op l i :
  match i with Some i => 0 <= i <= i32_max | None => True end ->
  decodes (decode_list_index (op_flags op l i))
    (match i with Some i => varint_bytes i | None => [] end) i.
Proof.
  intros Hi. unfold decode_list_index. destruct (op_flags_spec op l i) as (_ & _ & ->).
  destruct i as [i|]; simpl; [|apply decodes_ret]. unfold i32_max in *.
  eapply decodes_bind_last; [apply decodes_varint; unfold in_u; lia|].
  case_Z. apply decodes_ret.
Qed.

(** ** The op round trip *)

Definition room (b : StringDictBuilder) : Prop := zlen (b_entries b) < 2 ^ 32 - 1.

(** A step of the encoder on one dictionary: [bs] are the bytes written, [b']
    the builder after, and [dec] what any later dictionary decodes. *)
Record dict_step (b b' : StringDictBuilder) (bs : bytes)
    (dec : StringDict -> Prop) : Prop := {
  ds_wf : dict_wf b';
  ds_extends : extends b b';
  ds_size : zlen (b_entries b') <= zlen (b_entries b) + 1;
  ds_dec bf : extends b' bf -> dec (mkDict (b_entries bf));
}.

Lemma encode_sid_spec sid b :
  sid_wf sid -> dict_wf b -> room b ->
  exists b' bs, (forall buf, encode_sid sid b buf = (b', buf ++ bs)) /\
    dict_step b b' bs (fun d => decodes (decode_sid d) bs sid /\
      decodes (decode_raw_sid d) bs (namespace_code sid, name sid)).
Proof.
  intros [Hns Hu] Hb Hroom. destruct (dict_insert b (name sid)) as [id b'] eqn:E.
  exists b', (varint_bytes (namespace_code sid) ++ varint_bytes id). split.
  { intros buf. unfold encode_sid. rewrite E. unfold encode_varint. by rewrite <- app_assoc. }
  destruct (dict_insert_spec _ _ _ _ Hb Hu Hroom E) as (Hb' & Hext & Hid & Hsz).
  split; [done..|]. intros bf Hbf. pose proof (id_names_extends _ _ _ _ Hbf Hid). split.
  - by apply decodes_sid.
  - eapply decodes_bind; [by apply decodes_as|].
    by apply (decodes_bind_ret (read_name _)), decodes_read_name.
Qed.

Lemma decodes_graph_some b id sid :
  in_u 16 (namespace_code sid) -> id_names b id (name sid) ->
  let bs := varint_bytes (namespace_code sid) ++ varint_bytes id in
  decodes (decode_graph (mkDict (b_entries b))) bs (Some sid) /\
  decodes (decode_raw_graph (mkDict (b_entries b))) bs (namespace_code sid, name sid).
Proof.
  intros Hns Hid. pose proof Hid as [Hpos _]. split.
  - eapply decodes_bind; [by apply decodes_ns_code|].
    eapply decodes_bind_last; [apply decodes_as; unfold in_u; lia|].
    destruct (Z.eqb_spec id 0); [lia|]. rewrite andb_false_r.
    eapply decodes_rlift_bind; [by apply dict_get_names|]. destruct sid. apply decodes_ret.
  - eapply decodes_bind; [by apply decodes_as|].
    eapply decodes_bind_last; [apply decodes_as; unfold in_u; lia|].
    destruct (Z.eqb_spec id 0); [lia|].
    eapply decodes_rlift_bind; [by apply dict_get_names|]. apply decodes_ret.
Qed.

Lemma decodes_graph_none d :
  let bs := varint_bytes 0 ++ varint_bytes 0 in
  decodes (decode_graph d) bs None /\ decodes (decode_raw_graph d) bs (0, []).
Proof.
  split.
  - eapply decodes_bind; [by apply decodes_ns_code|].
    eapply decodes_bind_last; [by apply decodes_as|]. apply decodes_ret.
  - eapply decodes_bind; [by apply decodes_as|].
    eapply decodes_bind_last; [by apply decodes_as|].
    eapply decodes_rlift_bind; [done|]. apply decodes_ret.
Qed.

Definition encode_graph (g : option Sid) (b : StringDictBuilder) (buf : bytes)
    : StringDictBuilder * bytes :=
  match g with
  | Some g => encode_sid g b buf
  | None => (b, encode_varint 0 (encode_varint 0 buf))
  end.

Lemma encode_graph_spec g b :
  match g with Some g => sid_wf g | None => True end -> dict_wf b -> room b ->
  exists b' bs, (forall buf, encode_graph g b buf = (b', buf ++ bs)) /\
    dict_step b b' bs (fun d => decodes (decode_graph d) bs g /\
      let sid := default (mkSid 0 []) g in
      decodes (decode_raw_graph d) bs (namespace_code sid, name sid)).
Proof.
  intros Hg Hb Hroom. destruct g as [g|]; simpl.
  - destruct Hg as [Hns Hu]. destruct (dict_insert b (name g)) as [id b'] eqn:E.
    exists b', (varint_bytes (namespace_code g) ++ varint_bytes id). split.
    { intros buf. unfold encode_sid. rewrite E. unfold encode_varint. by rewrite <- app_assoc. }
    destruct (dict_insert_spec _ _ _ _ Hb Hu Hroom E) as (Hb' & Hext & Hid & Hsz).
    split; [done..|]. intros bf Hbf. apply decodes_graph_some; [done|].
    by eapply id_names_extends.
  - exists b, (varint_bytes 0 ++ varint_bytes 0). split.
    { intros buf. unfold encode_varint. by rewrite <- app_assoc. }
    split; [done|done|lia|]. intros bf _. apply decodes_graph_none.
Qed.

Lemma encode_object_spec v b :
  value_wf v -> dict_wf b -> room b ->
  exists b' bs, (forall buf, encode_object v b buf = (b', buf ++ otag_u8 (tag_of v) :: bs)) /\
    dict_step b b' bs (fun d => forall dicts, r_object_ref dicts = d ->
      decodes (decode_object (tag_of v) dicts) bs v /\
      decodes (decode_raw_object (tag_of v) dicts) bs (raw_of v)).
Proof.
  intros Hv Hb Hroom. destruct (encode_object v b []) as [b' out] eqn:E0.
  pose proof (encode_object_eq _ _ _ _ _ E0) as (id & -> & Hid).
  exists b', (object_bytes v id). split.
  - intros buf. destruct (encode_object v b buf) as [b'' out] eqn:E.
    apply encode_object_eq in E as (id' & -> & Hid').
    destruct v; try (by subst). rewrite Hid in Hid'. by injection Hid' as <- <-.
  - assert (match v with Ref sid => id_names b' id (name sid) | _ => True end /\
            dict_wf b' /\ extends b b' /\ zlen (b_entries b') <= zlen (b_entries b) + 1)
      as (Hnm & Hb' & Hext & Hsz).
    { destruct v; try (subst b'; repeat split; done || lia || apply Hb).
      destruct Hv as [_ Hu]. destruct (dict_insert_spec _ _ _ _ Hb Hu Hroom Hid) as (?&?&?&?). done. }
    split; [done..|]. intros bf Hbf dicts Hd.
    assert (match v with Ref sid => id_names bf id (name sid) | _ => True end).
    { destruct v; try done. by eapply id_names_extends. }
    split; [by eapply decodes_object|by eapply decodes_raw_object].
Qed.

Definition dicts_all (P : StringDictBuilder -> Prop) (d : CommitDicts) : Prop :=
  P (d_graph d) /\ P (d_subject d) /\ P (d_predicate d) /\ P (d_datatype d) /\ P (d_object_ref d).

Definition dicts_extend (d d' : CommitDicts) : Prop :=
  extends (d_graph d) (d_graph d') /\ extends (d_subject d) (d_subject d') /\
  extends (d_predicate d) (d_predicate d') /\ extends (d_datatype d) (d_datatype d') /\
  extends (d_object_ref d) (d_object_ref d').

#[export] Instance dicts_extend_preorder : PreOrder dicts_extend.
Proof.
  unfold dicts_extend. split; [done|]. intros x y z (?&?&?&?&?) (?&?&?&?&?).
  repeat split; by etransitivity.
Qed.

(** The read dictionaries a builder turns into. *)
Definition read_dicts_of (d : CommitDicts) : ReadDicts :=
  mkReadDicts (mkDict (b_entries (d_graph d))) (mkDict (b_entries (d_subject d)))
    (mkDict (b_entries (d_predicate d))) (mkDict (b_entries (d_datatype d)))
    (mkDict (b_entries (d_object_ref d))).

Lemma meta_lang_wf m :
  meta_wf m -> match meta_lang m with Some l => utf8_valid l = true | None => True end.
Proof. destruct m as [[[l|] [i|]]|]; simpl; tauto. Qed.

Lemma meta_i_wf m :
  meta_wf m -> match meta_i m with Some i => 0 <= i <= i32_max | None => True end.
Proof. destruct m as [[[l|] [i|]]|]; simpl; tauto. Qed.

Lemma encode_op_spec t f d n :
  flake_wf t f -> dicts_all dict_wf d ->
  dicts_all (fun b => zlen (b_entries b) <= n) d -> n < 2 ^ 32 - 1 ->
  exists d' bs, (forall buf, encode_op f d buf = Ok (d', buf ++ bs)) /\
    dicts_all dict_wf d' /\ dicts_all (fun b => zlen (b_entries b) <= n + 1) d' /\
    dicts_extend d d' /\
    forall df, dicts_extend d' df ->
      decodes (decode_op (read_dicts_of df) t) bs f /\
      decodes (decode_raw_op (read_dicts_of df)) bs (raw_op_of f).
Proof.
  intros (Wg & Ws & Wp & Wdt & Wo & Wm & Ht) (Bg & Bs & Bp & Bd & Br) (Ng & Ns & Np & Nd & Nr) Hn.
  destruct (encode_graph_spec (f_g f) (d_graph d)) as (g' & gb & Eg & [? ? ? Dg]); [done|done|unfold room; lia|].
  destruct (encode_sid_spec (f_s f) (d_subject d)) as (s' & sb & Es & [? ? ? Ds]); [done|done|unfold room; lia|].
  destruct (encode_sid_spec (f_p f) (d_predicate d)) as (p' & pb & Ep & [? ? ? Dp]); [done|done|unfold room; lia|].
  destruct (encode_sid_spec (f_dt f) (d_datatype d)) as (dt' & db & Ed & [? ? ? Dd]); [done|done|unfold room; lia|].
  destruct (encode_object_spec (f_o f) (d_object_ref d)) as (r' & rb & Er & [? ? ? Dr]); [done|done|unfold room; lia|].
  pose proof (meta_lang_wf _ Wm) as Wl. pose proof (meta_i_wf _ Wm) as Wi.
  pose proof (op_meta_of _ Wm) as Hm.
  set (l := meta_lang (f_m f)) in *. set (i := meta_i (f_m f)) in *.
  exists (mkDicts g' s' p' dt' r'), (gb ++ sb ++ pb ++ db ++ [otag_u8 (tag_of (f_o f))] ++ rb ++
    [op_flags (f_op f) l i] ++ meta_bytes l i).
  split; [|split; [done|split; [repeat split; simpl; lia|split; [done|]]]].
  - intros buf. unfold encode_op. fold (encode_graph (f_g f) (d_graph d) buf).
    rewrite Eg, Es, Ep, Ed, Er. fold l i. unfold meta_bytes.
    destruct i as [i|]; [destruct (Z.ltb_spec i 0); [lia|]|]; destruct l as [l|];
      unfold encode_varint; rewrite <- ?app_assoc; simpl; rewrite <- ?app_assoc, ?app_nil_r; done.
  - intros df (Hg & Hs & Hp & Hd & Hr). simpl in *.
    destruct (Dg _ Hg) as [Dg1 Dg2], (Ds _ Hs) as [Ds1 Ds2], (Dp _ Hp) as [Dp1 Dp2],
      (Dd _ Hd) as [Dd1 Dd2], (Dr _ Hr (read_dicts_of df) eq_refl) as [Dr1 Dr2].
    destruct (op_flags_spec (f_op f) l i) as (Ha & _ & _). unfold meta_bytes.
    split; (do 4 (eapply decodes_bind; [done|]; cbv beta iota); apply decodes_bind_u8;
      eapply decodes_rlift_bind; [apply otag_roundtrip|]; eapply decodes_bind; [done|];
      apply decodes_bind_u8; eapply decodes_bind; [by apply decodes_lang|];
      eapply decodes_bind_last; [by apply decodes_list_index|]; rewrite Ha).
    + rewrite Hm, <- Ht. destruct f. apply decodes_ret.
    + apply decodes_ret.
Qed.
End wf.

(** ** Properties *)

(** Op round trip: encoding a well-formed flake against any dictionaries
    succeeds, keeps the dictionaries well formed and the ids given out before,
    and the bytes written decode, with the dictionaries as they are at the end
    of the commit, to the same flake; the raw decoder gives its fields. *)
Theorem op_roundtrip `{VL : ValueLib} (t : Z) (f : Flake) (d : CommitDicts) (buf : bytes) :
  flake_wf t f -> dicts_all dict_wf d -> dicts_all room d ->
  exists d' bs, encode_op f d buf = Ok (d', buf ++ bs) /\
    dicts_all dict_wf d' /\ dicts_extend d d' /\
    forall df, dicts_extend d' df ->
      decodes (decode_op (read_dicts_of df) t) bs f /\
      decodes (decode_raw_op (read_dicts_of df)) bs (raw_op_of f).
Proof.
  intros Hf Hd Hroom.
  destruct (encode_op_spec t f d (2 ^ 32 - 2) Hf Hd) as (d' & bs & E & W & _ & X & D).
  - unfold dicts_all, room in *. lia.
  - lia.
  - exists d', bs. split; [done|]. split; [done|]. by split.
Qed.

Definition op_sample : Flake :=
  mkFlake PlainLib (Some (mkSid 9 [103])) (mkSid 5 [97]) (mkSid 6 [98])
    (Ref (mkSid 7 [99; 100])) (mkSid 2 [105]) 3 true (Some (mkMeta (Some [101; 110]) (Some 4))).

Lemma op_roundtrip_witness :
  exists d' bs, encode_op op_sample dicts_new [1] = Ok (d', [1] ++ bs) /\
    dicts_all dict_wf d' /\ dicts_extend dicts_new d' /\
    forall df, dicts_extend d' df ->
      decodes (decode_op (read_dicts_of df) 3) bs op_sample /\
      decodes (decode_raw_op (read_dicts_of df)) bs (raw_op_of op_sample).
Proof.
  apply (op_roundtrip 3 op_sample dicts_new [1]).
  - repeat split; try (vm_compute; done). by left.
  - repeat split; apply dict_new_wf.
  - repeat split; vm_compute; done.
Defined.

(** The in-place writer of displayed values (one-byte gap, then a splice
    when the length needs more) writes the same bytes as the plain
    length-prefixed encoding, for every display text and every buffer. *)
Theorem display_splice_correct (value : str) (buf : bytes) :
  encode_len_prefixed_display value buf = encode_len_prefixed_str value buf.
Proof. apply encode_len_prefixed_display_eq. Qed.

(** A namespace code past [u16::MAX] is refused in the subject position, but
    truncated in an object reference (and everywhere by the raw decoder). *)
Definition one_name : ReadDicts :=
  let d := mkDict [[97]] in mkReadDicts d d d d d.

Lemma ns_code_checked_in_subject :
  err_of (decode_op one_name 1 ([0; 0] ++ varint_bytes 65541 ++ [1; 6; 1; 2; 1; 11; 1]) 0) =
    Some InvalidOp.
Proof. vm_compute. reflexivity. Qed.

Lemma ns_code_truncated_in_ref :
  ((fun '(f, _) => match f_o f with Ref sid => Some sid | _ => None end) <$>
    decode_op one_name 1 ([0; 0; 5; 1; 6; 1; 2; 1; 0] ++ varint_bytes 65541 ++ [1; 1]) 0) =
    Ok (Some (mkSid 5 [97])).
Proof. vm_compute. reflexivity. Qed.
