(* ===== verification/Envelope.v ===== *)
(** * The commit envelope

    Models src/fluree-db-core/src/commit/codec/envelope.rs: the binary form of
    a commit's metadata, with [NsSplitMode] (ns_encoding.rs) and the types of
    commit.rs it carries.  Content ids are the interface [CidLib]. A
    [HashMap<u16, String>] is a [gmap]. *)

From S2P Require Import Prelude Bytes Varint Value StringDict CommitFormat OpCodec.
From stdpp Require Import base list numbers gmap sorting.
From Stdlib Require Import ZArith Lia.

Local Open Scope Z_scope.

(** ** Content ids (content_id.rs over the cid crate) *)
Class CidLib := {
  ContentId : Type;
  cid_eq_dec :: EqDecision ContentId;
  cid_new : bytes -> ContentId; (* ContentId::new(ContentKind::Commit, bytes) *)
  cid_to_bytes : ContentId -> bytes;
  cid_from_bytes : bytes -> option ContentId;
}.

Class CidLaws `{CidLib} := {
  cid_roundtrip c : cid_from_bytes (cid_to_bytes c) = Some c;
  cid_bytes_len c : zlen (cid_to_bytes c) <= 128;
}.

(** ** Data *)
Inductive NsSplitMode := MostGranular | HostPlusN (n : Z).

Definition HOST_PLUS_N_MAX : Z := 254.

Definition mode_to_byte (m : NsSplitMode) : result Z :=
  match m with
  | MostGranular => Ok 0
  | HostPlusN n => if HOST_PLUS_N_MAX <? n then Err EnvelopeDecode else Ok (n + 1)
  end.

Definition mode_from_byte (b : Z) : NsSplitMode :=
  if b =? 0 then MostGranular else HostPlusN (b - 1).

Record TxnSignature := mkTxnSig { txn_signer : str; txn_id : option str }.

Inductive TxnMetaValue :=
| MString (s : str)
| MTypedLiteral (value : str) (dt_ns : Z) (dt_name : str)
| MLangString (value lang : str)
| MRef (ns : Z) (name : str)
| MLong (n : Z)
| MDouble (d : f64)
| MBoolean (b : bool).

Record TxnMetaEntry := mkTxnMeta {
  predicate_ns : Z;
  predicate_name : str;
  meta_value : TxnMetaValue;
}.

Definition MAX_TXN_META_ENTRIES : Z := 256.
Definition FLAG_TXN_META : Z := 0x01.
Definition FLAG_PARENT : Z := 0x02.
Definition FLAG_NAMESPACE_DELTA : Z := 0x04.
Definition FLAG_TXN : Z := 0x08.
Definition FLAG_TIME : Z := 0x10.
Definition FLAG_TXN_SIGNATURE : Z := 0x80.
Definition KNOWN_FLAGS : Z := 0x9F.
Definition MAX_GRAPH_DELTA_ENTRIES : Z := 256.
Definition MAX_GRAPH_IRI_LENGTH : Z := 8192.
Definition MAX_CID_BYTES : Z := 128.
Definition MAX_PARENTS : Z := 16.

Record CodecEnvelope `{CidLib} := mkEnvelope {
  env_t : Z;
  env_parents : list ContentId;
  env_namespace_delta : gmap Z str;
  env_txn : option ContentId;
  env_time : option str;
  env_txn_signature : option TxnSignature;
  env_txn_meta : list TxnMetaEntry;
  env_graph_delta : gmap Z str;
  env_ns_split_mode : option NsSplitMode;
}.

(** ** Helpers *)

Definition encode_len_str (s : str) (buf : bytes) : bytes := encode_varint (zlen s) buf ++ s.

Definition decode_len_str : reader str :=
  len ← decode_varint;
  bs ← read_exact len;
  rlift (from_utf8 EnvelopeDecode bs).

Definition encode_len_bytes (bs buf : bytes) : result bytes :=
  if MAX_CID_BYTES <? zlen bs then Err EnvelopeDecode
  else Ok (encode_varint (zlen bs) buf ++ bs).

Definition decode_len_bytes : reader bytes :=
  len64 ← decode_varint;
  if MAX_CID_BYTES <? len64 then rfail EnvelopeDecode else read_exact len64.

(** [delta.iter()] sorted by key. *)
Definition key_le (a b : Z * str) : Prop := a.1 <= b.1.
#[export] Instance key_le_dec a b : Decision (key_le a b).
Proof. unfold key_le. apply _. Defined.

Definition sorted_entries (delta : gmap Z str) : list (Z * str) :=
  merge_sort key_le (map_to_list delta).

(** [encode_ns_delta] and [encode_graph_delta] have the same body. *)
Definition encode_delta (delta : gmap Z str) (buf : bytes) : bytes :=
  fold_left (fun buf '(code, prefix) => encode_len_str prefix (encode_varint code buf))
    (sorted_entries delta) (encode_varint (Z.of_nat (size delta)) buf).
Definition encode_ns_delta := encode_delta.
Definition encode_graph_delta := encode_delta.

(** [map.insert] in the order read. *)
Definition insert_all (es : list (Z * str)) : gmap Z str :=
  fold_left (fun m '(k, v) => <[k := v]> m) es ∅.

Definition decode_ns_entry : reader (Z * str) :=
  code ← decode_as 16; prefix ← decode_len_str; mret (code, prefix).

Definition decode_ns_delta : reader (gmap Z str) :=
  count ← decode_varint;
  _ ← rlift (hashmap_with_capacity count);
  es ← rrepeat decode_ns_entry count;
  mret (insert_all es).

Definition decode_graph_entry : reader (Z * str) :=
  raw ← decode_varint;
  if u16_max <? raw then rfail (GIdOutOfRange raw) else
  iri ← decode_len_str; mret (raw, iri).

Definition decode_graph_delta : reader (gmap Z str) :=
  count ← decode_varint;
  _ ← rlift (hashmap_with_capacity count);
  es ← rrepeat decode_graph_entry count;
  mret (insert_all es).

(** ** Transaction metadata *)

Definition encode_txn_meta_value (value : TxnMetaValue) (buf : bytes) : result bytes :=
  match value with
  | MString s => Ok (encode_len_str s (buf ++ [0]))
  | MTypedLiteral value dt_ns dt_name =>
      Ok (encode_len_str dt_name (encode_varint dt_ns (encode_len_str value (buf ++ [1]))))
  | MLangString value lang => Ok (encode_len_str lang (encode_len_str value (buf ++ [2])))
  | MRef ns name => Ok (encode_len_str name (encode_varint ns (buf ++ [3])))
  | MLong n => Ok (encode_varint (zigzag_encode n) (buf ++ [4]))
  | MDouble n => if negb (f64_is_finite n) then Err EnvelopeEncode else Ok (buf ++ [5] ++ le_bytes 8 n)
  | MBoolean b => Ok (buf ++ [6] ++ [Z.b2z b])
  end.

Fixpoint encode_txn_meta_entries (entries : list TxnMetaEntry) (buf : bytes) : result bytes :=
  match entries with
  | [] => Ok buf
  | entry :: entries =>
      buf ← encode_txn_meta_value (meta_value entry)
              (encode_len_str (predicate_name entry) (encode_varint (predicate_ns entry) buf));
      encode_txn_meta_entries entries buf
  end.

Definition encode_txn_meta (entries : list TxnMetaEntry) (buf : bytes) : result bytes :=
  if MAX_TXN_META_ENTRIES <? zlen entries then Err EnvelopeEncode
  else encode_txn_meta_entries entries (encode_varint (zlen entries) buf).

Definition decode_txn_meta_value : reader TxnMetaValue :=
  tag ← read_u8;
  match tag with
  | 0 => s ← decode_len_str; mret (MString s)
  | 1 => value ← decode_len_str; dt_ns ← decode_as 16; dt_name ← decode_len_str;
         mret (MTypedLiteral value dt_ns dt_name)
  | 2 => value ← decode_len_str; lang ← decode_len_str; mret (MLangString value lang)
  | 3 => ns ← decode_as 16; name ← decode_len_str; mret (MRef ns name)
  | 4 => n ← decode_varint; mret (MLong (zigzag_decode n))
  | 5 => n ← read_le 8; if negb (f64_is_finite n) then rfail EnvelopeDecode else mret (MDouble n)
  | 6 => b ← read_u8; mret (MBoolean (negb (b =? 0)))
  | _ => rfail EnvelopeDecode
  end.

Definition decode_txn_meta_entry : reader TxnMetaEntry :=
  predicate_ns ← decode_as 16;
  predicate_name ← decode_len_str;
  value ← decode_txn_meta_value;
  mret (mkTxnMeta predicate_ns predicate_name value).

Definition decode_txn_meta : reader (list TxnMetaEntry) :=
  count ← decode_varint;
  if MAX_TXN_META_ENTRIES <? count then rfail EnvelopeDecode else
  rrepeat decode_txn_meta_entry count.

Section envelope.
Context `{CL : CidLib}.

Definition encode_commit_id (id : ContentId) (buf : bytes) : result bytes :=
  encode_len_bytes (cid_to_bytes id) buf.

Definition decode_commit_id : reader ContentId :=
  cid_bytes ← decode_len_bytes;
  rlift (ok_or EnvelopeDecode (cid_from_bytes cid_bytes)).

Fixpoint encode_parents (ps : list ContentId) (buf : bytes) : result bytes :=
  match ps with
  | [] => Ok buf
  | p :: ps => buf ← encode_commit_id p buf; encode_parents ps buf
  end.

(** ** Encoding the envelope *)

Definition envelope_flags (e : CodecEnvelope) : Z :=
  let flag (b : bool) (bit flags : Z) := if b then Z.lor flags bit else flags in
  flag (if env_txn_signature e is Some _ then true else false) FLAG_TXN_SIGNATURE
  (flag (if env_time e is Some _ then true else false) FLAG_TIME
  (flag (if env_txn e is Some _ then true else false) FLAG_TXN
  (flag (negb (size (env_namespace_delta e) =? 0)%nat) FLAG_NAMESPACE_DELTA
  (flag (if env_parents e is [] then false else true) FLAG_PARENT
  (flag (if env_txn_meta e is [] then false else true) FLAG_TXN_META 0))))).

Definition encode_txn_signature (sig : TxnSignature) (buf : bytes) : bytes :=
  let buf := encode_len_str (txn_signer sig) buf in
  match txn_id sig with
  | Some id => encode_len_str id (buf ++ [1])
  | None => buf ++ [0]
  end.

Definition encode_envelope_fields (e : CodecEnvelope) (buf : bytes) : result bytes :=
  let num_parents := zlen (env_parents e) in
  if MAX_PARENTS <? num_parents then Err EnvelopeEncode else
  let version := if num_parents <=? 1 then 2 else 3 in
  let buf := encode_varint (zigzag_encode version) buf in
  let buf := buf ++ [envelope_flags e] in
  buf ← (match env_txn_meta e with [] => Ok buf | ms => encode_txn_meta ms buf end);
  buf ← (match env_parents e with
         | [] => Ok buf
         | p :: _ =>
             if version =? 3 then encode_parents (env_parents e) (encode_varint num_parents buf)
             else encode_commit_id p buf
         end);
  let buf := if (size (env_namespace_delta e) =? 0)%nat then buf
             else encode_ns_delta (env_namespace_delta e) buf in
  buf ← (match env_txn e with Some txn => encode_len_bytes (cid_to_bytes txn) buf | None => Ok buf end);
  let buf := match env_time e with Some time => encode_len_str time buf | None => buf end in
  let buf := match env_txn_signature e with Some sig => encode_txn_signature sig buf | None => buf end in
  buf ← (if (size (env_graph_delta e) =? 0)%nat then Ok (buf ++ [0])
         else if MAX_GRAPH_DELTA_ENTRIES <? Z.of_nat (size (env_graph_delta e)) then Err LimitExceeded
         else if forallb (fun '(_, iri) => zlen iri <=? MAX_GRAPH_IRI_LENGTH)
                   (map_to_list (env_graph_delta e))
         then Ok (encode_graph_delta (env_graph_delta e) (buf ++ [1]))
         else Err LimitExceeded);
  match env_ns_split_mode e with
  | Some mode => b ← mode_to_byte mode; Ok (buf ++ [1] ++ [b])
  | None => Ok (buf ++ [0])
  end.

(** ** Decoding the envelope *)

Definition decode_if {A} (b : bool) (r : reader A) (dflt : A) : reader A :=
  if b then r else mret dflt.

Definition decode_parents (v : Z) : reader (list ContentId) :=
  if v =? 3 then
    count ← decode_varint;
    if MAX_PARENTS <? count then rfail EnvelopeDecode else rrepeat decode_commit_id count
  else p ← decode_commit_id; mret [p].

Definition decode_some {A} (r : reader A) : reader (option A) := x ← r; mret (Some x).

Definition decode_bounded_str : reader str :=
  s ← decode_len_str; if 256 <? zlen s then rfail EnvelopeDecode else mret s.

Definition decode_txn_signature : reader TxnSignature :=
  signer ← decode_bounded_str;
  has_txn_id ← read_u8;
  id ← decode_if (negb (has_txn_id =? 0)) (decode_some decode_bounded_str) None;
  mret (mkTxnSig signer id).

(** [if pos < data.len() { if read_u8()? != 0 { r } else { dflt } } else { dflt }] *)
Definition trailing {A} (r : reader A) (dflt : A) : reader A := fun data pos =>
  if pos <? zlen data
  then (has ← read_u8; decode_if (negb (has =? 0)) r dflt) data pos
  else Ok (dflt, pos).

Definition decode_mode : reader (option NsSplitMode) :=
  b ← read_u8; mret (Some (mode_from_byte b)).

Definition read_envelope : reader CodecEnvelope :=
  raw ← decode_varint;
  let v := as_i 32 (zigzag_decode raw) in
  if negb (v =? 2) && negb (v =? 3) then rfail EnvelopeDecode else
  flags ← read_u8;
  if negb (Z.land flags (0xFF - KNOWN_FLAGS) =? 0) then rfail EnvelopeDecode else
  txn_meta ← decode_if (has_flag flags FLAG_TXN_META) decode_txn_meta [];
  parents ← decode_if (has_flag flags FLAG_PARENT) (decode_parents v) [];
  namespace_delta ← decode_if (has_flag flags FLAG_NAMESPACE_DELTA) decode_ns_delta ∅;
  txn ← decode_if (has_flag flags FLAG_TXN) (decode_some decode_commit_id) None;
  time ← decode_if (has_flag flags FLAG_TIME) (decode_some decode_len_str) None;
  txn_signature ← decode_if (has_flag flags FLAG_TXN_SIGNATURE) (decode_some decode_txn_signature) None;
  graph_delta ← trailing decode_graph_delta ∅;
  ns_split_mode ← trailing decode_mode None;
  mret (mkEnvelope CL 0 parents namespace_delta txn time txn_signature txn_meta graph_delta
          ns_split_mode).

Definition decode_envelope (data : bytes) : result CodecEnvelope :=
  '(e, pos) ← read_envelope data 0;
  if pos =? zlen data then Ok e else Err EnvelopeDecode.
End envelope.

(** ** Deltas *)

Lemma insert_all_acc es (m : gmap Z str) :
  fold_left (fun m '(k, v) => <[k := v]> m) es m = list_to_map (reverse es) ∪ m.
Proof.
  revert m. induction es as [|[k v] es IH]; intros m; simpl.
  - by rewrite (left_id_L ∅ (∪)).
  - rewrite IH, reverse_cons, list_to_map_app. simpl.
    by rewrite <- (assoc_L (∪)), insert_empty, <- insert_union_singleton_l.
Qed.

Lemma insert_all_sorted delta : insert_all (sorted_entries delta) = delta.
Proof.
  unfold insert_all, sorted_entries. rewrite insert_all_acc, (right_id_L ∅ (∪)).
  assert (reverse (merge_sort key_le (map_to_list delta)) ≡ₚ map_to_list delta) as Hp.
  { by rewrite reverse_Permutation, merge_sort_Permutation. }
  rewrite <- (list_to_map_to_list delta) at 2. apply list_to_map_proper; [|done].
  rewrite Hp. apply NoDup_fst_map_to_list.
Qed.

Definition delta_wf (delta : gmap Z str) : Prop :=
  map_Forall (fun k v => in_u 16 k /\ utf8_valid v = true) delta.

Lemma delta_wf_entries delta :
  delta_wf delta ->
  Forall (fun '(k, v) => in_u 16 k /\ utf8_valid v = true) (sorted_entries delta).
Proof.
  intros Hd. apply Forall_forall. intros [k v] Hkv.
  unfold sorted_entries in Hkv. rewrite merge_sort_Permutation in Hkv.
  apply elem_of_map_to_list in Hkv. by apply Hd.
Qed.

Lemma delta_size delta : delta_wf delta -> Z.of_nat (size delta) <= 2 ^ 16.
Proof.
  intros Hd. rewrite <- size_dom.
  assert (dom delta ⊆ list_to_set (C := gset Z) (seqZ 0 (2 ^ 16))) as Hsub.
  { intros k [v Hv]%elem_of_dom. apply elem_of_list_to_set, elem_of_seqZ.
    pose proof (proj1 (Hd k v Hv)) as Hk. unfold in_u in Hk. lia. }
  apply subseteq_size in Hsub. rewrite size_list_to_set in Hsub by apply NoDup_seqZ.
  rewrite length_seqZ in Hsub. lia.
Qed.

Lemma zlen_sorted_entries delta : zlen (sorted_entries delta) = Z.of_nat (size delta).
Proof.
  unfold zlen, sorted_entries. by rewrite merge_sort_Permutation, length_map_to_list.
Qed.

Definition len_str_bytes (s : str) : bytes := varint_bytes (zlen s) ++ s.

Lemma encode_len_str_eq s buf : encode_len_str s buf = buf ++ len_str_bytes s.
Proof. unfold encode_len_str, encode_varint, len_str_bytes. by rewrite <- app_assoc. Qed.

Lemma decodes_len_str s : utf8_valid s = true -> decodes decode_len_str (len_str_bytes s) s.
Proof.
  intros Hs. apply decodes_guard. intros Hfit. unfold len_str_bytes in *. rewrite zlen_app in Hfit.
  pose proof (zlen_varint_bytes (zlen s)).
  eapply decodes_bind; [apply decodes_varint, zlen_isize_u64; lia|].
  eapply decodes_bind_last; [by apply decodes_read_exact|].
  by apply decodes_rlift, from_utf8_Ok.
Qed.

Definition entry_bytes (e : Z * str) : bytes := varint_bytes e.1 ++ len_str_bytes e.2.
Definition delta_bytes (delta : gmap Z str) : bytes :=
  varint_bytes (Z.of_nat (size delta)) ++ concat (entry_bytes <$> sorted_entries delta).

Lemma encode_delta_eq delta buf : encode_delta delta buf = buf ++ delta_bytes delta.
Proof.
  unfold encode_delta, delta_bytes, encode_varint at 2. rewrite app_assoc.
  generalize (buf ++ varint_bytes (Z.of_nat (size delta))). generalize (sorted_entries delta).
  intros es. induction es as [|[k v] es IH]; intros b; [by rewrite app_nil_r|].
  cbn [fold_left]. rewrite IH, fmap_cons, encode_len_str_eq. unfold encode_varint, entry_bytes.
  cbn [concat fst snd]. by rewrite <- !app_assoc.
Qed.

Lemma decodes_ns_entry k v :
  in_u 16 k -> utf8_valid v = true -> decodes decode_ns_entry (entry_bytes (k, v)) (k, v).
Proof.
  intros Hk Hv. eapply decodes_bind; [by apply decodes_as|].
  by apply (decodes_bind_ret decode_len_str), decodes_len_str.
Qed.

Lemma decodes_graph_entry k v :
  in_u 16 k -> utf8_valid v = true -> decodes decode_graph_entry (entry_bytes (k, v)) (k, v).
Proof.
  intros Hk Hv. eapply decodes_bind; [by apply decodes_varint; eapply (in_u_mono 16)|].
  cbn [fst]. unfold u16_max, in_u in *. case_Z.
  by apply (decodes_bind_ret decode_len_str), decodes_len_str.
Qed.

Lemma decodes_delta (r : reader (Z * str)) delta :
  (forall k v, in_u 16 k -> utf8_valid v = true -> decodes r (entry_bytes (k, v)) (k, v)) ->
  delta_wf delta ->
  decodes (count ← decode_varint; _ ← rlift (hashmap_with_capacity count);
           es ← rrepeat r count; mret (insert_all es)) (delta_bytes delta) delta.
Proof.
  intros Hr Hd. pose proof (delta_size delta Hd).
  eapply decodes_bind; [apply decodes_varint; unfold in_u; lia|].
  eapply decodes_rlift_bind; [apply hashmap_with_capacity_Ok; lia|].
  eapply decodes_bind_last.
  - apply decodes_rrepeat; [by rewrite zlen_sorted_entries|]. apply decodes_list_map.
    apply Forall_forall. intros [k v] Hkv.
    apply (proj1 (Forall_forall _ _) (delta_wf_entries _ Hd)) in Hkv as [Hk Hv]. by apply Hr.
  - rewrite insert_all_sorted. apply decodes_ret.
Qed.

(** ** Transaction metadata *)

Definition meta_value_wf (v : TxnMetaValue) : Prop :=
  match v with
  | MString s => utf8_valid s = true
  | MTypedLiteral value dt_ns dt_name =>
      utf8_valid value = true /\ in_u 16 dt_ns /\ utf8_valid dt_name = true
  | MLangString value lang => utf8_valid value = true /\ utf8_valid lang = true
  | MRef ns name => in_u 16 ns /\ utf8_valid name = true
  | MLong n => in_i 64 n
  | MDouble d => in_u 64 d /\ f64_is_finite d = true
  | MBoolean _ => True
  end.

Definition txn_meta_wf (m : TxnMetaEntry) : Prop :=
  in_u 16 (predicate_ns m) /\ utf8_valid (predicate_name m) = true /\ meta_value_wf (meta_value m).

Definition meta_value_bytes (v : TxnMetaValue) : bytes :=
  match v with
  | MString s => [0] ++ len_str_bytes s
  | MTypedLiteral value dt_ns dt_name =>
      [1] ++ len_str_bytes value ++ varint_bytes dt_ns ++ len_str_bytes dt_name
  | MLangString value lang => [2] ++ len_str_bytes value ++ len_str_bytes lang
  | MRef ns name => [3] ++ varint_bytes ns ++ len_str_bytes name
  | MLong n => [4] ++ varint_bytes (zigzag_encode n)
  | MDouble d => [5] ++ le_bytes 8 d
  | MBoolean b => [6] ++ [Z.b2z b]
  end.

Definition txn_meta_bytes (m : TxnMetaEntry) : bytes :=
  varint_bytes (predicate_ns m) ++ len_str_bytes (predicate_name m) ++ meta_value_bytes (meta_value m).

Lemma encode_txn_meta_value_eq v buf :
  meta_value_wf v -> encode_txn_meta_value v buf = Ok (buf ++ meta_value_bytes v).
Proof.
  intros Hv. destruct v; simpl in *; rewrite ?encode_len_str_eq; unfold encode_varint;
    try (by rewrite <- ?app_assoc). destruct Hv as [_ ->]. done.
Qed.

Lemma encode_txn_meta_eq ms buf :
  Forall txn_meta_wf ms -> zlen ms <= MAX_TXN_META_ENTRIES ->
  encode_txn_meta ms buf =
    Ok (buf ++ varint_bytes (zlen ms) ++ concat (txn_meta_bytes <$> ms)).
Proof.
  intros Hms Hlen. unfold encode_txn_meta, encode_varint.
  rewrite (proj2 (Z.ltb_ge _ _) Hlen), app_assoc.
  generalize (buf ++ varint_bytes (zlen ms)). clear Hlen.
  induction Hms as [|m ms (Hns & Hnm & Hv) Hms IH]; intros b; [by rewrite app_nil_r|].
  cbn [encode_txn_meta_entries]. rewrite encode_txn_meta_value_eq by done.
  cbn [mbind outcome_bind]. rewrite IH, fmap_cons, encode_len_str_eq.
  unfold encode_varint, txn_meta_bytes. cbn [concat]. by rewrite <- !app_assoc.
Qed.

Lemma decodes_meta_value v :
  meta_value_wf v -> decodes decode_txn_meta_value (meta_value_bytes v) v.
Proof.
  intros Hv. destruct v; simpl in Hv; apply decodes_bind_u8; cbv beta iota.
  - by apply (decodes_bind_ret decode_len_str), decodes_len_str.
  - destruct Hv as (? & ? & ?). eapply decodes_bind; [by apply decodes_len_str|].
    eapply decodes_bind; [by apply decodes_as|].
    by apply (decodes_bind_ret decode_len_str), decodes_len_str.
  - destruct Hv. eapply decodes_bind; [by apply decodes_len_str|].
    by apply (decodes_bind_ret decode_len_str), decodes_len_str.
  - destruct Hv. eapply decodes_bind; [by apply decodes_as|].
    by apply (decodes_bind_ret decode_len_str), decodes_len_str.
  - eapply decodes_bind_last; [by apply decodes_varint, zigzag_encode_range|].
    rewrite zigzag_decode_encode by done. apply decodes_ret.
  - destruct Hv as [? Hf]. eapply decodes_bind_last; [by apply (decodes_read_le 8)|].
    rewrite Hf. apply decodes_ret.
  - eapply decodes_bind_last; [apply decodes_read_u8|]. destruct b; apply decodes_ret.
Qed.

Lemma decodes_txn_meta ms :
  Forall txn_meta_wf ms -> zlen ms <= MAX_TXN_META_ENTRIES ->
  decodes decode_txn_meta (varint_bytes (zlen ms) ++ concat (txn_meta_bytes <$> ms)) ms.
Proof.
  intros Hms Hlen. unfold MAX_TXN_META_ENTRIES in Hlen. pose proof (zlen_nonneg ms).
  eapply decodes_bind; [apply decodes_varint; unfold in_u; lia|].
  unfold MAX_TXN_META_ENTRIES. case_Z.
  apply decodes_rrepeat; [done|]. apply decodes_list_map.
  apply Forall_forall. intros [ns nm v] Hm.
  apply (proj1 (Forall_forall _ _) Hms) in Hm as (Hns & Hnm & Hv). simpl in *.
  eapply decodes_bind; [by apply decodes_as|]. eapply decodes_bind; [by apply decodes_len_str|].
  eapply decodes_bind_last; [by apply decodes_meta_value|]. apply decodes_ret.
Qed.

(** ** The envelope round trip *)
Section envelope_roundtrip.
Context `{CL : CidLib, CLL : !CidLaws}.

Definition cid_field_bytes (c : ContentId) : bytes :=
  varint_bytes (zlen (cid_to_bytes c)) ++ cid_to_bytes c.

Lemma encode_len_bytes_cid c buf :
  encode_len_bytes (cid_to_bytes c) buf = Ok (buf ++ cid_field_bytes c).
Proof.
  unfold encode_len_bytes, MAX_CID_BYTES, cid_field_bytes, encode_varint.
  pose proof (cid_bytes_len c). case_Z. by rewrite <- app_assoc.
Qed.

Lemma decodes_len_bytes_cid c : decodes decode_len_bytes (cid_field_bytes c) (cid_to_bytes c).
Proof.
  pose proof (cid_bytes_len c). pose proof (zlen_nonneg (cid_to_bytes c)).
  eapply decodes_bind; [apply decodes_varint; unfold in_u; lia|].
  unfold MAX_CID_BYTES. case_Z. by apply decodes_read_exact.
Qed.

Lemma decodes_commit_id c : decodes decode_commit_id (cid_field_bytes c) c.
Proof.
  eapply decodes_bind_last; [apply decodes_len_bytes_cid|].
  apply decodes_rlift. by rewrite cid_roundtrip.
Qed.

Lemma encode_parents_eq ps buf :
  encode_parents ps buf = Ok (buf ++ concat (cid_field_bytes <$> ps)).
Proof.
  revert buf. induction ps as [|c ps IH]; intros buf; [by rewrite app_nil_r|].
  cbn [encode_parents]. unfold encode_commit_id. rewrite encode_len_bytes_cid.
  cbn [mbind outcome_bind]. rewrite IH, fmap_cons. cbn [concat]. by rewrite <- app_assoc.
Qed.

Definition parents_version (ps : list ContentId) : Z := if zlen ps <=? 1 then 2 else 3.

Definition parents_bytes (ps : list ContentId) : bytes :=
  match ps with
  | [] => []
  | [c] => cid_field_bytes c
  | _ => varint_bytes (zlen ps) ++ concat (cid_field_bytes <$> ps)
  end.

Lemma parents_version_many c d ps : parents_version (c :: d :: ps) = 3.
Proof.
  unfold parents_version. rewrite !zlen_cons. pose proof (zlen_nonneg ps). by case_Z.
Qed.

Lemma encode_parents_field ps buf :
  match ps with
  | [] => Ok buf
  | p :: _ =>
      if parents_version ps =? 3 then encode_parents ps (encode_varint (zlen ps) buf)
      else encode_commit_id p buf
  end = Ok (buf ++ parents_bytes ps).
Proof.
  destruct ps as [|c [|d ps]].
  - by rewrite app_nil_r.
  - apply encode_len_bytes_cid.
  - rewrite parents_version_many, encode_parents_eq. unfold encode_varint. simpl.
    by rewrite <- !app_assoc.
Qed.

Lemma decodes_parents ps :
  ps <> [] -> zlen ps <= MAX_PARENTS ->
  decodes (decode_parents (parents_version ps)) (parents_bytes ps) ps.
Proof.
  intros Hne Hlen. unfold MAX_PARENTS in Hlen. destruct ps as [|c [|d ps]]; [done| |].
  - apply (decodes_bind_ret decode_commit_id (fun p => [p])), decodes_commit_id.
  - pose proof (zlen_nonneg (c :: d :: ps)). rewrite parents_version_many.
    eapply decodes_bind; [apply decodes_varint; unfold in_u; lia|]. unfold MAX_PARENTS. case_Z.
    apply decodes_rrepeat; [done|]. apply decodes_list_map, Forall_true. apply decodes_commit_id.
Qed.

Definition txn_signature_wf (sig : TxnSignature) : Prop :=
  utf8_valid (txn_signer sig) = true /\ zlen (txn_signer sig) <= 256 /\
  match txn_id sig with Some id => utf8_valid id = true /\ zlen id <= 256 | None => True end.

Definition txn_signature_bytes (sig : TxnSignature) : bytes :=
  len_str_bytes (txn_signer sig) ++
  match txn_id sig with Some id => 1 :: len_str_bytes id | None => [0] end.

Lemma encode_txn_signature_eq sig buf :
  encode_txn_signature sig buf = buf ++ txn_signature_bytes sig.
Proof.
  unfold encode_txn_signature, txn_signature_bytes. destruct (txn_id sig);
    rewrite ?encode_len_str_eq; by rewrite <- ?app_assoc.
Qed.

Lemma decodes_bounded_str s :
  utf8_valid s = true -> zlen s <= 256 -> decodes decode_bounded_str (len_str_bytes s) s.
Proof.
  intros Hs Hlen. eapply decodes_bind_last; [by apply decodes_len_str|].
  case_Z. apply decodes_ret.
Qed.

Lemma decodes_txn_signature sig :
  txn_signature_wf sig -> decodes decode_txn_signature (txn_signature_bytes sig) sig.
Proof.
  destruct sig as [signer id]. intros (Hs & Hl & Hid). simpl in *.
  eapply decodes_bind; [by apply decodes_bounded_str|]. cbn [txn_id].
  destruct id as [id|]; apply decodes_bind_u8.
  - destruct Hid. eapply decodes_bind_last; [|apply decodes_ret].
    by apply (decodes_bind_ret decode_bounded_str Some), decodes_bounded_str.
  - eapply decodes_bind_last; apply decodes_ret.
Qed.

Lemma decodes_trailing_some {A} (r : reader A) dflt bs v :
  decodes r bs v -> decodes (trailing r dflt) (1 :: bs) v.
Proof.
  intros H pre post Hfit. unfold trailing.
  assert ((zlen pre <? zlen (pre ++ (1 :: bs) ++ post)) = true) as ->.
  { rewrite !zlen_app, zlen_cons. pose proof (zlen_nonneg bs). pose proof (zlen_nonneg post).
    apply Z.ltb_lt. lia. }
  revert pre post Hfit. by apply decodes_bind_u8.
Qed.

Lemma decodes_trailing_none {A} (r : reader A) dflt : decodes (trailing r dflt) [0] dflt.
Proof.
  intros pre post Hfit. unfold trailing.
  assert ((zlen pre <? zlen (pre ++ [0] ++ post)) = true) as ->.
  { rewrite !zlen_app, zlen_cons, zlen_nil. pose proof (zlen_nonneg post). apply Z.ltb_lt. lia. }
  revert pre post Hfit. apply decodes_bind_u8, decodes_ret.
Qed.

Lemma decodes_if {A} (b : bool) (r : reader A) dflt bs v :
  (b = true -> decodes r bs v) -> (b = false -> bs = [] /\ v = dflt) ->
  decodes (decode_if b r dflt) bs v.
Proof.
  intros Ht Hf. destruct b; simpl; [by apply Ht|]. destruct (Hf eq_refl) as [-> ->].
  apply decodes_ret.
Qed.

(** Envelopes the encoder accepts and the decoder gives back.  The bounds on
    the signature are checked by the decoder only. *)
Record env_wf (e : CodecEnvelope) : Prop := {
  ew_parents : zlen (env_parents e) <= MAX_PARENTS;
  ew_ns : delta_wf (env_namespace_delta e);
  ew_time : match env_time e with Some time => utf8_valid time = true | None => True end;
  ew_sig : match env_txn_signature e with Some sig => txn_signature_wf sig | None => True end;
  ew_meta : Forall txn_meta_wf (env_txn_meta e);
  ew_meta_len : zlen (env_txn_meta e) <= MAX_TXN_META_ENTRIES;
  ew_graph : delta_wf (env_graph_delta e);
  ew_graph_size : Z.of_nat (size (env_graph_delta e)) <= MAX_GRAPH_DELTA_ENTRIES;
  ew_graph_iri : map_Forall (fun _ iri => zlen iri <= MAX_GRAPH_IRI_LENGTH) (env_graph_delta e);
  ew_mode : match env_ns_split_mode e with
            | Some (HostPlusN n) => 0 <= n <= HOST_PLUS_N_MAX
            | _ => True
            end;
}.

Definition is_nil {A} (l : list A) : bool := if l is [] then true else false.
Definition option_bytes {A} (enc : A -> bytes) (o : option A) : bytes :=
  match o with Some a => enc a | None => [] end.

Definition mode_bytes (m : option NsSplitMode) : bytes :=
  match m with
  | Some MostGranular => [1; 0]
  | Some (HostPlusN n) => [1; n + 1]
  | None => [0]
  end.

Definition meta_field_bytes (ms : list TxnMetaEntry) : bytes :=
  if is_nil ms then [] else varint_bytes (zlen ms) ++ concat (txn_meta_bytes <$> ms).
Definition ns_field_bytes (delta : gmap Z str) : bytes :=
  if (size delta =? 0)%nat then [] else delta_bytes delta.
Definition graph_field_bytes (delta : gmap Z str) : bytes :=
  if (size delta =? 0)%nat then [0] else 1 :: delta_bytes delta.

Definition envelope_bytes (e : CodecEnvelope) : bytes :=
  varint_bytes (zigzag_encode (parents_version (env_parents e))) ++
  [envelope_flags e] ++ meta_field_bytes (env_txn_meta e) ++
  parents_bytes (env_parents e) ++ ns_field_bytes (env_namespace_delta e) ++
  option_bytes cid_field_bytes (env_txn e) ++ option_bytes len_str_bytes (env_time e) ++
  option_bytes txn_signature_bytes (env_txn_signature e) ++
  graph_field_bytes (env_graph_delta e) ++ mode_bytes (env_ns_split_mode e).

Lemma encode_meta_field e buf :
  env_wf e ->
  match env_txn_meta e with [] => Ok buf | ms => encode_txn_meta ms buf end =
    Ok (buf ++ meta_field_bytes (env_txn_meta e)).
Proof.
  intros He. pose proof (ew_meta e He) as Hm. pose proof (ew_meta_len e He) as Hl.
  destruct (env_txn_meta e) as [|x ms]; [by rewrite app_nil_r|]. by apply encode_txn_meta_eq.
Qed.

Lemma encode_graph_field e buf :
  env_wf e ->
  (if (size (env_graph_delta e) =? 0)%nat then Ok (buf ++ [0])
   else if MAX_GRAPH_DELTA_ENTRIES <? Z.of_nat (size (env_graph_delta e)) then Err LimitExceeded
   else if forallb (fun '(_, iri) => zlen iri <=? MAX_GRAPH_IRI_LENGTH)
             (map_to_list (env_graph_delta e))
   then Ok (encode_graph_delta (env_graph_delta e) (buf ++ [1]))
   else Err LimitExceeded) = Ok (buf ++ graph_field_bytes (env_graph_delta e)).
Proof.
  intros He. unfold graph_field_bytes. destruct (size (env_graph_delta e) =? 0)%nat; [done|].
  rewrite (proj2 (Z.ltb_ge _ _) (ew_graph_size e He)).
  assert (forallb (fun '(_, iri) => zlen iri <=? MAX_GRAPH_IRI_LENGTH)
    (map_to_list (env_graph_delta e)) = true) as ->.
  { apply forallb_forall. intros [k v] Hkv. apply Z.leb_le, (ew_graph_iri e He k v).
    by apply elem_of_map_to_list, list_elem_of_In. }
  unfold encode_graph_delta. rewrite encode_delta_eq. by rewrite <- app_assoc.
Qed.

Lemma encode_envelope_eq e buf :
  env_wf e -> encode_envelope_fields e buf = Ok (buf ++ envelope_bytes e).
Proof.
  intros He. unfold encode_envelope_fields, envelope_bytes.
  rewrite (proj2 (Z.ltb_ge _ _) (ew_parents e He)). fold (parents_version (env_parents e)).
  rewrite encode_meta_field by done. cbn [mbind outcome_bind].
  rewrite encode_parents_field. cbn [mbind outcome_bind].
  assert (forall b, (if (size (env_namespace_delta e) =? 0)%nat then b
    else encode_ns_delta (env_namespace_delta e) b) = b ++ ns_field_bytes (env_namespace_delta e)) as ->.
  { intros b. unfold ns_field_bytes. destruct (_ =? 0)%nat; [by rewrite app_nil_r|apply encode_delta_eq]. }
  assert (forall b, match env_txn e with Some txn => encode_len_bytes (cid_to_bytes txn) b
    | None => Ok b end = Ok (b ++ option_bytes cid_field_bytes (env_txn e))) as ->.
  { intros b. destruct (env_txn e); [apply encode_len_bytes_cid|by rewrite app_nil_r]. }
  cbn [mbind outcome_bind].
  assert (forall b, match env_time e with Some time => encode_len_str time b | None => b end =
    b ++ option_bytes len_str_bytes (env_time e)) as ->.
  { intros b. destruct (env_time e); [apply encode_len_str_eq|by rewrite app_nil_r]. }
  assert (forall b, match env_txn_signature e with Some sig => encode_txn_signature sig b
    | None => b end = b ++ option_bytes txn_signature_bytes (env_txn_signature e)) as ->.
  { intros b. destruct (env_txn_signature e); [apply encode_txn_signature_eq|by rewrite app_nil_r]. }
  rewrite encode_graph_field by done. cbn [mbind outcome_bind].
  pose proof (ew_mode e He) as Hm. unfold encode_varint.
  destruct (env_ns_split_mode e) as [[|n]|]; cbn [mode_to_byte mbind outcome_bind mode_bytes].
  - by rewrite <- !app_assoc.
  - rewrite (proj2 (Z.ltb_ge _ _) (proj2 Hm)). cbn [mbind outcome_bind]. by rewrite <- !app_assoc.
  - by rewrite <- !app_assoc.
Qed.

Lemma envelope_flags_spec e :
  let f := envelope_flags e in
  Z.land f (0xFF - KNOWN_FLAGS) = 0 /\
  has_flag f FLAG_TXN_META = negb (is_nil (env_txn_meta e)) /\
  has_flag f FLAG_PARENT = negb (is_nil (env_parents e)) /\
  has_flag f FLAG_NAMESPACE_DELTA = negb (size (env_namespace_delta e) =? 0)%nat /\
  has_flag f FLAG_TXN = bool_decide (is_Some (env_txn e)) /\
  has_flag f FLAG_TIME = bool_decide (is_Some (env_time e)) /\
  has_flag f FLAG_TXN_SIGNATURE = bool_decide (is_Some (env_txn_signature e)).
Proof.
  unfold envelope_flags, is_nil.
  destruct (env_txn_meta e), (env_parents e), (size (env_namespace_delta e) =? 0)%nat,
    (env_txn e), (env_time e), (env_txn_signature e); by vm_compute.
Qed.

Lemma parents_version_cases ps : parents_version ps = 2 \/ parents_version ps = 3.
Proof. unfold parents_version. destruct (zlen ps <=? 1); auto. Qed.

Lemma size_zero_empty (delta : gmap Z str) : (size delta =? 0)%nat = true -> delta = ∅.
Proof. intros H%Nat.eqb_eq. by apply map_size_empty_iff. Qed.

Lemma decodes_option {A} (r : reader A) enc (o : option A) :
  (forall a, o = Some a -> decodes r (enc a) a) ->
  decodes (decode_if (bool_decide (is_Some o)) (decode_some r) None) (option_bytes enc o) o.
Proof.
  intros H. destruct o as [a|]; [|apply decodes_ret].
  by apply (decodes_bind_ret r Some), H.
Qed.

Lemma decodes_mode m :
  match m with Some (HostPlusN n) => 0 <= n <= HOST_PLUS_N_MAX | _ => True end ->
  decodes (trailing decode_mode None) (mode_bytes m) m.
Proof.
  destruct m as [[|n]|]; intros Hm; [| |apply decodes_trailing_none].
  - apply decodes_trailing_some, decodes_bind_u8, decodes_ret.
  - apply decodes_trailing_some, decodes_bind_u8. unfold mode_from_byte. case_Z.
    replace (n + 1 - 1) with n by lia. apply decodes_ret.
Qed.

Lemma decodes_graph_field delta :
  delta_wf delta -> decodes (trailing decode_graph_delta ∅) (graph_field_bytes delta) delta.
Proof.
  intros Hd. unfold graph_field_bytes. destruct (size delta =? 0)%nat eqn:E.
  - apply size_zero_empty in E as ->. apply decodes_trailing_none.
  - apply decodes_trailing_some, decodes_delta; [apply decodes_graph_entry|done].
Qed.

Definition env_at (t : Z) (e : CodecEnvelope) : CodecEnvelope :=
  mkEnvelope CL t (env_parents e) (env_namespace_delta e) (env_txn e) (env_time e)
    (env_txn_signature e) (env_txn_meta e) (env_graph_delta e) (env_ns_split_mode e).

Lemma decodes_envelope e : env_wf e -> decodes read_envelope (envelope_bytes e) (env_at 0 e).
Proof.
  intros He. pose proof (envelope_flags_spec e) as (Fu & Fm & Fp & Fn & Ft & Fti & Fs).
  pose proof (parents_version_cases (env_parents e)) as Hv.
  unfold read_envelope, envelope_bytes.
  eapply decodes_bind; [apply decodes_varint, zigzag_encode_range; destruct Hv as [-> | ->]; done|].
  rewrite zigzag_decode_encode by (destruct Hv as [-> | ->]; done).
  assert (as_i 32 (parents_version (env_parents e)) = parents_version (env_parents e)) as ->
    by by destruct Hv as [-> | ->].
  assert (negb (parents_version (env_parents e) =? 2) && negb (parents_version (env_parents e) =? 3) = false)
    as -> by by destruct Hv as [-> | ->].
  apply decodes_bind_u8. rewrite Fu. cbn [Z.eqb negb]. rewrite Fm, Fp, Fn, Ft, Fti, Fs.
  eapply decodes_bind; [apply (decodes_if _ _ _ _ (env_txn_meta e)); unfold meta_field_bytes, is_nil|].
  { intros Hne. pose proof (ew_meta e He) as H1. pose proof (ew_meta_len e He) as H2.
    destruct (env_txn_meta e); [done|]. by apply decodes_txn_meta. }
  { by destruct (env_txn_meta e). }
  eapply decodes_bind; [apply (decodes_if _ _ _ _ (env_parents e)); unfold is_nil|].
  { intros Hne. apply decodes_parents; [by destruct (env_parents e)|apply (ew_parents e He)]. }
  { by destruct (env_parents e). }
  eapply decodes_bind; [apply (decodes_if _ _ _ _ (env_namespace_delta e)); unfold ns_field_bytes|].
  { intros Hne%negb_true_iff. rewrite Hne. apply decodes_delta; [apply decodes_ns_entry|apply (ew_ns e He)]. }
  { intros Hz%negb_false_iff. rewrite Hz. split; [done|]. by apply size_zero_empty. }
  eapply decodes_bind.
  { apply decodes_option. intros c _. apply decodes_commit_id. }
  eapply decodes_bind.
  { apply decodes_option. intros s Hs. apply decodes_len_str. pose proof (ew_time e He) as H1.
    by rewrite Hs in H1. }
  eapply decodes_bind.
  { apply decodes_option. intros s Hs. apply decodes_txn_signature. pose proof (ew_sig e He) as H1.
    by rewrite Hs in H1. }
  eapply decodes_bind; [apply decodes_graph_field, (ew_graph e He)|].
  eapply decodes_bind_last; [apply decodes_mode, (ew_mode e He)|]. apply decodes_ret.
Qed.

Lemma decode_encode_envelope e :
  env_wf e -> zlen (envelope_bytes e) <= isize_max ->
  decode_envelope (envelope_bytes e) = Ok (env_at 0 e).
Proof.
  intros He Hfit. unfold decode_envelope.
  rewrite (decodes_whole _ _ _ (decodes_envelope e He) Hfit). cbn [mbind outcome_bind].
  by rewrite Z.eqb_refl.
Qed.
End envelope_roundtrip.

(** ** Properties *)

(** Envelope round trip: an envelope within the limits the decoder checks
    encodes without error, and its bytes decode to the same metadata (the
    transaction number travels in the header), with every byte consumed. *)
Theorem envelope_roundtrip `{CL : CidLib, CLL : !CidLaws} (e : CodecEnvelope) (buf : bytes) :
  env_wf e -> zlen (envelope_bytes e) <= isize_max ->
  exists bs, encode_envelope_fields e buf = Ok (buf ++ bs) /\ decode_envelope bs = Ok (env_at 0 e).
Proof.
  intros He Hfit. exists (envelope_bytes e).
  split; [by apply encode_envelope_eq|by apply decode_encode_envelope].
Qed.

(** Content ids for witnesses: one byte, the sum of the content. *)
#[export] Instance PlainCid : CidLib := {|
  ContentId := Ascii.ascii;
  cid_new bs := Ascii.ascii_of_N (Z.to_N (fold_right Z.add 0 bs));
  cid_to_bytes c := [Z.of_N (Ascii.N_of_ascii c)];
  cid_from_bytes bs := match bs with [b] => Some (Ascii.ascii_of_N (Z.to_N b)) | _ => None end;
|}.

#[export] Instance PlainCidLaws : CidLaws.
Proof.
  split; [|done]. intros c. simpl. by rewrite N2Z.id, Ascii.ascii_N_embedding.
Qed.

Definition sample_envelope : CodecEnvelope :=
  mkEnvelope PlainCid 12 [Ascii.one; Ascii.zero] {[ 7 := [101; 120] ]} (Some Ascii.one)
    (Some [50; 48]) (Some (mkTxnSig [100] (Some [101])))
    [mkTxnMeta 3 [110] (MDouble f64_one); mkTxnMeta 4 [111] (MTypedLiteral [49] 2 [105])]
    {[ 2 := [103] ]} (Some (HostPlusN 1)).

Lemma sample_envelope_wf : env_wf sample_envelope.
Proof.
  split; cbn [sample_envelope env_parents env_namespace_delta env_time env_txn_signature
    env_txn_meta env_graph_delta env_ns_split_mode].
  - by vm_compute.
  - apply map_Forall_singleton. split; by vm_compute.
  - done.
  - repeat split; by vm_compute.
  - repeat constructor; by vm_compute.
  - by vm_compute.
  - apply map_Forall_singleton. split; by vm_compute.
  - by vm_compute.
  - apply map_Forall_singleton. by vm_compute.
  - by vm_compute.
Qed.

Lemma envelope_roundtrip_witness :
  exists bs, encode_envelope_fields sample_envelope [] = Ok ([] ++ bs) /\
    decode_envelope bs = Ok (env_at 0 sample_envelope).
Proof.
  apply (envelope_roundtrip sample_envelope []); [apply sample_envelope_wf|vm_compute; done].
Defined.

(** The encoder does not check the length of a transaction signer: one of 257
    bytes is written and never read back. *)
Definition long_signer_envelope : CodecEnvelope :=
  mkEnvelope PlainCid 1 [] ∅ None None (Some (mkTxnSig (replicate 257 97) None)) [] ∅ None.

Lemma long_signer_unreadable :
  is_ok (encode_envelope_fields long_signer_envelope []) = true /\
  err_of (encode_envelope_fields long_signer_envelope [] ≫= decode_envelope) = Some EnvelopeDecode.
Proof. split; vm_compute; reflexivity. Qed.

(** A count that no allocation can hold makes the delta decoder panic. *)
Lemma ns_delta_capacity_panic :
  is_panic (decode_envelope
    (varint_bytes (zigzag_encode 2) ++ [FLAG_NAMESPACE_DELTA] ++ varint_bytes (2 ^ 62))) = true.
Proof. vm_compute. reflexivity. Qed.
