(* ===== verification/CommitCodec.v ===== *)
(** * Commit blobs

    Models the writer (src/fluree-db-core/src/commit/codec/writer.rs), the v4
    readers (reader.rs, raw_reader.rs) and the version dispatch (codec.rs), and
    proves that reading back a written blob returns the commit.  Compression
    (zstd), hashing and signing are the interface [CommitLib]; the reader of
    legacy v3 blobs is the interface [LegacyV3]. *)

From S2P Require Import Prelude Bytes Varint Cmp Value Plain Flake StringDict CommitFormat OpCodec Envelope.
From stdpp Require Import base list numbers gmap.
From Stdlib Require Import ZArith Lia.

Local Open Scope Z_scope.

(** ** Interfaces *)
Class CommitLib := {
  SigningKey : Type;
  signer_did : SigningKey -> str; (* did_from_pubkey(key.verifying_key()) *)
  sign_commit_digest : SigningKey -> bytes -> str -> bytes;
  sha256 : bytes -> bytes;
  zstd_encode : bytes -> option bytes;
  zstd_decode : bytes -> option bytes;
}.

Class CommitLaws `{CommitLib} := {
  did_utf8 key : utf8_valid (signer_did key) = true;
  did_len key : zlen (signer_did key) <= MAX_SIGNER_LEN;
  signature_len key digest ledger_id : zlen (sign_commit_digest key digest ledger_id) = 64;
  zstd_roundtrip bs c : zstd_encode bs = Some c -> zstd_decode c = Some bs;
}.

(** ** Commits *)
Record Commit `{ValueLib, CidLib} := mkCommit {
  id : option ContentId;
  commit_t : Z;
  time : option str;
  flakes : list Flake;
  parents : list ContentId;
  txn : option ContentId;
  namespace_delta : gmap Z str;
  txn_signature : option TxnSignature;
  commit_signatures : list CommitSignature;
  txn_meta : list TxnMetaEntry;
  graph_delta : gmap Z str;
  ns_split_mode : option NsSplitMode;
}.

Record CommitEnvelope `{CidLib} := mkCommitEnvelope {
  ce_t : Z;
  ce_parents : list ContentId;
  ce_txn : option ContentId;
  ce_namespace_delta : gmap Z str;
  ce_txn_meta : list TxnMetaEntry;
  ce_graph_delta : gmap Z str;
  ce_ns_split_mode : option NsSplitMode;
}.

(** [&data[i..j]]: panics when the range is not inside the slice. *)
Definition index_range (data : bytes) (i j : Z) : result bytes :=
  if (0 <=? i) && (i <=? j) && (j <=? zlen data) then Ok (slice data i j) else Panic.

Section commits.
Context `{VL : ValueLib, CL : CidLib, ML : CommitLib}.

Definition from_commit (c : Commit) : CodecEnvelope :=
  mkEnvelope CL (commit_t c) (parents c) (namespace_delta c) (txn c) (time c) (txn_signature c)
    (txn_meta c) (graph_delta c) (ns_split_mode c).

(** ** Writer *)

(** [for flake in &commit.flakes { encode_op(flake, &mut dicts, &mut ops_raw)? }] *)
Fixpoint encode_ops (fs : list Flake) (dicts : CommitDicts) (buf : bytes)
    : result (CommitDicts * bytes) :=
  match fs with
  | [] => Ok (dicts, buf)
  | f :: fs => '(dicts, buf) ← encode_op f dicts buf; encode_ops fs dicts buf
  end.

Definition compress_ops (compress : bool) (ops_raw : bytes) : result (bytes * bool) :=
  if compress && negb (zlen ops_raw =? 0) then
    compressed ← ok_or CompressionFailed (zstd_encode ops_raw);
    if zlen compressed <? zlen ops_raw then Ok (compressed, true) else Ok (ops_raw, false)
  else Ok (ops_raw, false).

(** Appends one dictionary and records where it went. *)
Definition push_dict (output dict : bytes) : DictLocation * bytes :=
  (mkLoc (as_u 64 (zlen output)) (as_u 32 (zlen dict)), output ++ dict).

Definition commit_signature (key : SigningKey) (sig : bytes) : CommitSignature :=
  mkSig (signer_did key) ALGO_ED25519 sig None.

(** Steps 6 to 11: header, envelope, ops, dictionaries with their locations,
    footer. *)
Definition assemble (header : CommitHeader) (envelope_bytes ops_section : bytes)
    (dicts : CommitDicts) : bytes :=
  let output := header_write_to header (replicate 32 0) in
  let output := output ++ envelope_bytes in
  let output := output ++ ops_section in
  let '(lg, output) := push_dict output (dict_serialize (d_graph dicts)) in
  let '(ls, output) := push_dict output (dict_serialize (d_subject dicts)) in
  let '(lp, output) := push_dict output (dict_serialize (d_predicate dicts)) in
  let '(ld, output) := push_dict output (dict_serialize (d_datatype dicts)) in
  let '(lr, output) := push_dict output (dict_serialize (d_object_ref dicts)) in
  let footer := mkFooter lg ls lp ld lr (as_u 32 (zlen ops_section)) in
  output ++ footer_bytes footer.

Definition write_flags (is_compressed is_signed : bool) : Z :=
  let flags := if is_compressed then Z.lor 0 FLAG_ZSTD else 0 in
  if is_signed then Z.lor flags FLAG_HAS_COMMIT_SIG else flags.

Definition write_commit (commit : Commit) (compress : bool) (signing : option (SigningKey * str))
    : result bytes :=
  if (commit_t commit <? 0) || (u32_max <? commit_t commit) then Err (TOutOfRange (commit_t commit)) else
  let pre_sig_block_len :=
    match signing with
    | Some (key, _) => as_u 16 (sig_block_size [commit_signature key (replicate 64 0)])
    | None => 0
    end in
  envelope_bytes ← encode_envelope_fields (from_commit commit) [];
  '(dicts, ops_raw) ← encode_ops (flakes commit) dicts_new [];
  '(ops_section, is_compressed) ← compress_ops compress ops_raw;
  let header := {| version := VERSION;
                   flags := write_flags is_compressed (if signing is Some _ then true else false);
                   header_t := commit_t commit;
                   op_count := as_u 32 (zlen (flakes commit));
                   envelope_len := as_u 32 (zlen envelope_bytes);
                   sig_block_len := pre_sig_block_len |} in
  let output := assemble header envelope_bytes ops_section dicts in
  match signing with
  | Some (key, ledger_id) =>
      let body_hash := sha256 output in
      let signature := sign_commit_digest key body_hash ledger_id in
      Ok (encode_sig_block [commit_signature key signature] output)
  | None => Ok output
  end.

(** ** Readers *)

Definition load_one (data : bytes) (valid_end : Z) (loc : DictLocation) (prev_end : Z)
    : result (StringDict * Z) :=
  let start := offset loc in
  let end_ := as_u 64 (start + loc_len loc) in
  if start <? prev_end then Err InvalidDictionary
  else if valid_end <? end_ then Err InvalidDictionary
  else dict_bytes ← index_range data start end_;
       d ← dict_deserialize dict_bytes;
       Ok (d, end_).

Definition load_dicts (data : bytes) (footer : CommitFooter) (valid_start valid_end : Z)
    : result ReadDicts :=
  '(dg, prev_end) ← load_one data valid_end (loc_graph footer) valid_start;
  '(ds, prev_end) ← load_one data valid_end (loc_subject footer) prev_end;
  '(dp, prev_end) ← load_one data valid_end (loc_predicate footer) prev_end;
  '(dd, prev_end) ← load_one data valid_end (loc_datatype footer) prev_end;
  '(dr, prev_end) ← load_one data valid_end (loc_object_ref footer) prev_end;
  Ok (mkReadDicts dg ds dp dd dr).

Definition has_sig_block (h : CommitHeader) : bool :=
  has_flag (flags h) FLAG_HAS_COMMIT_SIG && (0 <? sig_block_len h).

Definition body_end_of (h : CommitHeader) (blob_len : Z) : result Z :=
  if has_sig_block h then
    if blob_len <? sig_block_len h then Err (TooSmall blob_len (sig_block_len h))
    else Ok (blob_len - sig_block_len h)
  else Ok blob_len.

Definition read_header (data : bytes) : result CommitHeader :=
  if zlen data <? MIN_COMMIT_LEN then Err (TooSmall (zlen data) MIN_COMMIT_LEN)
  else header_read_from data.

Definition read_envelope_section (data : bytes) (h : CommitHeader) : result CodecEnvelope :=
  let envelope_end := HEADER_LEN + envelope_len h in
  if zlen data <? envelope_end then Err (TooSmall (zlen data) envelope_end)
  else env ← index_range data HEADER_LEN envelope_end; decode_envelope env.

(** Steps 5 to 7: footer, ops bounds, dictionaries, decompressed ops. *)
Definition read_body (data : bytes) (h : CommitHeader) (body_end : Z) : result (ReadDicts * bytes) :=
  let footer_start := as_u 64 (body_end - FOOTER_LEN) in
  footer_data ← index_range data footer_start body_end;
  footer ← footer_read_from footer_data;
  let ops_start := HEADER_LEN + envelope_len h in
  let ops_end := ops_start + ops_section_len footer in
  if footer_start <? ops_end then Err InvalidOp else
  dicts ← load_dicts data footer ops_end footer_start;
  ops_bytes ← index_range data ops_start ops_end;
  ops_data ← (if has_flag (flags h) FLAG_ZSTD then ok_or DecompressionFailed (zstd_decode ops_bytes)
              else Ok ops_bytes);
  Ok (dicts, ops_data).

Definition read_commit_v4 (data : bytes) : result Commit :=
  h ← read_header data;
  body_end ← body_end_of h (zlen data);
  sigs ← (if has_sig_block h then
            sig_data ← index_range data body_end (body_end + sig_block_len h);
            decode_sig_block sig_data
          else Ok []);
  e ← read_envelope_section data h;
  '(dicts, ops_data) ← read_body data h body_end;
  '(fs, _) ← rrepeat (decode_op dicts (header_t h)) (op_count h) ops_data 0;
  Ok {| id := Some (cid_new data); commit_t := header_t h; time := env_time e; flakes := fs;
        parents := env_parents e; txn := env_txn e; namespace_delta := env_namespace_delta e;
        txn_signature := env_txn_signature e; commit_signatures := sigs;
        txn_meta := env_txn_meta e; graph_delta := env_graph_delta e;
        ns_split_mode := env_ns_split_mode e |}.

Definition read_commit_envelope_v4 (data : bytes) : result CommitEnvelope :=
  if zlen data <? HEADER_LEN then Err (TooSmall (zlen data) HEADER_LEN) else
  h ← header_read_from data;
  e ← read_envelope_section data h;
  Ok (mkCommitEnvelope CL (header_t h) (env_parents e) (env_txn e) (env_namespace_delta e)
        (env_txn_meta e) (env_graph_delta e) (env_ns_split_mode e)).

Definition verify_commit_blob_v4 (data : bytes) : result ContentId :=
  _ ← read_header data; Ok (cid_new data).

(** [CommitOps] of raw_reader.rs: what an incremental indexer iterates. *)
Record CommitOps := mkOps {
  ops_envelope : CodecEnvelope;
  ops_t : Z;
  ops_count : Z;
  ops_dicts : ReadDicts;
  ops_data : bytes;
}.

Definition load_commit_ops_v4 (data : bytes) : result CommitOps :=
  h ← read_header data;
  body_end ← body_end_of h (zlen data);
  e ← read_envelope_section data h;
  '(dicts, ops_data) ← read_body data h body_end;
  Ok (mkOps (env_at (header_t h) e) (header_t h) (op_count h) dicts ops_data).

(** [for_each_op] with a callback that collects the ops. *)
Definition collect_ops (ops : CommitOps) : result (list RawOp) :=
  fst <$> rrepeat (decode_raw_op (ops_dicts ops)) (ops_count ops) (ops_data ops) 0.

(** ** Version dispatch (codec.rs) *)
Inductive CommitBlobVersion := V3 | V4.

Definition detect_version (data : bytes) : result CommitBlobVersion :=
  if zlen data <? HEADER_LEN then Err (TooSmall (zlen data) HEADER_LEN)
  else if negb (bool_decide (slice data 0 4 = MAGIC)) then Err InvalidMagic
  else
    let v := le_int (slice data 4 5) in
    if v =? VERSION_V3 then Ok V3 else if v =? VERSION then Ok V4 else Err (UnsupportedVersion v).

Class LegacyV3 := {
  read_commit_v3 : bytes -> result Commit;
  read_commit_envelope_v3 : bytes -> result CommitEnvelope;
  load_commit_ops_v3 : bytes -> result CommitOps;
  verify_commit_v3 : bytes -> result ContentId;
}.
Context `{LV : LegacyV3}.

Definition read_commit (data : bytes) : result Commit :=
  v ← detect_version data;
  match v with V3 => read_commit_v3 data | V4 => read_commit_v4 data end.
Definition read_commit_envelope (data : bytes) : result CommitEnvelope :=
  v ← detect_version data;
  match v with V3 => read_commit_envelope_v3 data | V4 => read_commit_envelope_v4 data end.
Definition load_commit_ops (data : bytes) : result CommitOps :=
  v ← detect_version data;
  match v with V3 => load_commit_ops_v3 data | V4 => load_commit_ops_v4 data end.
Definition verify_commit_blob (data : bytes) : result ContentId :=
  v ← detect_version data;
  match v with V3 => verify_commit_v3 data | V4 => verify_commit_blob_v4 data end.
End commits.

(** ** The op section *)
Section roundtrip.
Context `{VL : ValueLib, CL : CidLib, CLL : !CidLaws, ML : CommitLib, MLL : !CommitLaws}.

Lemma encode_ops_spec t fs d n :
  Forall (flake_wf t) fs -> dicts_all dict_wf d ->
  dicts_all (fun b => zlen (b_entries b) <= n) d -> n + zlen fs <= 2 ^ 32 - 1 ->
  exists d' bs, (forall buf, encode_ops fs d buf = Ok (d', buf ++ bs)) /\
    dicts_all dict_wf d' /\ dicts_extend d d' /\
    forall df, dicts_extend d' df ->
      decodes_list (decode_op (read_dicts_of df) t) bs fs /\
      decodes_list (decode_raw_op (read_dicts_of df)) bs (raw_op_of <$> fs).
Proof.
  intros Hfs. revert d n. induction Hfs as [|f fs Hf Hfs IH]; intros d n Hd Hn Hlen.
  - exists d, []. repeat split; try done; [intros buf; simpl; by rewrite app_nil_r|apply Hd..|constructor|constructor].
  - rewrite zlen_cons in Hlen. pose proof (zlen_nonneg fs).
    destruct (encode_op_spec t f d n Hf Hd Hn) as (d1 & b1 & E1 & W1 & N1 & X1 & D1); [lia|].
    destruct (IH d1 (n + 1) W1 N1) as (d2 & b2 & E2 & W2 & X2 & D2); [lia|].
    exists d2, (b1 ++ b2). split; [|split; [done|split; [by etransitivity|]]].
    + intros buf. cbn [encode_ops]. rewrite E1. cbn [mbind outcome_bind].
      by rewrite E2, <- app_assoc.
    + intros df Hdf. destruct (D2 df Hdf) as [D2a D2b]. destruct (D1 df) as [D1a D1b]; [by etransitivity|].
      split; by constructor.
Qed.

Lemma dicts_new_wf : dicts_all dict_wf dicts_new.
Proof. repeat split; apply dict_new_wf. Qed.

Lemma compress_ops_decompress compress ops_raw ops_section is_compressed :
  compress_ops compress ops_raw = Ok (ops_section, is_compressed) ->
  (if is_compressed then ok_or DecompressionFailed (zstd_decode ops_section) else Ok ops_section)
  = Ok ops_raw.
Proof.
  unfold compress_ops. destruct (compress && negb (zlen ops_raw =? 0)).
  - destruct (zstd_encode ops_raw) as [c|] eqn:E; [|done]. simpl.
    destruct (zlen c <? zlen ops_raw); intros [= <- <-]; [|done].
    by rewrite (zstd_roundtrip _ _ E).
  - by intros [= <- <-].
Qed.

(** ** Sections of a blob *)

Lemma index_range_app pre mid post data i j :
  data = pre ++ mid ++ post -> i = zlen pre -> j = i + zlen mid ->
  index_range data i j = Ok mid.
Proof.
  intros -> -> ->. unfold index_range. zlen_norm.
  pose proof (zlen_nonneg pre). pose proof (zlen_nonneg mid). pose proof (zlen_nonneg post).
  rewrite !(proj2 (Z.leb_le _ _)) by lia. simpl. f_equal. by apply slice_app.
Qed.

(** The layout: what the writer outputs, given its sections. *)
Record sections := mkSections {
  sec_envelope : bytes;
  sec_ops : bytes;
  sec_dicts : CommitDicts;
  sec_sigs : bytes;
}.

Definition sec_loc (off : Z) (b : StringDictBuilder) : DictLocation :=
  mkLoc off (zlen (dict_serialize b)).

Definition sec_dict_start (x : sections) : Z :=
  HEADER_LEN + zlen (sec_envelope x) + zlen (sec_ops x).

Definition footer_at (o0 : Z) (d : CommitDicts) (ops_len : Z) : CommitFooter :=
  let o1 := o0 + zlen (dict_serialize (d_graph d)) in
  let o2 := o1 + zlen (dict_serialize (d_subject d)) in
  let o3 := o2 + zlen (dict_serialize (d_predicate d)) in
  let o4 := o3 + zlen (dict_serialize (d_datatype d)) in
  mkFooter (sec_loc o0 (d_graph d)) (sec_loc o1 (d_subject d)) (sec_loc o2 (d_predicate d))
    (sec_loc o3 (d_datatype d)) (sec_loc o4 (d_object_ref d)) ops_len.

Definition sec_footer (x : sections) : CommitFooter :=
  footer_at (sec_dict_start x) (sec_dicts x) (zlen (sec_ops x)).

Definition sec_dict_bytes (d : CommitDicts) : bytes :=
  dict_serialize (d_graph d) ++ dict_serialize (d_subject d) ++ dict_serialize (d_predicate d) ++
  dict_serialize (d_datatype d) ++ dict_serialize (d_object_ref d).

Definition layout (h : CommitHeader) (x : sections) : bytes :=
  header_bytes h ++ sec_envelope x ++ sec_ops x ++ sec_dict_bytes (sec_dicts x) ++
  footer_bytes (sec_footer x) ++ sec_sigs x.

Lemma zlen_layout h x :
  zlen (layout h x) = sec_dict_start x + zlen (sec_dict_bytes (sec_dicts x)) + FOOTER_LEN +
    zlen (sec_sigs x).
Proof. unfold layout, sec_dict_start. zlen_norm. lia. Qed.

Lemma load_one_ok data valid_end prev_end off b pre post :
  data = pre ++ dict_serialize b ++ post -> off = zlen pre -> dict_wf b ->
  prev_end <= off -> off + zlen (dict_serialize b) <= valid_end ->
  valid_end <= zlen data -> zlen data < 2 ^ 32 ->
  load_one data valid_end (sec_loc off b) prev_end =
    Ok (mkDict (b_entries b), off + zlen (dict_serialize b)).
Proof.
  intros Hdata Hoff Hb Hprev Hend Hvalid Hsmall. unfold load_one, sec_loc. cbn [offset loc_len].
  pose proof (zlen_nonneg pre). pose proof (zlen_nonneg (dict_serialize b)).
  rewrite as_u_id by (unfold in_u; lia).
  rewrite (proj2 (Z.ltb_ge _ _)), (proj2 (Z.ltb_ge _ _)) by lia.
  rewrite (index_range_app pre (dict_serialize b) post) by done. cbn [mbind outcome_bind].
  rewrite dict_roundtrip_lemma by (done || (unfold isize_max; lia)). done.
Qed.

Lemma load_dicts_ok data pre foot d start ops_len :
  data = pre ++ sec_dict_bytes d ++ foot -> start = zlen pre ->
  dicts_all dict_wf d -> zlen data < 2 ^ 32 ->
  load_dicts data (footer_at start d ops_len) start (start + zlen (sec_dict_bytes d)) =
    Ok (read_dicts_of d).
Proof.
  intros Hdata Hstart (Wg & Ws & Wp & Wd & Wr) Hsmall.
  unfold load_dicts, footer_at, sec_dict_bytes in *.
  cbn [loc_graph loc_subject loc_predicate loc_datatype loc_object_ref].
  set (bg := dict_serialize (d_graph d)) in *. set (bs := dict_serialize (d_subject d)) in *.
  set (bp := dict_serialize (d_predicate d)) in *. set (bd := dict_serialize (d_datatype d)) in *.
  set (br := dict_serialize (d_object_ref d)) in *.
  assert (zlen data = zlen pre + zlen bg + zlen bs + zlen bp + zlen bd + zlen br + zlen foot) as Hlen.
  { rewrite Hdata. zlen_norm. lia. }
  rewrite !zlen_app. pose proof (zlen_nonneg foot).
  pose proof (zlen_nonneg bg). pose proof (zlen_nonneg bs). pose proof (zlen_nonneg bp).
  pose proof (zlen_nonneg bd). pose proof (zlen_nonneg br).
  assert (forall prev off b p q, data = p ++ dict_serialize b ++ q -> off = zlen p -> dict_wf b ->
    prev = off -> off + zlen (dict_serialize b) <= zlen data - zlen foot ->
    load_one data (start + (zlen bg + (zlen bs + (zlen bp + (zlen bd + zlen br))))) (sec_loc off b) prev =
      Ok (mkDict (b_entries b), off + zlen (dict_serialize b))) as Hone.
  { intros. eapply load_one_ok; done || lia. }
  rewrite (Hone _ _ _ pre (bs ++ bp ++ bd ++ br ++ foot)); cbn [mbind outcome_bind].
  rewrite (Hone _ _ _ (pre ++ bg) (bp ++ bd ++ br ++ foot)); cbn [mbind outcome_bind].
  rewrite (Hone _ _ _ (pre ++ bg ++ bs) (bd ++ br ++ foot)); cbn [mbind outcome_bind].
  rewrite (Hone _ _ _ (pre ++ bg ++ bs ++ bp) (br ++ foot)); cbn [mbind outcome_bind].
  rewrite (Hone _ _ _ (pre ++ bg ++ bs ++ bp ++ bd) foot); cbn [mbind outcome_bind].
  1: done.
  all: try done.
  all: fold bg bs bp bd br; rewrite ?zlen_app; try lia.
  all: rewrite Hdata; by rewrite <- ?app_assoc.
Qed.

(** A header that describes its sections. *)
Record describes (h : CommitHeader) (x : sections) : Prop := {
  ds_header : header_wf h;
  ds_version : version h = VERSION;
  ds_env : envelope_len h = zlen (sec_envelope x);
  ds_sigs : has_sig_block h = negb (zlen (sec_sigs x) =? 0);
  ds_sig_len : sec_sigs x <> [] -> sig_block_len h = zlen (sec_sigs x);
  ds_dicts : dicts_all dict_wf (sec_dicts x);
  ds_small : zlen (layout h x) < 2 ^ 32;
}.

Section described.
Context (h : CommitHeader) (x : sections) (D : describes h x).

Lemma zlen_sections :
  0 <= zlen (sec_envelope x) /\ 0 <= zlen (sec_ops x) /\
  0 <= zlen (sec_dict_bytes (sec_dicts x)) /\ 0 <= zlen (sec_sigs x).
Proof. repeat split; apply zlen_nonneg. Qed.

Lemma read_header_layout : read_header (layout h x) = Ok h.
Proof.
  unfold read_header. rewrite zlen_layout. pose proof zlen_sections.
  unfold sec_dict_start, MIN_COMMIT_LEN, HEADER_LEN, FOOTER_LEN. case_Z.
  by apply header_read_bytes, (ds_header h x D).
Qed.

Definition body_end : Z := zlen (layout h x) - zlen (sec_sigs x).

Lemma body_end_layout : body_end_of h (zlen (layout h x)) = Ok body_end.
Proof.
  unfold body_end_of, body_end. rewrite (ds_sigs h x D).
  destruct (Z.eqb_spec (zlen (sec_sigs x)) 0) as [E|E]; simpl.
  - by rewrite E, Z.sub_0_r.
  - rewrite (ds_sig_len h x D) by (by intros E'; rewrite E' in E).
    pose proof zlen_sections. rewrite zlen_layout. unfold sec_dict_start, HEADER_LEN, FOOTER_LEN.
    by case_Z.
Qed.

Lemma sig_section_layout :
  sec_sigs x <> [] ->
  index_range (layout h x) body_end (body_end + sig_block_len h) = Ok (sec_sigs x).
Proof.
  intros Hne. rewrite (ds_sig_len h x D Hne).
  apply (index_range_app (header_bytes h ++ sec_envelope x ++ sec_ops x ++
    sec_dict_bytes (sec_dicts x) ++ footer_bytes (sec_footer x)) _ []); [|unfold body_end, layout; zlen_norm; lia|done].
  unfold layout. by rewrite app_nil_r, <- ?app_assoc.
Qed.

Lemma envelope_section_layout :
  read_envelope_section (layout h x) h = decode_envelope (sec_envelope x).
Proof.
  unfold read_envelope_section. pose proof zlen_sections.
  rewrite (ds_env h x D). rewrite (proj2 (Z.ltb_ge _ _)).
  - rewrite (index_range_app (header_bytes h) (sec_envelope x) (sec_ops x ++
      sec_dict_bytes (sec_dicts x) ++ footer_bytes (sec_footer x) ++ sec_sigs x));
      [done|done|by rewrite zlen_header_bytes|done].
  - rewrite zlen_layout. unfold sec_dict_start, FOOTER_LEN. lia.
Qed.

Lemma footer_wf_layout : footer_wf (sec_footer x).
Proof.
  pose proof (ds_small h x D) as Hs. rewrite zlen_layout in Hs. pose proof zlen_sections.
  unfold sec_footer, footer_at, sec_dict_start, sec_dict_bytes, HEADER_LEN, FOOTER_LEN in *.
  rewrite !zlen_app in *.
  set (bg := zlen (dict_serialize (d_graph (sec_dicts x)))) in *.
  set (bs := zlen (dict_serialize (d_subject (sec_dicts x)))) in *.
  set (bp := zlen (dict_serialize (d_predicate (sec_dicts x)))) in *.
  set (bd := zlen (dict_serialize (d_datatype (sec_dicts x)))) in *.
  set (br := zlen (dict_serialize (d_object_ref (sec_dicts x)))) in *.
  assert (0 <= bg /\ 0 <= bs /\ 0 <= bp /\ 0 <= bd /\ 0 <= br) by (repeat split; apply zlen_nonneg).
  split; unfold loc_wf, sec_loc; cbn [offset loc_len loc_graph loc_subject loc_predicate
    loc_datatype loc_object_ref ops_section_len]; fold bg bs bp bd br; unfold in_u; lia.
Qed.

Lemma read_body_layout ops_raw :
  (if has_flag (flags h) FLAG_ZSTD then ok_or DecompressionFailed (zstd_decode (sec_ops x))
   else Ok (sec_ops x)) = Ok ops_raw ->
  read_body (layout h x) h body_end = Ok (read_dicts_of (sec_dicts x), ops_raw).
Proof.
  intros Hops. pose proof zlen_sections as Hz. pose proof (ds_small h x D) as Hs.
  unfold read_body, body_end. rewrite zlen_layout in *. unfold FOOTER_LEN in *.
  assert (HEADER_LEN = 32) as Hh by done.
  assert (sec_dict_start x = 32 + zlen (sec_envelope x) + zlen (sec_ops x)) as Hst by done.
  rewrite as_u_id by (unfold in_u; lia).
  rewrite (index_range_app (header_bytes h ++ sec_envelope x ++ sec_ops x ++
    sec_dict_bytes (sec_dicts x)) (footer_bytes (sec_footer x)) (sec_sigs x));
    [|by unfold layout; rewrite <- ?app_assoc|unfold sec_dict_start; zlen_norm; lia|
      rewrite zlen_footer_bytes; unfold FOOTER_LEN; lia].
  cbn [mbind outcome_bind]. rewrite footer_read_bytes by apply footer_wf_layout.
  cbn [mbind outcome_bind]. rewrite (ds_env h x D).
  assert (ops_section_len (sec_footer x) = zlen (sec_ops x)) as -> by done.
  fold (sec_dict_start x). rewrite (proj2 (Z.ltb_ge _ _)) by lia.
  replace (sec_dict_start x + zlen (sec_dict_bytes (sec_dicts x)) + 64 + zlen (sec_sigs x) -
    zlen (sec_sigs x) - 64) with (sec_dict_start x + zlen (sec_dict_bytes (sec_dicts x))) by lia.
  unfold sec_footer at 1. rewrite (load_dicts_ok _ (header_bytes h ++ sec_envelope x ++ sec_ops x)
    (footer_bytes (sec_footer x) ++ sec_sigs x));
    [|by unfold layout; rewrite <- ?app_assoc|unfold sec_dict_start; zlen_norm; lia|apply D|apply D].
  cbn [mbind outcome_bind].
  rewrite (index_range_app (header_bytes h ++ sec_envelope x) (sec_ops x)
    (sec_dict_bytes (sec_dicts x) ++ footer_bytes (sec_footer x) ++ sec_sigs x));
    [|by unfold layout; rewrite <- ?app_assoc|zlen_norm; lia|unfold sec_dict_start; lia].
  cbn [mbind outcome_bind]. rewrite Hops. done.
Qed.

Lemma detect_version_layout : detect_version (layout h x) = Ok V4.
Proof.
  pose proof zlen_sections. unfold detect_version. rewrite zlen_layout.
  rewrite (proj2 (Z.ltb_ge _ _)) by (unfold sec_dict_start, FOOTER_LEN; lia).
  pose proof read_header_layout as Hr. unfold read_header, header_read_from in Hr.
  rewrite zlen_layout in Hr.
  rewrite !(proj2 (Z.ltb_ge _ _)) in Hr
    by (unfold MIN_COMMIT_LEN, sec_dict_start, FOOTER_LEN, HEADER_LEN; lia).
  destruct (bool_decide (slice (layout h x) 0 4 = MAGIC)); [|done]. cbn [negb] in *.
  destruct (negb _ && negb _); [done|].
  apply (f_equal (fun r => match r with Ok h => version h | _ => 0 end)) in Hr.
  cbv beta iota delta [version] in Hr. fold (version h) in Hr. by rewrite Hr, (ds_version h x D).
Qed.
End described.

(** ** What the writer produces *)

Record commit_wf (c : Commit) : Prop := {
  cw_t : in_u 32 (commit_t c);
  cw_env : env_wf (from_commit c);
  cw_flakes : Forall (flake_wf (commit_t c)) (flakes c);
  cw_count : zlen (flakes c) <= 2 ^ 32 - 1;
}.

(** The signatures of a blob that [write_commit] signed: one, over the hash of
    all that precedes the signature block. *)
Definition sig_len (key : SigningKey) : Z := 2 + (2 + zlen (signer_did key) + 1 + 64 + 2).

Definition written_signatures (signing : option (SigningKey * str)) (blob : bytes)
    : list CommitSignature :=
  match signing with
  | Some (key, ledger_id) =>
      let body := take (Z.to_nat (zlen blob - sig_len key)) blob in
      [commit_signature key (sign_commit_digest key (sha256 body) ledger_id)]
  | None => []
  end.

Lemma commit_signature_wf key sig : zlen sig = 64 -> sig_wf (commit_signature key sig).
Proof. intros Hs. split; simpl; [apply did_utf8|apply did_len|done|done|done]. Qed.

Lemma zlen_written_block key sig :
  zlen sig = 64 -> zlen (encode_sig_block [commit_signature key sig] []) = sig_len key.
Proof.
  intros Hs. rewrite <- sig_block_size_bytes by (repeat constructor; by apply commit_signature_wf).
  unfold sig_block_size, sig_size, sig_len. simpl. lia.
Qed.

Lemma write_flags_spec c s :
  has_flag (write_flags c s) FLAG_ZSTD = c /\ has_flag (write_flags c s) FLAG_HAS_COMMIT_SIG = s /\
  in_u 8 (write_flags c s).
Proof. by destruct c, s. Qed.

Definition write_header (c : Commit) (is_compressed : bool) (signing : option (SigningKey * str))
    (env_len : Z) : CommitHeader :=
  {| version := VERSION;
     flags := write_flags is_compressed (if signing is Some _ then true else false);
     header_t := commit_t c; op_count := zlen (flakes c); envelope_len := env_len;
     sig_block_len := match signing with Some (key, _) => sig_len key | None => 0 end |}.

Lemma layout_sigs h x :
  layout h x = layout h (mkSections (sec_envelope x) (sec_ops x) (sec_dicts x) []) ++ sec_sigs x.
Proof.
  unfold layout. cbn [sec_envelope sec_ops sec_dicts sec_sigs]. rewrite app_nil_r, <- !app_assoc.
  by unfold sec_footer, sec_dict_start.
Qed.

Lemma zlen_assemble h env ops d :
  zlen (assemble h env ops d) =
    HEADER_LEN + zlen env + zlen ops + zlen (sec_dict_bytes d) + FOOTER_LEN.
Proof.
  unfold assemble, push_dict, header_write_to, sec_dict_bytes. zlen_norm.
  change (zlen (drop (Z.to_nat HEADER_LEN) (replicate 32 0))) with 0. lia.
Qed.

Lemma assemble_layout h env ops d :
  zlen (assemble h env ops d) < 2 ^ 32 ->
  assemble h env ops d = layout h (mkSections env ops d []).
Proof.
  rewrite zlen_assemble. intros Hs. unfold assemble, layout, sec_footer, sec_dict_start, footer_at,
    push_dict, sec_loc, header_write_to, HEADER_LEN, FOOTER_LEN, sec_dict_bytes in *.
  cbn [sec_envelope sec_ops sec_dicts sec_sigs]. change (drop (Z.to_nat 32) (replicate 32 0)) with (@nil Z).
  rewrite !app_nil_r. rewrite !zlen_app in *. rewrite zlen_header_bytes in *. unfold HEADER_LEN in *.
  set (bg := dict_serialize (d_graph d)) in *. set (bs := dict_serialize (d_subject d)) in *.
  set (bp := dict_serialize (d_predicate d)) in *. set (bd := dict_serialize (d_datatype d)) in *.
  set (br := dict_serialize (d_object_ref d)) in *.
  pose proof (zlen_nonneg env). pose proof (zlen_nonneg ops).
  pose proof (zlen_nonneg bg). pose proof (zlen_nonneg bs). pose proof (zlen_nonneg bp).
  pose proof (zlen_nonneg bd). pose proof (zlen_nonneg br).
  rewrite !as_u_id by (unfold in_u; lia). by rewrite <- !app_assoc.
Qed.

(** The sections of a written blob. *)
Record written (c : Commit) (signing : option (SigningKey * str)) (blob : bytes)
    (h : CommitHeader) (x : sections) (ops_raw : bytes) : Prop := {
  wr_blob : blob = layout h x;
  wr_describes : describes h x;
  wr_t : header_t h = commit_t c;
  wr_count : op_count h = zlen (flakes c);
  wr_env : sec_envelope x = envelope_bytes (from_commit c);
  wr_ops : encode_ops (flakes c) dicts_new [] = Ok (sec_dicts x, ops_raw);
  wr_zstd : (if has_flag (flags h) FLAG_ZSTD
             then ok_or DecompressionFailed (zstd_decode (sec_ops x)) else Ok (sec_ops x)) = Ok ops_raw;
  wr_sigs : sec_sigs x = match written_signatures signing blob with
                         | [] => []
                         | sigs => encode_sig_block sigs []
                         end;
}.

Lemma sig_len_range key : in_u 16 (sig_len key) /\ 0 < sig_len key.
Proof.
  pose proof (did_len key) as H. unfold MAX_SIGNER_LEN in H.
  pose proof (zlen_nonneg (signer_did key)). unfold in_u, sig_len. lia.
Qed.

Lemma write_header_wf c is_compressed signing env_len :
  commit_wf c -> in_u 32 env_len ->
  header_wf (write_header c is_compressed signing env_len).
Proof.
  intros Hwf He. destruct (write_flags_spec is_compressed (if signing is Some _ then true else false))
    as (_ & _ & Hf). pose proof (zlen_nonneg (flakes c)). pose proof (cw_count c Hwf).
  split; simpl; [by left|done|apply Hwf|unfold in_u; lia|done|].
  destruct signing as [[key ?]|]; [apply sig_len_range|done].
Qed.

Lemma sign_block_prelen key :
  as_u 16 (sig_block_size [commit_signature key (replicate 64 0)]) = sig_len key.
Proof.
  rewrite sig_block_size_bytes by (repeat constructor; by apply commit_signature_wf).
  rewrite zlen_written_block by done. apply as_u_id, sig_len_range.
Qed.

(** The signing step: the blob is the body followed by the block. *)
Lemma signed_blob key ledger_id body blob :
  encode_sig_block [commit_signature key (sign_commit_digest key (sha256 body) ledger_id)] body = blob ->
  blob = body ++ encode_sig_block (written_signatures (Some (key, ledger_id)) blob) [] /\
  zlen blob = zlen body + sig_len key.
Proof.
  intros Hb. set (cs := commit_signature key _) in Hb.
  assert (blob = body ++ encode_sig_block [cs] []) as E.
  { rewrite <- Hb, !encode_sig_block_app. by rewrite app_nil_l. }
  assert (zlen (encode_sig_block [cs] []) = sig_len key) as Hl.
  { apply zlen_written_block, signature_len. }
  assert (zlen blob = zlen body + sig_len key) as Hz by (rewrite E, zlen_app; lia).
  split; [|done]. unfold written_signatures.
  replace (zlen blob - sig_len key) with (zlen body) by lia.
  rewrite zlen_to_nat. rewrite E at 2. by rewrite take_app_length.
Qed.

Lemma write_commit_written c compress signing blob :
  commit_wf c -> write_commit c compress signing = Ok blob -> zlen blob < 2 ^ 32 ->
  exists h x ops_raw, written c signing blob h x ops_raw.
Proof.
  intros Hwf Hw Hsmall. unfold write_commit in Hw.
  pose proof (cw_t c Hwf) as Ht. pose proof (cw_count c Hwf) as Hcount.
  pose proof (zlen_nonneg (flakes c)) as Hfl.
  rewrite (proj2 (orb_false_iff _ _)) in Hw
    by (unfold in_u, u32_max in *; split; apply Z.ltb_ge; lia).
  rewrite encode_envelope_eq, app_nil_l in Hw by apply Hwf. cbn [mbind outcome_bind] in Hw.
  set (env := envelope_bytes (from_commit c)) in *.
  destruct (encode_ops_spec (commit_t c) (flakes c) dicts_new 0 (cw_flakes c Hwf) dicts_new_wf)
    as (d & raw & Eops & Wd & _ & _); [done|lia|].
  rewrite Eops in Hw. rewrite app_nil_l in Hw. cbn [mbind outcome_bind] in Hw.
  destruct (compress_ops compress raw) as [[ops comp]| |] eqn:Ec; try done.
  pose proof (compress_ops_decompress _ _ _ _ Ec) as Hdec. cbn [mbind outcome_bind] in Hw.
  rewrite (as_u_id 32 (zlen (flakes c))) in Hw by (unfold in_u; lia).
  set (sigs := match written_signatures signing blob with
               | [] => [] | sigs => encode_sig_block sigs [] end).
  assert (in_u 32 (zlen env) /\
    blob = layout (write_header c comp signing (zlen env)) (mkSections env ops d sigs) /\
    (sigs <> [] -> sig_block_len (write_header c comp signing (zlen env)) = zlen sigs) /\
    (if signing is Some _ then true else false) = negb (zlen sigs =? 0)) as (He & Hblob & Hsl & Hsig).
  { pose proof (zlen_nonneg env). pose proof (zlen_nonneg ops).
    pose proof (zlen_nonneg (sec_dict_bytes d)).
    destruct signing as [[key lid]|]; injection Hw as Hw.
    - rewrite sign_block_prelen in Hw. apply signed_blob in Hw as [Hb Hz].
      rewrite zlen_assemble in Hz. unfold HEADER_LEN, FOOTER_LEN in Hz.
      pose proof (sig_len_range key) as [_ Hk].
      assert (in_u 32 (zlen env)) as He by (unfold in_u; lia).
      assert (zlen sigs = sig_len key) as Hs by apply zlen_written_block, signature_len.
      rewrite (as_u_id 32 (zlen env)) in Hb by done. rewrite assemble_layout in Hb
        by (rewrite zlen_assemble; unfold HEADER_LEN, FOOTER_LEN; lia).
      split; [done|]. split; [by rewrite layout_sigs|]. split; [done|].
      rewrite Hs. by destruct (Z.eqb_spec (sig_len key) 0); [lia|].
    - rewrite <- Hw, zlen_assemble in Hsmall. unfold HEADER_LEN, FOOTER_LEN in Hsmall.
      assert (in_u 32 (zlen env)) as He by (unfold in_u; lia).
      rewrite (as_u_id 32 (zlen env)) in Hw by done. rewrite assemble_layout in Hw
        by (rewrite zlen_assemble; unfold HEADER_LEN, FOOTER_LEN; lia).
      done. }
  destruct (write_flags_spec comp (if signing is Some _ then true else false)) as (Fz & Fs & _).
  exists (write_header c comp signing (zlen env)), (mkSections env ops d sigs), raw.
  split; try done; [|by simpl; rewrite Fz].
  split; try done; [by apply write_header_wf| |by rewrite <- Hblob].
  unfold has_sig_block. simpl. rewrite Fs, Hsig.
  destruct (Z.eqb_spec (zlen sigs) 0) as [E|E]; [done|]. simpl. simpl in Hsl.
  rewrite Hsl by (by intros E'; rewrite E' in E). pose proof (zlen_nonneg sigs). by case_Z.
Qed.

(** ** Reading back *)
Context `{LV : !LegacyV3}.

(** The buffer of encoded ops is a [Vec<u8>]. *)
Definition ops_fit (c : Commit) : Prop :=
  forall d ops, encode_ops (flakes c) dicts_new [] = Ok (d, ops) -> zlen ops <= isize_max.

Definition read_back (c : Commit) (signing : option (SigningKey * str)) (blob : bytes) : Commit :=
  {| id := Some (cid_new blob); commit_t := commit_t c; time := time c; flakes := flakes c;
     parents := parents c; txn := txn c; namespace_delta := namespace_delta c;
     txn_signature := txn_signature c; commit_signatures := written_signatures signing blob;
     txn_meta := txn_meta c; graph_delta := graph_delta c; ns_split_mode := ns_split_mode c |}.

Lemma written_ops c signing blob h x ops_raw :
  commit_wf c -> ops_fit c -> written c signing blob h x ops_raw ->
  rrepeat (decode_op (read_dicts_of (sec_dicts x)) (commit_t c)) (zlen (flakes c)) ops_raw 0 =
    Ok (flakes c, zlen ops_raw) /\
  rrepeat (decode_raw_op (read_dicts_of (sec_dicts x))) (zlen (flakes c)) ops_raw 0 =
    Ok (raw_op_of <$> flakes c, zlen ops_raw).
Proof.
  intros Hwf Hfit W. pose proof (wr_ops _ _ _ _ _ _ W) as Hops.
  destruct (encode_ops_spec (commit_t c) (flakes c) dicts_new 0 (cw_flakes c Hwf) dicts_new_wf)
    as (d & raw & E & _ & _ & D); [done|pose proof (cw_count c Hwf); lia|].
  pose proof (E []) as E0. rewrite Hops in E0. injection E0 as -> ->.
  destruct (D d) as [D1 D2]; [done|].
  split; (apply decodes_whole; [|by eapply Hfit]); apply decodes_rrepeat; try done.
  by rewrite zlen_fmap.
Qed.

Lemma written_env c signing blob h x ops_raw :
  commit_wf c -> written c signing blob h x ops_raw ->
  decode_envelope (sec_envelope x) = Ok (env_at 0 (from_commit c)).
Proof.
  intros Hwf W. rewrite (wr_env _ _ _ _ _ _ W). apply decode_encode_envelope; [apply Hwf|].
  pose proof (ds_small _ _ (wr_describes _ _ _ _ _ _ W)) as Hs. rewrite zlen_layout in Hs.
  rewrite <- (wr_env _ _ _ _ _ _ W). unfold isize_max, sec_dict_start, HEADER_LEN, FOOTER_LEN in *.
  pose proof (zlen_sections x). lia.
Qed.

Lemma written_sigs_decode c signing blob h x ops_raw :
  written c signing blob h x ops_raw ->
  (if has_sig_block h then
     sig_data ← index_range blob (body_end h x) (body_end h x + sig_block_len h);
     decode_sig_block sig_data
   else Ok []) = Ok (written_signatures signing blob).
Proof.
  intros W. pose proof (wr_describes _ _ _ _ _ _ W) as D. rewrite (ds_sigs _ _ D).
  pose proof (wr_sigs _ _ _ _ _ _ W) as Hsigs.
  destruct signing as [[key lid]|]; simpl in Hsigs; [|by rewrite Hsigs].
  set (cs := commit_signature key _) in Hsigs.
  assert (sig_wf cs) as Hcs by apply commit_signature_wf, signature_len.
  assert (zlen (sec_sigs x) = sig_len key) as Hl.
  { rewrite Hsigs. apply zlen_written_block, signature_len. }
  pose proof (sig_len_range key) as [Hr Hk]. unfold in_u in Hr.
  rewrite Hl. destruct (Z.eqb_spec (sig_len key) 0); [lia|]. cbn [negb].
  rewrite (wr_blob _ _ _ _ _ _ W) at 1. rewrite sig_section_layout;
    [|done|intros E; rewrite E, zlen_nil in Hl; lia]. cbn [mbind outcome_bind].
  rewrite Hsigs. apply decode_encode_sig_block; [by apply Forall_singleton|done|].
  transitivity (zlen (sec_sigs x)); [by rewrite Hsigs|]. rewrite Hl. unfold isize_max. lia.
Qed.

Lemma read_written c signing blob h x ops_raw :
  commit_wf c -> ops_fit c -> written c signing blob h x ops_raw ->
  read_commit blob = Ok (read_back c signing blob).
Proof.
  intros Hwf Hfit W. pose proof (wr_describes _ _ _ _ _ _ W) as D.
  pose proof (written_sigs_decode _ _ _ _ _ _ W) as Hsigs.
  pose proof (written_ops _ _ _ _ _ _ Hwf Hfit W) as [Hops _].
  pose proof (written_env _ _ _ _ _ _ Hwf W) as Henv.
  unfold read_commit, read_commit_v4. rewrite (wr_blob _ _ _ _ _ _ W) in Hsigs |- *.
  rewrite detect_version_layout by done. cbn [mbind outcome_bind].
  rewrite read_header_layout by done. cbn [mbind outcome_bind].
  rewrite body_end_layout by done. cbn [mbind outcome_bind]. cbn [mbind outcome_bind] in Hsigs.
  rewrite Hsigs. rewrite envelope_section_layout by done. rewrite Henv. cbn [mbind outcome_bind].
  rewrite (read_body_layout _ _ D ops_raw) by apply W. cbn [mbind outcome_bind].
  rewrite (wr_t _ _ _ _ _ _ W), (wr_count _ _ _ _ _ _ W), Hops. done.
Qed.

(** The raw reader hands out, op by op, the fields of the same flakes. *)
Lemma load_written c signing blob h x ops_raw :
  commit_wf c -> ops_fit c -> written c signing blob h x ops_raw ->
  exists ops, load_commit_ops blob = Ok ops /\ ops_t ops = commit_t c /\
    ops_envelope ops = from_commit c /\ collect_ops ops = Ok (raw_op_of <$> flakes c).
Proof.
  intros Hwf Hfit W. pose proof (wr_describes _ _ _ _ _ _ W) as D.
  pose proof (written_ops _ _ _ _ _ _ Hwf Hfit W) as [_ Hops].
  pose proof (written_env _ _ _ _ _ _ Hwf W) as Henv.
  unfold load_commit_ops, load_commit_ops_v4. rewrite (wr_blob _ _ _ _ _ _ W).
  rewrite detect_version_layout by done. cbn [mbind outcome_bind].
  rewrite read_header_layout by done. cbn [mbind outcome_bind].
  rewrite body_end_layout by done. cbn [mbind outcome_bind].
  rewrite envelope_section_layout by done. rewrite Henv. cbn [mbind outcome_bind].
  rewrite (read_body_layout _ _ D ops_raw) by apply W. cbn [mbind outcome_bind].
  eexists. split; [done|]. cbn [ops_t ops_envelope]. rewrite (wr_t _ _ _ _ _ _ W).
  split; [done|]. split; [done|]. unfold collect_ops. cbn [ops_dicts ops_count ops_data].
  by rewrite (wr_count _ _ _ _ _ _ W), Hops.
Qed.

(** Without compression the writer fails on nothing that is well formed. *)
Lemma write_commit_total c signing :
  commit_wf c -> exists blob, write_commit c false signing = Ok blob.
Proof.
  intros Hwf. unfold write_commit. pose proof (cw_t c Hwf) as Ht.
  rewrite (proj2 (orb_false_iff _ _)) by (unfold in_u, u32_max in *; split; apply Z.ltb_ge; lia).
  rewrite encode_envelope_eq by apply Hwf. cbn [mbind outcome_bind].
  destruct (encode_ops_spec (commit_t c) (flakes c) dicts_new 0 (cw_flakes c Hwf) dicts_new_wf)
    as (d & raw & E & _); [done|pose proof (cw_count c Hwf); lia|].
  rewrite E. cbn [mbind outcome_bind compress_ops andb]. destruct signing as [[key lid]|]; eauto.
Qed.
End roundtrip.

(** ** Loading an envelope through a range probe (commit.rs) *)

Definition ENVELOPE_PROBE_LEN : Z := 128 * 1024.

Section probe.
Context `{VL : ValueLib, CL : CidLib, ML : CommitLib, LV : !LegacyV3}.

(** [load_commit_envelope_by_id] on the blob the store holds: [get_range]
    returns its first 128 KiB, [get] all of it.  The second component is the
    version byte. *)
Definition load_from_probe (probe blob : bytes) : result (CommitEnvelope * Z) :=
  if zlen probe <? HEADER_LEN then Err (TooSmall (zlen probe) HEADER_LEN) else
  let version_byte := le_int (slice probe 4 5) in
  header ← header_read_from probe;
  let needed := HEADER_LEN + envelope_len header in
  let data := if needed <=? zlen probe then probe else blob in
  envelope ← read_commit_envelope data;
  Ok (envelope, version_byte).

Definition load_commit_envelope_with_version (blob : bytes) : result (CommitEnvelope * Z) :=
  load_from_probe (take (Z.to_nat ENVELOPE_PROBE_LEN) blob) blob.

Definition load_commit_envelope_by_id (blob : bytes) : result CommitEnvelope :=
  fst <$> load_commit_envelope_with_version blob.

Lemma slice_take {A} (l : list A) n i j :
  0 <= i <= j -> j <= zlen (take n l) -> slice (take n l) i j = slice l i j.
Proof.
  intros Hij Hj. unfold slice, zlen in *. rewrite length_take in Hj.
  rewrite skipn_firstn_comm, take_take. f_equal. lia.
Qed.

Lemma header_read_take n blob :
  HEADER_LEN <= zlen (take n blob) -> header_read_from (take n blob) = header_read_from blob.
Proof.
  intros Hlen. assert (zlen (take n blob) <= zlen blob) by (unfold zlen; rewrite length_take; lia).
  unfold header_read_from, HEADER_LEN in *.
  rewrite !(proj2 (Z.ltb_ge _ _)) by lia. by rewrite !slice_take by lia.
Qed.

Lemma detect_version_take n blob :
  HEADER_LEN <= zlen (take n blob) -> detect_version (take n blob) = detect_version blob.
Proof.
  intros Hlen. assert (zlen (take n blob) <= zlen blob) by (unfold zlen; rewrite length_take; lia).
  unfold detect_version, HEADER_LEN in *.
  rewrite !(proj2 (Z.ltb_ge _ _)) by lia. by rewrite !slice_take by lia.
Qed.

Lemma envelope_section_take n blob h :
  0 <= envelope_len h -> HEADER_LEN + envelope_len h <= zlen (take n blob) ->
  read_envelope_section (take n blob) h = read_envelope_section blob h.
Proof.
  intros He Hlen. assert (zlen (take n blob) <= zlen blob) by (unfold zlen; rewrite length_take; lia).
  unfold read_envelope_section, index_range, HEADER_LEN in *.
  rewrite !(proj2 (Z.ltb_ge _ _)) by lia. rewrite !(proj2 (Z.leb_le _ _)) by lia.
  by rewrite slice_take by lia.
Qed.

Lemma header_envelope_len_nonneg data h :
  bytes_ok data -> header_read_from data = Ok h -> 0 <= envelope_len h.
Proof.
  intros Hok Hh. unfold header_read_from in Hh.
  destruct (zlen data <? HEADER_LEN); [done|]. destruct (negb _); [done|].
  destruct (negb _ && negb _); [done|]. injection Hh as <-. cbn [envelope_len].
  apply (le_int_range (slice data 14 18)). unfold slice. apply Forall_take, Forall_drop, Hok.
Qed.

Lemma load_from_probe_spec n blob :
  bytes_ok blob -> detect_version blob = Ok V4 -> (32 <= n)%nat ->
  fst <$> load_from_probe (take n blob) blob = read_commit_envelope blob.
Proof.
  intros Hok Hv Hn. unfold load_from_probe. set (probe := take n blob).
  assert (HEADER_LEN <= zlen blob) as Hb.
  { unfold detect_version in Hv. destruct (Z.ltb_spec (zlen blob) HEADER_LEN); done. }
  assert (HEADER_LEN <= zlen probe) as Hp.
  { unfold probe, zlen, HEADER_LEN in *. rewrite length_take. lia. }
  assert (header_read_from probe = header_read_from blob) as Hh by by apply header_read_take.
  rewrite (proj2 (Z.ltb_ge _ _) Hp), Hh.
  unfold read_commit_envelope. rewrite Hv. cbn [mbind outcome_bind].
  unfold read_commit_envelope_v4 at 2. rewrite (proj2 (Z.ltb_ge _ _) Hb).
  destruct (header_read_from blob) as [h| |] eqn:Eh; [|done..]. cbn [mbind outcome_bind fmap outcome_fmap].
  destruct (Z.leb_spec (HEADER_LEN + envelope_len h) (zlen probe)) as [Hle|Hle].
  - assert (detect_version probe = Ok V4) as -> by by (rewrite <- Hv; apply detect_version_take).
    cbn [mbind outcome_bind]. unfold read_commit_envelope_v4.
    rewrite (proj2 (Z.ltb_ge _ _) Hp), Hh. cbn [mbind outcome_bind].
    assert (read_envelope_section probe h = read_envelope_section blob h) as ->
      by (apply envelope_section_take; [by eapply header_envelope_len_nonneg|done]).
    by destruct (read_envelope_section blob h).
  - rewrite Hv. cbn [mbind outcome_bind]. unfold read_commit_envelope_v4.
    rewrite (proj2 (Z.ltb_ge _ _) Hb), Eh. cbn [mbind outcome_bind].
    by destruct (read_envelope_section blob h).
Qed.
(** The range probe is transparent: for a v4 blob, loading the envelope
    from its first 128 KiB, with the whole blob as a fallback when the header
    announces more, gives exactly what decoding the whole blob gives. *)
Theorem envelope_probe_transparent (blob : bytes) :
  bytes_ok blob -> detect_version blob = Ok V4 ->
  load_commit_envelope_by_id blob = read_commit_envelope blob.
Proof.
  intros Hok Hv. apply load_from_probe_spec; [done..|].
  apply (Z2Nat.inj_le 32 ENVELOPE_PROBE_LEN); done.
Qed.
End probe.

(** ** Properties *)

(** C1: Commit round trip: reading a blob that [write_commit] produced from a
    well-formed commit, compressed or not, signed or not, returns the commit
    itself: every flake in order with its graph, language and list index, the
    parents, deltas and metadata; its id is the content id of the blob and its
    signature, if any, is over the hash of the bytes before the signature
    block. *)
Theorem commit_roundtrip `{VL : ValueLib, CL : CidLib, CLL : !CidLaws, ML : CommitLib,
    MLL : !CommitLaws, LV : !LegacyV3} (c : Commit) (compress : bool)
    (signing : option (SigningKey * str)) (blob : bytes) :
  commit_wf c -> ops_fit c -> write_commit c compress signing = Ok blob -> zlen blob < 2 ^ 32 ->
  read_commit blob = Ok (read_back c signing blob).
Proof.
  intros Hwf Hfit Hw Hs. destruct (write_commit_written _ _ _ _ Hwf Hw Hs) as (h & x & raw & W).
  by eapply read_written.
Qed.

(** C23: The two decoders agree: loading the same blob for replay succeeds and
    iterating its raw ops yields, op by op, the fields of the commit's flakes,
    under the same transaction number and envelope. *)
Theorem raw_ops_agree `{VL : ValueLib, CL : CidLib, CLL : !CidLaws, ML : CommitLib,
    MLL : !CommitLaws, LV : !LegacyV3} (c : Commit) (compress : bool)
    (signing : option (SigningKey * str)) (blob : bytes) :
  commit_wf c -> ops_fit c -> write_commit c compress signing = Ok blob -> zlen blob < 2 ^ 32 ->
  exists ops, load_commit_ops blob = Ok ops /\ ops_t ops = commit_t c /\
    ops_envelope ops = from_commit c /\ collect_ops ops = Ok (raw_op_of <$> flakes c).
Proof.
  intros Hwf Hfit Hw Hs. destruct (write_commit_written _ _ _ _ Hwf Hw Hs) as (h & x & raw & W).
  by eapply load_written.
Qed.

(** Writing fails on no well-formed commit (without compression, signed
    or not), and fails with [TOutOfRange] on every transaction number that the
    header cannot hold. *)
Theorem write_commit_success `{VL : ValueLib, CL : CidLib, CLL : !CidLaws, ML : CommitLib,
    MLL : !CommitLaws} (c : Commit) (signing : option (SigningKey * str)) :
  (commit_wf c -> exists blob, write_commit c false signing = Ok blob) /\
  (forall compress, commit_t c < 0 \/ u32_max < commit_t c ->
    write_commit c compress signing = Err (TOutOfRange (commit_t c))).
Proof.
  split; [apply write_commit_total|]. intros compress Ht. unfold write_commit.
  assert ((commit_t c <? 0) || (u32_max <? commit_t c) = true) as ->; [|done].
  destruct Ht as [Ht|Ht]; [by rewrite (proj2 (Z.ltb_lt _ _) Ht)|].
  by rewrite (proj2 (Z.ltb_lt _ _) Ht), orb_true_r.
Qed.

(** ** Witnesses *)

#[export] Instance PlainCommitLib : CommitLib := {|
  SigningKey := unit;
  signer_did _ := [100; 105; 100];
  sign_commit_digest _ _ _ := replicate 64 7;
  sha256 bs := bs;
  zstd_encode bs := Some bs;
  zstd_decode bs := Some bs;
|}.

#[export] Instance PlainCommitLaws : CommitLaws.
Proof. split; done. Qed.

#[export] Instance NoLegacy : LegacyV3 := {|
  read_commit_v3 _ := Err (UnsupportedVersion 3);
  read_commit_envelope_v3 _ := Err (UnsupportedVersion 3);
  load_commit_ops_v3 _ := Err (UnsupportedVersion 3);
  verify_commit_v3 _ := Err (UnsupportedVersion 3);
|}.

Definition sample_commit : Commit :=
  mkCommit PlainLib PlainCid None 3 (Some [50; 48]) [op_sample; op_sample] [Ascii.one]
    None {[ 7 := [101; 120] ]} None [] [mkTxnMeta 3 [110] (MLong (-5))] ∅ None.

Definition sample_signing : option (@SigningKey PlainCommitLib * str) := Some (tt, [108]).

Definition sample_blob : bytes :=
  match write_commit sample_commit false sample_signing with Ok b => b | _ => [] end.

Lemma sample_commit_wf : commit_wf sample_commit.
Proof.
  split; [by vm_compute| | |by vm_compute].
  - split; cbn [from_commit env_parents env_namespace_delta env_time env_txn_signature
      env_txn_meta env_graph_delta env_ns_split_mode sample_commit parents namespace_delta time
      txn_signature txn_meta graph_delta ns_split_mode].
    + by vm_compute.
    + apply map_Forall_singleton. split; by vm_compute.
    + done.
    + done.
    + apply Forall_singleton. split; [by vm_compute|]. split; by vm_compute.
    + by vm_compute.
    + apply map_Forall_empty.
    + by vm_compute.
    + apply map_Forall_empty.
    + done.
  - apply Forall_cons. split; [|apply Forall_singleton]; repeat split; try (vm_compute; done);
      by left.
Qed.

Lemma sample_ops_fit : ops_fit sample_commit.
Proof.
  intros d ops E.
  assert (match encode_ops (flakes sample_commit) dicts_new [] with
          | Ok (_, ops) => zlen ops <=? isize_max | _ => false end = true) as H by by vm_compute.
  rewrite E in H. by apply Z.leb_le.
Qed.

Lemma sample_written : write_commit sample_commit false sample_signing = Ok sample_blob.
Proof.
  unfold sample_blob.
  destruct (write_commit_total sample_commit sample_signing sample_commit_wf) as [b ->]. done.
Qed.

Lemma commit_roundtrip_witness :
  read_commit sample_blob = Ok (read_back sample_commit sample_signing sample_blob).
Proof.
  apply (commit_roundtrip sample_commit false sample_signing sample_blob);
    [apply sample_commit_wf|apply sample_ops_fit|apply sample_written|by vm_compute].
Defined.

Lemma raw_ops_agree_witness :
  exists ops, load_commit_ops sample_blob = Ok ops /\ ops_t ops = 3 /\
    ops_envelope ops = from_commit sample_commit /\
    collect_ops ops = Ok (raw_op_of <$> flakes sample_commit).
Proof.
  apply (raw_ops_agree sample_commit false sample_signing sample_blob);
    [apply sample_commit_wf|apply sample_ops_fit|apply sample_written|by vm_compute].
Defined.

Lemma write_commit_success_witness :
  (exists blob, write_commit sample_commit false None = Ok blob) /\
  err_of (write_commit (mkCommit PlainLib PlainCid None (-1) None [] [] None ∅ None [] [] ∅ None)
            true None) = Some (TOutOfRange (-1)).
Proof.
  split; [apply (write_commit_success sample_commit None), sample_commit_wf|].
  rewrite (proj2 (write_commit_success
    (mkCommit PlainLib PlainCid None (-1) None [] [] None ∅ None [] [] ∅ None) None) true);
    [reflexivity|left; reflexivity].
Defined.

Lemma envelope_probe_transparent_witness :
  load_commit_envelope_by_id sample_blob = read_commit_envelope sample_blob.
Proof.
  apply (envelope_probe_transparent sample_blob).
  - assert (forallb (fun b => (0 <=? b) && (b <? 256)) sample_blob = true) as H by by vm_compute.
    apply Forall_forall. intros b Hb. apply list_elem_of_In in Hb.
    apply (proj1 (forallb_forall _ _) H) in Hb. unfold byte_ok. apply andb_true_iff in Hb.
    rewrite Z.leb_le, Z.ltb_lt in Hb. done.
  - by vm_compute.
Defined.

(** A header whose signature block covers the footer: the subtraction of the
    footer length underflows and the slice of the blob panics. *)
Definition underflow_blob : bytes :=
  header_bytes (mkHeader VERSION FLAG_HAS_COMMIT_SIG 1 0 4 60) ++ [4; 0; 0; 0] ++ replicate 60 0.

Lemma footer_underflow_panic : is_panic (load_commit_ops underflow_blob) = true.
Proof. vm_compute. reflexivity. Qed.
