(* ===== verification/CommitDag.v ===== *)
(** * Commit histories

    Models the walks over the commit DAG of [fluree-db-core/src/commit.rs]:
    loading a commit or its envelope from a content store, collecting the
    commits after a point in time, streaming them, probing for a graph's
    registration, the common ancestor of two heads, and commit summaries.  The
    content store is its [get], blobs by content id; [get_range] serves the same
    blobs.  A hash set of visited ids is a list with decidable membership; the
    frontier of a walk is a stack whose top is the head of the list, the
    frontiers of the ancestor search keep the vector's order, which decides
    ties.  The loops take fuel: [None] is a loop that has not ended. *)

From stdpp Require Import base list numbers gmap sorting.
From Stdlib Require Import ZArith Lia.
From S2P Require Import Prelude Bytes Vocab Value Flake CommitFormat Envelope CommitCodec.

Local Open Scope Z_scope.

Section dag.
Context `{VL : ValueLib, CL : CidLib, ML : CommitLib, LV : !LegacyV3}.
Context {SE : Type}.
Variable get : ContentId -> outcome SE bytes.

(** ** Loading *)

(** [Error::storage] and [Error::invalid_commit]; the last one is the message
    of a failed ancestor search. *)
Inductive LoadError :=
| Storage (e : SE)
| InvalidCommit (e : CommitCodecError)
| NoCommonAncestor.

Definition fetch (c : ContentId) : outcome LoadError (CommitEnvelope * Z) :=
  blob ← map_err Storage (get c); map_err InvalidCommit (load_commit_envelope_with_version blob).

Definition load (c : ContentId) : outcome LoadError CommitEnvelope := fst <$> fetch c.

Definition set_id (c : Commit) (id : option ContentId) : Commit :=
  mkCommit VL CL id (commit_t c) (time c) (flakes c) (parents c) (txn c) (namespace_delta c)
    (txn_signature c) (commit_signatures c) (txn_meta c) (graph_delta c) (ns_split_mode c).

Definition load_commit_by_id (c : ContentId) : outcome LoadError Commit :=
  data ← map_err Storage (get c);
  commit ← map_err InvalidCommit (read_commit data);
  Ok (set_id commit (Some c)).

(** ** Walks *)

(** [sort_by_key(Reverse(t))], a stable sort. *)
Definition later (a b : Z * ContentId) : Prop := b.1 <= a.1.
#[export] Instance later_dec : RelDecision later.
Proof. intros a b. unfold later. apply _. Defined.

Fixpoint walk_loop (fuel : nat) (stop_at_t : Z) (capture : bool) (frontier visited : list ContentId)
    (result : list (Z * ContentId)) (split_mode : NsSplitMode) :
    option (outcome LoadError (list (Z * ContentId) * NsSplitMode)) :=
  match fuel with
  | O => None
  | S fuel =>
      match frontier with
      | [] => Some (Ok (result, split_mode))
      | cid :: frontier =>
          if bool_decide (cid ∈ visited)
          then walk_loop fuel stop_at_t capture frontier visited result split_mode else
          match load cid with
          | Err e => Some (Err e)
          | Panic => Some Panic
          | Ok envelope =>
              if ce_t envelope <=? stop_at_t
              then walk_loop fuel stop_at_t capture frontier (cid :: visited) result split_mode
              else
                walk_loop fuel stop_at_t capture (reverse (ce_parents envelope) ++ frontier) (cid :: visited)
                  (result ++ [(ce_t envelope, cid)])
                  (if capture then default split_mode (ce_ns_split_mode envelope) else split_mode)
          end
      end
  end.

Definition sort_walk (r : outcome LoadError (list (Z * ContentId) * NsSplitMode)) :
    outcome LoadError (list (Z * ContentId) * NsSplitMode) :=
  '(result, split_mode) ← r; Ok (merge_sort later result, split_mode).

Definition walk_dag (fuel : nat) (head_id : ContentId) (stop_at_t : Z) (capture : bool) :
    option (outcome LoadError (list (Z * ContentId) * NsSplitMode)) :=
  option_map sort_walk (walk_loop fuel stop_at_t capture [head_id] [] [] MostGranular).

Definition collect_dag_cids (fuel : nat) (head_id : ContentId) (stop_at_t : Z) :
    option (outcome LoadError (list (Z * ContentId))) :=
  option_map (outcome_fmap _ _ fst) (walk_dag fuel head_id stop_at_t false).

Definition collect_dag_cids_with_split_mode (fuel : nat) (head_id : ContentId) (stop_at_t : Z) :
    option (outcome LoadError (list (Z * ContentId) * NsSplitMode)) :=
  walk_dag fuel head_id stop_at_t true.

(** The items of a stream over the collected commits: it ends after the last
    commit or after the first error. *)
Fixpoint trace_items {A} (load_item : ContentId -> outcome LoadError A) (cids : list (Z * ContentId)) :
    list (outcome LoadError A) :=
  match cids with
  | [] => []
  | (_, cid) :: cids =>
      match load_item cid with
      | Ok a => Ok a :: trace_items load_item cids
      | Err e => [Err e]
      | Panic => [Panic]
      end
  end.

Definition trace {A} (load_item : ContentId -> outcome LoadError A) (fuel : nat) (head_id : ContentId)
    (stop_at_t : Z) : option (list (outcome LoadError A)) :=
  option_map (fun r => match r with
    | Ok cids => trace_items load_item cids
    | Err e => [Err e]
    | Panic => [Panic]
    end) (collect_dag_cids fuel head_id stop_at_t).

Definition trace_commit_envelopes_by_id (fuel : nat) (head_id : ContentId) (stop_at_t : Z) :
    option (list (outcome LoadError (ContentId * CommitEnvelope))) :=
  trace (fun cid => env ← load cid; Ok (cid, env)) fuel head_id stop_at_t.

Definition trace_commits_by_id (fuel : nat) (head_id : ContentId) (stop_at_t : Z) :
    option (list (outcome LoadError Commit)) :=
  trace load_commit_by_id fuel head_id stop_at_t.

(** [first_t_where_graph_registered]. *)
Inductive GraphRegistrationProbe := Found (t : Z) | NotFound | Inconclusive.

Definition registers (graph_iri : str) (envelope : CommitEnvelope) : bool :=
  existsb (fun iri => bool_decide (iri = graph_iri)) (map_to_list (ce_graph_delta envelope)).*2.

Definition earlier_of (earliest : option Z) (t : Z) : option Z :=
  Some (match earliest with Some e => Z.min e t | None => t end).

Fixpoint probe_loop (fuel : nat) (graph_iri : str) (frontier visited : list ContentId)
    (earliest : option Z) : option (outcome LoadError GraphRegistrationProbe) :=
  match fuel with
  | O => None
  | S fuel =>
      match frontier with
      | [] => Some (Ok (match earliest with Some t => Found t | None => NotFound end))
      | cid :: frontier =>
          if bool_decide (cid ∈ visited) then probe_loop fuel graph_iri frontier visited earliest else
          match fetch cid with
          | Err e => Some (Err e)
          | Panic => Some Panic
          | Ok (envelope, version) =>
              if negb (version =? VERSION) then Some (Ok Inconclusive) else
              probe_loop fuel graph_iri (reverse (ce_parents envelope) ++ frontier) (cid :: visited)
                (if registers graph_iri envelope then earlier_of earliest (ce_t envelope) else earliest)
          end
      end
  end.

Definition first_t_where_graph_registered (fuel : nat) (head_id : ContentId) (graph_iri : str) :
    option (outcome LoadError GraphRegistrationProbe) :=
  probe_loop fuel graph_iri [head_id] [] None.

(** ** Common ancestors *)

Record CommonAncestor := mkCommonAncestor { ca_commit_id : ContentId; ca_t : Z }.

(** [frontier.iter().map(|(t, _)| *t).max()]. *)
Definition max_t (frontier : list (Z * ContentId)) : option Z :=
  match frontier with
  | [] => None
  | (t, _) :: rest => Some (fold_left (fun m x => Z.max m x.1) rest t)
  end.

(** [max_by_key(|(_, (t, _))| *t)]: the last index with the largest [t]. *)
Fixpoint max_index_from (i best : nat) (best_t : Z) (l : list (Z * ContentId)) : nat :=
  match l with
  | [] => best
  | (t, _) :: l =>
      if best_t <=? t then max_index_from (S i) i t l else max_index_from (S i) best best_t l
  end.

Definition max_index (l : list (Z * ContentId)) : nat :=
  match l with [] => 0%nat | (t, _) :: l => max_index_from 1 0 t l end.

(** [Vec::swap_remove]: the last element takes the place of the removed one. *)
Definition swap_remove (l : list (Z * ContentId)) (i : nat) :
    option ((Z * ContentId) * list (Z * ContentId)) :=
  match l !! i, last l with
  | Some x, Some y => Some (x, take (length l - 1) (<[i := y]> l))
  | _, _ => None
  end.

Fixpoint visit_parents (parents : list ContentId) (frontier : list (Z * ContentId))
    (visited other_visited : list ContentId) :
    outcome LoadError (option CommonAncestor * list (Z * ContentId) * list ContentId) :=
  match parents with
  | [] => Ok (None, frontier, visited)
  | parent_id :: parents =>
      if bool_decide (parent_id ∈ visited)
      then visit_parents parents frontier visited other_visited else
      let visited := parent_id :: visited in
      parent_env ← load parent_id;
      if bool_decide (parent_id ∈ other_visited)
      then Ok (Some (mkCommonAncestor parent_id (ce_t parent_env)), frontier, visited)
      else visit_parents parents (frontier ++ [(ce_t parent_env, parent_id)]) visited other_visited
  end.

Definition advance_frontier (frontier : list (Z * ContentId)) (visited other_visited : list ContentId) :
    outcome LoadError (option CommonAncestor * list (Z * ContentId) * list ContentId) :=
  match swap_remove frontier (max_index frontier) with
  | None => Ok (None, frontier, visited)
  | Some ((_, cid), frontier) =>
      envelope ← load cid;
      visit_parents (ce_parents envelope) frontier visited other_visited
  end.

Fixpoint ancestor_loop (fuel : nat) (fa : list (Z * ContentId)) (va : list ContentId)
    (fb : list (Z * ContentId)) (vb : list ContentId) : option (outcome LoadError CommonAncestor) :=
  match fuel with
  | O => None
  | S fuel =>
      let advance_a :=
        match advance_frontier fa va vb with
        | Ok (Some ancestor, _, _) => Some (Ok ancestor)
        | Ok (None, fa, va) => ancestor_loop fuel fa va fb vb
        | Err e => Some (Err e)
        | Panic => Some Panic
        end in
      let advance_b :=
        match advance_frontier fb vb va with
        | Ok (Some ancestor, _, _) => Some (Ok ancestor)
        | Ok (None, fb, vb) => ancestor_loop fuel fa va fb vb
        | Err e => Some (Err e)
        | Panic => Some Panic
        end in
      match max_t fa, max_t fb with
      | None, None => Some (Err NoCommonAncestor)
      | Some ta, Some tb => if tb <=? ta then advance_a else advance_b
      | _, _ => advance_b
      end
  end.

Definition find_common_ancestor (fuel : nat) (head_a head_b : ContentId) :
    option (outcome LoadError CommonAncestor) :=
  if bool_decide (head_a = head_b) then
    Some (env ← load head_a; Ok (mkCommonAncestor head_a (ce_t env)))
  else
    match env_a ← load head_a; env_b ← load head_b; Ok (env_a, env_b) with
    | Err e => Some (Err e)
    | Panic => Some Panic
    | Ok (env_a, env_b) =>
        let visited_a := [head_a] in
        let visited_b := [head_b] in
        if bool_decide (head_b ∈ visited_a) then Some (Ok (mkCommonAncestor head_b (ce_t env_b))) else
        if bool_decide (head_a ∈ visited_b) then Some (Ok (mkCommonAncestor head_a (ce_t env_a))) else
        ancestor_loop fuel [(ce_t env_a, head_a)] visited_a [(ce_t env_b, head_b)] visited_b
    end.

(** ** Summaries *)

Record CommitSummary := mkCommitSummary {
  cs_t : Z;
  cs_commit_id : ContentId;
  cs_time : option str;
  cs_asserts : Z;
  cs_retracts : Z;
  cs_flake_count : Z;
  cs_message : option str;
}.

(** The literal [message] of a predicate's local name. *)
Definition message_name : str := [109; 101; 115; 115; 97; 103; 101].

Definition message_of (entry : TxnMetaEntry) : option str :=
  if (predicate_ns entry =? FLUREE_DB) && bool_decide (predicate_name entry = message_name) then
    match meta_value entry with MString s => Some s | _ => None end
  else None.

Fixpoint find_message (entries : list TxnMetaEntry) : option str :=
  match entries with
  | [] => None
  | entry :: entries =>
      match message_of entry with Some s => Some s | None => find_message entries end
  end.

Definition count_ops (fs : list Flake) : Z * Z :=
  fold_left (fun '(asserts, retracts) (f : Flake) => if f_op f then (asserts + 1, retracts) else (asserts, retracts + 1))
    fs (0, 0).

Definition commit_to_summary (commit : Commit) : outcome LoadError CommitSummary :=
  match id commit with
  | None => Panic
  | Some commit_id =>
      let '(asserts, retracts) := count_ops (flakes commit) in
      Ok (mkCommitSummary (commit_t commit) commit_id (time commit) asserts retracts
            (zlen (flakes commit)) (find_message (txn_meta commit)))
  end.

Fixpoint summarise (cids : list (Z * ContentId)) : outcome LoadError (list CommitSummary) :=
  match cids with
  | [] => Ok []
  | (_, cid) :: cids =>
      commit ← load_commit_by_id cid;
      summary ← commit_to_summary commit;
      summaries ← summarise cids;
      Ok (summary :: summaries)
  end.

Definition walk_commit_summaries (fuel : nat) (head : ContentId) (stop_at_t : Z) (max : option nat) :
    option (outcome LoadError (list CommitSummary * nat)) :=
  option_map (fun r =>
    dag ← r;
    let total := length dag in
    let take_n := match max with Some cap => Nat.min cap total | None => total end in
    summaries ← summarise (take take_n dag);
    Ok (summaries, total)) (collect_dag_cids fuel head stop_at_t).
End dag.
