(* ===== verification/CommitDagWalk.v ===== *)
(** * What the history walks visit

    A walk's order is the order in which a depth-first search with a stack and
    a visited set first meets its nodes ([order]).  The order exists on every
    finite history, has no repeats and meets exactly what the head reaches; the
    loops of [CommitDag] are folds over it, which gives the contents of
    [collect_dag_cids], of the streams built on it, of the graph probe and of
    the commit summaries. *)

From stdpp Require Import base list numbers gmap sorting relations.
From Stdlib Require Import ZArith Lia.
From S2P Require Import Prelude Bytes Value Flake CommitFormat Envelope CommitCodec CommitDag.

Local Open Scope Z_scope.

(** ** Depth-first order *)
Section order.
Context {A : Type} `{EqDecision A} (next : A -> list A).

Fixpoint order (fuel : nat) (frontier visited : list A) : option (list A) :=
  match fuel with
  | O => None
  | S fuel =>
      match frontier with
      | [] => Some []
      | c :: frontier =>
          if bool_decide (c ∈ visited) then order fuel frontier visited
          else option_map (cons c) (order fuel (next c ++ frontier) (c :: visited))
      end
  end.

Definition edge (c p : A) : Prop := p ∈ next c.

(** The entries the stack can still hold: those on it and those of the nodes
    not visited yet. *)
Fixpoint pending (nodes visited : list A) : nat :=
  match nodes with
  | [] => 0
  | c :: nodes => (if bool_decide (c ∈ visited) then 0 else length (next c)) + pending nodes visited
  end.

Lemma pending_le nodes visited c : (pending nodes (c :: visited) <= pending nodes visited)%nat.
Proof.
  induction nodes as [|n nodes IH]; simpl; [lia|]. repeat case_bool_decide; set_solver by lia.
Qed.

Lemma pending_visit nodes visited c :
  c ∈ nodes -> c ∉ visited ->
  (length (next c) + pending nodes (c :: visited) <= pending nodes visited)%nat.
Proof.
  intros Hc Hv. induction nodes as [|n nodes IH]; [set_solver|].
  apply elem_of_cons in Hc as [->|Hc]; simpl.
  - rewrite bool_decide_true, bool_decide_false by set_solver.
    pose proof (pending_le nodes visited n). lia.
  - specialize (IH Hc). destruct (decide (n = c)) as [->|Hn].
    + rewrite bool_decide_true, bool_decide_false by set_solver. lia.
    + repeat case_bool_decide; set_solver by lia.
Qed.

Lemma order_total nodes fuel frontier visited :
  (forall c, c ∈ nodes -> next c ⊆ nodes) -> frontier ⊆ nodes ->
  (length frontier + pending nodes visited < fuel)%nat ->
  exists vs, order fuel frontier visited = Some vs.
Proof.
  intros Hclosed. revert frontier visited.
  induction fuel as [|fuel IH]; intros [|c f] v Hf Hm; simpl in *; try lia; [by eexists|].
  case_bool_decide as Hc.
  - apply IH; [set_solver|lia].
  - destruct (IH (next c ++ f) (c :: v)) as [vs ->]; [|rewrite length_app|by eexists].
    + specialize (Hclosed c). set_solver.
    + pose proof (pending_visit nodes v c ltac:(set_solver) Hc). lia.
Qed.

Lemma order_fresh fuel frontier visited vs :
  order fuel frontier visited = Some vs -> NoDup vs /\ forall c, c ∈ vs -> c ∉ visited.
Proof.
  revert frontier visited vs. induction fuel as [|fuel IH]; intros [|c f] v vs H; simplify_eq/=.
  { split; [constructor|set_solver]. }
  case_bool_decide as Hc; [by apply IH in H|].
  destruct (order fuel _ _) as [ws|] eqn:E; simplify_eq/=. apply IH in E as [Hnd Hw].
  split; [constructor; [set_solver|done]|set_solver].
Qed.

Lemma order_sound fuel frontier visited vs c :
  order fuel frontier visited = Some vs -> c ∈ vs -> exists r, r ∈ frontier /\ rtc edge r c.
Proof.
  revert frontier visited vs. induction fuel as [|fuel IH]; intros [|d f] v vs H Hc; simplify_eq/=.
  { set_solver. }
  case_bool_decide as Hd.
  { destruct (IH _ _ _ H Hc) as (r & ? & ?). exists r. set_solver. }
  destruct (order fuel _ _) as [ws|] eqn:E; simplify_eq/=.
  apply elem_of_cons in Hc as [->|Hc]; [exists d; split; [set_solver|constructor]|].
  destruct (IH _ _ _ E Hc) as (r & Hr & Hrc). apply elem_of_app in Hr as [Hr|Hr].
  - exists d. split; [set_solver|]. by eapply rtc_l.
  - exists r. split; [set_solver|done].
Qed.

Lemma order_closed fuel frontier visited vs :
  order fuel frontier visited = Some vs ->
  (forall c p, c ∈ visited -> edge c p -> p ∈ visited \/ p ∈ frontier) ->
  (forall c, c ∈ frontier -> c ∈ visited \/ c ∈ vs) /\
  (forall c p, c ∈ visited \/ c ∈ vs -> edge c p -> p ∈ visited \/ p ∈ vs).
Proof.
  revert frontier visited vs. induction fuel as [|fuel IH]; intros [|d f] v vs H Hcl; simplify_eq/=.
  { set_solver. }
  case_bool_decide as Hd.
  { destruct (IH _ _ _ H) as [H1 H2]; [|set_solver].
    intros c p Hc Hp. destruct (Hcl c p Hc Hp) as [|Hf]; [by left|].
    apply elem_of_cons in Hf as [->|]; auto. }
  destruct (order fuel _ _) as [ws|] eqn:E; simplify_eq/=.
  destruct (IH _ _ _ E) as [H1 H2].
  { intros c p Hc Hp. apply elem_of_cons in Hc as [->|Hc]; [right; apply elem_of_app; by left|].
    specialize (Hcl c p Hc Hp). set_solver. }
  split; [intros c Hc; specialize (H1 c); set_solver|].
  intros c p Hc Hp. specialize (H2 c p). set_solver.
Qed.

(** The order from one node lists exactly what the node reaches. *)
Lemma order_reaches fuel h vs :
  order fuel [h] [] = Some vs -> forall c, c ∈ vs <-> rtc edge h c.
Proof.
  intros Ho c. split.
  - intros Hc. destruct (order_sound _ _ _ _ _ Ho Hc) as (r & Hr & ?). by apply list_elem_of_singleton in Hr as ->.
  - destruct (order_closed _ _ _ _ Ho) as [H1 H2]; [set_solver|].
    assert (h ∈ vs) as Hh by (specialize (H1 h); set_solver). clear Ho H1. intros Hrc.
    induction Hrc as [|x y z Hxy _ IH]; [done|]. apply IH. specialize (H2 x y). set_solver.
Qed.
End order.

(** ** Histories *)
Section history.
Context `{VL : ValueLib, CL : CidLib, ML : CommitLib, LV : !LegacyV3} {SE : Type}.
Variable get : ContentId -> outcome SE bytes.
Variable info : ContentId -> CommitEnvelope * Z.

Definition env (c : ContentId) : CommitEnvelope := (info c).1.
Definition t_of (c : ContentId) : Z := ce_t (env c).
Definition is_parent (c p : ContentId) : Prop := p ∈ ce_parents (env c).

(** [a] is [c] or an ancestor of it. *)
Definition ancestor (c a : ContentId) : Prop := rtc is_parent c a.

(** A finite set of commits that all load and whose parents are in it; a
    commit's time is after its parents'. *)
Record history (nodes : list ContentId) : Prop := {
  h_loads c : c ∈ nodes -> fetch get c = Ok (info c);
  h_closed c p : c ∈ nodes -> is_parent c p -> p ∈ nodes;
}.

Definition timed (nodes : list ContentId) : Prop :=
  forall c p, c ∈ nodes -> is_parent c p -> t_of p < t_of c.

(** Enough loop iterations for a walk: the head, every parent link, the end. *)
Definition walk_budget (nodes : list ContentId) : nat :=
  2 + sum_list (map (fun c => length (ce_parents (env c))) nodes).

Lemma load_info nodes c : history nodes -> c ∈ nodes -> load get c = Ok (env c).
Proof. intros H Hc. unfold load. by rewrite (h_loads _ H c Hc). Qed.

Lemma ancestor_in nodes c a : history nodes -> c ∈ nodes -> ancestor c a -> a ∈ nodes.
Proof. intros H Hc Ha. induction Ha as [|x y z Hxy _ IH]; [done|]. by eapply IH, h_closed. Qed.

Lemma ancestor_le nodes c a :
  history nodes -> timed nodes -> c ∈ nodes -> ancestor c a -> t_of a <= t_of c.
Proof.
  intros H Ht Hc Ha. induction Ha as [|x y z Hxy _ IH]; [lia|].
  specialize (Ht _ _ Hc Hxy). specialize (IH (h_closed _ H _ _ Hc Hxy)). lia.
Qed.

Lemma ancestor_lt nodes c a :
  history nodes -> timed nodes -> c ∈ nodes -> ancestor c a -> a <> c -> t_of a < t_of c.
Proof.
  intros H Ht Hc Ha Hne. destruct Ha as [|x y z Hxy Ha]; [done|].
  pose proof (Ht _ _ Hc Hxy). pose proof (ancestor_le _ _ _ H Ht (h_closed _ H _ _ Hc Hxy) Ha). lia.
Qed.

(** ** The walk *)

Definition next_after (stop_at_t : Z) (c : ContentId) : list ContentId :=
  if t_of c <=? stop_at_t then [] else reverse (ce_parents (env c)).

Definition collected (stop_at_t : Z) (vs : list ContentId) : list (Z * ContentId) :=
  (fun c => (t_of c, c)) <$> filter (fun c => stop_at_t < t_of c) vs.

Definition mode_step (m : NsSplitMode) (c : ContentId) : NsSplitMode :=
  default m (ce_ns_split_mode (env c)).

Definition captured (stop_at_t : Z) (capture : bool) (vs : list ContentId) (m : NsSplitMode) : NsSplitMode :=
  if capture then fold_left mode_step (filter (fun c => stop_at_t < t_of c) vs) m else m.

Lemma walk_loop_order nodes fuel stop_at_t capture frontier visited vs result m :
  history nodes -> order (next_after stop_at_t) fuel frontier visited = Some vs -> vs ⊆ nodes ->
  walk_loop get fuel stop_at_t capture frontier visited result m =
    Some (Ok (result ++ collected stop_at_t vs, captured stop_at_t capture vs m)).
Proof.
  intros Hh. revert frontier visited vs result m.
  induction fuel as [|fuel IH]; intros [|c f] v vs result m Ho Hvs; simplify_eq/=.
  { unfold collected, captured. simpl. rewrite app_nil_r. by destruct capture. }
  case_bool_decide as Hc; [by apply IH|].
  destruct (order _ fuel _ _) as [ws|] eqn:E; simplify_eq/=.
  rewrite (load_info nodes c Hh) by set_solver. fold (t_of c).
  unfold next_after in E. unfold collected, captured. rewrite filter_cons.
  destruct (Z.leb_spec (t_of c) stop_at_t) as [Hle|Hlt].
  - rewrite decide_False by lia. by apply IH; [|set_solver].
  - rewrite decide_True by lia. erewrite IH; [|exact E|set_solver].
    rewrite <- app_assoc. destruct capture; done.
Qed.

Lemma pending_after stop_at_t nodes :
  (pending (next_after stop_at_t) nodes [] <= sum_list (map (fun c => length (ce_parents (env c))) nodes))%nat.
Proof.
  induction nodes as [|c nodes IH]; simpl; [lia|]. unfold next_after at 1.
  case_match; rewrite ?length_reverse; simpl; lia.
Qed.

Lemma edge_after stop_at_t c p :
  edge (next_after stop_at_t) c p <-> stop_at_t < t_of c /\ is_parent c p.
Proof.
  unfold edge, next_after, is_parent. destruct (Z.leb_spec (t_of c) stop_at_t).
  - split; [set_solver|lia].
  - rewrite elem_of_reverse. naive_solver lia.
Qed.

Lemma edge_after_ancestor stop_at_t h c : rtc (edge (next_after stop_at_t)) h c -> ancestor h c.
Proof.
  induction 1 as [|x y z [_ Hxy]%edge_after _ IH]; [constructor|]. by eapply rtc_l.
Qed.

Lemma rtc_edge_after nodes stop_at_t h c :
  history nodes -> timed nodes -> h ∈ nodes -> stop_at_t < t_of c ->
  rtc (edge (next_after stop_at_t)) h c <-> ancestor h c.
Proof.
  intros Hh Ht Hn Hlt. split; intros Hr.
  - by eapply edge_after_ancestor.
  - induction Hr as [|x y z Hxy Hyz IH]; [constructor|].
    pose proof (h_closed _ Hh _ _ Hn Hxy) as Hy.
    pose proof (ancestor_le _ _ _ Hh Ht Hy Hyz). pose proof (Ht _ _ Hn Hxy).
    eapply rtc_l; [apply edge_after; split; [lia|done]|by apply IH].
Qed.

Lemma order_after nodes stop_at_t fuel h :
  history nodes -> h ∈ nodes -> (walk_budget nodes <= fuel)%nat ->
  exists vs, order (next_after stop_at_t) fuel [h] [] = Some vs /\ vs ⊆ nodes.
Proof.
  intros Hh Hn Hf. destruct (order_total (next_after stop_at_t) nodes fuel [h] []) as [vs Hvs].
  - intros c Hc p Hp. apply edge_after in Hp as [_ Hp]. by eapply h_closed.
  - set_solver.
  - pose proof (pending_after stop_at_t nodes). unfold walk_budget in Hf. simpl in *. lia.
  - exists vs. split; [done|]. intros c Hc. apply (order_reaches _ _ _ _ Hvs) in Hc.
    eapply ancestor_in; [done|exact Hn|]. by eapply edge_after_ancestor.
Qed.

(** ** Properties of the walk *)

Lemma later_trans : Transitive (later (CL := CL)).
Proof. intros [] [] []. unfold later. simpl. lia. Qed.

Lemma later_total : Total (later (CL := CL)).
Proof. intros [] []. unfold later. simpl. lia. Qed.

Lemma collected_snd stop_at_t vs : (collected stop_at_t vs).*2 = filter (fun c => stop_at_t < t_of c) vs.
Proof. unfold collected. rewrite <- list_fmap_compose. apply list_fmap_id. Qed.

Lemma collected_sorted stop_at_t vs :
  (merge_sort later (collected stop_at_t vs)).*2 ≡ₚ filter (fun c => stop_at_t < t_of c) vs.
Proof. rewrite <- collected_snd. apply fmap_Permutation, merge_sort_Permutation. Qed.

Lemma elem_of_collected stop_at_t vs t c :
  (t, c) ∈ collected stop_at_t vs <-> t = t_of c /\ stop_at_t < t /\ c ∈ vs.
Proof.
  unfold collected. rewrite list_elem_of_fmap. setoid_rewrite list_elem_of_filter. naive_solver.
Qed.

Lemma walk_dag_spec nodes fuel h stop_at_t capture :
  history nodes -> timed nodes -> h ∈ nodes -> (walk_budget nodes <= fuel)%nat ->
  exists vs, walk_dag get fuel h stop_at_t capture =
      Some (Ok (merge_sort later (collected stop_at_t vs), captured stop_at_t capture vs MostGranular)) /\
    NoDup vs /\ (forall c, stop_at_t < t_of c -> c ∈ vs <-> ancestor h c) /\ vs ⊆ nodes.
Proof.
  intros Hh Ht Hn Hf. destruct (order_after nodes stop_at_t fuel h) as (vs & Hvs & Hsub); [done..|].
  exists vs. split_and!; [|by eapply order_fresh| |done].
  - unfold walk_dag. by erewrite walk_loop_order.
  - intros c Hc. rewrite (order_reaches _ _ _ _ Hvs). by eapply rtc_edge_after.
Qed.

Lemma mode_step_agree l m0 m :
  (forall c m1, c ∈ l -> ce_ns_split_mode (env c) = Some m1 -> m1 = m0) ->
  m = m0 \/ (exists c, c ∈ l /\ ce_ns_split_mode (env c) = Some m0) ->
  fold_left mode_step l m = m0.
Proof.
  revert m. induction l as [|c l IH]; intros m Hall [->|(d & Hd & Em)]; simpl; [done|set_solver| |].
  - apply IH; [set_solver|]. left. unfold mode_step.
    destruct (ce_ns_split_mode (env c)) as [m1|] eqn:E; [|done]. by apply (Hall c); [set_solver|].
  - apply IH; [set_solver|]. apply elem_of_cons in Hd as [->|Hd]; [|right; by exists d].
    left. unfold mode_step. by rewrite Em.
Qed.

(** C38: A walk ends, with fuel for every parent link of the history, and
    collects exactly the commits after [stop_at_t] among the head and its
    ancestors: each once, with its time, latest first, through merges and shared
    ancestors.  The split mode captured is the one these commits record, when
    they record one and agree. *)
Theorem walk_dag_exact nodes fuel h stop_at_t capture :
  history nodes -> timed nodes -> h ∈ nodes -> (walk_budget nodes <= fuel)%nat ->
  exists out m, walk_dag get fuel h stop_at_t capture = Some (Ok (out, m)) /\
    NoDup out.*2 /\ StronglySorted later out /\
    (forall t c, (t, c) ∈ out <-> t = t_of c /\ stop_at_t < t /\ ancestor h c) /\
    (forall m0, capture = true ->
       (forall c m1, ancestor h c -> stop_at_t < t_of c -> ce_ns_split_mode (env c) = Some m1 -> m1 = m0) ->
       (exists c, ancestor h c /\ stop_at_t < t_of c /\ ce_ns_split_mode (env c) = Some m0) -> m = m0).
Proof.
  intros Hh Ht Hn Hf.
  destruct (walk_dag_spec nodes fuel h stop_at_t capture) as (vs & -> & Hnd & Hvs & _); [done..|].
  pose proof (merge_sort_Permutation later (collected stop_at_t vs)) as Hp.
  eexists _, _. split_and!; [done| | | |].
  - rewrite collected_sorted. by apply NoDup_filter.
  - pose proof later_trans. pose proof later_total. by apply StronglySorted_merge_sort.
  - intros t c. rewrite Hp, elem_of_collected. naive_solver.
  - intros m0 -> Hall (c & Hc & Hlt & Em). apply mode_step_agree.
    + intros d m1 [Hd1 Hd2]%list_elem_of_filter. by apply Hall; [apply Hvs|].
    + right. exists c. by rewrite list_elem_of_filter, Hvs.
Qed.

(** ** Streams and summaries *)

Lemma trace_items_all {A} (load_item : ContentId -> outcome LoadError A) (f : ContentId -> A)
    (cids : list (Z * ContentId)) :
  (forall c, c ∈ cids.*2 -> load_item c = Ok (f c)) -> trace_items (SE := SE) load_item cids = Ok ∘ f <$> cids.*2.
Proof.
  induction cids as [|[t c] cids IH]; intros Hl; [done|]. simpl. rewrite Hl by set_solver.
  by rewrite IH by set_solver.
Qed.

Lemma count_ops_sum (fs : list Flake) :
  let '(asserts, retracts) := count_ops fs in
  asserts = zlen (filter (fun f => f_op f = true) fs) /\ asserts + retracts = zlen fs.
Proof.
  unfold count_ops.
  assert (forall a r, let '(x, y) := fold_left (fun '(asserts, retracts) (f : Flake) =>
      if f_op f then (asserts + 1, retracts) else (asserts, retracts + 1)) fs (a, r) in
    x = a + zlen (filter (fun f => f_op f = true) fs) /\ x + y = a + r + zlen fs) as H.
  { induction fs as [|f fs IH]; intros a r; unfold zlen in *; [simpl; lia|]. simpl. rewrite filter_cons.
    destruct (f_op f); [specialize (IH (a + 1) r)|specialize (IH a (r + 1))];
      destruct (fold_left _ fs _); simpl; lia. }
  specialize (H 0 0). by destruct (fold_left _ fs _).
Qed.

Lemma collect_spec nodes fuel h stop_at_t :
  history nodes -> timed nodes -> h ∈ nodes -> (walk_budget nodes <= fuel)%nat ->
  exists out, collect_dag_cids get fuel h stop_at_t = Some (Ok out) /\ NoDup out.*2 /\
    (forall c, c ∈ out.*2 <-> stop_at_t < t_of c /\ ancestor h c) /\ out.*2 ⊆ nodes.
Proof.
  intros Hh Ht Hn Hf.
  destruct (walk_dag_spec nodes fuel h stop_at_t false) as (vs & E & Hnd & Hvs & Hsub); [done..|].
  pose proof (collected_sorted stop_at_t vs) as Hp.
  assert (forall c, c ∈ (merge_sort later (collected stop_at_t vs)).*2 <-> stop_at_t < t_of c /\ c ∈ vs) as Hin.
  { intros c. by rewrite Hp, list_elem_of_filter. }
  eexists. unfold collect_dag_cids. rewrite E. split_and!; [done| | |].
  - rewrite Hp. by apply NoDup_filter.
  - intros c. rewrite Hin. naive_solver.
  - intros c [_ Hc]%Hin. by apply Hsub.
Qed.

(** The streams yield every collected commit once, in order, without an error. *)
Lemma trace_envelopes_spec nodes fuel h stop_at_t :
  history nodes -> timed nodes -> h ∈ nodes -> (walk_budget nodes <= fuel)%nat ->
  exists out, collect_dag_cids get fuel h stop_at_t = Some (Ok out) /\
    trace_commit_envelopes_by_id get fuel h stop_at_t = Some ((fun c => Ok (c, env c)) <$> out.*2).
Proof.
  intros Hh Ht Hn Hf. destruct (collect_spec nodes fuel h stop_at_t) as (out & E & _ & _ & Hsub); [done..|].
  exists out. split; [done|]. unfold trace_commit_envelopes_by_id, trace. rewrite E. simpl. f_equal.
  apply (trace_items_all _ (fun c => (c, env c))). intros c Hc.
  by rewrite (load_info nodes) by (done || by apply Hsub).
Qed.

Lemma load_commit_id c commit : load_commit_by_id get c = Ok commit -> id commit = Some c.
Proof.
  unfold load_commit_by_id. destruct (map_err _ (get c)) as [data| |]; [|done..]. simpl.
  destruct (map_err _ (read_commit data)) as [x| |]; [|done..]. simpl. by intros [= <-].
Qed.

Definition summary_ok (s : CommitSummary) : Prop := cs_asserts s + cs_retracts s = cs_flake_count s.

Lemma commit_to_summary_spec c commit :
  id commit = Some c ->
  exists s, commit_to_summary (SE := SE) commit = Ok s /\ cs_commit_id s = c /\ cs_t s = commit_t commit /\ summary_ok s.
Proof.
  intros E. unfold commit_to_summary. rewrite E. pose proof (count_ops_sum (flakes commit)) as H.
  destruct (count_ops (flakes commit)). eexists. by split_and!; [done..|apply H].
Qed.

Lemma summarise_spec cids commit :
  (forall c, c ∈ cids.*2 -> load_commit_by_id get c = Ok (commit c)) ->
  exists ss, summarise get cids = Ok ss /\ cs_commit_id <$> ss = cids.*2 /\ Forall summary_ok ss.
Proof.
  induction cids as [|[t c] cids IH]; intros Hl; [by exists []|]. simpl. rewrite Hl by set_solver. simpl.
  destruct (commit_to_summary_spec c (commit c)) as (s & -> & Hc & _ & Hs); [by apply load_commit_id, Hl; set_solver|].
  destruct IH as (ss & -> & Hss & Hf); [set_solver|]. exists (s :: ss).
  split_and!; [done|by rewrite fmap_cons, Hc, Hss|by constructor].
Qed.

(** The summaries of a divergence: on a history whose commits all load, the
    walk counts every commit after [stop_at_t] reachable from the head, whatever
    the cap, and summarises exactly the first [max] of the collected ids, in
    their order; in each summary the assertions and the retractions add up to
    the flake count. *)
Theorem commit_summaries_capped nodes fuel h stop_at_t max commit :
  history nodes -> timed nodes -> h ∈ nodes -> (walk_budget nodes <= fuel)%nat ->
  (forall c, c ∈ nodes -> load_commit_by_id get c = Ok (commit c)) ->
  exists out ss, collect_dag_cids get fuel h stop_at_t = Some (Ok out) /\
    (forall c, c ∈ out.*2 <-> stop_at_t < t_of c /\ ancestor h c) /\ NoDup out.*2 /\
    walk_commit_summaries get fuel h stop_at_t max = Some (Ok (ss, length out)) /\
    cs_commit_id <$> ss = take (default (length out) max) out.*2 /\ Forall summary_ok ss.
Proof.
  intros Hh Ht Hn Hf Hl.
  destruct (collect_spec nodes fuel h stop_at_t) as (out & E & Hnd & Hin & Hsub); [done..|].
  set (n := match max with Some cap => Nat.min cap (length out) | None => length out end).
  destruct (summarise_spec (take n out) commit) as (ss & Hss & Hids & Hok).
  { intros c Hc. apply Hl, Hsub. rewrite fmap_take in Hc. apply elem_of_take in Hc as (i & Hi & _). by eapply list_elem_of_lookup_2. }
  exists out, ss. split_and!; [done..| | |done].
  - unfold walk_commit_summaries. rewrite E. simpl. fold n. by rewrite Hss.
  - rewrite Hids, fmap_take. unfold n. destruct max as [cap|]; [|done]. simpl.
    destruct (Nat.min_spec cap (length out)) as [[_ ->]|[? ->]]; [done|].
    rewrite !take_ge by (rewrite length_fmap; lia). done.
Qed.
(** ** The graph probe *)

Definition next_all (c : ContentId) : list ContentId := reverse (ce_parents (env c)).

Definition version_of (c : ContentId) : Z := (info c).2.

Definition registered (graph_iri : str) (c : ContentId) : Prop :=
  exists g, ce_graph_delta (env c) !! g = Some graph_iri.

Definition probe_step (graph_iri : str) (e : option Z) (c : ContentId) : option Z :=
  if registers graph_iri (env c) then earlier_of e (t_of c) else e.

Definition probe_result (e : option Z) : GraphRegistrationProbe :=
  match e with Some t => Found t | None => NotFound end.

Lemma registers_spec graph_iri c : registers graph_iri (env c) = true <-> registered graph_iri c.
Proof.
  unfold registers, registered. rewrite existsb_exists. setoid_rewrite bool_decide_eq_true. split.
  - intros (x & Hx & ->). apply list_elem_of_In, list_elem_of_fmap in Hx as ([g iri] & -> & Hg).
    exists g. by apply elem_of_map_to_list in Hg.
  - intros [g Hg]. exists graph_iri. split; [|done]. apply list_elem_of_In, list_elem_of_fmap.
    exists (g, graph_iri). by rewrite elem_of_map_to_list.
Qed.

Lemma probe_loop_order nodes fuel graph_iri frontier visited vs e :
  history nodes -> order next_all fuel frontier visited = Some vs -> vs ⊆ nodes ->
  probe_loop get fuel graph_iri frontier visited e =
    Some (Ok (if decide (Forall (fun c => version_of c = VERSION) vs)
              then probe_result (fold_left (probe_step graph_iri) vs e) else Inconclusive)).
Proof.
  intros Hh. revert frontier visited vs e.
  induction fuel as [|fuel IH]; intros [|c f] v vs e Ho Hvs; simplify_eq/=.
  { done. }
  case_bool_decide as Hc; [by apply IH|].
  destruct (order _ fuel _ _) as [ws|] eqn:E; simplify_eq/=.
  rewrite (h_loads _ Hh c) by set_solver. destruct (info c) as [envelope version] eqn:Ei.
  assert (env c = envelope) as He by (unfold env; by rewrite Ei).
  assert (version_of c = version) as Hv by (unfold version_of; by rewrite Ei).
  assert (next_all c = reverse (ce_parents envelope)) as Hx by (unfold next_all; by rewrite He).
  assert (probe_step graph_iri e c = if registers graph_iri envelope
          then earlier_of e (ce_t envelope) else e) as Hs by (unfold probe_step, t_of; by rewrite He).
  destruct (Z.eqb_spec version VERSION) as [->|Hne]; simpl.
  - rewrite Hx in E. rewrite Hs, (IH _ _ ws) by (done || set_solver). do 2 f_equal.
    repeat case_decide; rewrite ?Forall_cons in *; naive_solver.
  - case_decide; rewrite ?Forall_cons in *; naive_solver.
Qed.

(** The least time of a registering commit of [l], or of what came before. *)
Lemma probe_fold graph_iri l e :
  match fold_left (probe_step graph_iri) l e with
  | Some t => (e = Some t \/ exists c, c ∈ l /\ registered graph_iri c /\ t_of c = t) /\
      (forall t', e = Some t' -> t <= t') /\ (forall c, c ∈ l -> registered graph_iri c -> t <= t_of c)
  | None => e = None /\ forall c, c ∈ l -> ~ registered graph_iri c
  end.
Proof.
  revert e. induction l as [|c l IH]; intros e; simpl.
  { destruct e; naive_solver set_solver by lia. }
  specialize (IH (probe_step graph_iri e c)). set (r := fold_left _ l _) in *.
  unfold probe_step in IH. pose proof (registers_spec graph_iri c) as Hr.
  destruct (registers graph_iri (env c)).
  - destruct r as [t|]; [|by destruct IH as [? _]]. setoid_rewrite elem_of_cons.
    destruct IH as (IH1 & IH2 & IH3). unfold earlier_of in *. specialize (IH2 _ eq_refl).
    assert (registered graph_iri c) as Hc by by apply Hr.
    split_and!.
    + destruct IH1 as [IH1|(d & ? & ? & ?)]; [|right; exists d; auto].
      destruct e as [t'|]; injection IH1 as <-; [|right; exists c; auto].
      destruct (Z.min_spec t' (t_of c)) as [[_ ->]|[_ ->]]; [by left|right; exists c; auto].
    + intros t' ->. lia.
    + intros d [->|Hd] Hreg; [destruct e; lia|auto].
  - assert (~ registered graph_iri c) by (intros ?; by apply Hr in H).
    destruct r as [t|]; setoid_rewrite elem_of_cons; naive_solver.
Qed.

Lemma order_all nodes fuel h :
  history nodes -> h ∈ nodes -> (walk_budget nodes <= fuel)%nat ->
  exists vs, order next_all fuel [h] [] = Some vs /\ vs ⊆ nodes /\ forall c, c ∈ vs <-> ancestor h c.
Proof.
  intros Hh Hn Hf. destruct (order_total next_all nodes fuel [h] []) as [vs Hvs].
  - intros c Hc p Hp. unfold next_all in Hp. rewrite elem_of_reverse in Hp. by eapply h_closed.
  - set_solver.
  - unfold walk_budget in Hf. simpl. apply Nat.lt_le_trans with (2 := Hf). clear.
    enough (pending next_all nodes [] <= sum_list (map (λ c, length (ce_parents (env c))) nodes))%nat by lia.
    induction nodes as [|c nodes IH]; simpl; [lia|]. unfold next_all at 1. rewrite length_reverse. lia.
  - exists vs. assert (forall c, c ∈ vs <-> ancestor h c) as Hc.
    { intros c. rewrite (order_reaches _ _ _ _ Hvs). unfold ancestor.
      split; apply rtc_subrel; intros x y; unfold edge, next_all, is_parent; by rewrite elem_of_reverse. }
    split_and!; [done| |done]. intros c Hcv. apply Hc in Hcv. by eapply ancestor_in.
Qed.

(** The graph probe ends and is exact: [Inconclusive] only when some commit
    reachable from the head is not a v4 blob; otherwise [Found] carries the
    least time at which a reachable commit registers the graph, and [NotFound]
    means that none does. *)
Theorem graph_probe_exact nodes fuel h graph_iri :
  history nodes -> h ∈ nodes -> (walk_budget nodes <= fuel)%nat ->
  exists r, first_t_where_graph_registered get fuel h graph_iri = Some (Ok r) /\
    match r with
    | Inconclusive => exists c, ancestor h c /\ version_of c <> VERSION
    | Found t => (forall c, ancestor h c -> version_of c = VERSION) /\
        (exists c, ancestor h c /\ registered graph_iri c /\ t_of c = t) /\
        (forall c, ancestor h c -> registered graph_iri c -> t <= t_of c)
    | NotFound => (forall c, ancestor h c -> version_of c = VERSION) /\
        (forall c, ancestor h c -> ~ registered graph_iri c)
    end.
Proof.
  intros Hh Hn Hf. destruct (order_all nodes fuel h) as (vs & Hvs & Hsub & Hin); [done..|].
  eexists. split; [by eapply probe_loop_order|].
  case_decide as Hd; [|apply not_Forall_Exists, Exists_exists in Hd; [naive_solver|apply _]].
  rewrite Forall_forall in Hd. pose proof (probe_fold graph_iri vs None) as Hp.
  destruct (fold_left _ vs None) as [t|]; simpl; naive_solver.
Qed.
End history.
