(* ===== verification/CommitDagAncestor.v ===== *)
(** * Common ancestors

    The dual-frontier search of [find_common_ancestor] on finite histories.
    Each side keeps the commits it has visited and the frontier of those whose
    parents it has not expanded ([side]); the sides stay disjoint until the
    search ends, and a common ancestor is never expanded by one side before the
    other has visited it, so neither frontier runs empty. *)

From stdpp Require Import base list numbers gmap sorting relations.
From Stdlib Require Import ZArith Lia.
From S2P Require Import Prelude Bytes Value Flake CommitFormat Envelope CommitCodec CommitDag CommitDagWalk.

Local Open Scope Z_scope.

Section ancestors.
Context `{VL : ValueLib, CL : CidLib, ML : CommitLib, LV : !LegacyV3} {SE : Type}.
Variable get : ContentId -> outcome SE bytes.
Variable info : ContentId -> CommitEnvelope * Z.
Variable nodes : list ContentId.
Hypothesis Hh : history get info nodes.
Hypothesis Ht : timed info nodes.

Local Abbreviation t_of := (t_of info).
Local Abbreviation is_parent := (is_parent info).
Local Abbreviation ancestor := (ancestor info).
Local Abbreviation entry := (fun p => (t_of p, p)).
Local Abbreviation frontier_t := (list (Z * ContentId)).

(** ** The entry of the largest time *)

Lemma fold_max (l : frontier_t) m :
  let r := fold_left (fun m x => Z.max m x.1) l m in
  m <= r /\ (forall x, x ∈ l -> x.1 <= r) /\ (r = m \/ exists x, x ∈ l /\ x.1 = r).
Proof.
  revert m. induction l as [|[t c] l IH]; intros m; simpl; [set_solver by lia|].
  destruct (IH (Z.max m t)) as (H1 & H2 & H3). split_and!; [lia| |].
  - intros x [->|Hx]%elem_of_cons; [simpl; lia|auto].
  - destruct H3 as [->|(x & ? & ?)]; [|right; exists x; set_solver].
    destruct (Z.max_spec m t) as [[_ ->]|[_ ->]]; [right; exists (t, c); set_solver|by left].
Qed.

Lemma max_t_spec (f : frontier_t) m :
  max_t f = Some m <-> (exists c, (m, c) ∈ f) /\ forall x, x ∈ f -> x.1 <= m.
Proof.
  destruct f as [|[t c] f]; simpl; [set_solver|].
  destruct (fold_max f t) as (H1 & H2 & H3). set (r := fold_left _ f t) in *.
  assert ((exists c', (r, c') ∈ (t, c) :: f) /\ forall x, x ∈ (t, c) :: f -> x.1 <= r) as [[cr Hr] Hall].
  { split; [destruct H3 as [->|([t' c'] & ? & <-)]; [exists c|exists c']; set_solver|].
    intros x [->|Hx]%elem_of_cons; [done|auto]. }
  split; [intros [= <-]; eauto|]. intros [[c' Hc'] Hm]. f_equal.
  specialize (Hall _ Hc'). specialize (Hm _ Hr). simpl in *. lia.
Qed.

Lemma max_t_None (f : frontier_t) : max_t f = None <-> f = [].
Proof. by destruct f as [|[]]. Qed.

Lemma max_index_from_spec (pre l : frontier_t) best best_t c :
  (pre ++ l) !! best = Some (best_t, c) -> (forall x, x ∈ pre -> x.1 <= best_t) ->
  exists t c', (pre ++ l) !! max_index_from (length pre) best best_t l = Some (t, c') /\
    forall x, x ∈ pre ++ l -> x.1 <= t.
Proof.
  revert pre best best_t c. induction l as [|[t d] l IH]; intros pre best best_t c Hb Hpre; simpl.
  { exists best_t, c. by rewrite app_nil_r in *. }
  assert (pre ++ (t, d) :: l = (pre ++ [(t, d)]) ++ l) as Happ by by rewrite <- app_assoc.
  assert (length (pre ++ [(t, d)]) = S (length pre)) as Hlen by (rewrite length_app; simpl; lia).
  rewrite Happ in *. rewrite <- Hlen. destruct (Z.leb_spec best_t t).
  - apply (IH _ _ _ d).
    + rewrite <- app_assoc. by apply list_lookup_middle.
    + intros x [Hx| ->%list_elem_of_singleton]%elem_of_app; [apply Hpre in Hx; lia|done].
  - apply (IH _ _ _ c); [done|].
    intros x [Hx| ->%list_elem_of_singleton]%elem_of_app; [by apply Hpre|simpl; lia].
Qed.

Lemma swap_remove_perm (l : frontier_t) i x :
  l !! i = Some x -> exists l', swap_remove l i = Some (x, l') /\ l ≡ₚ x :: l'.
Proof.
  intros Hx. unfold swap_remove. rewrite Hx.
  destruct l as [|y l0 _] using rev_ind; [done|].
  rewrite last_snoc, length_app. simpl. replace (length l0 + 1 - 1)%nat with (length l0) by lia.
  eexists. split; [done|]. destruct (decide (i < length l0)%nat) as [Hi|Hi].
  - rewrite insert_app_l by done. rewrite take_app_length' by by rewrite length_insert.
    rewrite lookup_app_l in Hx by done.
    rewrite <- (take_drop_middle l0 i x Hx) at 1. rewrite insert_take_drop by done. solve_Permutation.
  - apply lookup_lt_Some in Hx as Hlt. rewrite length_app in Hlt. simpl in Hlt.
    assert (i = length l0) as -> by lia. rewrite list_lookup_middle in Hx by done. injection Hx as ->.
    rewrite insert_app_r_alt, Nat.sub_diag by done. simpl. rewrite take_app_length. by rewrite Permutation_app_comm.
Qed.

Lemma pop_max (f : frontier_t) m :
  max_t f = Some m ->
  exists c f', swap_remove f (max_index f) = Some ((m, c), f') /\ f ≡ₚ (m, c) :: f'.
Proof.
  intros Hm. destruct f as [|[t c] f]; [done|].
  destruct (max_index_from_spec [(t, c)] f 0 t c) as (t' & c' & Hl & Hmax).
  { done. } { by intros x ->%list_elem_of_singleton. }
  assert (m = t') as ->.
  { apply max_t_spec in Hm as [[d Hd] Hle]. apply list_elem_of_lookup_2 in Hl as Hin.
    specialize (Hle _ Hin). specialize (Hmax _ Hd). simpl in *. lia. }
  destruct (swap_remove_perm _ _ _ Hl) as (f' & ? & ?). by exists c', f'.
Qed.
(** ** Expanding a commit *)

(** Commits of the history not visited yet. *)
Definition unseen (visited : list ContentId) : nat := pending (fun c => [c]) nodes visited.

Lemma unseen_new new visited :
  NoDup new -> new ⊆ nodes -> (forall p, p ∈ new -> p ∉ visited) ->
  (length new + unseen (reverse new ++ visited) <= unseen visited)%nat.
Proof.
  revert visited. induction new as [|p new IH]; intros v Hnd Hn Hv; [done|].
  apply NoDup_cons in Hnd as [Hp Hnd]. rewrite reverse_cons, <- app_assoc. simpl.
  specialize (IH (p :: v) Hnd ltac:(set_solver) ltac:(set_solver)).
  pose proof (pending_visit (fun c => [c]) nodes v p ltac:(set_solver) ltac:(set_solver)) as H.
  unfold unseen in *. simpl in H. lia.
Qed.

Lemma visit_parents_spec ps f v ov :
  ps ⊆ nodes ->
  (exists new, visit_parents get ps f v ov = Ok (None, f ++ (entry <$> new), reverse new ++ v) /\
     NoDup new /\ new ⊆ ps /\ (forall p, p ∈ new -> (p ∉ v) /\ p ∉ ov) /\ forall p, p ∈ ps -> p ∈ new \/ p ∈ v) \/
  (exists p f' v', visit_parents get ps f v ov = Ok (Some (mkCommonAncestor p (t_of p)), f', v') /\
     p ∈ ps /\ (p ∉ v) /\ p ∈ ov).
Proof.
  revert f v. induction ps as [|p ps IH]; intros f v Hps; simpl.
  { left. exists []. rewrite app_nil_r. split_and!; [done|constructor|set_solver..]. }
  case_bool_decide as Hpv.
  { destruct (IH f v) as [(new & E & ? & ? & ? & ?)|(q & f' & v' & E & ? & ? & ?)]; [set_solver| |].
    - left. exists new. split_and!; [done..|set_solver|done|set_solver].
    - right. exists q, f', v'. split_and!; [done|set_solver|done..]. }
  rewrite (load_info get info nodes p Hh) by set_solver. simpl. case_bool_decide as Hov.
  { right. eexists p, f, (p :: v). split_and!; [done|set_solver|done..]. }
  destruct (IH (f ++ [entry p]) (p :: v)) as [(new & E & Hnd & ? & Hnew & Hall)|(q & f' & v' & E & ? & ? & ?)]; [set_solver| |].
  - left. exists (p :: new). split_and!.
    + rewrite reverse_cons, <- app_assoc, fmap_cons. rewrite <- app_assoc in E. exact E.
    + constructor; [|done]. intros Hp. apply Hnew in Hp. set_solver.
    + set_solver.
    + intros q [->|Hq]%elem_of_cons; [done|]. apply Hnew in Hq. set_solver.
    + intros q [->|Hq]%elem_of_cons; [set_solver|]. apply Hall in Hq. set_solver.
  - right. exists q, f', v'. split_and!; [done|set_solver..].
Qed.

(** ** One side of the search *)

Definition linear : Prop := forall c, c ∈ nodes -> (length (ce_parents (env info c)) <= 1)%nat.

(** [x] is a common ancestor of the heads that this side has not expanded. *)
Record side (x h : ContentId) (f : frontier_t) (v : list ContentId) : Prop := {
  sd_nodes : v ⊆ nodes;
  sd_head : h ∈ v;
  sd_anc c : c ∈ v -> ancestor h c;
  sd_front t c : (t, c) ∈ f -> c ∈ v /\ t = t_of c;
  sd_closed c p : c ∈ v -> c ∉ f.*2 -> is_parent c p -> p ∈ v;
  sd_open : x ∈ v -> x ∈ f.*2;
  sd_linked : linear -> (length f <= 1)%nat /\ forall c t n, c ∈ v -> (t, n) ∈ f -> ancestor c n;
}.

(** What a head reaches is visited, or reached from the frontier. *)
Lemma side_cover x h f v y :
  side x h f v -> ancestor h y -> y ∈ v \/ exists t c, (t, c) ∈ f /\ ancestor c y /\ c <> y.
Proof.
  intros Hs Hy. destruct (decide (y ∈ v)) as [|Hyv]; [by left|right].
  pose proof (sd_head _ _ _ _ Hs) as Hv. pose proof (sd_closed _ _ _ _ Hs) as Hcl. clear Hs.
  induction Hy as [c|c p y Hcp Hpy IH]; [done|].
  destruct (decide (c ∈ f.*2)) as [Hc|Hc].
  - apply list_elem_of_fmap in Hc as ([t d] & -> & Hd). exists t, d. simpl in *.
    split; [done|split; [by eapply rtc_l|by intros ->]].
  - apply IH; [done|]. by eapply Hcl.
Qed.

Lemma side_behind x h f v :
  side x h f v -> ancestor h x -> x ∉ v -> exists m, max_t f = Some m /\ t_of x < m.
Proof.
  intros Hs Hx Hv. destruct (side_cover _ _ _ _ _ Hs Hx) as [|(t & c & Hc & Hcx & Hne)]; [done|].
  destruct (max_t f) as [m|] eqn:Hm; [|apply max_t_None in Hm; set_solver].
  exists m. split; [done|]. apply max_t_spec in Hm as [_ Hm]. specialize (Hm _ Hc). simpl in Hm.
  destruct (sd_front _ _ _ _ Hs _ _ Hc) as [Hcv ->].
  pose proof (ancestor_lt get info nodes c x Hh Ht (sd_nodes _ _ _ _ Hs _ Hcv) Hcx). naive_solver lia.
Qed.

Lemma side_nonempty x h f v : side x h f v -> ancestor h x -> exists m, max_t f = Some m.
Proof.
  intros Hs Hx. destruct (decide (x ∈ v)) as [Hv|Hv]; [|destruct (side_behind _ _ _ _ Hs Hx Hv) as (m & ? & _); eauto].
  apply (sd_open _ _ _ _ Hs) in Hv. destruct f as [|[t c] f]; [set_solver|]. by eexists.
Qed.
(** [c] leaves the frontier and its new parents enter it. *)
Lemma side_expand x h f v m c f0 new :
  side x h f v -> f ≡ₚ (m, c) :: f0 -> (x ∈ v -> c <> x) -> NoDup new ->
  new ⊆ ce_parents (env info c) -> (forall p, is_parent c p -> p ∈ new \/ p ∈ v) ->
  side x h (f0 ++ (entry <$> new)) (reverse new ++ v).
Proof.
  intros Hs Hp Hne Hnd Hnew Hall.
  destruct (sd_front _ _ _ _ Hs m c) as [Hcv Hm]; [rewrite Hp; set_solver|].
  assert (forall y, y ∈ (f0 ++ (entry <$> new)).*2 <-> y ∈ f0.*2 \/ y ∈ new) as Hf.
  { intros y. rewrite fmap_app, elem_of_app, <- list_fmap_compose.
    change ((_ ∘ _) <$> new) with ((fun p => p) <$> new). by rewrite list_fmap_id. }
  assert (forall y, y ∈ reverse new ++ v <-> y ∈ new \/ y ∈ v) as Hv.
  { intros y. by rewrite elem_of_app, elem_of_reverse. }
  split.
  - intros y [Hy|Hy]%Hv; [|by apply (sd_nodes _ _ _ _ Hs)].
    eapply (h_closed _ _ _ Hh); [apply (sd_nodes _ _ _ _ Hs), Hcv|by apply Hnew].
  - apply Hv. right. apply Hs.
  - intros y [Hy|Hy]%Hv; [|by apply (sd_anc _ _ _ _ Hs)].
    eapply rtc_r; [by apply (sd_anc _ _ _ _ Hs)|by apply Hnew].
  - intros t d [Hd|Hd]%elem_of_app; rewrite Hv.
    + destruct (sd_front _ _ _ _ Hs t d) as [? ->]; [rewrite Hp; set_solver|auto].
    + apply list_elem_of_fmap in Hd as (? & [= -> ->] & ?). auto.
  - intros y p Hy Hyf Hyp. rewrite Hf in Hyf. apply Hv in Hy as [Hy|Hy]; [tauto|]. apply Hv.
    destruct (decide (y = c)) as [->|Hyc]; [auto|]. right. eapply (sd_closed _ _ _ _ Hs); [done| |done].
    rewrite Hp. simpl. set_solver.
  - intros [Hx|Hx]%Hv; apply Hf; [by right|]. left. specialize (Hne Hx).
    apply (sd_open _ _ _ _ Hs) in Hx. rewrite Hp in Hx. simpl in Hx. set_solver.
  - intros Hlin. destruct (sd_linked _ _ _ _ Hs Hlin) as [Hlen Hl].
    rewrite Hp in Hlen. destruct f0; [|simpl in Hlen; lia]. simpl.
    assert (length new <= 1)%nat as Hn.
    { etrans; [|apply (Hlin c), (sd_nodes _ _ _ _ Hs), Hcv]. by apply NoDup_submseteq, submseteq_length in Hnew. }
    split; [by rewrite length_fmap|]. intros y t n Hy Hin.
    apply list_elem_of_fmap in Hin as (? & [= -> ->] & Hin). apply Hv in Hy as [Hy|Hy].
    + destruct new as [|q [|? ?]]; simpl in *; [set_solver| |lia].
      apply list_elem_of_singleton in Hin as ->. apply list_elem_of_singleton in Hy as ->. constructor.
    + eapply rtc_r; [|by apply Hnew]. eapply (Hl _ (t_of c)); [done|rewrite Hp; set_solver].
Qed.

Lemma advance_spec x h f v ov m :
  side x h f v -> max_t f = Some m -> (x ∈ v -> t_of x < m) -> (forall c, c ∈ v -> c ∉ ov) ->
  (exists f' v', advance_frontier get f v ov = Ok (None, f', v') /\ side x h f' v' /\
     (forall c, c ∈ v' -> c ∉ ov) /\ (length f' + unseen v' < length f + unseen v)%nat) \/
  (exists c p f' v', advance_frontier get f v ov = Ok (Some (mkCommonAncestor p (t_of p)), f', v') /\
     (m, c) ∈ f /\ is_parent c p /\ (p ∉ v) /\ p ∈ ov).
Proof.
  intros Hs Hm Hx Hd. destruct (pop_max f m Hm) as (c & f0 & Hpop & Hp).
  destruct (sd_front _ _ _ _ Hs m c) as [Hcv Hmc]; [rewrite Hp; set_solver|].
  pose proof (sd_nodes _ _ _ _ Hs _ Hcv) as Hcn.
  unfold advance_frontier. rewrite Hpop, (load_info get info nodes c Hh Hcn). simpl.
  assert (ce_parents (env info c) ⊆ nodes) as Hps by (intros p Hcp; by apply (h_closed _ _ _ Hh c p)).
  destruct (visit_parents_spec (ce_parents (env info c)) f0 v ov Hps)
    as [(new & -> & Hnd & Hsub & Hfresh & Hall)|(p & f' & v' & -> & ? & ? & ?)].
  - left. eexists _, _. split; [done|]. split; [|split].
    + eapply side_expand; [done|exact Hp| |done..]. intros Hxv <-. specialize (Hx Hxv). lia.
    + intros y [Hy|Hy]%elem_of_app; [rewrite elem_of_reverse in Hy; by apply Hfresh|by apply Hd].
    + rewrite Hp, length_app, length_fmap. simpl.
      pose proof (unseen_new new v Hnd ltac:(set_solver) ltac:(set_solver)). lia.
  - right. exists c, p, f', v'. split_and!; [done|rewrite Hp; set_solver|done..].
Qed.
(** ** The search *)

Definition common (ha hb a : ContentId) : Prop := ancestor ha a /\ ancestor hb a.

Definition found_ok (ha hb : ContentId) (ca : CommonAncestor) : Prop :=
  common ha hb (ca_commit_id ca) /\ ca_t ca = t_of (ca_commit_id ca) /\
  (linear -> forall y, common ha hb y -> t_of y <= ca_t ca).

(** The parent at which the sides meet, on a side's expansion of [c]. *)
Lemma meet_ok x h h' f v f' v' m c p :
  side x h f v -> side x h' f' v' -> (forall c, c ∈ v -> c ∉ v') ->
  (m, c) ∈ f -> is_parent c p -> p ∉ v -> p ∈ v' ->
  (ancestor h p /\ ancestor h' p) /\
  (linear -> forall y, ancestor h y -> ancestor h' y -> t_of y <= t_of p).
Proof.
  intros Hs Hs' Hd Hc Hcp Hpv Hpv'. destruct (sd_front _ _ _ _ Hs _ _ Hc) as [Hcv _].
  pose proof (sd_nodes _ _ _ _ Hs _ Hcv) as Hcn. pose proof (h_closed _ _ _ Hh _ _ Hcn Hcp) as Hpn.
  split; [split; [eapply rtc_r; [by apply (sd_anc _ _ _ _ Hs)|done]|by apply (sd_anc _ _ _ _ Hs')]|].
  intros Hlin y Hy Hy'. destruct (sd_linked _ _ _ _ Hs Hlin) as [Hlen _].
  destruct (side_cover _ _ _ _ _ Hs Hy) as [Hyv|(t & n & Hn & Hny & Hne)].
  - destruct (side_cover _ _ _ _ _ Hs' Hy') as [Hyv'|(t & n & Hn & Hny & _)]; [by apply Hd in Hyv|].
    eapply (ancestor_le get info nodes); [done..|]. unfold CommitDagWalk.ancestor. etrans; [|exact Hny].
    by eapply (proj2 (sd_linked _ _ _ _ Hs' Hlin)).
  - assert (n = c) as -> by (destruct f as [|? [|? ?]]; simpl in Hlen; [set_solver| |lia];
      apply list_elem_of_singleton in Hc, Hn; congruence).
    destruct Hny as [|c q y Hcq Hqy]; [done|].
    assert (q = p) as ->; [|by eapply (ancestor_le get info nodes)].
    specialize (Hlin c Hcn). unfold CommitDagWalk.is_parent in Hcp, Hcq.
    destruct (ce_parents (env info c)) as [|? [|? ?]]; simpl in Hlin; [set_solver| |lia].
    apply list_elem_of_singleton in Hcp, Hcq. congruence.
Qed.

Lemma ancestor_loop_spec x ha hb fuel fa va fb vb :
  common ha hb x -> side x ha fa va -> side x hb fb vb -> (forall c, c ∈ va -> c ∉ vb) ->
  (length fa + unseen va + (length fb + unseen vb) < fuel)%nat ->
  exists ca, ancestor_loop get fuel fa va fb vb = Some (Ok ca) /\ found_ok ha hb ca.
Proof.
  intros [Hxa Hxb]. revert fa va fb vb. induction fuel as [|fuel IH]; intros fa va fb vb Ha Hb Hd Hf; [lia|].
  destruct (side_nonempty _ _ _ _ Ha Hxa) as [ta Hta]. destruct (side_nonempty _ _ _ _ Hb Hxb) as [tb Htb].
  assert (x ∈ va -> t_of x < tb) as Hxva.
  { intros Hx. destruct (side_behind _ _ _ _ Hb Hxb (Hd _ Hx)) as (m & E & ?). congruence. }
  assert (x ∈ vb -> t_of x < ta) as Hxvb.
  { intros Hx. destruct (side_behind _ _ _ _ Ha Hxa) as (m & E & ?); [naive_solver|congruence]. }
  simpl. rewrite Hta, Htb. destruct (Z.leb_spec tb ta) as [Hle|Hlt].
  - destruct (advance_spec x ha fa va vb ta Ha Hta ltac:(naive_solver lia) Hd)
      as [(f' & v' & -> & Hs & Hd' & Hm)|(c & p & f' & v' & -> & Hc & Hcp & Hpv & Hpv')].
    + apply IH; [done..|lia].
    + eexists. split; [done|]. destruct (meet_ok x ha hb fa va fb vb ta c p) as [Hcom Hmax]; [done..|].
      split_and!; [apply Hcom..|done|]. intros Hlin y [? ?]. by apply Hmax.
  - destruct (advance_spec x hb fb vb va tb Hb Htb ltac:(naive_solver lia) ltac:(naive_solver))
      as [(f' & v' & -> & Hs & Hd' & Hm)|(c & p & f' & v' & -> & Hc & Hcp & Hpv & Hpv')].
    + apply IH; [done..|naive_solver|lia].
    + eexists. split; [done|].
      destruct (meet_ok x hb ha fb vb fa va tb c p) as [Hcom Hmax]; [done|done|naive_solver|done|done|done|done|].
      split_and!; [split; apply Hcom|done|]. intros Hlin y [? ?]. by apply Hmax.
Qed.

Lemma side_seed x h : h ∈ nodes -> side x h [(t_of h, h)] [h].
Proof.
  intros Hn. split.
  - set_solver.
  - set_solver.
  - intros c ->%list_elem_of_singleton. constructor.
  - intros t c [= -> ->]%list_elem_of_singleton. set_solver.
  - intros c p ->%list_elem_of_singleton. simpl. set_solver.
  - done.
  - intros _. split; [simpl; lia|]. intros c t n ->%list_elem_of_singleton [= -> ->]%list_elem_of_singleton. constructor.
Qed.

Lemma unseen_le v : (unseen v <= length nodes)%nat.
Proof. unfold unseen. clear Hh Ht. induction nodes as [|c l IH]; simpl; [lia|]. case_bool_decide; simpl; lia. Qed.

Lemma find_common_ancestor_spec fuel ha hb :
  ha ∈ nodes -> hb ∈ nodes -> (exists x, common ha hb x) -> (2 * length nodes + 2 < fuel)%nat ->
  exists ca, find_common_ancestor get fuel ha hb = Some (Ok ca) /\ found_ok ha hb ca.
Proof.
  intros Ha Hb [x Hx] Hf. unfold find_common_ancestor.
  rewrite !(load_info get info nodes) by done. simpl. case_bool_decide as Heq.
  { subst hb. eexists. split; [done|]. split_and!; simpl; [split; constructor|done|].
    intros _ y [? _]. by eapply (ancestor_le get info nodes). }
  rewrite !bool_decide_false by set_solver.
  eapply ancestor_loop_spec; [done|by apply side_seed..| |].
  - intros c ->%list_elem_of_singleton. set_solver.
  - pose proof (unseen_le [ha]). pose proof (unseen_le [hb]). simpl. lia.
Qed.
(** C39: The ancestor search ends with a common ancestor: on a finite history
    with strictly decreasing times, merges included, two heads that share an
    ancestor give, with fuel linear in the history, a commit reachable from both
    and its time; the search never runs one frontier dry. *)
Theorem common_ancestor_found fuel ha hb :
  ha ∈ nodes -> hb ∈ nodes -> (exists x, common ha hb x) -> (2 * length nodes + 2 < fuel)%nat ->
  exists ca, find_common_ancestor get fuel ha hb = Some (Ok ca) /\
    common ha hb (ca_commit_id ca) /\ ca_t ca = t_of (ca_commit_id ca).
Proof.
  intros Ha Hb Hx Hf. destruct (find_common_ancestor_spec fuel ha hb) as (ca & E & H1 & H2 & _); [done..|].
  by exists ca.
Qed.

(** On a history without merge commits the common ancestor found is the
    most recent one: no commit reachable from both heads is later. *)
Theorem common_ancestor_most_recent fuel ha hb :
  linear -> ha ∈ nodes -> hb ∈ nodes -> (exists x, common ha hb x) -> (2 * length nodes + 2 < fuel)%nat ->
  exists ca, find_common_ancestor get fuel ha hb = Some (Ok ca) /\ common ha hb (ca_commit_id ca) /\
    forall y, common ha hb y -> t_of y <= ca_t ca.
Proof.
  intros Hl Ha Hb Hx Hf. destruct (find_common_ancestor_spec fuel ha hb) as (ca & E & H1 & _ & H3); [done..|].
  exists ca. split_and!; [done|apply H1..|]. by apply H3.
Qed.
End ancestors.

(** ** A search that does not end

    With an empty frontier on one side only, the loop advances the empty side:
    the state does not change and no error is returned. *)
Section divergence.
Context `{VL : ValueLib, CL : CidLib, ML : CommitLib, LV : !LegacyV3} {SE : Type}.
Variable get : ContentId -> outcome SE bytes.

Lemma ancestor_loop_stuck fuel e fa va vb : ancestor_loop get fuel (e :: fa) va [] vb = None.
Proof. induction fuel as [|fuel IH]; [done|]. destruct e. exact IH. Qed.
End divergence.
