(* ===== verification/CommitDagPlain.v ===== *)
(** * Sample histories

    A store of five commits written with [write_commit]: a root, a commit on
    it, two heads branching from there and their merge; and two histories on
    which the ancestor search does not do what its documentation says. *)

From stdpp Require Import base list numbers gmap sorting relations.
From Stdlib Require Import ZArith Lia Ascii.
From S2P Require Import Prelude Bytes Vocab Value Plain Flake CommitFormat OpCodec Envelope CommitCodec CommitDag CommitDagWalk.
From S2P Require Import CommitDagAncestor.

Local Open Scope Z_scope.

Definition cid (n : Z) : ContentId := ascii_of_N (Z.to_N n).

Definition plain_commit (t : Z) (ps : list Z) (fs : list Flake) (gd : gmap Z str)
    (mode : option NsSplitMode) : Commit :=
  mkCommit PlainLib PlainCid None t None fs (cid <$> ps) None ∅ None []
    [mkTxnMeta FLUREE_DB message_name (MString [104; 105])] gd mode.

Definition blob_of (c : Commit) : bytes :=
  match write_commit c false None with Ok b => b | _ => [] end.

(** Commits by number; an absent one is a storage error. *)
Definition store_of (commits : list (Z * Commit)) (c : ContentId) : outcome unit bytes :=
  match list_find (fun x => cid x.1 = c) commits with
  | Some (_, (_, commit)) => Ok (blob_of commit)
  | None => Err tt
  end.

Definition info_of (get : ContentId -> outcome unit bytes) (c : ContentId) : CommitEnvelope * Z :=
  match fetch get c with Ok x => x | _ => (mkCommitEnvelope PlainCid 0 [] None ∅ [] ∅ None, 0) end.

(** ** Checking a history *)
Section checks.
Variable get : ContentId -> outcome unit bytes.
Variable nodes : list ContentId.

Local Abbreviation parents_of c := (ce_parents (env (info_of get) c)).

Definition node_ok (c : ContentId) : bool :=
  is_ok (fetch get c) && forallb (fun p => bool_decide (p ∈ nodes) &&
    (t_of (info_of get) p <? t_of (info_of get) c)) (parents_of c).

Lemma history_checked :
  forallb node_ok nodes = true -> history get (info_of get) nodes /\ timed (info_of get) nodes.
Proof.
  rewrite forallb_forall. setoid_rewrite <- list_elem_of_In. unfold node_ok. intros H.
  assert (forall c p, c ∈ nodes -> is_parent (info_of get) c p ->
    p ∈ nodes /\ t_of (info_of get) p < t_of (info_of get) c) as Hp.
  { intros c p Hc Hcp. apply H, andb_true_iff in Hc as [_ Hc]. rewrite forallb_forall in Hc.
    specialize (Hc p). rewrite <- list_elem_of_In, andb_true_iff, bool_decide_eq_true, Z.ltb_lt in Hc. auto. }
  split; [split|].
  - intros c Hc. apply H, andb_true_iff in Hc as [Hc _]. unfold info_of. by destruct (fetch get c).
  - intros c p Hc Hcp. by apply (Hp c p).
  - intros c p Hc Hcp. by apply (Hp c p).
Qed.

Lemma linear_checked :
  forallb (fun c => length (parents_of c) <=? 1)%nat nodes = true -> linear (info_of get) nodes.
Proof.
  rewrite forallb_forall. intros H c Hc%list_elem_of_In. by apply Nat.leb_le, H.
Qed.

(** A parent link, by evaluation. *)
Lemma parent_checked c p : bool_decide (p ∈ parents_of c) = true -> ancestor (info_of get) c p.
Proof. rewrite bool_decide_eq_true. intros Hp. by apply rtc_once. Qed.
End checks.

(** ** A history with a merge *)

Definition graph_g : str := [103].

Definition forked : list (Z * Commit) :=
  [(1, plain_commit 1 [] [] {[ 3 := graph_g ]} (Some (HostPlusN 1)));
   (2, plain_commit 3 [1] [op_sample; op_sample] ∅ None);
   (3, plain_commit 4 [2] [] {[ 4 := graph_g ]} None);
   (4, plain_commit 5 [2] [] ∅ None)].

Definition merged : list (Z * Commit) := forked ++ [(5, plain_commit 6 [3; 4] [] ∅ None)].

Definition forked_store := store_of forked.
Definition merged_store := store_of merged.
Definition forked_nodes : list ContentId := cid <$> [1; 2; 3; 4].
Definition merged_nodes : list ContentId := cid <$> [1; 2; 3; 4; 5].

Lemma forked_history :
  history forked_store (info_of forked_store) forked_nodes /\ timed (info_of forked_store) forked_nodes.
Proof. apply history_checked. by vm_compute. Qed.

Lemma merged_history :
  history merged_store (info_of merged_store) merged_nodes /\ timed (info_of merged_store) merged_nodes.
Proof. apply history_checked. by vm_compute. Qed.

Lemma merged_walk :
  walk_dag merged_store 20 (cid 5) 1 true =
    Some (Ok ([(6, cid 5); (5, cid 4); (4, cid 3); (3, cid 2)], MostGranular)).
Proof. by vm_compute. Qed.

Lemma walk_dag_exact_witness :
  exists out m, walk_dag merged_store 20 (cid 5) 0 true = Some (Ok (out, m)) /\ NoDup out.*2 /\
    StronglySorted later out /\
    (forall t c, (t, c) ∈ out <->
       t = t_of (info_of merged_store) c /\ 0 < t /\ ancestor (info_of merged_store) (cid 5) c).
Proof.
  destruct (walk_dag_exact merged_store (info_of merged_store) merged_nodes 20 (cid 5) 0 true)
    as (out & m & H).
  - apply merged_history.
  - apply merged_history.
  - by apply (bool_decide_eq_true _).
  - apply Nat.leb_le. by vm_compute.
  - exists out, m. by split_and!; apply H.
Defined.

Lemma graph_probe_exact_witness :
  exists r, first_t_where_graph_registered merged_store 20 (cid 5) graph_g = Some (Ok r) /\
    match r with
    | Inconclusive => exists c, ancestor (info_of merged_store) (cid 5) c /\ version_of (info_of merged_store) c <> VERSION
    | Found t => (forall c, ancestor (info_of merged_store) (cid 5) c -> version_of (info_of merged_store) c = VERSION) /\
        (exists c, ancestor (info_of merged_store) (cid 5) c /\
           registered (info_of merged_store) graph_g c /\ t_of (info_of merged_store) c = t) /\
        (forall c, ancestor (info_of merged_store) (cid 5) c ->
           registered (info_of merged_store) graph_g c -> t <= t_of (info_of merged_store) c)
    | NotFound => (forall c, ancestor (info_of merged_store) (cid 5) c -> version_of (info_of merged_store) c = VERSION) /\
        (forall c, ancestor (info_of merged_store) (cid 5) c -> ~ registered (info_of merged_store) graph_g c)
    end.
Proof.
  apply (graph_probe_exact merged_store (info_of merged_store) merged_nodes 20 (cid 5) graph_g).
  - apply merged_history.
  - by apply (bool_decide_eq_true _).
  - apply Nat.leb_le. by vm_compute.
Defined.

Lemma merged_probe :
  first_t_where_graph_registered merged_store 20 (cid 5) graph_g = Some (Ok (Found 1)).
Proof. by vm_compute. Qed.

Definition commit_of (get : ContentId -> outcome unit bytes) (c : ContentId) : Commit :=
  match load_commit_by_id get c with Ok commit => commit | _ => plain_commit 0 [] [] ∅ None end.

Lemma commits_load c : c ∈ merged_nodes -> load_commit_by_id merged_store c = Ok (commit_of merged_store c).
Proof.
  intros Hc. unfold commit_of.
  assert (forallb (fun c => is_ok (load_commit_by_id merged_store c)) merged_nodes = true) as H by by vm_compute.
  rewrite forallb_forall in H. specialize (H c (proj1 (list_elem_of_In _ _) Hc)).
  by destruct (load_commit_by_id merged_store c).
Qed.

Lemma commit_summaries_capped_witness :
  exists out ss, collect_dag_cids merged_store 20 (cid 5) 1 = Some (Ok out) /\
    walk_commit_summaries merged_store 20 (cid 5) 1 (Some 2%nat) = Some (Ok (ss, length out)) /\
    cs_commit_id <$> ss = take 2 out.*2.
Proof.
  destruct (commit_summaries_capped merged_store (info_of merged_store) merged_nodes 20 (cid 5) 1 (Some 2%nat)
    (commit_of merged_store)) as (out & ss & H1 & _ & _ & H4 & H5 & _).
  - apply merged_history.
  - apply merged_history.
  - by apply (bool_decide_eq_true _).
  - apply Nat.leb_le. by vm_compute.
  - apply commits_load.
  - exists out, ss. by split_and!.
Defined.

Lemma merged_summaries :
  walk_commit_summaries merged_store 20 (cid 5) 2 (Some 1%nat) =
    Some (Ok ([mkCommitSummary 6 (cid 5) None 0 0 0 (Some [104; 105])], 4%nat)).
Proof. by vm_compute. Qed.

(** ** Ancestors *)

Lemma common_ancestor_found_witness :
  exists ca, find_common_ancestor merged_store 20 (cid 5) (cid 4) = Some (Ok ca) /\
    common (info_of merged_store) (cid 5) (cid 4) (ca_commit_id ca) /\
    ca_t ca = t_of (info_of merged_store) (ca_commit_id ca).
Proof.
  apply (common_ancestor_found merged_store (info_of merged_store) merged_nodes).
  - apply merged_history.
  - apply merged_history.
  - by apply (bool_decide_eq_true _).
  - by apply (bool_decide_eq_true _).
  - exists (cid 4). split; [by apply parent_checked; vm_compute|constructor].
  - apply Nat.ltb_lt. by vm_compute.
Defined.

Lemma common_ancestor_most_recent_witness :
  exists ca, find_common_ancestor forked_store 20 (cid 3) (cid 4) = Some (Ok ca) /\
    common (info_of forked_store) (cid 3) (cid 4) (ca_commit_id ca) /\
    forall y, common (info_of forked_store) (cid 3) (cid 4) y -> t_of (info_of forked_store) y <= ca_t ca.
Proof.
  apply (common_ancestor_most_recent forked_store (info_of forked_store) forked_nodes).
  - apply forked_history.
  - apply forked_history.
  - apply linear_checked. by vm_compute.
  - by apply (bool_decide_eq_true _).
  - by apply (bool_decide_eq_true _).
  - exists (cid 2). split; by apply parent_checked; vm_compute.
  - apply Nat.ltb_lt. by vm_compute.
Defined.

Lemma forked_ancestor :
  find_common_ancestor forked_store 20 (cid 3) (cid 4) = Some (Ok (mkCommonAncestor (cid 2) 3)).
Proof. by vm_compute. Qed.

(** Two unrelated roots: the search advances the empty frontier of the later
    root for ever and never returns its error. *)
Definition unrelated : list (Z * Commit) := [(1, plain_commit 1 [] [] ∅ None); (2, plain_commit 2 [] [] ∅ None)].

Lemma unrelated_heads_diverge fuel :
  find_common_ancestor (store_of unrelated) fuel (cid 1) (cid 2) = None.
Proof.
  destruct fuel as [|fuel]; [by vm_compute|].
  change (find_common_ancestor (store_of unrelated) (S fuel) (cid 1) (cid 2)) with
    (ancestor_loop (store_of unrelated) (S fuel) [(1, cid 1)] [cid 1] [(2, cid 2)] [cid 2]).
  change (ancestor_loop (store_of unrelated) (S fuel) [(1, cid 1)] [cid 1] [(2, cid 2)] [cid 2]) with
    (ancestor_loop (store_of unrelated) fuel [(1, cid 1)] [cid 1] [] [cid 2]).
  apply ancestor_loop_stuck.
Qed.

(** A merge whose first parent is an old commit: the search returns the old
    commit although a later one is common to both heads. *)
Definition criss : list (Z * Commit) :=
  [(1, plain_commit 1 [] [] ∅ None); (2, plain_commit 5 [1] [] ∅ None);
   (3, plain_commit 6 [1; 2] [] ∅ None); (4, plain_commit 10 [1; 2] [] ∅ None)].

Lemma older_ancestor_returned :
  find_common_ancestor (store_of criss) 20 (cid 4) (cid 3) = Some (Ok (mkCommonAncestor (cid 1) 1)) /\
  common (info_of (store_of criss)) (cid 4) (cid 3) (cid 2) /\ t_of (info_of (store_of criss)) (cid 2) = 5.
Proof.
  split; [by vm_compute|]. split; [|by vm_compute]. split; by apply parent_checked; vm_compute.
Qed.
