(* ===== verification/PrefixTrie.v ===== *)
(** * The prefix trie

    Models [fluree-db-core/src/prefix_trie.rs]: a byte trie in an arena of
    nodes, which maps IRI prefixes to namespace codes.  A node index is a [u32]
    taken from the arena's length; an index outside the arena is a panic
    ([None]).  The trie is shown to be the finite map of its insertions, and
    [longest_match] to return the longest registered prefix. *)

From stdpp Require Import base list numbers gmap sorting.
From Stdlib Require Import ZArith Lia.
From S2P Require Import Prelude Bytes.

Local Open Scope Z_scope.

Record TrieNode := mkNode { tn_code : option Z; tn_children : list (Z * nat) }.
Record PrefixTrie := mkTrie { pt_nodes : list TrieNode }.

Definition empty_node : TrieNode := mkNode None [].
Definition trie_new : PrefixTrie := mkTrie [empty_node].

(** [children.iter().find(|(b, _)| *b == byte)] *)
Fixpoint find_child (byte : Z) (children : list (Z * nat)) : option nat :=
  match children with
  | [] => None
  | (b, i) :: children => if b =? byte then Some i else find_child byte children
  end.

(** [partition_point(|(b, _)| *b < byte)] on children sorted by byte. *)
Fixpoint child_pos (byte : Z) (children : list (Z * nat)) : nat :=
  match children with
  | [] => 0
  | (b, _) :: children => if b <? byte then S (child_pos byte children) else 0
  end.

Definition insert_child (byte : Z) (idx : nat) (children : list (Z * nat)) : list (Z * nat) :=
  let pos := child_pos byte children in take pos children ++ (byte, idx) :: drop pos children.

Fixpoint insert_loop (nodes : list TrieNode) (node_idx : nat) (prefix : str) :
    option (list TrieNode * nat) :=
  match prefix with
  | [] => Some (nodes, node_idx)
  | byte :: prefix =>
      node ← nodes !! node_idx;
      match find_child byte (tn_children node) with
      | Some child_idx => insert_loop nodes child_idx prefix
      | None =>
          let new_idx := Z.to_nat (as_u 32 (zlen nodes)) in
          let nodes := nodes ++ [empty_node] in
          node ← nodes !! node_idx;
          let node := mkNode (tn_code node) (insert_child byte new_idx (tn_children node)) in
          insert_loop (<[node_idx := node]> nodes) new_idx prefix
      end
  end.

Definition trie_insert (trie : PrefixTrie) (prefix : str) (code : Z) : option PrefixTrie :=
  '(nodes, node_idx) ← insert_loop (pt_nodes trie) 0 prefix;
  node ← nodes !! node_idx;
  Some (mkTrie (<[node_idx := mkNode (Some code) (tn_children node)]> nodes)).

(** The map's entries in the order it iterates them. *)
Fixpoint insert_entries (trie : PrefixTrie) (entries : list (Z * str)) : option PrefixTrie :=
  match entries with
  | [] => Some trie
  | (code, prefix) :: entries =>
      trie ← (if bool_decide (prefix = []) then Some trie else trie_insert trie prefix code);
      insert_entries trie entries
  end.

Definition from_namespace_codes (entries : list (Z * str)) : option PrefixTrie :=
  insert_entries trie_new entries.

Fixpoint match_loop (nodes : list TrieNode) (node_idx i : nat) (best : option (Z * nat)) (iri : str) :
    option (option (Z * nat)) :=
  match iri with
  | [] => Some best
  | byte :: iri =>
      node ← nodes !! node_idx;
      match find_child byte (tn_children node) with
      | Some child_idx =>
          child ← nodes !! child_idx;
          match_loop nodes child_idx (S i)
            (match tn_code child with Some code => Some (code, S i) | None => best end) iri
      | None => Some best
      end
  end.

Definition longest_match (trie : PrefixTrie) (iri : str) : option (option (Z * nat)) :=
  match_loop (pt_nodes trie) 0 0 None iri.

(** ** Paths *)

Definition child (ns : list TrieNode) (i : nat) (b : Z) (c : nat) : Prop :=
  exists node, ns !! i = Some node /\ find_child b (tn_children node) = Some c.

Fixpoint path (ns : list TrieNode) (i : nat) (key : str) : option nat :=
  match key with
  | [] => Some i
  | b :: key => node ← ns !! i; c ← find_child b (tn_children node); path ns c key
  end.

(** The code registered for a prefix. *)
Definition denote (ns : list TrieNode) (key : str) : option Z :=
  i ← path ns 0 key; node ← ns !! i; tn_code node.

(** The arena is a tree rooted at node 0 with children sorted by byte. *)
Record trie_wf (ns : list TrieNode) : Prop := {
  tw_root : (0 < length ns)%nat;
  tw_child i b c : child ns i b c -> (i < c < length ns)%nat;
  tw_parent i j b b' c : child ns i b c -> child ns j b' c -> i = j /\ b = b';
  tw_sorted i node : ns !! i = Some node -> StronglySorted Z.lt (tn_children node).*1;
}.

Lemma path_cons ns i b key j :
  path ns i (b :: key) = Some j <-> exists c, child ns i b c /\ path ns c key = Some j.
Proof.
  simpl. unfold child. split.
  - intros (node & Hn & (c & Hc & Hp)%bind_Some)%bind_Some. eauto.
  - intros (c & (node & -> & Hc) & Hp). simpl. by rewrite Hc.
Qed.

Lemma path_app ns i k1 k2 : path ns i (k1 ++ k2) = j ← path ns i k1; path ns j k2.
Proof.
  revert i. induction k1 as [|b k1 IH]; intros i; [done|]. simpl.
  destruct (ns !! i) as [node|]; [|done]. simpl. destruct (find_child _ _); [|done]. apply IH.
Qed.

Lemma path_snoc ns i k b j :
  path ns i (k ++ [b]) = Some j <-> exists m, path ns i k = Some m /\ child ns m b j.
Proof.
  rewrite path_app, bind_Some. setoid_rewrite path_cons. simpl. naive_solver.
Qed.

Lemma path_lt ns i k j : trie_wf ns -> (i < length ns)%nat -> path ns i k = Some j -> (j < length ns)%nat.
Proof.
  intros Hw. revert i. induction k as [|b k IH]; intros i Hi H; [by simplify_eq/=|].
  apply path_cons in H as (c & Hc%(tw_child _ Hw) & H). eapply IH; [|done]. lia.
Qed.

Lemma path_inj ns k1 k2 i : trie_wf ns -> path ns 0 k1 = Some i -> path ns 0 k2 = Some i -> k1 = k2.
Proof.
  intros Hw. revert k2 i. induction k1 as [|b k1 IH] using rev_ind; intros k2 i H1 H2.
  - destruct k2 as [|b' k2 _] using rev_ind; [done|]. simplify_eq/=.
    apply path_snoc in H2 as (m & _ & Hc%(tw_child _ Hw)). lia.
  - apply path_snoc in H1 as (m & H1 & Hc). destruct k2 as [|b' k2 _] using rev_ind.
    + simplify_eq/=. apply (tw_child _ Hw) in Hc. lia.
    + apply path_snoc in H2 as (m' & H2 & Hc'). destruct (tw_parent _ Hw _ _ _ _ _ Hc Hc') as [-> ->].
      by rewrite (IH k2 m').
Qed.

(** ** Insertion *)

Lemma find_insert_child b i l b' :
  find_child b l = None ->
  find_child b' (insert_child b i l) = if b =? b' then Some i else find_child b' l.
Proof.
  unfold insert_child. induction l as [|[b0 i0] l IH]; simpl; intros Hf; [done|].
  destruct (Z.eqb_spec b0 b) as [->|Hne]; [done|].
  destruct (Z.ltb_spec b0 b); simpl; [|done].
  rewrite IH by done. destruct (Z.eqb_spec b0 b'); [|done]. subst.
  by rewrite (proj2 (Z.eqb_neq b b')) by lia.
Qed.

Lemma insert_child_sorted b i l :
  find_child b l = None -> StronglySorted Z.lt l.*1 -> StronglySorted Z.lt (insert_child b i l).*1.
Proof.
  unfold insert_child. induction l as [|[b0 i0] l IH]; simpl; intros Hf Hs; [by repeat constructor|].
  destruct (Z.eqb_spec b0 b) as [->|Hne]; [done|]. inversion_clear Hs as [|? ? Hs' Hall].
  destruct (Z.ltb_spec b0 b); simpl.
  - constructor; [by apply IH|]. rewrite fmap_app, fmap_cons, fmap_take, fmap_drop. simpl.
    apply Forall_app. split; [by apply Forall_take|]. constructor; [done|by apply Forall_drop].
  - constructor; [by constructor|]. constructor; [lia|]. eapply Forall_impl; [exact Hall|]. simpl. lia.
Qed.

(** A new leaf under [i]. *)
Definition add_leaf (ns : list TrieNode) (i : nat) (node : TrieNode) (b : Z) : list TrieNode :=
  <[i := mkNode (tn_code node) (insert_child b (length ns) (tn_children node))]> (ns ++ [empty_node]).

Section leaf.
Variables (ns : list TrieNode) (i : nat) (node : TrieNode) (b : Z).
Hypothesis Hw : trie_wf ns.
Hypothesis Hi : ns !! i = Some node.
Hypothesis Hb : find_child b (tn_children node) = None.

Lemma leaf_len : length (add_leaf ns i node b) = S (length ns).
Proof. unfold add_leaf. rewrite length_insert, length_app. simpl. lia. Qed.

Lemma leaf_lookup j :
  add_leaf ns i node b !! j =
    if decide (j = i) then Some (mkNode (tn_code node) (insert_child b (length ns) (tn_children node)))
    else if decide (j = length ns) then Some empty_node else ns !! j.
Proof.
  apply lookup_lt_Some in Hi as Hlt. unfold add_leaf. case_decide as Hj; [subst j|].
  - apply list_lookup_insert_eq. rewrite length_app. lia.
  - rewrite list_lookup_insert_ne by done. case_decide as Hj'; [subst j; by apply list_lookup_middle|].
    destruct (decide (j < length ns)%nat) as [?|Hge]; [by apply lookup_app_l|].
    rewrite !(proj2 (lookup_ge_None _ _)); [done|lia|rewrite length_app; simpl; lia].
Qed.

Lemma leaf_child j b' c :
  child (add_leaf ns i node b) j b' c <-> child ns j b' c \/ (j = i /\ b' = b /\ c = length ns).
Proof.
  apply lookup_lt_Some in Hi as Hlt. unfold child. rewrite leaf_lookup.
  destruct (decide (j = i)) as [->|Hj].
  - setoid_rewrite Hi. split.
    + intros (n & [= <-] & Hf). simpl in Hf. rewrite find_insert_child in Hf by done.
      destruct (Z.eqb_spec b b'); [naive_solver|eauto].
    + intros [(n & [= <-] & Hf)|(_ & -> & ->)]; eexists; (split; [done|]); simpl; rewrite find_insert_child by done.
      * destruct (Z.eqb_spec b b'); [congruence|done].
      * by rewrite Z.eqb_refl.
  - case_decide as Hj'; [subst j|naive_solver]. rewrite (proj2 (lookup_ge_None ns _)) by lia.
    split; [intros (n & [= <-] & ?); done|naive_solver].
Qed.

Lemma leaf_code j : tn_code <$> add_leaf ns i node b !! j =
  if decide (j = length ns) then Some None else tn_code <$> ns !! j.
Proof.
  apply lookup_lt_Some in Hi as Hlt. rewrite leaf_lookup.
  repeat case_decide; subst; try lia; simpl; rewrite ?Hi; done.
Qed.

Lemma leaf_wf : trie_wf (add_leaf ns i node b).
Proof.
  apply lookup_lt_Some in Hi as Hlt. split.
  - rewrite leaf_len. lia.
  - intros j b' c. rewrite leaf_child, leaf_len. intros [Hc|(-> & -> & ->)]; [|lia].
    apply (tw_child _ Hw) in Hc. lia.
  - intros j k b1 b2 c. rewrite !leaf_child.
    intros [H1|(-> & -> & ->)] [H2|(-> & -> & E)]; [by eapply tw_parent| | |done].
    + subst. apply (tw_child _ Hw) in H1. lia.
    + apply (tw_child _ Hw) in H2. lia.
  - intros j n. rewrite leaf_lookup. repeat case_decide; intros Hn; [|simplify_eq; constructor|by eapply tw_sorted].
    simplify_eq. apply insert_child_sorted; [done|by eapply tw_sorted].
Qed.

Lemma leaf_path j k m : path ns j k = Some m -> path (add_leaf ns i node b) j k = Some m.
Proof.
  revert j. induction k as [|b' k IH]; intros j; [done|]. rewrite !path_cons.
  intros (c & Hc & Hp). exists c. rewrite leaf_child. auto.
Qed.

Lemma leaf_path_inv j k m :
  path (add_leaf ns i node b) j k = Some m -> path ns j k = Some m \/ m = length ns.
Proof.
  revert m. induction k as [|b' k IH] using rev_ind; intros m; [by left|]. rewrite !path_snoc.
  intros (n & Hp & [Hc|(-> & -> & ->)]%leaf_child); [|by right].
  apply IH in Hp as [Hp| ->]; [left; eauto|]. destruct Hc as (n & Hn & _).
  apply lookup_lt_Some in Hn. lia.
Qed.

Lemma leaf_denote k : denote (add_leaf ns i node b) k = denote ns k.
Proof.
  unfold denote. destruct (path ns 0 k) as [m|] eqn:E.
  - rewrite (leaf_path _ _ _ E). simpl. pose proof (leaf_code m) as Hc.
    rewrite decide_False in Hc by (intros ->; apply path_lt in E; [lia|done|apply Hw]).
    by destruct (add_leaf _ _ _ _ !! m), (ns !! m); simplify_eq/=.
  - destruct (path (add_leaf ns i node b) 0 k) as [m|] eqn:E'; [|done].
    apply leaf_path_inv in E' as [E'| ->]; [congruence|]. simpl. pose proof (leaf_code (length ns)) as Hc.
    rewrite decide_True in Hc by done. by destruct (add_leaf _ _ _ _ !! _); simplify_eq/=.
Qed.
End leaf.

Lemma insert_loop_spec ns i pre rest :
  trie_wf ns -> path ns 0 pre = Some i -> zlen ns + zlen rest <= 2 ^ 32 ->
  exists ns' i', insert_loop ns i rest = Some (ns', i') /\ trie_wf ns' /\
    path ns' 0 (pre ++ rest) = Some i' /\ zlen ns' <= zlen ns + zlen rest /\ forall k, denote ns' k = denote ns k.
Proof.
  revert ns i pre. induction rest as [|b rest IH]; intros ns i pre Hw Hp Hl.
  { exists ns, i. rewrite app_nil_r. split_and!; try done. unfold zlen. simpl. lia. }
  assert (zlen (b :: rest) = 1 + zlen rest) as Hz by (unfold zlen; simpl; lia).
  assert (0 <= zlen ns) by (unfold zlen; lia). assert (0 <= zlen rest) by (unfold zlen; lia).
  pose proof (path_lt _ _ _ _ Hw (tw_root _ Hw) Hp) as Hi.
  destruct (lookup_lt_is_Some_2 ns i Hi) as [node Hn]. simpl. rewrite Hn. simpl.
  replace (pre ++ b :: rest) with ((pre ++ [b]) ++ rest) by by rewrite <- app_assoc.
  destruct (find_child b (tn_children node)) as [c|] eqn:Hf.
  - destruct (IH ns c (pre ++ [b])) as (ns' & i' & ? & ? & ? & ? & ?); [done| |lia|].
    { apply path_snoc. exists i. split; [done|]. by exists node. }
    exists ns', i'. split_and!; try done. lia.
  - assert (as_u 32 (zlen ns) = zlen ns) as -> by (unfold as_u; apply Z.mod_small; lia).
    replace (Z.to_nat (zlen ns)) with (length ns) by (unfold zlen; lia).
    rewrite lookup_app_l, Hn by done. simpl. fold (add_leaf ns i node b).
    assert (zlen (add_leaf ns i node b) = 1 + zlen ns) as Hz' by (unfold zlen; rewrite leaf_len; lia).
    destruct (IH (add_leaf ns i node b) (length ns) (pre ++ [b])) as (ns' & i' & ? & ? & ? & ? & Hd).
    { by apply leaf_wf. }
    { apply path_snoc. exists i. split; [by apply leaf_path|]. apply leaf_child; auto. }
    { lia. }
    exists ns', i'. split_and!; try done; [lia|]. intros k. rewrite Hd. by apply leaf_denote.
Qed.

(** Setting the code of a node leaves the shape. *)
Lemma set_code_spec ns i node prefix code :
  trie_wf ns -> path ns 0 prefix = Some i -> ns !! i = Some node ->
  let ns' := <[i := mkNode (Some code) (tn_children node)]> ns in
  trie_wf ns' /\ forall k, denote ns' k = if decide (k = prefix) then Some code else denote ns k.
Proof.
  intros Hw Hp Hn ns'. apply lookup_lt_Some in Hn as Hi.
  assert (forall j, tn_children <$> ns' !! j = tn_children <$> ns !! j) as Hch.
  { intros j. unfold ns'. destruct (decide (j = i)) as [->|Hj].
    - by rewrite list_lookup_insert_eq, Hn by done.
    - by rewrite list_lookup_insert_ne by done. }
  assert (forall j b c, child ns' j b c <-> child ns j b c) as Hc.
  { intros j b c. unfold child. specialize (Hch j). destruct (ns' !! j), (ns !! j); simplify_eq/=; [|done].
    split; intros (? & [= <-] & Hf); eexists; (split; [done|]); congruence. }
  assert (forall k j, path ns' j k = path ns j k) as Hpath.
  { induction k as [|b k IH]; intros j; [done|]. simpl. specialize (Hch j).
    destruct (ns' !! j), (ns !! j); simplify_eq/=; [|done]. rewrite Hch. by destruct (find_child _ _); simpl. }
  split; [split|].
  - unfold ns'. rewrite length_insert. apply Hw.
  - intros j b c. rewrite Hc. unfold ns'. rewrite length_insert. apply Hw.
  - intros j j' b b' c. rewrite !Hc. apply Hw.
  - intros j n Hj. specialize (Hch j). rewrite Hj in Hch. destruct (ns !! j) as [m|] eqn:E; simplify_eq/=.
    rewrite Hch. by eapply tw_sorted.
  - intros k. unfold denote. rewrite Hpath. destruct (decide (k = prefix)) as [->|Hk].
    + rewrite Hp. simpl. unfold ns'. by rewrite list_lookup_insert_eq.
    + destruct (path ns 0 k) as [j|] eqn:E; [|done]. simpl. unfold ns'.
      rewrite list_lookup_insert_ne; [done|]. intros ->. apply Hk. by eapply path_inj.
Qed.

Lemma trie_insert_spec trie prefix code :
  trie_wf (pt_nodes trie) -> zlen (pt_nodes trie) + zlen prefix <= 2 ^ 32 ->
  exists trie', trie_insert trie prefix code = Some trie' /\ trie_wf (pt_nodes trie') /\
    zlen (pt_nodes trie') <= zlen (pt_nodes trie) + zlen prefix /\
    forall k, denote (pt_nodes trie') k = if decide (k = prefix) then Some code else denote (pt_nodes trie) k.
Proof.
  intros Hw Hl. unfold trie_insert.
  destruct (insert_loop_spec (pt_nodes trie) 0 [] prefix) as (ns & i & -> & Hw' & Hp & Hz & Hd); [done..|].
  pose proof (path_lt _ _ _ _ Hw' (tw_root _ Hw') Hp) as Hi.
  destruct (lookup_lt_is_Some_2 ns i Hi) as [node Hn]. simpl. rewrite Hn. simpl.
  destruct (set_code_spec ns i node prefix code) as [Hw'' Hd']; [done..|].
  eexists. split_and!; [done|done| |].
  - simpl. unfold zlen in *. by rewrite length_insert.
  - intros k. simpl. by rewrite Hd', Hd.
Qed.

Lemma trie_new_wf : trie_wf (pt_nodes trie_new).
Proof.
  assert (forall i b c, ~ child (pt_nodes trie_new) i b c) as H.
  { intros [|i] b c (n & Hn & Hf); simplify_eq/=. }
  split; [simpl; lia|naive_solver..|]. intros [|i] n Hn; simplify_eq/=. constructor.
Qed.

Lemma trie_new_denote k : denote (pt_nodes trie_new) k = None.
Proof. by destruct k. Qed.

Definition total_len (entries : list (Z * str)) : Z := fold_right (fun e n => zlen e.2 + n) 0 entries.

Lemma total_len_nonneg entries : 0 <= total_len entries.
Proof. induction entries as [|e entries IH]; simpl; [lia|]. unfold zlen in *. lia. Qed.

Lemma insert_entries_spec entries trie :
  trie_wf (pt_nodes trie) -> NoDup entries.*2 -> zlen (pt_nodes trie) + total_len entries <= 2 ^ 32 ->
  exists trie', insert_entries trie entries = Some trie' /\ trie_wf (pt_nodes trie') /\
    forall k c, denote (pt_nodes trie') k = Some c <->
      ((c, k) ∈ entries /\ k <> []) \/ (denote (pt_nodes trie) k = Some c /\ (k ∉ entries.*2 \/ k = [])).
Proof.
  revert trie. induction entries as [|[code prefix] entries IH]; intros trie Hw Hnd Hl.
  { exists trie. split_and!; [done..|]. intros k c. set_solver. }
  rewrite fmap_cons in Hnd. apply NoDup_cons in Hnd as [Hp Hnd]. simpl in *.
  pose proof (total_len_nonneg entries). assert (0 <= zlen prefix) by (unfold zlen; lia).
  assert (forall c, (c, prefix) ∉ entries) as Hnp.
  { intros c Hc. apply Hp, list_elem_of_fmap. by exists (c, prefix). }
  case_bool_decide as Hne; simpl.
  - destruct (IH trie) as (trie' & E & Hw' & Hd); [done|done|lia|]. exists trie'. split_and!; [done..|].
    intros k c. rewrite Hd, elem_of_cons, not_elem_of_cons. subst prefix. clear.
    assert ((c, k) = (code, []) -> k = []) by congruence. destruct (decide (k = [])); tauto.
  - destruct (trie_insert_spec trie prefix code) as (t1 & -> & Hw1 & Hz1 & Hd1); [done|lia|]. simpl.
    destruct (IH t1) as (trie' & E & Hw' & Hd); [done|done|lia|]. exists trie'. split_and!; [done..|].
    intros k c. rewrite Hd, Hd1, elem_of_cons, not_elem_of_cons. clear -Hne Hp Hnp.
    destruct (decide (k = prefix)) as [->|Hk].
    + specialize (Hnp c). split; [intros [[]|[[= <-] _]]; [done|by left; split; [left|]]|].
      intros [[[[= <-]|?] _]|[_ [[]|]]]; [right; auto|done..].
    + assert ((c, k) <> (code, prefix)) by congruence. tauto.
Qed.

Lemma from_namespace_codes_spec entries :
  NoDup entries.*2 -> 1 + total_len entries <= 2 ^ 32 ->
  exists trie, from_namespace_codes entries = Some trie /\ trie_wf (pt_nodes trie) /\
    forall k c, denote (pt_nodes trie) k = Some c <-> (c, k) ∈ entries /\ k <> [].
Proof.
  intros Hnd Hl. destruct (insert_entries_spec entries trie_new) as (trie & E & Hw & Hd);
    [apply trie_new_wf|done|done|].
  exists trie. split_and!; [done..|]. intros k c. rewrite Hd, trie_new_denote. naive_solver.
Qed.

(** ** Matching *)

Lemma denote_extend ns k1 k2 : path ns 0 k1 = None -> denote ns (k1 ++ k2) = None.
Proof. intros H. unfold denote. by rewrite path_app, H. Qed.

(** The longest registered extension of [pre] along [rest]. *)
Fixpoint best_from (d : str -> option Z) (pre rest : str) (best : option (Z * nat)) : option (Z * nat) :=
  match rest with
  | [] => best
  | b :: rest =>
      let pre := pre ++ [b] in
      best_from d pre rest (match d pre with Some c => Some (c, length pre) | None => best end)
  end.

Lemma best_from_none d pre rest best :
  (forall k, d (pre ++ k) = None) -> best_from d pre rest best = best.
Proof.
  revert pre. induction rest as [|b rest IH]; intros pre Hd; [done|]. simpl. rewrite Hd.
  apply IH. intros k. rewrite <- app_assoc. apply Hd.
Qed.

Lemma prefix_of_cons_inv (k : str) b rest :
  k `prefix_of` b :: rest -> k = [] \/ exists k', k = b :: k' /\ k' `prefix_of` rest.
Proof.
  destruct k as [|b' k]; [by left|]. intros H. right.
  apply prefix_cons_inv_1 in H as Hb. apply prefix_cons_inv_2 in H. subst. eauto.
Qed.

Lemma best_from_spec d pre rest best :
  (best_from d pre rest best = best /\ forall k, k `prefix_of` rest -> k <> [] -> d (pre ++ k) = None) \/
  (exists k c, best_from d pre rest best = Some (c, length (pre ++ k)) /\ k `prefix_of` rest /\ k <> [] /\
     d (pre ++ k) = Some c /\
     forall k', k' `prefix_of` rest -> (length k < length k')%nat -> d (pre ++ k') = None).
Proof.
  revert pre best. induction rest as [|b rest IH]; intros pre best; simpl.
  { left. split; [done|]. by intros k ->%prefix_nil_inv. }
  assert (forall k, (pre ++ [b]) ++ k = pre ++ b :: k) as Happ by (intros; by rewrite <- app_assoc).
  set (best' := match d (pre ++ [b]) with Some c => _ | None => best end).
  destruct (IH (pre ++ [b]) best') as [[-> Hn]|(k & c & -> & Hk & Hne & Hd & Hmax)]; clear IH.
  - unfold best'. destruct (d (pre ++ [b])) as [c|] eqn:E; [right; exists [b], c|left]; split_and!; try done.
    + apply prefix_cons, prefix_nil.
    + intros k' [->|(k & -> & Hk)]%prefix_of_cons_inv Hl; simpl in Hl; [lia|].
      rewrite <- Happ. apply Hn; [done|]. destruct k; [simpl in Hl; lia|done].
    + intros k' [->|(k & -> & Hk)]%prefix_of_cons_inv Hne; [done|].
      destruct k as [|x k]; [done|]. rewrite <- Happ. by apply Hn.
  - right. exists (b :: k), c. rewrite Happ in *. split_and!; try done; [by apply prefix_cons|].
    intros k' [->|(k2 & -> & Hk2)]%prefix_of_cons_inv Hl; simpl in Hl; [lia|].
    rewrite <- Happ. apply Hmax; [done|lia].
Qed.

Lemma match_loop_spec ns i pre best rest :
  trie_wf ns -> path ns 0 pre = Some i ->
  match_loop ns i (length pre) best rest = Some (best_from (denote ns) pre rest best).
Proof.
  revert i pre best. induction rest as [|b rest IH]; intros i pre best Hw Hp; [done|].
  pose proof (path_lt _ _ _ _ Hw (tw_root _ Hw) Hp) as Hi.
  destruct (lookup_lt_is_Some_2 ns i Hi) as [node Hn]. simpl. rewrite Hn. simpl.
  destruct (find_child b (tn_children node)) as [c|] eqn:Hf.
  - assert (path ns 0 (pre ++ [b]) = Some c) as Hp'.
    { apply path_snoc. exists i. split; [done|]. by exists node. }
    pose proof (path_lt _ _ _ _ Hw (tw_root _ Hw) Hp') as Hc.
    destruct (lookup_lt_is_Some_2 ns c Hc) as [ch Hch]. rewrite Hch. simpl.
    assert (denote ns (pre ++ [b]) = tn_code ch) as -> by (unfold denote; rewrite Hp'; simpl; by rewrite Hch).
    replace (S (length pre)) with (length (pre ++ [b])) by (rewrite length_app; simpl; lia).
    by rewrite <- (IH c).
  - assert (path ns 0 (pre ++ [b]) = None) as Hp'.
    { rewrite path_app, Hp. simpl. rewrite Hn. simpl. by rewrite Hf. }
    assert (forall k, denote ns ((pre ++ [b]) ++ k) = None) as Hd by (intros k; by apply denote_extend).
    pose proof (Hd []) as Hd0. rewrite app_nil_r in Hd0. rewrite Hd0. by rewrite best_from_none.
Qed.

(** What [longest_match] returns on the registered prefixes [entries]. *)
Definition longest_registered (entries : list (Z * str)) (iri : str) (r : option (Z * nat)) : Prop :=
  match r with
  | Some (c, n) => (0 < n <= length iri)%nat /\ (c, take n iri) ∈ entries /\
      forall c' p, (c', p) ∈ entries -> p `prefix_of` iri -> (length p <= n)%nat
  | None => forall c' p, (c', p) ∈ entries -> p `prefix_of` iri -> p = []
  end.

Lemma longest_match_spec trie entries iri :
  trie_wf (pt_nodes trie) -> (forall k c, denote (pt_nodes trie) k = Some c <-> (c, k) ∈ entries /\ k <> []) ->
  exists r, longest_match trie iri = Some r /\ longest_registered entries iri r.
Proof.
  intros Hw Hd. eexists. split; [by apply (match_loop_spec _ 0 [])|].
  destruct (best_from_spec (denote (pt_nodes trie)) [] iri None) as [[-> Hn]|(k & c & -> & Hk & Hne & Hc & Hmax)];
    simpl in *.
  - intros c p Hin Hp. destruct p as [|x p]; [done|]. specialize (Hn _ Hp ltac:(done)).
    rewrite (proj2 (Hd _ c)) in Hn by done. done.
  - apply Hd in Hc as [Hc _]. apply prefix_length in Hk as Hl. destruct Hk as [rest ->].
    split_and!; [|done|by rewrite take_app_length|].
    + destruct k; [done|simpl; lia].
    + intros c' p Hin Hp. destruct (decide (length p <= length k)%nat) as [|Hgt]; [done|].
      specialize (Hmax p Hp ltac:(lia)). rewrite (proj2 (Hd _ c')) in Hmax; [done|].
      split; [done|]. intros ->. simpl in Hgt. lia.
Qed.

(** C37: The prefix trie finds the longest registered prefix: built from any
    namespace table with distinct prefixes, in whatever order the hash map
    yields them, the trie exists without an index panic, and a lookup returns
    the code and the length of the longest non-empty registered prefix of the
    IRI, or nothing when there is none. *)
Theorem trie_longest_prefix (codes : gmap Z str) entries iri :
  entries ≡ₚ map_to_list codes -> NoDup entries.*2 -> 1 + total_len entries <= 2 ^ 32 ->
  exists trie, from_namespace_codes entries = Some trie /\
  exists r, longest_match trie iri = Some r /\ longest_registered (map_to_list codes) iri r.
Proof.
  intros Hp Hnd Hl. destruct (from_namespace_codes_spec entries) as (trie & E & Hw & Hd); [done..|].
  exists trie. split; [done|]. apply longest_match_spec; [done|].
  intros k c. by rewrite Hd, Hp.
Qed.
