(* ===== verification/IriSplit.v ===== *)
(** * Splitting IRIs

    Models [canonical_split] of [fluree-db-core/src/ns_encoding.rs]: the
    deterministic split of an IRI into a namespace prefix and a local name.
    Positions are byte offsets; slicing a [str] at an offset that is not a
    character boundary is a panic.  A loop [while pos < end && cond(bytes[pos])]
    runs over the bytes between [pos] and [end].  The iteration order of a hash
    map is the interface [NsOrder]. *)

From stdpp Require Import base list numbers gmap sorting strings.
From Stdlib Require Import ZArith Lia.
From S2P Require Import Prelude Bytes Vocab Envelope PrefixTrie.

Local Open Scope Z_scope.

Inductive NsAllocError :=
| NsOverflow
| CodeConflict (code : Z) (new_prefix existing_prefix : str)
| PrefixConflict (prefix : str) (new_code existing_code : Z).

(** The order in which a hash map from codes to prefixes is iterated. *)
Class NsOrder := ns_iter : gmap Z str -> list (Z * str).
Class NsOrderLaws `{NsOrder} : Prop := ns_iter_perm : forall m, ns_iter m ≡ₚ map_to_list m.

(** ** Bytes and slices *)

Definition SLASH : Z := 47.
Definition HASH : Z := 35.
Definition COLON : Z := 58.
Definition QUERY : Z := 63.
Definition AT : Z := 64.

(** [str::is_char_boundary] and [(&s[..n], &s[n..])]. *)
Definition is_char_boundary (s : str) (n : nat) : bool :=
  match n with
  | O => true
  | _ => match s !! n with Some b => negb (is_cont b) | None => (n =? length s)%nat end
  end.

Definition split_at (s : str) (n : nat) : outcome NsAllocError (str * str) :=
  if is_char_boundary s n then Ok (take n s, drop n s) else Panic.

(** [bytes.iter().position(p)] and [rposition(p)]. *)
Fixpoint position (p : Z -> bool) (bs : bytes) : option nat :=
  match bs with
  | [] => None
  | b :: bs => if p b then Some O else S <$> position p bs
  end.

Fixpoint rposition (p : Z -> bool) (bs : bytes) : option nat :=
  match bs with
  | [] => None
  | b :: bs => match rposition p bs with Some i => Some (S i) | None => if p b then Some O else None end
  end.

Fixpoint strip (p s : str) : option str :=
  match p, s with
  | [], _ => Some s
  | a :: p, b :: s => if a =? b then strip p s else None
  | _ :: _, [] => None
  end.

(** [bytes[from..to]]. *)
Definition sub_bytes (bs : bytes) (from to : nat) : bytes := drop from (take to bs).

(** [while pos < end && cond(bytes[pos]) { pos += 1 }]: the bytes passed over
    and the bytes that remain before [end]. *)
Fixpoint scan (cond : Z -> bool) (pos : nat) (bs : bytes) : nat * bytes :=
  match bs with
  | b :: rest => if cond b then scan cond (S pos) rest else (pos, bs)
  | [] => (pos, [])
  end.

(** ** The splitter *)

Definition BLANK_NODE_PREFIX : str := bytes_of_string "_:"%string.
Definition STABLE_BLANK_NODE_LABEL_PREFIX : str := bytes_of_string "fdb-"%string.

Definition stable_blank_node_local (iri : str) : option str :=
  local ← strip BLANK_NODE_PREFIX iri;
  match strip STABLE_BLANK_NODE_LABEL_PREFIX local with Some _ => Some local | None => None end.

Fixpoint find_authority (i : nat) (bs : bytes) : option nat :=
  match bs with
  | [] => None
  | a :: rest =>
      match rest with
      | b :: c :: _ =>
          if (a =? COLON) && (b =? SLASH) && (c =? SLASH) then Some (i + 3)%nat else find_authority (S i) rest
      | _ => None
      end
  end.

Definition find_authority_start (iri : str) : option nat := find_authority 0 iri.

Definition query_cut (iri : str) : option nat :=
  match position (Z.eqb QUERY) iri, position (Z.eqb HASH) iri with
  | Some q, Some h => if (q <? h)%nat then Some q else None
  | Some q, None => Some q
  | None, _ => None
  end.

(** The segments from [pos] on: [bs] is what is left before the end. *)
Fixpoint extend_by_n_segments (n pos : nat) (bs : bytes) : nat :=
  match n with
  | O => pos
  | S n =>
      let '(pos, bs) := scan (Z.eqb SLASH) pos bs in
      match bs with
      | [] => pos
      | _ =>
          let '(pos, bs) := scan (fun b => negb (b =? SLASH)) pos bs in
          match bs with
          | _ :: bs => extend_by_n_segments n (S pos) bs
          | [] => pos
          end
      end
  end.

Definition split_last (p : Z -> bool) (iri : str) (no_query_end : nat) : outcome NsAllocError (str * str) :=
  match rposition p (take no_query_end iri) with
  | Some pos => split_at iri (S pos)
  | None => Ok ([], iri)
  end.

Definition split_hierarchical (iri : str) (mode : NsSplitMode) (authority_start : nat) :
    outcome NsAllocError (str * str) :=
  let no_query_end := default (length iri) (query_cut iri) in
  let '(host_end, rest) :=
    scan (fun b => negb (b =? SLASH)) authority_start (sub_bytes iri authority_start no_query_end) in
  let host_root_end := match rest with _ :: _ => S host_end | [] => host_end end in
  match mode with
  | MostGranular => split_last (fun b => (b =? SLASH) || (b =? HASH)) iri no_query_end
  | HostPlusN n =>
      let head_end := default no_query_end (position (Z.eqb HASH) (take no_query_end iri)) in
      if (head_end <=? host_root_end)%nat ||
         negb (existsb (Z.eqb SLASH) (sub_bytes iri (host_root_end - 1) host_root_end))
      then split_at iri host_root_end
      else
        split_at iri
          (extend_by_n_segments (Z.to_nat n) host_root_end (sub_bytes iri host_root_end head_end))
  end.

(** The end of the last of the first [take] colon segments of [rest], from
    [pos]: [bs] is [rest[pos..]]. *)
Fixpoint colon_segments (take pos last_seg_end : nat) (bs : bytes) : nat :=
  match take with
  | O => last_seg_end
  | S take =>
      let '(seg_end, bs) := scan (fun b => negb (b =? COLON)) pos bs in
      match bs with
      | [] => seg_end
      | _ :: bs => colon_segments take (S seg_end) seg_end bs
      end
  end.

Definition split_opaque (iri : str) (mode : NsSplitMode) : outcome NsAllocError (str * str) :=
  let no_query_end := default (length iri) (query_cut iri) in
  match position (Z.eqb COLON) iri with
  | None => Ok ([], iri)
  | Some scheme_end =>
      match mode with
      | MostGranular => split_last (fun b => (b =? SLASH) || (b =? HASH) || (b =? COLON)) iri no_query_end
      | HostPlusN n =>
          let rest_start := S scheme_end in
          if (no_query_end <? rest_start)%nat then Panic else
          let rest := sub_bytes iri rest_start no_query_end in
          let abs_seg_end := (rest_start + colon_segments (1 + Z.to_nat n) 0 0 rest)%nat in
          let prefix_end :=
            if (abs_seg_end <? no_query_end)%nat &&
               (match iri !! abs_seg_end with Some b => b =? COLON | None => false end)
            then S abs_seg_end else abs_seg_end in
          split_at iri prefix_end
      end
  end.

Section split.
Context `{NO : NsOrder}.

Definition BUILTIN_TRIE : option PrefixTrie := from_namespace_codes (ns_iter default_namespace_codes).

(** [BUILTIN_TRIE.longest_match(iri)]: the length of the match. *)
Definition builtin_match (iri : str) : outcome NsAllocError (option nat) :=
  match trie ← BUILTIN_TRIE; longest_match trie iri with
  | Some r => Ok (snd <$> r)
  | None => Panic
  end.

Definition starts_with_at (iri : str) : bool := match iri with b :: _ => b =? AT | [] => false end.

Definition split_general (iri : str) (mode : NsSplitMode) : outcome NsAllocError (str * str) :=
  match find_authority_start iri with
  | Some authority_start => split_hierarchical iri mode authority_start
  | None => split_opaque iri mode
  end.

Definition canonical_split (iri : str) (mode : NsSplitMode) : outcome NsAllocError (str * str) :=
  match strip BLANK_NODE_PREFIX iri with
  | Some rest => Ok (BLANK_NODE_PREFIX, rest)
  | None =>
      at_match ← (if starts_with_at iri then builtin_match iri else Ok None);
      match at_match with
      | Some prefix_len => split_at iri prefix_len
      | None =>
          host_match ← (if mode is HostPlusN _ then builtin_match iri else Ok None);
          match host_match with
          | Some prefix_len => split_at iri prefix_len
          | None => split_general iri mode
          end
      end
  end.
End split.

(** ** Character boundaries *)

Definition ascii (b : Z) : Prop := 0 <= b < 128.

Lemma ascii_not_cont b : ascii b -> is_cont b = false.
Proof. intros Hb. unfold is_cont, between. destruct (Z.leb_spec 0x80 b); [unfold ascii in *; lia|done]. Qed.

(** Offset [n] touches an ASCII byte or an end of the text. *)
Definition edge (s : str) (n : nat) : Prop :=
  n = 0%nat \/ n = length s \/ (exists b, s !! n = Some b /\ ascii b) \/
  (exists m b, n = S m /\ s !! m = Some b /\ ascii b).

Lemma between_true lo hi b : between lo hi b = true <-> lo <= b <= hi.
Proof. unfold between. rewrite andb_true_iff, !Z.leb_le. done. Qed.

Lemma utf8_head b s : utf8_valid (b :: s) = true -> is_cont b = false.
Proof.
  intros H. apply not_true_iff_false. intros Hc. unfold is_cont in Hc. rewrite between_true in Hc.
  simpl in H. unfold between in H.
  repeat match type of H with context [(?x <=? ?y)] => destruct (Z.leb_spec x y); try lia end; simpl in H; done.
Qed.

(** A valid text cut where no character continues is two valid texts. *)
Lemma utf8_split pre post :
  utf8_valid (pre ++ post) = true -> (forall b, head post = Some b -> is_cont b = false) ->
  utf8_valid pre = true /\ utf8_valid post = true.
Proof.
  intros H Hpost. remember (length pre) as n eqn:En. revert pre H En.
  induction n as [n IH] using lt_wf_ind; intros pre H ->.
  destruct pre as [|b0 pre]; [done|]. cbn [app] in H. cbn [utf8_valid] in *.
  assert (forall b bs, post = b :: bs -> is_cont b = true -> False) as Hno.
  { intros b bs -> Hb. rewrite (Hpost b) in Hb; done. }
  destruct (between 0 0x7F b0) eqn:E0.
  { by apply (IH (length pre)) in H; simpl; [|lia|]. }
  destruct (between 0xC2 0xDF b0) eqn:E1.
  { destruct pre as [|b1 pre]; simpl in H.
    - destruct post as [|b1 post]; [done|]. apply andb_true_iff in H as [H _]. by edestruct Hno.
    - apply andb_true_iff in H as [-> H]. by apply (IH (length pre)) in H; simpl; [|lia|]. }
  destruct (between 0xE0 0xEF b0) eqn:E2.
  { assert (forall b1, (if b0 =? 0xE0 then between 0xA0 0xBF b1
      else if b0 =? 0xED then between 0x80 0x9F b1 else is_cont b1) = true -> is_cont b1 = true) as Hb1.
    { intros b1. unfold is_cont. repeat case_match; rewrite !between_true; lia. }
    destruct pre as [|b1 [|b2 pre]]; simpl in H.
    - destruct post as [|b1 [|b2 post]]; [done..|]. apply andb_true_iff in H as [[H _]%andb_true_iff _].
      apply Hb1 in H. by edestruct Hno.
    - destruct post as [|b2 post]; [done|]. apply andb_true_iff in H as [[_ H]%andb_true_iff _]. by edestruct Hno.
    - apply andb_true_iff in H as [-> H]. by apply (IH (length pre)) in H; simpl; [|lia|]. }
  destruct (between 0xF0 0xF4 b0) eqn:E3; [|done].
  assert (forall b1, (if b0 =? 0xF0 then between 0x90 0xBF b1
    else if b0 =? 0xF4 then between 0x80 0x8F b1 else is_cont b1) = true -> is_cont b1 = true) as Hb1.
  { intros b1. unfold is_cont. repeat case_match; rewrite !between_true; lia. }
  destruct pre as [|b1 [|b2 [|b3 pre]]]; simpl in H.
  - destruct post as [|b1 [|b2 [|b3 post]]]; [done..|].
    apply andb_true_iff in H as [[[H _]%andb_true_iff _]%andb_true_iff _]. apply Hb1 in H. by edestruct Hno.
  - destruct post as [|b2 [|b3 post]]; [done..|].
    apply andb_true_iff in H as [[[_ H]%andb_true_iff _]%andb_true_iff _]. by edestruct Hno.
  - destruct post as [|b3 post]; [done|].
    apply andb_true_iff in H as [[_ H]%andb_true_iff _]. by edestruct Hno.
  - apply andb_true_iff in H as [-> H]. by apply (IH (length pre)) in H; simpl; [|lia|].
Qed.

(** Slicing a valid text at an edge. *)
Lemma split_edge s n :
  utf8_valid s = true -> edge s n ->
  split_at s n = Ok (take n s, drop n s) /\ utf8_valid (take n s) = true /\ utf8_valid (drop n s) = true.
Proof.
  intros Hs He.
  assert (forall b, drop n s !! 0%nat = Some b -> is_cont b = false) as Hb.
  { intros b. rewrite lookup_drop, Nat.add_0_r. intros Hb.
    destruct He as [->|[->|[(b' & Hb' & Ha)|(m & a & -> & Hm & Ha)]]].
    - destruct s; simplify_eq/=. by eapply utf8_head.
    - by rewrite (proj2 (lookup_ge_None s _)) in Hb by lia.
    - simplify_eq. by apply ascii_not_cont.
    - rewrite <- (take_drop_middle s m a Hm) in Hs.
      apply utf8_split in Hs as [_ Hs]; [|intros ? [= <-]; by apply ascii_not_cont].
      simpl in Hs. assert (between 0 0x7F a = true) as Hr by (apply between_true; unfold ascii in Ha; lia).
      rewrite Hr in Hs. rewrite <- (Nat.add_0_r (S m)), <- lookup_drop in Hb.
      destruct (drop (S m) s); simplify_eq/=. by eapply utf8_head. }
  assert (is_char_boundary s n = true) as Hc.
  { unfold is_char_boundary. destruct n as [|n]; [done|].
    rewrite lookup_drop, Nat.add_0_r in Hb. destruct (s !! S n) as [b|] eqn:E; [by rewrite (Hb b)|].
    apply Nat.eqb_eq. apply lookup_ge_None in E.
    destruct He as [?|[?|[(b' & Hb' & _)|(m & a & ? & Hm & _)]]]; [done..| |].
    - apply lookup_lt_Some in Hb'. lia.
    - apply lookup_lt_Some in Hm. lia. }
  unfold split_at. rewrite Hc. split; [done|]. apply utf8_split; [by rewrite take_drop|].
  intros b Hh. apply Hb. by destruct (drop n s).
Qed.

(** ** Positions *)

Lemma position_spec p bs i : position p bs = Some i -> exists b, bs !! i = Some b /\ p b = true.
Proof.
  revert i. induction bs as [|b bs IH]; intros i; simpl; [done|]. destruct (p b) eqn:E; [intros [= <-]; eauto|].
  destruct (position p bs) as [j|]; intros [= <-]. by apply IH.
Qed.

Lemma rposition_spec p bs i : rposition p bs = Some i -> exists b, bs !! i = Some b /\ p b = true.
Proof.
  revert i. induction bs as [|b bs IH]; intros i; simpl; [done|].
  destruct (rposition p bs) as [j|]; [intros [= <-]; by apply IH|]. destruct (p b) eqn:E; intros [= <-]. eauto.
Qed.

Lemma position_byte c bs i : position (Z.eqb c) bs = Some i -> bs !! i = Some c.
Proof. intros (b & Hb & ->%Z.eqb_eq)%position_spec. done. Qed.

Lemma edge_at s n b : s !! n = Some b -> ascii b -> edge s n.
Proof. unfold edge. eauto 10. Qed.

Lemma edge_past s n b : s !! n = Some b -> ascii b -> edge s (S n).
Proof. unfold edge. eauto 10. Qed.

Lemma query_cut_spec s : let n := default (length s) (query_cut s) in edge s n /\ (n <= length s)%nat.
Proof.
  simpl. destruct (query_cut s) as [q|] eqn:E; simpl; [|split; [unfold edge; auto|done]].
  assert (position (Z.eqb QUERY) s = Some q) as Hq.
  { unfold query_cut in E. destruct (position (Z.eqb QUERY) s), (position (Z.eqb HASH) s); repeat case_match; congruence. }
  apply position_byte in Hq. split; [by eapply edge_at|]. apply lookup_lt_Some in Hq. lia.
Qed.

Lemma sub_bytes_cons s from to b rest :
  sub_bytes s from to = b :: rest ->
  s !! from = Some b /\ rest = sub_bytes s (S from) to /\ (from < to)%nat.
Proof.
  unfold sub_bytes. intros H.
  assert (take to s !! from = Some b) as Hb by by rewrite <- (Nat.add_0_r from), <- lookup_drop, H.
  apply lookup_take_Some in Hb as [Hb Hlt]. split_and!; [done| |done].
  change (S from) with (1 + from)%nat. rewrite Nat.add_comm, <- drop_drop, H. done.
Qed.

Lemma sub_bytes_nil s from to : (from <= to <= length s)%nat -> sub_bytes s from to = [] -> from = to.
Proof.
  unfold sub_bytes. intros Hle H. apply (f_equal length) in H. rewrite length_drop, length_take in H. simpl in H. lia.
Qed.

Lemma scan_sub cond s pos to :
  (pos <= to <= length s)%nat ->
  exists pos', scan cond pos (sub_bytes s pos to) = (pos', sub_bytes s pos' to) /\ (pos <= pos' <= to)%nat /\
    forall b rest, sub_bytes s pos' to = b :: rest -> cond b = false.
Proof.
  remember (to - pos)%nat as n eqn:En. revert pos En. induction n as [|n IH]; intros pos En Hle.
  - assert (pos = to) as -> by lia. exists to.
    assert (sub_bytes s to to = []) as -> by (unfold sub_bytes; apply drop_ge; rewrite length_take; lia). done.
  - destruct (sub_bytes s pos to) as [|b rest] eqn:E; [apply sub_bytes_nil in E; lia|].
    apply sub_bytes_cons in E as E'. destruct E' as (Hb & -> & Hlt). cbn [scan].
    destruct (cond b) eqn:Hc.
    + destruct (IH (S pos)) as (pos' & E1 & ? & ?); [lia..|]. exists pos'. rewrite E1. split_and!; [done|lia..|done].
    + exists pos. rewrite E. split_and!; [done|lia..|]. by intros ? ? [= <- <-].
Qed.

(** ** The parts of the split *)

Definition ok_split (s : str) (r : outcome NsAllocError (str * str)) : Prop :=
  exists p q, r = Ok (p, q) /\ p ++ q = s /\ utf8_valid p = true /\ utf8_valid q = true.

Lemma split_at_ok s n : utf8_valid s = true -> edge s n -> ok_split s (split_at s n).
Proof.
  intros Hs He. destruct (split_edge s n Hs He) as (-> & ? & ?). eexists _, _. split_and!; [done| |done..].
  apply take_drop.
Qed.

Lemma whole_suffix_ok s : utf8_valid s = true -> ok_split s (Ok ([], s)).
Proof. intros Hs. by exists [], s. Qed.

Lemma split_last_ok p s n :
  utf8_valid s = true -> (forall b, p b = true -> ascii b) -> ok_split s (split_last p s n).
Proof.
  intros Hs Hp. unfold split_last. destruct (rposition p _) as [i|] eqn:E; [|by apply whole_suffix_ok].
  apply rposition_spec in E as (b & Hb & Hpb). apply lookup_take_Some in Hb as [Hb _].
  apply split_at_ok; [done|]. eapply edge_past; eauto.
Qed.

Lemma extend_edge s n pos to :
  (pos <= to <= length s)%nat -> edge s pos -> edge s to ->
  edge s (extend_by_n_segments n pos (sub_bytes s pos to)).
Proof.
  revert pos. induction n as [|n IH]; intros pos Hle Hp Ht; [done|]. cbn [extend_by_n_segments].
  destruct (scan_sub (Z.eqb SLASH) s pos to) as (p1 & -> & H1 & _); [done|].
  destruct (sub_bytes s p1 to) as [|b1 r1] eqn:E1.
  { apply sub_bytes_nil in E1; [by subst|lia]. }
  rewrite <- E1. destruct (scan_sub (fun b => negb (b =? SLASH)) s p1 to) as (p2 & -> & H2 & Hb2); [lia|].
  destruct (sub_bytes s p2 to) as [|b2 r2] eqn:E2.
  { apply sub_bytes_nil in E2; [by subst|lia]. }
  specialize (Hb2 _ _ eq_refl). apply negb_false_iff, Z.eqb_eq in Hb2 as ->.
  apply sub_bytes_cons in E2 as (Hs & -> & ?). apply IH; [lia| |done]. by eapply edge_past.
Qed.

Lemma find_authority_spec i bs n :
  find_authority i bs = Some n -> exists j, (n = i + j + 3)%nat /\ bs !! (j + 2)%nat = Some SLASH.
Proof.
  revert i. induction bs as [|a bs IH]; intros i H; [done|]. cbn [find_authority] in H.
  destruct bs as [|b [|c bs]]; [done..|].
  destruct ((a =? COLON) && (b =? SLASH) && (c =? SLASH)) eqn:E.
  - injection H as <-. exists 0%nat. split; [lia|]. simpl. apply andb_true_iff in E as [_ ->%Z.eqb_eq]. done.
  - apply IH in H as (j & -> & Hj). exists (S j). split; [lia|done].
Qed.

Lemma authority_edge s n : find_authority_start s = Some n -> edge s n /\ (n <= length s)%nat.
Proof.
  intros (j & -> & Hj)%find_authority_spec. replace (0 + j + 3)%nat with (S (j + 2)) by lia.
  split; [by eapply edge_past|]. apply lookup_lt_Some in Hj. lia.
Qed.

(** The end of [scheme://authority/]. *)
Lemma host_root_edge s a nqe :
  edge s a -> (a <= length s)%nat -> edge s nqe -> (nqe <= length s)%nat ->
  let '(host_end, rest) := scan (fun b => negb (b =? SLASH)) a (sub_bytes s a nqe) in
  edge s (match rest with _ :: _ => S host_end | [] => host_end end).
Proof.
  intros Ha Hla Hn Hln. destruct (decide (a <= nqe)%nat) as [Hle|Hgt].
  - destruct (scan_sub (fun b => negb (b =? SLASH)) s a nqe) as (h & -> & Hh & Hb); [lia|].
    destruct (sub_bytes s h nqe) as [|b rest] eqn:E.
    + apply sub_bytes_nil in E; [by subst|lia].
    + specialize (Hb _ _ eq_refl). apply negb_false_iff, Z.eqb_eq in Hb as ->.
      apply sub_bytes_cons in E as (Hs & _). by eapply edge_past.
  - assert (sub_bytes s a nqe = []) as -> by (unfold sub_bytes; apply drop_ge; rewrite length_take; lia). done.
Qed.

Lemma head_end_spec s nqe :
  edge s nqe -> (nqe <= length s)%nat ->
  let e := default nqe (position (Z.eqb HASH) (take nqe s)) in edge s e /\ (e <= length s)%nat.
Proof.
  intros He Hl. destruct (position _ (take nqe s)) as [h|] eqn:E; simpl; [|done].
  apply position_byte, lookup_take_Some in E as [Hh _]. split; [by eapply edge_at|].
  apply lookup_lt_Some in Hh. lia.
Qed.

Lemma split_hierarchical_ok s mode a :
  utf8_valid s = true -> find_authority_start s = Some a -> ok_split s (split_hierarchical s mode a).
Proof.
  intros Hs [Ha Hla]%authority_edge. unfold split_hierarchical. destruct (query_cut_spec s) as [Hq Hlq].
  set (nqe := default (length s) (query_cut s)) in *.
  pose proof (host_root_edge s a nqe Ha Hla Hq Hlq) as Hr.
  destruct (scan _ a (sub_bytes s a nqe)) as [h rest]. set (root := match rest with _ :: _ => _ | [] => h end) in *.
  destruct mode as [|n].
  - apply split_last_ok; [done|]. intros b [->%Z.eqb_eq| ->%Z.eqb_eq]%orb_true_iff; by unfold ascii.
  - destruct (head_end_spec s nqe Hq Hlq) as [He Hle]. set (e := default nqe _) in *.
    destruct (Nat.leb_spec e root); simpl; [by apply split_at_ok|].
    case_match; apply split_at_ok; try done. apply extend_edge; [lia|done..].
Qed.

(** An opaque IRI whose query starts before its first colon. *)
Definition query_before_scheme (s : str) : Prop :=
  find_authority_start s = None /\
  exists q c, query_cut s = Some q /\ position (Z.eqb COLON) s = Some c /\ (q < c)%nat.

Lemma colon_segments_spec rest k pos last :
  (pos <= length rest)%nat -> (k = 0%nat -> last = length rest \/ rest !! last = Some COLON) ->
  let r := colon_segments k pos last (sub_bytes rest pos (length rest)) in r = length rest \/ rest !! r = Some COLON.
Proof.
  revert pos last. induction k as [|k IH]; intros pos last Hp Hl; [by apply Hl|]. cbn [colon_segments].
  destruct (scan_sub (fun b => negb (b =? COLON)) rest pos (length rest)) as (p1 & -> & H1 & Hb); [lia|].
  destruct (sub_bytes rest p1 (length rest)) as [|b r1] eqn:E.
  { apply sub_bytes_nil in E; [by left|lia]. }
  specialize (Hb _ _ eq_refl). apply negb_false_iff, Z.eqb_eq in Hb as ->.
  apply sub_bytes_cons in E as (Hs & -> & ?). apply IH; [lia|]. by right.
Qed.

Lemma split_opaque_ok s mode :
  utf8_valid s = true -> find_authority_start s = None ->
  mode = MostGranular \/ ~ query_before_scheme s -> ok_split s (split_opaque s mode).
Proof.
  intros Hs Ha Hm. unfold split_opaque. destruct (query_cut_spec s) as [Hq Hlq].
  destruct (position (Z.eqb COLON) s) as [c|] eqn:Hc; [|by apply whole_suffix_ok].
  apply position_byte in Hc as Hcb. apply lookup_lt_Some in Hcb as Hlc.
  destruct mode as [|n].
  { apply split_last_ok; [done|].
    intros b [[->%Z.eqb_eq| ->%Z.eqb_eq]%orb_true_iff| ->%Z.eqb_eq]%orb_true_iff; by unfold ascii. }
  assert (S c <= default (length s) (query_cut s))%nat as Hle.
  { destruct (query_cut s) as [q|] eqn:Eq; simpl; [|lia]. destruct (decide (S c <= q)%nat) as [|Hgt]; [done|].
    destruct Hm as [|Hm]; [done|]. destruct (decide (q = c)) as [->|Hne].
    - unfold query_cut in Eq. destruct (position (Z.eqb QUERY) s) as [q'|] eqn:E, (position (Z.eqb HASH) s);
        simplify_eq; apply position_byte in E; repeat case_match; simplify_eq; congruence.
    - destruct Hm. split; [done|]. exists q, c. split_and!; [done..|lia]. }
  set (nqe := default (length s) (query_cut s)) in *.
  destruct (Nat.ltb_spec nqe (S c)); [lia|].
  set (rest := sub_bytes s (S c) nqe).
  assert (length rest = nqe - S c)%nat as Hlr by (unfold rest, sub_bytes; rewrite length_drop, length_take; lia).
  pose proof (colon_segments_spec rest (1 + Z.to_nat n) 0 0 ltac:(lia) ltac:(done)) as Hr.
  assert (sub_bytes rest 0 (length rest) = rest) as Hall by (unfold sub_bytes; by rewrite take_ge, drop_0 by lia).
  rewrite Hall in Hr. set (r := colon_segments _ 0 0 rest) in *. apply split_at_ok; [done|].
  destruct Hr as [Hr|Hr].
  - assert (S c + r = nqe)%nat as -> by lia. by rewrite Nat.ltb_irrefl.
  - apply lookup_lt_Some in Hr as Hlt. unfold rest, sub_bytes in Hr.
    rewrite lookup_drop in Hr. apply lookup_take_Some in Hr as [Hr _]. rewrite Hr.
    destruct (_ && _); [by eapply edge_past|by eapply edge_at].
Qed.

(** ** Built-in prefixes *)

Section builtin.
Context `{NO : NsOrder} {NL : NsOrderLaws}.

Lemma total_len_perm l1 l2 : l1 ≡ₚ l2 -> total_len l1 = total_len l2.
Proof. induction 1; simpl in *; lia. Qed.

Lemma defaults_listed c p : (c, p) ∈ map_to_list default_namespace_codes <-> (c, p) ∈ default_entries.
Proof.
  assert (map_to_list default_namespace_codes ≡ₚ default_entries) as Hp.
  { apply (bool_decide_eq_true _). by vm_compute. }
  by rewrite Hp.
Qed.

Lemma builtin_trie_spec iri :
  exists trie r, BUILTIN_TRIE = Some trie /\ longest_match trie iri = Some r /\
    longest_registered default_entries iri r.
Proof.
  pose proof (ns_iter_perm default_namespace_codes) as Hp.
  destruct (from_namespace_codes_spec (ns_iter default_namespace_codes)) as (trie & E & Hw & Hd).
  - rewrite Hp. apply (bool_decide_eq_true _). by vm_compute.
  - rewrite (total_len_perm _ _ Hp). apply Z.leb_le. by vm_compute.
  - exists trie. destruct (longest_match_spec trie default_entries iri) as (r & ? & ?); [done| |by exists r].
    intros k c. by rewrite Hd, Hp, defaults_listed.
Qed.

(** What the built-in lookup answers: the length of the longest prefix. *)
Lemma builtin_match_spec iri :
  exists r, builtin_match iri = Ok r /\
    match r with
    | Some n => (0 < n <= length iri)%nat /\ (exists c, (c, take n iri) ∈ default_entries) /\
        forall c p, (c, p) ∈ default_entries -> p `prefix_of` iri -> (length p <= n)%nat
    | None => forall c p, (c, p) ∈ default_entries -> p `prefix_of` iri -> p = []
    end.
Proof.
  destruct (builtin_trie_spec iri) as (trie & r & Et & Er & Hr). unfold builtin_match. rewrite Et. simpl. rewrite Er.
  eexists. split; [done|]. destruct r as [[c n]|]; simpl in *; [|done]. naive_solver.
Qed.

Definition delimiter (b : Z) : bool := (b =? SLASH) || (b =? HASH) || (b =? COLON).

Lemma defaults_ascii c p : (c, p) ∈ default_entries -> Forall ascii p.
Proof.
  intros Hp. assert (Forall (fun e => Forall (fun b => 0 <= b /\ b < 128) e.2) default_entries) as H.
  { apply (bool_decide_eq_true _). by vm_compute. }
  rewrite Forall_forall in H. apply (H _ Hp).
Qed.

Lemma builtin_edge iri n c : (0 < n <= length iri)%nat -> (c, take n iri) ∈ default_entries -> edge iri n.
Proof.
  intros Hn Hin%defaults_ascii. destruct n as [|m]; [lia|].
  destruct (lookup_lt_is_Some_2 iri m) as [b Hb]; [lia|]. apply (edge_past _ _ b Hb).
  rewrite Forall_lookup in Hin. apply (Hin m). apply lookup_take_Some. split; [done|lia].
Qed.

Lemma split_builtin_ok iri r :
  utf8_valid iri = true -> builtin_match iri = Ok (Some r) -> ok_split iri (split_at iri r).
Proof.
  intros Hs E. destruct (builtin_match_spec iri) as (r' & E' & Hr). rewrite E in E'. injection E' as <-.
  destruct Hr as (Hn & [c Hc] & _). apply split_at_ok; [done|]. by eapply builtin_edge.
Qed.

Lemma strip_spec p s r : strip p s = Some r -> s = p ++ r.
Proof.
  revert s. induction p as [|a p IH]; intros [|b s]; simpl; try congruence.
  destruct (Z.eqb_spec a b); [|done]. subst. by intros ->%IH.
Qed.

Lemma canonical_split_total iri mode :
  utf8_valid iri = true -> mode = MostGranular \/ ~ query_before_scheme iri ->
  ok_split iri (canonical_split iri mode).
Proof.
  intros Hs Hm. unfold canonical_split.
  destruct (strip BLANK_NODE_PREFIX iri) as [rest|] eqn:Eb.
  { apply strip_spec in Eb. exists BLANK_NODE_PREFIX, rest. rewrite Eb in Hs. split_and!; [done..|]. exact Hs. }
  assert (ok_split iri (split_general iri mode)) as Hg.
  { unfold split_general. destruct (find_authority_start iri) eqn:Ea;
      by (apply split_hierarchical_ok || apply split_opaque_ok). }
  destruct (builtin_match_spec iri) as (r & E & _).
  assert (forall r, builtin_match iri = Ok (Some r) -> ok_split iri (split_at iri r)) as Hsb
    by (intros; by apply split_builtin_ok).
  destruct (starts_with_at iri), mode, r; rewrite ?E; simpl; rewrite ?E; simpl; auto.
Qed.

(** C36: Splitting is total and lossless: for every valid UTF-8 IRI and both split
    modes, [canonical_split] returns two valid texts whose concatenation is the
    IRI, with every slice on a character boundary; the one exception are opaque
    IRIs whose query begins before the first colon in [HostPlusN] mode. *)
Theorem canonical_split_lossless iri mode :
  utf8_valid iri = true -> mode = MostGranular \/ ~ query_before_scheme iri ->
  exists p q, canonical_split iri mode = Ok (p, q) /\ p ++ q = iri /\ utf8_valid p = true /\ utf8_valid q = true.
Proof. apply canonical_split_total. Qed.

(** ** Names of the built-in vocabularies *)

(** A local name without separators. *)
Definition simple_name (l : str) : Prop := Forall (fun b => delimiter b = false /\ b <> QUERY) l.

Lemma position_none p bs : Forall (fun b => p b = false) bs -> position p bs = None.
Proof. induction 1 as [|b bs Hb _ IH]; [done|]. simpl. by rewrite Hb, IH. Qed.

Lemma rposition_app p l1 l2 : Forall (fun b => p b = false) l2 -> rposition p (l1 ++ l2) = rposition p l1.
Proof.
  intros H. induction l1 as [|b l1 IH]; simpl; [|by rewrite IH].
  induction H as [|b l2 Hb _ IH]; [done|]. simpl. by rewrite IH, Hb.
Qed.

Lemma find_authority_none i bs : SLASH ∉ bs -> find_authority i bs = None.
Proof.
  revert i. induction bs as [|a [|b [|c bs]] IH]; intros i Hn; [done..|].
  assert (b <> SLASH) as Hb by (intros ->; apply Hn; set_solver).
  change (find_authority i (a :: b :: c :: bs)) with
    (if (a =? COLON) && (b =? SLASH) && (c =? SLASH) then Some (i + 3)%nat else find_authority (S i) (b :: c :: bs)).
  rewrite (proj2 (Z.eqb_neq b SLASH) Hb), andb_false_r. apply IH. set_solver.
Qed.

Lemma query_cut_none s : QUERY ∉ s -> query_cut s = None.
Proof.
  intros Hn. unfold query_cut. rewrite position_none; [done|]. apply Forall_forall. intros b Hb.
  apply Z.eqb_neq. by intros <-.
Qed.

(** The longest built-in prefix of a built-in name is its own. *)
Lemma builtin_match_name c p local :
  (c, p) ∈ default_entries -> p <> [] -> simple_name local -> builtin_match (p ++ local) = Ok (Some (length p)).
Proof.
  intros Hp Hne Hl. destruct (builtin_match_spec (p ++ local)) as (r & -> & Hr).
  destruct r as [n|]; [|by destruct Hne; eapply Hr; [exact Hp|apply prefix_app_r]].
  destruct Hr as (Hn & [c' Hc'] & Hmax). specialize (Hmax c p Hp (prefix_app_r _ _ _ ltac:(done))).
  do 2 f_equal. destruct (decide (n = length p)) as [|Hd]; [done|exfalso].
  assert (length p < n)%nat as Hgt by lia. clear Hd Hmax.
  assert (Forall (fun e => (length e.2 <= 1)%nat \/ delimiter (default 0 (last e.2)) = true) default_entries) as Hall.
  { apply (bool_decide_eq_true _). by vm_compute. }
  rewrite Forall_forall in Hall. apply Hall in Hc'. simpl in Hc'. destruct Hc' as [Hc'|Hc'].
  - rewrite length_take in Hc'. destruct p; [done|simpl in *; lia].
  - rewrite take_app_ge in Hc' by lia. destruct (take (n - length p) local) as [|b l] eqn:E.
    { apply (f_equal length) in E. rewrite length_take, length_app in *. simpl in E. lia. }
    rewrite last_app_cons in Hc'. assert (Forall (fun b => delimiter b = false /\ b <> QUERY) (b :: l)) as Hf
      by (rewrite <- E; by apply Forall_take).
    rewrite Forall_forall in Hf. destruct (last (b :: l)) as [x|] eqn:Ex; [|by apply last_None in Ex].
    apply last_Some in Ex as [l' Ex]. rewrite Ex in Hf. destruct (Hf x) as [Hx _]; [set_solver|]. simpl in Hc'. congruence.
Qed.
Lemma find_authority_app i p l n : find_authority i p = Some n -> find_authority i (p ++ l) = Some n.
Proof.
  revert i. induction p as [|a [|b [|c p]] IH]; intros i H; [done..|].
  change (find_authority i ((a :: b :: c :: p) ++ l)) with
    (if (a =? COLON) && (b =? SLASH) && (c =? SLASH) then Some (i + 3)%nat else find_authority (S i) ((b :: c :: p) ++ l)).
  change (find_authority i (a :: b :: c :: p)) with
    (if (a =? COLON) && (b =? SLASH) && (c =? SLASH) then Some (i + 3)%nat else find_authority (S i) (b :: c :: p)) in H.
  destruct ((a =? COLON) && (b =? SLASH) && (c =? SLASH)); [done|]. by apply IH.
Qed.

Lemma position_app p l1 l2 i : position p l1 = Some i -> position p (l1 ++ l2) = Some i.
Proof.
  revert i. induction l1 as [|b l1 IH]; intros i; simpl; [done|]. destruct (p b); [done|].
  destruct (position p l1) as [j|]; [|done]. by rewrite (IH j).
Qed.

(** Prefixes that end with their last separator. *)
Definition natural_prefix (p : str) : bool :=
  bool_decide (QUERY ∉ p) &&
  match find_authority_start p with
  | Some _ => bool_decide (rposition (fun b => (b =? SLASH) || (b =? HASH)) p = Some (length p - 1)%nat)
  | None => bool_decide (SLASH ∉ p) && bool_decide (is_Some (position (Z.eqb COLON) p)) &&
      bool_decide (rposition (fun b => (b =? SLASH) || (b =? HASH) || (b =? COLON)) p = Some (length p - 1)%nat)
  end.

Lemma simple_name_query local : simple_name local -> QUERY ∉ local.
Proof. intros H Hq. eapply Forall_forall in H; [|exact Hq]. naive_solver. Qed.

Lemma simple_name_no local b : simple_name local -> delimiter b = true -> b ∉ local.
Proof. intros H Hb Hin. eapply Forall_forall in H; [|exact Hin]. naive_solver congruence. Qed.

Lemma natural_split p local :
  natural_prefix p = true -> p <> [] -> simple_name local ->
  split_general (p ++ local) MostGranular = split_at (p ++ local) (length p).
Proof.
  intros Hp Hne Hl. apply andb_true_iff in Hp as [Hq%bool_decide_eq_true Hp].
  assert (S (length p - 1) = length p) as Hlen by (destruct p; simpl; [done|lia]).
  assert (query_cut (p ++ local) = None) as Hqc.
  { apply query_cut_none. rewrite elem_of_app. intros [?|?]; [done|by apply simple_name_query in Hl]. }
  assert (forall f, (forall b, delimiter b = false -> f b = false) -> rposition f p = Some (length p - 1)%nat ->
    split_last f (p ++ local) (length (p ++ local)) = split_at (p ++ local) (length p)) as Hlast.
  { intros f Hf Hr. unfold split_last. rewrite take_ge, rposition_app, Hr, Hlen; [done| |done].
    eapply Forall_impl; [exact Hl|]. intros b [Hb _]. by apply Hf. }
  unfold split_general. destruct (find_authority_start p) as [a|] eqn:Ea.
  - unfold find_authority_start in *. rewrite (find_authority_app _ _ _ _ Ea).
    apply bool_decide_eq_true in Hp. unfold split_hierarchical. rewrite Hqc. simpl.
    destruct (scan _ _ _) as [? ?]. apply Hlast; [|done].
    intros b. unfold delimiter. destruct (b =? SLASH), (b =? HASH); done.
  - apply andb_true_iff in Hp as [[Hs%bool_decide_eq_true [i Hc]%bool_decide_eq_true]%andb_true_iff Hr%bool_decide_eq_true].
    unfold find_authority_start. rewrite find_authority_none.
    + unfold split_opaque. rewrite Hqc, (position_app _ _ _ _ Hc). simpl. by apply Hlast.
    + rewrite elem_of_app. intros [?|?]; [done|]. by eapply (simple_name_no local SLASH).
Qed.

Lemma strip_app p l : strip p (p ++ l) = Some l.
Proof. induction p as [|a p IH]; [done|]. simpl. by rewrite Z.eqb_refl. Qed.

Lemma strip_first a p b s : a <> b -> strip (a :: p) (b :: s) = None.
Proof. intros H. simpl. by rewrite (proj2 (Z.eqb_neq a b) H). Qed.

(** Built-in names keep their built-in namespace: in both split modes, an
    IRI made of a built-in prefix and a local name without separators splits
    exactly behind the prefix, so that vocabulary terms are encoded with their
    reserved codes whatever mode a ledger was created with. *)
Theorem builtin_names_stable c p local mode :
  (c, p) ∈ default_entries -> p <> [] -> simple_name local -> utf8_valid (p ++ local) = true ->
  canonical_split (p ++ local) mode = Ok (p, local).
Proof.
  intros Hp Hne Hl Hu. pose proof (builtin_match_name c p local Hp Hne Hl) as Hm.
  assert (split_at (p ++ local) (length p) = Ok (p, local)) as Hsplit.
  { destruct (split_edge (p ++ local) (length p) Hu) as [-> _]; [|by rewrite take_app_length, drop_app_length].
    apply (builtin_edge _ _ c); [rewrite length_app; destruct p; simpl; [done|lia]|by rewrite take_app_length]. }
  assert (Forall (fun e => e.2 = [] \/ e.2 = BLANK_NODE_PREFIX \/
    (head e.2 <> Some 95 /\ (natural_prefix e.2 = true \/ starts_with_at e.2 = true))) default_entries) as Hall.
  { apply (bool_decide_eq_true _). by vm_compute. }
  rewrite Forall_forall in Hall. apply Hall in Hp. simpl in Hp.
  destruct Hp as [->|[->|[Hh Hn]]]; [done|by unfold canonical_split; rewrite strip_app|].
  destruct p as [|b p]; [done|]. unfold canonical_split.
  assert (strip BLANK_NODE_PREFIX ((b :: p) ++ local) = None) as ->
    by (apply (strip_first 95 [58]); intros <-; by apply Hh).
  rewrite Hm.
  change (starts_with_at ((b :: p) ++ local)) with (starts_with_at (b :: p)).
  destruct (starts_with_at (b :: p)) eqn:Ea; [exact Hsplit|].
  destruct mode; [|exact Hsplit].
  destruct Hn as [Hn|Hn]; [|congruence]. rewrite <- Hsplit. by apply natural_split.
Qed.

(** Whatever the text, the parts of a split make it up. *)
Lemma split_at_app s n p q : split_at s n = Ok (p, q) -> p ++ q = s.
Proof. unfold split_at. case_match; [|done]. intros [= <- <-]. apply take_drop. Qed.

Lemma split_last_app f s n p q : split_last f s n = Ok (p, q) -> p ++ q = s.
Proof. unfold split_last. case_match; [apply split_at_app|by intros [= <- <-]]. Qed.

Lemma split_general_app s mode p q : split_general s mode = Ok (p, q) -> p ++ q = s.
Proof.
  unfold split_general, split_hierarchical, split_opaque.
  destruct (find_authority_start s) as [a|]; [destruct (scan _ _ _)|destruct (position _ s); [|by intros [= <- <-]]];
    destruct mode; try apply split_last_app; case_match; try apply split_at_app; done.
Qed.

Lemma canonical_split_app s mode p q : canonical_split s mode = Ok (p, q) -> p ++ q = s.
Proof.
  unfold canonical_split. destruct (strip BLANK_NODE_PREFIX s) as [rest|] eqn:E.
  { apply strip_spec in E. by intros [= <- <-]. }
  destruct (if starts_with_at s then builtin_match s else Ok None) as [[n|]| |]; cbn; [apply split_at_app| |done..].
  destruct (match mode with MostGranular => Ok None | HostPlusN _ => builtin_match s end) as [[n|]| |]; cbn;
    [apply split_at_app|apply split_general_app|done..].
Qed.
End builtin.

(** In [HostPlusN] mode a query before the first colon makes the range of the
    rest start after its end, and the slice panics. *)
#[export] Instance PlainNsOrder : NsOrder := fun m => map_to_list m.
#[export] Instance PlainNsOrderLaws : NsOrderLaws.
Proof. by intros m. Qed.

Lemma query_before_scheme_panics :
  canonical_split (bytes_of_string "a?b:c"%string) (HostPlusN 0) = Panic /\
  canonical_split (bytes_of_string "a?b:c"%string) MostGranular = Ok ([], bytes_of_string "a?b:c"%string).
Proof. split; by vm_compute. Qed.
