(* ===== verification/NsCodes.v ===== *)
(** * Namespace codes

    Models [NamespaceCodes] and [NsLookup] of
    [fluree-db-core/src/ns_encoding.rs]: the two-way map between namespace
    prefixes and codes, its allocation and merging, and the encoding of IRIs as
    subject ids.  An operation that may fail returns the state it leaves behind
    with its outcome: a failed merge keeps the entries it had already added. *)

From stdpp Require Import base list numbers gmap sorting.
From Stdlib Require Import ZArith Lia.
From S2P Require Import Prelude Bytes Vocab Cmp Value Envelope PrefixTrie IriSplit.

Local Open Scope Z_scope.

Record NamespaceCodes := mkCodes {
  prefix_to_code : gmap str Z;
  code_to_prefix : gmap Z str;
  next_code : Z;
  delta : gmap Z str;
}.

Definition with_delta (d : gmap Z str) (n : NamespaceCodes) : NamespaceCodes :=
  mkCodes (prefix_to_code n) (code_to_prefix n) (next_code n) d.

(** [prefix_to_code.insert(prefix, code); code_to_prefix.insert(code, prefix)]. *)
Definition add_mapping (code : Z) (prefix : str) (n : NamespaceCodes) : NamespaceCodes :=
  mkCodes (<[prefix := code]> (prefix_to_code n)) (<[code := prefix]> (code_to_prefix n)) (next_code n) (delta n).

(** [if code >= self.next_code && code < OVERFLOW { self.next_code = code + 1 }]. *)
Definition bump_next (code : Z) (n : NamespaceCodes) : NamespaceCodes :=
  if (next_code n <=? code) && (code <? OVERFLOW)
  then mkCodes (prefix_to_code n) (code_to_prefix n) (code + 1) (delta n) else n.

Section codes.
Context `{NO : NsOrder}.

(** ** Construction *)

Definition reverse_map (entries : list (Z * str)) : gmap str Z :=
  foldl (fun m e => <[e.2 := e.1]> m) ∅ entries.

Fixpoint find_conflict (seen : gmap str Z) (entries : list (Z * str)) : option NsAllocError :=
  match entries with
  | [] => None
  | (code, prefix) :: entries =>
      match seen !! prefix with
      | Some prev_code => Some (PrefixConflict prefix code prev_code)
      | None => find_conflict (<[prefix := code]> seen) entries
      end
  end.

Definition max_code (entries : list (Z * str)) : Z :=
  foldl (fun m e => if e.1 <? OVERFLOW then Z.max m e.1 else m) 0 entries.

Definition from_code_to_prefix (c2p : gmap Z str) : outcome NsAllocError NamespaceCodes :=
  let p2c := reverse_map (ns_iter c2p) in
  let conflict := if (size p2c =? size c2p)%nat then None else find_conflict ∅ (ns_iter c2p) in
  match conflict with
  | Some e => Err e
  | None => Ok (mkCodes p2c c2p (Z.max (max_code (ns_iter c2p) + 1) USER_START) ∅)
  end.

(** [expect]: a conflict in the built-in table is a panic. *)
Definition codes_new : outcome NsAllocError NamespaceCodes :=
  match from_code_to_prefix default_namespace_codes with Ok n => Ok n | _ => Panic end.

(** ** Allocation *)

Definition get_code (n : NamespaceCodes) (prefix : str) : option Z := prefix_to_code n !! prefix.
Definition get_prefix (n : NamespaceCodes) (code : Z) : option str := code_to_prefix n !! code.

Definition allocate_prefix (n : NamespaceCodes) (prefix : str) : NamespaceCodes * outcome NsAllocError Z :=
  match prefix_to_code n !! prefix with
  | Some code => (n, Ok code)
  | None =>
      if OVERFLOW <=? next_code n then (n, Err NsOverflow) else
      let code := next_code n in
      (mkCodes (<[prefix := code]> (prefix_to_code n)) (<[code := prefix]> (code_to_prefix n))
         (code + 1) (<[code := prefix]> (delta n)), Ok code)
  end.

Definition encode_iri_or_allocate (n : NamespaceCodes) (iri : str) (mode : NsSplitMode) :
    NamespaceCodes * outcome NsAllocError Sid :=
  match canonical_split iri mode with
  | Ok (prefix, suffix) =>
      match allocate_prefix n prefix with
      | (n, Ok code) => (n, Ok (mkSid code suffix))
      | (n, Err NsOverflow) => (n, Ok (mkSid OVERFLOW iri))
      | (n, Err e) => (n, Err e)
      | (n, Panic) => (n, Panic)
      end
  | Err e => (n, Err e)
  | Panic => (n, Panic)
  end.

(** ** Merging *)

(** The conflict checks of one entry: an error, a mapping already there, or a
    new mapping. *)
Inductive entry_check := Conflict (e : NsAllocError) | Known | Fresh.

Definition check_entry (n : NamespaceCodes) (code : Z) (prefix : str) : entry_check :=
  match code_to_prefix n !! code with
  | Some existing => if bool_decide (existing = prefix) then Known else Conflict (CodeConflict code prefix existing)
  | None =>
      match prefix_to_code n !! prefix with
      | Some existing_code =>
          if existing_code =? code then Known else Conflict (PrefixConflict prefix code existing_code)
      | None => Fresh
      end
  end.

Fixpoint merge_entries (n : NamespaceCodes) (entries : list (Z * str)) :
    NamespaceCodes * outcome NsAllocError unit :=
  match entries with
  | [] => (n, Ok tt)
  | (code, prefix) :: entries =>
      match check_entry n code prefix with
      | Conflict e => (n, Err e)
      | Known => merge_entries n entries
      | Fresh => merge_entries (bump_next code (add_mapping code prefix n)) entries
      end
  end.

Definition merge_delta (n : NamespaceCodes) (d : gmap Z str) : NamespaceCodes * outcome NsAllocError unit :=
  merge_entries n (ns_iter d).

Fixpoint adopt_entries (n : NamespaceCodes) (entries : list (Z * str)) :
    NamespaceCodes * outcome NsAllocError unit :=
  match entries with
  | [] => (n, Ok tt)
  | (code, prefix) :: entries =>
      match check_entry n code prefix with
      | Conflict e => (n, Err e)
      | Known =>
          let d := match delta n !! code with Some _ => delta n | None => <[code := prefix]> (delta n) end in
          adopt_entries (with_delta d n) entries
      | Fresh =>
          adopt_entries (bump_next code
            (with_delta (<[code := prefix]> (delta n)) (add_mapping code prefix n))) entries
      end
  end.

Definition adopt_delta_for_persistence (n : NamespaceCodes) (d : gmap Z str) :
    NamespaceCodes * outcome NsAllocError unit :=
  adopt_entries n (ns_iter d).

Definition take_delta (n : NamespaceCodes) : NamespaceCodes * gmap Z str := (with_delta ∅ n, delta n).
Definition has_delta (n : NamespaceCodes) : bool := bool_decide (delta n <> ∅).

(** ** Lookup *)

Definition encode_iri (n : NamespaceCodes) (iri : str) (mode : NsSplitMode) : outcome NsAllocError (option Sid) :=
  '(prefix, suffix) ← canonical_split iri mode;
  Ok (code ← get_code n prefix; Some (mkSid code suffix)).

Definition decode_sid_strict (n : NamespaceCodes) (sid : Sid) : option str :=
  if (namespace_code sid =? EMPTY) || (namespace_code sid =? OVERFLOW) then Some (name sid)
  else prefix ← get_prefix n (namespace_code sid); Some (prefix ++ name sid).
End codes.

(** ** The bimap *)

Record codes_wf (n : NamespaceCodes) : Prop := {
  cw_bimap p c : prefix_to_code n !! p = Some c <-> code_to_prefix n !! c = Some p;
  cw_below c : is_Some (code_to_prefix n !! c) -> c < OVERFLOW -> c < next_code n;
  cw_range : USER_START <= next_code n <= OVERFLOW;
  cw_delta : delta n ⊆ code_to_prefix n;
}.

(** Every entry of [n] is one of [m]. *)
Definition extends (n m : NamespaceCodes) : Prop := code_to_prefix n ⊆ code_to_prefix m.

#[export] Instance ns_extends_preorder : PreOrder extends.
Proof. split; [intros n; unfold extends; reflexivity|intros n m k; unfold extends; apply transitivity]. Qed.

Lemma codes_wf_inj n c c' p :
  codes_wf n -> code_to_prefix n !! c = Some p -> code_to_prefix n !! c' = Some p -> c = c'.
Proof. intros Hw H1%(cw_bimap _ Hw) H2%(cw_bimap _ Hw). congruence. Qed.

Lemma codes_wf_fresh n p : codes_wf n -> prefix_to_code n !! p = None -> forall c, code_to_prefix n !! c <> Some p.
Proof. intros Hw Hp c Hc%(cw_bimap _ Hw). congruence. Qed.

(** A fresh pair keeps the bimap. *)
Lemma add_fresh_wf n c p d nx :
  codes_wf n -> code_to_prefix n !! c = None -> prefix_to_code n !! p = None ->
  next_code n <= nx <= OVERFLOW -> (c < OVERFLOW -> c < nx) -> d ⊆ <[c := p]> (code_to_prefix n) ->
  codes_wf (mkCodes (<[p := c]> (prefix_to_code n)) (<[c := p]> (code_to_prefix n)) nx d).
Proof.
  intros Hw Hc Hp Hn Hlt Hd. pose proof (codes_wf_fresh n p Hw Hp) as Hfresh. split; cbn in *.
  - intros q k. destruct (decide (q = p)) as [->|Hq], (decide (k = c)) as [->|Hk]; simplify_map_eq.
    + done.
    + split; [congruence|]. intros H. by destruct (Hfresh k).
    + split; [|congruence]. intros H%(cw_bimap _ Hw). congruence.
    + apply (cw_bimap _ Hw).
  - intros k [q Hq] Hk. destruct (decide (k = c)) as [->|Hne]; [auto|]. rewrite lookup_insert_ne in Hq by done.
    pose proof (cw_below _ Hw k (mk_is_Some _ _ Hq) Hk). lia.
  - pose proof (cw_range _ Hw). lia.
  - done.
Qed.

Section laws.
Context `{NO : NsOrder}.

Lemma add_mapping_wf n code prefix d :
  codes_wf n -> code_to_prefix n !! code = None -> prefix_to_code n !! prefix = None ->
  d ⊆ <[code := prefix]> (code_to_prefix n) ->
  codes_wf (bump_next code (with_delta d (add_mapping code prefix n))).
Proof.
  intros Hw Hc Hp Hd. pose proof (cw_range _ Hw).
  unfold bump_next, with_delta, add_mapping. cbn [prefix_to_code code_to_prefix next_code delta].
  destruct (Z.leb_spec (next_code n) code), (Z.ltb_spec code OVERFLOW); cbn [andb];
    apply add_fresh_wf; try done; lia.
Qed.

Lemma bump_next_maps code n :
  code_to_prefix (bump_next code n) = code_to_prefix n /\ prefix_to_code (bump_next code n) = prefix_to_code n /\
  delta (bump_next code n) = delta n.
Proof. unfold bump_next. by case_match. Qed.

Lemma allocate_spec n p :
  codes_wf n ->
  let '(n', r) := allocate_prefix n p in
  codes_wf n' /\ extends n n' /\
  match r with
  | Ok c => code_to_prefix n' !! c = Some p /\ delta n ⊆ delta n' /\
      (forall k q, code_to_prefix n' !! k = Some q -> code_to_prefix n !! k = Some q \/ delta n' !! k = Some q) /\
      (code_to_prefix n !! c = Some p \/ c = next_code n)
  | Err e => e = NsOverflow /\ n' = n /\ prefix_to_code n !! p = None
  | Panic => False
  end.
Proof.
  intros Hw. unfold allocate_prefix. destruct (prefix_to_code n !! p) as [c|] eqn:Hp.
  { apply (cw_bimap _ Hw) in Hp. split_and!; [done..|by left|by left]. }
  destruct (Z.leb_spec OVERFLOW (next_code n)) as [Hle|Hlt]; [by split_and!|].
  assert (code_to_prefix n !! next_code n = None) as Hc.
  { apply eq_None_not_Some. intros H%(cw_below _ Hw); [lia|done]. }
  pose proof (cw_delta _ Hw) as Hd. split_and!.
  - apply add_fresh_wf; try done; [lia..|]. by apply insert_mono.
  - by apply insert_subseteq.
  - apply lookup_insert_eq.
  - cbn. apply insert_subseteq. apply eq_None_not_Some. intros [q Hq].
    eapply lookup_weaken in Hq; [|exact Hd]. congruence.
  - cbn. intros k q Hq. destruct (decide (k = next_code n)) as [->|Hk]; simplify_map_eq; auto.
  - by right.
Qed.

(** ** Merges *)

Definition agrees (n : NamespaceCodes) (c : Z) (p : str) : Prop :=
  forall c' p', code_to_prefix n !! c' = Some p' -> (c' = c <-> p' = p).

Lemma check_entry_spec n c p :
  codes_wf n ->
  match check_entry n c p with
  | Known => code_to_prefix n !! c = Some p
  | Fresh => code_to_prefix n !! c = None /\ prefix_to_code n !! p = None
  | Conflict _ => ~ agrees n c p
  end.
Proof.
  intros Hw. unfold check_entry, agrees. destruct (code_to_prefix n !! c) as [q|] eqn:Hc.
  - case_bool_decide as Hq; [congruence|]. intros Ha. specialize (Ha _ _ Hc). tauto.
  - destruct (prefix_to_code n !! p) as [k|] eqn:Hp; [|done]. apply (cw_bimap _ Hw) in Hp as Hk.
    destruct (Z.eqb_spec k c) as [->|Hne]; [congruence|]. intros Ha. specialize (Ha _ _ Hk). tauto.
Qed.

(** The common shape of the two merges: entries already known or fresh may
    also be recorded in the delta. *)
Record merged (n : NamespaceCodes) (entries : list (Z * str)) (n' : NamespaceCodes)
    (r : outcome NsAllocError unit) : Prop := {
  mg_wf : codes_wf n';
  mg_extends : extends n n';
  mg_from k q : code_to_prefix n' !! k = Some q -> code_to_prefix n !! k = Some q \/ (k, q) ∈ entries;
  mg_result : match r with
    | Ok _ => forall k q, (k, q) ∈ entries -> code_to_prefix n' !! k = Some q
    | Err _ => exists k q, (k, q) ∈ entries /\ ~ agrees n' k q
    | Panic => False
    end;
}.

Lemma merged_nil n : codes_wf n -> merged n [] n (Ok tt).
Proof. intros Hw. split; [done|reflexivity|by left|]. intros k q. set_solver. Qed.

Lemma merged_conflict n c p entries e : codes_wf n -> ~ agrees n c p -> merged n ((c, p) :: entries) n (Err e).
Proof. intros Hw Hc. split; [done|reflexivity|by left|]. exists c, p. set_solver. Qed.

Lemma merged_step n c p entries n1 n' r :
  extends n n1 -> code_to_prefix n1 !! c = Some p ->
  (forall k q, code_to_prefix n1 !! k = Some q -> code_to_prefix n !! k = Some q \/ (k, q) = (c, p)) ->
  merged n1 entries n' r -> merged n ((c, p) :: entries) n' r.
Proof.
  intros He Hc Hfrom Hm. split.
  - apply Hm.
  - etrans; [exact He|apply Hm].
  - intros k q Hk. apply (mg_from _ _ _ _ Hm) in Hk as [Hk|Hk]; [|set_solver].
    apply Hfrom in Hk as [Hk|Hk]; [by left|right; set_solver].
  - pose proof (mg_result _ _ _ _ Hm) as Hr. destruct r; [|set_solver|done].
    intros k q [[= -> ->]|Hin]%elem_of_cons; [|by apply Hr].
    eapply lookup_weaken; [exact Hc|apply Hm].
Qed.

Lemma fresh_step n c p d :
  code_to_prefix n !! c = None ->
  let n1 := bump_next c (with_delta d (add_mapping c p n)) in
  extends n n1 /\ code_to_prefix n1 !! c = Some p /\
  (forall k q, code_to_prefix n1 !! k = Some q -> code_to_prefix n !! k = Some q \/ (k, q) = (c, p)).
Proof.
  intros Hc n1. destruct (bump_next_maps c (with_delta d (add_mapping c p n))) as (E & _ & _).
  unfold extends, n1. rewrite E. cbn. split_and!; [by apply insert_subseteq|apply lookup_insert_eq|].
  intros k q Hq. destruct (decide (k = c)) as [->|Hk]; simplify_map_eq; auto.
Qed.

Lemma merge_entries_spec entries n :
  codes_wf n -> let '(n', r) := merge_entries n entries in merged n entries n' r.
Proof.
  revert n. induction entries as [|[c p] entries IH]; intros n Hw; [by apply merged_nil|]. cbn [merge_entries].
  pose proof (check_entry_spec n c p Hw) as Hc. destruct (check_entry n c p) as [e| |].
  - by apply merged_conflict.
  - specialize (IH n Hw). destruct (merge_entries n entries) as [n' r].
    eapply merged_step; [reflexivity|done|by left|done].
  - destruct Hc as [Hc Hp]. change (add_mapping c p n) with (with_delta (delta n) (add_mapping c p n)).
    destruct (fresh_step n c p (delta n) Hc) as (H1 & H2 & H3).
    specialize (IH (bump_next c (with_delta (delta n) (add_mapping c p n)))).
    destruct (merge_entries _ entries) as [n' r]. eapply merged_step; [exact H1|done..|].
    apply IH, add_mapping_wf; [done..|]. etrans; [apply (cw_delta _ Hw)|by apply insert_subseteq].
Qed.

Lemma adopt_entries_spec entries n :
  codes_wf n ->
  let '(n', r) := adopt_entries n entries in
  merged n entries n' r /\ delta n ⊆ delta n' /\
  (r = Ok tt -> forall k q, (k, q) ∈ entries -> delta n' !! k = Some q).
Proof.
  revert n. induction entries as [|[c p] entries IH]; intros n Hw.
  { cbn. split_and!; [by apply merged_nil|done|]. intros _ k q. set_solver. }
  cbn [adopt_entries]. pose proof (check_entry_spec n c p Hw) as Hc. pose proof (cw_delta _ Hw) as Hd.
  destruct (check_entry n c p) as [e| |].
  - split_and!; [by apply merged_conflict|done..].
  - set (d := match delta n !! c with Some _ => delta n | None => <[c := p]> (delta n) end).
    assert (delta n ⊆ d /\ d !! c = Some p /\ d ⊆ code_to_prefix n) as (H1 & H2 & H3).
    { unfold d. destruct (delta n !! c) as [q|] eqn:E.
      - eapply lookup_weaken in E as E'; [|exact Hd]. split_and!; [done|congruence|done].
      - split_and!; [by apply insert_subseteq|apply lookup_insert_eq|]. by apply insert_subseteq_l. }
    assert (codes_wf (with_delta d n)) as Hw' by (split; try apply Hw; done).
    specialize (IH _ Hw'). destruct (adopt_entries (with_delta d n) entries) as [n' r]. destruct IH as (I1 & I2 & I3).
    cbn in I2. split_and!; [|by etrans|].
    + apply (merged_step n c p entries (with_delta d n)); [by unfold extends|done|by left|done].
    + intros Hr k q [[= -> ->]|Hin]%elem_of_cons; [by eapply lookup_weaken|by apply I3].
  - destruct Hc as [Hc Hp]. set (d := <[c := p]> (delta n)).
    assert (delta n ⊆ d) as H0.
    { apply insert_subseteq, eq_None_not_Some. intros [q Hq]. eapply lookup_weaken in Hq; [|exact Hd]. congruence. }
    destruct (fresh_step n c p d Hc) as (H1 & H2 & H3). set (n1 := bump_next c (with_delta d (add_mapping c p n))) in *.
    assert (delta n1 = d) as Hd1 by apply (bump_next_maps c (with_delta d (add_mapping c p n))).
    assert (codes_wf n1) as Hw1 by (apply add_mapping_wf; [done..|by apply insert_mono]).
    specialize (IH _ Hw1). destruct (adopt_entries n1 entries) as [n' r]. destruct IH as (I1 & I2 & I3).
    rewrite Hd1 in I2. split_and!; [by eapply merged_step|by etrans|].
    intros Hr k q [[= -> ->]|Hin]%elem_of_cons; [|by apply I3].
    eapply lookup_weaken; [|exact I2]. apply lookup_insert_eq.
Qed.
(** ** Construction *)

Lemma reverse_map_spec entries p c :
  NoDup entries.*2 -> reverse_map entries !! p = Some c <-> (c, p) ∈ entries.
Proof.
  unfold reverse_map. induction entries as [|[k q] entries IH] using rev_ind; intros Hnd; [cbn; set_solver|].
  rewrite fmap_app in Hnd. apply NoDup_app in Hnd as (Hnd & Hq & _). rewrite foldl_app. cbn [foldl fst snd].
  specialize (IH Hnd). rewrite elem_of_app, list_elem_of_singleton. destruct (decide (p = q)) as [->|Hp].
  - rewrite lookup_insert_eq. split; [intros [= ->]; by right|]. intros [Hin|[= <-]]; [|done].
    destruct (Hq q); [|set_solver]. apply list_elem_of_fmap. by exists (c, q).
  - rewrite lookup_insert_ne by done. rewrite IH. naive_solver.
Qed.

Lemma reverse_map_dom entries p : is_Some (reverse_map entries !! p) <-> p ∈ entries.*2.
Proof.
  unfold reverse_map. induction entries as [|[k q] entries IH] using rev_ind; [cbn; split; [by intros []|set_solver]|].
  rewrite foldl_app, fmap_app, elem_of_app. cbn [foldl fst snd fmap list_fmap].
  destruct (decide (p = q)) as [->|Hp]; simplify_map_eq; [set_solver|]. rewrite IH. set_solver.
Qed.

Lemma max_code_spec entries c p : (c, p) ∈ entries -> c < OVERFLOW -> c <= max_code entries.
Proof.
  unfold max_code. induction entries as [|[k q] entries IH] using rev_ind; intros Hin Hc; [set_solver|].
  rewrite foldl_app. cbn [foldl fst]. apply elem_of_app in Hin as [Hin|[= -> ->]%list_elem_of_singleton].
  - specialize (IH Hin Hc). case_match; lia.
  - apply Z.ltb_lt in Hc as ->. lia.
Qed.

Lemma max_code_range entries : 0 <= max_code entries < OVERFLOW.
Proof.
  unfold max_code. induction entries as [|[k q] entries IH] using rev_ind; [by vm_compute|].
  rewrite foldl_app. cbn [foldl fst]. destruct (Z.ltb_spec k OVERFLOW); lia.
Qed.
End laws.

Definition injective (m : gmap Z str) : Prop := forall c c' p, m !! c = Some p -> m !! c' = Some p -> c = c'.

Section properties.
Context `{NO : NsOrder} {NL : NsOrderLaws}.

Lemma reverse_map_size entries :
  (size (reverse_map entries) <= length entries)%nat /\
  (size (reverse_map entries) = length entries <-> NoDup entries.*2).
Proof.
  induction entries as [|[k q] entries [Hle IH]] using rev_ind.
  { split; [done|]. split; [constructor|done]. }
  assert (reverse_map (entries ++ [(k, q)]) = <[q := k]> (reverse_map entries)) as E
    by (unfold reverse_map; by rewrite foldl_app).
  rewrite length_app, fmap_app, E. cbn [length fmap list_fmap snd]. pose proof (reverse_map_dom entries q) as Hd.
  assert (NoDup (entries.*2 ++ [q]) <-> NoDup entries.*2 /\ q ∉ entries.*2) as ->.
  { rewrite NoDup_app. split; [|intros [? ?]; split_and!; [done|set_solver|apply NoDup_singleton]].
    intros (? & Hq & _). split; [done|]. intros Hin. by destruct (Hq q Hin); set_solver. }
  destruct (reverse_map entries !! q) as [c|] eqn:Eq.
  - rewrite map_size_insert_Some by (by eexists). split; [lia|]. split; [intros; exfalso; lia|]. intros [_ []]. by apply Hd.
  - rewrite map_size_insert_None by done. split; [lia|]. rewrite <- not_eq_None_Some in Hd.
    split; [intros Hs|intros [Hn _]; apply IH in Hn; lia]. split; [apply IH; lia|]. by intros Hin%Hd.
Qed.

Lemma entries_injective m entries : entries ≡ₚ map_to_list m -> NoDup entries.*2 <-> injective m.
Proof.
  intros Hp. assert (forall c p, (c, p) ∈ entries <-> m !! c = Some p) as Hin.
  { intros c p. by rewrite Hp, elem_of_map_to_list. }
  split.
  - intros Hnd c c' p H1%Hin%(reverse_map_spec _ _ _ Hnd) H2%Hin%(reverse_map_spec _ _ _ Hnd). congruence.
  - intros Hi. apply NoDup_fmap_2_strong; [|rewrite Hp; apply NoDup_map_to_list].
    intros [c p] [c' p'] H1%Hin H2%Hin [= <-]. by rewrite (Hi c c' p).
Qed.

Lemma find_conflict_none seen entries :
  find_conflict seen entries = None -> NoDup entries.*2 /\ forall p, p ∈ entries.*2 -> seen !! p = None.
Proof.
  revert seen. induction entries as [|[c p] entries IH]; intros seen H; [split; [constructor|set_solver]|].
  cbn [find_conflict] in H. destruct (seen !! p) as [k|] eqn:E; [done|]. apply IH in H as [Hnd Hs].
  cbn [fmap list_fmap snd]. split.
  - constructor; [|done]. intros Hin%Hs. by rewrite lookup_insert_eq in Hin.
  - intros q [->|Hq]%elem_of_cons; [done|]. apply Hs in Hq as Hq'.
    by destruct (decide (p = q)) as [->|]; simplify_map_eq.
Qed.

(** A table is accepted exactly when it is injective. *)
Lemma from_code_to_prefix_spec m :
  match from_code_to_prefix m with
  | Ok n => injective m /\ codes_wf n /\ code_to_prefix n = m /\ delta n = ∅
  | Err _ => ~ injective m
  | Panic => False
  end.
Proof.
  unfold from_code_to_prefix. pose proof (ns_iter_perm m) as Hp.
  destruct (reverse_map_size (ns_iter m)) as [_ Hsize]. rewrite (entries_injective m _ Hp) in Hsize.
  assert (length (ns_iter m) = size m) as Hl by (rewrite Hp; apply length_map_to_list).
  rewrite Hl in Hsize. set (conflict := if (_ =? _)%nat then None else _).
  assert (conflict = None <-> injective m) as Hc.
  { unfold conflict. destruct (Nat.eqb_spec (size (reverse_map (ns_iter m))) (size m)) as [E|E]; [tauto|].
    split; [|tauto]. intros [Hnd _]%find_conflict_none. by apply (entries_injective m _ Hp) in Hnd. }
  destruct conflict as [e|]; [intros Hi%Hc; done|]. destruct Hc as [Hi _]. specialize (Hi eq_refl).
  apply (entries_injective m _ Hp) in Hi as Hnd. split_and!; [done| |done..].
  assert (forall c p, (c, p) ∈ ns_iter m <-> m !! c = Some p) as Hin.
  { intros c p. by rewrite Hp, elem_of_map_to_list. }
  pose proof (max_code_range (ns_iter m)) as Hr. split; cbn [prefix_to_code code_to_prefix next_code delta].
  - intros p c. by rewrite reverse_map_spec, Hin.
  - intros c [p Hc] Hlt. apply Hin in Hc. pose proof (max_code_spec _ _ _ Hc Hlt). lia.
  - unfold USER_START, OVERFLOW in *. lia.
  - apply map_empty_subseteq.
Qed.

Lemma codes_new_spec :
  exists n, codes_new = Ok n /\ codes_wf n /\ code_to_prefix n = default_namespace_codes /\ delta n = ∅.
Proof.
  pose proof (from_code_to_prefix_spec default_namespace_codes) as H. unfold codes_new.
  assert (injective default_namespace_codes) as Hi.
  { apply (entries_injective _ (map_to_list default_namespace_codes)); [done|].
    apply (bool_decide_eq_true _). by vm_compute. }
  destruct (from_code_to_prefix default_namespace_codes) as [n| |]; [|done..]. exists n. tauto.
Qed.

(** ** Operations in sequence *)

Inductive ns_op :=
| OpAllocate (prefix : str)
| OpEncode (iri : str) (mode : NsSplitMode)
| OpMerge (d : gmap Z str)
| OpAdopt (d : gmap Z str)
| OpTakeDelta.

Definition run_op (n : NamespaceCodes) (o : ns_op) : NamespaceCodes :=
  match o with
  | OpAllocate prefix => (allocate_prefix n prefix).1
  | OpEncode iri mode => (encode_iri_or_allocate n iri mode).1
  | OpMerge d => (merge_delta n d).1
  | OpAdopt d => (adopt_delta_for_persistence n d).1
  | OpTakeDelta => (take_delta n).1
  end.

Lemma encode_state n iri mode :
  codes_wf n -> let n' := (encode_iri_or_allocate n iri mode).1 in codes_wf n' /\ extends n n'.
Proof.
  intros Hw. unfold encode_iri_or_allocate. destruct (canonical_split iri mode) as [[p q]| |]; [|done..].
  pose proof (allocate_spec n p Hw) as H. destruct (allocate_prefix n p) as [n' [c|[]|]]; cbn; tauto.
Qed.

Lemma run_op_wf n o : codes_wf n -> codes_wf (run_op n o) /\ extends n (run_op n o).
Proof.
  intros Hw. destruct o as [p|iri mode|d|d|]; cbn [run_op].
  - pose proof (allocate_spec n p Hw) as H. destruct (allocate_prefix n p). cbn. tauto.
  - by apply encode_state.
  - pose proof (merge_entries_spec (ns_iter d) n Hw) as H. unfold merge_delta.
    destruct (merge_entries n (ns_iter d)). by split; apply H.
  - pose proof (adopt_entries_spec (ns_iter d) n Hw) as H. unfold adopt_delta_for_persistence.
    destruct (adopt_entries n (ns_iter d)). destruct H as [H _]. by split; apply H.
  - split; [split; try apply Hw; apply map_empty_subseteq|by unfold extends].
Qed.

(** The namespace table is a bimap that only grows: from any accepted table,
    after any sequence of allocations, encodings, merges and adoptions (failed
    ones included) and delta hand-overs, prefixes and codes determine each
    other, no mapping has changed, the next code is unused and in the user
    range, and the pending delta is part of the table; tables that give two
    codes one prefix are refused. *)
Theorem namespace_table_invariant m :
  match from_code_to_prefix m with
  | Ok n => forall ops, codes_wf (foldl run_op n ops) /\ m ⊆ code_to_prefix (foldl run_op n ops)
  | Err _ => ~ injective m
  | Panic => False
  end.
Proof.
  pose proof (from_code_to_prefix_spec m) as H. destruct (from_code_to_prefix m) as [n| |]; [|done..].
  destruct H as (_ & Hw & <- & _). intros ops. change (codes_wf (foldl run_op n ops) /\ extends n (foldl run_op n ops)).
  induction ops as [|o ops IH] using rev_ind; [split; [done|reflexivity]|]. rewrite foldl_app. cbn.
  destruct IH as [IH1 IH2]. destruct (run_op_wf _ o IH1) as [? ?]. split; [done|by etrans].
Qed.
(** What a merge leaves behind. *)
Definition merge_ok (n : NamespaceCodes) (d : gmap Z str) (n' : NamespaceCodes)
    (r : outcome NsAllocError unit) : Prop :=
  codes_wf n' /\ extends n n' /\
  (forall c p, code_to_prefix n' !! c = Some p -> code_to_prefix n !! c = Some p \/ d !! c = Some p) /\
  match r with
  | Ok _ => code_to_prefix n' = code_to_prefix n ∪ d /\ d ⊆ code_to_prefix n' /\ injective (code_to_prefix n')
  | Err _ => ~ exists m, code_to_prefix n ⊆ m /\ d ⊆ m /\ injective m
  | Panic => False
  end.

Lemma merge_delta_spec n d :
  codes_wf n -> let '(n', r) := merge_delta n d in merge_ok n d n' r.
Proof.
  intros Hw. unfold merge_delta. pose proof (merge_entries_spec (ns_iter d) n Hw) as H.
  destruct (merge_entries n (ns_iter d)) as [n' r].
  assert (forall c p, (c, p) ∈ ns_iter d <-> d !! c = Some p) as Hin.
  { intros c p. by rewrite (ns_iter_perm d), elem_of_map_to_list. }
  assert (forall c p, code_to_prefix n' !! c = Some p -> code_to_prefix n !! c = Some p \/ d !! c = Some p) as Hfrom.
  { intros c p Hc. apply (mg_from _ _ _ _ H) in Hc as [?|?%Hin]; auto. }
  pose proof (mg_extends _ _ _ _ H) as He. unfold merge_ok. split_and!; [apply H|done|done|].
  pose proof (mg_result _ _ _ _ H) as Hr. destruct r as [?|e|]; [| |done].
  - assert (d ⊆ code_to_prefix n') as Hd by (apply map_subseteq_spec; intros c p ?%Hin; by apply Hr).
    split_and!; [|done|intros c c' p; apply (codes_wf_inj n'), H].
    apply map_eq. intros c. apply option_eq. intros p. rewrite lookup_union_Some_raw. split.
    + intros Hc. destruct (code_to_prefix n !! c) as [q|] eqn:E; [left|right; apply Hfrom in Hc as [?|?]; [congruence|done]].
      eapply lookup_weaken in E; [|exact He]. congruence.
    + intros [Hc|[_ Hc]]; eapply lookup_weaken; done.
  - intros (m & Hn & Hd & Hi). destruct Hr as (c & p & Hc%Hin & []). intros c' p' Hc'.
    assert (m !! c' = Some p') by (apply Hfrom in Hc' as [?|?]; by eapply lookup_weaken).
    assert (m !! c = Some p) by by eapply lookup_weaken.
    split; [intros ->; congruence|intros ->; by eapply Hi].
Qed.

(** Merging is exact and independent of the hash order: a delta is accepted
    exactly when some injective table contains both it and the current one, the
    result is their union, and a refused delta leaves a well-formed table
    between the two. *)
Theorem merge_delta_exact n d :
  codes_wf n ->
  let '(n', r) := merge_delta n d in
  codes_wf n' /\ extends n n' /\
  (forall c p, code_to_prefix n' !! c = Some p -> code_to_prefix n !! c = Some p \/ d !! c = Some p) /\
  match r with
  | Ok _ => code_to_prefix n' = code_to_prefix n ∪ d /\ d ⊆ code_to_prefix n' /\ injective (code_to_prefix n')
  | Err _ => ~ exists m, code_to_prefix n ⊆ m /\ d ⊆ m /\ injective m
  | Panic => False
  end.
Proof. apply merge_delta_spec. Qed.

(** ** Encoding and decoding *)

(** The codes with a fixed meaning: the empty prefix, and none for overflow. *)
Definition reserved_ok (n : NamespaceCodes) : Prop :=
  (forall p, code_to_prefix n !! EMPTY = Some p -> p = []) /\ code_to_prefix n !! OVERFLOW = None.

Definition splits (iri : str) (mode : NsSplitMode) : Prop :=
  utf8_valid iri = true /\ (mode = MostGranular \/ ~ query_before_scheme iri).

Lemma splits_ok iri mode : splits iri mode -> exists p q, canonical_split iri mode = Ok (p, q) /\ p ++ q = iri.
Proof. intros [Hu Hm]. destruct (canonical_split_total iri mode Hu Hm) as (p & q & ? & ? & _). eauto. Qed.

Lemma decode_registered n c p q :
  reserved_ok n -> code_to_prefix n !! c = Some p -> decode_sid_strict n (mkSid c q) = Some (p ++ q).
Proof.
  intros [He Ho] Hc. unfold decode_sid_strict, get_prefix. cbn [namespace_code name].
  destruct (Z.eqb_spec c EMPTY) as [->|H1]; [by rewrite (He p Hc)|].
  destruct (Z.eqb_spec c OVERFLOW) as [->|H2]; [congruence|]. simpl. by rewrite Hc.
Qed.

Lemma decode_overflow n iri : decode_sid_strict n (mkSid OVERFLOW iri) = Some iri.
Proof. done. Qed.

Lemma allocate_reserved n p :
  codes_wf n -> reserved_ok n -> reserved_ok (allocate_prefix n p).1.
Proof.
  intros Hw [He Ho]. pose proof (cw_range _ Hw) as Hr. unfold allocate_prefix.
  destruct (prefix_to_code n !! p); [done|]. destruct (Z.leb_spec OVERFLOW (next_code n)); [done|].
  unfold USER_START in Hr. split; cbn [fst code_to_prefix]; [intros q|]; rewrite lookup_insert_ne; auto; unfold EMPTY; lia.
Qed.

Lemma encode_spec n iri mode :
  codes_wf n -> reserved_ok n -> splits iri mode ->
  exists n' sid, encode_iri_or_allocate n iri mode = (n', Ok sid) /\ codes_wf n' /\ extends n n' /\ reserved_ok n' /\
    ((exists p q, canonical_split iri mode = Ok (p, q) /\ p ++ q = iri /\ name sid = q /\
        code_to_prefix n' !! namespace_code sid = Some p /\ n' = (allocate_prefix n p).1) \/
     (sid = mkSid OVERFLOW iri /\ n' = n)).
Proof.
  intros Hw Hr (p & q & E & Hpq)%splits_ok. unfold encode_iri_or_allocate. rewrite E.
  pose proof (allocate_spec n p Hw) as Ha. pose proof (allocate_reserved n p Hw Hr) as Hr'.
  destruct (allocate_prefix n p) as [n' [c|e|]] eqn:Ea; [| |tauto].
  - destruct Ha as (? & ? & Hc & _). eexists _, _. split_and!; [done..|]. left. exists p, q. rewrite Ea. by split_and!.
  - destruct Ha as (? & ? & -> & -> & _). eexists _, _. split_and!; [done..|]. by right.
Qed.

(** C33: IRIs survive encoding: encoding an IRI against a well-formed table
    succeeds, allocating a code if needed, and the subject id decodes to the
    same IRI, in the table at hand and in every later extension of it; there the
    plain lookup finds the same id, unless the codes were exhausted and the id
    carries the whole IRI. *)
Theorem iri_sid_roundtrip n iri mode :
  codes_wf n -> reserved_ok n -> splits iri mode ->
  exists n' sid, encode_iri_or_allocate n iri mode = (n', Ok sid) /\ codes_wf n' /\ reserved_ok n' /\
    forall m, codes_wf m -> reserved_ok m -> extends n' m ->
      decode_sid_strict m sid = Some iri /\
      (namespace_code sid = OVERFLOW \/ encode_iri m iri mode = Ok (Some sid)).
Proof.
  intros Hw Hr Hs. destruct (encode_spec n iri mode Hw Hr Hs) as (n' & sid & E & Hw' & _ & Hr' & Hsid).
  exists n', sid. split_and!; [done..|]. intros m Hwm Hrm Hext.
  destruct Hsid as [(p & q & Esp & <- & Hq & Hc & _)|[-> _]]; [|by split; [apply decode_overflow|left]].
  destruct sid as [c l]. cbn in Hq, Hc. subst l. eapply lookup_weaken in Hc; [|exact Hext].
  split; [by apply decode_registered|]. right. unfold encode_iri, get_code. rewrite Esp. simpl.
  apply (cw_bimap _ Hwm) in Hc. by rewrite Hc.
Qed.

(** ** Handing a delta to another table *)

Fixpoint encode_all (n : NamespaceCodes) (mode : NsSplitMode) (iris : list str) :
    NamespaceCodes * list (outcome NsAllocError Sid) :=
  match iris with
  | [] => (n, [])
  | iri :: iris =>
      let '(n, sid) := encode_iri_or_allocate n iri mode in
      let '(n, sids) := encode_all n mode iris in (n, sid :: sids)
  end.

(** [n'] is [n] with the codes from [next_code n] on recorded in its delta. *)
Record grown (n n' : NamespaceCodes) : Prop := {
  gr_wf : codes_wf n';
  gr_reserved : reserved_ok n';
  gr_next : next_code n <= next_code n';
  gr_delta c p : delta n' !! c = Some p -> next_code n <= c < next_code n';
  gr_union c p : code_to_prefix n' !! c = Some p <-> code_to_prefix n !! c = Some p \/ delta n' !! c = Some p;
  gr_last : next_code n' = next_code n \/ is_Some (code_to_prefix n' !! (next_code n' - 1));
}.

Lemma grown_allocate n n1 p : grown n n1 -> grown n (allocate_prefix n1 p).1.
Proof.
  intros Hg. pose proof (gr_wf _ _ Hg) as Hw. pose proof (allocate_spec n1 p Hw) as Ha.
  pose proof (allocate_reserved n1 p Hw (gr_reserved _ _ Hg)) as Hr. revert Ha Hr. unfold allocate_prefix.
  destruct (prefix_to_code n1 !! p); [done|]. destruct (Z.leb_spec OVERFLOW (next_code n1)); [done|].
  cbn [fst]. intros (Hw' & _) Hr. pose proof (gr_next _ _ Hg). split; cbn [next_code delta code_to_prefix]; [done..|lia| | |].
  - intros c q. destruct (decide (c = next_code n1)) as [->|Hc]; [rewrite lookup_insert_eq; lia|].
    rewrite lookup_insert_ne by done. intros Hd%(gr_delta _ _ Hg). lia.
  - intros c q. destruct (decide (c = next_code n1)) as [->|Hc].
    + rewrite !lookup_insert_eq. split; [by right|]. intros [Hq|?]; [|done].
      assert (code_to_prefix n1 !! next_code n1 = Some q) as Hq' by (apply (gr_union _ _ Hg); by left).
      apply (mk_is_Some (code_to_prefix n1 !! next_code n1)) in Hq'. apply (cw_below _ Hw) in Hq'; lia.
    + rewrite !lookup_insert_ne by done. apply Hg.
  - right. replace (next_code n1 + 1 - 1) with (next_code n1) by lia. rewrite lookup_insert_eq. eauto.
Qed.

Lemma encode_all_grown n n1 mode iris :
  grown n n1 -> Forall (fun iri => splits iri mode) iris ->
  let '(n', sids) := encode_all n1 mode iris in
  grown n n' /\ extends n1 n' /\
  Forall2 (fun iri r => exists sid, r = Ok sid /\ decode_sid_strict n' sid = Some iri) iris sids.
Proof.
  intros Hg Hall. revert n1 Hg. induction Hall as [|iri iris Hs _ IH]; intros n1 Hg; cbn [encode_all].
  { split_and!; [done|reflexivity|constructor]. }
  destruct (encode_spec n1 iri mode (gr_wf _ _ Hg) (gr_reserved _ _ Hg) Hs) as (n2 & sid & E & Hw2 & He & Hr2 & Hsid).
  rewrite E. assert (grown n n2) as Hg2.
  { destruct Hsid as [(p & q & _ & _ & _ & _ & ->)|[_ ->]]; [by apply grown_allocate|done]. }
  specialize (IH n2 Hg2). destruct (encode_all n2 mode iris) as [n' sids]. destruct IH as (Hg' & He' & Hf).
  split_and!; [done|by etrans|]. constructor; [|done]. exists sid. split; [done|].
  destruct Hsid as [(p & q & _ & <- & Hq & Hc & _)|[-> _]]; [|apply decode_overflow].
  destruct sid as [c l]. cbn in Hq, Hc. subst l. apply decode_registered; [apply Hg'|]. by eapply lookup_weaken.
Qed.

Lemma merge_next entries n b :
  next_code n <= b -> (forall c p, (c, p) ∈ entries -> c < b) ->
  next_code n <= next_code (merge_entries n entries).1 <= b.
Proof.
  revert n. induction entries as [|[c p] entries IH]; intros n Hn Hb; [simpl; lia|]. cbn [merge_entries].
  assert (c < b) by (apply (Hb c p); set_solver).
  assert (forall c p, (c, p) ∈ entries -> c < b) as Hb' by (intros k q ?; apply (Hb k q); set_solver).
  destruct (check_entry n c p); [simpl; lia|by apply IH|].
  specialize (IH (bump_next c (add_mapping c p n))).
  assert (next_code n <= next_code (bump_next c (add_mapping c p n)) <= b) as Hbn; [|specialize (IH ltac:(lia) Hb'); lia].
  unfold bump_next, add_mapping. cbn [next_code]. destruct (Z.leb_spec (next_code n) c), (Z.ltb_spec c OVERFLOW); simpl; lia.
Qed.

(** A commit's namespace delta carries what its ids need: a ledger that
    encodes any IRIs from a table without pending changes, and hands its delta to
    another copy of that table, makes the copy accept it and reach the same
    table and the same next code; every id minted decodes there to its IRI. *)
Theorem delta_replay n mode iris :
  codes_wf n -> reserved_ok n -> delta n = ∅ -> Forall (fun iri => splits iri mode) iris ->
  let '(n', sids) := encode_all n mode iris in
  exists m, merge_delta n (take_delta n').2 = (m, Ok tt) /\
    code_to_prefix m = code_to_prefix n' /\ next_code m = next_code n' /\
    Forall2 (fun iri r => exists sid, r = Ok sid /\ decode_sid_strict m sid = Some iri) iris sids.
Proof.
  intros Hw Hr Hd Hs.
  assert (grown n n) as Hg.
  { split; [done..|lia| | |by left]; intros c p; rewrite Hd, lookup_empty; naive_solver. }
  pose proof (encode_all_grown n n mode iris Hg Hs) as H. destruct (encode_all n mode iris) as [n' sids].
  destruct H as (Hg' & He & Hf). cbn [take_delta snd].
  assert (forall c p, (c, p) ∈ ns_iter (delta n') <-> delta n' !! c = Some p) as Hin.
  { intros c p. by rewrite (ns_iter_perm (delta n')), elem_of_map_to_list. }
  pose proof (merge_entries_spec (ns_iter (delta n')) n Hw) as Hm.
  pose proof (merge_next (ns_iter (delta n')) n (next_code n') (gr_next _ _ Hg')) as Hn.
  unfold merge_delta. destruct (merge_entries n (ns_iter (delta n'))) as [m r]. cbn [fst] in Hn.
  assert (forall c p, code_to_prefix m !! c = Some p -> code_to_prefix n' !! c = Some p) as Hsub.
  { intros c p [Hc|Hc%Hin]%(mg_from _ _ _ _ Hm); apply (gr_union _ _ Hg'); auto. }
  pose proof (mg_result _ _ _ _ Hm) as Hres. destruct r as [[]|e|]; [| |done].
  - assert (code_to_prefix m = code_to_prefix n') as Heq.
    { apply map_eq. intros c. apply option_eq. intros p. split; [apply Hsub|].
      intros [Hc|Hc]%(gr_union _ _ Hg'); [by eapply lookup_weaken, (mg_extends _ _ _ _ Hm)|by apply Hres, Hin]. }
    exists m. split_and!; [done..| |].
    + destruct Hn as [Hn1 Hn2]; [intros c p Hc%Hin%(gr_delta _ _ Hg'); lia|].
      destruct (gr_last _ _ Hg') as [?|Hl]; [lia|]. rewrite <- Heq in Hl.
      pose proof (cw_range _ (gr_wf _ _ Hg')).
      pose proof (cw_below _ (mg_wf _ _ _ _ Hm) _ Hl ltac:(lia)). lia.
    + eapply Forall2_impl; [exact Hf|]. intros iri r (sid & -> & Hdec). exists sid. split; [done|].
      rewrite <- Hdec. unfold decode_sid_strict, get_prefix. by rewrite Heq.
  - destruct Hres as (c & p & Hc%Hin & []). intros c' p' Hc'%Hsub.
    assert (code_to_prefix n' !! c = Some p) by (apply (gr_union _ _ Hg'); by right).
    split; [intros ->; congruence|intros ->]. by eapply codes_wf_inj; [apply Hg'|..].
Qed.
End properties.
