(* ===== verification/NsRegistry.v ===== *)
(** * Namespace allocation during transactions and imports

    Models [fluree-db-transact/src/namespace.rs]: the registry a transaction
    allocates from, the allocator that import workers share, and the cache each
    worker keeps; and the publication of a chunk's codes by the import
    orchestrator ([compute_ns_delta] of [fluree-db-api/src/import.rs]).  A
    section under the allocator's lock is one atomic step, so that a worker's
    allocation is a read step and, when the prefix is unknown, a write step;
    workers interleave between the steps. *)

From stdpp Require Import base list numbers gmap sorting strings.
From Stdlib Require Import ZArith Lia.
From S2P Require Import Prelude Bytes Vocab Cmp Value Envelope PrefixTrie IriSplit NsCodes.

Local Open Scope Z_scope.

Definition BLANK_NODE_ID_PREFIX : str := bytes_of_string "fdb"%string.

(** [format!("{BLANK_NODE_ID_PREFIX}-{unique_id}")]. *)
Definition blank_node_sid (unique_id : str) : Sid :=
  mkSid BLANK_NODE (BLANK_NODE_ID_PREFIX ++ [45] ++ unique_id).

Definition is_blank_node_id (iri : str) : bool :=
  match strip (bytes_of_string "_:fdb"%string) iri with Some _ => true | None => false end.

Definition stable_blank_node_sid (iri : str) : option Sid :=
  local ← stable_blank_node_local iri; Some (mkSid BLANK_NODE local).

Definition stable_blank_node_sid_from_label (label : str) : option Sid :=
  _ ← strip STABLE_BLANK_NODE_LABEL_PREFIX label; Some (mkSid BLANK_NODE label).

(** The id of an IRI split as [prefix] and [suffix], once its code is known. *)
Definition sid_of (iri suffix : str) (code : Z) : Sid :=
  if code =? OVERFLOW then mkSid OVERFLOW iri else mkSid code suffix.

(** The code an allocation answers: [OVERFLOW] on every error. *)
Definition code_or_overflow (r : outcome NsAllocError Z) : outcome NsAllocError Z :=
  match r with Ok code => Ok code | Err _ => Ok OVERFLOW | Panic => Panic end.

(** ** The registry *)

Record NamespaceRegistry := mkRegistry { reg_codes : NamespaceCodes; reg_split_mode : NsSplitMode }.

Section registry.
Context `{NO : NsOrder}.

Definition registry_new : outcome NsAllocError NamespaceRegistry :=
  codes ← codes_new; Ok (mkRegistry codes MostGranular).

(** [from_db]: the built-in table extended by the snapshot's; a conflict is a
    panic. *)
Definition from_db (namespaces : gmap Z str) (mode : NsSplitMode) : outcome NsAllocError NamespaceRegistry :=
  codes ← codes_new;
  match merge_delta codes namespaces with
  | (codes, Ok _) => Ok (mkRegistry codes mode)
  | _ => Panic
  end.

Definition reg_get_or_allocate (r : NamespaceRegistry) (prefix : str) :
    NamespaceRegistry * outcome NsAllocError Z :=
  let '(codes, res) := allocate_prefix (reg_codes r) prefix in
  (mkRegistry codes (reg_split_mode r), code_or_overflow res).

Definition lookup_sid_for_iri (r : NamespaceRegistry) (iri : str) : outcome NsAllocError (option Sid) :=
  '(prefix, suffix) ← canonical_split iri (reg_split_mode r);
  Ok (code ← get_code (reg_codes r) prefix; Some (mkSid code suffix)).

Definition reg_sid_for_iri (r : NamespaceRegistry) (iri : str) : NamespaceRegistry * outcome NsAllocError Sid :=
  match canonical_split iri (reg_split_mode r) with
  | Ok (prefix, suffix) =>
      let '(r, code) := reg_get_or_allocate r prefix in
      (r, code ← code; Ok (sid_of iri suffix code))
  | Err e => (r, Err e)
  | Panic => (r, Panic)
  end.

Definition ensure_code (r : NamespaceRegistry) (code : Z) (prefix : str) :
    NamespaceRegistry * outcome NsAllocError unit :=
  if OVERFLOW <=? code then (r, Ok tt) else
  let '(codes, res) := merge_delta (reg_codes r) {[ code := prefix ]} in
  (mkRegistry codes (reg_split_mode r), res).

Definition reg_adopt_delta (r : NamespaceRegistry) (d : gmap Z str) :
    NamespaceRegistry * outcome NsAllocError unit :=
  let '(codes, res) := adopt_delta_for_persistence (reg_codes r) d in
  (mkRegistry codes (reg_split_mode r), res).

Definition reg_take_delta (r : NamespaceRegistry) : NamespaceRegistry * gmap Z str :=
  let '(codes, d) := take_delta (reg_codes r) in (mkRegistry codes (reg_split_mode r), d).

(** ** The shared allocator *)

Record SharedNamespaceAllocator := mkShared { inner : NamespaceCodes; split_mode_byte : Z }.

Definition from_registry (r : NamespaceRegistry) : outcome NsAllocError SharedNamespaceAllocator :=
  match mode_to_byte (reg_split_mode r) with
  | Ok b => Ok (mkShared (reg_codes r) b)
  | _ => Panic
  end.

Definition shared_split_mode (a : SharedNamespaceAllocator) : NsSplitMode := mode_from_byte (split_mode_byte a).

Definition set_split_mode (a : SharedNamespaceAllocator) (mode : NsSplitMode) :
    outcome NsAllocError SharedNamespaceAllocator :=
  match mode_to_byte mode with Ok b => Ok (mkShared (inner a) b) | _ => Panic end.

(** The two lock sections of [get_or_allocate]. *)
Definition read_path (a : SharedNamespaceAllocator) (prefix : str) : option Z := get_code (inner a) prefix.

Definition write_path (a : SharedNamespaceAllocator) (prefix : str) :
    SharedNamespaceAllocator * outcome NsAllocError Z :=
  match get_code (inner a) prefix with
  | Some code => (a, Ok code)
  | None =>
      let '(codes, res) := allocate_prefix (inner a) prefix in
      (mkShared codes (split_mode_byte a), code_or_overflow res)
  end.

Definition shared_get_or_allocate (a : SharedNamespaceAllocator) (prefix : str) :
    SharedNamespaceAllocator * outcome NsAllocError Z :=
  match read_path a prefix with Some code => (a, Ok code) | None => write_path a prefix end.

(** [lookup_codes] of a release build: codes the allocator does not hold are
    skipped. *)
Definition lookup_codes (a : SharedNamespaceAllocator) (codes : gset Z) : gmap Z str :=
  filter (fun e => e.1 ∈ codes) (code_to_prefix (inner a)).

Definition sync_from_registry (a : SharedNamespaceAllocator) (r : NamespaceRegistry) :
    SharedNamespaceAllocator * outcome NsAllocError unit :=
  let '(codes, res) := merge_delta (inner a) (code_to_prefix (reg_codes r)) in
  (mkShared codes (split_mode_byte a), res).

Definition snapshot (a : SharedNamespaceAllocator) : gmap str Z * Z :=
  (prefix_to_code (inner a), next_code (inner a)).

(** ** Worker caches *)

Record WorkerCache := mkCache {
  local_codes : gmap str Z;
  wc_split_mode : NsSplitMode;
  snapshot_next_code : Z;
  new_codes : gset Z;
}.

Definition worker_new (a : SharedNamespaceAllocator) : WorkerCache :=
  let '(local, next) := snapshot a in mkCache local (shared_split_mode a) next ∅.

Definition track_code (w : WorkerCache) (code : Z) : WorkerCache :=
  if (snapshot_next_code w <=? code) && (code <? OVERFLOW)
  then mkCache (local_codes w) (wc_split_mode w) (snapshot_next_code w) ({[ code ]} ∪ new_codes w)
  else w.

(** After the shared allocator has answered. *)
Definition record_code (w : WorkerCache) (prefix : str) (code : Z) : WorkerCache :=
  if code <? OVERFLOW then
    track_code (mkCache (<[prefix := code]> (local_codes w)) (wc_split_mode w) (snapshot_next_code w)
      (new_codes w)) code
  else w.

Definition worker_get_or_allocate (w : WorkerCache) (a : SharedNamespaceAllocator) (prefix : str) :
    WorkerCache * SharedNamespaceAllocator * outcome NsAllocError Z :=
  match local_codes w !! prefix with
  | Some code => (track_code w code, a, Ok code)
  | None =>
      let '(a, res) := shared_get_or_allocate a prefix in
      (match res with Ok code => record_code w prefix code | _ => w end, a, res)
  end.

(** ** Publication *)

Definition compute_ns_delta (a : SharedNamespaceAllocator) (new published : gset Z) : gmap Z str * gset Z :=
  let unpublished := filter (fun c => c < OVERFLOW /\ c ∉ published) new in
  (if bool_decide (unpublished = ∅) then ∅ else lookup_codes a unpublished, published ∪ unpublished).
End registry.
