(* ===== verification/NsImport.v ===== *)
(** * Parallel imports

    Interleavings of import workers over the shared namespace allocator of
    [NsRegistry], as a step relation.  Each worker's state records, besides its
    cache, the ids it has minted and the table it was spawned from.  The
    allocator only grows, every id decodes against it, and the codes that the
    workers report cover everything allocated since the import began. *)

From stdpp Require Import base list numbers gmap sorting strings.
From Stdlib Require Import ZArith Lia.
From S2P Require Import Prelude Bytes Vocab Cmp Value Envelope PrefixTrie IriSplit NsCodes NsRegistry.

Local Open Scope Z_scope.

Record thread := mkThread {
  th_cache : WorkerCache;
  th_base : NamespaceCodes;
  th_pending : option (str * str * str);
  th_sids : list (str * Sid);
}.

Record system := mkSystem { sy_alloc : SharedNamespaceAllocator; sy_threads : list thread }.

Section import.
Context `{NO : NsOrder} {NL : NsOrderLaws}.

(** The worker has the code and returns the id. *)
Definition finish (th : thread) (cache : WorkerCache) (iri suffix : str) (code : Z) : thread :=
  mkThread cache (th_base th) None ((iri, sid_of iri suffix code) :: th_sids th).

(** A worker between ids that splits its next IRI. *)
Definition splitting (th : thread) (iri p q : str) : Prop :=
  th_pending th = None /\ canonical_split iri (wc_split_mode (th_cache th)) = Ok (p, q).

Inductive thread_step (a : SharedNamespaceAllocator) (th : thread) : SharedNamespaceAllocator -> thread -> Prop :=
| step_local iri p q code :
    splitting th iri p q -> local_codes (th_cache th) !! p = Some code ->
    thread_step a th a (finish th (track_code (th_cache th) code) iri q code)
| step_read iri p q code :
    splitting th iri p q -> local_codes (th_cache th) !! p = None -> read_path a p = Some code ->
    thread_step a th a (finish th (record_code (th_cache th) p code) iri q code)
| step_miss iri p q :
    splitting th iri p q -> local_codes (th_cache th) !! p = None -> read_path a p = None ->
    thread_step a th a (mkThread (th_cache th) (th_base th) (Some (iri, p, q)) (th_sids th))
| step_write iri p q a' code :
    th_pending th = Some (iri, p, q) -> write_path a p = (a', Ok code) ->
    thread_step a th a' (finish th (record_code (th_cache th) p code) iri q code).

Inductive step : system -> system -> Prop :=
| step_spawn a ths :
    step (mkSystem a ths) (mkSystem a (ths ++ [mkThread (worker_new a) (inner a) None []]))
| step_thread a ths i th a' th' :
    ths !! i = Some th -> thread_step a th a' th' ->
    step (mkSystem a ths) (mkSystem a' (<[i := th']> ths)).

(** ** The invariant *)

(** What was added to [b] since: user codes from its next code on. *)
Definition since (b n : NamespaceCodes) : Prop :=
  extends b n /\ next_code b <= next_code n /\
  forall c p, code_to_prefix n !! c = Some p -> code_to_prefix b !! c = Some p \/ next_code b <= c < OVERFLOW.

(** A minted id: the split of its IRI and where its code comes from. *)
Definition minted (n b : NamespaceCodes) (w : WorkerCache) (iri : str) (sid : Sid) : Prop :=
  exists p q, canonical_split iri (wc_split_mode w) = Ok (p, q) /\
    (sid = mkSid OVERFLOW iri \/
     (name sid = q /\ namespace_code sid <> OVERFLOW /\ code_to_prefix n !! namespace_code sid = Some p /\
      (code_to_prefix b !! namespace_code sid = Some p \/ namespace_code sid ∈ new_codes w))).

Record thread_ok (n : NamespaceCodes) (th : thread) : Prop := {
  to_base : codes_wf (th_base th);
  to_since : since (th_base th) n;
  to_next : snapshot_next_code (th_cache th) = next_code (th_base th);
  to_local p c : local_codes (th_cache th) !! p = Some c -> code_to_prefix n !! c = Some p;
  to_pending iri p q : th_pending th = Some (iri, p, q) -> canonical_split iri (wc_split_mode (th_cache th)) = Ok (p, q);
  to_sids iri sid : (iri, sid) ∈ th_sids th -> minted n (th_base th) (th_cache th) iri sid;
}.

Record system_ok (b : NamespaceCodes) (s : system) : Prop := {
  so_wf : codes_wf (inner (sy_alloc s));
  so_reserved : reserved_ok (inner (sy_alloc s));
  so_since : since b (inner (sy_alloc s));
  so_threads th : th ∈ sy_threads s -> thread_ok (inner (sy_alloc s)) th;
  so_tracked c p : code_to_prefix (inner (sy_alloc s)) !! c = Some p ->
    code_to_prefix b !! c = Some p \/ exists th, th ∈ sy_threads s /\ c ∈ new_codes (th_cache th);
}.

Lemma since_refl n : since n n.
Proof. split_and!; [reflexivity|lia|by left]. Qed.

Lemma since_trans b n n' :
  since b n -> since n n' -> since b n'.
Proof.
  intros (He & Hn & Hs) (He' & Hn' & Hs'). split_and!; [by etrans|lia|]. intros c p Hc.
  apply Hs' in Hc as [Hc|?]; [by apply Hs|right; lia].
Qed.

Lemma allocate_since n p : codes_wf n -> since n (allocate_prefix n p).1.
Proof.
  intros Hw. pose proof (allocate_spec n p Hw) as H. revert H. unfold allocate_prefix.
  destruct (prefix_to_code n !! p); [intros; apply since_refl|].
  destruct (Z.leb_spec OVERFLOW (next_code n)); [intros; apply since_refl|]. cbn [fst]. intros (_ & He & _).
  split_and!; [done|cbn; lia|]. cbn [code_to_prefix]. intros c q Hc.
  destruct (decide (c = next_code n)) as [->|Hne]; [right; lia|]. rewrite lookup_insert_ne in Hc by done. by left.
Qed.

Lemma track_code_fields w c :
  local_codes (track_code w c) = local_codes w /\ wc_split_mode (track_code w c) = wc_split_mode w /\
  snapshot_next_code (track_code w c) = snapshot_next_code w /\ new_codes w ⊆ new_codes (track_code w c) /\
  (snapshot_next_code w <= c < OVERFLOW -> c ∈ new_codes (track_code w c)).
Proof.
  unfold track_code. destruct (Z.leb_spec (snapshot_next_code w) c), (Z.ltb_spec c OVERFLOW); cbn;
    split_and!; try done; try lia; set_solver.
Qed.

Lemma record_code_fields w p c :
  wc_split_mode (record_code w p c) = wc_split_mode w /\
  snapshot_next_code (record_code w p c) = snapshot_next_code w /\ new_codes w ⊆ new_codes (record_code w p c) /\
  (snapshot_next_code w <= c < OVERFLOW -> c ∈ new_codes (record_code w p c)) /\
  (forall q k, local_codes (record_code w p c) !! q = Some k ->
     local_codes w !! q = Some k \/ (q = p /\ k = c /\ c < OVERFLOW)).
Proof.
  unfold record_code. destruct (Z.ltb_spec c OVERFLOW) as [Hc|Hc].
  - destruct (track_code_fields (mkCache (<[p := c]> (local_codes w)) (wc_split_mode w) (snapshot_next_code w)
      (new_codes w)) c) as (-> & -> & -> & ? & ?). cbn in *. split_and!; [done..|].
    intros q k Hk. destruct (decide (q = p)) as [->|]; simplify_map_eq; auto.
  - split_and!; [done..|lia|by left].
Qed.
Lemma minted_mono n n' b w w' iri sid :
  extends n n' -> wc_split_mode w' = wc_split_mode w -> new_codes w ⊆ new_codes w' ->
  minted n b w iri sid -> minted n' b w' iri sid.
Proof.
  intros He Hm Hn (p & q & E & Hs). exists p, q. rewrite Hm. split; [done|].
  destruct Hs as [->|(? & ? & Hc & Hb)]; [by left|right]. split_and!; [done..|by eapply lookup_weaken|set_solver].
Qed.

Lemma thread_mono n n' th : since n n' -> thread_ok n th -> thread_ok n' th.
Proof.
  intros Hs Ht. split; [apply Ht|eapply since_trans; [apply Ht|done]|apply Ht| |apply Ht|].
  - intros p c Hc%(to_local _ _ Ht). by eapply lookup_weaken, Hs.
  - intros iri sid Hin%(to_sids _ _ Ht). eapply minted_mono; [apply Hs|done..].
Qed.

(** The code a worker was given for a prefix. *)
Definition answered (n : NamespaceCodes) (p : str) (code : Z) : Prop :=
  code = OVERFLOW \/ (code <> OVERFLOW /\ code_to_prefix n !! code = Some p).

Lemma registered_answered n p code : reserved_ok n -> code_to_prefix n !! code = Some p -> answered n p code.
Proof. intros [_ Ho] Hc. right. split; [intros ->; congruence|done]. Qed.

Lemma finish_ok n th w iri p q code :
  thread_ok n th -> canonical_split iri (wc_split_mode (th_cache th)) = Ok (p, q) -> answered n p code ->
  wc_split_mode w = wc_split_mode (th_cache th) -> snapshot_next_code w = snapshot_next_code (th_cache th) ->
  new_codes (th_cache th) ⊆ new_codes w -> (snapshot_next_code w <= code < OVERFLOW -> code ∈ new_codes w) ->
  (forall p c, local_codes w !! p = Some c -> code_to_prefix n !! c = Some p) ->
  thread_ok n (finish th w iri q code).
Proof.
  intros Ht E Ha Hm Hsn Hn Htr Hl. split; cbn; [apply Ht|apply Ht|by rewrite Hsn; apply Ht|done|done|].
  intros iri' sid [[= -> ->]|Hin]%elem_of_cons.
  - exists p, q. rewrite Hm. split; [done|]. unfold sid_of.
    destruct Ha as [->|[Ho Hc]]; [left; by rewrite Z.eqb_refl|].
    rewrite (proj2 (Z.eqb_neq _ _) Ho). right. cbn. split_and!; [done..|].
    destruct (to_since _ _ Ht) as (_ & _ & Hs). apply Hs in Hc as [?|?]; [by left|right].
    apply Htr. rewrite Hsn, (to_next _ _ Ht). lia.
  - eapply minted_mono; [reflexivity|done..|]. by apply (to_sids _ _ Ht).
Qed.

Lemma write_path_spec a p a' code :
  codes_wf (inner a) -> reserved_ok (inner a) -> write_path a p = (a', Ok code) ->
  codes_wf (inner a') /\ reserved_ok (inner a') /\ since (inner a) (inner a') /\ answered (inner a') p code /\
  forall c q, code_to_prefix (inner a') !! c = Some q ->
    code_to_prefix (inner a) !! c = Some q \/ (c = code /\ next_code (inner a) <= code < OVERFLOW).
Proof.
  intros Hw Hr. unfold write_path. destruct (get_code (inner a) p) as [k|] eqn:Eg.
  { intros [= <- <-]. apply (cw_bimap _ Hw) in Eg.
    split_and!; try done; [apply since_refl|by apply registered_answered|by left]. }
  pose proof (allocate_spec (inner a) p Hw) as Ha. pose proof (allocate_reserved (inner a) p Hw Hr) as Hr'.
  pose proof (allocate_since (inner a) p Hw) as Hs. destruct (allocate_prefix (inner a) p) as [n' r] eqn:E.
  destruct r as [k|e|]; cbn in *; [| |done]; intros [= <- <-]; cbn.
  - destruct Ha as (Hw' & _ & Hk & _ & _ & Hnew). split_and!; try done; [by apply registered_answered|].
    intros c q Hc. destruct Hs as (He & _ & Hs). destruct (Hs c q Hc) as [?|Hcr]; [by left|].
    unfold allocate_prefix in E. unfold get_code in Eg. rewrite Eg in E.
    destruct (Z.leb_spec OVERFLOW (next_code (inner a))); [done|]. injection E as <- <-. cbn in Hc.
    destruct (decide (c = next_code (inner a))) as [->|Hne]; [right; lia|].
    rewrite lookup_insert_ne in Hc by done. by left.
  - destruct Ha as (? & ? & _ & -> & _). split_and!; [done..|by left|by left].
Qed.

(** What one step of one worker does to the table and to the worker. *)
Lemma thread_step_ok a th a' th' :
  codes_wf (inner a) -> reserved_ok (inner a) -> thread_ok (inner a) th -> thread_step a th a' th' ->
  codes_wf (inner a') /\ reserved_ok (inner a') /\ since (inner a) (inner a') /\ thread_ok (inner a') th' /\
  new_codes (th_cache th) ⊆ new_codes (th_cache th') /\
  forall c q, code_to_prefix (inner a') !! c = Some q ->
    code_to_prefix (inner a) !! c = Some q \/ c ∈ new_codes (th_cache th').
Proof.
  intros Hw Hr Ht Hstep.
  destruct Hstep as [iri p q code [_ E] Hl|iri p q code [_ E] Hl Hread|iri p q [_ E] Hl Hread|iri p q a' code Hp Hwr].
  - destruct (track_code_fields (th_cache th) code) as (El & Em & Es & Hn & Htr). apply (to_local _ _ Ht) in Hl.
    split_and!; try done; [apply since_refl| |by left].
    apply (finish_ok _ _ _ _ p); try done; [by apply registered_answered|by rewrite Es|]. rewrite El. apply Ht.
  - destruct (record_code_fields (th_cache th) p code) as (Em & Es & Hn & Htr & Hloc).
    apply (cw_bimap _ Hw) in Hread. split_and!; try done; [apply since_refl| |by left].
    apply (finish_ok _ _ _ _ p); try done; [by apply registered_answered|by rewrite Es|].
    intros p' c [Hc|(-> & -> & _)]%Hloc; [by apply (to_local _ _ Ht)|done].
  - split_and!; try done; [apply since_refl| |by left].
    split; cbn; try apply Ht. by intros ? ? ? [= <- <- <-].
  - destruct (write_path_spec a p a' code Hw Hr Hwr) as (Hw' & Hr' & Hs & Ha & Hnew).
    destruct (record_code_fields (th_cache th) p code) as (Em & Es & Hn & Htr & Hloc).
    apply (thread_mono _ _ _ Hs) in Ht as Ht'. split_and!; try done.
    + apply (finish_ok _ _ _ _ p); try done; [by apply (to_pending _ _ Ht)|by rewrite Es|].
      intros p' c [Hc|(-> & -> & Hlt)]%Hloc; [by apply (to_local _ _ Ht')|]. destruct Ha as [->|[_ ?]]; [lia|done].
    + intros c k Hc. apply Hnew in Hc as [?|[-> Hrange]]; [by left|right]. apply Htr.
      destruct (to_since _ _ Ht) as (_ & Hb & _). rewrite (to_next _ _ Ht). lia.
Qed.

Lemma worker_new_ok a :
  codes_wf (inner a) -> thread_ok (inner a) (mkThread (worker_new a) (inner a) None []).
Proof.
  intros Hw. split; cbn; [done|apply since_refl|done| |done|set_solver].
  intros p c. apply (cw_bimap _ Hw).
Qed.

Lemma step_ok b s s' : system_ok b s -> step s s' -> system_ok b s'.
Proof.
  intros Hs Hstep. destruct Hstep as [a ths|a ths i th a' th' Hi Hstep]; destruct Hs as [Hw Hr Hb Ht Htr]; cbn in *.
  - split; cbn; [done..| |].
    + intros th [Hin| ->%list_elem_of_singleton]%elem_of_app; [by apply Ht|by apply worker_new_ok].
    + intros c p Hc. apply Htr in Hc as [?|(th & ? & ?)]; [by left|right]. exists th. set_solver.
  - apply list_elem_of_lookup_2 in Hi as Hin.
    destruct (thread_step_ok a th a' th' Hw Hr (Ht _ Hin) Hstep) as (Hw' & Hr' & Hs' & Ht' & Hn & Hnew).
    assert (forall x, x ∈ <[i := th']> ths -> x = th' \/ x ∈ ths) as Hsub.
    { intros x Hx. apply list_elem_of_lookup in Hx as [j Hj]. destruct (decide (i = j)) as [->|Hne].
      - apply list_lookup_insert_Some in Hj. naive_solver.
      - rewrite list_lookup_insert_ne in Hj by done. right. by eapply list_elem_of_lookup_2. }
    assert (th' ∈ <[i := th']> ths) as Hth'.
    { apply (list_elem_of_lookup_2 _ i), list_lookup_insert_eq. by eapply lookup_lt_Some. }
    split; cbn; [done..|by eapply since_trans| |].
    + intros x [->|Hx]%Hsub; [done|]. eapply thread_mono; [done|]. by apply Ht.
    + intros c p Hc. apply Hnew in Hc as [Hc|Hc]; [|right; eauto].
      apply Htr in Hc as [?|(x & Hx & Hcx)]; [by left|right].
      apply list_elem_of_lookup in Hx as [j Hj]. destruct (decide (i = j)) as [->|Hne].
      * exists th'. split; [done|]. rewrite Hi in Hj. injection Hj as ->. set_solver.
      * exists x. split; [|done]. apply (list_elem_of_lookup_2 _ j). by rewrite list_lookup_insert_ne.
Qed.
(** ** Publication *)

(** The orchestrator publishes the chunks one by one and a ledger merges their
    deltas. *)
Fixpoint publish (a : SharedNamespaceAllocator) (caches : list WorkerCache) (published : gset Z)
    (ledger : NamespaceCodes) : NamespaceCodes * outcome NsAllocError unit :=
  match caches with
  | [] => (ledger, Ok tt)
  | w :: caches =>
      let '(d, published) := compute_ns_delta a (new_codes w) published in
      match merge_delta ledger d with
      | (ledger, Ok _) => publish a caches published ledger
      | (ledger, r) => (ledger, r)
      end
  end.

Lemma compute_delta_spec a new published c p :
  (compute_ns_delta a new published).1 !! c = Some p <->
    code_to_prefix (inner a) !! c = Some p /\ c ∈ new /\ c < OVERFLOW /\ c ∉ published.
Proof.
  unfold compute_ns_delta. cbn [fst]. set (u := filter _ new).
  assert (forall k, k ∈ u <-> (k < OVERFLOW /\ k ∉ published) /\ k ∈ new) as Hu by (intros k; unfold u; by rewrite elem_of_filter).
  case_bool_decide as He.
  - rewrite lookup_empty. specialize (Hu c). rewrite He in Hu. set_solver.
  - unfold lookup_codes. rewrite map_lookup_filter_Some. cbn. rewrite Hu. naive_solver.
Qed.

Lemma publish_spec a caches published ledger :
  codes_wf (inner a) -> codes_wf ledger -> extends ledger (inner a) ->
  (forall c p, c ∈ published -> code_to_prefix (inner a) !! c = Some p -> code_to_prefix ledger !! c = Some p) ->
  exists ledger', publish a caches published ledger = (ledger', Ok tt) /\ codes_wf ledger' /\
    extends ledger ledger' /\ extends ledger' (inner a) /\
    forall w c p, w ∈ caches -> c ∈ new_codes w -> c < OVERFLOW -> code_to_prefix (inner a) !! c = Some p ->
      code_to_prefix ledger' !! c = Some p.
Proof.
  intros Hw. revert published ledger. induction caches as [|w caches IH]; intros published ledger Hl He Hp; cbn [publish].
  { exists ledger. split_and!; [done..|reflexivity|done|]. intros w c p. set_solver. }
  destruct (compute_ns_delta a (new_codes w) published) as [d published'] eqn:Ed.
  assert (forall c p, d !! c = Some p <->
    code_to_prefix (inner a) !! c = Some p /\ c ∈ new_codes w /\ c < OVERFLOW /\ c ∉ published) as Hd.
  { intros c p. rewrite <- compute_delta_spec, Ed. done. }
  assert (forall c, c ∈ published' <-> c ∈ published \/ (c ∈ new_codes w /\ c < OVERFLOW)) as Hpub.
  { intros c. injection Ed as _ <-. rewrite elem_of_union, elem_of_filter.
    destruct (decide (c ∈ published)); tauto. }
  pose proof (merge_delta_spec ledger d Hl) as Hm. destruct (merge_delta ledger d) as [l1 [[]|e|]];
    destruct Hm as (Hw1 & He1 & Hfrom & Hm); [| |done].
  - destruct Hm as (_ & Hdl & _). destruct (IH published' l1) as (l' & E & Hw' & He' & Hen & Hall); [done| | |].
    + apply map_subseteq_spec. intros c p [Hc|Hc]%Hfrom; [by eapply lookup_weaken|by apply Hd in Hc as [? _]].
    + intros c p [Hc|[Hc Hlt]]%Hpub Hn; [by eapply lookup_weaken; [apply (Hp c p)|]|].
      destruct (decide (c ∈ published)) as [Hcp|Hcp]; [by eapply lookup_weaken; [apply (Hp c p)|]|].
      eapply lookup_weaken; [|exact Hdl]. by apply Hd.
    + exists l'. split_and!; [done..|by etrans|done|].
      intros w' c p [->|Hin]%elem_of_cons Hc Hlt Hn; [|by eapply Hall].
      eapply lookup_weaken; [|exact He']. destruct (decide (c ∈ published)) as [Hcp|Hcp].
      * eapply lookup_weaken; [by apply (Hp c p)|done].
      * eapply lookup_weaken; [|exact Hdl]. by apply Hd.
  - destruct Hm. exists (code_to_prefix (inner a)). split_and!; [done| |intros c c' p; by apply codes_wf_inj].
    apply map_subseteq_spec. intros c p [? _]%Hd. done.
Qed.

Lemma reachable_ok a s :
  codes_wf (inner a) -> reserved_ok (inner a) -> rtc step (mkSystem a []) s -> system_ok (inner a) s.
Proof.
  intros Hw Hr Hs. remember (mkSystem a []) as s0 eqn:E0.
  assert (system_ok (inner a) s0) as H0.
  { subst s0. split; cbn; [done..|apply since_refl|set_solver|by left]. }
  clear E0. induction Hs as [|s1 s2 s3 H12 _ IH]; [done|]. by eapply IH, step_ok.
Qed.

Lemma minted_decodes n b w iri sid :
  reserved_ok n -> minted n b w iri sid -> decode_sid_strict n sid = Some iri.
Proof.
  intros Hr (p & q & E & [->|(Hq & _ & Hc & _)]); [apply decode_overflow|].
  apply canonical_split_app in E as <-. destruct sid as [c l]. cbn in *. subst l. by apply decode_registered.
Qed.

(** C32: Parallel imports neither lose nor confuse namespaces: however the
    workers of an import interleave, publishing the codes they report, in any
    order, is accepted by a ledger that starts from the same table, and there
    every id any worker minted decodes to its IRI; two workers never give one
    IRI different ids, unless the codes ran out. *)
Theorem parallel_import_complete a s order :
  codes_wf (inner a) -> reserved_ok (inner a) -> rtc step (mkSystem a []) s ->
  order ≡ₚ th_cache <$> sy_threads s ->
  (exists ledger, publish (sy_alloc s) order (dom (code_to_prefix (inner a))) (inner a) = (ledger, Ok tt) /\
     forall th iri sid, th ∈ sy_threads s -> (iri, sid) ∈ th_sids th -> decode_sid_strict ledger sid = Some iri) /\
  (forall th th' iri sid sid', th ∈ sy_threads s -> th' ∈ sy_threads s ->
     wc_split_mode (th_cache th) = wc_split_mode (th_cache th') ->
     (iri, sid) ∈ th_sids th -> (iri, sid') ∈ th_sids th' ->
     sid = sid' \/ namespace_code sid = OVERFLOW \/ namespace_code sid' = OVERFLOW).
Proof.
  intros Hw Hr Hs Hp. pose proof (reachable_ok a s Hw Hr Hs) as [Hws Hrs (He & _ & Hsin) Ht Htr]. split.
  - destruct (publish_spec (sy_alloc s) order (dom (code_to_prefix (inner a))) (inner a))
      as (l & E & Hwl & Hel & Heln & Hall); [done..| |].
    { intros c p [q Hq]%elem_of_dom Hc. eapply lookup_weaken in Hq as Hq'; [|exact He]. congruence. }
    exists l. split; [done|]. intros th iri sid Hth Hin.
    assert (code_to_prefix l = code_to_prefix (inner (sy_alloc s))) as Heq.
    { apply map_eq. intros c. apply option_eq. intros p. split; [intros Hc; by eapply lookup_weaken|].
      intros Hc. destruct (Hsin c p Hc) as [Hb|[_ Hlt]]; [by eapply lookup_weaken|].
      apply Htr in Hc as Hc'. destruct Hc' as [Hb|(th' & Hth' & Hcn)]; [by eapply lookup_weaken|].
      eapply Hall; [rewrite Hp; by apply list_elem_of_fmap_2|done..]. }
    pose proof (minted_decodes _ _ _ _ _ Hrs (to_sids _ _ (Ht _ Hth) _ _ Hin)) as Hdec.
    rewrite <- Hdec. unfold decode_sid_strict, get_prefix. by rewrite Heq.
  - intros th th' iri sid sid' Hth Hth' Hm Hin Hin'.
    destruct (to_sids _ _ (Ht _ Hth) _ _ Hin) as (p & q & E & [->|(Hq & _ & Hc & _)]); [by right; left|].
    destruct (to_sids _ _ (Ht _ Hth') _ _ Hin') as (p' & q' & E' & [->|(Hq' & _ & Hc' & _)]); [by right; right|].
    left. rewrite Hm, E' in E. injection E as -> ->. destruct sid as [c l], sid' as [c' l']. cbn in *.
    subst. f_equal. by eapply codes_wf_inj.
Qed.
End import.
