(* ===== verification/NsPlain.v ===== *)
(** * Sample namespaces

    Concrete runs of the namespace stack with the hash maps iterated in key
    order, and two runs that contradict the documentation: a reserved code that
    a merge accepts, and an import whose first commit uses a code that only a
    later commit publishes. *)

From stdpp Require Import base list numbers gmap sorting strings relations.
From Stdlib Require Import ZArith Lia.
From S2P Require Import Prelude Bytes Vocab Cmp Value Envelope PrefixTrie IriSplit NsCodes NsRegistry.
From S2P Require Import NsImport.

Local Open Scope Z_scope.

Definition text (s : string) : str := bytes_of_string s.

(** ** Splitting *)

Lemma trie_longest_prefix_witness :
  exists trie, from_namespace_codes (map_to_list default_namespace_codes) = Some trie /\
  exists r, longest_match trie (text "urn:fluree:db") = Some r /\
    longest_registered (map_to_list default_namespace_codes) (text "urn:fluree:db") r.
Proof.
  apply (trie_longest_prefix default_namespace_codes).
  - reflexivity.
  - apply (bool_decide_eq_true _). by vm_compute.
  - apply Z.leb_le. by vm_compute.
Defined.

Definition iri_a : str := text "http://example.org/people/ada?x=1".
Definition iri_b : str := text "http://example.org/people/bob".

Lemma canonical_split_lossless_witness :
  exists p q, canonical_split iri_a (HostPlusN 1) = Ok (p, q) /\ p ++ q = iri_a /\
    utf8_valid p = true /\ utf8_valid q = true.
Proof.
  apply (canonical_split_lossless iri_a (HostPlusN 1)); [by vm_compute|].
  right. intros [H _]. by vm_compute in H.
Defined.

Lemma iri_a_split :
  canonical_split iri_a (HostPlusN 0) = Ok (text "http://example.org/", text "people/ada?x=1") /\
  canonical_split iri_a MostGranular = Ok (text "http://example.org/people/", text "ada?x=1") /\
  canonical_split (text "urn:isbn:123:4") (HostPlusN 0) = Ok (text "urn:isbn:", text "123:4").
Proof. split_and!; by vm_compute. Qed.

Lemma builtin_names_stable_witness :
  canonical_split (text "http://www.w3.org/2000/01/rdf-schema#" ++ text "label") (HostPlusN 0) =
    Ok (text "http://www.w3.org/2000/01/rdf-schema#", text "label").
Proof.
  apply (builtin_names_stable RDFS).
  - apply (bool_decide_eq_true _). by vm_compute.
  - done.
  - apply (bool_decide_eq_true _). by vm_compute.
  - by vm_compute.
Defined.

(** ** Tables *)

Definition plain_codes : NamespaceCodes :=
  match codes_new with Ok n => n | _ => mkCodes ∅ ∅ USER_START ∅ end.

Lemma plain_codes_ok :
  codes_new = Ok plain_codes /\ codes_wf plain_codes /\ reserved_ok plain_codes /\ delta plain_codes = ∅.
Proof.
  destruct codes_new_spec as (n & E & Hw & Hc & Hd). unfold plain_codes. rewrite E. split_and!; [done..| |done].
  unfold reserved_ok. rewrite Hc. split; [|by vm_compute].
  intros p Hp. assert (default_namespace_codes !! EMPTY = Some []) as H by by vm_compute. congruence.
Qed.

Lemma namespace_table_invariant_witness :
  match from_code_to_prefix default_namespace_codes with
  | Ok n => forall ops, codes_wf (foldl run_op n ops) /\
      default_namespace_codes ⊆ code_to_prefix (foldl run_op n ops)
  | Err _ => ~ injective default_namespace_codes
  | Panic => False
  end.
Proof. apply (namespace_table_invariant default_namespace_codes). Defined.

Lemma merge_delta_exact_witness :
  let '(n', r) := merge_delta plain_codes {[ 13 := text "http://example.org/" ]} in
  codes_wf n' /\ r = Ok tt /\ code_to_prefix n' !! 13 = Some (text "http://example.org/").
Proof.
  pose proof (merge_delta_exact plain_codes {[ 13 := text "http://example.org/" ]} (proj1 (proj2 plain_codes_ok))) as H.
  assert ((merge_delta plain_codes {[ 13 := text "http://example.org/" ]}).2 = Ok tt) as Hr by by vm_compute.
  destruct (merge_delta plain_codes {[ 13 := text "http://example.org/" ]}) as [n' r]. cbn in Hr. subst r.
  destruct H as (Hw & _ & _ & _ & Hd & _). split_and!; [exact Hw|reflexivity|].
  eapply lookup_weaken; [|exact Hd]. apply lookup_singleton_eq.
Defined.

Lemma iri_sid_roundtrip_witness :
  exists n' sid, encode_iri_or_allocate plain_codes iri_a MostGranular = (n', Ok sid) /\
    decode_sid_strict n' sid = Some iri_a.
Proof.
  destruct plain_codes_ok as (_ & Hw & Hr & _).
  destruct (iri_sid_roundtrip plain_codes iri_a MostGranular Hw Hr) as (n' & sid & E & Hw' & Hr' & H).
  - split; [by vm_compute|by left].
  - exists n', sid. split; [exact E|]. apply (H n'); [exact Hw'|exact Hr'|reflexivity].
Defined.

Lemma delta_replay_witness :
  let '(n', sids) := encode_all plain_codes MostGranular [iri_a; iri_b] in
  exists m, merge_delta plain_codes (take_delta n').2 = (m, Ok tt) /\
    code_to_prefix m = code_to_prefix n' /\ next_code m = next_code n' /\
    Forall2 (fun iri r => exists sid, r = Ok sid /\ decode_sid_strict m sid = Some iri) [iri_a; iri_b] sids.
Proof.
  destruct plain_codes_ok as (_ & Hw & Hr & Hd).
  apply (delta_replay plain_codes MostGranular [iri_a; iri_b] Hw Hr Hd).
  repeat constructor; by vm_compute.
Defined.

(** A merge accepts the overflow code, which no lookup resolves: the id of a
    name in that namespace loses its prefix. *)
Definition overflow_delta : gmap Z str := {[ OVERFLOW := text "http://lost.org/" ]}.

Lemma overflow_code_accepted :
  let '(n, r) := merge_delta plain_codes overflow_delta in
  r = Ok tt /\ encode_iri n (text "http://lost.org/x") MostGranular = Ok (Some (mkSid OVERFLOW (text "x"))) /\
  decode_sid_strict n (mkSid OVERFLOW (text "x")) = Some (text "x").
Proof. by vm_compute. Qed.

(** ** An import *)

Definition import_alloc : SharedNamespaceAllocator := mkShared plain_codes 0.

(** The worker of the second chunk allocates a namespace, then the worker of the
    first chunk is spawned and uses it from its snapshot. *)
Definition people : str := text "http://example.org/people/".
Definition alloc_1 : SharedNamespaceAllocator := (write_path import_alloc people).1.


Definition spawned_second : thread := mkThread (worker_new import_alloc) (inner import_alloc) None [].
Definition waiting_second : thread :=
  mkThread (th_cache spawned_second) (th_base spawned_second) (Some (iri_b, people, text "bob")) (th_sids spawned_second).
Definition second_worker : thread :=
  finish waiting_second (record_code (th_cache waiting_second) people 13) iri_b (text "bob") 13.
Definition spawned_first : thread := mkThread (worker_new alloc_1) (inner alloc_1) None [].
Definition first_worker : thread :=
  finish spawned_first (track_code (th_cache spawned_first) 13) iri_b (text "bob") 13.

Definition import_state : system := mkSystem alloc_1 [second_worker; first_worker].

Lemma second_allocates : write_path import_alloc people = (alloc_1, Ok 13).
Proof.
  rewrite (surjective_pairing (write_path import_alloc people)). unfold alloc_1. by f_equal.
Qed.

Lemma second_step_1 : thread_step import_alloc spawned_second import_alloc waiting_second.
Proof.
  apply (step_miss import_alloc spawned_second iri_b people (text "bob")); [|by vm_compute..].
  split; [reflexivity|by vm_compute].
Qed.

Lemma second_step_2 : thread_step import_alloc waiting_second alloc_1 second_worker.
Proof.
  apply (step_write import_alloc waiting_second iri_b people (text "bob") alloc_1 13);
    [reflexivity|apply second_allocates].
Qed.

Lemma first_step : thread_step alloc_1 spawned_first alloc_1 first_worker.
Proof.
  apply (step_local alloc_1 spawned_first iri_b people (text "bob") 13); [|by vm_compute].
  split; [reflexivity|by vm_compute].
Qed.

Lemma import_reachable : rtc step (mkSystem import_alloc []) import_state.
Proof.
  apply (rtc_l step _ (mkSystem import_alloc [spawned_second])); [exact (step_spawn import_alloc [])|].
  apply (rtc_l step _ (mkSystem import_alloc [waiting_second]));
    [exact (step_thread import_alloc [spawned_second] 0 _ _ _ eq_refl second_step_1)|].
  apply (rtc_l step _ (mkSystem alloc_1 [second_worker]));
    [exact (step_thread import_alloc [waiting_second] 0 _ _ _ eq_refl second_step_2)|].
  apply (rtc_l step _ (mkSystem alloc_1 [second_worker; spawned_first]));
    [exact (step_spawn alloc_1 [second_worker])|].
  apply (rtc_l step _ (mkSystem alloc_1 [second_worker; first_worker]));
    [exact (step_thread alloc_1 [second_worker; spawned_first] 1 _ _ _ eq_refl first_step)|constructor].
Qed.

Lemma parallel_import_complete_witness :
  exists ledger, publish alloc_1 [th_cache first_worker; th_cache second_worker]
      (dom (code_to_prefix plain_codes)) plain_codes = (ledger, Ok tt) /\
    forall th iri sid, th ∈ sy_threads import_state -> (iri, sid) ∈ th_sids th ->
      decode_sid_strict ledger sid = Some iri.
Proof.
  destruct plain_codes_ok as (_ & Hw & Hr & _).
  apply (parallel_import_complete import_alloc import_state
    [th_cache first_worker; th_cache second_worker] Hw Hr import_reachable).
  apply Permutation_swap.
Defined.

(** Published in commit order, the first chunk's delta is empty: the ledger
    after the first commit cannot resolve the code that this commit uses. *)
Lemma import_commit_unresolvable :
  let '(d, published) := compute_ns_delta alloc_1 (new_codes (th_cache first_worker))
    (dom (code_to_prefix plain_codes)) in
  d = ∅ /\ (iri_b, sid_of iri_b (text "bob") 13) ∈ th_sids first_worker /\
  decode_sid_strict (merge_delta plain_codes d).1 (sid_of iri_b (text "bob") 13) = None.
Proof.
  destruct (compute_ns_delta alloc_1 (new_codes (th_cache first_worker)) (dom (code_to_prefix plain_codes)))
    as [d published] eqn:E.
  assert (d = ∅) as ->.
  { assert ((compute_ns_delta alloc_1 (new_codes (th_cache first_worker)) (dom (code_to_prefix plain_codes))).1 = ∅)
      as H by by vm_compute. by rewrite E in H. }
  split; [done|]. split; [unfold first_worker, finish; cbn [th_sids]; apply list_elem_of_here|by vm_compute].
Qed.
