(* ===== verification/GraphRegistry.v ===== *)
(** * The graph registry of a ledger

    Models [fluree-db-core/src/graph_registry.rs]: the map between graph IRIs
    and the 16-bit graph ids of a ledger.  The IRIs handed to [apply_delta] come
    from hash sets, so they are a list in an order the code does not control.
    [next_id += 1] wraps in a release build, after which the next assignment
    fails its assertion: [None] is that panic. *)

From stdpp Require Import base list numbers gmap sorting strings.
From Stdlib Require Import ZArith Lia.
From S2P Require Import Prelude Bytes Cmp.

Local Open Scope Z_scope.

Definition DEFAULT_GRAPH_ID : Z := 0.
Definition TXN_META_GRAPH_ID : Z := 1.
Definition CONFIG_GRAPH_ID : Z := 2.
Definition FIRST_USER_GRAPH_ID : Z := 3.

Definition txn_meta_graph_iri (ledger_id : str) : str :=
  bytes_of_string "urn:fluree:"%string ++ ledger_id ++ bytes_of_string "#txn-meta"%string.
Definition config_graph_iri (ledger_id : str) : str :=
  bytes_of_string "urn:fluree:"%string ++ ledger_id ++ bytes_of_string "#config"%string.

(** The messages of [Error::invalid_index]. *)
Inductive RegistryError :=
| RootIrisEmpty
| RootIriEmpty (root_idx g_id : Z)
| DuplicateGraphIri (iri : str) (g_id existing_id : Z)
| DefaultGraphStored
| DuplicateGraphId (g_id : Z).

Record GraphRegistry := mkRegistry {
  iri_to_id : gmap str Z;
  id_to_iri : list (option str);
  next_id : Z;
}.

Definition registry_default : GraphRegistry := mkRegistry ∅ [None; None; None] FIRST_USER_GRAPH_ID.

Definition new_for_ledger (ledger_id : str) : GraphRegistry :=
  let txn_meta := txn_meta_graph_iri ledger_id in
  let config := config_graph_iri ledger_id in
  mkRegistry (<[config := CONFIG_GRAPH_ID]> (<[txn_meta := TXN_META_GRAPH_ID]> ∅))
    [None; Some txn_meta; Some config] FIRST_USER_GRAPH_ID.

(** The loop of [seed_from_root_iris] from root index [idx] on. *)
Fixpoint seed_root (idx : Z) (fwd : gmap str Z) (back : list (option str)) (iris : list str) :
    outcome RegistryError (gmap str Z * list (option str)) :=
  match iris with
  | [] => Ok (fwd, back)
  | iri :: iris =>
      let g_id := as_u 16 (as_u 16 idx + 1) in
      if bool_decide (iri = []) then Err (RootIriEmpty idx g_id)
      else match fwd !! iri with
           | Some existing_id => Err (DuplicateGraphIri iri g_id existing_id)
           | None => seed_root (idx + 1) (<[iri := g_id]> fwd) (back ++ [Some iri]) iris
           end
  end.

Definition seed_from_root_iris (iris : list str) : outcome RegistryError GraphRegistry :=
  match iris with
  | [] => Err RootIrisEmpty
  | _ =>
      '(fwd, back) ← seed_root 0 ∅ [None] iris;
      Ok (mkRegistry fwd back (Z.max (as_u 16 (zlen back)) FIRST_USER_GRAPH_ID))
  end.

Fixpoint seed_entries (fwd : gmap str Z) (back : list (option str)) (entries : list (Z * str)) :
    outcome RegistryError (gmap str Z * list (option str)) :=
  match entries with
  | [] => Ok (fwd, back)
  | (g_id, iri) :: entries =>
      if g_id =? 0 then Err DefaultGraphStored
      else match fwd !! iri with
           | Some existing_id => Err (DuplicateGraphIri iri g_id existing_id)
           | None =>
               match back !! Z.to_nat g_id with
               | None => Panic
               | Some (Some _) => Err (DuplicateGraphId g_id)
               | Some None => seed_entries (<[iri := g_id]> fwd) (<[Z.to_nat g_id := Some iri]> back) entries
               end
           end
  end.

Definition seed_from_entries (entries : list (Z * str)) : outcome RegistryError GraphRegistry :=
  match entries with
  | [] => Ok registry_default
  | (g0, _) :: _ =>
      let max_id := foldl Z.max g0 entries.*1 in
      '(fwd, back) ← seed_entries ∅ (replicate (Z.to_nat (max_id + 1)) None) entries;
      Ok (mkRegistry fwd back (Z.max (as_u 16 (max_id + 1)) FIRST_USER_GRAPH_ID))
  end.

(** ** Assignment *)

(** The order of [sort] on strings. *)
Definition str_le (a b : str) : Prop := str_cmp a b <> Gt.
#[export] Instance str_le_dec : RelDecision str_le.
Proof. intros a b. unfold str_le. apply _. Defined.

(** The IRIs not registered yet, each once. *)
Fixpoint collect_new (known : gmap str Z) (seen : list str) (iris : list str) : list str :=
  match iris with
  | [] => []
  | iri :: iris =>
      match known !! iri with
      | Some _ => collect_new known seen iris
      | None => if bool_decide (iri ∈ seen) then collect_new known seen iris
                else iri :: collect_new known (iri :: seen) iris
      end
  end.

Definition new_iris (r : GraphRegistry) (iris : list str) : list str :=
  merge_sort str_le (collect_new (iri_to_id r) [] iris).

(** [while len <= g { push(None) }; v[g] = Some(iri)]. *)
Definition put_slot (g : Z) (iri : str) (v : list (option str)) : list (option str) :=
  let i := Z.to_nat g in <[i := Some iri]> (v ++ replicate (S i - length v) None).

Definition assign_one (r : GraphRegistry) (iri : str) : option (GraphRegistry * Z) :=
  let g_id := next_id r in
  if g_id <? FIRST_USER_GRAPH_ID then None
  else Some (mkRegistry (<[iri := g_id]> (iri_to_id r)) (put_slot g_id iri (id_to_iri r)) (as_u 16 (g_id + 1)), g_id).

Fixpoint assign_all (r : GraphRegistry) (iris : list str) : option (GraphRegistry * list (Z * str)) :=
  match iris with
  | [] => Some (r, [])
  | iri :: iris =>
      '(r, g_id) ← assign_one r iri;
      '(r, assigned) ← assign_all r iris;
      Some (r, (g_id, iri) :: assigned)
  end.

Definition apply_delta (r : GraphRegistry) (iris : list str) : option (GraphRegistry * list (Z * str)) :=
  assign_all r (new_iris r iris).

(** [(next_id..).zip(truly_new)]: the range wraps in a release build. *)
Fixpoint insert_ids (m : gmap str Z) (next : Z) (iris : list str) : gmap str Z :=
  match iris with
  | [] => m
  | iri :: iris => insert_ids (<[iri := next]> m) (as_u 16 (next + 1)) iris
  end.

Definition provisional_ids (r : GraphRegistry) (iris : list str) : gmap str Z :=
  insert_ids (iri_to_id r) (next_id r) (new_iris r iris).

(** ** Lookup *)

Definition graph_id_for_iri (r : GraphRegistry) (iri : str) : option Z := iri_to_id r !! iri.
Definition iri_for_graph_id (r : GraphRegistry) (g_id : Z) : option str := id_to_iri r !! Z.to_nat g_id ≫= id.
Definition iter_entries (r : GraphRegistry) : list (Z * str) :=
  omap id (imap (fun i o => pair (as_u 16 (Z.of_nat i)) <$> o) (id_to_iri r)).
Definition registry_len (r : GraphRegistry) : nat := size (iri_to_id r).

(** ** The bimap *)

Record registry_wf (r : GraphRegistry) : Prop := {
  rw_bimap iri g : iri_to_id r !! iri = Some g <-> 0 <= g /\ id_to_iri r !! Z.to_nat g = Some (Some iri);
  rw_default : id_to_iri r !! 0%nat = Some None;
  rw_below iri g : iri_to_id r !! iri = Some g -> g < next_id r;
  rw_next : FIRST_USER_GRAPH_ID <= next_id r < 2 ^ 16;
}.

Lemma str_le_trans : Transitive str_le.
Proof. intros a b c. unfold str_le. by apply (cmp_le_trans (P := everything)). Qed.
Lemma str_le_total : Total str_le.
Proof. intros a b. unfold str_le. by apply (cmp_le_total (P := everything)). Qed.
Lemma str_le_antisym : AntiSymm (=) str_le.
Proof.
  intros a b Ha Hb. unfold str_le in *. apply str_cmp_Eq. destruct (str_cmp a b) eqn:E; [done| |done].
  exfalso. apply Hb. by apply (cmp_gt_lt (P := everything)).
Qed.

Lemma collect_new_spec known seen iris :
  NoDup (collect_new known seen iris) /\
  forall iri, iri ∈ collect_new known seen iris <-> iri ∈ iris /\ (iri ∉ seen) /\ known !! iri = None.
Proof.
  revert seen. induction iris as [|x iris IH]; intros seen; cbn [collect_new].
  { split; [constructor|]. intros iri. set_solver. }
  destruct (known !! x) as [g|] eqn:E.
  - destruct (IH seen) as [H1 H2]. split; [done|]. intros iri. rewrite H2, elem_of_cons.
    split; [tauto|]. intros ([->|?] & ? & ?); [congruence|done].
  - case_bool_decide as Hs.
    + destruct (IH seen) as [H1 H2]. split; [done|]. intros iri. rewrite H2, elem_of_cons.
      split; [tauto|]. intros ([->|?] & ? & ?); [done|done].
    + destruct (IH (x :: seen)) as [H1 H2]. split.
      * constructor; [|done]. rewrite H2. set_solver.
      * intros iri. rewrite !elem_of_cons, H2, not_elem_of_cons. destruct (decide (iri = x)) as [->|]; tauto.
Qed.

Lemma new_iris_spec r iris :
  NoDup (new_iris r iris) /\ forall iri, iri ∈ new_iris r iris <-> iri ∈ iris /\ iri_to_id r !! iri = None.
Proof.
  unfold new_iris. destruct (collect_new_spec (iri_to_id r) [] iris) as [H1 H2].
  assert (forall l, merge_sort str_le l ≡ₚ l) as Hp by (intros; apply merge_sort_Permutation).
  split; [by rewrite Hp|]. intros iri. rewrite Hp, H2. pose proof (not_elem_of_nil iri). tauto.
Qed.

Lemma new_iris_length r iris : zlen (new_iris r iris) <= zlen iris.
Proof.
  unfold zlen, new_iris. rewrite (merge_sort_Permutation str_le). apply inj_le. generalize (@nil str).
  induction iris as [|x iris IH]; intros seen; cbn [collect_new length]; [done|].
  destruct (iri_to_id r !! x); [specialize (IH seen); lia|]. case_bool_decide; [specialize (IH seen); lia|].
  cbn [length]. specialize (IH (x :: seen)). lia.
Qed.

(** The order in which the IRIs arrive, and repetitions among them, do not
    matter. *)
Lemma new_iris_ext r iris iris' : (forall iri, iri ∈ iris <-> iri ∈ iris') -> new_iris r iris = new_iris r iris'.
Proof.
  intros H. pose proof str_le_trans. pose proof str_le_total. pose proof str_le_antisym.
  apply (StronglySorted_unique str_le); [by apply (StronglySorted_merge_sort str_le)..|].
  apply NoDup_Permutation; [apply new_iris_spec..|]. intros iri.
  rewrite !(proj2 (new_iris_spec r _)), H. done.
Qed.

(** ** Assignment keeps the bimap *)

Definition registry_extends (r r' : GraphRegistry) : Prop := iri_to_id r ⊆ iri_to_id r' /\ next_id r <= next_id r'.

#[export] Instance registry_extends_preorder : PreOrder registry_extends.
Proof. split; [done|]. intros a b c [H1 H2] [H3 H4]. split; [by etrans|lia]. Qed.

Lemma put_slot_some g iri v j x :
  put_slot g iri v !! j = Some (Some x) <->
  (j = Z.to_nat g /\ x = iri) \/ (j <> Z.to_nat g /\ v !! j = Some (Some x)).
Proof.
  unfold put_slot. destruct (decide (j = Z.to_nat g)) as [->|Hj].
  - rewrite list_lookup_insert_eq by (rewrite length_app, length_replicate; lia). naive_solver.
  - rewrite list_lookup_insert_ne by done. rewrite lookup_app_Some. split.
    + intros [H|[_ H]]; [auto|]. by apply lookup_replicate in H as [? _].
    + intros [[? _]|[_ ?]]; [done|auto].
Qed.

Lemma put_slot_head g iri v : 0 < g -> v !! 0%nat = Some None -> put_slot g iri v !! 0%nat = Some None.
Proof.
  intros Hg Hv. unfold put_slot. rewrite list_lookup_insert_ne by lia. by apply lookup_app_l_Some.
Qed.

Lemma assign_one_spec r iri :
  registry_wf r -> iri_to_id r !! iri = None -> next_id r + 1 < 2 ^ 16 ->
  exists r', assign_one r iri = Some (r', next_id r) /\ registry_wf r' /\
  iri_to_id r' = <[iri := next_id r]> (iri_to_id r) /\ next_id r' = next_id r + 1.
Proof.
  intros Hw Hi Hroom. pose proof (rw_next _ Hw) as Hn. unfold assign_one, FIRST_USER_GRAPH_ID in *.
  destruct (Z.ltb_spec (next_id r) 3); [lia|]. rewrite as_u_id by (unfold in_u; lia).
  eexists. split; [done|]. split_and!; [|done..]. split; cbn.
  - intros x g. rewrite put_slot_some. destruct (decide (x = iri)) as [->|Hx].
    + rewrite lookup_insert_eq. split.
      * intros [= <-]. split; [lia|by left].
      * intros [Hg [[E _]|[_ Hl]]]; [f_equal; lia|].
        assert (iri_to_id r !! iri = Some g) by (by apply (rw_bimap _ Hw)). congruence.
    + rewrite lookup_insert_ne by done. rewrite (rw_bimap _ Hw). split.
      * intros [Hg Hl]. split; [done|]. right. split; [|done]. intros E.
        assert (iri_to_id r !! x = Some g) as Hb by (by apply (rw_bimap _ Hw)). apply (rw_below _ Hw) in Hb. lia.
      * intros [Hg [[_ ?]|[_ ?]]]; done.
  - apply put_slot_head; [lia|apply Hw].
  - intros x g. destruct (decide (x = iri)) as [->|Hx].
    + rewrite lookup_insert_eq. intros [= <-]. lia.
    + rewrite lookup_insert_ne by done. intros Hl%(rw_below _ Hw). lia.
  - unfold FIRST_USER_GRAPH_ID. lia.
Qed.

Lemma assign_all_spec iris r :
  registry_wf r -> NoDup iris -> (forall iri, iri ∈ iris -> iri_to_id r !! iri = None) ->
  next_id r + zlen iris < 2 ^ 16 ->
  exists r', assign_all r iris = Some (r', zip (Z.of_nat <$> seq (Z.to_nat (next_id r)) (length iris)) iris) /\
  registry_wf r' /\ iri_to_id r' = insert_ids (iri_to_id r) (next_id r) iris /\
  next_id r' = next_id r + zlen iris /\ iri_to_id r ⊆ iri_to_id r' /\
  (forall iri g, iri_to_id r' !! iri = Some g -> iri_to_id r !! iri = Some g \/ (iri ∈ iris /\ next_id r <= g)) /\
  (forall iri, iri ∈ iris -> is_Some (iri_to_id r' !! iri)).
Proof.
  revert r. induction iris as [|x iris IH]; intros r Hw Hnd Hnew Hroom.
  { exists r. rewrite (zlen_nil (A := str)), Z.add_0_r. split_and!; [done..| |]; [by left|].
    intros iri Hi. by apply elem_of_nil in Hi. }
  apply NoDup_cons in Hnd as [Hx Hnd]. rewrite zlen_cons in *. pose proof (zlen_nonneg iris).
  pose proof (rw_next _ Hw) as Hn. unfold FIRST_USER_GRAPH_ID in Hn.
  assert (forall iri, iri ∈ iris -> iri ∈ x :: iris) as Htl by (intros; apply elem_of_cons; auto).
  assert (x ∈ x :: iris) as Hhd by (apply elem_of_cons; auto).
  destruct (assign_one_spec r x Hw) as (r1 & E & Hw1 & Em & En); [by apply Hnew|lia|].
  destruct (IH r1 Hw1 Hnd) as (r' & E' & Hw' & Em' & En' & Hsub & Hfrom & Hall).
  { intros iri Hi. rewrite Em, lookup_insert_ne by (intros ->; done). apply Hnew. set_solver. }
  { lia. }
  exists r'. cbn [assign_all]. rewrite E. cbn [mbind option_bind]. rewrite E'. cbn [mbind option_bind]. split_and!.
  - do 2 f_equal. cbn [length seq fmap list_fmap zip_with]. rewrite Z2Nat.id by lia. do 2 f_equal.
    rewrite En. f_equal. f_equal. lia.
  - done.
  - cbn [insert_ids]. rewrite as_u_id by (unfold in_u; lia). by rewrite Em', Em, En.
  - lia.
  - etrans; [|exact Hsub]. rewrite Em. apply insert_subseteq. apply Hnew. set_solver.
  - intros iri g [Hg|[Hg Hle]]%Hfrom; [|right; split; [set_solver|lia]]. rewrite Em in Hg.
    destruct (decide (iri = x)) as [->|Hne]; simplify_map_eq; [right; split; [set_solver|lia]|by left].
  - intros iri [->|Hi]%elem_of_cons; [|by apply Hall]. exists (next_id r).
    eapply lookup_weaken; [|exact Hsub]. rewrite Em. apply lookup_insert_eq.
Qed.

(** What a delta does to a registry. *)
Lemma apply_delta_spec r iris :
  registry_wf r -> next_id r + zlen (new_iris r iris) < 2 ^ 16 ->
  exists r' assigned, apply_delta r iris = Some (r', assigned) /\ registry_wf r' /\ registry_extends r r' /\
  iri_to_id r' = provisional_ids r iris /\ assigned.*2 = new_iris r iris /\
  (forall g iri, (g, iri) ∈ assigned -> next_id r <= g) /\
  (forall iri, iri ∈ iris -> is_Some (graph_id_for_iri r' iri)) /\
  (forall iri g, graph_id_for_iri r' iri = Some g -> graph_id_for_iri r iri = Some g \/ iri ∈ iris) /\
  next_id r' = next_id r + zlen (new_iris r iris).
Proof.
  intros Hw Hroom. destruct (new_iris_spec r iris) as [Hnd Hin].
  destruct (assign_all_spec (new_iris r iris) r Hw Hnd) as (r' & E & Hw' & Em & En & Hsub & Hfrom & Hall);
    [intros iri Hi; by apply Hin|done|].
  exists r', (zip (Z.of_nat <$> seq (Z.to_nat (next_id r)) (length (new_iris r iris))) (new_iris r iris)).
  pose proof (zlen_nonneg (new_iris r iris)). pose proof (rw_next _ Hw) as Hn. unfold FIRST_USER_GRAPH_ID in Hn.
  split_and!; [done|done|split; [done|lia]|done| | | | |done].
  - apply snd_zip. by rewrite length_fmap, length_seq.
  - intros g iri Hz. apply elem_of_zip_l, list_elem_of_fmap in Hz as (n & -> & Hz). apply elem_of_seq in Hz. lia.
  - intros iri Hi. unfold graph_id_for_iri. destruct (iri_to_id r !! iri) as [g|] eqn:Eg.
    + exists g. by eapply lookup_weaken.
    + apply Hall, Hin. done.
  - intros iri g [?|[Hi%Hin _]]%Hfrom; [by left|]. right. apply Hi.
Qed.

(** The same IRIs in any order and with any repetitions give the same ids. *)
Lemma apply_delta_ext r iris iris' :
  (forall iri, iri ∈ iris <-> iri ∈ iris') -> apply_delta r iris = apply_delta r iris'.
Proof. intros H. unfold apply_delta. by rewrite (new_iris_ext r iris iris' H). Qed.

(** ** Seeding *)

Lemma new_for_ledger_wf ledger_id : registry_wf (new_for_ledger ledger_id).
Proof.
  assert (txn_meta_graph_iri ledger_id <> config_graph_iri ledger_id) as Hne.
  { unfold txn_meta_graph_iri, config_graph_iri. intros E%app_inv_head%app_inv_head. done. }
  unfold new_for_ledger. set (a := txn_meta_graph_iri ledger_id) in *. set (b := config_graph_iri ledger_id) in *.
  split; cbn [iri_to_id id_to_iri next_id]; [|done| |done].
  - intros iri g. split.
    + intros H. destruct (decide (iri = b)) as [->|Hb]; [|destruct (decide (iri = a)) as [->|Ha]]; simplify_map_eq; done.
    + intros [Hg Hl]. destruct (Z.to_nat g) as [|[|[|n]]] eqn:En; cbn in Hl; simplify_eq.
      * replace g with TXN_META_GRAPH_ID by (unfold TXN_META_GRAPH_ID; lia). by simplify_map_eq.
      * replace g with CONFIG_GRAPH_ID by (unfold CONFIG_GRAPH_ID; lia). by simplify_map_eq.
  - intros iri g H. destruct (decide (iri = b)) as [->|Hb]; [|destruct (decide (iri = a)) as [->|Ha]]; simplify_map_eq; done.
Qed.

Lemma seed_root_spec iris idx fwd back :
  idx = zlen back - 1 -> zlen back + zlen iris < 2 ^ 16 -> back !! 0%nat = Some None ->
  (forall iri g, fwd !! iri = Some g <-> 0 <= g /\ back !! Z.to_nat g = Some (Some iri)) ->
  match seed_root idx fwd back iris with
  | Ok (fwd', back') =>
      back' = back ++ (Some <$> iris) /\ ([] ∉ iris) /\
      (forall iri g, fwd' !! iri = Some g <-> 0 <= g /\ back' !! Z.to_nat g = Some (Some iri))
  | Err (RootIriEmpty _ _) => [] ∈ iris
  | Err (DuplicateGraphIri iri _ _) => iri ∈ iris /\ ~ (NoDup iris /\ fwd !! iri = None)
  | _ => False
  end.
Proof.
  revert idx fwd back. induction iris as [|x iris IH]; intros idx fwd back -> Hlen Hz Hb; cbn [seed_root].
  { cbn. rewrite app_nil_r. split_and!; [done|apply not_elem_of_nil|done]. }
  rewrite zlen_cons in Hlen. pose proof (zlen_nonneg iris). pose proof (zlen_nonneg back).
  assert (0 < zlen back) as Hpos by (unfold zlen; apply lookup_lt_Some in Hz; lia).
  case_bool_decide as Hx; [subst; apply elem_of_cons; by left|].
  destruct (fwd !! x) as [e|] eqn:Ex; [split; [apply elem_of_cons; by left|intros [_ ?]; congruence]|].
  rewrite !(as_u_id 16 (zlen back - 1)) by (unfold in_u; lia). replace (zlen back - 1 + 1) with (zlen back) by lia.
  rewrite as_u_id by (unfold in_u; lia).
  assert (forall iri g, (<[x:=zlen back]> fwd) !! iri = Some g <-> 0 <= g /\ (back ++ [Some x]) !! Z.to_nat g = Some (Some iri)) as Hb'.
  { intros iri g. rewrite lookup_app_Some. destruct (decide (iri = x)) as [->|Hi].
    - rewrite lookup_insert_eq. split.
      + intros [= <-]. split; [lia|]. right. rewrite zlen_to_nat. split; [lia|]. by rewrite Nat.sub_diag.
      + intros [Hg [Hl|[Hl Hl']]]; [by assert (fwd !! x = Some g) by (by apply Hb); congruence|].
        apply list_lookup_singleton_Some in Hl' as [Hl' _]. unfold zlen. f_equal. lia.
    - rewrite lookup_insert_ne by done. rewrite Hb. split; [tauto|]. intros [Hg [Hl|[Hl Hl']]]; [done|].
      apply list_lookup_singleton_Some in Hl' as [_ [= <-]]. done. }
  specialize (IH (zlen back) (<[x:=zlen back]> fwd) (back ++ [Some x])). rewrite zlen_app, zlen_cons, zlen_nil in IH.
  specialize (IH ltac:(lia) ltac:(lia) ltac:(by apply lookup_app_l_Some) Hb').
  destruct (seed_root (zlen back) (<[x:=zlen back]> fwd) (back ++ [Some x]) iris) as [[fwd' back']|[]|] eqn:E;
    try done.
  - destruct IH as (-> & Hn & Hb''). split_and!; [by rewrite <- app_assoc|by apply not_elem_of_cons|done].
  - apply elem_of_cons. by right.
  - destruct IH as [Hi Hd]. split; [apply elem_of_cons; by right|]. intros [[Hxi Hnd]%NoDup_cons Hf]. apply Hd.
    split; [done|]. rewrite lookup_insert_ne; [done|]. by intros ->.
Qed.

(** A root's IRIs become the graphs 1, 2, ... in their order; a root is refused
    exactly when it is empty, has an empty IRI or repeats one. *)
Lemma seed_from_root_iris_spec iris :
  zlen iris + 1 < 2 ^ 16 ->
  match seed_from_root_iris iris with
  | Ok r => registry_wf r /\ iris <> [] /\ ([] ∉ iris) /\ NoDup iris /\
      (forall i, iri_for_graph_id r (Z.of_nat i + 1) = iris !! i)
  | Err _ => iris = [] \/ [] ∈ iris \/ ~ NoDup iris
  | Panic => False
  end.
Proof.
  intros Hlen. unfold seed_from_root_iris. destruct iris as [|x l]; [by left|]. set (iris := x :: l) in *.
  assert (forall iri g, (∅ : gmap str Z) !! iri = Some g <-> 0 <= g /\ [None] !! Z.to_nat g = Some (Some iri)) as H0.
  { intros iri g. rewrite lookup_empty. split; [done|]. intros [_ H]. apply list_lookup_singleton_Some in H as [_ ?]. done. }
  pose proof (seed_root_spec iris 0 ∅ [None] eq_refl ltac:(change (zlen [None]) with 1; lia) eq_refl H0) as H.
  pose proof (zlen_nonneg l). assert (zlen iris = 1 + zlen l) as El by apply zlen_cons.
  destruct (seed_root 0 ∅ [None] iris) as [[fwd back]|[]|] eqn:E; cbn [mbind outcome_bind]; try done.
  - destruct H as (-> & Hne & Hb). assert (NoDup iris) as Hnd.
    { apply NoDup_alt. intros i j y Hi Hj. assert (forall k, iris !! k = Some y -> fwd !! y = Some (Z.of_nat k + 1)) as Hk.
      { intros k Hk. apply Hb. split; [lia|]. replace (Z.to_nat (Z.of_nat k + 1)) with (S k) by lia.
        change ((Some <$> iris) !! k = Some (Some y)). by rewrite list_lookup_fmap, Hk. }
      apply Hk in Hi, Hj. rewrite Hi in Hj. injection Hj. lia. }
    assert (zlen ([None] ++ (Some <$> iris)) = 1 + zlen iris) as Ez by (rewrite zlen_app, zlen_fmap; done).
    split_and!; [|done..|].
    + rewrite Ez, as_u_id by (unfold in_u; lia). split; cbn [iri_to_id id_to_iri next_id].
      * done.
      * done.
      * intros iri g [Hg Hl]%Hb. apply lookup_lt_Some in Hl. rewrite <- Ez. unfold zlen. lia.
      * unfold FIRST_USER_GRAPH_ID. lia.
    + intros i. unfold iri_for_graph_id. cbn [id_to_iri]. replace (Z.to_nat (Z.of_nat i + 1)) with (S i) by lia.
      change ((Some <$> iris) !! i ≫= id = iris !! i). rewrite list_lookup_fmap. by destruct (iris !! i).
  - by right; left.
  - right; right. intros Hnd. apply H. split; [done|apply lookup_empty].
Qed.

Lemma entries_elem (h : nat -> Z) (v : list (option str)) g iri :
  (g, iri) ∈ omap id (imap (fun i o => pair (h i) <$> o) v) <->
  exists i, v !! i = Some (Some iri) /\ g = h i.
Proof.
  revert h. induction v as [|o v IH]; intros h; cbn [imap omap list_omap].
  { split; [by intros ?%elem_of_nil|]. by intros (i & ? & _). }
  specialize (IH (h ∘ S)). destruct o as [x|]; cbn.
  - rewrite elem_of_cons. unfold compose in IH at 1. rewrite IH. split.
    + intros [[= -> ->]|(i & Hi & ->)]; [by exists O|by exists (S i)].
    + intros ([|i] & Hi & ->); [left; by injection Hi as ->|right; by exists i].
  - unfold compose in IH at 1. rewrite IH. split.
    + intros (i & Hi & ->). by exists (S i).
    + intros ([|i] & Hi & ->); [done|by exists i].
Qed.

Lemma entries_NoDup (h : nat -> Z) (v : list (option str)) :
  (forall i j x, v !! i = Some (Some x) -> v !! j = Some (Some x) -> i = j) ->
  NoDup (omap id (imap (fun i o => pair (h i) <$> o) v)).*2.
Proof.
  revert h. induction v as [|o v IH]; intros h Hv; [constructor|].
  assert (NoDup (omap id (imap (fun i o => pair ((h ∘ S) i) <$> o) v)).*2) as Hn.
  { apply IH. intros i j x Hi Hj. specialize (Hv (S i) (S j) x Hi Hj). lia. }
  cbn [imap omap list_omap]. destruct o as [x|]; cbn; [|exact Hn].
  apply NoDup_cons. split; [|exact Hn]. intros ([g y] & -> & Hin)%list_elem_of_fmap. cbn in *.
  apply (entries_elem (h ∘ S)) in Hin as (i & Hi & _). by specialize (Hv O (S i) y eq_refl Hi).
Qed.

(** The entries listed are the graphs registered, each once. *)
Lemma iter_entries_spec r :
  registry_wf r ->
  NoDup (iter_entries r).*2 /\ forall g iri, (g, iri) ∈ iter_entries r <-> graph_id_for_iri r iri = Some g.
Proof.
  intros Hw. split.
  - apply (entries_NoDup (fun i => as_u 16 (Z.of_nat i))). intros i j x Hi Hj.
    assert (forall k, id_to_iri r !! k = Some (Some x) -> iri_to_id r !! x = Some (Z.of_nat k)) as H.
    { intros k Hk. apply (rw_bimap _ Hw). rewrite Nat2Z.id. split; [lia|done]. }
    apply H in Hi, Hj. rewrite Hi in Hj. injection Hj. lia.
  - intros g iri. unfold iter_entries. rewrite (entries_elem (fun i => as_u 16 (Z.of_nat i))).
    unfold graph_id_for_iri. split.
    + intros (i & Hi & ->). assert (iri_to_id r !! iri = Some (Z.of_nat i)) as H.
      { apply (rw_bimap _ Hw). rewrite Nat2Z.id. split; [lia|done]. }
      rewrite as_u_id; [done|]. apply (rw_below _ Hw) in H. pose proof (rw_next _ Hw). unfold in_u. lia.
    + intros H. pose proof (rw_below _ Hw _ _ H). pose proof (rw_next _ Hw). apply (rw_bimap _ Hw) in H as [Hg Hl].
      exists (Z.to_nat g). split; [done|]. rewrite Z2Nat.id, as_u_id by (done || unfold in_u; lia). done.
Qed.

(** ** Properties *)

(** C35: Graph ids are assigned deterministically and for good.  While 16-bit ids
    last, applying a delta of graph IRIs gives the same registry and the same
    new ids whatever the order in which a hash set lists the IRIs; every IRI of
    the delta has an id that leads back to it, ids already assigned do not
    change, no system graph id is handed out, and the ids are those the staging
    code was promised by [provisional_ids]. *)
Theorem graph_ids_deterministic (r : GraphRegistry) (iris iris' : list str) :
  registry_wf r -> (forall iri, iri ∈ iris <-> iri ∈ iris') -> next_id r + zlen (new_iris r iris) < 2 ^ 16 ->
  exists r' assigned,
    apply_delta r iris = Some (r', assigned) /\ apply_delta r iris' = Some (r', assigned) /\
    registry_wf r' /\ registry_extends r r' /\ iri_to_id r' = provisional_ids r iris' /\
    (forall g iri, (g, iri) ∈ assigned -> FIRST_USER_GRAPH_ID <= g) /\
    (forall iri, iri ∈ iris -> exists g, graph_id_for_iri r' iri = Some g /\ iri_for_graph_id r' g = Some iri).
Proof.
  intros Hw Hset Hroom. rewrite (new_iris_ext r iris iris' Hset) in Hroom.
  destruct (apply_delta_spec r iris' Hw Hroom) as (r' & assigned & E & Hw' & He & Em & _ & Hg & Hall & _ & _).
  exists r', assigned. rewrite (apply_delta_ext r iris iris' Hset). split_and!; [done..| |].
  - intros g iri H%Hg. pose proof (rw_next _ Hw). lia.
  - intros iri Hi%Hset. destruct (Hall iri Hi) as [g Hg']. exists g. split; [done|].
    apply (rw_bimap _ Hw') in Hg' as [Hg0 Hl]. unfold iri_for_graph_id. by rewrite Hl.
Qed.

Lemma graph_ids_deterministic_witness :
  exists r' assigned,
    apply_delta (new_for_ledger [100]) [[98]; [97]; [98]] = Some (r', assigned) /\
    apply_delta (new_for_ledger [100]) [[97]; [98]] = Some (r', assigned) /\
    registry_wf r' /\ registry_extends (new_for_ledger [100]) r' /\
    iri_to_id r' = provisional_ids (new_for_ledger [100]) [[97]; [98]] /\
    (forall g iri, (g, iri) ∈ assigned -> FIRST_USER_GRAPH_ID <= g) /\
    (forall iri, iri ∈ [[98]; [97]; [98]] ->
      exists g, graph_id_for_iri r' iri = Some g /\ iri_for_graph_id r' g = Some iri).
Proof.
  apply (graph_ids_deterministic (new_for_ledger [100]) [[98]; [97]; [98]] [[97]; [98]]).
  - apply new_for_ledger_wf.
  - intros iri. rewrite !elem_of_cons. tauto.
  - by vm_compute.
Defined.

(** The ids depend on how commits are batched: two graphs introduced by two
    commits, applied one by one and all at once. *)
Lemma graph_ids_depend_on_batching :
  let r := new_for_ledger [100] in
  (apply_delta r [[98]] ≫= fun ra => apply_delta ra.1 [[97]] ≫= fun ra => graph_id_for_iri ra.1 [97]) = Some 4 /\
  (apply_delta r [[98]; [97]] ≫= fun ra => graph_id_for_iri ra.1 [97]) = Some 3.
Proof. by vm_compute. Qed.

(** After graph 65535 the counter has wrapped, and the next graph panics. *)
Lemma graph_ids_exhausted :
  let r := mkRegistry ∅ [None] 65535 in
  next_id <$> (fst <$> apply_delta r [[97]]) = Some 0 /\ apply_delta r [[97]; [98]] = None.
Proof. by vm_compute. Qed.
