(* ===== verification/Dicts.v ===== *)
(** * Dictionaries of the novelty layer

    Models [fluree-db-core/src/subject_id.rs] (packed subject ids and their
    columns), [vec_bi_dict.rs], [ns_vec_bi_dict.rs], [dict_novelty.rs] (the
    subjects and strings that commits introduced since the last index) and
    [runtime_small_dicts.rs] (runtime ids of predicates and datatypes).

    The release profile is modelled: unchecked additions wrap at their width
    and [debug_assert] is no check.  [None] is a panic ([expect], [assert] or an
    index out of range).  A [VecBiDict<u32>] is a [VecBiDict] of width 32. *)

From stdpp Require Import base list numbers gmap.
From Stdlib Require Import ZArith Lia.
From S2P Require Import Prelude Bytes Vocab Value Flake.

Local Open Scope Z_scope.

#[export] Instance Sid_countable : Countable Sid.
Proof.
  refine (inj_countable' (fun s => (namespace_code s, name s)) (fun p => mkSid p.1 p.2) _).
  by intros [].
Defined.

(** ** Packed subject ids *)

Definition SID_LOCAL_MASK : Z := 0x0000FFFFFFFFFFFF.
Definition NARROW_LOCAL_MAX : Z := u16_max.

Definition subject_id_new (ns_code local_id : Z) : Z :=
  Z.lor (Z.shiftl ns_code 48) (Z.land local_id SID_LOCAL_MASK).
Definition ns_code (sid : Z) : Z := as_u 16 (Z.shiftr sid 48).
Definition local_id (sid : Z) : Z := Z.land sid SID_LOCAL_MASK.

Definition to_sid32 (sid : Z) : option Z :=
  let local := local_id sid in
  if local <=? NARROW_LOCAL_MAX then Some (Z.lor (Z.shiftl (ns_code sid) 16) (as_u 32 local)) else None.

Definition from_sid32 (sid32 : Z) : Z :=
  subject_id_new (as_u 16 (Z.shiftr sid32 16)) (Z.land sid32 0xFFFF).

Inductive SubjectIdEncoding := EncNarrow | EncWide.
Inductive SubjectIdColumn := Narrow (v : list Z) | Wide (v : list Z).

Definition column_len (c : SubjectIdColumn) : Z := match c with Narrow v => zlen v | Wide v => zlen v end.

(** Indexing out of range panics. *)
Definition column_get (c : SubjectIdColumn) (i : nat) : option Z :=
  match c with Narrow v => from_sid32 <$> (v !! i) | Wide v => v !! i end.

Definition column_byte_size (c : SubjectIdColumn) : Z :=
  match c with Narrow v => zlen v * 4 | Wide v => zlen v * 8 end.

(** [expect]: a local id that does not fit the narrow form panics. *)
Definition from_u64_vec (values : list Z) (encoding : SubjectIdEncoding) : option SubjectIdColumn :=
  match encoding with
  | EncNarrow => Narrow <$> mapM to_sid32 values
  | EncWide => Some (Wide values)
  end.

(** ** Dense dictionaries *)

Record VecBiDict := mkBiDict {
  bi_entries : list str;
  bi_reverse : gmap str Z;
  bi_base_id : Z;
  bi_next_id : Z;
}.

Definition bi_new (base_id : Z) : VecBiDict := mkBiDict [] ∅ base_id base_id.

Definition checked_add (w a b : Z) : option Z := if a + b <? 2 ^ w then Some (a + b) else None.

Fixpoint number_entries (w next_id : Z) (reverse : gmap str Z) (entries : list str) :
    option (gmap str Z * Z) :=
  match entries with
  | [] => Some (reverse, next_id)
  | entry :: entries =>
      next ← checked_add w next_id 1;
      number_entries w next (<[entry := next_id]> reverse) entries
  end.

Definition from_ordered_vec (w base_id : Z) (entries : list str) : option VecBiDict :=
  '(reverse, next_id) ← number_entries w base_id ∅ entries;
  Some (mkBiDict entries reverse base_id next_id).

Definition bi_assign_or_lookup (w : Z) (d : VecBiDict) (value : str) : option (VecBiDict * Z) :=
  match bi_reverse d !! value with
  | Some id => Some (d, id)
  | None =>
      let id := bi_next_id d in
      next ← checked_add w id 1;
      Some (mkBiDict (bi_entries d ++ [value]) (<[value := id]> (bi_reverse d)) (bi_base_id d) next, id)
  end.

Definition bi_find (d : VecBiDict) (value : str) : option Z := bi_reverse d !! value.

Definition checked_sub (a b : Z) : option Z := if b <=? a then Some (a - b) else None.

Definition bi_resolve (d : VecBiDict) (id : Z) : option str :=
  idx ← checked_sub id (bi_base_id d); bi_entries d !! Z.to_nat idx.

Definition bi_len (d : VecBiDict) : Z := zlen (bi_entries d).

Definition bi_iter (w : Z) (d : VecBiDict) : list (Z * str) :=
  imap (fun i s => (as_u w (bi_base_id d + Z.of_nat i), s)) (bi_entries d).

(** ** Dictionaries by namespace *)

Definition NS_OVERFLOW : Z := 0xFFFF.

Record NsVecBiDict := mkNsDict {
  nd_entries : list (list str);
  nd_reverse : gmap bytes Z;
  nd_local_base : Z;
  nd_watermarks : list Z;
  nd_next_local_ids : list Z;
  nd_overflow_watermark : Z;
  nd_overflow_next_local_id : Z;
  nd_overflow_entries : list str;
}.

Definition nd_new : NsVecBiDict := mkNsDict [] ∅ 1 [] [] 0 0 [].

Definition with_local_base (local_base : Z) : NsVecBiDict :=
  let local_base := Z.max local_base 1 in
  mkNsDict [] ∅ local_base [] [] (local_base - 1) local_base [].

Definition nd_with_watermarks (watermarks : list Z) (overflow_wm : Z) : NsVecBiDict :=
  mkNsDict (replicate (length watermarks) []) ∅ 1 watermarks ((fun wm => as_u 64 (wm + 1)) <$> watermarks)
    overflow_wm (as_u 64 (overflow_wm + 1)) [].

Definition lookup_key (ns_code : Z) (suffix : str) : bytes := rev (le_bytes 2 ns_code) ++ suffix.
Definition subject_reverse_key (ns_code : Z) (suffix : str) : bytes := rev (le_bytes 2 ns_code) ++ suffix.

(** [if i >= v.len() { v.resize(i + 1, x) }]. *)
Definition resize_to {A} (i : nat) (x : A) (v : list A) : list A := v ++ replicate (S i - length v) x.

(** The local id an overflow subject gets, and the next one. *)
Definition overflow_local_id (d : NsVecBiDict) : Z :=
  if nd_overflow_next_local_id d <=? nd_overflow_watermark d
  then as_u 64 (nd_overflow_watermark d + 1) else nd_overflow_next_local_id d.

Definition nd_assign_or_lookup (d : NsVecBiDict) (ns_code : Z) (suffix : str) : NsVecBiDict * Z :=
  let key := lookup_key ns_code suffix in
  match nd_reverse d !! key with
  | Some id => (d, id)
  | None =>
      if ns_code =? NS_OVERFLOW then
        let id := overflow_local_id d in
        let sid64 := subject_id_new ns_code id in
        (mkNsDict (nd_entries d) (<[key := sid64]> (nd_reverse d)) (nd_local_base d) (nd_watermarks d)
           (nd_next_local_ids d) (nd_overflow_watermark d) (as_u 64 (id + 1)) (nd_overflow_entries d ++ [suffix]),
         sid64)
      else
        let ns_idx := Z.to_nat ns_code in
        let base := nd_local_base d in
        let next_local_ids := resize_to ns_idx base (nd_next_local_ids d) in
        let watermarks := resize_to ns_idx (base - 1) (nd_watermarks d) in
        let entries := resize_to ns_idx [] (nd_entries d) in
        let wm := default 0 (watermarks !! ns_idx) in
        let wm := if (wm =? 0) && (1 <? base) then base - 1 else wm in
        let next := default 0 (next_local_ids !! ns_idx) in
        let next := if (next =? 0) && (1 <? base) then base else next in
        let next := if next <=? wm then as_u 64 (wm + 1) else next in
        let sid64 := subject_id_new ns_code next in
        (mkNsDict (alter (fun v => v ++ [suffix]) ns_idx entries) (<[key := sid64]> (nd_reverse d)) base
           (<[ns_idx := wm]> watermarks) (<[ns_idx := as_u 64 (next + 1)]> next_local_ids)
           (nd_overflow_watermark d) (nd_overflow_next_local_id d) (nd_overflow_entries d), sid64)
  end.

Definition find_subject (d : NsVecBiDict) (ns_code : Z) (suffix : str) : option Z :=
  nd_reverse d !! lookup_key ns_code suffix.

(** [entries.get(local_id - wm - 1)] above the watermark. *)
Definition above_watermark (wm local : Z) (entries : list str) : option str :=
  if (local =? 0) || (local <=? wm) then None else entries !! Z.to_nat (local - wm - 1).

Definition resolve_subject (d : NsVecBiDict) (sid64 : Z) : option (Z * str) :=
  let ns := ns_code sid64 in
  let local := local_id sid64 in
  if ns =? NS_OVERFLOW then
    s ← above_watermark (nd_overflow_watermark d) local (nd_overflow_entries d); Some (ns, s)
  else
    entries ← nd_entries d !! Z.to_nat ns;
    s ← above_watermark (default 0 (nd_watermarks d !! Z.to_nat ns)) local entries; Some (ns, s).

Definition watermark_for_ns (d : NsVecBiDict) (ns : Z) : Z :=
  if ns =? NS_OVERFLOW then nd_overflow_watermark d else default 0 (nd_watermarks d !! Z.to_nat ns).

Definition nd_len (d : NsVecBiDict) : nat := size (nd_reverse d).

(** ** The dictionaries of a ledger *)

Record DictNovelty := mkDictNovelty {
  dn_subjects : NsVecBiDict;
  dn_strings : VecBiDict;
  dn_string_watermark : Z;
  dn_initialized : bool;
}.

Definition new_genesis : DictNovelty := mkDictNovelty nd_new (bi_new 1) 0 true.
Definition new_uninitialized : DictNovelty := mkDictNovelty nd_new (bi_new 1) 0 false.

Definition with_watermarks (subject_wm : list Z) (string_wm : Z) : DictNovelty :=
  let overflow_idx := Z.to_nat NS_OVERFLOW in
  let '(trimmed_wm, overflow_wm) :=
    match subject_wm !! overflow_idx with
    | Some owm => (take overflow_idx subject_wm, owm)
    | None => (subject_wm, 0)
    end in
  mkDictNovelty (nd_with_watermarks trimmed_wm overflow_wm) (bi_new (as_u 32 (string_wm + 1))) string_wm true.

Definition ensure_initialized (d : DictNovelty) : option unit := if dn_initialized d then Some tt else None.

Section populate.
Context `{VL : ValueLib}.

Definition with_subject (d : DictNovelty) (s : Sid) : DictNovelty :=
  mkDictNovelty (nd_assign_or_lookup (dn_subjects d) (namespace_code s) (name s)).1 (dn_strings d)
    (dn_string_watermark d) (dn_initialized d).

Definition with_string (d : DictNovelty) (s : str) : option DictNovelty :=
  '(strings, _) ← bi_assign_or_lookup 32 (dn_strings d) s;
  Some (mkDictNovelty (dn_subjects d) strings (dn_string_watermark d) (dn_initialized d)).

Definition populate_flake (d : DictNovelty) (f : Flake) : option DictNovelty :=
  let d := with_subject d (f_s f) in
  match f_o f with
  | Ref sid => Some (with_subject d sid)
  | String s | Json s => with_string d s
  | _ => Some d
  end.

Fixpoint populate_flakes (d : DictNovelty) (flakes : list Flake) : option DictNovelty :=
  match flakes with
  | [] => Some d
  | f :: flakes => d ← populate_flake d f; populate_flakes d flakes
  end.

Definition populate_from_flakes (d : DictNovelty) (flakes : list Flake) : option DictNovelty :=
  _ ← ensure_initialized d; populate_flakes d flakes.
End populate.

(** ** Runtime ids of predicates and datatypes *)

Record RuntimeSidDict := mkSidDict {
  persisted_len : Z;
  by_id : list Sid;
  by_sid : gmap Sid Z;
}.

Definition sid_dict_new : RuntimeSidDict := mkSidDict 0 [] ∅.

(** The index before the width of the id wraps it. *)
Definition assign_index (d : RuntimeSidDict) (sid : Sid) : RuntimeSidDict * Z :=
  match by_sid d !! sid with
  | Some id => (d, id)
  | None =>
      let id := zlen (by_id d) in
      (mkSidDict (persisted_len d) (by_id d ++ [sid]) (<[sid := id]> (by_sid d)), id)
  end.

Definition seed (d : RuntimeSidDict) (sid : Sid) : RuntimeSidDict :=
  let d := (assign_index d sid).1 in mkSidDict (zlen (by_id d)) (by_id d) (by_sid d).

Record RuntimeSmallDicts := mkSmallDicts { predicates : RuntimeSidDict; datatypes : RuntimeSidDict }.

Definition small_dicts_new : RuntimeSmallDicts := mkSmallDicts sid_dict_new sid_dict_new.

Definition from_seeded_sids (predicate_sids datatype_sids : list Sid) : RuntimeSmallDicts :=
  mkSmallDicts (foldl seed sid_dict_new predicate_sids) (foldl seed sid_dict_new datatype_sids).

(** Predicate ids are [u32], datatype ids [u16]. *)
Definition assign_or_lookup_predicate (d : RuntimeSmallDicts) (sid : Sid) : RuntimeSmallDicts * Z :=
  let '(p, id) := assign_index (predicates d) sid in (mkSmallDicts p (datatypes d), as_u 32 id).
Definition assign_or_lookup_datatype (d : RuntimeSmallDicts) (sid : Sid) : RuntimeSmallDicts * Z :=
  let '(p, id) := assign_index (datatypes d) sid in (mkSmallDicts (predicates d) p, as_u 16 (as_u 32 id)).

Definition populate_small `{VL : ValueLib} (d : RuntimeSmallDicts) (flakes : list Flake) : RuntimeSmallDicts :=
  foldl (fun d f => (assign_or_lookup_datatype (assign_or_lookup_predicate d (f_p f)).1 (f_dt f)).1) d flakes.

Definition predicate_id (d : RuntimeSmallDicts) (sid : Sid) : option Z := as_u 32 <$> by_sid (predicates d) !! sid.
Definition datatype_id (d : RuntimeSmallDicts) (sid : Sid) : option Z :=
  (fun id => as_u 16 (as_u 32 id)) <$> by_sid (datatypes d) !! sid.
Definition predicate_sid (d : RuntimeSmallDicts) (id : Z) : option Sid := by_id (predicates d) !! Z.to_nat id.
Definition datatype_sid (d : RuntimeSmallDicts) (id : Z) : option Sid := by_id (datatypes d) !! Z.to_nat id.
Definition is_persisted_predicate_id (d : RuntimeSmallDicts) (id : Z) : bool := id <? persisted_len (predicates d).
Definition is_persisted_datatype_id (d : RuntimeSmallDicts) (id : Z) : bool := id <? persisted_len (datatypes d).

(** ** Packed ids *)

Lemma subject_id_parts ns l :
  in_u 16 ns -> in_u 48 l ->
  ns_code (subject_id_new ns l) = ns /\ local_id (subject_id_new ns l) = l /\ in_u 64 (subject_id_new ns l) /\
  subject_id_new ns l = ns * 2 ^ 48 + l.
Proof.
  intros Hn Hl. assert (subject_id_new ns l = ns * 2 ^ 48 + l) as E.
  { unfold subject_id_new, SID_LOCAL_MASK. change 0x0000FFFFFFFFFFFF with (2 ^ 48 - 1). rewrite land_ones_mod by lia.
    rewrite Z.mod_small by (unfold in_u in Hl; lia). rewrite Z.lor_comm, lor_shiftl_add by (unfold in_u in *; lia). lia. }
  unfold in_u in *. rewrite E. split_and!; [| |lia|lia|done].
  - unfold ns_code, as_u. rewrite Z.shiftr_div_pow2 by lia. rewrite Z.div_add_l by lia.
    rewrite (Z.div_small l) by lia. rewrite Z.add_0_r. by apply Z.mod_small.
  - unfold local_id, SID_LOCAL_MASK. change 0x0000FFFFFFFFFFFF with (2 ^ 48 - 1). rewrite land_ones_mod by lia.
    rewrite Z.add_comm, Z.mod_add by lia. by apply Z.mod_small.
Qed.

Lemma subject_id_inj ns ns' l l' :
  in_u 16 ns -> in_u 16 ns' -> in_u 48 l -> in_u 48 l' ->
  subject_id_new ns l = subject_id_new ns' l' -> ns = ns' /\ l = l'.
Proof.
  intros H1 H2 H3 H4 E. destruct (subject_id_parts ns l H1 H3) as (A1 & A2 & _).
  destruct (subject_id_parts ns' l' H2 H4) as (B1 & B2 & _). rewrite E in A1, A2. split; congruence.
Qed.

Lemma subject_id_eta sid : in_u 64 sid ->
  in_u 16 (ns_code sid) /\ in_u 48 (local_id sid) /\ sid = subject_id_new (ns_code sid) (local_id sid).
Proof.
  intros Hs. assert (in_u 16 (ns_code sid)) as H1 by (apply as_u_range; lia).
  assert (in_u 48 (local_id sid)) as H2.
  { unfold local_id, SID_LOCAL_MASK. change 0x0000FFFFFFFFFFFF with (2 ^ 48 - 1). rewrite land_ones_mod by lia.
    unfold in_u. apply Z.mod_pos_bound. lia. }
  split_and!; [done..|]. destruct (subject_id_parts _ _ H1 H2) as (_ & _ & _ & ->).
  unfold ns_code, local_id, SID_LOCAL_MASK, as_u. change 0x0000FFFFFFFFFFFF with (2 ^ 48 - 1).
  rewrite land_ones_mod, Z.shiftr_div_pow2 by lia. unfold in_u in Hs.
  rewrite (Z.mod_small (sid / 2 ^ 48)); [|split; [apply Z.div_pos; lia|apply Z.div_lt_upper_bound; lia]].
  pose proof (Z.div_mod sid (2 ^ 48)). lia.
Qed.

Lemma sid32_roundtrip sid : in_u 64 sid ->
  to_sid32 sid = (if local_id sid <=? NARROW_LOCAL_MAX then Some (ns_code sid * 2 ^ 16 + local_id sid) else None) /\
  forall v, to_sid32 sid = Some v -> from_sid32 v = sid.
Proof.
  intros Hs. destruct (subject_id_eta sid Hs) as (Hn & Hl & E). unfold to_sid32.
  unfold NARROW_LOCAL_MAX, u16_max, in_u in *. destruct (Z.leb_spec (local_id sid) (2 ^ 16 - 1)) as [H|H]; [|done].
  rewrite as_u_id by (unfold in_u; lia). rewrite Z.lor_comm, lor_shiftl_add by lia.
  split; [f_equal; lia|]. intros v [= <-]. unfold from_sid32.
  assert (as_u 16 (Z.shiftr (local_id sid + ns_code sid * 2 ^ 16) 16) = ns_code sid) as ->.
  { rewrite Z.shiftr_div_pow2, Z.div_add by lia. rewrite (Z.div_small (local_id sid)) by lia.
    rewrite Z.add_0_l. apply as_u_id. unfold in_u. lia. }
  assert (Z.land (local_id sid + ns_code sid * 2 ^ 16) 0xFFFF = local_id sid) as ->.
  { change 0xFFFF with (2 ^ 16 - 1). rewrite land_ones_mod, Z.mod_add by lia. apply Z.mod_small. lia. }
  done.
Qed.

(** A column gives back the ids it was built from. *)
Lemma column_roundtrip values encoding c i :
  Forall (in_u 64) values -> from_u64_vec values encoding = Some c -> column_get c i = values !! i.
Proof.
  intros Hv. destruct encoding; cbn; [|by intros [= <-]].
  destruct (mapM to_sid32 values) as [v|] eqn:E; [|done]. intros [= <-]. cbn.
  apply mapM_Some in E. clear -Hv E. revert i. induction E as [|x y xs ys Hxy E IH]; intros i; [done|].
  apply Forall_cons in Hv as [Hx Hv]. destruct i as [|i]; cbn; [|by apply IH].
  by rewrite (proj2 (sid32_roundtrip x Hx) y Hxy).
Qed.

(** ** Dense dictionaries *)

Record bi_wf (w : Z) (d : VecBiDict) : Prop := {
  bw_base : 0 <= bi_base_id d;
  bw_next : bi_next_id d = bi_base_id d + bi_len d;
  bw_fits : bi_next_id d < 2 ^ w;
  bw_find s id : bi_find d s = Some id <-> bi_resolve d id = Some s;
}.

Lemma bi_resolve_iff d id s : 0 <= bi_base_id d ->
  bi_resolve d id = Some s <-> exists i, bi_entries d !! i = Some s /\ id = bi_base_id d + Z.of_nat i.
Proof.
  intros Hb. unfold bi_resolve, checked_sub. destruct (Z.leb_spec (bi_base_id d) id) as [H|H]; cbn.
  - split; [|by intros (i & Hi & ->); rewrite Z.add_simpl_l, Nat2Z.id].
    intros Hi. eexists. split; [exact Hi|]. lia.
  - split; [done|]. intros (i & _ & ->). lia.
Qed.

Lemma bi_new_wf w base : 0 <= base < 2 ^ w -> bi_wf w (bi_new base).
Proof.
  intros H. split; [apply H|unfold bi_len, zlen; cbn; lia|apply H|]. intros s id. rewrite bi_resolve_iff by (cbn; lia).
  unfold bi_find. cbn. rewrite lookup_empty. split; [done|]. by intros (i & Hi & _).
Qed.

(** The order of two versions of a dictionary: no id has changed. *)
Definition bi_extends (d d' : VecBiDict) : Prop :=
  bi_base_id d' = bi_base_id d /\ bi_entries d `prefix_of` bi_entries d' /\
  forall s id, bi_find d s = Some id -> bi_find d' s = Some id.

#[export] Instance bi_extends_preorder : PreOrder bi_extends.
Proof.
  split; [done|]. intros a b c (E1 & P1 & F1) (E2 & P2 & F2).
  split_and!; [congruence|by etrans|auto].
Qed.

Lemma bi_assign_spec w d s : bi_wf w d ->
  match bi_assign_or_lookup w d s with
  | Some (d', id) => bi_wf w d' /\ bi_extends d d' /\ bi_find d' s = Some id /\
      (forall s' id', bi_find d' s' = Some id' -> s' = s \/ bi_find d s' = Some id')
  | None => bi_find d s = None /\ bi_next_id d = 2 ^ w - 1
  end.
Proof.
  intros Hw. unfold bi_assign_or_lookup. destruct (bi_reverse d !! s) as [id|] eqn:E.
  { split_and!; [done|reflexivity|done|by right]. }
  pose proof (bw_fits _ _ Hw). unfold checked_add.
  destruct (Z.ltb_spec (bi_next_id d + 1) (2 ^ w)) as [Hlt|]; cbn; [|split; [done|lia]].
  pose proof (bw_base _ _ Hw) as Hb. pose proof (bw_next _ _ Hw) as Hn. unfold bi_len, zlen in Hn.
  split_and!.
  - split; [done|cbn; unfold bi_len in *; cbn; rewrite zlen_app, zlen_cons, zlen_nil; unfold zlen; lia|done|].
    intros s' id'. rewrite bi_resolve_iff by done. cbn. unfold bi_find. cbn.
    destruct (decide (s' = s)) as [->|Hne].
    + rewrite lookup_insert_eq. split.
      * intros [= <-]. exists (length (bi_entries d)). rewrite list_lookup_middle by done. split; [done|lia].
      * intros (i & Hi & ->). apply lookup_app_Some in Hi as [Hi|[Hi Hi']].
        -- assert (bi_find d s = Some (bi_base_id d + Z.of_nat i)) as Hf.
           { apply (bw_find _ _ Hw), bi_resolve_iff; eauto. }
           unfold bi_find in Hf. congruence.
        -- destruct (i - length (bi_entries d))%nat eqn:Ei; [|done]. f_equal. lia.
    + rewrite lookup_insert_ne by done. change (bi_reverse d !! s') with (bi_find d s').
      rewrite (bw_find _ _ Hw), bi_resolve_iff by done. split.
      * intros (i & Hi & ->). exists i. split; [by apply lookup_app_l_Some|done].
      * intros (i & Hi & ->). exists i. split; [|done]. apply lookup_app_Some in Hi as [Hi|[Hi Hi']]; [done|].
        apply list_lookup_singleton_Some in Hi' as [_ <-]. congruence.
  - split_and!; [done|by exists [s]|]. intros s' id' H'. unfold bi_find in *. cbn.
    destruct (decide (s' = s)) as [->|Hne]; simplify_map_eq; done.
  - unfold bi_find. cbn. apply lookup_insert_eq.
  - intros s' id'. unfold bi_find. cbn. destruct (decide (s' = s)) as [->|Hne]; [by left|].
    rewrite lookup_insert_ne by done. by right.
Qed.

Lemma number_entries_spec w next m entries m' next' :
  NoDup entries -> number_entries w next m entries = Some (m', next') ->
  next' = next + zlen entries /\ (entries = [] \/ next' < 2 ^ w) /\
  forall s id, m' !! s = Some id <->
    (exists i, entries !! i = Some s /\ id = next + Z.of_nat i) \/ ((s ∉ entries) /\ m !! s = Some id).
Proof.
  revert next m. induction entries as [|e entries IH]; intros next m Hnd H.
  { injection H as <- <-. split_and!; [unfold zlen; cbn; lia|by left|]. intros s id. split.
    - intros ?. right. split; [apply not_elem_of_nil|done].
    - by intros [(i & Hi & _)|[_ ?]]. }
  apply NoDup_cons in Hnd as [He Hnd]. cbn in H. unfold checked_add in H.
  destruct (Z.ltb_spec (next + 1) (2 ^ w)) as [Hlt|]; [|done]. cbn in H.
  apply IH in H as (-> & Hb & Hm); [|done]. rewrite zlen_cons. split_and!; [lia| |].
  { right. destruct Hb as [->|Hb]; unfold zlen in *; cbn in *; lia. }
  intros s id. rewrite Hm, not_elem_of_cons. split.
  - intros [(i & Hi & ->)|[Hs Hl]]; [left; exists (S i); split; [done|lia]|].
    destruct (decide (s = e)) as [->|Hne]; simplify_map_eq; [left; exists O; split; [done|lia]|by right].
  - intros [(i & Hi & ->)|[[Hne Hs] Hl]].
    + destruct i as [|i]; cbn in Hi; [|left; exists i; split; [done|lia]].
      injection Hi as ->. right. split; [done|]. rewrite lookup_insert_eq. f_equal. lia.
    + right. split; [done|]. by rewrite lookup_insert_ne.
Qed.

(** Seeding from persisted entries keeps their positions when they are distinct. *)
Lemma from_ordered_vec_wf w base entries d :
  NoDup entries -> 0 <= base < 2 ^ w -> from_ordered_vec w base entries = Some d ->
  bi_wf w d /\ bi_entries d = entries /\ bi_base_id d = base.
Proof.
  intros Hnd Hb. unfold from_ordered_vec. destruct (number_entries w base ∅ entries) as [[m next]|] eqn:E; [|done].
  intros [= <-]. apply number_entries_spec in E as (-> & Hb' & Hm); [|done]. split; [|done].
  split; [apply Hb|done|cbn; destruct Hb' as [->|?]; [rewrite zlen_nil|]; lia|].
  intros s id. rewrite bi_resolve_iff by apply Hb. unfold bi_find. cbn. rewrite Hm.
  split; [by intros [?|[_ ?%lookup_empty_Some]]|by left].
Qed.

(** ** Dictionaries by namespace *)

Definition ns_entries (d : NsVecBiDict) (ns : Z) : list str :=
  if ns =? NS_OVERFLOW then nd_overflow_entries d else default [] (nd_entries d !! Z.to_nat ns).
Definition ns_watermark (d : NsVecBiDict) (ns : Z) : Z :=
  if ns =? NS_OVERFLOW then nd_overflow_watermark d
  else default (nd_local_base d - 1) (nd_watermarks d !! Z.to_nat ns).

(** The next local id of a namespace, the room it leaves in 48 bits included. *)
Definition ns_next (d : NsVecBiDict) (ns : Z) : Z := ns_watermark d ns + 1 + zlen (ns_entries d ns).

Record nd_wf (d : NsVecBiDict) : Prop := {
  nw_base : 1 <= nd_local_base d;
  nw_lens : (length (nd_entries d) <= length (nd_watermarks d))%nat;
  nw_over : overflow_local_id d = ns_next d NS_OVERFLOW;
  nw_next i : default (nd_local_base d) (nd_next_local_ids d !! i) =
    default (nd_local_base d - 1) (nd_watermarks d !! i) + 1 + zlen (default [] (nd_entries d !! i));
  nw_mark i wm : nd_watermarks d !! i = Some wm -> nd_local_base d - 1 <= wm;
  nw_over_mark : 0 <= nd_overflow_watermark d;
  nw_fits ns : in_u 16 ns -> ns_next d ns <= 2 ^ 48;
  nw_find ns s id : in_u 16 ns ->
    find_subject d ns s = Some id <->
    exists i, ns_entries d ns !! i = Some s /\ id = subject_id_new ns (ns_watermark d ns + 1 + Z.of_nat i);
}.

Lemma lookup_key_inj ns ns' s s' :
  in_u 16 ns -> in_u 16 ns' -> lookup_key ns s = lookup_key ns' s' -> ns = ns' /\ s = s'.
Proof.
  intros H1 H2 E. unfold lookup_key in E. apply app_inj_1 in E as [E ->]; [|by rewrite !length_rev, !length_le_bytes].
  split; [|done]. apply (f_equal (@rev Z)) in E. rewrite !rev_involutive in E.
  rewrite <- (le_int_bytes 2 ns), <- (le_int_bytes 2 ns') by done. by rewrite E.
Qed.

Lemma resize_lookup {A} i (x : A) v j : default x (resize_to i x v !! j) = default x (v !! j).
Proof.
  unfold resize_to. destruct (decide (j < length v)%nat) as [H|H].
  - by rewrite lookup_app_l.
  - rewrite lookup_app_r by lia. rewrite (lookup_ge_None_2 v) by lia. cbn.
    destruct (replicate _ x !! _) as [y|] eqn:E; [|done]. apply lookup_replicate in E as [-> _]. done.
Qed.

Lemma resize_length {A} i (x : A) v : length (resize_to i x v) = Nat.max (length v) (S i).
Proof. unfold resize_to. rewrite length_app, length_replicate. lia. Qed.

Lemma resize_at {A} i (x : A) v : resize_to i x v !! i = Some (default x (v !! i)).
Proof.
  rewrite <- (resize_lookup i x v i). destruct (lookup_lt_is_Some_2 (resize_to i x v) i) as [y ->]; [|done].
  rewrite resize_length. lia.
Qed.

Lemma resize_ne {A} i (x : A) v j y : resize_to i x v !! j = Some y -> v !! j = Some y \/ y = x.
Proof.
  unfold resize_to. intros [H|[_ H]]%lookup_app_Some; [by left|]. apply lookup_replicate in H as [-> _]. by right.
Qed.

Lemma ns_watermark_nonneg d ns : nd_wf d -> 0 <= ns_watermark d ns.
Proof.
  intros Hw. unfold ns_watermark. destruct (ns =? NS_OVERFLOW); [apply Hw|]. pose proof (nw_base _ Hw).
  destruct (nd_watermarks d !! Z.to_nat ns) as [wm|] eqn:E; cbn; [|lia]. pose proof (nw_mark _ Hw _ _ E). lia.
Qed.

Lemma resolve_subject_iff d ns l s :
  nd_wf d -> in_u 16 ns -> in_u 48 l ->
  resolve_subject d (subject_id_new ns l) = Some (ns, s) <->
  exists i, ns_entries d ns !! i = Some s /\ l = ns_watermark d ns + 1 + Z.of_nat i.
Proof.
  intros Hw Hn Hl. unfold resolve_subject. destruct (subject_id_parts ns l Hn Hl) as (-> & -> & _).
  pose proof (ns_watermark_nonneg d ns Hw) as Hwm.
  assert (forall wm entries, 0 <= wm ->
    above_watermark wm l entries = Some s <-> exists i, entries !! i = Some s /\ l = wm + 1 + Z.of_nat i) as H.
  { intros wm entries Hwm'. unfold above_watermark. destruct (Z.eqb_spec l 0), (Z.leb_spec l wm); cbn;
      [split; [done|intros (i & _ & ?); lia]..|]. split.
    - intros Hi. eexists. split; [exact Hi|]. lia.
    - intros (i & Hi & ->). replace (Z.to_nat (wm + 1 + Z.of_nat i - wm - 1)) with i by lia. done. }
  unfold ns_entries, ns_watermark in *. destruct (Z.eqb_spec ns NS_OVERFLOW) as [->|Hne].
  - rewrite <- H by done. destruct (above_watermark _ _ _); cbn; naive_solver.
  - destruct (nd_entries d !! Z.to_nat ns) as [entries|] eqn:E; cbn; [|split; [done|by intros (i & Hi & _)]].
    destruct (lookup_lt_is_Some_2 (nd_watermarks d) (Z.to_nat ns)) as [wm Em].
    { pose proof (nw_lens _ Hw). apply lookup_lt_Some in E. lia. }
    rewrite Em in Hwm |- *. cbn in Hwm |- *. rewrite <- H by done.
    destruct (above_watermark wm l entries); cbn; naive_solver.
Qed.

Lemma nd_new_wf : nd_wf nd_new.
Proof.
  split; try done.
  - intros ns _. unfold ns_next, ns_watermark, ns_entries, zlen. cbn [nd_new nd_overflow_entries
      nd_entries nd_overflow_watermark nd_watermarks nd_local_base]. rewrite !lookup_nil. by destruct (ns =? NS_OVERFLOW).
  - intros ns s id _. unfold find_subject, ns_entries. cbn. rewrite lookup_empty, lookup_nil. split; [done|].
    intros (i & Hi & _). by case_match.
Qed.

Definition marks_ok (wms : list Z) (overflow_wm : Z) : Prop :=
  Forall (in_u 47) wms /\ in_u 47 overflow_wm.

Lemma nd_with_watermarks_wf wms owm : marks_ok wms owm -> nd_wf (nd_with_watermarks wms owm).
Proof.
  intros [Hw Ho]. assert (forall wm, in_u 47 wm -> as_u 64 (wm + 1) = wm + 1) as E.
  { intros wm Hm. apply as_u_id. unfold in_u in *. lia. }
  assert (forall i wm, wms !! i = Some wm -> in_u 47 wm) as Hi.
  { intros i wm H. by rewrite Forall_lookup in Hw; apply (Hw i). }
  assert (forall i, default [] (replicate (length wms) ([] : list str) !! i) = []) as Er.
  { intros i. destruct (replicate _ _ !! i) eqn:Ei; [|done]. by apply lookup_replicate in Ei as [-> _]. }
  split; cbn -[as_u].
  - done.
  - by rewrite length_replicate.
  - unfold overflow_local_id, ns_next, ns_watermark, ns_entries, zlen. cbn -[as_u]. rewrite E by done.
    case_match; lia.
  - intros i. rewrite list_lookup_fmap, Er. unfold zlen. destruct (wms !! i) as [wm|] eqn:Em; cbn -[as_u]; [|done].
    rewrite E by eauto. lia.
  - intros i wm Hm%Hi. unfold in_u in Hm. lia.
  - apply Ho.
  - intros ns Hn. unfold ns_next, ns_watermark, ns_entries, zlen. cbn. rewrite Er. unfold in_u in *.
    destruct (ns =? NS_OVERFLOW); cbn; [lia|]. destruct (wms !! Z.to_nat ns) as [wm|] eqn:Em; cbn; [|lia].
    apply Hi in Em. lia.
  - intros ns s id _. unfold find_subject, ns_entries. cbn. rewrite lookup_empty, Er. split; [done|].
    intros (i & Hx & _). by case_match.
Qed.

(** Two versions of a dictionary: no id has changed. *)
Definition nd_extends (d d' : NsVecBiDict) : Prop :=
  nd_local_base d' = nd_local_base d /\
  (forall ns, ns_watermark d' ns = ns_watermark d ns) /\
  (forall ns s id, in_u 16 ns -> find_subject d ns s = Some id -> find_subject d' ns s = Some id).

#[export] Instance nd_extends_preorder : PreOrder nd_extends.
Proof. split; [done|]. intros a b c (B1 & E1 & F1) (B2 & E2 & F2). split_and!; [congruence..|auto]. Qed.

(** What an assignment of a new subject does, whatever the namespace. *)
Record nd_added (d : NsVecBiDict) (ns : Z) (s : str) (d' : NsVecBiDict) : Prop := {
  na_base : nd_local_base d' = nd_local_base d;
  na_lens : (length (nd_entries d') <= length (nd_watermarks d'))%nat;
  na_over : overflow_local_id d' = ns_next d' NS_OVERFLOW;
  na_next i : default (nd_local_base d) (nd_next_local_ids d' !! i) =
    default (nd_local_base d - 1) (nd_watermarks d' !! i) + 1 + zlen (default [] (nd_entries d' !! i));
  na_mark i wm : nd_watermarks d' !! i = Some wm -> nd_local_base d - 1 <= wm;
  na_over_mark : nd_overflow_watermark d' = nd_overflow_watermark d;
  na_entries ns' : in_u 16 ns' ->
    ns_entries d' ns' = if ns' =? ns then ns_entries d ns ++ [s] else ns_entries d ns';
  na_watermark ns' : ns_watermark d' ns' = ns_watermark d ns';
  na_reverse : nd_reverse d' = <[lookup_key ns s := subject_id_new ns (ns_next d ns)]> (nd_reverse d);
}.

Lemma nd_added_wf d ns s d' :
  nd_wf d -> in_u 16 ns -> ns_next d ns < 2 ^ 48 -> find_subject d ns s = None -> nd_added d ns s d' ->
  nd_wf d' /\ nd_extends d d' /\ find_subject d' ns s = Some (subject_id_new ns (ns_next d ns)).
Proof.
  intros Hw Hn Hroom Hnew Ha.
  assert (find_subject d' ns s = Some (subject_id_new ns (ns_next d ns))) as Hs.
  { unfold find_subject. rewrite (na_reverse _ _ _ _ Ha). apply lookup_insert_eq. }
  assert (forall ns' s', in_u 16 ns' -> (ns', s') <> (ns, s) -> find_subject d' ns' s' = find_subject d ns' s') as Hother.
  { intros ns' s' Hn' Hne. unfold find_subject. rewrite (na_reverse _ _ _ _ Ha). apply lookup_insert_ne.
    intros E. apply lookup_key_inj in E as [-> ->]; [done..]. }
  split_and!; [|split_and!; [apply Ha..|]|done].
  - split.
    + rewrite (na_base _ _ _ _ Ha). apply Hw.
    + apply Ha.
    + apply Ha.
    + rewrite (na_base _ _ _ _ Ha). apply Ha.
    + rewrite (na_base _ _ _ _ Ha). apply Ha.
    + rewrite (na_over_mark _ _ _ _ Ha). apply Hw.
    + intros ns' Hn'. unfold ns_next. rewrite (na_entries _ _ _ _ Ha), (na_watermark _ _ _ _ Ha) by done.
      pose proof (nw_fits _ Hw ns' Hn') as Hf. unfold ns_next in *. destruct (Z.eqb_spec ns' ns) as [->|]; [|done].
      rewrite zlen_app, zlen_cons, zlen_nil. lia.
    + intros ns' s' id Hn'. rewrite (na_watermark _ _ _ _ Ha), (na_entries _ _ _ _ Ha) by done.
      destruct (decide ((ns', s') = (ns, s))) as [[= -> ->]|Hne].
      * rewrite Hs, Z.eqb_refl. split.
        -- intros [= <-]. exists (length (ns_entries d ns)). rewrite list_lookup_middle by done. by split.
        -- intros (i & Hi & ->). f_equal. apply lookup_app_Some in Hi as [Hi|[Hi Hi']].
           ++ assert (find_subject d ns s = Some (subject_id_new ns (ns_watermark d ns + 1 + Z.of_nat i))) as Hf
                by (apply (nw_find _ Hw); eauto). congruence.
           ++ apply list_lookup_singleton_Some in Hi' as [Hi' _]. unfold ns_next, zlen. f_equal. lia.
      * rewrite Hother, (nw_find _ Hw) by done. destruct (Z.eqb_spec ns' ns) as [->|]; [|done]. split.
        -- intros (i & Hi & ->). exists i. split; [by apply lookup_app_l_Some|done].
        -- intros (i & Hi & ->). exists i. split; [|done]. apply lookup_app_Some in Hi as [Hi|[Hi Hi']]; [done|].
           apply list_lookup_singleton_Some in Hi' as [_ <-]. by destruct Hne.
  - intros ns' s' id Hn' Hf. destruct (decide ((ns', s') = (ns, s))) as [[= -> ->]|Hne]; [congruence|].
    by rewrite Hother.
Qed.

Lemma overflow_added d s :
  nd_wf d -> ns_next d NS_OVERFLOW < 2 ^ 48 -> find_subject d NS_OVERFLOW s = None ->
  nd_added d NS_OVERFLOW s (nd_assign_or_lookup d NS_OVERFLOW s).1.
Proof.
  intros Hw Hroom Hnew. unfold nd_assign_or_lookup. unfold find_subject in Hnew. rewrite Hnew, Z.eqb_refl.
  rewrite (nw_over _ Hw). pose proof (nw_over_mark _ Hw) as Hm. unfold ns_next, ns_watermark, ns_entries in *.
  rewrite Z.eqb_refl in *. pose proof (zlen_nonneg (nd_overflow_entries d)) as Hz. split; cbn [fst nd_local_base
    nd_entries nd_watermarks nd_next_local_ids nd_overflow_watermark nd_reverse nd_overflow_entries].
  - done.
  - apply Hw.
  - unfold overflow_local_id, ns_next, ns_watermark, ns_entries. cbn [nd_overflow_next_local_id
      nd_overflow_watermark nd_overflow_entries]. rewrite Z.eqb_refl, as_u_id by (unfold in_u; lia).
    rewrite zlen_app, zlen_cons, zlen_nil. case_Z; lia.
  - apply Hw.
  - apply Hw.
  - done.
  - intros ns' _. unfold ns_entries. cbn. by destruct (Z.eqb_spec ns' NS_OVERFLOW) as [->|].
  - intros ns'. unfold ns_watermark. cbn. by destruct (Z.eqb_spec ns' NS_OVERFLOW) as [->|].
  - by unfold ns_next, ns_watermark, ns_entries; rewrite Z.eqb_refl.
Qed.

(** The normalised watermark and next id of a namespace, in range. *)
Lemma normal_mark d i :
  nd_wf d ->
  let base := nd_local_base d in
  let wm := default 0 (resize_to i (base - 1) (nd_watermarks d) !! i) in
  let wm' := if (wm =? 0) && (1 <? base) then base - 1 else wm in
  let next := default 0 (resize_to i base (nd_next_local_ids d) !! i) in
  let next' := if (next =? 0) && (1 <? base) then base else next in
  wm' = default (base - 1) (nd_watermarks d !! i) /\
  (if next' <=? wm' then as_u 64 (wm' + 1) else next') =
    default (base - 1) (nd_watermarks d !! i) + 1 + zlen (default [] (nd_entries d !! i)).
Proof.
  intros Hw base wm wm' next next'. pose proof (nw_base _ Hw) as Hb. pose proof (nw_next _ Hw i) as Hn.
  pose proof (zlen_nonneg (default [] (nd_entries d !! i))) as Hz. unfold wm', next', wm, next, base in *.
  rewrite !resize_at. cbn [default from_option id]. rewrite Hn.
  assert (nd_local_base d - 1 <= default (nd_local_base d - 1) (nd_watermarks d !! i)) as Hm.
  { destruct (nd_watermarks d !! i) as [v|] eqn:E; cbn; [by apply (nw_mark _ Hw i)|lia]. }
  set (m := default (nd_local_base d - 1) (nd_watermarks d !! i)) in *.
  set (z := zlen (default [] (nd_entries d !! i))) in *.
  destruct (Z.eqb_spec m 0), (Z.ltb_spec 1 (nd_local_base d)); cbn [andb]; [lia|..];
    (split; [done|]); destruct (Z.eqb_spec (m + 1 + z) 0); cbn [andb]; try lia;
    destruct (Z.leb_spec (m + 1 + z) m); lia.
Qed.

Lemma local_added d ns s :
  nd_wf d -> in_u 16 ns -> ns <> NS_OVERFLOW -> ns_next d ns < 2 ^ 48 -> find_subject d ns s = None ->
  nd_added d ns s (nd_assign_or_lookup d ns s).1.
Proof.
  intros Hw Hn Hne Hroom Hnew. unfold nd_assign_or_lookup. unfold find_subject in Hnew. rewrite Hnew.
  apply Z.eqb_neq in Hne as Hne'. rewrite Hne'. destruct (normal_mark d (Z.to_nat ns) Hw) as [E1 E2]. cbv zeta in *.
  rewrite E2, E1. set (i := Z.to_nat ns) in *. set (base := nd_local_base d) in *.
  set (m := default (base - 1) (nd_watermarks d !! i)) in *. set (z := zlen (default [] (nd_entries d !! i))) in *.
  assert (ns_next d ns = m + 1 + z) as Enext by (unfold ns_next, ns_watermark, ns_entries; by rewrite Hne').
  assert (base - 1 <= m) as Hm.
  { unfold m. destruct (nd_watermarks d !! i) as [v|] eqn:E; cbn; [by apply (nw_mark _ Hw i)|lia]. }
  assert (0 <= z) by apply zlen_nonneg. assert (1 <= base) by apply Hw.
  assert (forall j, default (base - 1) (<[i:=m]> (resize_to i (base - 1) (nd_watermarks d)) !! j) =
    default (base - 1) (nd_watermarks d !! j)) as Em.
  { intros j. destruct (decide (j = i)) as [->|Hj].
    - by rewrite list_lookup_insert_eq by (rewrite resize_length; lia).
    - by rewrite list_lookup_insert_ne, resize_lookup by done. }
  assert (forall j, default [] (alter (fun v => v ++ [s]) i (resize_to i [] (nd_entries d)) !! j) =
    if decide (j = i) then default [] (nd_entries d !! i) ++ [s] else default [] (nd_entries d !! j)) as Ee.
  { intros j. destruct (decide (j = i)) as [->|Hj].
    - by rewrite list_lookup_alter_eq, resize_at.
    - by rewrite list_lookup_alter_ne, resize_lookup by done. }
  split; cbn [fst nd_local_base nd_entries nd_watermarks nd_next_local_ids nd_overflow_watermark nd_reverse].
  - done.
  - rewrite length_alter, length_insert, !resize_length. pose proof (nw_lens _ Hw). lia.
  - exact (nw_over _ Hw).
  - intros j. rewrite Em, Ee. fold base. destruct (decide (j = i)) as [->|Hj].
    + rewrite list_lookup_insert_eq by (rewrite resize_length; lia). cbn [default from_option id].
      rewrite as_u_id by (unfold in_u; lia). rewrite zlen_app, zlen_cons, zlen_nil. fold z m. lia.
    + rewrite list_lookup_insert_ne, resize_lookup by done. apply (nw_next _ Hw).
  - intros j wm Hj. destruct (decide (j = i)) as [->|Hji].
    + rewrite list_lookup_insert_eq in Hj by (rewrite resize_length; lia). by injection Hj as <-.
    + rewrite list_lookup_insert_ne in Hj by done. apply resize_ne in Hj as [Hj| ->]; [by apply (nw_mark _ Hw j)|done].
  - done.
  - intros ns' Hn'. unfold ns_entries. cbn [nd_entries nd_overflow_entries]. rewrite Hne', Ee.
    destruct (Z.eqb_spec ns' NS_OVERFLOW) as [->|H1]; [by rewrite (proj2 (Z.eqb_neq _ _)) by done|].
    destruct (Z.eqb_spec ns' ns) as [->|H2]; [by rewrite decide_True|].
    rewrite decide_False; [done|]. unfold i, in_u in *. lia.
  - intros ns'. unfold ns_watermark. cbn [nd_watermarks nd_overflow_watermark nd_local_base]. fold base. by rewrite Em.
  - by rewrite Enext.
Qed.

Lemma nd_assign_spec d ns s :
  nd_wf d -> in_u 16 ns -> ns_next d ns < 2 ^ 48 ->
  let '(d', id) := nd_assign_or_lookup d ns s in
  nd_wf d' /\ nd_extends d d' /\ find_subject d' ns s = Some id /\
  (forall ns', in_u 16 ns' -> ns_next d' ns' <= ns_next d ns' + 1).
Proof.
  intros Hw Hn Hroom. destruct (find_subject d ns s) as [id|] eqn:Hs.
  { unfold nd_assign_or_lookup. unfold find_subject in Hs. rewrite Hs. split_and!; [done|reflexivity|done|lia]. }
  assert (nd_added d ns s (nd_assign_or_lookup d ns s).1) as Ha.
  { destruct (Z.eqb_spec ns NS_OVERFLOW) as [->|]; [by apply overflow_added|by apply local_added]. }
  assert (find_subject (nd_assign_or_lookup d ns s).1 ns s = Some (nd_assign_or_lookup d ns s).2) as Hid.
  { unfold nd_assign_or_lookup. unfold find_subject in Hs. rewrite Hs. unfold find_subject.
    case_match; cbn; apply lookup_insert_eq. }
  destruct (nd_assign_or_lookup d ns s) as [d' id]. cbn [fst snd] in *.
  destruct (nd_added_wf d ns s d' Hw Hn Hroom Hs Ha) as (H1 & H2 & H3). split_and!; [done..|].
  intros ns' Hn'. unfold ns_next. rewrite (na_watermark _ _ _ _ Ha), (na_entries _ _ _ _ Ha) by done.
  destruct (Z.eqb_spec ns' ns) as [->|]; [rewrite zlen_app, zlen_cons, zlen_nil|]; lia.
Qed.

(** ** The dictionaries of a ledger *)

Record dn_wf (d : DictNovelty) : Prop := {
  dw_subjects : nd_wf (dn_subjects d);
  dw_base : nd_local_base (dn_subjects d) = 1;
  dw_strings : bi_wf 32 (dn_strings d);
  dw_mark : dn_string_watermark d < bi_base_id (dn_strings d);
  dw_init : dn_initialized d = true;
}.

Definition dn_extends (d d' : DictNovelty) : Prop :=
  nd_extends (dn_subjects d) (dn_subjects d') /\ bi_extends (dn_strings d) (dn_strings d') /\
  dn_string_watermark d' = dn_string_watermark d.

#[export] Instance dn_extends_preorder : PreOrder dn_extends.
Proof.
  split; [done|]. intros a b c (E1 & F1 & G1) (E2 & F2 & G2). split_and!; [by etrans|by etrans|congruence].
Qed.

Lemma new_genesis_wf : dn_wf new_genesis.
Proof. split; try done; [apply nd_new_wf|by apply bi_new_wf]. Qed.

Lemma with_watermarks_wf wms string_wm :
  Forall (in_u 47) wms -> in_u 31 string_wm -> dn_wf (with_watermarks wms string_wm).
Proof.
  intros Hw Hs. assert (as_u 32 (string_wm + 1) = string_wm + 1) as E by (apply as_u_id; unfold in_u in *; lia).
  unfold with_watermarks. destruct (wms !! Z.to_nat NS_OVERFLOW) as [owm|] eqn:Eo; split;
    cbn [dn_subjects dn_strings dn_string_watermark dn_initialized]; try done.
  - apply nd_with_watermarks_wf. split; [by apply Forall_take|]. by rewrite Forall_lookup in Hw; apply (Hw _ _ Eo).
  - rewrite E. apply bi_new_wf. unfold in_u in *. lia.
  - rewrite E. cbn. lia.
  - by apply nd_with_watermarks_wf.
  - rewrite E. apply bi_new_wf. unfold in_u in *. lia.
  - rewrite E. cbn. lia.
Qed.

(** Room for [k] more entries of each kind. *)
Definition dict_room (d : DictNovelty) (k : Z) : Prop :=
  (forall ns, in_u 16 ns -> ns_next (dn_subjects d) ns + k <= 2 ^ 48) /\
  bi_next_id (dn_strings d) + k < 2 ^ 32.

Definition sid_u16 (s : Sid) : Prop := in_u 16 (namespace_code s).

Definition knows_subject (d : DictNovelty) (s : Sid) : Prop :=
  is_Some (find_subject (dn_subjects d) (namespace_code s) (name s)).

Lemma knows_subject_mono d d' s : dn_extends d d' -> sid_u16 s -> knows_subject d s -> knows_subject d' s.
Proof. intros (H & _ & _) Hs [id Hid]. exists id. by apply H. Qed.

Lemma with_subject_spec d s k :
  dn_wf d -> sid_u16 s -> 0 <= k -> dict_room d (k + 1) ->
  let d' := with_subject d s in dn_wf d' /\ dn_extends d d' /\ knows_subject d' s /\ dict_room d' k.
Proof.
  intros Hw Hs Hk [Hr Hr']. pose proof (nd_assign_spec (dn_subjects d) (namespace_code s) (name s) (dw_subjects _ Hw) Hs) as H.
  unfold with_subject. pose proof (Hr _ Hs). destruct (nd_assign_or_lookup _ _ _) as [n id].
  destruct H as (H1 & H2 & H3 & H4); [lia|]. cbn [fst]. split_and!.
  - split; cbn; try apply Hw; [done|]. destruct H2 as [-> _]. apply Hw.
  - split_and!; [done..|reflexivity|done].
  - by exists id.
  - split; cbn; [|lia]. intros ns Hns. pose proof (H4 ns Hns). pose proof (Hr ns Hns). lia.
Qed.

Section populate_laws.
Context `{VL : ValueLib}.

Definition flake_sids_ok (f : Flake) : Prop :=
  sid_u16 (f_s f) /\ match f_o f with Ref s => sid_u16 s | _ => True end.

(** Every id a flake refers to is in the dictionaries. *)
Definition covers (d : DictNovelty) (f : Flake) : Prop :=
  knows_subject d (f_s f) /\
  match f_o f with
  | Ref s => knows_subject d s
  | String s | Json s => is_Some (bi_find (dn_strings d) s)
  | _ => True
  end.

Lemma covers_mono d d' f : dn_extends d d' -> flake_sids_ok f -> covers d f -> covers d' f.
Proof.
  intros He [Hs Ho] [Hk Hc]. split; [by eapply knows_subject_mono|]. destruct (f_o f); try done.
  - by eapply knows_subject_mono.
  - destruct Hc as [id Hid]. exists id. by apply He.
  - destruct Hc as [id Hid]. exists id. by apply He.
Qed.

Lemma with_string_spec d s k :
  dn_wf d -> 0 <= k -> dict_room d (k + 1) ->
  exists d', with_string d s = Some d' /\ dn_wf d' /\ dn_extends d d' /\ is_Some (bi_find (dn_strings d') s) /\ dict_room d' k.
Proof.
  intros Hw Hk [Hr Hr']. pose proof (bi_assign_spec 32 (dn_strings d) s (dw_strings _ Hw)) as H.
  unfold with_string. destruct (bi_assign_or_lookup 32 (dn_strings d) s) as [[b id]|] eqn:E; [|lia].
  destruct H as (H1 & H2 & H3 & _). eexists. split; [done|]. split_and!.
  - split; cbn; try apply Hw; [done|]. destruct H2 as [-> _]. apply Hw.
  - by split_and!.
  - by exists id.
  - split; cbn; [intros ns Hns; specialize (Hr ns Hns); lia|].
    assert (bi_next_id b <= bi_next_id (dn_strings d) + 1) as ?; [|lia].
    unfold bi_assign_or_lookup in E. destruct (bi_reverse (dn_strings d) !! s); [injection E as <- _; lia|].
    unfold checked_add in E. destruct (_ <? _); [|done]. injection E as <- _. cbn. lia.
Qed.

Lemma room_weaken d k k' : k' <= k -> dict_room d k -> dict_room d k'.
Proof. intros Hk [H H']. split; [|lia]. intros ns Hns. specialize (H ns Hns). lia. Qed.

Lemma populate_flake_spec d f k :
  dn_wf d -> flake_sids_ok f -> 0 <= k -> dict_room d (k + 2) ->
  exists d', populate_flake d f = Some d' /\ dn_wf d' /\ dn_extends d d' /\ covers d' f /\ dict_room d' k.
Proof.
  intros Hw [Hs Ho] Hk Hr. replace (k + 2) with (k + 1 + 1) in Hr by lia.
  destruct (with_subject_spec d (f_s f) (k + 1) Hw Hs ltac:(lia) Hr) as (H1 & H2 & H3 & H4).
  unfold populate_flake, covers. set (d1 := with_subject d (f_s f)) in *.
  assert (forall s, knows_subject d1 s -> sid_u16 s -> forall d', dn_extends d1 d' -> knows_subject d' s) as Hm.
  { intros s Hks Hs1 d' He. by eapply knows_subject_mono. }
  destruct (f_o f) as [s| | | | | | | | | | | | | | | | |s| |s| |] eqn:Eo;
    try (exists d1; split_and!; [done..|by apply (room_weaken _ (k + 1)); [lia|]]).
  all: try (destruct (with_string_spec d1 s k H1 Hk H4) as (d' & -> & ? & ? & ? & ?); exists d';
      split_and!; [done..|by etrans|by apply Hm|done|done]).
  destruct (with_subject_spec d1 s k H1 Ho Hk H4) as (? & ? & ? & ?).
  eexists. split_and!; [done..|by etrans|by apply Hm|done|done].
Qed.

Lemma populate_flakes_spec fl d k :
  dn_wf d -> Forall flake_sids_ok fl -> 0 <= k -> dict_room d (k + 2 * zlen fl) ->
  exists d', populate_from_flakes d fl = Some d' /\ dn_wf d' /\ dn_extends d d' /\ Forall (covers d') fl /\ dict_room d' k.
Proof.
  intros Hw Ho Hk Hr. unfold populate_from_flakes, ensure_initialized. rewrite (dw_init _ Hw). cbn [mbind option_bind].
  revert d Hw Hr. induction Ho as [|f fl Hf Ho IH]; intros d Hw Hr.
  { exists d. split_and!; [done..|constructor|]. eapply room_weaken; [|exact Hr]. unfold zlen. cbn. lia. }
  rewrite zlen_cons in Hr. replace (k + 2 * (1 + zlen fl)) with (k + 2 * zlen fl + 2) in Hr by lia.
  pose proof (zlen_nonneg fl). destruct (populate_flake_spec d f (k + 2 * zlen fl) Hw Hf ltac:(lia) Hr)
    as (d1 & E & H1 & H2 & H3 & H4). cbn [populate_flakes]. rewrite E. cbn [mbind option_bind].
  destruct (IH d1 H1 H4) as (d' & E' & ? & ? & ? & ?). exists d'. split_and!; [done..|by etrans| |done].
  constructor; [|done]. by eapply covers_mono.
Qed.
End populate_laws.

(** ** Runtime ids *)

Record sid_dict_wf (d : RuntimeSidDict) : Prop := {
  sw_bimap sid i : by_sid d !! sid = Some i <-> 0 <= i /\ by_id d !! Z.to_nat i = Some sid;
  sw_persisted : 0 <= persisted_len d <= zlen (by_id d);
}.

Lemma sid_dict_new_wf : sid_dict_wf sid_dict_new.
Proof.
  split; [|done]. intros sid i. cbn. rewrite lookup_empty, lookup_nil. split; [done|]. by intros [_ ?].
Qed.

Lemma assign_index_spec d sid :
  sid_dict_wf d ->
  let '(d', i) := assign_index d sid in
  sid_dict_wf d' /\ by_id d `prefix_of` by_id d' /\ persisted_len d' = persisted_len d /\ by_sid d' !! sid = Some i /\
  (forall s, s ∈ by_id d' -> s ∈ by_id d \/ s = sid).
Proof.
  intros Hw. unfold assign_index. destruct (by_sid d !! sid) as [i|] eqn:E; [split_and!; auto|].
  split_and!; cbn.
  - split; [|pose proof (sw_persisted _ Hw); unfold zlen in *; cbn [persisted_len by_id]; rewrite length_app; lia].
    cbn. intros s i. destruct (decide (s = sid)) as [->|Hne].
    + rewrite lookup_insert_eq. split.
      * intros [= <-]. split; [apply zlen_nonneg|]. rewrite zlen_to_nat. by apply list_lookup_middle.
      * intros [Hi [H|[Hl H]]%lookup_app_Some].
        -- assert (by_sid d !! sid = Some i) by (by apply (sw_bimap _ Hw)). congruence.
        -- apply list_lookup_singleton_Some in H as [H _]. unfold zlen. f_equal. lia.
    + rewrite lookup_insert_ne by done. rewrite (sw_bimap _ Hw). split.
      * intros [Hi H]. split; [done|]. by apply lookup_app_l_Some.
      * intros [Hi [H|[Hl H]]%lookup_app_Some]; [done|]. apply list_lookup_singleton_Some in H as [_ <-]. done.
  - by exists [sid].
  - done.
  - apply lookup_insert_eq.
  - intros s [H|H%list_elem_of_singleton]%elem_of_app; auto.
Qed.

Lemma seed_wf d sid : sid_dict_wf d -> sid_dict_wf (seed d sid).
Proof.
  intros Hw. pose proof (assign_index_spec d sid Hw) as H. unfold seed. destruct (assign_index d sid) as [d' i].
  destruct H as (Hw' & _). split; [apply Hw'|]. cbn. pose proof (zlen_nonneg (by_id d')). lia.
Qed.

Definition small_wf (d : RuntimeSmallDicts) : Prop := sid_dict_wf (predicates d) /\ sid_dict_wf (datatypes d).

Lemma from_seeded_wf ps ds : small_wf (from_seeded_sids ps ds).
Proof.
  assert (forall l d, sid_dict_wf d -> sid_dict_wf (foldl seed d l)) as H.
  { intros l. induction l as [|s l IH]; intros d Hd; [done|]. apply IH, seed_wf, Hd. }
  split; apply H, sid_dict_new_wf.
Qed.

Definition small_extends (d d' : RuntimeSmallDicts) : Prop :=
  by_id (predicates d) `prefix_of` by_id (predicates d') /\ by_id (datatypes d) `prefix_of` by_id (datatypes d') /\
  persisted_len (predicates d') = persisted_len (predicates d) /\
  persisted_len (datatypes d') = persisted_len (datatypes d).

#[export] Instance small_extends_preorder : PreOrder small_extends.
Proof.
  split; [done|]. intros a b c (A1 & A2 & A3 & A4) (B1 & B2 & B3 & B4).
  split_and!; [by etrans|by etrans|congruence..].
Qed.

Lemma small_listed d sid :
  sid_dict_wf d -> sid ∈ by_id d <-> is_Some (by_sid d !! sid).
Proof.
  intros Hw. split.
  - intros [i Hi]%list_elem_of_lookup. exists (Z.of_nat i). apply (sw_bimap _ Hw). rewrite Nat2Z.id. split; [lia|done].
  - intros [i [_ Hi]%(sw_bimap _ Hw)]. by eapply list_elem_of_lookup_2.
Qed.

Lemma prefix_elem {A} (x : A) l k : l `prefix_of` k -> x ∈ l -> x ∈ k.
Proof. intros [r ->] H. apply elem_of_app. by left. Qed.

Lemma populate_small_spec `{VL : ValueLib} fl d :
  small_wf d ->
  let d' := populate_small d fl in
  small_wf d' /\ small_extends d d' /\
  forall f, f ∈ fl -> f_p f ∈ by_id (predicates d') /\ f_dt f ∈ by_id (datatypes d').
Proof.
  revert d. induction fl as [|f fl IH]; intros d [Hp Hd]; cbn [populate_small foldl].
  { split_and!; [done|reflexivity|]. intros f Hf. by apply elem_of_nil in Hf. }
  pose proof (assign_index_spec (predicates d) (f_p f) Hp) as H1.
  pose proof (assign_index_spec (datatypes d) (f_dt f) Hd) as H2.
  unfold assign_or_lookup_datatype, assign_or_lookup_predicate.
  destruct (assign_index (predicates d) (f_p f)) as [p i]. cbn [fst predicates datatypes].
  destruct (assign_index (datatypes d) (f_dt f)) as [q j]. cbn [fst predicates datatypes].
  destruct H1 as (P1 & P2 & P3 & P4 & _), H2 as (Q1 & Q2 & Q3 & Q4 & _).
  specialize (IH (mkSmallDicts p q) (conj P1 Q1)). cbv zeta in IH. unfold populate_small in IH.
  unfold assign_or_lookup_datatype, assign_or_lookup_predicate in IH.
  destruct IH as (I1 & I2 & I3). split_and!; [done| |].
  - etrans; [|exact I2]. by split_and!.
  - intros g [->|Hg]%elem_of_cons; [|by apply I3]. destruct I2 as (E1 & E2 & _). cbn in E1, E2. split.
    + apply (prefix_elem _ _ _ E1), small_listed; [done|by eexists].
    + apply (prefix_elem _ _ _ E2), small_listed; [done|by eexists].
Qed.

(** ** Properties *)

Section properties.
Context `{VL : ValueLib}.

(** The subjects and strings of a flake. *)
Definition subjects_of (f : Flake) : list Sid :=
  f_s f :: match f_o f with Ref s => [s] | _ => [] end.
Definition strings_of (f : Flake) : list str :=
  match f_o f with String s | Json s => [s] | _ => [] end.

Lemma covers_elim d f : covers d f ->
  (forall s, s ∈ subjects_of f -> knows_subject d s) /\
  (forall s, s ∈ strings_of f -> is_Some (bi_find (dn_strings d) s)).
Proof.
  unfold covers, subjects_of, strings_of. intros [H1 H2]. split.
  - intros s [->|Hs]%elem_of_cons; [done|]. destruct (f_o f); try by apply elem_of_nil in Hs.
    apply list_elem_of_singleton in Hs as ->. done.
  - intros s Hs. destruct (f_o f); try by apply elem_of_nil in Hs.
    all: apply list_elem_of_singleton in Hs as ->; done.
Qed.

Lemma subject_bijection d ns s id :
  nd_wf d -> in_u 16 ns -> find_subject d ns s = Some id <-> in_u 64 id /\ resolve_subject d id = Some (ns, s).
Proof.
  intros Hw Hn. rewrite (nw_find _ Hw) by done. split.
  - intros (i & Hi & ->). assert (in_u 48 (ns_watermark d ns + 1 + Z.of_nat i)) as Hl.
    { pose proof (nw_fits _ Hw ns Hn) as Hf. pose proof (ns_watermark_nonneg d ns Hw).
      unfold ns_next, zlen in Hf. apply lookup_lt_Some in Hi. unfold in_u. lia. }
    split; [by apply subject_id_parts|]. apply resolve_subject_iff; eauto.
  - intros [Hid Hr]. destruct (subject_id_eta id Hid) as (H1 & H2 & E).
    assert (ns_code id = ns) as En.
    { unfold resolve_subject in Hr. destruct (ns_code id =? NS_OVERFLOW).
      - destruct (above_watermark _ _ _) as [x|]; [|done]. by injection Hr.
      - destruct (nd_entries d !! _) as [l|]; [|done]. cbn [mbind option_bind] in Hr.
        destruct (above_watermark _ _ _) as [x|]; [|done]. by injection Hr. }
    rewrite E, En in Hr. rewrite En in E. apply resolve_subject_iff in Hr as (i & Hi & El); [|done..].
    exists i. split; [done|]. by rewrite <- El.
Qed.

Lemma subject_above_mark d s id :
  dn_wf d -> sid_u16 s -> find_subject (dn_subjects d) (namespace_code s) (name s) = Some id ->
  watermark_for_ns (dn_subjects d) (namespace_code s) < local_id id.
Proof.
  intros Hw Hs Hf. pose proof (dw_subjects _ Hw) as Hn. apply (nw_find _ Hn) in Hf as (i & Hi & ->); [|done].
  assert (in_u 48 (ns_watermark (dn_subjects d) (namespace_code s) + 1 + Z.of_nat i)) as Hl.
  { pose proof (nw_fits _ Hn _ Hs) as H. pose proof (ns_watermark_nonneg _ (namespace_code s) Hn).
    unfold ns_next, zlen in H. apply lookup_lt_Some in Hi. unfold in_u. lia. }
  destruct (subject_id_parts _ _ Hs Hl) as (_ & -> & _). unfold watermark_for_ns, ns_watermark.
  rewrite (dw_base _ Hw). change (1 - 1) with 0. case_match; lia.
Qed.

(** Every subject and string of the flake has an id in [d] that leads back to it
    and lies above the watermarks of [marks]. *)
Definition ids_above (marks d : DictNovelty) (f : Flake) : Prop :=
  (forall s, s ∈ subjects_of f -> exists id,
    find_subject (dn_subjects d) (namespace_code s) (name s) = Some id /\
    resolve_subject (dn_subjects d) id = Some (namespace_code s, name s) /\
    watermark_for_ns (dn_subjects marks) (namespace_code s) < local_id id) /\
  (forall s, s ∈ strings_of f -> exists id,
    bi_find (dn_strings d) s = Some id /\ bi_resolve (dn_strings d) id = Some s /\
    dn_string_watermark marks < id < 2 ^ 32).

Lemma covered_ids d f : dn_wf d -> flake_sids_ok f -> covers d f -> ids_above d d f.
Proof.
  intros Hw [Hs1 Hs2] Hc. destruct (covers_elim d f Hc) as [H1 H2]. split.
  - intros s Hs. destruct (H1 s Hs) as [id Hid]. assert (sid_u16 s) as Hs16.
    { unfold subjects_of in Hs. apply elem_of_cons in Hs as [->|Hs]; [done|].
      destruct (f_o f); try by apply elem_of_nil in Hs. apply list_elem_of_singleton in Hs as ->. done. }
    exists id. split_and!; [done| |by apply subject_above_mark].
    apply (subject_bijection (dn_subjects d)) in Hid as [_ ?]; [done|apply Hw|done].
  - intros s Hs. destruct (H2 s Hs) as [id Hid]. pose proof (dw_strings _ Hw) as Hb.
    exists id. apply (bw_find _ _ Hb) in Hid as Hres. split_and!; [done..| |];
      apply bi_resolve_iff in Hres as (i & Hi & ->); try apply Hb; [pose proof (dw_mark _ Hw); lia|].
    pose proof (bw_fits _ _ Hb) as Hfit. pose proof (bw_next _ _ Hb) as Hn. unfold bi_len, zlen in Hn.
    apply lookup_lt_Some in Hi. lia.
Qed.

Lemma watermark_extends d d' ns :
  dn_wf d -> dn_wf d' -> dn_extends d d' -> watermark_for_ns (dn_subjects d') ns = watermark_for_ns (dn_subjects d) ns.
Proof.
  intros Hw Hw' ((_ & H & _) & _ & _). specialize (H ns). unfold watermark_for_ns. unfold ns_watermark in H.
  rewrite (dw_base _ Hw), (dw_base _ Hw') in H. exact H.
Qed.

Lemma ids_above_extends d d' f : dn_wf d -> dn_wf d' -> dn_extends d d' -> ids_above d' d' f -> ids_above d d' f.
Proof.
  intros Hw Hw' He [H1 H2]. split; intros s Hs.
  - destruct (H1 s Hs) as (id & ? & ? & ?). exists id. by rewrite <- (watermark_extends d d').
  - destruct (H2 s Hs) as (id & ? & ? & ?). exists id. destruct He as (_ & _ & <-). done.
Qed.

(** C34: The dictionaries of the novelty layer never mix up ids.  Populating
    them from any batch of flakes succeeds while 48-bit subject ids and 32-bit
    string ids last; afterwards every subject, referenced subject and string of
    the batch has an id that resolves back to it, the id lies above the
    watermark of the persisted dictionary, no two entries share an id, and
    every id handed out before is unchanged. *)
Theorem novelty_dictionaries (d : DictNovelty) (fl : list Flake) :
  dn_wf d -> Forall flake_sids_ok fl -> dict_room d (2 * zlen fl) ->
  exists d', populate_from_flakes d fl = Some d' /\ dn_wf d' /\ dn_extends d d' /\
  forall f, f ∈ fl ->
    (forall s, s ∈ subjects_of f -> exists id,
      find_subject (dn_subjects d') (namespace_code s) (name s) = Some id /\
      resolve_subject (dn_subjects d') id = Some (namespace_code s, name s) /\
      watermark_for_ns (dn_subjects d') (namespace_code s) < local_id id) /\
    (forall s, s ∈ strings_of f -> exists id,
      bi_find (dn_strings d') s = Some id /\ bi_resolve (dn_strings d') id = Some s /\
      dn_string_watermark d' < id < 2 ^ 32).
Proof.
  intros Hw Ho Hr. destruct (populate_flakes_spec fl d 0 Hw Ho ltac:(lia) Hr) as (d' & E & Hw' & He & Hc & _).
  exists d'. split_and!; [done..|]. intros f Hf. rewrite Forall_forall in Hc, Ho. by apply covered_ids; auto.
Qed.

(** Runtime ids: a predicate or datatype of a populated batch keeps one id for
    the life of the dictionaries, and the id leads back to it, as long as the
    counts stay within 32 and 16 bits. *)
Lemma runtime_ids_stable (d : RuntimeSmallDicts) (fl : list Flake) f :
  small_wf d -> f ∈ fl ->
  let d' := populate_small d fl in
  zlen (by_id (predicates d')) <= 2 ^ 32 -> zlen (by_id (datatypes d')) <= 2 ^ 16 ->
  (exists p, predicate_id d' (f_p f) = Some p /\ predicate_sid d' p = Some (f_p f)) /\
  (exists t, datatype_id d' (f_dt f) = Some t /\ datatype_sid d' t = Some (f_dt f)) /\
  (forall s i, predicate_id d s = Some i -> predicate_id d' s = Some i).
Proof.
  intros Hw Hf d' Hp Hd. destruct (populate_small_spec fl d Hw) as ([Wp Wd] & (E1 & E2 & _) & Hin).
  fold d' in Wp, Wd, E1, E2, Hin. destruct (Hin f Hf) as [Hip Hid].
  apply small_listed in Hip as [i Hi]; [|done]. apply small_listed in Hid as [j Hj]; [|done].
  apply (sw_bimap _ Wp) in Hi as Hi'. apply (sw_bimap _ Wd) in Hj as Hj'. destruct Hi' as [Hi0 Hi'], Hj' as [Hj0 Hj'].
  pose proof (lookup_lt_Some _ _ _ Hi') as Li. pose proof (lookup_lt_Some _ _ _ Hj') as Lj. unfold zlen in Hp, Hd.
  unfold predicate_id, datatype_id, predicate_sid, datatype_sid. rewrite Hi, Hj.
  cbn [fmap option_fmap option_map].
  assert (as_u 32 i = i) as Ai by (apply as_u_id; unfold in_u; lia).
  assert (as_u 16 (as_u 32 j) = j) as Aj by (rewrite (as_u_id 32) by (unfold in_u; lia); apply as_u_id; unfold in_u; lia).
  rewrite Ai, Aj. split; [by exists i|]. split; [by exists j|].
  intros s k Hk. destruct (by_sid (predicates d) !! s) as [k0|] eqn:Ek; [|done]. injection Hk as <-.
  destruct Hw as [Wp0 _]. apply (sw_bimap _ Wp0) in Ek as [Hk0 Ek]. eapply prefix_lookup_Some in Ek; [|exact E1].
  by rewrite (proj2 (sw_bimap _ Wp s k0)).
Qed.
End properties.

(** The namespace of overflow subjects is [OVERFLOW = 0xFFFE], not the reserved
    [NS_OVERFLOW = 0xFFFF]: one such subject makes the vectors grow to every
    namespace code, which the dedicated fields are there to avoid. *)
Lemma overflow_subject_resizes :
  zlen (nd_entries (nd_assign_or_lookup nd_new OVERFLOW [120]).1) = 0xFFFF /\
  nd_overflow_entries (nd_assign_or_lookup nd_new OVERFLOW [120]).1 = [].
Proof. by vm_compute. Qed.

(** A local id that does not fit 48 bits is cut off in a release build; its
    subject id is that of another local id. *)
Lemma wide_local_id_aliases : subject_id_new 3 (2 ^ 48 + 5) = subject_id_new 3 5.
Proof. by vm_compute. Qed.
