(* ===== verification/Snapshot.v ===== *)
(** * Ledger snapshots

    Models [LedgerSnapshot] of [fluree-db-core/src/db.rs]: the namespace tables,
    split mode, graph registry and watermarks of an indexed ledger, IRI encoding
    and decoding, and the envelope deltas commits apply to it.  Statistics,
    schema, annotation-arena pointers, range provider, content store and caches
    are carried by the code without being read by these operations and are left
    out.  An operation on [&mut self] returns the snapshot it leaves behind
    together with its outcome. *)

From stdpp Require Import base list numbers gmap.
From Stdlib Require Import ZArith Lia.
From S2P Require Import Prelude Bytes Vocab Cmp Value Envelope PrefixTrie IriSplit NsCodes GraphRegistry.
From S2P Require Import Dicts.

Local Open Scope Z_scope.

(** The messages of [Error::invalid_index]; an error of a split is none. *)
Inductive SnapshotError :=
| RegistrySeed (e : RegistryError)
| GraphIriUnencodable (iri : str) (g_id : Z)
| SidCollision (prev_g_id g_id : Z) (sid : Sid)
| SplitModeConflict (commit_t : Z) (mode current : NsSplitMode)
| NsCodeConflict (code : Z) (existing prefix : str)
| NsPrefixConflict (prefix : str) (existing_code code : Z)
| SplitFailed (e : NsAllocError).

Record LedgerSnapshotMetadata := mkSnapshotMeta {
  meta_ledger_id : str;
  meta_t : Z;
  meta_base_t : Z;
  meta_namespace_codes : gmap Z str;
  meta_ns_split_mode : NsSplitMode;
  meta_subject_watermarks : list Z;
  meta_string_watermark : Z;
  meta_graph_iris : list str;
  meta_has_annotations : bool;
  meta_had_annotation_arena : bool;
}.

Record LedgerSnapshot := mkSnapshot {
  sn_ledger_id : str;
  sn_t : Z;
  sn_base_t : Z;
  sn_namespace_codes : gmap Z str;
  sn_namespace_reverse : gmap str Z;
  sn_ns_split_mode : NsSplitMode;
  sn_subject_watermarks : list Z;
  sn_string_watermark : Z;
  sn_graph_registry : GraphRegistry;
  sn_has_annotations : bool;
  sn_had_annotation_arena : bool;
}.

Definition sn_with_ledger_id (ledger_id : str) (s : LedgerSnapshot) : LedgerSnapshot :=
  mkSnapshot ledger_id (sn_t s) (sn_base_t s) (sn_namespace_codes s) (sn_namespace_reverse s) (sn_ns_split_mode s)
    (sn_subject_watermarks s) (sn_string_watermark s) (sn_graph_registry s) (sn_has_annotations s)
    (sn_had_annotation_arena s).
Definition sn_with_namespaces (codes : gmap Z str) (reverse : gmap str Z) (s : LedgerSnapshot) : LedgerSnapshot :=
  mkSnapshot (sn_ledger_id s) (sn_t s) (sn_base_t s) codes reverse (sn_ns_split_mode s)
    (sn_subject_watermarks s) (sn_string_watermark s) (sn_graph_registry s) (sn_has_annotations s)
    (sn_had_annotation_arena s).
Definition sn_with_mode (mode : NsSplitMode) (s : LedgerSnapshot) : LedgerSnapshot :=
  mkSnapshot (sn_ledger_id s) (sn_t s) (sn_base_t s) (sn_namespace_codes s) (sn_namespace_reverse s) mode
    (sn_subject_watermarks s) (sn_string_watermark s) (sn_graph_registry s) (sn_has_annotations s)
    (sn_had_annotation_arena s).
Definition sn_with_registry (r : GraphRegistry) (s : LedgerSnapshot) : LedgerSnapshot :=
  mkSnapshot (sn_ledger_id s) (sn_t s) (sn_base_t s) (sn_namespace_codes s) (sn_namespace_reverse s)
    (sn_ns_split_mode s) (sn_subject_watermarks s) (sn_string_watermark s) r (sn_has_annotations s)
    (sn_had_annotation_arena s).

Section snapshot.
Context `{NO : NsOrder}.

(** ** Construction *)

Definition build_namespace_reverse (codes : gmap Z str) : gmap str Z := reverse_map (ns_iter codes).

Definition genesis (ledger_id : str) : LedgerSnapshot :=
  mkSnapshot ledger_id 0 0 default_namespace_codes (build_namespace_reverse default_namespace_codes) MostGranular
    [] 0 (new_for_ledger ledger_id) false false.

Definition new_meta (meta : LedgerSnapshotMetadata) : outcome SnapshotError LedgerSnapshot :=
  graph_registry ←
    match meta_graph_iris meta with
    | [] => Ok (new_for_ledger (meta_ledger_id meta))
    | iris => map_err RegistrySeed (seed_from_root_iris iris)
    end;
  Ok (mkSnapshot (meta_ledger_id meta) (meta_t meta) (meta_base_t meta) (meta_namespace_codes meta)
        (build_namespace_reverse (meta_namespace_codes meta)) (meta_ns_split_mode meta)
        (meta_subject_watermarks meta) (meta_string_watermark meta) graph_registry (meta_has_annotations meta)
        (meta_had_annotation_arena meta)).

(** ** Encoding *)

Definition encode_iri_inner (s : LedgerSnapshot) (iri : str) : outcome SnapshotError Sid :=
  '(canonical_prefix, canonical_suffix) ← map_err SplitFailed (canonical_split iri (sn_ns_split_mode s));
  match sn_namespace_reverse s !! canonical_prefix with
  | Some code => Ok (mkSid code canonical_suffix)
  | None => Ok (mkSid EMPTY iri)
  end.

Definition sn_encode_iri (s : LedgerSnapshot) (iri : str) : outcome SnapshotError (option Sid) :=
  sid ← encode_iri_inner s iri; Ok (Some sid).

Definition encode_iri_strict (s : LedgerSnapshot) (iri : str) : outcome SnapshotError (option Sid) :=
  sid ← encode_iri_inner s iri; Ok (if namespace_code sid =? EMPTY then None else Some sid).

Definition sn_decode_sid (s : LedgerSnapshot) (sid : Sid) : option str :=
  if (namespace_code sid =? EMPTY) || (namespace_code sid =? OVERFLOW) then Some (name sid)
  else prefix ← sn_namespace_codes s !! namespace_code sid; Some (prefix ++ name sid).

Fixpoint reverse_graph_loop (s : LedgerSnapshot) (m : gmap Sid Z) (entries : list (Z * str)) :
    outcome SnapshotError (gmap Sid Z) :=
  match entries with
  | [] => Ok m
  | (g_id, iri) :: entries =>
      if g_id =? 0 then reverse_graph_loop s m entries
      else
        sid ← sn_encode_iri s iri ≫= ok_or (GraphIriUnencodable iri g_id);
        match m !! sid with
        | Some prev_g_id => Err (SidCollision prev_g_id g_id sid)
        | None => reverse_graph_loop s (<[sid := g_id]> m) entries
        end
  end.

Definition build_reverse_graph (s : LedgerSnapshot) : outcome SnapshotError (gmap Sid Z) :=
  reverse_graph_loop s ∅ (iter_entries (sn_graph_registry s)).

(** ** Namespaces *)

Definition is_user_code (code : Z) : bool := (USER_START <=? code) && (code <? OVERFLOW).

Definition has_user_namespace_codes (s : LedgerSnapshot) : bool :=
  existsb (fun e => is_user_code e.1) (ns_iter (sn_namespace_codes s)).

#[export] Instance NsSplitMode_eq_dec : EqDecision NsSplitMode.
Proof. solve_decision. Defined.

Definition set_ns_split_mode (s : LedgerSnapshot) (mode : NsSplitMode) (commit_t : Z) :
    LedgerSnapshot * outcome SnapshotError unit :=
  if has_user_namespace_codes s && negb (bool_decide (sn_ns_split_mode s = mode))
  then (s, Err (SplitModeConflict commit_t mode (sn_ns_split_mode s)))
  else (sn_with_mode mode s, Ok tt).

Definition insert_namespace_code (s : LedgerSnapshot) (code : Z) (prefix : str) :
    LedgerSnapshot * outcome SnapshotError bool :=
  match sn_namespace_codes s !! code with
  | Some existing =>
      (s, if bool_decide (existing = prefix) then Ok false else Err (NsCodeConflict code existing prefix))
  | None =>
      match sn_namespace_reverse s !! prefix with
      | Some existing_code =>
          (s, if existing_code =? code then Ok false else Err (NsPrefixConflict prefix existing_code code))
      | None =>
          (sn_with_namespaces (<[code := prefix]> (sn_namespace_codes s))
             (<[prefix := code]> (sn_namespace_reverse s)) s, Ok true)
      end
  end.

(** The namespace loop of [apply_envelope_deltas]: each entry is checked and
    inserted as by [insert_namespace_code]. *)
Fixpoint merge_namespaces (s : LedgerSnapshot) (entries : list (Z * str)) :
    LedgerSnapshot * outcome SnapshotError unit :=
  match entries with
  | [] => (s, Ok tt)
  | (code, prefix) :: entries =>
      match insert_namespace_code s code prefix with
      | (s, Ok _) => merge_namespaces s entries
      | (s, Err e) => (s, Err e)
      | (s, Panic) => (s, Panic)
      end
  end.

Definition apply_envelope_deltas (s : LedgerSnapshot) (ns_delta : gmap Z str) (graph_iris : list str) :
    LedgerSnapshot * outcome SnapshotError unit :=
  match merge_namespaces s (ns_iter ns_delta) with
  | (s, Ok _) =>
      match apply_delta (sn_graph_registry s) graph_iris with
      | Some (r, _) => (sn_with_registry r s, Ok tt)
      | None => (s, Panic)
      end
  | (s, Err e) => (s, Err e)
  | (s, Panic) => (s, Panic)
  end.

(** ** The invariant *)

Record snapshot_wf (s : LedgerSnapshot) : Prop := {
  so_bimap p c : sn_namespace_reverse s !! p = Some c <-> sn_namespace_codes s !! c = Some p;
  so_empty : sn_namespace_codes s !! EMPTY = Some [];
  so_overflow : sn_namespace_codes s !! OVERFLOW = None;
  so_registry : registry_wf (sn_graph_registry s);
}.

(** Nothing known is forgotten: namespaces and graphs keep their codes. *)
Definition snapshot_extends (s s' : LedgerSnapshot) : Prop :=
  sn_namespace_codes s ⊆ sn_namespace_codes s' /\ registry_extends (sn_graph_registry s) (sn_graph_registry s').

#[export] Instance snapshot_extends_preorder : PreOrder snapshot_extends.
Proof. split; [done|]. intros a b c [H1 H2] [H3 H4]. split; [by etrans|by etrans]. Qed.

Lemma insert_code_spec s c p :
  snapshot_wf s -> c <> OVERFLOW ->
  let '(s', r) := insert_namespace_code s c p in
  snapshot_wf s' /\ sn_namespace_codes s ⊆ sn_namespace_codes s' /\
  s' = sn_with_namespaces (sn_namespace_codes s') (sn_namespace_reverse s') s /\
  (forall k q, sn_namespace_codes s' !! k = Some q -> sn_namespace_codes s !! k = Some q \/ (k, q) = (c, p)) /\
  match r with
  | Ok _ => sn_namespace_codes s' !! c = Some p
  | Err _ => s' = s /\ exists k q, sn_namespace_codes s !! k = Some q /\ ~ (k = c <-> q = p)
  | Panic => False
  end.
Proof.
  intros Hw Hc. unfold insert_namespace_code. assert (s = sn_with_namespaces (sn_namespace_codes s) (sn_namespace_reverse s) s)
    as Es by (by destruct s).
  destruct (sn_namespace_codes s !! c) as [e|] eqn:E.
  { split_and!; [done..|auto|]. case_bool_decide as He; [by subst|]. split; [done|]. exists c, e. split; [done|]. tauto. }
  destruct (sn_namespace_reverse s !! p) as [k|] eqn:Ep.
  { apply (so_bimap _ Hw) in Ep as Hk. split_and!; [done..|auto|]. destruct (Z.eqb_spec k c) as [->|Hne]; [congruence|].
    split; [done|]. exists k, p. split; [done|]. tauto. }
  split_and!; cbn.
  - split; cbn.
    + intros q k. destruct (decide (q = p)) as [->|Hq], (decide (k = c)) as [->|Hk].
      * by rewrite !lookup_insert_eq.
      * rewrite lookup_insert_eq, lookup_insert_ne by done. rewrite <- (so_bimap _ Hw), Ep. split; congruence.
      * rewrite lookup_insert_eq, lookup_insert_ne by done. rewrite (so_bimap _ Hw), E. split; congruence.
      * rewrite !lookup_insert_ne by done. apply Hw.
    + rewrite lookup_insert_ne; [apply (so_empty _ Hw)|]. intros Hce. rewrite Hce, (so_empty _ Hw) in E. done.
    + rewrite lookup_insert_ne by done. apply Hw.
    + apply Hw.
  - by apply insert_subseteq.
  - done.
  - intros k q. destruct (decide (k = c)) as [->|Hk].
    + rewrite lookup_insert_eq. intros [= ->]. by right.
    + rewrite lookup_insert_ne by done. by left.
  - apply lookup_insert_eq.
Qed.

Lemma sn_with_namespaces_twice c r c' r' s :
  sn_with_namespaces c r (sn_with_namespaces c' r' s) = sn_with_namespaces c r s.
Proof. done. Qed.

Lemma merge_namespaces_spec entries s :
  snapshot_wf s -> Forall (fun e => e.1 <> OVERFLOW) entries ->
  let '(s', r) := merge_namespaces s entries in
  snapshot_wf s' /\ sn_namespace_codes s ⊆ sn_namespace_codes s' /\
  s' = sn_with_namespaces (sn_namespace_codes s') (sn_namespace_reverse s') s /\
  (forall k q, sn_namespace_codes s' !! k = Some q -> sn_namespace_codes s !! k = Some q \/ (k, q) ∈ entries) /\
  match r with
  | Ok _ => forall k q, (k, q) ∈ entries -> sn_namespace_codes s' !! k = Some q
  | Err _ => exists c p k q, (c, p) ∈ entries /\ sn_namespace_codes s' !! k = Some q /\ ~ (k = c <-> q = p)
  | Panic => False
  end.
Proof.
  revert s. induction entries as [|[c p] entries IH]; intros s Hw Ho; cbn [merge_namespaces].
  { split_and!; [done..|by destruct s|auto|]. intros k q Hin. by apply elem_of_nil in Hin. }
  apply Forall_cons in Ho as [Hc Ho]. pose proof (insert_code_spec s c p Hw Hc) as H1.
  destruct (insert_namespace_code s c p) as [s1 [b|e|]]; destruct H1 as (W1 & S1 & E1 & F1 & R1).
  - specialize (IH s1 W1 Ho). destruct (merge_namespaces s1 entries) as [s' r]. destruct IH as (W & S & E & F & R).
    split_and!; [done|by etrans| | |].
    + rewrite E, E1 at 1. by rewrite sn_with_namespaces_twice.
    + intros k q [[?|Hkq]%F1|?]%F; [by left|right..]; apply elem_of_cons; auto.
    + destruct r; [|destruct R as (c' & p' & k & q & ? & ?); exists c', p', k, q; split; [apply elem_of_cons; auto|done]|done].
      intros k q [[= -> ->]|Hin]%elem_of_cons; [by eapply lookup_weaken|by apply R].
  - destruct R1 as (-> & k & q & Hk & Hn). split_and!; [done..|auto|]. exists c, p, k, q. split; [apply elem_of_cons; auto|done].
  - done.
Qed.

Definition delta_clean (d : gmap Z str) : Prop := d !! OVERFLOW = None.
Definition graph_room (s : LedgerSnapshot) (iris : list str) : Prop :=
  next_id (sn_graph_registry s) + zlen (new_iris (sn_graph_registry s) iris) < 2 ^ 16.

(** ** IRIs and graphs *)

(** A subject id leads back to the IRI it was made from. *)
Lemma encode_decode s iri sid : snapshot_wf s -> encode_iri_inner s iri = Ok sid -> sn_decode_sid s sid = Some iri.
Proof.
  intros Hw. unfold encode_iri_inner. destruct (canonical_split iri (sn_ns_split_mode s)) as [[p q]| |] eqn:E; [|done..].
  apply canonical_split_app in E. cbn [map_err mbind outcome_bind].
  destruct (sn_namespace_reverse s !! p) as [c|] eqn:Ep; intros [= <-]; [|done].
  apply (so_bimap _ Hw) in Ep. unfold sn_decode_sid. cbn [namespace_code name].
  destruct (Z.eqb_spec c EMPTY) as [->|Hc]; cbn [orb].
  { rewrite (so_empty _ Hw) in Ep. injection Ep as <-. by rewrite <- E. }
  destruct (Z.eqb_spec c OVERFLOW) as [->|Ho]; [by rewrite (so_overflow _ Hw) in Ep|].
  rewrite Ep. cbn. by rewrite E.
Qed.

Lemma encode_inj s a b sid :
  snapshot_wf s -> encode_iri_inner s a = Ok sid -> encode_iri_inner s b = Ok sid -> a = b.
Proof. intros Hw Ha%encode_decode Hb%encode_decode; [|done..]. congruence. Qed.

(** The IRIs the split handles in a mode. *)
Definition iri_ok (mode : NsSplitMode) (iri : str) : Prop :=
  utf8_valid iri = true /\ (mode = MostGranular \/ ~ query_before_scheme iri).

Definition graphs_ok (s : LedgerSnapshot) : Prop :=
  forall iri g, graph_id_for_iri (sn_graph_registry s) iri = Some g -> iri_ok (sn_ns_split_mode s) iri.
End snapshot.

Section laws.
Context `{NO : NsOrder, NL : !NsOrderLaws}.

Lemma encode_total s iri : iri_ok (sn_ns_split_mode s) iri -> exists sid, encode_iri_inner s iri = Ok sid.
Proof.
  intros [Hu Hm]. destruct (canonical_split_total iri (sn_ns_split_mode s) Hu Hm) as (p & q & E & _).
  unfold encode_iri_inner. rewrite E. cbn. case_match; eauto.
Qed.

Lemma envelope_deltas_spec s d iris :
  snapshot_wf s -> delta_clean d -> graph_room s iris ->
  let '(s', r) := apply_envelope_deltas s d iris in
  snapshot_wf s' /\ snapshot_extends s s' /\ sn_ledger_id s' = sn_ledger_id s /\ sn_t s' = sn_t s /\
  sn_ns_split_mode s' = sn_ns_split_mode s /\
  (forall k q, sn_namespace_codes s' !! k = Some q -> sn_namespace_codes s !! k = Some q \/ d !! k = Some q) /\
  match r with
  | Ok _ => d ⊆ sn_namespace_codes s' /\
      fst <$> apply_delta (sn_graph_registry s) iris = Some (sn_graph_registry s') /\
      (forall iri, iri ∈ iris -> is_Some (graph_id_for_iri (sn_graph_registry s') iri)) /\
      (forall iri g, graph_id_for_iri (sn_graph_registry s') iri = Some g ->
        graph_id_for_iri (sn_graph_registry s) iri = Some g \/ iri ∈ iris)
  | Err _ => sn_graph_registry s' = sn_graph_registry s /\
      exists c p k q, d !! c = Some p /\ sn_namespace_codes s' !! k = Some q /\ ~ (k = c <-> q = p)
  | Panic => False
  end.
Proof.
  intros Hw Hd Hr. unfold apply_envelope_deltas.
  assert (forall c p, (c, p) ∈ ns_iter d <-> d !! c = Some p) as Hin.
  { intros c p. by rewrite (ns_iter_perm d), elem_of_map_to_list. }
  pose proof (merge_namespaces_spec (ns_iter d) s Hw) as H.
  destruct (merge_namespaces s (ns_iter d)) as [s1 r1]. destruct H as (W & S & E & F & R).
  { apply Forall_forall. intros [c p] Hc%Hin. cbn. intros ->. unfold delta_clean in Hd. congruence. }
  assert (sn_graph_registry s1 = sn_graph_registry s) as Eg by (by rewrite E).
  assert (sn_ledger_id s1 = sn_ledger_id s /\ sn_t s1 = sn_t s /\ sn_ns_split_mode s1 = sn_ns_split_mode s) as (E1 & E2 & E3)
    by (rewrite E; split_and!; reflexivity).
  destruct r1 as [[]|e|]; [| |done].
  - destruct (apply_delta_spec (sn_graph_registry s1) iris (so_registry _ W)) as (g & a & Ea & Wg & Xg & _ & _ & _ & A & B & _).
    { by rewrite Eg. }
    rewrite Ea. rewrite Eg in *. split_and!; [|split; [done|exact Xg]|done..| | |by rewrite Ea|done|done].
    + split; [apply (so_bimap _ W)|apply (so_empty _ W)|apply (so_overflow _ W)|exact Wg].
    + intros k q [?|?%Hin]%F; auto.
    + apply map_subseteq_spec. intros c p Hc. by apply R, Hin.
  - destruct R as (c & p & k & q & Hc%Hin & Hk & Hn).
    split_and!; [done|split; [done|by rewrite Eg]|done..| |done|by exists c, p, k, q].
    intros k' q' [?|?%Hin]%F; auto.
Qed.

Lemma reverse_graph_spec entries s m :
  snapshot_wf s -> NoDup entries.*2 -> (forall g iri, (g, iri) ∈ entries -> 0 < g /\ iri_ok (sn_ns_split_mode s) iri) ->
  (forall sid iri, is_Some (m !! sid) -> iri ∈ entries.*2 -> encode_iri_inner s iri <> Ok sid) ->
  exists m', reverse_graph_loop s m entries = Ok m' /\
  forall sid g, m' !! sid = Some g <->
    m !! sid = Some g \/ exists iri, (g, iri) ∈ entries /\ encode_iri_inner s iri = Ok sid.
Proof.
  intros Hw. revert m. induction entries as [|[g iri] entries IH]; intros m Hnd Hok Hdis.
  { exists m. split; [done|]. intros sid g. split; [auto|]. intros [?|(iri & ?%elem_of_nil & _)]; done. }
  apply NoDup_cons in Hnd as [Hni Hnd]. cbn [snd] in *.
  destruct (Hok g iri) as [Hg Hi]; [apply elem_of_cons; auto|]. destruct (encode_total s iri Hi) as [sid Es].
  cbn [reverse_graph_loop]. rewrite (proj2 (Z.eqb_neq g 0)) by lia. unfold sn_encode_iri. rewrite Es.
  cbn [mbind outcome_bind ok_or]. destruct (m !! sid) as [pg|] eqn:Em.
  { exfalso. apply (Hdis sid iri); [by eexists|apply elem_of_cons; auto|done]. }
  destruct (IH (<[sid := g]> m)) as (m' & E' & Hm'); [done| | |].
  { intros g' i' Hin. apply Hok, elem_of_cons. auto. }
  { intros sid' i' Hs Hin Ei. destruct (decide (sid' = sid)) as [->|Hne].
    - rewrite (encode_inj s i' iri sid Hw Ei Es) in Hin. done.
    - rewrite lookup_insert_ne in Hs by done. apply (Hdis sid' i'); [done|apply elem_of_cons; auto|done]. }
  exists m'. split; [done|]. intros sid' g'. rewrite Hm'. split.
  - intros [Hs|(i' & Hin & Ei)]; [|right; exists i'; split; [apply elem_of_cons; auto|done]].
    destruct (decide (sid' = sid)) as [->|Hne]; simplify_map_eq; [right; exists iri; split; [apply elem_of_cons; auto|done]|auto].
  - intros [Hs|(i' & [[= -> ->]|Hin]%elem_of_cons & Ei)].
    + left. rewrite lookup_insert_ne; [done|]. intros ->. congruence.
    + rewrite Es in Ei. injection Ei as ->. left. apply lookup_insert_eq.
    + right. eauto.
Qed.

Lemma registry_positive r iri g : registry_wf r -> graph_id_for_iri r iri = Some g -> 0 < g.
Proof.
  intros Hw H. apply (rw_bimap _ Hw) in H as [Hg Hl]. destruct (Z.eq_dec g 0) as [->|]; [|lia].
  change (Z.to_nat 0) with 0%nat in Hl. by rewrite (rw_default _ Hw) in Hl.
Qed.

Lemma build_reverse_graph_spec s :
  snapshot_wf s -> graphs_ok s ->
  exists m, build_reverse_graph s = Ok m /\
  forall sid g, m !! sid = Some g <->
    exists iri, graph_id_for_iri (sn_graph_registry s) iri = Some g /\ encode_iri_inner s iri = Ok sid.
Proof.
  intros Hw Hok. destruct (iter_entries_spec _ (so_registry _ Hw)) as [Hnd Hin].
  destruct (reverse_graph_spec (iter_entries (sn_graph_registry s)) s ∅ Hw Hnd) as (m & E & Hm).
  - intros g iri H%Hin. split; [by eapply registry_positive; [apply Hw|]|by eapply Hok].
  - intros sid iri [? ?]. by rewrite lookup_empty in *.
  - exists m. split; [done|]. intros sid g. rewrite Hm, lookup_empty. split.
    + intros [?|(iri & ?%Hin & ?)]; [done|eauto].
    + intros (iri & ?%Hin & ?). eauto.
Qed.

(** Every registered graph can be routed to.  On a well-formed snapshot
    whose graph IRIs can be split, [build_reverse_graph] never reports a missing
    prefix or a collision: it maps the subject id of each registered graph to
    that graph's id, maps nothing else, and every id in it decodes to the IRI
    registered for its graph. *)
Theorem graphs_routable (s : LedgerSnapshot) :
  snapshot_wf s -> graphs_ok s ->
  exists m, build_reverse_graph s = Ok m /\
  (forall iri g, graph_id_for_iri (sn_graph_registry s) iri = Some g ->
    exists sid, encode_iri_inner s iri = Ok sid /\ m !! sid = Some g) /\
  (forall sid g, m !! sid = Some g ->
    exists iri, iri_for_graph_id (sn_graph_registry s) g = Some iri /\ sn_decode_sid s sid = Some iri).
Proof.
  intros Hw Hok. destruct (build_reverse_graph_spec s Hw Hok) as (m & E & Hm). exists m. split_and!; [done| |].
  - intros iri g Hg. destruct (encode_total s iri) as [sid Es]; [by eapply Hok|]. exists sid.
    split; [done|]. apply Hm. eauto.
  - intros sid g (iri & Hg & Es)%Hm. exists iri. split; [|by apply encode_decode].
    apply (rw_bimap _ (so_registry _ Hw)) in Hg as [_ Hl]. unfold iri_for_graph_id. by rewrite Hl.
Qed.

Lemma default_codes_injective : injective default_namespace_codes.
Proof.
  apply (entries_injective _ (map_to_list default_namespace_codes)); [done|].
  apply (bool_decide_eq_true _). by vm_compute.
Qed.

Lemma reverse_bimap codes p c :
  injective codes -> build_namespace_reverse codes !! p = Some c <-> codes !! c = Some p.
Proof.
  intros Hi. unfold build_namespace_reverse. pose proof (ns_iter_perm codes) as Hp.
  rewrite reverse_map_spec by (by apply (entries_injective codes)). by rewrite Hp, elem_of_map_to_list.
Qed.

Lemma genesis_wf ledger_id : snapshot_wf (genesis ledger_id).
Proof.
  split; cbn [genesis sn_namespace_codes sn_namespace_reverse sn_graph_registry].
  - intros p c. apply reverse_bimap, default_codes_injective.
  - by vm_compute.
  - by vm_compute.
  - apply new_for_ledger_wf.
Qed.

(** A root gives a well-formed snapshot when its namespace table is injective,
    reserves the two special codes, and its graph list is one the indexer
    writes. *)
Lemma new_meta_wf meta s :
  injective (meta_namespace_codes meta) -> meta_namespace_codes meta !! EMPTY = Some [] ->
  meta_namespace_codes meta !! OVERFLOW = None -> zlen (meta_graph_iris meta) + 1 < 2 ^ 16 ->
  new_meta meta = Ok s -> snapshot_wf s.
Proof.
  intros Hi He Ho Hlen. unfold new_meta. pose proof (seed_from_root_iris_spec (meta_graph_iris meta) Hlen) as Hs.
  destruct (meta_graph_iris meta) as [|x l] eqn:Eg.
  - intros [= <-]. split; cbn; [intros; by apply reverse_bimap|done|done|apply new_for_ledger_wf].
  - destruct (seed_from_root_iris (x :: l)) as [r| |]; [|done..]. intros [= <-].
    split; cbn; [intros; by apply reverse_bimap|done|done|apply Hs].
Qed.

Lemma has_user_codes_spec s :
  has_user_namespace_codes s = true <-> exists c p, sn_namespace_codes s !! c = Some p /\ is_user_code c = true.
Proof.
  unfold has_user_namespace_codes. rewrite existsb_exists. split.
  - intros ([c p] & Hin & Hc). apply list_elem_of_In in Hin. exists c, p. split; [|done].
    by rewrite (ns_iter_perm _), elem_of_map_to_list in Hin.
  - intros (c & p & Hl & Hc). exists (c, p). split; [|done]. apply list_elem_of_In.
    by rewrite (ns_iter_perm _), elem_of_map_to_list.
Qed.

(** A split mode is accepted until user namespaces exist, and then only if it
    is the one in force. *)
Lemma set_mode_spec s mode t :
  let '(s', r) := set_ns_split_mode s mode t in
  match r with
  | Ok _ => s' = sn_with_mode mode s /\ (has_user_namespace_codes s = true -> sn_ns_split_mode s = mode)
  | Err _ => s' = s /\ has_user_namespace_codes s = true /\ sn_ns_split_mode s <> mode
  | Panic => False
  end.
Proof.
  unfold set_ns_split_mode. destruct (has_user_namespace_codes s); cbn [andb]; [|done].
  case_bool_decide; cbn [negb]; [done|]. by split_and!.
Qed.
End laws.
