(* ===== verification/FactState.v ===== *)
(** * Current-state fact index of novelty

    Models src/fluree-db-novelty/src/fact_state.rs: per graph, the latest
    operation known for each fact identity [(s, p, o, dt, m)].  The persistent
    ordered map is an association list searched with the key order. *)

From S2P Require Import Prelude Bytes Cmp Value Plain Flake.
From stdpp Require Import base list numbers.
From Stdlib Require Import ZArith Lia.

Local Open Scope Z_scope.

Section fact_state.
Context `{VL : ValueLib}.

(** [(Sid, Sid, FlakeValue, Sid, Option<FlakeMeta>)] with the derived order. *)
Record FactKey := mkKey {
  k_s : Sid; k_p : Sid; k_o : FlakeValue; k_dt : Sid; k_m : option FlakeMeta;
}.

Definition key_of (f : Flake) : FactKey := mkKey (f_s f) (f_p f) (f_o f) (f_dt f) (f_m f).

Definition key_cmp (a b : FactKey) : comparison :=
  then_with (sid_cmp (k_s a) (k_s b)) (then_with (sid_cmp (k_p a) (k_p b))
  (then_with (value_cmp (k_o a) (k_o b)) (then_with (sid_cmp (k_dt a) (k_dt b))
  (option_cmp meta_cmp (k_m a) (k_m b))))).

Definition key_eqb (a b : FactKey) : bool := match key_cmp a b with Eq => true | _ => false end.

(** [OrdMap<FactKey, (i64, bool)>] *)
Definition FactMap : Type := list (FactKey * (Z * bool)).

Fixpoint om_get (m : FactMap) (k : FactKey) : option (Z * bool) :=
  match m with
  | [] => None
  | (k', v) :: m => if key_eqb k' k then Some v else om_get m k
  end.

Fixpoint om_insert (m : FactMap) (k : FactKey) (v : Z * bool) : FactMap :=
  match m with
  | [] => [(k, v)]
  | (k', v') :: m => if key_eqb k' k then (k', v) :: m else (k', v') :: om_insert m k v
  end.

Record NoveltyFactState := mkFacts { fs_graphs : list (option FactMap) }.

Definition facts_new : NoveltyFactState := mkFacts [].

(** [vec.resize_with(idx + 1, || None)] when [idx >= vec.len()] *)
Definition grow {A} (l : list (option A)) (idx : nat) : list (option A) :=
  l ++ replicate (S idx - length l) None.

(** [slot.get(g).and_then(Option::as_ref)] *)
Definition slot {A} (l : list (option A)) (g : Z) : option A := l !! Z.to_nat g ≫= id.

Definition fs_lookup (fs : NoveltyFactState) (g : Z) (k : FactKey) : option (Z * bool) :=
  m ← slot (fs_graphs fs) g; om_get m k.

Definition is_asserted (fs : NoveltyFactState) (g : Z) (flake : Flake) : bool :=
  match fs_lookup fs g (key_of flake) with Some (_, op) => op | None => false end.

(** Does an operation replace the recorded one? *)
Definition wins (flake : Flake) (cur : option (Z * bool)) : bool :=
  match cur with
  | Some (cur_t, cur_op) =>
      (cur_t <? f_t flake) || ((f_t flake =? cur_t) && cur_op && negb (f_op flake))
  | None => true
  end.

Definition record (fs : NoveltyFactState) (g : Z) (flake : Flake) : NoveltyFactState :=
  let idx := Z.to_nat g in
  let graphs := grow (fs_graphs fs) idx in
  let m := default [] (graphs !! idx ≫= id) in
  let key := key_of flake in
  let m := if wins flake (om_get m key) then om_insert m key (f_t flake, f_op flake) else m in
  mkFacts (<[idx := Some m]> graphs).

Definition record_all (fs : NoveltyFactState) (l : list (Z * Flake)) : NoveltyFactState :=
  fold_left (fun fs '(g, f) => record fs g f) l fs.

(** ** Specification

    The resolved operation of an identity is the greatest in the order "later
    transaction, then retraction over assertion". *)
Definition rank_cmp (a b : Z * bool) : comparison :=
  then_with (Z.compare a.1 b.1) (bool_cmp (negb a.2) (negb b.2)).

Definition rank_max (a b : option (Z * bool)) : option (Z * bool) :=
  match a, b with
  | Some x, Some y => if rank_cmp x y is Lt then Some y else Some x
  | Some x, None => Some x
  | None, b => b
  end.

Definition op_of (f : Flake) : Z * bool := (f_t f, f_op f).

Fixpoint resolve (k : FactKey) (g : Z) (l : list (Z * Flake)) : option (Z * bool) :=
  match l with
  | [] => None
  | (g', f) :: l =>
      rank_max (if (g' =? g) && key_eqb (key_of f) k then Some (op_of f) else None) (resolve k g l)
  end.
End fact_state.

Section fact_state_proofs.
Context `{VL : ValueLib, VLL : !ValueLibLaws}.

Definition key_ordinary (k : FactKey) : Prop := ordinary (k_o k).

#[export] Instance key_cmp_laws : CmpLaws key_ordinary key_cmp.
Proof.
  assert (forall m : option FlakeMeta, option_all everything m) by by intros [].
  assert (forall B (key : FactKey -> B) c, CmpLaws everything c ->
    CmpLaws key_ordinary (fun a b => c (key a) (key b))) as Hk.
  { intros. by apply (cmp_laws_key _ everything key). }
  unfold key_cmp. apply cmp_laws_then; [by apply (Hk _ k_s), _|].
  apply cmp_laws_then; [by apply (Hk _ k_p), _|].
  apply cmp_laws_then; [by apply (cmp_laws_key key_ordinary ordinary k_o), _|].
  apply cmp_laws_then; [by apply (Hk _ k_dt), _|].
  by apply (cmp_laws_key key_ordinary (option_all everything) k_m), _.
Qed.

Lemma key_eqb_true a b : key_eqb a b = true <-> key_cmp a b = Eq.
Proof. unfold key_eqb. by destruct (key_cmp a b). Qed.

Lemma key_eqb_refl k : key_ordinary k -> key_eqb k k = true.
Proof. intros Hk. by apply key_eqb_true, (cmp_refl (P := key_ordinary)). Qed.

(** Equal keys are interchangeable. *)
Lemma key_eqb_trans a b c :
  key_ordinary a -> key_ordinary b -> key_ordinary c ->
  key_eqb a b = true -> key_eqb a c = key_eqb b c.
Proof.
  intros Ha Hb Hc Hab%key_eqb_true. unfold key_eqb.
  by rewrite (cmp_eq_l (P := key_ordinary) (c := key_cmp) a b c).
Qed.

Lemma key_eqb_sym a b : key_ordinary a -> key_ordinary b -> key_eqb a b = key_eqb b a.
Proof.
  intros Ha Hb. unfold key_eqb. rewrite (cmp_sym (P := key_ordinary) (c := key_cmp) a b) by done.
  by destruct (key_cmp a b).
Qed.

Definition map_ordinary (m : FactMap) : Prop := Forall (fun '(k, _) => key_ordinary k) m.

Lemma om_get_congr m k k' :
  map_ordinary m -> key_ordinary k -> key_ordinary k' -> key_eqb k k' = true ->
  om_get m k = om_get m k'.
Proof.
  intros Hm Hk Hk' E. induction Hm as [|[k0 v] m Hk0 Hm IH]; [done|]. cbn [om_get].
  rewrite (key_eqb_sym k0 k), (key_eqb_sym k0 k'), (key_eqb_trans k k' k0) by done. by rewrite IH.
Qed.

Lemma om_insert_ordinary m k v : map_ordinary m -> key_ordinary k -> map_ordinary (om_insert m k v).
Proof.
  intros Hm Hk. induction Hm as [|[k0 v0] m Hk0 Hm IH]; cbn [om_insert]; [by repeat constructor|].
  destruct (key_eqb k0 k); by constructor.
Qed.

Lemma om_get_insert m k v k' :
  map_ordinary m -> key_ordinary k -> key_ordinary k' ->
  om_get (om_insert m k v) k' = if key_eqb k k' then Some v else om_get m k'.
Proof.
  intros Hm Hk Hk'. induction Hm as [|[k0 v0] m Hk0 Hm IH]; cbn [om_insert om_get]; [done|].
  destruct (key_eqb k0 k) eqn:E; cbn [om_get].
  - rewrite (key_eqb_trans k0 k k') by done. by destruct (key_eqb k k').
  - rewrite IH. destruct (key_eqb k k') eqn:E'; [|done].
    rewrite (key_eqb_sym k0 k') by done.
    rewrite <- (key_eqb_trans k k' k0), (key_eqb_sym k k0) by done. by rewrite E.
Qed.

(** ** The ranking *)

#[export] Instance rank_cmp_laws : CmpLaws everything rank_cmp.
Proof.
  unfold rank_cmp. apply cmp_laws_then.
  - by apply (cmp_laws_key everything everything fst), _.
  - by apply (cmp_laws_key everything everything (fun a : Z * bool => negb a.2)), _.
Qed.

Lemma rank_cmp_Eq a b : rank_cmp a b = Eq -> a = b.
Proof.
  destruct a as [t o], b as [t' o']. unfold rank_cmp. simpl.
  intros [->%Z.compare_eq H2%bool_cmp_Eq]%then_with_Eq. f_equal. by destruct o, o'.
Qed.

Lemma wins_rank f t op :
  wins f (Some (t, op)) = match rank_cmp (t, op) (op_of f) with Lt => true | _ => false end.
Proof.
  unfold wins, rank_cmp, op_of. simpl. destruct (Z.compare_spec t (f_t f)) as [E|E|E].
  - subst. rewrite Z.ltb_irrefl, Z.eqb_refl. by destruct op, (f_op f).
  - by rewrite (proj2 (Z.ltb_lt _ _) E).
  - rewrite (proj2 (Z.ltb_ge _ _)) by lia. rewrite (proj2 (Z.eqb_neq _ _)) by lia. done.
Qed.

Lemma rank_max_None_r a : rank_max a None = a.
Proof. by destruct a. Qed.

Lemma rank_max_comm a b : rank_max a b = rank_max b a.
Proof.
  destruct a as [x|], b as [y|]; simpl; try done.
  rewrite (cmp_sym (P := everything) (c := rank_cmp) x y) by done.
  destruct (rank_cmp x y) eqn:E; simpl; try done. by apply rank_cmp_Eq in E as ->.
Qed.

Lemma rank_max_assoc a b c : rank_max a (rank_max b c) = rank_max (rank_max a b) c.
Proof.
  destruct a as [x|], b as [y|], c as [z|]; simpl; try done; [|by destruct (rank_cmp x y)].
  assert (forall u v, rank_cmp u v = Gt -> rank_cmp v u = Lt) as Hgt.
  { intros u v. by apply (cmp_gt_lt (P := everything) (c := rank_cmp)). }
  assert (forall u v, rank_cmp u v = Lt -> rank_cmp v u = Gt) as Hlt.
  { intros u v. by apply (cmp_gt_lt (P := everything) (c := rank_cmp)). }
  assert (forall u, rank_cmp u u = Eq) as Hrefl.
  { intros u. by apply (cmp_refl (P := everything) (c := rank_cmp)). }
  destruct (rank_cmp x y) eqn:Exy; destruct (rank_cmp y z) eqn:Eyz; simpl;
    repeat match goal with H : rank_cmp ?u ?v = Eq |- _ => apply rank_cmp_Eq in H; subst end;
    rewrite ?Exy, ?Eyz, ?Hrefl; try done.
  - by rewrite (cmp_lt_trans (P := everything) (c := rank_cmp) x y z).
  - assert (rank_cmp z x = Lt) as H%Hlt.
    { apply (cmp_lt_trans (P := everything) (c := rank_cmp) z y x); auto. }
    by rewrite H.
Qed.

(** ** Recording is a maximum *)

Lemma slot_grow {A} (l : list (option A)) idx g : slot (grow l idx) g = slot l g.
Proof.
  unfold slot, grow. destruct (decide (Z.to_nat g < length l)%nat).
  - by rewrite lookup_app_l.
  - rewrite lookup_app_r by lia. rewrite (lookup_ge_None_2 l) by lia.
    destruct (replicate _ _ !! _) eqn:E; [|done].
    by apply lookup_replicate in E as [-> _].
Qed.

Lemma length_grow {A} (l : list (option A)) idx : (idx < length (grow l idx))%nat.
Proof. unfold grow. rewrite length_app, length_replicate. lia. Qed.

Lemma slot_insert {A} (l : list (option A)) g g' x :
  0 <= g -> 0 <= g' -> (Z.to_nat g < length l)%nat ->
  slot (<[Z.to_nat g := x]> l) g' = if g =? g' then x else slot l g'.
Proof.
  intros Hg Hg' Hlen. unfold slot. destruct (Z.eqb_spec g g') as [<-|Hne].
  - by rewrite list_lookup_insert_eq.
  - by rewrite list_lookup_insert_ne by lia.
Qed.

Definition facts_ordinary (fs : NoveltyFactState) : Prop :=
  forall g m, slot (fs_graphs fs) g = Some m -> map_ordinary m.

Lemma record_lookup fs g f g' k :
  facts_ordinary fs -> 0 <= g -> 0 <= g' -> flake_ordinary f -> key_ordinary k ->
  fs_lookup (record fs g f) g' k =
    rank_max (fs_lookup fs g' k)
      (if (g =? g') && key_eqb (key_of f) k then Some (op_of f) else None).
Proof.
  intros Hfs Hg Hg' Hf Hk. unfold fs_lookup, record. cbn [fs_graphs].
  rewrite slot_insert by (done || apply length_grow). rewrite slot_grow.
  destruct (Z.eqb_spec g g') as [<-|]; simpl; [|by rewrite rank_max_None_r].
  change (grow (fs_graphs fs) (Z.to_nat g) !! Z.to_nat g ≫= id) with
    (slot (grow (fs_graphs fs) (Z.to_nat g)) g). rewrite slot_grow.
  assert (key_ordinary (key_of f)) as Hkf by done.
  assert (forall m, map_ordinary m ->
    om_get (if wins f (om_get m (key_of f)) then om_insert m (key_of f) (f_t f, f_op f) else m) k =
    rank_max (om_get m k) (if key_eqb (key_of f) k then Some (op_of f) else None)) as Hcore.
  { intros m Hm. destruct (key_eqb (key_of f) k) eqn:E.
    - rewrite <- (om_get_congr m (key_of f) k) by done.
      destruct (om_get m (key_of f)) as [[ct co]|] eqn:Ec; cbn [rank_max].
      + rewrite wins_rank. destruct (rank_cmp (ct, co) (op_of f));
          rewrite ?om_get_insert by done; rewrite ?E; try done;
          by rewrite <- (om_get_congr m (key_of f) k), Ec.
      + simpl. by rewrite om_get_insert, E.
    - rewrite rank_max_None_r. destruct (wins f _); [|done]. by rewrite om_get_insert, E. }
  destruct (slot (fs_graphs fs) g) as [m|] eqn:Em; simpl.
  - apply Hcore. by eapply Hfs.
  - apply (Hcore []). constructor.
Qed.

Lemma record_ordinary fs g f :
  facts_ordinary fs -> 0 <= g -> flake_ordinary f -> facts_ordinary (record fs g f).
Proof.
  intros Hfs Hg Hf g' m. unfold record. cbn [fs_graphs]. unfold slot.
  destruct (decide (Z.to_nat g = Z.to_nat g')) as [E|E].
  - rewrite <- E, list_lookup_insert_eq by apply length_grow. intros [= <-].
    assert (map_ordinary (default [] (grow (fs_graphs fs) (Z.to_nat g) !! Z.to_nat g ≫= id))) as Hm.
    { change (grow (fs_graphs fs) (Z.to_nat g) !! Z.to_nat g ≫= id) with
        (slot (grow (fs_graphs fs) (Z.to_nat g)) g). rewrite slot_grow.
      destruct (slot (fs_graphs fs) g) eqn:Es; [by eapply Hfs|constructor]. }
    destruct (wins _ _); [by apply om_insert_ordinary|done].
  - rewrite list_lookup_insert_ne by done. intros Hm. apply (Hfs g').
    rewrite <- (slot_grow _ (Z.to_nat g)). exact Hm.
Qed.

Definition entries_ordinary (l : list (Z * Flake)) : Prop :=
  Forall (fun '(g, f) => 0 <= g /\ flake_ordinary f) l.

Lemma record_all_lookup l fs g k :
  entries_ordinary l -> facts_ordinary fs -> 0 <= g -> key_ordinary k ->
  fs_lookup (record_all fs l) g k = rank_max (fs_lookup fs g k) (resolve k g l).
Proof.
  intros Hl. revert fs. induction Hl as [|[g' f] l [Hg' Hf] Hl IH]; intros fs Hfs Hg Hk; simpl.
  - by rewrite rank_max_None_r.
  - rewrite IH by (done || by apply record_ordinary).
    rewrite record_lookup by done. by rewrite rank_max_assoc.
Qed.

Lemma resolve_permutation k g l l' : l ≡ₚ l' -> resolve k g l = resolve k g l'.
Proof.
  induction 1 as [|[g0 f0] l l' H IH|[g1 f1] [g2 f2] l|]; simpl; try congruence.
  rewrite !rank_max_assoc. f_equal. apply rank_max_comm.
Qed.

Lemma facts_new_ordinary : facts_ordinary facts_new.
Proof. intros g m. unfold slot, facts_new. cbn [fs_graphs]. by rewrite lookup_nil. Qed.

(** The greatest operation, spelt out. *)
Lemma resolve_spec k g l r :
  resolve k g l = Some r ->
  (exists f, (g, f) ∈ l /\ key_eqb (key_of f) k = true /\ op_of f = r) /\
  (forall f, (g, f) ∈ l -> key_eqb (key_of f) k = true -> rank_cmp (op_of f) r <> Gt).
Proof.
  assert (forall x y, rank_cmp x y = Lt -> rank_cmp y x <> Gt -> False) as Hanti.
  { intros x y Hl Hg. by rewrite (cmp_sym (P := everything) (c := rank_cmp) x y), Hl in Hg. }
  revert r. induction l as [|[g' f'] l IH]; intros r; [done|]. cbn [resolve].
  destruct ((g' =? g) && key_eqb (key_of f') k) eqn:E.
  - apply andb_true_iff in E as [->%Z.eqb_eq Ek].
    destruct (resolve k g l) as [r'|] eqn:Er; cbn [rank_max].
    + destruct (IH r' eq_refl) as [(f & Hf & Hkf & Hop) Hmax].
      destruct (rank_cmp (op_of f') r') eqn:Ec; intros [= <-]; split.
      all: try (exists f'; split; [left|done]).
      all: try (exists f; split; [by right|done]).
      all: intros f2 [[= ->]|Hf2]%elem_of_cons Hk2;
        rewrite ?(cmp_refl (P := everything) (c := rank_cmp)), ?Ec by done; try done.
      * apply rank_cmp_Eq in Ec as ->. by apply Hmax.
      * by apply Hmax.
      * apply (cmp_le_trans (P := everything) (c := rank_cmp) _ r'); try done; [by apply Hmax|].
        by rewrite (cmp_sym (P := everything) (c := rank_cmp) (op_of f') r'), Ec.
    + intros [= <-]. split; [exists f'; split; [left|done]|].
      intros f2 [[= ->]|Hf2]%elem_of_cons Hk2;
        [by rewrite (cmp_refl (P := everything) (c := rank_cmp))|].
      exfalso. clear -Er Hf2 Hk2. induction l as [|[g1 f1] l IHl]; [by apply elem_of_nil in Hf2|].
      cbn [resolve] in Er. destruct (resolve k g l); [by destruct (_ && _); simpl in Er; repeat case_match|].
      rewrite rank_max_None_r in Er.
      apply elem_of_cons in Hf2 as [[= <- <-]|Hf2]; [by rewrite Z.eqb_refl, Hk2 in Er|by apply IHl].
  - cbn [rank_max]. intros Hr. destruct (IH r Hr) as [(f & Hf & Hkf & Hop) Hmax]. split.
    + exists f. split; [by right|done].
    + intros f2 [[= -> ->]|Hf2]%elem_of_cons Hk2; [by rewrite Z.eqb_refl, Hk2 in E|by apply Hmax].
Qed.

(** ** Properties *)

(** The fact index does not depend on the order in which operations reach
    it: after recording the same operations in any order, every fact has the
    same state, and that state is the operation with the latest transaction
    among those recorded for the fact, a retraction winning over an assertion
    of the same transaction. *)
Theorem record_order_independent (l l' : list (Z * Flake)) (g : Z) (f : Flake) :
  entries_ordinary l -> l ≡ₚ l' -> 0 <= g -> flake_ordinary f ->
  is_asserted (record_all facts_new l') g f = is_asserted (record_all facts_new l) g f /\
  fs_lookup (record_all facts_new l) g (key_of f) = resolve (key_of f) g l /\
  (forall t op, fs_lookup (record_all facts_new l) g (key_of f) = Some (t, op) ->
    forall f', (g, f') ∈ l -> key_eqb (key_of f') (key_of f) = true ->
      f_t f' <= t /\ (f_t f' = t -> f_op f' = false -> op = false)).
Proof.
  intros Hl Hp Hg Hf.
  assert (entries_ordinary l') as Hl' by (by unfold entries_ordinary; rewrite <- Hp).
  assert (forall l0, entries_ordinary l0 ->
    fs_lookup (record_all facts_new l0) g (key_of f) = resolve (key_of f) g l0) as Hlk.
  { intros l0 H0. rewrite record_all_lookup by (done || apply facts_new_ordinary).
    unfold fs_lookup, facts_new, slot. cbn [fs_graphs]. by rewrite lookup_nil. }
  split; [|split; [by apply Hlk|]].
  - unfold is_asserted. rewrite !Hlk by done. by rewrite (resolve_permutation _ _ _ _ Hp).
  - intros t op Hr f' Hf' Hk. rewrite Hlk in Hr by done. apply resolve_spec in Hr as [_ Hmax].
    specialize (Hmax f' Hf' Hk). unfold rank_cmp, op_of in Hmax. simpl in Hmax.
    destruct (Z.compare_spec (f_t f') t) as [E|E|E]; simpl in Hmax; [|split; lia|done].
    split; [lia|]. intros _ Hop. rewrite Hop in Hmax. by destruct op.
Qed.
End fact_state_proofs.

Lemma record_order_independent_witness :
  let a := sample_flake (Long 3) 1 in
  let l := [(0, a); (0, retract_at a 2)] in
  let l' := [(0, retract_at a 2); (0, a)] in
  is_asserted (record_all facts_new l') 0 a = is_asserted (record_all facts_new l) 0 a /\
  fs_lookup (record_all facts_new l) 0 (key_of a) = resolve (key_of a) 0 l /\
  (forall t op, fs_lookup (record_all facts_new l) 0 (key_of a) = Some (t, op) ->
    forall f', (0, f') ∈ l -> key_eqb (key_of f') (key_of a) = true ->
      f_t f' <= t /\ (f_t f' = t -> f_op f' = false -> op = false)).
Proof.
  apply record_order_independent;
    [repeat constructor; done|apply perm_swap|done|done].
Defined.

(** Two facts that differ by their language are one identity once both have a
    list index: the second assertion counts as a duplicate of the first. *)
Definition lang_item (l : str) : Flake :=
  flake_new (mkSid 5 [97]) (mkSid 6 [98]) (String [120]) (mkSid 3 [108]) 1 true
    (Some (mkMeta (Some l) (Some 0))).

Lemma lang_items_conflated :
  is_asserted (record facts_new 0 (lang_item [101; 110])) 0 (lang_item [102; 114]) = true /\
  flake_eq (lang_item [101; 110]) (lang_item [102; 114]) = false.
Proof. by vm_compute. Qed.
