(* ===== verification/Segment.v ===== *)
(** * Novelty segments and their merged reads

    Models the read side of src/fluree-db-novelty/src/lib.rs: the packed
    [FlakeId], the immutable [Segment] with its four sorted index orders, range
    search and zone-map pruning inside a segment, and the k-way merge over a
    graph's segments.

    [sort_unstable_by] is the interface [SortLib]: on a total preorder it
    returns a sorted permutation, in an unspecified order among equals.  A
    [BinaryHeap] is a list whose [pop] takes the greatest element (here the
    least head, the code's order being reversed).  Segment ids, which only key
    caches of other components, are left out. *)

From S2P Require Import Prelude Bytes Cmp Value Plain Flake.
From stdpp Require Import base list numbers sorting.
From Stdlib Require Import ZArith Lia.

Local Open Scope Z_scope.

(** ** Flake ids *)
Definition LOCAL_BITS : Z := 24.
Definition SEG_BITS : Z := 24.
Definition LOCAL_MASK : Z := Z.shiftl 1 LOCAL_BITS - 1.
Definition SEG_MASK : Z := Z.shiftl 1 SEG_BITS - 1.
Definition MAX_SEGMENT_FLAKES : Z := LOCAL_MASK + 1.
Definition MAX_SEGMENTS : Z := SEG_MASK + 1.

(** [u64] arithmetic: shifts drop the bits past 64. *)
Definition fid_pack (g seg local : Z) : Z :=
  Z.lor (Z.lor (as_u 64 (Z.shiftl g (SEG_BITS + LOCAL_BITS))) (as_u 64 (Z.shiftl seg LOCAL_BITS))) local.
Definition fid_graph (id : Z) : Z := Z.shiftr id (SEG_BITS + LOCAL_BITS).
Definition fid_seg (id : Z) : Z := Z.land (Z.shiftr id LOCAL_BITS) SEG_MASK.
Definition fid_local (id : Z) : Z := Z.land id LOCAL_MASK.

Lemma fid_pack_eq g seg local :
  in_u 16 g -> in_u 24 seg -> in_u 24 local ->
  fid_pack g seg local = local + seg * 2 ^ 24 + g * 2 ^ 48.
Proof.
  intros [? ?] [? ?] [? ?]. unfold fid_pack, SEG_BITS, LOCAL_BITS.
  change (24 + 24) with 48.
  rewrite !as_u_id by (unfold in_u; rewrite Z.shiftl_mul_pow2; lia).
  rewrite (Z.lor_comm (Z.shiftl g 48)), (Z.shiftl_mul_pow2 seg) by lia.
  rewrite lor_shiftl_add by lia.
  rewrite Z.lor_comm.
  replace (seg * 2 ^ 24 + g * 2 ^ 48) with (Z.shiftl (seg + g * 2 ^ 24) 24)
    by (rewrite Z.shiftl_mul_pow2; lia).
  rewrite lor_shiftl_add by lia. lia.
Qed.

Lemma fid_unpack g seg local :
  in_u 16 g -> in_u 24 seg -> in_u 24 local ->
  fid_graph (fid_pack g seg local) = g /\ fid_seg (fid_pack g seg local) = seg /\
  fid_local (fid_pack g seg local) = local.
Proof.
  intros Hg Hs Hl. rewrite fid_pack_eq by done. unfold in_u in *.
  unfold fid_graph, fid_seg, fid_local, SEG_MASK, LOCAL_MASK, SEG_BITS, LOCAL_BITS.
  change (Z.shiftl 1 24) with (2 ^ 24). change (24 + 24) with 48.
  rewrite !land_ones_mod, !Z.shiftr_div_pow2 by lia.
  assert ((local + seg * 2 ^ 24 + g * 2 ^ 48) / 2 ^ 24 = seg + g * 2 ^ 24) as ->.
  { symmetry. apply (Z.div_unique _ _ _ local); lia. }
  split; [|split].
  - symmetry. apply (Z.div_unique _ _ _ (local + seg * 2 ^ 24)); lia.
  - symmetry. apply (Z.mod_unique _ _ g); lia.
  - symmetry. apply (Z.mod_unique _ _ (seg + g * 2 ^ 24)); lia.
Qed.

(** ** Sorting *)
Class SortLib := sort_by : forall {A : Type}, (A -> A -> comparison) -> list A -> list A.

Definition cle {A} (c : A -> A -> comparison) (x y : A) : Prop := c x y <> Gt.

Class SortLaws `{SortLib} := {
  sort_by_perm {A} (P : A -> Prop) c l : CmpLaws P c -> Forall P l -> sort_by c l ≡ₚ l;
  sort_by_sorted {A} (P : A -> Prop) c l :
    CmpLaws P c -> Forall P l -> StronglySorted (cle c) (sort_by c l);
}.

(** ** Segments *)
Section segments.
Context `{VL : ValueLib, SL : SortLib}.

Record Segment := mkSegment {
  seg_flakes : list Flake;
  seg_spot : list nat;
  seg_psot : list nat;
  seg_post : list nat;
  seg_opst : list nat;
  seg_min_t : Z;
  seg_max_t : Z;
  seg_size : Z;
}.

(** Comparing two local indices by the flakes they stand for. *)
Definition cmp_at (index : IndexType) (flakes : list Flake) (a b : nat) : comparison :=
  match flakes !! a, flakes !! b with
  | Some x, Some y => compare index x y
  | _, _ => Eq
  end.

Definition order_by (index : IndexType) (flakes : list Flake) : list nat :=
  sort_by (cmp_at index flakes) (seq 0 (length flakes)).

Definition seg_build (flakes : list Flake) : Segment :=
  mkSegment flakes (order_by Spot flakes) (order_by Psot flakes) (order_by Post flakes)
    (order_by Opst flakes)
    (fold_left (fun m f => Z.min m (f_t f)) flakes i64_max)
    (fold_left (fun m f => Z.max m (f_t f)) flakes i64_min)
    (fold_left (fun n f => n + size_bytes f) flakes 0).

Definition seg_order (seg : Segment) (index : IndexType) : list nat :=
  match index with
  | Spot => seg_spot seg
  | Psot => seg_psot seg
  | Post => seg_post seg
  | Opst => seg_opst seg
  end.

(** [slice.partition_point(pred)] *)
Fixpoint partition_point {A} (pred : A -> bool) (l : list A) : nat :=
  match l with
  | [] => O
  | x :: l => if pred x then S (partition_point pred l) else O
  end.

Definition not_greater (c : comparison) : bool := match c with Gt => false | _ => true end.

(** [index.compare(&self.flakes[id], f) != Greater] *)
Definition at_most (seg : Segment) (index : IndexType) (f : Flake) (i : nat) : bool :=
  match seg_flakes seg !! i with Some x => not_greater (compare index x f) | None => false end.

Definition seg_range (seg : Segment) (index : IndexType) (first rhs : option Flake)
    (leftmost : bool) : list nat :=
  let ids := seg_order seg index in
  let start := if leftmost then O
               else match first with
                    | Some f => partition_point (at_most seg index f) ids
                    | None => O
                    end in
  let end_ := match rhs with
              | Some r => partition_point (at_most seg index r) ids
              | None => length ids
              end in
  if (end_ <=? start)%nat then [] else take (end_ - start) (drop start ids).

Definition may_overlap (seg : Segment) (index : IndexType) (first rhs : option Flake)
    (leftmost : bool) : bool :=
  let ids := seg_order seg index in
  match head ids, last ids with
  | Some lo, Some hi =>
      match seg_flakes seg !! lo, seg_flakes seg !! hi with
      | Some seg_min, Some seg_max =>
          let above := match rhs with
                       | Some r => negb (not_greater (compare index seg_min r))
                       | None => false
                       end in
          let below := if leftmost then false
                       else match first with
                            | Some f => not_greater (compare index seg_max f)
                            | None => false
                            end in
          negb above && negb below
      | _, _ => false
      end
  | _, _ => false
  end.

(** ** K-way merge *)
Record MergeStream := mkStream {
  ms_seg : nat;
  ms_order : list nat;
  ms_pos : nat;
  ms_flakes : list Flake;
}.

Record MergeHead := mkHead { mh_flake : Flake; mh_stream : nat; mh_seg : nat }.

Record GraphMergeIter := mkMerge {
  gm_g : Z;
  gm_index : IndexType;
  gm_streams : list MergeStream;
  gm_heap : list MergeHead;
}.

(** The heap pops the least head: smallest flake, older segment on ties. *)
Definition head_cmp (index : IndexType) (a b : MergeHead) : comparison :=
  then_with (compare index (mh_flake a) (mh_flake b)) (Nat.compare (mh_seg a) (mh_seg b)).

Fixpoint extract_min (index : IndexType) (best : MergeHead) (rest : list MergeHead)
    : MergeHead * list MergeHead :=
  match rest with
  | [] => (best, [])
  | h :: rest =>
      match head_cmp index h best with
      | Lt => let '(m, others) := extract_min index h rest in (m, best :: others)
      | _ => let '(m, others) := extract_min index best rest in (m, h :: others)
      end
  end.

Definition heap_pop (index : IndexType) (heap : list MergeHead)
    : option (MergeHead * list MergeHead) :=
  match heap with [] => None | h :: rest => Some (extract_min index h rest) end.

Definition stream_advance (st : MergeStream) : MergeStream :=
  mkStream (ms_seg st) (ms_order st) (S (ms_pos st)) (ms_flakes st).

(** The head pushed for a stream: the flake at its current position, if any. *)
Definition stream_head (s : nat) (st : MergeStream) : option MergeHead :=
  local ← ms_order st !! ms_pos st;
  f ← ms_flakes st !! local;
  Some (mkHead f s (ms_seg st)).

(** [Iterator::next].  An out-of-range index would panic; [merge_inv] excludes
    it, and the model ends the iteration there. *)
Definition merge_next (it : GraphMergeIter) : option ((Z * Flake) * GraphMergeIter) :=
  '(hd, heap) ← heap_pop (gm_index it) (gm_heap it);
  st ← gm_streams it !! mh_stream hd;
  local ← ms_order st !! ms_pos st;
  let st' := stream_advance st in
  let heap := match stream_head (mh_stream hd) st' with Some h => heap ++ [h] | None => heap end in
  let id := fid_pack (gm_g it) (Z.of_nat (ms_seg st)) (Z.of_nat local) in
  Some ((id, mh_flake hd),
        mkMerge (gm_g it) (gm_index it) (<[mh_stream hd := st']> (gm_streams it)) heap).

Fixpoint merge_collect (fuel : nat) (it : GraphMergeIter) : list (Z * Flake) :=
  match fuel with
  | O => []
  | S fuel =>
      match merge_next it with
      | Some (x, it) => x :: merge_collect fuel it
      | None => []
      end
  end.

(** ** Reads over the segments of one graph *)

(** [graph_merge]: the streams of the segments that overlap the range. *)
Fixpoint merge_streams (seg_idx : nat) (segs : list Segment) (index : IndexType)
    (first rhs : option Flake) (leftmost : bool) : list MergeStream :=
  match segs with
  | [] => []
  | seg :: segs =>
      let rest := merge_streams (S seg_idx) segs index first rhs leftmost in
      if negb (may_overlap seg index first rhs leftmost) then rest
      else match seg_range seg index first rhs leftmost with
           | [] => rest
           | order => mkStream seg_idx order 0 (seg_flakes seg) :: rest
           end
  end.

(** One head per stream, numbered by the stream's position. *)
Definition stream_heads (streams : list MergeStream) : list MergeHead :=
  omap id (imap stream_head streams).

Definition graph_merge (g : Z) (segs : list Segment) (index : IndexType)
    (first rhs : option Flake) (leftmost : bool) : GraphMergeIter :=
  let streams := merge_streams 0 segs index first rhs leftmost in
  mkMerge g index streams (stream_heads streams).

(** All ids and flakes a merge yields: enough fuel for every order entry. *)
Definition merge_all (it : GraphMergeIter) : list (Z * Flake) :=
  merge_collect (S (list_sum ((fun st => length (ms_order st)) <$> gm_streams it))) it.

Definition flakes_at (flakes : list Flake) (ids : list nat) : list Flake :=
  omap (fun i => flakes !! i) ids.

(** [read_flakes] and [read_ids], collected. *)
Definition read_flakes (g : Z) (segs : option (list Segment)) (index : IndexType)
    (first rhs : option Flake) (leftmost : bool) : list Flake :=
  match segs with
  | Some [seg] =>
      if may_overlap seg index first rhs leftmost
      then flakes_at (seg_flakes seg) (seg_range seg index first rhs leftmost) else []
  | Some ((_ :: _) as segs) => snd <$> merge_all (graph_merge g segs index first rhs leftmost)
  | _ => []
  end.

Definition read_ids (g : Z) (segs : option (list Segment)) (index : IndexType)
    (first rhs : option Flake) (leftmost : bool) : list Z :=
  match segs with
  | Some [seg] =>
      if may_overlap seg index first rhs leftmost
      then (fun local => fid_pack g 0 (Z.of_nat local)) <$> seg_range seg index first rhs leftmost
      else []
  | Some ((_ :: _) as segs) => fst <$> merge_all (graph_merge g segs index first rhs leftmost)
  | _ => []
  end.
End segments.

(** ** Sorted lists and partition points *)

Lemma partition_point_le {A} (p : A -> bool) l : (partition_point p l <= length l)%nat.
Proof. induction l as [|x l IH]; simpl; [done|]. destruct (p x); lia. Qed.

Lemma filter_none {A} (p : A -> bool) l : Forall (fun x => p x = false) l -> List.filter p l = [].
Proof. induction 1 as [|x l Hx Hl IH]; [done|]. simpl. by rewrite Hx. Qed.

Lemma filter_all {A} (p : A -> bool) l : Forall (fun x => p x = true) l -> List.filter p l = l.
Proof. induction 1 as [|x l Hx Hl IH]; [done|]. simpl. by rewrite Hx, IH. Qed.

(** On a sorted list a predicate closed downwards is true on a prefix. *)
Lemma partition_point_sorted {A} (R : A -> A -> Prop) (p : A -> bool) l :
  StronglySorted R l ->
  (forall x y, x ∈ l -> y ∈ l -> R x y -> p y = true -> p x = true) ->
  take (partition_point p l) l = List.filter p l /\
  drop (partition_point p l) l = List.filter (fun x => negb (p x)) l.
Proof.
  induction 1 as [|x l Hl IH Hx]; intros Hp; [done|]. simpl.
  destruct (p x) eqn:E; simpl.
  - destruct IH as [IH1 IH2]; [intros a b Ha Hb; apply Hp; by right|]. by rewrite IH1, IH2.
  - assert (Forall (fun y => p y = false) l) as Hf.
    { apply Forall_forall. intros y Hy. destruct (p y) eqn:Ey; [|done].
      rewrite Forall_forall in Hx. rewrite (Hp x y) in E; [done|left|by right|by apply Hx|done]. }
    rewrite filter_none by done. rewrite filter_all; [done|].
    eapply Forall_impl; [exact Hf|]. intros y Hy. simpl in Hy. by rewrite Hy.
Qed.

(** The slice between two partition points is the filter by both bounds. *)
Lemma partition_slice {A} (R : A -> A -> Prop) (p q : A -> bool) l :
  StronglySorted R l ->
  (forall x y, x ∈ l -> y ∈ l -> R x y -> p y = true -> p x = true) ->
  (forall x y, x ∈ l -> y ∈ l -> R x y -> q y = true -> q x = true) ->
  (if (partition_point q l <=? partition_point p l)%nat then []
   else take (partition_point q l - partition_point p l) (drop (partition_point p l) l)) =
  List.filter (fun x => negb (p x) && q x) l.
Proof.
  induction 1 as [|x l Hl IH Hx]; intros Hp Hq; [done|].
  assert (forall r, (forall a b, a ∈ x :: l -> b ∈ x :: l -> R a b -> r b = true -> r a = true) ->
    r x = false -> Forall (fun y => r y = false) l) as Hdown.
  { intros r Hr E. apply Forall_forall. intros y Hy. destruct (r y) eqn:Ey; [|done].
    rewrite Forall_forall in Hx. rewrite (Hr x y) in E; [done|left|by right|by apply Hx|done]. }
  cbn [partition_point List.filter].
  destruct (p x) eqn:Ep, (q x) eqn:Eq; cbn [negb andb].
  - cbn [drop Nat.sub Nat.leb]. apply IH; intros a b Ha Hb; [apply Hp|apply Hq]; by right.
  - simpl. rewrite filter_none; [done|]. eapply Forall_impl; [by apply (Hdown q)|].
    intros y Hy. simpl in Hy. by rewrite Hy, andb_false_r.
  - simpl. f_equal. destruct (partition_point_sorted R q l Hl) as [Ht _].
    { intros a b Ha Hb; apply Hq; by right. }
    rewrite Ht. apply Hdown in Ep; [|done]. clear -Ep. induction Ep as [|y l Hy Hl IH]; [done|].
    simpl. rewrite Hy. simpl. by rewrite IH.
  - simpl. rewrite filter_none; [done|]. eapply Forall_impl; [by apply (Hdown q)|].
    intros y Hy. simpl in Hy. by rewrite Hy, andb_false_r.
Qed.

Lemma partition_point_false {A} (l : list A) : partition_point (fun _ => false) l = O.
Proof. by destruct l. Qed.
Lemma partition_point_true {A} (l : list A) : partition_point (fun _ => true) l = length l.
Proof. induction l as [|x l IH]; simpl; congruence. Qed.

(** ** Index orders *)
Section segment_proofs.
Context `{VL : ValueLib, VLL : !ValueLibLaws, SL : SortLib, SLL : !SortLaws}.

Lemma flakes_at_cons flakes i f ids :
  flakes !! i = Some f -> flakes_at flakes (i :: ids) = f :: flakes_at flakes ids.
Proof. intros H. unfold flakes_at. cbn. by rewrite H. Qed.

Lemma flakes_at_seq flakes : flakes_at flakes (seq 0 (length flakes)) = flakes.
Proof.
  assert (forall pre l : list Flake, omap (fun i => (pre ++ l) !! i) (seq (length pre) (length l)) = l) as H.
  { intros pre l. revert pre. induction l as [|x l IH]; intros pre; [done|]. cbn.
    rewrite list_lookup_middle by done. f_equal.
    specialize (IH (pre ++ [x])). rewrite length_app, Nat.add_comm, <- (assoc_L _) in IH. exact IH. }
  apply (H []).
Qed.

Definition valid_ids (flakes : list Flake) (ids : list nat) : Prop :=
  Forall (fun i => is_Some (flakes !! i)) ids.

Lemma flakes_at_perm flakes ids :
  ids ≡ₚ seq 0 (length flakes) -> flakes_at flakes ids ≡ₚ flakes.
Proof.
  intros H. rewrite <- (flakes_at_seq flakes) at 2. unfold flakes_at. by rewrite H.
Qed.

Lemma valid_seq flakes : valid_ids flakes (seq 0 (length flakes)).
Proof. apply Forall_forall. intros i [_ Hi]%elem_of_seq. by apply lookup_lt_is_Some_2. Qed.

Lemma cmp_at_laws index flakes :
  Forall flake_ordinary flakes ->
  CmpLaws (fun i => is_Some (flakes !! i)) (cmp_at index flakes).
Proof.
  intros Hf.
  assert (forall i f, flakes !! i = Some f -> flake_ordinary f) as Ho.
  { intros i f. by apply Forall_lookup_1. }
  pose proof (comparator_laws index) as L. unfold cmp_at, compare.
  split; intros i j; [intros [a Ha] [b Hb]|intros k [a Ha] [b Hb] [c Hc]..];
    rewrite ?Ha, ?Hb, ?Hc.
  - apply (cmp_sym (P := flake_ordinary)); eauto.
  - apply (cmp_eq_l (P := flake_ordinary)); eauto.
  - apply (cmp_lt_trans (P := flake_ordinary)); eauto.
Qed.

Lemma flakes_at_sorted index flakes ids :
  valid_ids flakes ids -> StronglySorted (cle (cmp_at index flakes)) ids ->
  StronglySorted (cle (compare index)) (flakes_at flakes ids).
Proof.
  intros Hv. induction Hv as [|i ids [f Hf] Hv IH]; [constructor|].
  intros [Hs Hi]%StronglySorted_inv. rewrite (flakes_at_cons _ _ f) by done.
  constructor; [by apply IH|]. apply Forall_forall. intros g (j & Hj & Hg)%list_elem_of_omap.
  rewrite Forall_forall in Hi. specialize (Hi j Hj). unfold cle, cmp_at in Hi. by rewrite Hf, Hg in Hi.
Qed.

Lemma flakes_at_filter flakes (p : Flake -> bool) ids :
  valid_ids flakes ids ->
  flakes_at flakes (List.filter (fun i => from_option p false (flakes !! i)) ids) =
  List.filter p (flakes_at flakes ids).
Proof.
  induction 1 as [|i ids [f Hf] Hv IH]; [done|]. rewrite (flakes_at_cons _ _ f) by done.
  cbn [List.filter]. rewrite Hf. simpl. destruct (p f); [|done].
  rewrite (flakes_at_cons _ _ f) by done. by f_equal.
Qed.

(** ** Well-formed segments *)
Record seg_wf (seg : Segment) : Prop := {
  sw_ordinary : Forall flake_ordinary (seg_flakes seg);
  sw_perm index : seg_order seg index ≡ₚ seq 0 (length (seg_flakes seg));
  sw_sorted index : StronglySorted (cle (cmp_at index (seg_flakes seg))) (seg_order seg index);
  sw_min : forall f, f ∈ seg_flakes seg -> seg_min_t seg <= f_t f;
  sw_max : forall f, f ∈ seg_flakes seg -> f_t f <= seg_max_t seg;
  sw_size : seg_size seg = fold_left (fun n f => n + size_bytes f) (seg_flakes seg) 0;
}.

Lemma sw_valid seg index : seg_wf seg -> valid_ids (seg_flakes seg) (seg_order seg index).
Proof. intros H. unfold valid_ids. rewrite (sw_perm _ H index). apply valid_seq. Qed.

Lemma fold_min_le flakes m :
  fold_left (fun m f => Z.min m (f_t f)) flakes m <= m /\
  forall f, f ∈ flakes -> fold_left (fun m f => Z.min m (f_t f)) flakes m <= f_t f.
Proof.
  revert m. induction flakes as [|x l IH]; intros m; simpl.
  - split; [lia|]. by intros f ?%elem_of_nil.
  - destruct (IH (Z.min m (f_t x))) as [H1 H2]. split; [lia|].
    intros f [->|Hf]%elem_of_cons; [lia|by apply H2].
Qed.

Lemma fold_max_ge flakes m :
  m <= fold_left (fun m f => Z.max m (f_t f)) flakes m /\
  forall f, f ∈ flakes -> f_t f <= fold_left (fun m f => Z.max m (f_t f)) flakes m.
Proof.
  revert m. induction flakes as [|x l IH]; intros m; simpl.
  - split; [lia|]. by intros f ?%elem_of_nil.
  - destruct (IH (Z.max m (f_t x))) as [H1 H2]. split; [lia|].
    intros f [->|Hf]%elem_of_cons; [lia|by apply H2].
Qed.

Lemma seg_build_wf flakes : Forall flake_ordinary flakes -> seg_wf (seg_build flakes).
Proof.
  intros Hf.
  assert (forall index, seg_order (seg_build flakes) index = order_by index flakes) as Ho.
  { by intros []. }
  split; try done.
  - intros index. rewrite Ho.
    apply (sort_by_perm _ _ _ (cmp_at_laws index flakes Hf)), valid_seq.
  - intros index. rewrite Ho.
    apply (sort_by_sorted _ _ _ (cmp_at_laws index flakes Hf)), valid_seq.
  - intros f. apply fold_min_le.
  - intros f. apply fold_max_ge.
Qed.
End segment_proofs.
