(* ===== verification/SegmentRead.v ===== *)
(** * Reads over novelty segments are exact

    The range search inside a segment, zone-map pruning and the k-way merge of
    Segment.v against their specification: the flakes of the segments that lie
    in the requested range, in index order. *)

From S2P Require Import Prelude Bytes Cmp Value Plain Flake Segment.
From stdpp Require Import base list numbers sorting.
From Stdlib Require Import ZArith Lia.

Local Open Scope Z_scope.

Section spec.
Context `{VL : ValueLib}.

(** ** Specification: membership in [(first, rhs]], open on the left when
    [leftmost]. *)
Definition in_range (index : IndexType) (first rhs : option Flake) (leftmost : bool)
    (f : Flake) : bool :=
  (if leftmost then true
   else match first with Some a => negb (not_greater (compare index f a)) | None => true end) &&
  (match rhs with Some r => not_greater (compare index f r) | None => true end).

Definition bounds_ordinary (first rhs : option Flake) : Prop :=
  option_all flake_ordinary first /\ option_all flake_ordinary rhs.

(** All flakes of a graph's segments. *)
Definition seg_contents (segs : list Segment) : list Flake := concat (seg_flakes <$> segs).
End spec.

Lemma not_greater_true c : not_greater c = true <-> c <> Gt.
Proof. by destruct c. Qed.

Lemma list_filter_perm {A} (p : A -> bool) l k : l ≡ₚ k -> List.filter p l ≡ₚ List.filter p k.
Proof.
  induction 1 as [|x l k H IH|x y l|l k m H1 IH1 H2 IH2]; simpl; try done.
  - destruct (p x); by rewrite IH.
  - destruct (p x), (p y); try done. apply Permutation_swap.
  - by rewrite IH1.
Qed.

Lemma list_filter_ext {A} (p q : A -> bool) l :
  (forall x, x ∈ l -> p x = q x) -> List.filter p l = List.filter q l.
Proof.
  induction l as [|x l IH]; intros H; [done|]. simpl.
  rewrite (H x), IH; [done|intros y Hy; apply H; by right|left].
Qed.

Lemma list_filter_app {A} (p : A -> bool) l k :
  List.filter p (l ++ k) = List.filter p l ++ List.filter p k.
Proof. induction l as [|x l IH]; [done|]. simpl. rewrite IH. by destruct (p x). Qed.

Lemma elem_of_list_filter_b {A} (p : A -> bool) l x : x ∈ List.filter p l <-> x ∈ l /\ p x = true.
Proof. by rewrite !list_elem_of_In, List.filter_In. Qed.

Lemma elem_of_concat {A} (x : A) ls : x ∈ concat ls <-> exists l, x ∈ l /\ l ∈ ls.
Proof.
  setoid_rewrite list_elem_of_In. rewrite List.in_concat.
  split; intros (l & ? & ?); exists l; by split.
Qed.

Lemma strongly_sorted_filter {A} (R : A -> A -> Prop) (p : A -> bool) l :
  StronglySorted R l -> StronglySorted R (List.filter p l).
Proof.
  induction 1 as [|x l Hl IH Hx]; simpl; [constructor|]. destruct (p x); [|done].
  constructor; [done|]. apply Forall_forall. intros y [Hy _]%elem_of_list_filter_b.
  by rewrite Forall_forall in Hx; apply Hx.
Qed.

Section range_proofs.
Context `{VL : ValueLib, VLL : !ValueLibLaws}.
Context (index : IndexType) (first rhs : option Flake) (leftmost : bool).
Context (Hb : bounds_ordinary first rhs).

Lemma compare_le_trans f g h :
  flake_ordinary f -> flake_ordinary g -> flake_ordinary h ->
  cle (compare index) f g -> cle (compare index) g h -> cle (compare index) f h.
Proof. apply (cmp_le_trans (P := flake_ordinary) (c := comparator index)). Qed.

Lemma at_most_down seg b i j :
  seg_wf seg -> flake_ordinary b ->
  i ∈ seg_order seg index -> j ∈ seg_order seg index ->
  cle (cmp_at index (seg_flakes seg)) i j ->
  at_most seg index b j = true -> at_most seg index b i = true.
Proof.
  intros Hw Hbo Hi Hj. pose proof (sw_valid seg index Hw) as Hv.
  unfold valid_ids in Hv. rewrite Forall_forall in Hv.
  destruct (Hv i Hi) as [f Hf], (Hv j Hj) as [g Hg].
  unfold cle, cmp_at, at_most. rewrite Hf, Hg. rewrite !not_greater_true.
  pose proof (sw_ordinary seg Hw) as Ho.
  apply compare_le_trans; try done; by eapply Forall_lookup_1.
Qed.

(** The binary searches of [range] select exactly the flakes in range. *)
Lemma seg_range_spec seg :
  seg_wf seg ->
  seg_range seg index first rhs leftmost =
  List.filter (fun i => from_option (in_range index first rhs leftmost) false (seg_flakes seg !! i))
    (seg_order seg index).
Proof.
  intros Hw. destruct Hb as [Hf Hr].
  set (p := fun i => if leftmost then false
                     else match first with Some f => at_most seg index f i | None => false end).
  set (q := fun i => match rhs with Some r => at_most seg index r i | None => true end).
  pose proof (partition_slice _ p q _ (sw_sorted seg Hw index)) as H.
  unfold seg_range.
  transitivity (List.filter (fun i => negb (p i) && q i) (seg_order seg index)).
  - rewrite <- H.
    + assert ((if leftmost then O else match first with
               | Some f => partition_point (at_most seg index f) (seg_order seg index)
               | None => O end) = partition_point p (seg_order seg index)) as ->.
      { subst p. destruct leftmost; [by rewrite partition_point_false|].
        destruct first; [done|by rewrite partition_point_false]. }
      assert (match rhs with
              | Some r => partition_point (at_most seg index r) (seg_order seg index)
              | None => length (seg_order seg index) end =
              partition_point q (seg_order seg index)) as ->.
      { subst q. destruct rhs; [done|by rewrite partition_point_true]. }
      done.
    + subst p. intros i j Hi Hj Hij. destruct leftmost; [done|]. destruct first as [f|]; [|done].
      by apply at_most_down.
    + subst q. intros i j Hi Hj Hij. destruct rhs as [r|]; [|done]. by apply at_most_down.
  - apply list_filter_ext. intros i Hi. pose proof (sw_valid seg index Hw) as Hv.
    unfold valid_ids in Hv. rewrite Forall_forall in Hv. destruct (Hv i Hi) as [f Hfi].
    rewrite Hfi. subst p q. unfold in_range, at_most. simpl. rewrite Hfi.
    by destruct leftmost, first, rhs.
Qed.

Definition seg_hits (seg : Segment) : list Flake :=
  List.filter (in_range index first rhs leftmost) (flakes_at (seg_flakes seg) (seg_order seg index)).

Lemma seg_range_hits seg :
  seg_wf seg ->
  flakes_at (seg_flakes seg) (seg_range seg index first rhs leftmost) = seg_hits seg.
Proof.
  intros Hw. rewrite seg_range_spec by done. apply flakes_at_filter. by apply sw_valid.
Qed.

Lemma seg_hits_sorted seg : seg_wf seg -> StronglySorted (cle (compare index)) (seg_hits seg).
Proof.
  intros Hw. apply strongly_sorted_filter, flakes_at_sorted; [by apply sw_valid|by apply sw_sorted].
Qed.

Lemma seg_hits_perm seg :
  seg_wf seg -> seg_hits seg ≡ₚ List.filter (in_range index first rhs leftmost) (seg_flakes seg).
Proof. intros Hw. apply list_filter_perm, flakes_at_perm, (sw_perm seg Hw). Qed.

(** Pruning by the least and greatest key loses nothing. *)
Lemma may_overlap_sound seg :
  seg_wf seg -> may_overlap seg index first rhs leftmost = false -> seg_hits seg = [].
Proof.
  intros Hw. destruct Hb as [Hf Hr]. unfold may_overlap, seg_hits.
  pose proof (sw_valid seg index Hw) as Hv. pose proof (sw_sorted seg Hw index) as Hs.
  pose proof (flakes_at_sorted index _ _ Hv Hs) as Hsf.
  pose proof (sw_ordinary seg Hw) as Ho.
  assert (forall i f, seg_flakes seg !! i = Some f -> flake_ordinary f) as Hord.
  { intros i f. by apply Forall_lookup_1. }
  assert (forall f, f ∈ flakes_at (seg_flakes seg) (seg_order seg index) -> flake_ordinary f) as Hordf.
  { intros f (i & _ & Hi)%list_elem_of_omap. by eapply Hord. }
  destruct (seg_order seg index) as [|lo ids] eqn:Eids; [done|].
  destruct (last (lo :: ids)) as [hi|] eqn:Elast; [|by apply last_None in Elast].
  apply last_Some in Elast as [pre Hpre]. cbn [head].
  destruct (seg_flakes seg !! lo) as [fmin|] eqn:Elo.
  2:{ apply Forall_cons in Hv as [[? Hlo] _]. by rewrite Hlo in Elo. }
  assert (is_Some (seg_flakes seg !! hi)) as [fmax Ehi].
  { rewrite Hpre in Hv. apply Forall_app in Hv as [_ Hv]. by apply Forall_cons in Hv as [? _]. }
  rewrite Ehi.
  assert (forall f, f ∈ flakes_at (seg_flakes seg) (lo :: ids) -> cle (compare index) fmin f) as Hmin.
  { rewrite (flakes_at_cons _ _ fmin) in * by done. apply StronglySorted_inv in Hsf as [_ Hall].
    rewrite Forall_forall in Hall. intros f [->|Hin]%elem_of_cons; [|by apply Hall].
    unfold cle, compare. rewrite (cmp_refl (P := flake_ordinary) (c := comparator index)); [done|].
    by eapply Hord. }
  assert (forall f, f ∈ flakes_at (seg_flakes seg) (lo :: ids) -> cle (compare index) f fmax) as Hmax.
  { intros f (i & Hi & Hfi)%list_elem_of_omap. rewrite Hpre in Hi, Hs.
    apply elem_of_app in Hi as [Hi|Hi%list_elem_of_singleton].
    - pose proof (StronglySorted_app_1_elem_of _ _ _ i hi Hs Hi) as H.
      unfold cle, cmp_at in H. rewrite Hfi, Ehi in H. apply H. by left.
    - subst i. simplify_eq. unfold cle, compare.
      rewrite (cmp_refl (P := flake_ordinary) (c := comparator index)); [done|]. by eapply Hord. }
  intros Hov. apply filter_none, Forall_forall. intros f Hin. unfold in_range.
  apply andb_false_iff in Hov as [Hov%negb_false_iff|Hov%negb_false_iff].
  - destruct rhs as [r|]; [|done]. apply negb_true_iff in Hov. apply andb_false_iff. right.
    apply not_true_iff_false. rewrite not_greater_true. apply not_true_iff_false in Hov.
    rewrite not_greater_true in Hov. intros Hc. apply Hov.
    exact (compare_le_trans fmin f r (Hord _ _ Elo) (Hordf _ Hin) Hr (Hmin _ Hin) Hc).
  - destruct leftmost; [done|]. destruct first as [a|]; [|done]. apply andb_false_iff. left.
    apply negb_false_iff, not_greater_true. apply not_greater_true in Hov.
    exact (compare_le_trans f fmax a (Hordf _ Hin) (Hord _ _ Ehi) Hf (Hmax _ Hin) Hov).
Qed.
End range_proofs.

(** ** The k-way merge *)
Section merge_proofs.
Context `{VL : ValueLib, VLL : !ValueLibLaws}.
Context (index : IndexType) (segs : list Segment).

Definition head_ordinary (h : MergeHead) : Prop := flake_ordinary (mh_flake h).

#[local] Instance head_cmp_laws : CmpLaws head_ordinary (head_cmp index).
Proof.
  unfold head_cmp, compare. apply cmp_laws_then.
  - by apply (cmp_laws_key head_ordinary flake_ordinary mh_flake), _.
  - apply (cmp_laws_ext _ _ (fun x y => Z.compare (Z.of_nat (mh_seg x)) (Z.of_nat (mh_seg y)))).
    + intros x y _ _. by rewrite Nat2Z.inj_compare.
    + by apply (cmp_laws_key _ everything (fun h => Z.of_nat (mh_seg h))), _.
Qed.

Lemma extract_min_spec best rest m others :
  head_ordinary best -> Forall head_ordinary rest ->
  extract_min index best rest = (m, others) ->
  best :: rest ≡ₚ m :: others /\ Forall (cle (head_cmp index) m) (best :: rest).
Proof.
  intros Hb Hr. revert best m others Hb.
  induction Hr as [|h rest Hh Hr IH]; intros best m others Hb; cbn [extract_min].
  - intros [= <- <-]. split; [done|]. repeat constructor. unfold cle.
    by rewrite (cmp_refl (P := head_ordinary) (c := head_cmp index)).
  - assert (forall x, head_ordinary x -> head_ordinary m -> forall y, head_ordinary y ->
      cle (head_cmp index) m x -> cle (head_cmp index) x y -> cle (head_cmp index) m y) as Ht.
    { intros x Hx Hm y Hy. by apply (cmp_le_trans (P := head_ordinary) (c := head_cmp index)). }
    destruct (extract_min index h rest) as [m1 o1] eqn:E1.
    destruct (extract_min index best rest) as [m2 o2] eqn:E2.
    destruct (IH h m1 o1 Hh E1) as [Hp1 Hm1]. destruct (IH best m2 o2 Hb E2) as [Hp2 Hm2].
    apply Forall_cons in Hm1 as [Hm1h Hm1], Hm2 as [Hm2h Hm2].
    assert (head_ordinary m1) as Ho1.
    { assert (m1 ∈ h :: rest) as Hin by (rewrite Hp1; left).
      apply elem_of_cons in Hin as [->|Hin]; [done|]. by rewrite Forall_forall in Hr; apply Hr. }
    assert (head_ordinary m2) as Ho2.
    { assert (m2 ∈ best :: rest) as Hin by (rewrite Hp2; left).
      apply elem_of_cons in Hin as [->|Hin]; [done|]. by rewrite Forall_forall in Hr; apply Hr. }
    destruct (head_cmp index h best) eqn:Ec; intros [= <- <-]; (split;
      [first [by rewrite Hp1, Permutation_swap | by rewrite Permutation_swap, Hp2, Permutation_swap]|]).
    + repeat constructor; try done. apply (Ht best); try done. unfold cle.
      by rewrite (cmp_eq_sym (P := head_ordinary) (c := head_cmp index) h best).
    + repeat constructor; try done. apply (Ht h); try done. unfold cle. by rewrite Ec.
    + repeat constructor; try done. apply (Ht best); try done. unfold cle.
      by rewrite (proj1 (cmp_gt_lt (P := head_ordinary) (c := head_cmp index) h best Hh Hb) Ec).
Qed.

(** What a stream still has to yield. *)
Definition stream_flakes (st : MergeStream) : list Flake :=
  flakes_at (ms_flakes st) (drop (ms_pos st) (ms_order st)).

Record stream_ok (st : MergeStream) : Prop := {
  so_seg : exists seg, segs !! ms_seg st = Some seg /\ seg_flakes seg = ms_flakes st;
  so_ordinary : Forall flake_ordinary (ms_flakes st);
  so_valid : valid_ids (ms_flakes st) (ms_order st);
  so_sorted : StronglySorted (cle (compare index)) (stream_flakes st);
}.

Lemma stream_ordinary st f : stream_ok st -> f ∈ stream_flakes st -> flake_ordinary f.
Proof.
  intros [_ Ho _ _] (i & _ & Hi)%list_elem_of_omap. by eapply Forall_lookup_1.
Qed.

(** A stream's head is the first flake it has left. *)
Lemma stream_head_spec s st :
  stream_ok st ->
  match stream_flakes st with
  | [] => stream_head s st = None
  | f :: rest =>
      stream_head s st = Some (mkHead f s (ms_seg st)) /\
      stream_flakes (stream_advance st) = rest /\ stream_ok (stream_advance st) /\
      exists local, ms_order st !! ms_pos st = Some local /\ ms_flakes st !! local = Some f
  end.
Proof.
  intros [Hseg Ho Hv Hs]. unfold stream_head. unfold stream_flakes at 1.
  destruct (ms_order st !! ms_pos st) as [local|] eqn:El.
  - rewrite (drop_S _ local) by done.
    assert (is_Some (ms_flakes st !! local)) as [f Hf].
    { unfold valid_ids in Hv. by apply (Forall_lookup_1 _ _ _ _ Hv El). }
    rewrite (flakes_at_cons _ _ f) by done. cbn. rewrite Hf. simpl.
    assert (stream_flakes (stream_advance st) =
      flakes_at (ms_flakes st) (drop (S (ms_pos st)) (ms_order st))) as E by done.
    split; [done|]. split; [done|]. split; [|by eauto].
    split; try done. rewrite E. unfold stream_flakes in Hs.
    rewrite (drop_S _ local), (flakes_at_cons _ _ f) in Hs by done.
    by apply StronglySorted_inv in Hs as [? _].
  - by rewrite drop_ge by (by apply lookup_ge_None_1).
Qed.

Definition remaining (it : GraphMergeIter) : list Flake := concat (stream_flakes <$> gm_streams it).

Record merge_inv (it : GraphMergeIter) : Prop := {
  mi_index : gm_index it = index;
  mi_streams : Forall stream_ok (gm_streams it);
  mi_heap : gm_heap it ≡ₚ stream_heads (gm_streams it);
}.

(** An id yielded with a flake points at that flake in the segments. *)
Definition id_resolves (g : Z) (x : Z * Flake) : Prop :=
  exists n seg local, segs !! n = Some seg /\ seg_flakes seg !! local = Some x.2 /\
    x.1 = fid_pack g (Z.of_nat n) (Z.of_nat local).

Lemma elem_of_stream_heads streams h :
  h ∈ stream_heads streams <-> exists s st, streams !! s = Some st /\ stream_head s st = Some h.
Proof.
  unfold stream_heads. rewrite list_elem_of_omap. split.
  - intros (x & Hx & E). simpl in E. subst x. apply elem_of_lookup_imap in Hx as (s & st & E & Hs).
    eauto.
  - intros (s & st & Hs & Hh). exists (Some h). split; [|done].
    apply elem_of_lookup_imap. eauto.
Qed.

(** Replacing a stream replaces its head. *)
Lemma stream_heads_insert streams s st st' :
  streams !! s = Some st ->
  option_list (stream_head s st) ++ stream_heads (<[s := st']> streams) ≡ₚ
  option_list (stream_head s st') ++ stream_heads streams.
Proof.
  intros (pre & post & -> & ->)%list_elem_of_split_length.
  rewrite <- (Nat.add_0_r (length pre)) at 2. rewrite insert_app_r. simpl.
  unfold stream_heads. rewrite !imap_app, !imap_cons, !omap_app. cbn [omap list_omap].
  unfold compose. rewrite Nat.add_0_r.
  destruct (stream_head (length pre) st) as [h|], (stream_head (length pre) st') as [h'|]; simpl;
    rewrite ?Permutation_middle; try done.
  rewrite <- !Permutation_middle. apply Permutation_swap.
Qed.

Lemma remaining_insert streams s st st' f :
  streams !! s = Some st -> stream_flakes st = f :: stream_flakes st' ->
  concat (stream_flakes <$> streams) ≡ₚ f :: concat (stream_flakes <$> <[s := st']> streams).
Proof.
  intros (pre & post & -> & ->)%list_elem_of_split_length E.
  rewrite <- (Nat.add_0_r (length pre)). rewrite insert_app_r. simpl.
  rewrite !fmap_app, !fmap_cons, !concat_app. cbn [concat]. rewrite E. simpl.
  symmetry. apply Permutation_middle.
Qed.

Lemma elem_of_remaining it f :
  f ∈ remaining it -> exists s st, gm_streams it !! s = Some st /\ f ∈ stream_flakes st.
Proof.
  unfold remaining. intros (l & Hf & Hl)%elem_of_concat.
  apply list_elem_of_fmap in Hl as (st & -> & Hst).
  apply list_elem_of_lookup in Hst as [s Hs]. eauto.
Qed.

Lemma streams_ok it s st : merge_inv it -> gm_streams it !! s = Some st -> stream_ok st.
Proof. intros [_ H _]. by apply Forall_lookup_1. Qed.

(** With the heap empty nothing remains. *)
Lemma merge_done it : merge_inv it -> gm_heap it = [] -> remaining it = [].
Proof.
  intros Hi E. destruct (remaining it) as [|f l] eqn:Er; [done|].
  assert (f ∈ remaining it) as Hf by (rewrite Er; left).
  apply elem_of_remaining in Hf as (s & st & Hs & Hf).
  pose proof (stream_head_spec s st (streams_ok _ _ _ Hi Hs)) as Hh.
  destruct (stream_flakes st) as [|f0 rest]; [by apply elem_of_nil in Hf|].
  destruct Hh as [Hh _].
  assert (mkHead f0 s (ms_seg st) ∈ gm_heap it) as Hin.
  { rewrite (mi_heap _ Hi). apply elem_of_stream_heads. eauto. }
  rewrite E in Hin. by apply elem_of_nil in Hin.
Qed.

(** One step of the merge yields a least remaining flake and removes it. *)
Lemma merge_next_spec it :
  merge_inv it -> gm_heap it <> [] ->
  exists id f it', merge_next it = Some ((id, f), it') /\ merge_inv it' /\
    gm_g it' = gm_g it /\ remaining it ≡ₚ f :: remaining it' /\
    Forall (cle (compare index) f) (remaining it) /\ id_resolves (gm_g it) (id, f).
Proof.
  intros Hi Hne. unfold merge_next. rewrite (mi_index _ Hi).
  destruct (gm_heap it) as [|h0 hs] eqn:Eh; [done|]. cbn [heap_pop].
  destruct (extract_min index h0 hs) as [hd heap] eqn:Em.
  assert (Forall head_ordinary (h0 :: hs)) as Hord.
  { rewrite <- Eh, (mi_heap _ Hi). apply Forall_forall.
    intros h (s & st & Hs & Hh)%elem_of_stream_heads.
    pose proof (streams_ok _ _ _ Hi Hs) as Hok. pose proof (stream_head_spec s st Hok) as H.
    destruct (stream_flakes st) as [|f rest] eqn:Est; [by rewrite Hh in H|].
    destruct H as [H _]. rewrite H in Hh. injection Hh as <-.
    apply (stream_ordinary st); [done|]. rewrite Est. left. }
  apply Forall_cons in Hord as [Hord0 Hords].
  destruct (extract_min_spec _ _ _ _ Hord0 Hords Em) as [Hperm Hmin].
  pose proof (mi_heap _ Hi) as Hheap. rewrite Eh, Hperm in Hheap.
  assert (hd ∈ stream_heads (gm_streams it)) as Hin by (rewrite <- Hheap; left).
  apply elem_of_stream_heads in Hin as (s & st & Hs & Hh).
  pose proof (streams_ok _ _ _ Hi Hs) as Hok. pose proof (stream_head_spec s st Hok) as H.
  destruct (stream_flakes st) as [|f rest] eqn:Est; [by rewrite Hh in H|].
  destruct H as (H & Hrest & Hadv & local & Hlocal & Hf). rewrite H in Hh. injection Hh as <-.
  cbn. rewrite Hs. cbn. rewrite Hlocal. cbn. do 3 eexists. split; [done|].
  assert (remaining it ≡ₚ f :: concat (stream_flakes <$> <[s := stream_advance st]> (gm_streams it)))
    as Hrem by (apply (remaining_insert _ _ st); [done|by rewrite Hrest]).
  split; [|split; [done|split; [done|split]]].
  - split; cbn; [done|by apply Forall_insert; [apply Hi|]|].
    pose proof (stream_heads_insert _ s st (stream_advance st) Hs) as Hx. rewrite H in Hx.
    rewrite <- Hheap in Hx. simpl in Hx. rewrite <- Permutation_middle in Hx.
    apply Permutation_cons_inv in Hx. rewrite Hx.
    destruct (stream_head s (stream_advance st)); simpl; [|done]. by rewrite Permutation_app_comm.
  - apply Forall_forall. intros f2 (s2 & st2 & Hs2 & Hf2)%elem_of_remaining.
    pose proof (streams_ok _ _ _ Hi Hs2) as Hok2. pose proof (stream_head_spec s2 st2 Hok2) as H2.
    pose proof (so_sorted _ Hok2) as Hsort.
    assert (forall x, x ∈ stream_flakes st2 -> flake_ordinary x) as Ho2.
    { intros x. by apply stream_ordinary. }
    destruct (stream_flakes st2) as [|f0 rest2]; [by apply elem_of_nil in Hf2|].
    destruct H2 as [H2 _].
    assert (mkHead f0 s2 (ms_seg st2) ∈ h0 :: hs) as Hin2.
    { rewrite Hperm, Hheap. apply elem_of_stream_heads. eauto. }
    rewrite Forall_forall in Hmin. specialize (Hmin _ Hin2).
    assert (cle (compare index) f f0) as Hff0.
    { unfold cle, head_cmp in Hmin. simpl in Hmin. by apply then_with_le_l in Hmin. }
    apply elem_of_cons in Hf2 as [->|Hf2]; [done|].
    apply StronglySorted_inv in Hsort as [_ Hall]. rewrite Forall_forall in Hall.
    apply (compare_le_trans index f f0 f2); [|apply Ho2; left|apply Ho2; by right|done|by apply Hall].
    apply (stream_ordinary st); [done|]. rewrite Est. left.
  - destruct (so_seg _ Hok) as (seg & Hseg & Efl). exists (ms_seg st), seg, local.
    by rewrite Efl.
Qed.

Lemma merge_collect_spec fuel it :
  merge_inv it -> (length (remaining it) < fuel)%nat ->
  snd <$> merge_collect fuel it ≡ₚ remaining it /\
  StronglySorted (cle (compare index)) (snd <$> merge_collect fuel it) /\
  Forall (id_resolves (gm_g it)) (merge_collect fuel it).
Proof.
  revert it. induction fuel as [|fuel IH]; intros it Hi Hlen; [lia|]. cbn [merge_collect].
  destruct (decide (gm_heap it = [])) as [E|E].
  - unfold merge_next. rewrite E. cbn. rewrite (merge_done it) by done. by repeat constructor.
  - destruct (merge_next_spec it Hi E) as (id & f & it' & -> & Hi' & Hg & Hp & Hmin & Hid).
    destruct (IH it' Hi') as (IH1 & IH2 & IH3).
    { apply Permutation_length in Hp. simpl in Hp. lia. }
    rewrite Hg in IH3. rewrite fmap_cons. split; [by rewrite IH1, Hp|]. split.
    + constructor; [done|]. rewrite IH1. rewrite Hp in Hmin. by apply Forall_cons in Hmin as [_ ?].
    + by constructor.
Qed.

Lemma flakes_at_length flakes ids : (length (flakes_at flakes ids) <= length ids)%nat.
Proof.
  induction ids as [|i ids IH]; [done|]. unfold flakes_at in *. cbn. destruct (flakes !! i); simpl; lia.
Qed.

Lemma remaining_length it :
  (length (remaining it) <= list_sum ((fun st => length (ms_order st)) <$> gm_streams it))%nat.
Proof.
  unfold remaining. induction (gm_streams it) as [|st l IH]; [done|].
  rewrite !fmap_cons. cbn [concat]. unfold list_sum in *. cbn [foldr]. rewrite length_app.
  assert (length (stream_flakes st) <= length (ms_order st))%nat; [|lia].
  unfold stream_flakes. etransitivity; [apply flakes_at_length|]. rewrite length_drop. lia.
Qed.
End merge_proofs.

(** ** Reading a graph *)
Section read_proofs.
Context `{VL : ValueLib, VLL : !ValueLibLaws}.
Context (index : IndexType) (first rhs : option Flake) (leftmost : bool).
Context (Hb : bounds_ordinary first rhs).

Lemma merge_streams_spec all n segs :
  Forall seg_wf segs -> (forall i seg, segs !! i = Some seg -> all !! (n + i)%nat = Some seg) ->
  Forall (stream_ok index all) (merge_streams n segs index first rhs leftmost) /\
  concat (stream_flakes <$> merge_streams n segs index first rhs leftmost) =
  concat (seg_hits index first rhs leftmost <$> segs).
Proof.
  intros Hw. revert n. induction Hw as [|seg segs Hw Hws IH]; intros n Hall; [done|].
  destruct (IH (S n)) as [IH1 IH2].
  { intros i s Hi. rewrite <- (Hall (S i) s Hi). f_equal. lia. }
  cbn [merge_streams]. rewrite fmap_cons. cbn [concat]. rewrite <- IH2.
  destruct (may_overlap seg index first rhs leftmost) eqn:Eo; cbn [negb].
  - pose proof (seg_range_hits index first rhs leftmost Hb seg Hw) as Hh.
    destruct (seg_range seg index first rhs leftmost) as [|i ids] eqn:Er.
    + by rewrite <- Hh.
    + rewrite fmap_cons. cbn [concat]. unfold stream_flakes at 1. cbn [ms_flakes ms_pos ms_order].
      rewrite drop_0, Hh. split; [|done]. constructor; [|done]. split; cbn [ms_seg ms_flakes ms_order].
      * exists seg. split; [|done]. rewrite <- (Hall O seg eq_refl). f_equal. lia.
      * apply Hw.
      * rewrite <- Er, seg_range_spec by done. apply Forall_forall.
        intros j [Hj _]%elem_of_list_filter_b. pose proof (sw_valid seg index Hw) as Hv.
        unfold valid_ids in Hv. by rewrite Forall_forall in Hv; apply Hv.
      * unfold stream_flakes. cbn [ms_flakes ms_pos ms_order]. rewrite drop_0, Hh.
        by apply seg_hits_sorted.
  - by rewrite (may_overlap_sound index first rhs leftmost Hb seg Hw Eo).
Qed.

Lemma concat_hits_perm segs :
  Forall seg_wf segs ->
  concat (seg_hits index first rhs leftmost <$> segs) ≡ₚ
  List.filter (in_range index first rhs leftmost) (seg_contents segs).
Proof.
  unfold seg_contents. induction 1 as [|seg segs Hw Hws IH]; [done|].
  rewrite !fmap_cons. cbn [concat]. rewrite list_filter_app, seg_hits_perm by done. by rewrite IH.
Qed.

Lemma graph_merge_spec g segs :
  Forall seg_wf segs ->
  let res := merge_all (graph_merge g segs index first rhs leftmost) in
  snd <$> res ≡ₚ List.filter (in_range index first rhs leftmost) (seg_contents segs) /\
  StronglySorted (cle (compare index)) (snd <$> res) /\ Forall (id_resolves segs g) res.
Proof.
  intros Hw res. destruct (merge_streams_spec segs 0 segs Hw) as [Hok Hc]; [done|].
  assert (merge_inv index segs (graph_merge g segs index first rhs leftmost)) as Hi by done.
  destruct (merge_collect_spec index segs
    (S (list_sum ((fun st => length (ms_order st)) <$>
      gm_streams (graph_merge g segs index first rhs leftmost)))) _ Hi) as (H1 & H2 & H3).
  { pose proof (remaining_length (graph_merge g segs index first rhs leftmost)). lia. }
  split; [|done]. rewrite <- concat_hits_perm, <- Hc by done. exact H1.
Qed.

(** The flakes and the ids of a read, side by side. *)
Lemma read_spec g segs :
  Forall seg_wf segs ->
  exists res,
    read_flakes g (Some segs) index first rhs leftmost = snd <$> res /\
    read_ids g (Some segs) index first rhs leftmost = fst <$> res /\
    snd <$> res ≡ₚ List.filter (in_range index first rhs leftmost) (seg_contents segs) /\
    StronglySorted (cle (compare index)) (snd <$> res) /\ Forall (id_resolves segs g) res.
Proof.
  intros Hw. destruct segs as [|seg [|seg2 segs]].
  - exists []. by repeat constructor.
  - cbn [read_flakes read_ids]. apply Forall_cons in Hw as [Hw _].
    assert (seg_contents [seg] = seg_flakes seg) as ->.
    { unfold seg_contents. simpl. by rewrite app_nil_r. }
    destruct (may_overlap seg index first rhs leftmost) eqn:Eo.
    + pose proof (seg_range_hits index first rhs leftmost Hb seg Hw) as Hh.
      set (ids := seg_range seg index first rhs leftmost) in *.
      assert (valid_ids (seg_flakes seg) ids) as Hv.
      { subst ids. rewrite seg_range_spec by done. apply Forall_forall.
        intros j [Hj _]%elem_of_list_filter_b. pose proof (sw_valid seg index Hw) as Hv.
        unfold valid_ids in Hv. by rewrite Forall_forall in Hv; apply Hv. }
      exists (omap (fun i => (fun f => (fid_pack g 0 (Z.of_nat i), f)) <$> seg_flakes seg !! i) ids).
      assert (snd <$> omap (fun i => (fun f => (fid_pack g 0 (Z.of_nat i), f)) <$> seg_flakes seg !! i)
        ids = flakes_at (seg_flakes seg) ids) as Hsnd.
      { clear Hh. clearbody ids. induction Hv as [|i ids [f Hf] Hv IH]; [done|].
        rewrite (flakes_at_cons _ _ f) by done. cbn. rewrite Hf. cbn. by rewrite <- IH. }
      rewrite Hsnd, Hh. split; [done|]. split.
      { clear Hh Hsnd. clearbody ids. induction Hv as [|i ids [f Hf] Hv IH]; [done|].
        cbn. rewrite Hf. cbn. by rewrite <- IH. }
      split; [by apply seg_hits_perm|]. split; [by apply seg_hits_sorted|].
      apply Forall_forall. intros [id f] (i & Hi & E)%list_elem_of_omap.
      destruct (seg_flakes seg !! i) as [f'|] eqn:Ef; [|done]. simpl in E. simplify_eq.
      by exists O, seg, i.
    + exists []. split; [done|]. split; [done|].
      rewrite <- seg_hits_perm, (may_overlap_sound index first rhs leftmost Hb seg Hw Eo) by done.
      by repeat constructor.
  - exists (merge_all (graph_merge g (seg :: seg2 :: segs) index first rhs leftmost)).
    split; [done|]. split; [done|]. by apply graph_merge_spec.
Qed.
End read_proofs.
