(* ===== verification/Novelty.v ===== *)
(** * The novelty overlay

    Models [Novelty] of src/fluree-db-novelty/src/lib.rs: the flakes committed
    since the last index, held per graph as immutable segments, with the commit
    paths that fill it, tiered compaction, clearing after an index build, and
    its reads.

    A method on [&mut self] that can fail returns the state it leaves together
    with its result, so that what an error leaves behind is part of the model.
    [reverse_graph] is the lookup function of its hash map; the iteration order
    of the per-graph hash map is the interface [HashOrder].  The attachment
    overlay is the interface [Attachments]; its [observe_flakes] never returns
    an error.  The process-wide content-version and segment-id counters are left
    out: they key caches of other components. *)

From stdpp Require Import base list numbers sorting strings.
From Stdlib Require Import ZArith Lia.
From S2P Require Import Prelude Bytes GraphRegistry Vocab Cmp Value Plain Flake FactState Segment SegmentRead.

Local Open Scope Z_scope.

(** ** Vocabulary the commit path tests *)
Definition name_in (name : str) (names : list str) : bool := bool_decide (name ∈ names).

Definition reifies_names : list str :=
  bytes_of_string <$> ["reifiesGraph"; "reifiesSubject"; "reifiesPredicate"; "reifiesObject";
    "reifiesDatatype"; "reifiesLang"; "reifiesListIndex"]%string.

Definition is_reserved_reifies_predicate (p : Sid) : bool :=
  if negb (namespace_code p =? FLUREE_DB) then false else name_in (name p) reifies_names.

Definition is_rdfs_hierarchy_predicate (p : Sid) : bool :=
  (namespace_code p =? RDFS) &&
  name_in (name p) (bytes_of_string <$> ["subClassOf"; "subPropertyOf"]%string).

Definition is_class_name (s : Sid) : bool := name_in (name s) [bytes_of_string "Class"%string].

(** ** Interfaces *)

Class HashOrder := hash_iter : forall {V : Type}, list (Z * V) -> list (Z * V).
Class HashLaws `{HashOrder} : Prop :=
  hash_iter_perm : forall {V : Type} (m : list (Z * V)), hash_iter m ≡ₚ m.

Class Attachments `{ValueLib} := {
  AttachmentNovelty : Type;
  attachments_new : AttachmentNovelty;
  observe_flakes : AttachmentNovelty -> list Flake -> AttachmentNovelty;
}.

Inductive NoveltyError :=
| NoveltyOverflow
| InvalidGraph (g : Sid).

Section novelty.
Context `{VL : ValueLib, SL : SortLib, HO : HashOrder, AT : !Attachments}.

Definition is_shacl_affecting_flake (f : Flake) : bool :=
  if namespace_code (f_p f) =? SHACL then true
  else if (namespace_code (f_p f) =? RDF) && name_in (name (f_p f)) [bytes_of_string "type"%string] then
    match f_o f with
    | Ref o =>
        (namespace_code o =? SHACL) || ((namespace_code o =? RDFS) && is_class_name o) ||
        ((namespace_code o =? OWL) && is_class_name o)
    | _ => false
    end
  else false.

(** ** State *)
Record Novelty := mkNovelty {
  nv_graphs : list (option (list Segment));
  nv_size : Z;
  nv_flake_count : Z;
  nv_t : Z;
  nv_epoch : Z;
  nv_schema_epoch : Z;
  nv_shacl_epoch : Z;
  nv_config_write_t : Z;
  nv_attachments : AttachmentNovelty;
  nv_fact_state : NoveltyFactState;
}.

Definition novelty_new (t : Z) : Novelty :=
  mkNovelty [] 0 0 t 0 0 0 0 attachments_new facts_new.

Definition with_graphs (graphs : list (option (list Segment))) (nv : Novelty) : Novelty :=
  mkNovelty graphs (nv_size nv) (nv_flake_count nv) (nv_t nv) (nv_epoch nv) (nv_schema_epoch nv)
    (nv_shacl_epoch nv) (nv_config_write_t nv) (nv_attachments nv) (nv_fact_state nv).
Definition with_totals (size count : Z) (nv : Novelty) : Novelty :=
  mkNovelty (nv_graphs nv) size count (nv_t nv) (nv_epoch nv) (nv_schema_epoch nv)
    (nv_shacl_epoch nv) (nv_config_write_t nv) (nv_attachments nv) (nv_fact_state nv).
Definition with_t (t : Z) (nv : Novelty) : Novelty :=
  mkNovelty (nv_graphs nv) (nv_size nv) (nv_flake_count nv) t (nv_epoch nv) (nv_schema_epoch nv)
    (nv_shacl_epoch nv) (nv_config_write_t nv) (nv_attachments nv) (nv_fact_state nv).
Definition bump_epoch (nv : Novelty) : Novelty :=
  mkNovelty (nv_graphs nv) (nv_size nv) (nv_flake_count nv) (nv_t nv) (nv_epoch nv + 1)
    (nv_schema_epoch nv) (nv_shacl_epoch nv) (nv_config_write_t nv) (nv_attachments nv)
    (nv_fact_state nv).
Definition add_epochs (schema shacl : Z) (nv : Novelty) : Novelty :=
  mkNovelty (nv_graphs nv) (nv_size nv) (nv_flake_count nv) (nv_t nv) (nv_epoch nv)
    (nv_schema_epoch nv + schema) (nv_shacl_epoch nv + shacl) (nv_config_write_t nv)
    (nv_attachments nv) (nv_fact_state nv).
Definition with_config_write_t (t : Z) (nv : Novelty) : Novelty :=
  mkNovelty (nv_graphs nv) (nv_size nv) (nv_flake_count nv) (nv_t nv) (nv_epoch nv)
    (nv_schema_epoch nv) (nv_shacl_epoch nv) t (nv_attachments nv) (nv_fact_state nv).
Definition with_attachments (a : AttachmentNovelty) (nv : Novelty) : Novelty :=
  mkNovelty (nv_graphs nv) (nv_size nv) (nv_flake_count nv) (nv_t nv) (nv_epoch nv)
    (nv_schema_epoch nv) (nv_shacl_epoch nv) (nv_config_write_t nv) a (nv_fact_state nv).
Definition with_facts (fs : NoveltyFactState) (nv : Novelty) : Novelty :=
  mkNovelty (nv_graphs nv) (nv_size nv) (nv_flake_count nv) (nv_t nv) (nv_epoch nv)
    (nv_schema_epoch nv) (nv_shacl_epoch nv) (nv_config_write_t nv) (nv_attachments nv) fs.

(** [self.graphs.get(g).and_then(Option::as_ref)] *)
Definition nv_segs (nv : Novelty) (g : Z) : option (list Segment) := slot (nv_graphs nv) g.

Definition resolve_flake_g_id (f : Flake) (reverse_graph : Sid -> option Z)
    : outcome NoveltyError Z :=
  match f_g f with
  | None => Ok 0
  | Some g_sid => ok_or (InvalidGraph g_sid) (reverse_graph g_sid)
  end.

Definition push_segment (nv : Novelty) (g : Z) (seg : Segment) : Novelty :=
  let idx := Z.to_nat g in
  let graphs := grow (nv_graphs nv) idx in
  let segs := default [] (graphs !! idx ≫= id) in
  with_totals (nv_size nv + seg_size seg) (nv_flake_count nv + zlen (seg_flakes seg))
    (with_graphs (<[idx := Some (segs ++ [seg])]> graphs) nv).

Definition segment_count (nv : Novelty) (g : Z) : Z := zlen (default [] (nv_segs nv g)).

Definition check_segment_capacity (nv : Novelty) (g : Z) : outcome NoveltyError unit :=
  if MAX_SEGMENTS <? segment_count nv g + 1 then Err NoveltyOverflow else Ok tt.

(** The split of a batch into segments of at most [MAX_SEGMENT_FLAKES]. *)
Fixpoint chunks (fuel : nat) (flakes : list Flake) : list (list Flake) :=
  match fuel with
  | O => [flakes]
  | S fuel =>
      if MAX_SEGMENT_FLAKES <? zlen flakes
      then take (Z.to_nat MAX_SEGMENT_FLAKES) flakes ::
           chunks fuel (drop (Z.to_nat MAX_SEGMENT_FLAKES) flakes)
      else [flakes]
  end.

Definition build_chunks (flakes : list Flake) : list Segment :=
  seg_build <$> chunks (length flakes) flakes.

Definition set_graph_segments (nv : Novelty) (g : Z) (flakes : list Flake) : Novelty :=
  let idx := Z.to_nat g in
  let graphs := grow (nv_graphs nv) idx in
  match flakes with
  | [] => with_graphs (<[idx := None]> graphs) nv
  | _ => with_graphs (<[idx := Some (build_chunks flakes)]> graphs) nv
  end.

(** [self.graphs.iter().flatten()] *)
Definition all_segs (graphs : list (option (list Segment))) : list (list Segment) := omap id graphs.

Definition total_size (graphs : list (option (list Segment))) : Z :=
  foldr Z.add 0 (seg_size <$> concat (all_segs graphs)).
Definition total_count (graphs : list (option (list Segment))) : Z :=
  foldr Z.add 0 ((fun seg => zlen (seg_flakes seg)) <$> concat (all_segs graphs)).

Definition recompute_totals (nv : Novelty) : Novelty :=
  with_totals (total_size (nv_graphs nv)) (total_count (nv_graphs nv)) nv.

Definition max_segment_count (nv : Novelty) : Z :=
  foldr Z.max 0 (zlen <$> all_segs (nv_graphs nv)).

(** ** Tiered compaction *)

Fixpoint size_class_loop (fuel : nat) (count tier_width class bound : Z) : Z :=
  match fuel with
  | O => class
  | S fuel =>
      if bound <=? count then
        let b := bound * tier_width in
        if b <? 2 ^ 64 then size_class_loop fuel count tier_width (class + 1) b else class + 1
      else class
  end.

Definition size_class (count tier_width : Z) : Z :=
  if (count <=? 1) || (tier_width <? 2) then 0
  else size_class_loop 64 count tier_width 0 tier_width.

Definition seg_class (tier_width : Z) (seg : Segment) : Z :=
  size_class (zlen (seg_flakes seg)) tier_width.

Definition class_count (c : Z) (classes : list Z) : Z := zlen (List.filter (Z.eqb c) classes).

(** The size classes from [min_class] up that hold a full group. *)
Definition full_classes (tier_width min_class : Z) (segs : list Segment) : list Z :=
  let classes := List.filter (fun c => min_class <=? c) (seg_class tier_width <$> segs) in
  List.filter (fun c => tier_width <=? class_count c classes) classes.

Definition needs_tier_compaction (nv : Novelty) (tier_width : Z) : bool :=
  if tier_width <? 2 then false
  else existsb (fun segs => (tier_width <=? zlen segs) &&
         match full_classes tier_width 0 segs with [] => false | _ => true end)
         (all_segs (nv_graphs nv)).

(** The first [n] segments of a class, flattened, and the segments kept. *)
Fixpoint take_class (tier_width target n : Z) (segs : list Segment)
    : list Flake * list Segment :=
  match segs with
  | [] => ([], [])
  | seg :: segs =>
      if (0 <? n) && (seg_class tier_width seg =? target) then
        let '(flakes, keep) := take_class tier_width target (n - 1) segs in
        (seg_flakes seg ++ flakes, keep)
      else
        let '(flakes, keep) := take_class tier_width target n segs in
        (flakes, seg :: keep)
  end.

Definition min_of (x : Z) (l : list Z) : Z := fold_left Z.min l x.

(** One cascade over the segments of a graph.  Classes are at most 64 and the
    lower bound on the class grows with every merge, so fuel 66 always suffices
    ([None] when it does not). *)
Fixpoint tier_loop (fuel : nat) (tier_width min_class merges : Z) (segs : list Segment)
    : option (list Segment * Z) :=
  match fuel with
  | O => None
  | S fuel =>
      if zlen segs <? tier_width then Some (segs, merges)
      else match full_classes tier_width min_class segs with
           | [] => Some (segs, merges)
           | c :: cs =>
               let target := min_of c cs in
               let '(flakes, keep) := take_class tier_width target tier_width segs in
               tier_loop fuel tier_width (target + 1) (merges + 1) (keep ++ build_chunks flakes)
           end
  end.

Definition tier_compact_graph (tier_width : Z) (s : option (list Segment))
    : option (option (list Segment) * Z) :=
  match s with
  | None => Some (None, 0)
  | Some segs => '(segs, merges) ← tier_loop 66 tier_width 0 0 segs; Some (Some segs, merges)
  end.

Definition tier_compact (nv : Novelty) (tier_width : Z) : option (Novelty * Z) :=
  if tier_width <? 2 then Some (nv, 0)
  else
    res ← mapM (tier_compact_graph tier_width) (nv_graphs nv);
    let merges := foldr Z.add 0 (snd <$> res) in
    let nv' := with_graphs (fst <$> res) nv in
    Some (if 0 <? merges then bump_epoch (recompute_totals nv') else nv', merges).

(** ** Reads *)
Definition slice_for_range (nv : Novelty) (g : Z) (index : IndexType) (first rhs : option Flake)
    (leftmost : bool) : list Z := read_ids g (nv_segs nv g) index first rhs leftmost.

Definition range_flakes (nv : Novelty) (g : Z) (index : IndexType) (first rhs : option Flake)
    (leftmost : bool) : list Flake := read_flakes g (nv_segs nv g) index first rhs leftmost.

(** Indexing out of range panics: [None]. *)
Definition get_flake (nv : Novelty) (fid : Z) : option Flake :=
  segs ← nv_segs nv (fid_graph fid);
  seg ← segs !! Z.to_nat (fid_seg fid);
  seg_flakes seg !! Z.to_nat (fid_local fid).

Definition present_graphs (nv : Novelty) : list Z :=
  List.filter (fun g => match nv_segs nv g with Some (_ :: _) => true | _ => false end)
    (Z.of_nat <$> seq 0 (length (nv_graphs nv))).

Definition iter_index (nv : Novelty) (index : IndexType) : list Z :=
  concat ((fun g => slice_for_range nv g index None None true) <$> present_graphs nv).
Definition iter_flakes (nv : Novelty) (index : IndexType) : list Flake :=
  concat ((fun g => range_flakes nv g index None None true) <$> present_graphs nv).

(** The flakes handed to the callback. *)
Definition for_each_overlay_flake (nv : Novelty) (g : Z) (index : IndexType)
    (first rhs : option Flake) (leftmost : bool) (to_t : Z) : list Flake :=
  match nv_segs nv g with
  | Some [seg] =>
      if may_overlap seg index first rhs leftmost then
        List.filter (fun f => f_t f <=? to_t)
          (flakes_at (seg_flakes seg) (seg_range seg index first rhs leftmost))
      else []
  | Some ((_ :: _) as segs) =>
      List.filter (fun f => f_t f <=? to_t)
        (snd <$> merge_all (graph_merge g segs index first rhs leftmost))
  | _ => []
  end.

(** ** Applying a commit *)

Fixpoint route (reverse_graph : Sid -> option Z) (flakes : list Flake)
    : outcome NoveltyError (list (Z * Flake)) :=
  match flakes with
  | [] => Ok []
  | f :: flakes =>
      g ← resolve_flake_g_id f reverse_graph;
      routed ← route reverse_graph flakes;
      Ok ((g, f) :: routed)
  end.

(** The [HashSet] walk: each graph is checked on its first occurrence. *)
Fixpoint check_graphs (nv : Novelty) (checked : list Z) (gs : list Z)
    : outcome NoveltyError (list Z) :=
  match gs with
  | [] => Ok checked
  | g :: gs =>
      if bool_decide (g ∈ checked) then check_graphs nv checked gs
      else _ ← check_segment_capacity nv g; check_graphs nv (g :: checked) gs
  end.

(** [can_apply] interleaves routing and capacity checks. *)
Fixpoint can_apply_loop (nv : Novelty) (reverse_graph : Sid -> option Z) (checked : list Z)
    (flakes : list Flake) : outcome NoveltyError unit :=
  match flakes with
  | [] => Ok tt
  | f :: flakes =>
      g ← resolve_flake_g_id f reverse_graph;
      if bool_decide (g ∈ checked) then can_apply_loop nv reverse_graph checked flakes
      else _ ← check_segment_capacity nv g;
           can_apply_loop nv reverse_graph (g :: checked) flakes
  end.

Definition can_apply (nv : Novelty) (flakes : list Flake) (reverse_graph : Sid -> option Z)
    : outcome NoveltyError unit :=
  if MAX_SEGMENT_FLAKES <? zlen flakes then Err NoveltyOverflow
  else can_apply_loop nv reverse_graph [] flakes.

(** [per_graph.entry(g).or_default().push(f)] *)
Fixpoint entry_push (m : list (Z * list Flake)) (g : Z) (f : Flake) : list (Z * list Flake) :=
  match m with
  | [] => [(g, [f])]
  | (g', batch) :: m => if g' =? g then (g', batch ++ [f]) :: m else (g', batch) :: entry_push m g f
  end.

Record KeepAcc := mkKeep {
  ka_per_graph : list (Z * list Flake);
  ka_reifies : list Flake;
  ka_schema : bool;
  ka_shacl : bool;
}.

Definition keep_new : KeepAcc := mkKeep [] [] false false.

(** A duplicate: an assertion of a fact that is already asserted. *)
Definition is_duplicate (fs : NoveltyFactState) (g : Z) (f : Flake) : bool :=
  f_op f && is_asserted fs g f.

Definition keep_step (fs : NoveltyFactState) (acc : KeepAcc) (gf : Z * Flake) : KeepAcc :=
  let '(g, f) := gf in
  if is_duplicate fs g f then acc
  else mkKeep (entry_push (ka_per_graph acc) g f)
         (if is_reserved_reifies_predicate (f_p f) then ka_reifies acc ++ [f] else ka_reifies acc)
         (ka_schema acc || is_rdfs_hierarchy_predicate (f_p f))
         (ka_shacl acc || is_shacl_affecting_flake f).

Definition record_batches (fs : NoveltyFactState) (m : list (Z * list Flake)) : NoveltyFactState :=
  fold_left (fun fs '(g, batch) => fold_left (fun fs f => record fs g f) batch fs) m fs.

Definition push_batches (nv : Novelty) (m : list (Z * list Flake)) : Novelty :=
  fold_left (fun nv '(g, batch) =>
    match batch with [] => nv | _ => push_segment nv g (seg_build batch) end) m nv.

Definition observe (nv : Novelty) (reifies : list Flake) : Novelty :=
  match reifies with
  | [] => nv
  | _ => with_attachments (observe_flakes (nv_attachments nv) reifies) nv
  end.

(** The infallible part, once every flake is routed and every graph has room. *)
Definition apply_routed (nv : Novelty) (routed : list (Z * Flake)) (checked : list Z)
    (commit_t : Z) : Novelty :=
  let nv := bump_epoch (with_t (Z.max (nv_t nv) commit_t) nv) in
  let nv := if bool_decide (CONFIG_GRAPH_ID ∈ checked)
            then with_config_write_t (Z.max (nv_config_write_t nv) commit_t) nv else nv in
  let acc := fold_left (keep_step (nv_fact_state nv)) routed keep_new in
  let nv := add_epochs (Z.b2z (ka_schema acc)) (Z.b2z (ka_shacl acc)) nv in
  let nv := with_facts (record_batches (nv_fact_state nv) (hash_iter (ka_per_graph acc))) nv in
  let nv := observe nv (ka_reifies acc) in
  push_batches nv (hash_iter (ka_per_graph acc)).

Definition apply_commit (nv : Novelty) (flakes : list Flake) (commit_t : Z)
    (reverse_graph : Sid -> option Z) : Novelty * outcome NoveltyError unit :=
  match flakes with
  | [] => (nv, Ok tt)
  | _ =>
      if MAX_SEGMENT_FLAKES <? zlen flakes then (nv, Err NoveltyOverflow)
      else match route reverse_graph flakes with
           | Ok routed =>
               match check_graphs nv [] (fst <$> routed) with
               | Ok checked => (apply_routed nv routed checked commit_t, Ok tt)
               | Err e => (nv, Err e)
               | Panic => (nv, Panic)
               end
           | Err e => (nv, Err e)
           | Panic => (nv, Panic)
           end
  end.

(** ** Bulk apply *)

Definition bulk_cmp (a b : Flake) : comparison :=
  then_with (sid_cmp (f_s a) (f_s b)) (then_with (sid_cmp (f_p a) (f_p b))
  (then_with (cmp_object a b) (then_with (cmp_meta a b)
  (then_with (Z.compare (f_t a) (f_t b)) (bool_cmp (f_op a) (f_op b)))))).

Definition is_Eq (c : comparison) : bool := match c with Eq => true | _ => false end.

Definition same_identity (a b : Flake) : bool :=
  bool_decide (f_s a = f_s b) && bool_decide (f_p a = f_p b) &&
  is_Eq (cmp_object a b) && is_Eq (cmp_meta a b).

(** The dedup walk after a kept flake [prev] of a group in state [asserted]. *)
Fixpoint dedup_walk (prev : Flake) (asserted : bool) (l : list Flake) : list Flake :=
  match l with
  | [] => []
  | f :: l =>
      if same_identity prev f then
        if negb (f_op f) then f :: dedup_walk f false l
        else if negb asserted then f :: dedup_walk f true l
        else dedup_walk prev asserted l
      else f :: dedup_walk f (f_op f) l
  end.

Definition dedup (l : list Flake) : list Flake :=
  match l with [] => [] | f :: l => f :: dedup_walk f (f_op f) l end.

(** Phase 1 routes the flakes, bumping the epochs as it goes. *)
Fixpoint bulk_route (nv : Novelty) (m : list (Z * list Flake)) (reverse_graph : Sid -> option Z)
    (flakes : list Flake) : Novelty * outcome NoveltyError (list (Z * list Flake)) :=
  match flakes with
  | [] => (nv, Ok m)
  | f :: flakes =>
      match resolve_flake_g_id f reverse_graph with
      | Ok g =>
          let nv := add_epochs (Z.b2z (is_rdfs_hierarchy_predicate (f_p f)))
                      (Z.b2z (is_shacl_affecting_flake f)) nv in
          bulk_route nv (entry_push m g f) reverse_graph flakes
      | Err e => (nv, Err e)
      | Panic => (nv, Panic)
      end
  end.

(** Phase 2 for one graph: fold in the existing segments, sort, dedup, record,
    replace the graph's segments. *)
Definition bulk_graph (max_t : Z) (nv : Novelty) (gm : Z * list Flake) : Novelty :=
  let '(g, new_flakes) := gm in
  let combined := seg_contents (default [] (nv_segs nv g)) ++ new_flakes in
  let kept := dedup (sort_by bulk_cmp combined) in
  let nv := with_facts (fold_left (fun fs f => record fs g f) kept (nv_fact_state nv)) nv in
  let nv := set_graph_segments nv g kept in
  let nv := if g =? CONFIG_GRAPH_ID
            then with_config_write_t (Z.max (nv_config_write_t nv) max_t) nv else nv in
  observe nv (List.filter (fun f => is_reserved_reifies_predicate (f_p f)) kept).

Definition bulk_apply_commits (nv : Novelty) (batches : list (list Flake * Z))
    (reverse_graph : Sid -> option Z) : Novelty * outcome NoveltyError unit :=
  let max_t := fold_left (fun m '(_, t) => Z.max m t) batches (nv_t nv) in
  match bulk_route nv [] reverse_graph (concat (fst <$> batches)) with
  | (nv, Ok []) => (bump_epoch (with_t max_t nv), Ok tt)
  | (nv, Ok m) =>
      let nv := fold_left (bulk_graph max_t) (hash_iter m) nv in
      (recompute_totals (bump_epoch (with_t max_t nv)), Ok tt)
  | (nv, Err e) => (nv, Err e)
  | (nv, Panic) => (nv, Panic)
  end.

(** ** Clearing after an index build *)

Definition clear_segment (cutoff_t : Z) (seg : Segment) : list Segment :=
  if seg_max_t seg <=? cutoff_t then []
  else if cutoff_t <? seg_min_t seg then [seg]
  else match List.filter (fun f => cutoff_t <? f_t f) (seg_flakes seg) with
       | [] => []
       | survivors => [seg_build survivors]
       end.

Definition clear_slot (cutoff_t : Z) (s : option (list Segment)) : option (list Segment) :=
  match s with
  | None => None
  | Some segs =>
      match concat (clear_segment cutoff_t <$> segs) with [] => None | kept => Some kept end
  end.

(** The facts of the surviving flakes, graph by graph in SPOT order. *)
Definition rebuild_facts (nv : Novelty) : option NoveltyFactState :=
  fold_left (fun acc g =>
    fs ← acc;
    flakes ← mapM (get_flake nv) (slice_for_range nv g Spot None None true);
    Some (fold_left (fun fs f => record fs g f) flakes fs)) (present_graphs nv) (Some facts_new).

Definition clear_up_to (nv : Novelty) (cutoff_t : Z) : option Novelty :=
  if nv_flake_count nv =? 0 then Some nv
  else
    let nv := recompute_totals (with_graphs (clear_slot cutoff_t <$> nv_graphs nv) nv) in
    fs ← rebuild_facts nv;
    Some (bump_epoch (with_facts fs nv)).
End novelty.
