(* ===== verification/NoveltyRead.v ===== *)
(** * Novelty: contents, shape and reads

    The abstract view of a novelty overlay is the bag of flakes of each graph,
    [graph_contents].  [nov_shape] is what the packed flake ids rely on; under
    it every read of Novelty.v is exact. *)

From stdpp Require Import base list numbers sorting.
From Stdlib Require Import ZArith Lia.
From S2P Require Import Prelude Bytes Cmp Value Plain Flake FactState Segment SegmentRead Novelty.

Local Open Scope Z_scope.

Section shape.
Context `{VL : ValueLib, VLL : !ValueLibLaws, SL : SortLib, SLL : !SortLaws,
  HO : HashOrder, AT : !Attachments}.

Definition graph_contents (nv : Novelty) (g : Z) : list Flake :=
  seg_contents (default [] (nv_segs nv g)).

(** A segment that fits the local-index field of a flake id. *)
Record seg_fit (seg : Segment) : Prop := {
  sf_wf : seg_wf seg;
  sf_nonempty : seg_flakes seg <> [];
  sf_len : zlen (seg_flakes seg) <= MAX_SEGMENT_FLAKES;
}.

Definition segs_fit (segs : list Segment) : Prop :=
  Forall seg_fit segs /\ zlen segs <= MAX_SEGMENTS.

Record nov_shape (nv : Novelty) : Prop := {
  ns_segs g segs : 0 <= g -> nv_segs nv g = Some segs -> segs_fit segs;
  ns_len : zlen (nv_graphs nv) <= 2 ^ 16;
}.

Lemma segs_fit_wf segs : segs_fit segs -> Forall seg_wf segs.
Proof. intros [H _]. eapply Forall_impl; [exact H|]. by intros seg []. Qed.

Lemma nv_segs_range nv g segs : nv_segs nv g = Some segs -> Z.of_nat (Z.to_nat g) < zlen (nv_graphs nv).
Proof.
  unfold nv_segs, slot. destruct (nv_graphs nv !! Z.to_nat g) eqn:E; [|done].
  apply lookup_lt_Some in E. unfold zlen. lia.
Qed.

(** A packed id resolves to the flake it was made for. *)
Lemma get_flake_pack nv g segs n seg local f :
  nov_shape nv -> 0 <= g < 2 ^ 16 -> nv_segs nv g = Some segs -> segs !! n = Some seg ->
  seg_flakes seg !! local = Some f ->
  get_flake nv (fid_pack g (Z.of_nat n) (Z.of_nat local)) = Some f.
Proof.
  intros Hs Hg Hsegs Hn Hl. destruct (ns_segs nv Hs g segs (proj1 Hg) Hsegs) as [Hfit Hcap].
  pose proof (lookup_lt_Some _ _ _ Hn) as Hn'. pose proof (lookup_lt_Some _ _ _ Hl) as Hl'.
  pose proof (sf_len _ (Forall_lookup_1 _ _ _ _ Hfit Hn)) as Hlen.
  unfold zlen in *. change MAX_SEGMENTS with (2 ^ 24) in Hcap.
  change MAX_SEGMENT_FLAKES with (2 ^ 24) in Hlen.
  destruct (fid_unpack g (Z.of_nat n) (Z.of_nat local)) as (Eg & En & El);
    [unfold in_u; lia..|].
  unfold get_flake. rewrite Eg, En, El, Hsegs, !Nat2Z.id. simpl. by rewrite Hn.
Qed.

(** The reads of a graph, flakes and ids side by side. *)
Lemma graph_read_spec nv g index first rhs leftmost :
  nov_shape nv -> 0 <= g < 2 ^ 16 -> bounds_ordinary first rhs ->
  let fl := range_flakes nv g index first rhs leftmost in
  fl ≡ₚ List.filter (in_range index first rhs leftmost) (graph_contents nv g) /\
  StronglySorted (cle (compare index)) fl /\
  mapM (get_flake nv) (slice_for_range nv g index first rhs leftmost) = Some fl.
Proof.
  intros Hs Hg Hb fl. subst fl. unfold range_flakes, slice_for_range, graph_contents.
  destruct (nv_segs nv g) as [segs|] eqn:Esegs; [|by repeat constructor].
  destruct (read_spec index first rhs leftmost Hb g segs) as (res & -> & -> & Hp & Hsort & Hids).
  { apply segs_fit_wf, (ns_segs nv Hs g); [lia|done]. }
  split; [done|]. split; [done|]. apply mapM_Some, Forall2_fmap_l, Forall2_fmap_r.
  apply Forall_Forall2_diag. eapply Forall_impl; [exact Hids|].
  intros [fid f] (n & seg & local & Hn & Hl & E). simpl in *. subst fid.
  by apply (get_flake_pack nv g segs n seg local).
Qed.

Lemma overlay_flakes_spec nv g index first rhs leftmost to_t :
  for_each_overlay_flake nv g index first rhs leftmost to_t =
  List.filter (fun f => f_t f <=? to_t) (range_flakes nv g index first rhs leftmost).
Proof.
  unfold for_each_overlay_flake, range_flakes. destruct (nv_segs nv g) as [[|seg [|seg2 segs]]|];
    cbn [read_flakes]; try done. by destruct (may_overlap _ _ _ _ _).
Qed.

(** ** Properties *)

(** C2: Novelty reads are exact.  A range read of a graph, through the k-way
    merge, zone-map pruning and the single-segment path alike, returns in index
    order precisely the flakes the graph holds with a key in (first, rhs] (no
    lower bound when leftmost); resolving the ids of the same read gives the
    same flakes, so an id never points outside the segments; and the overlay
    callback sees the flakes of the read up to its time bound. *)
Theorem novelty_read_exact (nv : Novelty) (g : Z) (index : IndexType) (first rhs : option Flake)
    (leftmost : bool) (to_t : Z) :
  nov_shape nv -> 0 <= g < 2 ^ 16 -> bounds_ordinary first rhs ->
  let fl := range_flakes nv g index first rhs leftmost in
  fl ≡ₚ List.filter (in_range index first rhs leftmost) (graph_contents nv g) /\
  StronglySorted (cle (compare index)) fl /\
  mapM (get_flake nv) (slice_for_range nv g index first rhs leftmost) = Some fl /\
  for_each_overlay_flake nv g index first rhs leftmost to_t =
    List.filter (fun f => f_t f <=? to_t) fl.
Proof.
  intros Hs Hg Hb fl. destruct (graph_read_spec nv g index first rhs leftmost Hs Hg Hb)
    as (H1 & H2 & H3). by auto using overlay_flakes_spec.
Qed.

(** Zone-map pruning is sound: a segment that [may_overlap] skips holds no
    flake of the range, and on the others the two binary searches delimit
    exactly the positions whose flake is in the range. *)
Theorem pruning_sound (seg : Segment) (index : IndexType) (first rhs : option Flake)
    (leftmost : bool) :
  seg_wf seg -> bounds_ordinary first rhs ->
  (may_overlap seg index first rhs leftmost = false ->
    forall f, f ∈ seg_flakes seg -> in_range index first rhs leftmost f = false) /\
  flakes_at (seg_flakes seg) (seg_range seg index first rhs leftmost) ≡ₚ
    List.filter (in_range index first rhs leftmost) (seg_flakes seg).
Proof.
  intros Hw Hb. split.
  - intros Ho f Hf. pose proof (may_overlap_sound _ _ _ _ Hb seg Hw Ho) as Hn.
    pose proof (seg_hits_perm index first rhs leftmost seg Hw) as Hp. rewrite Hn in Hp.
    destruct (in_range index first rhs leftmost f) eqn:E; [|done].
    assert (f ∈ List.filter (in_range index first rhs leftmost) (seg_flakes seg)) as Hin
      by by apply elem_of_list_filter_b.
    rewrite <- Hp in Hin. by apply elem_of_nil in Hin.
  - rewrite seg_range_hits by done. by apply seg_hits_perm.
Qed.
End shape.
