(* ===== verification/PlainNovelty.v ===== *)
(** * A concrete sort and hash order

    Instances of the interfaces [SortLib], [HashOrder] and [Attachments] of the
    novelty model: insertion sort, insertion order, and an overlay that keeps
    the flakes it is shown.  They show that the interfaces' laws can hold and
    let the model be evaluated. *)

From stdpp Require Import base list numbers sorting.
From Stdlib Require Import ZArith Lia.
From S2P Require Import Prelude Bytes Cmp Value Plain Flake Segment Novelty.

Local Open Scope Z_scope.

Fixpoint insert_by {A} (c : A -> A -> comparison) (x : A) (l : list A) : list A :=
  match l with
  | [] => [x]
  | y :: l => match c x y with Gt => y :: insert_by c x l | _ => x :: y :: l end
  end.

#[export] Instance PlainSort : SortLib := fun A c l => foldr (insert_by c) [] l.

Lemma insert_by_perm {A} (c : A -> A -> comparison) x l : insert_by c x l ≡ₚ x :: l.
Proof.
  induction l as [|y l IH]; simpl; [done|]. destruct (c x y); try done.
  rewrite IH. apply Permutation_swap.
Qed.

Lemma insert_by_sorted {A} (P : A -> Prop) c (L : CmpLaws P c) x l :
  P x -> Forall P l -> StronglySorted (cle c) l -> StronglySorted (cle c) (insert_by c x l).
Proof.
  intros Hx Hl. induction Hl as [|y l Hy Hl IH]; intros Hs; simpl; [by repeat constructor|].
  apply StronglySorted_inv in Hs as [Hs Hall].
  assert (c x y <> Gt -> StronglySorted (cle c) (x :: y :: l)) as Hle.
  { intros Hc. constructor; [by constructor|]. constructor; [done|].
    rewrite Forall_forall in Hall, Hl. apply Forall_forall. intros z Hz.
    apply (cmp_le_trans (P := P) (c := c) x y z); auto. by apply Hall. }
  destruct (c x y) eqn:E; [by apply Hle..|].
  constructor; [by apply IH|]. rewrite insert_by_perm. constructor; [|done].
  unfold cle. by rewrite (proj1 (cmp_gt_lt (P := P) (c := c) x y Hx Hy) E).
Qed.

Lemma plain_sort_perm {A} (c : A -> A -> comparison) l : sort_by c l ≡ₚ l.
Proof.
  unfold sort_by, PlainSort. induction l as [|x l IH]; simpl; [done|]. by rewrite insert_by_perm, IH.
Qed.

#[export] Instance PlainSortLaws : SortLaws.
Proof.
  split.
  - intros A P c l _ _. apply plain_sort_perm.
  - intros A P c l L Hl. unfold sort_by, PlainSort.
    induction Hl as [|x l Hx Hl IH]; simpl; [constructor|].
    apply (insert_by_sorted P); try done. change (Forall P (sort_by c l)).
    by rewrite plain_sort_perm.
Qed.

#[export] Instance PlainHash : HashOrder := fun V m => m.
#[export] Instance PlainHashLaws : HashLaws.
Proof. intros V m. done. Qed.

#[export] Instance PlainAttachments : Attachments := {|
  AttachmentNovelty := list Flake;
  attachments_new := [];
  observe_flakes a l := a ++ l;
|}.
