(* ===== verification/NoveltyApply.v ===== *)
(** * Novelty: the invariant, and applying commits

    [nov_wf] is the invariant of a novelty overlay: its shape, the running
    totals, and the agreement of the fact index with the flakes held.  This file
    shows that [apply_commit] preserves it and what it adds, and that it is
    atomic. *)

From stdpp Require Import base list numbers sets sorting.
From Stdlib Require Import ZArith Lia.
From S2P Require Import Prelude Bytes GraphRegistry Cmp Value Plain Flake FactState Segment.
From S2P Require Import SegmentRead Novelty NoveltyRead PlainNovelty.

Local Open Scope Z_scope.

(** ** Totals over the graphs *)
Definition total {A} (mu : A -> Z) (l : list A) : Z := foldr Z.add 0 (mu <$> l).

Lemma total_app {A} (mu : A -> Z) l k : total mu (l ++ k) = total mu l + total mu k.
Proof.
  unfold total. induction l as [|x l IH]; [done|]. cbn [app]. rewrite !fmap_cons. cbn [foldr].
  rewrite IH. lia.
Qed.

Lemma total_nonneg {A} (mu : A -> Z) l : (forall x, 0 <= mu x) -> 0 <= total mu l.
Proof.
  intros H. unfold total. induction l as [|x l IH]; [done|]. rewrite fmap_cons. cbn [foldr].
  specialize (H x). lia.
Qed.

Lemma all_segs_app `{ValueLib} (l k : list (option (list Segment))) :
  all_segs (l ++ k) = all_segs l ++ all_segs k.
Proof. unfold all_segs. apply omap_app. Qed.

Lemma all_segs_replicate `{ValueLib} n : all_segs (replicate n None) = [].
Proof. induction n; [done|]. done. Qed.

Lemma total_insert `{ValueLib} (mu : Segment -> Z) graphs idx x :
  (idx < length graphs)%nat ->
  total mu (concat (all_segs (<[idx := x]> graphs))) +
    total mu (default [] (graphs !! idx ≫= id)) =
  total mu (concat (all_segs graphs)) + total mu (default [] x).
Proof.
  intros [y Hy]%lookup_lt_is_Some. rewrite Hy. simpl.
  apply list_elem_of_split_length in Hy as (pre & post & -> & ->).
  rewrite <- (Nat.add_0_r (length pre)). rewrite insert_app_r. simpl.
  rewrite !all_segs_app, !concat_app, !total_app. unfold all_segs. cbn [omap list_omap].
  destruct x as [x|], y as [y|]; cbn [concat default from_option id]; rewrite ?total_app;
    change (total mu []) with 0; unfold id; lia.
Qed.

Lemma total_grow `{ValueLib} (mu : Segment -> Z) graphs idx :
  total mu (concat (all_segs (grow graphs idx))) = total mu (concat (all_segs graphs)).
Proof. unfold grow. by rewrite all_segs_app, all_segs_replicate, app_nil_r. Qed.

Lemma total_push `{ValueLib} (mu : Segment -> Z) graphs idx seg :
  (idx < length graphs)%nat ->
  total mu (concat (all_segs (<[idx := Some (default [] (graphs !! idx ≫= id) ++ [seg])]> graphs))) =
  total mu (concat (all_segs graphs)) + mu seg.
Proof.
  intros Hi. set (old := default [] (graphs !! idx ≫= id)).
  pose proof (total_insert mu graphs idx (Some (old ++ [seg])) Hi) as Ht. fold old in Ht.
  change (default [] (Some (old ++ [seg]))) with (old ++ [seg]) in Ht. rewrite total_app in Ht.
  assert (total mu [seg] = mu seg) by (unfold total; simpl; lia). lia.
Qed.

(** ** Entries by graph *)
Definition batches_of `{ValueLib} (g : Z) (m : list (Z * list Flake)) : list Flake :=
  concat (snd <$> List.filter (fun '(g', _) => g' =? g) m).

Definition flatten `{ValueLib} (m : list (Z * list Flake)) : list (Z * Flake) :=
  concat ((fun gb : Z * list Flake => (fun f => (gb.1, f)) <$> gb.2) <$> m).

Lemma concat_perm {A} (l k : list (list A)) : l ≡ₚ k -> concat l ≡ₚ concat k.
Proof.
  induction 1 as [|x l k H IH|x y l|l k m H1 IH1 H2 IH2]; simpl; [done|by rewrite IH| |by rewrite IH1].
  rewrite !(assoc (++)). by rewrite (comm (++) y x).
Qed.

Lemma batches_of_perm `{ValueLib} g (m m' : list (Z * list Flake)) : m ≡ₚ m' -> batches_of g m ≡ₚ batches_of g m'.
Proof. intros Hp. unfold batches_of. apply concat_perm. by rewrite (list_filter_perm _ _ _ Hp). Qed.

Lemma batches_of_cons `{ValueLib} g g' (batch : list Flake) m :
  batches_of g ((g', batch) :: m) = (if g' =? g then batch else []) ++ batches_of g m.
Proof. unfold batches_of. simpl. by destruct (g' =? g). Qed.

Lemma batches_of_absent `{ValueLib} g (m : list (Z * list Flake)) : g ∉ m.*1 -> batches_of g m = [].
Proof.
  induction m as [|[g' b] m IH]; [done|]. cbn [fmap list_fmap fst]. intros Hn.
  rewrite batches_of_cons. destruct (Z.eqb_spec g' g) as [->|]; [set_solver|].
  apply IH. set_solver.
Qed.

Section apply.
Context `{VL : ValueLib, VLL : !ValueLibLaws, SL : SortLib, SLL : !SortLaws,
  HO : HashOrder, HL : !HashLaws, AT : !Attachments}.

Lemma entry_push_keys m g f g' : g' ∈ (entry_push m g f).*1 <-> g' = g \/ g' ∈ m.*1.
Proof.
  induction m as [|[g0 b] m IH]; cbn [entry_push]; [set_solver|].
  destruct (Z.eqb_spec g0 g) as [->|]; simpl; set_solver.
Qed.

Lemma entry_push_NoDup m g f : NoDup m.*1 -> NoDup (entry_push m g f).*1.
Proof.
  induction m as [|[g0 b] m IH]; cbn [entry_push]; intros Hn; [apply NoDup_singleton|].
  apply NoDup_cons in Hn as [Hg0 Hn]. destruct (Z.eqb_spec g0 g) as [->|]; simpl.
  - by constructor.
  - constructor; [|by apply IH]. rewrite entry_push_keys. by intros [->|].
Qed.

Lemma batches_of_push m g f g' :
  NoDup m.*1 ->
  batches_of g' (entry_push m g f) = batches_of g' m ++ (if g =? g' then [f] else []).
Proof.
  induction m as [|[g0 b] m IH]; cbn [entry_push]; intros Hn.
  - rewrite batches_of_cons. by rewrite app_nil_r.
  - apply NoDup_cons in Hn as [Hg0 Hn]. destruct (Z.eqb_spec g0 g) as [->|]; rewrite !batches_of_cons.
    + destruct (Z.eqb_spec g g') as [->|]; [|by rewrite app_nil_r].
      by rewrite (batches_of_absent g' m Hg0), !app_nil_r.
    + rewrite IH by done. by rewrite (assoc (++)).
Qed.

(** Kept flakes, grouped by graph: what the keep loop accumulates. *)
Definition kept_of (fs : NoveltyFactState) (g : Z) (routed : list (Z * Flake)) : list Flake :=
  snd <$> List.filter (fun '(g', f) => (g' =? g) && negb (is_duplicate fs g' f)) routed.

Record acc_ok (fs : NoveltyFactState) (done : list (Z * Flake)) (acc : KeepAcc) : Prop := {
  ao_nodup : NoDup (ka_per_graph acc).*1;
  ao_batches g : batches_of g (ka_per_graph acc) = kept_of fs g done;
  ao_keys g : g ∈ (ka_per_graph acc).*1 -> g ∈ done.*1;
  ao_nonempty g b : (g, b) ∈ ka_per_graph acc -> b <> [];
}.

Lemma entry_push_nonempty m g f :
  (forall g b, (g, b) ∈ m -> b <> []) -> forall g' b, (g', b) ∈ entry_push m g f -> b <> [].
Proof.
  induction m as [|[g0 b0] m IH]; intros Hm g' b; cbn [entry_push].
  - intros [= -> ->]%list_elem_of_singleton. done.
  - destruct (Z.eqb_spec g0 g) as [->|].
    + intros [[= -> ->]|Hin]%elem_of_cons; [by destruct b0|]. apply (Hm g'). by right.
    + intros [[= -> ->]|Hin]%elem_of_cons; [apply (Hm g0); left|].
      apply (IH (fun g b H => Hm g b (proj2 (elem_of_cons _ _ _) (or_intror H))) g'). done.
Qed.

Lemma keep_step_ok fs done acc gf :
  acc_ok fs done acc -> acc_ok fs (done ++ [gf]) (keep_step fs acc gf).
Proof.
  destruct gf as [g f]. intros [Hn Hb Hk He]. unfold keep_step.
  assert (forall g', kept_of fs g' (done ++ [(g, f)]) =
    kept_of fs g' done ++ (if (g =? g') && negb (is_duplicate fs g f) then [f] else [])) as Hkept.
  { intros g'. unfold kept_of. rewrite list_filter_app, fmap_app. f_equal. simpl.
    by destruct ((g =? g') && negb (is_duplicate fs g f)). }
  destruct (is_duplicate fs g f) eqn:Ed.
  - split; try done; intros g'; [rewrite Hb, Hkept, andb_false_r; simpl; by rewrite app_nil_r|].
    intros H%Hk. rewrite fmap_app. set_solver.
  - split; cbn [ka_per_graph].
    + by apply entry_push_NoDup.
    + intros g'. rewrite batches_of_push, Hb, Hkept by done. by rewrite andb_true_r.
    + intros g' [->|H%Hk]%entry_push_keys; rewrite fmap_app; set_solver.
    + by apply entry_push_nonempty.
Qed.

Lemma keep_fold_ok fs routed :
  acc_ok fs routed (fold_left (keep_step fs) routed keep_new).
Proof.
  assert (forall done acc, acc_ok fs done acc ->
    acc_ok fs (done ++ routed) (fold_left (keep_step fs) routed acc)) as H.
  { induction routed as [|gf l IH]; intros done acc Ha; [by rewrite app_nil_r|]. simpl.
    rewrite cons_middle, (assoc (++)). apply IH. by apply keep_step_ok. }
  apply (H []). split; [constructor|done|done|]. intros g b Hin. cbn in Hin. set_solver.
Qed.

(** ** The invariant *)
Definition totals_ok (nv : Novelty) : Prop :=
  nv_size nv = total_size (nv_graphs nv) /\ nv_flake_count nv = total_count (nv_graphs nv).

(** The fact index gives, for every fact, the operation that wins among the
    flakes held. *)
Definition facts_agree (nv : Novelty) : Prop :=
  facts_ordinary (nv_fact_state nv) /\
  forall g k, 0 <= g -> key_ordinary k ->
    fs_lookup (nv_fact_state nv) g k = resolve k g (pair g <$> graph_contents nv g).

Record nov_wf (nv : Novelty) : Prop := {
  nw_shape : nov_shape nv;
  nw_totals : totals_ok nv;
  nw_facts : facts_agree nv;
}.

Lemma novelty_new_wf t : nov_wf (novelty_new t).
Proof.
  split; [split|done|split].
  - intros g segs _. unfold nv_segs, slot. cbn. by rewrite lookup_nil.
  - by vm_compute.
  - apply facts_new_ordinary.
  - intros g k Hg Hk. unfold fs_lookup, graph_contents, nv_segs, slot. cbn. by rewrite !lookup_nil.
Qed.

(** ** Appending segments *)
Lemma push_segment_segs nv g seg g' :
  0 <= g -> 0 <= g' ->
  nv_segs (push_segment nv g seg) g' =
  if g =? g' then Some (default [] (nv_segs nv g) ++ [seg]) else nv_segs nv g'.
Proof.
  intros Hg Hg'. unfold nv_segs, push_segment. cbn [nv_graphs with_totals with_graphs].
  rewrite slot_insert by (done || apply length_grow). destruct (g =? g'); [|by rewrite slot_grow].
  by rewrite <- (slot_grow (nv_graphs nv) (Z.to_nat g)).
Qed.

Lemma seg_contents_app a b : seg_contents (a ++ b) = seg_contents a ++ seg_contents b.
Proof. unfold seg_contents. by rewrite fmap_app, concat_app. Qed.

Lemma seg_contents_one seg : seg_contents [seg] = seg_flakes seg.
Proof. unfold seg_contents. simpl. by rewrite app_nil_r. Qed.

Lemma push_segment_contents nv g seg g' :
  0 <= g -> 0 <= g' ->
  graph_contents (push_segment nv g seg) g' =
  graph_contents nv g' ++ (if g =? g' then seg_flakes seg else []).
Proof.
  intros Hg Hg'. unfold graph_contents. rewrite push_segment_segs by done.
  destruct (Z.eqb_spec g g') as [<-|]; [|by rewrite app_nil_r].
  cbn [default from_option id]. unfold id. by rewrite seg_contents_app, seg_contents_one.
Qed.

Lemma push_segment_shape nv g seg :
  nov_shape nv -> 0 <= g < 2 ^ 16 -> seg_fit seg -> segment_count nv g + 1 <= MAX_SEGMENTS ->
  nov_shape (push_segment nv g seg).
Proof.
  intros Hs Hg Hfit Hcap. split.
  - intros g' segs Hg'. rewrite push_segment_segs by lia.
    destruct (Z.eqb_spec g g') as [<-|]; [|by apply (ns_segs nv Hs)].
    intros [= <-]. unfold segment_count in Hcap. unfold segs_fit. rewrite zlen_app.
    split; [|by change (zlen [seg]) with 1].
    apply Forall_app. split; [|by apply Forall_singleton].
    destruct (nv_segs nv g) as [segs|] eqn:E; [|constructor].
    by destruct (ns_segs nv Hs g segs Hg' E).
  - unfold push_segment. cbn [nv_graphs with_totals with_graphs]. unfold zlen.
    rewrite length_insert. pose proof (ns_len nv Hs) as Hl. unfold zlen in Hl.
    unfold grow. rewrite length_app, length_replicate. lia.
Qed.

Lemma push_segment_totals nv g seg :
  totals_ok nv -> totals_ok (push_segment nv g seg).
Proof.
  intros [H1 H2]. unfold totals_ok, push_segment. cbn [nv_graphs nv_size nv_flake_count with_totals with_graphs].
  rewrite H1, H2. unfold total_size, total_count.
  pose proof (fun mu => total_push mu (grow (nv_graphs nv) (Z.to_nat g)) (Z.to_nat g) seg
    (length_grow _ _)) as Ht.
  setoid_rewrite total_grow in Ht. unfold total in Ht.
  split; symmetry; [apply (Ht seg_size)|apply (Ht (fun seg => zlen (seg_flakes seg)))].
Qed.

(** A batch that becomes one segment of its graph. *)
Definition batch_fits (nv : Novelty) (gb : Z * list Flake) : Prop :=
  0 <= gb.1 < 2 ^ 16 /\ gb.2 <> [] /\ Forall flake_ordinary gb.2 /\
  zlen gb.2 <= MAX_SEGMENT_FLAKES /\ segment_count nv gb.1 + 1 <= MAX_SEGMENTS.

Lemma seg_build_fit batch :
  batch <> [] -> Forall flake_ordinary batch -> zlen batch <= MAX_SEGMENT_FLAKES ->
  seg_fit (seg_build batch).
Proof. intros ? ? ?. by split; [apply seg_build_wf|..]. Qed.

Lemma push_batches_spec m nv :
  NoDup m.*1 -> Forall (batch_fits nv) m -> nov_shape nv -> totals_ok nv ->
  nov_shape (push_batches nv m) /\ totals_ok (push_batches nv m) /\
  forall g, 0 <= g -> graph_contents (push_batches nv m) g = graph_contents nv g ++ batches_of g m.
Proof.
  revert nv. induction m as [|[g b] m IH]; intros nv Hn Hf Hs Ht.
  - split; [done|]. split; [done|]. intros g _. by rewrite app_nil_r.
  - rewrite fmap_cons in Hn. apply NoDup_cons in Hn as [Hg Hn]. apply Forall_cons in Hf as [Hgb Hf].
    destruct Hgb as (Hr & Hne & Ho & Hlen & Hcap). cbn [fst snd] in *.
    assert (push_batches nv ((g, b) :: m) = push_batches (push_segment nv g (seg_build b)) m) as ->.
    { unfold push_batches. cbn [fold_left]. by destruct b. }
    destruct (IH (push_segment nv g (seg_build b))) as (IH1 & IH2 & IH3).
    + done.
    + apply Forall_forall. intros [g' b'] Hin. rewrite Forall_forall in Hf.
      destruct (Hf _ Hin) as (? & ? & ? & ? & Hc). do 4 (split; [done|]). cbn [fst] in *.
      unfold segment_count in *. rewrite push_segment_segs by lia.
      destruct (Z.eqb_spec g g') as [->|]; [|done].
      exfalso. apply Hg. apply list_elem_of_fmap. by exists (g', b').
    + apply push_segment_shape; try done. by apply seg_build_fit.
    + by apply push_segment_totals.
    + split; [done|]. split; [done|]. intros g' Hg'. rewrite IH3 by done.
      rewrite push_segment_contents, batches_of_cons by lia. cbn [seg_build seg_flakes].
      by rewrite <- (assoc (++)).
Qed.

Lemma push_batches_fields m nv :
  let nv' := push_batches nv m in
  nv_t nv' = nv_t nv /\ nv_epoch nv' = nv_epoch nv /\ nv_fact_state nv' = nv_fact_state nv.
Proof.
  revert nv. induction m as [|[g b] m IH]; intros nv; [done|].
  destruct b as [|f b]; [apply IH|]. destruct (IH (push_segment nv g (seg_build (f :: b)))) as (?&?&?).
  done.
Qed.

(** ** The fact index of a batch *)
Lemma resolve_app k g l l' : resolve k g (l ++ l') = rank_max (resolve k g l) (resolve k g l').
Proof.
  induction l as [|[g' f] l IH]; [done|]. cbn [app resolve]. rewrite IH. by rewrite rank_max_assoc.
Qed.

Lemma resolve_other k g g' b : g' <> g -> resolve k g (pair g' <$> b) = None.
Proof.
  intros Hne. induction b as [|f b IH]; [done|]. rewrite fmap_cons. cbn [resolve].
  by rewrite (proj2 (Z.eqb_neq g' g) Hne), IH.
Qed.

Lemma resolve_flatten k g m : resolve k g (flatten m) = resolve k g (pair g <$> batches_of g m).
Proof.
  induction m as [|[g' b] m IH]; [done|].
  change (flatten ((g', b) :: m)) with ((pair g' <$> b) ++ flatten m).
  rewrite batches_of_cons, resolve_app, fmap_app, resolve_app, IH.
  destruct (Z.eqb_spec g' g) as [->|Hne]; [done|]. by rewrite resolve_other.
Qed.

Lemma record_all_app fs l l' : record_all fs (l ++ l') = record_all (record_all fs l) l'.
Proof. apply fold_left_app. Qed.

Lemma record_graph fs g b : fold_left (fun fs f => record fs g f) b fs = record_all fs (pair g <$> b).
Proof. revert fs. induction b as [|f b IH]; intros fs; [done|]. simpl. apply IH. Qed.

Lemma record_batches_flatten fs m : record_batches fs m = record_all fs (flatten m).
Proof.
  revert fs. induction m as [|[g b] m IH]; intros fs; [done|].
  change (flatten ((g, b) :: m)) with ((pair g <$> b) ++ flatten m).
  rewrite record_all_app, <- IH, <- record_graph. done.
Qed.

Lemma record_all_ordinary fs l :
  facts_ordinary fs -> entries_ordinary l -> facts_ordinary (record_all fs l).
Proof.
  intros Hfs Hl. revert fs Hfs. induction Hl as [|[g f] l [Hg Hf] Hl IH]; intros fs Hfs; [done|].
  apply IH. by apply record_ordinary.
Qed.

(** ** Routing *)
Definition graph_of (reverse_graph : Sid -> option Z) (f : Flake) : option Z :=
  match f_g f with None => Some 0 | Some g => reverse_graph g end.

Definition graph_ids_u16 (reverse_graph : Sid -> option Z) : Prop :=
  forall s g, reverse_graph s = Some g -> in_u 16 g.

Lemma resolve_graph_of f rg g :
  resolve_flake_g_id f rg = Ok g <-> graph_of rg f = Some g.
Proof.
  unfold resolve_flake_g_id, graph_of. destruct (f_g f) as [s|]; simpl.
  - destruct (rg s); simpl; split; congruence.
  - split; congruence.
Qed.

Lemma route_spec rg flakes routed :
  route rg flakes = Ok routed ->
  snd <$> routed = flakes /\ Forall (fun gf => graph_of rg gf.2 = Some gf.1) routed.
Proof.
  revert routed. induction flakes as [|f flakes IH]; intros routed; cbn [route]; intros H.
  - injection H as <-. done.
  - apply outcome_bind_Ok in H as (g & Hg%resolve_graph_of & H).
    apply outcome_bind_Ok in H as (l & Hl & [= <-]). destruct (IH l Hl) as [IH1 IH2].
    split; [by rewrite fmap_cons, IH1|by constructor].
Qed.

Lemma check_graphs_spec nv checked gs res :
  check_graphs nv checked gs = Ok res ->
  (forall g, g ∈ res <-> g ∈ checked \/ g ∈ gs) /\
  (forall g, g ∈ gs -> g ∉ checked -> segment_count nv g + 1 <= MAX_SEGMENTS).
Proof.
  revert checked. induction gs as [|g gs IH]; intros checked; cbn [check_graphs].
  - intros [= <-]. split; [set_solver|]. intros g ?%elem_of_nil. done.
  - case_bool_decide as Hin.
    + intros [IH1 IH2]%IH. split; [set_solver|].
      intros g' [->|Hg']%elem_of_cons Hn; [done|by apply IH2].
    + intros (u & Hc & H)%outcome_bind_Ok. apply IH in H as [IH1 IH2].
      unfold check_segment_capacity in Hc.
      destruct (Z.ltb_spec MAX_SEGMENTS (segment_count nv g + 1)); [done|].
      split; [set_solver|]. intros g' [->|Hg']%elem_of_cons Hn; [lia|].
      destruct (decide (g' = g)) as [->|]; [lia|]. apply IH2; set_solver.
Qed.

Lemma batches_of_elem g b m : NoDup m.*1 -> (g, b) ∈ m -> batches_of g m = b.
Proof.
  induction m as [|[g' b'] m IH]; intros Hn Hin; [by apply elem_of_nil in Hin|].
  rewrite fmap_cons in Hn. apply NoDup_cons in Hn as [Hg Hn]. cbn [fst] in Hg.
  rewrite batches_of_cons. apply elem_of_cons in Hin as [[= <- <-]|Hin].
  - by rewrite Z.eqb_refl, batches_of_absent, app_nil_r.
  - destruct (Z.eqb_spec g' g) as [->|]; [|by apply IH].
    exfalso. apply Hg, list_elem_of_fmap. by exists (g, b).
Qed.

Lemma kept_of_length fs g routed : zlen (kept_of fs g routed) <= zlen routed.
Proof.
  unfold kept_of. rewrite zlen_fmap. induction routed as [|[g' f] l IH]; [done|]. simpl.
  destruct ((g' =? g) && negb (is_duplicate fs g' f)); rewrite ?zlen_cons; lia.
Qed.

Lemma kept_of_elem fs g routed f : f ∈ kept_of fs g routed -> (g, f) ∈ routed.
Proof.
  unfold kept_of. intros ([g' f'] & -> & Hin)%list_elem_of_fmap.
  apply elem_of_list_filter_b in Hin as [Hin [->%Z.eqb_eq _]%andb_true_iff]. done.
Qed.

Lemma shape_ext nv nv' : nv_graphs nv' = nv_graphs nv -> nov_shape nv -> nov_shape nv'.
Proof.
  intros E [H1 H2]. split; [|by rewrite E]. intros g segs. unfold nv_segs. rewrite E. apply H1.
Qed.

(** The state just before the new segments are appended. *)
Definition before_push (nv : Novelty) (routed : list (Z * Flake)) (checked : list Z)
    (commit_t : Z) : Novelty :=
  let acc := fold_left (keep_step (nv_fact_state nv)) routed keep_new in
  let nv1 := bump_epoch (with_t (Z.max (nv_t nv) commit_t) nv) in
  let nv2 := if bool_decide (CONFIG_GRAPH_ID ∈ checked)
             then with_config_write_t (Z.max (nv_config_write_t nv1) commit_t) nv1 else nv1 in
  observe (with_facts (record_batches (nv_fact_state nv) (hash_iter (ka_per_graph acc)))
    (add_epochs (Z.b2z (ka_schema acc)) (Z.b2z (ka_shacl acc)) nv2)) (ka_reifies acc).

Lemma apply_routed_eq nv routed checked commit_t :
  apply_routed nv routed checked commit_t =
  push_batches (before_push nv routed checked commit_t)
    (hash_iter (ka_per_graph (fold_left (keep_step (nv_fact_state nv)) routed keep_new))).
Proof. unfold apply_routed, before_push. by case_bool_decide. Qed.

Lemma before_push_fields nv routed checked commit_t :
  let nv' := before_push nv routed checked commit_t in
  nv_graphs nv' = nv_graphs nv /\ nv_size nv' = nv_size nv /\
  nv_flake_count nv' = nv_flake_count nv /\ nv_t nv' = Z.max (nv_t nv) commit_t /\
  nv_epoch nv' = nv_epoch nv + 1 /\
  nv_fact_state nv' = record_batches (nv_fact_state nv)
    (hash_iter (ka_per_graph (fold_left (keep_step (nv_fact_state nv)) routed keep_new))).
Proof. unfold before_push, observe. case_bool_decide; by destruct (ka_reifies _). Qed.

Lemma apply_routed_spec nv routed checked commit_t :
  nov_wf nv -> Forall (fun gf => in_u 16 gf.1 /\ flake_ordinary gf.2) routed ->
  zlen routed <= MAX_SEGMENT_FLAKES ->
  (forall g, g ∈ routed.*1 -> segment_count nv g + 1 <= MAX_SEGMENTS) ->
  let nv' := apply_routed nv routed checked commit_t in
  nov_wf nv' /\ nv_t nv' = Z.max (nv_t nv) commit_t /\ nv_epoch nv' = nv_epoch nv + 1 /\
  forall g, 0 <= g ->
    graph_contents nv' g ≡ₚ graph_contents nv g ++ kept_of (nv_fact_state nv) g routed.
Proof.
  intros [Hs Ht [Hfo Hf]] Hr Hlen Hcap nv'.
  destruct (before_push_fields nv routed checked commit_t) as (Eg & Es & Ec & Et & Ee & Ef).
  pose proof (keep_fold_ok (nv_fact_state nv) routed) as [Hnd Hb Hk Hne].
  set (acc := fold_left (keep_step (nv_fact_state nv)) routed keep_new) in *.
  set (m := hash_iter (ka_per_graph acc)) in *.
  assert (m ≡ₚ ka_per_graph acc) as Hm by apply hash_iter_perm.
  assert (NoDup m.*1) as Hndm by by rewrite Hm.
  assert (forall g, batches_of g m ≡ₚ kept_of (nv_fact_state nv) g routed) as Hbm.
  { intros g. by rewrite <- Hb, (batches_of_perm g _ _ Hm). }
  assert (forall g f, (g, f) ∈ routed -> in_u 16 g /\ flake_ordinary f) as Hr'.
  { intros g f Hin. rewrite Forall_forall in Hr. apply (Hr _ Hin). }
  assert (forall g b, (g, b) ∈ m -> forall f, f ∈ b -> (g, f) ∈ routed) as Hbr.
  { intros g b Hin f Hfb. apply (kept_of_elem (nv_fact_state nv)).
    rewrite <- Hbm, (batches_of_elem g b m) by done. done. }
  assert (Forall (batch_fits (before_push nv routed checked commit_t)) m) as Hfits.
  { apply Forall_forall. intros [g b] Hin. rewrite Hm in Hin. pose proof (Hne g b Hin) as Hnb.
    assert (g ∈ routed.*1) as Hgr. { apply Hk, list_elem_of_fmap. by exists (g, b). }
    rewrite <- Hm in Hin. destruct b as [|f b]; [done|].
    assert ((g, f) ∈ routed) as Hgf by (apply (Hbr g (f :: b) Hin); left).
    split; [apply (Hr' _ _ Hgf)|]. split; [done|]. split; [|split].
    - apply Forall_forall. intros f' Hf'. apply (Hr' g f'), (Hbr g (f :: b) Hin f' Hf').
    - cbn [snd]. rewrite <- (batches_of_elem g (f :: b) m Hndm Hin).
      etransitivity; [|exact Hlen]. rewrite <- (kept_of_length (nv_fact_state nv) g routed).
      unfold zlen. by rewrite (Permutation_length (Hbm g)).
    - cbn [fst]. unfold segment_count, nv_segs. rewrite Eg. by apply Hcap. }
  destruct (push_batches_spec m (before_push nv routed checked commit_t) Hndm Hfits)
    as (Hs' & Ht' & Hc').
  { by apply (shape_ext nv). }
  { unfold totals_ok. by rewrite Eg, Es, Ec. }
  destruct (push_batches_fields m (before_push nv routed checked commit_t)) as (Et' & Ee' & Ef').
  subst nv'. rewrite apply_routed_eq. fold acc. fold m.
  assert (forall g, 0 <= g -> graph_contents (push_batches (before_push nv routed checked commit_t) m) g
    ≡ₚ graph_contents nv g ++ kept_of (nv_fact_state nv) g routed) as Hcont.
  { intros g Hg. rewrite Hc' by done. unfold graph_contents at 1, nv_segs. rewrite Eg.
    by rewrite (Hbm g). }
  split; [|by rewrite Et', Ee', Et, Ee]. split; [done|done|].
  assert (entries_ordinary (flatten m)) as Heo.
  { apply Forall_forall. intros [g f] (l & Hl & Hin)%elem_of_concat.
    apply list_elem_of_fmap in Hin as ([g' b] & -> & Hin).
    apply list_elem_of_fmap in Hl as (f' & [= -> ->] & Hf'). cbn [fst snd] in *.
    destruct (Hr' g' f' (Hbr g' b Hin f' Hf')) as [[? ?] ?]. done. }
  unfold facts_agree. rewrite Ef', Ef, record_batches_flatten. split; [by apply record_all_ordinary|].
  intros g k Hg Hk'. rewrite record_all_lookup, Hf by done. rewrite resolve_flatten.
  rewrite <- resolve_app, <- fmap_app. apply resolve_permutation. by rewrite Hcont, (Hbm g).
Qed.

(** ** Specification of a commit *)

(** A fact is asserted when the operation that wins among the flakes held is an
    assertion. *)
Definition currently_asserted (nv : Novelty) (g : Z) (f : Flake) : bool :=
  match resolve (key_of f) g (pair g <$> graph_contents nv g) with
  | Some (_, op) => op
  | None => false
  end.

(** The flakes of a batch that belong to a graph and are not duplicates. *)
Definition accepted (nv : Novelty) (reverse_graph : Sid -> option Z) (g : Z) (flakes : list Flake)
    : list Flake :=
  List.filter (fun f => bool_decide (graph_of reverse_graph f = Some g) &&
    negb (f_op f && currently_asserted nv g f)) flakes.

Lemma is_asserted_spec nv g f :
  facts_agree nv -> 0 <= g -> flake_ordinary f ->
  is_asserted (nv_fact_state nv) g f = currently_asserted nv g f.
Proof.
  intros [_ Hf] Hg Ho. unfold is_asserted, currently_asserted. by rewrite Hf.
Qed.

Lemma kept_of_accepted nv rg routed flakes g :
  facts_agree nv -> 0 <= g -> Forall flake_ordinary flakes -> route rg flakes = Ok routed ->
  kept_of (nv_fact_state nv) g routed = accepted nv rg g flakes.
Proof.
  intros Hf Hg Ho [<- Hr]%route_spec. unfold kept_of, accepted.
  induction Hr as [|[g' f] routed Hgf Hr IH]; [done|]. rewrite fmap_cons in Ho.
  apply Forall_cons in Ho as [Hof Ho]. rewrite fmap_cons. cbn [List.filter fst snd] in *.
  rewrite Hgf. rewrite <- IH by done. unfold is_duplicate.
  destruct (Z.eqb_spec g' g) as [->|Hne].
  - rewrite bool_decide_eq_true_2 by done. rewrite is_asserted_spec by done.
    by destruct (negb (f_op f && currently_asserted nv g f)).
  - rewrite bool_decide_eq_false_2 by congruence. done.
Qed.

Lemma graph_of_u16 rg f g : graph_ids_u16 rg -> graph_of rg f = Some g -> in_u 16 g.
Proof.
  intros Hrg. unfold graph_of. destruct (f_g f); [apply Hrg|]. by intros [= <-].
Qed.

Lemma can_apply_loop_spec nv rg checked flakes :
  can_apply_loop nv rg checked flakes = Ok tt <->
  exists routed res, route rg flakes = Ok routed /\ check_graphs nv checked routed.*1 = Ok res.
Proof.
  revert checked. induction flakes as [|f flakes IH]; intros checked; cbn [can_apply_loop route].
  - split; [|done]. intros _. exists [], checked. done.
  - destruct (resolve_flake_g_id f rg) as [g|e|] eqn:Eg; simpl;
      [|split; [done|by intros (?&?&?&?)]..].
    assert (forall routed, check_graphs nv checked ((g, f) :: routed).*1 =
      (if bool_decide (g ∈ checked) then check_graphs nv checked routed.*1
       else _ ← check_segment_capacity nv g; check_graphs nv (g :: checked) routed.*1)) as Hc by done.
    case_bool_decide as Hin.
    + rewrite IH. split.
      * intros (routed & res & -> & H). exists ((g, f) :: routed), res. by rewrite Hc.
      * intros (routed & res & H & H'). apply outcome_bind_Ok in H as (l & Hl & [= <-]).
        rewrite Hc in H'. by exists l, res.
    + destruct (check_segment_capacity nv g) as [u|e|] eqn:Es; simpl.
      * rewrite IH. split.
        -- intros (routed & res & -> & H). exists ((g, f) :: routed), res. by rewrite Hc.
        -- intros (routed & res & H & H'). apply outcome_bind_Ok in H as (l & Hl & [= <-]).
           rewrite Hc in H'. by exists l, res.
      * split; [done|]. intros (routed & res & H & H'). apply outcome_bind_Ok in H as (l & Hl & [= <-]).
        by rewrite Hc in H'.
      * split; [done|]. intros (routed & res & H & H'). apply outcome_bind_Ok in H as (l & Hl & [= <-]).
        by rewrite Hc in H'.
Qed.

(** ** Properties *)

(** Errors change nothing, and [can_apply] predicts them. *)
Lemma apply_commit_all_or_nothing (nv : Novelty) (flakes : list Flake) (commit_t : Z)
    (reverse_graph : Sid -> option Z) :
  let '(nv', r) := apply_commit nv flakes commit_t reverse_graph in
  (is_ok r = false -> nv' = nv) /\
  (is_ok r = true <-> can_apply nv flakes reverse_graph = Ok tt).
Proof.
  unfold apply_commit, can_apply. destruct flakes as [|f flakes]; [done|].
  set (fl := f :: flakes). destruct (Z.ltb_spec MAX_SEGMENT_FLAKES (zlen fl)); [done|].
  pose proof (can_apply_loop_spec nv reverse_graph [] fl) as Hc.
  destruct (route reverse_graph fl) as [routed|e|] eqn:Er.
  - destruct (check_graphs nv [] (fst <$> routed)) as [res|e|] eqn:Ec; rewrite Hc;
      (split; [done|]); (split; [|try done]).
    + intros _. by exists routed, res.
    + done.
    + intros (? & ? & [= ->] & ?). congruence.
    + done.
    + intros (? & ? & [= ->] & ?). congruence.
  - rewrite Hc. split; [done|]. split; [done|]. by intros (?&?&?&?).
  - rewrite Hc. split; [done|]. split; [done|]. by intros (?&?&?&?).
Qed.

(** C31: Applying a commit is all or nothing.  When [apply_commit] reports an
    error the overlay is exactly what it was; and [can_apply] accepts a batch
    precisely when [apply_commit] then succeeds on it, so a caller that checked
    first never sees a failure. *)
Theorem apply_commit_atomic (nv : Novelty) (flakes : list Flake) (commit_t : Z)
    (reverse_graph : Sid -> option Z) :
  let '(nv', r) := apply_commit nv flakes commit_t reverse_graph in
  (is_ok r = false -> nv' = nv) /\
  (is_ok r = true <-> can_apply nv flakes reverse_graph = Ok tt).
Proof. apply apply_commit_all_or_nothing. Qed.

(** What a successful commit leaves in each graph. *)
Lemma apply_commit_spec (nv : Novelty) (flakes : list Flake) (commit_t : Z)
    (reverse_graph : Sid -> option Z) :
  nov_wf nv -> Forall flake_ordinary flakes -> graph_ids_u16 reverse_graph -> flakes <> [] ->
  let '(nv', r) := apply_commit nv flakes commit_t reverse_graph in
  is_ok r = true ->
  nov_wf nv' /\ nv_t nv' = Z.max (nv_t nv) commit_t /\ nv_epoch nv' = nv_epoch nv + 1 /\
  forall g, 0 <= g ->
    graph_contents nv' g ≡ₚ graph_contents nv g ++ accepted nv reverse_graph g flakes.
Proof.
  intros Hw Ho Hrg Hne. unfold apply_commit. destruct flakes as [|f flakes]; [done|].
  set (fl := f :: flakes) in *. destruct (Z.ltb_spec MAX_SEGMENT_FLAKES (zlen fl)) as [|Hlen]; [done|].
  destruct (route reverse_graph fl) as [routed|e|] eqn:Er; [|done..].
  destruct (check_graphs nv [] (fst <$> routed)) as [res|e|] eqn:Ec; [|done..]. intros _.
  destruct (route_spec _ _ _ Er) as [Hsnd Hr]. apply check_graphs_spec in Ec as [_ Hcap].
  destruct (apply_routed_spec nv routed res commit_t Hw) as (H1 & H2 & H3 & H4).
  - rewrite Forall_forall in Hr. rewrite Forall_forall in Ho. apply Forall_forall. intros [g f'] Hin. split.
    + apply (graph_of_u16 reverse_graph f'); [done|]. apply (Hr _ Hin).
    + apply Ho. rewrite <- Hsnd. apply list_elem_of_fmap. by exists (g, f').
  - by rewrite <- Hsnd, zlen_fmap in Hlen.
  - intros g Hg. apply Hcap; [done|]. apply not_elem_of_nil.
  - do 3 (split; [done|]). intros g Hg. rewrite H4 by done.
    by rewrite (kept_of_accepted nv reverse_graph routed fl) by (done || apply Hw).
Qed.

(** C5: A successful commit adds to every graph exactly the batch's flakes that
    belong to it, except assertions of facts that the flakes held so far
    already assert (set semantics; retractions are always kept).  It advances
    the clock and the epoch, and preserves the invariant: well-formed segments
    within the id limits, exact byte and flake totals, and a fact index that
    agrees with the flakes held. *)
Theorem apply_commit_contents (nv : Novelty) (flakes : list Flake) (commit_t : Z)
    (reverse_graph : Sid -> option Z) :
  nov_wf nv -> Forall flake_ordinary flakes -> graph_ids_u16 reverse_graph -> flakes <> [] ->
  let '(nv', r) := apply_commit nv flakes commit_t reverse_graph in
  is_ok r = true ->
  nov_wf nv' /\ nv_t nv' = Z.max (nv_t nv) commit_t /\ nv_epoch nv' = nv_epoch nv + 1 /\
  forall g, 0 <= g ->
    graph_contents nv' g ≡ₚ graph_contents nv g ++ accepted nv reverse_graph g flakes.
Proof. apply apply_commit_spec. Qed.
End apply.

(** A commit of two graphs, one of whose facts is already known. *)
Definition sample_graphs (s : Sid) : option Z :=
  if bool_decide (s = mkSid 9 [103]) then Some 3 else None.

Definition in_graph (f : Flake) : Flake :=
  flake_new_in_graph (mkSid 9 [103]) (f_s f) (f_p f) (f_o f) (f_dt f) (f_t f) (f_op f) (f_m f).

Definition sample_batch : list Flake :=
  [sample_flake (Long 3) 1; in_graph (sample_flake (Long 4) 1); sample_flake (Long 2) 1].

Lemma sample_graphs_u16 : graph_ids_u16 sample_graphs.
Proof. intros s g. unfold sample_graphs. case_bool_decide; [|done]. by intros [= <-]. Qed.

Lemma sample_batch_ordinary : Forall flake_ordinary sample_batch.
Proof. by repeat constructor. Qed.

Lemma apply_commit_contents_witness :
  let '(nv', r) := apply_commit (novelty_new 0) sample_batch 1 sample_graphs in
  is_ok r = true /\
  forall g, 0 <= g ->
    graph_contents nv' g ≡ₚ graph_contents (novelty_new 0) g ++
      accepted (novelty_new 0) sample_graphs g sample_batch.
Proof.
  pose proof (apply_commit_contents (novelty_new 0) sample_batch 1 sample_graphs
    (novelty_new_wf 0) sample_batch_ordinary sample_graphs_u16 ltac:(discriminate)) as H.
  assert (is_ok (snd (apply_commit (novelty_new 0) sample_batch 1 sample_graphs)) = true) as Hok
    by reflexivity.
  destruct (apply_commit (novelty_new 0) sample_batch 1 sample_graphs) as [nv' r].
  split; [exact Hok|]. apply (H Hok).
Defined.

(** A novelty overlay holding the sample batch. *)
Definition sample_novelty : Novelty :=
  fst (apply_commit (novelty_new 0) sample_batch 1 sample_graphs).

Lemma sample_novelty_wf : nov_wf sample_novelty.
Proof.
  change sample_novelty with (apply_routed (novelty_new 0)
    [(0, sample_flake (Long 3) 1); (3, in_graph (sample_flake (Long 4) 1)); (0, sample_flake (Long 2) 1)]
    [3; 0] 1).
  apply apply_routed_spec; [apply novelty_new_wf|by repeat constructor|done|].
  intros g Hg. unfold segment_count, nv_segs, slot. cbn. by rewrite lookup_nil.
Qed.

Lemma novelty_read_exact_witness :
  let fl := range_flakes sample_novelty 0 Post None (Some (sample_flake (Long 2) 1)) true in
  fl ≡ₚ List.filter (in_range Post None (Some (sample_flake (Long 2) 1)) true)
    (graph_contents sample_novelty 0) /\
  StronglySorted (cle (compare Post)) fl /\
  mapM (get_flake sample_novelty)
    (slice_for_range sample_novelty 0 Post None (Some (sample_flake (Long 2) 1)) true) = Some fl /\
  for_each_overlay_flake sample_novelty 0 Post None (Some (sample_flake (Long 2) 1)) true 0 =
    List.filter (fun f => f_t f <=? 0) fl.
Proof.
  apply (novelty_read_exact sample_novelty 0 Post None (Some (sample_flake (Long 2) 1)) true 0);
    [apply sample_novelty_wf|done|done].
Defined.

Lemma pruning_sound_witness :
  let seg := seg_build sample_batch in
  (may_overlap seg Post None (Some (sample_flake (Long 1) 1)) true = false ->
    forall f, f ∈ seg_flakes seg -> in_range Post None (Some (sample_flake (Long 1) 1)) true f = false) /\
  flakes_at (seg_flakes seg) (seg_range seg Post None (Some (sample_flake (Long 1) 1)) true) ≡ₚ
    List.filter (in_range Post None (Some (sample_flake (Long 1) 1)) true) (seg_flakes seg).
Proof.
  apply (pruning_sound (seg_build sample_batch) Post None (Some (sample_flake (Long 1) 1)) true);
    [apply seg_build_wf, sample_batch_ordinary|done].
Defined.
