(* ===== verification/NoveltyCompact.v ===== *)
(** * Novelty: tiered compaction and clearing

    [tier_compact] rearranges segments without changing what a graph holds;
    [clear_up_to] keeps exactly the flakes after the cutoff.  Both preserve the
    invariant of NoveltyApply.v, so every overlay the operations can reach
    satisfies it. *)

From stdpp Require Import base list numbers sets sorting relations.
From Stdlib Require Import ZArith Lia.
From S2P Require Import Prelude Bytes Cmp Value Plain Flake FactState Segment.
From S2P Require Import SegmentRead Novelty NoveltyRead PlainNovelty NoveltyApply.

Local Open Scope Z_scope.

(** ** Size classes *)
Lemma size_class_loop_spec fuel count w class bound :
  2 <= w -> 0 <= class -> 64 <= class + Z.of_nat fuel ->
  1 <= count < 2 ^ 64 -> bound = w ^ (class + 1) -> bound < 2 ^ 64 -> w ^ class <= count ->
  let c := size_class_loop fuel count w class bound in
  class <= c /\ w ^ c <= count < w ^ (c + 1).
Proof.
  intros Hw. revert class bound. induction fuel as [|fuel IH]; intros class bound Hc Hf Hn Hb Hlt Hle.
  - exfalso. subst bound.
    assert (2 ^ 64 <= 2 ^ (class + 1)) by (apply Z.pow_le_mono_r; lia).
    assert (2 ^ (class + 1) <= w ^ (class + 1)) by (apply Z.pow_le_mono_l; lia). lia.
  - cbn [size_class_loop]. destruct (Z.leb_spec bound count) as [Hge|Hlt']; [|simpl; lia].
    assert (bound * w = w ^ (class + 1 + 1)) as Hbw.
    { subst bound. rewrite (Z.pow_add_r w (class + 1) 1) by lia. lia. }
    destruct (Z.ltb_spec (bound * w) (2 ^ 64)) as [Hb64|Hb64].
    + destruct (IH (class + 1) (bound * w)) as [H1 H2]; lia.
    + simpl. rewrite <- Hbw. subst bound. lia.
Qed.

Lemma size_class_loop_le fuel count w class bound :
  class <= size_class_loop fuel count w class bound <= class + Z.of_nat fuel.
Proof.
  revert class bound. induction fuel as [|fuel IH]; intros class bound; cbn [size_class_loop]; [lia|].
  destruct (bound <=? count); [|lia]. destruct (_ <? _); [|lia]. specialize (IH (class + 1) (bound * w)).
  lia.
Qed.

Lemma size_class_range count w : 0 <= size_class count w <= 64.
Proof.
  unfold size_class. destruct (_ || _); [lia|].
  pose proof (size_class_loop_le 64 count w 0 w). lia.
Qed.

(** A class is the integer logarithm of the count. *)
Lemma size_class_pow count w :
  2 <= w -> 1 <= count < 2 ^ 64 ->
  w ^ size_class count w <= count < w ^ (size_class count w + 1).
Proof.
  intros Hw Hc. unfold size_class. destruct (Z.ltb_spec w 2); [lia|]. rewrite orb_false_r.
  destruct (Z.leb_spec count 1) as [H1|H1].
  { change (w ^ 0) with 1. change (0 + 1) with 1. rewrite Z.pow_1_r. lia. }
  destruct (Z.ltb_spec w (2 ^ 64)) as [Hlt|Hge].
  - apply (size_class_loop_spec 64 count w 0 w); rewrite ?Z.pow_1_r; lia.
  - cbn [size_class_loop]. destruct (Z.leb_spec w count); [lia|].
    change (w ^ 0) with 1. change (0 + 1) with 1. rewrite Z.pow_1_r. lia.
Qed.

(** ** Splitting into chunks *)
Section compact.
Context `{VL : ValueLib, VLL : !ValueLibLaws, SL : SortLib, SLL : !SortLaws,
  HO : HashOrder, HL : !HashLaws, AT : !Attachments}.

Lemma max_flakes_pos : (0 < Z.to_nat MAX_SEGMENT_FLAKES)%nat.
Proof. change MAX_SEGMENT_FLAKES with (2 ^ 24). lia. Qed.

Lemma chunks_spec fuel (flakes : list Flake) :
  flakes <> [] -> (length flakes <= fuel)%nat ->
  concat (chunks fuel flakes) = flakes /\
  Forall (fun c => c <> [] /\ zlen c <= MAX_SEGMENT_FLAKES) (chunks fuel flakes) /\
  forall n, 1 <= n -> zlen flakes <= n * MAX_SEGMENT_FLAKES -> zlen (chunks fuel flakes) <= n.
Proof.
  pose proof max_flakes_pos as Hpos.
  assert (Z.of_nat (Z.to_nat MAX_SEGMENT_FLAKES) = MAX_SEGMENT_FLAKES) as Hz by lia.
  remember (Z.to_nat MAX_SEGMENT_FLAKES) as M eqn:EM.
  revert flakes. induction fuel as [|fuel IH]; intros flakes Hne Hlen.
  - destruct flakes; [done|simpl in Hlen; lia].
  - cbn [chunks]. rewrite <- EM. destruct (Z.ltb_spec MAX_SEGMENT_FLAKES (zlen flakes)) as [Hgt|Hle].
    + unfold zlen in Hgt.
      destruct (IH (drop M flakes)) as (H1 & H2 & H3).
      * intros E%(f_equal length). rewrite length_drop in E. simpl in E. lia.
      * rewrite length_drop. lia.
      * split; [cbn [concat]; by rewrite H1, take_drop|]. split.
        -- constructor; [|done]. split.
           ++ intros E%(f_equal length). rewrite length_take in E. simpl in E. lia.
           ++ unfold zlen. rewrite length_take. lia.
        -- intros n Hn Hl. rewrite zlen_cons.
           assert (2 <= n) by (unfold zlen in Hl; nia).
           assert (zlen (chunks fuel (drop M flakes)) <= n - 1); [|lia].
           apply H3; [lia|]. unfold zlen in *. rewrite length_drop. lia.
    + split; [simpl; by rewrite app_nil_r|]. split; [by repeat constructor|].
      intros n Hn _. by rewrite zlen_cons, zlen_nil.
Qed.

Lemma build_chunks_spec flakes :
  flakes <> [] -> Forall flake_ordinary flakes ->
  seg_contents (build_chunks flakes) = flakes /\ Forall seg_fit (build_chunks flakes) /\
  forall n, 1 <= n -> zlen flakes <= n * MAX_SEGMENT_FLAKES -> zlen (build_chunks flakes) <= n.
Proof.
  intros Hne Ho. destruct (chunks_spec (length flakes) flakes Hne (le_n _)) as (H1 & H2 & H3).
  unfold build_chunks. split; [|split].
  - unfold seg_contents. rewrite <- list_fmap_compose.
    rewrite (list_fmap_ext _ id) by done. by rewrite list_fmap_id.
  - apply Forall_fmap. rewrite Forall_forall in H2. apply Forall_forall. intros c Hc.
    destruct (H2 c Hc) as [Hcn Hcl]. apply seg_build_fit; [done| |done].
    rewrite Forall_forall in Ho. apply Forall_forall. intros f Hf. apply Ho.
    rewrite <- H1. apply elem_of_concat. eauto.
  - intros n. by rewrite zlen_fmap; apply H3.
Qed.

(** ** One merge *)
Lemma take_class_spec w target n segs flakes keep :
  0 <= n -> Forall seg_fit segs -> take_class w target n segs = (flakes, keep) ->
  seg_contents segs ≡ₚ flakes ++ seg_contents keep /\ Forall seg_fit keep /\
  exists taken, 0 <= taken /\ zlen keep + taken = zlen segs /\
    zlen flakes <= taken * MAX_SEGMENT_FLAKES /\ (1 <= taken -> flakes <> []) /\
    (1 <= n -> 1 <= class_count target (seg_class w <$> segs) -> 1 <= taken).
Proof.
  intros Hn Hf. revert n flakes keep Hn. induction Hf as [|seg segs Hseg Hf IH]; intros n flakes keep Hn.
  - cbn [take_class]. intros [= <- <-]. do 2 (split; [done|]). exists 0.
    by repeat (split; [done|]).
  - cbn [take_class]. change (seg_contents (seg :: segs)) with (seg_flakes seg ++ seg_contents segs).
    rewrite fmap_cons. unfold class_count. cbn [List.filter].
    destruct ((0 <? n) && (seg_class w seg =? target)) eqn:E.
    + apply andb_true_iff in E as [En%Z.ltb_lt Et%Z.eqb_eq].
      destruct (take_class w target (n - 1) segs) as [fl kp] eqn:Etc. intros [= <- <-].
      destruct (IH (n - 1) fl kp) as (H1 & H2 & tk & Ht0 & Ht1 & Ht2 & Ht3 & Ht4); [lia|done|].
      split; [by rewrite H1, (assoc (++))|]. split; [done|]. exists (tk + 1).
      pose proof (sf_len _ Hseg). rewrite zlen_cons, zlen_app.
      split; [lia|]. split; [lia|]. split; [lia|]. split; [|lia].
      intros _ [E _]%app_eq_nil. by apply (sf_nonempty _ Hseg).
    + destruct (take_class w target n segs) as [fl kp] eqn:Etc. intros [= <- <-].
      destruct (IH n fl kp) as (H1 & H2 & tk & Ht0 & Ht1 & Ht2 & Ht3 & Ht4); [lia|done|].
      split.
      { rewrite H1. change (seg_contents (seg :: kp)) with (seg_flakes seg ++ seg_contents kp).
        rewrite !(assoc (++)). by rewrite (comm (++) (seg_flakes seg)). }
      split; [by constructor|]. exists tk. rewrite !zlen_cons.
      do 2 (split; [lia|]). split; [done|]. split; [done|]. intros H1n Hcc. apply Ht4; [done|].
      apply andb_false_iff in E as [En%Z.ltb_ge|Et%Z.eqb_neq]; [lia|].
      by rewrite (proj2 (Z.eqb_neq target _)) in Hcc by congruence.
Qed.

Lemma min_of_elem x l : min_of x l ∈ x :: l.
Proof.
  unfold min_of. revert x. induction l as [|y l IH]; intros x; simpl; [left|].
  specialize (IH (Z.min x y)). apply elem_of_cons in IH as [->|IH]; [|by right; right].
  destruct (Z.min_spec x y) as [[_ ->]|[_ ->]]; [left|right; left].
Qed.

Lemma full_classes_elem w min_class segs c :
  c ∈ full_classes w min_class segs ->
  min_class <= c <= 64 /\ w <= class_count c (seg_class w <$> segs).
Proof.
  unfold full_classes. intros [[Hin Hmin%Z.leb_le]%elem_of_list_filter_b Hc%Z.leb_le]%elem_of_list_filter_b.
  apply list_elem_of_fmap in Hin as (seg & -> & _). split; [split; [done|apply size_class_range]|].
  etransitivity; [exact Hc|]. unfold class_count, zlen.
  apply inj_le, sublist_length. clear. induction (seg_class w <$> segs) as [|x l IH]; [done|].
  simpl. destruct (min_class <=? x); simpl; destruct (seg_class w seg =? x); by repeat constructor.
Qed.

(** A cascade terminates, keeps every flake and adds no segment. *)
Lemma tier_loop_spec fuel w min_class merges segs :
  2 <= w -> 0 <= min_class <= 65 -> 65 < min_class + Z.of_nat fuel -> segs_fit segs ->
  exists segs' merges', tier_loop fuel w min_class merges segs = Some (segs', merges') /\
    segs_fit segs' /\ seg_contents segs' ≡ₚ seg_contents segs /\ zlen segs' <= zlen segs /\
    merges <= merges' /\ (merges' = merges -> segs' = segs) /\
    (merges' = merges <-> zlen segs < w \/ full_classes w min_class segs = []).
Proof.
  intros Hw. revert min_class merges segs.
  induction fuel as [|fuel IH]; intros min_class merges segs Hmc Hfuel [Hf Hcap]; [lia|].
  cbn [tier_loop]. destruct (Z.ltb_spec (zlen segs) w) as [Hlt|Hge].
  { exists segs, merges. do 4 (split; [done|]). split; [lia|]. split; [done|]. split; [by left|done]. }
  destruct (full_classes w min_class segs) as [|c cs] eqn:Efc.
  { exists segs, merges. do 4 (split; [done|]). split; [lia|]. split; [done|]. split; [by right|done]. }
  pose proof (min_of_elem c cs) as Hin. rewrite <- Efc in Hin.
  apply full_classes_elem in Hin as [Htgt Hcount]. set (target := min_of c cs) in *.
  destruct (take_class w target w segs) as [flakes keep] eqn:Etc.
  destruct (take_class_spec w target w segs flakes keep ltac:(lia) Hf Etc)
    as (Hp & Hk & taken & _ & Hlen & Hfl & Hne & Htk).
  assert (1 <= taken) as Ht1 by (apply Htk; lia).
  assert (Forall flake_ordinary flakes) as Ho.
  { apply Forall_forall. intros f Hfin. assert (f ∈ seg_contents segs) as H.
    { rewrite Hp. apply elem_of_app. by left. }
    apply elem_of_concat in H as (l & Hfl' & Hl). apply list_elem_of_fmap in Hl as (seg & -> & Hs).
    rewrite Forall_forall in Hf. pose proof (sw_ordinary _ (sf_wf _ (Hf _ Hs))) as Hord.
    by rewrite Forall_forall in Hord; apply Hord. }
  destruct (build_chunks_spec flakes (Hne Ht1) Ho) as (Hb1 & Hb2 & Hb3).
  specialize (Hb3 taken Ht1 Hfl).
  destruct (IH (target + 1) (merges + 1) (keep ++ build_chunks flakes))
    as (segs' & merges' & -> & H1 & H2 & H3 & H4 & _); [lia|lia| |].
  { split; [by apply Forall_app|]. rewrite zlen_app. lia. }
  exists segs', merges'. rewrite zlen_app in H3. rewrite seg_contents_app, Hb1 in H2.
  split; [done|]. split; [done|]. split; [by rewrite H2, Hp, (comm (++))|]. split; [lia|].
  split; [lia|]. split; [lia|]. split; [lia|]. intros [?|?]; [lia|done].
Qed.

Lemma tier_compact_graph_spec w s :
  2 <= w -> (forall segs, s = Some segs -> segs_fit segs) ->
  exists s' merges, tier_compact_graph w s = Some (s', merges) /\
    (forall segs, s' = Some segs -> segs_fit segs) /\
    seg_contents (default [] s') ≡ₚ seg_contents (default [] s) /\
    zlen (default [] s') <= zlen (default [] s) /\ 0 <= merges /\ (merges = 0 -> s' = s) /\
    (merges = 0 <-> forall segs, s = Some segs -> zlen segs < w \/ full_classes w 0 segs = []).
Proof.
  intros Hw Hs. destruct s as [segs|]; cbn [tier_compact_graph].
  - destruct (tier_loop_spec 66 w 0 0 segs) as (segs' & m & -> & H1 & H2 & H3 & H4 & H5 & H6);
      [done|lia|lia|by apply Hs|].
    exists (Some segs'), m. split; [done|]. split; [by intros ? [= <-]|]. split; [done|].
    split; [done|]. split; [done|]. split; [by intros ->%H5|]. rewrite H6.
    split; [by intros ? ? [= <-]|]. intros H. by apply H.
  - exists None, 0. by repeat (split; [done|]).
Qed.

(** ** The whole overlay *)
Lemma graphs_fit nv i s segs :
  nov_shape nv -> nv_graphs nv !! i = Some s -> s = Some segs -> segs_fit segs.
Proof.
  intros Hs Hi ->. apply (ns_segs nv Hs (Z.of_nat i)); [lia|].
  unfold nv_segs, slot. by rewrite Nat2Z.id, Hi.
Qed.

Lemma sum_zero (l : list Z) : Forall (fun x => 0 <= x) l ->
  0 <= foldr Z.add 0 l /\ (foldr Z.add 0 l = 0 <-> Forall (fun x => x = 0) l).
Proof.
  induction 1 as [|x l Hx Hl [IH1 IH2]]; [done|]. simpl. split; [lia|]. rewrite Forall_cons, <- IH2. lia.
Qed.

(** Two overlays whose graphs hold the same flakes have the same facts. *)
Lemma facts_agree_perm nv nv' :
  nv_fact_state nv' = nv_fact_state nv ->
  (forall g, 0 <= g -> graph_contents nv' g ≡ₚ graph_contents nv g) ->
  facts_agree nv -> facts_agree nv'.
Proof.
  intros E Hp [H1 H2]. unfold facts_agree. rewrite E. split; [done|].
  intros g k Hg Hk. rewrite H2 by done. apply resolve_permutation. by rewrite Hp.
Qed.

Definition graphs_step (w : Z) (s : option (list Segment)) (r : option (list Segment) * Z) : Prop :=
  tier_compact_graph w s = Some r /\
  (forall segs, r.1 = Some segs -> segs_fit segs) /\
  seg_contents (default [] r.1) ≡ₚ seg_contents (default [] s) /\
  zlen (default [] r.1) <= zlen (default [] s) /\ 0 <= r.2 /\ (r.2 = 0 -> r.1 = s) /\
  (r.2 = 0 <-> forall segs, s = Some segs -> zlen segs < w \/ full_classes w 0 segs = []).

Lemma tier_graphs_spec nv w :
  nov_shape nv -> 2 <= w ->
  exists res, mapM (tier_compact_graph w) (nv_graphs nv) = Some res /\
    Forall2 (graphs_step w) (nv_graphs nv) res.
Proof.
  intros Hs Hw.
  assert (Forall (fun s => forall segs, s = Some segs -> segs_fit segs) (nv_graphs nv)) as Hfit.
  { apply Forall_lookup_2. intros i s Hi segs. by apply (graphs_fit nv i). }
  induction Hfit as [|s graphs Hfs Hfit IH]; [by exists []|].
  destruct IH as (res & Hres & HF).
  destruct (tier_compact_graph_spec w s Hw Hfs) as (s' & m & E & Hr).
  exists ((s', m) :: res). split; [cbn; by rewrite E, Hres|]. by constructor.
Qed.

Lemma slot_res w graphs res g :
  Forall2 (graphs_step w) graphs res ->
  (slot graphs g = None /\ slot res.*1 g = None) \/
  exists s r, graphs !! Z.to_nat g = Some s /\ slot graphs g = s /\ slot res.*1 g = r.1 /\
    graphs_step w s r.
Proof.
  intros HF. unfold slot. rewrite list_lookup_fmap.
  destruct (graphs !! Z.to_nat g) as [s|] eqn:Es.
  - right. destruct (Forall2_lookup_l _ _ _ _ _ HF Es) as (r & -> & Hr). exists s, r.
    by destruct s, r as [[?|] ?].
  - left. pose proof (Forall2_length _ _ _ HF) as Hl. apply lookup_ge_None_1 in Es.
    by rewrite (lookup_ge_None_2 res) by lia.
Qed.

Lemma needs_compaction_spec nv w :
  2 <= w ->
  needs_tier_compaction nv w = false <->
  Forall (fun s => forall segs, s = Some segs -> zlen segs < w \/ full_classes w 0 segs = [])
    (nv_graphs nv).
Proof.
  intros Hw. unfold needs_tier_compaction. destruct (Z.ltb_spec w 2); [lia|].
  unfold all_segs. induction (nv_graphs nv) as [|s graphs IH]; [done|].
  rewrite Forall_cons, <- IH. destruct s as [segs|]; cbn [omap list_omap id existsb].
  - rewrite orb_false_iff. apply and_iff_compat_r.
    destruct (Z.leb_spec w (zlen segs)); destruct (full_classes w 0 segs) eqn:E; simpl.
    + split; [|done]. intros _ ? [= <-]. by right.
    + split; [done|]. intros Hx. destruct (Hx segs eq_refl); [lia|congruence].
    + split; [|done]. intros _ ? [= <-]. by left.
    + split; [|done]. intros _ ? [= <-]. by left.
  - split; [by intros ?|by intros [_ ?]].
Qed.

Lemma tier_compact_spec nv w :
  nov_wf nv -> 2 <= w ->
  exists nv' merges, tier_compact nv w = Some (nv', merges) /\ nov_wf nv' /\
    (forall g, 0 <= g -> graph_contents nv' g ≡ₚ graph_contents nv g) /\
    (forall g, 0 <= g -> segment_count nv' g <= segment_count nv g) /\
    nv_t nv' = nv_t nv /\ nv_fact_state nv' = nv_fact_state nv /\
    0 <= merges /\ (merges = 0 -> nv_graphs nv' = nv_graphs nv /\ nv_epoch nv' = nv_epoch nv) /\
    (merges = 0 <-> needs_tier_compaction nv w = false).
Proof.
  intros [Hs Ht Hf] Hw. unfold tier_compact. destruct (Z.ltb_spec w 2); [lia|].
  destruct (tier_graphs_spec nv w Hs Hw) as (res & -> & HF). cbn.
  set (nv1 := with_graphs (fst <$> res) nv).
  assert (forall g, 0 <= g -> graph_contents nv1 g ≡ₚ graph_contents nv g /\
    segment_count nv1 g <= segment_count nv g /\
    (forall segs, nv_segs nv1 g = Some segs -> segs_fit segs)) as Hg.
  { intros g Hg. unfold graph_contents, segment_count, nv_segs. cbn [nv1 with_graphs nv_graphs].
    destruct (slot_res w _ _ g HF) as [[-> ->]|(s & r & _ & -> & -> & _ & H1 & H2 & H3 & _)]; [|done].
    split; [done|]. split; [lia|done]. }
  assert (nov_shape nv1) as Hs1.
  { split; [intros g segs Hg'; by apply Hg|]. cbn [nv1 with_graphs nv_graphs]. rewrite zlen_fmap.
    unfold zlen. rewrite <- (Forall2_length _ _ _ HF). apply Hs. }
  assert (facts_agree nv1) as Hf1.
  { apply (facts_agree_perm nv); [done| |done]. intros g Hg'. by apply Hg. }
  destruct (sum_zero res.*2) as [Hsum0 Hsum].
  { apply Forall_fmap, (Forall2_Forall_r _ _ _ _ HF), Forall_true. intros s r (_&_&_&_&?&_). done. }
  set (merges := foldr Z.add 0 res.*2) in *.
  assert (merges = 0 -> nv_graphs nv1 = nv_graphs nv) as Hsame.
  { intros Hz. apply Hsum in Hz. cbn [nv1 with_graphs nv_graphs]. clear -HF Hz.
    induction HF as [|s r graphs res (_&_&_&_&_&Hr&_) HF IH]; [done|].
    inversion Hz as [|? ? Hz1 Hz2]; subst. rewrite fmap_cons. by rewrite Hr, IH. }
  assert (merges = 0 <-> needs_tier_compaction nv w = false) as Hneeds.
  { rewrite Hsum, needs_compaction_spec by done. clear -HF.
    induction HF as [|s r graphs res (_&_&_&_&_&_&Hr) HF IH]; [done|].
    cbn [fmap list_fmap]. by rewrite !Forall_cons, IH, Hr. }
  exists (if 0 <? merges then bump_epoch (recompute_totals nv1) else nv1), merges.
  split; [done|]. destruct (Z.ltb_spec 0 merges) as [Hpos|Hnp].
  - split; [split; [by apply (shape_ext nv1)|done|by apply (facts_agree_perm nv1)]|].
    split; [intros g Hg'; apply (Hg g Hg')|]. split; [intros g Hg'; apply (Hg g Hg')|].
    do 2 (split; [done|]). split; [done|]. split; [lia|done].
  - assert (merges = 0) as Hz by lia. specialize (Hsame Hz).
    split; [split; [done| |done]|].
    { unfold totals_ok. rewrite Hsame. apply Ht. }
    split; [intros g Hg'; apply (Hg g Hg')|]. split; [intros g Hg'; apply (Hg g Hg')|].
    by repeat (split; [done|]).
Qed.
(** ** Clearing *)
Definition after (cutoff_t : Z) (f : Flake) : bool := cutoff_t <? f_t f.

Lemma clear_segment_spec cutoff_t seg :
  seg_fit seg ->
  seg_contents (clear_segment cutoff_t seg) = List.filter (after cutoff_t) (seg_flakes seg) /\
  Forall seg_fit (clear_segment cutoff_t seg) /\ zlen (clear_segment cutoff_t seg) <= 1.
Proof.
  intros [Hw Hne Hlen]. unfold clear_segment.
  destruct (Z.leb_spec (seg_max_t seg) cutoff_t) as [Hmax|Hmax].
  { split; [|by split]. symmetry. apply filter_none, Forall_forall. intros f Hf.
    pose proof (sw_max _ Hw f Hf). unfold after. by destruct (Z.ltb_spec cutoff_t (f_t f)); [lia|]. }
  destruct (Z.ltb_spec cutoff_t (seg_min_t seg)) as [Hmin|Hmin].
  { split; [|split; [by apply Forall_singleton|done]]. rewrite seg_contents_one. symmetry.
    apply filter_all, Forall_forall. intros f Hf. pose proof (sw_min _ Hw f Hf). unfold after.
    by destruct (Z.ltb_spec cutoff_t (f_t f)); [|lia]. }
  fold (after cutoff_t). destruct (List.filter (after cutoff_t) (seg_flakes seg)) as [|f l] eqn:E; [done|].
  rewrite seg_contents_one. split; [done|]. split; [|done]. apply Forall_singleton.
  apply seg_build_fit; [done| |].
  - rewrite <- E. pose proof (sw_ordinary _ Hw) as Ho. rewrite Forall_forall in Ho.
    apply Forall_forall. intros f' [Hf' _]%elem_of_list_filter_b. by apply Ho.
  - rewrite <- E. etransitivity; [|exact Hlen]. unfold zlen. apply inj_le.
    clear. induction (seg_flakes seg) as [|f l IH]; [done|]. simpl. destruct (after cutoff_t f); simpl; lia.
Qed.

Lemma clear_segments_spec cutoff_t segs :
  Forall seg_fit segs ->
  let kept := concat (clear_segment cutoff_t <$> segs) in
  seg_contents kept = List.filter (after cutoff_t) (seg_contents segs) /\
  Forall seg_fit kept /\ zlen kept <= zlen segs.
Proof.
  induction 1 as [|seg segs Hseg Hsegs (IH1 & IH2 & IH3)]; [done|]. cbv zeta in *.
  rewrite fmap_cons. cbn [concat].
  destruct (clear_segment_spec cutoff_t seg Hseg) as (H1 & H2 & H3).
  change (seg_contents (seg :: segs)) with (seg_flakes seg ++ seg_contents segs).
  rewrite seg_contents_app, list_filter_app, H1, IH1. split; [done|].
  split; [by apply Forall_app|]. rewrite zlen_app, zlen_cons. lia.
Qed.

Lemma clear_slot_spec cutoff_t s :
  (forall segs, s = Some segs -> segs_fit segs) ->
  seg_contents (default [] (clear_slot cutoff_t s)) =
    List.filter (after cutoff_t) (seg_contents (default [] s)) /\
  (forall segs, clear_slot cutoff_t s = Some segs -> segs_fit segs).
Proof.
  intros Hs. destruct s as [segs|]; [|by split]. destruct (Hs segs eq_refl) as [Hf Hcap].
  destruct (clear_segments_spec cutoff_t segs Hf) as (H1 & H2 & H3). cbn [clear_slot].
  destruct (concat (clear_segment cutoff_t <$> segs)) as [|seg kept]; [by split|].
  split; [done|]. intros ? [= <-]. split; [done|]. lia.
Qed.

Lemma slot_fmap {A} (h : option A -> option A) (l : list (option A)) g :
  h None = None -> slot (h <$> l) g = h (slot l g).
Proof. intros Hn. unfold slot. rewrite list_lookup_fmap. by destruct (l !! Z.to_nat g). Qed.

Lemma contents_ordinary nv g f :
  nov_shape nv -> 0 <= g -> f ∈ graph_contents nv g -> flake_ordinary f.
Proof.
  intros Hs Hg. unfold graph_contents. destruct (nv_segs nv g) as [segs|] eqn:E; [|by intros ?%elem_of_nil].
  destruct (ns_segs nv Hs g segs Hg E) as [Hf _].
  intros (l & Hfl & Hl)%elem_of_concat. apply list_elem_of_fmap in Hl as (seg & -> & Hseg).
  rewrite Forall_forall in Hf. pose proof (sw_ordinary _ (sf_wf _ (Hf _ Hseg))) as Ho.
  by rewrite Forall_forall in Ho; apply Ho.
Qed.

Lemma full_read nv g :
  nov_shape nv -> 0 <= g < 2 ^ 16 ->
  range_flakes nv g Spot None None true ≡ₚ graph_contents nv g /\
  mapM (get_flake nv) (slice_for_range nv g Spot None None true) =
    Some (range_flakes nv g Spot None None true).
Proof.
  intros Hs Hg. destruct (graph_read_spec nv g Spot None None true Hs Hg) as (H1 & _ & H3); [done|].
  split; [|done]. rewrite H1. by rewrite filter_all by by apply Forall_true.
Qed.

Lemma present_graphs_spec nv g :
  g ∈ present_graphs nv <-> 0 <= g < zlen (nv_graphs nv) /\ exists seg segs, nv_segs nv g = Some (seg :: segs).
Proof.
  unfold present_graphs. rewrite elem_of_list_filter_b, list_elem_of_fmap. split.
  - intros [(i & -> & Hi%elem_of_seq) H]. split; [unfold zlen; lia|].
    destruct (nv_segs nv (Z.of_nat i)) as [[|seg segs]|]; try done. eauto.
  - intros [Hg (seg & segs & ->)]. split; [|done]. exists (Z.to_nat g). unfold zlen in Hg.
    split; [lia|]. apply elem_of_seq. lia.
Qed.

Lemma present_graphs_NoDup nv : NoDup (present_graphs nv).
Proof.
  unfold present_graphs. apply NoDup_ListNoDup, List.NoDup_filter, NoDup_ListNoDup.
  apply NoDup_fmap; [apply _|apply NoDup_seq].
Qed.

Definition graph_reads (nv : Novelty) (gs : list Z) : list (Z * list Flake) :=
  (fun g => (g, range_flakes nv g Spot None None true)) <$> gs.

Lemma rebuild_fold nv gs fs :
  nov_shape nv -> Forall (fun g => 0 <= g < 2 ^ 16) gs ->
  fold_left (fun acc g =>
    fs ← acc;
    flakes ← mapM (get_flake nv) (slice_for_range nv g Spot None None true);
    Some (fold_left (fun fs f => record fs g f) flakes fs)) gs (Some fs) =
  Some (record_all fs (flatten (graph_reads nv gs))).
Proof.
  intros Hs Hgs. revert fs. induction Hgs as [|g gs Hg Hgs IH]; intros fs; [done|].
  cbn [fold_left]. destruct (full_read nv g Hs Hg) as [_ ->]. cbn.
  rewrite IH, record_graph, <- record_all_app. done.
Qed.

Lemma graph_reads_of nv gs g :
  NoDup gs ->
  batches_of g (graph_reads nv gs) =
  if bool_decide (g ∈ gs) then range_flakes nv g Spot None None true else [].
Proof.
  intros Hn. assert ((graph_reads nv gs).*1 = gs) as Hk.
  { unfold graph_reads. rewrite <- list_fmap_compose. rewrite (list_fmap_ext _ id) by done.
    apply list_fmap_id. }
  case_bool_decide as Hin.
  - apply batches_of_elem; [by rewrite Hk|]. unfold graph_reads. apply list_elem_of_fmap. by exists g.
  - apply batches_of_absent. by rewrite Hk.
Qed.

Lemma rebuild_facts_spec nv :
  nov_shape nv ->
  exists fs, rebuild_facts nv = Some fs /\ facts_agree (with_facts fs nv).
Proof.
  intros Hs.
  assert (Forall (fun g => 0 <= g < 2 ^ 16) (present_graphs nv)) as Hgs.
  { apply Forall_forall. intros g [Hg _]%present_graphs_spec. pose proof (ns_len nv Hs). lia. }
  eexists. split; [by apply rebuild_fold|].
  assert (entries_ordinary (flatten (graph_reads nv (present_graphs nv)))) as Ho.
  { apply Forall_forall. intros [g f] (l & Hl & Hin)%elem_of_concat.
    apply list_elem_of_fmap in Hin as ([g' b] & -> & Hin).
    apply list_elem_of_fmap in Hin as (g2 & [= -> ->] & Hin).
    apply list_elem_of_fmap in Hl as (f' & [= -> ->] & Hf'). cbn [fst snd] in *.
    rewrite Forall_forall in Hgs. specialize (Hgs g2 Hin). split; [lia|].
    apply (contents_ordinary nv g2); [done|lia|]. by rewrite <- (proj1 (full_read nv g2 Hs Hgs)). }
  split; cbn [nv_fact_state with_facts].
  - apply record_all_ordinary; [apply facts_new_ordinary|done].
  - intros g k Hg Hk. rewrite record_all_lookup by (done || apply facts_new_ordinary).
    unfold fs_lookup at 1, facts_new, slot. cbn [fs_graphs]. rewrite lookup_nil. cbn [rank_max mbind option_bind].
    rewrite resolve_flatten, graph_reads_of by apply present_graphs_NoDup.
    change (graph_contents (with_facts _ nv) g) with (graph_contents nv g).
    case_bool_decide as Hin.
    + rewrite Forall_forall in Hgs. specialize (Hgs g Hin). apply resolve_permutation.
      by rewrite (proj1 (full_read nv g Hs Hgs)).
    + unfold graph_contents. destruct (nv_segs nv g) as [[|seg segs]|] eqn:E; try done.
      exfalso. apply Hin, present_graphs_spec. split; [|by eauto].
      pose proof (nv_segs_range nv g _ E). lia.
Qed.

Lemma total_zero_contents nv g :
  totals_ok nv -> nv_flake_count nv = 0 -> graph_contents nv g = [].
Proof.
  intros [_ Hc] H0. rewrite H0 in Hc. unfold graph_contents, nv_segs, slot.
  destruct (nv_graphs nv !! Z.to_nat g) as [[segs|]|] eqn:E; try done. simpl.
  unfold total_count in Hc. symmetry in Hc. apply sum_zero in Hc.
  2:{ apply Forall_fmap, Forall_true. intros seg. apply zlen_nonneg. }
  apply Forall_fmap in Hc. rewrite Forall_forall in Hc.
  unfold seg_contents. destruct (concat (seg_flakes <$> segs)) as [|f l] eqn:Ec; [done|].
  assert (f ∈ concat (seg_flakes <$> segs)) as (fl & Hf & Hfl)%elem_of_concat by (rewrite Ec; left).
  apply list_elem_of_fmap in Hfl as (seg & -> & Hseg).
  assert (zlen (seg_flakes seg) = 0) as Hz.
  { apply Hc, elem_of_concat. exists segs. split; [done|]. unfold all_segs.
    apply list_elem_of_omap. exists (Some segs). split; [by eapply list_elem_of_lookup_2|done]. }
  destruct (seg_flakes seg); [by apply elem_of_nil in Hf|]. rewrite zlen_cons in Hz.
  pose proof (zlen_nonneg l0). lia.
Qed.

Lemma clear_up_to_spec nv cutoff_t :
  nov_wf nv ->
  exists nv', clear_up_to nv cutoff_t = Some nv' /\ nov_wf nv' /\ nv_t nv' = nv_t nv /\
    forall g, 0 <= g -> graph_contents nv' g = List.filter (after cutoff_t) (graph_contents nv g).
Proof.
  intros [Hs Ht Hf]. unfold clear_up_to. destruct (Z.eqb_spec (nv_flake_count nv) 0) as [Hz|Hnz].
  - exists nv. do 3 (split; [done|]). intros g Hg. by rewrite (total_zero_contents nv g).
  - set (nv1 := recompute_totals (with_graphs (clear_slot cutoff_t <$> nv_graphs nv) nv)).
    assert (forall g, nv_segs nv1 g = clear_slot cutoff_t (nv_segs nv g)) as Hsegs.
    { intros g. unfold nv_segs. cbn [nv1 recompute_totals with_totals with_graphs nv_graphs].
      by apply slot_fmap. }
    assert (nov_shape nv1) as Hs1.
    { split.
      - intros g segs Hg. rewrite Hsegs. apply clear_slot_spec. intros segs'. by apply (ns_segs nv Hs).
      - cbn [nv1 recompute_totals with_totals with_graphs nv_graphs]. rewrite zlen_fmap. apply Hs. }
    destruct (rebuild_facts_spec nv1 Hs1) as (fs & Hfs & Hagree). rewrite Hfs. cbn.
    eexists. split; [done|]. split; [|split; [done|]].
    + split; [by apply (shape_ext nv1)|done|exact Hagree].
    + intros g Hg. unfold graph_contents at 1.
      change (nv_segs (bump_epoch (with_facts fs nv1)) g) with (nv_segs nv1 g). rewrite Hsegs.
      apply clear_slot_spec. intros segs. by apply (ns_segs nv Hs).
Qed.
(** ** Reachable overlays *)
Inductive novelty_step (nv : Novelty) : Novelty -> Prop :=
| step_commit flakes commit_t reverse_graph :
    Forall flake_ordinary flakes -> graph_ids_u16 reverse_graph ->
    novelty_step nv (fst (apply_commit nv flakes commit_t reverse_graph))
| step_compact tier_width nv' merges :
    tier_compact nv tier_width = Some (nv', merges) -> novelty_step nv nv'
| step_clear cutoff_t nv' :
    clear_up_to nv cutoff_t = Some nv' -> novelty_step nv nv'.

Lemma apply_commit_wf nv flakes commit_t rg :
  nov_wf nv -> Forall flake_ordinary flakes -> graph_ids_u16 rg ->
  nov_wf (fst (apply_commit nv flakes commit_t rg)).
Proof.
  intros Hw Ho Hrg. unfold apply_commit. destruct flakes as [|f flakes]; [done|].
  set (fl := f :: flakes) in *. destruct (Z.ltb_spec MAX_SEGMENT_FLAKES (zlen fl)) as [|Hlen]; [done|].
  destruct (route rg fl) as [routed|e|] eqn:Er; [|done..].
  destruct (check_graphs nv [] (fst <$> routed)) as [res|e|] eqn:Ec; [|done..].
  destruct (route_spec _ _ _ Er) as [Hsnd Hr]. apply check_graphs_spec in Ec as [_ Hcap].
  apply apply_routed_spec; [done| | |].
  - rewrite Forall_forall in Hr. rewrite Forall_forall in Ho. apply Forall_forall.
    intros [g f'] Hin. split; [apply (graph_of_u16 rg f'); [done|]; apply (Hr _ Hin)|].
    apply Ho. rewrite <- Hsnd. apply list_elem_of_fmap. by exists (g, f').
  - by rewrite <- Hsnd, zlen_fmap in Hlen.
  - intros g Hg. apply Hcap; [done|]. apply not_elem_of_nil.
Qed.

Lemma novelty_step_wf nv nv' : nov_wf nv -> novelty_step nv nv' -> nov_wf nv'.
Proof.
  intros Hw [flakes commit_t rg Ho Hrg|w nv1 m H|c nv1 H].
  - by apply apply_commit_wf.
  - destruct (decide (2 <= w)) as [H2|H2].
    + destruct (tier_compact_spec nv w Hw H2) as (? & ? & E & ? & _). congruence.
    + unfold tier_compact in H. destruct (Z.ltb_spec w 2); [|lia]. congruence.
  - destruct (clear_up_to_spec nv c Hw) as (? & E & ? & _). congruence.
Qed.

(** ** Properties *)

(** Tiered compaction always terminates and is observationally transparent:
    every graph holds the same flakes as before, no graph gains a segment, the
    fact index and the clock are untouched and the invariant is preserved.  It
    does work precisely when [needs_tier_compaction] says so; otherwise segments
    and epoch stay as they are. *)
Theorem tier_compact_transparent (nv : Novelty) (tier_width : Z) :
  nov_wf nv -> 2 <= tier_width ->
  exists nv' merges, tier_compact nv tier_width = Some (nv', merges) /\ nov_wf nv' /\
    (forall g, 0 <= g -> graph_contents nv' g ≡ₚ graph_contents nv g) /\
    (forall g, 0 <= g -> segment_count nv' g <= segment_count nv g) /\
    nv_t nv' = nv_t nv /\ nv_fact_state nv' = nv_fact_state nv /\
    0 <= merges /\ (merges = 0 -> nv_graphs nv' = nv_graphs nv /\ nv_epoch nv' = nv_epoch nv) /\
    (merges = 0 <-> needs_tier_compaction nv tier_width = false).
Proof. apply tier_compact_spec. Qed.

(** Clearing up to a cutoff never panics and keeps, in every graph, exactly
    the flakes with a later transaction time; totals and fact index are rebuilt
    to match the survivors. *)
Theorem clear_up_to_exact (nv : Novelty) (cutoff_t : Z) :
  nov_wf nv ->
  exists nv', clear_up_to nv cutoff_t = Some nv' /\ nov_wf nv' /\ nv_t nv' = nv_t nv /\
    forall g, 0 <= g ->
      graph_contents nv' g = List.filter (fun f => cutoff_t <? f_t f) (graph_contents nv g).
Proof. intros Hw. by apply clear_up_to_spec. Qed.

(** C11: Every overlay reachable by commits (successful or failed), compactions
    and clears satisfies the invariant: its byte and flake totals are those of
    its segments, and its fact index answers, for every fact of every graph,
    whether the operation that wins among the flakes held is an assertion. *)
Theorem novelty_reachable_inv (t : Z) (nv : Novelty) :
  rtc novelty_step (novelty_new t) nv ->
  nov_shape nv /\
  nv_size nv = total_size (nv_graphs nv) /\ nv_flake_count nv = total_count (nv_graphs nv) /\
  forall g f, 0 <= g -> flake_ordinary f ->
    is_asserted (nv_fact_state nv) g f = currently_asserted nv g f.
Proof.
  intros H. assert (nov_wf nv) as [Hs [Ht1 Ht2] Hf].
  { revert nv H. apply rtc_ind_r; [apply novelty_new_wf|].
    intros x y _ Hxy Hx. by apply (novelty_step_wf x). }
  do 3 (split; [done|]). intros g f Hg Ho. by apply is_asserted_spec.
Qed.

(** Merging [tier_width] segments of one size class gives a segment of
    precisely the next class: the class of a segment is the logarithm of its
    flake count to base [tier_width], for all counts a [usize] can hold. *)
Theorem merged_class_is_next (tier_width class : Z) (counts : list Z) :
  2 <= tier_width -> zlen counts = tier_width ->
  Forall (fun c => 1 <= c /\ size_class c tier_width = class) counts ->
  foldr Z.add 0 counts < 2 ^ 64 ->
  size_class (foldr Z.add 0 counts) tier_width = class + 1.
Proof.
  intros Hw Hlen Hc Hsum.
  assert (forall l, Forall (fun c => 1 <= c /\ size_class c tier_width = class) l ->
    foldr Z.add 0 l < 2 ^ 64 ->
    zlen l * tier_width ^ class <= foldr Z.add 0 l <= zlen l * (tier_width ^ (class + 1) - 1) /\
    zlen l <= foldr Z.add 0 l /\ (l <> [] -> 0 <= class)) as H.
  { induction 1 as [|c l [Hc1 Hcl] Hl IH]; [done|]. cbn [foldr]. intros Hs. rewrite zlen_cons.
    assert (0 <= foldr Z.add 0 l) by (clear -Hl; induction Hl as [|? ? [? _]]; simpl; lia).
    destruct IH as (IH1 & IH2 & _); [lia|].
    destruct (size_class_pow c tier_width) as [Hlo Hhi]; [done|lia|].
    pose proof (size_class_range c tier_width). rewrite Hcl in *. split; [nia|]. split; [lia|]. lia. }
  destruct (H counts Hc Hsum) as ([H1 H2] & H3 & H4). rewrite Hlen in *.
  assert (0 <= class) as H0 by (apply H4; intros ->; rewrite zlen_nil in Hlen; lia).
  destruct (size_class_pow (foldr Z.add 0 counts) tier_width) as [Hlo Hhi]; [done|lia|].
  pose proof (size_class_range (foldr Z.add 0 counts) tier_width).
  set (k := size_class _ _) in *. set (n := foldr Z.add 0 counts) in *.
  rewrite <- Z.pow_succ_r in H1 by lia.
  assert (tier_width * (tier_width ^ (class + 1) - 1) < tier_width ^ (class + 2)).
  { replace (class + 2) with (Z.succ (class + 1)) by lia. rewrite Z.pow_succ_r by lia. lia. }
  assert (k < class + 2) by (apply (Z.pow_lt_mono_r_iff tier_width); lia).
  assert (Z.succ class < k + 1) by (apply (Z.pow_lt_mono_r_iff tier_width); lia). lia.
Qed.
End compact.

Lemma tier_compact_transparent_witness :
  exists nv' merges, tier_compact sample_novelty 2 = Some (nv', merges) /\ nov_wf nv' /\
    (forall g, 0 <= g -> graph_contents nv' g ≡ₚ graph_contents sample_novelty g) /\
    (forall g, 0 <= g -> segment_count nv' g <= segment_count sample_novelty g) /\
    nv_t nv' = nv_t sample_novelty /\ nv_fact_state nv' = nv_fact_state sample_novelty /\
    0 <= merges /\
    (merges = 0 -> nv_graphs nv' = nv_graphs sample_novelty /\ nv_epoch nv' = nv_epoch sample_novelty) /\
    (merges = 0 <-> needs_tier_compaction sample_novelty 2 = false).
Proof. apply (tier_compact_transparent sample_novelty 2); [apply sample_novelty_wf|lia]. Defined.

Lemma clear_up_to_exact_witness :
  exists nv', clear_up_to sample_novelty 0 = Some nv' /\ nov_wf nv' /\
    nv_t nv' = nv_t sample_novelty /\
    forall g, 0 <= g ->
      graph_contents nv' g = List.filter (fun f => 0 <? f_t f) (graph_contents sample_novelty g).
Proof. apply (clear_up_to_exact sample_novelty 0). apply sample_novelty_wf. Defined.

Lemma novelty_reachable_inv_witness :
  nov_shape sample_novelty /\
  nv_size sample_novelty = total_size (nv_graphs sample_novelty) /\
  nv_flake_count sample_novelty = total_count (nv_graphs sample_novelty) /\
  forall g f, 0 <= g -> flake_ordinary f ->
    is_asserted (nv_fact_state sample_novelty) g f = currently_asserted sample_novelty g f.
Proof.
  apply (novelty_reachable_inv 0). apply rtc_once. unfold sample_novelty.
  apply step_commit; [apply sample_batch_ordinary|apply sample_graphs_u16].
Defined.

Lemma merged_class_is_next_witness : size_class (3 + (4 + 5 + 0)) 3 = 1 + 1.
Proof.
  apply (merged_class_is_next 3 1 [3; 4; 5]); [lia|done| |done].
  repeat constructor; first [lia | by vm_compute].
Defined.
