(* ===== verification/NoveltyBulk.v ===== *)
(** * Novelty: bulk load

    [bulk_apply_commits] against the history it is given: which flakes the
    dedup walk keeps, and that the facts asserted afterwards are those of the
    whole history. *)

From stdpp Require Import base list numbers sets sorting.
From Stdlib Require Import ZArith Lia.
From S2P Require Import Prelude Bytes GraphRegistry Vocab Cmp Value Plain Flake FactState Segment.
From S2P Require Import SegmentRead Novelty NoveltyRead PlainNovelty NoveltyApply NoveltyCompact.

Local Open Scope Z_scope.

Section bulk.
Context `{VL : ValueLib, VLL : !ValueLibLaws, SL : SortLib, SLL : !SortLaws,
  HO : HashOrder, HL : !HashLaws, AT : !Attachments}.

(** ** The sort key *)
Lemma bulk_cmp_key a b :
  bulk_cmp a b =
  then_with (key_cmp (key_of a) (key_of b))
    (then_with (Z.compare (f_t a) (f_t b)) (bool_cmp (f_op a) (f_op b))).
Proof.
  unfold bulk_cmp, key_cmp, key_of, cmp_object, cmp_meta. cbn [k_s k_p k_o k_dt k_m].
  by rewrite !then_with_assoc.
Qed.

#[local] Instance bulk_cmp_laws : CmpLaws flake_ordinary bulk_cmp.
Proof.
  apply (cmp_laws_ext _ _ (fun a b => then_with (key_cmp (key_of a) (key_of b))
    (then_with (Z.compare (f_t a) (f_t b)) (bool_cmp (f_op a) (f_op b))))).
  { intros x y _ _. apply bulk_cmp_key. }
  apply cmp_laws_then; [by apply (cmp_laws_key flake_ordinary key_ordinary key_of), _|].
  apply cmp_laws_then.
  - by apply (cmp_laws_key flake_ordinary everything f_t), _.
  - by apply (cmp_laws_key flake_ordinary everything f_op), _.
Qed.

Lemma is_Eq_true c : is_Eq c = true <-> c = Eq.
Proof. by destruct c. Qed.

Lemma same_identity_key a b : same_identity a b = key_eqb (key_of a) (key_of b).
Proof.
  apply eq_true_iff_eq. rewrite key_eqb_true.
  change (key_cmp (key_of a) (key_of b)) with
    (then_with (sid_cmp (f_s a) (f_s b)) (then_with (sid_cmp (f_p a) (f_p b))
    (then_with (value_cmp (f_o a) (f_o b)) (then_with (sid_cmp (f_dt a) (f_dt b)) (cmp_meta a b))))).
  unfold same_identity, cmp_object.
  rewrite !andb_true_iff, !is_Eq_true, !bool_decide_eq_true, !then_with_Eq, !sid_cmp_Eq. tauto.
Qed.

(** ** The dedup walk *)
Lemma dedup_walk_sublist prev asserted l : sublist (dedup_walk prev asserted l) l.
Proof.
  revert prev asserted. induction l as [|f l IH]; intros prev asserted; [done|]. cbn [dedup_walk].
  destruct (same_identity prev f); [|by apply sublist_skip].
  destruct (f_op f); simpl; [|by apply sublist_skip].
  destruct asserted; simpl; [by apply sublist_cons|by apply sublist_skip].
Qed.

Lemma dedup_sublist l : sublist (dedup l) l.
Proof. destruct l as [|f l]; [done|]. apply sublist_skip, dedup_walk_sublist. Qed.

Lemma dedup_walk_retractions prev asserted l f :
  f ∈ l -> f_op f = false -> f ∈ dedup_walk prev asserted l.
Proof.
  revert prev asserted. induction l as [|x l IH]; intros prev asserted Hin Hop;
    [by apply elem_of_nil in Hin|].
  cbn [dedup_walk]. apply elem_of_cons in Hin as [<-|Hin].
  - rewrite Hop. simpl. destruct (same_identity prev f); left.
  - destruct (same_identity prev x); [|right; by apply IH].
    destruct (f_op x); simpl; [|right; by apply IH]. destruct asserted; simpl; [|right]; by apply IH.
Qed.

Lemma dedup_retractions l f : f ∈ l -> f_op f = false -> f ∈ dedup l.
Proof.
  destruct l as [|x l]; [by intros ?%elem_of_nil|]. intros [<-|Hin]%elem_of_cons Hop; [left|].
  right. by apply dedup_walk_retractions.
Qed.

(** The last operation of a fact in a history. *)
Fixpoint last_op (k : FactKey) (l : list Flake) : option bool :=
  match l with
  | [] => None
  | f :: l =>
      match last_op k l with
      | Some b => Some b
      | None => if key_eqb (key_of f) k then Some (f_op f) else None
      end
  end.

Lemma dedup_walk_last k prev l :
  flake_ordinary prev -> Forall flake_ordinary l -> key_ordinary k ->
  last_op k (prev :: dedup_walk prev (f_op prev) l) = last_op k (prev :: l).
Proof.
  intros Hp Hl Hk. revert prev Hp. induction Hl as [|f l Hf Hl IH]; intros prev Hp; [done|].
  cbn [dedup_walk]. pose proof (IH f Hf) as IHf. pose proof (IH prev Hp) as IHp.
  destruct (same_identity prev f) eqn:Es.
  - destruct (f_op f) eqn:Eo; simpl; [|cbn [last_op] in IHf |- *; by rewrite IHf].
    destruct (f_op prev) eqn:Ep; simpl; [|cbn [last_op] in IHf |- *; by rewrite IHf].
    cbn [last_op] in IHp |- *. rewrite Ep, ?Eo in *. rewrite IHp. destruct (last_op k l); [done|].
    rewrite same_identity_key in Es. rewrite <- (key_eqb_trans (key_of prev) (key_of f) k) by done.
    by destruct (key_eqb (key_of prev) k).
  - cbn [last_op] in IHf |- *. by rewrite IHf.
Qed.

Lemma dedup_last k l :
  Forall flake_ordinary l -> key_ordinary k -> last_op k (dedup l) = last_op k l.
Proof.
  intros Hl Hk. destruct Hl as [|f l Hf Hl]; [done|]. by apply dedup_walk_last.
Qed.

(** ** Histories in time order *)

(** No fact is both asserted and retracted by one transaction. *)
Definition conflict_free (l : list Flake) : Prop :=
  forall a b, a ∈ l -> b ∈ l -> key_eqb (key_of a) (key_of b) = true -> f_t a = f_t b ->
    f_op a = f_op b.

Definition in_time_order (l : list Flake) : Prop :=
  StronglySorted (fun a b => key_eqb (key_of a) (key_of b) = true -> f_t a <= f_t b) l.

Lemma bulk_sorted_time l : StronglySorted (cle bulk_cmp) l -> in_time_order l.
Proof.
  unfold in_time_order. induction 1 as [|a l Hl IH Ha]; constructor; [done|].
  eapply Forall_impl; [exact Ha|]. intros b Hab Hk%key_eqb_true. unfold cle in Hab.
  rewrite bulk_cmp_key, Hk in Hab. simpl in Hab.
  destruct (Z.compare_spec (f_t a) (f_t b)); simpl in Hab; [lia|lia|done].
Qed.

Lemma strongly_sorted_sublist {A} (R : A -> A -> Prop) l k :
  sublist l k -> StronglySorted R k -> StronglySorted R l.
Proof.
  induction 1 as [|x l k H IH|x l k H IH]; [done| |].
  - intros [Hs Hx]%StronglySorted_inv. constructor; [by apply IH|].
    rewrite Forall_forall in Hx. apply Forall_forall. intros y Hy. apply Hx.
    by eapply elem_of_sublist.
  - intros [Hs Hx]%StronglySorted_inv. by apply IH.
Qed.

Lemma conflict_free_incl l k : (forall f, f ∈ l -> f ∈ k) -> conflict_free k -> conflict_free l.
Proof. intros Hlk Hk a b Ha Hb. apply Hk; by apply Hlk. Qed.

Lemma same_key a b k :
  flake_ordinary a -> flake_ordinary b -> key_ordinary k ->
  key_eqb (key_of a) k = true -> key_eqb (key_of b) k = true ->
  key_eqb (key_of a) (key_of b) = true.
Proof.
  intros Ha Hb Hk Ea Eb. rewrite (key_eqb_trans (key_of a) k (key_of b)) by done.
  by rewrite key_eqb_sym.
Qed.

(** In time order the last operation of a fact is the one that wins. *)
Lemma time_order_resolve k g l :
  Forall flake_ordinary l -> key_ordinary k -> in_time_order l -> conflict_free l ->
  snd <$> resolve k g (pair g <$> l) = last_op k l.
Proof.
  intros Ho Hk. induction Ho as [|f l Hf Ho IH]; intros Hs Hc; [done|].
  apply StronglySorted_inv in Hs as [Hs Hall]. rewrite fmap_cons. cbn [resolve last_op].
  rewrite Z.eqb_refl. simpl andb.
  rewrite <- IH; [|done|by apply (conflict_free_incl l (f :: l)); [intros ?; by right|]].
  destruct (key_eqb (key_of f) k) eqn:Ef; cbn [rank_max]; [|by destruct (resolve k g _)].
  destruct (resolve k g (pair g <$> l)) as [[t op]|] eqn:Er; cbn; [|done].
  apply resolve_spec in Er as [(f2 & Hin & Ek2 & Eop) _].
  apply list_elem_of_fmap in Hin as (f3 & [= <-] & Hin). unfold op_of in Eop. injection Eop as E1 E2.
  rewrite Forall_forall in Hall. rewrite Forall_forall in Ho.
  pose proof (same_key f f2 k Hf (Ho _ Hin) Hk Ef Ek2) as Eff. specialize (Hall f2 Hin Eff).
  unfold rank_cmp, op_of. cbn [fst snd].
  destruct (Z.compare_spec (f_t f) t) as [Et|Et|Et]; simpl; [|done|lia].
  assert (f_op f = op) as ->; [|by destruct op].
  rewrite <- E2. apply Hc; [left|by right|done|congruence].
Qed.

(** ** One graph *)
Definition asserted_in (g : Z) (hist : list Flake) (f : Flake) : bool :=
  match resolve (key_of f) g (pair g <$> hist) with Some (_, op) => op | None => false end.

Definition kept_flakes (hist : list Flake) : list Flake := dedup (sort_by bulk_cmp hist).

Lemma sorted_hist_perm hist : Forall flake_ordinary hist -> sort_by bulk_cmp hist ≡ₚ hist.
Proof. intros H. by apply (sort_by_perm flake_ordinary _ _ _). Qed.

Lemma kept_flakes_incl hist f : Forall flake_ordinary hist -> f ∈ kept_flakes hist -> f ∈ hist.
Proof.
  intros Ho Hf. rewrite <- (sorted_hist_perm hist) by done.
  eapply elem_of_sublist; [exact Hf|apply dedup_sublist].
Qed.

Lemma kept_flakes_retractions hist f :
  Forall flake_ordinary hist -> f ∈ hist -> f_op f = false -> f ∈ kept_flakes hist.
Proof. intros Ho Hf. apply dedup_retractions. by rewrite sorted_hist_perm. Qed.

Lemma kept_flakes_ordinary hist :
  Forall flake_ordinary hist -> Forall flake_ordinary (kept_flakes hist).
Proof.
  intros Ho. apply Forall_forall. intros f Hf%kept_flakes_incl; [|done].
  by rewrite Forall_forall in Ho; apply Ho.
Qed.

Lemma kept_flakes_op k g hist :
  Forall flake_ordinary hist -> key_ordinary k -> conflict_free hist ->
  snd <$> resolve k g (pair g <$> kept_flakes hist) = snd <$> resolve k g (pair g <$> hist).
Proof.
  intros Ho Hk Hc.
  rewrite <- (resolve_permutation k g (pair g <$> sort_by bulk_cmp hist) (pair g <$> hist))
    by (by rewrite sorted_hist_perm).
  assert (in_time_order (sort_by bulk_cmp hist)) as Ht.
  { apply bulk_sorted_time. by apply (sort_by_sorted flake_ordinary _ _ _). }
  assert (Forall flake_ordinary (sort_by bulk_cmp hist)) as Hos by by rewrite sorted_hist_perm.
  assert (conflict_free (sort_by bulk_cmp hist)) as Hcs.
  { apply (conflict_free_incl _ hist); [|done]. intros f. by rewrite sorted_hist_perm. }
  rewrite !time_order_resolve; try done.
  - by apply dedup_last.
  - by apply kept_flakes_ordinary.
  - eapply strongly_sorted_sublist; [apply dedup_sublist|done].
  - apply (conflict_free_incl _ hist); [|done]. intros f. by apply kept_flakes_incl.
Qed.

Lemma resolve_le k g l f r :
  f ∈ l -> key_eqb (key_of f) k = true -> resolve k g (pair g <$> l) = Some r ->
  rank_cmp (op_of f) r <> Gt.
Proof.
  intros Hin Hk [_ H]%resolve_spec. apply H; [|done]. apply list_elem_of_fmap. by exists f.
Qed.

Lemma resolve_elem k g l r :
  resolve k g (pair g <$> l) = Some r ->
  exists f, f ∈ l /\ key_eqb (key_of f) k = true /\ op_of f = r.
Proof.
  intros [(f & Hin & Hk & Hop) _]%resolve_spec. apply list_elem_of_fmap in Hin as (f' & [= <-] & Hin).
  eauto.
Qed.

Lemma rank_antisym x y : rank_cmp x y <> Gt -> rank_cmp y x <> Gt -> x = y.
Proof.
  rewrite (cmp_sym (P := everything) (c := rank_cmp) x y) by done.
  destruct (rank_cmp x y) eqn:E; simpl; try done. intros _ _. by apply rank_cmp_Eq.
Qed.

(** Recording the kept flakes over an index of part of the history leaves each
    fact in the state the whole history gives it. *)
Lemma kept_over_part k g hist part :
  Forall flake_ordinary hist -> key_ordinary k -> conflict_free hist ->
  (forall f, f ∈ part -> f ∈ hist) ->
  snd <$> rank_max (resolve k g (pair g <$> part)) (resolve k g (pair g <$> kept_flakes hist)) =
  snd <$> resolve k g (pair g <$> hist).
Proof.
  intros Ho Hk Hc Hpart. rewrite <- (kept_flakes_op k g hist) by done.
  destruct (resolve k g (pair g <$> part)) as [[tp bp]|] eqn:Ep; [|done].
  destruct (resolve_elem _ _ _ _ Ep) as (fp & Hfp & Hkp & Eop).
  destruct (resolve k g (pair g <$> kept_flakes hist)) as [[tk bk]|] eqn:Ek.
  - cbn [rank_max]. destruct (rank_cmp (tp, bp) (tk, bk)) eqn:Ec; cbn; [|done|].
    { apply rank_cmp_Eq in Ec. congruence. }
    destruct bp; [destruct bk; [done|]|].
    + pose proof (kept_flakes_op k g hist Ho Hk Hc) as Hop. rewrite Ek in Hop.
      destruct (resolve k g (pair g <$> hist)) as [[th bh]|] eqn:Eh; [|done].
      cbn in Hop. injection Hop as <-.
      destruct (resolve_elem _ _ _ _ Eh) as (fh & Hfh & Hkh & Eoph).
      assert (fh ∈ kept_flakes hist) as Hkept.
      { apply kept_flakes_retractions; [done..|]. unfold op_of in Eoph. congruence. }
      pose proof (resolve_le _ _ _ _ _ Hkept Hkh Ek) as H1. rewrite Eoph in H1.
      pose proof (resolve_le _ _ _ _ _ (Hpart _ Hfp) Hkp Eh) as H2. rewrite Eop in H2.
      exfalso. apply (cmp_le_trans (P := everything) (c := rank_cmp) (tp, true) (th, false) (tk, false));
        done.
    + assert (fp ∈ kept_flakes hist) as Hkept.
      { apply kept_flakes_retractions; [done|by apply Hpart|]. unfold op_of in Eop. congruence. }
      pose proof (resolve_le _ _ _ _ _ Hkept Hkp Ek) as H1. rewrite Eop in H1. done.
  - pose proof (kept_flakes_op k g hist Ho Hk Hc) as Hop. rewrite Ek in Hop.
    destruct (resolve k g (pair g <$> hist)) as [[th bh]|] eqn:Eh; [done|].
    exfalso. apply Hpart in Hfp. apply list_elem_of_split in Hfp as (l1 & l2 & ->).
    rewrite fmap_app, resolve_app, fmap_cons in Eh. cbn [resolve] in Eh.
    rewrite Z.eqb_refl, Hkp in Eh. cbn [andb] in Eh.
    destruct (resolve k g (pair g <$> l1)), (resolve k g (pair g <$> l2)); cbn in Eh;
      repeat (destruct (rank_cmp _ _); cbn in Eh); done.
Qed.

(** ** The whole overlay *)
Lemma set_graph_contents nv g fl g' :
  0 <= g -> 0 <= g' -> Forall flake_ordinary fl ->
  graph_contents (set_graph_segments nv g fl) g' = if g =? g' then fl else graph_contents nv g'.
Proof.
  intros Hg Hg' Ho. unfold graph_contents, nv_segs, set_graph_segments.
  assert (forall x, slot (<[Z.to_nat g := x]> (grow (nv_graphs nv) (Z.to_nat g))) g' =
    if g =? g' then x else slot (nv_graphs nv) g') as Hslot.
  { intros x. rewrite slot_insert by (done || apply length_grow). by rewrite slot_grow. }
  destruct fl as [|f fl]; cbn [nv_graphs with_graphs]; rewrite Hslot; [by destruct (g =? g')|].
  destruct (g =? g'); [|done]. cbn [default from_option].
  by apply (build_chunks_spec (f :: fl)).
Qed.

Lemma bulk_graph_contents max_t nv g new g' :
  0 <= g -> 0 <= g' -> Forall flake_ordinary (graph_contents nv g ++ new) ->
  graph_contents (bulk_graph max_t nv (g, new)) g' =
  if g =? g' then kept_flakes (graph_contents nv g ++ new) else graph_contents nv g'.
Proof.
  intros Hg Hg' Ho. unfold bulk_graph. fold (graph_contents nv g). fold (kept_flakes (graph_contents nv g ++ new)).
  set (kept := kept_flakes (graph_contents nv g ++ new)).
  assert (forall nv0 rf, graph_contents (observe nv0 rf) g' = graph_contents nv0 g') as Hobs.
  { intros nv0 rf. by destruct rf. }
  rewrite Hobs. rewrite <- (set_graph_contents nv g kept g') by (done || by apply kept_flakes_ordinary).
  destruct (g =? CONFIG_GRAPH_ID); unfold set_graph_segments; by destruct kept.
Qed.

Lemma bulk_graph_facts max_t nv g new :
  nv_fact_state (bulk_graph max_t nv (g, new)) =
  record_all (nv_fact_state nv) (pair g <$> kept_flakes (graph_contents nv g ++ new)).
Proof.
  unfold bulk_graph. fold (graph_contents nv g). fold (kept_flakes (graph_contents nv g ++ new)).
  rewrite record_graph. set (kept := kept_flakes (graph_contents nv g ++ new)).
  unfold observe, set_graph_segments. destruct (g =? CONFIG_GRAPH_ID);
    destruct (List.filter _ _); by destruct kept.
Qed.

Definition contents_all_ordinary (nv : Novelty) : Prop :=
  forall g, 0 <= g -> Forall flake_ordinary (graph_contents nv g).

Lemma bulk_fold max_t m nv :
  NoDup m.*1 -> Forall (fun gb => 0 <= gb.1 /\ Forall flake_ordinary gb.2) m ->
  contents_all_ordinary nv -> facts_ordinary (nv_fact_state nv) ->
  let nv' := fold_left (bulk_graph max_t) m nv in
  forall g, 0 <= g ->
    if bool_decide (g ∈ m.*1) then
      let kept := kept_flakes (graph_contents nv g ++ batches_of g m) in
      graph_contents nv' g = kept /\
      forall k, key_ordinary k ->
        fs_lookup (nv_fact_state nv') g k =
        rank_max (fs_lookup (nv_fact_state nv) g k) (resolve k g (pair g <$> kept))
    else graph_contents nv' g = graph_contents nv g /\
      forall k, key_ordinary k ->
        fs_lookup (nv_fact_state nv') g k = fs_lookup (nv_fact_state nv) g k.
Proof.
  revert nv. induction m as [|[g0 b] m IH]; intros nv Hn Hm Hc Hf nv' g Hg; [done|].
  rewrite fmap_cons in Hn. apply NoDup_cons in Hn as [Hg0 Hn]. cbn [fst] in Hg0.
  apply Forall_cons in Hm as [[Hg0' Hb] Hm]. cbn [fst snd] in *.
  set (nv1 := bulk_graph max_t nv (g0, b)).
  set (kept := kept_flakes (graph_contents nv g0 ++ b)).
  assert (Forall flake_ordinary (graph_contents nv g0 ++ b)) as Hh.
  { apply Forall_app. split; [by apply Hc|done]. }
  assert (forall g, 0 <= g -> graph_contents nv1 g = if g0 =? g then kept else graph_contents nv g) as Hc1.
  { intros g' Hg'. by apply bulk_graph_contents. }
  assert (entries_ordinary (pair g0 <$> kept)) as He.
  { apply Forall_fmap. eapply Forall_impl; [by apply (kept_flakes_ordinary (graph_contents nv g0 ++ b))|].
    intros f Hfo. done. }
  assert (contents_all_ordinary nv1) as Hc1o.
  { intros g' Hg'. rewrite Hc1 by done. destruct (g0 =? g'); [by apply kept_flakes_ordinary|by apply Hc]. }
  assert (forall g k, 0 <= g -> key_ordinary k ->
    fs_lookup (nv_fact_state nv1) g k =
    rank_max (fs_lookup (nv_fact_state nv) g k) (resolve k g (pair g0 <$> kept))) as Hl1.
  { intros g' k Hg' Hk. subst nv1. rewrite bulk_graph_facts. by apply record_all_lookup. }
  specialize (IH nv1 Hn Hm Hc1o).
  assert (facts_ordinary (nv_fact_state nv1)) as Hf1.
  { subst nv1. rewrite bulk_graph_facts. by apply record_all_ordinary. }
  specialize (IH Hf1 g Hg). cbv zeta in IH. subst nv'. cbn [fold_left]. fold nv1.
  destruct (Z.eqb_spec g0 g) as [<-|Hne].
  - rewrite bool_decide_eq_true_2 by (rewrite fmap_cons; left).
    rewrite bool_decide_eq_false_2 in IH by done. destruct IH as [IH1 IH2].
    rewrite batches_of_cons, Z.eqb_refl, batches_of_absent, app_nil_r by done. fold kept.
    rewrite IH1, Hc1, Z.eqb_refl by done. split; [done|]. intros k Hk. rewrite IH2 by done. by apply Hl1.
  - assert (bool_decide (g ∈ ((g0, b) :: m).*1) = bool_decide (g ∈ m.*1)) as ->.
    { apply bool_decide_ext. rewrite fmap_cons, elem_of_cons. cbn [fst]. naive_solver. }
    rewrite batches_of_cons, (proj2 (Z.eqb_neq g0 g) Hne). cbn [app].
    assert (graph_contents nv1 g = graph_contents nv g) as E.
    { rewrite Hc1 by done. by rewrite (proj2 (Z.eqb_neq g0 g) Hne). }
    rewrite E in IH.
    assert (forall k, key_ordinary k -> fs_lookup (nv_fact_state nv1) g k = fs_lookup (nv_fact_state nv) g k)
      as El. { intros k Hk. rewrite Hl1, resolve_other by done. apply rank_max_None_r. }
    case_bool_decide; destruct IH as [IH1 IH2]; (split; [done|]); intros k Hk;
      rewrite IH2 by done; by rewrite El.
Qed.

Lemma bulk_route_spec nv m rg flakes nv1 m' :
  NoDup m.*1 -> bulk_route nv m rg flakes = (nv1, Ok m') ->
  nv_graphs nv1 = nv_graphs nv /\ nv_fact_state nv1 = nv_fact_state nv /\ nv_t nv1 = nv_t nv /\
  NoDup m'.*1 /\
  (forall g, batches_of g m' =
    batches_of g m ++ List.filter (fun f => bool_decide (graph_of rg f = Some g)) flakes) /\
  (forall g, g ∈ m'.*1 <-> g ∈ m.*1 \/ exists f, f ∈ flakes /\ graph_of rg f = Some g).
Proof.
  revert nv m. induction flakes as [|f flakes IH]; intros nv m Hn; cbn [bulk_route].
  - intros [= <- <-]. do 4 (split; [done|]). split; [intros g; by rewrite app_nil_r|].
    intros g. split; [by left|]. intros [?|(f & Hf & _)]; [done|by apply elem_of_nil in Hf].
  - destruct (resolve_flake_g_id f rg) as [g|e|] eqn:Eg; [|done..].
    apply resolve_graph_of in Eg. intros H. apply IH in H as (H1 & H2 & H3 & H4 & H5 & H6);
      [|by apply entry_push_NoDup].
    do 4 (split; [done|]). split.
    + intros g'. rewrite H5, batches_of_push by done. rewrite <- (assoc (++)). f_equal.
      cbn [List.filter]. rewrite Eg. destruct (Z.eqb_spec g g') as [->|].
      * by rewrite bool_decide_eq_true_2.
      * by rewrite bool_decide_eq_false_2 by congruence.
    + intros g'. rewrite H6, entry_push_keys. split.
      * intros [[->|?]|(f' & ? & ?)]; [right; exists f; split; [left|done]|by left|].
        right. exists f'. split; [by right|done].
      * intros [?|(f' & [->|Hf']%elem_of_cons & E)]; [by left; right| |by right; eauto].
        left. left. congruence.
Qed.

(** What a bulk load leaves of a graph with history [hist]: the walk's choice of
    the history, recorded over the facts held before, or, when the load has
    nothing for it, what it held. *)
Definition bulk_result (nv nv' : Novelty) (g : Z) (hist : list Flake) : Prop :=
  (exists h, h ≡ₚ hist /\ graph_contents nv' g = kept_flakes h /\
    forall k, key_ordinary k ->
      fs_lookup (nv_fact_state nv') g k =
      rank_max (resolve k g (pair g <$> graph_contents nv g)) (resolve k g (pair g <$> kept_flakes h))) \/
  (hist = graph_contents nv g /\ graph_contents nv' g = graph_contents nv g /\
    forall k, key_ordinary k ->
      fs_lookup (nv_fact_state nv') g k = resolve k g (pair g <$> graph_contents nv g)).

Definition bulk_history (nv : Novelty) (reverse_graph : Sid -> option Z) (g : Z)
    (new : list Flake) : list Flake :=
  graph_contents nv g ++ List.filter (fun f => bool_decide (graph_of reverse_graph f = Some g)) new.

Lemma bulk_routed_result nv nv1 nv' rg m fl max_t g :
  nov_wf nv -> graph_ids_u16 rg -> Forall flake_ordinary fl -> 0 <= g ->
  bulk_route nv [] rg fl = (nv1, Ok m) ->
  nv_graphs nv' = nv_graphs (fold_left (bulk_graph max_t) (hash_iter m) nv1) ->
  nv_fact_state nv' = nv_fact_state (fold_left (bulk_graph max_t) (hash_iter m) nv1) ->
  bulk_result nv nv' g (bulk_history nv rg g fl).
Proof.
  intros [Hs _ [Hfo Hfa]] Hrg Ho Hg Er Eg' Ef'.
  apply bulk_route_spec in Er as (E1 & E2 & E3 & Hn & Hb & Hk); [|constructor].
  assert (forall gb, gb ∈ m -> 0 <= gb.1 /\ Forall flake_ordinary gb.2) as Hm.
  { intros [g' b] Hin. assert (g' ∈ m.*1) as Hg' by (apply list_elem_of_fmap; by exists (g', b)).
    apply Hk in Hg' as [?%elem_of_nil|(f' & _ & E)]; [done|].
    apply (graph_of_u16 rg f') in E as [? _]; [|done]. split; [done|].
    cbn [snd]. rewrite <- (batches_of_elem g' b m Hn Hin), Hb. cbn [app].
    apply Forall_forall. intros x [Hx _]%elem_of_list_filter_b.
    by rewrite Forall_forall in Ho; apply Ho. }
  assert (forall g, graph_contents nv1 g = graph_contents nv g) as Ec.
  { intros g'. unfold graph_contents, nv_segs. by rewrite E1. }
  assert (contents_all_ordinary nv1) as Hco.
  { intros g' Hg'. apply Forall_forall. intros x. rewrite Ec. by apply contents_ordinary. }
  assert (hash_iter m ≡ₚ m) as Hp by apply hash_iter_perm.
  pose proof (bulk_fold max_t (hash_iter m) nv1 ltac:(by rewrite Hp)
    ltac:(by rewrite Hp; apply Forall_forall) Hco ltac:(by rewrite E2) g Hg) as Hfold.
  set (nv2 := fold_left (bulk_graph max_t) (hash_iter m) nv1) in *.
  assert (graph_contents nv' g = graph_contents nv2 g) as Egc.
  { unfold graph_contents, nv_segs. by rewrite Eg'. }
  unfold bulk_result. rewrite Egc, Ef'. unfold bulk_history. cbv zeta in Hfold.
  destruct (bool_decide (g ∈ (hash_iter m).*1)) eqn:Hin; destruct Hfold as [H1 H2].
  - left. exists (graph_contents nv1 g ++ batches_of g (hash_iter m)).
    split; [by rewrite Ec, (batches_of_perm g _ _ Hp), Hb|]. split; [done|].
    intros k Hk'. by rewrite H2, E2, Hfa.
  - right. apply bool_decide_eq_false in Hin. split; [|split; [by rewrite H1, Ec|]].
    + rewrite <- (app_nil_r (graph_contents nv g)) at 2. f_equal.
      apply filter_none, Forall_forall. intros x Hx. apply bool_decide_eq_false. intros Ex.
      apply Hin. rewrite Hp. apply Hk. right. eauto.
    + intros k Hk'. by rewrite H2, E2, Hfa.
Qed.

Lemma bulk_apply_result nv batches rg nv' r g :
  nov_wf nv -> graph_ids_u16 rg -> Forall flake_ordinary (concat (fst <$> batches)) -> 0 <= g ->
  bulk_apply_commits nv batches rg = (nv', r) -> is_ok r = true ->
  bulk_result nv nv' g (bulk_history nv rg g (concat (fst <$> batches))).
Proof.
  intros Hw Hrg Ho Hg. unfold bulk_apply_commits. set (max_t := fold_left _ _ _).
  destruct (bulk_route nv [] rg (concat (fst <$> batches))) as [nv1 [m|e|]] eqn:Er;
    [|by intros [= <- <-]..].
  assert (hash_iter (@nil (Z * list Flake)) = []) as Hnil.
  { apply Permutation_nil. symmetry. apply hash_iter_perm. }
  destruct m as [|gb m]; intros [= <- <-] _.
  - apply (bulk_routed_result nv nv1 _ rg [] _ max_t); try done; by rewrite Hnil.
  - by apply (bulk_routed_result nv nv1 _ rg (gb :: m) _ max_t).
Qed.

Lemma op_or_false (o : option (Z * bool)) :
  match o with Some (_, op) => op | None => false end = default false (snd <$> o).
Proof. by destruct o as [[? ?]|]. Qed.

(** ** Properties *)

(** The facts after a bulk load, graph by graph. *)
Lemma bulk_apply_spec (nv : Novelty) (batches : list (list Flake * Z))
    (reverse_graph : Sid -> option Z) (g : Z) (f : Flake) :
  nov_wf nv -> graph_ids_u16 reverse_graph ->
  Forall flake_ordinary (concat (fst <$> batches)) -> 0 <= g -> flake_ordinary f ->
  let hist := bulk_history nv reverse_graph g (concat (fst <$> batches)) in
  conflict_free hist ->
  let '(nv', r) := bulk_apply_commits nv batches reverse_graph in
  is_ok r = true ->
  (forall x, x ∈ graph_contents nv' g -> x ∈ hist) /\
  (forall x, x ∈ hist -> f_op x = false -> x ∈ graph_contents nv' g) /\
  currently_asserted nv' g f = asserted_in g hist f /\
  is_asserted (nv_fact_state nv') g f = asserted_in g hist f.
Proof.
  intros Hw Hrg Ho Hg Hf hist Hc.
  destruct (bulk_apply_commits nv batches reverse_graph) as [nv' r] eqn:E. intros Hr.
  assert (Forall flake_ordinary hist) as Hho.
  { apply Forall_app. split; apply Forall_forall.
    - intros x. apply contents_ordinary; [apply Hw|done].
    - intros x [Hx _]%elem_of_list_filter_b. by rewrite Forall_forall in Ho; apply Ho. }
  unfold currently_asserted, is_asserted, asserted_in. rewrite !op_or_false.
  assert (key_ordinary (key_of f)) as Hkf by done.
  pose proof (bulk_apply_result nv batches reverse_graph nv' r g Hw Hrg Ho Hg E Hr) as HR.
  fold hist in HR.
  destruct HR as [(h & Hh & -> & Hl)|(Eh & -> & Hl)]; rewrite Hl by done.
  - assert (Forall flake_ordinary h) as Hoh by by rewrite Hh.
    assert (conflict_free h) as Hch.
    { apply (conflict_free_incl _ hist); [|done]. intros x. by rewrite Hh. }
    assert (forall k, resolve k g (pair g <$> hist) = resolve k g (pair g <$> h)) as ->.
    { intros k. apply resolve_permutation. by rewrite Hh. }
    split; [|split; [|split]].
    + intros x Hx%kept_flakes_incl; [|done]. by rewrite <- Hh.
    + intros x Hx. apply kept_flakes_retractions; [done|]. by rewrite Hh.
    + by rewrite kept_flakes_op.
    + rewrite kept_over_part; [done..|]. intros x Hx. rewrite Hh. apply elem_of_app. by left.
  - rewrite Eh. by split.
Qed.

(** A bulk load gives every fact the state its whole history gives it.
    After [bulk_apply_commits] succeeds, for each graph whose history (flakes
    already held and flakes loaded) never asserts and retracts a fact in the
    same transaction: the flakes kept are flakes of the history and include
    all its retractions, and a fact is asserted, both by the flakes kept and by
    the fact index later commits deduplicate against, precisely when the
    history asserts it. *)
Theorem bulk_apply_facts (nv : Novelty) (batches : list (list Flake * Z))
    (reverse_graph : Sid -> option Z) (g : Z) (f : Flake) :
  nov_wf nv -> graph_ids_u16 reverse_graph ->
  Forall flake_ordinary (concat (fst <$> batches)) -> 0 <= g -> flake_ordinary f ->
  let hist := bulk_history nv reverse_graph g (concat (fst <$> batches)) in
  conflict_free hist ->
  let '(nv', r) := bulk_apply_commits nv batches reverse_graph in
  is_ok r = true ->
  (forall x, x ∈ graph_contents nv' g -> x ∈ hist) /\
  (forall x, x ∈ hist -> f_op x = false -> x ∈ graph_contents nv' g) /\
  currently_asserted nv' g f = asserted_in g hist f /\
  is_asserted (nv_fact_state nv') g f = asserted_in g hist f.
Proof. apply bulk_apply_spec. Qed.
End bulk.

(** A fact asserted, then retracted. *)
Definition bulk_sample : list (list Flake * Z) :=
  [([sample_flake (Long 3) 1], 1); ([retract_at (sample_flake (Long 3) 1) 2], 2)].

Lemma bulk_sample_conflict_free :
  conflict_free [sample_flake (Long 3) 1; retract_at (sample_flake (Long 3) 1) 2].
Proof.
  intros a b Ha Hb _.
  apply elem_of_cons in Ha as [->|Ha]; [|apply list_elem_of_singleton in Ha as ->];
    (apply elem_of_cons in Hb as [->|Hb]; [|apply list_elem_of_singleton in Hb as ->]); done.
Qed.

Lemma bulk_apply_facts_witness :
  let f := sample_flake (Long 3) 1 in
  let hist := [f; retract_at f 2] in
  let '(nv', r) := bulk_apply_commits (novelty_new 0) bulk_sample sample_graphs in
  is_ok r = true ->
  (forall x, x ∈ graph_contents nv' 0 -> x ∈ hist) /\
  (forall x, x ∈ hist -> f_op x = false -> x ∈ graph_contents nv' 0) /\
  currently_asserted nv' 0 f = asserted_in 0 hist f /\
  is_asserted (nv_fact_state nv') 0 f = asserted_in 0 hist f.
Proof.
  apply (bulk_apply_facts (novelty_new 0) bulk_sample sample_graphs 0 (sample_flake (Long 3) 1));
    [apply novelty_new_wf|apply sample_graphs_u16|by repeat constructor|done|done|].
  apply bulk_sample_conflict_free.
Defined.

(** A fact retracted and asserted again by one transaction, then by the next. *)
Definition reasserted : list (list Flake * Z) :=
  let f := sample_flake (Long 3) in
  [([f 1], 1); ([retract_at (f 1) 5; f 5], 5); ([f 6], 6)].

Definition apply_sequentially (nv : Novelty) (batches : list (list Flake * Z)) : Novelty :=
  fold_left (fun nv '(fl, t) => fst (apply_commit nv fl t sample_graphs)) batches nv.

(** With a retraction and an assertion of one fact in one transaction, a
    bulk load and the same commits applied one by one disagree: the dedup walk
    takes the assertion for the winner and drops the assertion of the next
    transaction, while commits applied one by one, whose retraction wins, keep
    it.  The fact ends up retracted after the bulk load and asserted after the
    sequence. *)
Theorem bulk_loses_reassertion :
  let f := sample_flake (Long 3) 1 in
  let seq := apply_sequentially (novelty_new 0) reasserted in
  let bulk := fst (bulk_apply_commits (novelty_new 0) reasserted sample_graphs) in
  currently_asserted seq 0 f = true /\ is_asserted (nv_fact_state seq) 0 f = true /\
  currently_asserted bulk 0 f = false /\ is_asserted (nv_fact_state bulk) 0 f = false /\
  List.map f_t (graph_contents seq 0) = [1; 5; 6] /\ List.map f_t (graph_contents bulk 0) = [1; 5; 5].
Proof. by vm_compute. Qed.

(** A bulk load that fails on an unknown graph has already bumped the schema
    epoch for the flakes before it. *)
Definition sub_class_flake : Flake :=
  flake_new (mkSid 9 [97]) (mkSid RDFS [115; 117; 98; 67; 108; 97; 115; 115; 79; 102]) (Ref (mkSid 9 [98]))
    (mkSid 2 [105; 100]) 1 true None.
Definition lost_flake : Flake :=
  flake_new_in_graph (mkSid 9 [120]) (mkSid 9 [97]) (mkSid 9 [112]) (Long 1) (mkSid 2 [108]) 1 true None.

Lemma bulk_apply_not_atomic :
  let '(nv', r) := bulk_apply_commits (novelty_new 0) [([sub_class_flake; lost_flake], 1)] sample_graphs in
  is_ok r = false /\ nv_schema_epoch nv' = 1 /\ nv_schema_epoch (novelty_new 0) = 0.
Proof. by vm_compute. Qed.

(** Duplicates inside one commit are kept by [apply_commit] and merged by a bulk
    load. *)
Lemma bulk_drops_duplicates_in_batch :
  let f := sample_flake (Long 3) 1 in
  zlen (graph_contents (apply_sequentially (novelty_new 0) [([f; f], 1)]) 0) = 2 /\
  zlen (graph_contents (fst (bulk_apply_commits (novelty_new 0) [([f; f], 1)] sample_graphs)) 0) = 1.
Proof. by vm_compute. Qed.
