(* ===== verification/NoveltyHistory.v ===== *)
(** * Facts over a history

    What an overlay says about a fact, told by the history of flakes committed
    to its graph: a commit applied to an overlay and the same commit appended to
    the history agree on every fact, and a bulk load succeeds exactly when every
    flake can be routed. *)

From stdpp Require Import base list numbers sorting.
From Stdlib Require Import ZArith Lia.
From S2P Require Import Prelude Bytes Cmp Value Plain Flake FactState Segment SegmentRead Novelty.
From S2P Require Import NoveltyRead NoveltyApply NoveltyCompact NoveltyBulk.

Local Open Scope Z_scope.

Section history.
Context `{VL : ValueLib, VLL : !ValueLibLaws, SL : SortLib, SLL : !SortLaws,
  HO : HashOrder, HL : !HashLaws, AT : !Attachments}.

Definition about (f x : Flake) : bool := key_eqb (key_of x) (key_of f).

(** A fact is asserted when some assertion of it is later than every
    retraction. *)
Lemma asserted_in_iff g l f :
  asserted_in g l f = true <->
  exists a, a ∈ l /\ about f a = true /\ f_op a = true /\
    forall b, b ∈ l -> about f b = true -> f_op b = false -> f_t b < f_t a.
Proof.
  unfold asserted_in, about. destruct (resolve (key_of f) g (pair g <$> l)) as [[t op]|] eqn:E.
  - apply resolve_elem in E as H. destruct H as (a & Ha & Hk & Hop). injection Hop as Et Eop. split.
    + intros ->. exists a. split_and!; [done..|]. intros b Hb Hbk Hbop.
      pose proof (resolve_le (key_of f) g l b (t, true) Hb Hbk E) as H. unfold rank_cmp, op_of in H. cbn in H.
      rewrite Hbop in H. destruct (Z.compare_spec (f_t b) t); cbn in H; [done|lia|done].
    + intros (a' & Ha' & Hk' & Hop' & Hall). destruct op; [done|]. exfalso.
      assert (f_t a < f_t a') as Hlt by (by apply Hall).
      pose proof (resolve_le (key_of f) g l a' (t, false) Ha' Hk' E) as H. unfold rank_cmp, op_of in H. cbn in H.
      destruct (Z.compare_spec (f_t a') t); cbn in H; [lia|lia|done].
  - split; [done|]. intros (a & Ha & Hk & _). exfalso.
    apply list_elem_of_split in Ha as (l1 & l2 & ->). rewrite fmap_app, resolve_app, fmap_cons in E. cbn [resolve] in E.
    rewrite Hk, Z.eqb_refl in E. cbn [andb] in E.
    destruct (resolve (key_of f) g (pair g <$> l1)), (resolve (key_of f) g (pair g <$> l2)); cbn in E;
      repeat (destruct (rank_cmp _ _) in E); done.
Qed.

Lemma asserted_in_graph g g' l f : asserted_in g l f = asserted_in g' l f.
Proof. apply eq_true_iff_eq. by rewrite !asserted_in_iff. Qed.

Lemma about_same f x y :
  flake_ordinary f -> flake_ordinary x -> flake_ordinary y -> about f x = true -> about x y = about f y.
Proof.
  unfold about. intros Hf Hx Hy H. destruct (key_eqb (key_of y) (key_of f)) eqn:E.
  - by apply (same_key y x (key_of f)).
  - apply not_true_is_false. intros E'. rewrite (key_eqb_trans (key_of y) (key_of x) (key_of f)) in E by done. congruence.
Qed.

Lemma asserted_in_same g l f x :
  Forall flake_ordinary l -> flake_ordinary f -> flake_ordinary x -> about f x = true ->
  asserted_in g l x = asserted_in g l f.
Proof.
  intros Hl Hf Hx H. rewrite Forall_forall in Hl. apply eq_true_iff_eq. rewrite !asserted_in_iff.
  assert (forall y, y ∈ l -> about x y = about f y) as He  by (intros y Hy; apply about_same; auto).
  split; intros (a & Ha & Hk & Hop & Hall); exists a; (split_and!; [done| |done|]);
    [by rewrite <- He| |by rewrite He|]; intros b Hb Hbk; apply Hall; [done| |done|].
  - by rewrite He.
  - by rewrite <- He.
Qed.

(** The flakes of a batch that are not assertions of asserted facts. *)
Definition fresh (g : Z) (held batch : list Flake) : list Flake :=
  List.filter (fun x => negb (f_op x && asserted_in g held x)) batch.

Lemma elem_of_fresh g held batch x :
  x ∈ fresh g held batch <-> x ∈ batch /\ (f_op x = true -> asserted_in g held x = false).
Proof.
  unfold fresh. rewrite elem_of_list_filter_b. split; intros [H1 H2]; (split; [done|]).
  - intros Hop. rewrite Hop in H2. by destruct (asserted_in g held x).
  - destruct (f_op x); [|done]. by rewrite H2.
Qed.

(** Leaving out what is already asserted does not change what is asserted. *)
Lemma fresh_asserted g held hist batch t f :
  Forall flake_ordinary held -> Forall flake_ordinary batch -> flake_ordinary f ->
  Forall (fun x => f_t x < t) held -> Forall (fun x => f_t x < t) hist -> Forall (fun x => f_t x = t) batch ->
  asserted_in g held f = asserted_in g hist f ->
  asserted_in g (held ++ fresh g held batch) f = asserted_in g (hist ++ batch) f.
Proof.
  intros Ho Hob Hf Hth Hti Htb Heq. rewrite Forall_forall in Hth, Hti, Htb. apply eq_true_iff_eq.
  rewrite !asserted_in_iff. setoid_rewrite elem_of_app. setoid_rewrite elem_of_fresh.
  destruct (existsb (fun x => about f x && negb (f_op x)) batch) eqn:Er.
  { apply existsb_exists in Er as (r & Hr & [Hrk Hrop%negb_true_iff]%andb_true_iff). apply list_elem_of_In in Hr.
    split; intros (a & Ha & _ & _ & Hall); exfalso; specialize (Hall r); rewrite (Htb r Hr) in Hall.
    - specialize (Hall ltac:(right; split; [done|congruence]) Hrk Hrop).
      destruct Ha as [Ha|[Ha _]]; [apply Hth in Ha|apply Htb in Ha]; lia.
    - specialize (Hall ltac:(by right) Hrk Hrop). destruct Ha as [Ha|Ha]; [apply Hti in Ha|apply Htb in Ha]; lia. }
  assert (forall x, x ∈ batch -> about f x = true -> f_op x = true) as Hass.
  { intros x Hx Hk. apply not_false_is_true. intros Hop. apply not_true_iff_false in Er. apply Er.
    apply existsb_exists. exists x. rewrite Hk, Hop. split; [by apply list_elem_of_In|done]. }
  destruct (existsb (about f) batch) eqn:Ea.
  - apply existsb_exists in Ea as (a & Ha & Hk). apply list_elem_of_In in Ha. pose proof (Htb a Ha) as Hta. split; intros _.
    + exists a. split_and!; [by right|done|by apply Hass|]. intros b [Hb|Hb] Hbk Hbop; [apply Hti in Hb; lia|].
      rewrite Hass in Hbop by done. done.
    + destruct (asserted_in g held f) eqn:Eh.
      * apply asserted_in_iff in Eh as (a' & Ha' & Hk' & Hop' & Hall). exists a'.
        split_and!; [by left|done..|]. intros b [Hb|[Hb _]] Hbk Hbop; [by apply Hall|].
        rewrite Hass in Hbop by done. done.
      * exists a. rewrite Forall_forall in Hob. split_and!; [right; split; [done|]|done|by apply Hass|].
        -- intros _. by rewrite (asserted_in_same g held f a) by auto.
        -- intros b [Hb|[Hb _]] Hbk Hbop; [apply Hth in Hb; lia|]. rewrite Hass in Hbop by done. done.
  - assert (forall x, x ∈ batch -> about f x = false) as Hno.
    { intros x Hx. apply not_true_is_false. intros Hk. apply not_true_iff_false in Ea. apply Ea, existsb_exists.
      exists x. split; [by apply list_elem_of_In|done]. }
    apply eq_bool_prop_elim in Heq. rewrite !Is_true_true, !asserted_in_iff in Heq. split.
    + intros (a & [Ha|[Ha _]] & Hk & Hop & Hall); [|rewrite Hno in Hk by done; done].
      destruct (proj1 Heq) as (a' & Ha' & Hk' & Hop' & Hall'); [exists a; split_and!; [done..|]; auto|].
      exists a'. split_and!; [by left|done..|]. intros b [Hb|Hb] Hbk; [by apply Hall'|]. rewrite Hno in Hbk by done. done.
    + intros (a & [Ha|Ha] & Hk & Hop & Hall); [|rewrite Hno in Hk by done; done].
      destruct (proj2 Heq) as (a' & Ha' & Hk' & Hop' & Hall'); [exists a; split_and!; [done..|]; auto|].
      exists a'. split_and!; [by left|done..|]. intros b [Hb|[Hb _]] Hbk; [by apply Hall'|].
      rewrite Hno in Hbk by done. done.
Qed.

Lemma asserted_in_perm g l l' f : l ≡ₚ l' -> asserted_in g l f = asserted_in g l' f.
Proof. intros H. apply eq_true_iff_eq. rewrite !asserted_in_iff. by setoid_rewrite H. Qed.

(** The flakes of a history that a routing sends to a graph. *)
Definition routed_to (reverse_graph : Sid -> option Z) (g : Z) (l : list Flake) : list Flake :=
  List.filter (fun f => bool_decide (graph_of reverse_graph f = Some g)) l.

Lemma accepted_fresh nv rg g fl : accepted nv rg g fl = fresh g (graph_contents nv g) (routed_to rg g fl).
Proof.
  unfold accepted, fresh, routed_to. induction fl as [|f fl IH]; [done|]. cbn [List.filter].
  destruct (bool_decide (graph_of rg f = Some g)); cbn [andb List.filter]; [|done].
  unfold currently_asserted, asserted_in in *. by destruct (negb _); rewrite IH.
Qed.

(** One commit: the overlay goes on agreeing with the history. *)
Lemma commit_agrees nv fl t rg nv' r g hist f :
  nov_wf nv -> Forall flake_ordinary fl -> graph_ids_u16 rg -> fl <> [] -> 0 <= g -> flake_ordinary f ->
  Forall (fun x => f_t x < t) (graph_contents nv g) -> Forall (fun x => f_t x < t) hist ->
  Forall (fun x => f_t x = t) fl ->
  apply_commit nv fl t rg = (nv', r) -> is_ok r = true ->
  currently_asserted nv g f = asserted_in g hist f ->
  currently_asserted nv' g f = asserted_in g (hist ++ routed_to rg g fl) f.
Proof.
  intros Hw Ho Hrg Hne Hg Hf Hth Hti Htb E Hr Heq.
  pose proof (apply_commit_spec nv fl t rg Hw Ho Hrg Hne) as H. rewrite E in H.
  destruct (H Hr) as (_ & _ & _ & Hc). change (currently_asserted nv' g f) with (asserted_in g (graph_contents nv' g) f).
  rewrite (asserted_in_perm g _ _ f (Hc g Hg)), accepted_fresh.
  assert (forall x, x ∈ routed_to rg g fl -> x ∈ fl) as Hsub by (by intros x [? _]%elem_of_list_filter_b).
  rewrite Forall_forall in Ho, Htb. apply (fresh_asserted g _ hist _ t f); try done.
  - apply Forall_forall. intros x. apply contents_ordinary; [apply Hw|done].
  - apply Forall_forall. auto.
  - apply Forall_forall. auto.
Qed.

(** ** Bulk loads succeed *)

Lemma bulk_route_ok rg fl nv m :
  Forall (fun f => is_Some (graph_of rg f)) fl -> exists nv' m', bulk_route nv m rg fl = (nv', Ok m').
Proof.
  intros H. revert nv m. induction H as [|f fl [g Hg] H IH]; intros nv m; [by eexists _, _|]. cbn [bulk_route].
  apply resolve_graph_of in Hg as ->. apply IH.
Qed.

Lemma bulk_apply_ok rg batches nv :
  Forall (fun f => is_Some (graph_of rg f)) (concat (fst <$> batches)) ->
  exists nv', bulk_apply_commits nv batches rg = (nv', Ok tt) /\
    nv_t nv' = fold_left (fun m '(_, t) => Z.max m t) batches (nv_t nv).
Proof.
  intros H. unfold bulk_apply_commits. destruct (bulk_route_ok rg _ nv [] H) as (nv1 & m & E). rewrite E.
  destruct m; eexists; split; reflexivity.
Qed.

(** A bulk load makes no flake up. *)
Lemma bulk_contents_incl nv batches rg nv' g x :
  nov_wf nv -> graph_ids_u16 rg -> Forall flake_ordinary (concat (fst <$> batches)) -> 0 <= g ->
  bulk_apply_commits nv batches rg = (nv', Ok tt) -> x ∈ graph_contents nv' g ->
  x ∈ bulk_history nv rg g (concat (fst <$> batches)).
Proof.
  intros Hw Hrg Ho Hg E Hx. assert (Forall flake_ordinary (bulk_history nv rg g (concat (fst <$> batches)))) as Hho.
  { apply Forall_app. split; apply Forall_forall; intros y; [apply contents_ordinary; [apply Hw|done]|].
    intros [Hy _]%elem_of_list_filter_b. by rewrite Forall_forall in Ho; apply Ho. }
  destruct (bulk_apply_result nv batches rg nv' (Ok tt) g Hw Hrg Ho Hg E eq_refl) as [(h & Hh & Ek & _)|(Eh & Ek & _)].
  - rewrite Ek in Hx. apply kept_flakes_incl in Hx; [by rewrite <- Hh|by rewrite Hh].
  - by rewrite Eh, <- Ek.
Qed.
End history.
