(* ===== verification/CommitFlakes.v ===== *)
(** * Commit metadata flakes

    Models [fluree-db-novelty/src/commit_flakes.rs]: the flakes that describe a
    commit in the transaction-metadata graph, and the stamping that routes them
    there.  [CommitText] is the interface to the text forms of a content id and
    to chrono's RFC 3339 parser. *)

From stdpp Require Import base list numbers gmap strings.
From Stdlib Require Import ZArith Lia.
From S2P Require Import Prelude Bytes Vocab Cmp Value Flake CommitFormat Envelope CommitCodec.

Local Open Scope Z_scope.

Class CommitText `{CidLib} := {
  digest_hex : ContentId -> str; (* hex of the SHA-256 digest *)
  cid_to_string : ContentId -> str; (* Display *)
  parse_rfc3339_millis : str -> option Z; (* parse_from_rfc3339, timestamp_millis *)
}.

Section commit_flakes.
Context `{VL : ValueLib, CL : CidLib, CT : !CommitText}.

Definition iso_to_epoch_ms_opt (iso : str) : option Z := parse_rfc3339_millis iso.
Definition iso_to_epoch_ms (iso : str) : Z := default 0 (iso_to_epoch_ms_opt iso).

Definition with_graph (g : Sid) (f : Flake) : Flake :=
  mkFlake VL (Some g) (f_s f) (f_p f) (f_o f) (f_dt f) (f_t f) (f_op f) (f_m f).

Definition is_unrouted_commit_flake (f : Flake) : bool :=
  bool_decide (f_g f = None) && (namespace_code (f_s f) =? FLUREE_COMMIT).

Definition stamp_graph_on_commit_flakes (fl : list Flake) (graph_sid : Sid) : list Flake :=
  (fun f => if is_unrouted_commit_flake f then with_graph graph_sid f else f) <$> fl.

Definition db_name (s : String.string) : Sid := mkSid FLUREE_DB (bytes_of_string s).
Definition string_dt : Sid := mkSid XSD (bytes_of_string "string"%string).
Definition long_dt : Sid := mkSid XSD (bytes_of_string "long"%string).
Definition double_dt : Sid := mkSid XSD (bytes_of_string "double"%string).
Definition boolean_dt : Sid := mkSid XSD (bytes_of_string "boolean"%string).
Definition ref_dt : Sid := mkSid JSON_LD (bytes_of_string "id"%string).

Definition count_op (op : bool) (fl : list Flake) : Z :=
  as_i 64 (zlen (List.filter (fun f => Bool.eqb (f_op f) op) fl)).

Definition total_bytes (fl : list Flake) : Z := as_i 64 (foldr Z.add 0 (size_bytes <$> fl)).

Definition txn_meta_object (v : TxnMetaValue) : FlakeValue * Sid :=
  match v with
  | MString s => (String s, string_dt)
  | MTypedLiteral value dt_ns dt_name => (String value, mkSid dt_ns dt_name)
  | MLangString value _ => (String value, string_dt)
  | MRef ns name => (Ref (mkSid ns name), ref_dt)
  | MLong n => (Long n, long_dt)
  | MDouble d => (Double d, double_dt)
  | MBoolean b => (Boolean b, boolean_dt)
  end.

Definition generate_commit_flakes (commit : Commit) (ledger_id : str) (t : Z) : list Flake :=
  match id commit with
  | None => []
  | Some commit_id =>
      let commit_sid := mkSid FLUREE_COMMIT (digest_hex commit_id) in
      let flake p o dt := flake_new commit_sid p o dt t true None in
      [flake (db_name "address") (String (cid_to_string commit_id)) string_dt;
       flake (db_name "alias") (String ledger_id) string_dt] ++
      match time commit with
      | Some time_str => [flake (db_name "time") (Long (iso_to_epoch_ms time_str)) long_dt]
      | None => []
      end ++
      [flake (db_name "t") (Long (commit_t commit)) long_dt;
       flake (db_name "asserts") (Long (count_op true (flakes commit))) long_dt;
       flake (db_name "retracts") (Long (count_op false (flakes commit))) long_dt;
       flake (db_name "size") (Long (total_bytes (flakes commit))) long_dt] ++
      ((fun prev_id => flake (db_name "previous") (Ref (mkSid FLUREE_COMMIT (digest_hex prev_id))) ref_dt) <$>
        parents commit) ++
      match txn commit with
      | Some txn_id => [flake (db_name "txn") (String (cid_to_string txn_id)) string_dt]
      | None => []
      end ++
      ((fun entry => let '(value, dt) := txn_meta_object (meta_value entry) in
          flake (mkSid (predicate_ns entry) (predicate_name entry)) value dt) <$> txn_meta commit)
  end.

(** ** What they look like *)

(** A metadata flake of a commit: an assertion at the commit's time about the
    commit's subject, in no graph yet. *)
Record commit_flake (commit_id : ContentId) (t : Z) (f : Flake) : Prop := {
  cf_graph : f_g f = None;
  cf_subject : f_s f = mkSid FLUREE_COMMIT (digest_hex commit_id);
  cf_time : f_t f = t;
  cf_op : f_op f = true;
}.

Definition txn_meta_ordinary (e : TxnMetaEntry) : Prop :=
  match meta_value e with MDouble d => f64_is_finite d = true | _ => True end.

Definition txn_meta_u16 (e : TxnMetaEntry) : Prop :=
  match meta_value e with MRef ns _ => in_u 16 ns | _ => True end.

Lemma commit_flakes_shape commit ledger_id t cid :
  id commit = Some cid -> Forall (commit_flake cid t) (generate_commit_flakes commit ledger_id t).
Proof.
  intros Hid. unfold generate_commit_flakes. rewrite Hid.
  assert (forall p o dt, commit_flake cid t (flake_new (mkSid FLUREE_COMMIT (digest_hex cid)) p o dt t true None)) as H
    by (intros; split; done).
  repeat rewrite Forall_app. split_and!; repeat (constructor || apply H).
  - destruct (time commit); repeat (constructor || apply H).
  - apply Forall_fmap, Forall_true. intros ?. apply H.
  - destruct (txn commit); repeat (constructor || apply H).
  - apply Forall_fmap, Forall_true. intros e. cbn. destruct (txn_meta_object (meta_value e)). apply H.
Qed.

Lemma commit_flakes_ordinary commit ledger_id t :
  Forall txn_meta_ordinary (txn_meta commit) -> Forall flake_ordinary (generate_commit_flakes commit ledger_id t).
Proof.
  intros Hm. unfold generate_commit_flakes. destruct (id commit) as [cid|]; [|constructor].
  repeat rewrite Forall_app. split_and!; try by repeat constructor.
  - by destruct (time commit); repeat constructor.
  - apply Forall_fmap, Forall_true. by intros ?.
  - by destruct (txn commit); repeat constructor.
  - apply Forall_fmap. eapply Forall_impl; [exact Hm|]. intros e He. unfold compose, txn_meta_ordinary in *.
    by destruct (meta_value e).
Qed.

(** The number of metadata flakes of a commit. *)
Lemma commit_flakes_count commit ledger_id t cid :
  id commit = Some cid ->
  zlen (generate_commit_flakes commit ledger_id t) =
  6 + match time commit with Some _ => 1 | None => 0 end + zlen (parents commit) +
  match txn commit with Some _ => 1 | None => 0 end + zlen (txn_meta commit).
Proof.
  intros Hid. unfold generate_commit_flakes. rewrite Hid. rewrite !zlen_app, !zlen_fmap.
  destruct (time commit), (txn commit); unfold zlen; cbn [length]; lia.
Qed.

(** Stamping moves every metadata flake to the graph and leaves routed flakes
    and flakes about other subjects alone. *)
Lemma stamp_commit_flakes cid t g fl :
  Forall (commit_flake cid t) fl -> stamp_graph_on_commit_flakes fl g = with_graph g <$> fl.
Proof.
  intros H. unfold stamp_graph_on_commit_flakes. apply list_fmap_ext. intros i f Hf.
  rewrite Forall_lookup in H. destruct (H i f Hf) as [Hg Hs _ _]. unfold is_unrouted_commit_flake.
  by rewrite Hg, Hs, bool_decide_eq_true_2.
Qed.

Lemma stamp_other_flakes g fl :
  Forall (fun f => is_unrouted_commit_flake f = false) fl -> stamp_graph_on_commit_flakes fl g = fl.
Proof.
  intros H. unfold stamp_graph_on_commit_flakes. induction H as [|f fl Hf H IH]; [done|]. by rewrite fmap_cons, Hf, IH.
Qed.

Lemma stamp_app g a b :
  stamp_graph_on_commit_flakes (a ++ b) g = stamp_graph_on_commit_flakes a g ++ stamp_graph_on_commit_flakes b g.
Proof. apply fmap_app. Qed.

Lemma with_graph_ordinary g f : flake_ordinary f -> flake_ordinary (with_graph g f).
Proof. done. Qed.
End commit_flakes.
