(* ===== verification/Ledger.v ===== *)
(** * Ledger state

    Models [LedgerState] of [fluree-db-ledger/src/lib.rs]: a snapshot with its
    novelty overlay, dictionaries and heads, loaded from the nameservice record
    and a content store, moved forward commit by commit and index by index.

    The content store is its [get]; [decode_root] is the decoder of FIR6 index
    roots.  Caches, range providers, the binary store and logging are left out.
    [Arc::make_mut] is an update of the state.  Methods on [&mut self] return
    the state they leave behind with their outcome.  The order of a hash set of
    graph IRIs is that of the hash map they come from. *)

From stdpp Require Import base list numbers gmap strings.
From Stdlib Require Import ZArith Lia.
From S2P Require Import Prelude Bytes Vocab Cmp Value Flake Envelope CommitCodec CommitDag IriSplit.
From S2P Require Import NsCodes GraphRegistry Dicts Snapshot CommitFlakes FactState Segment SegmentRead Novelty.

Local Open Scope Z_scope.

Record IndexConfig := mkIndexConfig { reindex_min_bytes : Z; reindex_max_bytes : Z }.

Record HeadTemporal := mkTemporal { event_time_ms : Z; received_time_ms : option Z }.

Definition dual_stamp (h : HeadTemporal) : bool := match received_time_ms h with Some _ => true | None => false end.

(** The fields of the nameservice record the ledger reads and writes. *)
Record NsRecord `{CidLib} := mkNsRecord {
  nr_ledger_id : str;
  nr_commit_head_id : option ContentId;
  nr_commit_t : Z;
  nr_index_head_id : option ContentId;
  nr_index_t : Z;
}.

Section ledger.
Context `{VL : ValueLib, CL : CidLib, ML : CommitLib, LV : !LegacyV3, CT : !CommitText, NO : NsOrder}.
Context `{SL : SortLib, HO : HashOrder, AT : !Attachments}.
Context {SE RE : Type}.
Variable get : ContentId -> outcome SE bytes.
Variable decode_root : bytes -> outcome RE LedgerSnapshotMetadata.

Inductive LedgerError :=
| LedgerNotFound (ledger_id : str)
| LedgerIdMismatch (new_id current_id : str)
| StaleIndex (new_t current_t : Z)
| MissingIndexId (ledger_id : str) (index_t : Z)
| MissingContentId (t : Z)
| UnexpectedT (t expected current : Z)
| HeadCommitDecode (e : CommitCodecError)
| CoreStorage (e : SE)
| CoreRoot (e : RE)
| CoreSnapshot (e : SnapshotError)
| CommitTrace (e : LoadError (SE := SE))
| NoveltyFailed (e : NoveltyError).

(** ** Head time *)

Definition received_at (e : TxnMetaEntry) : option Z :=
  if (predicate_ns e =? FLUREE_DB) && bool_decide (predicate_name e = bytes_of_string "receivedAt"%string) then
    match meta_value e with MLong ms => Some ms | _ => None end
  else None.

Fixpoint find_map {A B} (f : A -> option B) (l : list A) : option B :=
  match l with
  | [] => None
  | x :: l => match f x with Some y => Some y | None => find_map f l end
  end.

Definition temporal_from_commit (commit : Commit) : option HeadTemporal :=
  iso ← time commit;
  event_time_ms ← iso_to_epoch_ms_opt iso;
  Some (mkTemporal event_time_ms (find_map received_at (txn_meta commit))).

(** ** State *)

Record LedgerState := mkLedger {
  ls_snapshot : LedgerSnapshot;
  ls_novelty : Novelty;
  ls_dict_novelty : DictNovelty;
  ls_small_dicts : RuntimeSmallDicts;
  ls_head_commit_id : option ContentId;
  ls_head_index_id : option ContentId;
  ls_ns_record : option NsRecord;
  ls_head_temporal : option HeadTemporal;
}.

Definition ls_with_snapshot (s : LedgerSnapshot) (st : LedgerState) : LedgerState :=
  mkLedger s (ls_novelty st) (ls_dict_novelty st) (ls_small_dicts st) (ls_head_commit_id st)
    (ls_head_index_id st) (ls_ns_record st) (ls_head_temporal st).
Definition ls_with_overlay (nv : Novelty) (dn : DictNovelty) (sd : RuntimeSmallDicts) (st : LedgerState) :
    LedgerState :=
  mkLedger (ls_snapshot st) nv dn sd (ls_head_commit_id st) (ls_head_index_id st) (ls_ns_record st)
    (ls_head_temporal st).
Definition ls_with_head_temporal (h : option HeadTemporal) (st : LedgerState) : LedgerState :=
  mkLedger (ls_snapshot st) (ls_novelty st) (ls_dict_novelty st) (ls_small_dicts st) (ls_head_commit_id st)
    (ls_head_index_id st) (ls_ns_record st) h.

Definition ledger_new (snapshot : LedgerSnapshot) (novelty : Novelty) : LedgerState :=
  mkLedger snapshot novelty (with_watermarks (sn_subject_watermarks snapshot) (sn_string_watermark snapshot))
    (populate_small small_dicts_new (iter_flakes novelty Post)) None None None None.

Definition ledger_t (st : LedgerState) : Z := Z.max (nv_t (ls_novelty st)) (sn_t (ls_snapshot st)).
Definition index_t (st : LedgerState) : Z := sn_t (ls_snapshot st).
Definition at_max_novelty (st : LedgerState) (config : IndexConfig) : bool :=
  reindex_max_bytes config <=? nv_size (ls_novelty st).
Definition should_reindex (st : LedgerState) (config : IndexConfig) : bool :=
  reindex_min_bytes config <=? nv_size (ls_novelty st).
Definition maybe_trigger_index (st : LedgerState) (config : IndexConfig) : option str :=
  if should_reindex st config then Some (sn_ledger_id (ls_snapshot st)) else None.
Definition require_index (st : LedgerState) (config : IndexConfig) : option str :=
  if at_max_novelty st config then Some (sn_ledger_id (ls_snapshot st)) else None.

Definition ensure_head_temporal (st : LedgerState) : LedgerState * outcome LedgerError (option HeadTemporal) :=
  match ls_head_temporal st, ls_head_commit_id st with
  | None, Some cid =>
      match map_err CoreStorage (get cid) ≫= fun bytes => map_err HeadCommitDecode (read_commit bytes) with
      | Ok commit =>
          let st := ls_with_head_temporal (temporal_from_commit commit) st in (st, Ok (ls_head_temporal st))
      | Err e => (st, Err e)
      | Panic => (st, Panic)
      end
  | h, _ => (st, Ok h)
  end.

(** ** Loading *)

Definition from_root_bytes (bytes : bytes) : outcome LedgerError LedgerSnapshot :=
  meta ← map_err CoreRoot (decode_root bytes); map_err CoreSnapshot (new_meta meta).

(** What the walk from the head accumulates. *)
Record NoveltyWalk := mkWalk {
  wk_snapshot : LedgerSnapshot;
  wk_ns_delta : gmap Z str;
  wk_graph_iris : list str;
  wk_batches : list (list Flake * Z);
  wk_temporal : option HeadTemporal;
  wk_first : bool;
}.

(** [for (code, prefix) in delta { merged.entry(code).or_insert(prefix) }]. *)
Definition or_insert_all (merged d : gmap Z str) : gmap Z str := merged ∪ d.

Definition graph_iris_of (commit : Commit) : list str := (ns_iter (graph_delta commit)).*2.

(** One commit of the stream, newest first; the batch goes on top. *)
Definition walk_commit (ledger_id : str) (w : NoveltyWalk) (commit : Commit) : outcome LedgerError NoveltyWalk :=
  let temporal := if wk_first w then temporal_from_commit commit else wk_temporal w in
  let meta_flakes := generate_commit_flakes commit ledger_id (commit_t commit) in
  let w := mkWalk (wk_snapshot w) (or_insert_all (wk_ns_delta w) (namespace_delta commit))
    (wk_graph_iris w ++ graph_iris_of commit) ((flakes commit ++ meta_flakes, commit_t commit) :: wk_batches w)
    temporal false in
  match ns_split_mode commit with
  | None => Ok w
  | Some mode =>
      match set_ns_split_mode (wk_snapshot w) mode (commit_t commit) with
      | (s, Ok _) => Ok (mkWalk s (wk_ns_delta w) (wk_graph_iris w) (wk_batches w) (wk_temporal w) (wk_first w))
      | (_, Err e) => Err (CoreSnapshot e)
      | (_, Panic) => Panic
      end
  end.

Fixpoint walk_stream (ledger_id : str) (w : NoveltyWalk) (items : list (outcome (LoadError (SE := SE)) Commit)) :
    outcome LedgerError NoveltyWalk :=
  match items with
  | [] => Ok w
  | item :: items =>
      commit ← map_err CommitTrace item;
      w ← walk_commit ledger_id w commit;
      walk_stream ledger_id w items
  end.

(** The graph routing of a snapshot, with the transaction-metadata graph always
    routable. *)
Definition routing (s : LedgerSnapshot) (ledger_id : str) : outcome SnapshotError (gmap Sid Z) :=
  reverse_graph ← build_reverse_graph s;
  g_sid ← sn_encode_iri s (txn_meta_graph_iri ledger_id);
  Ok match g_sid with
     | Some g_sid =>
         match reverse_graph !! g_sid with
         | Some _ => reverse_graph
         | None => <[g_sid := TXN_META_GRAPH_ID]> reverse_graph
         end
     | None => reverse_graph
     end.

Definition stamp_batches (g_sid : option Sid) (batches : list (list Flake * Z)) : list (list Flake * Z) :=
  match g_sid with
  | Some g => (fun b => (stamp_graph_on_commit_flakes b.1 g, b.2)) <$> batches
  | None => batches
  end.

Fixpoint populate_batches (dn : DictNovelty) (batches : list (list Flake * Z)) : option DictNovelty :=
  match batches with
  | [] => Some dn
  | (fl, _) :: batches => dn ← populate_from_flakes dn fl; populate_batches dn batches
  end.

(** The part of [load_novelty] after the stream; the batches are oldest first. *)
Definition replay (w : NoveltyWalk) (t0 : Z) (ledger_id : str) (dn : DictNovelty) :
    outcome LedgerError (LedgerSnapshot * Novelty * DictNovelty) :=
  match apply_envelope_deltas (wk_snapshot w) (wk_ns_delta w) (wk_graph_iris w) with
  | (s, Ok _) =>
      g_sid ← map_err CoreSnapshot (sn_encode_iri s (txn_meta_graph_iri ledger_id));
      let batches := stamp_batches g_sid (wk_batches w) in
      reverse_graph ← map_err CoreSnapshot (routing s ledger_id);
      match populate_batches dn batches with
      | None => Panic
      | Some dn =>
          match bulk_apply_commits (novelty_new t0) batches (fun sid => reverse_graph !! sid) with
          | (nv, Ok _) => Ok (s, nv, dn)
          | (_, Err e) => Err (NoveltyFailed e)
          | (_, Panic) => Panic
          end
      end
  | (_, Err e) => Err (CoreSnapshot e)
  | (_, Panic) => Panic
  end.

Definition load_novelty (fuel : nat) (head_cid : ContentId) (t0 : Z) (ledger_id : str) (snapshot : LedgerSnapshot)
    (dn : DictNovelty) :
    option (outcome LedgerError (LedgerSnapshot * Novelty * DictNovelty * option HeadTemporal)) :=
  items ← trace_commits_by_id get fuel head_cid t0;
  Some (w ← walk_stream ledger_id (mkWalk snapshot ∅ [] [] None true) items;
        '(s, nv, dn) ← replay w t0 ledger_id dn;
        Ok (s, nv, dn, wk_temporal w)).

Definition load_with_store (fuel : nat) (record : NsRecord) : option (outcome LedgerError LedgerState) :=
  let base :=
    match nr_index_head_id record with
    | Some index_cid =>
        root_bytes ← map_err CoreStorage (get index_cid);
        loaded ← from_root_bytes root_bytes;
        Ok (loaded, with_watermarks (sn_subject_watermarks loaded) (sn_string_watermark loaded))
    | None => Ok (genesis (nr_ledger_id record), new_genesis)
    end in
  match base with
  | Err e => Some (Err e)
  | Panic => Some Panic
  | Ok (snapshot, dn) =>
      let snapshot := sn_with_ledger_id (nr_ledger_id record) snapshot in
      let finish s nv dn small head temporal :=
        mkLedger s nv dn small head (nr_index_head_id record) (Some record) temporal in
      match nr_commit_head_id record with
      | Some head_cid =>
          if sn_t snapshot <? nr_commit_t record then
            r ← load_novelty fuel head_cid (sn_t snapshot) (nr_ledger_id record) snapshot dn;
            Some ('(s, nv, dn, temporal) ← r;
                  Ok (finish s nv dn (populate_small small_dicts_new (iter_flakes nv Post)) (Some head_cid) temporal))
          else Some (Ok (finish snapshot (novelty_new (sn_t snapshot)) dn small_dicts_new (Some head_cid) None))
      | None => Some (Ok (finish snapshot (novelty_new (sn_t snapshot)) dn small_dicts_new None None))
      end
  end.

(** ** A new index *)

Definition record_index (index_id : option ContentId) (t : Z) (r : option NsRecord) : option NsRecord :=
  (fun r => mkNsRecord CL (nr_ledger_id r) (nr_commit_head_id r) (nr_commit_t r) index_id t) <$> r.

(** The overlay that remains after an index at time [t], and whether any
    flake does. *)
Definition remaining_overlay (st : LedgerState) (new_snapshot : LedgerSnapshot) :
    option (Novelty * DictNovelty * RuntimeSmallDicts * bool) :=
  nv ← clear_up_to (ls_novelty st) (sn_t new_snapshot);
  let dn := with_watermarks (sn_subject_watermarks new_snapshot) (sn_string_watermark new_snapshot) in
  if 0 <? nv_size nv then
    dn ← populate_from_flakes dn (iter_flakes nv Post);
    Some (nv, dn, populate_small small_dicts_new (iter_flakes nv Post), true)
  else Some (nv, dn, small_dicts_new, false).

(** The guards of both index updates: an error, nothing to do, or go on. *)
Definition check_index (st : LedgerState) (new_snapshot : LedgerSnapshot) : outcome LedgerError bool :=
  if negb (bool_decide (sn_ledger_id new_snapshot = sn_ledger_id (ls_snapshot st)))
  then Err (LedgerIdMismatch (sn_ledger_id new_snapshot) (sn_ledger_id (ls_snapshot st)))
  else if sn_t new_snapshot <? sn_t (ls_snapshot st)
  then Err (StaleIndex (sn_t new_snapshot) (sn_t (ls_snapshot st)))
  else Ok (negb (sn_t new_snapshot =? sn_t (ls_snapshot st))).

Definition apply_index (st : LedgerState) (index_id : ContentId) : LedgerState * outcome LedgerError unit :=
  match map_err CoreStorage (get index_id) ≫= from_root_bytes with
  | Err e => (st, Err e)
  | Panic => (st, Panic)
  | Ok new_snapshot =>
      match check_index st new_snapshot with
      | Err e => (st, Err e)
      | Panic => (st, Panic)
      | Ok false => (st, Ok tt)
      | Ok true =>
          match remaining_overlay st new_snapshot with
          | None => (st, Panic)
          | Some (nv, dn, small, _) =>
              (mkLedger new_snapshot nv dn small (ls_head_commit_id st) (Some index_id)
                 (record_index (Some index_id) (sn_t new_snapshot) (ls_ns_record st)) (ls_head_temporal st), Ok tt)
          end
      end
  end.

(** The namespaces and graphs of the old snapshot carried into the new one. *)
Definition carry_over (old new_snapshot : LedgerSnapshot) : outcome SnapshotError LedgerSnapshot :=
  match merge_namespaces new_snapshot (ns_iter (sn_namespace_codes old)) with
  | (s, Ok _) =>
      match apply_delta (sn_graph_registry s) (iter_entries (sn_graph_registry old)).*2 with
      | Some (r, _) => Ok (sn_with_registry r s)
      | None => Panic
      end
  | (_, Err e) => Err e
  | (_, Panic) => Panic
  end.

Definition apply_loaded_db (st : LedgerState) (new_snapshot : LedgerSnapshot) (index_id : option ContentId) :
    LedgerState * outcome LedgerError unit :=
  match check_index st new_snapshot with
  | Err e => (st, Err e)
  | Panic => (st, Panic)
  | Ok false => (st, Ok tt)
  | Ok true =>
      match remaining_overlay st new_snapshot with
      | None => (st, Panic)
      | Some (nv, dn, small, has_remaining_novelty) =>
          match (if has_remaining_novelty then carry_over (ls_snapshot st) new_snapshot else Ok new_snapshot) with
          | Err e => (st, Err (CoreSnapshot e))
          | Panic => (st, Panic)
          | Ok merged =>
              (mkLedger merged nv dn small (ls_head_commit_id st) index_id
                 (record_index index_id (sn_t merged) (ls_ns_record st)) (ls_head_temporal st), Ok tt)
          end
      end
  end.

(** [lookup] is the nameservice's answer for the ledger. *)
Definition maybe_apply_newer_index (st : LedgerState) (lookup : option NsRecord) :
    LedgerState * outcome LedgerError bool :=
  match lookup with
  | None => (st, Err (LedgerNotFound (sn_ledger_id (ls_snapshot st))))
  | Some record =>
      if sn_t (ls_snapshot st) <? nr_index_t record then
        match nr_index_head_id record with
        | None => (st, Err (MissingIndexId (sn_ledger_id (ls_snapshot st)) (nr_index_t record)))
        | Some index_id =>
            match apply_index st index_id with
            | (st, Ok _) => (st, Ok true)
            | (st, Err e) => (st, Err e)
            | (st, Panic) => (st, Panic)
            end
        end
      else (st, Ok false)
  end.

(** ** A new commit *)

(** The dictionaries and the overlay take a routed batch. *)
Definition take_flakes (st : LedgerState) (fl : list Flake) (t : Z) (reverse_graph : gmap Sid Z) :
    LedgerState * outcome LedgerError unit :=
  match can_apply (ls_novelty st) fl (fun sid => reverse_graph !! sid) with
  | Err e => (st, Err (NoveltyFailed e))
  | Panic => (st, Panic)
  | Ok _ =>
      match populate_from_flakes (ls_dict_novelty st) fl with
      | None => (st, Panic)
      | Some dn =>
          let small := populate_small (ls_small_dicts st) fl in
          let '(nv, r) := apply_commit (ls_novelty st) fl t (fun sid => reverse_graph !! sid) in
          (ls_with_overlay nv dn small st, map_err NoveltyFailed r)
      end
  end.

Definition apply_staged_flakes_for_sequential_staging (st : LedgerState) (fl : list Flake) (ns_delta : gmap Z str)
    (graph_iris : list str) : LedgerState * outcome LedgerError unit :=
  match apply_envelope_deltas (ls_snapshot st) ns_delta graph_iris with
  | (s, Err e) => (ls_with_snapshot s st, Err (CoreSnapshot e))
  | (s, Panic) => (ls_with_snapshot s st, Panic)
  | (s, Ok _) =>
      let st := ls_with_snapshot s st in
      match fl with
      | [] => (st, Ok tt)
      | _ =>
          match build_reverse_graph s with
          | Err e => (st, Err (CoreSnapshot e))
          | Panic => (st, Panic)
          | Ok reverse_graph => take_flakes st fl (ledger_t st + 1) reverse_graph
          end
      end
  end.

(** The snapshot half of [apply_single_commit]: split mode, then deltas. *)
Definition apply_envelope (s : LedgerSnapshot) (commit : Commit) : LedgerSnapshot * outcome SnapshotError unit :=
  let '(s, r) :=
    match ns_split_mode commit with
    | Some mode => set_ns_split_mode s mode (commit_t commit)
    | None => (s, Ok tt)
    end in
  match r with
  | Ok _ => apply_envelope_deltas s (namespace_delta commit) (graph_iris_of commit)
  | Err e => (s, Err e)
  | Panic => (s, Panic)
  end.

(** The data flakes of a commit and its metadata flakes, stamped. *)
Definition commit_batch (s : LedgerSnapshot) (commit : Commit) (ledger_id : str) : outcome SnapshotError (list Flake) :=
  let meta_flakes := generate_commit_flakes commit ledger_id (commit_t commit) in
  g_sid ← sn_encode_iri s (txn_meta_graph_iri ledger_id);
  Ok (flakes commit ++
      match g_sid with Some g => stamp_graph_on_commit_flakes meta_flakes g | None => meta_flakes end).

Definition set_commit (commit_id : ContentId) (t : Z) (r : option NsRecord) : option NsRecord :=
  (fun r => mkNsRecord CL (nr_ledger_id r) (Some commit_id) t (nr_index_head_id r) (nr_index_t r)) <$> r.

Definition advance_head (commit_id : ContentId) (t : Z) (temporal : option HeadTemporal) (st : LedgerState) :
    LedgerState :=
  mkLedger (ls_snapshot st) (ls_novelty st) (ls_dict_novelty st) (ls_small_dicts st) (Some commit_id)
    (ls_head_index_id st) (set_commit commit_id t (ls_ns_record st))
    (match temporal with Some _ => temporal | None => ls_head_temporal st end).

Definition apply_single_commit (st : LedgerState) (commit : Commit) (ledger_id : str) :
    LedgerState * outcome LedgerError unit :=
  let t := commit_t commit in
  let current_t := ledger_t st in
  match id commit with
  | None => (st, Err (MissingContentId t))
  | Some commit_id =>
      if negb (t =? current_t + 1) then (st, Err (UnexpectedT t (current_t + 1) current_t))
      else
        match apply_envelope (ls_snapshot st) commit with
        | (s, Err e) => (ls_with_snapshot s st, Err (CoreSnapshot e))
        | (s, Panic) => (ls_with_snapshot s st, Panic)
        | (s, Ok _) =>
            let st := ls_with_snapshot s st in
            match (fl ← commit_batch s commit ledger_id; rg ← routing s ledger_id; Ok (fl, rg)) with
            | Err e => (st, Err (CoreSnapshot e))
            | Panic => (st, Panic)
            | Ok (fl, reverse_graph) =>
                match take_flakes st fl t reverse_graph with
                | (st, Ok _) => (advance_head commit_id t (temporal_from_commit commit) st, Ok tt)
                | (st, Err e) => (st, Err e)
                | (st, Panic) => (st, Panic)
                end
            end
        end
  end.
End ledger.
