(* ===== verification/LedgerLaws.v ===== *)
(** * Ledger state: commits and indexes

    The invariant of a ledger state and what commits, staged flakes and new
    indexes do to it. *)

From stdpp Require Import base list numbers gmap sorting.
From Stdlib Require Import ZArith Lia.
From S2P Require Import Prelude Bytes Vocab Cmp Value Flake Envelope CommitCodec CommitDag IriSplit.
From S2P Require Import NsCodes GraphRegistry Dicts Snapshot CommitFlakes FactState Segment SegmentRead Novelty.
From S2P Require Import NoveltyRead NoveltyApply NoveltyCompact NoveltyBulk NoveltyHistory Ledger.

Local Open Scope Z_scope.

(** IRIs that split in every mode. *)
Definition plain_iri (iri : str) : Prop := utf8_valid iri = true /\ ~ query_before_scheme iri.

Lemma plain_iri_ok iri mode : plain_iri iri -> iri_ok mode iri.
Proof. intros [H1 H2]. split; [done|by right]. Qed.

Definition graphs_plain (s : LedgerSnapshot) : Prop :=
  forall iri g, graph_id_for_iri (sn_graph_registry s) iri = Some g -> plain_iri iri.

Lemma graphs_plain_ok s : graphs_plain s -> graphs_ok s.
Proof. intros H iri g Hg. by eapply plain_iri_ok, H. Qed.

Section laws.
Context `{VL : ValueLib, VLL : !ValueLibLaws, CL : CidLib, ML : CommitLib, LV : !LegacyV3, CT : !CommitText}.
Context `{NO : NsOrder, NL : !NsOrderLaws, SL : SortLib, SLL : !SortLaws, HO : HashOrder, HL : !HashLaws, AT : !Attachments}.
Context {SE RE : Type}.

Local Abbreviation LError := (LedgerError (SE := SE) (RE := RE)).

(** ** Well-formed commits *)

Record commit_ok (c : Commit) : Prop := {
  ck_ordinary : Forall flake_ordinary (flakes c);
  ck_sids : Forall flake_sids_ok (flakes c);
  ck_times : Forall (fun f => f_t f = commit_t c) (flakes c);
  ck_meta : Forall txn_meta_ordinary (txn_meta c);
  ck_meta_sids : Forall txn_meta_u16 (txn_meta c);
  ck_namespaces : delta_clean (namespace_delta c);
  ck_graphs : map_Forall (fun _ iri => plain_iri iri) (graph_delta c);
}.

(** A bound on the flakes of a commit, metadata included. *)
Definition commit_size (c : Commit) : Z := zlen (flakes c) + 8 + zlen (parents c) + zlen (txn_meta c).

Lemma meta_flakes_sids c ledger_id t :
  Forall txn_meta_u16 (txn_meta c) -> Forall flake_sids_ok (generate_commit_flakes c ledger_id t).
Proof.
  intros Hm. unfold generate_commit_flakes. destruct (id c) as [cid|]; [|constructor].
  assert (in_u 16 FLUREE_COMMIT) as H9 by done.
  repeat rewrite Forall_app. split_and!.
  - repeat constructor; done.
  - destruct (time c); repeat constructor; done.
  - repeat constructor; done.
  - apply Forall_fmap, Forall_true. intros p. by split.
  - destruct (txn c); repeat constructor; done.
  - apply Forall_fmap. eapply Forall_impl; [exact Hm|]. intros e He. unfold compose, txn_meta_u16 in *.
    by destruct (meta_value e); split.
Qed.

Lemma with_graph_sids g f : flake_sids_ok (with_graph g f) <-> flake_sids_ok f.
Proof. done. Qed.

Lemma commit_batch_spec s c cid ledger_id :
  commit_ok c -> id c = Some cid -> plain_iri (txn_meta_graph_iri ledger_id) ->
  exists g, encode_iri_inner s (txn_meta_graph_iri ledger_id) = Ok g /\
  let fl := flakes c ++ (with_graph g <$> generate_commit_flakes c ledger_id (commit_t c)) in
  commit_batch s c ledger_id = Ok fl /\ Forall flake_ordinary fl /\ Forall flake_sids_ok fl /\
  Forall (fun f => f_t f = commit_t c) fl /\ fl <> [] /\ zlen fl <= commit_size c.
Proof.
  intros Hc Hid Hp. destruct (encode_total s _ (plain_iri_ok _ (sn_ns_split_mode s) Hp)) as [g Eg]. exists g.
  pose proof (commit_flakes_shape c ledger_id (commit_t c) cid Hid) as Hs.
  pose proof (commit_flakes_count c ledger_id (commit_t c) cid Hid) as Hn.
  unfold commit_batch, sn_encode_iri. rewrite Eg. cbn [mbind outcome_bind].
  rewrite (stamp_commit_flakes cid (commit_t c) g _ Hs). cbv zeta. split; [done|]. split; [done|]. split_and!.
  - apply Forall_app. split; [apply Hc|]. apply Forall_fmap. exact (commit_flakes_ordinary c ledger_id (commit_t c) (ck_meta _ Hc)).
  - apply Forall_app. split; [apply Hc|]. apply Forall_fmap. exact (meta_flakes_sids c ledger_id (commit_t c) (ck_meta_sids _ Hc)).
  - apply Forall_app. split; [apply Hc|]. apply Forall_fmap. eapply Forall_impl; [exact Hs|]. intros f Hf. apply (cf_time _ _ _ Hf).
  - intros E. assert (zlen (flakes c ++ (with_graph g <$> generate_commit_flakes c ledger_id (commit_t c))) = 0) as E0
      by by rewrite E. rewrite zlen_app, zlen_fmap, Hn in E0.
    pose proof (zlen_nonneg (flakes c)). pose proof (zlen_nonneg (parents c)). pose proof (zlen_nonneg (txn_meta c)).
    destruct (time c), (txn c); lia.
  - rewrite zlen_app, zlen_fmap, Hn. unfold commit_size. destruct (time c), (txn c); lia.
Qed.

(** ** Routing *)

Lemma routing_spec s ledger_id :
  snapshot_wf s -> graphs_plain s -> plain_iri (txn_meta_graph_iri ledger_id) ->
  exists m, routing s ledger_id = Ok m /\
  (forall sid g, m !! sid = Some g -> 0 < g < 2 ^ 16) /\
  (forall iri g, graph_id_for_iri (sn_graph_registry s) iri = Some g ->
    exists sid, encode_iri_inner s iri = Ok sid /\ m !! sid = Some g) /\
  (forall sid g, m !! sid = Some g ->
    (exists iri, graph_id_for_iri (sn_graph_registry s) iri = Some g /\ encode_iri_inner s iri = Ok sid) \/
    (g = TXN_META_GRAPH_ID /\ encode_iri_inner s (txn_meta_graph_iri ledger_id) = Ok sid /\
     graph_id_for_iri (sn_graph_registry s) (txn_meta_graph_iri ledger_id) = None)).
Proof.
  intros Hw Hp Hl. destruct (build_reverse_graph_spec s Hw (graphs_plain_ok s Hp)) as (m & E & Hm).
  destruct (encode_total s _ (plain_iri_ok _ (sn_ns_split_mode s) Hl)) as [gt Et].
  assert (forall iri g, graph_id_for_iri (sn_graph_registry s) iri = Some g -> 0 < g < 2 ^ 16) as Hr.
  { intros iri g Hg. split; [by eapply registry_positive; [apply Hw|]|].
    apply (rw_below _ (so_registry _ Hw)) in Hg. pose proof (rw_next _ (so_registry _ Hw)). lia. }
  unfold routing. rewrite E. cbn [mbind outcome_bind]. unfold sn_encode_iri. rewrite Et. cbn [mbind outcome_bind].
  destruct (m !! gt) as [g0|] eqn:Eg; eexists; (split; [done|]); split_and!.
  - intros sid g (iri & Hg & _)%Hm. by eapply Hr.
  - intros iri g Hg. destruct (encode_total s iri (plain_iri_ok _ _ (Hp _ _ Hg))) as [sid Es]. exists sid.
    split; [done|]. apply Hm. eauto.
  - intros sid g Hg%Hm. by left.
  - intros sid g Hg. destruct (decide (sid = gt)) as [->|Hne].
    + rewrite lookup_insert_eq in Hg. by injection Hg as <-.
    + rewrite lookup_insert_ne in Hg by done. apply Hm in Hg as (iri & Hg & _). by eapply Hr.
  - intros iri g Hg. destruct (encode_total s iri (plain_iri_ok _ _ (Hp _ _ Hg))) as [sid Es]. exists sid.
    split; [done|]. assert (m !! sid = Some g) as Hs by (apply Hm; eauto).
    rewrite lookup_insert_ne; [done|]. intros ->. congruence.
  - intros sid g Hg. destruct (decide (sid = gt)) as [->|Hne].
    + rewrite lookup_insert_eq in Hg. injection Hg as <-. right. split_and!; [done..|].
      apply eq_None_not_Some. intros [g Hg]. assert (m !! gt = Some g) by (apply Hm; eauto). congruence.
    + rewrite lookup_insert_ne in Hg by done. left. by apply Hm.
Qed.

(** ** The invariant *)

(** A flake the state can serve: not from the future, and every id a query
    needs for it is in the dictionaries. *)
Definition served (st : LedgerState) (f : Flake) : Prop :=
  f_t f <= nv_t (ls_novelty st) /\ flake_sids_ok f /\ covers (ls_dict_novelty st) f /\
  f_p f ∈ by_id (predicates (ls_small_dicts st)) /\ f_dt f ∈ by_id (datatypes (ls_small_dicts st)).

Record ledger_wf (ledger_id : str) (st : LedgerState) : Prop := {
  lw_snapshot : snapshot_wf (ls_snapshot st);
  lw_graphs : graphs_plain (ls_snapshot st);
  lw_ledger : plain_iri (txn_meta_graph_iri ledger_id);
  lw_novelty : nov_wf (ls_novelty st);
  lw_dicts : dn_wf (ls_dict_novelty st);
  lw_small : small_wf (ls_small_dicts st);
  lw_served g f : 0 <= g -> f ∈ graph_contents (ls_novelty st) g -> served st f;
}.

Lemma graph_iris_listed c iri : iri ∈ graph_iris_of c <-> exists g, graph_delta c !! g = Some iri.
Proof.
  unfold graph_iris_of. rewrite list_elem_of_fmap. split.
  - intros ([g x] & -> & Hin). rewrite (ns_iter_perm _), elem_of_map_to_list in Hin. eauto.
  - intros [g Hg]. exists (g, iri). rewrite (ns_iter_perm _), elem_of_map_to_list. done.
Qed.

Lemma graphs_plain_grow s s' iris :
  graphs_plain s -> Forall plain_iri iris ->
  (forall iri g, graph_id_for_iri (sn_graph_registry s') iri = Some g ->
    graph_id_for_iri (sn_graph_registry s) iri = Some g \/ iri ∈ iris) -> graphs_plain s'.
Proof. intros Hp Hi H iri g [Hg|Hin]%H; [by eapply Hp|]. by rewrite Forall_forall in Hi; apply Hi. Qed.

Lemma snapshot_mode_wf mode s : snapshot_wf s -> snapshot_wf (sn_with_mode mode s).
Proof. intros Hw. split; [apply (so_bimap _ Hw)|apply (so_empty _ Hw)|apply (so_overflow _ Hw)|apply Hw]. Qed.

Lemma graph_iris_plain c : commit_ok c -> Forall plain_iri (graph_iris_of c).
Proof. intros Hc. apply Forall_forall. intros iri [g Hg]%graph_iris_listed. by apply (ck_graphs _ Hc g). Qed.

Lemma apply_envelope_spec s c :
  snapshot_wf s -> graphs_plain s -> commit_ok c -> graph_room s (graph_iris_of c) ->
  let '(s', r) := apply_envelope s c in
  snapshot_wf s' /\ graphs_plain s' /\ snapshot_extends s s' /\ sn_t s' = sn_t s /\ sn_ledger_id s' = sn_ledger_id s /\
  match r with
  | Ok _ => namespace_delta c ⊆ sn_namespace_codes s' /\
      forall g iri, graph_delta c !! g = Some iri -> is_Some (graph_id_for_iri (sn_graph_registry s') iri)
  | Err _ => True
  | Panic => False
  end.
Proof.
  intros Hw Hp Hc Hr. unfold apply_envelope.
  assert (forall s1, snapshot_wf s1 -> sn_graph_registry s1 = sn_graph_registry s -> sn_namespace_codes s1 = sn_namespace_codes s ->
    sn_t s1 = sn_t s -> sn_ledger_id s1 = sn_ledger_id s ->
    let '(s', r) := apply_envelope_deltas s1 (namespace_delta c) (graph_iris_of c) in
    snapshot_wf s' /\ graphs_plain s' /\ snapshot_extends s s' /\ sn_t s' = sn_t s /\ sn_ledger_id s' = sn_ledger_id s /\
    match r with
    | Ok _ => namespace_delta c ⊆ sn_namespace_codes s' /\
        forall g iri, graph_delta c !! g = Some iri -> is_Some (graph_id_for_iri (sn_graph_registry s') iri)
    | Err _ => True
    | Panic => False
    end) as H.
  { intros s1 W1 Eg En Et El. pose proof (envelope_deltas_spec s1 (namespace_delta c) (graph_iris_of c) W1 (ck_namespaces _ Hc)) as H.
    unfold graph_room in *. rewrite Eg in H. destruct (apply_envelope_deltas s1 _ _) as [s' r].
    destruct (H Hr) as (W & [X1 X2] & E1 & E2 & _ & _ & R). rewrite En in X1. rewrite Eg in X2. split_and!; [done| |by split|congruence..|].
    - destruct r as [[]|e|]; [|destruct R as [R _]|done].
      + destruct R as (_ & _ & _ & R). apply (graphs_plain_grow s s' (graph_iris_of c)); [done|by apply graph_iris_plain|done].
      + unfold graphs_plain. by rewrite R.
    - destruct r as [[]|e|]; [|done..]. destruct R as (R1 & _ & R2 & _). split; [done|]. intros g iri Hg.
      apply R2, graph_iris_listed. eauto. }
  destruct (ns_split_mode c) as [mode|]; [|by apply (H s)].
  pose proof (set_mode_spec s mode (commit_t c)) as Hm. destruct (set_ns_split_mode s mode (commit_t c)) as [s1 [[]|e|]]; [| |done].
  - destruct Hm as [-> _]. apply H; [by apply snapshot_mode_wf|done..].
  - destruct Hm as [-> _]. done.
Qed.

Definition rg_of (m : gmap Sid Z) (sid : Sid) : option Z := m !! sid.

(** The dictionaries and the overlay take a batch together, or neither does. *)
Lemma take_flakes_spec ledger_id st fl t m k :
  ledger_wf ledger_id st -> Forall flake_ordinary fl -> Forall flake_sids_ok fl -> Forall (fun f => f_t f = t) fl ->
  fl <> [] -> nv_t (ls_novelty st) <= t -> (forall sid g, m !! sid = Some g -> 0 < g < 2 ^ 16) ->
  0 <= k -> dict_room (ls_dict_novelty st) (k + 2 * zlen fl) ->
  let '(st', r) := take_flakes (SE := SE) (RE := RE) st fl t m in
  match r with
  | Ok _ => ledger_wf ledger_id st' /\ nv_t (ls_novelty st') = t /\
      apply_commit (ls_novelty st) fl t (rg_of m) = (ls_novelty st', Ok tt) /\
      dn_extends (ls_dict_novelty st) (ls_dict_novelty st') /\
      st' = ls_with_overlay (ls_novelty st') (ls_dict_novelty st') (ls_small_dicts st') st /\
      dict_room (ls_dict_novelty st') k /\ (forall f, f ∈ fl -> covers (ls_dict_novelty st') f) /\
      forall g, 0 <= g -> graph_contents (ls_novelty st') g ≡ₚ
        graph_contents (ls_novelty st) g ++ accepted (ls_novelty st) (rg_of m) g fl
  | Err e => st' = st /\ exists e', e = NoveltyFailed e' /\ can_apply (ls_novelty st) fl (rg_of m) = Err e'
  | Panic => False
  end.
Proof.
  intros Hw Ho Hs Ht Hne Hle Hm Hk Hroom. unfold take_flakes. change (fun sid => m !! sid) with (rg_of m).
  assert (graph_ids_u16 (rg_of m)) as Hrg by (intros sid g Hg%Hm; unfold in_u; lia).
  pose proof (apply_commit_all_or_nothing (ls_novelty st) fl t (rg_of m)) as Hat.
  pose proof (apply_commit_spec (ls_novelty st) fl t (rg_of m) (lw_novelty _ _ Hw) Ho Hrg Hne) as Hsp.
  destruct (can_apply (ls_novelty st) fl (rg_of m)) as [[]|e|] eqn:Ec.
  - destruct (populate_flakes_spec fl (ls_dict_novelty st) k (lw_dicts _ _ Hw) Hs Hk Hroom)
      as (dn & -> & Wd & Xd & Cd & Rd).
    destruct (populate_small_spec fl (ls_small_dicts st) (lw_small _ _ Hw)) as (Wm & Xm & Cm). cbv zeta in *.
    destruct (apply_commit (ls_novelty st) fl t (rg_of m)) as [nv r] eqn:Ea.
    assert (is_ok r = true) as Hok by (by apply Hat). destruct r as [[]|e|]; [|done..].
    destruct (Hsp Hok) as (Wn & Tn & _ & Cn). rewrite Z.max_r in Tn by done. cbn [map_err].
    rewrite Forall_forall in Cd, Ht, Hs. split_and!; try done. split; cbn [ls_with_overlay ls_snapshot ls_novelty ls_dict_novelty ls_small_dicts]; try apply Hw; try done.
    intros g f Hg Hf. rewrite (Cn g Hg), elem_of_app in Hf. unfold served. cbn. destruct Hf as [Hf|Hf].
    + destruct (lw_served _ _ Hw g f Hg Hf) as (H1 & H2 & H3 & H4 & H5). destruct Xm as (P1 & P2 & _).
      split_and!; [lia|done|by eapply covers_mono|by eapply prefix_elem|by eapply prefix_elem].
    + unfold accepted in Hf. apply elem_of_list_filter_b in Hf as [Hf _]. specialize (Ht f Hf). specialize (Hs f Hf).
      specialize (Cm f Hf). split_and!; [lia|done|by apply Cd|apply Cm|apply Cm].
  - split; [done|]. by exists e.
  - exfalso. unfold can_apply in Ec. destruct (MAX_SEGMENT_FLAKES <? zlen fl); [done|].
    revert Ec. generalize (@nil Z). induction fl as [|f fl' IH] in Hne |- *; intros ck; [done|].
    cbn [can_apply_loop]. unfold resolve_flake_g_id, check_segment_capacity.
    assert (forall ck, can_apply_loop (ls_novelty st) (rg_of m) ck fl' = Panic -> False) as IH'.
    { intros ck'. destruct fl'; [done|]. by apply IH. }
    destruct (f_g f); cbn; [destruct (rg_of m s); cbn; [|done]|]; case_bool_decide; try apply IH';
      destruct (MAX_SEGMENTS <? _); cbn; try done; apply IH'.
Qed.

(** ** Commits *)

Lemma ledger_snapshot_wf ledger_id s st :
  ledger_wf ledger_id st -> snapshot_wf s -> graphs_plain s -> ledger_wf ledger_id (ls_with_snapshot s st).
Proof. intros Hw H1 H2. split; try apply Hw; done. Qed.

(** What [apply_single_commit] does, step by step. *)
Lemma single_commit_spec (ledger_id : str) (st : LedgerState) (c : Commit) (cid : ContentId) (k : Z) :
  ledger_wf ledger_id st -> commit_ok c -> id c = Some cid -> commit_t c = ledger_t st + 1 ->
  graph_room (ls_snapshot st) (graph_iris_of c) -> 0 <= k ->
  dict_room (ls_dict_novelty st) (k + 2 * commit_size c) ->
  let '(st', r) := apply_single_commit (SE := SE) (RE := RE) st c ledger_id in
  snapshot_extends (ls_snapshot st) (ls_snapshot st') /\ sn_t (ls_snapshot st') = sn_t (ls_snapshot st) /\ ledger_wf ledger_id st' /\
  match r with
  | Ok _ =>
      ledger_t st' = commit_t c /\ ls_head_commit_id st' = Some cid /\
      ls_ns_record st' = set_commit cid (commit_t c) (ls_ns_record st) /\
      namespace_delta c ⊆ sn_namespace_codes (ls_snapshot st') /\
      (forall g iri, graph_delta c !! g = Some iri ->
        is_Some (graph_id_for_iri (sn_graph_registry (ls_snapshot st')) iri)) /\
      dn_extends (ls_dict_novelty st) (ls_dict_novelty st') /\
      dict_room (ls_dict_novelty st') k /\
      exists fl m, apply_envelope (ls_snapshot st) c = (ls_snapshot st', Ok tt) /\
        apply_commit (ls_novelty st) fl (commit_t c) (rg_of m) = (ls_novelty st', Ok tt) /\
        ls_head_temporal st' = match temporal_from_commit c with Some h => Some h | None => ls_head_temporal st end /\
        commit_batch (ls_snapshot st') c ledger_id = Ok fl /\ routing (ls_snapshot st') ledger_id = Ok m /\
        (forall f, f ∈ fl -> covers (ls_dict_novelty st') f) /\
        forall g, 0 <= g -> graph_contents (ls_novelty st') g ≡ₚ
          graph_contents (ls_novelty st) g ++ accepted (ls_novelty st) (rg_of m) g fl
  | Err _ => st' = ls_with_snapshot (ls_snapshot st') st
  | Panic => False
  end.
Proof.
  intros Hw Hc Hid Ht Hg Hk Hd. unfold apply_single_commit. rewrite Hid, Ht, Z.eqb_refl. cbn [negb].
  pose proof (apply_envelope_spec (ls_snapshot st) c (lw_snapshot _ _ Hw) (lw_graphs _ _ Hw) Hc Hg) as He.
  destruct (apply_envelope (ls_snapshot st) c) as [s r] eqn:Eenv. destruct He as (W & P & X & Et & _ & R).
  pose proof (ledger_snapshot_wf ledger_id s st Hw W P) as Hw1.
  destruct r as [[]|e|]; [|by split_and!|done]. destruct R as [R1 R2].
  destruct (commit_batch_spec s c cid ledger_id Hc Hid (lw_ledger _ _ Hw)) as (gt & _ & Eb & B1 & B2 & B3 & B4 & B5).
  destruct (routing_spec s ledger_id W P (lw_ledger _ _ Hw)) as (m & Er & M1 & _ & _).
  rewrite Eb, Er. cbn [mbind outcome_bind]. set (fl := flakes c ++ _) in *.
  assert (nv_t (ls_novelty st) <= ledger_t st + 1) as Hle by (unfold ledger_t; lia). rewrite Ht in B3.
  pose proof (take_flakes_spec ledger_id (ls_with_snapshot s st) fl (ledger_t st + 1) m k Hw1 B1 B2 B3 B4 Hle M1 Hk) as HT.
  specialize (HT ltac:(eapply room_weaken; [|exact Hd]; lia)).
  destruct (take_flakes (ls_with_snapshot s st) fl (ledger_t st + 1) m) as [st' [[]|e|]]; [| |done].
  - destruct HT as (W' & T' & A' & D' & E' & K' & C' & G'). assert (ls_snapshot st' = s) as Es by by rewrite E'.
    assert (ls_ns_record st' = ls_ns_record st) as En by by rewrite E'.
    cbn [advance_head ls_snapshot ls_novelty ls_dict_novelty ls_small_dicts ls_ns_record ls_head_commit_id].
    rewrite Es, En in *. split_and!; try done.
    + split; cbn [advance_head ls_snapshot ls_novelty ls_dict_novelty ls_small_dicts]; try apply W'; by rewrite ?Es.
    + unfold ledger_t. cbn [advance_head ls_snapshot ls_novelty]. rewrite T', Es, Et. unfold ledger_t. lia.
    + exists fl, m. assert (ls_head_temporal st' = ls_head_temporal st) as Eh by by rewrite E'.
      cbn [advance_head ls_head_temporal]. rewrite Eh.
      split_and!; try done. by destruct (temporal_from_commit c).
  - destruct HT as (-> & _). by split_and!.
Qed.

(** C9: Applying a commit to a ledger state.  On a well-formed state, a commit
    with a content id and the next transaction number, whose values and deltas
    are well-formed and for which ids are left, either goes in whole or is
    refused.  If it goes in: the invariant holds again, so every flake held has
    its ids in the dictionaries; the clock, head and record move to the commit;
    its namespaces and graphs are registered and none is lost; and every graph
    holds, besides what it held, exactly the flakes of the batch (data, and
    metadata stamped for the transaction graph) routed to it that do not repeat
    an asserted fact.  If it is refused: overlay, dictionaries, heads and record
    are untouched, but the snapshot may have grown. *)
Theorem commit_applied (ledger_id : str) (st : LedgerState) (c : Commit) (cid : ContentId) :
  ledger_wf ledger_id st -> commit_ok c -> id c = Some cid -> commit_t c = ledger_t st + 1 ->
  graph_room (ls_snapshot st) (graph_iris_of c) -> dict_room (ls_dict_novelty st) (2 * commit_size c) ->
  let '(st', r) := apply_single_commit (SE := SE) (RE := RE) st c ledger_id in
  snapshot_extends (ls_snapshot st) (ls_snapshot st') /\ ledger_wf ledger_id st' /\
  match r with
  | Ok _ =>
      ledger_t st' = commit_t c /\ ls_head_commit_id st' = Some cid /\
      ls_ns_record st' = set_commit cid (commit_t c) (ls_ns_record st) /\
      namespace_delta c ⊆ sn_namespace_codes (ls_snapshot st') /\
      (forall g iri, graph_delta c !! g = Some iri ->
        is_Some (graph_id_for_iri (sn_graph_registry (ls_snapshot st')) iri)) /\
      dn_extends (ls_dict_novelty st) (ls_dict_novelty st') /\
      exists fl m, commit_batch (ls_snapshot st') c ledger_id = Ok fl /\ routing (ls_snapshot st') ledger_id = Ok m /\
        (forall f, f ∈ fl -> covers (ls_dict_novelty st') f) /\
        forall g, 0 <= g -> graph_contents (ls_novelty st') g ≡ₚ
          graph_contents (ls_novelty st) g ++ accepted (ls_novelty st) (rg_of m) g fl
  | Err _ => st' = ls_with_snapshot (ls_snapshot st') st
  | Panic => False
  end.
Proof.
  intros Hw Hc Hid Ht Hg Hd. pose proof (single_commit_spec ledger_id st c cid 0 Hw Hc Hid Ht Hg ltac:(lia) Hd) as H.
  destruct (apply_single_commit st c ledger_id) as [st' [[]|e|]]; [|by destruct H as (? & _ & ?)..].
  destruct H as (H1 & _ & H2 & H3 & H4 & H5 & H6 & H7 & H8 & _ & fl & m & _ & _ & _ & H9). split_and!; eauto.
Qed.
End laws.
