(* ===== verification/LedgerIndex.v ===== *)
(** * Ledger state: a new index

    What remains of a ledger state when a newer index is swapped in. *)

From stdpp Require Import base list numbers gmap sorting.
From Stdlib Require Import ZArith Lia.
From S2P Require Import Prelude Bytes Vocab Cmp Value Flake Envelope CommitCodec CommitDag IriSplit.
From S2P Require Import NsCodes GraphRegistry Dicts Snapshot CommitFlakes FactState Segment SegmentRead Novelty.
From S2P Require Import NoveltyRead NoveltyApply NoveltyCompact Ledger LedgerLaws.

Local Open Scope Z_scope.

Section index.
Context `{VL : ValueLib, VLL : !ValueLibLaws, CL : CidLib, ML : CommitLib, LV : !LegacyV3, CT : !CommitText}.
Context `{NO : NsOrder, NL : !NsOrderLaws, SL : SortLib, SLL : !SortLaws, HO : HashOrder, HL : !HashLaws, AT : !Attachments}.
Context {SE RE : Type}.

(** ** Reading the whole overlay *)

Lemma iter_flakes_elem nv index f :
  nov_shape nv -> f ∈ iter_flakes nv index <-> exists g, 0 <= g /\ f ∈ graph_contents nv g.
Proof.
  intros Hs. unfold iter_flakes. rewrite elem_of_concat. setoid_rewrite list_elem_of_fmap.
  assert (forall g, g ∈ present_graphs nv -> range_flakes nv g index None None true ≡ₚ graph_contents nv g) as Hr.
  { intros g [Hg _]%present_graphs_spec. pose proof (ns_len nv Hs).
    destruct (graph_read_spec nv g index None None true Hs) as (H1 & _ & _); [lia|done|].
    rewrite H1. by rewrite filter_all by by apply Forall_true. }
  split.
  - intros (l & Hf & g & -> & Hg). exists g. rewrite (Hr g Hg) in Hf. apply present_graphs_spec in Hg as [? _]. split; [lia|done].
  - intros (g & Hg & Hf). assert (g ∈ present_graphs nv) as Hp.
    { apply present_graphs_spec. unfold graph_contents in Hf. destruct (nv_segs nv g) as [[|seg segs]|] eqn:E;
        [by apply elem_of_nil in Hf| |by apply elem_of_nil in Hf].
      split; [|eauto]. apply nv_segs_range in E. lia. }
    exists (range_flakes nv g index None None true). rewrite (Hr g Hp). split; [done|]. by exists g.
Qed.

Lemma value_size_pos v : 0 < value_size v.
Proof.
  assert (forall A (l : list A), 0 <= zlen l) as H by (intros; apply zlen_nonneg).
  destruct v; cbn [value_size]; try done;
    match goal with |- context [zlen ?x] => specialize (H _ x); generalize dependent (zlen x); intros; lia end.
Qed.

Lemma size_bytes_pos f : 0 < size_bytes f.
Proof.
  unfold size_bytes. pose proof (value_size_pos (f_o f)). pose proof (zlen_nonneg (name (f_s f))).
  pose proof (zlen_nonneg (name (f_p f))). pose proof (zlen_nonneg (name (f_dt f))).
  destruct (f_m f) as [m|]; [|lia]. destruct (lang m) as [l|]; [pose proof (zlen_nonneg l)|]; lia.
Qed.

Lemma seg_size_pos seg : seg_fit seg -> 0 < seg_size seg.
Proof.
  intros [Hw Hne _]. rewrite (sw_size _ Hw).
  assert (forall l n, n <= fold_left (fun n f => n + size_bytes f) l n) as Hle.
  { intros l. induction l as [|f l IH]; intros n; cbn; [lia|]. specialize (IH (n + size_bytes f)).
    pose proof (size_bytes_pos f). lia. }
  destruct (seg_flakes seg) as [|f l]; [done|]. cbn [fold_left]. specialize (Hle l (0 + size_bytes f)). pose proof (size_bytes_pos f). lia.
Qed.

(** No bytes, no flakes. *)
Lemma empty_overlay nv g : nov_wf nv -> nv_size nv <= 0 -> 0 <= g -> graph_contents nv g = [].
Proof.
  intros [Hs [Ht _] _] Hz Hg. unfold graph_contents. destruct (nv_segs nv g) as [[|seg segs]|] eqn:E; [done| |done].
  exfalso. rewrite Ht in Hz. unfold total_size in Hz.
  assert (forall x, x ∈ concat (all_segs (nv_graphs nv)) -> 0 < seg_size x) as Hpos.
  { intros x (l & Hx & Hl)%elem_of_concat. unfold all_segs in Hl. apply list_elem_of_omap in Hl as (o & Ho & El).
    cbn in El. subst o. apply list_elem_of_lookup in Ho as [i Hi]. apply seg_size_pos.
    destruct (ns_segs nv Hs (Z.of_nat i) l) as [Hf _]; [lia|unfold nv_segs, slot; by rewrite Nat2Z.id, Hi|].
    by rewrite Forall_forall in Hf; apply Hf. }
  assert (seg ∈ concat (all_segs (nv_graphs nv))) as Hin.
  { apply elem_of_concat. exists (seg :: segs). split; [apply elem_of_cons; by left|]. unfold all_segs.
    apply list_elem_of_omap. exists (Some (seg :: segs)). split; [|done]. unfold nv_segs, slot in E.
    destruct (nv_graphs nv !! Z.to_nat g) as [o|] eqn:Eo; [|done]. cbn in E. subst. by eapply list_elem_of_lookup_2. }
  clear -Hpos Hin Hz. induction (concat (all_segs (nv_graphs nv))) as [|x l IH]; [by apply elem_of_nil in Hin|].
  assert (forall k, (forall y, y ∈ k -> 0 < seg_size y) -> 0 <= foldr Z.add 0 (seg_size <$> k)) as Hk.
  { intros k. induction k as [|y k IHk]; intros Hy; cbn; [lia|]. pose proof (Hy y ltac:(apply elem_of_cons; by left)).
    specialize (IHk ltac:(intros z Hz'; apply Hy, elem_of_cons; by right)). lia. }
  cbn in Hz. pose proof (Hpos x ltac:(apply elem_of_cons; by left)).
  specialize (Hk l ltac:(intros y Hy; apply Hpos, elem_of_cons; by right)). lia.
Qed.

(** ** The overlay that remains *)

Definition marks_fit (s : LedgerSnapshot) : Prop :=
  Forall (in_u 47) (sn_subject_watermarks s) /\ in_u 31 (sn_string_watermark s).

(** Room in the new dictionaries for whatever the overlay holds. *)
Definition index_room (st : LedgerState) (s : LedgerSnapshot) : Prop :=
  forall nv, clear_up_to (ls_novelty st) (sn_t s) = Some nv ->
    dict_room (with_watermarks (sn_subject_watermarks s) (sn_string_watermark s)) (2 * zlen (iter_flakes nv Post)).

Lemma remaining_overlay_spec ledger_id st s :
  ledger_wf ledger_id st -> marks_fit s -> index_room st s ->
  exists nv dn small rest, remaining_overlay st s = Some (nv, dn, small, rest) /\
  nov_wf nv /\ dn_wf dn /\ small_wf small /\ nv_t nv = nv_t (ls_novelty st) /\
  (forall g, 0 <= g -> graph_contents nv g = List.filter (after (sn_t s)) (graph_contents (ls_novelty st) g)) /\
  (rest = false -> forall g, 0 <= g -> graph_contents nv g = []) /\
  dn_extends (with_watermarks (sn_subject_watermarks s) (sn_string_watermark s)) dn /\
  (forall g f, 0 <= g -> f ∈ graph_contents nv g ->
    covers dn f /\ f_p f ∈ by_id (predicates small) /\ f_dt f ∈ by_id (datatypes small)).
Proof.
  intros Hw [Hm1 Hm2] Hr. destruct (clear_up_to_spec (ls_novelty st) (sn_t s) (lw_novelty _ _ Hw)) as (nv & E & Wn & Tn & Cn).
  unfold remaining_overlay. rewrite E. cbn [mbind option_bind].
  assert (small_wf small_dicts_new) as Ws by (split; apply sid_dict_new_wf).
  pose proof (with_watermarks_wf _ _ Hm1 Hm2) as Wd. destruct (Z.ltb_spec 0 (nv_size nv)) as [Hpos|Hz].
  - assert (Forall flake_sids_ok (iter_flakes nv Post)) as Ho.
    { apply Forall_forall. intros f (g & Hg & Hf)%iter_flakes_elem; [|apply Wn]. rewrite Cn in Hf by done.
      apply elem_of_list_filter_b in Hf as [Hf _]. apply (lw_served _ _ Hw g f Hg Hf). }
    destruct (populate_flakes_spec _ _ 0 Wd Ho ltac:(lia) (Hr nv E)) as (dn & Ed & Wd' & Xd & Cd & _). rewrite Ed.
    destruct (populate_small_spec (iter_flakes nv Post) small_dicts_new Ws) as (Wm & _ & Cm).
    eexists _, _, _, _. split_and!; [done..|]. intros g f Hg Hf. rewrite Forall_forall in Cd.
    assert (f ∈ iter_flakes nv Post) as Hi by (apply iter_flakes_elem; [apply Wn|eauto]).
    split; [by apply Cd|]. by apply Cm.
  - assert (forall g, 0 <= g -> graph_contents nv g = []) as He by (intros; by apply empty_overlay).
    eexists _, _, _, _. split_and!; [done..|]. intros g f Hg Hf. rewrite He in Hf by done. by apply elem_of_nil in Hf.
Qed.

(** ** Namespaces and graphs carried over *)

Definition old_graphs (s : LedgerSnapshot) : list str := (iter_entries (sn_graph_registry s)).*2.

Lemma old_graphs_elem s iri :
  snapshot_wf s -> iri ∈ old_graphs s <-> is_Some (graph_id_for_iri (sn_graph_registry s) iri).
Proof.
  intros Hw. destruct (iter_entries_spec _ (so_registry _ Hw)) as [_ Hin]. unfold old_graphs. rewrite list_elem_of_fmap. split.
  - intros ([g x] & -> & Hg%Hin). by exists g.
  - intros [g Hg%Hin]. by exists (g, iri).
Qed.

Lemma carry_over_spec old s :
  snapshot_wf old -> graphs_plain old -> snapshot_wf s -> graphs_plain s -> graph_room s (old_graphs old) ->
  match carry_over old s with
  | Ok s' => snapshot_wf s' /\ graphs_plain s' /\ snapshot_extends s s' /\ sn_t s' = sn_t s /\
      sn_ledger_id s' = sn_ledger_id s /\ sn_namespace_codes old ⊆ sn_namespace_codes s' /\
      (forall iri, is_Some (graph_id_for_iri (sn_graph_registry old) iri) ->
        is_Some (graph_id_for_iri (sn_graph_registry s') iri))
  | Err _ => exists c p k q, sn_namespace_codes old !! c = Some p /\
      (sn_namespace_codes s !! k = Some q \/ sn_namespace_codes old !! k = Some q) /\ ~ (k = c <-> q = p)
  | Panic => False
  end.
Proof.
  intros Wo Po Ws Ps Hr. unfold carry_over.
  assert (forall c p, (c, p) ∈ ns_iter (sn_namespace_codes old) <-> sn_namespace_codes old !! c = Some p) as Hin.
  { intros c p. by rewrite (ns_iter_perm _), elem_of_map_to_list. }
  pose proof (merge_namespaces_spec (ns_iter (sn_namespace_codes old)) s Ws) as H.
  destruct (merge_namespaces s _) as [s1 r1]. destruct H as (W & S & E & F & R).
  { apply Forall_forall. intros [c p] Hc%Hin. cbn. intros ->. pose proof (so_overflow _ Wo). congruence. }
  assert (sn_graph_registry s1 = sn_graph_registry s /\ sn_t s1 = sn_t s /\ sn_ledger_id s1 = sn_ledger_id s) as (Eg & Et & El).
  { rewrite E. by split_and!. }
  destruct r1 as [[]|e|]; [| |done].
  - destruct (apply_delta_spec (sn_graph_registry s1) (old_graphs old) (so_registry _ W)) as (g & a & Ea & Wg & Xg & _ & _ & _ & A & B & _).
    { rewrite Eg. exact Hr. }
    unfold old_graphs in Ea. rewrite Ea. split_and!; [| | |done|done| |].
    + split; [apply (so_bimap _ W)|apply (so_empty _ W)|apply (so_overflow _ W)|exact Wg].
    + intros iri h [Hh|Hh]%B; [rewrite Eg in Hh; by eapply Ps|]. apply old_graphs_elem in Hh as [h' Hh]; [|done]. by eapply Po.
    + split; [done|]. cbn. rewrite <- Eg. exact Xg.
    + apply map_subseteq_spec. intros c p Hc. by apply R, Hin.
    + intros iri Hi. apply A. by apply old_graphs_elem.
  - destruct R as (c & p & k & q & Hc%Hin & Hk & Hn). exists c, p, k, q. split_and!; [done| |done].
    apply F in Hk as [Hk|Hk%Hin]; auto.
Qed.

Lemma decode_mono s s' sid iri :
  sn_namespace_codes s ⊆ sn_namespace_codes s' -> sn_decode_sid s sid = Some iri -> sn_decode_sid s' sid = Some iri.
Proof.
  intros Hs. unfold sn_decode_sid. destruct (_ || _); [done|].
  destruct (sn_namespace_codes s !! namespace_code sid) as [p|] eqn:E; [|done]. by rewrite (lookup_weaken _ _ _ _ E Hs).
Qed.

(** The state around what remains, whatever well-formed snapshot goes with it. *)
Lemma remaining_state ledger_id st s :
  ledger_wf ledger_id st -> marks_fit s -> index_room st s ->
  exists nv dn small rest, remaining_overlay st s = Some (nv, dn, small, rest) /\ nv_t nv = nv_t (ls_novelty st) /\
  (forall g, 0 <= g -> graph_contents nv g = List.filter (after (sn_t s)) (graph_contents (ls_novelty st) g)) /\
  (rest = false -> forall g, 0 <= g -> graph_contents nv g = []) /\
  (forall g f, 0 <= g -> f ∈ graph_contents nv g -> ids_above (with_watermarks (sn_subject_watermarks s) (sn_string_watermark s)) dn f) /\
  forall s' head index_id record h, snapshot_wf s' -> graphs_plain s' ->
    ledger_wf ledger_id (mkLedger s' nv dn small head index_id record h).
Proof.
  intros Hw Hm Hr.
  destruct (remaining_overlay_spec ledger_id st s Hw Hm Hr) as (nv & dn & small & rest & E & Wn & Wd & Wm & Tn & Cn & En & Xd & Sn).
  exists nv, dn, small, rest. split_and!; [done..| |].
  { intros g f Hg0 Hf. destruct (Sn g f Hg0 Hf) as [S1 _]. rewrite Cn in Hf by done. apply elem_of_list_filter_b in Hf as [Hf _].
    destruct (lw_served _ _ Hw g f Hg0 Hf) as (_ & T2 & _). apply ids_above_extends; [apply with_watermarks_wf; apply Hm|done|done|].
    by apply covered_ids. }
  intros s' head index_id record h W' P'. split; cbn; try done; [apply Hw|]. intros g f Hg0 Hf. unfold served. cbn.
  destruct (Sn g f Hg0 Hf) as (S1 & S2 & S3). rewrite Cn in Hf by done. apply elem_of_list_filter_b in Hf as [Hf _].
  destruct (lw_served _ _ Hw g f Hg0 Hf) as (T1 & T2 & _). rewrite Tn. by split_and!.
Qed.

(** What [apply_loaded_db] does. *)
Lemma loaded_db_spec (ledger_id : str) (st : LedgerState) (s : LedgerSnapshot) (index_id : option ContentId) :
  ledger_wf ledger_id st -> snapshot_wf s -> graphs_plain s -> marks_fit s -> index_room st s ->
  graph_room s (old_graphs (ls_snapshot st)) ->
  let '(st', r) := apply_loaded_db (SE := SE) (RE := RE) st s index_id in
  match r with
  | Ok _ =>
      (sn_t s = sn_t (ls_snapshot st) /\ st' = st) \/
      (sn_t (ls_snapshot st) < sn_t s /\ ledger_wf ledger_id st' /\ Ledger.index_t st' = sn_t s /\
       ledger_t st' = Z.max (ledger_t st) (sn_t s) /\ ls_head_index_id st' = index_id /\
       ls_head_commit_id st' = ls_head_commit_id st /\
       (forall g, 0 <= g ->
         graph_contents (ls_novelty st') g = List.filter (after (sn_t s)) (graph_contents (ls_novelty st) g)) /\
       (forall g f, 0 <= g -> f ∈ graph_contents (ls_novelty st') g ->
         ids_above (with_watermarks (sn_subject_watermarks s) (sn_string_watermark s)) (ls_dict_novelty st') f) /\
       (ls_snapshot st' = s /\ (forall g, 0 <= g -> graph_contents (ls_novelty st') g = []) \/
        (forall sid iri, sn_decode_sid (ls_snapshot st) sid = Some iri -> sn_decode_sid (ls_snapshot st') sid = Some iri) /\
        (forall iri, is_Some (graph_id_for_iri (sn_graph_registry (ls_snapshot st)) iri) ->
           is_Some (graph_id_for_iri (sn_graph_registry (ls_snapshot st')) iri))))
  | Err e => st' = st /\
      (sn_ledger_id s <> sn_ledger_id (ls_snapshot st) \/ sn_t s < sn_t (ls_snapshot st) \/
       exists c p k q, sn_namespace_codes (ls_snapshot st) !! c = Some p /\
         (sn_namespace_codes s !! k = Some q \/ sn_namespace_codes (ls_snapshot st) !! k = Some q) /\ ~ (k = c <-> q = p))
  | Panic => False
  end.
Proof.
  intros Hw Ws Ps Hm Hr Hg. unfold apply_loaded_db, check_index.
  case_bool_decide as Hid; cbn [negb]; [|split; [done|by left]].
  destruct (Z.ltb_spec (sn_t s) (sn_t (ls_snapshot st))) as [Hlt|Hge]; [split; [done|by right; left]|].
  destruct (Z.eqb_spec (sn_t s) (sn_t (ls_snapshot st))) as [Heq|Hne]; cbn [negb]; [by left|].
  destruct (remaining_state ledger_id st s Hw Hm Hr) as (nv & dn & small & rest & -> & Tn & Cn & En & Id & Wl).
  destruct rest.
  - pose proof (carry_over_spec (ls_snapshot st) s (lw_snapshot _ _ Hw) (lw_graphs _ _ Hw) Ws Ps Hg) as Hc.
    destruct (carry_over (ls_snapshot st) s) as [s'|e|]; [| |done].
    + destruct Hc as (W' & P' & _ & Et & _ & Sub & Gr). right. split_and!; [lia|by apply Wl|done| |done..|].
      * unfold ledger_t. cbn. rewrite Tn, Et. lia.
      * right. split; [intros sid iri; by apply decode_mono|done].
    + split; [done|]. by right; right.
  - right. split_and!; [lia|by apply Wl|done| |done..|].
    + unfold ledger_t. cbn. rewrite Tn. lia.
    + left. cbn. split; [done|]. by apply En.
Qed.

End index.
