(* ===== verification/LedgerReach.v ===== *)
(** * Ledger state: every operation

    The operations of a ledger state as a step relation, the errors they return
    included: the invariant of [LedgerLaws] holds in every state they reach, the
    clocks never go back, and none of them panics but on stored content that
    makes a reader panic. *)

From stdpp Require Import base list numbers gmap sorting relations.
From Stdlib Require Import ZArith Lia.
From S2P Require Import Prelude Bytes Vocab Cmp Value Flake Envelope CommitCodec CommitDag IriSplit.
From S2P Require Import NsCodes GraphRegistry Dicts Snapshot CommitFlakes FactState Segment SegmentRead Novelty.
From S2P Require Import NoveltyRead NoveltyApply NoveltyCompact Ledger LedgerLaws LedgerIndex.

Local Open Scope Z_scope.

Section reach.
Context `{VL : ValueLib, VLL : !ValueLibLaws, CL : CidLib, CLL : !CidLaws, ML : CommitLib, MLL : !CommitLaws, LV : !LegacyV3, CT : !CommitText}.
Context `{NO : NsOrder, NL : !NsOrderLaws, SL : SortLib, SLL : !SortLaws, HO : HashOrder, HL : !HashLaws, AT : !Attachments}.
Context {SE RE : Type}.
Variable get : ContentId -> outcome SE bytes.
Variable decode_root : bytes -> outcome RE LedgerSnapshotMetadata.
Variable ledger_id : str.

(** A snapshot an index gives, with room for what the overlay still holds. *)
Record index_ok (st : LedgerState) (s : LedgerSnapshot) : Prop := {
  ix_snapshot : snapshot_wf s;
  ix_graphs : graphs_plain s;
  ix_marks : marks_fit s;
  ix_room : index_room st s;
  ix_graph_room : graph_room s (old_graphs (ls_snapshot st));
}.

(** The staged flakes of a transaction at the next time. *)
Record staged_ok (st : LedgerState) (fl : list Flake) (ns_delta : gmap Z str) (iris : list str) : Prop := {
  sg_ordinary : Forall flake_ordinary fl;
  sg_sids : Forall flake_sids_ok fl;
  sg_times : Forall (fun f => f_t f = ledger_t st + 1) fl;
  sg_namespaces : delta_clean ns_delta;
  sg_graphs : Forall plain_iri iris;
  sg_graph_room : graph_room (ls_snapshot st) iris;
  sg_room : dict_room (ls_dict_novelty st) (2 * zlen fl);
}.

(** One operation and the state it leaves; the label says whether it panicked. *)
Inductive ledger_step : LedgerState -> bool -> LedgerState -> Prop :=
| step_commit st c st' r :
    commit_ok c -> graph_room (ls_snapshot st) (graph_iris_of c) -> dict_room (ls_dict_novelty st) (2 * commit_size c) ->
    apply_single_commit (SE := SE) (RE := RE) st c ledger_id = (st', r) -> ledger_step st (is_panic r) st'
| step_staged st fl ns_delta iris st' r :
    staged_ok st fl ns_delta iris ->
    apply_staged_flakes_for_sequential_staging (SE := SE) (RE := RE) st fl ns_delta iris = (st', r) ->
    ledger_step st (is_panic r) st'
| step_loaded_db st s index_id st' r :
    index_ok st s -> apply_loaded_db (SE := SE) (RE := RE) st s index_id = (st', r) -> ledger_step st (is_panic r) st'
| step_newer_index st lookup st' r :
    (forall record i bytes meta s, lookup = Some record -> nr_index_head_id record = Some i -> get i = Ok bytes ->
      decode_root bytes = Ok meta -> new_meta meta = Ok s -> index_ok st s) ->
    maybe_apply_newer_index get decode_root st lookup = (st', r) -> ledger_step st (is_panic r) st'
| step_head_temporal st st' r :
    ensure_head_temporal (RE := RE) get st = (st', r) -> ledger_step st (is_panic r) st'.

(** Stored content that makes a reader panic: the storage itself, the decoder
    of index roots, or the commit reader, the last on bytes that [write_commit]
    makes of no well-formed commit. *)
Definition stored_panic (i : ContentId) : Prop :=
  get i = Panic \/
  exists bytes, get i = Ok bytes /\
    (decode_root bytes = Panic \/
     read_commit bytes = Panic /\
     forall c compress signing, commit_wf c -> ops_fit c -> zlen bytes < 2 ^ 32 -> write_commit c compress signing <> Ok bytes).

(** What a step may change. *)
Definition step_good (st : LedgerState) (panicked : bool) (st' : LedgerState) : Prop :=
  ledger_wf ledger_id st' /\ ledger_t st <= ledger_t st' /\ Ledger.index_t st <= Ledger.index_t st' /\
  (panicked = true -> exists i, stored_panic i).

Lemma step_good_same st : ledger_wf ledger_id st -> step_good st false st.
Proof. done. Qed.

Lemma step_good_stored st : ledger_wf ledger_id st -> (exists i, stored_panic i) -> step_good st true st.
Proof. done. Qed.

Lemma seed_root_total iris : forall idx fwd back, seed_root idx fwd back iris <> Panic.
Proof. induction iris as [|iri iris IH]; intros idx fwd back; [done|]. cbn. case_bool_decide; [done|]. by destruct (fwd !! iri). Qed.

Lemma new_meta_total meta : new_meta meta <> Panic.
Proof.
  unfold new_meta. destruct (meta_graph_iris meta) as [|x l]; [done|]. pose proof (seed_root_total (x :: l) 0 ∅ [None]) as H.
  unfold seed_from_root_iris. by destruct (seed_root 0 ∅ [None] (x :: l)) as [[]| |].
Qed.

Lemma same_snapshot_t st s :
  sn_t s = sn_t (ls_snapshot st) -> ledger_t (ls_with_snapshot s st) = ledger_t st /\
  Ledger.index_t (ls_with_snapshot s st) = Ledger.index_t st.
Proof. intros E. unfold ledger_t, Ledger.index_t. cbn [ls_with_snapshot ls_snapshot ls_novelty]. by rewrite E. Qed.

Lemma commit_step_good st c :
  ledger_wf ledger_id st -> commit_ok c -> graph_room (ls_snapshot st) (graph_iris_of c) ->
  dict_room (ls_dict_novelty st) (2 * commit_size c) ->
  let '(st', r) := apply_single_commit (SE := SE) (RE := RE) st c ledger_id in step_good st (is_panic r) st'.
Proof.
  intros Hw Hc Hg Hd. destruct (id c) as [cid|] eqn:Eid; [|unfold apply_single_commit; by rewrite Eid].
  destruct (Z.eq_dec (commit_t c) (ledger_t st + 1)) as [Ht|Hne].
  2:{ unfold apply_single_commit. by rewrite Eid, (proj2 (Z.eqb_neq _ _) Hne). }
  pose proof (single_commit_spec (SE := SE) (RE := RE) ledger_id st c cid 0 Hw Hc Eid Ht Hg ltac:(lia) Hd) as H.
  destruct (apply_single_commit st c ledger_id) as [st' r]. destruct H as (_ & Et & W & R).
  destruct r as [[]|e|]; [| |done]; (split; [done|]); unfold Ledger.index_t; (split; [|split; [lia|done]]).
  - destruct R as [R _]. lia.
  - rewrite R. destruct (same_snapshot_t st (ls_snapshot st') Et) as [-> _]. lia.
Qed.

Lemma staged_step_good st fl ns_delta iris :
  ledger_wf ledger_id st -> staged_ok st fl ns_delta iris ->
  let '(st', r) := apply_staged_flakes_for_sequential_staging (SE := SE) (RE := RE) st fl ns_delta iris in
  step_good st (is_panic r) st'.
Proof.
  intros Hw [H1 H2 H3 H4 H5 H6 H7]. unfold apply_staged_flakes_for_sequential_staging.
  pose proof (envelope_deltas_spec (ls_snapshot st) ns_delta iris (lw_snapshot _ _ Hw) H4 H6) as He.
  destruct (apply_envelope_deltas (ls_snapshot st) ns_delta iris) as [s r]. destruct He as (W & _ & _ & Et & _ & _ & R).
  assert (r <> Panic -> graphs_plain s) as P.
  { intros Hr. destruct r as [[]|e|]; [| |done].
    - destruct R as (_ & _ & _ & R). by apply (graphs_plain_grow (ls_snapshot st) s iris); [apply Hw| |].
    - unfold graphs_plain. destruct R as [-> _]. apply Hw. }
  destruct (same_snapshot_t st s Et) as [Ht Hi].
  assert (r <> Panic -> step_good st false (ls_with_snapshot s st)) as Hgood.
  { intros Hr. split; [apply ledger_snapshot_wf; auto|]. rewrite Ht, Hi. done. }
  destruct r as [[]|e|]; [|by apply Hgood|done]. destruct fl as [|f fl]; [by apply Hgood|].
  destruct (build_reverse_graph_spec s W (graphs_plain_ok s (P ltac:(done)))) as (m & -> & Hm).
  assert (forall sid g, m !! sid = Some g -> 0 < g < 2 ^ 16) as Hrange.
  { intros sid g (iri & Hg & _)%Hm. split; [by eapply registry_positive; [apply W|]|].
    apply (rw_below _ (so_registry _ W)) in Hg. pose proof (rw_next _ (so_registry _ W)). lia. }
  rewrite Ht. assert (nv_t (ls_novelty st) <= ledger_t st + 1) as Hle by (unfold ledger_t; lia).
  assert (ledger_wf ledger_id (ls_with_snapshot s st)) as Hw1 by (apply ledger_snapshot_wf; auto).
  pose proof (take_flakes_spec (SE := SE) (RE := RE) ledger_id (ls_with_snapshot s st) (f :: fl) (ledger_t st + 1) m 0
    Hw1 H1 H2 H3 ltac:(done) Hle Hrange ltac:(done) H7) as T.
  destruct (take_flakes (ls_with_snapshot s st) (f :: fl) (ledger_t st + 1) m) as [st' [[]|e|]]; [| |done].
  - destruct T as (W' & T' & _ & _ & E & _). split; [done|]. assert (ls_snapshot st' = s) as Es by by rewrite E.
    unfold ledger_t, Ledger.index_t. rewrite Es, Et, T'. unfold ledger_t. split; [lia|]. split; [lia|done].
  - destruct T as (-> & _). by apply Hgood.
Qed.

Lemma loaded_db_step_good st s index_id :
  ledger_wf ledger_id st -> index_ok st s ->
  let '(st', r) := apply_loaded_db (SE := SE) (RE := RE) st s index_id in step_good st (is_panic r) st'.
Proof.
  intros Hw [H1 H2 H3 H4 H5]. pose proof (loaded_db_spec (SE := SE) (RE := RE) ledger_id st s index_id Hw H1 H2 H3 H4 H5) as H.
  destruct (apply_loaded_db st s index_id) as [st' [[]|e|]]; [| |done].
  - destruct H as [[_ ->]|(Hlt & W & Ei & Et & _)]; [by apply step_good_same|]. split; [done|]. rewrite Et, Ei.
    unfold Ledger.index_t. split; [lia|]. split; [lia|done].
  - destruct H as [-> _]. by apply step_good_same.
Qed.

Lemma apply_index_step_good st i :
  ledger_wf ledger_id st ->
  (forall bytes meta s, get i = Ok bytes -> decode_root bytes = Ok meta -> new_meta meta = Ok s -> index_ok st s) ->
  let '(st', r) := apply_index get decode_root st i in step_good st (is_panic r) st'.
Proof.
  intros Hw Hok. unfold apply_index, from_root_bytes.
  destruct (get i) as [bytes|e|] eqn:Eg; cbn [map_err mbind outcome_bind]; [|by apply step_good_same|].
  2: { apply step_good_stored; [done|]. exists i. by left. }
  destruct (decode_root bytes) as [meta|e|] eqn:Ed; cbn [map_err mbind outcome_bind]; [|by apply step_good_same|].
  2: { apply step_good_stored; [done|]. exists i. right. exists bytes. auto. }
  pose proof (new_meta_total meta). specialize (Hok bytes meta). destruct (new_meta meta) as [s|e|]; cbn [map_err]; [|by apply step_good_same|done].
  destruct (Hok s eq_refl Ed eq_refl) as [H1 H2 H3 H4 _]. unfold check_index. case_bool_decide; cbn [negb]; [|by apply step_good_same].
  destruct (Z.ltb_spec (sn_t s) (sn_t (ls_snapshot st))) as [Hlt|Hge]; [by apply step_good_same|].
  destruct (Z.eqb_spec (sn_t s) (sn_t (ls_snapshot st))); cbn [negb]; [by apply step_good_same|].
  destruct (remaining_state ledger_id st s Hw H3 H4) as (nv & dn & small & rest & -> & Tn & _ & _ & _ & Wl).
  split; [by apply Wl|]. unfold ledger_t, Ledger.index_t. cbn. rewrite Tn. split; [lia|]. split; [lia|done].
Qed.

Lemma newer_index_step_good st lookup :
  ledger_wf ledger_id st ->
  (forall record i bytes meta s, lookup = Some record -> nr_index_head_id record = Some i -> get i = Ok bytes ->
    decode_root bytes = Ok meta -> new_meta meta = Ok s -> index_ok st s) ->
  let '(st', r) := maybe_apply_newer_index get decode_root st lookup in step_good st (is_panic r) st'.
Proof.
  intros Hw Hok. unfold maybe_apply_newer_index. destruct lookup as [record|]; [|by apply step_good_same].
  destruct (sn_t (ls_snapshot st) <? nr_index_t record); [|by apply step_good_same].
  destruct (nr_index_head_id record) as [i|] eqn:Ei; [|by apply step_good_same].
  pose proof (apply_index_step_good st i Hw (fun bytes meta s => Hok record i bytes meta s eq_refl Ei)) as H. by destruct (apply_index get decode_root st i) as [st' [[]|e|]].
Qed.

Lemma temporal_step_good st :
  ledger_wf ledger_id st -> let '(st', r) := ensure_head_temporal (RE := RE) get st in step_good st (is_panic r) st'.
Proof.
  intros Hw. unfold ensure_head_temporal. destruct (ls_head_temporal st) as [h|]; [by apply step_good_same|].
  destruct (ls_head_commit_id st) as [i|]; [|by apply step_good_same].
  destruct (get i) as [bytes|e|] eqn:Eg; cbn [map_err mbind outcome_bind]; [|by apply step_good_same|].
  2: { apply step_good_stored; [done|]. exists i. by left. }
  destruct (read_commit bytes) as [c|e|] eqn:Er; cbn [map_err]; [|by apply step_good_same|].
  - split; [|done]. split; apply Hw.
  - apply step_good_stored; [done|]. exists i. right. exists bytes. split; [done|right]. split; [done|].
    intros c compress signing Hc Hf Hz Hwr. destruct (write_commit_written _ _ _ _ Hc Hwr Hz) as (h & x & raw & W).
    by rewrite (read_written _ _ _ _ _ _ Hc Hf W) in Er.
Qed.

Lemma ledger_step_good st p st' : ledger_wf ledger_id st -> ledger_step st p st' -> step_good st p st'.
Proof.
  intros Hw. destruct 1 as [st c st' r H1 H2 H3 E|st fl ns iris st' r H1 E|st s i st' r H1 E|st l st' r H1 E|st st' r E].
  - pose proof (commit_step_good st c Hw H1 H2 H3) as H. by rewrite E in H.
  - pose proof (staged_step_good st fl ns iris Hw H1) as H. by rewrite E in H.
  - pose proof (loaded_db_step_good st s i Hw H1) as H. by rewrite E in H.
  - pose proof (newer_index_step_good st l Hw H1) as H. by rewrite E in H.
  - pose proof (temporal_step_good st Hw) as H. by rewrite E in H.
Qed.

(** C7: The invariant of a ledger state.  Start from a well-formed state and apply
    any sequence of commits, staged batches, loaded indexes, index refreshes and
    head-time lookups, whether they succeed, return an error or panic: the state
    stays well-formed (the snapshot's namespace bimap and graph registry, the
    overlay's segments, totals and fact index, the dictionaries, and for every
    flake the overlay holds the ids a query needs), and its time and its index
    time never go back.  An operation panics only on stored content that makes
    the storage, the root decoder or the commit reader panic; the commit reader
    does not on a commit the ledger wrote.  Commits, staged batches and indexes
    are well-formed, with room left for ids ([commit_ok], [staged_ok],
    [index_ok]). *)
Theorem ledger_operations_typed (st st' : LedgerState) :
  ledger_wf ledger_id st -> rtc (fun a b => exists p, ledger_step a p b) st st' ->
  ledger_wf ledger_id st' /\ ledger_t st <= ledger_t st' /\ Ledger.index_t st <= Ledger.index_t st' /\
  forall p st'', ledger_step st' p st'' -> p = true -> exists i, stored_panic i.
Proof.
  intros Hw H. induction H as [st|st st1 st' [p H1] H IH]; [split_and!; [done..|]|].
  - intros p st'' Hs. by apply (ledger_step_good st p st'').
  - destruct (ledger_step_good st p st1 Hw H1) as (W1 & T1 & I1 & _). destruct (IH W1) as (W & T & I & P). split_and!; [done|lia|lia|done].
Qed.
End reach.
