(* ===== verification/LedgerCatchUp.v ===== *)
(** * Ledger state: catching up

    A ledger that takes the commits of a chain one by one holds, for every graph,
    the facts the history of the chain gives it: the invariant that relates a
    state on the way to the flakes committed so far, and its preservation. *)

From stdpp Require Import base list numbers gmap sorting.
From Stdlib Require Import ZArith Lia.
From S2P Require Import Prelude Bytes Vocab Cmp Value Flake Envelope CommitCodec CommitDag IriSplit.
From S2P Require Import NsCodes GraphRegistry Dicts Snapshot CommitFlakes FactState Segment SegmentRead Novelty.
From S2P Require Import NoveltyRead NoveltyApply NoveltyCompact NoveltyBulk NoveltyHistory Ledger LedgerLaws.

Local Open Scope Z_scope.

Section catching_up.
Context `{VL : ValueLib, VLL : !ValueLibLaws, CL : CidLib, ML : CommitLib, LV : !LegacyV3, CT : !CommitText}.
Context `{NO : NsOrder, NL : !NsOrderLaws, SL : SortLib, SLL : !SortLaws, HO : HashOrder, HL : !HashLaws, AT : !Attachments}.
Context {SE RE : Type}.

Local Abbreviation single := (apply_single_commit (SE := SE) (RE := RE)).

(** Catching up: the commits of a list, oldest first, until one fails. *)
Fixpoint catch_up (st : LedgerState) (ledger_id : str) (cs : list Commit) :
    LedgerState * outcome (LedgerError (SE := SE) (RE := RE)) unit :=
  match cs with
  | [] => (st, Ok tt)
  | c :: cs =>
      match single st c ledger_id with
      | (st, Ok _) => catch_up st ledger_id cs
      | (st, r) => (st, r)
      end
  end.

(** ** Stable graph names *)

(** Prefixes that no commit of the chain registers. *)
Variable never : str -> Prop.

(** The prefix of an IRI is one of a namespace table, or will never be one. *)
Definition known_prefix (codes : gmap Z str) (mode : NsSplitMode) (iri : str) : Prop :=
  exists p q, canonical_split iri mode = Ok (p, q) /\ ((exists k, codes !! k = Some p) \/ never p).

Definition avoids (codes : gmap Z str) : Prop := map_Forall (fun _ p => ~ never p) codes.

Definition graphs_named (s : LedgerSnapshot) : Prop :=
  avoids (sn_namespace_codes s) /\
  forall iri g, graph_id_for_iri (sn_graph_registry s) iri = Some g ->
    known_prefix (sn_namespace_codes s) (sn_ns_split_mode s) iri.

Lemma avoids_reverse s p : snapshot_wf s -> avoids (sn_namespace_codes s) -> never p -> sn_namespace_reverse s !! p = None.
Proof. intros Hw Ha Hp. apply eq_None_not_Some. intros [k Hk%(so_bimap _ Hw)]. by eapply Ha. Qed.

Lemma known_prefix_mono codes codes' mode iri :
  codes ⊆ codes' -> known_prefix codes mode iri -> known_prefix codes' mode iri.
Proof.
  intros Hs (p & q & E & [[k Hk]|Hn]); exists p, q; (split; [done|]); [left|by right]. exists k. by eapply lookup_weaken.
Qed.

Lemma encode_stable s s' iri :
  snapshot_wf s -> snapshot_wf s' -> sn_ns_split_mode s' = sn_ns_split_mode s ->
  avoids (sn_namespace_codes s') ->
  sn_namespace_codes s ⊆ sn_namespace_codes s' -> known_prefix (sn_namespace_codes s) (sn_ns_split_mode s) iri ->
  encode_iri_inner s' iri = encode_iri_inner s iri.
Proof.
  intros Hw Hw' Em Ha Hs (p & q & E & Hk). unfold encode_iri_inner. rewrite Em, E. cbn [map_err mbind outcome_bind].
  destruct Hk as [[k Hk]|Hn].
  - rewrite (proj2 (so_bimap _ Hw p k) Hk), (proj2 (so_bimap _ Hw' p k)); [done|]. by eapply lookup_weaken.
  - rewrite !avoids_reverse by (done || (intros k p' H; eapply Ha; by eapply lookup_weaken)). done.
Qed.

Lemma encode_ext s s' iri :
  snapshot_wf s -> snapshot_wf s' -> sn_ns_split_mode s' = sn_ns_split_mode s ->
  sn_namespace_codes s' = sn_namespace_codes s -> encode_iri_inner s' iri = encode_iri_inner s iri.
Proof.
  intros Hw Hw' Em Ec. assert (sn_namespace_reverse s' = sn_namespace_reverse s) as Er.
  { apply map_eq. intros p. apply option_eq. intros c. by rewrite (so_bimap _ Hw'), (so_bimap _ Hw), Ec. }
  unfold encode_iri_inner. by rewrite Em, Er.
Qed.

(** ** Histories by graph *)

Definition in_named (g : option Sid) (l : list Flake) : list Flake :=
  List.filter (fun f => bool_decide (f_g f = g)) l.

Lemma in_named_app g l k : in_named g (l ++ k) = in_named g l ++ in_named g k.
Proof. apply List.filter_app. Qed.

Lemma in_named_elem g l f : f ∈ in_named g l <-> f ∈ l /\ f_g f = g.
Proof. unfold in_named. by rewrite elem_of_list_filter_b, bool_decide_eq_true. Qed.

Lemma filter_same (p q : Flake -> bool) l : (forall x, x ∈ l -> p x = q x) -> List.filter p l = List.filter q l.
Proof.
  intros H. induction l as [|x l IH]; [done|]. cbn. rewrite H by (apply elem_of_cons; by left).
  rewrite IH; [done|]. intros y Hy. apply H, elem_of_cons. by right.
Qed.

(** A routing sends to a graph exactly the flakes that name it. *)
Lemma routed_default (m : gmap Sid Z) l :
  (forall sid g, m !! sid = Some g -> 0 < g) -> routed_to (rg_of m) 0 l = in_named None l.
Proof.
  intros Hm. unfold routed_to, in_named. apply filter_same. intros f _. unfold graph_of, rg_of.
  destruct (f_g f) as [sid|]; [|by rewrite !bool_decide_eq_true_2].
  rewrite !bool_decide_eq_false_2; [done|done|]. intros H%Hm. lia.
Qed.

Lemma routed_graph s ledger_id m iri g sid l :
  snapshot_wf s -> graphs_plain s -> plain_iri (txn_meta_graph_iri ledger_id) ->
  routing s ledger_id = Ok m -> is_Some (graph_id_for_iri (sn_graph_registry s) (txn_meta_graph_iri ledger_id)) ->
  graph_id_for_iri (sn_graph_registry s) iri = Some g -> encode_iri_inner s iri = Ok sid ->
  routed_to (rg_of m) g l = in_named (Some sid) l.
Proof.
  intros Hw Hp Hl Er [gm Hgm] Hg Es. destruct (routing_spec s ledger_id Hw Hp Hl) as (m' & Er' & M1 & M2 & M3).
  assert (m' = m) as -> by congruence. clear Er'. destruct (M2 iri g Hg) as (sid' & Es' & Hm).
  assert (sid' = sid) as -> by congruence. clear Es'.
  unfold routed_to, in_named. apply filter_same. intros f _. unfold graph_of, rg_of. apply bool_decide_ext.
  destruct (f_g f) as [x|]; [|split; [intros [= <-]; by apply registry_positive in Hg; [|apply Hw]|done]].
  split; [|by intros [= ->]]. intros Hx. f_equal. apply M3 in Hx as [(iri' & Hg' & Ex)|(_ & _ & Hn)]; [|congruence].
  assert (iri' = iri) as ->; [|congruence].
  apply (rw_bimap _ (so_registry _ Hw)) in Hg as [_ Hg], Hg' as [_ Hg']. congruence.
Qed.

(** ** Catching up *)

Lemma elem_of_concat_fmap {A B} (f : A -> list B) l x : x ∈ concat (f <$> l) <-> exists a, a ∈ l /\ x ∈ f a.
Proof.
  rewrite elem_of_concat. setoid_rewrite list_elem_of_fmap. split.
  - intros (k & H & a & -> & Ha). by exists a.
  - intros (a & Ha & H). exists (f a). split; [done|]. by exists a.
Qed.

Section chain.
Variables (ledger_id : str) (mode : NsSplitMode) (gt : Sid).

Definition keeps_mode (c : Commit) : Prop := ns_split_mode c = None \/ ns_split_mode c = Some mode.

(** The flakes a commit contributes. *)
Definition batch_of (c : Commit) : list Flake :=
  flakes c ++ (with_graph gt <$> generate_commit_flakes c ledger_id (commit_t c)).

Definition history_of (cs : list Commit) : list Flake := concat (batch_of <$> cs).

(** A commit of the chain: well-formed, with an id, in the ledger's split mode,
    none of its data posing as unrouted commit metadata, no graph with a fact both
    asserted and retracted. *)
Record chain_commit (c : Commit) : Prop := {
  cc_ok : commit_ok c;
  cc_id : is_Some (id c);
  cc_mode : keeps_mode c;
  cc_avoids : avoids (namespace_delta c);
  cc_data : Forall (fun f => is_unrouted_commit_flake f = false) (flakes c);
  cc_conflicts g : conflict_free (in_named g (batch_of c));
}.

(** Each graph's namespace is known when the graph is introduced. *)
Fixpoint namespaces_ready (codes : gmap Z str) (cs : list Commit) : Prop :=
  match cs with
  | [] => True
  | c :: cs =>
      let codes := codes ∪ namespace_delta c in
      map_Forall (fun _ iri => known_prefix codes mode iri) (graph_delta c) /\ namespaces_ready codes cs
  end.

Definition chain_graphs (cs : list Commit) : list str := concat (graph_iris_of <$> cs).
Definition chain_size (cs : list Commit) : Z := foldr Z.add 0 (commit_size <$> cs).

(** A state on the way, with the history it has taken. *)
Record caught_up (st : LedgerState) (hist : list Flake) : Prop := {
  cu_wf : ledger_wf ledger_id st;
  cu_mode : sn_ns_split_mode (ls_snapshot st) = mode;
  cu_named : graphs_named (ls_snapshot st);
  cu_meta : is_Some (graph_id_for_iri (sn_graph_registry (ls_snapshot st)) (txn_meta_graph_iri ledger_id));
  cu_gt : encode_iri_inner (ls_snapshot st) (txn_meta_graph_iri ledger_id) = Ok gt;
  cu_times f : f ∈ hist -> f_t f <= ledger_t st;
  cu_routes f sid : f ∈ hist -> f_g f = Some sid ->
    exists iri g, graph_id_for_iri (sn_graph_registry (ls_snapshot st)) iri = Some g /\
      encode_iri_inner (ls_snapshot st) iri = Ok sid;
  cu_held g f : 0 < g -> f ∈ graph_contents (ls_novelty st) g ->
    exists iri, graph_id_for_iri (sn_graph_registry (ls_snapshot st)) iri = Some g;
  cu_default f : flake_ordinary f ->
    currently_asserted (ls_novelty st) 0 f = asserted_in 0 (in_named None hist) f;
  cu_graph iri g sid f : flake_ordinary f ->
    graph_id_for_iri (sn_graph_registry (ls_snapshot st)) iri = Some g ->
    encode_iri_inner (ls_snapshot st) iri = Ok sid ->
    currently_asserted (ls_novelty st) g f = asserted_in g (in_named (Some sid) hist) f;
}.

Lemma set_same_mode s t : sn_ns_split_mode s = mode -> set_ns_split_mode s mode t = (s, Ok tt).
Proof.
  intros Em. unfold set_ns_split_mode. rewrite bool_decide_eq_true_2 by done. rewrite andb_false_r.
  by rewrite <- Em; destruct s.
Qed.

Lemma envelope_same_mode s c :
  sn_ns_split_mode s = mode -> keeps_mode c ->
  apply_envelope s c = apply_envelope_deltas s (namespace_delta c) (graph_iris_of c).
Proof. intros Em [E|E]; unfold apply_envelope; rewrite E; [done|]. by rewrite set_same_mode. Qed.

(** The snapshot after a commit of the chain. *)
Lemma chain_snapshot st c s' :
  ledger_wf ledger_id st -> sn_ns_split_mode (ls_snapshot st) = mode -> graphs_named (ls_snapshot st) ->
  chain_commit c -> graph_room (ls_snapshot st) (graph_iris_of c) ->
  map_Forall (fun _ iri => known_prefix (sn_namespace_codes (ls_snapshot st) ∪ namespace_delta c) mode iri) (graph_delta c) ->
  apply_envelope (ls_snapshot st) c = (s', Ok tt) ->
  sn_ns_split_mode s' = mode /\ graphs_named s' /\
  sn_namespace_codes s' = sn_namespace_codes (ls_snapshot st) ∪ namespace_delta c /\
  namespace_delta c ⊆ sn_namespace_codes s' /\
  (forall iri, is_Some (graph_id_for_iri (sn_graph_registry s') iri) <->
    is_Some (graph_id_for_iri (sn_graph_registry (ls_snapshot st)) iri) \/ iri ∈ graph_iris_of c) /\
  fst <$> apply_delta (sn_graph_registry (ls_snapshot st)) (graph_iris_of c) = Some (sn_graph_registry s').
Proof.
  intros Hw Em Hn Hc Hr Hk Ee. rewrite (envelope_same_mode _ _ Em (cc_mode _ Hc)) in Ee.
  pose proof (envelope_deltas_spec (ls_snapshot st) (namespace_delta c) (graph_iris_of c) (lw_snapshot _ _ Hw)
    (ck_namespaces _ (cc_ok _ Hc)) Hr) as H. rewrite Ee in H.
  destruct H as (W & [X1 X2] & _ & _ & Em' & F & R1 & R2 & R3 & R4).
  assert (sn_namespace_codes s' = sn_namespace_codes (ls_snapshot st) ∪ namespace_delta c) as Ec.
  { apply map_eq. intros k. apply option_eq. intros q. rewrite lookup_union_Some_raw. split.
    - intros Hq. destruct (sn_namespace_codes (ls_snapshot st) !! k) as [q'|] eqn:Ek.
      + left. rewrite (lookup_weaken _ _ _ _ Ek X1) in Hq. done.
      + right. apply F in Hq as [?|?]; [congruence|done].
    - intros [Hq|[_ Hq]]; by eapply lookup_weaken. }
  split_and!; [congruence| |done|done| |done].
  - destruct Hn as [Ha Hn]. split.
    { intros k p [Hp|Hp]%F; [by eapply Ha|]. by eapply (cc_avoids _ Hc). }
    intros iri g Hg. rewrite Em', Em. apply R4 in Hg as [Hg|Hg].
    + apply Hn in Hg. rewrite Em in Hg. exact (known_prefix_mono _ _ _ _ X1 Hg).
    + rewrite Ec. apply graph_iris_listed in Hg as [g' Hg]. by apply (Hk g').
  - intros iri. split.
    + intros [g Hg]. apply R4 in Hg as [Hg|Hg]; [left; by exists g|by right].
    + intros [[g Hg]|Hin]; [|by apply R3]. exists g. destruct X2 as [X2 _]. by eapply lookup_weaken.
Qed.

Lemma commit_size_nonneg c : 0 <= commit_size c.
Proof.
  unfold commit_size. pose proof (zlen_nonneg (flakes c)). pose proof (zlen_nonneg (parents c)).
  pose proof (zlen_nonneg (txn_meta c)). lia.
Qed.

Lemma chain_size_cons c cs : chain_size (c :: cs) = commit_size c + chain_size cs.
Proof. done. Qed.

Lemma chain_size_nonneg cs : 0 <= chain_size cs.
Proof.
  induction cs as [|c cs IH]; [done|]. rewrite chain_size_cons. pose proof (commit_size_nonneg c). lia.
Qed.

(** One commit, on the history side too: [st'] is a later state, [m] its
    routing. *)
Section step.
Context (st st' : LedgerState) (hist : list Flake) (m : gmap Sid Z).
Context (Hu : caught_up st hist) (W' : ledger_wf ledger_id st').
Context (Ha : avoids (sn_namespace_codes (ls_snapshot st'))).
Context (Hx : snapshot_extends (ls_snapshot st) (ls_snapshot st')) (Em : sn_ns_split_mode (ls_snapshot st') = mode).
Context (Er : routing (ls_snapshot st') ledger_id = Ok m).

Lemma step_keeps iri g :
  graph_id_for_iri (sn_graph_registry (ls_snapshot st)) iri = Some g ->
  graph_id_for_iri (sn_graph_registry (ls_snapshot st')) iri = Some g /\
  encode_iri_inner (ls_snapshot st') iri = encode_iri_inner (ls_snapshot st) iri.
Proof.
  intros Hg. destruct Hx as [X1 [X2 _]]. split; [by eapply lookup_weaken|].
  apply encode_stable; [apply (cu_wf _ _ Hu)|apply W'|by rewrite Em, (cu_mode _ _ Hu)|done..|]. by eapply (cu_named _ _ Hu).
Qed.

Lemma step_meta :
  is_Some (graph_id_for_iri (sn_graph_registry (ls_snapshot st')) (txn_meta_graph_iri ledger_id)) /\
  encode_iri_inner (ls_snapshot st') (txn_meta_graph_iri ledger_id) = Ok gt.
Proof.
  destruct (cu_meta _ _ Hu) as [g Hg]. destruct (step_keeps _ _ Hg) as [H1 H2]. split; [by exists g|].
  rewrite H2. apply (cu_gt _ _ Hu).
Qed.

(** Routed flakes go to registered graphs. *)
Lemma step_routes sid g :
  m !! sid = Some g ->
  exists iri, graph_id_for_iri (sn_graph_registry (ls_snapshot st')) iri = Some g /\
    encode_iri_inner (ls_snapshot st') iri = Ok sid.
Proof.
  intros Hg. destruct (routing_spec _ ledger_id (lw_snapshot _ _ W') (lw_graphs _ _ W') (lw_ledger _ _ W')) as (m' & E & _ & _ & M).
  assert (m' = m) as -> by congruence. apply M in Hg as [H|(_ & _ & Hn)]; [done|].
  destruct step_meta as [[g' Hg'] _]. congruence.
Qed.

Lemma routing_range sid g : m !! sid = Some g -> 0 < g < 2 ^ 16.
Proof.
  destruct (routing_spec _ ledger_id (lw_snapshot _ _ W') (lw_graphs _ _ W') (lw_ledger _ _ W')) as (m' & E & M & _).
  assert (m' = m) as -> by congruence. apply M.
Qed.

(** A graph that is new has neither contents nor a history. *)
Lemma step_new_graph iri g sid :
  graph_id_for_iri (sn_graph_registry (ls_snapshot st')) iri = Some g ->
  encode_iri_inner (ls_snapshot st') iri = Ok sid ->
  graph_id_for_iri (sn_graph_registry (ls_snapshot st)) iri = None ->
  graph_contents (ls_novelty st) g = [] /\ in_named (Some sid) hist = [].
Proof.
  intros Hg Es Hnew. assert (0 < g) as Hpos by (eapply registry_positive; [apply W'|done]). split.
  - destruct (graph_contents (ls_novelty st) g) as [|x l] eqn:Ex; [done|]. exfalso.
    destruct (cu_held _ _ Hu g x Hpos) as [iri' Hi]; [rewrite Ex; apply elem_of_cons; by left|].
    destruct (step_keeps _ _ Hi) as [Hi' _].
    apply (rw_bimap _ (so_registry _ (lw_snapshot _ _ W'))) in Hi' as [_ Hi'], Hg as [_ Hg]. congruence.
  - destruct (in_named (Some sid) hist) as [|x l] eqn:Ex; [done|]. exfalso.
    assert (x ∈ in_named (Some sid) hist) as [Hxin Hxs]%in_named_elem by (rewrite Ex; apply elem_of_cons; by left).
    destruct (cu_routes _ _ Hu x sid Hxin Hxs) as (iri' & g' & Hg' & Es'). destruct (step_keeps _ _ Hg') as [_ Ek].
    rewrite (encode_inj _ iri' iri sid (lw_snapshot _ _ W')) in Hg'; congruence.
Qed.

(** The history a graph of the later state had. *)
Lemma step_history iri g sid f :
  flake_ordinary f -> graph_id_for_iri (sn_graph_registry (ls_snapshot st')) iri = Some g ->
  encode_iri_inner (ls_snapshot st') iri = Ok sid ->
  currently_asserted (ls_novelty st) g f = asserted_in g (in_named (Some sid) hist) f.
Proof.
  intros Hf Hg Es. destruct (graph_id_for_iri (sn_graph_registry (ls_snapshot st)) iri) as [g'|] eqn:Eg.
  - destruct (step_keeps _ _ Eg) as [H1 H2]. assert (g' = g) as -> by congruence.
    apply (cu_graph _ _ Hu iri); [done..|congruence].
  - destruct (step_new_graph iri g sid Hg Es Eg) as [H1 H2]. unfold currently_asserted, asserted_in. by rewrite H1, H2.
Qed.
End step.

(** A batch that an overlay took is routed. *)
Lemma applied_routed nv fl t rg nv' f sid :
  apply_commit nv fl t rg = (nv', Ok tt) -> f ∈ fl -> f_g f = Some sid -> is_Some (rg sid).
Proof.
  intros Ea Hf Hsid. pose proof (apply_commit_all_or_nothing nv fl t rg) as Hat. rewrite Ea in Hat.
  assert (can_apply nv fl rg = Ok tt) as Hca by by apply Hat. unfold can_apply in Hca.
  destruct (MAX_SEGMENT_FLAKES <? zlen fl); [done|].
  apply can_apply_loop_spec in Hca as (routed & res & Hr & _). apply route_spec in Hr as [Hsnd Hall].
  rewrite <- Hsnd in Hf. apply list_elem_of_fmap in Hf as ([g x] & -> & Hx). rewrite Forall_forall in Hall.
  specialize (Hall _ Hx). cbn in Hall, Hsid. unfold graph_of in Hall. rewrite Hsid in Hall. by exists g.
Qed.

Lemma catch_up_step st hist c st' k :
  caught_up st hist -> chain_commit c -> graph_room (ls_snapshot st) (graph_iris_of c) -> 0 <= k ->
  dict_room (ls_dict_novelty st) (k + 2 * commit_size c) ->
  map_Forall (fun _ iri => known_prefix (sn_namespace_codes (ls_snapshot st) ∪ namespace_delta c) mode iri) (graph_delta c) ->
  single st c ledger_id = (st', Ok tt) ->
  caught_up st' (hist ++ batch_of c) /\ ledger_t st' = commit_t c /\ commit_t c = ledger_t st + 1 /\
  dict_room (ls_dict_novelty st') k /\ ls_head_commit_id st' = id c /\
  apply_envelope (ls_snapshot st) c = (ls_snapshot st', Ok tt).
Proof.
  intros Hu Hc Hr Hk0 Hd Hk E. destruct (cc_id _ Hc) as [cid Hid].
  destruct (Z.eq_dec (commit_t c) (ledger_t st + 1)) as [Ht|Hne].
  2:{ unfold apply_single_commit in E. rewrite Hid, (proj2 (Z.eqb_neq _ _) Hne) in E. done. }
  pose proof (single_commit_spec (SE := SE) (RE := RE) ledger_id st c cid k (cu_wf _ _ Hu) (cc_ok _ Hc) Hid Ht Hr Hk0 Hd) as H.
  rewrite E in H. destruct H as (X & _ & W' & T' & Hh & _ & _ & _ & _ & K' & fl & m & Ee & Ea & _ & Eb & Er & _ & G').
  split; [|split_and!; congruence || done].
  destruct (chain_snapshot st c (ls_snapshot st') (cu_wf _ _ Hu) (cu_mode _ _ Hu) (cu_named _ _ Hu) Hc Hr Hk Ee)
    as (Em & Hn & _).
  destruct (step_meta st st' hist Hu W' (proj1 Hn) X Em) as [Hmeta Egt].
  pose proof (step_keeps st st' hist Hu W' (proj1 Hn) X Em) as Hkeep.
  pose proof (step_routes st st' hist m Hu W' (proj1 Hn) X Em Er) as Hroutes.
  pose proof (routing_range st' m W' Er) as Hrange.
  destruct (commit_batch_spec (ls_snapshot st') c cid ledger_id (cc_ok _ Hc) Hid (lw_ledger _ _ W')) as (g0 & Eg0 & Eb' & B1 & B2 & B3 & B4 & _).
  assert (g0 = gt) as -> by congruence. fold (batch_of c) in *. assert (fl = batch_of c) as -> by congruence. clear Eb Eb' Eg0.
  assert (forall g h f, 0 <= g -> flake_ordinary f -> (forall x, x ∈ h -> x ∈ hist) ->
    currently_asserted (ls_novelty st) g f = asserted_in g h f ->
    currently_asserted (ls_novelty st') g f = asserted_in g (h ++ routed_to (rg_of m) g (batch_of c)) f) as Hag.
  { intros g h f Hg Hf Hsub. apply (commit_agrees _ _ (commit_t c) _ _ (Ok tt)); try done; [apply (cu_wf _ _ Hu)|..].
    - intros sid g' Hg'%Hrange. unfold in_u. lia.
    - apply Forall_forall. intros x Hx. destruct (lw_served _ _ (cu_wf _ _ Hu) g x Hg Hx) as [? _]. unfold ledger_t in Ht. lia.
    - apply Forall_forall. intros x Hx%Hsub%(cu_times _ _ Hu). lia. }
  rewrite Forall_forall in B3. split; try done.
  - intros f [Hf|Hf]%elem_of_app; [apply (cu_times _ _ Hu) in Hf; lia|]. rewrite (B3 f Hf). lia.
  - intros f sid [Hf|Hf]%elem_of_app Hsid.
    + destruct (cu_routes _ _ Hu f sid Hf Hsid) as (iri & g & Hg & Es). exists iri, g.
      destruct (Hkeep iri g Hg) as [H1 H2]. split; [done|congruence].
    + destruct (applied_routed _ _ _ _ _ f sid Ea Hf Hsid) as [g Hg]. destruct (Hroutes sid g Hg) as (iri & ?). by exists iri, g.
  - intros g f Hg Hf. rewrite (G' g ltac:(lia)), elem_of_app in Hf. destruct Hf as [Hf|Hf].
    + destruct (cu_held _ _ Hu g f Hg Hf) as [iri Hi]. exists iri. by apply Hkeep.
    + unfold accepted in Hf. apply elem_of_list_filter_b in Hf as [_ [Hgf%bool_decide_eq_true _]%andb_true_iff].
      unfold graph_of in Hgf. destruct (f_g f) as [sid|]; [|injection Hgf; lia].
      destruct (Hroutes sid g Hgf) as (iri & Hi & _). by exists iri.
  - intros f Hf. rewrite in_named_app, <- (routed_default m (batch_of c)) by (intros sid g Hg%Hrange; lia).
    apply Hag; [done|done|by intros x [? _]%in_named_elem|by apply (cu_default _ _ Hu)].
  - intros iri g sid f Hf Hg Es. rewrite in_named_app.
    rewrite <- (routed_graph (ls_snapshot st') ledger_id m iri g sid (batch_of c)) by (done || apply W').
    assert (0 < g) as Hpos by (eapply registry_positive; [apply W'|done]).
    apply Hag; [lia|done|by intros x [? _]%in_named_elem|]. by apply (step_history st st' hist Hu W' (proj1 Hn) X Em iri).
Qed.
Definition chain_times (t : Z) (cs : list Commit) : Prop :=
  forall i c, cs !! i = Some c -> commit_t c = t + 1 + Z.of_nat i.

(** What a run of commits leaves behind. *)
Record chain_applied (st : LedgerState) (cs : list Commit) (st' : LedgerState) : Prop := {
  ca_times : chain_times (ledger_t st) cs;
  ca_t : ledger_t st' = ledger_t st + zlen cs;
  ca_codes k q : sn_namespace_codes (ls_snapshot st') !! k = Some q <->
    sn_namespace_codes (ls_snapshot st) !! k = Some q \/ exists c, c ∈ cs /\ namespace_delta c !! k = Some q;
  ca_graphs iri : is_Some (graph_id_for_iri (sn_graph_registry (ls_snapshot st')) iri) <->
    is_Some (graph_id_for_iri (sn_graph_registry (ls_snapshot st)) iri) \/ iri ∈ chain_graphs cs;
  ca_head : ls_head_commit_id st' = match last cs with Some c => id c | None => ls_head_commit_id st end;
}.

Lemma chain_graphs_cons c cs : chain_graphs (c :: cs) = graph_iris_of c ++ chain_graphs cs.
Proof. done. Qed.

Lemma chain_room s c cs s' :
  snapshot_wf s -> next_id (sn_graph_registry s) + zlen (chain_graphs (c :: cs)) < 2 ^ 16 ->
  fst <$> apply_delta (sn_graph_registry s) (graph_iris_of c) = Some (sn_graph_registry s') ->
  graph_room s (graph_iris_of c) /\ next_id (sn_graph_registry s') + zlen (chain_graphs cs) < 2 ^ 16.
Proof.
  intros Hw. rewrite chain_graphs_cons, zlen_app. pose proof (zlen_nonneg (chain_graphs cs)). intros Hr E.
  pose proof (new_iris_length (sn_graph_registry s) (graph_iris_of c)). unfold graph_room. split; [lia|].
  destruct (apply_delta_spec (sn_graph_registry s) (graph_iris_of c) (so_registry _ Hw)) as (r & a & E' & _ & _ & _ & _ & _ & _ & _ & En);
    [lia|]. rewrite E' in E. injection E as <-. lia.
Qed.

Lemma catch_up_chain cs : forall st hist st' k,
  caught_up st hist -> Forall chain_commit cs -> namespaces_ready (sn_namespace_codes (ls_snapshot st)) cs ->
  next_id (sn_graph_registry (ls_snapshot st)) + zlen (chain_graphs cs) < 2 ^ 16 ->
  0 <= k -> dict_room (ls_dict_novelty st) (k + 2 * chain_size cs) ->
  catch_up st ledger_id cs = (st', Ok tt) ->
  caught_up st' (hist ++ history_of cs) /\ chain_applied st cs st'.
Proof.
  induction cs as [|c cs IH]; intros st hist st' k Hu Hcs Hns Hgr Hk Hd E.
  { injection E as <-. unfold history_of. cbn. rewrite app_nil_r. split; [done|].
    split; [by intros i c|unfold zlen; cbn; lia|..|done]; intros; rewrite ?elem_of_nil; set_solver. }
  apply Forall_cons in Hcs as [Hc Hcs]. destruct Hns as [Hn1 Hn2]. cbn [catch_up] in E. rewrite chain_size_cons in Hd.
  destruct (single st c ledger_id) as [st1 r] eqn:E1. destruct r as [[]|e|]; [|done..].
  pose proof (chain_size_nonneg cs). assert (graph_room (ls_snapshot st) (graph_iris_of c)) as Hr1.
  { unfold graph_room. rewrite chain_graphs_cons, zlen_app in Hgr. pose proof (zlen_nonneg (chain_graphs cs)).
    pose proof (new_iris_length (sn_graph_registry (ls_snapshot st)) (graph_iris_of c)). lia. }
  destruct (catch_up_step st hist c st1 (k + 2 * chain_size cs) Hu Hc Hr1 ltac:(lia)) as (Hu1 & T1 & T2 & D1 & Hh & Ee);
    [by replace (k + 2 * chain_size cs + 2 * commit_size c) with (k + 2 * (commit_size c + chain_size cs)) by lia|done|done|].
  destruct (chain_snapshot st c (ls_snapshot st1) (cu_wf _ _ Hu) (cu_mode _ _ Hu) (cu_named _ _ Hu) Hc Hr1 Hn1 Ee)
    as (_ & _ & Ec & Hns & Hreg & Hdelta).
  destruct (chain_room (ls_snapshot st) c cs (ls_snapshot st1) (lw_snapshot _ _ (cu_wf _ _ Hu)) Hgr Hdelta) as [_ Hr2].
  rewrite <- Ec in Hn2. destruct (IH st1 (hist ++ batch_of c) st' k Hu1 Hcs Hn2 Hr2 Hk D1 E) as [Hu' [A1 A2 A3 A4 A5]].
  rewrite <- app_assoc in Hu'. split; [done|]. split.
  - intros [|i] x Hx; [injection Hx as <-; lia|]. rewrite (A1 i x Hx). lia.
  - rewrite A2, zlen_cons. lia.
  - intros i q. rewrite A3, Ec. split.
    + intros [[?|[_ ?]]%lookup_union_Some_raw|(x & ? & ?)]; set_solver.
    + intros [?|(x & [->|?]%elem_of_cons & Hx)]; [left; by apply lookup_union_Some_l| |set_solver]. left.
      rewrite <- Ec. by eapply lookup_weaken.
  - intros iri. rewrite A4, Hreg, chain_graphs_cons. set_solver.
  - rewrite A5, Hh, last_cons. by destruct (last cs).
Qed.
End chain.
End catching_up.
