(* ===== verification/LedgerReload.v ===== *)
(** * Ledger state: reloading

    A ledger loaded from its stored commits and a ledger that took the same
    commits one by one agree: the two ways to the current state, the bulk replay
    of [load_novelty] and the catch-up loop over [apply_single_commit], have the
    same namespaces, the same graphs and the same facts in every graph, although
    the graphs may be numbered differently. *)

From stdpp Require Import base list numbers gmap sorting.
From Stdlib Require Import ZArith Lia.
From S2P Require Import Prelude Bytes Vocab Cmp Value Flake Envelope CommitCodec CommitDag IriSplit.
From S2P Require Import NsCodes GraphRegistry Dicts Snapshot CommitFlakes FactState Segment SegmentRead Novelty.
From S2P Require Import NoveltyRead NoveltyApply NoveltyCompact NoveltyBulk NoveltyHistory Ledger LedgerLaws LedgerCatchUp.

Local Open Scope Z_scope.

Section reload.
Context `{VL : ValueLib, VLL : !ValueLibLaws, CL : CidLib, ML : CommitLib, LV : !LegacyV3, CT : !CommitText}.
Context `{NO : NsOrder, NL : !NsOrderLaws, SL : SortLib, SLL : !SortLaws, HO : HashOrder, HL : !HashLaws, AT : !Attachments}.
Context {SE RE : Type}.
Variable never : str -> Prop.


Section chain.
Variables (ledger_id : str) (mode : NsSplitMode) (gt : Sid).

Local Abbreviation batch_of := (batch_of ledger_id gt).
Local Abbreviation history_of := (history_of ledger_id gt).
Local Abbreviation chain_commit := (chain_commit never ledger_id mode gt).
Local Abbreviation caught_up := (caught_up never ledger_id mode gt).
Local Abbreviation keeps_mode := (keeps_mode mode).

(** ** Replaying *)

Definition merged_namespaces (d : gmap Z str) (l : list Commit) : gmap Z str :=
  fold_left (fun d c => or_insert_all d (namespace_delta c)) l d.

Definition raw_batch (c : Commit) : list Flake * Z :=
  (flakes c ++ generate_commit_flakes c ledger_id (commit_t c), commit_t c).

(** The walk over the commits, newest first. *)
Lemma walk_stream_all l w :
  sn_ns_split_mode (wk_snapshot w) = mode -> Forall keeps_mode l ->
  exists w', walk_stream (SE := SE) (RE := RE) ledger_id w (Ok <$> l) = Ok w' /\ wk_snapshot w' = wk_snapshot w /\
    wk_ns_delta w' = merged_namespaces (wk_ns_delta w) l /\
    wk_graph_iris w' = wk_graph_iris w ++ chain_graphs l /\
    wk_batches w' = reverse (raw_batch <$> l) ++ wk_batches w /\
    wk_temporal w' = (if wk_first w then match l with c :: _ => temporal_from_commit c | [] => wk_temporal w end else wk_temporal w).
Proof.
  revert w. induction l as [|c l IH]; intros w Em Hl.
  { exists w. rewrite app_nil_r. split_and!; try done. by destruct (wk_first w). }
  apply Forall_cons in Hl as [Hc Hl]. rewrite fmap_cons. cbn [walk_stream map_err mbind outcome_bind].
  set (w1 := mkWalk (wk_snapshot w) (or_insert_all (wk_ns_delta w) (namespace_delta c)) (wk_graph_iris w ++ graph_iris_of c)
    (raw_batch c :: wk_batches w) (if wk_first w then temporal_from_commit c else wk_temporal w) false).
  assert (walk_commit (SE := SE) (RE := RE) ledger_id w c = Ok w1) as ->.
  { unfold walk_commit. destruct Hc as [-> | ->]; [done|]. cbn [wk_snapshot]. by rewrite set_same_mode. }
  destruct (IH w1 Em Hl) as (w' & E & E1 & E2 & E3 & E4 & E5). exists w'. cbn [outcome_bind].
  split_and!; [done..| | |done].
  - rewrite E3. cbn. by rewrite <- app_assoc.
  - rewrite E4, fmap_cons, reverse_cons, <- app_assoc. done.
Qed.

Lemma merged_sound l d k q :
  merged_namespaces d l !! k = Some q -> d !! k = Some q \/ exists c, c ∈ l /\ namespace_delta c !! k = Some q.
Proof.
  revert d. induction l as [|c l IH]; intros d; cbn; [by left|]. intros [H|H]%IH; [|set_solver].
  apply lookup_union_Some_raw in H. set_solver.
Qed.

Lemma merged_complete l d k :
  is_Some (d !! k) \/ (exists c, c ∈ l /\ is_Some (namespace_delta c !! k)) -> is_Some (merged_namespaces d l !! k).
Proof.
  revert d. induction l as [|c l IH]; intros d; cbn; [intros [?|(c & ?%elem_of_nil & _)]; done|].
  intros H. apply IH. unfold or_insert_all. rewrite lookup_union_is_Some. set_solver.
Qed.

Lemma stamp_raw_batch c :
  chain_commit c -> stamp_graph_on_commit_flakes (raw_batch c).1 gt = batch_of c.
Proof.
  intros Hc. destruct (cc_id _ _ _ _ _ Hc) as [cid Hid]. unfold raw_batch. cbn [fst]. rewrite stamp_app, stamp_other_flakes by apply Hc.
  by rewrite (stamp_commit_flakes cid (commit_t c)) by by apply commit_flakes_shape.
Qed.

Lemma stamp_raw_batches cs :
  Forall chain_commit cs -> stamp_batches (Some gt) (raw_batch <$> cs) = (fun c => (batch_of c, commit_t c)) <$> cs.
Proof.
  intros H. cbn [stamp_batches]. rewrite <- list_fmap_compose. apply list_fmap_ext. intros i c Hc.
  rewrite Forall_lookup in H. unfold compose. by rewrite stamp_raw_batch by by eapply H.
Qed.

Lemma chain_graphs_elem cs iri : iri ∈ chain_graphs cs <-> exists c, c ∈ cs /\ iri ∈ graph_iris_of c.
Proof. apply elem_of_concat_fmap. Qed.

Lemma chain_graphs_reverse cs : zlen (chain_graphs (reverse cs)) = zlen (chain_graphs cs).
Proof.
  induction cs as [|c cs IH]; [done|]. rewrite reverse_cons, chain_graphs_cons, zlen_app, <- IH. unfold chain_graphs.
  rewrite fmap_app, concat_app, zlen_app. cbn. rewrite app_nil_r. lia.
Qed.

Lemma bimap_iff s k q c p :
  snapshot_wf s -> sn_namespace_codes s !! k = Some q -> sn_namespace_codes s !! c = Some p -> k = c <-> q = p.
Proof.
  intros Hw Hk Hc. split; [intros ->; congruence|intros ->].
  apply (so_bimap _ Hw) in Hk, Hc. congruence.
Qed.

(** The snapshot of the replay: every delta at once. *)
Lemma replay_snapshot st cs st' :
  ledger_wf ledger_id st -> ledger_wf ledger_id st' -> sn_ns_split_mode (ls_snapshot st) = mode ->
  sn_ns_split_mode (ls_snapshot st') = mode -> Forall chain_commit cs -> chain_applied st cs st' ->
  next_id (sn_graph_registry (ls_snapshot st)) + zlen (chain_graphs cs) < 2 ^ 16 ->
  exists s, apply_envelope_deltas (ls_snapshot st) (merged_namespaces ∅ (reverse cs)) (chain_graphs (reverse cs)) = (s, Ok tt) /\
    snapshot_wf s /\ graphs_plain s /\ sn_t s = sn_t (ls_snapshot st) /\ sn_ns_split_mode s = mode /\
    sn_namespace_codes s = sn_namespace_codes (ls_snapshot st') /\
    (forall iri, is_Some (graph_id_for_iri (sn_graph_registry s) iri) <->
      is_Some (graph_id_for_iri (sn_graph_registry (ls_snapshot st')) iri)).
Proof.
  intros Hw Hw' Em Em' Hcs Ha Hroom. set (d := merged_namespaces ∅ (reverse cs)).
  assert (forall k q, d !! k = Some q -> exists c, c ∈ cs /\ namespace_delta c !! k = Some q) as Hd.
  { intros k q [H|(c & Hc & H)]%merged_sound; [by rewrite lookup_empty in H|]. rewrite elem_of_reverse in Hc. eauto. }
  assert (forall k q, d !! k = Some q -> sn_namespace_codes (ls_snapshot st') !! k = Some q) as Hd'.
  { intros k q H%Hd. apply (ca_codes _ _ _ Ha). by right. }
  rewrite Forall_forall in Hcs.
  pose proof (envelope_deltas_spec (ls_snapshot st) d (chain_graphs (reverse cs)) (lw_snapshot _ _ Hw)) as H.
  destruct (apply_envelope_deltas (ls_snapshot st) d (chain_graphs (reverse cs))) as [s r].
  destruct H as (W & [X1 X2] & _ & Et & Em1 & F & R).
  { unfold delta_clean. apply eq_None_not_Some. intros [q (c & Hc & Hq)%Hd].
    pose proof (ck_namespaces _ (cc_ok _ _ _ _ _ (Hcs c Hc))) as Hcl. unfold delta_clean in Hcl. congruence. }
  { unfold graph_room. pose proof (new_iris_length (sn_graph_registry (ls_snapshot st)) (chain_graphs (reverse cs))).
    rewrite chain_graphs_reverse in *. lia. }
  assert (forall k q, sn_namespace_codes s !! k = Some q -> sn_namespace_codes (ls_snapshot st') !! k = Some q) as Hs.
  { intros k q [H|H]%F; [apply (ca_codes _ _ _ Ha); by left|by apply Hd']. }
  destruct r as [[]|e|]; [| |done].
  2:{ exfalso. destruct R as (_ & c & p & k & q & H1 & H2 & H3). apply H3.
      apply (bimap_iff (ls_snapshot st')); [apply Hw'|by apply Hs|by apply Hd']. }
  destruct R as (R1 & _ & R2 & R3). exists s. split_and!; [done..| |done|congruence| |].
  - apply (graphs_plain_grow (ls_snapshot st) s (chain_graphs (reverse cs))); [apply Hw| |done].
    apply Forall_forall. intros iri (c & Hc & Hi)%chain_graphs_elem. rewrite elem_of_reverse in Hc.
    pose proof (graph_iris_plain c (cc_ok _ _ _ _ _ (Hcs c Hc))) as Hp. rewrite Forall_forall in Hp. by apply Hp.
  - apply map_eq. intros k. apply option_eq. intros q. split; [by apply Hs|]. intros [H|(c & Hc & H)]%(ca_codes _ _ _ Ha); [by eapply lookup_weaken|].
    destruct (merged_complete (reverse cs) ∅ k) as [q' Hq']; [right; exists c; rewrite elem_of_reverse; eauto|].
    fold d in Hq'. assert (sn_namespace_codes (ls_snapshot st') !! k = Some q) by (apply (ca_codes _ _ _ Ha); eauto).
    apply Hd' in Hq' as Hq2. assert (q' = q) as -> by congruence. exact (lookup_weaken _ _ _ _ Hq' R1).
  - intros iri. rewrite (ca_graphs _ _ _ Ha). assert (iri ∈ chain_graphs (reverse cs) <-> iri ∈ chain_graphs cs) as Hrev.
    { rewrite !chain_graphs_elem. by setoid_rewrite elem_of_reverse. }
    split.
    + intros [g [Hg|Hg]%R3]; [left; by exists g|right; by apply Hrev].
    + intros [[g Hg]|Hg]; [|apply R2; by rewrite Hrev]. exists g. destruct X2 as [X2 _]. by eapply lookup_weaken.
Qed.

(** ** Batches *)

Lemma batch_ok c s :
  chain_commit c -> plain_iri (txn_meta_graph_iri ledger_id) -> encode_iri_inner s (txn_meta_graph_iri ledger_id) = Ok gt ->
  Forall flake_ordinary (batch_of c) /\ Forall flake_sids_ok (batch_of c) /\
  Forall (fun f => f_t f = commit_t c) (batch_of c) /\ zlen (batch_of c) <= commit_size c.
Proof.
  intros Hc Hp Eg. destruct (cc_id _ _ _ _ _ Hc) as [cid Hid].
  destruct (commit_batch_spec s c cid ledger_id (cc_ok _ _ _ _ _ Hc) Hid Hp) as (g & Eg' & _ & H1 & H2 & H3 & _ & H4).
  assert (g = gt) as -> by congruence. done.
Qed.

Lemma populate_chain cs dn k :
  Forall (fun c => Forall flake_sids_ok (batch_of c) /\ zlen (batch_of c) <= commit_size c) cs ->
  dn_wf dn -> 0 <= k -> dict_room dn (k + 2 * chain_size cs) ->
  exists dn', populate_batches dn ((fun c => (batch_of c, commit_t c)) <$> cs) = Some dn' /\ dn_wf dn' /\
    dn_extends dn dn' /\ (forall f, f ∈ history_of cs -> flake_sids_ok f /\ covers dn' f) /\ dict_room dn' k.
Proof.
  intros Hcs. revert dn k. induction Hcs as [|c cs [Hs Hz] Hcs IH]; intros dn k Hw Hk Hr.
  { exists dn. split_and!; [done..| |by eapply room_weaken; [|exact Hr]; cbn; lia]. by intros f ?%elem_of_nil. }
  rewrite chain_size_cons in Hr. pose proof (chain_size_nonneg cs).
  destruct (populate_flakes_spec (batch_of c) dn (k + 2 * chain_size cs) Hw Hs ltac:(lia)) as (d1 & E & W1 & X1 & C1 & R1).
  { eapply room_weaken; [|exact Hr]. lia. }
  destruct (IH d1 k W1 Hk R1) as (dn' & E' & W' & X' & C' & R'). exists dn'. rewrite fmap_cons. cbn [populate_batches]. rewrite E.
  cbn [mbind option_bind]. split_and!; [done..|by etrans| |done]. rewrite Forall_forall in C1, Hs.
  intros f [Hf|Hf]%elem_of_app; [|by apply C']. split; [by apply Hs|]. eapply covers_mono; [done|by apply Hs|by apply C1].
Qed.

Lemma history_elem cs f : f ∈ history_of cs <-> exists c, c ∈ cs /\ f ∈ batch_of c.
Proof. apply elem_of_concat_fmap. Qed.

(** Commits at different times do not conflict. *)
Lemma history_conflict_free t cs g :
  Forall chain_commit cs -> chain_times t cs -> Forall (fun c => Forall (fun f => f_t f = commit_t c) (batch_of c)) cs ->
  conflict_free (in_named g (history_of cs)).
Proof.
  intros Hcs Ht Hb a b [(ca & Hca & Ha)%history_elem Hga]%in_named_elem [(cb & Hcb & Hbb)%history_elem Hgb]%in_named_elem Hk Het.
  rewrite Forall_forall in Hcs, Hb. pose proof (Hb ca Hca) as Hta. pose proof (Hb cb Hcb) as Htb. rewrite Forall_forall in Hta, Htb.
  assert (cb = ca) as ->.
  { apply list_elem_of_lookup in Hca as [i Hi], Hcb as [j Hj]. pose proof (Ht i ca Hi). pose proof (Ht j cb Hj).
    rewrite (Hta a Ha), (Htb b Hbb) in Het. assert (i = j) as -> by lia. congruence. }
  apply (cc_conflicts _ _ _ _ _ (Hcs ca Hca) g); [by apply in_named_elem..|done|done].
Qed.

(** ** Agreement *)

Lemma chain_max_t t cs :
  chain_times t cs -> fold_left (fun m '(_, t) => Z.max m t) ((fun c => (batch_of c, commit_t c)) <$> cs) t = t + zlen cs.
Proof.
  revert t. induction cs as [|c cs IH]; intros t Ht; [unfold zlen; cbn; lia|]. rewrite fmap_cons. cbn [fold_left].
  pose proof (Ht O c eq_refl) as Hc. rewrite Z.max_r by lia. rewrite (IH (commit_t c)), zlen_cons; [lia|].
  intros i x Hx. rewrite (Ht (S i) x Hx). lia.
Qed.

(** Two ledger states tell the same: the same namespaces, graphs and time, and
    the same facts asserted in every graph, whatever number the graph has. *)
Record same_ledger (a b : LedgerState) : Prop := {
  sl_codes : sn_namespace_codes (ls_snapshot a) = sn_namespace_codes (ls_snapshot b);
  sl_mode : sn_ns_split_mode (ls_snapshot a) = sn_ns_split_mode (ls_snapshot b);
  sl_t : ledger_t a = ledger_t b;
  sl_head : ls_head_commit_id a = ls_head_commit_id b;
  sl_graphs iri : is_Some (graph_id_for_iri (sn_graph_registry (ls_snapshot a)) iri) <->
    is_Some (graph_id_for_iri (sn_graph_registry (ls_snapshot b)) iri);
  sl_default f : flake_ordinary f -> currently_asserted (ls_novelty a) 0 f = currently_asserted (ls_novelty b) 0 f;
  sl_graph iri g g' f : flake_ordinary f ->
    graph_id_for_iri (sn_graph_registry (ls_snapshot a)) iri = Some g ->
    graph_id_for_iri (sn_graph_registry (ls_snapshot b)) iri = Some g' ->
    currently_asserted (ls_novelty a) g f = currently_asserted (ls_novelty b) g' f;
}.

#[export] Instance same_ledger_equivalence : Equivalence same_ledger.
Proof.
  split.
  - intros a. split; try done. intros iri g g' f _ H H'. congruence.
  - intros a b [H1 H2 H3 H4 H5 H6 H7]. split; try done; [by intros f Hf; symmetry; apply H6|].
    intros iri g g' f Hf Hg Hg'. symmetry. by eapply H7.
  - intros a b c [H1 H2 H3 H4 H5 H6 H7] [K1 K2 K3 K4 K5 K6 K7].
    split; try congruence; [by intros iri; etrans; [apply H5|apply K5]|by intros f Hf; etrans; [apply H6|apply K6]|].
    intros iri g g' f Hf Hg Hg'. destruct (proj1 (H5 iri) (mk_is_Some _ _ Hg)) as [h Hh]. by rewrite (H7 iri g h), (K7 iri h g').
Qed.

(** The overlay a replay builds. *)
Lemma replay_overlay s st' m cs t0 :
  snapshot_wf s -> graphs_plain s -> routing s ledger_id = Ok m ->
  encode_iri_inner s (txn_meta_graph_iri ledger_id) = Ok gt ->
  sn_ns_split_mode s = mode -> sn_namespace_codes s = sn_namespace_codes (ls_snapshot st') ->
  (forall iri, is_Some (graph_id_for_iri (sn_graph_registry s) iri) <->
    is_Some (graph_id_for_iri (sn_graph_registry (ls_snapshot st')) iri)) ->
  caught_up st' (history_of cs) -> Forall chain_commit cs -> chain_times t0 cs ->
  exists nv, bulk_apply_commits (novelty_new t0) ((fun c => (batch_of c, commit_t c)) <$> cs) (rg_of m) = (nv, Ok tt) /\
    nv_t nv = t0 + zlen cs /\
    (forall g f, 0 <= g -> f ∈ graph_contents nv g -> f ∈ history_of cs) /\
    (forall f, flake_ordinary f -> currently_asserted nv 0 f = currently_asserted (ls_novelty st') 0 f) /\
    forall iri g g' f, flake_ordinary f -> graph_id_for_iri (sn_graph_registry s) iri = Some g ->
      graph_id_for_iri (sn_graph_registry (ls_snapshot st')) iri = Some g' ->
      currently_asserted nv g f = currently_asserted (ls_novelty st') g' f.
Proof.
  intros W P Er Eg Em Ec Hreg Hu Hcs Ht. pose proof (cu_wf _ _ _ _ _ _ Hu) as W'. pose proof (lw_ledger _ _ W') as Hp.
  assert (forall iri, encode_iri_inner s iri = encode_iri_inner (ls_snapshot st') iri) as Henc.
  { intros iri. apply encode_ext; [apply W'|done|by rewrite Em, (cu_mode _ _ _ _ _ _ Hu)|done]. }
  destruct (routing_spec s ledger_id W P Hp) as (m' & Er' & M1 & M2 & M3). assert (m' = m) as -> by congruence.
  assert (Forall (fun c => Forall flake_ordinary (batch_of c) /\ Forall (fun f => f_t f = commit_t c) (batch_of c)) cs) as Hb.
  { eapply Forall_impl; [exact Hcs|]. intros c Hc. destruct (batch_ok c s Hc Hp Eg) as (H1 & _ & H2 & _). done. }
  assert (concat (fst <$> ((fun c => (batch_of c, commit_t c)) <$> cs)) = history_of cs) as Eh
    by (by unfold history_of; rewrite <- list_fmap_compose).
  destruct (bulk_apply_ok (rg_of m) ((fun c => (batch_of c, commit_t c)) <$> cs) (novelty_new t0)) as (nv & Eb & Et).
  { rewrite Eh. apply Forall_forall. intros f Hf. unfold graph_of. destruct (f_g f) as [sid|] eqn:Es; [|by eexists].
    destruct (cu_routes _ _ _ _ _ _ Hu f sid Hf Es) as (iri & g' & Hg' & Ei).
    destruct (proj2 (Hreg iri) (mk_is_Some _ _ Hg')) as [g Hg]. destruct (M2 iri g Hg) as (sid' & Ei' & Hm).
    rewrite Henc in Ei'. assert (sid' = sid) as -> by congruence. by exists g. }
  exists nv. split; [done|]. split; [rewrite Et; by apply chain_max_t|].
  assert (forall g, routed_to (rg_of m) g (history_of cs) = bulk_history (novelty_new t0) (rg_of m) g (history_of cs)) as Hbh.
  { intros g. unfold bulk_history. unfold graph_contents, nv_segs, slot. cbn. by rewrite lookup_nil. }
  assert (Forall flake_ordinary (history_of cs)) as Ho.
  { apply Forall_forall. intros f (c & Hc & Hf)%history_elem. rewrite Forall_forall in Hb. destruct (Hb c Hc) as [H _].
    by rewrite Forall_forall in H; apply H. }
  assert (graph_ids_u16 (rg_of m)) as Hu16 by (intros sid g Hg%M1; unfold in_u; lia).
  assert (forall x g f, routed_to (rg_of m) g (history_of cs) = in_named x (history_of cs) -> 0 <= g -> flake_ordinary f ->
    currently_asserted nv g f = asserted_in g (in_named x (history_of cs)) f) as Hfacts.
  { intros x g f Ex Hg Hf.
    pose proof (bulk_apply_spec (novelty_new t0) ((fun c => (batch_of c, commit_t c)) <$> cs) (rg_of m) g f (novelty_new_wf t0)) as H.
    rewrite Eb, Eh, <- Hbh, Ex in H. apply H; try done.
    apply (history_conflict_free t0); [done..|]. eapply Forall_impl; [exact Hb|]. by intros c []. }
  split_and!.
  - intros g f Hg Hf. pose proof (bulk_contents_incl (novelty_new t0) _ (rg_of m) nv g f (novelty_new_wf t0) Hu16 ltac:(by rewrite Eh) Hg Eb Hf) as H.
    rewrite Eh, <- Hbh in H. by apply elem_of_list_filter_b in H as [? _].
  - intros f Hf. rewrite (Hfacts None), (cu_default _ _ _ _ _ _ Hu); [done..| |done|done]. apply routed_default. intros sid g Hg%M1. lia.
  - intros iri g g' f Hf Hg Hg'. destruct (M2 iri g Hg) as (sid & Es & _).
    assert (0 < g) by (eapply registry_positive; [apply W|done]).
    rewrite (Hfacts (Some sid)), (cu_graph _ _ _ _ _ _ Hu iri g' sid f); [apply asserted_in_graph|done|done|by rewrite <- Henc| |lia|done].
    apply (routed_graph s ledger_id m iri g sid); [done..| |done|done]. apply Hreg, (cu_meta _ _ _ _ _ _ Hu).
Qed.

(** The replay of a chain, against the state that took its commits one by one. *)
Lemma replay_agrees st cs st' w t0 :
  ledger_wf ledger_id st -> sn_ns_split_mode (ls_snapshot st) = mode ->
  Forall chain_commit cs -> caught_up st' (history_of cs) -> chain_applied st cs st' -> chain_times t0 cs ->
  next_id (sn_graph_registry (ls_snapshot st)) + zlen (chain_graphs cs) < 2 ^ 16 ->
  dict_room (ls_dict_novelty st) (2 * chain_size cs) ->
  wk_snapshot w = ls_snapshot st -> wk_ns_delta w = merged_namespaces ∅ (reverse cs) ->
  wk_graph_iris w = chain_graphs (reverse cs) -> wk_batches w = raw_batch <$> cs ->
  exists s nv dn, replay (SE := SE) (RE := RE) w t0 ledger_id (ls_dict_novelty st) = Ok (s, nv, dn) /\
    sn_t s = sn_t (ls_snapshot st) /\ nv_t nv = t0 + zlen cs /\
    (forall g f, 0 <= g -> f ∈ graph_contents nv g -> f_t f <= nv_t nv /\ covers dn f) /\
    forall small ix rec tmp, t0 + zlen cs = ledger_t st' -> sn_t (ls_snapshot st) <= ledger_t st' ->
      same_ledger st' (mkLedger s nv dn small (ls_head_commit_id st') ix rec tmp).
Proof.
  intros Hw Em Hcs Hu Ha Ht Hr Hd E1 E2 E3 E4. pose proof (cu_wf _ _ _ _ _ _ Hu) as W'.
  destruct (replay_snapshot st cs st') as (s & Es & W & P & Et & Em' & Ec & Hreg); try done; [apply (cu_mode _ _ _ _ _ _ Hu)|].
  unfold replay. rewrite E1, E2, E3, E4, Es.
  assert (encode_iri_inner s (txn_meta_graph_iri ledger_id) = Ok gt) as Eg.
  { rewrite <- (cu_gt _ _ _ _ _ _ Hu). apply encode_ext; [apply W'|done|by rewrite Em', (cu_mode _ _ _ _ _ _ Hu)|done]. }
  unfold sn_encode_iri. rewrite Eg. cbn [mbind outcome_bind map_err]. rewrite (stamp_raw_batches cs Hcs).
  destruct (routing_spec s ledger_id W P (lw_ledger _ _ W')) as (m & Er & _). rewrite Er. cbn [map_err outcome_bind].
  destruct (populate_chain cs (ls_dict_novelty st) 0) as (dn & -> & Wd & Xd & Cd & _); [|apply Hw|done|done|].
  { eapply Forall_impl; [exact Hcs|]. intros c Hc. destruct (batch_ok c s Hc (lw_ledger _ _ W') Eg) as (_ & ? & _ & ?). done. }
  destruct (replay_overlay s st' m cs t0) as (nv & Eb & Tn & Hin & H0 & Hg); try done.
  cbn [mbind outcome_bind]. change (fun sid => m !! sid) with (rg_of m). rewrite Eb. exists s, nv, dn. split_and!; [done..| |].
  - intros g f Hg0 Hf%Hin; [|done]. split; [|by apply Cd]. apply history_elem in Hf as (c & Hc & Hf). rewrite Forall_forall in Hcs.
    destruct (batch_ok c s (Hcs c Hc) (lw_ledger _ _ W') Eg) as (_ & _ & Hb & _). rewrite Forall_forall in Hb. rewrite (Hb f Hf), Tn.
    apply list_elem_of_lookup in Hc as [i Hi]. rewrite (Ht i c Hi). apply lookup_lt_Some in Hi. unfold zlen. lia.
  - intros small ix rec tmp Hz Hle. split; cbn [ls_snapshot ls_novelty ls_head_commit_id]; try done.
    + by rewrite (cu_mode _ _ _ _ _ _ Hu).
    + unfold ledger_t. cbn [ls_snapshot ls_novelty]. fold (ledger_t st'). rewrite Tn, Et. lia.
    + intros f Hf. by rewrite H0.
    + intros iri g g' f Hf Hgi Hgi'. by rewrite (Hg iri g' g f).
Qed.
End chain.

(** ** Loading against catching up *)

(** The record of a ledger before any of its commits. *)
Definition unborn_record (record : NsRecord) : NsRecord :=
  mkNsRecord CL (nr_ledger_id record) None 0 (nr_index_head_id record) (nr_index_t record).

(** The chain a nameservice record describes: [cs], oldest first, the commits
    after the index, as the store gives them back. *)
Record stored_chain (get : ContentId -> outcome SE bytes) (fuel : nat) (record : NsRecord) (t0 : Z) (cs : list Commit) : Prop := {
  sc_trace : exists head, nr_commit_head_id record = Some head /\
    trace_commits_by_id get fuel head t0 = Some (Ok <$> reverse cs) /\
    (c ← last cs; id c) = Some head;
  sc_t : t0 < nr_commit_t record;
}.

(** A state without commits, ready for a chain. *)
Record base_state (ledger_id : str) (st : LedgerState) : Prop := {
  bs_wf : ledger_wf ledger_id st;
  bs_empty : ls_novelty st = novelty_new (sn_t (ls_snapshot st));
  bs_named : graphs_named never (ls_snapshot st);
  bs_meta : is_Some (graph_id_for_iri (sn_graph_registry (ls_snapshot st)) (txn_meta_graph_iri ledger_id));
}.

Lemma empty_contents t g : graph_contents (novelty_new t) g = [].
Proof. unfold graph_contents, nv_segs, slot. cbn. by rewrite lookup_nil. Qed.

Lemma base_caught_up ledger_id st gt :
  base_state ledger_id st -> encode_iri_inner (ls_snapshot st) (txn_meta_graph_iri ledger_id) = Ok gt ->
  caught_up never ledger_id (sn_ns_split_mode (ls_snapshot st)) gt st [].
Proof.
  intros [Hw He Hn Hm] Eg. split; try done.
  - by intros f ?%elem_of_nil.
  - by intros f sid ?%elem_of_nil.
  - intros g f _ Hf. rewrite He, empty_contents in Hf. by apply elem_of_nil in Hf.
  - intros f _. rewrite He. unfold currently_asserted. by rewrite empty_contents.
  - intros iri g sid f _ _ _. rewrite He. unfold currently_asserted. by rewrite empty_contents.
Qed.

(** What both loads share: the snapshot and dictionaries of the index. *)
Lemma unborn_load get decode_root fuel record st :
  load_with_store (SE := SE) (RE := RE) get decode_root fuel (unborn_record record) = Some (Ok st) ->
  forall head, nr_commit_head_id record = Some head -> sn_t (ls_snapshot st) < nr_commit_t record ->
  load_with_store get decode_root fuel record =
    (r ← load_novelty get fuel head (sn_t (ls_snapshot st)) (nr_ledger_id record) (ls_snapshot st) (ls_dict_novelty st);
     Some ('(s, nv, dn, temporal) ← r;
           Ok (mkLedger s nv dn (populate_small small_dicts_new (iter_flakes nv Post)) (Some head)
                 (nr_index_head_id record) (Some record) temporal))).
Proof.
  intros E head Hh Ht. unfold load_with_store in *. cbn [unborn_record nr_ledger_id nr_commit_head_id nr_index_head_id] in E.
  destruct (match nr_index_head_id record with Some _ => _ | None => _ end) as [[s dn]|e|]; [|done..].
  injection E as <-. cbn [ls_snapshot ls_dict_novelty] in *. rewrite Hh. apply Z.ltb_lt in Ht. by rewrite Ht.
Qed.

(** C6: Loading a ledger from its stored commits gives the state that taking
    the commits one by one gives, for commits on which the two paths agree.
    Start from the state the index alone gives, and suppose the commits after
    the index can be applied in order by [apply_single_commit], that they are
    well-formed and in the ledger's split mode, that no commit has both an
    assertion and a retraction of one fact ([bulk_loses_reassertion]) or data
    about a commit subject in the default graph ([load_moves_commit_data]),
    that the namespace of each graph is registered with the graph at the
    latest or never, and that graph and dictionary ids last. Then the bulk
    load of the same record succeeds, and the two states have the same
    namespace codes, split mode, time and head, know the same graphs, and in
    the default graph and in every named graph assert the same facts, although
    the graphs may be numbered differently; every flake of the loaded overlay
    has its ids in the loaded dictionaries. *)
Theorem reload_agrees (get : ContentId -> outcome SE bytes) (decode_root : bytes -> outcome RE LedgerSnapshotMetadata)
    (fuel : nat) (record : NsRecord) (st st' : LedgerState) (cs : list Commit) (gt : Sid) :
  let ledger_id := nr_ledger_id record in
  load_with_store get decode_root fuel (unborn_record record) = Some (Ok st) ->
  base_state ledger_id st -> encode_iri_inner (ls_snapshot st) (txn_meta_graph_iri ledger_id) = Ok gt ->
  stored_chain get fuel record (sn_t (ls_snapshot st)) cs ->
  Forall (chain_commit never ledger_id (sn_ns_split_mode (ls_snapshot st)) gt) cs ->
  namespaces_ready never (sn_ns_split_mode (ls_snapshot st)) (sn_namespace_codes (ls_snapshot st)) cs ->
  next_id (sn_graph_registry (ls_snapshot st)) + zlen (chain_graphs cs) < 2 ^ 16 ->
  dict_room (ls_dict_novelty st) (2 * chain_size cs) ->
  catch_up (SE := SE) (RE := RE) st ledger_id cs = (st', Ok tt) ->
  exists loaded, load_with_store get decode_root fuel record = Some (Ok loaded) /\ same_ledger st' loaded /\
    forall g f, 0 <= g -> f ∈ graph_contents (ls_novelty loaded) g ->
      f_t f <= ledger_t loaded /\ covers (ls_dict_novelty loaded) f.
Proof.
  intros ledger_id El Hb Eg [(head & Hh & Etr & Hlast) Hlt] Hcs Hns Hgr Hd Ec. rewrite (unborn_load _ _ _ _ _ El head Hh Hlt).
  set (mode := sn_ns_split_mode (ls_snapshot st)) in *. set (t0 := sn_t (ls_snapshot st)) in *.
  pose proof (base_caught_up ledger_id st gt Hb Eg) as Hu. fold mode in Hu.
  destruct (catch_up_chain never ledger_id mode gt cs st [] st' 0 Hu Hcs Hns Hgr ltac:(lia) Hd Ec) as [Hu' Ha].
  assert (ledger_t st = t0) as Et by (unfold ledger_t; rewrite (bs_empty _ _ Hb); cbn; fold t0; lia).
  pose proof (ca_times _ _ _ Ha) as Htimes. rewrite Et in Htimes.
  assert (Forall (keeps_mode mode) (reverse cs)) as Hk by (apply Forall_reverse; eapply Forall_impl; [exact Hcs|]; by intros c []).
  destruct (walk_stream_all ledger_id mode (reverse cs) (mkWalk (ls_snapshot st) ∅ [] [] None true) eq_refl Hk)
    as (w & Ew & W1 & W2 & W3 & W4 & _). cbn [wk_snapshot wk_ns_delta wk_graph_iris wk_batches] in W1, W2, W3, W4.
  rewrite app_nil_r, fmap_reverse, reverse_involutive in W4.
  destruct (replay_agrees ledger_id mode gt st cs st' w t0 (bs_wf _ _ Hb) eq_refl Hcs Hu' Ha Htimes Hgr Hd W1 W2 W3 W4)
    as (s & nv & dn & Er & Es & Tn & Hheld & Hsame).
  unfold load_novelty. rewrite Etr. cbn [mbind option_bind]. fold ledger_id t0. rewrite Ew.
  cbn [mbind outcome_bind]. rewrite Er.
  cbn [outcome_bind]. eexists. split; [done|]. pose proof (ca_t _ _ _ Ha) as Hz. rewrite Et in Hz.
  pose proof (ca_head _ _ _ Ha) as Hhead. pose proof (zlen_nonneg cs). split.
  - destruct (last cs) as [c|]; [|done]. cbn in Hlast. rewrite Hlast in Hhead. rewrite <- Hhead. apply Hsame; fold t0; lia.
  - intros g f Hg Hf. destruct (Hheld g f Hg Hf) as [H1 H2]. split; [|done]. unfold ledger_t. cbn. lia.
Qed.
End reload.
