(* ===== verification/SameAs.v ===== *)
(** * owl:sameAs classes (fluree-db-reasoner/src/same_as.rs)

    A union-find forest over subject ids: [sa_find] compresses the path it
    walks, [sa_union] joins two classes by rank, [finalize] freezes the classes
    for queries.  Both maps are hash maps; [SidOrder] is their iteration order.
    Indexing a map panics on a missing key and a loop over a cycle would not
    end: both are [None] here.  The fuel of a loop is the number of entries and
    one. *)
From S2P Require Import Prelude Bytes Cmp Value Dicts Segment.
From stdpp Require Import base list numbers sorting gmap relations.
From Stdlib Require Import ZArith Lia.

Local Open Scope Z_scope.

Class SidOrder := sid_iter : gmap Sid Sid -> list (Sid * Sid).
Class SidOrderLaws `{SidOrder} : Prop := sid_iter_perm : forall m, sid_iter m ≡ₚ map_to_list m.

Record SameAsTracker := mkTracker { sa_parent : gmap Sid Sid; sa_rank : gmap Sid Z }.

Definition tracker_new : SameAsTracker := mkTracker ∅ ∅.

Definition sa_ensure (t : SameAsTracker) (x : Sid) : SameAsTracker :=
  match sa_parent t !! x with
  | Some _ => t
  | None => mkTracker (<[x := x]> (sa_parent t)) (<[x := 0]> (sa_rank t))
  end.

(** The first pass of [find]. *)
Fixpoint find_root (fuel : nat) (p : gmap Sid Sid) (current : Sid) : option Sid :=
  match fuel with
  | O => None
  | S fuel =>
      next ← p !! current;
      if decide (next = current) then Some current else find_root fuel p next
  end.

(** The second pass: every node on the path points at the root. *)
Fixpoint compress (fuel : nat) (p : gmap Sid Sid) (root current : Sid) : option (gmap Sid Sid) :=
  match fuel with
  | O => None
  | S fuel =>
      next ← p !! current;
      if decide (next = root) then Some p else compress fuel (<[current := root]> p) root next
  end.

Definition path_fuel (p : gmap Sid Sid) : nat := S (size p).

Definition sa_find (t : SameAsTracker) (x : Sid) : option (Sid * SameAsTracker) :=
  let t := sa_ensure t x in
  root ← find_root (path_fuel (sa_parent t)) (sa_parent t) x;
  p ← compress (path_fuel (sa_parent t)) (sa_parent t) root x;
  Some (root, mkTracker p (sa_rank t)).

Definition sa_union (t : SameAsTracker) (x y : Sid) : option (bool * SameAsTracker) :=
  '(root_x, t) ← sa_find t x;
  '(root_y, t) ← sa_find t y;
  if decide (root_x = root_y) then Some (false, t)
  else
    rank_x ← sa_rank t !! root_x;
    rank_y ← sa_rank t !! root_y;
    Some (true,
      match rank_x ?= rank_y with
      | Lt => mkTracker (<[root_x := root_y]> (sa_parent t)) (sa_rank t)
      | Gt => mkTracker (<[root_y := root_x]> (sa_parent t)) (sa_rank t)
      | Eq => mkTracker (<[root_y := root_x]> (sa_parent t)) (<[root_x := as_u 8 (rank_x + 1)]> (sa_rank t))
      end).

Definition sa_same (t : SameAsTracker) (x y : Sid) : option (bool * SameAsTracker) :=
  '(root_x, t) ← sa_find t x;
  '(root_y, t) ← sa_find t y;
  Some (bool_decide (root_x = root_y), t).

(** The read-only lookup stops at an id without a parent. *)
Fixpoint canonical_loop (fuel : nat) (p : gmap Sid Sid) (current : Sid) : option Sid :=
  match fuel with
  | O => None
  | S fuel =>
      match p !! current with
      | Some next => if decide (next = current) then Some current else canonical_loop fuel p next
      | None => Some current
      end
  end.

Definition sa_canonical (t : SameAsTracker) (x : Sid) : option Sid :=
  canonical_loop (path_fuel (sa_parent t)) (sa_parent t) x.

Definition sa_is_empty (t : SameAsTracker) : bool :=
  forallb (fun e => bool_decide (e.1 = e.2)) (map_to_list (sa_parent t)).

Definition sa_len (t : SameAsTracker) : nat := size (sa_parent t).

(** The frozen classes. *)
Record FrozenSameAs := mkFrozen { fz_canonical : gmap Sid Sid; fz_members : gmap Sid (list Sid) }.

Definition frozen_empty : FrozenSameAs := mkFrozen ∅ ∅.

Definition frozen_canonical (f : FrozenSameAs) (x : Sid) : Sid := default x (fz_canonical f !! x).

Definition frozen_expand (f : FrozenSameAs) (x : Sid) : list Sid :=
  match fz_canonical f !! x with
  | Some root => default [] (fz_members f !! root)
  | None => []
  end.

Definition frozen_contains (f : FrozenSameAs) (x : Sid) : bool := bool_decide (is_Some (fz_canonical f !! x)).
Definition num_classes (f : FrozenSameAs) : nat := size (fz_members f).
Definition num_elements (f : FrozenSameAs) : nat := size (fz_canonical f).
Definition frozen_is_empty (f : FrozenSameAs) : bool := bool_decide (fz_members f = ∅).

Section orders.
Context `{SO : SidOrder, SL : SortLib}.

Fixpoint find_all (t : SameAsTracker) (elements : list Sid) : option SameAsTracker :=
  match elements with
  | [] => Some t
  | x :: elements => '(_, t) ← sa_find t x; find_all t elements
  end.

Definition compress_all (t : SameAsTracker) : option SameAsTracker :=
  find_all t (sid_iter (sa_parent t)).*1.

(** [element_to_root] of [finalize]. *)
Fixpoint collect_roots (t : SameAsTracker) (elements : list Sid) (roots : gmap Sid Sid) : option (gmap Sid Sid) :=
  match elements with
  | [] => Some roots
  | x :: elements =>
      '(root, t) ← sa_find t x;
      collect_roots t elements (<[x := root]> roots)
  end.

Definition push_member (m : gmap Sid (list Sid)) (e : Sid * Sid) : gmap Sid (list Sid) :=
  <[e.2 := default [] (m !! e.2) ++ [e.1]]> m.

Definition finalize (t : SameAsTracker) : option FrozenSameAs :=
  element_to_root ← collect_roots t (sid_iter (sa_parent t)).*1 ∅;
  let root_to_members := fold_left push_member (sid_iter element_to_root) ∅ in
  Some (mkFrozen element_to_root (sort_by sid_cmp <$> root_to_members)).
End orders.

(** ** Forests *)

Inductive root_of (p : gmap Sid Sid) : Sid -> Sid -> Prop :=
| root_here x : p !! x = Some x -> root_of p x x
| root_up x y r : p !! x = Some y -> x <> y -> root_of p y r -> root_of p x r.

Definition rank_at (rk : gmap Sid Z) (x : Sid) : Z := default 0 (rk !! x).

(** Ranks rise towards the root, and a root of rank [k] has at least [2 ^ k]
    ids below it. *)
Record forest (p : gmap Sid Sid) (rk : gmap Sid Z) : Prop := {
  fo_dom x : is_Some (rk !! x) <-> is_Some (p !! x);
  fo_up x y : p !! x = Some y -> x <> y -> is_Some (p !! y) /\ rank_at rk x < rank_at rk y;
  fo_size r : p !! r = Some r ->
    0 <= rank_at rk r /\ exists l, NoDup l /\ Forall (fun z => root_of p z r) l /\ 2 ^ rank_at rk r <= zlen l;
}.

Lemma root_of_fix p x r : root_of p x r -> p !! r = Some r.
Proof. by induction 1. Qed.

Lemma root_of_tracked p x r : root_of p x r -> is_Some (p !! x).
Proof. destruct 1; by eexists. Qed.

Lemma root_of_det p x r r' : root_of p x r -> root_of p x r' -> r = r'.
Proof.
  intros H. revert r'. induction H as [x Hx|x y r Hx Hne H IH]; intros r'; destruct 1; try done; try congruence.
  apply IH. congruence.
Qed.

Section forest_laws.
Context (p : gmap Sid Sid) (rk : gmap Sid Z) (F : forest p rk).

Definition above (x : Sid) : nat := size (filter (fun kv : Sid * Z => rank_at rk x < kv.2) rk).

Lemma above_up x y : p !! x = Some y -> x <> y -> (above y < above x)%nat.
Proof.
  intros Hx Hne. destruct (fo_up _ _ F x y Hx Hne) as [Hy%(fo_dom _ _ F) Hlt]. destruct Hy as [b Hb].
  assert (rank_at rk y = b) as Eb by (unfold rank_at; by rewrite Hb).
  apply map_subset_size. apply map_subset_alt. split.
  - apply map_subseteq_spec. intros k v. rewrite !map_lookup_filter_Some. cbn. intros [? ?]. split; [done|]. lia.
  - exists y. split; [apply map_lookup_filter_None|]; [right|].
    + intros v Hv. cbn. rewrite Hb in Hv. injection Hv as <-. lia.
    + exists b. apply map_lookup_filter_Some. cbn. split; [done|]. lia.
Qed.

Lemma above_fuel x : (above x < path_fuel p)%nat.
Proof.
  assert (size rk = size p) as E.
  { rewrite <- !size_dom. f_equal. apply set_eq. intros z. rewrite !elem_of_dom. apply (fo_dom _ _ F). }
  unfold above, path_fuel. pose proof (map_subseteq_size _ _ (map_filter_subseteq (fun kv : Sid * Z => rank_at rk x < kv.2) rk)). lia.
Qed.

(** The loops end at the root. *)
Lemma find_root_spec fuel : forall x, is_Some (p !! x) -> (above x < fuel)%nat ->
  exists r, find_root fuel p x = Some r /\ root_of p x r.
Proof.
  induction fuel as [|fuel IH]; intros x [y Hx] Hf; [lia|]. cbn [find_root]. rewrite Hx. cbn [mbind option_bind].
  destruct (decide (y = x)) as [->|Hne]; [exists x; split; [done|by constructor]|].
  pose proof (above_up x y Hx ltac:(done)). destruct (fo_up _ _ F x y Hx ltac:(done)) as [Hy _].
  destruct (IH y Hy ltac:(lia)) as (r & -> & Hr). exists r. split; [done|]. by apply (root_up p x y).
Qed.

Lemma canonical_loop_spec fuel : forall x, (above x < fuel)%nat ->
  exists r, canonical_loop fuel p x = Some r /\ (root_of p x r \/ p !! x = None /\ r = x).
Proof.
  induction fuel as [|fuel IH]; intros x Hf; [lia|]. cbn [canonical_loop].
  destruct (p !! x) as [y|] eqn:Hx; [|exists x; auto].
  destruct (decide (y = x)) as [->|Hne]; [exists x; split; [done|left; by constructor]|].
  pose proof (above_up x y Hx ltac:(done)). destruct (fo_up _ _ F x y Hx ltac:(done)) as [[z Hy] _].
  destruct (IH y ltac:(lia)) as (r & -> & [Hr|[Hr _]]); [|congruence]. exists r. split; [done|]. left. by apply (root_up p x y).
Qed.

Lemma root_of_exists x : is_Some (p !! x) -> exists r, root_of p x r.
Proof. intros Hx. destruct (find_root_spec (path_fuel p) x Hx (above_fuel x)) as (r & _ & Hr). by exists r. Qed.

Lemma root_of_rank x r : root_of p x r -> x = r \/ rank_at rk x < rank_at rk r.
Proof.
  induction 1 as [x Hx|x y r Hx Hne H IH]; [by left|right]. destruct (fo_up _ _ F x y Hx Hne) as [_ Hlt].
  destruct IH as [->|IH]; [done|lia].
Qed.

(** Ranks stay small. *)
Lemma rank_bound r : p !! r = Some r -> 2 ^ rank_at rk r <= Z.of_nat (size p).
Proof.
  intros Hr. destruct (fo_size _ _ F r Hr) as (_ & l & Hn & Hl & Hz). etrans; [exact Hz|]. unfold zlen. apply Nat2Z.inj_le.
  rewrite <- size_dom, <- (size_list_to_set (C := gset Sid) l Hn). apply subseteq_size. intros z Hz'%elem_of_list_to_set.
  rewrite Forall_forall in Hl. apply elem_of_dom. by eapply root_of_tracked, Hl.
Qed.

(** Redirecting a node to its root changes no root. *)
Lemma redirect_root x r : root_of p x r -> x <> r -> forall z s, root_of p z s <-> root_of (<[x := r]> p) z s.
Proof.
  intros Hx Hne z s. assert (p !! r = Some r) as Hr by by eapply root_of_fix. split; intros H.
  - induction H as [z Hz|z y s Hz Hzy H IH].
    + constructor. destruct (decide (x = z)) as [->|]; [|by rewrite lookup_insert_ne].
      exfalso. apply Hne. eapply root_of_det; [by constructor|done].
    + destruct (decide (x = z)) as [->|].
      * assert (s = r) as -> by (eapply root_of_det; [by apply (root_up p z y)|done]).
        apply (root_up _ z r); [by rewrite lookup_insert_eq|done|]. constructor. by rewrite lookup_insert_ne.
      * apply (root_up _ z y); [by rewrite lookup_insert_ne|done|done].
  - induction H as [z Hz|z y s Hz Hzy H IH].
    + destruct (decide (x = z)) as [->|]; [|rewrite lookup_insert_ne in Hz by done; by constructor].
      rewrite lookup_insert_eq in Hz. congruence.
    + destruct (decide (x = z)) as [->|].
      * rewrite lookup_insert_eq in Hz. injection Hz as ->. assert (s = y) as ->; [|done].
        eapply root_of_det; [exact IH|by constructor].
      * rewrite lookup_insert_ne in Hz by done. by apply (root_up _ z y).
Qed.

Lemma redirect_forest x r : root_of p x r -> x <> r -> forest (<[x := r]> p) rk.
Proof.
  intros Hx Hne. pose proof (root_of_tracked _ _ _ Hx) as Ht. assert (p !! r = Some r) as Hr by by eapply root_of_fix. split.
  - intros z. rewrite (fo_dom _ _ F). destruct (decide (x = z)) as [->|]; [rewrite lookup_insert_eq|by rewrite lookup_insert_ne].
    split; [by eexists|done].
  - intros z y Hz Hzy. destruct (decide (x = z)) as [->|].
    + rewrite lookup_insert_eq in Hz. injection Hz as <-. rewrite lookup_insert_ne by done. split; [by eexists|].
      by destruct (root_of_rank z r Hx).
    + rewrite lookup_insert_ne in Hz by done. destruct (fo_up _ _ F z y Hz Hzy) as [Hy Hlt]. split; [|done].
      destruct (decide (x = y)) as [->|]; [rewrite lookup_insert_eq; by eexists|by rewrite lookup_insert_ne].
  - intros s Hs. destruct (decide (x = s)) as [->|]; [rewrite lookup_insert_eq in Hs; congruence|].
    rewrite lookup_insert_ne in Hs by done. destruct (fo_size _ _ F s Hs) as (H0 & l & Hn & Hl & Hz). split; [done|].
    exists l. split_and!; [done| |done]. eapply Forall_impl; [exact Hl|]. intros z. by apply redirect_root.
Qed.
End forest_laws.

(** The same roots, over the same ids. *)
Definition same_roots (p q : gmap Sid Sid) : Prop :=
  (forall z s, root_of p z s <-> root_of q z s) /\ forall z, is_Some (p !! z) <-> is_Some (q !! z).

#[export] Instance same_roots_equivalence : Equivalence same_roots.
Proof.
  split.
  - by intros p.
  - intros p q [H1 H2]. split; intros; symmetry; auto.
  - intros p q r [H1 H2] [K1 K2]. split; intros; [by rewrite H1|by rewrite H2].
Qed.

Lemma compress_spec rk fuel : forall p x r, forest p rk -> root_of p x r -> (above rk x < fuel)%nat ->
  exists q, compress fuel p r x = Some q /\ forest q rk /\ same_roots p q.
Proof.
  induction fuel as [|fuel IH]; intros p x r F Hx Hf; [lia|]. cbn [compress].
  destruct (root_of_tracked _ _ _ Hx) as [y Hy]. rewrite Hy. cbn [mbind option_bind].
  destruct (decide (y = r)) as [->|Hne]; [by exists p|].
  assert (x <> r) as Hxr. { intros ->. apply Hne. apply root_of_fix in Hx. congruence. }
  assert (x <> y) as Hxy. { intros ->. apply Hxr. eapply root_of_det; [by constructor|done]. }
  assert (root_of p y r) as Hyr. { destruct Hx as [x Hx|x y' r Hx _ H]; [done|]. congruence. }
  pose proof (above_up p rk F x y Hy Hxy).
  destruct (IH (<[x := r]> p) y r) as (q & E & Fq & Hq); [by apply redirect_forest|by apply (redirect_root p x r)|lia|].
  exists q. split_and!; [done|done|]. etrans; [|exact Hq]. split; [by apply redirect_root|].
  intros z. destruct (decide (x = z)) as [->|]; [rewrite lookup_insert_eq|by rewrite lookup_insert_ne]. by rewrite Hy.
Qed.

Definition tracker_wf (t : SameAsTracker) : Prop := forest (sa_parent t) (sa_rank t).

(** A fresh id is a class of its own. *)
Lemma insert_fresh_root p x : p !! x = None -> (forall z y, p !! z = Some y -> is_Some (p !! y)) ->
  forall z s, root_of (<[x := x]> p) z s <-> root_of p z s \/ z = x /\ s = x.
Proof.
  intros Hx Hc z s. split.
  - induction 1 as [z Hz|z y s Hz Hne H IH].
    + destruct (decide (x = z)) as [->|]; [by right|]. rewrite lookup_insert_ne in Hz by done. left. by constructor.
    + destruct (decide (x = z)) as [->|]; [rewrite lookup_insert_eq in Hz; congruence|]. rewrite lookup_insert_ne in Hz by done.
      left. destruct IH as [IH|[-> ->]]; [by apply (root_up p z y)|]. apply Hc in Hz as [? ?]. congruence.
  - intros [H|[-> ->]]; [|constructor; by rewrite lookup_insert_eq].
    induction H as [z Hz|z y s Hz Hne H IH]; [constructor|apply (root_up _ z y); try done];
      rewrite lookup_insert_ne by congruence; done.
Qed.

Lemma forest_closed p rk : forest p rk -> forall z y, p !! z = Some y -> is_Some (p !! y).
Proof. intros F z y Hz. destruct (decide (z = y)) as [->|]; [by eexists|by apply (fo_up _ _ F z y)]. Qed.

Lemma ensure_spec t x : tracker_wf t ->
  let t' := sa_ensure t x in
  tracker_wf t' /\ is_Some (sa_parent t' !! x) /\
  (forall z s, root_of (sa_parent t') z s <-> root_of (sa_parent t) z s \/ sa_parent t !! x = None /\ z = x /\ s = x) /\
  forall z, is_Some (sa_parent t' !! z) <-> is_Some (sa_parent t !! z) \/ z = x.
Proof.
  intros F. unfold sa_ensure. destruct (sa_parent t !! x) as [y|] eqn:Hx; cbn zeta.
  { split_and!; [done|by eexists|naive_solver|]. intros z. split; [by left|]. intros [?| ->]; [done|by eexists]. }
  pose proof (insert_fresh_root _ x Hx (forest_closed _ _ F)) as Hroot.
  assert (forall z, is_Some (sa_parent t !! z) -> x <> z) as Hne by (intros z [? ?] <-; congruence).
  assert (forall z, rank_at (<[x := 0]> (sa_rank t)) z = if decide (z = x) then 0 else rank_at (sa_rank t) z) as Hrank.
  { intros z. unfold rank_at. destruct (decide (z = x)) as [->|]; [by rewrite lookup_insert_eq|by rewrite lookup_insert_ne]. }
  split_and!; cbn [sa_parent sa_rank]; [|rewrite lookup_insert_eq; by eexists|intros z s; rewrite Hroot; naive_solver|].
  - split; cbn [sa_parent sa_rank].
    + intros z. rewrite !lookup_insert_is_Some, (fo_dom _ _ F). done.
    + intros z y Hz Hzy. destruct (decide (x = z)) as [->|]; [rewrite lookup_insert_eq in Hz; congruence|].
      rewrite lookup_insert_ne in Hz by done. destruct (fo_up _ _ F z y Hz Hzy) as [Hy Hlt].
      rewrite !Hrank, !decide_False by (auto using not_eq_sym). split; [|done]. rewrite lookup_insert_ne by auto. done.
    + intros r Hr. rewrite Hrank. destruct (decide (r = x)) as [->|].
      * split; [done|]. exists [x]. split_and!; [apply NoDup_singleton| |done]. constructor; [|done]. apply Hroot. by right.
      * rewrite lookup_insert_ne in Hr by done. destruct (fo_size _ _ F r Hr) as (H0 & l & Hn & Hl & Hz). split; [done|].
        exists l. split_and!; [done| |done]. eapply Forall_impl; [exact Hl|]. intros z Hz'. apply Hroot. by left.
  - intros z. rewrite lookup_insert_is_Some'. naive_solver.
Qed.

(** ** The operations *)

Lemma sa_find_spec t x : tracker_wf t ->
  exists r t', sa_find t x = Some (r, t') /\ tracker_wf t' /\ root_of (sa_parent t') x r /\
    (forall z s, root_of (sa_parent t') z s <-> root_of (sa_parent t) z s \/ sa_parent t !! x = None /\ z = x /\ s = x) /\
    forall z, is_Some (sa_parent t' !! z) <-> is_Some (sa_parent t !! z) \/ z = x.
Proof.
  intros F. destruct (ensure_spec t x F) as (F1 & Hx & Hr & Hd). unfold sa_find. set (t1 := sa_ensure t x) in *.
  destruct (find_root_spec _ _ F1 (path_fuel (sa_parent t1)) x Hx (above_fuel _ _ F1 x)) as (r & E & Hxr). rewrite E.
  cbn [mbind option_bind].
  destruct (compress_spec _ (path_fuel (sa_parent t1)) _ x r F1 Hxr (above_fuel _ _ F1 x)) as (q & E' & Fq & [Q1 Q2]). rewrite E'.
  exists r, (mkTracker q (sa_rank t1)). cbn [sa_parent]. split_and!; [done|exact Fq|by apply Q1| |].
  - intros z s. by rewrite <- Q1, Hr.
  - intros z. by rewrite <- Q2, Hd.
Qed.

(** Hanging a root below another. *)
Lemma link_root p a b : p !! a = Some a -> p !! b = Some b -> a <> b ->
  forall z s, root_of (<[a := b]> p) z s <-> (root_of p z s /\ s <> a) \/ (root_of p z a /\ s = b).
Proof.
  intros Ha Hb Hab z s. split.
  - induction 1 as [z Hz|z y s Hz Hne H IH].
    + destruct (decide (a = z)) as [->|]; [rewrite lookup_insert_eq in Hz; congruence|].
      rewrite lookup_insert_ne in Hz by done. left. split; [by constructor|done].
    + destruct (decide (a = z)) as [->|].
      * rewrite lookup_insert_eq in Hz. injection Hz as <-. right. split; [by constructor|].
        destruct IH as [[IH _]|[IH _]]; eapply root_of_det in IH; try by constructor; congruence. all: congruence.
      * rewrite lookup_insert_ne in Hz by done. destruct IH as [[IH ?]|[IH ->]]; [left|right]; (split; [|done]); by apply (root_up p z y).
  - assert (root_of (<[a := b]> p) b b) as Hbb by (constructor; by rewrite lookup_insert_ne).
    intros [[H Hs]|[H ->]].
    + induction H as [z Hz|z y s Hz Hne H IH]; [constructor; by rewrite lookup_insert_ne|].
      destruct (decide (a = z)) as [->|]; [congruence|]. apply (root_up _ z y); [by rewrite lookup_insert_ne|done|by apply IH].
    + remember a as r eqn:Er in H. induction H as [z Hz|z y s Hz Hne H IH]; subst.
      * apply (root_up _ a b); [by rewrite lookup_insert_eq|done|done].
      * destruct (decide (a = z)) as [->|]; [congruence|]. apply (root_up _ z y); [by rewrite lookup_insert_ne|done|by apply IH].
Qed.

Lemma link_forest p rk a b k :
  forest p rk -> p !! a = Some a -> p !! b = Some b -> a <> b ->
  rank_at rk a < k -> rank_at rk b <= k -> 2 ^ k <= 2 ^ rank_at rk a + 2 ^ rank_at rk b ->
  forest (<[a := b]> p) (<[b := k]> rk).
Proof.
  intros F Ha Hb Hab Hak Hbk Hk. pose proof (link_root p a b Ha Hb Hab) as Hroot.
  assert (forall z, rank_at (<[b := k]> rk) z = if decide (z = b) then k else rank_at rk z) as Hrank.
  { intros z. unfold rank_at. destruct (decide (z = b)) as [->|]; [by rewrite lookup_insert_eq|by rewrite lookup_insert_ne]. }
  split.
  - intros z. rewrite !lookup_insert_is_Some', (fo_dom _ _ F). naive_solver.
  - intros z y Hz Hzy. rewrite lookup_insert_is_Some', !Hrank. destruct (decide (a = z)) as [->|].
    { rewrite lookup_insert_eq in Hz. injection Hz as <-. rewrite decide_False, decide_True by done. split; [right; by eexists|done]. }
    rewrite lookup_insert_ne in Hz by done. destruct (fo_up _ _ F z y Hz Hzy) as [Hy Hlt]. split; [by right|].
    rewrite (decide_False (P := z = b)) by congruence. destruct (decide (y = b)) as [->|]; lia.
  - intros r Hr. destruct (decide (a = r)) as [->|]; [rewrite lookup_insert_eq in Hr; congruence|]. rewrite lookup_insert_ne in Hr by done.
    destruct (fo_size _ _ F r Hr) as (Hr0 & lr & Hnr & Hlr & Hzr). rewrite Hrank. destruct (decide (r = b)) as [->|].
    + destruct (fo_size _ _ F a Ha) as (Ha0 & la & Hna & Hla & Hza). split; [lia|]. exists (la ++ lr).
      rewrite Forall_forall in Hla, Hlr. split_and!.
      * apply NoDup_app. split_and!; [done| |done]. intros z H1%Hla H2%Hlr. apply Hab. by eapply root_of_det.
      * apply Forall_app. split; apply Forall_forall; intros z Hz; apply Hroot; [right; by split; [apply Hla|]|left].
        split; [by apply Hlr|done].
      * rewrite zlen_app. lia.
    + split; [done|]. exists lr. split_and!; [done| |done]. eapply Forall_impl; [exact Hlr|]. intros z Hz. apply Hroot. left. auto.
Qed.

(** ** Classes *)

(** The equivalence the unions generate. *)
Definition connected (E : list (Sid * Sid)) : Sid -> Sid -> Prop := rtsc (fun x y => (x, y) ∈ E).

Definition together (p : gmap Sid Sid) (x y : Sid) : Prop := x = y \/ exists r, root_of p x r /\ root_of p y r.

Record represents (E : list (Sid * Sid)) (t : SameAsTracker) : Prop := {
  re_wf : tracker_wf t;
  re_classes x y : connected E x y <-> together (sa_parent t) x y;
}.

#[export] Instance together_equivalence p : Equivalence (together p).
Proof.
  split.
  - intros x. by left.
  - intros x y [->|(r & ? & ?)]; [by left|right]. by exists r.
  - intros x y z [->|(r & H1 & H2)] [->|(s & H3 & H4)]; [by left|right; by exists s|right; by exists r|right].
    exists s. split; [|done]. by rewrite <- (root_of_det _ _ _ _ H2 H3).
Qed.

Lemma connected_least E (R : Sid -> Sid -> Prop) `{!Equivalence R} :
  (forall x y, (x, y) ∈ E -> R x y) -> forall x y, connected E x y -> R x y.
Proof.
  intros HR x y. induction 1 as [x|x y z [H|H] _ IH]; [done|..].
  - etrans; [by apply HR|done].
  - etrans; [symmetry; by apply HR|done].
Qed.

Lemma connected_mono E E' x y : E ⊆ E' -> connected E x y -> connected E' x y.
Proof. intros HE. apply connected_least; [apply _|]. intros a b H. apply rtsc_lr, HE, H. Qed.

Lemma find_represents E t x :
  represents E t -> exists r t', sa_find t x = Some (r, t') /\ represents E t' /\ root_of (sa_parent t') x r /\
    (forall z s, root_of (sa_parent t) z s -> root_of (sa_parent t') z s) /\
    forall z, is_Some (sa_parent t' !! z) <-> is_Some (sa_parent t !! z) \/ z = x.
Proof.
  intros [F H]. destruct (sa_find_spec t x F) as (r & t' & E1 & F' & Hr & Hroot & Hd). exists r, t'.
  split_and!; [done| |done|intros z s Hz; apply Hroot; by left|done]. split; [done|]. intros a b. rewrite H. unfold together. split.
  - intros [->|(s & H1 & H2)]; [by left|right]. exists s. rewrite !Hroot. auto.
  - intros [->|(s & H1 & H2)]; [by left|]. rewrite Hroot in H1, H2.
    destruct H1 as [H1|(Hn & E2 & E3)], H2 as [H2|(Hn' & E4 & E5)]; [right; by exists s| | |left; congruence];
      exfalso; [apply root_of_fix in H1|apply root_of_fix in H2]; congruence.
Qed.

(** Linking the roots of two ids adds the pair. *)
Lemma link_represents E p q x y a b :
  (forall u v, connected E u v <-> together p u v) -> root_of p x a -> root_of p y b -> a <> b ->
  (q = <[a := b]> p \/ q = <[b := a]> p) -> forall u v, connected (E ++ [(x, y)]) u v <-> together q u v.
Proof.
  intros H Hx Hy Hab Hq. assert (p !! a = Some a) as Ha by by eapply root_of_fix. assert (p !! b = Some b) as Hb by by eapply root_of_fix.
  assert (exists c, (c = a \/ c = b) /\ forall z s, root_of q z s <->
    (root_of p z s /\ s <> a /\ s <> b) \/ ((root_of p z a \/ root_of p z b) /\ s = c)) as (c & Hc & Hroot).
  { destruct Hq as [->| ->]; [exists b|exists a]; (split; [auto|]); intros z s; rewrite link_root by done; split.
    - destruct (decide (s = b)) as [->|]; naive_solver.
    - intros [(H1 & H2 & H3)|[[H1|H1] ->]]; [by left|by right|left; by split].
    - destruct (decide (s = a)) as [->|]; naive_solver.
    - intros [(H1 & H2 & H3)|[[H1|H1] ->]]; [by left|left; by split|by right]. }
  intros u v. split.
  - apply connected_least; [apply _|]. intros z w [Hin|Hin]%elem_of_app.
    + assert (together p z w) as [->|(r & H1 & H2)] by (apply H; by apply rtsc_lr); [by left|right].
      destruct (decide (r = a)) as [->|]; [exists c|destruct (decide (r = b)) as [->|]; [exists c|exists r]]; rewrite !Hroot; naive_solver.
    + apply list_elem_of_singleton in Hin as [= -> ->]. right. exists c. rewrite !Hroot. naive_solver.
  - assert (forall z w, together p z w -> connected (E ++ [(x, y)]) z w) as Hold.
    { intros z w Hzw%H. by eapply connected_mono; [apply list_subseteq_app_l; reflexivity|]. }
    assert (connected (E ++ [(x, y)]) x y) as Hxy by (apply rtsc_lr, elem_of_app; right; by apply list_elem_of_singleton).
    assert (forall z, root_of p z a \/ root_of p z b -> connected (E ++ [(x, y)]) z x) as Hz.
    { intros z [Hz|Hz]; [apply Hold; right; by exists a|]. etrans; [apply (Hold z y); right; by exists b|by symmetry]. }
    intros [->|(r & H1 & H2)]; [done|]. rewrite Hroot in H1, H2.
    destruct H1 as [(H1 & ? & ?)|[H1 ->]], H2 as [(H2 & ? & ?)|[H2 E2]]; try (destruct Hc; congruence).
    + apply Hold. right. by exists r.
    + etrans; [by apply Hz|]. symmetry. by apply Hz.
Qed.

Lemma dom_grow (p q : gmap Sid Sid) x :
  (forall z, is_Some (q !! z) <-> is_Some (p !! z) \/ z = x) -> (size q <= S (size p))%nat.
Proof.
  intros H. rewrite <- !size_dom. assert (dom q ⊆ dom p ∪ {[x]}) as Hs.
  { intros z. rewrite elem_of_union, elem_of_singleton, !elem_of_dom. apply H. }
  apply subseteq_size in Hs. pose proof (size_union_alt (dom p) ({[x]} : gset Sid)). pose proof (size_singleton (C := gset Sid) x).
  pose proof (subseteq_size ({[x]} ∖ dom p) ({[x]} : gset Sid) ltac:(set_solver)). lia.
Qed.

(** The union by rank keeps the forest; ranks do not outgrow a byte. *)
Lemma link_union t a b ra rb :
  tracker_wf t -> sa_parent t !! a = Some a -> sa_parent t !! b = Some b -> a <> b ->
  sa_rank t !! a = Some ra -> sa_rank t !! b = Some rb -> Z.of_nat (size (sa_parent t)) < 2 ^ 255 ->
  let t' := match ra ?= rb with
            | Lt => mkTracker (<[a := b]> (sa_parent t)) (sa_rank t)
            | Gt => mkTracker (<[b := a]> (sa_parent t)) (sa_rank t)
            | Eq => mkTracker (<[b := a]> (sa_parent t)) (<[a := as_u 8 (ra + 1)]> (sa_rank t))
            end in
  tracker_wf t' /\ (sa_parent t' = <[a := b]> (sa_parent t) \/ sa_parent t' = <[b := a]> (sa_parent t)) /\
  size (sa_parent t') = size (sa_parent t).
Proof.
  intros F Ha Hb Hab Era Erb Hsz. assert (rank_at (sa_rank t) a = ra) as Ra by (unfold rank_at; by rewrite Era).
  assert (rank_at (sa_rank t) b = rb) as Rb by (unfold rank_at; by rewrite Erb).
  destruct (fo_size _ _ F a Ha) as [Ha0 _]. destruct (fo_size _ _ F b Hb) as [Hb0 _]. rewrite Ra in Ha0. rewrite Rb in Hb0.
  pose proof (rank_bound _ _ F a Ha) as Hba. rewrite Ra in Hba.
  assert (0 < 2 ^ ra) by (apply Z.pow_pos_nonneg; lia). assert (0 < 2 ^ rb) by (apply Z.pow_pos_nonneg; lia).
  assert (forall u v, is_Some (sa_parent t !! u) -> size (<[u := v]> (sa_parent t)) = size (sa_parent t)) as Hs.
  { intros u v Hu. by rewrite map_size_insert_Some. }
  destruct (Z.compare_spec ra rb) as [E|E|E]; cbn [sa_parent]; (split_and!; [|auto|apply Hs; by eexists]).
  - assert (ra < 255) by (apply (Z.pow_lt_mono_r_iff 2); lia).
    rewrite as_u_id by (unfold in_u; lia). apply link_forest; try done; rewrite ?Ra, ?Rb; try lia.
    rewrite <- E, Z.pow_add_r by lia. lia.
  - unfold tracker_wf. cbn. rewrite <- (insert_id (sa_rank t) b rb) by done. apply link_forest; try done; rewrite ?Ra, ?Rb; lia.
  - unfold tracker_wf. cbn. rewrite <- (insert_id (sa_rank t) a ra) by done. apply link_forest; try done; rewrite ?Ra, ?Rb; lia.
Qed.

Lemma union_represents E t x y :
  represents E t -> Z.of_nat (size (sa_parent t) + 2) < 2 ^ 255 ->
  exists b t', sa_union t x y = Some (b, t') /\ represents (E ++ [(x, y)]) t' /\ (b = true <-> ~ connected E x y) /\
    (size (sa_parent t') <= size (sa_parent t) + 2)%nat.
Proof.
  intros Hre Hsz. unfold sa_union. destruct (find_represents E t x Hre) as (a & t1 & -> & R1 & Hx & _ & D1). cbn [mbind option_bind].
  destruct (find_represents E t1 y R1) as (b & t2 & -> & [F2 H2] & Hy & Hkeep & D2). cbn [mbind option_bind].
  pose proof (dom_grow _ _ _ D1) as S1. pose proof (dom_grow _ _ _ D2) as S2. apply Hkeep in Hx. clear Hkeep R1.
  destruct (decide (a = b)) as [->|Hab].
  { exists false, t2. split_and!; [done| |split; [done|]|lia].
    - assert (connected E x y) as Hxy by (apply H2; right; by exists b). split; [done|]. intros u v. rewrite <- H2. split.
      + apply connected_least; [apply _|]. intros z w [Hin|[= -> ->]%list_elem_of_singleton]%elem_of_app; [by apply rtsc_lr|done].
      + apply connected_mono, list_subseteq_app_l. reflexivity.
    - intros []. apply H2. right. by exists b. }
  assert (sa_parent t2 !! a = Some a) as Ha by by eapply root_of_fix. assert (sa_parent t2 !! b = Some b) as Hb by by eapply root_of_fix.
  destruct (proj2 (fo_dom _ _ F2 a) (mk_is_Some _ _ Ha)) as [ra Era]. destruct (proj2 (fo_dom _ _ F2 b) (mk_is_Some _ _ Hb)) as [rb Erb].
  rewrite Era, Erb. cbn [mbind option_bind].
  assert (rank_at (sa_rank t2) a = ra) as Ra by (unfold rank_at; by rewrite Era).
  assert (rank_at (sa_rank t2) b = rb) as Rb by (unfold rank_at; by rewrite Erb).
  destruct (link_union t2 a b ra rb) as (F' & Hq & Hs); try done; [lia|].
  eexists true, _. split; [done|]. split_and!; [split; [exact F'|]| |lia].
  - by apply (link_represents E (sa_parent t2) _ x y a b).
  - split; [intros _|done]. rewrite H2. intros [->|(r & H3 & H4)]; apply Hab; [by eapply root_of_det|].
    etrans; [by eapply root_of_det|]. by eapply root_of_det.
Qed.

(** ** Runs *)

Inductive SameAsOp :=
| OpUnion (x y : Sid)
| OpFind (x : Sid)
| OpSame (x y : Sid)
| OpCompressAll.

Section runs.
Context `{SO : SidOrder, SOL : !SidOrderLaws, SL : SortLib, SLL : !SortLaws}.

Definition sa_apply (t : SameAsTracker) (op : SameAsOp) : option SameAsTracker :=
  match op with
  | OpUnion x y => snd <$> sa_union t x y
  | OpFind x => snd <$> sa_find t x
  | OpSame x y => snd <$> sa_same t x y
  | OpCompressAll => compress_all t
  end.

Fixpoint sa_run (t : SameAsTracker) (ops : list SameAsOp) : option SameAsTracker :=
  match ops with
  | [] => Some t
  | op :: ops => t ← sa_apply t op; sa_run t ops
  end.

(** The pairs that were united. *)
Definition op_pairs (op : SameAsOp) : list (Sid * Sid) :=
  match op with OpUnion x y => [(x, y)] | _ => [] end.
Definition united (ops : list SameAsOp) : list (Sid * Sid) := concat (op_pairs <$> ops).

Lemma elements_tracked (p : gmap Sid Sid) x : x ∈ (sid_iter p).*1 <-> is_Some (p !! x).
Proof.
  rewrite list_elem_of_fmap. setoid_rewrite sid_iter_perm. split.
  - intros ([k v] & -> & H%elem_of_map_to_list). by exists v.
  - intros [v Hv]. exists (x, v). split; [done|]. by apply elem_of_map_to_list.
Qed.

Lemma find_all_represents E elements : forall t, represents E t -> Forall (fun x => is_Some (sa_parent t !! x)) elements ->
  exists t', find_all t elements = Some t' /\ represents E t' /\ size (sa_parent t') = size (sa_parent t).
Proof.
  induction elements as [|x l IH]; intros t R H; [by exists t|]. apply Forall_cons in H as [Hx H]. cbn [find_all].
  destruct (find_represents E t x R) as (r & t1 & -> & R1 & _ & _ & D). cbn [mbind option_bind].
  destruct (IH t1 R1) as (t' & E' & R' & S').
  { eapply Forall_impl; [exact H|]. intros z Hz. apply D. by left. }
  exists t'. split_and!; [done|done|]. rewrite S', <- !size_dom. f_equal. apply set_eq. intros z. rewrite !elem_of_dom, D. naive_solver.
Qed.

Lemma sa_apply_represents E t op :
  represents E t -> Z.of_nat (size (sa_parent t) + 2) < 2 ^ 255 ->
  exists t', sa_apply t op = Some t' /\ represents (E ++ op_pairs op) t' /\ (size (sa_parent t') <= size (sa_parent t) + 2)%nat.
Proof.
  intros R Hsz. destruct op as [x y|x|x y|]; cbn [sa_apply op_pairs]; rewrite ?app_nil_r.
  - destruct (union_represents E t x y R Hsz) as (b & t' & -> & R' & _ & S'). by exists t'.
  - destruct (find_represents E t x R) as (r & t' & -> & R' & _ & _ & D). exists t'. apply dom_grow in D. split_and!; [done|done|lia].
  - unfold sa_same. destruct (find_represents E t x R) as (r & t1 & -> & R1 & _ & _ & D1). cbn [mbind option_bind].
    destruct (find_represents E t1 y R1) as (s & t' & -> & R' & _ & _ & D'). cbn [mbind option_bind]. exists t'.
    apply dom_grow in D1, D'. split_and!; [done|done|lia].
  - unfold compress_all. destruct (find_all_represents E (sid_iter (sa_parent t)).*1 t R) as (t' & -> & R' & S').
    { apply Forall_forall. intros x. apply elements_tracked. }
    exists t'. split_and!; [done|done|lia].
Qed.

Lemma sa_run_represents ops : forall E t,
  represents E t -> Z.of_nat (size (sa_parent t)) + 2 * zlen ops < 2 ^ 255 ->
  exists t', sa_run t ops = Some t' /\ represents (E ++ united ops) t' /\
    Z.of_nat (size (sa_parent t')) <= Z.of_nat (size (sa_parent t)) + 2 * zlen ops.
Proof.
  induction ops as [|op ops IH]; intros E t R Hsz; [exists t; unfold united; cbn; rewrite app_nil_r; split_and!; [done|done|unfold zlen; cbn; lia]|].
  rewrite zlen_cons in Hsz. pose proof (zlen_nonneg ops). cbn [sa_run].
  destruct (sa_apply_represents E t op R ltac:(lia)) as (t1 & -> & R1 & S1). cbn [mbind option_bind].
  destruct (IH _ t1 R1 ltac:(lia)) as (t' & E' & R' & S'). exists t'. rewrite <- app_assoc in R'. rewrite zlen_cons.
  split_and!; [done|done|lia].
Qed.

Lemma new_represents : represents [] tracker_new.
Proof.
  split.
  - split; cbn.
    + intros x. by rewrite !lookup_empty.
    + intros x y. by rewrite lookup_empty.
    + intros r. by rewrite lookup_empty.
  - intros x y. split.
    + apply connected_least; [apply _|]. by intros ? ? ?%elem_of_nil.
    + intros [->|(r & H & _)]; [done|]. apply root_of_tracked in H as [s H]. cbn in H. by rewrite lookup_empty in H.
Qed.

(** ** Freezing *)

Lemma collect_roots_spec elements : forall t roots, tracker_wf t -> Forall (fun x => is_Some (sa_parent t !! x)) elements ->
  exists m, collect_roots t elements roots = Some m /\
    forall x r, m !! x = Some r <-> (x ∈ elements /\ root_of (sa_parent t) x r) \/ (~ x ∈ elements /\ roots !! x = Some r).
Proof.
  induction elements as [|x l IH]; intros t roots F H.
  { exists roots. split; [done|]. intros x r. rewrite elem_of_nil. naive_solver. }
  apply Forall_cons in H as [[y Hx] H]. cbn [collect_roots].
  destruct (sa_find_spec t x F) as (s & t1 & -> & F1 & Hs & Hroot & D). cbn [mbind option_bind].
  assert (forall z r, root_of (sa_parent t1) z r <-> root_of (sa_parent t) z r) as Hsame by (intros z r; rewrite Hroot; naive_solver).
  destruct (IH t1 (<[x := s]> roots) F1) as (m & -> & Hm).
  { eapply Forall_impl; [exact H|]. intros z Hz. apply D. by left. }
  exists m. split; [done|]. intros z r. rewrite Hm, Hsame, elem_of_cons. apply Hsame in Hs. destruct (decide (z = x)) as [->|].
  - rewrite lookup_insert_eq. split.
    + intros [[? ?]|[? [= <-]]]; left; auto.
    + intros [[_ Hr]|[[] _]]; [|by left]. destruct (decide (x ∈ l)); [by left|right]. split; [done|]. f_equal. by eapply root_of_det.
  - rewrite lookup_insert_ne by done. naive_solver.
Qed.

Lemma push_members_spec l : forall m r,
  default [] (fold_left push_member l m !! r) = default [] (m !! r) ++ (filter (fun e : Sid * Sid => e.2 = r) l).*1.
Proof.
  induction l as [|[x s] l IH]; intros m r; cbn [fold_left]; [by rewrite app_nil_r|]. rewrite IH. unfold push_member at 1. cbn [fst snd].
  rewrite filter_cons. cbn [fst snd]. destruct (decide (s = r)) as [->|]; [rewrite lookup_insert_eq; cbn; by rewrite <- app_assoc|].
  by rewrite lookup_insert_ne.
Qed.

Definition sid_le (a b : Sid) : Prop := sid_cmp a b <> Gt.

(** The map of roots that [finalize] collects. *)
Definition roots_of (p m : gmap Sid Sid) : Prop := forall x r, m !! x = Some r <-> root_of p x r.

Lemma collect_all t : tracker_wf t ->
  exists m, collect_roots t (sid_iter (sa_parent t)).*1 ∅ = Some m /\ roots_of (sa_parent t) m.
Proof.
  intros F. destruct (collect_roots_spec (sid_iter (sa_parent t)).*1 t ∅ F) as (m & E & Hm).
  { apply Forall_forall. intros x. apply elements_tracked. }
  exists m. split; [done|]. intros x r. rewrite Hm, lookup_empty, elements_tracked. split; [naive_solver|].
  intros Hr. left. split; [by eapply root_of_tracked|done].
Qed.

Lemma roots_tracked p rk m x : forest p rk -> roots_of p m -> is_Some (m !! x) <-> is_Some (p !! x).
Proof.
  intros F Hroot. split; [intros [r Hr%Hroot]; by eapply root_of_tracked|]. intros Hx.
  destruct (root_of_exists _ _ F x Hx) as [r Hr]. exists r. by apply Hroot.
Qed.

(** Two ids have one representative when they are in one class; an id that is
    not tracked represents itself. *)
Lemma representative_classes p rk m x y : forest p rk -> roots_of p m ->
  default x (m !! x) = default y (m !! y) <-> together p x y.
Proof.
  intros F Hroot. pose proof (roots_tracked p rk m) as Hd.
  assert (forall a b r, m !! a = Some r -> m !! b = None -> r <> b /\ ~ together p a b) as Hout.
  { intros a b r Ea Eb. apply eq_None_not_Some in Eb. apply Hroot in Ea. split.
    - intros ->. apply Eb, Hd; [done..|]. apply root_of_fix in Ea. by eexists.
    - intros [->|(q & _ & H2)]; apply Eb, Hd; try done; by eapply root_of_tracked. }
  destruct (m !! x) as [r|] eqn:Ex, (m !! y) as [s|] eqn:Ey; cbn.
  - apply Hroot in Ex, Ey. split; [intros ->; right; by exists s|]. intros [->|(q & H1 & H2)]; [by eapply root_of_det|].
    etrans; [by eapply root_of_det|]. by eapply root_of_det.
  - destruct (Hout x y r Ex Ey). done.
  - destruct (Hout y x s Ey Ex) as [H1 H2]. split; [congruence|]. intros H. by symmetry in H.
  - split; [by left|]. intros [?|(q & H1 & _)]; [done|]. apply Hroot in H1. congruence.
Qed.

(** The members bucketed under a root, sorted. *)
Lemma members_of_root p m r : roots_of p m ->
  let l := default [] (sort_by sid_cmp <$> fold_left push_member (sid_iter m) ∅ !! r) in
  StronglySorted sid_le l /\ NoDup l /\ forall y, y ∈ l <-> root_of p y r.
Proof.
  intros Hroot. pose proof (push_members_spec (sid_iter m) ∅ r) as Hp. rewrite lookup_empty in Hp. cbn in Hp.
  set (k := (filter (fun e : Sid * Sid => e.2 = r) (sid_iter m)).*1) in Hp. intros l.
  assert (l ≡ₚ k /\ StronglySorted sid_le l) as [Hperm Hsort].
  { subst l. rewrite <- Hp. destruct (fold_left push_member (sid_iter m) ∅ !! r) as [l'|]; cbn; [|by repeat constructor].
    assert (Forall everything l') as He by by apply Forall_forall.
    split; [by apply (sort_by_perm everything); [apply _|]|by apply (sort_by_sorted everything); [apply _|]]. }
  split_and!; [done|rewrite Hperm; subst k|].
  - apply NoDup_fmap_2_strong.
    + intros [a u] [b v] [Ha _]%list_elem_of_filter [Hb _]%list_elem_of_filter. cbn in *. congruence.
    + apply NoDup_filter. rewrite sid_iter_perm. apply NoDup_map_to_list.
  - intros y. rewrite Hperm. subst k. rewrite list_elem_of_fmap. setoid_rewrite list_elem_of_filter. setoid_rewrite sid_iter_perm.
    rewrite <- (Hroot y r). split.
    + intros ([k v] & -> & E2 & Hin%elem_of_map_to_list). cbn in *. by subst.
    + intros Hy. exists (y, r). split_and!; [done..|]. by apply elem_of_map_to_list.
Qed.

Lemma finalize_spec E t : represents E t ->
  exists f, finalize t = Some f /\
    (forall x, frozen_contains f x = true <-> is_Some (sa_parent t !! x)) /\
    (forall x y, frozen_canonical f x = frozen_canonical f y <-> connected E x y) /\
    (forall x, is_Some (sa_parent t !! x) ->
      StronglySorted sid_le (frozen_expand f x) /\ NoDup (frozen_expand f x) /\
      forall y, y ∈ frozen_expand f x <-> connected E x y).
Proof.
  intros [F H]. unfold finalize. destruct (collect_all t F) as (m & -> & Hroot). cbn [mbind option_bind].
  pose proof (fun x => roots_tracked _ _ m x F Hroot) as Hd. eexists. split; [done|]. split_and!.
  - intros x. unfold frozen_contains. cbn. by rewrite bool_decide_eq_true.
  - intros x y. rewrite H. by eapply representative_classes.
  - intros x Hx. destruct (proj2 (Hd x) Hx) as [r Hr]. unfold frozen_expand. cbn. rewrite Hr, lookup_fmap. apply Hroot in Hr.
    destruct (members_of_root _ m r Hroot) as (H1 & H2 & H3). split_and!; [done..|]. intros y. rewrite H3, H.
    split; [intros Hy; right; by exists r|]. intros [<-|(s & H4 & H5)]; [done|]. by rewrite (root_of_det _ _ _ _ Hr H4).
Qed.

(** The read-only lookup agrees. *)
Lemma canonical_spec E t x y : represents E t ->
  exists a b, sa_canonical t x = Some a /\ sa_canonical t y = Some b /\ (a = b <-> connected E x y).
Proof.
  intros [F H]. unfold sa_canonical. destruct (collect_all t F) as (m & _ & Hroot).
  destruct (canonical_loop_spec _ _ F (path_fuel (sa_parent t)) x (above_fuel _ _ F x)) as (a & -> & Ha).
  destruct (canonical_loop_spec _ _ F (path_fuel (sa_parent t)) y (above_fuel _ _ F y)) as (b & -> & Hb).
  exists a, b. split_and!; [done..|]. rewrite H, <- (representative_classes _ _ m x y F Hroot).
  assert (forall z c, root_of (sa_parent t) z c \/ sa_parent t !! z = None /\ c = z -> default z (m !! z) = c) as Hdef.
  { intros z c [Hz|[Hz ->]]; [by rewrite (proj2 (Hroot z c) Hz)|]. destruct (m !! z) as [r|] eqn:Ez; [|done].
    apply Hroot, root_of_tracked in Ez as [? ?]. congruence. }
  by rewrite (Hdef x a Ha), (Hdef y b Hb).
Qed.

Lemma same_spec E t x y : represents E t ->
  exists b t', sa_same t x y = Some (b, t') /\ (b = true <-> connected E x y).
Proof.
  intros R. unfold sa_same. destruct (find_represents E t x R) as (a & t1 & -> & R1 & Hx & _). cbn [mbind option_bind].
  destruct (find_represents E t1 y R1) as (b & t2 & -> & R2 & Hy & Hkeep & _). cbn [mbind option_bind]. apply Hkeep in Hx.
  eexists _, t2. split; [done|]. rewrite bool_decide_eq_true, (re_classes _ _ R2). split.
  - intros ->. right. by exists b.
  - intros [->|(r & H1 & H2)]; [by eapply root_of_det|]. etrans; [by eapply root_of_det|]. by eapply root_of_det.
Qed.

(** Every rank fits its byte. *)
Lemma rank_small t x k : tracker_wf t -> Z.of_nat (size (sa_parent t)) < 2 ^ 255 -> sa_rank t !! x = Some k -> k < 2 ^ 8.
Proof.
  intros F Hsz Hk. assert (rank_at (sa_rank t) x = k) as Ek by (unfold rank_at; by rewrite Hk).
  destruct (root_of_exists _ _ F x) as [r Hr]; [apply (fo_dom _ _ F); by eexists|].
  pose proof (rank_bound _ _ F r (root_of_fix _ _ _ Hr)) as Hb. destruct (fo_size _ _ F r (root_of_fix _ _ _ Hr)) as [H0 _].
  assert (rank_at (sa_rank t) r < 255) by (apply (Z.pow_lt_mono_r_iff 2); lia).
  destruct (root_of_rank _ _ F x r Hr) as [->|]; lia.
Qed.

(** C14: after any operations the union-find answers the equivalence that the
    united pairs generate.  No operation panics or loops, and no rank leaves its
    byte; [union] reports a merge exactly when the two ids were not equivalent
    before, [same] and the read-only [canonical] decide equivalence; the frozen
    classes give equivalent ids one representative, and list for a tracked id its
    whole class once, sorted. *)
Theorem same_as_exact ops :
  2 * zlen ops < 2 ^ 254 ->
  exists t, sa_run tracker_new ops = Some t /\
    (forall x y, exists b t', sa_union t x y = Some (b, t') /\ (b = true <-> ~ connected (united ops) x y)) /\
    (forall x y, exists b t', sa_same t x y = Some (b, t') /\ (b = true <-> connected (united ops) x y)) /\
    (forall x y, exists a b, sa_canonical t x = Some a /\ sa_canonical t y = Some b /\ (a = b <-> connected (united ops) x y)) /\
    (forall x k, sa_rank t !! x = Some k -> k < 2 ^ 8) /\
    exists f, finalize t = Some f /\
      (forall x y, frozen_canonical f x = frozen_canonical f y <-> connected (united ops) x y) /\
      (forall x, frozen_contains f x = true ->
        StronglySorted sid_le (frozen_expand f x) /\ NoDup (frozen_expand f x) /\
        forall y, y ∈ frozen_expand f x <-> connected (united ops) x y).
Proof.
  intros Hlen. pose proof (zlen_nonneg ops). assert (2 ^ 254 + 2 < 2 ^ 255) by by vm_compute.
  destruct (sa_run_represents ops [] tracker_new new_represents) as (t & E & R & S).
  { change (size (sa_parent tracker_new)) with 0%nat. lia. }
  change (size (sa_parent tracker_new)) with 0%nat in S. change ([] ++ united ops) with (united ops) in R.
  exists t. split; [done|]. split_and!.
  - intros x y. destruct (union_represents _ t x y R ltac:(lia)) as (b & t' & Eu & _ & Hb & _). by exists b, t'.
  - intros x y. by apply same_spec.
  - intros x y. by apply canonical_spec.
  - intros x k Hx. apply (rank_small t x); [apply R|lia|done].
  - destruct (finalize_spec _ t R) as (f & Ef & F1 & F2 & F3). exists f. split_and!; [done|done|].
    intros x Hx. apply F3. by apply F1.
Qed.
End runs.
