(* ===== verification/Views.v ===== *)
(** * Overlay providers (fluree-db-core/src/overlay.rs)

    [OverlayProvider] is the trait through which a query sees flakes that are
    not in the index; what a callback is handed is the list returned, [None] a
    panic.  [OverlayContract] states what the trait's documentation asks of an
    implementation.  The implementations: no overlay, the novelty, staged flakes
    over a ledger (fluree-db-ledger/src/staged.rs), a ledger at an earlier time
    (historical.rs), the derived facts of the reasoner
    (fluree-db-reasoner/src/overlay.rs) and their combination with a base
    (fluree-db-query/src/reasoning.rs), a schema bundle over a base
    (schema_bundle.rs) and the composite of several overlays
    (fluree-db-api/src/overlay.rs).  Stamps of cached contents
    ([content_version], segment and instance ids handed out by counters) and
    [as_any] are left out. *)

From stdpp Require Import base list numbers gmap sorting.
From Stdlib Require Import ZArith Lia.
From S2P Require Import Prelude Bytes Cmp Value Flake Envelope CommitDag IriSplit NsCodes Dicts Snapshot.
From S2P Require Import FactState Segment SegmentRead Novelty NoveltyRead NoveltyApply NoveltyCompact Ledger SameAs.

Local Open Scope Z_scope.

Record OverlaySegmentMeta := mkSegmentMeta { sm_min_t : Z; sm_max_t : Z }.

Class OverlayProvider `{VL : ValueLib} (O : Type) := {
  overlay_epoch : O -> Z;
  is_effectively_empty : O -> bool;
  overlay_flakes : O -> Z -> IndexType -> option Flake -> option Flake -> bool -> Z -> option (list Flake);
  overlay_segments : O -> Z -> list OverlaySegmentMeta;
  overlay_segment_flakes : O -> Z -> nat -> IndexType -> option (list Flake);
}.

(** The trait's default methods: one segment, the whole overlay. *)
Definition whole_segment : list OverlaySegmentMeta := [mkSegmentMeta i64_min i64_max].

Section contract.
Context `{VL : ValueLib}.

Definition default_segment_flakes {O}
    (read : O -> Z -> IndexType -> option Flake -> option Flake -> bool -> Z -> option (list Flake))
    (o : O) (g : Z) (seg_idx : nat) (index : IndexType) : option (list Flake) :=
  read o g index None None true i64_max.

(** What a read is for: the flakes of a key range up to a time. *)
Definition visible (index : IndexType) (first rhs : option Flake) (leftmost : bool) (to_t : Z) (f : Flake) : bool :=
  in_range index first rhs leftmost f && (f_t f <=? to_t).

(** The lower bound does not lie above the upper one. *)
Definition bounds_ordered (index : IndexType) (first rhs : option Flake) (leftmost : bool) : Prop :=
  match leftmost, first, rhs with
  | false, Some a, Some r => cle (compare index) a r
  | _, _, _ => True
  end.

(** The answer a read owes: in index order, exactly what is visible. *)
Definition answers (index : IndexType) (first rhs : option Flake) (leftmost : bool) (to_t : Z)
    (contents : list Flake) (r : option (list Flake)) : Prop :=
  exists fl, r = Some fl /\ fl ≡ₚ List.filter (visible index first rhs leftmost to_t) contents /\
    StronglySorted (cle (compare index)) fl.

Definition flake_sound (f : Flake) : Prop := flake_ordinary f /\ i64_min <= f_t f <= i64_max.
End contract.

(** [O] keeps the trait's promises: reads answer, an overlay that says it is
    empty is, and its segments together are its contents, each in order and
    within its time span. *)
Class OverlayContract `{VL : ValueLib} (O : Type) `{!OverlayProvider O} := {
  overlay_ok : O -> Prop;
  contents : O -> Z -> list Flake;
  contents_sound o g : overlay_ok o -> in_u 16 g -> Forall flake_sound (contents o g);
  reads_answer o g index first rhs leftmost to_t :
    overlay_ok o -> in_u 16 g -> bounds_ordinary first rhs -> bounds_ordered index first rhs leftmost ->
    answers index first rhs leftmost to_t (contents o g) (overlay_flakes o g index first rhs leftmost to_t);
  empty_is_empty o g : overlay_ok o -> in_u 16 g -> is_effectively_empty o = true -> contents o g = [];
  segments_answer o g index : overlay_ok o -> in_u 16 g ->
    exists ls, mapM (fun i => overlay_segment_flakes o g i index) (seq 0 (length (overlay_segments o g))) = Some ls /\
      concat ls ≡ₚ contents o g /\
      Forall2 (fun m fl => StronglySorted (cle (compare index)) fl /\ Forall (fun f => sm_min_t m <= f_t f <= sm_max_t m) fl)
        (overlay_segments o g) ls;
}.

(** ** Merging *)
Section merging.
Context `{VL : ValueLib}.

(** The linear merge of two sorted sequences, the left one first on ties. *)
Fixpoint merge_by (index : IndexType) (base : list Flake) : list Flake -> list Flake :=
  fix go other :=
    match base, other with
    | [], _ => other
    | _, [] => base
    | b :: base', o :: other' =>
        if not_greater (compare index b o) then b :: merge_by index base' other else o :: go other'
    end.

(** [partition_point(|f| cmp(f, target).is_le())]. *)
Definition upper_bound (index : IndexType) (fl : list Flake) (target : Flake) : nat :=
  partition_point (fun f => not_greater (compare index f target)) fl.

(** The positions of a key range in a sorted slice. *)
Definition range_positions (index : IndexType) (fl : list Flake) (first rhs : option Flake) (leftmost : bool) : nat * nat :=
  (if leftmost then 0%nat else match first with Some f => upper_bound index fl f | None => 0%nat end,
   match rhs with Some r => upper_bound index fl r | None => length fl end).

(** Flakes sorted four times. *)
Definition order_of (index : IndexType) (spot psot post opst : list Flake) : list Flake :=
  match index with Spot => spot | Psot => psot | Post => post | Opst => opst end.
End merging.

(** ** No overlay *)

Inductive NoOverlay := mkNoOverlay.

#[export] Instance no_overlay_provider `{VL : ValueLib} : OverlayProvider NoOverlay := {|
  overlay_epoch _ := 0;
  is_effectively_empty _ := true;
  overlay_flakes _ _ _ _ _ _ _ := Some [];
  overlay_segments _ _ := [];
  overlay_segment_flakes := default_segment_flakes (fun _ _ _ _ _ _ _ => Some []);
|}.

(** ** The novelty *)
Section providers.
Context `{VL : ValueLib, CL : CidLib, SL : SortLib, HO : HashOrder, AT : !Attachments}.

Definition novelty_is_empty (nv : Novelty) : bool := nv_flake_count nv =? 0.

Definition novelty_segments (nv : Novelty) (g : Z) : list OverlaySegmentMeta :=
  match nv_segs nv g with
  | Some segs => (fun s => mkSegmentMeta (seg_min_t s) (seg_max_t s)) <$> segs
  | None => []
  end.

Definition novelty_segment_flakes (nv : Novelty) (g : Z) (seg_idx : nat) (index : IndexType) : option (list Flake) :=
  match nv_segs nv g with
  | Some segs =>
      match segs !! seg_idx with
      | Some seg => mapM (fun i => seg_flakes seg !! i) (seg_order seg index)
      | None => Some []
      end
  | None => Some []
  end.

#[export] Instance novelty_provider : OverlayProvider Novelty := {|
  overlay_epoch := nv_epoch;
  is_effectively_empty := novelty_is_empty;
  overlay_flakes nv g index first rhs leftmost to_t := Some (for_each_overlay_flake nv g index first rhs leftmost to_t);
  overlay_segments := novelty_segments;
  overlay_segment_flakes := novelty_segment_flakes;
|}.

(** ** Staged flakes *)

(** The flakes of an uncommitted transaction with the graph of each, in the four
    orders; an order is a list of positions. *)
Record StagedOverlay := mkStagedOverlay {
  so_flakes : list Flake;
  so_graph_ids : list Z;
  so_spot : list nat;
  so_psot : list nat;
  so_post : list nat;
  so_opst : list nat;
}.

Inductive StagedError := UnknownGraphSid (g : Sid).

Fixpoint staged_graph_ids (reverse_graph : Sid -> option Z) (fl : list Flake) : outcome StagedError (list Z) :=
  match fl with
  | [] => Ok []
  | f :: fl =>
      g ← match f_g f with
          | None => Ok 0
          | Some sid => match reverse_graph sid with Some g => Ok g | None => Err (UnknownGraphSid sid) end
          end;
      rest ← staged_graph_ids reverse_graph fl;
      Ok (g :: rest)
  end.

(** [(0..store.len() as FlakeId)], sorted. *)
Definition staged_order (index : IndexType) (fl : list Flake) : list nat :=
  sort_by (cmp_at index fl) (seq 0 (Z.to_nat (as_u 32 (zlen fl)))).

Definition from_flakes (fl : list Flake) (reverse_graph : Sid -> option Z) : outcome StagedError StagedOverlay :=
  match fl with
  | [] => Ok (mkStagedOverlay [] [] [] [] [] [])
  | _ =>
      ids ← staged_graph_ids reverse_graph fl;
      Ok (mkStagedOverlay fl ids (staged_order Spot fl) (staged_order Psot fl) (staged_order Post fl) (staged_order Opst fl))
  end.

Definition staged_index (so : StagedOverlay) (index : IndexType) : list nat :=
  match index with Spot => so_spot so | Psot => so_psot so | Post => so_post so | Opst => so_opst so end.

(** [index.compare(self.store.get(id), f) != Greater]. *)
Definition staged_at_most (so : StagedOverlay) (index : IndexType) (f : Flake) (i : nat) : bool :=
  match so_flakes so !! i with Some x => not_greater (compare index x f) | None => false end.

Definition staged_slice (so : StagedOverlay) (index : IndexType) (first rhs : option Flake) (leftmost : bool) : list nat :=
  match staged_index so index with
  | [] => []
  | ids =>
      let start := if leftmost then 0%nat
                   else match first with Some f => partition_point (staged_at_most so index f) ids | None => 0%nat end in
      let end_ := match rhs with Some r => partition_point (staged_at_most so index r) ids | None => length ids end in
      if (end_ <=? start)%nat then [] else take (end_ - start) (drop start ids)
  end.

(** The staged flakes of a graph among the ids of a slice. *)
Definition staged_in_graph (so : StagedOverlay) (g : Z) (ids : list nat) : list Flake :=
  omap (fun i => g' ← so_graph_ids so !! i; if g' =? g then so_flakes so !! i else None) ids.

Record StagedLedger := mkStagedLedger { sg_base : LedgerState; sg_staged : StagedOverlay; sg_epoch : Z }.

Definition staged_new (base : LedgerState) (fl : list Flake) (reverse_graph : Sid -> option Z) : outcome StagedError StagedLedger :=
  staged ← from_flakes fl reverse_graph;
  Ok (mkStagedLedger base staged (nv_epoch (ls_novelty base) + 1)).

Definition staged_len (v : StagedLedger) : nat := length (so_flakes (sg_staged v)).
Definition has_staged (v : StagedLedger) : bool := negb (match so_flakes (sg_staged v) with [] => true | _ => false end).
Definition into_parts (v : StagedLedger) : LedgerState * list Flake := (sg_base v, so_flakes (sg_staged v)).

Definition staged_t (v : StagedLedger) : Z :=
  if has_staged v then ledger_t (sg_base v) + 1 else ledger_t (sg_base v).

(** The two-way merge; the time bound is checked flake by flake. *)
Definition staged_flakes (v : StagedLedger) (g : Z) (index : IndexType) (first rhs : option Flake) (leftmost : bool) (to_t : Z) :
    option (list Flake) :=
  Some (List.filter (fun f => f_t f <=? to_t)
    (merge_by index (range_flakes (ls_novelty (sg_base v)) g index first rhs leftmost)
       (staged_in_graph (sg_staged v) g (staged_slice (sg_staged v) index first rhs leftmost)))).

#[export] Instance staged_provider : OverlayProvider StagedLedger := {|
  overlay_epoch := sg_epoch;
  is_effectively_empty _ := false;
  overlay_flakes := staged_flakes;
  overlay_segments _ _ := whole_segment;
  overlay_segment_flakes := default_segment_flakes staged_flakes;
|}.

(** ** A ledger at an earlier time *)

Record HistoricalLedgerView := mkHistorical {
  hv_snapshot : LedgerSnapshot;
  hv_overlay : option Novelty;
  hv_small_dicts : option RuntimeSmallDicts;
  hv_to_t : Z;
}.

Definition historical_new (snapshot : LedgerSnapshot) (overlay : option Novelty) (to_t : Z) : HistoricalLedgerView :=
  mkHistorical snapshot overlay None to_t.

Definition historical_flakes (v : HistoricalLedgerView) (g : Z) (index : IndexType) (first rhs : option Flake) (leftmost : bool)
    (to_t : Z) : option (list Flake) :=
  Some match hv_overlay v with
       | Some nv => for_each_overlay_flake nv g index first rhs leftmost (Z.min to_t (hv_to_t v))
       | None => []
       end.

#[export] Instance historical_provider : OverlayProvider HistoricalLedgerView := {|
  overlay_epoch v := match hv_overlay v with Some nv => nv_epoch nv | None => 0 end;
  is_effectively_empty _ := false;
  overlay_flakes := historical_flakes;
  overlay_segments _ _ := whole_segment;
  overlay_segment_flakes := default_segment_flakes historical_flakes;
|}.

(** ** Derived facts *)

Record DerivedFactsOverlay := mkDerived {
  df_spot : list Flake;
  df_psot : list Flake;
  df_post : list Flake;
  df_opst : list Flake;
  df_same_as : FrozenSameAs;
  df_epoch : Z;
  df_instance_id : Z;
}.

(** [DerivedFactsBuilder::build]; [id] is the next instance id. *)
Definition derived_build (fl : list Flake) (same_as : FrozenSameAs) (epoch id : Z) : DerivedFactsOverlay :=
  match fl with
  | [] => mkDerived [] [] [] [] same_as epoch id
  | _ => mkDerived (sort_by (comparator Spot) fl) (sort_by (comparator Psot) fl) (sort_by (comparator Post) fl)
           (sort_by (comparator Opst) fl) same_as epoch id
  end.

Definition derived_order (d : DerivedFactsOverlay) (index : IndexType) : list Flake :=
  order_of index (df_spot d) (df_psot d) (df_post d) (df_opst d).

(** Derived facts are in the default graph; the slice panics on an inverted
    range. *)
Definition derived_flakes (d : DerivedFactsOverlay) (g : Z) (index : IndexType) (first rhs : option Flake) (leftmost : bool)
    (to_t : Z) : option (list Flake) :=
  if negb (g =? 0) then Some []
  else
    match derived_order d index with
    | [] => Some []
    | fl =>
        let '(start, end_) := range_positions index fl first rhs leftmost in
        if (end_ <? start)%nat then None
        else Some (List.filter (fun f => f_t f <=? to_t) (take (end_ - start) (drop start fl)))
    end.

#[export] Instance derived_provider : OverlayProvider DerivedFactsOverlay := {|
  overlay_epoch := df_epoch;
  is_effectively_empty _ := false;
  overlay_flakes := derived_flakes;
  overlay_segments _ _ := whole_segment;
  overlay_segment_flakes := default_segment_flakes derived_flakes;
|}.
End providers.

(** ** Overlays over a base *)
Section stacked.
Context `{VL : ValueLib} {O : Type} `{OP : !OverlayProvider O}.

Record ReasoningOverlay := mkReasoning { ro_base : O; ro_derived : DerivedFactsOverlay; ro_epoch : Z }.

Definition reasoning_new (base : O) (derived : DerivedFactsOverlay) : ReasoningOverlay :=
  mkReasoning base derived
    (Z.lor (2 ^ 63) (Z.land (as_u 64 (as_u 64 (overlay_epoch base * 1000003) + df_instance_id derived)) (2 ^ 63 - 1))).

Definition reasoning_flakes (v : ReasoningOverlay) (g : Z) (index : IndexType) (first rhs : option Flake) (leftmost : bool)
    (to_t : Z) : option (list Flake) :=
  base ← overlay_flakes (ro_base v) g index first rhs leftmost to_t;
  derived ← derived_flakes (ro_derived v) g index first rhs leftmost to_t;
  Some (merge_by index base derived).

#[export] Instance reasoning_provider : OverlayProvider ReasoningOverlay := {|
  overlay_epoch := ro_epoch;
  is_effectively_empty _ := false;
  overlay_flakes := reasoning_flakes;
  overlay_segments _ _ := whole_segment;
  overlay_segment_flakes := default_segment_flakes reasoning_flakes;
|}.

(** The schema triples projected into the default graph. *)
Record SchemaBundleFlakes := mkBundle {
  sb_spot : list Flake;
  sb_psot : list Flake;
  sb_post : list Flake;
  sb_opst : list Flake;
  sb_epoch : Z;
}.

Definition bundle_order (b : SchemaBundleFlakes) (index : IndexType) : list Flake :=
  order_of index (sb_spot b) (sb_psot b) (sb_post b) (sb_opst b).

Definition bundle_empty : SchemaBundleFlakes := mkBundle [] [] [] [] 0.

Definition collected_cmp (a b : Flake) : comparison :=
  then_with (sid_cmp (f_s a) (f_s b)) (then_with (sid_cmp (f_p a) (f_p b)) (then_with (value_cmp (f_o a) (f_o b))
    (then_with (Z.compare (f_t a) (f_t b)) (bool_cmp (f_op a) (f_op b))))).

Definition collected_eq (a b : Flake) : bool :=
  bool_decide (f_s a = f_s b) && bool_decide (f_p a = f_p b) && value_eq (f_o a) (f_o b) && (f_t a =? f_t b) &&
  Bool.eqb (f_op a) (f_op b).

(** [Vec::dedup_by], after the kept flake [last]. *)
Fixpoint dedup_after (last : Flake) (l : list Flake) : list Flake :=
  match l with
  | [] => []
  | f :: l => if collected_eq f last then dedup_after last l else f :: dedup_after f l
  end.

Definition dedup_collected (l : list Flake) : list Flake :=
  match l with [] => [] | f :: l => f :: dedup_after f l end.

Definition from_collected_schema_triples `{SL : SortLib} (collected : list Flake) : SchemaBundleFlakes :=
  match collected with
  | [] => bundle_empty
  | _ =>
      let fl := dedup_collected (sort_by collected_cmp collected) in
      mkBundle (sort_by (comparator Spot) fl) (sort_by (comparator Psot) fl) (sort_by (comparator Post) fl)
        (sort_by (comparator Opst) fl) (zlen (sort_by (comparator Spot) fl))
  end.

Record SchemaBundleOverlay := mkBundleOverlay { bo_base : O; bo_bundle : SchemaBundleFlakes; bo_epoch : Z }.

Definition bundle_overlay_new (base : O) (bundle : SchemaBundleFlakes) : SchemaBundleOverlay :=
  mkBundleOverlay base bundle (as_u 64 (as_u 64 (overlay_epoch base * 1000003) + sb_epoch bundle)).

Definition bundle_flakes (v : SchemaBundleOverlay) (g : Z) (index : IndexType) (first rhs : option Flake) (leftmost : bool)
    (to_t : Z) : option (list Flake) :=
  let base := overlay_flakes (bo_base v) g index first rhs leftmost to_t in
  if negb (g =? 0) || match sb_spot (bo_bundle v) with [] => true | _ => false end then base
  else
    let fl := bundle_order (bo_bundle v) index in
    let '(start, end_) := range_positions index fl first rhs leftmost in
    if (end_ <=? start)%nat then base
    else base ← base;
         Some (merge_by index base (List.filter (fun f => f_t f <=? to_t) (take (end_ - start) (drop start fl)))).

#[export] Instance bundle_provider : OverlayProvider SchemaBundleOverlay := {|
  overlay_epoch := bo_epoch;
  is_effectively_empty _ := false;
  overlay_flakes := bundle_flakes;
  overlay_segments _ _ := whole_segment;
  overlay_segment_flakes := default_segment_flakes bundle_flakes;
|}.
End stacked.
Arguments ReasoningOverlay {VL} O.
Arguments SchemaBundleOverlay {VL} O.

(** ** Several overlays *)
Section composite.
Context `{VL : ValueLib, SL : SortLib}.

(** [Arc<dyn OverlayProvider>]. *)
Record DynOverlay := mkDyn { dyn_type : Type; dyn_provider : OverlayProvider dyn_type; dyn_value : dyn_type }.

Definition dyn_flakes (d : DynOverlay) := overlay_flakes (OverlayProvider := dyn_provider d) (dyn_value d).
Definition dyn_epoch (d : DynOverlay) : Z := overlay_epoch (OverlayProvider := dyn_provider d) (dyn_value d).
Definition dyn_is_empty (d : DynOverlay) : bool := is_effectively_empty (OverlayProvider := dyn_provider d) (dyn_value d).

Record CompositeOverlay := mkComposite { co_epoch : Z; co_overlays : list DynOverlay }.

Definition composite_new (overlays : list DynOverlay) : CompositeOverlay :=
  mkComposite (fold_left (fun epoch o => as_u 64 (as_u 64 (epoch * 1000003) + dyn_epoch o)) overlays 0) overlays.

Fixpoint collect_flakes (overlays : list DynOverlay) (g : Z) (index : IndexType) (first rhs : option Flake) (leftmost : bool)
    (to_t : Z) : option (list Flake) :=
  match overlays with
  | [] => Some []
  | o :: overlays =>
      fl ← dyn_flakes o g index first rhs leftmost to_t;
      rest ← collect_flakes overlays g index first rhs leftmost to_t;
      Some (fl ++ rest)
  end.

Definition composite_flakes (v : CompositeOverlay) (g : Z) (index : IndexType) (first rhs : option Flake) (leftmost : bool)
    (to_t : Z) : option (list Flake) :=
  match co_overlays v with
  | [] => Some []
  | overlays =>
      fl ← collect_flakes overlays g index first rhs leftmost to_t;
      Some (sort_by (comparator index) fl)
  end.

#[export] Instance composite_provider : OverlayProvider CompositeOverlay := {|
  overlay_epoch := co_epoch;
  is_effectively_empty v := forallb dyn_is_empty (co_overlays v);
  overlay_flakes := composite_flakes;
  overlay_segments _ _ := whole_segment;
  overlay_segment_flakes := default_segment_flakes composite_flakes;
|}.
End composite.

(** ** Contracts *)

Section lists.
Context `{VL : ValueLib, VLL : !ValueLibLaws}.

Lemma merge_by_perm index a : forall b, merge_by index a b ≡ₚ a ++ b.
Proof.
  induction a as [|x a IHa]; intros b; [by destruct b|]. induction b as [|y b IHb]; [by rewrite app_nil_r|]. cbn.
  destruct (not_greater (compare index x y)); [by rewrite IHa|]. cbn in IHb. rewrite IHb, <- Permutation_middle. apply Permutation_swap.
Qed.

Lemma merge_by_sorted index a : forall b, Forall flake_ordinary a -> Forall flake_ordinary b ->
  StronglySorted (cle (compare index)) a -> StronglySorted (cle (compare index)) b ->
  StronglySorted (cle (compare index)) (merge_by index a b).
Proof.
  induction a as [|x a IHa]; intros b Ha Hb Sa Sb; [by destruct b|]. induction b as [|y b IHb]; [done|]. cbn.
  inversion Sa as [|? ? Sa' Fa]; subst. inversion Sb as [|? ? Sb' Fb]; subst.
  apply Forall_cons in Ha as [Hx Ha]. apply Forall_cons in Hb as [Hy Hb].
  destruct (not_greater (compare index x y)) eqn:E.
  - apply not_greater_true in E. constructor; [by apply IHa; [|constructor|..]|]. apply Forall_forall. intros z Hz.
    rewrite (merge_by_perm index a (y :: b)) in Hz. rewrite Forall_forall in Fa, Fb, Hb, Ha.
    apply elem_of_app in Hz as [Hz|[->|Hz]%elem_of_cons]; [by apply Fa|done|]. eapply compare_le_trans; [done|exact Hy|by apply Hb|done|by apply Fb].
  - change (fix go other := match other with [] => x :: a | o :: other' => _ end) with (merge_by index (x :: a)).
    constructor; [by apply IHb|]. apply Forall_forall. intros z Hz.
    change (z ∈ merge_by index (x :: a) b) in Hz. rewrite merge_by_perm in Hz.
    assert (cle (compare index) y x) as Hyx.
    { unfold cle. unfold compare in *. rewrite (cmp_sym (P := flake_ordinary) (c := comparator index) x y) by done. by destruct (comparator index x y). }
    rewrite Forall_forall in Fa, Fb, Ha. apply elem_of_app in Hz as [[->|Hz]%elem_of_cons|Hz]; [done| |by apply Fb].
    eapply compare_le_trans; [done|exact Hx|by apply Ha|done|by apply Fa].
Qed.

(** The slice of a sorted list between the two positions. *)
Lemma slice_in_range index fl first rhs leftmost :
  Forall flake_ordinary fl -> StronglySorted (cle (compare index)) fl -> bounds_ordinary first rhs ->
  let '(start, end_) := range_positions index fl first rhs leftmost in
  (if (end_ <=? start)%nat then [] else take (end_ - start) (drop start fl)) = List.filter (in_range index first rhs leftmost) fl.
Proof.
  intros Ho Hs [Hf Hr]. unfold range_positions, upper_bound. rewrite Forall_forall in Ho.
  assert (forall b x y, flake_ordinary b -> x ∈ fl -> y ∈ fl -> cle (compare index) x y ->
    not_greater (compare index y b) = true -> not_greater (compare index x b) = true) as Hdown.
  { intros b x y Hb Hx Hy Hxy. rewrite !not_greater_true. by apply compare_le_trans; auto. }
  set (p := fun f => if leftmost then false else match first with Some a => not_greater (compare index f a) | None => false end).
  set (q := fun f => match rhs with Some r => not_greater (compare index f r) | None => true end).
  assert ((if leftmost then 0%nat else match first with Some f => partition_point (fun f0 => not_greater (compare index f0 f)) fl
    | None => 0%nat end) = partition_point p fl) as ->.
  { subst p. destruct leftmost; [by rewrite partition_point_false|]. destruct first; [done|by rewrite partition_point_false]. }
  assert (match rhs with Some r => partition_point (fun f => not_greater (compare index f r)) fl | None => length fl end =
    partition_point q fl) as ->.
  { subst q. destruct rhs; [done|by rewrite partition_point_true]. }
  rewrite (partition_slice (cle (compare index)) p q fl Hs).
  - apply list_filter_ext. intros x _. subst p q. unfold in_range. by destruct leftmost, first, rhs.
  - subst p. intros x y Hx Hy Hxy. destruct leftmost; [done|]. destruct first as [a|]; [|done]. by apply Hdown.
  - subst q. intros x y Hx Hy Hxy. destruct rhs as [r|]; [|done]. by apply Hdown.
Qed.

Lemma partition_point_mono {A} (p q : A -> bool) l :
  (forall x, x ∈ l -> p x = true -> q x = true) -> (partition_point p l <= partition_point q l)%nat.
Proof.
  induction l as [|x l IH]; intros H; [done|]. cbn. destruct (p x) eqn:E; [|lia]. rewrite (H x) by (done || left).
  apply le_n_S, IH. intros y Hy. apply H. by right.
Qed.

Lemma positions_ordered index fl first rhs leftmost :
  Forall flake_ordinary fl -> bounds_ordinary first rhs -> bounds_ordered index first rhs leftmost ->
  let '(start, end_) := range_positions index fl first rhs leftmost in (start <= end_)%nat.
Proof.
  intros Ho [Hf Hr] Hb. unfold range_positions. destruct leftmost; [lia|]. destruct first as [a|]; [|lia].
  destruct rhs as [r|]; [|apply partition_point_le]. apply partition_point_mono. intros x Hx. rewrite Forall_forall in Ho.
  rewrite !not_greater_true. intros H. by eapply compare_le_trans; [by apply Ho|exact Hf|exact Hr|..].
Qed.

Lemma filter_and {A} (p q : A -> bool) l : List.filter p (List.filter q l) = List.filter (fun x => q x && p x) l.
Proof. induction l as [|x l IH]; [done|]. cbn. destruct (q x); cbn; [|done]. by rewrite IH. Qed.

Lemma filter_visible index first rhs leftmost to_t l :
  List.filter (fun f => f_t f <=? to_t) (List.filter (in_range index first rhs leftmost) l) =
  List.filter (visible index first rhs leftmost to_t) l.
Proof. apply filter_and. Qed.

Lemma sound_ordinary l : Forall flake_sound l -> Forall flake_ordinary l.
Proof. intros H. eapply Forall_impl; [exact H|]. by intros f []. Qed.

(** A sorted arrangement of the contents answers by its slice. *)
Lemma sorted_answers index fl contents first rhs leftmost to_t :
  fl ≡ₚ contents -> Forall flake_ordinary contents -> StronglySorted (cle (compare index)) fl -> bounds_ordinary first rhs ->
  answers index first rhs leftmost to_t contents
    (let '(start, end_) := range_positions index fl first rhs leftmost in
     Some (if (end_ <=? start)%nat then [] else List.filter (fun f => f_t f <=? to_t) (take (end_ - start) (drop start fl)))).
Proof.
  intros Hp Ho Hs Hb. assert (Forall flake_ordinary fl) as Hof by by rewrite Hp.
  pose proof (slice_in_range index fl first rhs leftmost Hof Hs Hb) as H.
  destruct (range_positions index fl first rhs leftmost) as [start end_]. eexists. split; [done|].
  assert ((if (end_ <=? start)%nat then [] else List.filter (fun f => f_t f <=? to_t) (take (end_ - start) (drop start fl))) =
    List.filter (fun f => f_t f <=? to_t) (List.filter (in_range index first rhs leftmost) fl)) as ->.
  { rewrite <- H. by destruct (end_ <=? start)%nat. }
  rewrite filter_visible. split; [by apply list_filter_perm|by apply strongly_sorted_filter].
Qed.

(** Two answers merge to an answer about both contents. *)
Lemma merge_answers index first rhs leftmost to_t c1 c2 f1 f2 :
  Forall flake_ordinary c1 -> Forall flake_ordinary c2 ->
  answers index first rhs leftmost to_t c1 (Some f1) -> answers index first rhs leftmost to_t c2 (Some f2) ->
  answers index first rhs leftmost to_t (c1 ++ c2) (Some (merge_by index f1 f2)).
Proof.
  intros H1 H2 (l1 & [= <-] & P1 & S1) (l2 & [= <-] & P2 & S2). eexists. split; [done|]. split.
  - by rewrite merge_by_perm, P1, P2, list_filter_app.
  - rewrite Forall_forall in H1, H2. apply merge_by_sorted; try done; apply Forall_forall; intros x.
    + rewrite P1. intros [? _]%elem_of_list_filter_b. by apply H1.
    + rewrite P2. intros [? _]%elem_of_list_filter_b. by apply H2.
Qed.

(** Reading everything gives everything. *)
Lemma visible_all index l : Forall flake_sound l -> List.filter (visible index None None true i64_max) l = l.
Proof.
  intros H. apply filter_all. eapply Forall_impl; [exact H|]. intros f [_ [_ Ht]]. unfold visible, in_range. by apply Z.leb_le in Ht.
Qed.

Lemma whole_answers index l r :
  Forall flake_sound l -> answers index None None true i64_max l r ->
  exists ls : list (list Flake), mapM (fun _ => r) (seq 0 (length whole_segment)) = Some ls /\ concat ls ≡ₚ l /\
    Forall2 (fun m fl => StronglySorted (cle (compare index)) fl /\ Forall (fun f => sm_min_t m <= f_t f <= sm_max_t m) fl)
      whole_segment ls.
Proof.
  intros Hl (fl & -> & Hp & Hs). rewrite visible_all in Hp by done. exists [fl]. cbn. rewrite app_nil_r. split_and!; [done|done|].
  constructor; [|done]. split; [done|]. rewrite Hp. eapply Forall_impl; [exact Hl|]. by intros f [_ ?].
Qed.
End lists.

Section contracts.
Context `{VL : ValueLib, VLL : !ValueLibLaws, CL : CidLib, SL : SortLib, SLL : !SortLaws, HO : HashOrder, AT : !Attachments}.

#[export] Program Instance no_overlay_contract : OverlayContract NoOverlay := {|
  overlay_ok _ := True;
  contents _ _ := [];
|}.
Next Obligation. done. Qed.
Next Obligation. intros. exists []. by repeat constructor. Qed.
Next Obligation. done. Qed.
Next Obligation. intros. exists []. by repeat constructor. Qed.

Definition novelty_ok (nv : Novelty) : Prop :=
  nov_wf nv /\ forall g f, 0 <= g -> f ∈ graph_contents nv g -> i64_min <= f_t f <= i64_max.

Lemma novelty_sound nv g : novelty_ok nv -> in_u 16 g -> Forall flake_sound (graph_contents nv g).
Proof.
  intros [Hw Ht] Hg. apply Forall_forall. intros f Hf. split; [|apply (Ht g); [apply Hg|done]].
  by apply (contents_ordinary nv g); [apply Hw|apply Hg|].
Qed.

Lemma novelty_answers nv g index first rhs leftmost to_t :
  nov_shape nv -> in_u 16 g -> bounds_ordinary first rhs ->
  answers index first rhs leftmost to_t (graph_contents nv g) (Some (for_each_overlay_flake nv g index first rhs leftmost to_t)).
Proof.
  intros Hw Hg Hb. destruct (graph_read_spec nv g index first rhs leftmost Hw Hg Hb) as (H1 & H2 & _).
  eexists. split; [done|]. rewrite overlay_flakes_spec. split; [|by apply strongly_sorted_filter].
  rewrite <- filter_visible. by apply list_filter_perm.
Qed.

Lemma mapM_flakes_at (fl : list Flake) ids :
  valid_ids fl ids -> mapM (fun i => fl !! i) ids = Some (flakes_at fl ids).
Proof.
  intros H. apply mapM_Some. induction H as [|i ids [f Hf] H IH]; [constructor|]. rewrite (flakes_at_cons fl i f ids Hf). by constructor.
Qed.

(** The segments of a graph, one by one. *)
Lemma segments_read index segs :
  Forall seg_wf segs ->
  exists ls, mapM (fun i => match segs !! i with
      | Some seg => mapM (fun j => seg_flakes seg !! j) (seg_order seg index)
      | None => Some []
      end) (seq 0 (length segs)) = Some ls /\ concat ls ≡ₚ seg_contents segs /\
    Forall2 (fun m fl => StronglySorted (cle (compare index)) fl /\ Forall (fun f => sm_min_t m <= f_t f <= sm_max_t m) fl)
      ((fun s => mkSegmentMeta (seg_min_t s) (seg_max_t s)) <$> segs) ls.
Proof.
  intros Hw. exists ((fun s => flakes_at (seg_flakes s) (seg_order s index)) <$> segs). split_and!.
  - apply mapM_Some, Forall2_fmap_r, Forall2_same_length_lookup. split; [by rewrite length_seq|].
    intros i j seg [-> _]%lookup_seq Hs. cbn. rewrite Hs. apply mapM_flakes_at, sw_valid. by eapply Forall_lookup_1.
  - unfold seg_contents. induction Hw as [|s segs Hs Hw IH]; [done|]. cbn. rewrite IH.
    by rewrite flakes_at_perm by apply (sw_perm _ Hs).
  - apply Forall2_fmap_l, Forall2_fmap_r, Forall_Forall2_diag. eapply Forall_impl; [exact Hw|]. intros s Hs. split.
    + apply flakes_at_sorted; [by apply sw_valid|by apply sw_sorted].
    + rewrite flakes_at_perm by apply (sw_perm _ Hs). apply Forall_forall. intros f Hf. cbn.
      split; [by apply (sw_min _ Hs)|by apply (sw_max _ Hs)].
Qed.

#[export] Program Instance novelty_contract : OverlayContract Novelty := {|
  overlay_ok := novelty_ok;
  contents := graph_contents;
|}.
Next Obligation. intros. by apply novelty_sound. Qed.
Next Obligation. intros nv g index first rhs leftmost to_t [Hw _] Hg Hb _. by apply novelty_answers; [apply Hw|..]. Qed.
Next Obligation.
  intros nv g [Hw _] Hg He. apply total_zero_contents; [apply Hw|]. by apply Z.eqb_eq.
Qed.
Next Obligation.
  intros nv g index [Hw _] Hg. cbn. unfold novelty_segments, novelty_segment_flakes, graph_contents.
  destruct (nv_segs nv g) as [segs|] eqn:E; [|exists []; by repeat constructor].
  rewrite length_fmap. apply segments_read, segs_fit_wf. apply (ns_segs _ (nw_shape _ Hw) g segs); [apply Hg|done].
Qed.

(** ** Staged flakes *)

(** The staged flakes of a graph. *)
Definition staged_of (so : StagedOverlay) (g : Z) : list Flake :=
  (filter (fun p : Z * Flake => p.1 = g) (zip (so_graph_ids so) (so_flakes so))).*2.

Record staged_ok (so : StagedOverlay) : Prop := {
  sk_sound : Forall flake_sound (so_flakes so);
  sk_ids : length (so_graph_ids so) = length (so_flakes so);
  sk_perm index : staged_index so index ≡ₚ seq 0 (length (so_flakes so));
  sk_sorted index : StronglySorted (cle (cmp_at index (so_flakes so))) (staged_index so index);
}.

Lemma staged_graph_ids_spec rg fl ids :
  staged_graph_ids rg fl = Ok ids <-> Forall2 (fun f g => graph_of rg f = Some g) fl ids.
Proof.
  revert ids. induction fl as [|f fl IH]; intros ids; cbn [staged_graph_ids].
  { split; [intros [= <-]; constructor|by inversion 1]. }
  unfold graph_of. destruct (f_g f) as [sid|] eqn:Ef; [destruct (rg sid) as [g|] eqn:Eg|]; cbn [mbind outcome_bind].
  - split.
    + intros (rest & Hr%IH & [= <-])%outcome_bind_Ok. constructor; [by rewrite Ef|done].
    + inversion 1 as [|? ? ? ? Hg Hr]; subst. rewrite Ef, Eg in Hg. injection Hg as ->. apply IH in Hr. by rewrite Hr.
  - split; [done|]. inversion 1 as [|? ? ? ? Hg Hr]; subst. rewrite Ef in Hg. congruence.
  - split.
    + intros (rest & Hr%IH & [= <-])%outcome_bind_Ok. constructor; [by rewrite Ef|done].
    + inversion 1 as [|? ? ? ? Hg Hr]; subst. rewrite Ef in Hg. injection Hg as ->. apply IH in Hr. by rewrite Hr.
Qed.

Lemma staged_order_spec index fl :
  Forall flake_ordinary fl -> zlen fl < 2 ^ 32 -> staged_order index fl = order_by index fl.
Proof.
  intros Ho Hl. unfold staged_order, order_by. rewrite as_u_id by (unfold in_u; pose proof (zlen_nonneg fl); lia).
  unfold zlen. by rewrite Nat2Z.id.
Qed.

Lemma from_flakes_ok fl rg so :
  Forall flake_sound fl -> zlen fl < 2 ^ 32 -> from_flakes fl rg = Ok so ->
  staged_ok so /\ so_flakes so = fl /\ forall g, staged_of so g = List.filter (fun f => bool_decide (graph_of rg f = Some g)) fl.
Proof.
  intros Hs Hl E. assert (Forall flake_ordinary fl) as Ho by by apply sound_ordinary.
  assert (exists ids, Forall2 (fun f g => graph_of rg f = Some g) fl ids /\
    so = mkStagedOverlay fl ids (order_by Spot fl) (order_by Psot fl) (order_by Post fl) (order_by Opst fl)) as (ids & Hg & ->).
  { unfold from_flakes in E. destruct fl as [|f fl]; [injection E as <-; exists []; split; [constructor|]|].
    - unfold order_by. cbn. assert (forall c, sort_by c [] = ([] : list nat)) as Hn; [|by rewrite !Hn].
      intros c. apply Permutation_nil. symmetry. apply (sort_by_perm (fun _ : nat => False)); [|constructor]. by split.
    - apply outcome_bind_Ok in E as (ids & Hi%staged_graph_ids_spec & [= <-]). exists ids. split; [done|].
      by rewrite !staged_order_spec. }
  pose proof (seg_build_wf fl Ho) as W. split_and!.
  - split; cbn; [done|by eapply eq_sym, Forall2_length|..]; intros index; [pose proof (sw_perm _ W index) as H|pose proof (sw_sorted _ W index) as H];
      by destruct index.
  - done.
  - intros g. unfold staged_of. cbn. clear -Hg. induction Hg as [|f g' fl ids Hf Hg IH]; [done|]. cbn [zip_with List.filter].
    rewrite filter_cons. cbn [fst snd]. rewrite Hf. destruct (decide (g' = g)) as [->|Hne].
    + rewrite bool_decide_eq_true_2 by done. cbn. by rewrite <- IH.
    + rewrite bool_decide_eq_false_2 by congruence. by rewrite <- IH.
Qed.

(** The staged flakes are one more segment. *)
Definition as_segment (so : StagedOverlay) : Segment :=
  let seg := seg_build (so_flakes so) in
  mkSegment (so_flakes so) (so_spot so) (so_psot so) (so_post so) (so_opst so) (seg_min_t seg) (seg_max_t seg) (seg_size seg).

Lemma as_segment_wf so : staged_ok so -> seg_wf (as_segment so).
Proof.
  intros [Hs _ Hp Hso]. assert (Forall flake_ordinary (so_flakes so)) as Ho by by apply sound_ordinary.
  pose proof (seg_build_wf _ Ho) as W. split; [done|..|apply (sw_min _ W)|apply (sw_max _ W)|apply (sw_size _ W)];
    intros index; [specialize (Hp index)|specialize (Hso index)]; by destruct index.
Qed.

Lemma staged_slice_range so index first rhs leftmost :
  staged_slice so index first rhs leftmost = seg_range (as_segment so) index first rhs leftmost.
Proof.
  unfold staged_slice, seg_range. change (seg_order (as_segment so) index) with (staged_index so index).
  destruct (staged_index so index) as [|i ids] eqn:E; [|done]. by destruct leftmost, first, rhs.
Qed.

Definition in_graph_at (so : StagedOverlay) (g : Z) (i : nat) : bool :=
  match so_graph_ids so !! i with Some g' => g' =? g | None => false end.

Lemma staged_in_graph_at so g ids : staged_in_graph so g ids = flakes_at (so_flakes so) (List.filter (in_graph_at so g) ids).
Proof.
  induction ids as [|i ids IH]; [done|]. unfold staged_in_graph in *. cbn. unfold in_graph_at at 1.
  destruct (so_graph_ids so !! i) as [g'|]; cbn; [|done]. destruct (g' =? g); [|done].
  unfold flakes_at. cbn. by rewrite IH.
Qed.

Lemma staged_in_graph_all so g :
  length (so_graph_ids so) = length (so_flakes so) -> staged_in_graph so g (seq 0 (length (so_flakes so))) = staged_of so g.
Proof.
  unfold staged_in_graph, staged_of. generalize (so_flakes so) (so_graph_ids so). intros fl ids Hl.
  assert (forall (pre : list Z) (pre' : list Flake) ids fl, length pre = length pre' -> length ids = length fl ->
    omap (fun i => g' ← (pre ++ ids) !! i; if g' =? g then (pre' ++ fl) !! i else None) (seq (length pre') (length fl)) =
    (filter (fun p : Z * Flake => p.1 = g) (zip ids fl)).*2) as H; [|exact (H [] [] ids fl eq_refl Hl)].
  clear. intros pre pre' ids fl. revert pre pre' ids. induction fl as [|f fl IH]; intros pre pre' [|g' ids] Hp Hl; try done.
  cbn [length seq omap list_omap]. rewrite (list_lookup_middle pre ids g') by done. rewrite (list_lookup_middle pre' fl f) by done.
  specialize (IH (pre ++ [g']) (pre' ++ [f]) ids). rewrite !length_app in IH. cbn [length] in IH. rewrite !Nat.add_1_r in IH.
  rewrite <- !app_assoc in IH. cbn [app zip_with] in *. rewrite filter_cons. cbn [fst mbind option_bind].
  assert ((g' =? g) = bool_decide (g' = g)) as -> by (case_bool_decide; lia).
  destruct (decide (g' = g)) as [->|Hne].
  - rewrite bool_decide_eq_true_2 by done. cbn. f_equal. apply IH; [lia|by injection Hl].
  - rewrite bool_decide_eq_false_2 by done. apply IH; [lia|by injection Hl].
Qed.

Lemma staged_read so g index first rhs leftmost :
  staged_ok so -> bounds_ordinary first rhs ->
  let fl := staged_in_graph so g (staged_slice so index first rhs leftmost) in
  fl ≡ₚ List.filter (in_range index first rhs leftmost) (staged_of so g) /\ StronglySorted (cle (compare index)) fl.
Proof.
  intros Hok Hb fl. pose proof (as_segment_wf so Hok) as W. pose proof (sw_valid _ index W) as Hv.
  change (seg_order (as_segment so) index) with (staged_index so index) in Hv. change (seg_flakes (as_segment so)) with (so_flakes so) in Hv.
  assert (fl = List.filter (in_range index first rhs leftmost) (staged_in_graph so g (staged_index so index))) as ->.
  { subst fl. rewrite staged_slice_range, seg_range_spec by done. change (seg_order (as_segment so) index) with (staged_index so index).
    change (seg_flakes (as_segment so)) with (so_flakes so). rewrite !staged_in_graph_at, <- flakes_at_filter.
    - f_equal. clear. induction (staged_index so index) as [|i l IH]; [done|]. cbn.
      destruct (from_option _ _ _) eqn:E1, (in_graph_at so g i) eqn:E2; cbn; rewrite ?E1, ?E2; cbn; by rewrite IH.
    - unfold valid_ids in *. rewrite Forall_forall in Hv. apply Forall_forall. intros i [Hi _]%elem_of_list_filter_b. by apply Hv. }
  split.
  - apply list_filter_perm. rewrite <- staged_in_graph_all by apply Hok. unfold staged_in_graph. by rewrite (sk_perm _ Hok index).
  - apply strongly_sorted_filter. rewrite staged_in_graph_at. apply flakes_at_sorted.
    + unfold valid_ids in *. rewrite Forall_forall in Hv. apply Forall_forall. intros i [Hi _]%elem_of_list_filter_b. by apply Hv.
    + by apply strongly_sorted_filter, (sk_sorted _ Hok).
Qed.

Definition staged_ledger_ok (v : StagedLedger) : Prop :=
  novelty_ok (ls_novelty (sg_base v)) /\ staged_ok (sg_staged v).

Definition staged_contents (v : StagedLedger) (g : Z) : list Flake :=
  graph_contents (ls_novelty (sg_base v)) g ++ staged_of (sg_staged v) g.

Lemma staged_contents_sound v g : staged_ledger_ok v -> in_u 16 g -> Forall flake_sound (staged_contents v g).
Proof.
  intros [Hn Hs] Hg. apply Forall_app. split; [by apply novelty_sound|]. apply Forall_forall. intros f Hf.
  unfold staged_of in Hf. apply list_elem_of_fmap in Hf as ([g' x] & -> & [_ Hz]%list_elem_of_filter).
  apply elem_of_zip_r in Hz. pose proof (sk_sound _ Hs) as H. rewrite Forall_forall in H. by apply H.
Qed.

Lemma staged_ledger_answers v g index first rhs leftmost to_t :
  staged_ledger_ok v -> in_u 16 g -> bounds_ordinary first rhs ->
  answers index first rhs leftmost to_t (staged_contents v g) (staged_flakes v g index first rhs leftmost to_t).
Proof.
  intros Hok Hg Hb. pose proof (staged_contents_sound v g Hok Hg) as Hs. apply sound_ordinary, Forall_app in Hs as [H1 H2].
  destruct Hok as [[Hw _] Hst]. destruct (graph_read_spec _ g index first rhs leftmost (nw_shape _ Hw) Hg Hb) as (P1 & S1 & _).
  destruct (staged_read _ g index first rhs leftmost Hst Hb) as [P2 S2].
  eexists. split; [done|]. rewrite <- filter_visible. split.
  - apply list_filter_perm. unfold staged_contents. by rewrite merge_by_perm, list_filter_app, P1, P2.
  - apply strongly_sorted_filter. rewrite Forall_forall in H1, H2. apply merge_by_sorted; try done; apply Forall_forall; intros x Hx.
    + rewrite P1 in Hx. apply H1. by apply elem_of_list_filter_b in Hx as [? _].
    + rewrite P2 in Hx. apply H2. by apply elem_of_list_filter_b in Hx as [? _].
Qed.

#[export] Program Instance staged_contract : OverlayContract StagedLedger := {|
  overlay_ok := staged_ledger_ok;
  contents := staged_contents;
|}.
Next Obligation. intros. by apply staged_contents_sound. Qed.
Next Obligation. intros. by apply staged_ledger_answers. Qed.
Next Obligation. done. Qed.
Next Obligation.
  intros v g index Hok Hg. apply whole_answers; [by apply staged_contents_sound|]. by apply staged_ledger_answers.
Qed.

(** ** A ledger at an earlier time *)

Definition historical_ok (v : HistoricalLedgerView) : Prop := match hv_overlay v with Some nv => novelty_ok nv | None => True end.

Definition historical_contents (v : HistoricalLedgerView) (g : Z) : list Flake :=
  match hv_overlay v with
  | Some nv => List.filter (fun f => f_t f <=? hv_to_t v) (graph_contents nv g)
  | None => []
  end.

Lemma historical_sound v g : historical_ok v -> in_u 16 g -> Forall flake_sound (historical_contents v g).
Proof.
  unfold historical_ok, historical_contents. destruct (hv_overlay v) as [nv|]; [|done]. intros Hn Hg.
  pose proof (novelty_sound nv g Hn Hg) as H. rewrite Forall_forall in H. apply Forall_forall.
  intros f [Hf _]%elem_of_list_filter_b. by apply H.
Qed.

Lemma historical_answers v g index first rhs leftmost to_t :
  historical_ok v -> in_u 16 g -> bounds_ordinary first rhs ->
  answers index first rhs leftmost to_t (historical_contents v g) (historical_flakes v g index first rhs leftmost to_t).
Proof.
  unfold historical_ok, historical_contents, historical_flakes. destruct (hv_overlay v) as [nv|]; [|intros; exists []; by repeat constructor].
  intros [Hw _] Hg Hb. destruct (novelty_answers nv g index first rhs leftmost (Z.min to_t (hv_to_t v)) (nw_shape _ Hw) Hg Hb) as (fl & E & P & S).
  exists fl. split; [done|]. split; [|done]. rewrite P, filter_and. erewrite list_filter_ext; [done|]. intros f _. unfold visible.
  destruct (in_range index first rhs leftmost f), (Z.leb_spec (f_t f) (hv_to_t v)); cbn; lia.
Qed.

#[export] Program Instance historical_contract : OverlayContract HistoricalLedgerView := {|
  overlay_ok := historical_ok;
  contents := historical_contents;
|}.
Next Obligation. intros. by apply historical_sound. Qed.
Next Obligation. intros. by apply historical_answers. Qed.
Next Obligation. done. Qed.
Next Obligation. intros v g index Hok Hg. apply whole_answers; [by apply historical_sound|]. by apply historical_answers. Qed.

(** ** Derived facts *)

Record derived_ok (d : DerivedFactsOverlay) : Prop := {
  do_sound : Forall flake_sound (df_spot d);
  do_perm index : derived_order d index ≡ₚ df_spot d;
  do_sorted index : StronglySorted (cle (compare index)) (derived_order d index);
}.

Lemma derived_build_ok fl same_as epoch id :
  Forall flake_sound fl -> derived_ok (derived_build fl same_as epoch id) /\ df_spot (derived_build fl same_as epoch id) ≡ₚ fl.
Proof.
  intros Hs. assert (Forall flake_ordinary fl) as Ho by by apply sound_ordinary. unfold derived_build.
  destruct fl as [|f fl]; [split; [split|]; try done; intros []; constructor|]. set (l := f :: fl) in *.
  assert (forall index, sort_by (comparator index) l ≡ₚ l) as Hp by (intros; by apply (sort_by_perm flake_ordinary); [apply _|]).
  split; [|apply Hp]. split; unfold derived_order; cbn [df_spot df_psot df_post df_opst].
  - by rewrite Hp.
  - intros []; cbn [order_of]; by rewrite !Hp.
  - intros []; by apply (sort_by_sorted flake_ordinary); [apply _|].
Qed.

Definition derived_contents (d : DerivedFactsOverlay) (g : Z) : list Flake := if g =? 0 then df_spot d else [].

Lemma derived_sound d g : derived_ok d -> Forall flake_sound (derived_contents d g).
Proof. intros Hd. unfold derived_contents. destruct (g =? 0); [apply Hd|done]. Qed.

(** The slice panics exactly on a range inverted between derived facts. *)
Lemma derived_reads d g index first rhs leftmost to_t :
  derived_ok d -> bounds_ordinary first rhs ->
  match derived_flakes d g index first rhs leftmost to_t with
  | Some fl => answers index first rhs leftmost to_t (derived_contents d g) (Some fl)
  | None => g = 0 /\ df_spot d <> [] /\ ~ bounds_ordered index first rhs leftmost
  end.
Proof.
  intros Hd Hb. unfold derived_contents, derived_flakes. destruct (Z.eqb_spec g 0) as [->|]; cbn [negb]; [|exists []; by repeat constructor].
  pose proof (sound_ordinary _ (do_sound _ Hd)) as Ho.
  pose proof (sorted_answers index _ _ first rhs leftmost to_t (do_perm _ Hd index) Ho (do_sorted _ Hd index) Hb) as H.
  rewrite <- (do_perm _ Hd index) in Ho. pose proof (positions_ordered index _ first rhs leftmost Ho Hb) as Hle.
  destruct (derived_order d index) as [|f fl] eqn:Ed; [by destruct leftmost, first, rhs|].
  destruct (range_positions index (f :: fl) first rhs leftmost) as [start end_].
  destruct (Nat.ltb_spec end_ start) as [Hlt|Hge].
  - split_and!; [done| |intros Hbo; specialize (Hle Hbo); lia]. intros E. pose proof (do_perm _ Hd index) as P. rewrite Ed, E in P.
    by apply Permutation_nil_r in P.
  - destruct (Nat.leb_spec end_ start) as [Hes|]; [|done]. assert (end_ = start) as -> by lia. by rewrite Nat.sub_diag.
Qed.

Lemma derived_answers d g index first rhs leftmost to_t :
  derived_ok d -> bounds_ordinary first rhs -> bounds_ordered index first rhs leftmost ->
  answers index first rhs leftmost to_t (derived_contents d g) (derived_flakes d g index first rhs leftmost to_t).
Proof.
  intros Hd Hb Hbo. pose proof (derived_reads d g index first rhs leftmost to_t Hd Hb) as H.
  destruct (derived_flakes d g index first rhs leftmost to_t); [done|]. by destruct H as (_ & _ & []).
Qed.

#[export] Program Instance derived_contract : OverlayContract DerivedFactsOverlay := {|
  overlay_ok := derived_ok;
  contents := derived_contents;
|}.
Next Obligation. intros. by apply derived_sound. Qed.
Next Obligation. intros. by apply derived_answers. Qed.
Next Obligation. done. Qed.
Next Obligation. intros d g index Hok Hg. apply whole_answers; [by apply derived_sound|]. by apply derived_answers. Qed.
End contracts.

(** ** Overlays over a base *)
Section stacked_contracts.
Context `{VL : ValueLib, VLL : !ValueLibLaws, SL : SortLib, SLL : !SortLaws}.
Context {O : Type} `{OP : !OverlayProvider O, OC : !OverlayContract O}.

Definition reasoning_ok (v : ReasoningOverlay O) : Prop := overlay_ok (ro_base v) /\ derived_ok (ro_derived v).

Definition reasoning_contents (v : ReasoningOverlay O) (g : Z) : list Flake :=
  contents (ro_base v) g ++ derived_contents (ro_derived v) g.

Lemma reasoning_sound v g : reasoning_ok v -> in_u 16 g -> Forall flake_sound (reasoning_contents v g).
Proof. intros [H1 H2] Hg. apply Forall_app. split; [by apply contents_sound|by apply derived_sound]. Qed.

(** Derived facts over a base that answers. *)
Lemma reasoning_reads v g index first rhs leftmost to_t :
  reasoning_ok v -> in_u 16 g -> bounds_ordinary first rhs ->
  answers index first rhs leftmost to_t (contents (ro_base v) g) (overlay_flakes (ro_base v) g index first rhs leftmost to_t) ->
  match reasoning_flakes v g index first rhs leftmost to_t with
  | Some fl => answers index first rhs leftmost to_t (reasoning_contents v g) (Some fl)
  | None => g = 0 /\ df_spot (ro_derived v) <> [] /\ ~ bounds_ordered index first rhs leftmost
  end.
Proof.
  intros [H1 H2] Hg Hb (f1 & E1 & A1). unfold reasoning_flakes. rewrite E1. cbn [mbind option_bind].
  pose proof (derived_reads (ro_derived v) g index first rhs leftmost to_t H2 Hb) as A2.
  destruct (derived_flakes (ro_derived v) g index first rhs leftmost to_t) as [f2|]; cbn [mbind option_bind]; [|done].
  apply merge_answers; [by apply sound_ordinary, contents_sound|by apply sound_ordinary, derived_sound|by exists f1|done].
Qed.

Lemma reasoning_answers v g index first rhs leftmost to_t :
  reasoning_ok v -> in_u 16 g -> bounds_ordinary first rhs -> bounds_ordered index first rhs leftmost ->
  answers index first rhs leftmost to_t (reasoning_contents v g) (reasoning_flakes v g index first rhs leftmost to_t).
Proof.
  intros Hv Hg Hb Hbo. pose proof (reasoning_reads v g index first rhs leftmost to_t Hv Hg Hb) as H.
  destruct (reasoning_flakes v g index first rhs leftmost to_t); [apply H|destruct H as (_ & _ & []); [|done]]; by apply reads_answer; [apply Hv|..].
Qed.

#[export] Program Instance reasoning_contract : OverlayContract (ReasoningOverlay O) := {|
  overlay_ok := reasoning_ok;
  contents := reasoning_contents;
|}.
Next Obligation. intros. by apply reasoning_sound. Qed.
Next Obligation. intros. by apply reasoning_answers. Qed.
Next Obligation. done. Qed.
Next Obligation. intros v g index Hok Hg. apply whole_answers; [by apply reasoning_sound|]. by apply reasoning_answers. Qed.

(** An epoch with derived facts is never that of plain novelty. *)
Lemma reasoning_epoch_apart (base : O) derived n :
  0 <= n < 2 ^ 63 -> overlay_epoch (reasoning_new base derived) <> n.
Proof.
  intros Hn E. assert (Z.testbit n 63 = true) as H.
  { rewrite <- E. cbn [overlay_epoch reasoning_provider ro_epoch reasoning_new]. rewrite Z.lor_spec, Z.pow2_bits_true by lia. done. }
  rewrite Z.bits_above_log2 in H; [done|lia|]. destruct (Z.eq_dec n 0) as [->|]; [done|]. apply Z.log2_lt_pow2; lia.
Qed.

Record bundle_ok (b : SchemaBundleFlakes) : Prop := {
  bk_sound : Forall flake_sound (sb_spot b);
  bk_perm index : bundle_order b index ≡ₚ sb_spot b;
  bk_sorted index : StronglySorted (cle (compare index)) (bundle_order b index);
}.

#[export] Instance collected_cmp_laws : CmpLaws flake_ordinary collected_cmp.
Proof.
  unfold collected_cmp. repeat first [apply flake_key_laws, _ | apply (cmp_laws_key _ ordinary f_o); done || apply _ | apply cmp_laws_then].
Qed.

Lemma dedup_after_elem last l f : f ∈ dedup_after last l -> f ∈ l.
Proof.
  revert last. induction l as [|x l IH]; intros last; [done|]. cbn. destruct (collected_eq x last); [intros ?%IH; by right|].
  intros [->|?%IH]%elem_of_cons; [left|by right].
Qed.

(** Every flake collected has an equal one in the bundle. *)
Lemma dedup_after_covers last l f : f ∈ l -> collected_eq f last = true \/ exists f', f' ∈ dedup_after last l /\ (f' = f \/ collected_eq f f' = true).
Proof.
  revert last. induction l as [|x l IH]; intros last; [by intros ?%not_elem_of_nil|]. cbn.
  intros [->|Hf]%elem_of_cons.
  - destruct (collected_eq x last) eqn:E; [by left|right]. exists x. split; [left|by left].
  - destruct (collected_eq x last) eqn:E; [by apply IH|]. right. destruct (IH x Hf) as [H|(f' & Hf' & H)].
    + exists x. split; [left|by right].
    + exists f'. split; [by right|done].
Qed.

Lemma collected_bundle_ok collected :
  Forall flake_sound collected ->
  let b := from_collected_schema_triples collected in
  bundle_ok b /\ (forall f, f ∈ sb_spot b -> f ∈ collected) /\
  forall f, f ∈ collected -> exists f', f' ∈ sb_spot b /\ (f' = f \/ collected_eq f f' = true).
Proof.
  intros Hs. assert (Forall flake_ordinary collected) as Ho by by apply sound_ordinary. unfold from_collected_schema_triples.
  destruct collected as [|c cs]; [split_and!; [split; [done|by intros []|intros []; constructor]|done|by intros f ?%not_elem_of_nil]|].
  set (l := c :: cs) in *. pose proof (sort_by_perm flake_ordinary collected_cmp l _ Ho) as Hp.
  set (k := sort_by collected_cmp l) in *. assert (forall f, f ∈ dedup_collected k -> f ∈ l) as Hin.
  { intros f. rewrite <- Hp. unfold dedup_collected. destruct k; [done|]. intros [->|?%dedup_after_elem]%elem_of_cons; [left|by right]. }
  assert (Forall flake_sound (dedup_collected k)) as Hd by (rewrite Forall_forall in *; auto).
  assert (Forall flake_ordinary (dedup_collected k)) as Hdo by by apply sound_ordinary.
  assert (forall index, sort_by (comparator index) (dedup_collected k) ≡ₚ dedup_collected k) as Hi
    by (intros; by apply (sort_by_perm flake_ordinary); [apply _|]).
  split_and!; [split; cbn [sb_spot]|cbn [sb_spot]; intros f; rewrite Hi; apply Hin|].
  - by rewrite Hi.
  - intros []; unfold bundle_order; cbn [order_of sb_spot sb_psot sb_post sb_opst]; by rewrite !Hi.
  - intros []; by apply (sort_by_sorted flake_ordinary); [apply _|].
  - cbn [sb_spot]. intros f Hf. setoid_rewrite Hi. rewrite <- Hp in Hf. unfold dedup_collected. destruct k as [|x k]; [by apply not_elem_of_nil in Hf|].
    apply elem_of_cons in Hf as [->|Hf]; [exists x; split; [left|by left]|]. destruct (dedup_after_covers x k f Hf) as [H|(f' & Hf' & H)].
    + exists x. split; [left|by right].
    + exists f'. split; [by right|done].
Qed.

Definition bundle_overlay_ok (v : SchemaBundleOverlay O) : Prop := overlay_ok (bo_base v) /\ bundle_ok (bo_bundle v).

Definition bundle_contents (v : SchemaBundleOverlay O) (g : Z) : list Flake :=
  contents (bo_base v) g ++ (if g =? 0 then sb_spot (bo_bundle v) else []).

Lemma bundle_sound v g : bundle_overlay_ok v -> in_u 16 g -> Forall flake_sound (bundle_contents v g).
Proof.
  intros [H1 H2] Hg. apply Forall_app. split; [by apply contents_sound|]. destruct (g =? 0); [apply H2|done].
Qed.

(** The bundle over a base that answers. *)
Lemma bundle_reads v g index first rhs leftmost to_t :
  bundle_overlay_ok v -> in_u 16 g -> bounds_ordinary first rhs ->
  answers index first rhs leftmost to_t (contents (bo_base v) g) (overlay_flakes (bo_base v) g index first rhs leftmost to_t) ->
  answers index first rhs leftmost to_t (bundle_contents v g) (bundle_flakes v g index first rhs leftmost to_t).
Proof.
  intros [H1 H2] Hg Hb A1. unfold bundle_flakes, bundle_contents.
  destruct (g =? 0) eqn:Eg; cbn [negb orb]; [|by rewrite app_nil_r].
  pose proof (sound_ordinary _ (bk_sound _ H2)) as Ho.
  pose proof (sorted_answers index _ _ first rhs leftmost to_t (bk_perm _ H2 index) Ho (bk_sorted _ H2 index) Hb) as A2.
  destruct (sb_spot (bo_bundle v)) as [|f fl]; [by rewrite app_nil_r|].
  destruct (range_positions index (bundle_order (bo_bundle v) index) first rhs leftmost) as [start end_].
  destruct A1 as (f1 & E1 & A1). rewrite E1. destruct (end_ <=? start)%nat; cbn [mbind option_bind].
  - exists f1. split; [done|]. destruct A2 as (f2 & [= <-] & P2 & _), A1 as [P1 S1]. split; [|done].
    by rewrite list_filter_app, <- P2, app_nil_r.
  - apply merge_answers; [by apply sound_ordinary, contents_sound|done|by exists f1|done].
Qed.

Lemma bundle_answers v g index first rhs leftmost to_t :
  bundle_overlay_ok v -> in_u 16 g -> bounds_ordinary first rhs -> bounds_ordered index first rhs leftmost ->
  answers index first rhs leftmost to_t (bundle_contents v g) (bundle_flakes v g index first rhs leftmost to_t).
Proof. intros Hv Hg Hb Hbo. apply bundle_reads; [done..|]. by apply reads_answer; [apply Hv|..]. Qed.

#[export] Program Instance bundle_contract : OverlayContract (SchemaBundleOverlay O) := {|
  overlay_ok := bundle_overlay_ok;
  contents := bundle_contents;
|}.
Next Obligation. intros. by apply bundle_sound. Qed.
Next Obligation. intros. by apply bundle_answers. Qed.
Next Obligation. done. Qed.
Next Obligation. intros v g index Hok Hg. apply whole_answers; [by apply bundle_sound|]. by apply bundle_answers. Qed.
End stacked_contracts.

(** ** Several overlays *)
Section composite_contract.
Context `{VL : ValueLib, VLL : !ValueLibLaws, SL : SortLib, SLL : !SortLaws}.

(** A composite answers about everything its parts answer about. *)
Lemma composite_answers overlays cs g index first rhs leftmost to_t :
  Forall2 (fun o c => Forall flake_ordinary c /\ answers index first rhs leftmost to_t c (dyn_flakes o g index first rhs leftmost to_t))
    overlays cs ->
  answers index first rhs leftmost to_t (concat cs) (composite_flakes (composite_new overlays) g index first rhs leftmost to_t).
Proof.
  intros H. assert (exists fl, collect_flakes overlays g index first rhs leftmost to_t = Some fl /\
    fl ≡ₚ List.filter (visible index first rhs leftmost to_t) (concat cs) /\ Forall flake_ordinary (concat cs)) as (fl & E & P & Ho).
  { induction H as [|o c overlays cs [Ho (f1 & E1 & P1 & S1)] H (f2 & E2 & P2 & Ho2)]; [by exists []|]. exists (f1 ++ f2). cbn.
    rewrite E1. cbn. rewrite E2. cbn. split_and!; [done| |by apply Forall_app]. by rewrite list_filter_app, P1, P2. }
  unfold composite_flakes. cbn [co_overlays composite_new]. destruct overlays as [|o overlays].
  { inversion H; subst. exists []. by repeat constructor. }
  rewrite E. cbn [mbind option_bind]. assert (Forall flake_ordinary fl) as Hf.
  { rewrite P. rewrite Forall_forall in Ho. apply Forall_forall. intros x [Hx _]%elem_of_list_filter_b. by apply Ho. }
  eexists. split; [done|]. split.
  - etrans; [apply (sort_by_perm flake_ordinary); [apply _|done]|done].
  - apply (sort_by_sorted flake_ordinary); [apply _|done].
Qed.
End composite_contract.

Section staged_view.
Context `{VL : ValueLib, VLL : !ValueLibLaws, CL : CidLib, SL : SortLib, SLL : !SortLaws, HO : HashOrder, AT : !Attachments}.

Lemma answers_perm index first rhs leftmost to_t c c' r :
  c ≡ₚ c' -> answers index first rhs leftmost to_t c r -> answers index first rhs leftmost to_t c' r.
Proof. intros Hc (fl & E & P & S). exists fl. split_and!; [done| |done]. rewrite P. by apply list_filter_perm. Qed.

Lemma staged_graph_ids_fails rg fl e :
  staged_graph_ids rg fl = Err e -> exists f sid, f ∈ fl /\ f_g f = Some sid /\ rg sid = None /\ e = UnknownGraphSid sid.
Proof.
  induction fl as [|f fl IH]; [done|]. cbn [staged_graph_ids].
  assert (forall g, (rest ← staged_graph_ids rg fl; Ok (g :: rest)) = Err e ->
    exists x sid, x ∈ f :: fl /\ f_g x = Some sid /\ rg sid = None /\ e = UnknownGraphSid sid) as Hrest.
  { intros g H. destruct (staged_graph_ids rg fl) as [ids|e'|]; cbn in H; [done| |done]. injection H as ->.
    destruct (IH eq_refl) as (x & sid & Hx & H). exists x, sid. split; [by right|done]. }
  destruct (f_g f) as [sid|] eqn:Ef; [|by apply Hrest]. destruct (rg sid) as [g|] eqn:Eg; [by apply Hrest|].
  cbn. intros [= <-]. exists f, sid. split; [left|done].
Qed.

Lemma staged_graph_ids_total rg fl : staged_graph_ids rg fl <> Panic.
Proof.
  induction fl as [|f fl IH]; [done|]. cbn [staged_graph_ids].
  destruct (f_g f) as [sid|]; [destruct (rg sid)|]; cbn; destruct (staged_graph_ids rg fl); done.
Qed.

(** C12: a query over a staged transaction, with a schema bundle and derived facts
    on top, sees exactly what it should: staging fails only on a flake whose
    graph the ledger does not know, and otherwise every range read of the stack
    returns, in index order and up to its time bound, the committed novelty of
    the graph, the staged flakes routed to it and, in the default graph, the
    bundle and the derived facts; a range with inverted bounds is empty.  The one
    exception: derived facts panic on an inverted range in the default graph
    ([inverted_range_panics]).  The stack is read through the trait alone. *)
Theorem staged_stack_exact (base : LedgerState) fl rg bundle dfl same_as epoch id :
  novelty_ok (ls_novelty base) -> Forall flake_sound fl -> zlen fl < 2 ^ 32 ->
  bundle_ok bundle -> Forall flake_sound dfl ->
  match staged_new base fl rg with
  | Ok v =>
      let view := reasoning_new (bundle_overlay_new v bundle) (derived_build dfl same_as epoch id) in
      forall g index first rhs leftmost to_t,
        in_u 16 g -> bounds_ordinary first rhs ->
        match overlay_flakes view g index first rhs leftmost to_t with
        | Some read =>
            answers index first rhs leftmost to_t
              (graph_contents (ls_novelty base) g ++ List.filter (fun f => bool_decide (graph_of rg f = Some g)) fl ++
               if g =? 0 then sb_spot bundle ++ dfl else []) (Some read)
        | None => g = 0 /\ dfl <> [] /\ ~ bounds_ordered index first rhs leftmost
        end
  | Err (UnknownGraphSid sid) => exists f, f ∈ fl /\ f_g f = Some sid /\ rg sid = None
  | Panic => False
  end.
Proof.
  intros Hn Hs Hl Hb Hd. unfold staged_new. destruct (from_flakes fl rg) as [so|e|] eqn:E; cbn [mbind outcome_bind].
  - destruct (from_flakes_ok fl rg so Hs Hl E) as (Hok & Efl & Hof). destruct (derived_build_ok dfl same_as epoch id Hd) as [Hdo Hdp].
    intros g index first rhs leftmost to_t Hg Hbo. set (view := reasoning_new _ _).
    assert (reasoning_ok view) as Hv by (split; [split; [split|]|]; done).
    pose proof (reasoning_reads view g index first rhs leftmost to_t Hv Hg Hbo) as H.
    change (overlay_flakes view g index first rhs leftmost to_t) with (reasoning_flakes view g index first rhs leftmost to_t).
    assert (staged_ledger_ok (mkStagedLedger base so (nv_epoch (ls_novelty base) + 1))) as Hst by done.
    specialize (H (bundle_reads (ro_base view) g index first rhs leftmost to_t (proj1 Hv) Hg Hbo
      (staged_ledger_answers _ g index first rhs leftmost to_t Hst Hg Hbo))).
    destruct (reasoning_flakes view g index first rhs leftmost to_t) as [read|].
    + eapply answers_perm; [|exact H]. cbn -[derived_build]. unfold reasoning_contents, bundle_contents, derived_contents.
      cbn -[derived_build]. unfold staged_contents. cbn. rewrite Hof, <- !app_assoc. do 2 f_equiv. destruct (g =? 0); [|done]. by rewrite Hdp.
    + destruct H as (H1 & H2 & H3). split_and!; [done| |done]. intros ->. by apply H2.
  - unfold from_flakes in E. destruct fl as [|f fl]; [done|]. destruct (staged_graph_ids rg (f :: fl)) as [ids|e'|] eqn:Ei; [done| |done].
    injection E as ->. apply staged_graph_ids_fails in Ei as (x & sid & Hx & H1 & H2 & ->). by exists x.
  - unfold from_flakes in E. destruct fl as [|f fl]; [done|]. pose proof (staged_graph_ids_total rg (f :: fl)).
    by destruct (staged_graph_ids rg (f :: fl)).
Qed.
End staged_view.
