(* ===== verification/Range.v ===== *)
(** * Range queries (fluree-db-core/src/range.rs, query_bounds.rs)

    [range_with_overlay] hands a query to the range provider of the snapshot.  A
    ledger that was never indexed has none: the query is answered from the
    overlay alone, by collecting it, keeping the newest operation of each fact,
    and applying the match and the options.  The overlay is any
    [OverlayProvider].  [TemporalText] parses the text of a
    temporal value (temporal.rs over chrono). *)

From stdpp Require Import base list numbers gmap sorting strings.
From Stdlib Require Import ZArith Lia.
From S2P Require Import Prelude Bytes Vocab Cmp Value Flake FactState Segment SegmentRead Novelty.
From S2P Require Import NoveltyRead NoveltyApply NoveltyBulk NoveltyHistory Views.

Local Open Scope Z_scope.

Inductive RangeTest := TestEq | TestLt | TestLe | TestGt | TestGe.

#[export] Instance RangeTest_eq_dec : EqDecision RangeTest.
Proof. solve_decision. Defined.

(** The text parsed as a value of the kind of a temporal value. *)
Class TemporalText `{VL : ValueLib} := parse_as : FlakeValue -> str -> option FlakeValue.

Section range.
Context `{VL : ValueLib, TT : !TemporalText, SL : SortLib}.

Record RangeMatch := mkMatch {
  rm_s : option Sid;
  rm_p : option Sid;
  rm_o : option FlakeValue;
  rm_dt : option Sid;
  rm_t : option Z;
}.

Definition match_all : RangeMatch := mkMatch None None None None None.
Definition match_subject (s : Sid) : RangeMatch := mkMatch (Some s) None None None None.
Definition match_subject_predicate (s p : Sid) : RangeMatch := mkMatch (Some s) (Some p) None None None.
Definition match_predicate (p : Sid) : RangeMatch := mkMatch None (Some p) None None None.
Definition match_predicate_object (p : Sid) (o : FlakeValue) : RangeMatch := mkMatch None (Some p) (Some o) None None.
Definition match_at_t (t : Z) : RangeMatch := mkMatch None None None None (Some t).

(** ** Object bounds *)

Record ObjectBounds := mkBounds { ob_lower : option (FlakeValue * bool); ob_upper : option (FlakeValue * bool) }.

(** A text against a temporal value, on either side. *)
Definition coerce_temporal_string_cmp (a b : FlakeValue) : option comparison :=
  match a, b with
  | String s, v => if is_temporal v then p ← parse_as v s; temporal_cmp p v else None
  | v, String s => if is_temporal v then p ← parse_as v s; temporal_cmp v p else None
  | _, _ => None
  end.

Definition bounds_class_cmp (a b : FlakeValue) : option comparison :=
  if is_numeric a && is_numeric b then numeric_cmp a b
  else if is_temporal a && is_temporal b then temporal_cmp a b
  else match coerce_temporal_string_cmp a b with
       | Some c => Some c
       | None => if type_discriminant a =? type_discriminant b then Some (value_cmp a b) else None
       end.

Definition bounds_matches (b : ObjectBounds) (value : FlakeValue) : bool :=
  match ob_lower b with
  | Some (lower, inclusive) =>
      match bounds_class_cmp value lower with
      | None | Some Lt => false
      | Some Eq => inclusive
      | Some Gt => true
      end
  | None => true
  end &&
  match ob_upper b with
  | Some (upper, inclusive) =>
      match bounds_class_cmp value upper with
      | None | Some Gt => false
      | Some Eq => inclusive
      | Some Lt => true
      end
  | None => true
  end.

Record RangeOptions := mkOptions {
  ro_limit : option nat;
  ro_offset : option nat;
  ro_flake_limit : option nat;
  ro_to_t : option Z;
  ro_from_t : option Z;
  ro_object_bounds : option ObjectBounds;
  ro_history_mode : bool;
  ro_prefetch_n : option nat;
  ro_predicate_filter : option (list Sid);
}.

Definition options_new : RangeOptions := mkOptions None None None None None None false None None.

(** ** Matching *)

(** [dt_compatible] of datatypes.rs. *)
Definition dt_compatible (expected actual : Sid) : bool :=
  if bool_decide (expected = actual) then true
  else if negb (namespace_code expected =? XSD) || negb (namespace_code actual =? XSD) then false
  else
    let named s := bool_decide (name expected = bytes_of_string s) in
    let one_of l := existsb (fun s => bool_decide (name actual = bytes_of_string s)) l in
    if named "integer"%string then one_of ["integer"; "int"; "short"; "byte"; "long"]%string
    else if named "double"%string then one_of ["double"; "float"]%string
    else false.

Definition flake_matches_range_eq (f : Flake) (m : RangeMatch) : bool :=
  match rm_s m with Some s => bool_decide (f_s f = s) | None => true end &&
  match rm_p m with Some p => bool_decide (f_p f = p) | None => true end &&
  match rm_o m with Some o => value_eq (f_o f) o | None => true end &&
  match rm_dt m with Some dt => dt_compatible dt (f_dt f) | None => true end &&
  match rm_t m with Some t => f_t f =? t | None => true end.

Definition apply_range_filter (fl : list Flake) (test : RangeTest) (m : RangeMatch) : list Flake :=
  if negb (bool_decide (test = TestEq)) then fl else List.filter (fun f => flake_matches_range_eq f m) fl.

Definition apply_overlay_only_options (fl : list Flake) (opts : RangeOptions) : list Flake :=
  let fl := match ro_object_bounds opts with
            | Some b => List.filter (fun f => bounds_matches b (f_o f)) fl
            | None => fl
            end in
  let fl := match ro_offset opts with Some offset => drop (Nat.min offset (length fl)) fl | None => fl end in
  match (match ro_flake_limit opts with Some n => Some n | None => ro_limit opts end) with
  | Some cap => take cap fl
  | None => fl
  end.

(** ** Current flakes *)

(** [FactKeyRef]: equality of the values, not of their order. *)
Definition fact_key_eq (a b : Flake) : bool :=
  bool_decide (f_s a = f_s b) && bool_decide (f_p a = f_p b) && value_eq (f_o a) (f_o b) &&
  bool_decide (f_dt a = f_dt b) && bool_decide (f_m a = f_m b).

(** The walk from the last flake to the first; the kept ones in walk order. *)
Fixpoint stale_walk (seen l : list Flake) : list Flake :=
  match l with
  | [] => []
  | f :: l =>
      if existsb (fact_key_eq f) seen then stale_walk seen l
      else if f_op f then f :: stale_walk (f :: seen) l
      else stale_walk (f :: seen) l
  end.

Definition remove_stale_flakes (fl : list Flake) : list Flake := reverse (stale_walk [] (reverse fl)).

Definition collect_overlay_only {O} `{OP : !OverlayProvider O} (o : O) (g : Z) (index : IndexType) (to_t : Z) :
    option (list Flake) :=
  fl ← overlay_flakes o g index None None true to_t;
  Some (remove_stale_flakes (sort_by (comparator index) (List.filter (fun f => f_t f <=? to_t) fl))).

Inductive RangeError (PE : Type) :=
| ProviderFailed (e : PE)
| NoRangeProvider.
Arguments ProviderFailed {PE} e.
Arguments NoRangeProvider {PE}.

(** The provider and the time of the snapshot are arguments. *)
Definition range_with_overlay {O PE} `{OP : !OverlayProvider O}
    (provider : option (Z -> IndexType -> RangeTest -> RangeMatch -> RangeOptions -> O -> outcome PE (list Flake)))
    (snapshot_t : Z) (g : Z) (o : O) (index : IndexType) (test : RangeTest) (m : RangeMatch) (opts : RangeOptions) :
    outcome (RangeError PE) (list Flake) :=
  match provider with
  | Some provider => map_err ProviderFailed (provider g index test m opts o)
  | None =>
      if snapshot_t =? 0 then
        match collect_overlay_only o g index (default i64_max (ro_to_t opts)) with
        | Some fl => Ok (apply_overlay_only_options (apply_range_filter fl test m) opts)
        | None => Panic
        end
      else Err NoRangeProvider
  end.

Definition range_bounded_with_overlay {O PE} `{OP : !OverlayProvider O}
    (provider : option (Z -> IndexType -> Flake -> Flake -> RangeOptions -> O -> outcome PE (list Flake)))
    (snapshot_t : Z) (g : Z) (o : O) (index : IndexType) (start_bound end_bound : Flake) (opts : RangeOptions) :
    outcome (RangeError PE) (list Flake) :=
  match provider with
  | Some provider => map_err ProviderFailed (provider g index start_bound end_bound opts o)
  | None =>
      if snapshot_t =? 0 then
        match collect_overlay_only o g index (default i64_max (ro_to_t opts)) with
        | Some fl =>
            Ok (apply_overlay_only_options
                  (List.filter (fun f => match compare index f start_bound with Lt => false | _ => true end &&
                                         not_greater (compare index f end_bound)) fl) opts)
        | None => Panic
        end
      else Err NoRangeProvider
  end.
End range.

(** ** Facts *)
Section facts.
Context `{VL : ValueLib, VLL : !ValueLibLaws, TT : !TemporalText, SL : SortLib, SLL : !SortLaws}.

(** Objects on which equality and order agree. *)
Definition plain_key (f : Flake) : Prop :=
  flake_ordinary f /\ match f_o f with Vector _ | Duration _ => False | _ => True end.

Record same_fact (a b : Flake) : Prop := {
  sf_s : f_s a = f_s b;
  sf_p : f_p a = f_p b;
  sf_o : value_cmp (f_o a) (f_o b) = Eq;
  sf_dt : f_dt a = f_dt b;
  sf_m : f_m a = f_m b;
}.

Lemma fact_key_eq_iff a b : plain_key a -> flake_ordinary b -> fact_key_eq a b = true <-> same_fact a b.
Proof.
  intros [Ha Hk] Hb. unfold fact_key_eq. rewrite !andb_true_iff, !bool_decide_eq_true, value_eq_cmp by done.
  split; [intros [[[[? ?] ?] ?] ?]; by split|]. by intros [].
Qed.

Lemma same_fact_refl a : flake_ordinary a -> same_fact a a.
Proof. intros Ha. split; try done. by apply (cmp_refl (P := ordinary)). Qed.

Lemma same_fact_sym a b : flake_ordinary a -> flake_ordinary b -> same_fact a b -> same_fact b a.
Proof. intros Ha Hb []. split; try done. rewrite (cmp_sym (P := ordinary) (f_o a) (f_o b)) by done. by rewrite sf_o0. Qed.

Lemma same_fact_trans a b c : flake_ordinary a -> flake_ordinary b -> flake_ordinary c -> same_fact a b -> same_fact b c -> same_fact a c.
Proof.
  intros Ha Hb Hc [] []. split; try congruence. by rewrite (cmp_eq_l (P := ordinary) _ _ (f_o c) Ha Hb Hc sf_o0).
Qed.

(** Operations on one fact are ordered by time, a retraction before an
    assertion. *)
Lemma compare_same_fact index a b :
  same_fact a b -> compare index a b = then_with (Z.compare (f_t a) (f_t b)) (bool_cmp (f_op a) (f_op b)).
Proof.
  intros [Es Ep Eo Ed Em]. assert (forall x, sid_cmp x x = Eq) as Hs by (intros x; by apply sid_cmp_Eq).
  assert (cmp_object a b = Eq) as Hob by (unfold cmp_object; by rewrite Eo, Ed, Hs).
  assert (cmp_meta a b = Eq) as Hm.
  { unfold cmp_meta. rewrite Em. destruct (f_m b) as [m|]; [|done]. cbn. by apply (cmp_refl (P := everything)). }
  unfold compare. destruct index; cbn [comparator]; unfold cmp_spot, cmp_psot, cmp_post, cmp_opst;
    rewrite Es, Ep, !Hs, Hob; cbn [then_with]; rewrite ?Hm; by destruct (f_t a ?= f_t b), (bool_cmp (f_op a) (f_op b)).
Qed.

(** ** Stale flakes *)

Lemma stale_walk_incl seen l : stale_walk seen l `sublist_of` l.
Proof.
  revert seen. induction l as [|f l IH]; intros seen; [constructor|]. cbn.
  destruct (existsb (fact_key_eq f) seen); [by constructor|]. destruct (f_op f); by constructor.
Qed.

(** The walk keeps the assertions it meets first. *)
Lemma stale_walk_elem l : forall seen f, Forall plain_key (seen ++ l) ->
  f ∈ stale_walk seen l <->
  f_op f = true /\ exists l1 l2, l = l1 ++ f :: l2 /\ forall b, b ∈ seen ++ l1 -> ~ same_fact f b.
Proof.
  induction l as [|x l IH]; intros seen f Hp.
  { cbn. rewrite elem_of_nil. split; [done|]. intros (_ & l1 & l2 & E & _). by destruct l1. }
  pose proof Hp as Hp'. rewrite Forall_app, Forall_cons in Hp'. destruct Hp' as (Hs & Hx & Hl).
  assert (forall y, y ∈ seen \/ y ∈ l -> plain_key y) as Hpl by (rewrite Forall_forall in Hs, Hl; intros y [?|?]; auto).
  assert (existsb (fact_key_eq x) seen = true <-> exists b, b ∈ seen /\ same_fact x b) as Hex.
  { rewrite existsb_exists. setoid_rewrite <- list_elem_of_In. split; intros (b & Hb & H); exists b; (split; [done|]);
      apply fact_key_eq_iff; auto; by apply Hpl; left. }
  assert (forall l1, (forall b, b ∈ (x :: seen) ++ l1 -> ~ same_fact f b) <-> ~ same_fact f x /\ forall b, b ∈ seen ++ l1 -> ~ same_fact f b) as Hcons.
  { intros l1. cbn. setoid_rewrite elem_of_cons. naive_solver. }
  assert (forall seen', Forall plain_key (seen' ++ l) -> (forall b, b ∈ seen' -> b ∈ seen \/ b = x) ->
    (forall g, g ∈ l -> (forall b, b ∈ seen' -> ~ same_fact g b) <-> (forall b, b ∈ x :: seen -> ~ same_fact g b)) ->
    f ∈ stale_walk seen' l <-> f_op f = true /\ exists l1 l2, x :: l = l1 ++ f :: l2 /\ l1 <> [] /\
      forall b, b ∈ seen ++ l1 -> ~ same_fact f b) as Hrest.
  { intros seen' Hp2 _ Hsame. rewrite IH by done. f_equiv. split.
    - intros (l1 & l2 & -> & Hb). exists (x :: l1), l2. split; [done|]. split; [done|].
      assert (f ∈ l1 ++ f :: l2) as Hf by (apply elem_of_app; right; left).
      assert (forall b, b ∈ x :: seen -> ~ same_fact f b) as Hb' by (apply Hsame; [done|]; intros b Hb0; apply Hb, elem_of_app; by left).
      intros b. rewrite elem_of_app, elem_of_cons. intros [?|[->|?]]; [apply Hb'; by right|apply Hb'; left|apply Hb, elem_of_app; by right].
    - intros (l1 & l2 & E & Hne & Hb). destruct l1 as [|y l1]; [done|]. injection E as <- ->. exists l1, l2. split; [done|].
      intros b. rewrite elem_of_app. intros [Hin|Hin]; [|apply Hb, elem_of_app; right; by right].
      eapply Hsame; [apply elem_of_app; right; left| |done]. intros z [->|Hz]%elem_of_cons; apply Hb, elem_of_app; [right; left|by left]. }
  assert (f_op f = true /\ (exists l1 l2, x :: l = l1 ++ f :: l2 /\ forall b, b ∈ seen ++ l1 -> ~ same_fact f b) <->
    (f = x /\ f_op f = true /\ forall b, b ∈ seen -> ~ same_fact f b) \/
    (f_op f = true /\ exists l1 l2, x :: l = l1 ++ f :: l2 /\ l1 <> [] /\ forall b, b ∈ seen ++ l1 -> ~ same_fact f b)) as ->.
  { split.
    - intros (Hop & l1 & l2 & E & Hb). destruct l1 as [|y l1]; [left|right; split; [done|]; by exists (y :: l1), l2].
      injection E as -> ->. rewrite app_nil_r in Hb. done.
    - intros [(-> & Hop & Hb)|(Hop & l1 & l2 & E & _ & Hb)]; (split; [done|]); [exists [], l|by exists l1, l2]. by rewrite app_nil_r. }
  cbn [stale_walk]. destruct (existsb (fact_key_eq x) seen) eqn:Ee.
  - destruct (proj1 Hex eq_refl) as (y & Hy & Hxy). rewrite (Hrest seen); [|by apply Forall_app|by left|].
    + split; [by right|]. intros [(-> & _ & Hb)|?]; [|done]. exfalso. by apply (Hb y).
    + intros g Hg. setoid_rewrite elem_of_cons. split; [|naive_solver]. intros Hb b [->|?]; [|by apply Hb].
      intros Hgx. apply (Hb y Hy). eapply same_fact_trans; [| | |exact Hgx|exact Hxy]; [apply Hpl; by right|apply Hx|apply Hpl; by left].
  - assert (forall b, b ∈ seen -> ~ same_fact x b) as Hnew by (intros b Hb Hc; by discriminate (proj2 Hex (ex_intro _ b (conj Hb Hc)))).
    assert (Forall plain_key ((x :: seen) ++ l)) as Hp2 by (by rewrite Forall_app, Forall_cons).
    pose proof (Hrest (x :: seen) Hp2 ltac:(intros b; rewrite elem_of_cons; naive_solver) ltac:(done)) as H.
    destruct (f_op x) eqn:Eop; [rewrite elem_of_cons|]; rewrite H; [naive_solver|]. split; [by right|].
    intros [(-> & ? & _)|?]; [congruence|done].
Qed.

Lemma Exists_dec_elem {A} (P : A -> Prop) (l : list A) :
  (forall y, y ∈ l -> P y \/ ~ P y) -> (exists y, y ∈ l /\ P y) \/ forall y, y ∈ l -> ~ P y.
Proof.
  induction l as [|a l IH]; intros H; [right; by intros y ?%not_elem_of_nil|]. destruct (H a ltac:(left)) as [Ha|Ha]; [left; exists a; split; [left|done]|].
  destruct IH as [(y & Hy & HP)|Hno]; [intros y Hy; apply H; by right|left; exists y; split; [by right|done]|].
  right. intros y [->|Hy]%elem_of_cons; [done|by apply Hno].
Qed.

(** The last element of a class that has one. *)
Lemma last_of_class {A} (P : A -> Prop) (l : list A) : forall x, (forall y, y ∈ l -> P y \/ ~ P y) -> x ∈ l -> P x ->
  exists l1 y l2, l = l1 ++ y :: l2 /\ P y /\ forall z, z ∈ l2 -> ~ P z.
Proof.
  induction l as [|a l IH]; intros x Hd Hx HP; [by apply not_elem_of_nil in Hx|].
  destruct (Exists_dec_elem P l) as [(y & Hy & HPy)|Hno]; [intros y Hy; apply Hd; by right| |].
  - destruct (IH y) as (l1 & z & l2 & -> & H); [intros z Hz; apply Hd; by right|done|done|]. by exists (a :: l1), z, l2.
  - exists [], a, l. apply elem_of_cons in Hx as [->|Hx]; [done|]. exfalso. by apply (Hno x).
Qed.

(** A later flake of a walked list is of another fact. *)
Lemma stale_walk_apart l : forall seen, Forall plain_key (seen ++ l) ->
  ForallOrdPairs (fun a b => ~ same_fact b a) (stale_walk seen l).
Proof.
  induction l as [|x l IH]; intros seen Hp; [constructor|]. cbn [stale_walk].
  assert (Forall plain_key ((x :: seen) ++ l)) as Hp2 by (by rewrite Forall_app, Forall_cons in *; naive_solver).
  assert (Forall plain_key (seen ++ l)) as Hp1 by (by rewrite Forall_app, Forall_cons in *; naive_solver).
  destruct (existsb (fact_key_eq x) seen); [by apply IH|]. destruct (f_op x); [|by apply IH].
  constructor; [|by apply IH]. apply Forall_forall. intros y (_ & l1 & l2 & _ & Hy)%stale_walk_elem; [|done].
  apply Hy. left.
Qed.

(** The flakes current at [to_t]: asserted at the newest time of their fact. *)
Record current (to_t : Z) (l : list Flake) (f : Flake) : Prop := {
  cu_in : f ∈ l;
  cu_asserted : f_op f = true;
  cu_visible : f_t f <= to_t;
  cu_newest b : b ∈ l -> f_t b <= to_t -> same_fact f b -> f_t b <= f_t f;
}.

(** In a sorted list, what the walk from the end keeps is last of its fact. *)
Lemma last_is_newest index l1 f l2 b :
  StronglySorted (cle (compare index)) (l1 ++ f :: l2) -> f_op f = true -> b ∈ l1 -> same_fact f b -> flake_ordinary f -> flake_ordinary b ->
  f_t b <= f_t f.
Proof.
  intros Hs Hop Hb Hsf Hf Hb'. apply StronglySorted_app in Hs as (Hs & _ & _).
  assert (cle (compare index) b f) as Hle by (apply Hs; [done|left]).
  unfold cle in Hle. rewrite compare_same_fact in Hle by by apply same_fact_sym. destruct (Z.compare_spec (f_t b) (f_t f)); [lia|lia|done].
Qed.

Lemma stale_current index l f :
  Forall plain_key l -> StronglySorted (cle (compare index)) l ->
  (f ∈ remove_stale_flakes l -> f_op f = true /\ f ∈ l /\ forall b, b ∈ l -> same_fact f b -> f_t b <= f_t f) /\
  (f_op f = true -> f ∈ l -> (forall b, b ∈ l -> same_fact f b -> f_t b <= f_t f) ->
   exists f', f' ∈ remove_stale_flakes l /\ same_fact f f' /\ f_t f' = f_t f).
Proof.
  intros Hp Hs. assert (Forall plain_key ([] ++ reverse l)) as Hpr by by rewrite reverse_Permutation.
  assert (forall x, x ∈ l -> flake_ordinary x) as Ho by (rewrite Forall_forall in Hp; intros x Hx; by apply Hp).
  unfold remove_stale_flakes. setoid_rewrite elem_of_reverse. setoid_rewrite stale_walk_elem; [|done..]. split.
  - intros (Hop & r1 & r2 & E & Hnew). apply (f_equal reverse) in E. rewrite reverse_involutive, reverse_app, reverse_cons, <- app_assoc in E.
    cbn in E. subst l. assert (f ∈ reverse r2 ++ f :: reverse r1) as Hf by (apply elem_of_app; right; left). split_and!; [done|done|].
    intros b Hb Hfb. pose proof (Ho b Hb) as Hbo. apply elem_of_app in Hb as [Hb|[->|Hb]%elem_of_cons]; [|done|].
    + by eapply last_is_newest; eauto.
    + exfalso. apply (Hnew b); [|done]. by rewrite app_nil_l, <- elem_of_reverse.
  - intros Hop Hf Hnew. destruct (last_of_class (same_fact f) l f) as (l1 & f' & l2 & -> & Hff & Hlast); [|done|by apply same_fact_refl, Ho|].
    { intros b Hb. destruct (fact_key_eq f b) eqn:E; [left|right]; [by apply fact_key_eq_iff in E; [|by rewrite Forall_forall in Hp; apply Hp|by apply Ho]|].
      intros H. apply fact_key_eq_iff in H; [congruence|by rewrite Forall_forall in Hp; apply Hp|by apply Ho]. }
    assert (f' ∈ l1 ++ f' :: l2) as Hin by (apply elem_of_app; right; left). pose proof (Hnew f' Hin Hff) as Hle.
    assert (f_op f' = true /\ f_t f' = f_t f) as [Hop' Ht].
    { apply elem_of_app in Hf as [Hf|[->|Hf]%elem_of_cons]; [|done|].
      - apply StronglySorted_app in Hs as (Hs & _ & _). assert (cle (compare index) f f') as H by (apply Hs; [done|left]).
        unfold cle in H. rewrite compare_same_fact, Hop in H by done. destruct (Z.compare_spec (f_t f) (f_t f')); [|lia|done].
        cbn in H. by destruct (f_op f').
      - exfalso. apply (Hlast f Hf), same_fact_refl, Ho, elem_of_app. right. by right. }
    exists f'. split; [|done]. split; [done|]. exists (reverse l2), (reverse l1). split; [by rewrite reverse_app, reverse_cons, <- app_assoc|].
    intros b Hb. rewrite app_nil_l, elem_of_reverse in Hb. intros H. apply (Hlast b Hb).
    assert (b ∈ l1 ++ f' :: l2) by (apply elem_of_app; right; by right). by eapply same_fact_trans; [apply Ho..|exact Hff|exact H].
Qed.

Definition match_ordinary (m : RangeMatch) : Prop := match rm_o m with Some o => ordinary o | None => True end.

(** A match sees facts and times only. *)
Lemma matches_same_fact f f' m :
  plain_key f -> plain_key f' -> match_ordinary m -> same_fact f f' -> f_t f' = f_t f ->
  flake_matches_range_eq f m = flake_matches_range_eq f' m.
Proof.
  intros [Hf Hk] [Hf' Hk'] Hm [Es Ep Eo Ed _] Et. unfold flake_matches_range_eq, match_ordinary in *. rewrite Es, Ep, Ed, Et.
  destruct (rm_o m) as [o|]; [|done]. do 3 f_equal. apply eq_true_iff_eq. rewrite !value_eq_cmp by done.
  by rewrite (cmp_eq_l (P := ordinary) _ _ o Hf Hf' Hm Eo).
Qed.

Lemma sublist_sorted {A} (R : A -> A -> Prop) (l k : list A) : l `sublist_of` k -> StronglySorted R k -> StronglySorted R l.
Proof.
  induction 1 as [|x l k H IH|x l k H IH]; intros Hs; [constructor| |]; apply StronglySorted_inv in Hs as [Hs Hx]; [|by apply IH].
  constructor; [by apply IH|]. rewrite Forall_forall in *. intros y Hy. apply Hx. by eapply elem_of_sublist.
Qed.

Lemma reverse_sublist {A} (l k : list A) : l `sublist_of` k -> reverse l `sublist_of` reverse k.
Proof.
  induction 1 as [|x l k H IH|x l k H IH]; [done| |]; rewrite ?reverse_cons; [by apply sublist_app|by apply sublist_inserts_r].
Qed.

Lemma ord_pairs_reverse {A} (R : A -> A -> Prop) (l : list A) :
  ForallOrdPairs R l -> ForallOrdPairs (fun a b => R b a) (reverse l).
Proof.
  induction 1 as [|x l Hx H IH]; [constructor|]. rewrite reverse_cons. clear H.
  assert (Forall (fun y => R x y) (reverse l)) as Hx' by by rewrite reverse_Permutation.
  induction IH as [|y k Hy IH' IH]; cbn; [repeat constructor|]. apply Forall_cons in Hx' as [Hxy Hx'].
  constructor; [|by apply IH]. apply Forall_app. split; [done|by constructor].
Qed.

Lemma ord_pairs_filter {A} (R : A -> A -> Prop) (p : A -> bool) (l : list A) :
  ForallOrdPairs R l -> ForallOrdPairs R (List.filter p l).
Proof.
  induction 1 as [|x l Hx H IH]; [constructor|]. cbn. destruct (p x); [|done]. constructor; [|done].
  rewrite Forall_forall in *. intros y [Hy _]%elem_of_list_filter_b. by apply Hx.
Qed.
End facts.

Section genesis.
Context `{VL : ValueLib, VLL : !ValueLibLaws, TT : !TemporalText, SL : SortLib, SLL : !SortLaws}.
Context {O : Type} `{OP : !OverlayProvider O, OC : !OverlayContract O}.

(** The flakes a ledger that was never indexed shows at a time. *)
Lemma collect_overlay_only_spec (o : O) g index to_t :
  overlay_ok o -> in_u 16 g -> Forall plain_key (contents o g) ->
  exists fl, collect_overlay_only o g index to_t = Some fl /\
    StronglySorted (cle (compare index)) fl /\ ForallOrdPairs (fun a b => ~ same_fact a b) fl /\
    (forall f, f ∈ fl -> current to_t (contents o g) f) /\
    (forall f, current to_t (contents o g) f -> exists f', f' ∈ fl /\ same_fact f f' /\ f_t f' = f_t f).
Proof.
  intros Hok Hg Hp. destruct (reads_answer o g index None None true to_t Hok Hg ltac:(done) I) as (fl & E & P & _).
  unfold collect_overlay_only. rewrite E. cbn [mbind option_bind].
  assert (List.filter (fun f => f_t f <=? to_t) fl ≡ₚ List.filter (fun f => f_t f <=? to_t) (contents o g)) as P2.
  { rewrite (list_filter_perm _ _ _ P), filter_and. erewrite list_filter_ext; [done|]. intros f _. unfold visible, in_range. cbn. by destruct (f_t f <=? to_t). }
  assert (Forall plain_key (List.filter (fun f => f_t f <=? to_t) fl)) as Hp2.
  { rewrite P2. rewrite Forall_forall in *. intros f [Hf _]%elem_of_list_filter_b. by apply Hp. }
  assert (Forall flake_ordinary (List.filter (fun f => f_t f <=? to_t) fl)) as Ho by (eapply Forall_impl; [exact Hp2|]; by intros f []).
  set (l := sort_by (comparator index) (List.filter (fun f => f_t f <=? to_t) fl)).
  assert (l ≡ₚ List.filter (fun f => f_t f <=? to_t) (contents o g)) as P3 by (etrans; [apply (sort_by_perm flake_ordinary); [apply _|done]|done]).
  assert (StronglySorted (cle (compare index)) l) as Hs by (apply (sort_by_sorted flake_ordinary); [apply _|done]).
  assert (forall f, f ∈ l <-> f ∈ contents o g /\ f_t f <= to_t) as Hin by (intros f; by rewrite P3, elem_of_list_filter_b, Z.leb_le).
  assert (Forall plain_key l) as Hpl by (rewrite P3, <- P2; done).
  exists (remove_stale_flakes l). split_and!; [done| | | |].
  - eapply sublist_sorted; [|exact Hs]. unfold remove_stale_flakes. rewrite <- (reverse_involutive l) at 2. apply reverse_sublist, stale_walk_incl.
  - unfold remove_stale_flakes. apply ord_pairs_reverse. apply stale_walk_apart. by rewrite reverse_Permutation.
  - intros f (Hop & [Hf Ht]%Hin & Hnew)%(stale_current index); [|done..]. split; try done. intros b Hb Hbt. by apply Hnew, Hin.
  - intros f [Hf Hop Ht Hnew]. apply (stale_current index); [done..|by apply Hin|]. intros b [Hb Hbt]%Hin. by apply Hnew.
Qed.


(** The history options are not looked at. *)
Lemma genesis_ignores_history {PE} (o : O) g index test m limit offset flake_limit to_t bounds n pf from_t from_t' :
  range_with_overlay (PE := PE) None 0 g o index test m (mkOptions limit offset flake_limit to_t from_t bounds true n pf) =
  range_with_overlay (PE := PE) None 0 g o index test m (mkOptions limit offset flake_limit to_t from_t' bounds false n pf).
Proof. done. Qed.
End genesis.
