(* ===== verification/LedgerPlain.v ===== *)
(** * Sample ledgers

    A ledger with two commits written with [write_commit], loaded and caught up;
    the properties of the ledger state at it, and the places where the code does
    not do what its comments say. *)

From stdpp Require Import base list numbers gmap sorting strings.
From Stdlib Require Import ZArith Lia Ascii.
From S2P Require Import Prelude Bytes Vocab Cmp Value Plain Flake Envelope CommitCodec CommitDag CommitDagPlain.
From S2P Require Import IriSplit NsCodes GraphRegistry Dicts Snapshot CommitFlakes FactState Segment SegmentRead Novelty.
From S2P Require Import NoveltyRead PlainNovelty NoveltyApply NoveltyCompact NoveltyBulk NoveltyHistory.
From S2P Require Import Ledger LedgerLaws LedgerIndex LedgerReach LedgerCatchUp LedgerReload SameAs Views Range.

Local Open Scope Z_scope.

(** The digest and the text of a one-byte content id are that byte; a time is
    its length. *)
#[export] Instance PlainText : CommitText := {|
  digest_hex c := [Z.of_N (N_of_ascii c)];
  cid_to_string c := [Z.of_N (N_of_ascii c)];
  parse_rfc3339_millis s := match s with [] => None | _ => Some (zlen s) end;
|}.

(** ** Two commits *)

Definition ledger_name : str := bytes_of_string "t:main".
Definition ex_ns : str := bytes_of_string "http://example.org/".
Definition ex_graph : str := bytes_of_string "http://example.org/g".

Definition fact (g : option Sid) (o t : Z) (op : bool) : Flake :=
  mkFlake PlainLib g (mkSid 20 [97]) (mkSid 20 [98]) (Long o) (mkSid XSD (bytes_of_string "long")) t op None.

Definition first_commit (i : option ContentId) : Commit :=
  mkCommit PlainLib PlainCid i 1 (Some [49]) [fact None 1 1 true] [] None {[ 20 := ex_ns ]} None [] [] ∅ None.
Definition second_commit (i : option ContentId) : Commit :=
  mkCommit PlainLib PlainCid i 2 (Some [50; 50]) [fact None 1 2 false; fact (Some (mkSid 20 [103])) 2 2 true]
    [cid 1] None ∅ None [] [] {[ 3 := ex_graph ]} (Some MostGranular).

Definition chain_store := store_of [(1, first_commit None); (2, second_commit None)].
Definition chain_commits : list Commit := [first_commit (Some (cid 1)); second_commit (Some (cid 2))].
Definition no_roots (b : bytes) : outcome unit LedgerSnapshotMetadata := Err tt.
Definition sample_record : NsRecord := mkNsRecord PlainCid ledger_name (Some (cid 2)) 2 None 0.

(** The ledger before its commits. *)
Definition base : LedgerState :=
  mkLedger (sn_with_ledger_id ledger_name (genesis ledger_name)) (novelty_new 0) new_genesis small_dicts_new None None
    (Some (unborn_record sample_record)) None.

Definition caught_up_state : LedgerState := (catch_up (SE := unit) (RE := unit) base ledger_name chain_commits).1.

Definition meta_sid : Sid := mkSid EMPTY (txn_meta_graph_iri ledger_name).

(** No commit of the chain registers the prefix of the ledger's own graphs. *)
Definition own_prefix : str := bytes_of_string "urn:fluree:t:main#".

(** ** Checks *)

Definition plain_iri_check (iri : str) : bool :=
  utf8_valid iri && match query_cut iri with None => true | Some _ => false end.

Lemma plain_iri_checked iri : plain_iri_check iri = true -> plain_iri iri.
Proof.
  unfold plain_iri_check. rewrite andb_true_iff. intros [H1 H2]. split; [done|]. intros (_ & q & c & Hq & _). by rewrite Hq in H2.
Qed.

Lemma registry_checked (check : str -> bool) s iri g :
  forallb (fun e => check e.1) (map_to_list (iri_to_id (sn_graph_registry s))) = true ->
  graph_id_for_iri (sn_graph_registry s) iri = Some g -> check iri = true.
Proof.
  rewrite forallb_forall. intros H Hg. apply (H (iri, g)), list_elem_of_In, elem_of_map_to_list. exact Hg.
Qed.

Lemma graphs_checked s :
  forallb (fun e => plain_iri_check e.1) (map_to_list (iri_to_id (sn_graph_registry s))) = true -> graphs_plain s.
Proof. intros H iri g Hg. by eapply plain_iri_checked, registry_checked. Qed.

Lemma avoids_checked p codes :
  forallb (fun e => negb (bool_decide (e.2 = p))) (map_to_list codes) = true -> avoids (eq p) codes.
Proof.
  rewrite forallb_forall. intros H k q Hk <-. assert (In (k, p) (map_to_list codes)) as Hin
    by (by apply list_elem_of_In, elem_of_map_to_list).
  apply H in Hin. cbn in Hin. by rewrite bool_decide_eq_true_2 in Hin.
Qed.

Definition agree (a b : Flake) : bool := negb (key_eqb (key_of a) (key_of b)) || Bool.eqb (f_op a) (f_op b).

Lemma conflicts_checked l g : forallb (fun a => forallb (agree a) l) l = true -> conflict_free (in_named g l).
Proof.
  rewrite forallb_forall. setoid_rewrite <- list_elem_of_In. intros H a b [Ha _]%in_named_elem [Hb _]%in_named_elem Hk _.
  specialize (H a Ha). rewrite forallb_forall in H. specialize (H b (proj1 (list_elem_of_In _ _) Hb)).
  unfold agree in H. rewrite Hk in H. by apply eqb_prop.
Qed.

Lemma base_loaded : load_with_store chain_store no_roots 20 (unborn_record sample_record) = Some (Ok base).
Proof. reflexivity. Qed.

Lemma base_wf : ledger_wf ledger_name base.
Proof.
  split.
  - apply genesis_wf.
  - apply graphs_checked. by vm_compute.
  - apply plain_iri_checked. by vm_compute.
  - apply novelty_new_wf.
  - apply new_genesis_wf.
  - split; apply sid_dict_new_wf.
  - intros g f _ Hf. unfold base in Hf. cbn [ls_novelty] in Hf. rewrite empty_contents in Hf. by apply elem_of_nil in Hf.
Qed.

Lemma base_room k : k < 2 ^ 31 -> dict_room (ls_dict_novelty base) k.
Proof.
  intros Hk. split; [|cbn; lia]. intros ns Hns.
  assert (ns_next (dn_subjects (ls_dict_novelty base)) ns <= 1); [|lia].
  unfold ns_next, ns_watermark, ns_entries. cbn [ls_dict_novelty base dn_subjects new_genesis].
  destruct (ns =? NS_OVERFLOW); cbn; by rewrite ?lookup_nil.
Qed.

Lemma base_ready : base_state (eq own_prefix) ledger_name base.
Proof.
  split; [apply base_wf|done| |exists TXN_META_GRAPH_ID; by vm_compute]. split.
  - apply avoids_checked. by vm_compute.
  - intros iri g Hg. apply (registry_checked (fun iri => match canonical_split iri MostGranular with
      | Ok (p, _) => bool_decide (own_prefix = p) | _ => false end)) in Hg; [|by vm_compute].
    change (sn_ns_split_mode (ls_snapshot base)) with MostGranular. unfold known_prefix.
    destruct (canonical_split iri MostGranular) as [[p q]|e|]; [|done..]. apply bool_decide_eq_true in Hg as <-.
    exists own_prefix, q. split; [done|]. by right.
Qed.

(** The checks of a commit whose metadata and graphs are simple. *)
Lemma chain_commit_checked c :
  commit_ok c -> is_Some (id c) -> keeps_mode MostGranular c ->
  forallb (fun e => negb (bool_decide (e.2 = own_prefix))) (map_to_list (namespace_delta c)) = true ->
  forallb (fun f => negb (is_unrouted_commit_flake f)) (flakes c) = true ->
  (forall g, conflict_free (in_named g (batch_of ledger_name meta_sid c))) ->
  chain_commit (eq own_prefix) ledger_name MostGranular meta_sid c.
Proof.
  intros H1 H2 H3 H4 H5 H6. split; try done.
  - by apply avoids_checked.
  - rewrite forallb_forall in H5. apply Forall_forall. intros f Hf%list_elem_of_In%H5. by apply negb_true_iff.
Qed.

Lemma first_commit_ok : chain_commit (eq own_prefix) ledger_name MostGranular meta_sid (first_commit (Some (cid 1))).
Proof.
  apply chain_commit_checked; [|by eexists|by left|by vm_compute..|].
  - by split; repeat constructor.
  - intros g. apply conflicts_checked. by vm_compute.
Qed.

Lemma second_commit_ok : chain_commit (eq own_prefix) ledger_name MostGranular meta_sid (second_commit (Some (cid 2))).
Proof.
  apply chain_commit_checked; [|by eexists|by right|by vm_compute..|].
  - split; try by repeat constructor. apply map_Forall_singleton, plain_iri_checked. by vm_compute.
  - intros g. apply conflicts_checked. by vm_compute.
Qed.

Lemma chain_ready :
  namespaces_ready (eq own_prefix) MostGranular (sn_namespace_codes (ls_snapshot base)) chain_commits.
Proof.
  split; [by apply map_Forall_empty|]. split; [|done]. apply map_Forall_singleton.
  exists ex_ns, [103]. split; [by vm_compute|]. left. exists 20. by vm_compute.
Qed.

Lemma chain_stored : stored_chain chain_store 20 sample_record 0 chain_commits.
Proof.
  split; [|done]. exists (cid 2). split; [reflexivity|]. split; [|reflexivity].
  vm_cast_no_check (eq_refl (Some (Ok (E := LoadError (SE := unit)) <$> reverse chain_commits))).
Qed.

Lemma reload_agrees_witness :
  exists loaded : LedgerState, load_with_store chain_store no_roots 20 sample_record = Some (Ok loaded) /\
    same_ledger caught_up_state loaded /\
    forall g f, 0 <= g -> f ∈ graph_contents (ls_novelty loaded) g ->
      f_t f <= ledger_t loaded /\ covers (ls_dict_novelty loaded) f.
Proof.
  apply (reload_agrees (eq own_prefix) chain_store no_roots 20 sample_record base caught_up_state chain_commits meta_sid).
  - exact base_loaded.
  - exact base_ready.
  - by vm_compute.
  - exact chain_stored.
  - constructor; [exact first_commit_ok|]. constructor; [exact second_commit_ok|constructor].
  - exact chain_ready.
  - by vm_compute.
  - apply base_room. by vm_compute.
  - unfold caught_up_state. assert ((catch_up (SE := unit) (RE := unit) base ledger_name chain_commits).2 = Ok tt) as E by by vm_compute.
    change (nr_ledger_id sample_record) with ledger_name.
    destruct (catch_up (SE := unit) (RE := unit) base ledger_name chain_commits) as [st r]. cbn in *. by rewrite E.
Defined.

(** ** Witnesses *)

Lemma novelty_dictionaries_witness :
  exists d', populate_from_flakes new_genesis [fact None 1 1 true] = Some d' /\ dn_wf d' /\ dn_extends new_genesis d' /\
  forall f, f ∈ [fact None 1 1 true] ->
    (forall s, s ∈ subjects_of f -> exists id,
      find_subject (dn_subjects d') (namespace_code s) (name s) = Some id /\
      resolve_subject (dn_subjects d') id = Some (namespace_code s, name s) /\
      watermark_for_ns (dn_subjects d') (namespace_code s) < local_id id) /\
    (forall s, s ∈ strings_of f -> exists id,
      bi_find (dn_strings d') s = Some id /\ bi_resolve (dn_strings d') id = Some s /\
      dn_string_watermark d' < id < 2 ^ 32).
Proof.
  apply (novelty_dictionaries new_genesis [fact None 1 1 true]).
  - apply new_genesis_wf.
  - by repeat constructor.
  - apply base_room. by vm_compute.
Defined.

Lemma graphs_routable_witness :
  exists m, build_reverse_graph (ls_snapshot base) = Ok m /\ m !! meta_sid = Some TXN_META_GRAPH_ID.
Proof.
  destruct (graphs_routable (ls_snapshot base)) as (m & E & H & _).
  - apply base_wf.
  - apply graphs_plain_ok, base_wf.
  - exists m. split; [exact E|]. destruct (H (txn_meta_graph_iri ledger_name) TXN_META_GRAPH_ID) as (sid & Es & Hm); [by vm_compute|].
    assert (encode_iri_inner (ls_snapshot base) (txn_meta_graph_iri ledger_name) = Ok meta_sid) as E' by by vm_compute.
    rewrite E' in Es. injection Es as <-. exact Hm.
Defined.

Lemma commit_applied_witness :
  let '(st', r) := apply_single_commit (SE := unit) (RE := unit) base (first_commit (Some (cid 1))) ledger_name in
  r = Ok tt /\ ledger_wf ledger_name st' /\ ledger_t st' = 1 /\ ls_head_commit_id st' = Some (cid 1) /\
  sn_namespace_codes (ls_snapshot st') !! 20 = Some ex_ns.
Proof.
  pose proof (commit_applied (SE := unit) (RE := unit) ledger_name base (first_commit (Some (cid 1))) (cid 1) base_wf
    (cc_ok _ _ _ _ _ first_commit_ok) eq_refl eq_refl) as H.
  assert (snd (apply_single_commit (SE := unit) (RE := unit) base (first_commit (Some (cid 1))) ledger_name) = Ok tt) as E
    by by vm_compute.
  destruct (apply_single_commit base (first_commit (Some (cid 1))) ledger_name) as [st' r]. cbn [snd] in E. subst r.
  destruct H as (_ & W & T & Hh & _ & Hn & _).
  - by vm_compute.
  - apply base_room. by vm_compute.
  - split_and!; [reflexivity|exact W|exact T|exact Hh|]. eapply lookup_weaken; [|exact Hn]. reflexivity.
Defined.

(** An index up to the first commit. *)
Definition index_meta : LedgerSnapshotMetadata :=
  mkSnapshotMeta ledger_name 1 0 (<[20 := ex_ns]> default_namespace_codes) MostGranular [] 0 [] false false.
Definition index_snapshot : LedgerSnapshot :=
  match new_meta index_meta with Ok s => s | _ => genesis ledger_name end.

Lemma caught_up_wf : ledger_wf ledger_name caught_up_state.
Proof.
  assert ((catch_up (SE := unit) (RE := unit) base ledger_name chain_commits).2 = Ok tt) as E by by vm_compute.
  destruct (catch_up_chain (SE := unit) (RE := unit) (eq own_prefix) ledger_name MostGranular meta_sid chain_commits base [] caught_up_state 0)
    as [Hu _]; [|by constructor; [apply first_commit_ok|constructor; [apply second_commit_ok|]]|apply chain_ready|by vm_compute|done|by apply base_room| |].
  - apply (base_caught_up (eq own_prefix) ledger_name base meta_sid); [apply base_ready|by vm_compute].
  - unfold caught_up_state. by destruct (catch_up base ledger_name chain_commits); cbn in *; subst.
  - apply Hu.
Qed.

Lemma index_snapshot_wf : snapshot_wf index_snapshot /\ graphs_plain index_snapshot.
Proof.
  split; [|apply graphs_checked; by vm_compute].
  assert (new_meta index_meta = Ok index_snapshot) as E by reflexivity. apply (new_meta_wf index_meta); try done.
  apply (entries_injective _ (map_to_list (meta_namespace_codes index_meta))); [done|].
  apply (bool_decide_eq_true _). by vm_compute.
Qed.

Lemma index_room_checked st s k :
  match clear_up_to (ls_novelty st) (sn_t s) with
  | Some nv => zlen (iter_flakes nv Post) <=? k
  | None => true
  end = true ->
  dict_room (with_watermarks (sn_subject_watermarks s) (sn_string_watermark s)) (2 * k) -> index_room st s.
Proof.
  intros H Hr nv E. rewrite E in H. apply Z.leb_le in H. eapply room_weaken; [|exact Hr]. lia.
Qed.


Lemma ledger_operations_typed_witness :
  let st' := (apply_single_commit (SE := unit) (RE := unit) base (first_commit (Some (cid 1))) ledger_name).1 in
  ledger_wf ledger_name st' /\ ledger_t base <= ledger_t st' /\ Ledger.index_t base <= Ledger.index_t st' /\
  forall p st'', ledger_step (SE := unit) (RE := unit) chain_store no_roots ledger_name st' p st'' -> p = true ->
    exists i, stored_panic (SE := unit) (RE := unit) chain_store no_roots i.
Proof.
  apply (ledger_operations_typed (SE := unit) (RE := unit) chain_store no_roots ledger_name base).
  - apply base_wf.
  - apply rtc_once. eexists. eapply (step_commit _ _ _ _ (first_commit (Some (cid 1)))).
    + apply (cc_ok _ _ _ _ _ first_commit_ok).
    + by vm_compute.
    + apply base_room. by vm_compute.
    + apply surjective_pairing.
Defined.

(** ** Where the code and its comments part *)

Definition graph_commit (t : Z) (g : str) (code : Z) : Commit :=
  mkCommit PlainLib PlainCid (Some (cid t)) t None [fact (Some (mkSid 20 g)) t t true] [] None ∅ None [] []
    {[ code := ex_ns ++ g ]} None.

(** Three commits after a first one: graphs b and then a appear. *)
Definition graphs_ba : list Commit :=
  [first_commit (Some (cid 1)); graph_commit 2 [98] 3; graph_commit 3 [97] 4].
Definition state_ba : LedgerState := (catch_up (SE := unit) (RE := unit) base ledger_name graphs_ba).1.
Definition swapped_ba : LedgerState := (apply_loaded_db (SE := unit) (RE := unit) state_ba index_snapshot None).1.

Definition number (f : Flake) : Z := match f_o f with Long n => n | _ => 0 end.

Definition graph_facts (st : LedgerState) (iri : str) : list Z :=
  match graph_id_for_iri (sn_graph_registry (ls_snapshot st)) iri with
  | Some g => number <$> graph_contents (ls_novelty st) g
  | None => []
  end.

(** Swapping in an index that knows neither graph registers them again, sorted,
    while the overlay keeps the ids they had: their facts change places. *)
Lemma index_swap_misroutes_graphs :
  graph_facts state_ba (ex_ns ++ [97]) = [3] /\ graph_facts state_ba (ex_ns ++ [98]) = [2] /\
  graph_facts swapped_ba (ex_ns ++ [97]) = [2] /\ graph_facts swapped_ba (ex_ns ++ [98]) = [3].
Proof. by vm_compute. Qed.

(** [apply_index] takes the names of the index alone: the graphs of flakes that
    remain in the overlay are no longer registered. *)
Definition index_store (c : ContentId) : outcome unit bytes := Ok [].
Definition index_root (b : bytes) : outcome unit LedgerSnapshotMetadata := Ok index_meta.

Lemma apply_index_forgets_graphs :
  let st' := (apply_index index_store index_root state_ba (cid 9)).1 in
  is_Some (graph_id_for_iri (sn_graph_registry (ls_snapshot state_ba)) (ex_ns ++ [98])) /\
  graph_id_for_iri (sn_graph_registry (ls_snapshot st')) (ex_ns ++ [98]) = None /\
  number <$> graph_contents (ls_novelty st') 3 = [2].
Proof. split; [exists 3; by vm_compute|by vm_compute]. Qed.

(** A refused commit leaves its graphs and namespaces behind. *)
Definition unroutable_commit : Commit :=
  mkCommit PlainLib PlainCid (Some (cid 1)) 1 None [fact (Some (mkSid 20 [120])) 1 1 true] [] None {[ 20 := ex_ns ]} None [] []
    {[ 3 := ex_ns ++ [97] ]} None.

Lemma refused_commit_grows_snapshot :
  let '(st', r) := apply_single_commit (SE := unit) (RE := unit) base unroutable_commit ledger_name in
  is_ok r = false /\ ledger_t st' = 0 /\
  graph_id_for_iri (sn_graph_registry (ls_snapshot base)) (ex_ns ++ [97]) = None /\
  graph_id_for_iri (sn_graph_registry (ls_snapshot st')) (ex_ns ++ [97]) = Some 3.
Proof. by vm_compute. Qed.

(** Data about a commit subject in the default graph: the bulk load moves it to
    the transaction-metadata graph, taking the commit does not. *)
Definition commit_data : Commit :=
  mkCommit PlainLib PlainCid (Some (cid 1)) 1 None
    [mkFlake PlainLib None (mkSid FLUREE_COMMIT [120]) (mkSid 20 [98]) (Long 7) (mkSid XSD (bytes_of_string "long")) 1 true None]
    [] None {[ 20 := ex_ns ]} None [] [] ∅ None.

Lemma load_moves_commit_data :
  (exists fl, commit_batch (ls_snapshot base) commit_data ledger_name = Ok fl /\ f_g <$> head fl = Some None) /\
  (f_g <$> head (stamp_graph_on_commit_flakes (raw_batch ledger_name commit_data).1 meta_sid)) = Some (Some meta_sid).
Proof. split; [eexists; split; [reflexivity|by vm_compute]|by vm_compute]. Qed.

(** ** Same-as classes *)

#[export] Instance PlainSids : SidOrder := fun m => map_to_list m.
#[export] Instance PlainSidsLaws : SidOrderLaws.
Proof. by intros m. Qed.

Definition sample_sid (n : Z) : Sid := mkSid n [97].
Definition same_as_ops : list SameAsOp :=
  [OpUnion (sample_sid 1) (sample_sid 2); OpFind (sample_sid 5); OpUnion (sample_sid 3) (sample_sid 4);
   OpUnion (sample_sid 2) (sample_sid 4); OpSame (sample_sid 1) (sample_sid 3); OpCompressAll].

Lemma same_as_run :
  (t ← sa_run tracker_new same_as_ops; f ← finalize t;
   Some (namespace_code <$> frozen_expand f (sample_sid 3), namespace_code (frozen_canonical f (sample_sid 4)),
         frozen_expand f (sample_sid 9), num_classes f)) = Some ([1; 2; 3; 4], 1, [], 2%nat).
Proof. by vm_compute. Qed.

Lemma same_as_exact_witness :
  exists t, sa_run tracker_new same_as_ops = Some t /\
    exists b t', sa_same t (sample_sid 1) (sample_sid 4) = Some (b, t') /\ b = true.
Proof.
  destruct (same_as_exact same_as_ops) as (t & E & _ & Hs & _); [by vm_compute|]. exists t. split; [exact E|].
  destruct (Hs (sample_sid 1) (sample_sid 4)) as (b & t' & Eb & Hb). exists b, t'. split; [exact Eb|]. apply Hb.
  unfold connected. apply (rtc_l _ _ (sample_sid 2)); [left; cbn; by apply list_elem_of_here|].
  apply rtc_once. left. cbn. by do 2 apply list_elem_of_further; apply list_elem_of_here.
Defined.

(** ** Views *)

#[export] Instance PlainTemporal : TemporalText := fun _ _ => None.

Definition sound_check (f : Flake) : bool :=
  match f_o f with Long _ | String _ | Ref _ => true | _ => false end && (i64_min <=? f_t f) && (f_t f <=? i64_max).

Lemma sound_checked fl : forallb sound_check fl = true -> Forall flake_sound fl /\ Forall plain_key fl.
Proof.
  rewrite forallb_forall. intros H. rewrite !Forall_forall. setoid_rewrite list_elem_of_In.
  split; intros f Hf; apply H in Hf; unfold sound_check in Hf; rewrite !andb_true_iff, !Z.leb_le in Hf; destruct Hf as [[Ho Hl] Hh].
  - split; [|lia]. unfold flake_ordinary. by destruct (f_o f).
  - unfold plain_key, flake_ordinary. by destruct (f_o f).
Qed.

Lemma contents_checked nv :
  forallb (fun segs => forallb sound_check (seg_contents (default [] segs))) (nv_graphs nv) = true ->
  forall g, forallb sound_check (graph_contents nv g) = true.
Proof.
  rewrite forallb_forall. intros H g. unfold graph_contents, nv_segs, slot.
  destruct (nv_graphs nv !! Z.to_nat g) as [segs|] eqn:E; [|done]. apply (H segs), list_elem_of_In. by eapply list_elem_of_lookup_2.
Qed.

Lemma caught_up_novelty_ok : novelty_ok (ls_novelty caught_up_state).
Proof.
  split; [apply caught_up_wf|]. intros g f _ Hf.
  destruct (sound_checked (graph_contents (ls_novelty caught_up_state) g)) as [H _]; [apply contents_checked; by vm_compute|].
  rewrite Forall_forall in H. by apply H.
Qed.

Definition sample_route (s : Sid) : option Z := if bool_decide (s = mkSid 20 [103]) then Some 3 else None.
Definition staged_facts : list Flake := [fact None 5 3 true; fact (Some (mkSid 20 [103])) 6 3 true].
Definition schema_facts : list Flake := [fact None 8 3 true].
Definition schema_bundle : SchemaBundleFlakes := from_collected_schema_triples (schema_facts ++ schema_facts).

Lemma staged_stack_exact_witness :
  exists v read, staged_new caught_up_state staged_facts sample_route = Ok v /\
    overlay_flakes (reasoning_new (bundle_overlay_new v schema_bundle) (derived_build [fact None 9 3 true] frozen_empty 1 1))
      0 Spot None None true 3 = Some read /\
    answers Spot None None true 3 (graph_contents (ls_novelty caught_up_state) 0 ++ [fact None 5 3 true; fact None 8 3 true; fact None 9 3 true])
      (Some read).
Proof.
  assert (Forall flake_sound schema_facts) as Hs by (apply sound_checked; reflexivity).
  pose proof (staged_stack_exact caught_up_state staged_facts sample_route schema_bundle [fact None 9 3 true] frozen_empty 1 1
    caught_up_novelty_ok (proj1 (sound_checked staged_facts eq_refl)) eq_refl
    (proj1 (collected_bundle_ok (schema_facts ++ schema_facts) (proj2 (Forall_app _ _ _) (conj Hs Hs))))
    (proj1 (sound_checked [fact None 9 3 true] eq_refl))) as H.
  assert (is_ok (staged_new caught_up_state staged_facts sample_route) = true) as E by (vm_compute; reflexivity).
  destruct (staged_new caught_up_state staged_facts sample_route) as [v|e|]; [|discriminate E|discriminate E].
  cbv zeta in H. specialize (H 0 Spot None None true 3 ltac:(by vm_compute) ltac:(done)). exists v.
  destruct (overlay_flakes _ 0 Spot None None true 3) as [read|] eqn:Er; [|by destruct H as (_ & _ & [])].
  exists read. split; [reflexivity|]. split; [first [exact Er|reflexivity]|exact H].
Defined.

(** The stack merges, and a range whose bounds are inverted is no error below
    the derived facts and a panic in them. *)
Lemma inverted_range_panics :
  let v := match staged_new caught_up_state staged_facts sample_route with Ok v => v | _ => mkStagedLedger caught_up_state (mkStagedOverlay [] [] [] [] [] []) 0 end in
  (length <$> overlay_flakes v 0 Spot (Some (fact None 9 3 true)) (Some (fact None 4 3 true)) false 3) = Some 0%nat /\
  (length <$> overlay_flakes (reasoning_new v (derived_build [fact None 7 3 true] frozen_empty 1 1)) 0 Spot
    (Some (fact None 9 3 true)) (Some (fact None 4 3 true)) false 3) = None.
Proof. split; vm_compute; reflexivity. Qed.

(** Two transactions staged over one ledger have one epoch. *)
Lemma staged_epochs_shared :
  (overlay_epoch <$> (match staged_new caught_up_state staged_facts sample_route with Ok v => Some v | _ => None end)) =
  (overlay_epoch <$> (match staged_new caught_up_state schema_facts sample_route with Ok v => Some v | _ => None end)) /\
  is_ok (staged_new caught_up_state staged_facts sample_route) = true.
Proof. by vm_compute. Qed.


(** The retracted fact of the default graph is gone; before the retraction it
    is there. *)
Lemma genesis_range_run :
  let ask to_t := range_with_overlay (PE := unit) None 0 0 (ls_novelty caught_up_state) Spot TestEq
      (match_subject (mkSid 20 [97])) (mkOptions None None None (Some to_t) None None false None None) in
  (number <$> match ask 1 with Ok fl => fl | _ => [] end, number <$> match ask 2 with Ok fl => fl | _ => [] end) = ([1], []).
Proof. by vm_compute. Qed.

(** A fact asserted and retracted in one transaction: retracted for the fact
    index, shown by the query. *)
Definition same_time_novelty : Novelty :=
  (apply_commit (novelty_new 0) [fact None 1 1 true; fact None 1 1 false] 1 (fun _ => None)).1.

Lemma same_time_assert_shown :
  currently_asserted same_time_novelty 0 (fact None 1 1 true) = false /\
  (number <$> match range_with_overlay (PE := unit) None 0 0 same_time_novelty Spot TestEq match_all options_new with Ok fl => fl | _ => [] end) = [1].
Proof. split; vm_compute; reflexivity. Qed.

Lemma same_as_is_empty :
  sa_is_empty tracker_new = true /\
  (sa_is_empty <$> sa_run tracker_new [OpUnion (sample_sid 1) (sample_sid 2)]) = Some false.
Proof. split; vm_compute; reflexivity. Qed.
