(* ===== verification/RunRecord.v ===== *)
(** * Run records of the binary index (format/run_record_v2.rs)

    A [RunRecordV2] is one fact of an index: five identity columns, the
    transaction that asserted it and its graph.  The four sort orders compare
    the identity columns only.  The run files, the spool files and the branch
    and leaf routing keys each have a fixed byte layout; routing keys are
    big-endian so that comparing their bytes is comparing the records. *)

From S2P Require Import Prelude Bytes Cmp.
From stdpp Require Import base list numbers sorting gmap.
From Stdlib Require Import ZArith Lia.

Local Open Scope Z_scope.

Definition LIST_INDEX_NONE : Z := u32_max.

Record RunRecordV2 := mkRun {
  rr_s_id : Z; rr_o_key : Z; rr_p_id : Z; rr_t : Z; rr_o_i : Z; rr_o_type : Z; rr_g_id : Z;
}.

Inductive RunSortOrder := RSpot | RPsot | RPost | ROpst.

#[export] Instance RunRecordV2_eq_dec : EqDecision RunRecordV2.
Proof. solve_decision. Defined.
#[export] Instance RunSortOrder_eq_dec : EqDecision RunSortOrder.
Proof. solve_decision. Defined.

Definition order_from_u8 (v : Z) : option RunSortOrder :=
  if v =? 0 then Some RSpot else if v =? 1 then Some RPsot
  else if v =? 2 then Some RPost else if v =? 3 then Some ROpst else None.

Definition order_to_wire_id (o : RunSortOrder) : Z :=
  match o with RSpot => 0 | RPsot => 1 | RPost => 2 | ROpst => 3 end.

Definition has_list_index (r : RunRecordV2) : bool := negb (rr_o_i r =? LIST_INDEX_NONE).

(** ** Comparators: identity columns only *)

Definition cmp_v2_spot (a b : RunRecordV2) : comparison :=
  then_with (rr_s_id a ?= rr_s_id b) (then_with (rr_p_id a ?= rr_p_id b)
    (then_with (rr_o_type a ?= rr_o_type b) (then_with (rr_o_key a ?= rr_o_key b)
      (rr_o_i a ?= rr_o_i b)))).

Definition cmp_v2_psot (a b : RunRecordV2) : comparison :=
  then_with (rr_p_id a ?= rr_p_id b) (then_with (rr_s_id a ?= rr_s_id b)
    (then_with (rr_o_type a ?= rr_o_type b) (then_with (rr_o_key a ?= rr_o_key b)
      (rr_o_i a ?= rr_o_i b)))).

Definition cmp_v2_post (a b : RunRecordV2) : comparison :=
  then_with (rr_p_id a ?= rr_p_id b) (then_with (rr_o_type a ?= rr_o_type b)
    (then_with (rr_o_key a ?= rr_o_key b) (then_with (rr_o_i a ?= rr_o_i b)
      (rr_s_id a ?= rr_s_id b)))).

Definition cmp_v2_opst (a b : RunRecordV2) : comparison :=
  then_with (rr_o_type a ?= rr_o_type b) (then_with (rr_o_key a ?= rr_o_key b)
    (then_with (rr_o_i a ?= rr_o_i b) (then_with (rr_p_id a ?= rr_p_id b)
      (rr_s_id a ?= rr_s_id b)))).

Definition cmp_v2_g_spot (a b : RunRecordV2) : comparison :=
  then_with (rr_g_id a ?= rr_g_id b) (cmp_v2_spot a b).

Definition cmp_v2_for_order (o : RunSortOrder) : RunRecordV2 -> RunRecordV2 -> comparison :=
  match o with
  | RSpot => cmp_v2_spot | RPsot => cmp_v2_psot | RPost => cmp_v2_post | ROpst => cmp_v2_opst
  end.

Definition same_identity_v2 (a b : RunRecordV2) : bool :=
  (rr_s_id a =? rr_s_id b) && (rr_p_id a =? rr_p_id b) && (rr_o_type a =? rr_o_type b)
  && (rr_o_key a =? rr_o_key b) && (rr_o_i a =? rr_o_i b).

(** ** Wire formats *)

Definition RECORD_V2_WIRE_SIZE : Z := 30.
Definition RECORD_V2_WITH_OP_WIRE_SIZE : Z := 31.
Definition SPOOL_V2_WIRE_SIZE : Z := 32.
Definition ORDERED_KEY_V2_SIZE : Z := 26.

Definition write_run_le (r : RunRecordV2) : bytes :=
  le_bytes 8 (rr_s_id r) ++ le_bytes 8 (rr_o_key r) ++ le_bytes 4 (rr_p_id r)
  ++ le_bytes 4 (rr_t r) ++ le_bytes 4 (rr_o_i r) ++ le_bytes 2 (rr_o_type r).

Definition read_run_le (buf : bytes) : RunRecordV2 :=
  mkRun (le_int (slice buf 0 8)) (le_int (slice buf 8 16)) (le_int (slice buf 16 20))
    (le_int (slice buf 20 24)) (le_int (slice buf 24 28)) (le_int (slice buf 28 30)) 0.

Definition write_run_le_with_op (r : RunRecordV2) (op : Z) : bytes :=
  le_bytes 8 (rr_s_id r) ++ le_bytes 8 (rr_o_key r) ++ le_bytes 4 (rr_p_id r)
  ++ le_bytes 4 (rr_t r) ++ le_bytes 4 (rr_o_i r) ++ le_bytes 2 (rr_o_type r) ++ [op].

Definition read_run_le_with_op (buf : bytes) : RunRecordV2 * Z :=
  (mkRun (le_int (slice buf 0 8)) (le_int (slice buf 8 16)) (le_int (slice buf 16 20))
    (le_int (slice buf 20 24)) (le_int (slice buf 24 28)) (le_int (slice buf 28 30)) 0,
   nth 30 buf 0).

Definition write_spool_le (r : RunRecordV2) : bytes :=
  le_bytes 2 (rr_g_id r) ++ le_bytes 8 (rr_s_id r) ++ le_bytes 8 (rr_o_key r)
  ++ le_bytes 4 (rr_p_id r) ++ le_bytes 4 (rr_t r) ++ le_bytes 4 (rr_o_i r)
  ++ le_bytes 2 (rr_o_type r).

Definition read_spool_le (buf : bytes) : RunRecordV2 :=
  mkRun (le_int (slice buf 2 10)) (le_int (slice buf 10 18)) (le_int (slice buf 18 22))
    (le_int (slice buf 22 26)) (le_int (slice buf 26 30)) (le_int (slice buf 30 32))
    (le_int (slice buf 0 2)).

(** [to_be_bytes] and [from_be_bytes]. *)
Definition be_bytes (n : nat) (z : Z) : bytes := reverse (le_bytes n z).
Definition be_int (bs : bytes) : Z := le_int (reverse bs).

Definition write_ordered_key_v2 (o : RunSortOrder) (r : RunRecordV2) : bytes :=
  match o with
  | RSpot => be_bytes 8 (rr_s_id r) ++ be_bytes 4 (rr_p_id r) ++ be_bytes 2 (rr_o_type r)
             ++ be_bytes 8 (rr_o_key r) ++ be_bytes 4 (rr_o_i r)
  | RPsot => be_bytes 4 (rr_p_id r) ++ be_bytes 8 (rr_s_id r) ++ be_bytes 2 (rr_o_type r)
             ++ be_bytes 8 (rr_o_key r) ++ be_bytes 4 (rr_o_i r)
  | RPost => be_bytes 4 (rr_p_id r) ++ be_bytes 2 (rr_o_type r) ++ be_bytes 8 (rr_o_key r)
             ++ be_bytes 4 (rr_o_i r) ++ be_bytes 8 (rr_s_id r)
  | ROpst => be_bytes 2 (rr_o_type r) ++ be_bytes 8 (rr_o_key r) ++ be_bytes 4 (rr_o_i r)
             ++ be_bytes 4 (rr_p_id r) ++ be_bytes 8 (rr_s_id r)
  end.

Definition read_ordered_key_v2 (o : RunSortOrder) (buf : bytes) : RunRecordV2 :=
  let f i j := be_int (slice buf i j) in
  match o with
  | RSpot => mkRun (f 0 8) (f 14 22) (f 8 12) 0 (f 22 26) (f 12 14) 0
  | RPsot => mkRun (f 4 12) (f 14 22) (f 0 4) 0 (f 22 26) (f 12 14) 0
  | RPost => mkRun (f 18 26) (f 6 14) (f 0 4) 0 (f 14 18) (f 4 6) 0
  | ROpst => mkRun (f 18 26) (f 2 10) (f 14 18) 0 (f 10 14) (f 0 2) 0
  end.

Definition cmp_ordered_key_v2 (a b : bytes) : comparison := list_cmp Z.compare a b.

(** ** Fact identity *)

(** [FactKeyV3] of read/replay.rs and of novelty_merge.rs. *)
Record FactKeyV3 := mkFactKey {
  fk_s_id : Z; fk_p_id : Z; fk_o_type : Z; fk_o_key : Z; fk_o_i : Z;
}.

#[export] Instance FactKeyV3_eq_dec : EqDecision FactKeyV3.
Proof. solve_decision. Defined.
#[export] Instance FactKeyV3_countable : Countable FactKeyV3.
Proof.
  refine (inj_countable' (fun k => (fk_s_id k, fk_p_id k, fk_o_type k, fk_o_key k, fk_o_i k))
            (fun '(s, p, ot, ok, oi) => mkFactKey s p ot ok oi) _).
  by intros [].
Defined.

Definition rr_key (r : RunRecordV2) : FactKeyV3 :=
  mkFactKey (rr_s_id r) (rr_p_id r) (rr_o_type r) (rr_o_key r) (rr_o_i r).

(** Field widths of a record. *)
Record rr_wf (r : RunRecordV2) : Prop := {
  rr_wf_s : in_u 64 (rr_s_id r); rr_wf_ok : in_u 64 (rr_o_key r); rr_wf_p : in_u 32 (rr_p_id r);
  rr_wf_t : in_u 32 (rr_t r); rr_wf_oi : in_u 32 (rr_o_i r); rr_wf_ot : in_u 16 (rr_o_type r);
  rr_wf_g : in_u 16 (rr_g_id r);
}.

(** The record without its graph, as a leaf stores it, and the record a routing
    key keeps. *)
Definition drop_graph (r : RunRecordV2) : RunRecordV2 :=
  mkRun (rr_s_id r) (rr_o_key r) (rr_p_id r) (rr_t r) (rr_o_i r) (rr_o_type r) 0.
Definition key_record (r : RunRecordV2) : RunRecordV2 :=
  mkRun (rr_s_id r) (rr_o_key r) (rr_p_id r) 0 (rr_o_i r) (rr_o_type r) 0.

(** ** Comparator laws *)

#[export] Instance cmp_laws_run o : CmpLaws everything (cmp_v2_for_order o).
Proof.
  assert (forall f : RunRecordV2 -> Z, CmpLaws everything (fun a b => f a ?= f b)) as Hf.
  { intros f. apply (cmp_laws_key _ everything f); [done|apply _]. }
  destruct o; cbn; repeat first [apply Hf | apply cmp_laws_then].
Qed.

(** A comparator answers [Eq] exactly on equal identities. *)
Lemma cmp_run_Eq o a b : cmp_v2_for_order o a b = Eq <-> rr_key a = rr_key b.
Proof.
  split.
  - destruct a, b, o; cbn; unfold cmp_v2_spot, cmp_v2_psot, cmp_v2_post, cmp_v2_opst; cbn;
      rewrite !then_with_Eq, !Z.compare_eq_iff; unfold rr_key; cbn; intros; f_equal; tauto.
  - intros [= Hs Hp Hot Hok Hoi]. destruct a, b, o; cbn in *; subst;
      unfold cmp_v2_spot, cmp_v2_psot, cmp_v2_post, cmp_v2_opst; cbn; by rewrite !Z.compare_refl.
Qed.

Lemma same_identity_spec a b : same_identity_v2 a b = true <-> rr_key a = rr_key b.
Proof.
  unfold same_identity_v2, rr_key. rewrite !andb_true_iff, !Z.eqb_eq.
  split; [intros; f_equal; tauto|by intros [=]].
Qed.

Lemma cmp_run_key o a b c d :
  rr_key a = rr_key b -> rr_key c = rr_key d -> cmp_v2_for_order o a c = cmp_v2_for_order o b d.
Proof.
  intros Hab Hcd. apply (cmp_run_Eq o) in Hab, Hcd.
  rewrite (cmp_eq_l (P := everything) (c := cmp_v2_for_order o) a b c) by done.
  by apply (cmp_eq_r (P := everything)).
Qed.

(** ** Big-endian integers *)

Lemma be_int_bytes n z : in_u (8 * Z.of_nat n) z -> be_int (be_bytes n z) = z.
Proof. intros. unfold be_int, be_bytes. rewrite reverse_involutive. by apply le_int_bytes. Qed.

Lemma length_be_bytes n z : length (be_bytes n z) = n.
Proof. unfold be_bytes. by rewrite length_reverse, length_le_bytes. Qed.

(** Comparing big-endian fields byte by byte compares the integers first. *)
Lemma be_bytes_cmp n x y l k :
  in_u (8 * Z.of_nat n) x -> in_u (8 * Z.of_nat n) y ->
  list_cmp Z.compare (be_bytes n x ++ l) (be_bytes n y ++ k)
  = then_with (x ?= y) (list_cmp Z.compare l k).
Proof.
  unfold in_u, be_bytes. revert x y l k. induction n as [|n IH]; intros x y l k Hx Hy; cbn [le_bytes].
  - cbn in *. assert (x = y) as -> by lia. by rewrite Z.compare_refl.
  - rewrite !reverse_cons, <- !app_assoc, Nat2Z.inj_succ in *.
    replace (8 * Z.succ (Z.of_nat n)) with (8 + 8 * Z.of_nat n) in * by lia.
    rewrite Z.pow_add_r in * by lia. change (2 ^ 8) with 256 in *.
    rewrite IH by (split; [apply Z.div_pos; lia|apply Z.div_lt_upper_bound; lia]). cbn.
    rewrite <- then_with_assoc. f_equal.
    pose proof (Z.div_mod x 256). pose proof (Z.div_mod y 256).
    pose proof (Z.mod_pos_bound x 256). pose proof (Z.mod_pos_bound y 256).
    destruct (Z.compare_spec (x `div` 256) (y `div` 256)) as [E|E|E]; cbn; symmetry;
      [|apply Z.compare_lt_iff; lia|apply Z.compare_gt_iff; lia].
    destruct (Z.compare_spec (x `mod` 256) (y `mod` 256));
      [apply Z.compare_eq_iff; lia|apply Z.compare_lt_iff; lia|apply Z.compare_gt_iff; lia].
Qed.

Lemma be_bytes_cmp_last n x y :
  in_u (8 * Z.of_nat n) x -> in_u (8 * Z.of_nat n) y ->
  list_cmp Z.compare (be_bytes n x) (be_bytes n y) = (x ?= y).
Proof.
  intros. rewrite <- (app_nil_r (be_bytes n x)), <- (app_nil_r (be_bytes n y)), be_bytes_cmp by done.
  apply then_with_Eq_r.
Qed.

(** ** Theorems *)

Ltac read_field n :=
  etransitivity; [|first [apply (le_int_bytes n) | apply (be_int_bytes n)]; eassumption]; reflexivity.
Ltac read_fields :=
  f_equal; first [read_field 8%nat | read_field 4%nat | read_field 2%nat | done].

(** The three record formats give back what was written; the run formats drop
    the graph. *)
Theorem record_roundtrip r op :
  rr_wf r ->
  read_run_le (write_run_le r) = drop_graph r /\
  read_run_le_with_op (write_run_le_with_op r op) = (drop_graph r, op) /\
  read_spool_le (write_spool_le r) = r /\
  zlen (write_run_le r) = RECORD_V2_WIRE_SIZE /\
  zlen (write_run_le_with_op r op) = RECORD_V2_WITH_OP_WIRE_SIZE /\
  zlen (write_spool_le r) = SPOOL_V2_WIRE_SIZE.
Proof.
  destruct r as [s ok p t oi ot g]. intros [Hs Hok Hp Ht Hoi Hot Hg]. cbn in *.
  split_and!; [unfold read_run_le, drop_graph; cbn [rr_s_id rr_o_key rr_p_id rr_t rr_o_i rr_o_type]; read_fields| | |done..].
  - unfold read_run_le_with_op, drop_graph. cbn [rr_s_id rr_o_key rr_p_id rr_t rr_o_i rr_o_type].
    apply (f_equal2 pair); [read_fields|done].
  - unfold read_spool_le. read_fields.
Qed.

Theorem ordered_key_roundtrip o r :
  rr_wf r -> read_ordered_key_v2 o (write_ordered_key_v2 o r) = key_record r
             /\ zlen (write_ordered_key_v2 o r) = ORDERED_KEY_V2_SIZE.
Proof.
  destruct r as [s ok p t oi ot g]. intros [Hs Hok Hp Ht Hoi Hot Hg]. cbn in *.
  split; [|by destruct o].
  destruct o; unfold read_ordered_key_v2, key_record; cbn [rr_s_id rr_o_key rr_p_id rr_o_i rr_o_type];
    read_fields.
Qed.

Lemma ordered_key_cmp o a b :
  rr_wf a -> rr_wf b ->
  cmp_ordered_key_v2 (write_ordered_key_v2 o a) (write_ordered_key_v2 o b)
  = cmp_v2_for_order o a b.
Proof.
  intros [] []. unfold cmp_ordered_key_v2.
  destruct o; cbn [write_ordered_key_v2 cmp_v2_for_order];
    rewrite !be_bytes_cmp, be_bytes_cmp_last by done; reflexivity.
Qed.

(** C28: Comparing two routing keys byte by byte gives the answer of the order's
    comparator, so equal keys are equal identities. *)
Theorem ordered_key_memcmp o a b :
  rr_wf a -> rr_wf b ->
  cmp_ordered_key_v2 (write_ordered_key_v2 o a) (write_ordered_key_v2 o b)
  = cmp_v2_for_order o a b /\
  (write_ordered_key_v2 o a = write_ordered_key_v2 o b <-> same_identity_v2 a b = true).
Proof.
  intros Ha Hb. split; [by apply ordered_key_cmp|].
  rewrite same_identity_spec, <- (cmp_run_Eq o), <- (ordered_key_cmp o) by done. split.
  - intros ->. apply (cmp_refl (P := everything)), I.
  - apply str_cmp_Eq.
Qed.

Lemma order_wire_roundtrip o : order_from_u8 (order_to_wire_id o) = Some o.
Proof. by destruct o. Qed.
