(* ===== verification/Columns.v ===== *)
(** * Column batches (read/column_types.rs)

    A leaflet is read as six columns.  A column is a block of values, one
    constant for every row, or absent and defaulted.  [get] panics outside a
    block and on an absent column; [get_or] only outside a block.  A batch
    [holds] a list of records when reading its rows one after the other gives
    that list. *)

From S2P Require Import Prelude Bytes Cmp RunRecord.
From stdpp Require Import base list numbers sorting gmap.
From Stdlib Require Import ZArith Lia.

Local Open Scope Z_scope.

(** [io::ErrorKind], as far as the index readers use it. *)
Inductive IoErrorKind := IoNotFound | IoUnexpectedEof | IoInvalidData | IoInvalidInput | IoOther.
Abbreviation io := (outcome IoErrorKind).

Inductive ColumnData := ColBlock (vs : list Z) | ColConst (v : Z) | ColAbsentDefault.

Definition col_get (c : ColumnData) (idx : nat) : io Z :=
  match c with
  | ColBlock vs => match vs !! idx with Some v => Ok v | None => Panic end
  | ColConst v => Ok v
  | ColAbsentDefault => Panic
  end.

Definition col_get_or (c : ColumnData) (idx : nat) (default : Z) : io Z :=
  match c with
  | ColBlock vs => match vs !! idx with Some v => Ok v | None => Panic end
  | ColConst v => Ok v
  | ColAbsentDefault => Ok default
  end.

Record ColumnBatch := mkBatch {
  cb_row_count : nat;
  cb_s_id : ColumnData; cb_o_key : ColumnData; cb_p_id : ColumnData;
  cb_o_type : ColumnData; cb_o_i : ColumnData; cb_t : ColumnData;
}.

Definition batch_empty : ColumnBatch :=
  mkBatch 0 ColAbsentDefault ColAbsentDefault ColAbsentDefault
    ColAbsentDefault ColAbsentDefault ColAbsentDefault.

Definition batch_is_empty (b : ColumnBatch) : bool := (cb_row_count b =? 0)%nat.

(** ** Rows *)

Definition OI_NONE : Z := u32_max.

(** [batch_row_to_record]; the closure [batch_row_as_rec] of [replay_leaflet]
    has the same body. *)
Definition batch_row_to_record (b : ColumnBatch) (row : nat) : io RunRecordV2 :=
  s ← col_get (cb_s_id b) row;
  ok ← col_get (cb_o_key b) row;
  p ← col_get (cb_p_id b) row;
  t ← col_get_or (cb_t b) row 0;
  oi ← col_get_or (cb_o_i b) row OI_NONE;
  ot ← col_get (cb_o_type b) row;
  mret (mkRun s ok p t oi ot 0).

Fixpoint rows_from (b : ColumnBatch) (row n : nat) : io (list RunRecordV2) :=
  match n with
  | O => mret []
  | S n => r ← batch_row_to_record b row; rs ← rows_from b (S row) n; mret (r :: rs)
  end.

Definition column_batch_to_records (b : ColumnBatch) : io (list RunRecordV2) :=
  rows_from b 0 (cb_row_count b).

(** The batch a list of rows becomes at the end of [replay_leaflet]. *)
Definition batch_of_rows (rows : list RunRecordV2) : ColumnBatch :=
  let out_oi := rr_o_i <$> rows in
  mkBatch (length rows) (ColBlock (rr_s_id <$> rows)) (ColBlock (rr_o_key <$> rows))
    (ColBlock (rr_p_id <$> rows)) (ColBlock (rr_o_type <$> rows))
    (if existsb (fun v => negb (v =? OI_NONE)) out_oi then ColBlock out_oi else ColAbsentDefault)
    (ColBlock (rr_t <$> rows)).

Definition batch_has_rows_above_t (b : ColumnBatch) (t_target : Z) : bool :=
  match cb_t b with
  | ColBlock ts => existsb (fun t => t_target <? t) ts
  | ColConst t => t_target <? t
  | ColAbsentDefault => false
  end.

(** ** Lemmas *)

Definition batch_holds (b : ColumnBatch) (rows : list RunRecordV2) : Prop :=
  column_batch_to_records b = Ok rows.

Lemma rows_from_Ok b n : forall row rows,
  rows_from b row n = Ok rows <->
  length rows = n /\ forall i r, rows !! i = Some r -> batch_row_to_record b (row + i) = Ok r.
Proof.
  induction n as [|n IH]; intros row rows; cbn [rows_from].
  - split; [intros [= <-]; split; [done|]; by intros []|]. by destruct rows as [|x rows]; intros [??].
  - split.
    + intros H. apply outcome_bind_Ok in H as (r & Hr & H).
      apply outcome_bind_Ok in H as (rs & Hrs & [= <-]). apply IH in Hrs as [Hlen Hrs].
      split; [by cbn; f_equal|].
      intros [|i] r'; cbn; [intros [= <-]; by rewrite Nat.add_0_r|].
      rewrite <- Nat.add_succ_comm. apply Hrs.
    + destruct rows as [|r rs]; intros [Hlen Hrs]; [done|].
      apply outcome_bind_Ok. exists r. split; [rewrite <- (Nat.add_0_r row); by apply Hrs|].
      apply outcome_bind_Ok. exists rs. split; [apply IH; split; [by injection Hlen|]|done].
      intros i r' Hi. rewrite Nat.add_succ_comm. by apply Hrs.
Qed.

Lemma batch_holds_spec b rows :
  batch_holds b rows <->
  length rows = cb_row_count b /\
  forall i r, rows !! i = Some r -> batch_row_to_record b i = Ok r.
Proof. unfold batch_holds, column_batch_to_records. rewrite rows_from_Ok. done. Qed.

Lemma batch_holds_row b rows i r :
  batch_holds b rows -> rows !! i = Some r -> batch_row_to_record b i = Ok r.
Proof. intros [_ H]%batch_holds_spec. apply H. Qed.

Lemma batch_holds_count b rows : batch_holds b rows -> cb_row_count b = length rows.
Proof. by intros [<- _]%batch_holds_spec. Qed.

(** The columns a row was read from. *)
Lemma batch_row_columns b i r :
  batch_row_to_record b i = Ok r ->
  col_get (cb_s_id b) i = Ok (rr_s_id r) /\ col_get (cb_o_key b) i = Ok (rr_o_key r) /\
  col_get (cb_p_id b) i = Ok (rr_p_id r) /\ col_get_or (cb_t b) i 0 = Ok (rr_t r) /\
  col_get_or (cb_o_i b) i OI_NONE = Ok (rr_o_i r) /\ col_get (cb_o_type b) i = Ok (rr_o_type r) /\
  rr_g_id r = 0.
Proof. unfold batch_row_to_record. intros H. simp_out. done. Qed.

Lemma batch_holds_graph b rows : batch_holds b rows -> Forall (fun r => rr_g_id r = 0) rows.
Proof.
  intros H. apply Forall_lookup. intros i r Hi.
  by destruct (batch_row_columns b i r (batch_holds_row _ _ _ _ H Hi)) as (_&_&_&_&_&_&?).
Qed.

Lemma batch_of_rows_holds rows : batch_holds (batch_of_rows rows) (drop_graph <$> rows).
Proof.
  apply batch_holds_spec. split; [by rewrite length_fmap|].
  intros i r Hi. rewrite list_lookup_fmap in Hi.
  destruct (rows !! i) as [x|] eqn:Ex; [|done]. injection Hi as <-.
  unfold batch_row_to_record, batch_of_rows. cbn.
  rewrite !list_lookup_fmap, Ex. cbn.
  destruct (existsb _ _) eqn:Ee; cbn.
  - by rewrite list_lookup_fmap, Ex.
  - enough (rr_o_i x = OI_NONE) as <- by done.
    destruct (Z.eqb_spec (rr_o_i x) OI_NONE) as [|Hne]; [done|].
    rewrite <- not_true_iff_false, existsb_exists in Ee. destruct Ee.
    exists (rr_o_i x). split; [|by apply negb_true_iff, Z.eqb_neq].
    apply list_elem_of_In, list_elem_of_fmap. exists x. split; [done|]. by eapply list_elem_of_lookup_2.
Qed.

Lemma batch_empty_holds : batch_holds batch_empty [].
Proof. done. Qed.

Lemma holds_above_t b rows t_target :
  batch_holds b rows -> 0 <= t_target -> batch_has_rows_above_t b t_target = false ->
  Forall (fun r => rr_t r <= t_target) rows.
Proof.
  intros H Ht0 Ha. apply Forall_lookup. intros i r Hi.
  destruct (batch_row_columns b i r (batch_holds_row _ _ _ _ H Hi)) as (_&_&_&Ht&_&_&_).
  unfold batch_has_rows_above_t in Ha. destruct (cb_t b) as [ts|t|]; cbn in Ht.
  - destruct (ts !! i) as [t|] eqn:Et; [|done]. injection Ht as <-.
    rewrite <- not_true_iff_false, existsb_exists in Ha.
    destruct (Z.le_gt_cases t t_target) as [|Hlt]; [done|]. destruct Ha. exists t.
    split; [|by apply Z.ltb_lt]. apply list_elem_of_In. by eapply list_elem_of_lookup_2.
  - injection Ht as <-. by apply Z.ltb_ge in Ha.
  - by injection Ht as <-.
Qed.
