(* ===== verification/HistorySidecar.v ===== *)
(** * History sidecars (format/history_sidecar.rs)

    A sidecar holds, for each leaflet of a leaf, the assert and retract events
    of its facts, newest first.  [build] writes the segments one after the
    other behind an eight-byte header and returns where each one is;
    [decode_history_segment] reads one back. *)

From S2P Require Import Prelude Bytes Cmp Segment RunRecord Columns.
From stdpp Require Import base list numbers sorting gmap.
From Stdlib Require Import ZArith Lia.

Local Open Scope Z_scope.

(** ["FHS1"] *)
Definition SIDECAR_MAGIC : bytes := [0x46; 0x48; 0x53; 0x31].
Definition SIDECAR_VERSION : Z := 1.
Definition SIDECAR_HEADER_SIZE : Z := 8.
Definition HIST_ENTRY_V2_SIZE : Z := 31.

Record HistEntryV2 := mkHist {
  he_s_id : Z; he_p_id : Z; he_o_type : Z; he_o_key : Z; he_o_i : Z; he_t : Z; he_op : Z;
}.

#[export] Instance HistEntryV2_eq_dec : EqDecision HistEntryV2.
Proof. solve_decision. Defined.

Definition hist_write_le (e : HistEntryV2) : bytes :=
  le_bytes 8 (he_s_id e) ++ le_bytes 4 (he_p_id e) ++ le_bytes 2 (he_o_type e)
  ++ le_bytes 8 (he_o_key e) ++ le_bytes 4 (he_o_i e) ++ le_bytes 4 (he_t e) ++ [he_op e].

Definition hist_read_le (buf : bytes) : io HistEntryV2 :=
  if zlen buf <? HIST_ENTRY_V2_SIZE then Err IoUnexpectedEof
  else Ok (mkHist (le_int (slice buf 0 8)) (le_int (slice buf 8 12)) (le_int (slice buf 12 14))
             (le_int (slice buf 14 22)) (le_int (slice buf 22 26)) (le_int (slice buf 26 30))
             (nth 30 buf 0)).

Record HistorySegmentRef := mkSegRef {
  sr_offset : Z; sr_len : Z; sr_min_t : Z; sr_max_t : Z;
}.

(** [FactKeyV3::from_hist] *)
Definition he_key (e : HistEntryV2) : FactKeyV3 :=
  mkFactKey (he_s_id e) (he_p_id e) (he_o_type e) (he_o_key e) (he_o_i e).

(** ** The builder: one list of entries per leaflet *)

Definition HistSidecarBuilder := list (list HistEntryV2).

Definition sidecar_new : HistSidecarBuilder := [].
Definition start_leaflet (b : HistSidecarBuilder) : HistSidecarBuilder := b ++ [[]].

Definition push_entry (b : HistSidecarBuilder) (e : HistEntryV2) : HistSidecarBuilder :=
  match last b with
  | Some es => take (length b - 1) b ++ [es ++ [e]]
  | None => b
  end.

Definition has_history (b : HistSidecarBuilder) : bool :=
  existsb (fun es => negb (bool_decide (es = []))) b.

Definition sidecar_header : bytes := SIDECAR_MAGIC ++ [SIDECAR_VERSION] ++ replicate 3 0.

(** [Reverse(b.t)] *)
Definition newest_first (a b : HistEntryV2) : comparison := he_t b ?= he_t a.

Section build.
Context `{SL : SortLib}.

Definition build_segment (out : bytes) (entries : list HistEntryV2) : bytes * HistorySegmentRef :=
  let offset := zlen out in
  match entries with
  | [] => (out ++ le_bytes 4 0, mkSegRef offset 4 0 0)
  | _ =>
      let sorted := sort_by newest_first entries in
      let out' := out ++ le_bytes 4 (as_u 32 (zlen sorted)) ++ concat (hist_write_le <$> sorted) in
      (out', mkSegRef offset (as_u 32 (zlen out' - offset))
               (default 0 (he_t <$> last sorted)) (default 0 (he_t <$> head sorted)))
  end.

Fixpoint build_segments (out : bytes) (leaflets : list (list HistEntryV2))
    : bytes * list HistorySegmentRef :=
  match leaflets with
  | [] => (out, [])
  | entries :: rest =>
      let '(out, seg) := build_segment out entries in
      let '(out, segs) := build_segments out rest in
      (out, seg :: segs)
  end.

Definition sidecar_build (b : HistSidecarBuilder) : bytes * list HistorySegmentRef :=
  build_segments sidecar_header b.
End build.

(** ** Decoding *)

Fixpoint read_entries (data : bytes) (pos : Z) (n : nat) : io (list HistEntryV2) :=
  match n with
  | O => mret []
  | S n =>
      e ← hist_read_le (drop (Z.to_nat pos) data);
      es ← read_entries data (pos + HIST_ENTRY_V2_SIZE) n;
      mret (e :: es)
  end.

(** An offset within four bytes of [usize::MAX] overflows: a panic of the sum
    or, with wrapping sums, of the slice whose end precedes its start. *)
Definition decode_history_segment (data : bytes) (seg : HistorySegmentRef)
    : io (list HistEntryV2) :=
  let offset := sr_offset seg in
  if 2 ^ 64 <=? offset + 4 then Panic
  else if zlen data <? offset + 4 then Err IoUnexpectedEof
  else
    let entry_count := le_int (slice data offset (offset + 4)) in
    let required := offset + 4 + entry_count * HIST_ENTRY_V2_SIZE in
    if zlen data <? required then Err IoUnexpectedEof
    else read_entries data (offset + 4) (Z.to_nat entry_count).

(** ** Round trip *)

Record he_wf (e : HistEntryV2) : Prop := {
  he_wf_s : in_u 64 (he_s_id e); he_wf_p : in_u 32 (he_p_id e); he_wf_ot : in_u 16 (he_o_type e);
  he_wf_ok : in_u 64 (he_o_key e); he_wf_oi : in_u 32 (he_o_i e); he_wf_t : in_u 32 (he_t e);
}.

#[export] Instance cmp_laws_newest : CmpLaws everything newest_first.
Proof.
  split; intros x y; unfold newest_first; intros.
  - by rewrite Z.compare_antisym.
  - match goal with H : _ = Eq |- _ => apply Z.compare_eq in H as -> end. done.
  - rewrite Z.compare_lt_iff in *. lia.
Qed.

Definition t_desc (a b : HistEntryV2) : Prop := he_t b <= he_t a.

Lemma sorted_lookup {A} (R : A -> A -> Prop) l i j x y :
  StronglySorted R l -> l !! i = Some x -> l !! j = Some y -> (i < j)%nat -> R x y.
Proof.
  intros H. revert i j. induction H as [|a l H IH Ha]; intros [|i] [|j] Hi Hj Hlt; try done; try lia.
  - injection Hi as <-. rewrite Forall_lookup in Ha. by eapply Ha.
  - eapply (IH i j); [done|done|lia].
Qed.

Lemma newest_first_desc l : StronglySorted (cle newest_first) l <-> StronglySorted t_desc l.
Proof.
  assert (forall a b, cle newest_first a b <-> t_desc a b) as E.
  { intros a b. unfold cle, newest_first, t_desc. by rewrite Z.compare_le_iff. }
  split; induction 1; constructor; try done; (eapply Forall_impl; [done|]); intros; by apply E.
Qed.

Lemma zlen_hist_write e : zlen (hist_write_le e) = HIST_ENTRY_V2_SIZE.
Proof. done. Qed.

Lemma zlen_hist_writes es : zlen (concat (hist_write_le <$> es)) = HIST_ENTRY_V2_SIZE * zlen es.
Proof.
  induction es as [|e es IH]; [done|]. rewrite fmap_cons, concat_cons, zlen_app, zlen_cons, zlen_hist_write, IH. lia.
Qed.

Lemma hist_read_write e rest : he_wf e -> hist_read_le (hist_write_le e ++ rest) = Ok e.
Proof.
  destruct e as [s p ot ok oi t op]. intros [Hs Hp Hot Hok Hoi Ht]. cbn in Hs, Hp, Hot, Hok, Hoi, Ht.
  unfold hist_read_le. rewrite zlen_app. rewrite zlen_hist_write.
  pose proof (zlen_nonneg rest). case_Z. f_equal. read_fields.
Qed.

Lemma read_entries_write es : forall data pos pre post,
  Forall he_wf es -> data = pre ++ concat (hist_write_le <$> es) ++ post -> pos = zlen pre ->
  read_entries data pos (length es) = Ok es.
Proof.
  induction es as [|e es IH]; intros data pos pre post Hwf -> ->; [done|].
  apply Forall_cons in Hwf as [He Hes]. rewrite fmap_cons, concat_cons. cbn [length read_entries].
  rewrite zlen_to_nat, drop_app_length, <- app_assoc, hist_read_write by done. cbn.
  rewrite (IH _ _ (pre ++ hist_write_le e) post); [done|done|by rewrite <- !app_assoc|].
  by rewrite zlen_app, zlen_hist_write.
Qed.

Section roundtrip.
Context `{SL : SortLib, SLL : !SortLaws}.

Lemma sort_newest es :
  sort_by newest_first es ≡ₚ es /\ StronglySorted t_desc (sort_by newest_first es).
Proof.
  assert (Forall everything es) as He by by apply Forall_true.
  split; [by apply (sort_by_perm everything newest_first es _)|].
  by apply newest_first_desc, (sort_by_sorted everything newest_first es _).
Qed.

(** What a segment reference points at in the finished blob. *)
Definition seg_holds (data : bytes) (seg : HistorySegmentRef) (es : list HistEntryV2) : Prop :=
  exists es', es' ≡ₚ es /\ StronglySorted t_desc es' /\
    decode_history_segment data seg = Ok es' /\ 0 < sr_len seg /\
    Forall (fun e => sr_min_t seg <= he_t e <= sr_max_t seg) es /\
    (sr_max_t seg = 0 \/ exists e, e ∈ es /\ he_t e = sr_max_t seg).

Definition leaflet_fits (es : list HistEntryV2) : Prop :=
  Forall he_wf es /\ 4 + HIST_ENTRY_V2_SIZE * zlen es < 2 ^ 32.

Lemma decode_at out es post :
  Forall he_wf es -> zlen es < 2 ^ 32 -> zlen out + 4 < 2 ^ 64 -> forall seg, sr_offset seg = zlen out ->
  decode_history_segment
    (out ++ (le_bytes 4 (zlen es) ++ concat (hist_write_le <$> es)) ++ post) seg = Ok es.
Proof.
  intros Hwf Hlen Hout seg Hseg. unfold decode_history_segment. rewrite Hseg.
  pose proof (zlen_nonneg out). pose proof (zlen_nonneg post). pose proof (zlen_nonneg es).
  assert (le_int (slice (out ++ (le_bytes 4 (zlen es) ++ concat (hist_write_le <$> es)) ++ post)
            (zlen out) (zlen out + 4)) = zlen es) as ->.
  { rewrite <- app_assoc, slice_app by (rewrite ?zlen_le_bytes; lia). apply le_int_bytes. unfold in_u. lia. }
  rewrite !zlen_app, zlen_le_bytes, zlen_hist_writes. unfold HIST_ENTRY_V2_SIZE in *. case_Z.
  rewrite zlen_to_nat.
  apply (read_entries_write es _ _ (out ++ le_bytes 4 (zlen es)) post); [done|by rewrite <- !app_assoc|].
  by rewrite zlen_app, zlen_le_bytes.
Qed.

Lemma build_segment_spec out es out' seg :
  leaflet_fits es -> build_segment out es = (out', seg) ->
  exists body, out' = out ++ body /\
    forall post, zlen (out' ++ post) <= isize_max -> seg_holds (out' ++ post) seg es.
Proof.
  intros [Hwf Hlen] Hb. unfold build_segment in Hb.
  destruct (sort_newest es) as [Hp Hs]. set (srt := sort_by newest_first es) in *.
  pose proof (zlen_nonneg es). unfold HIST_ENTRY_V2_SIZE in *.
  assert (zlen srt = zlen es) as Hz by (unfold zlen; by rewrite Hp).
  destruct es as [|e es].
  - apply pair_eq in Hb as [<- <-]. exists (le_bytes 4 0). split; [done|]. intros post Hpost.
    exists []. split_and!; [done|constructor| |done|done|by left].
    rewrite !zlen_app, zlen_le_bytes in Hpost. unfold isize_max in Hpost.
    pose proof (zlen_nonneg post). rewrite <- app_assoc.
    apply (decode_at out [] post); [done|done|lia|done].
  - apply pair_eq in Hb as [<- <-]. rewrite Hz.
    assert (as_u 32 (zlen (e :: es)) = zlen (e :: es)) as -> by (apply as_u_id; unfold in_u; lia).
    rewrite <- Hz. eexists. split; [reflexivity|]. intros post Hpost.
    assert (Forall he_wf srt) as Hwf' by by rewrite Hp.
    rewrite !zlen_app, zlen_le_bytes in Hpost. unfold isize_max in Hpost.
    pose proof (zlen_nonneg post). pose proof (zlen_nonneg (concat (hist_write_le <$> srt))).
    assert (zlen (out ++ le_bytes 4 (zlen srt) ++ concat (hist_write_le <$> srt)) - zlen out
            = 4 + 31 * zlen (e :: es)) as Hl.
    { rewrite !zlen_app, zlen_le_bytes, zlen_hist_writes, Hz. unfold HIST_ENTRY_V2_SIZE. lia. }
    exists srt. split_and!; cbn [sr_len sr_min_t sr_max_t].
    + done.
    + done.
    + rewrite <- app_assoc. apply decode_at; [done|lia|lia|done].
    + rewrite Hl, as_u_id; unfold in_u; lia.
    + rewrite <- Hp. apply Forall_lookup. intros i x Hi.
      assert (srt <> []) as Hne by (intros E; by rewrite E in Hi). split.
      * destruct (last srt) as [y|] eqn:El; [|by apply last_None in El]. cbn.
        rewrite last_lookup in El. destruct (decide (i = pred (length srt))) as [->|Hni]; [by simplify_eq; lia|].
        apply lookup_lt_Some in Hi as Hlt. eapply (sorted_lookup _ _ i _ _ _ Hs); [done|done|lia].
      * destruct srt as [|y srt']; [done|]. cbn. apply StronglySorted_inv in Hs as [_ Hs].
        destruct i as [|i]; [by injection Hi as ->|]. rewrite Forall_lookup in Hs. by eapply Hs.
    + right. destruct srt as [|y srt']; [by apply Permutation_nil_cons in Hp|].
      exists y. split; [rewrite <- Hp; left|done].
Qed.

Lemma build_segments_spec leaflets : forall out data segs,
  Forall leaflet_fits leaflets -> build_segments out leaflets = (data, segs) ->
  zlen data <= isize_max ->
  (exists body, data = out ++ body) /\ Forall2 (seg_holds data) segs leaflets.
Proof.
  induction leaflets as [|es rest IH]; intros out data segs Hf Hb Hfit; cbn in Hb.
  - injection Hb as <- <-. split; [exists []; by rewrite app_nil_r|constructor].
  - apply Forall_cons in Hf as [Hes Hrest].
    destruct (build_segment out es) as [out1 seg] eqn:E1.
    destruct (build_segments out1 rest) as [out2 segs'] eqn:E2. injection Hb as <- <-.
    destruct (IH _ _ _ Hrest E2 Hfit) as [[body ->] HF].
    destruct (build_segment_spec _ _ _ _ Hes E1) as (b1 & -> & Hseg).
    split; [exists (b1 ++ body); by rewrite app_assoc|]. constructor; [by apply Hseg|done].
Qed.

(** Every leaflet's entries are read back from the finished blob, newest
    first, and the reference bounds their transactions. *)
Theorem sidecar_roundtrip b data segs :
  Forall leaflet_fits b -> sidecar_build b = (data, segs) -> zlen data <= isize_max ->
  length segs = length b /\
  forall i es, b !! i = Some es -> exists seg, segs !! i = Some seg /\ seg_holds data seg es.
Proof.
  intros Hf Hb Hfit. destruct (build_segments_spec b _ _ _ Hf Hb Hfit) as [_ HF].
  split; [by eapply Forall2_length|]. intros i es Hi.
  destruct (Forall2_lookup_r _ _ _ _ _ HF Hi) as (seg & Hseg & Hh). eauto.
Qed.
End roundtrip.
