(* ===== verification/IndexLog.v ===== *)
(** * The log a leaflet represents

    The specification of time travel.  A log is the list of the assert and
    retract events of a key range, oldest first; the state at a transaction is
    what the events up to it leave: a map from fact to the transaction of its
    assertion.  A log is well formed when its times do not decrease, an assert
    is of an absent fact and a retract is of a fact asserted earlier. *)

From S2P Require Import Prelude Bytes Cmp Segment RunRecord Columns HistorySidecar.
From stdpp Require Import base list numbers sorting gmap.
From Stdlib Require Import ZArith Lia.

Local Open Scope Z_scope.

Definition apply_event (m : gmap FactKeyV3 Z) (e : HistEntryV2) : gmap FactKeyV3 Z :=
  if he_op e =? 1 then <[he_key e := he_t e]> m else delete (he_key e) m.

Definition log_state (log : list HistEntryV2) : gmap FactKeyV3 Z := fold_left apply_event log ∅.

Definition state_at (log : list HistEntryV2) (t : Z) : gmap FactKeyV3 Z :=
  log_state (filter (fun e => he_t e <= t) log).

Inductive log_ok : list HistEntryV2 -> Prop :=
| log_ok_nil : log_ok []
| log_ok_assert log e :
    log_ok log -> Forall (fun x => he_t x <= he_t e) log ->
    he_op e = 1 -> log_state log !! he_key e = None -> log_ok (log ++ [e])
| log_ok_retract log e t :
    log_ok log -> Forall (fun x => he_t x <= he_t e) log ->
    he_op e = 0 -> log_state log !! he_key e = Some t -> t < he_t e -> log_ok (log ++ [e]).

(** ** States *)

Lemma log_state_snoc log e : log_state (log ++ [e]) = apply_event (log_state log) e.
Proof. unfold log_state. by rewrite fold_left_app. Qed.

Lemma apply_event_ne m e k : he_key e <> k -> apply_event m e !! k = m !! k.
Proof. intros. unfold apply_event. case_match; [by rewrite lookup_insert_ne|by rewrite lookup_delete_ne]. Qed.

Lemma log_state_untouched log k : forall log0,
  Forall (fun e => he_key e <> k) log -> log_state (log0 ++ log) !! k = log_state log0 !! k.
Proof.
  induction log as [|e log IH]; intros log0 H; [by rewrite app_nil_r|].
  apply Forall_cons in H as [He H]. replace (log0 ++ e :: log) with ((log0 ++ [e]) ++ log) by by rewrite <- app_assoc.
  rewrite IH, log_state_snoc by done. by apply apply_event_ne.
Qed.

(** A fact present in a state was asserted by an event of the log. *)
Lemma log_state_assert log k t :
  log_state log !! k = Some t -> exists e, e ∈ log /\ he_op e = 1 /\ he_key e = k /\ he_t e = t.
Proof.
  induction log as [|e log IH] using rev_ind; [done|].
  rewrite log_state_snoc. setoid_rewrite elem_of_app. unfold apply_event.
  destruct (Z.eqb_spec (he_op e) 1) as [Hop|Hop].
  - destruct (decide (he_key e = k)) as [<-|Hne].
    + rewrite lookup_insert_eq. intros [= <-]. exists e. split_and!; try done. right. by apply list_elem_of_singleton.
    + rewrite lookup_insert_ne by done. intros (x & Hx & ?)%IH. eauto.
  - intros [_ H]%lookup_delete_Some. destruct (IH H) as (x & Hx & ?). eauto.
Qed.

(** ** Well-formed logs *)

Lemma log_ok_snoc log e : log_ok (log ++ [e]) ->
  log_ok log /\ Forall (fun x => he_t x <= he_t e) log /\
  (he_op e = 1 /\ log_state log !! he_key e = None \/
   he_op e = 0 /\ exists t, log_state log !! he_key e = Some t /\ t < he_t e).
Proof.
  intros H. inversion H as [E|l x Hl Ht Hop Hk E|l x t Hl Ht Hop Hk Hlt E].
  - by destruct log.
  - apply app_inj_tail in E as [-> ->]. auto.
  - apply app_inj_tail in E as [-> ->]. split_and!; [done|done|]. right. eauto.
Qed.

Lemma log_ok_prefix log2 : forall log1, log_ok (log1 ++ log2) -> log_ok log1.
Proof.
  induction log2 as [|e log2 IH] using rev_ind; intros log1 H; [by rewrite app_nil_r in H|].
  rewrite app_assoc in H. apply log_ok_snoc in H as [H _]. by apply IH.
Qed.

Lemma log_ok_times log : log_ok log -> StronglySorted (fun a b => he_t a <= he_t b) log.
Proof.
  induction log as [|e log IH] using rev_ind; [constructor|].
  intros (H & Ht & _)%log_ok_snoc. apply IH in H. clear IH.
  induction H as [|x l H IH Hx]; [repeat constructor|]. apply Forall_cons in Ht as [He Ht].
  cbn. constructor; [by apply IH|]. apply Forall_app. auto.
Qed.

Lemma log_ok_op log e : log_ok log -> e ∈ log -> he_op e = 0 \/ he_op e = 1.
Proof.
  induction log as [|x log IH] using rev_ind; [by intros _ ?%not_elem_of_nil|].
  intros (H & _ & Hx)%log_ok_snoc [He|He%list_elem_of_singleton]%elem_of_app; [by apply IH|subst].
  destruct Hx as [[? _]|[? _]]; auto.
Qed.

(** A present fact was asserted no earlier than any of its other events. *)
Lemma log_state_latest log k t :
  log_ok log -> log_state log !! k = Some t -> forall e, e ∈ log -> he_key e = k -> he_t e <= t.
Proof.
  induction log as [|x log IH] using rev_ind; [by intros _ _ ? ?%not_elem_of_nil|].
  intros (H & Ht & Hx)%log_ok_snoc. rewrite log_state_snoc. unfold apply_event.
  destruct Hx as [[Hop Hk]|(Hop & t' & Hk & Hlt)]; rewrite Hop; cbn.
  - destruct (decide (he_key x = k)) as [<-|Hne].
    + rewrite lookup_insert_eq. intros [= <-] e [He|He%list_elem_of_singleton]%elem_of_app _; [|by subst].
      rewrite Forall_forall in Ht. by apply Ht.
    + rewrite lookup_insert_ne by done. intros Hs e [He|He%list_elem_of_singleton]%elem_of_app; [|by subst].
      by apply IH.
  - intros [Hne Hs]%lookup_delete_Some e [He|He%list_elem_of_singleton]%elem_of_app; [|by subst].
    by apply IH.
Qed.

Lemma filter_keep {A} (P : A -> Prop) `{!forall x, Decision (P x)} l : Forall P l -> filter P l = l.
Proof. induction 1; [done|]. rewrite filter_cons_True by done. by f_equal. Qed.

Lemma filter_drop {A} (P : A -> Prop) `{!forall x, Decision (P x)} l :
  Forall (fun x => ~ P x) l -> filter P l = [].
Proof. induction 1; [done|]. by rewrite filter_cons_False. Qed.

(** Splitting a log at a transaction. *)
Lemma log_split log t :
  log_ok log -> exists log1 log2, log = log1 ++ log2 /\ Forall (fun e => he_t e <= t) log1 /\
    Forall (fun e => t < he_t e) log2 /\ state_at log t = log_state log1.
Proof.
  intros H. apply log_ok_times in H. unfold state_at.
  exists (filter (fun e => he_t e <= t) log), (filter (fun e => ~ he_t e <= t) log).
  split_and!; [|apply Forall_forall; intros e He%list_elem_of_filter; tauto| |done].
  2: { apply Forall_forall. intros e He%list_elem_of_filter. lia. }
  induction H as [|x l H IH Hx]; [done|]. rewrite !filter_cons.
  destruct (decide (he_t x <= t)) as [Hle|Hgt].
  - rewrite decide_False by tauto. cbn. by f_equal.
  - rewrite decide_True by done.
    rewrite (filter_drop (fun e => he_t e <= t)) by (eapply Forall_impl; [done|]; cbn; intros; lia).
    rewrite (filter_keep (fun e => ~ he_t e <= t)) by (eapply Forall_impl; [done|]; cbn; intros; lia). done.
Qed.

(** ** The first event of a fact after a prefix *)

Lemma first_event k log :
  Forall (fun e => he_key e <> k) log \/
  exists a f b, log = a ++ f :: b /\ he_key f = k /\ Forall (fun e => he_key e <> k) a.
Proof.
  induction log as [|e log IH]; [by left|].
  destruct (decide (he_key e = k)) as [He|He]; [right; exists [], e, log; auto|].
  destruct IH as [IH|(a & f & b & -> & Hf & Ha)]; [by left; constructor|].
  right. exists (e :: a), f, b. auto.
Qed.

Lemma log_ok_middle log1 e log2 :
  log_ok (log1 ++ e :: log2) ->
  (he_op e = 1 /\ log_state log1 !! he_key e = None) \/
  (he_op e = 0 /\ exists t, log_state log1 !! he_key e = Some t /\ t < he_t e).
Proof.
  intros H. replace (log1 ++ e :: log2) with ((log1 ++ [e]) ++ log2) in H by by rewrite <- app_assoc.
  by apply log_ok_prefix, log_ok_snoc in H as (_ & _ & ?).
Qed.

(** If the first event after a prefix is a retract the fact was present, if it
    is an assert the fact was absent, and no retract shares the time of such
    an assert. *)
Lemma first_event_after log1 a f b :
  log_ok (log1 ++ a ++ f :: b) -> Forall (fun e => he_key e <> he_key f) a ->
  (he_op f = 0 /\ is_Some (log_state log1 !! he_key f)) \/
  (he_op f = 1 /\ log_state log1 !! he_key f = None /\
   forall e, e ∈ a ++ f :: b -> he_key e = he_key f -> he_op e = 0 -> he_t f < he_t e).
Proof.
  intros H Ha. rewrite app_assoc in H. destruct (log_ok_middle _ _ _ H) as [[Hop Hs]|(Hop & t & Hs & Ht)];
    rewrite (log_state_untouched a) in Hs by done; [right|left; eauto].
  split_and!; [done|done|]. intros e [He|He]%elem_of_app Hk He0.
  { rewrite Forall_forall in Ha. by apply Ha in He. }
  apply elem_of_cons in He as [->|He]; [lia|].
  apply list_elem_of_split in He as (b1 & b2 & ->).
  replace ((log1 ++ a) ++ f :: b1 ++ e :: b2) with (((log1 ++ a) ++ f :: b1) ++ e :: b2) in H
    by by rewrite <- app_assoc.
  destruct (log_ok_middle _ _ _ H) as [[? _]|(_ & t' & Hs' & Ht')]; [lia|].
  enough (he_t f <= t') by lia.
  eapply (log_state_latest ((log1 ++ a) ++ f :: b1)); [by eapply log_ok_prefix|done| |done].
  apply elem_of_app. right. left.
Qed.

(** ** Leaflets that represent a log

    [rows] are the facts present now, in index order; [hist] holds, newest
    first, every event of the log but those of [extra]: the assertions of
    present facts that only their rows record, as after a full build. *)
Definition run_lt (o : RunSortOrder) (a b : RunRecordV2) : Prop := cmp_v2_for_order o a b = Lt.

Definition row_in (rows : list RunRecordV2) (k : FactKeyV3) (t : Z) : Prop :=
  exists r, r ∈ rows /\ rr_key r = k /\ rr_t r = t.

Record leaflet_of (o : RunSortOrder) (log extra : list HistEntryV2)
    (rows : list RunRecordV2) (hist : list HistEntryV2) : Prop := {
  lo_log : log_ok log;
  lo_sorted : StronglySorted (run_lt o) rows;
  lo_rows : forall k t, log_state log !! k = Some t <-> row_in rows k t;
  lo_desc : StronglySorted t_desc hist;
  lo_hist : log ≡ₚ hist ++ extra;
  lo_extra : Forall (fun e => he_op e = 1 /\ log_state log !! he_key e = Some (he_t e)) extra;
}.

(** The rows of a time: the facts of the state, in index order. *)
Definition rows_show (o : RunSortOrder) (rows : list RunRecordV2) (m : gmap FactKeyV3 Z) : Prop :=
  StronglySorted (run_lt o) rows /\ forall k t, m !! k = Some t <-> row_in rows k t.

Lemma run_lt_trans o a b c : run_lt o a b -> run_lt o b c -> run_lt o a c.
Proof. apply (cmp_lt_trans (P := everything) (c := cmp_v2_for_order o)); done. Qed.

Lemma run_lt_ne o a b : run_lt o a b -> rr_key a <> rr_key b.
Proof. unfold run_lt. intros H E. apply (cmp_run_Eq o) in E. congruence. Qed.

Lemma sorted_keys_inj o rows a b :
  StronglySorted (run_lt o) rows -> a ∈ rows -> b ∈ rows -> rr_key a = rr_key b -> a = b.
Proof.
  intros H. induction H as [|x l H IH Hx]; [by intros ?%not_elem_of_nil|].
  rewrite Forall_forall in Hx.
  intros [->|Ha]%elem_of_cons [->|Hb]%elem_of_cons E; [done| | |by apply IH].
  - apply Hx, run_lt_ne in Hb. done.
  - apply Hx, run_lt_ne in Ha. by symmetry in E.
Qed.
