(* ===== verification/NoveltyMerge.v ===== *)
(** * Merging novelty into a leaflet (run_index/build/novelty_merge.rs)

    [merge_novelty] walks the rows of a decoded leaflet and the sorted novelty
    operations together.  It returns the new rows and the leaflet's history:
    the events of this merge in front of the existing ones.  [merge_rows] is
    the same walk on lists of records, which the batch version computes on
    every batch whose columns cover its rows. *)

From S2P Require Import Prelude Bytes Cmp Segment RunRecord Columns HistorySidecar IndexLog.
From stdpp Require Import base list numbers sorting gmap.
From Stdlib Require Import ZArith Lia.

Local Open Scope Z_scope.

Definition record_to_hist_entry (r : RunRecordV2) (op : Z) : HistEntryV2 :=
  mkHist (rr_s_id r) (rr_p_id r) (rr_o_type r) (rr_o_key r) (rr_o_i r) (rr_t r) op.

Definition batch_row_to_hist_entry (b : ColumnBatch) (row : nat) (op : Z) : io HistEntryV2 :=
  s ← col_get (cb_s_id b) row;
  p ← col_get (cb_p_id b) row;
  ot ← col_get (cb_o_type b) row;
  ok ← col_get (cb_o_key b) row;
  oi ← col_get_or (cb_o_i b) row OI_NONE;
  t ← col_get_or (cb_t b) row 0;
  mret (mkHist s p ot ok oi t op).

Definition set_he_t (e : HistEntryV2) (t : Z) : HistEntryV2 :=
  mkHist (he_s_id e) (he_p_id e) (he_o_type e) (he_o_key e) (he_o_i e) t (he_op e).

Definition cmp_batch_row_vs_record (b : ColumnBatch) (row : nat) (rec : RunRecordV2)
    (o : RunSortOrder) : io comparison :=
  s ← col_get (cb_s_id b) row;
  p ← col_get (cb_p_id b) row;
  ot ← col_get (cb_o_type b) row;
  ok ← col_get (cb_o_key b) row;
  oi ← col_get_or (cb_o_i b) row OI_NONE;
  mret match o with
  | RSpot => then_with (s ?= rr_s_id rec) (then_with (p ?= rr_p_id rec)
               (then_with (ot ?= rr_o_type rec) (then_with (ok ?= rr_o_key rec) (oi ?= rr_o_i rec))))
  | RPsot => then_with (p ?= rr_p_id rec) (then_with (s ?= rr_s_id rec)
               (then_with (ot ?= rr_o_type rec) (then_with (ok ?= rr_o_key rec) (oi ?= rr_o_i rec))))
  | RPost => then_with (p ?= rr_p_id rec) (then_with (ot ?= rr_o_type rec)
               (then_with (ok ?= rr_o_key rec) (then_with (oi ?= rr_o_i rec) (s ?= rr_s_id rec))))
  | ROpst => then_with (ot ?= rr_o_type rec) (then_with (ok ?= rr_o_key rec)
               (then_with (oi ?= rr_o_i rec) (then_with (p ?= rr_p_id rec) (s ?= rr_s_id rec))))
  end.

(** ** History assembly *)

Definition both_assert_same (a b : HistEntryV2) : bool :=
  bool_decide (he_key a = he_key b) && (he_op a =? 1) && (he_op b =? 1).

(** The loop of [dedup_adjacent_asserts] with the entry at [write] in hand. *)
Fixpoint dedup_from (w : HistEntryV2) (rest : list HistEntryV2) : list HistEntryV2 :=
  match rest with
  | [] => [w]
  | r :: rest => if both_assert_same w r then dedup_from w rest else w :: dedup_from r rest
  end.

Definition dedup_adjacent_asserts (entries : list HistEntryV2) : list HistEntryV2 :=
  match entries with
  | [] => []
  | w :: rest => dedup_from w rest
  end.

(** Newest first, retracts before asserts. *)
Definition assemble_cmp (a b : HistEntryV2) : comparison :=
  then_with (he_t b ?= he_t a) (he_op a ?= he_op b).

Section merge.
Context `{SL : SortLib}.

Definition assemble_history (new_history existing : list HistEntryV2) : list HistEntryV2 :=
  let new_history := dedup_adjacent_asserts (sort_by assemble_cmp new_history) in
  match last new_history, existing with
  | Some last_new, first_old :: older =>
      if both_assert_same last_new first_old then
        if he_t first_old <=? he_t last_new then new_history ++ older
        else take (length new_history - 1) new_history ++ existing
      else new_history ++ existing
  | _, _ => new_history ++ existing
  end.

(** The three loops: [ei] is the next row and [n] how many are left. *)
Fixpoint merge_walk (b : ColumnBatch) (o : RunSortOrder) (novelty : list RunRecordV2)
    : list Z -> nat -> nat -> io (list RunRecordV2 * list HistEntryV2) :=
  fix go ops ei n :=
    match novelty with
    | [] => rows ← rows_from b ei n; mret (rows, [])
    | nov :: novelty' =>
        match ops with
        | [] => Panic
        | op :: ops' =>
            let before n :=
              '(out, hist) ← merge_walk b o novelty' ops' ei n;
              mret (if op =? 1 then nov :: out else out, record_to_hist_entry nov op :: hist) in
            match n with
            | O => before O
            | S n' =>
                c ← cmp_batch_row_vs_record b ei nov o;
                match c with
                | Lt =>
                    row ← batch_row_to_record b ei;
                    '(out, hist) ← go ops (S ei) n';
                    mret (row :: out, hist)
                | Gt => before (S n')
                | Eq =>
                    old ← (if op =? 1 then e ← batch_row_to_hist_entry b ei 0; mret [set_he_t e (rr_t nov)] else mret []);
                    '(out, hist) ← merge_walk b o novelty' ops' (S ei) n';
                    mret (if op =? 1 then nov :: out else out, old ++ record_to_hist_entry nov op :: hist)
                end
            end
        end
    end.

Record MergeOutput := mkMergeOutput { mo_records : list RunRecordV2; mo_history : list HistEntryV2 }.

Definition merge_novelty (b : ColumnBatch) (existing_history : list HistEntryV2)
    (novelty : list RunRecordV2) (novelty_ops : list Z) (o : RunSortOrder) : io MergeOutput :=
  '(out, new_history) ← merge_walk b o novelty novelty_ops 0 (cb_row_count b);
  mret (mkMergeOutput out (assemble_history new_history existing_history)).
End merge.

(** ** The walk on records *)

Fixpoint merge_rows (o : RunSortOrder) (novelty : list (RunRecordV2 * Z))
    : list RunRecordV2 -> list RunRecordV2 * list HistEntryV2 :=
  fix go rows :=
    match novelty with
    | [] => (rows, [])
    | (nov, op) :: novelty' =>
        let before rows :=
          let '(out, hist) := merge_rows o novelty' rows in
          (if op =? 1 then nov :: out else out, record_to_hist_entry nov op :: hist) in
        match rows with
        | [] => before []
        | row :: rows' =>
            match cmp_v2_for_order o row nov with
            | Lt => let '(out, hist) := go rows' in (row :: out, hist)
            | Gt => before (row :: rows')
            | Eq =>
                let '(out, hist) := merge_rows o novelty' rows' in
                if op =? 1
                then (nov :: out, record_to_hist_entry (mkRun (rr_s_id row) (rr_o_key row) (rr_p_id row)
                                     (rr_t nov) (rr_o_i row) (rr_o_type row) 0) 0
                                  :: record_to_hist_entry nov op :: hist)
                else (out, record_to_hist_entry nov op :: hist)
            end
        end
    end.

Lemma cmp_batch_row b i r rec o :
  batch_row_to_record b i = Ok r -> cmp_batch_row_vs_record b i rec o = Ok (cmp_v2_for_order o r rec).
Proof.
  intros (Hs & Hok & Hp & Ht & Hoi & Hot & _)%batch_row_columns.
  unfold cmp_batch_row_vs_record. rewrite Hs, Hp, Hot, Hok, Hoi. by destruct o.
Qed.

Lemma batch_row_hist b i r op :
  batch_row_to_record b i = Ok r -> batch_row_to_hist_entry b i op = Ok (record_to_hist_entry r op).
Proof.
  intros (Hs & Hok & Hp & Ht & Hoi & Hot & _)%batch_row_columns.
  unfold batch_row_to_hist_entry. by rewrite Hs, Hp, Hot, Hok, Hoi, Ht.
Qed.

(** The equations of the two walks. *)
Definition emit (nov : RunRecordV2) (op : Z) (rest : list RunRecordV2 * list HistEntryV2)
    : list RunRecordV2 * list HistEntryV2 :=
  (if op =? 1 then nov :: rest.1 else rest.1, record_to_hist_entry nov op :: rest.2).

Definition emit_update (row nov : RunRecordV2) (op : Z) (rest : list RunRecordV2 * list HistEntryV2)
    : list RunRecordV2 * list HistEntryV2 :=
  if op =? 1
  then (nov :: rest.1, set_he_t (record_to_hist_entry row 0) (rr_t nov) :: record_to_hist_entry nov op :: rest.2)
  else (rest.1, record_to_hist_entry nov op :: rest.2).

Lemma merge_rows_nil o rows : merge_rows o [] rows = (rows, []).
Proof. by destruct rows. Qed.

Lemma merge_rows_end o nov op novelty :
  merge_rows o ((nov, op) :: novelty) [] = emit nov op (merge_rows o novelty []).
Proof. cbn. unfold emit. by destruct (merge_rows o novelty []). Qed.

Lemma merge_rows_cons o nov op novelty row rows :
  merge_rows o ((nov, op) :: novelty) (row :: rows) =
  match cmp_v2_for_order o row nov with
  | Lt => (row :: (merge_rows o ((nov, op) :: novelty) rows).1, (merge_rows o ((nov, op) :: novelty) rows).2)
  | Gt => emit nov op (merge_rows o novelty (row :: rows))
  | Eq => emit_update row nov op (merge_rows o novelty rows)
  end.
Proof.
  change (merge_rows o ((nov, op) :: novelty) (row :: rows)) with
    (match cmp_v2_for_order o row nov with
     | Lt => let '(out, hist) := merge_rows o ((nov, op) :: novelty) rows in (row :: out, hist)
     | Gt => let '(out, hist) := merge_rows o novelty (row :: rows) in
             (if op =? 1 then nov :: out else out, record_to_hist_entry nov op :: hist)
     | Eq =>
         let '(out, hist) := merge_rows o novelty rows in
         if op =? 1
         then (nov :: out, record_to_hist_entry (mkRun (rr_s_id row) (rr_o_key row) (rr_p_id row)
                              (rr_t nov) (rr_o_i row) (rr_o_type row) 0) 0
                           :: record_to_hist_entry nov op :: hist)
         else (out, record_to_hist_entry nov op :: hist)
     end).
  destruct (cmp_v2_for_order o row nov); unfold emit, emit_update; by case_match.
Qed.

Lemma merge_walk_cons b o nov op novelty ops ei n :
  merge_walk b o (nov :: novelty) (op :: ops) ei (S n) =
  c ← cmp_batch_row_vs_record b ei nov o;
  match c with
  | Lt => row ← batch_row_to_record b ei;
          '(out, hist) ← merge_walk b o (nov :: novelty) (op :: ops) (S ei) n;
          mret (row :: out, hist)
  | Gt => '(out, hist) ← merge_walk b o novelty ops ei (S n);
          mret (if op =? 1 then nov :: out else out, record_to_hist_entry nov op :: hist)
  | Eq => old ← (if op =? 1 then e ← batch_row_to_hist_entry b ei 0; mret [set_he_t e (rr_t nov)] else mret []);
          '(out, hist) ← merge_walk b o novelty ops (S ei) n;
          mret (if op =? 1 then nov :: out else out, old ++ record_to_hist_entry nov op :: hist)
  end.
Proof. done. Qed.

Lemma merge_walk_rows b o novelty : forall rows ei,
  rows_from b ei (length rows) = Ok rows ->
  merge_walk b o novelty.*1 novelty.*2 ei (length rows) = Ok (merge_rows o novelty rows).
Proof.
  induction novelty as [|[nov op] novelty IHn]; intros rows.
  - intros ei H. rewrite merge_rows_nil. destruct rows as [|r rows]; [done|].
    change (rows_from b ei (length (r :: rows)) ≫= (fun rs => mret (rs, @nil HistEntryV2)) = Ok (r :: rows, [])).
    by rewrite H.
  - induction rows as [|row rows IHr]; intros ei H.
    + rewrite merge_rows_end. specialize (IHn [] ei H). cbn in IHn |- *. rewrite IHn. cbn.
      unfold emit. by destruct (merge_rows o novelty []).
    + apply rows_from_Ok in H as Hrows. destruct Hrows as [_ Hrows].
      specialize (Hrows 0%nat row eq_refl). rewrite Nat.add_0_r in Hrows.
      assert (rows_from b (S ei) (length rows) = Ok rows) as Hrest.
      { cbn [length rows_from] in H. rewrite Hrows in H. cbn in H.
        destruct (rows_from b (S ei) (length rows)) as [rs| |]; [|done|done]. by injection H as <-. }
      rewrite merge_rows_cons, !fmap_cons. cbn [length].
      rewrite merge_walk_cons, (cmp_batch_row b ei row) by done.
      specialize (IHr (S ei) Hrest). rewrite !fmap_cons in IHr. cbn [fst snd] in IHr.
      destruct (cmp_v2_for_order o row nov) eqn:Ec; cbn -[merge_walk merge_rows]; rewrite Ec.
      * rewrite (batch_row_hist b ei row) by done. unfold emit_update. pose proof (IHn rows (S ei) Hrest) as IHm.
        destruct (op =? 1); cbn -[merge_walk merge_rows]; rewrite IHm; by destruct (merge_rows o novelty rows).
      * rewrite Hrows. cbn -[merge_walk merge_rows]. rewrite IHr. cbn -[merge_walk merge_rows]. by case_match.
      * specialize (IHn (row :: rows) ei H). cbn [length] in IHn. rewrite IHn. cbn -[merge_walk merge_rows]. unfold emit.
        by destruct (merge_rows o novelty (row :: rows)).
Qed.

Lemma merge_novelty_rows `{SortLib} b rows hist o novelty :
  batch_holds b rows ->
  merge_novelty b hist novelty.*1 novelty.*2 o =
  Ok (mkMergeOutput (merge_rows o novelty rows).1
        (assemble_history (merge_rows o novelty rows).2 hist)).
Proof.
  intros Hb. unfold merge_novelty. rewrite (batch_holds_count _ _ Hb), merge_walk_rows.
  - cbn. by destruct (merge_rows o novelty rows).
  - rewrite <- (batch_holds_count _ _ Hb). exact Hb.
Qed.
