(* ===== verification/MergeLaws.v ===== *)
(** * What a novelty merge computes

    On sorted rows and sorted novelty with one operation per fact the merge
    keeps the untouched rows, adds the asserted records in order, and records
    for each operation its event, preceded by a retraction when it replaces a
    row.  A merge of valid novelty extends the log the leaflet represents. *)
From S2P Require Import Prelude Bytes Cmp Segment RunRecord Columns HistorySidecar IndexLog NoveltyMerge.
From stdpp Require Import base list numbers sorting gmap.
From Stdlib Require Import ZArith Lia.

Local Open Scope Z_scope.

Abbreviation nov_op := (RunRecordV2 * Z)%type.

(** A row with the identity of [x]. *)
Definition touched (rows : list RunRecordV2) (x : RunRecordV2) : bool :=
  existsb (same_identity_v2 x) rows.

Definition item_events (upd : bool) (i : nov_op) : list HistEntryV2 :=
  (if upd && (i.2 =? 1) then [record_to_hist_entry i.1 0] else []) ++ [record_to_hist_entry i.1 i.2].

Lemma touched_true rows x : touched rows x = true <-> exists r, r ∈ rows /\ rr_key r = rr_key x.
Proof.
  unfold touched. rewrite existsb_exists. setoid_rewrite same_identity_spec.
  setoid_rewrite <- list_elem_of_In. split; intros (r & Hr & E); eauto.
Qed.

Lemma touched_false rows x : touched rows x = false <-> forall r, r ∈ rows -> rr_key r <> rr_key x.
Proof.
  rewrite <- not_true_iff_false, touched_true. split; [intros H r Hr E; apply H; eauto|].
  intros H (r & Hr & E). by apply (H r).
Qed.

Lemma touched_cons row rows x :
  rr_key row <> rr_key x -> touched (row :: rows) x = touched rows x.
Proof.
  intros Hne. unfold touched. cbn. destruct (same_identity_v2 x row) eqn:E; [|done].
  apply same_identity_spec in E. congruence.
Qed.

Lemma he_key_record r op : he_key (record_to_hist_entry r op) = rr_key r.
Proof. done. Qed.

Lemma update_event row nov :
  rr_key row = rr_key nov ->
  set_he_t (record_to_hist_entry row 0) (rr_t nov) = record_to_hist_entry nov 0.
Proof. destruct row, nov. unfold rr_key. cbn. by intros [= -> -> -> -> ->]. Qed.

(** ** The rows and events of the walk *)

Section walk.
Context (o : RunSortOrder).

Definition nov_sorted (novelty : list nov_op) : Prop := StronglySorted (run_lt o) novelty.*1.

Lemma nov_sorted_cons x novelty :
  nov_sorted (x :: novelty) ->
  nov_sorted novelty /\ forall i, i ∈ novelty -> run_lt o x.1 i.1.
Proof.
  intros [H Hx]%StronglySorted_inv. split; [done|]. intros i Hi. rewrite Forall_forall in Hx.
  apply Hx, list_elem_of_fmap. by exists i.
Qed.

Lemma run_sorted_cons r rows :
  StronglySorted (run_lt o) (r :: rows) ->
  StronglySorted (run_lt o) rows /\ forall x, x ∈ rows -> run_lt o r x.
Proof. intros [H Hx]%StronglySorted_inv. split; [done|]. by apply Forall_forall. Qed.

Lemma run_gt_lt a b : cmp_v2_for_order o a b = Gt -> run_lt o b a.
Proof. by apply (cmp_gt_lt (P := everything)). Qed.

Definition walk_member (novelty : list nov_op) (rows : list RunRecordV2) (r : RunRecordV2) : Prop :=
  (r ∈ rows /\ forall i, i ∈ novelty -> rr_key i.1 <> rr_key r) \/ (r, 1) ∈ novelty.

Definition walk_events (rows : list RunRecordV2) (novelty : list nov_op) : list HistEntryV2 :=
  concat ((fun i => item_events (touched rows i.1) i) <$> novelty).

Lemma walk_events_skip row rows novelty :
  (forall i, i ∈ novelty -> rr_key row <> rr_key i.1) ->
  walk_events (row :: rows) novelty = walk_events rows novelty.
Proof.
  intros H. unfold walk_events. f_equal. apply list_fmap_ext. intros j i Hi.
  rewrite touched_cons; [done|]. apply H. by eapply list_elem_of_lookup_2.
Qed.

Lemma emit_member nov op novelty rows rest :
  touched rows nov = false ->
  (forall r, r ∈ rest <-> walk_member novelty rows r) ->
  forall r, r ∈ (if op =? 1 then nov :: rest else rest) <-> walk_member ((nov, op) :: novelty) rows r.
Proof.
  intros Ht H r. unfold walk_member in *. rewrite touched_false in Ht.
  assert ((r ∈ rows /\ forall i, i ∈ (nov, op) :: novelty -> rr_key i.1 <> rr_key r) <->
          (r ∈ rows /\ forall i, i ∈ novelty -> rr_key i.1 <> rr_key r)) as ->.
  { split; intros [Hr Hi]; (split; [done|]); intros i; [intros ?; apply Hi; by right|].
    intros [->|?]%elem_of_cons; [|by apply Hi]. cbn. intros E. by apply (Ht r). }
  rewrite elem_of_cons. destruct (Z.eqb_spec op 1) as [->|Hop].
  - rewrite elem_of_cons, H. split; [intros [->|[?|?]]; auto|]. intros [?|[[= ->]|?]]; auto.
  - rewrite H. split; [intros [?|?]; auto|]. intros [?|[E|?]]; auto. injection E as _ E. congruence.
Qed.

Lemma update_member row nov op novelty rows rest :
  rr_key row = rr_key nov -> (forall x, x ∈ rows -> rr_key x <> rr_key nov) ->
  (forall r, r ∈ rest <-> walk_member novelty rows r) ->
  forall r, r ∈ (if op =? 1 then nov :: rest else rest) <->
            walk_member ((nov, op) :: novelty) (row :: rows) r.
Proof.
  intros E Hx H r. rewrite (emit_member nov op novelty rows rest) by (by apply touched_false || done).
  unfold walk_member. split; intros [[Hr Hi]|?]; [|by right| |by right].
  - left. split; [by right|done].
  - left. split; [|done]. apply elem_of_cons in Hr as [->|Hr]; [|done].
    exfalso. apply (Hi (nov, op)); [left|done].
Qed.

Lemma walk_member_skip novelty row rows r :
  (forall i, i ∈ novelty -> rr_key i.1 <> rr_key row) ->
  walk_member novelty (row :: rows) r <-> r = row \/ walk_member novelty rows r.
Proof.
  intros H. unfold walk_member. rewrite elem_of_cons. split.
  - intros [[[->|?] ?]|?]; auto.
  - intros [->|[[? ?]|?]]; auto.
Qed.

Lemma merge_rows_walk novelty : forall rows,
  StronglySorted (run_lt o) rows -> nov_sorted novelty ->
  (forall r, r ∈ (merge_rows o novelty rows).1 <-> walk_member novelty rows r) /\
  (merge_rows o novelty rows).2 = walk_events rows novelty.
Proof.
  induction novelty as [|[nov op] novelty IHn]; intros rows.
  - intros _ _. rewrite merge_rows_nil. split; [|done]. intros r. unfold walk_member. cbn.
    split; [intros ?; left; split; [done|]; by intros i ?%not_elem_of_nil|].
    by intros [[? _]|?%not_elem_of_nil].
  - induction rows as [|row rows IHr]; intros Hr Hn; apply nov_sorted_cons in Hn as Hn'; destruct Hn' as [Hn' Hlt].
    + rewrite merge_rows_end. destruct (IHn [] Hr Hn') as [Hm He]. split; [|cbn; by rewrite He].
      cbn. by apply emit_member.
    + apply run_sorted_cons in Hr as Hr'. destruct Hr' as [Hr' Hrlt]. rewrite merge_rows_cons.
      destruct (cmp_v2_for_order o row nov) eqn:Ec.
      * apply cmp_run_Eq in Ec. destruct (IHn rows Hr' Hn') as [Hm He].
        assert (forall x, x ∈ rows -> rr_key x <> rr_key nov) as Hx.
        { intros x Hxr. rewrite <- Ec. apply not_eq_sym. by apply (run_lt_ne o), Hrlt. }
        assert (walk_events (row :: rows) ((nov, op) :: novelty) =
                item_events true (nov, op) ++ walk_events rows novelty) as ->.
        { unfold walk_events at 1. rewrite fmap_cons, concat_cons. cbn [fst].
          assert (touched (row :: rows) nov = true) as ->.
          { apply touched_true. exists row. split; [left|done]. }
          f_equal. apply walk_events_skip. intros i Hi. rewrite Ec. by apply (run_lt_ne o), (Hlt i). }
        unfold emit_update, item_events. rewrite update_event, <- He by done. cbn [andb fst snd].
        pose proof (update_member row nov op novelty rows _ Ec Hx Hm) as Hu.
        destruct (op =? 1); split; done.
      * destruct (IHr Hr' Hn) as [Hm He].
        assert (forall i, i ∈ (nov, op) :: novelty -> run_lt o row i.1) as Hlt'.
        { intros i [->|Hi]%elem_of_cons; [done|]. eapply run_lt_trans; [done|by apply (Hlt i)]. }
        split; cbn [fst snd].
        -- intros r. rewrite elem_of_cons, Hm, walk_member_skip; [done|].
           intros i Hi. apply not_eq_sym. by apply (run_lt_ne o), Hlt'.
        -- rewrite walk_events_skip; [done|]. intros i Hi. by apply (run_lt_ne o), Hlt'.
      * apply run_gt_lt in Ec. destruct (IHn (row :: rows) Hr Hn') as [Hm He].
        assert (touched (row :: rows) nov = false) as Ht.
        { apply touched_false. intros x [->|Hx]%elem_of_cons; apply not_eq_sym, (run_lt_ne o); [done|].
          eapply run_lt_trans; [done|by apply Hrlt]. }
        split; [by apply emit_member|]. unfold emit. cbn [snd]. rewrite He.
        change (walk_events (row :: rows) ((nov, op) :: novelty)) with
          (item_events (touched (row :: rows) nov) (nov, op) ++ walk_events (row :: rows) novelty).
        by rewrite Ht.
Qed.

Lemma sorted_by_head r l :
  StronglySorted (run_lt o) l -> (forall x, x ∈ l -> run_lt o r x) -> StronglySorted (run_lt o) (r :: l).
Proof. intros H Hr. constructor; [done|]. by apply Forall_forall. Qed.

Lemma merge_rows_sorted novelty : forall rows,
  StronglySorted (run_lt o) rows -> nov_sorted novelty ->
  StronglySorted (run_lt o) (merge_rows o novelty rows).1.
Proof.
  induction novelty as [|[nov op] novelty IHn]; intros rows; [by rewrite merge_rows_nil|].
  induction rows as [|row rows IHr]; intros Hr Hn; apply nov_sorted_cons in Hn as Hn'; destruct Hn' as [Hn' Hlt].
  - rewrite merge_rows_end. pose proof (IHn [] Hr Hn') as Hs.
    destruct (merge_rows_walk novelty [] Hr Hn') as [Hm _]. cbn.
    destruct (op =? 1); [|done]. apply sorted_by_head; [done|].
    intros x [[?%not_elem_of_nil _]|Hx]%Hm; [done|]. by apply (Hlt _ Hx).
  - apply run_sorted_cons in Hr as Hr'. destruct Hr' as [Hr' Hrlt]. rewrite merge_rows_cons.
    destruct (cmp_v2_for_order o row nov) eqn:Ec.
    + pose proof (IHn rows Hr' Hn') as Hs. destruct (merge_rows_walk novelty rows Hr' Hn') as [Hm _].
      unfold emit_update. destruct (op =? 1); [|done]. cbn. apply sorted_by_head; [done|].
      apply (cmp_run_Eq o) in Ec. intros x [[Hx _]|Hx]%Hm; [|by apply (Hlt _ Hx)].
      unfold run_lt. rewrite (cmp_run_key o nov row x x) by done. by apply Hrlt.
    + cbn. apply sorted_by_head; [by apply IHr|].
      destruct (merge_rows_walk _ rows Hr' Hn) as [Hm _]. intros x [[Hx _]|Hx]%Hm; [by apply Hrlt|].
      apply elem_of_cons in Hx as [[= -> _]|Hx]; [done|].
      eapply run_lt_trans; [done|by apply (Hlt _ Hx)].
    + apply run_gt_lt in Ec. pose proof (IHn _ Hr Hn') as Hs.
      destruct (merge_rows_walk novelty _ Hr Hn') as [Hm _]. unfold emit. cbn [fst].
      destruct (op =? 1); [|done]. apply sorted_by_head; [done|].
      intros x [[Hx _]|Hx]%Hm; [|by apply (Hlt _ Hx)].
      apply elem_of_cons in Hx as [->|Hx]; [done|]. eapply run_lt_trans; [done|by apply Hrlt].
Qed.
End walk.

(** ** A merge extends the log

    [extend_log] appends to a log the events of a batch of novelty, in the
    order of their transactions.  If a leaflet represents a log, the merge of
    valid novelty into it represents the extended log. *)

Definition nov_key (i : nov_op) : FactKeyV3 := rr_key i.1.

Definition apply_item (m : gmap FactKeyV3 Z) (i : nov_op) : gmap FactKeyV3 Z :=
  if i.2 =? 1 then <[nov_key i := rr_t i.1]> m else delete (nov_key i) m.

Definition present (m : gmap FactKeyV3 Z) (k : FactKeyV3) : bool :=
  match m !! k with Some _ => true | None => false end.

Definition items_events (m : gmap FactKeyV3 Z) (items : list nov_op) : list HistEntryV2 :=
  flat_map (fun i => item_events (present m (nov_key i)) i) items.

Definition earlier (a b : nov_op) : Prop := rr_t a.1 <= rr_t b.1.
#[export] Instance earlier_dec : RelDecision earlier.
Proof. intros a b. unfold earlier. apply _. Defined.
#[export] Instance earlier_total : Total earlier.
Proof. intros a b. unfold earlier. lia. Qed.
#[export] Instance earlier_trans : Transitive earlier.
Proof. intros a b c. unfold earlier. lia. Qed.

Definition extend_log (log : list HistEntryV2) (novelty : list nov_op) : list HistEntryV2 :=
  log ++ items_events (log_state log) (merge_sort earlier novelty).

(** ** Items on states *)

Lemma apply_item_ne m i k : nov_key i <> k -> apply_item m i !! k = m !! k.
Proof. intros. unfold apply_item. case_match; [by rewrite lookup_insert_ne|by rewrite lookup_delete_ne]. Qed.

Lemma fold_items_other items : forall m k,
  (forall i, i ∈ items -> nov_key i <> k) -> fold_left apply_item items m !! k = m !! k.
Proof.
  induction items as [|i items IH]; intros m k H; [done|]. cbn.
  rewrite IH by (intros; apply H; by right). apply apply_item_ne, H. left.
Qed.

Lemma fold_items_lookup items : forall m i,
  NoDup (nov_key <$> items) -> i ∈ items ->
  fold_left apply_item items m !! nov_key i = if i.2 =? 1 then Some (rr_t i.1) else None.
Proof.
  induction items as [|x items IH]; intros m i Hnd; [by intros ?%not_elem_of_nil|].
  rewrite fmap_cons in Hnd. apply NoDup_cons in Hnd as [Hx Hnd].
  intros [->|Hi]%elem_of_cons; cbn; [|by apply IH].
  rewrite fold_items_other.
  - unfold apply_item. destruct (x.2 =? 1); [by rewrite lookup_insert_eq|by rewrite lookup_delete_eq].
  - intros j Hj E. apply Hx. rewrite <- E. apply list_elem_of_fmap. eauto.
Qed.

(** ** Extending a log *)

Definition item_ok (m : gmap FactKeyV3 Z) (i : nov_op) : Prop :=
  (forall t, m !! nov_key i = Some t -> t < rr_t i.1) /\
  (i.2 = 1 \/ i.2 = 0 /\ is_Some (m !! nov_key i)).

Lemma item_extends log i :
  log_ok log -> Forall (fun e => he_t e <= rr_t i.1) log -> item_ok (log_state log) i ->
  log_ok (log ++ item_events (present (log_state log) (nov_key i)) i) /\
  log_state (log ++ item_events (present (log_state log) (nov_key i)) i) = apply_item (log_state log) i.
Proof.
  destruct i as [x op]. unfold item_ok, nov_key. cbn [fst snd]. intros Hok Ht [Hlt Hop].
  unfold present, item_events, apply_item, nov_key. cbn [fst snd].
  destruct (log_state log !! rr_key x) as [t|] eqn:Es.
  - specialize (Hlt t eq_refl).
    assert (log_ok (log ++ [record_to_hist_entry x 0])) as Hr.
    { by apply (log_ok_retract log _ t). }
    destruct Hop as [->|[-> _]]; cbn [andb Z.eqb Pos.eqb].
    + change ([record_to_hist_entry x 0] ++ [record_to_hist_entry x 1])
        with ([record_to_hist_entry x 0; record_to_hist_entry x 1]).
      replace (log ++ [record_to_hist_entry x 0; record_to_hist_entry x 1])
        with ((log ++ [record_to_hist_entry x 0]) ++ [record_to_hist_entry x 1]) by by rewrite <- app_assoc.
      rewrite !log_state_snoc. cbn. rewrite insert_delete_eq. split; [|done].
      apply log_ok_assert; [done|apply Forall_app; split; [done|by repeat constructor]|done|].
      rewrite log_state_snoc. cbn. apply lookup_delete_eq.
    + rewrite app_nil_l, log_state_snoc. done.
  - destruct Hop as [->|[_ [? [=]]]]. cbn [andb app Z.eqb Pos.eqb]. rewrite log_state_snoc. split; [|done].
    by apply log_ok_assert.
Qed.

Lemma items_events_cons m i items :
  items_events m (i :: items) = item_events (present m (nov_key i)) i ++ items_events m items.
Proof. done. Qed.

Lemma items_events_ext m m' items :
  (forall i, i ∈ items -> m !! nov_key i = m' !! nov_key i) -> items_events m items = items_events m' items.
Proof.
  intros H. induction items as [|i items IH]; [done|]. rewrite !items_events_cons, IH.
  - unfold present. by rewrite H by left.
  - intros j Hj. apply H. by right.
Qed.

Lemma item_events_times upd i : Forall (fun e => he_t e = rr_t i.1) (item_events upd i).
Proof. unfold item_events. destruct upd, (i.2 =? 1); repeat constructor. Qed.

Lemma items_extend items : forall log,
  log_ok log -> NoDup (nov_key <$> items) -> StronglySorted earlier items ->
  Forall (fun i => Forall (fun e => he_t e <= rr_t i.1) log) items ->
  Forall (item_ok (log_state log)) items ->
  log_ok (log ++ items_events (log_state log) items) /\
  log_state (log ++ items_events (log_state log) items) = fold_left apply_item items (log_state log).
Proof.
  induction items as [|i items IH]; intros log Hok Hnd Hs Ht Hi; [by rewrite app_nil_r|].
  rewrite fmap_cons in Hnd. apply NoDup_cons in Hnd as [Hni Hnd].
  apply StronglySorted_inv in Hs as [Hs Hsi]. apply Forall_cons in Ht as [Hti Ht], Hi as [Hii Hi].
  destruct (item_extends log i Hok Hti Hii) as [Hok' Hst].
  assert (forall j, j ∈ items -> apply_item (log_state log) i !! nov_key j = log_state log !! nov_key j) as Hne.
  { intros j Hj. apply apply_item_ne. intros E. apply Hni. rewrite E. apply list_elem_of_fmap. eauto. }
  rewrite items_events_cons, app_assoc.
  rewrite (items_events_ext _ (log_state (log ++ item_events (present (log_state log) (nov_key i)) i))).
  2: { intros j Hj. by rewrite Hst, Hne. }
  destruct (IH _ Hok' Hnd Hs) as [H1 H2].
  - rewrite Forall_forall in Ht, Hsi |- *. intros j Hj. apply Forall_app. split; [by apply Ht|].
    eapply Forall_impl; [apply item_events_times|]. cbn. intros e ->. by apply Hsi.
  - rewrite Forall_forall in Hi |- *. intros j Hj. unfold item_ok. rewrite Hst, (Hne j) by done. by apply Hi.
  - split; [done|]. by rewrite H2, Hst.
Qed.

(** ** The events of a batch *)

Lemma elem_of_items_events m items e :
  e ∈ items_events m items <-> exists i, i ∈ items /\ e ∈ item_events (present m (nov_key i)) i.
Proof.
  unfold items_events. rewrite list_elem_of_In, in_flat_map. setoid_rewrite list_elem_of_In. done.
Qed.

Lemma elem_of_item_events upd i e :
  e ∈ item_events upd i -> e = record_to_hist_entry i.1 i.2 \/
                           i.2 = 1 /\ e = record_to_hist_entry i.1 0.
Proof.
  unfold item_events. destruct (upd && (i.2 =? 1)) eqn:E.
  - apply andb_true_iff in E as [_ E%Z.eqb_eq].
    intros [->|[->|[]%not_elem_of_nil]%elem_of_cons]%elem_of_cons; auto.
  - intros [->|[]%not_elem_of_nil]%elem_of_cons. auto.
Qed.

Lemma NoDup_item_events upd i : NoDup (item_events upd i).
Proof.
  unfold item_events. destruct (upd && (i.2 =? 1)) eqn:E; [|apply NoDup_singleton].
  apply andb_true_iff in E as [_ E%Z.eqb_eq]. cbn. rewrite E.
  apply NoDup_cons. split; [|apply NoDup_singleton]. by intros ?%list_elem_of_singleton.
Qed.

Lemma items_event_key m items e :
  e ∈ items_events m items -> exists i, i ∈ items /\ he_key e = nov_key i /\ he_t e = rr_t i.1 /\
                                        (he_op e = 1 -> i.2 = 1).
Proof.
  intros (i & Hi & He)%elem_of_items_events. exists i.
  apply elem_of_item_events in He as [->|[Hop ->]]; split_and!; try done.
Qed.

Lemma NoDup_items_events m items : NoDup (nov_key <$> items) -> NoDup (items_events m items).
Proof.
  induction items as [|i items IH]; [constructor|]. rewrite fmap_cons, items_events_cons.
  intros [Hi Hnd]%NoDup_cons. apply NoDup_app. split_and!; [apply NoDup_item_events| |by apply IH].
  intros e He (j & Hj & Hk & _)%items_event_key. apply Hi.
  assert (he_key e = nov_key i) as <- by by apply elem_of_item_events in He as [->|[_ ->]].
  rewrite Hk. apply list_elem_of_fmap. eauto.
Qed.

(** Two asserts of one fact in a batch are the same event. *)
Lemma items_events_assert m items a b :
  NoDup (nov_key <$> items) -> a ∈ items_events m items -> b ∈ items_events m items ->
  both_assert_same a b = true -> a = b.
Proof.
  intros Hnd (i & Hi & Ha)%elem_of_items_events (j & Hj & Hb)%elem_of_items_events E.
  unfold both_assert_same in E. apply andb_true_iff in E as [[Hk%bool_decide_eq_true Ea%Z.eqb_eq]%andb_true_iff Eb%Z.eqb_eq].
  assert (i = j) as <-.
  { apply elem_of_item_events in Ha as [->|[_ ->]], Hb as [->|[_ ->]]; cbn in Ea, Eb; try done.
    apply list_elem_of_lookup in Hi as [ni Hi], Hj as [nj Hj].
    enough (ni = nj) by (subst; congruence).
    eapply (NoDup_lookup _ _ _ (rr_key i.1) Hnd); rewrite list_lookup_fmap; [by rewrite Hi|].
    rewrite Hj. cbn. by f_equal. }
  by apply elem_of_item_events in Ha as [->|[_ ->]], Hb as [->|[_ ->]].
Qed.

Lemma items_events_perm m items items' :
  items ≡ₚ items' -> items_events m items ≡ₚ items_events m items'.
Proof. intros H. by apply Permutation_flat_map. Qed.

(** ** Assembling the history *)

Lemma dedup_from_id rest : forall w,
  NoDup (w :: rest) -> (forall a b, a ∈ w :: rest -> b ∈ w :: rest -> both_assert_same a b = true -> a = b) ->
  dedup_from w rest = w :: rest.
Proof.
  induction rest as [|r rest IH]; intros w Hnd Hinj; [done|]. cbn.
  apply NoDup_cons in Hnd as [Hw Hnd].
  destruct (both_assert_same w r) eqn:E.
  - exfalso. apply Hw. rewrite (Hinj w r); [left|left|right; left|done].
  - f_equal. apply IH; [done|]. intros a b Ha Hb. apply Hinj; by right.
Qed.

Lemma dedup_id l :
  NoDup l -> (forall a b, a ∈ l -> b ∈ l -> both_assert_same a b = true -> a = b) ->
  dedup_adjacent_asserts l = l.
Proof. destruct l as [|w rest]; [done|]. apply dedup_from_id. Qed.

#[export] Instance cmp_laws_assemble : CmpLaws everything assemble_cmp.
Proof.
  apply cmp_laws_then; [apply cmp_laws_newest|].
  apply (cmp_laws_key _ everything he_op); [done|apply _].
Qed.

Lemma assemble_desc l : StronglySorted (cle assemble_cmp) l -> StronglySorted t_desc l.
Proof.
  induction 1 as [|x l H IH Hx]; constructor; [done|]. eapply Forall_impl; [done|].
  intros y Hy. unfold cle, assemble_cmp, t_desc in *.
  destruct (Z.compare_spec (he_t y) (he_t x)); cbn in Hy; [lia|lia|done].
Qed.

Lemma sorted_app {A} (R : A -> A -> Prop) l k :
  StronglySorted R l -> StronglySorted R k -> (forall x y, x ∈ l -> y ∈ k -> R x y) ->
  StronglySorted R (l ++ k).
Proof.
  intros Hl Hk Hlk. induction Hl as [|x l Hl IH Hx]; [done|]. cbn. constructor.
  - apply IH. intros a b Ha. apply Hlk. by right.
  - apply Forall_app. split; [done|]. apply Forall_forall. intros y. apply Hlk. left.
Qed.

Section assemble.
Context `{SL : SortLib, SLL : !SortLaws}.

Lemma assemble_history_app new existing :
  NoDup new -> (forall a b, a ∈ new -> b ∈ new -> both_assert_same a b = true -> a = b) ->
  (forall e x, head existing = Some e -> x ∈ new -> both_assert_same x e = false) ->
  assemble_history new existing = sort_by assemble_cmp new ++ existing.
Proof.
  intros Hnd Hinj Hb. unfold assemble_history.
  assert (sort_by assemble_cmp new ≡ₚ new) as Hp.
  { apply (sort_by_perm everything assemble_cmp new _). by apply Forall_true. }
  rewrite dedup_id; [|by rewrite Hp|intros a b; rewrite Hp; apply Hinj].
  destruct (last (sort_by assemble_cmp new)) as [x|] eqn:El; [|done].
  destruct existing as [|e older]; [done|]. rewrite (Hb e x); [done|done|].
  rewrite <- Hp. apply last_Some_elem_of in El. done.
Qed.
End assemble.

(** ** The extension theorem *)

(** Novelty a leaflet can take: sorted with one operation per fact, later than
    its log, retracting only present facts, touching no fact whose assertion
    only its row records, and not re-asserting the fact whose assertion is the
    newest entry of the history. *)
Record valid_novelty (o : RunSortOrder) (log extra hist : list HistEntryV2)
    (novelty : list nov_op) : Prop := {
  vn_sorted : nov_sorted o novelty;
  vn_ops : forall i, i ∈ novelty -> i.2 = 1 \/ i.2 = 0 /\ is_Some (log_state log !! nov_key i);
  vn_later : forall e i, e ∈ log -> i ∈ novelty -> he_t e < rr_t i.1;
  vn_extra : forall e i, e ∈ extra -> i ∈ novelty -> he_key e <> nov_key i;
  vn_seam : forall e i, head hist = Some e -> he_op e = 1 -> i ∈ novelty -> i.2 = 1 -> nov_key i <> he_key e;
}.

Lemma nov_sorted_keys o novelty : nov_sorted o novelty -> NoDup (nov_key <$> novelty).
Proof.
  induction novelty as [|i novelty IH]; [constructor|]. intros [Hn Hlt]%nov_sorted_cons.
  rewrite fmap_cons. apply NoDup_cons. split; [|by apply IH].
  intros (j & E & Hj)%list_elem_of_fmap. apply (run_lt_ne o i.1 j.1); [by apply Hlt|done].
Qed.

Lemma valid_items o log extra hist novelty :
  log_ok log -> valid_novelty o log extra hist novelty ->
  log_ok (extend_log log novelty) /\
  log_state (extend_log log novelty) = fold_left apply_item (merge_sort earlier novelty) (log_state log).
Proof.
  intros Hok [Hs Hops Hlater _ _]. unfold extend_log. apply items_extend; [done| | | |].
  - rewrite merge_sort_Permutation. by eapply nov_sorted_keys.
  - apply StronglySorted_merge_sort; apply _.
  - apply Forall_forall. intros i Hi. rewrite merge_sort_Permutation in Hi.
    apply Forall_forall. intros e He. specialize (Hlater e i He Hi). lia.
  - apply Forall_forall. intros i Hi. rewrite merge_sort_Permutation in Hi. split; [|by apply Hops].
    intros t Ht. apply log_state_assert in Ht as (e & He & _ & _ & <-). by apply Hlater.
Qed.

Lemma merged_state o novelty m k :
  nov_sorted o novelty ->
  fold_left apply_item (merge_sort earlier novelty) m !! k =
  match find (fun i => bool_decide (nov_key i = k)) novelty with
  | Some i => if i.2 =? 1 then Some (rr_t i.1) else None
  | None => m !! k
  end.
Proof.
  intros Hs. destruct (find _ novelty) as [i|] eqn:Ef.
  - apply find_some in Ef as [Hi <-%bool_decide_eq_true]. apply fold_items_lookup.
    + rewrite merge_sort_Permutation. by eapply nov_sorted_keys.
    + rewrite merge_sort_Permutation. by apply list_elem_of_In.
  - apply fold_items_other. intros i Hi. rewrite merge_sort_Permutation in Hi.
    apply list_elem_of_In, (find_none _ _ Ef), bool_decide_eq_false in Hi. done.
Qed.

Section extends.
Context `{SL : SortLib, SLL : !SortLaws}.

Lemma merged_rows o log rows novelty k t :
  StronglySorted (run_lt o) rows -> nov_sorted o novelty ->
  (forall i, i ∈ novelty -> i.2 = 0 \/ i.2 = 1) ->
  (forall k t, log_state log !! k = Some t <-> row_in rows k t) ->
  fold_left apply_item (merge_sort earlier novelty) (log_state log) !! k = Some t <->
  row_in (merge_rows o novelty rows).1 k t.
Proof.
  intros Hr Hn Hops Hrows. rewrite (merged_state o) by done.
  destruct (merge_rows_walk o novelty rows Hr Hn) as [Hm _]. unfold row_in in *.
  destruct (find _ novelty) as [i|] eqn:Ef.
  - apply find_some in Ef as [Hi%list_elem_of_In Hk%bool_decide_eq_true].
    assert (forall r, (r ∈ (merge_rows o novelty rows).1 /\ rr_key r = k) <-> i = (r, 1)) as E.
    { intros r. rewrite Hm. split.
      - intros [[[_ Hni]|Hri] <-]; [by destruct (Hni i Hi)|].
        pose proof (nov_sorted_keys o novelty Hn) as Hnd.
        apply list_elem_of_lookup in Hi as [ni Hi], Hri as [nj Hri].
        enough (ni = nj) by (subst; congruence).
        eapply (NoDup_lookup _ _ _ (rr_key r) Hnd); rewrite list_lookup_fmap;
          [rewrite Hi; cbn; by f_equal|by rewrite Hri].
      - intros ->. split; [by right|done]. }
    split.
    + destruct (Z.eqb_spec i.2 1) as [Hop|]; [|done]. intros [= <-]. exists i.1.
      assert (i = (i.1, 1)) as Ei by (destruct i; cbn in *; congruence).
      apply E in Ei as [? ?]. done.
    + intros (r & Hr' & Hkr & <-). assert (i = (r, 1)) as -> by by apply E. done.
  - rewrite Hrows. assert (forall i, i ∈ novelty -> nov_key i <> k) as Hni.
    { intros i Hi. by apply list_elem_of_In, (find_none _ _ Ef), bool_decide_eq_false in Hi. }
    split; intros (r & Hr' & <- & Ht); exists r; (split; [|done]).
    + apply Hm. by left.
    + apply Hm in Hr' as [[? _]|Hri]; [done|]. by destruct (Hni (r, 1) Hri).
Qed.

Lemma walk_events_log o log rows novelty :
  StronglySorted (run_lt o) rows ->
  (forall k t, log_state log !! k = Some t <-> row_in rows k t) ->
  walk_events rows novelty = items_events (log_state log) novelty.
Proof.
  intros Hr Hrows. unfold walk_events, items_events. rewrite flat_map_concat_map. f_equal.
  apply map_ext. intros i. f_equal. unfold present, nov_key.
  destruct (log_state log !! rr_key i.1) as [t|] eqn:E.
  - apply Hrows in E as (r & ? & ? & _). apply touched_true. eauto.
  - apply touched_false. intros r Hin Hk.
    assert (log_state log !! rr_key i.1 = Some (rr_t r)) as E' by (apply Hrows; exists r; done).
    congruence.
Qed.

Lemma merge_extends o log extra rows hist novelty :
  leaflet_of o log extra rows hist -> valid_novelty o log extra hist novelty ->
  leaflet_of o (extend_log log novelty) extra (merge_rows o novelty rows).1
    (assemble_history (merge_rows o novelty rows).2 hist).
Proof.
  intros [Hok Hsort Hrows Hdesc Hhist Hextra] Hv.
  destruct (valid_items _ _ _ _ _ Hok Hv) as [Hok' Hst]. destruct Hv as [Hs Hops Hlater Hex Hseam].
  pose proof (nov_sorted_keys o novelty Hs) as Hnd.
  destruct (merge_rows_walk o novelty rows Hsort Hs) as [_ He].
  rewrite He, (walk_events_log o log) by done.
  set (new := items_events (log_state log) novelty).
  assert (sort_by assemble_cmp new ≡ₚ new) as Hp.
  { apply (sort_by_perm everything assemble_cmp new _). by apply Forall_true. }
  rewrite assemble_history_app.
  2: by apply NoDup_items_events. 2: intros a b; by apply items_events_assert.
  2: { intros e x Hhead (i & Hi & Hk & _ & Hop)%items_event_key.
       destruct (both_assert_same x e) eqn:E; [|done]. unfold both_assert_same in E.
       apply andb_true_iff in E as [[Ek%bool_decide_eq_true Ex%Z.eqb_eq]%andb_true_iff Ee%Z.eqb_eq].
       destruct (Hseam e i Hhead Ee Hi (Hop Ex)). congruence. }
  split; [done|by apply merge_rows_sorted| | | |].
  - intros k t. rewrite Hst. apply merged_rows; [done|done| |done].
    intros i Hi. destruct (Hops i Hi) as [?|[? _]]; auto.
  - apply sorted_app; [|done|].
    { apply assemble_desc, (sort_by_sorted everything assemble_cmp new _). by apply Forall_true. }
    intros x y Hx Hy. rewrite Hp in Hx. apply items_event_key in Hx as (i & Hi & _ & Ht & _).
    unfold t_desc. rewrite Ht. enough (he_t y < rr_t i.1) by lia. apply Hlater; [|done].
    rewrite Hhist. apply elem_of_app. by left.
  - unfold extend_log. rewrite (items_events_perm _ _ _ (merge_sort_Permutation earlier novelty)).
    fold new. rewrite Hp, Hhist, <- (assoc_L (++)). rewrite (Permutation_app_comm new), <- (assoc_L (++)).
    apply Permutation_app_head, Permutation_app_comm.
  - rewrite Forall_forall in Hextra |- *. intros e Hin. destruct (Hextra e Hin) as [Hop Hse].
    split; [done|]. rewrite Hst, fold_items_other; [done|]. intros i Hi.
    rewrite merge_sort_Permutation in Hi. apply not_eq_sym. by apply Hex.
Qed.
End extends.
