(* ===== verification/Replay.v ===== *)
(** * Time-travel replay (read/replay.rs)

    [replay_leaflet] rebuilds the rows of a leaflet as of an earlier
    transaction from its current rows and its history: it undoes, newest first,
    the events after that transaction, and merges the rows that stay with the
    facts to restore.  The columns are read once per row here; the code reads
    them again in each pass, after a first pass over all rows.  A hash map is
    walked in an unspecified order ([states_iter]). *)

From S2P Require Import Prelude Bytes Cmp Segment RunRecord Columns HistorySidecar IndexLog NoveltyMerge.
From stdpp Require Import base list numbers sorting gmap.
From Stdlib Require Import ZArith Lia.

Local Open Scope Z_scope.

Record UndoEvent := mkUndo {
  ue_t : Z; ue_is_assert : bool; ue_key : FactKeyV3; ue_source : option HistEntryV2;
}.

(** [FactState] of replay.rs. *)
Record UndoState := mkUndoState { us_present : bool; us_include_src : option HistEntryV2 }.

Class StatesOrder := states_iter : gmap FactKeyV3 UndoState -> list (FactKeyV3 * UndoState).
Class StatesOrderLaws `{StatesOrder} : Prop :=
  states_iter_perm : forall m, states_iter m ≡ₚ map_to_list m.

Definition hist_entry_to_record (e : HistEntryV2) : RunRecordV2 :=
  mkRun (he_s_id e) (he_o_key e) (he_p_id e) (he_t e) (he_o_i e) (he_o_type e) 0.

Definition find_base_assert_at_target (key : FactKeyV3) (history : list HistEntryV2) (t_target : Z)
    : option HistEntryV2 :=
  find (fun e => (he_t e <=? t_target) && (he_op e =? 1) && bool_decide (he_key e = key)) history.

(** Step 0: the rows by key. *)
Fixpoint membership_from (i : nat) (rows : list RunRecordV2) (m : gmap FactKeyV3 (Z * nat))
    : gmap FactKeyV3 (Z * nat) :=
  match rows with
  | [] => m
  | r :: rows => membership_from (S i) rows (<[rr_key r := (rr_t r, i)]> m)
  end.

(** Step 1: the events to undo. *)
Fixpoint history_events (history : list HistEntryV2) (t_target : Z) : list UndoEvent :=
  match history with
  | [] => []
  | e :: history =>
      if he_t e <=? t_target then []
      else mkUndo (he_t e) (he_op e =? 1) (he_key e) (Some e) :: history_events history t_target
  end.

Definition row_events (rows : list RunRecordV2) (t_target : Z) : list UndoEvent :=
  (fun r => mkUndo (rr_t r) true (rr_key r) None) <$> filter (fun r => t_target < rr_t r) rows.

(** Step 2: newest first, asserts before retracts. *)
Definition undo_cmp (a b : UndoEvent) : comparison :=
  then_with (ue_t b ?= ue_t a) (bool_cmp (ue_is_assert b) (ue_is_assert a)).

Definition undo_step (membership : gmap FactKeyV3 (Z * nat)) (states : gmap FactKeyV3 UndoState)
    (e : UndoEvent) : gmap FactKeyV3 UndoState :=
  let state := default (mkUndoState (bool_decide (is_Some (membership !! ue_key e))) None)
                 (states !! ue_key e) in
  let state :=
    if ue_is_assert e then mkUndoState false (us_include_src state)
    else mkUndoState true
           (match us_include_src state with None => ue_source e | src => src end) in
  <[ue_key e := state]> states.

(** Step 3: base rows to leave out and facts to restore. *)
Definition restore (key : FactKeyV3) (state : UndoState) (history : list HistEntryV2) (t_target : Z)
    : list RunRecordV2 :=
  match find_base_assert_at_target key history t_target with
  | Some src => [hist_entry_to_record src]
  | None =>
      match us_include_src state with
      | Some src => [hist_entry_to_record src]
      | None => []
      end
  end.

Definition derive_step (membership : gmap FactKeyV3 (Z * nat)) (history : list HistEntryV2) (t_target : Z)
    (acc : list nat * list RunRecordV2) (ks : FactKeyV3 * UndoState) : list nat * list RunRecordV2 :=
  let '(excludes, includes) := acc in
  let '(key, state) := ks in
  match membership !! key with
  | Some (base_t, row_idx) =>
      if us_present state then
        if t_target <? base_t
        then (excludes ++ [row_idx], includes ++ restore key state history t_target)
        else acc
      else (excludes ++ [row_idx], includes)
  | None =>
      if us_present state then (excludes, includes ++ restore key state history t_target) else acc
  end.

(** Step 4: the rows that stay, merged with the restored ones. *)
Fixpoint merge_includes (o : RunSortOrder) (excluded : nat -> bool) (bi : nat) (rows : list RunRecordV2)
    : list RunRecordV2 -> list RunRecordV2 :=
  fix go includes :=
    match rows with
    | [] => includes
    | row :: rows' =>
        if excluded bi then merge_includes o excluded (S bi) rows' includes
        else
          match includes with
          | [] => row :: merge_includes o excluded (S bi) rows' []
          | inc :: includes' =>
              match cmp_v2_for_order o row inc with
              | Lt => row :: merge_includes o excluded (S bi) rows' (inc :: includes')
              | Gt => inc :: go includes'
              | Eq => inc :: merge_includes o excluded (S bi) rows' includes'
              end
          end
    end.

Section replay.
Context `{SL : SortLib, SO : StatesOrder}.

Definition undo_states (rows : list RunRecordV2) (history : list HistEntryV2) (t_target : Z)
    : gmap FactKeyV3 UndoState :=
  fold_left (undo_step (membership_from 0 rows ∅))
    (sort_by undo_cmp (history_events history t_target ++ row_events rows t_target)) ∅.

Definition replay_rows (rows : list RunRecordV2) (history : list HistEntryV2) (t_target : Z)
    (o : RunSortOrder) : option (list RunRecordV2) :=
  match history_events history t_target ++ row_events rows t_target with
  | [] => None
  | _ =>
      let states := undo_states rows history t_target in
      let '(excludes, includes) :=
        fold_left (derive_step (membership_from 0 rows ∅) history t_target) (states_iter states) ([], []) in
      Some (merge_includes o (fun i => bool_decide (i ∈ excludes)) 0 rows
              (sort_by (cmp_v2_for_order o) includes))
  end.

Definition replay_leaflet (b : ColumnBatch) (history : list HistEntryV2) (t_target : Z)
    (o : RunSortOrder) : io (option ColumnBatch) :=
  if u32_max <? t_target then mret None
  else if t_target <? 0 then mret (Some batch_empty)
  else
    rows ← column_batch_to_records b;
    mret (batch_of_rows <$> replay_rows rows history t_target o).

(** The history fields of a [LeafletDirEntryV3]. *)
Record HistoryDir := mkHistoryDir {
  hd_offset : Z; hd_len : Z; hd_min_t : Z; hd_max_t : Z;
}.

Definition u32_try_from_or_max (t : Z) : Z := if (0 <=? t) && (t <=? u32_max) then t else u32_max.

Definition hd_segment (d : HistoryDir) : HistorySegmentRef :=
  mkSegRef (hd_offset d) (hd_len d) (hd_min_t d) (hd_max_t d).

Definition replay_leaflet_at_t (b : ColumnBatch) (entry : HistoryDir) (sidecar_bytes : option bytes)
    (to_t : Z) (o : RunSortOrder) : io (option ColumnBatch) :=
  let to_t_u32 := u32_try_from_or_max to_t in
  if negb ((to_t_u32 <? hd_max_t entry) || batch_has_rows_above_t b to_t_u32) then mret None
  else if 0 <? hd_len entry then
    sc_bytes ← ok_or IoNotFound sidecar_bytes;
    history ← decode_history_segment sc_bytes (hd_segment entry);
    replay_leaflet b history to_t o
  else replay_leaflet b [] to_t o.

(** The replay step of [BinaryCursor::next_leaf] (read/binary_cursor.rs), for a
    cursor whose [to_t] precedes the index: it replays only a segment that
    holds entries. *)
Definition cursor_replay (b : ColumnBatch) (entry : HistoryDir) (sidecar_bytes : option bytes)
    (to_t : Z) (o : RunSortOrder) : io ColumnBatch :=
  let to_t_u32 := u32_try_from_or_max to_t in
  let needs_leaflet_replay := (to_t_u32 <? hd_max_t entry) || batch_has_rows_above_t b to_t_u32 in
  if needs_leaflet_replay && (0 <? hd_len entry) then
    sc_bytes ← ok_or IoNotFound sidecar_bytes;
    history ← decode_history_segment sc_bytes (hd_segment entry);
    match history with
    | [] => mret b
    | _ => replayed ← replay_leaflet b history to_t o; mret (default b replayed)
    end
  else if needs_leaflet_replay then
    replayed ← replay_leaflet b [] to_t o; mret (default b replayed)
  else mret b.
End replay.
