(* ===== verification/ReplayLaws.v ===== *)
(** * Replay returns the state of the past

    On a leaflet that represents a log, replaying it to a transaction gives the
    rows of the log's state at that transaction. *)
From S2P Require Import Prelude Bytes Cmp Segment RunRecord Columns HistorySidecar IndexLog NoveltyMerge MergeLaws.
From S2P Require Import Replay.
From stdpp Require Import base list numbers sorting gmap.
From Stdlib Require Import ZArith Lia.

Local Open Scope Z_scope.

(** ** Membership *)

Lemma membership_other rows : forall i m k,
  (forall r, r ∈ rows -> rr_key r <> k) -> membership_from i rows m !! k = m !! k.
Proof.
  induction rows as [|r rows IH]; intros i m k H; [done|]. cbn.
  rewrite IH by (intros; apply H; by right). apply lookup_insert_ne, H. left.
Qed.

Lemma membership_row o rows : forall i m j r,
  StronglySorted (run_lt o) rows -> rows !! j = Some r ->
  membership_from i rows m !! rr_key r = Some (rr_t r, (i + j)%nat).
Proof.
  induction rows as [|x rows IH]; intros i m j r Hs; [done|].
  apply run_sorted_cons in Hs as [Hs Hlt]. destruct j as [|j]; cbn.
  - intros [= ->]. rewrite membership_other, lookup_insert_eq by (intros y Hy; apply not_eq_sym; by apply (run_lt_ne o), Hlt).
    by rewrite Nat.add_0_r.
  - intros Hj. rewrite (IH _ _ _ _ Hs Hj). by rewrite Nat.add_succ_comm.
Qed.

Lemma membership_spec o rows k t i :
  StronglySorted (run_lt o) rows ->
  membership_from 0 rows ∅ !! k = Some (t, i) <-> exists r, rows !! i = Some r /\ rr_key r = k /\ rr_t r = t.
Proof.
  intros Hs. split.
  - intros H. destruct (decide (Exists (fun r => rr_key r = k) rows)) as [Hex|Hex].
    + apply Exists_exists in Hex as (r & Hr & <-). apply list_elem_of_lookup in Hr as [j Hj].
      rewrite (membership_row o _ _ _ j r) in H by done. injection H as <- <-. eauto.
    + rewrite membership_other in H; [done|]. intros r Hr E. apply Hex, Exists_exists. eauto.
  - intros (r & Hr & <- & <-). by rewrite (membership_row o _ _ _ i r).
Qed.

(** ** Undo states *)

Definition event_about (k : FactKeyV3) (e : UndoEvent) : Prop := ue_key e = k.

Lemma undo_fold_none mem es k :
  Forall (fun e => ~ event_about k e) es -> fold_left (undo_step mem) es ∅ !! k = None.
Proof.
  induction es as [|e es IH] using rev_ind; [done|]. intros [Hes He]%Forall_app.
  apply Forall_cons in He as [He _]. rewrite fold_left_app. cbn. unfold undo_step at 1.
  rewrite lookup_insert_ne by done. by apply IH.
Qed.

(** The last event of a fact decides. *)
Lemma undo_fold_last mem a e b :
  Forall (fun x => ~ event_about (ue_key e) x) b ->
  exists s, fold_left (undo_step mem) (a ++ e :: b) ∅ !! ue_key e = Some s /\
            us_present s = negb (ue_is_assert e).
Proof.
  intros Hb. replace (a ++ e :: b) with ((a ++ [e]) ++ b) by by rewrite <- app_assoc.
  induction b as [|x b IH] using rev_ind.
  - rewrite app_nil_r, fold_left_app. cbn. unfold undo_step at 1. rewrite lookup_insert_eq.
    eexists. split; [done|]. by destruct (ue_is_assert e).
  - apply Forall_app in Hb as [Hb Hx]. apply Forall_cons in Hx as [Hx _].
    rewrite app_assoc, fold_left_app. cbn. unfold undo_step at 1.
    rewrite lookup_insert_ne by done. by apply IH.
Qed.

Lemma last_about k es :
  Forall (fun e => ~ event_about k e) es \/
  exists a e b, es = a ++ e :: b /\ event_about k e /\ Forall (fun x => ~ event_about k x) b.
Proof.
  induction es as [|x es IH]; [by left|].
  destruct IH as [IH|(a & e & b & -> & He & Hb)]; [|right; by exists (x :: a), e, b].
  destruct (decide (ue_key x = k)) as [Hx|Hx]; [right; by exists [], x, es|].
  left. by constructor.
Qed.

Lemma history_events_filter history t_target :
  StronglySorted t_desc history ->
  history_events history t_target =
  (fun e => mkUndo (he_t e) (he_op e =? 1) (he_key e) (Some e)) <$> filter (fun e => t_target < he_t e) history.
Proof.
  induction 1 as [|e l H IH He]; [done|]. cbn [history_events]. destruct (Z.leb_spec (he_t e) t_target) as [Hle|Hgt].
  - rewrite filter_cons_False, filter_drop by lia || (eapply Forall_impl; [done|]; unfold t_desc; cbn; intros; lia).
    done.
  - rewrite filter_cons_True by done. rewrite IH. done.
Qed.

#[export] Instance cmp_laws_undo : CmpLaws everything undo_cmp.
Proof.
  assert (CmpLaws everything (fun a b : UndoEvent => ue_t b ?= ue_t a)) as H1.
  { split; intros x y; intros.
    - by rewrite Z.compare_antisym.
    - match goal with H : _ = Eq |- _ => apply Z.compare_eq in H as -> end. done.
    - rewrite Z.compare_lt_iff in *. lia. }
  assert (CmpLaws everything (fun a b : UndoEvent => bool_cmp (ue_is_assert b) (ue_is_assert a))) as H2.
  { split; intros x y; intros; destruct (ue_is_assert x), (ue_is_assert y); try done;
      destruct (ue_is_assert z); done. }
  by apply cmp_laws_then.
Qed.

(** ** The three-way merge *)

Fixpoint kept (excluded : nat -> bool) (bi : nat) (rows : list RunRecordV2) : list RunRecordV2 :=
  match rows with
  | [] => []
  | r :: rows => if excluded bi then kept excluded (S bi) rows else r :: kept excluded (S bi) rows
  end.

Lemma elem_of_kept excluded rows : forall bi r,
  r ∈ kept excluded bi rows <-> exists i, rows !! i = Some r /\ excluded (bi + i)%nat = false.
Proof.
  induction rows as [|x rows IH]; intros bi r; cbn.
  - split; [by intros ?%not_elem_of_nil|by intros (? & ? & _)].
  - assert ((exists i, (x :: rows) !! i = Some r /\ excluded (bi + i)%nat = false) <->
            (x = r /\ excluded bi = false) \/ exists i, rows !! i = Some r /\ excluded (S bi + i)%nat = false) as ->.
    { split.
      - intros ([|i] & Hi & He); [left; rewrite Nat.add_0_r in He; by injection Hi|].
        right. exists i. by rewrite Nat.add_succ_comm.
      - intros [[-> He]|(i & Hi & He)]; [exists 0%nat; by rewrite Nat.add_0_r|].
        exists (S i). by rewrite <- Nat.add_succ_comm. }
    destruct (excluded bi); [|rewrite elem_of_cons]; rewrite IH; naive_solver.
Qed.

Lemma merge_includes_nil o excluded bi incs : merge_includes o excluded bi [] incs = incs.
Proof. by destruct incs. Qed.

Lemma merge_includes_skip o excluded bi row rows incs :
  excluded bi = true ->
  merge_includes o excluded bi (row :: rows) incs = merge_includes o excluded (S bi) rows incs.
Proof. intros H. destruct incs; cbn; by rewrite H. Qed.

Lemma merge_includes_cons o excluded bi row rows inc incs :
  excluded bi = false ->
  merge_includes o excluded bi (row :: rows) (inc :: incs) =
  match cmp_v2_for_order o row inc with
  | Lt => row :: merge_includes o excluded (S bi) rows (inc :: incs)
  | Gt => inc :: merge_includes o excluded bi (row :: rows) incs
  | Eq => inc :: merge_includes o excluded (S bi) rows incs
  end.
Proof. intros H. cbn [merge_includes]. by rewrite H. Qed.

Lemma kept_subset excluded bi rows r : r ∈ kept excluded bi rows -> r ∈ rows.
Proof. intros (i & Hi & _)%elem_of_kept. by eapply list_elem_of_lookup_2. Qed.

Lemma merge_includes_perm o excluded rows : forall bi incs,
  (forall r x, r ∈ kept excluded bi rows -> x ∈ incs -> rr_key r <> rr_key x) ->
  merge_includes o excluded bi rows incs ≡ₚ kept excluded bi rows ++ incs.
Proof.
  induction rows as [|row rows IH]; intros bi; [intros incs _; by rewrite merge_includes_nil|].
  cbn [kept]. destruct (excluded bi) eqn:E.
  - intros incs H. rewrite merge_includes_skip by done. by apply IH.
  - induction incs as [|inc incs IHi]; intros H.
    + cbn [merge_includes]. rewrite E, IH; [done|]. by intros ?? _ ?%not_elem_of_nil.
    + rewrite merge_includes_cons by done. destruct (cmp_v2_for_order o row inc) eqn:Ec.
      * apply cmp_run_Eq in Ec. exfalso. by apply (H row inc); [left|left|].
      * cbn. rewrite IH; [done|]. intros r x Hr Hx. apply H; [by right|done].
      * rewrite IHi; [|intros r x Hr Hx; apply H; [done|by right]].
        cbn. rewrite <- Permutation_middle. apply perm_swap.
Qed.

Lemma merge_includes_sorted o excluded rows : forall bi incs,
  StronglySorted (run_lt o) rows -> StronglySorted (run_lt o) incs ->
  (forall r x, r ∈ kept excluded bi rows -> x ∈ incs -> rr_key r <> rr_key x) ->
  StronglySorted (run_lt o) (merge_includes o excluded bi rows incs).
Proof.
  induction rows as [|row rows IH]; intros bi; [intros incs _ ? _; by rewrite merge_includes_nil|].
  intros incs Hr. apply run_sorted_cons in Hr as Hr'. destruct Hr' as [Hr' Hlt].
  cbn [kept]. destruct (excluded bi) eqn:E.
  - intros Hi H. rewrite merge_includes_skip by done. by apply IH.
  - induction incs as [|inc incs IHi]; intros Hi H.
    + cbn [merge_includes]. rewrite E. apply sorted_by_head.
      * apply IH; [done|done|]. by intros ?? _ ?%not_elem_of_nil.
      * intros x. rewrite merge_includes_perm by by intros ?? _ ?%not_elem_of_nil.
        rewrite app_nil_r. intros ?%kept_subset. by apply Hlt.
    + rewrite merge_includes_cons by done. apply run_sorted_cons in Hi as Hi'. destruct Hi' as [Hi' Hilt].
      destruct (cmp_v2_for_order o row inc) eqn:Ec.
      * apply cmp_run_Eq in Ec. exfalso. by apply (H row inc); [left|left|].
      * assert (forall r x, r ∈ kept excluded (S bi) rows -> x ∈ inc :: incs -> rr_key r <> rr_key x) as H'.
        { intros r x Hrk. apply H. by right. }
        apply sorted_by_head; [by apply IH|]. intros x. rewrite merge_includes_perm by done.
        intros [?%kept_subset|[->|Hx]%elem_of_cons]%elem_of_app; [by apply Hlt|done|].
        eapply run_lt_trans; [done|by apply Hilt].
      * apply run_gt_lt in Ec. assert (forall r x, r ∈ row :: kept excluded (S bi) rows -> x ∈ incs -> rr_key r <> rr_key x) as H'.
        { intros r x Hrk Hx. apply H; [done|by right]. }
        apply sorted_by_head; [by apply IHi|]. intros x.
        rewrite merge_includes_perm by (cbn [kept]; by rewrite E). cbn [kept]. rewrite E.
        intros [[->|?%kept_subset]%elem_of_cons|Hx]%elem_of_app; [done| |by apply Hilt].
        eapply run_lt_trans; [done|by apply Hlt].
Qed.

(** ** The rows of the past

    The proof that [replay_leaflet] shows the state of the log: the log is cut
    at the transaction, and each fact is classified by its first event after
    the cut. *)

Definition fact_record (k : FactKeyV3) (t : Z) : RunRecordV2 :=
  mkRun (fk_s_id k) (fk_o_key k) (fk_p_id k) t (fk_o_i k) (fk_o_type k) 0.

Lemma rr_key_fact k t : rr_key (fact_record k t) = k.
Proof. by destruct k. Qed.

Lemma hist_record_fact e : hist_entry_to_record e = fact_record (he_key e) (he_t e).
Proof. done. Qed.

(** ** Step 3 per fact *)

Definition excl_of (mem : gmap FactKeyV3 (Z * nat)) (t_target : Z) (ks : FactKeyV3 * UndoState) : list nat :=
  match mem !! ks.1 with
  | Some (base_t, row_idx) =>
      if negb (us_present ks.2) || (t_target <? base_t) then [row_idx] else []
  | None => []
  end.

Definition incl_of (mem : gmap FactKeyV3 (Z * nat)) (history : list HistEntryV2) (t_target : Z)
    (ks : FactKeyV3 * UndoState) : list RunRecordV2 :=
  if us_present ks.2 && match mem !! ks.1 with Some (base_t, _) => t_target <? base_t | None => true end
  then restore ks.1 ks.2 history t_target else [].

Lemma derive_fold mem history t_target l : forall acc,
  fold_left (derive_step mem history t_target) l acc =
  (acc.1 ++ flat_map (excl_of mem t_target) l, acc.2 ++ flat_map (incl_of mem history t_target) l).
Proof.
  induction l as [|[k s] l IH]; intros [ex inc]; cbn [fold_left flat_map fst snd]; [by rewrite !app_nil_r|].
  rewrite IH. unfold derive_step, excl_of, incl_of. cbn [fst snd].
  destruct (mem !! k) as [[bt i]|], (us_present s); cbn [negb orb andb fst snd];
    [destruct (t_target <? bt)| | |]; cbn [fst snd]; by rewrite ?app_nil_l, <- ?(assoc_L (++)).
Qed.

Lemma sorted_strict o l :
  StronglySorted (cle (cmp_v2_for_order o)) l -> NoDup (rr_key <$> l) -> StronglySorted (run_lt o) l.
Proof.
  induction 1 as [|x l H IH Hx]; [constructor|]. rewrite fmap_cons. intros [Hnx Hnd]%NoDup_cons.
  constructor; [by apply IH|]. rewrite Forall_forall in Hx |- *. intros y Hy. specialize (Hx y Hy).
  unfold cle, run_lt in *. destruct (cmp_v2_for_order o x y) eqn:E; [|done|done].
  apply cmp_run_Eq in E. destruct Hnx. rewrite E. apply list_elem_of_fmap. eauto.
Qed.

Lemma flat_map_keys {K B} (key : B -> K) (f : K * UndoState -> list B) l :
  NoDup l.*1 -> (forall ks, ks ∈ l -> f ks = [] \/ exists x, f ks = [x] /\ key x = ks.1) ->
  NoDup (key <$> flat_map f l).
Proof.
  induction l as [|ks l IH]; [constructor|]. rewrite fmap_cons. intros [Hn Hnd]%NoDup_cons Hf.
  cbn [flat_map]. assert (NoDup (key <$> flat_map f l)) as Hl.
  { apply IH; [done|]. intros x Hx. apply Hf. by right. }
  destruct (Hf ks) as [->|(x & -> & Hk)]; [left|done|]. cbn. apply NoDup_cons. split; [|done].
  rewrite Hk. intros (y & E & Hy)%list_elem_of_fmap.
  apply list_elem_of_In, in_flat_map in Hy as (ks' & Hin & Hy).
  rewrite <- list_elem_of_In in Hin. rewrite <- list_elem_of_In in Hy.
  destruct (Hf ks') as [E'|(z & E' & Hz)]; [by right| |]; rewrite E' in Hy; [by apply not_elem_of_nil in Hy|].
  apply list_elem_of_singleton in Hy as ->. apply Hn, list_elem_of_fmap. exists ks'. split; [congruence|done].
Qed.

Lemma find_split {A} (p : A -> bool) l x :
  find p l = Some x -> exists l1 l2, l = l1 ++ x :: l2 /\ Forall (fun y => p y = false) l1.
Proof.
  induction l as [|y l IH]; [done|]. cbn. destruct (p y) eqn:E.
  - intros [= ->]. by exists [], l.
  - intros (l1 & l2 & -> & Hl)%IH. exists (y :: l1), l2. auto.
Qed.

Section past.
Context `{SL : SortLib, SLL : !SortLaws, SO : StatesOrder, SOL : !StatesOrderLaws}.
Context (o : RunSortOrder) (log extra log1 log2 : list HistEntryV2).
Context (rows : list RunRecordV2) (hist : list HistEntryV2) (T : Z).
Context (Hlo : leaflet_of o log extra rows hist).
Context (Hsplit : log = log1 ++ log2).
Context (H1 : Forall (fun e => he_t e <= T) log1) (H2 : Forall (fun e => T < he_t e) log2).

Let mem := membership_from 0 rows ∅.

Lemma log2_of e : e ∈ log -> T < he_t e -> e ∈ log2.
Proof.
  rewrite Hsplit. intros [He|He]%elem_of_app Ht; [|done]. rewrite Forall_forall in H1. apply H1 in He. lia.
Qed.

Lemma log1_of e : e ∈ log -> he_t e <= T -> e ∈ log1.
Proof.
  rewrite Hsplit. intros [He|He]%elem_of_app Ht; [done|]. rewrite Forall_forall in H2. apply H2 in He. lia.
Qed.

Lemma log2_later e : e ∈ log2 -> T < he_t e.
Proof. rewrite Forall_forall in H2. apply H2. Qed.

Lemma log2_log e : e ∈ log2 -> e ∈ log.
Proof. rewrite Hsplit. intros. apply elem_of_app. by right. Qed.

Definition undo_events : list UndoEvent := history_events hist T ++ row_events rows T.

Lemma undo_events_log2 ue :
  ue ∈ undo_events ->
  exists e, e ∈ log2 /\ he_key e = ue_key ue /\ he_t e = ue_t ue /\ (he_op e =? 1) = ue_is_assert ue.
Proof.
  destruct Hlo as [Hok Hs Hrows Hd Hh Hex]. unfold undo_events, row_events.
  rewrite history_events_filter by done. rewrite elem_of_app, !list_elem_of_fmap.
  intros [(e & -> & [Ht He]%list_elem_of_filter)|(r & -> & [Ht Hr]%list_elem_of_filter)]; cbn.
  - exists e. split; [|done]. apply log2_of; [|done]. rewrite Hh. apply elem_of_app. by left.
  - assert (log_state log !! rr_key r = Some (rr_t r)) as Hst by (apply Hrows; exists r; done).
    apply log_state_assert in Hst as (e & He & Hop & Hk & Ht'). exists e.
    split_and!; [apply log2_of; [done|lia]|done|done|by rewrite Hop].
Qed.

Lemma log2_undo_event e :
  e ∈ log2 -> exists ue, ue ∈ undo_events /\ ue_key ue = he_key e /\ ue_t ue = he_t e /\
                         ue_is_assert ue = (he_op e =? 1).
Proof.
  destruct Hlo as [Hok Hs Hrows Hd Hh Hex]. intros He. pose proof (log2_later e He) as Ht.
  unfold undo_events, row_events. rewrite history_events_filter by done. setoid_rewrite elem_of_app.
  pose proof (log2_log e He) as Hlog. rewrite Hh in Hlog. apply elem_of_app in Hlog as [Hin|Hin].
  - exists (mkUndo (he_t e) (he_op e =? 1) (he_key e) (Some e)). split; [|done]. left.
    apply list_elem_of_fmap. exists e. split; [done|]. by apply list_elem_of_filter.
  - rewrite Forall_forall in Hex. destruct (Hex e Hin) as [Hop Hst]. apply Hrows in Hst as (r & Hr & Hk & Htr).
    exists (mkUndo (rr_t r) true (rr_key r) None). split; [|cbn; by rewrite Hop]. right.
    apply list_elem_of_fmap. exists r. split; [done|]. apply list_elem_of_filter. split; [lia|done].
Qed.

Lemma undo_sorted :
  sort_by undo_cmp undo_events ≡ₚ undo_events /\ StronglySorted (cle undo_cmp) (sort_by undo_cmp undo_events).
Proof.
  assert (Forall everything undo_events) as He by by apply Forall_true.
  split; [by apply (sort_by_perm everything undo_cmp _ _)|by apply (sort_by_sorted everything undo_cmp _ _)].
Qed.

Lemma undo_none k : Forall (fun e => he_key e <> k) log2 -> undo_states rows hist T !! k = None.
Proof.
  intros H. apply undo_fold_none. apply Forall_forall. intros ue Hue Hk.
  destruct undo_sorted as [Hp _]. unfold undo_events in Hp. rewrite Hp in Hue.
  apply undo_events_log2 in Hue as (e & He & Hke & _). rewrite Forall_forall in H.
  apply (H e He). unfold event_about in Hk. congruence.
Qed.

(** The first event after the cut decides what the undo leaves. *)
Lemma undo_first a f b :
  log2 = a ++ f :: b -> Forall (fun e => he_key e <> he_key f) a ->
  exists s, undo_states rows hist T !! he_key f = Some s /\
            us_present s = bool_decide (is_Some (log_state log1 !! he_key f)).
Proof.
  intros E Ha. destruct undo_sorted as [Hp Hs].
  assert (f ∈ log2) as Hf by (rewrite E; apply elem_of_app; right; left).
  destruct (log2_undo_event f Hf) as (uf & Huf & Hkf & Htf & Haf). rewrite <- Hp in Huf.
  destruct (last_about (he_key f) (sort_by undo_cmp undo_events)) as [Hno|(l & u & r & El & Hu & Hr)].
  { rewrite Forall_forall in Hno. by destruct (Hno uf Huf). }
  unfold event_about in Hu. rewrite <- Hu in *.
  destruct (undo_fold_last mem l u r Hr) as (s & Hst & Hpr). exists s.
  rewrite <- El in Hst. split; [done|]. rewrite Hpr.
  assert (u ∈ undo_events) as Hu' by (rewrite <- Hp, El; apply elem_of_app; right; left).
  destruct (undo_events_log2 u Hu') as (e & He & Hke & Hte & Hae).
  assert (undo_cmp uf u <> Gt) as Hc.
  { rewrite El in Huf, Hs. apply elem_of_app in Huf as [Huf|[->|Huf]%elem_of_cons].
    - apply list_elem_of_lookup in Huf as [i Hi].
      eapply (sorted_lookup _ _ i (length l) uf u Hs); [by apply lookup_app_l_Some|by apply list_lookup_middle|].
      by eapply lookup_lt_Some.
    - rewrite (cmp_refl (P := everything) u I). done.
    - rewrite Forall_forall in Hr. by destruct (Hr uf Huf). }
  assert (he_t f <= he_t e) as Hmin.
  { rewrite E in He. apply elem_of_app in He as [He|He].
    - rewrite Forall_forall in Ha. apply Ha in He. congruence.
    - apply elem_of_cons in He as [->|He]; [done|].
      pose proof (log_ok_times _ (lo_log _ _ _ _ _ Hlo)) as Htimes. rewrite Hsplit, E in Htimes.
      apply list_elem_of_lookup in He as [i Hi].
      eapply (sorted_lookup _ _ (length (log1 ++ a)) (length (log1 ++ a) + S i) f e Htimes).
      + rewrite (assoc_L (++)). by apply list_lookup_middle.
      + rewrite (assoc_L (++)), lookup_app_r by lia.
        replace (length (log1 ++ a) + S i - length (log1 ++ a))%nat with (S i) by lia. done.
      + lia. }
  unfold undo_cmp in Hc. rewrite <- Hte, Htf in Hc.
  destruct (Z.compare_spec (he_t e) (he_t f)) as [Ee|?|?]; [|lia|by destruct Hc]. cbn in Hc.
  pose proof (lo_log _ _ _ _ _ Hlo) as Hok. rewrite Hsplit, E in Hok.
  destruct (first_event_after log1 a f b Hok) as [[Hop Hst1]|(Hop & Hst1 & Hno)]; [by rewrite Hu in Ha| |].
  - rewrite Hu, bool_decide_eq_true_2 by done. rewrite Haf, Hop in Hc. cbn in Hc.
    by destruct (ue_is_assert u).
  - rewrite Hu, Hst1, bool_decide_eq_false_2 by by apply is_Some_None.
    destruct (log_ok_op _ e (lo_log _ _ _ _ _ Hlo) (log2_log e He)) as [Ho|Ho]; [|by rewrite <- Hae, Ho].
    exfalso. rewrite E in He. pose proof (Hno e He) as Hlt. rewrite Hke in Hlt. specialize (Hlt Hu Ho). lia.
Qed.

Lemma undo_key k s :
  undo_states rows hist T !! k = Some s ->
  (exists e, e ∈ log2 /\ he_key e = k) /\ us_present s = bool_decide (is_Some (log_state log1 !! k)).
Proof.
  intros Hs. destruct (first_event k log2) as [Hno|(a & f & b & E & Hf & Ha)].
  - rewrite (undo_none k Hno) in Hs. done.
  - subst k. destruct (undo_first a f b E Ha) as (s' & Hs' & Hp). rewrite Hs in Hs'. injection Hs' as <-.
    split; [|done]. exists f. split; [rewrite E; apply elem_of_app; right; left|done].
Qed.

Lemma undo_some e : e ∈ log2 -> exists s, undo_states rows hist T !! he_key e = Some s.
Proof.
  intros He. destruct (first_event (he_key e) log2) as [Hno|(a & f & b & E & Hf & Ha)].
  - rewrite Forall_forall in Hno. by destruct (Hno e He).
  - rewrite <- Hf in *. destruct (undo_first a f b E Ha) as (s & Hs & _). eauto.
Qed.

(** A fact with an event after the cut that was present at the cut is restored
    with its assertion. *)
Lemma restore_past k s t e :
  e ∈ log2 -> he_key e = k -> log_state log1 !! k = Some t -> restore k s hist T = [fact_record k t].
Proof.
  intros He Hk Hst. destruct Hlo as [Hok Hs Hrows Hd Hh Hex].
  assert (log_ok log1) as Hok1 by (rewrite Hsplit in Hok; by eapply log_ok_prefix).
  destruct (log_state_assert _ _ _ Hst) as (x & Hx & Hop & Hkx & Htx).
  assert (x ∈ log) as Hxl by (rewrite Hsplit; apply elem_of_app; by left).
  assert (he_t x <= T) as HxT by (rewrite Forall_forall in H1; by apply H1).
  assert (x ∈ hist) as Hxh.
  { rewrite Hh in Hxl. apply elem_of_app in Hxl as [?|Hxe]; [done|]. exfalso.
    rewrite Forall_forall in Hex. destruct (Hex x Hxe) as [_ Hsx].
    pose proof (log_state_latest log _ _ Hok Hsx e (log2_log e He)) as Hl.
    pose proof (log2_later e He). rewrite Hk, Hkx in Hl. specialize (Hl eq_refl). lia. }
  unfold restore, find_base_assert_at_target.
  destruct (find _ hist) as [y|] eqn:Ef.
  - apply find_some in Ef as Hy. destruct Hy as [Hy Hp]. rewrite <- list_elem_of_In in Hy.
    apply andb_true_iff in Hp as [[Hty%Z.leb_le Hoy%Z.eqb_eq]%andb_true_iff Hky%bool_decide_eq_true].
    rewrite hist_record_fact, Hky. do 2 f_equal. apply Z.le_antisymm.
    + eapply (log_state_latest log1); [done|done| |done]. apply log1_of; [|done].
      rewrite Hh. apply elem_of_app. by left.
    + rewrite <- Htx. destruct (find_split _ _ _ Ef) as (l1 & l2 & El & Hno).
      rewrite El in Hxh, Hd. apply elem_of_app in Hxh as [Hin|[->|Hin]%elem_of_cons]; [|done|].
      * rewrite Forall_forall in Hno. specialize (Hno x Hin).
        rewrite (proj2 (Z.leb_le _ _) HxT), Hop, bool_decide_eq_true_2 in Hno by done. done.
      * apply list_elem_of_lookup in Hin as [i Hi].
        eapply (sorted_lookup _ _ (length l1) (length l1 + S i) y x Hd); [by apply list_lookup_middle| |lia].
        rewrite lookup_app_r by lia. replace (length l1 + S i - length l1)%nat with (S i) by lia. done.
  - exfalso. apply list_elem_of_In, (find_none _ _ Ef) in Hxh as Hno.
    rewrite (proj2 (Z.leb_le _ _) HxT), Hop, bool_decide_eq_true_2 in Hno by done. done.
Qed.

Definition past_excludes : list nat := flat_map (excl_of mem T) (states_iter (undo_states rows hist T)).
Definition past_includes : list RunRecordV2 :=
  flat_map (incl_of mem hist T) (states_iter (undo_states rows hist T)).

Lemma elem_of_states ks :
  ks ∈ states_iter (undo_states rows hist T) <-> undo_states rows hist T !! ks.1 = Some ks.2.
Proof. destruct ks as [k s]. rewrite (states_iter_perm _), elem_of_map_to_list. done. Qed.

Lemma row_state i r : rows !! i = Some r -> log_state log !! rr_key r = Some (rr_t r).
Proof.
  intros Hi. apply (lo_rows _ _ _ _ _ Hlo). exists r. split; [by eapply list_elem_of_lookup_2|done].
Qed.

(** A row is left out exactly when its fact has an event after the cut. *)
Lemma excluded_spec i r :
  rows !! i = Some r -> i ∈ past_excludes <-> exists e, e ∈ log2 /\ he_key e = rr_key r.
Proof.
  intros Hi. pose proof (lo_sorted _ _ _ _ _ Hlo) as Hs. unfold past_excludes.
  rewrite list_elem_of_In, in_flat_map. split.
  - intros ([k s] & Hks & Hin). rewrite <- list_elem_of_In in Hks. rewrite <- list_elem_of_In in Hin.
    apply elem_of_states in Hks. cbn in Hks. apply undo_key in Hks as [(e & He & Hk) _].
    exists e. split; [done|]. unfold excl_of in Hin. cbn in Hin.
    destruct (mem !! k) as [[bt j]|] eqn:Em; [|by apply not_elem_of_nil in Hin].
    apply (membership_spec o) in Em as (r' & Hr' & Hkr & _); [|done].
    destruct (negb _ || _); [|by apply not_elem_of_nil in Hin].
    apply list_elem_of_singleton in Hin as ->. congruence.
  - intros (e & He & Hk). destruct (undo_some e He) as [s Hst]. exists (he_key e, s). split.
    + apply list_elem_of_In, elem_of_states. done.
    + apply list_elem_of_In. unfold excl_of. cbn.
      assert (mem !! he_key e = Some (rr_t r, i)) as ->.
      { rewrite Hk. apply (membership_spec o); [done|]. eauto. }
      assert ((T <? rr_t r) = true) as ->; [|rewrite orb_true_r; by apply list_elem_of_singleton].
      apply Z.ltb_lt. pose proof (log2_later e He).
      pose proof (log_state_latest log _ _ (lo_log _ _ _ _ _ Hlo) (row_state i r Hi) e (log2_log e He) Hk). lia.
Qed.

Lemma incl_of_past ks :
  undo_states rows hist T !! ks.1 = Some ks.2 ->
  incl_of mem hist T ks = match log_state log1 !! ks.1 with Some t => [fact_record ks.1 t] | None => [] end.
Proof.
  destruct ks as [k s]. cbn. intros Hst. destruct (undo_key k s Hst) as [(e & He & Hk) Hp].
  unfold incl_of. cbn. rewrite Hp. destruct (log_state log1 !! k) as [t|] eqn:El.
  - rewrite bool_decide_eq_true_2 by by eexists. cbn. rewrite (restore_past k s t e) by done.
    destruct (mem !! k) as [[bt i]|] eqn:Em; [|done].
    apply (membership_spec o) in Em as (r & Hr & Hkr & <-); [|apply (lo_sorted _ _ _ _ _ Hlo)].
    assert ((T <? rr_t r) = true) as ->; [|done]. apply Z.ltb_lt. pose proof (log2_later e He).
    pose proof (log_state_latest log _ _ (lo_log _ _ _ _ _ Hlo) (row_state i r Hr) e (log2_log e He)) as Hl.
    rewrite Hk, Hkr in Hl. specialize (Hl eq_refl). lia.
  - rewrite bool_decide_eq_false_2 by by apply is_Some_None. done.
Qed.

Lemma includes_spec x :
  x ∈ past_includes <->
  exists k t e, e ∈ log2 /\ he_key e = k /\ log_state log1 !! k = Some t /\ x = fact_record k t.
Proof.
  unfold past_includes. rewrite list_elem_of_In, in_flat_map. split.
  - intros (ks & Hks & Hin). rewrite <- list_elem_of_In in Hks. rewrite <- list_elem_of_In in Hin.
    apply elem_of_states in Hks. rewrite incl_of_past in Hin by done.
    destruct (undo_key _ _ Hks) as [(e & He & Hk) _].
    destruct (log_state log1 !! ks.1) as [t|] eqn:El; [|by apply not_elem_of_nil in Hin].
    apply list_elem_of_singleton in Hin as ->. exists ks.1, t, e. done.
  - intros (k & t & e & He & Hk & Hst & ->). destruct (undo_some e He) as [s Hs]. rewrite Hk in Hs.
    exists (k, s). split; [by apply list_elem_of_In, elem_of_states|].
    apply list_elem_of_In. rewrite incl_of_past by done. cbn. rewrite Hst. by apply list_elem_of_singleton.
Qed.

Lemma includes_keys : NoDup (rr_key <$> past_includes).
Proof.
  apply flat_map_keys.
  - rewrite (states_iter_perm _). apply NoDup_fst_map_to_list.
  - intros ks Hks%elem_of_states. rewrite incl_of_past by done.
    destruct (log_state log1 !! ks.1) as [t|]; [right|by left].
    exists (fact_record ks.1 t). split; [done|]. apply rr_key_fact.
Qed.

Lemma includes_sorted :
  sort_by (cmp_v2_for_order o) past_includes ≡ₚ past_includes /\
  StronglySorted (run_lt o) (sort_by (cmp_v2_for_order o) past_includes).
Proof.
  assert (Forall everything past_includes) as He by by apply Forall_true.
  assert (sort_by (cmp_v2_for_order o) past_includes ≡ₚ past_includes) as Hp
    by by apply (sort_by_perm everything _ _ _).
  split; [done|]. apply sorted_strict; [by apply (sort_by_sorted everything _ _ _)|].
  rewrite Hp. apply includes_keys.
Qed.

Definition past_excluded (i : nat) : bool := bool_decide (i ∈ past_excludes).
Definition past_rows : list RunRecordV2 :=
  merge_includes o past_excluded 0 rows (sort_by (cmp_v2_for_order o) past_includes).

Lemma kept_past r :
  r ∈ kept past_excluded 0 rows <-> r ∈ rows /\ Forall (fun e => he_key e <> rr_key r) log2.
Proof.
  rewrite elem_of_kept. split.
  - intros (i & Hi & He%bool_decide_eq_false). split; [by eapply list_elem_of_lookup_2|].
    apply Forall_forall. intros e Hin Hk. apply He, (excluded_spec i r Hi). eauto.
  - intros [Hr Hno]. apply list_elem_of_lookup in Hr as [i Hi]. exists i. split; [done|].
    apply bool_decide_eq_false. rewrite Nat.add_0_l, (excluded_spec i r Hi). intros (e & He & Hk).
    rewrite Forall_forall in Hno. by apply (Hno e).
Qed.

Lemma past_disjoint r x :
  r ∈ kept past_excluded 0 rows -> x ∈ sort_by (cmp_v2_for_order o) past_includes -> rr_key r <> rr_key x.
Proof.
  destruct includes_sorted as [Hp _]. rewrite Hp. intros [_ Hno]%kept_past (k & t & e & He & Hk & _ & ->)%includes_spec.
  rewrite rr_key_fact, <- Hk. rewrite Forall_forall in Hno. intros E. by apply (Hno e).
Qed.

(** The rebuilt rows are the facts of the log up to the cut. *)
Lemma past_rows_show : rows_show o past_rows (log_state log1).
Proof.
  destruct includes_sorted as [Hp Hinc]. split.
  - apply merge_includes_sorted; [apply (lo_sorted _ _ _ _ _ Hlo)|done|apply past_disjoint].
  - intros k t. unfold row_in, past_rows.
    setoid_rewrite (merge_includes_perm o _ _ _ _ past_disjoint). setoid_rewrite elem_of_app.
    setoid_rewrite Hp. setoid_rewrite kept_past. setoid_rewrite includes_spec.
    destruct (first_event k log2) as [Hno|(a & f & b & E & Hf & Ha)].
    + assert (log_state log1 !! k = log_state log !! k) as -> by (rewrite Hsplit; symmetry; by apply log_state_untouched).
      rewrite (lo_rows _ _ _ _ _ Hlo). split.
      * intros (r & Hr & <- & Ht). exists r. auto.
      * intros (r & [[Hr _]|(k' & t' & e & He & Hk & _ & ->)] & Hkr & Ht); [by exists r|].
        rewrite rr_key_fact in Hkr. rewrite Forall_forall in Hno. destruct (Hno e He). congruence.
    + assert (f ∈ log2) as Hfl by (rewrite E; apply elem_of_app; right; left). split.
      * intros Hst. exists (fact_record k t). rewrite rr_key_fact. split; [|done]. right.
        by exists k, t, f.
      * intros (r & [[_ Hno]|(k' & t' & e & _ & _ & Hst & ->)] & Hkr & Ht).
        -- rewrite Forall_forall in Hno. destruct (Hno f Hfl). congruence.
        -- rewrite rr_key_fact in Hkr. subst k'. by rewrite <- Ht.
Qed.

Lemma replay_rows_past :
  match replay_rows rows hist T o with
  | Some rows' => rows_show o rows' (log_state log1)
  | None => rows_show o rows (log_state log1)
  end.
Proof.
  unfold replay_rows. fold undo_events. destruct undo_events as [|ue ues] eqn:E.
  - assert (log2 = []) as E2.
    { apply elem_of_nil_inv. intros e He. destruct (log2_undo_event e He) as (ue & Hue & _).
      rewrite E in Hue. by apply not_elem_of_nil in Hue. }
    assert (log_state log1 = log_state log) as -> by by rewrite Hsplit, E2, app_nil_r.
    split; [apply (lo_sorted _ _ _ _ _ Hlo)|apply (lo_rows _ _ _ _ _ Hlo)].
  - rewrite derive_fold. cbn [fst snd app]. apply past_rows_show.
Qed.
End past.
