(* ===== verification/TimeTravel.v ===== *)
(** * Time travel over a merged index

    A leaflet starts as the rows of a full build, without history, and takes
    novelty batch by batch; after each merge its rows are stored as columns and
    its history in a sidecar.  Reading it at a transaction shows the state of
    its log at that transaction. *)

From S2P Require Import Prelude Bytes Cmp Segment RunRecord Columns HistorySidecar IndexLog NoveltyMerge MergeLaws.
From S2P Require Import Replay ReplayLaws.
From stdpp Require Import base list numbers sorting gmap.
From Stdlib Require Import ZArith Lia.

Local Open Scope Z_scope.

(** ** Storing rows and history *)

Lemma rows_show_drop o rows m : rows_show o rows m -> rows_show o (drop_graph <$> rows) m.
Proof.
  intros [Hs Hm]. split.
  - clear Hm. induction Hs as [|x l H IH Hx]; cbn; constructor; [done|]. apply Forall_fmap.
    eapply Forall_impl; [done|]. intros y Hy. unfold run_lt, compose in *.
    by rewrite (cmp_run_key o (drop_graph x) x (drop_graph y) y).
  - intros k t. rewrite Hm. unfold row_in. setoid_rewrite list_elem_of_fmap. split.
    + intros (r & Hr & Hk & Ht). exists (drop_graph r). split; [eauto|done].
    + intros (? & (r & -> & Hr) & Hk & Ht). eauto.
Qed.

Lemma leaflet_rows o log extra rows hist :
  leaflet_of o log extra rows hist -> rows_show o rows (log_state log).
Proof. intros []. done. Qed.

Lemma leaflet_reload o log extra rows rows' hist hist' :
  leaflet_of o log extra rows hist -> rows_show o rows' (log_state log) ->
  hist' ≡ₚ hist -> StronglySorted t_desc hist' -> leaflet_of o log extra rows' hist'.
Proof. intros [Hok _ _ _ Hh Hex] [Hs Hr] Hp Hd. split; try done. by rewrite Hp. Qed.

(** A history written at some place of a sidecar blob. *)
Definition saved `{SortLib} (es : list HistEntryV2) (data : bytes) (seg : HistorySegmentRef) : Prop :=
  exists leaflets segs i, Forall leaflet_fits leaflets /\ sidecar_build leaflets = (data, segs) /\
    zlen data <= isize_max /\ leaflets !! i = Some es /\ segs !! i = Some seg.

(** A directory entry and the sidecar it points into. *)
Definition stored `{SortLib} (es : list HistEntryV2) (entry : HistoryDir) (sidecar : option bytes) : Prop :=
  (es = [] /\ entry = mkHistoryDir 0 0 0 0) \/
  exists data, sidecar = Some data /\ saved es data (hd_segment entry).

Section travel.
Context `{SL : SortLib, SLL : !SortLaws, SO : StatesOrder, SOL : !StatesOrderLaws}.

Lemma saved_holds es data seg : saved es data seg -> seg_holds data seg es.
Proof.
  intros (ls & segs & i & Hf & Hb & Hfit & Hes & Hseg).
  destruct (sidecar_roundtrip ls data segs Hf Hb Hfit) as [_ H].
  destruct (H i es Hes) as (seg' & Hseg' & Hh). congruence.
Qed.

(** ** Replay of a leaflet in memory *)

Lemma state_at_all log t : Forall (fun e => he_t e <= t) log -> state_at log t = log_state log.
Proof. intros H. unfold state_at. by rewrite filter_keep. Qed.

Lemma state_at_none log t : Forall (fun e => t < he_t e) log -> state_at log t = ∅.
Proof.
  intros H. unfold state_at. rewrite filter_drop; [done|]. eapply Forall_impl; [done|]. cbn. intros. lia.
Qed.

Definition log_times (log : list HistEntryV2) : Prop := Forall (fun e => in_u 32 (he_t e)) log.

Lemma replay_past o log extra rows hist b T :
  leaflet_of o log extra rows hist -> batch_holds b rows -> log_times log ->
  exists res rows', replay_leaflet b hist T o = Ok res /\ batch_holds (default b res) rows' /\
                    rows_show o rows' (state_at log T).
Proof.
  intros Hlo Hb Ht. unfold replay_leaflet.
  destruct (Z.ltb_spec u32_max T) as [Hgt|Hle].
  - exists None, rows. split_and!; [done|done|]. rewrite state_at_all; [by eapply leaflet_rows|].
    eapply Forall_impl; [done|]. unfold in_u, u32_max in *. cbn. intros. lia.
  - destruct (Z.ltb_spec T 0) as [Hneg|Hpos].
    + exists (Some batch_empty), []. split_and!; [done|done|].
      rewrite state_at_none by (eapply Forall_impl; [done|]; unfold in_u; cbn; intros; lia).
      split; [constructor|]. intros k t. rewrite lookup_empty. split; [done|].
      by intros (r & ?%not_elem_of_nil & _).
    + rewrite Hb. destruct (log_split log T (lo_log _ _ _ _ _ Hlo)) as (l1 & l2 & E & H1 & H2 & ->).
      pose proof (replay_rows_past o log extra l1 l2 rows hist T Hlo E H1 H2) as Hr.
      exists (batch_of_rows <$> replay_rows rows hist T o). cbn [mbind outcome_bind].
      destruct (replay_rows rows hist T o) as [rows'|]; cbn.
      * exists (drop_graph <$> rows'). split_and!; [done|apply batch_of_rows_holds|by apply rows_show_drop].
      * by exists rows.
Qed.

(** ** Replay of a stored leaflet *)

Lemma leaflet_all_before o log extra rows hist t :
  leaflet_of o log extra rows hist -> Forall (fun e => he_t e <= t) hist ->
  Forall (fun r => rr_t r <= t) rows -> Forall (fun e => he_t e <= t) log.
Proof.
  intros [_ _ Hrows _ Hh Hex] H1 H2. rewrite Hh. apply Forall_app. split; [done|].
  rewrite Forall_forall in Hex. rewrite Forall_forall in H2. apply Forall_forall. intros e He. destruct (Hex e He) as [_ Hst].
  apply Hrows in Hst as (r & Hr & _ & <-). by apply H2.
Qed.

Lemma replay_at_past o log extra rows hist b entry sidecar T :
  leaflet_of o log extra rows hist -> batch_holds b rows -> log_times log ->
  stored hist entry sidecar -> 0 <= T ->
  exists res rows', replay_leaflet_at_t b entry sidecar T o = Ok res /\
    batch_holds (default b res) rows' /\ rows_show o rows' (state_at log T).
Proof.
  intros Hlo Hb Ht Hst HT. unfold replay_leaflet_at_t.
  set (T' := u32_try_from_or_max T).
  assert (0 <= T' /\ (T' = T \/ T' = u32_max /\ u32_max < T)) as [HT' HTT].
  { unfold T', u32_try_from_or_max, u32_max. destruct (Z.leb_spec 0 T), (Z.leb_spec T (2 ^ 32 - 1)); cbn; lia. }
  destruct (negb _) eqn:En.
  - apply negb_true_iff, orb_false_iff in En as [Hmax%Z.ltb_ge Habove].
    exists None, rows. split_and!; [done|done|].
    rewrite state_at_all; [by eapply leaflet_rows|].
    enough (Forall (fun e => he_t e <= T') log) as Hall.
    { destruct HTT as [HTT|[_ Hgt]]; [by rewrite <- HTT|]. eapply Forall_impl; [exact Ht|].
      unfold in_u, u32_max in *. cbn. intros. lia. }
    eapply (leaflet_all_before _ _ _ _ _ _ Hlo); [|by apply (holds_above_t b)].
    destruct Hst as [[-> ->]|(data & -> & Hs%saved_holds)]; [done|].
    destruct Hs as (_ & _ & _ & _ & _ & Hb2 & _). eapply Forall_impl; [done|]. cbn. intros. lia.
  - destruct Hst as [[-> ->]|(data & -> & Hs%saved_holds)].
    + cbn [hd_len Z.ltb Z.compare]. by apply (replay_past o log extra rows).
    + destruct Hs as (es' & Hp & Hd & Hdec & Hlen & _). cbn in Hlen.
      rewrite (proj2 (Z.ltb_lt _ _) Hlen). cbn [ok_or mbind outcome_bind]. rewrite Hdec. cbn [mbind outcome_bind].
      apply (replay_past o log extra rows); [|done|done]. eapply leaflet_reload; [done| |done|done].
      by eapply leaflet_rows.
Qed.

(** ** Builds and merges *)

(** The log of a full build: one assertion per row. *)
Definition build_log (rows : list RunRecordV2) : list HistEntryV2 :=
  extend_log [] ((fun r => (r, 1)) <$> rows).

Inductive index_history (o : RunSortOrder)
    : list HistEntryV2 -> list HistEntryV2 -> ColumnBatch -> list HistEntryV2 -> Prop :=
| ih_build rows b :
    StronglySorted (run_lt o) rows -> batch_holds b (drop_graph <$> rows) ->
    index_history o (build_log rows) (build_log rows) b []
| ih_merge log extra b hist novelty out b' data seg hist' :
    index_history o log extra b hist -> valid_novelty o log extra hist novelty ->
    merge_novelty b hist novelty.*1 novelty.*2 o = Ok out ->
    batch_holds b' (drop_graph <$> mo_records out) ->
    saved (mo_history out) data seg -> decode_history_segment data seg = Ok hist' ->
    index_history o (extend_log log novelty) extra b' hist'.

Lemma asserted_sorted o rows :
  StronglySorted (run_lt o) rows -> nov_sorted o ((fun r => (r, 1)) <$> rows).
Proof. intros H. unfold nov_sorted. rewrite <- list_fmap_compose. unfold compose. cbn. by rewrite list_fmap_id. Qed.

Lemma build_leaflet o rows :
  StronglySorted (run_lt o) rows -> leaflet_of o (build_log rows) (build_log rows) rows [].
Proof.
  intros Hs. pose proof (asserted_sorted o rows Hs) as Hn.
  assert (valid_novelty o [] [] [] ((fun r => (r, 1)) <$> rows)) as Hv.
  { split; [done|..].
    - intros i (r & -> & _)%list_elem_of_fmap. by left.
    - by intros e i ?%not_elem_of_nil.
    - by intros e i ?%not_elem_of_nil.
    - by intros e i ?. }
  destruct (valid_items o [] [] [] _ log_ok_nil Hv) as [Hok Hst]. fold (build_log rows) in Hok, Hst.
  assert (forall e, e ∈ build_log rows -> exists r, r ∈ rows /\ e = record_to_hist_entry r 1) as Hev.
  { unfold build_log, extend_log. cbn [app]. intros e (i & Hi & He)%elem_of_items_events.
    rewrite merge_sort_Permutation in Hi. apply list_elem_of_fmap in Hi as (r & -> & Hr).
    exists r. split; [done|]. cbn in He. by apply list_elem_of_singleton in He. }
  assert (forall k t, log_state (build_log rows) !! k = Some t <-> row_in rows k t) as Hrows.
  { intros k t. rewrite Hst, (merged_rows o [] [] _ k t); [|constructor|done| |].
    - unfold row_in. destruct (merge_rows_walk o ((fun r => (r, 1)) <$> rows) [] (SSorted_nil _) Hn) as [Hm _].
      setoid_rewrite Hm. unfold walk_member. split; intros (r & Hr & Hk & Ht); exists r; (split; [|done]).
      + destruct Hr as [[?%not_elem_of_nil _]|(x & [= ->] & ?)%list_elem_of_fmap]; done.
      + right. apply list_elem_of_fmap. eauto.
    - intros i (r & -> & _)%list_elem_of_fmap. by right.
    - intros k' t'. unfold row_in. cbn. rewrite lookup_empty. split; [done|]. by intros (? & ?%not_elem_of_nil & _). }
  split; [done|done|done|constructor|done|].
  apply Forall_forall. intros e (r & Hr & ->)%Hev. split; [done|]. apply Hrows. exists r. done.
Qed.

Lemma index_history_leaflet o log extra b hist :
  index_history o log extra b hist ->
  exists rows, batch_holds b rows /\ leaflet_of o log extra rows hist.
Proof.
  induction 1 as [rows b Hs Hb|log extra b hist novelty out b' data seg hist' _ (rows & Hb & Hlo) Hv Hm Hb' Hsv Hdec].
  - exists (drop_graph <$> rows). split; [done|]. pose proof (build_leaflet o rows Hs) as Hlo.
    eapply leaflet_reload; [done| |done|constructor]. apply rows_show_drop. by eapply leaflet_rows.
  - exists (drop_graph <$> mo_records out). split; [done|].
    rewrite (merge_novelty_rows b rows) in Hm by done. injection Hm as <-.
    pose proof (merge_extends o _ _ _ _ _ Hlo Hv) as Hlo'. cbn in *.
    apply saved_holds in Hsv as (es' & Hp & Hd & Hdec' & _). rewrite Hdec in Hdec'. injection Hdec' as <-.
    eapply leaflet_reload; [done| |done|done]. apply rows_show_drop. by eapply leaflet_rows.
Qed.


(** A merge of valid novelty succeeds and keeps the leaflet a
    representation of its log: rows sorted and equal to the facts present,
    history newest first and complete. *)
Theorem merge_keeps_leaflet o log extra rows hist novelty b :
  leaflet_of o log extra rows hist -> batch_holds b rows -> valid_novelty o log extra hist novelty ->
  exists out, merge_novelty b hist novelty.*1 novelty.*2 o = Ok out /\
    leaflet_of o (extend_log log novelty) extra (mo_records out) (mo_history out).
Proof.
  intros Hlo Hb Hv. eexists. split; [by apply (merge_novelty_rows b rows)|]. by apply merge_extends.
Qed.
End travel.
