(* ===== verification/Leaflet.v ===== *)
(** * Column blocks (format/column_block.rs)

    A column of a leaflet is its values in little-endian bytes, compressed on
    its own; a [ColumnBlockRef] says where the block is and how long it is
    before and after decompression.  The compressor is the interface
    [ColumnZstd]. *)
From S2P Require Import Prelude Bytes Cmp RunRecord Columns.
From stdpp Require Import base list numbers sorting gmap.
From Stdlib Require Import ZArith Lia.

Local Open Scope Z_scope.

(** [zstd::bulk::compress] and [zstd::bulk::decompress], which is given the
    room for its output. *)
Class ColumnZstd := {
  zstd_bulk_compress : bytes -> Z -> option bytes;
  zstd_bulk_decompress : bytes -> Z -> option bytes;
}.

Class ColumnZstdLaws `{ColumnZstd} : Prop :=
  zstd_bulk_roundtrip bs level c cap :
    zstd_bulk_compress bs level = Some c -> zlen bs <= cap -> zstd_bulk_decompress c cap = Some bs.

Inductive ColumnId := ColSId | ColPId | ColOType | ColOKey | ColOI | ColT.

#[export] Instance ColumnId_eq_dec : EqDecision ColumnId.
Proof. solve_decision. Defined.

Definition col_to_u16 (c : ColumnId) : Z :=
  match c with ColSId => 0 | ColPId => 1 | ColOType => 2 | ColOKey => 3 | ColOI => 4 | ColT => 5 end.

Definition col_from_u16 (v : Z) : option ColumnId :=
  if v =? 0 then Some ColSId else if v =? 1 then Some ColPId else if v =? 2 then Some ColOType
  else if v =? 3 then Some ColOKey else if v =? 4 then Some ColOI else if v =? 5 then Some ColT else None.

Definition CODEC_ZSTD : Z := 1.

Record ColumnBlockRef := mkColRef {
  cr_col_id : Z; cr_codec : Z; cr_elem_width : Z; cr_offset : Z;
  cr_compressed_len : Z; cr_uncompressed_len : Z;
}.

Definition COLUMN_BLOCK_REF_SIZE : Z := 16.

Definition colref_write_le (r : ColumnBlockRef) : bytes :=
  le_bytes 2 (cr_col_id r) ++ [cr_codec r] ++ [cr_elem_width r] ++ le_bytes 4 (cr_offset r)
  ++ le_bytes 4 (cr_compressed_len r) ++ le_bytes 4 (cr_uncompressed_len r).

Definition colref_read_le (buf : bytes) : ColumnBlockRef :=
  mkColRef (le_int (slice buf 0 2)) (nth 2 buf 0) (nth 3 buf 0) (le_int (slice buf 4 8))
    (le_int (slice buf 8 12)) (le_int (slice buf 12 16)).

Definition element_count (r : ColumnBlockRef) : Z :=
  if cr_elem_width r =? 0 then 0 else cr_uncompressed_len r `div` cr_elem_width r.

(** [uN_slice_to_le_bytes] and [le_bytes_to_uN_vec], for [w]-byte elements. *)
Definition slice_to_le_bytes (w : nat) (values : list Z) : bytes := concat (le_bytes w <$> values).

Fixpoint chunks_exact (n w : nat) (data : bytes) : list bytes :=
  match n with
  | O => []
  | S n => take w data :: chunks_exact n w (drop w data)
  end.

Definition le_bytes_to_vec (w : nat) (data : bytes) : list Z :=
  le_int <$> chunks_exact (length data / w) w data.

Section zstd.
Context `{CZ : ColumnZstd}.

Definition encode_column (w : nat) (col_id : ColumnId) (values : list Z) (zstd_level : Z)
    : io (bytes * ColumnBlockRef) :=
  let raw := slice_to_le_bytes w values in
  compressed ← ok_or IoOther (zstd_bulk_compress raw zstd_level);
  mret (compressed, mkColRef (col_to_u16 col_id) CODEC_ZSTD (Z.of_nat w) 0
                      (as_u 32 (zlen compressed)) (as_u 32 (zlen raw))).

Definition encode_column_u64 := encode_column 8.
Definition encode_column_u32 := encode_column 4.
Definition encode_column_u16 := encode_column 2.

Definition decode_column (w : nat) (data : bytes) (r : ColumnBlockRef) : io (list Z) :=
  let start := cr_offset r in
  let end_ := start + cr_compressed_len r in
  if zlen data <? end_ then Err IoUnexpectedEof
  else
    decompressed ← ok_or IoInvalidData
      (zstd_bulk_decompress (slice data start end_) (cr_uncompressed_len r));
    mret (le_bytes_to_vec w decompressed).

Definition decode_column_u64 := decode_column 8.
Definition decode_column_u32 := decode_column 4.
Definition decode_column_u16 := decode_column 2.
End zstd.

(** ** Round trips *)

Lemma col_u16_roundtrip c : col_from_u16 (col_to_u16 c) = Some c.
Proof. by destruct c. Qed.

Record colref_wf (r : ColumnBlockRef) : Prop := {
  crw_id : in_u 16 (cr_col_id r); crw_off : in_u 32 (cr_offset r);
  crw_comp : in_u 32 (cr_compressed_len r); crw_raw : in_u 32 (cr_uncompressed_len r);
}.

Lemma colref_roundtrip r : colref_wf r -> colref_read_le (colref_write_le r) = r.
Proof.
  destruct r as [i c w o cl ul]. intros [Hi Ho Hc Hu]. cbn in Hi, Ho, Hc, Hu.
  unfold colref_read_le. read_fields.
Qed.

Lemma zlen_colref r : zlen (colref_write_le r) = COLUMN_BLOCK_REF_SIZE.
Proof. done. Qed.

Lemma length_slice_le w values : length (slice_to_le_bytes w values) = (length values * w)%nat.
Proof.
  unfold slice_to_le_bytes. induction values as [|v values IH]; [done|].
  rewrite fmap_cons, concat_cons, length_app, length_le_bytes, IH. cbn. lia.
Qed.

Lemma chunks_le w values rest : chunks_exact (length values) w (slice_to_le_bytes w values ++ rest) = le_bytes w <$> values.
Proof.
  unfold slice_to_le_bytes. induction values as [|v values IH]; [done|].
  rewrite fmap_cons, concat_cons, <- app_assoc. cbn [length chunks_exact].
  rewrite (take_app_length' _ _ w), (drop_app_length' _ _ w) by by rewrite length_le_bytes.
  by rewrite IH.
Qed.

Lemma le_vec_roundtrip w values :
  (0 < w)%nat -> Forall (in_u (8 * Z.of_nat w)) values ->
  le_bytes_to_vec w (slice_to_le_bytes w values) = values.
Proof.
  intros Hw Hv. unfold le_bytes_to_vec. rewrite length_slice_le, Nat.div_mul by lia.
  rewrite <- (app_nil_r (slice_to_le_bytes w values)), chunks_le.
  induction Hv as [|v values Hv _ IH]; [done|]. rewrite !fmap_cons, IH. by rewrite le_int_bytes.
Qed.

Section laws.
Context `{CZ : ColumnZstd, CZL : !ColumnZstdLaws}.

Definition with_offset (r : ColumnBlockRef) (off : Z) : ColumnBlockRef :=
  mkColRef (cr_col_id r) (cr_codec r) (cr_elem_width r) off (cr_compressed_len r) (cr_uncompressed_len r).

(** A column written somewhere in a buffer is read back from there. *)
Lemma block_roundtrip w col values level c r pre post off :
  (0 < w)%nat -> Forall (in_u (8 * Z.of_nat w)) values ->
  encode_column w col values level = Ok (c, r) ->
  zlen c < 2 ^ 32 -> Z.of_nat w * zlen values < 2 ^ 32 -> off = zlen pre ->
  decode_column w (pre ++ c ++ post) (with_offset r off) = Ok values.
Proof.
  intros Hw Hv He Hc Hlen ->. unfold encode_column in He.
  destruct (zstd_bulk_compress _ _) as [c'|] eqn:Ec; [|done]. cbn in He. injection He as <- <-. unfold decode_column, with_offset. cbn.
  pose proof (zlen_nonneg c'). pose proof (zlen_nonneg pre). pose proof (zlen_nonneg post).
  assert (zlen (slice_to_le_bytes w values) = Z.of_nat w * zlen values) as Hz
    by (unfold zlen; rewrite length_slice_le; lia).
  pose proof (zlen_nonneg values).
  rewrite !as_u_id by (unfold in_u; lia). rewrite !zlen_app. case_Z.
  rewrite slice_app by lia. rewrite (zstd_bulk_roundtrip _ _ _ _ Ec) by lia. cbn.
  by rewrite le_vec_roundtrip.
Qed.
End laws.

(** ** Leaflets on disk (format/leaflet.rs, read/column_loader.rs)

    [encode_leaflet] writes the rows of a leaflet as compressed columns; which
    columns depends on the sort order and on whether the predicate or the type
    is the same in every row.  [load_leaflet_columns] reads the columns of a
    projection back into a batch.  The segmentation that the writer expects of
    its input (one predicate, one type) is a debug assertion there. *)

Definition HAS_O_I : Z := Z.shiftl 1 0.
Definition HAS_O_TYPE_COL : Z := Z.shiftl 1 1.

Record EncodedLeaflet := mkEncoded {
  el_row_count : Z; el_lead_group_count : Z; el_first_key : bytes; el_last_key : bytes;
  el_p_const : option Z; el_o_type_const : option Z; el_flags : Z;
  el_column_refs : list ColumnBlockRef; el_payload : bytes;
}.

(** The places where adjacent records differ, plus one. *)
Fixpoint count_changes (same : RunRecordV2 -> RunRecordV2 -> bool) (prev : RunRecordV2)
    (rest : list RunRecordV2) : Z :=
  match rest with
  | [] => 1
  | r :: rest => (if same prev r then 0 else 1) + count_changes same r rest
  end.

Definition compute_lead_group_count (records : list RunRecordV2) (o : RunSortOrder) : Z :=
  match records with
  | [] => 0
  | r :: rest =>
      match o with
      | RPost | ROpst =>
          count_changes (fun a b => (rr_o_type b =? rr_o_type a) && (rr_o_key b =? rr_o_key a)) r rest
      | RPsot | RSpot => count_changes (fun a b => rr_s_id b =? rr_s_id a) r rest
      end
  end.

Definition all_type (ot : Z) (records : list RunRecordV2) : bool :=
  forallb (fun r => rr_o_type r =? ot) records.

Definition leaflet_p_const (o : RunSortOrder) (first : RunRecordV2) : option Z :=
  match o with RPost | RPsot => Some (rr_p_id first) | _ => None end.

Definition leaflet_o_type_const (o : RunSortOrder) (first : RunRecordV2) (records : list RunRecordV2)
    : option Z :=
  match o with
  | ROpst => Some (rr_o_type first)
  | RPost | RPsot => if all_type (rr_o_type first) records then Some (rr_o_type first) else None
  | RSpot => None
  end.

Definition column := (nat * ColumnId * list Z)%type.

(** The columns in the order they are appended. *)
Definition leaflet_columns (o : RunSortOrder) (o_type_const : option Z) (has_o_i : bool)
    (records : list RunRecordV2) : list column :=
  let s := (8%nat, ColSId, rr_s_id <$> records) in
  let ok := (8%nat, ColOKey, rr_o_key <$> records) in
  let t := (4%nat, ColT, rr_t <$> records) in
  let p := (4%nat, ColPId, rr_p_id <$> records) in
  let ot := match o_type_const with
            | None => [(2%nat, ColOType, rr_o_type <$> records)]
            | Some _ => []
            end in
  match o with
  | RPost => ot ++ [ok; s; t]
  | RPsot => [s] ++ ot ++ [ok; t]
  | RSpot => [s; p] ++ ot ++ [ok; t]
  | ROpst => [ok; p; s; t]
  end ++ (if has_o_i then [(4%nat, ColOI, rr_o_i <$> records)] else []).

Section encode.
Context `{CZ : ColumnZstd}.

Fixpoint append_columns (cols : list column) (zstd_level : Z) (payload : bytes)
    (refs : list ColumnBlockRef) : io (bytes * list ColumnBlockRef) :=
  match cols with
  | [] => mret (payload, refs)
  | (w, id, values) :: cols =>
      '(compressed, r) ← encode_column w id values zstd_level;
      append_columns cols zstd_level (payload ++ compressed)
        (refs ++ [with_offset r (as_u 32 (zlen payload))])
  end.

Definition encode_leaflet (records : list RunRecordV2) (o : RunSortOrder) (zstd_level : Z)
    : io EncodedLeaflet :=
  match records with
  | [] => Err IoInvalidInput
  | first :: _ =>
      let last_record := default first (last records) in
      let p_const := leaflet_p_const o first in
      let o_type_const := leaflet_o_type_const o first records in
      let has_o_i := existsb (fun r => negb (rr_o_i r =? LIST_INDEX_NONE)) records in
      let fl := Z.lor (if has_o_i then HAS_O_I else 0)
                  (match o_type_const with None => HAS_O_TYPE_COL | Some _ => 0 end) in
      '(payload, column_refs) ←
        append_columns (leaflet_columns o o_type_const has_o_i records) zstd_level [] [];
      mret (mkEncoded (as_u 32 (zlen records)) (compute_lead_group_count records o)
              (write_ordered_key_v2 o first) (write_ordered_key_v2 o last_record)
              p_const o_type_const fl column_refs payload)
  end.
End encode.

(** ** Directory entries and projections *)

Record LeafletDirEntryV3 := mkDirEntry {
  de_row_count : Z; de_lead_group_count : Z; de_first_key : bytes; de_last_key : bytes;
  de_p_const : option Z; de_o_type_const : option Z; de_flags : Z;
  de_payload_offset : Z; de_payload_len : Z; de_column_refs : list ColumnBlockRef;
  de_history_offset : Z; de_history_len : Z; de_history_min_t : Z; de_history_max_t : Z;
}.

(** A [ColumnSet] is a bit mask. *)
Definition cs_bit (c : ColumnId) : Z := Z.shiftl 1 (col_to_u16 c).
Definition CS_EMPTY : Z := 0.
Definition CS_CORE : Z := Z.lor (cs_bit ColSId) (Z.lor (cs_bit ColPId) (Z.lor (cs_bit ColOType) (cs_bit ColOKey))).
Definition CS_ALL : Z := Z.lor CS_CORE (Z.lor (cs_bit ColOI) (cs_bit ColT)).
Definition cs_contains (s : Z) (c : ColumnId) : bool := negb (Z.land s (cs_bit c) =? 0).
Definition cs_union (a b : Z) : Z := Z.lor a b.
Definition cs_insert (s : Z) (c : ColumnId) : Z := Z.lor s (cs_bit c).

Record ColumnProjection := mkProjection { cp_output : Z; cp_internal : Z }.
Definition cp_effective (p : ColumnProjection) : Z := cs_union (cp_output p) (cp_internal p).
Definition cp_all : ColumnProjection := mkProjection CS_ALL CS_EMPTY.

Section load.
Context `{CZ : ColumnZstd}.

Definition find_ref (entry : LeafletDirEntryV3) (id : ColumnId) : option ColumnBlockRef :=
  find (fun r => cr_col_id r =? col_to_u16 id) (de_column_refs entry).

(** The closures [decode_u64], [decode_u32] and [decode_u16_col].  The sum of
    the offsets is checked for overflow. *)
Definition decode_block (w : nat) (leaf_bytes : bytes) (entry : LeafletDirEntryV3) (payload_base : Z)
    (id : ColumnId) : io ColumnData :=
  r ← ok_or IoInvalidData (find_ref entry id);
  let start := as_u 32 (payload_base + de_payload_offset entry) in
  if 2 ^ 32 <=? cr_offset r + start then Panic
  else
    decoded ← decode_column w leaf_bytes (with_offset r (cr_offset r + start));
    if zlen decoded =? de_row_count entry then mret (ColBlock decoded) else Err IoInvalidData.

Definition load_leaflet_columns (leaf_bytes : bytes) (entry : LeafletDirEntryV3) (payload_base : Z)
    (projection : ColumnProjection) : io ColumnBatch :=
  let eff := cp_effective projection in
  let block w id := decode_block w leaf_bytes entry payload_base id in
  s ← (if cs_contains eff ColSId then block 8%nat ColSId else mret ColAbsentDefault);
  ok ← (if cs_contains eff ColOKey then block 8%nat ColOKey else mret ColAbsentDefault);
  p ← (if cs_contains eff ColPId then
         match de_p_const entry with Some p => mret (ColConst p) | None => block 4%nat ColPId end
       else mret ColAbsentDefault);
  ot ← (if cs_contains eff ColOType then
          match de_o_type_const entry with
          | Some ot => mret (ColConst ot)
          | None => if negb (Z.land (de_flags entry) HAS_O_TYPE_COL =? 0) then block 2%nat ColOType
                    else Err IoInvalidData
          end
        else mret ColAbsentDefault);
  oi ← (if cs_contains eff ColOI then
          if negb (Z.land (de_flags entry) HAS_O_I =? 0) then block 4%nat ColOI
          else mret (ColConst u32_max)
        else mret ColAbsentDefault);
  t ← (if cs_contains eff ColT then block 4%nat ColT else mret ColAbsentDefault);
  mret (mkBatch (Z.to_nat (de_row_count entry)) s ok p ot oi t).
End load.

(** ** Round trip of the columns *)

Section roundtrip.
Context `{CZ : ColumnZstd, CZL : !ColumnZstdLaws}.

Definition col_ok (c : column) : Prop :=
  (0 < c.1.1)%nat /\ Forall (in_u (8 * Z.of_nat c.1.1)) c.2 /\ Z.of_nat c.1.1 * zlen c.2 < 2 ^ 32.

(** The block of a column is found by its id and decodes wherever the payload
    stands. *)
Definition reads_column (payload : bytes) (refs : list ColumnBlockRef) (c : column) : Prop :=
  exists r, find (fun r => cr_col_id r =? col_to_u16 c.1.2) refs = Some r /\
    0 <= cr_offset r <= zlen payload /\
    forall pre post, decode_column c.1.1 (pre ++ payload ++ post) (with_offset r (zlen pre + cr_offset r)) = Ok c.2.

Lemma find_snoc {A} (p : A -> bool) l x :
  find p (l ++ [x]) = match find p l with Some y => Some y | None => if p x then Some x else None end.
Proof. induction l as [|y l IH]; cbn; [done|]. by destruct (p y). Qed.

Lemma reads_column_app payload refs c more r' :
  reads_column payload refs c -> reads_column (payload ++ more) (refs ++ [r']) c.
Proof.
  intros (r & Hf & Ho & Hd). exists r. split_and!; [by rewrite find_snoc, Hf|lia| |].
  - rewrite zlen_app. pose proof (zlen_nonneg more). lia.
  - intros pre post. rewrite <- (app_assoc payload). apply Hd.
Qed.

Lemma col_u16_inj c d : col_to_u16 c = col_to_u16 d -> c = d.
Proof. by destruct c, d. Qed.

Definition no_ref (refs : list ColumnBlockRef) (c : column) : Prop :=
  find (fun r => cr_col_id r =? col_to_u16 c.1.2) refs = None.

Lemma append_columns_spec cols : forall level payload refs payload' refs',
  Forall col_ok cols -> NoDup ((fun c : column => c.1.2) <$> cols) -> Forall (no_ref refs) cols ->
  Forall colref_wf refs ->
  append_columns cols level payload refs = Ok (payload', refs') -> zlen payload' < 2 ^ 32 ->
  (exists more, payload' = payload ++ more) /\ length refs' = (length refs + length cols)%nat /\
  (forall c, reads_column payload refs c -> reads_column payload' refs' c) /\
  Forall (reads_column payload' refs') cols /\ Forall colref_wf refs'.
Proof.
  induction cols as [|[[w id] values] cols IH]; intros level payload refs payload' refs' Hok Hnd Hno Hwf Ha Hz; cbn in Ha.
  - injection Ha as <- <-. split_and!; [exists []; by rewrite app_nil_r|cbn; lia|done|done|done].
  - apply outcome_bind_Ok in Ha as ([c r] & He & Ha).
    apply Forall_cons in Hok as [(Hw & Hv & Hl) Hok], Hno as [Hn Hno].
    rewrite fmap_cons in Hnd. apply NoDup_cons in Hnd as [Hid Hnd]. cbn in Hw, Hv, Hl, Hn, Hid.
    assert (cr_col_id r = col_to_u16 id /\ in_u 32 (cr_compressed_len r) /\ in_u 32 (cr_uncompressed_len r))
      as (Hcid & Hcl & Hul).
    { unfold encode_column in He. apply outcome_bind_Ok in He as (x & _ & [= <- <-]). cbn.
      split_and!; [done|apply as_u_range; lia|apply as_u_range; lia]. }
    pose proof (zlen_nonneg payload).
    set (r' := with_offset r (as_u 32 (zlen payload))) in *.
    assert (zlen payload <= zlen payload' /\ zlen c <= zlen payload') as [Hzp Hzc].
    { clear -Ha. revert Ha. generalize (refs ++ [r']). clear. revert payload c.
      induction cols as [|[[w id] values] cols IH]; intros payload c refs Ha; cbn in Ha.
      - injection Ha as <- <-. rewrite zlen_app. pose proof (zlen_nonneg payload). pose proof (zlen_nonneg c). lia.
      - apply outcome_bind_Ok in Ha as ([c' r'] & _ & Ha).
        apply IH in Ha as [H1 H2]. rewrite zlen_app in H1. pose proof (zlen_nonneg payload). pose proof (zlen_nonneg c). lia. }
    assert (as_u 32 (zlen payload) = zlen payload) as Hoff by (apply as_u_id; unfold in_u; lia).
    destruct (IH level (payload ++ c) (refs ++ [r']) payload' refs' Hok Hnd) as ((more & ->) & Hlen & Hkeep & Hcols & Hwf').
    + apply Forall_forall. intros d Hd. unfold no_ref. rewrite find_snoc.
      rewrite Forall_forall in Hno. rewrite (Hno d Hd). cbn. rewrite Hcid.
      destruct (Z.eqb_spec (col_to_u16 id) (col_to_u16 d.1.2)) as [E|]; [|done].
      destruct Hid. rewrite (col_u16_inj _ _ E). apply list_elem_of_fmap. eauto.
    + apply Forall_app. split; [done|]. constructor; [|constructor]. split; cbn; [|rewrite Hoff; unfold in_u; lia|done|done].
      rewrite Hcid. by destruct id.
    + done.
    + done.
    + split_and!; [exists (c ++ more); by rewrite app_assoc|rewrite Hlen, length_app; cbn; lia| | |done].
      * intros d Hd. by apply Hkeep, reads_column_app.
      * constructor; [|done]. apply Hkeep. exists r'. cbn. rewrite find_snoc, Hn. cbn. rewrite Hcid, Z.eqb_refl.
        split_and!; [done|rewrite Hoff; lia|rewrite Hoff, zlen_app; pose proof (zlen_nonneg c); lia|].
        intros pre post. rewrite <- (app_assoc payload), (app_assoc pre). unfold with_offset at 1. cbn.
        apply (block_roundtrip w id values level c r (pre ++ payload) post); try done; [lia|].
        rewrite zlen_app, Hoff. done.
Qed.

(** ** Loading an encoded leaflet *)

(** What the writer expects of the rows of a leaflet. *)
Record leaflet_rows_ok (o : RunSortOrder) (records : list RunRecordV2) : Prop := {
  lr_wf : Forall rr_wf records;
  lr_size : 8 * zlen records < 2 ^ 32;
  lr_p : (o = RPost \/ o = RPsot) -> forall a b, a ∈ records -> b ∈ records -> rr_p_id a = rr_p_id b;
  lr_ot : o = ROpst -> forall a b, a ∈ records -> b ∈ records -> rr_o_type a = rr_o_type b;
}.

Lemma leaflet_columns_ok o otc oi records :
  leaflet_rows_ok o records ->
  Forall col_ok (leaflet_columns o otc oi records) /\
  NoDup ((fun c : column => c.1.2) <$> leaflet_columns o otc oi records).
Proof.
  intros [Hwf Hsz _ _]. pose proof (zlen_nonneg records).
  assert (forall w id f, (0 < w <= 8)%nat -> (forall r, rr_wf r -> in_u (8 * Z.of_nat w) (f r)) ->
          col_ok (w, id, f <$> records)) as Hc.
  { intros w id f Hw Hf. unfold col_ok. cbn. split_and!; [lia| |rewrite zlen_fmap; nia].
    apply Forall_fmap. eapply Forall_impl; [done|]. intros r. apply Hf. }
  assert (col_ok (8%nat, ColSId, rr_s_id <$> records)) by (apply Hc; [lia|by intros r []]).
  assert (col_ok (8%nat, ColOKey, rr_o_key <$> records)) by (apply Hc; [lia|by intros r []]).
  assert (col_ok (4%nat, ColT, rr_t <$> records)) by (apply Hc; [lia|by intros r []]).
  assert (col_ok (4%nat, ColPId, rr_p_id <$> records)) by (apply Hc; [lia|by intros r []]).
  assert (col_ok (2%nat, ColOType, rr_o_type <$> records)) by (apply Hc; [lia|by intros r []]).
  assert (col_ok (4%nat, ColOI, rr_o_i <$> records)) by (apply Hc; [lia|by intros r []]).
  split; [|by destruct o, otc, oi; apply (bool_decide_unpack _); vm_compute].
  destruct o, otc, oi; repeat (apply Forall_cons; split; [done|]); apply Forall_nil; done.
Qed.

(** The entry describes the encoded leaflet at [base + offset]. *)
Record entry_for (e : EncodedLeaflet) (entry : LeafletDirEntryV3) : Prop := {
  ef_rows : de_row_count entry = el_row_count e;
  ef_first : de_first_key entry = el_first_key e;
  ef_last : de_last_key entry = el_last_key e;
  ef_p : de_p_const entry = el_p_const e;
  ef_ot : de_o_type_const entry = el_o_type_const e;
  ef_flags : de_flags entry = el_flags e;
  ef_refs : de_column_refs entry = el_column_refs e;
}.

Definition gives (c : ColumnData) (f : RunRecordV2 -> Z) (records : list RunRecordV2) : Prop :=
  forall i r, records !! i = Some r -> col_get c i = Ok (f r).

Lemma gives_block f records : gives (ColBlock (f <$> records)) f records.
Proof. intros i r Hi. cbn. by rewrite list_lookup_fmap, Hi. Qed.

Lemma gives_const v f records : (forall r, r ∈ records -> f r = v) -> gives (ColConst v) f records.
Proof. intros H i r Hi. cbn. rewrite H; [done|]. by eapply list_elem_of_lookup_2. Qed.

Lemma get_or_of_get c i v d : col_get c i = Ok v -> col_get_or c i d = Ok v.
Proof. by destruct c. Qed.

Lemma gives_holds n s ok p ot oi t records :
  n = length records -> gives s rr_s_id records -> gives ok rr_o_key records -> gives p rr_p_id records ->
  gives ot rr_o_type records -> gives oi rr_o_i records -> gives t rr_t records ->
  batch_holds (mkBatch n s ok p ot oi t) (drop_graph <$> records).
Proof.
  intros -> Hs Hok Hp Hot Hoi Ht. apply batch_holds_spec. split; [by rewrite length_fmap|].
  intros i r Hi. rewrite list_lookup_fmap in Hi. destruct (records !! i) as [x|] eqn:E; [|done].
  injection Hi as <-. unfold batch_row_to_record. cbn.
  rewrite (Hs i x E), (Hok i x E), (Hp i x E), (Hot i x E). cbn.
  by rewrite (get_or_of_get _ _ _ _ (Ht i x E)), (get_or_of_get _ _ _ _ (Hoi i x E)).
Qed.

Section load_encoded.
Context (e : EncodedLeaflet) (entry : LeafletDirEntryV3) (pre post : bytes) (base : Z).
Context (Hentry : entry_for e entry) (Hbase : base + de_payload_offset entry = zlen pre).
Context (Hsize : zlen pre + zlen (el_payload e) < 2 ^ 32).

Lemma decode_block_reads w id values :
  reads_column (el_payload e) (el_column_refs e) (w, id, values) -> zlen values = el_row_count e ->
  decode_block w (pre ++ el_payload e ++ post) entry base id = Ok (ColBlock values).
Proof.
  intros (r & Hf & Ho & Hd) Hz. unfold decode_block, find_ref. cbn in Hf.
  rewrite (ef_refs _ _ Hentry), Hf, Hbase. cbn. pose proof (zlen_nonneg pre).
  pose proof (zlen_nonneg (el_payload e)).
  rewrite as_u_id by (unfold in_u; lia). case_Z. rewrite Z.add_comm. cbn in Hd. rewrite Hd. cbn.
  by rewrite (ef_rows _ _ Hentry), Hz, Z.eqb_refl.
Qed.
End load_encoded.

Lemma encode_leaflet_inv records o level e :
  encode_leaflet records o level = Ok e -> leaflet_rows_ok o records -> zlen (el_payload e) < 2 ^ 32 ->
  exists first rest, records = first :: rest /\
    el_row_count e = zlen records /\ el_p_const e = leaflet_p_const o first /\
    el_o_type_const e = leaflet_o_type_const o first records /\
    el_flags e = Z.lor (if existsb (fun r => negb (rr_o_i r =? LIST_INDEX_NONE)) records then HAS_O_I else 0)
                   (match leaflet_o_type_const o first records with None => HAS_O_TYPE_COL | Some _ => 0 end) /\
    el_first_key e = write_ordered_key_v2 o first /\
    el_last_key e = write_ordered_key_v2 o (default first (last records)) /\
    Forall colref_wf (el_column_refs e) /\ (length (el_column_refs e) <= 6)%nat /\
    Forall (reads_column (el_payload e) (el_column_refs e))
      (leaflet_columns o (leaflet_o_type_const o first records)
         (existsb (fun r => negb (rr_o_i r =? LIST_INDEX_NONE)) records) records).
Proof.
  intros He Hok Hz. unfold encode_leaflet in He. destruct records as [|first rest]; [done|].
  apply outcome_bind_Ok in He as ([payload refs] & Ha & [= <-]). cbn [el_payload] in Hz.
  exists first, rest. set (records := first :: rest) in *.
  destruct (leaflet_columns_ok o (leaflet_o_type_const o first records)
              (existsb (fun r => negb (rr_o_i r =? LIST_INDEX_NONE)) records) records Hok) as [Hc Hnd].
  destruct (append_columns_spec _ level [] [] payload refs Hc Hnd) as (_ & Hlen & _ & Hcols & Hwf);
    [by apply Forall_true|done|done|done|].
  pose proof (zlen_nonneg records). destruct Hok as [_ Hsz _ _].
  split_and!; cbn [el_row_count el_p_const el_o_type_const el_flags el_first_key el_last_key el_column_refs el_payload];
    try done.
  - apply as_u_id. unfold in_u. lia.
  - rewrite Hlen. cbn [length Nat.add]. by destruct o, (leaflet_o_type_const _ first records), (existsb _ records); vm_compute; repeat constructor.
Qed.

Section load_batch.
Context (records : list RunRecordV2) (first : RunRecordV2) (o : RunSortOrder) (e : EncodedLeaflet).
Context (entry : LeafletDirEntryV3) (pre post : bytes) (base : Z).
Context (Hok : leaflet_rows_ok o records) (Hef : entry_for e entry) (Hfirst : first ∈ records).

Let hoi := existsb (fun r => negb (rr_o_i r =? LIST_INDEX_NONE)) records.
Let otc := leaflet_o_type_const o first records.
Let block w id := decode_block w (pre ++ el_payload e ++ post) entry base id.

Context (Hp : el_p_const e = leaflet_p_const o first) (Hot : el_o_type_const e = otc).
Context (Hfl : el_flags e = Z.lor (if hoi then HAS_O_I else 0)
                              (match otc with None => HAS_O_TYPE_COL | Some _ => 0 end)).
Context (Hblock : forall w id f, (w, id, f <$> records) ∈ leaflet_columns o otc hoi records ->
                    block w id = Ok (ColBlock (f <$> records))).

Lemma load_p :
  exists c, match de_p_const entry with Some p => mret (ColConst p) | None => block 4 ColPId end = Ok c /\
            gives c rr_p_id records.
Proof.
  rewrite (ef_p _ _ Hef), Hp. pose proof (lr_p _ _ Hok) as Hpp.
  destruct o; cbn [leaflet_p_const]; first
    [eexists; split; [done|]; apply gives_const; intros r Hr; apply Hpp; auto
    |rewrite (Hblock 4%nat ColPId rr_p_id) by (unfold leaflet_columns; destruct otc, hoi; set_solver);
     eexists; split; [done|]; apply gives_block].
Qed.

Lemma o_type_const_all ot : otc = Some ot -> forall r, r ∈ records -> rr_o_type r = ot.
Proof.
  unfold otc, leaflet_o_type_const. pose proof (lr_ot _ _ Hok) as Hoo. intros E r Hr.
  destruct o; [done| | |injection E as <-; by apply Hoo].
  all: destruct (all_type _ records) eqn:Ea; [|done]; injection E as <-;
    unfold all_type in Ea; rewrite forallb_forall in Ea; by apply Z.eqb_eq, Ea, list_elem_of_In.
Qed.

Lemma load_o_type :
  exists c, match de_o_type_const entry with
            | Some ot => mret (ColConst ot)
            | None => if negb (Z.land (de_flags entry) HAS_O_TYPE_COL =? 0) then block 2 ColOType
                      else Err IoInvalidData
            end = Ok c /\ gives c rr_o_type records.
Proof.
  pose proof o_type_const_all as Hall. rewrite (ef_ot _ _ Hef), Hot, (ef_flags _ _ Hef), Hfl.
  destruct otc as [ot|] eqn:Eo.
  - eexists. split; [done|]. by apply gives_const, Hall.
  - replace (negb (Z.land (Z.lor (if hoi then HAS_O_I else 0) HAS_O_TYPE_COL) HAS_O_TYPE_COL =? 0))
      with true by by destruct hoi.
    rewrite (Hblock 2%nat ColOType rr_o_type); [eexists; split; [done|]; apply gives_block|].
    unfold otc in Eo. unfold leaflet_columns. destruct o, hoi; try set_solver; done.
Qed.

Lemma no_list_index r : hoi = false -> r ∈ records -> rr_o_i r = u32_max.
Proof.
  intros Eh Hr. destruct (Z.eqb_spec (rr_o_i r) LIST_INDEX_NONE) as [->|Hne]; [done|].
  unfold hoi in Eh. rewrite <- not_true_iff_false, existsb_exists in Eh. destruct Eh. exists r.
  split; [by apply list_elem_of_In|]. by apply negb_true_iff, Z.eqb_neq.
Qed.

Lemma load_o_i :
  exists c, (if negb (Z.land (de_flags entry) HAS_O_I =? 0) then block 4 ColOI
             else mret (ColConst u32_max)) = Ok c /\ gives c rr_o_i records.
Proof.
  pose proof no_list_index as Hno. rewrite (ef_flags _ _ Hef), Hfl. destruct hoi eqn:Eh.
  - replace (negb (Z.land (Z.lor HAS_O_I (match otc with None => HAS_O_TYPE_COL | Some _ => 0 end)) HAS_O_I =? 0))
      with true by by destruct otc.
    rewrite (Hblock 4%nat ColOI rr_o_i) by (unfold leaflet_columns; destruct o, otc; set_solver).
    eexists. split; [done|]. apply gives_block.
  - replace (negb (Z.land (Z.lor 0 (match otc with None => HAS_O_TYPE_COL | Some _ => 0 end)) HAS_O_I =? 0))
      with false by by destruct otc.
    eexists. split; [done|]. apply gives_const. intros r. by apply Hno.
Qed.
End load_batch.

(** The columns of an encoded leaflet load as a batch of its rows. *)
Lemma load_encoded records o level e entry pre post base :
  encode_leaflet records o level = Ok e -> leaflet_rows_ok o records ->
  entry_for e entry -> base + de_payload_offset entry = zlen pre ->
  zlen pre + zlen (el_payload e) < 2 ^ 32 ->
  exists b, load_leaflet_columns (pre ++ el_payload e ++ post) entry base cp_all = Ok b /\
            batch_holds b (drop_graph <$> records).
Proof.
  intros He Hok Hef Hb Hz. pose proof (zlen_nonneg pre).
  destruct (encode_leaflet_inv records o level e He Hok ltac:(lia))
    as (first & rest & E & Hrc & Hp & Hot & Hfl & _ & _ & _ & _ & Hcols).
  assert (first ∈ records) as Hfirst by (rewrite E; left).
  assert (forall w id f, (w, id, f <$> records) ∈ leaflet_columns o (leaflet_o_type_const o first records)
            (existsb (fun r => negb (rr_o_i r =? LIST_INDEX_NONE)) records) records ->
          decode_block w (pre ++ el_payload e ++ post) entry base id = Ok (ColBlock (f <$> records))) as Hblock.
  { intros w id f Hin. apply (decode_block_reads e); try done; [|by rewrite zlen_fmap].
    rewrite Forall_forall in Hcols. by apply Hcols. }
  edestruct (load_p records) as (cp & Ecp & Hcp); [exact Hok|done|exact Hfirst|exact Hp|exact Hot|exact Hfl|exact Hblock|].
  edestruct (load_o_type records) as (ct & Ect & Hct); [exact Hok|done|exact Hfirst|exact Hp|exact Hot|exact Hfl|exact Hblock|].
  edestruct (load_o_i records) as (ci & Eci & Hci); [exact Hok|done|exact Hfirst|exact Hp|exact Hot|exact Hfl|exact Hblock|].
  unfold load_leaflet_columns. change (cs_contains (cp_effective cp_all) ?c) with true.
  rewrite (Hblock 8%nat ColSId rr_s_id), (Hblock 8%nat ColOKey rr_o_key), (Hblock 4%nat ColT rr_t)
    by (unfold leaflet_columns; destruct o, (leaflet_o_type_const _ first records), (existsb _ records); set_solver).
  cbn [mbind outcome_bind]. rewrite Ecp. cbn [mbind outcome_bind]. rewrite Ect. cbn [mbind outcome_bind].
  rewrite Eci. cbn [mbind outcome_bind]. eexists. split; [done|].
  apply gives_holds; try done; try apply gives_block.
  by rewrite (ef_rows _ _ Hef), Hrc, zlen_to_nat.
Qed.
End roundtrip.
