(* ===== verification/LeafBlob.v ===== *)
(** * Leaf blobs (format/leaf.rs)

    A leaf is a header, a directory with one entry per leaflet, and the
    leaflets' column blocks.  [build_leaf_blob_raw_keys] writes it;
    [decode_leaf_header_v3] and [decode_leaf_dir_v3_with_base] read it back. *)
From S2P Require Import Prelude Bytes Cmp Segment RunRecord Columns HistorySidecar Leaflet.
From stdpp Require Import base list numbers sorting gmap.
From Stdlib Require Import ZArith Lia.

Local Open Scope Z_scope.

(** ["FLI3"] *)
Definition LEAF_V3_MAGIC : bytes := [0x46; 0x4C; 0x49; 0x33].
Definition LEAF_V3_VERSION : Z := 1.
Definition LEAF_V3_HEADER_SIZE : Z := 72.

Definition compute_directory_size (leaflets : list EncodedLeaflet) : Z :=
  foldr (fun l n => 80 + zlen (el_column_refs l) * COLUMN_BLOCK_REF_SIZE + 20 + n) 0 leaflets.

(** The fields of a directory entry, in order. *)
Definition entry_fields (l : EncodedLeaflet) (offset : Z) (seg : option HistorySegmentRef) : list bytes :=
  let h := match seg with Some s => s | None => mkSegRef 0 0 0 0 end in
  [le_bytes 4 (el_row_count l); le_bytes 4 (el_lead_group_count l);
   el_first_key l; el_last_key l;
   le_bytes 4 (default u32_max (el_p_const l)); le_bytes 2 (default u16_max (el_o_type_const l));
   le_bytes 4 (el_flags l); le_bytes 4 offset; le_bytes 4 (as_u 32 (zlen (el_payload l)));
   le_bytes 2 (as_u 16 (zlen (el_column_refs l)));
   concat (colref_write_le <$> el_column_refs l);
   le_bytes 8 (sr_offset h); le_bytes 4 (sr_len h); le_bytes 4 (sr_min_t h); le_bytes 4 (sr_max_t h)].

Fixpoint directory_bytes (leaflets : list EncodedLeaflet) (segs : list HistorySegmentRef) (offset : Z) : bytes :=
  match leaflets with
  | [] => []
  | l :: rest =>
      concat (entry_fields l offset (head segs))
      ++ directory_bytes rest (tail segs) (offset + as_u 32 (zlen (el_payload l)))
  end.

Definition leaf_header_fields (o : RunSortOrder) (leaflets : list EncodedLeaflet) (first_key last_key : bytes)
    : list bytes :=
  [LEAF_V3_MAGIC; [LEAF_V3_VERSION]; [order_to_wire_id o]; replicate 2 0;
   le_bytes 4 (as_u 32 (zlen leaflets)); le_bytes 8 (foldr (fun l n => el_row_count l + n) 0 leaflets);
   first_key; last_key].

Definition build_leaf_blob_raw_keys (o : RunSortOrder) (leaflets : list EncodedLeaflet)
    (history_seg_refs : list HistorySegmentRef) (first_key last_key : bytes) : bytes :=
  concat (leaf_header_fields o leaflets first_key last_key)
  ++ directory_bytes leaflets history_seg_refs 0
  ++ concat (el_payload <$> leaflets).

Definition build_leaf_blob (o : RunSortOrder) (leaflets : list EncodedLeaflet)
    (history_seg_refs : list HistorySegmentRef) (first_record last_record : RunRecordV2) : bytes :=
  build_leaf_blob_raw_keys o leaflets history_seg_refs
    (write_ordered_key_v2 o first_record) (write_ordered_key_v2 o last_record).

(** ** Decoding *)

Record LeafHeaderV3 := mkLeafHeader {
  lh_version : Z; lh_order : RunSortOrder; lh_leaflet_count : Z; lh_total_rows : Z;
  lh_first_key : bytes; lh_last_key : bytes;
}.

Definition decode_leaf_header_v3 (data : bytes) : io LeafHeaderV3 :=
  if zlen data <? LEAF_V3_HEADER_SIZE then Err IoUnexpectedEof
  else if negb (bool_decide (slice data 0 4 = LEAF_V3_MAGIC)) then Err IoInvalidData
  else
    o ← ok_or IoInvalidData (order_from_u8 (le_int (slice data 5 6)));
    mret (mkLeafHeader (le_int (slice data 4 5)) o (le_int (slice data 8 12)) (le_int (slice data 12 20))
            (slice data 20 46) (slice data 46 72)).

Definition unsentinel (max raw : Z) : option Z := if raw =? max then None else Some raw.

Fixpoint decode_refs (data : bytes) (pos : Z) (n : nat) : io (list ColumnBlockRef) :=
  match n with
  | O => mret []
  | S n =>
      if zlen data <? pos + COLUMN_BLOCK_REF_SIZE then Err IoUnexpectedEof
      else
        rs ← decode_refs data (pos + COLUMN_BLOCK_REF_SIZE) n;
        mret (colref_read_le (slice data pos (pos + COLUMN_BLOCK_REF_SIZE)) :: rs)
  end.

Definition decode_entry (data : bytes) (pos : Z) : io (LeafletDirEntryV3 * Z) :=
  if zlen data <? pos + 80 then Err IoUnexpectedEof
  else
    let u i j := le_int (slice data (pos + i) (pos + j)) in
    let column_count := u 78 80 in
    refs ← decode_refs data (pos + 80) (Z.to_nat column_count);
    let hpos := pos + 80 + column_count * COLUMN_BLOCK_REF_SIZE in
    let h i j := le_int (slice data (hpos + i) (hpos + j)) in
    if zlen data <? hpos + 20 then Err IoUnexpectedEof
    else mret (mkDirEntry (u 0 4) (u 4 8) (slice data (pos + 8) (pos + 34)) (slice data (pos + 34) (pos + 60))
                 (unsentinel u32_max (u 60 64)) (unsentinel u16_max (u 64 66)) (u 66 70) (u 70 74) (u 74 78)
                 refs (h 0 8) (h 8 12) (h 12 16) (h 16 20), hpos + 20).

Fixpoint decode_entries (data : bytes) (pos : Z) (n : nat) : io (list LeafletDirEntryV3 * Z) :=
  match n with
  | O => mret ([], pos)
  | S n =>
      '(e, pos) ← decode_entry data pos;
      '(es, pos) ← decode_entries data pos n;
      mret (e :: es, pos)
  end.

Record DecodedLeafDirV3 := mkDecodedDir { dd_entries : list LeafletDirEntryV3; dd_payload_base : Z }.

Definition decode_leaf_dir_v3_with_base (data : bytes) (header : LeafHeaderV3) : io DecodedLeafDirV3 :=
  '(entries, pos) ← decode_entries data LEAF_V3_HEADER_SIZE (Z.to_nat (lh_leaflet_count header));
  mret (mkDecodedDir entries pos).

(** ** Fields in a buffer *)

Definition sumZ (l : list Z) : Z := foldr Z.add 0 l.

Lemma concat_split {A} (fs : list (list A)) i f :
  fs !! i = Some f -> concat fs = concat (take i fs) ++ f ++ concat (drop (S i) fs).
Proof.
  intros H. rewrite <- (take_drop_middle fs i f H) at 1. rewrite concat_app, concat_cons. done.
Qed.

Lemma zlen_concat (fs : list bytes) ns : Forall2 (fun f n => zlen f = n) fs ns -> zlen (concat fs) = sumZ ns.
Proof. induction 1 as [|f n fs ns Hf _ IH]; [done|]. by rewrite concat_cons, zlen_app, IH, Hf. Qed.

(** Field [i] of a buffer, by the lengths of the fields before it. *)
Lemma slice_field_at (fs : list bytes) ns i f n pre post a b :
  Forall2 (fun f n => zlen f = n) fs ns -> fs !! i = Some f -> ns !! i = Some n ->
  a = zlen pre + sumZ (take i ns) -> b = a + n ->
  slice (pre ++ concat fs ++ post) a b = f.
Proof.
  intros HF Hf Hn -> ->. rewrite (concat_split fs i f Hf), <- !app_assoc, (app_assoc pre).
  apply slice_app.
  - rewrite zlen_app. f_equal. symmetry. apply zlen_concat. by apply Forall2_take.
  - rewrite zlen_app, (zlen_concat _ (take i ns)) by by apply Forall2_take.
    assert (zlen f = n) by (by eapply (Forall2_lookup_lr _ _ _ _ _ _ HF)). lia.
Qed.

(** ** The directory *)

Record encoded_ok (l : EncodedLeaflet) : Prop := {
  eo_rows : in_u 32 (el_row_count l); eo_lead : in_u 32 (el_lead_group_count l);
  eo_first : zlen (el_first_key l) = ORDERED_KEY_V2_SIZE; eo_last : zlen (el_last_key l) = ORDERED_KEY_V2_SIZE;
  eo_p : forall p, el_p_const l = Some p -> 0 <= p < u32_max;
  eo_ot : forall t, el_o_type_const l = Some t -> 0 <= t < u16_max;
  eo_flags : in_u 32 (el_flags l); eo_payload : zlen (el_payload l) < 2 ^ 32;
  eo_refs : zlen (el_column_refs l) < 2 ^ 16; eo_refs_wf : Forall colref_wf (el_column_refs l);
}.

Record seg_ok (s : HistorySegmentRef) : Prop := {
  so_offset : in_u 64 (sr_offset s); so_len : in_u 32 (sr_len s);
  so_min : in_u 32 (sr_min_t s); so_max : in_u 32 (sr_max_t s);
}.

Definition seg_or_zero (seg : option HistorySegmentRef) : HistorySegmentRef :=
  match seg with Some s => s | None => mkSegRef 0 0 0 0 end.

(** The entry that reading the directory gives for a leaflet. *)
Definition entry_of (l : EncodedLeaflet) (offset : Z) (seg : option HistorySegmentRef) : LeafletDirEntryV3 :=
  let h := seg_or_zero seg in
  mkDirEntry (el_row_count l) (el_lead_group_count l) (el_first_key l) (el_last_key l)
    (el_p_const l) (el_o_type_const l) (el_flags l) offset (zlen (el_payload l)) (el_column_refs l)
    (sr_offset h) (sr_len h) (sr_min_t h) (sr_max_t h).

Lemma unsentinel_default max (o : option Z) :
  (forall p, o = Some p -> 0 <= p < max) -> unsentinel max (default max o) = o.
Proof.
  intros H. unfold unsentinel. destruct o as [p|]; cbn; [|by rewrite Z.eqb_refl].
  specialize (H p eq_refl). case_Z. done.
Qed.

Lemma decode_refs_write refs : forall data pos pre post,
  Forall colref_wf refs -> data = pre ++ concat (colref_write_le <$> refs) ++ post -> pos = zlen pre ->
  decode_refs data pos (length refs) = Ok refs.
Proof.
  induction refs as [|r refs IH]; intros data pos pre post Hwf -> ->; [done|].
  apply Forall_cons in Hwf as [Hr Hwf]. cbn [length decode_refs].
  rewrite fmap_cons, concat_cons, <- app_assoc.
  rewrite !zlen_app, zlen_colref. unfold COLUMN_BLOCK_REF_SIZE in *.
  pose proof (zlen_nonneg (concat (colref_write_le <$> refs))). pose proof (zlen_nonneg post). case_Z.
  rewrite (IH _ _ (pre ++ colref_write_le r) post); [|done|by rewrite <- !app_assoc|by rewrite zlen_app].
  rewrite (slice_app pre (colref_write_le r)) by done. by rewrite colref_roundtrip.
Qed.

Lemma zlen_colrefs refs : zlen (concat (colref_write_le <$> refs)) = COLUMN_BLOCK_REF_SIZE * zlen refs.
Proof.
  induction refs as [|r refs IH]; [done|]. rewrite fmap_cons, concat_cons, zlen_app, zlen_cons, IH.
  change (zlen (colref_write_le r)) with COLUMN_BLOCK_REF_SIZE. lia.
Qed.

Definition entry_lengths (l : EncodedLeaflet) : list Z :=
  [4; 4; 26; 26; 4; 2; 4; 4; 4; 2; 16 * zlen (el_column_refs l); 8; 4; 4; 4].

Lemma entry_fields_lengths l off seg :
  encoded_ok l -> Forall2 (fun f n => zlen f = n) (entry_fields l off seg) (entry_lengths l).
Proof. intros []. unfold entry_fields, entry_lengths. repeat constructor; try done. apply zlen_colrefs. Qed.

Lemma field_int w z (fs : list bytes) ns i pre post a b :
  in_u (8 * Z.of_nat w) z -> Forall2 (fun f n => zlen f = n) fs ns ->
  fs !! i = Some (le_bytes w z) -> ns !! i = Some (Z.of_nat w) ->
  a = zlen pre + sumZ (take i ns) -> b = a + Z.of_nat w ->
  le_int (slice (pre ++ concat fs ++ post) a b) = z.
Proof. intros Hz HF Hf Hn Ha Hb. rewrite (slice_field_at fs ns i _ _ pre post _ _ HF Hf Hn Ha Hb). by apply le_int_bytes. Qed.

Section entry.
Context (l : EncodedLeaflet) (off : Z) (seg : option HistorySegmentRef) (pre post : bytes).
Context (Hl : encoded_ok l) (Hoff : in_u 32 off) (Hseg : forall s, seg = Some s -> seg_ok s).

Let fields := entry_fields l off seg.
Let data := pre ++ concat fields ++ post.

Lemma entry_size : sumZ (entry_lengths l) = 100 + 16 * zlen (el_column_refs l).
Proof. cbn. lia. Qed.

Lemma zlen_entry_data : zlen data = zlen pre + (100 + 16 * zlen (el_column_refs l)) + zlen post.
Proof.
  unfold data, fields. rewrite !zlen_app, (zlen_concat _ _ (entry_fields_lengths l off seg Hl)), entry_size. lia.
Qed.

Lemma entry_int w z i a b :
  in_u (8 * Z.of_nat w) z -> fields !! i = Some (le_bytes w z) -> entry_lengths l !! i = Some (Z.of_nat w) ->
  a = zlen pre + sumZ (take i (entry_lengths l)) -> b = a + Z.of_nat w -> le_int (slice data a b) = z.
Proof.
  intros. pose proof (entry_fields_lengths l off seg Hl).
  by apply (field_int w z fields (entry_lengths l) i).
Qed.

Lemma entry_key f i a b :
  fields !! i = Some f -> entry_lengths l !! i = Some 26 ->
  a = zlen pre + sumZ (take i (entry_lengths l)) -> b = a + 26 -> slice data a b = f.
Proof.
  intros. pose proof (entry_fields_lengths l off seg Hl).
  by apply (slice_field_at fields (entry_lengths l) i f 26).
Qed.

Lemma entry_refs : decode_refs data (zlen pre + 80) (length (el_column_refs l)) = Ok (el_column_refs l).
Proof.
  apply (decode_refs_write _ _ _ (pre ++ concat (take 10 fields)) (concat (drop 11 fields) ++ post)).
  - apply Hl.
  - unfold data. rewrite (concat_split fields 10 (concat (colref_write_le <$> el_column_refs l)) eq_refl).
    by rewrite <- !app_assoc.
  - rewrite zlen_app, (zlen_concat _ (take 10 (entry_lengths l))); [done|].
    by apply Forall2_take, entry_fields_lengths.
Qed.

Lemma entry_counts :
  as_u 32 (zlen (el_payload l)) = zlen (el_payload l) /\
  as_u 16 (zlen (el_column_refs l)) = zlen (el_column_refs l).
Proof.
  destruct Hl. pose proof (zlen_nonneg (el_payload l)). pose proof (zlen_nonneg (el_column_refs l)).
  split; apply as_u_id; unfold in_u; lia.
Qed.

Lemma entry_consts : in_u 32 (default u32_max (el_p_const l)) /\ in_u 16 (default u16_max (el_o_type_const l)).
Proof.
  destruct Hl as [_ _ _ _ Hp Hot _ _ _ _]. unfold in_u, u32_max, u16_max in *. split.
  - destruct (el_p_const l) as [p|]; cbn; [specialize (Hp p eq_refl)|]; lia.
  - destruct (el_o_type_const l) as [t|]; cbn; [specialize (Hot t eq_refl)|]; lia.
Qed.

Ltac entry_field w z i := rewrite (entry_int w z i); [|done|done|done|cbn; lia|cbn; lia].

Lemma decode_entry_bytes :
  decode_entry data (zlen pre) = Ok (entry_of l off seg, zlen pre + zlen (concat fields)).
Proof.
  pose proof (zlen_nonneg (el_column_refs l)). pose proof (zlen_nonneg post).
  unfold fields. rewrite (zlen_concat _ _ (entry_fields_lengths l off seg Hl)), entry_size.
  destruct entry_counts as [Epay Eref], entry_consts as [Hp Hot].
  assert (in_u 16 (as_u 16 (zlen (el_column_refs l)))) as Hcc by by apply as_u_range.
  assert (in_u 32 (as_u 32 (zlen (el_payload l)))) as Hpl by by apply as_u_range.
  assert (seg_ok (seg_or_zero seg)) as [Ho Hln Hmin Hmax] by (destruct seg as [s|]; [by apply Hseg|by split]).
  pose proof zlen_entry_data as Hz. unfold decode_entry.
  destruct (Z.ltb_spec (zlen data) (zlen pre + 80)); [lia|].
  entry_field 2%nat (as_u 16 (zlen (el_column_refs l))) 9%nat.
  rewrite Eref, zlen_to_nat, entry_refs. cbn [mbind outcome_bind]. unfold COLUMN_BLOCK_REF_SIZE.
  destruct (Z.ltb_spec (zlen data) (zlen pre + 80 + zlen (el_column_refs l) * 16 + 20)); [lia|].
  destruct Hl as [Hr Hlead Hfk Hlk Hpc Hotc Hflags _ _ _]. unfold mret, outcome_ret.
  entry_field 4%nat (el_row_count l) 0%nat. entry_field 4%nat (el_lead_group_count l) 1%nat.
  rewrite (entry_key (el_first_key l) 2), (entry_key (el_last_key l) 3) by (done || cbn; lia).
  entry_field 4%nat (default u32_max (el_p_const l)) 4%nat.
  entry_field 2%nat (default u16_max (el_o_type_const l)) 5%nat.
  entry_field 4%nat (el_flags l) 6%nat. entry_field 4%nat off 7%nat.
  entry_field 4%nat (as_u 32 (zlen (el_payload l))) 8%nat.
  entry_field 8%nat (sr_offset (seg_or_zero seg)) 11%nat. entry_field 4%nat (sr_len (seg_or_zero seg)) 12%nat.
  entry_field 4%nat (sr_min_t (seg_or_zero seg)) 13%nat. entry_field 4%nat (sr_max_t (seg_or_zero seg)) 14%nat.
  rewrite !unsentinel_default, Epay by done. unfold entry_of. do 2 f_equal. lia.
Qed.
End entry.

(** ** The leaf *)

(** Each leaflet with the offset of its payload and its history segment. *)
Fixpoint placed (leaflets : list EncodedLeaflet) (segs : list HistorySegmentRef) (offset : Z)
    : list LeafletDirEntryV3 :=
  match leaflets with
  | [] => []
  | l :: rest => entry_of l offset (head segs) :: placed rest (tail segs) (offset + zlen (el_payload l))
  end.

Definition payload_size (leaflets : list EncodedLeaflet) : Z := zlen (concat (el_payload <$> leaflets)).

Lemma decode_entries_bytes leaflets : forall segs off pre post,
  Forall encoded_ok leaflets -> Forall seg_ok segs -> 0 <= off -> off + payload_size leaflets < 2 ^ 32 ->
  decode_entries (pre ++ directory_bytes leaflets segs off ++ post) (zlen pre) (length leaflets)
  = Ok (placed leaflets segs off, zlen pre + zlen (directory_bytes leaflets segs off)).
Proof.
  induction leaflets as [|l rest IH]; intros segs off pre post Hl Hs Hoff Hsz; cbn [length decode_entries directory_bytes placed].
  - by rewrite zlen_nil, Z.add_0_r.
  - apply Forall_cons in Hl as [Hl Hrest]. unfold payload_size in Hsz. rewrite fmap_cons, concat_cons, zlen_app in Hsz.
    pose proof (zlen_nonneg (el_payload l)). pose proof (zlen_nonneg (concat (el_payload <$> rest))).
    rewrite <- app_assoc, decode_entry_bytes; [|done|unfold in_u; lia|].
    2: { intros s E. destruct segs as [|s' segs]; [done|]. injection E as ->. by apply Forall_cons in Hs as [? _]. }
    cbn [mbind outcome_bind]. rewrite (proj1 (entry_counts l Hl)).
    rewrite (app_assoc pre), <- zlen_app, IH; [|done| |lia|unfold payload_size; lia].
    + cbn [mbind outcome_bind]. rewrite !zlen_app. unfold mret, outcome_ret. do 2 f_equal. lia.
    + destruct segs; [done|]. by apply Forall_cons in Hs as [_ ?].
Qed.

Definition header_lengths : list Z := [4; 1; 1; 2; 4; 8; 26; 26].

Lemma header_fields_lengths o leaflets fk lk :
  zlen fk = ORDERED_KEY_V2_SIZE -> zlen lk = ORDERED_KEY_V2_SIZE ->
  Forall2 (fun f n => zlen f = n) (leaf_header_fields o leaflets fk lk) header_lengths.
Proof. intros. repeat constructor; done. Qed.

Section leaf.
Context (o : RunSortOrder) (leaflets : list EncodedLeaflet) (segs : list HistorySegmentRef) (fk lk : bytes).
Context (Hfk : zlen fk = ORDERED_KEY_V2_SIZE) (Hlk : zlen lk = ORDERED_KEY_V2_SIZE).
Context (Hl : Forall encoded_ok leaflets) (Hs : Forall seg_ok segs).
Context (Hcount : zlen leaflets < 2 ^ 32) (Hsz : payload_size leaflets < 2 ^ 32).
Context (Hrows : foldr (fun l n => el_row_count l + n) 0 leaflets < 2 ^ 64).

Let data := build_leaf_blob_raw_keys o leaflets segs fk lk.

Lemma rows_nonneg : 0 <= foldr (fun l n => el_row_count l + n) 0 leaflets.
Proof.
  clear -Hl. induction leaflets as [|l ls IH]; cbn; [lia|]. apply Forall_cons in Hl as [Hok Hls].
  pose proof (eo_rows l Hok) as [? _]. specialize (IH Hls). lia.
Qed.

Lemma decode_header_blob :
  decode_leaf_header_v3 data =
  Ok (mkLeafHeader LEAF_V3_VERSION o (zlen leaflets) (foldr (fun l n => el_row_count l + n) 0 leaflets) fk lk).
Proof.
  pose proof (header_fields_lengths o leaflets fk lk Hfk Hlk) as HF. pose proof rows_nonneg.
  pose proof (zlen_nonneg leaflets).
  assert (forall i f n a b, leaf_header_fields o leaflets fk lk !! i = Some f -> header_lengths !! i = Some n ->
            a = sumZ (take i header_lengths) -> b = a + n -> slice data a b = f) as Hf.
  { intros i f n a b Hi Hn Ha Hb. by apply (slice_field_at _ header_lengths i f n []). }
  unfold decode_leaf_header_v3. assert (72 <= zlen data) as Hz.
  { unfold data, build_leaf_blob_raw_keys. rewrite !zlen_app, (zlen_concat _ _ HF).
    match goal with |- _ <= _ + (zlen ?a + zlen ?b) => pose proof (zlen_nonneg a); pose proof (zlen_nonneg b) end.
    change (sumZ header_lengths) with 72. lia. }
  unfold LEAF_V3_HEADER_SIZE. case_Z.
  rewrite (Hf 0%nat LEAF_V3_MAGIC 4 0 4), (Hf 1%nat [LEAF_V3_VERSION] 1 4 5), (Hf 2%nat [order_to_wire_id o] 1 5 6),
    (Hf 4%nat (le_bytes 4 (as_u 32 (zlen leaflets))) 4 8 12),
    (Hf 5%nat (le_bytes 8 (foldr (fun l n => el_row_count l + n) 0 leaflets)) 8 12 20),
    (Hf 6%nat fk 26 20 46), (Hf 7%nat lk 26 46 72) by done.
  rewrite bool_decide_eq_true_2, as_u_id, !le_int_bytes by (done || unfold in_u; cbn; lia).
  cbn [negb le_int]. rewrite Z.mul_0_r, !Z.add_0_r, order_wire_roundtrip. done.
Qed.

Lemma decode_dir_blob :
  exists base, base = LEAF_V3_HEADER_SIZE + zlen (directory_bytes leaflets segs 0) /\
    (header ← decode_leaf_header_v3 data; decode_leaf_dir_v3_with_base data header)
    = Ok (mkDecodedDir (placed leaflets segs 0) base).
Proof.
  eexists. split; [done|]. rewrite decode_header_blob. cbn [mbind outcome_bind].
  unfold decode_leaf_dir_v3_with_base. cbn [lh_leaflet_count]. rewrite zlen_to_nat.
  pose proof (zlen_concat _ _ (header_fields_lengths o leaflets fk lk Hfk Hlk)) as Hz.
  change (sumZ header_lengths) with LEAF_V3_HEADER_SIZE in Hz. rewrite <- Hz. unfold data, build_leaf_blob_raw_keys.
  rewrite decode_entries_bytes by (done || lia). done.
Qed.
End leaf.

(** ** A leaf gives back its leaflets

    Encoding lists of rows as leaflets, assembling the leaf blob, decoding its
    header and directory and loading the columns of each entry gives the rows
    back, with the routing keys and the history references that were written. *)

Lemma placed_lookup leaflets : forall segs off i l,
  leaflets !! i = Some l ->
  placed leaflets segs off !! i =
  Some (entry_of l (off + payload_size (take i leaflets)) (segs !! i)).
Proof.
  induction leaflets as [|x leaflets IH]; intros segs off i l; [done|].
  destruct i as [|i]; cbn [placed lookup list_lookup].
  - intros [= ->]. cbn. unfold payload_size. cbn. rewrite Z.add_0_r. by destruct segs.
  - intros Hi. change ((placed leaflets (tail segs) (off + zlen (el_payload x))) !! i = Some (entry_of l (off + payload_size (take (S i) (x :: leaflets))) (segs !! S i))).
    rewrite (IH _ _ _ _ Hi). unfold payload_size. cbn [take]. rewrite fmap_cons, concat_cons, zlen_app, Z.add_assoc.
    by destruct segs as [|s segs]; [destruct i|].
Qed.

Lemma length_placed leaflets : forall segs off, length (placed leaflets segs off) = length leaflets.
Proof. induction leaflets as [|l ls IH]; intros; cbn; [done|]. by rewrite IH. Qed.

Lemma entry_of_for l off seg : entry_for l (entry_of l off seg).
Proof. done. Qed.

Lemma count_changes_bound same rest : forall r, 1 <= count_changes same r rest <= 1 + zlen rest.
Proof.
  induction rest as [|x rest IH]; intros r; cbn; [rewrite zlen_nil; lia|]. rewrite zlen_cons. specialize (IH x).
  destruct (same r x); lia.
Qed.

Lemma lead_groups_bound records o : 0 <= compute_lead_group_count records o <= zlen records.
Proof.
  destruct records as [|r rest]; [done|]. rewrite zlen_cons.
  unfold compute_lead_group_count. destruct o;
    match goal with |- context [count_changes ?s r rest] => pose proof (count_changes_bound s rest r) end; lia.
Qed.

(** The constants of a directory entry use the greatest value for "none". *)
Definition no_sentinel (records : list RunRecordV2) : Prop :=
  Forall (fun r => rr_p_id r < u32_max /\ rr_o_type r < u16_max) records.

Section leaf_roundtrip.
Context `{CZ : ColumnZstd, CZL : !ColumnZstdLaws}.

Lemma encoded_of_rows records o level l :
  encode_leaflet records o level = Ok l -> leaflet_rows_ok o records -> no_sentinel records ->
  zlen (el_payload l) < 2 ^ 32 -> encoded_ok l.
Proof.
  intros He Hok Hns Hz.
  destruct (encode_leaflet_inv records o level l He Hok Hz)
    as (first & rest & E & Hrc & Hp & Hot & Hfl & Hfk & Hlk & Hwf & Hn & _).
  assert (el_lead_group_count l = compute_lead_group_count records o) as Hlead.
  { rewrite E in He. cbn in He. apply outcome_bind_Ok in He as ([pl rf] & _ & [= <-]). by rewrite E. }
  pose proof (lr_size _ _ Hok) as Hsz. pose proof (lead_groups_bound records o).
  assert (first ∈ records) as Hin by (rewrite E; left).
  pose proof (lr_wf _ _ Hok) as Hwfs. rewrite Forall_forall in Hwfs.
  unfold no_sentinel in Hns. rewrite Forall_forall in Hns.
  destruct (Hns first Hin) as [Hpm Hotm], (Hwfs first Hin) as [_ _ Hpw _ _ Hotw _].
  assert (default first (last records) ∈ records) as Hlast.
  { destruct (last records) as [x|] eqn:El; cbn; [by apply last_Some_elem_of|done]. }
  unfold in_u in *. split.
  - rewrite Hrc. pose proof (zlen_nonneg records). unfold in_u. lia.
  - rewrite Hlead. unfold in_u. lia.
  - rewrite Hfk. by apply ordered_key_roundtrip, Hwfs.
  - rewrite Hlk. by apply ordered_key_roundtrip, Hwfs.
  - rewrite Hp. intros p Ep. unfold leaflet_p_const in Ep. destruct o; simplify_eq; lia.
  - rewrite Hot. intros t Et. unfold leaflet_o_type_const in Et.
    destruct o; [done|destruct (all_type _ _)|destruct (all_type _ _)|]; simplify_eq; lia.
  - rewrite Hfl. by destruct (existsb _ records), (leaflet_o_type_const o first records).
  - done.
  - unfold zlen. lia.
  - done.
Qed.

Lemma payload_take leaflets i l :
  leaflets !! i = Some l -> payload_size (take i leaflets) + zlen (el_payload l) <= payload_size leaflets.
Proof.
  intros Hi. unfold payload_size.
  rewrite (concat_split (el_payload <$> leaflets) i (el_payload l)) by by rewrite list_lookup_fmap, Hi.
  rewrite fmap_take, !zlen_app.
  pose proof (zlen_nonneg (concat (drop (S i) (el_payload <$> leaflets)))). lia.
Qed.

Section blob.
Context (o : RunSortOrder) (level : Z) (rss : list (list RunRecordV2)) (leaflets : list EncodedLeaflet).
Context (segs : list HistorySegmentRef) (fk lk : bytes).
Context (HF : Forall2 (fun rs l => encode_leaflet rs o level = Ok l) rss leaflets).
Context (Hrows : Forall (leaflet_rows_ok o) rss).

Let hdr := concat (leaf_header_fields o leaflets fk lk).
Let dirb := directory_bytes leaflets segs 0.
Let data := build_leaf_blob_raw_keys o leaflets segs fk lk.

Lemma zlen_blob : zlen data = zlen hdr + zlen dirb + payload_size leaflets.
Proof. unfold data, build_leaf_blob_raw_keys. rewrite !zlen_app. unfold payload_size, hdr, dirb. lia. Qed.

Lemma leaflets_encoded : Forall no_sentinel rss -> payload_size leaflets < 2 ^ 32 -> Forall encoded_ok leaflets.
Proof.
  intros Hns Hz. apply Forall_lookup. intros i l Hi. destruct (Forall2_lookup_r _ _ _ _ _ HF Hi) as (rs & Hrs & He).
  eapply encoded_of_rows; [done|by eapply Forall_lookup_1|by eapply Forall_lookup_1|].
  pose proof (payload_take leaflets i l Hi). pose proof (zlen_nonneg (concat (el_payload <$> take i leaflets))).
  unfold payload_size in *. lia.
Qed.

(** Loading the entry of leaflet [i] at the end of the directory. *)
Lemma load_leaflet_at i rs l :
  rss !! i = Some rs -> leaflets !! i = Some l -> zlen data < 2 ^ 32 ->
  exists b, load_leaflet_columns data (entry_of l (payload_size (take i leaflets)) (segs !! i))
              (zlen hdr + zlen dirb) cp_all = Ok b /\ batch_holds b (drop_graph <$> rs).
Proof.
  intros Hi Hl Hz. rewrite zlen_blob in Hz. pose proof (payload_take leaflets i l Hl) as Hpt.
  set (pre := hdr ++ dirb ++ concat (el_payload <$> take i leaflets)).
  set (post := concat (drop (S i) (el_payload <$> leaflets))).
  assert (data = pre ++ el_payload l ++ post) as ->.
  { unfold data, build_leaf_blob_raw_keys, pre, post. rewrite <- !app_assoc. do 2 f_equal.
    rewrite fmap_take. apply concat_split. by rewrite list_lookup_fmap, Hl. }
  assert (zlen pre = zlen hdr + zlen dirb + payload_size (take i leaflets)) as Hpre.
  { unfold pre, payload_size. rewrite !zlen_app. lia. }
  apply (load_encoded rs o level l); [|by eapply Forall_lookup_1|apply entry_of_for|done|lia].
  by apply (Forall2_lookup_lr _ _ _ _ _ _ HF Hi).
Qed.

Lemma leaflet_keys_at i rs l :
  rss !! i = Some rs -> leaflets !! i = Some l -> zlen data < 2 ^ 32 ->
  exists first last_, head rs = Some first /\ last rs = Some last_ /\
    el_first_key l = write_ordered_key_v2 o first /\ el_last_key l = write_ordered_key_v2 o last_.
Proof.
  intros Hi Hl Hz. rewrite zlen_blob in Hz. pose proof (payload_take leaflets i l Hl).
  pose proof (zlen_nonneg hdr). pose proof (zlen_nonneg dirb).
  pose proof (zlen_nonneg (concat (el_payload <$> take i leaflets))). unfold payload_size in *.
  destruct (encode_leaflet_inv rs o level l) as (first & rest & E & _ & _ & _ & _ & Hk1 & Hk2 & _);
    [by apply (Forall2_lookup_lr _ _ _ _ _ _ HF Hi)|by eapply Forall_lookup_1|lia|].
  exists first, (default first (last rs)). rewrite E. split_and!; [done| |done|by rewrite <- E].
  destruct (last (first :: rest)) as [x|] eqn:El; [done|]. by apply last_None in El.
Qed.
End blob.

(** A blob whose directory has one entry per leaflet, with the rows, the routing
    keys and the history segment of the leaflet. *)
Definition leaf_loads (o : RunSortOrder) (data : bytes) (rss : list (list RunRecordV2)) (segs : list HistorySegmentRef) : Prop :=
  exists dir, (header ← decode_leaf_header_v3 data; decode_leaf_dir_v3_with_base data header) = Ok dir /\
    length (dd_entries dir) = length rss /\
    forall i rs, rss !! i = Some rs -> exists entry b,
      dd_entries dir !! i = Some entry /\
      load_leaflet_columns data entry (dd_payload_base dir) cp_all = Ok b /\
      batch_holds b (drop_graph <$> rs) /\
      (exists first last_, head rs = Some first /\ last rs = Some last_ /\
         de_first_key entry = write_ordered_key_v2 o first /\ de_last_key entry = write_ordered_key_v2 o last_) /\
      mkSegRef (de_history_offset entry) (de_history_len entry) (de_history_min_t entry) (de_history_max_t entry)
      = seg_or_zero (segs !! i).

Lemma blob_loads o level rss leaflets segs fk lk :
  Forall2 (fun rs l => encode_leaflet rs o level = Ok l) rss leaflets ->
  Forall (leaflet_rows_ok o) rss -> Forall no_sentinel rss -> Forall seg_ok segs ->
  zlen fk = ORDERED_KEY_V2_SIZE -> zlen lk = ORDERED_KEY_V2_SIZE ->
  foldr (fun l n => el_row_count l + n) 0 leaflets < 2 ^ 64 ->
  let data := build_leaf_blob_raw_keys o leaflets segs fk lk in
  zlen data < 2 ^ 32 -> zlen leaflets < 2 ^ 32 -> leaf_loads o data rss segs.
Proof.
  intros HF Hrows Hns Hsegs Hfk Hlk Htot data Hz Hcount. pose proof Hz as Hz'. unfold data in Hz'.
  rewrite zlen_blob in Hz'.
  pose proof (zlen_nonneg (concat (leaf_header_fields o leaflets fk lk))).
  pose proof (zlen_nonneg (directory_bytes leaflets segs 0)).
  assert (Forall encoded_ok leaflets) as Hok by (eapply (leaflets_encoded o level); [done|done|done|lia]).
  destruct (decode_dir_blob o leaflets segs fk lk Hfk Hlk Hok Hsegs Hcount ltac:(lia) Htot) as (base & Hbase & Hdir).
  assert (base = zlen (concat (leaf_header_fields o leaflets fk lk)) + zlen (directory_bytes leaflets segs 0)) as Hb.
  { by rewrite Hbase, (zlen_concat _ _ (header_fields_lengths o leaflets fk lk Hfk Hlk)). }
  exists (mkDecodedDir (placed leaflets segs 0) base). split; [done|]. cbn [dd_entries dd_payload_base].
  split; [rewrite length_placed; symmetry; by eapply Forall2_length|].
  intros i rs Hi. destruct (Forall2_lookup_l _ _ _ _ _ HF Hi) as (l & Hl & He).
  destruct (load_leaflet_at o level rss leaflets segs fk lk HF Hrows i rs l Hi Hl Hz) as (b & Hload & Hholds).
  rewrite <- Hb in Hload. eexists _, b. split; [by apply placed_lookup|].
  split_and!; [done|done| |unfold entry_of; cbn; by destruct (seg_or_zero (segs !! i))].
  by apply (leaflet_keys_at o level rss leaflets segs fk lk HF Hrows i rs l).
Qed.

(** C17: a leaf blob of encoded leaflets decodes to one directory entry per
    leaflet, in order; the columns each entry points at load as a batch of the
    leaflet's rows, and the entry carries the leaflet's first and last routing
    keys and the history segment it was given. *)
Theorem leaf_roundtrip o level rss leaflets segs fk lk :
  Forall2 (fun rs l => encode_leaflet rs o level = Ok l) rss leaflets ->
  Forall (leaflet_rows_ok o) rss -> Forall no_sentinel rss -> Forall seg_ok segs ->
  zlen fk = ORDERED_KEY_V2_SIZE -> zlen lk = ORDERED_KEY_V2_SIZE ->
  foldr (fun l n => el_row_count l + n) 0 leaflets < 2 ^ 64 ->
  let data := build_leaf_blob_raw_keys o leaflets segs fk lk in
  zlen data < 2 ^ 32 -> zlen leaflets < 2 ^ 32 ->
  exists dir, (header ← decode_leaf_header_v3 data; decode_leaf_dir_v3_with_base data header) = Ok dir /\
    length (dd_entries dir) = length rss /\
    forall i rs, rss !! i = Some rs -> exists entry b,
      dd_entries dir !! i = Some entry /\
      load_leaflet_columns data entry (dd_payload_base dir) cp_all = Ok b /\
      batch_holds b (drop_graph <$> rs) /\
      (exists first last_, head rs = Some first /\ last rs = Some last_ /\
         de_first_key entry = write_ordered_key_v2 o first /\ de_last_key entry = write_ordered_key_v2 o last_) /\
      mkSegRef (de_history_offset entry) (de_history_len entry) (de_history_min_t entry) (de_history_max_t entry)
      = seg_or_zero (segs !! i).
Proof. apply blob_loads. Qed.
End leaf_roundtrip.
