(* ===== verification/LeafUpdate.v ===== *)
(** * Updating a leaf with novelty (run_index/build/incremental_leaf.rs)

    [update_leaf] slices the novelty to the leaflets of a leaf by their first
    routing keys, passes untouched leaflets through, merges and re-encodes the
    others, splits what has grown and assembles new leaf blobs.  Content ids,
    which are digests of the blobs, and the count of re-encoded leaflets are
    left out of the result. *)

From S2P Require Import Prelude Bytes Cmp Segment RunRecord Columns HistorySidecar IndexLog NoveltyMerge MergeLaws.
From S2P Require Import Replay Leaflet LeafBlob.
From stdpp Require Import base list numbers sorting gmap.
From Stdlib Require Import ZArith Lia.

Local Open Scope Z_scope.

Record LeafUpdateInput := mkLeafUpdateInput {
  lu_leaf_bytes : bytes; lu_novelty : list RunRecordV2; lu_novelty_ops : list Z;
  lu_order : RunSortOrder; lu_zstd_level : Z; lu_leaflet_target_rows : nat; lu_leaf_target_rows : Z;
  lu_sidecar_bytes : option bytes;
}.

(** [LeafInfo], without ids and counts. *)
Record NewLeaf := mkNewLeaf { nl_leaf_bytes : bytes; nl_sidecar_bytes : option bytes; nl_total_rows : Z }.

(** ** Novelty slicing *)

(** The loop over the leaflets, given the first keys of those after the first. *)
Fixpoint slice_by_keys (o : RunSortOrder) (novelty : list RunRecordV2) (ops : list Z) (next_keys : list bytes)
    : list (list RunRecordV2 * list Z) :=
  match next_keys with
  | [] => [(novelty, ops)]
  | boundary :: rest =>
      let split_pos := partition_point
        (fun rec => match cmp_ordered_key_v2 (write_ordered_key_v2 o rec) boundary with Lt => true | _ => false end)
        novelty in
      (take split_pos novelty, take split_pos ops)
      :: slice_by_keys o (drop split_pos novelty) (drop split_pos ops) rest
  end.

Definition slice_novelty_to_leaflets (novelty : list RunRecordV2) (ops : list Z)
    (entries : list LeafletDirEntryV3) (o : RunSortOrder) : list (list RunRecordV2 * list Z) :=
  match entries with
  | [] => []
  | _ :: rest => slice_by_keys o novelty ops (de_first_key <$> rest)
  end.

(** ** Splitting *)

(** [segment.chunks(n)] for [n > 0]. *)
Fixpoint chunks_of {A} (fuel n : nat) (l : list A) : list (list A) :=
  match fuel with
  | O => []
  | S fuel => match l with [] => [] | _ => take n l :: chunks_of fuel n (drop n l) end
  end.

Definition row_chunks {A} (n : nat) (l : list A) : list (list A) := chunks_of (length l) n l.

Definition same_segment (o : RunSortOrder) (a b : RunRecordV2) : bool :=
  match o with
  | RPost | RPsot => rr_p_id b =? rr_p_id a
  | ROpst => rr_o_type b =? rr_o_type a
  | RSpot => true
  end.

(** [find_segment_end], as the length of the leading segment. *)
Definition segment_length (o : RunSortOrder) (first : RunRecordV2) (records : list RunRecordV2) : nat :=
  partition_point (same_segment o first) records.

Fixpoint split_segments (fuel : nat) (o : RunSortOrder) (records : list RunRecordV2) : list (list RunRecordV2) :=
  match fuel with
  | O => []
  | S fuel =>
      match records with
      | [] => []
      | first :: _ =>
          let n := segment_length o first records in
          take n records :: split_segments fuel o (drop n records)
      end
  end.

(** [chunks(0)] panics. *)
Definition split_by_segmentation_and_size (records : list RunRecordV2) (o : RunSortOrder) (target_rows : nat)
    : io (list (list RunRecordV2)) :=
  match records, target_rows with
  | [], _ => mret []
  | _, O => Panic
  | _, _ => mret (concat (row_chunks target_rows <$> split_segments (length records) o records))
  end.

(** ** Partitioning the history *)

Definition chunk_index (o : RunSortOrder) (boundaries : list RunRecordV2) (e : HistEntryV2) : nat :=
  partition_point (fun boundary =>
      match cmp_v2_for_order o (key_record (hist_entry_to_record e)) boundary with Lt => false | _ => true end)
    boundaries.

Definition partition_history_to_chunks (chunks : list (list RunRecordV2)) (history : list HistEntryV2)
    (o : RunSortOrder) : list (list HistEntryV2) :=
  let boundaries := omap head (tail chunks) in
  (fun i => filter (fun e => chunk_index o boundaries e = i) history) <$> seq 0 (length chunks).

(** ** Leaflets *)

Definition load_existing_history (entry : LeafletDirEntryV3) (sidecar_bytes : option bytes)
    : io (list HistEntryV2) :=
  if de_history_len entry =? 0 then mret []
  else
    sb ← ok_or IoNotFound sidecar_bytes;
    decode_history_segment sb (mkSegRef (de_history_offset entry) (de_history_len entry)
                                 (de_history_min_t entry) (de_history_max_t entry)).

Definition reconstruct_encoded_leaflet (entry : LeafletDirEntryV3) (payload : bytes) : EncodedLeaflet :=
  mkEncoded (de_row_count entry) (de_lead_group_count entry) (de_first_key entry) (de_last_key entry)
    (de_p_const entry) (de_o_type_const entry) (de_flags entry) (de_column_refs entry) payload.

Definition empty_encoded_leaflet_with_keys (entry : LeafletDirEntryV3) : EncodedLeaflet :=
  mkEncoded 0 0 (de_first_key entry) (de_last_key entry) (de_p_const entry) (de_o_type_const entry) 0 [] [].

(** [ProcessedLeafletV3], with the passthrough case already turned into an
    encoded leaflet as [assemble_output_leaves] does. *)
Record ProcessedLeaflet := mkProcessed { pl_encoded : EncodedLeaflet; pl_history : list HistEntryV2 }.

Definition passthrough_leaflet (leaf_bytes : bytes) (entry : LeafletDirEntryV3) (payload_base : Z)
    (sidecar_bytes : option bytes) : io ProcessedLeaflet :=
  let start := payload_base + de_payload_offset entry in
  let end_ := start + de_payload_len entry in
  if zlen leaf_bytes <? end_ then Panic
  else
    history ← load_existing_history entry sidecar_bytes;
    mret (mkProcessed (reconstruct_encoded_leaflet entry (slice leaf_bytes start end_)) history).

Section update.
Context `{SL : SortLib, CZ : ColumnZstd}.

Fixpoint encode_chunks (o : RunSortOrder) (zstd_level : Z)
    (chunks : list (list RunRecordV2 * list HistEntryV2)) : io (list ProcessedLeaflet) :=
  match chunks with
  | [] => mret []
  | (chunk, history) :: rest =>
      encoded ← encode_leaflet chunk o zstd_level;
      more ← encode_chunks o zstd_level rest;
      mret (mkProcessed encoded history :: more)
  end.

Definition merge_and_encode_leaflet (input : LeafUpdateInput) (entry : LeafletDirEntryV3) (payload_base : Z)
    (novelty : list RunRecordV2) (novelty_ops : list Z) : io (list ProcessedLeaflet) :=
  batch ← load_leaflet_columns (lu_leaf_bytes input) entry payload_base cp_all;
  existing_history ← load_existing_history entry (lu_sidecar_bytes input);
  out ← merge_novelty batch existing_history novelty novelty_ops (lu_order input);
  match mo_records out with
  | [] => mret [mkProcessed (empty_encoded_leaflet_with_keys entry) (mo_history out)]
  | _ =>
      chunks ← split_by_segmentation_and_size (mo_records out) (lu_order input) (lu_leaflet_target_rows input);
      match chunks with
      | [chunk] => encode_chunks (lu_order input) (lu_zstd_level input) [(chunk, mo_history out)]
      | _ => encode_chunks (lu_order input) (lu_zstd_level input)
               (zip chunks (partition_history_to_chunks chunks (mo_history out) (lu_order input)))
      end
  end.

(** ** Leaf blobs *)

(** The grouping loop: [rows] are in the current group. *)
Fixpoint group_leaflets (target : Z) (rows : Z) (current : list ProcessedLeaflet) (items : list ProcessedLeaflet)
    : list (list ProcessedLeaflet) :=
  match items with
  | [] => match current with [] => [] | _ => [current] end
  | item :: items =>
      let rows := rows + el_row_count (pl_encoded item) in
      let current := current ++ [item] in
      if target <=? rows then current :: group_leaflets target 0 [] items
      else group_leaflets target rows current items
  end.

Definition build_leaf_from_group (group : list ProcessedLeaflet) (o : RunSortOrder) : NewLeaf :=
  let builder := fold_left (fun b p => fold_left push_entry (pl_history p) (start_leaflet b)) group sidecar_new in
  let '(sidecar_bytes, seg_refs) :=
    if has_history builder then let '(bytes, refs) := sidecar_build builder in (Some bytes, refs)
    else (None, []) in
  let zero_key := replicate (Z.to_nat ORDERED_KEY_V2_SIZE) 0 in
  let first_key := default zero_key ((fun p => el_first_key (pl_encoded p)) <$> head group) in
  let last_key := default zero_key ((fun p => el_last_key (pl_encoded p)) <$> last group) in
  let leaflets := pl_encoded <$> group in
  mkNewLeaf (build_leaf_blob_raw_keys o leaflets seg_refs first_key last_key) sidecar_bytes
    (foldr (fun l n => el_row_count l + n) 0 leaflets).

Definition assemble_output_leaves (processed : list ProcessedLeaflet) (input : LeafUpdateInput) : list NewLeaf :=
  (fun g => build_leaf_from_group g (lu_order input))
    <$> group_leaflets (lu_leaf_target_rows input) 0 [] processed.

Fixpoint process_leaflets (input : LeafUpdateInput) (payload_base : Z) (entries : list LeafletDirEntryV3)
    (slices : list (list RunRecordV2 * list Z)) : io (list ProcessedLeaflet) :=
  match slices, entries with
  | [], _ => mret []
  | _, [] => Panic
  | (nov, ops) :: slices, entry :: entries =>
      this ← (match nov with
              | [] => p ← passthrough_leaflet (lu_leaf_bytes input) entry payload_base (lu_sidecar_bytes input); mret [p]
              | _ => merge_and_encode_leaflet input entry payload_base nov ops
              end);
      rest ← process_leaflets input payload_base entries slices;
      mret (this ++ rest)
  end.

Definition update_leaf (input : LeafUpdateInput) : io (list NewLeaf) :=
  match lu_novelty input with
  | [] =>
      header ← decode_leaf_header_v3 (lu_leaf_bytes input);
      mret [mkNewLeaf (lu_leaf_bytes input) (lu_sidecar_bytes input) (lh_total_rows header)]
  | _ =>
      header ← decode_leaf_header_v3 (lu_leaf_bytes input);
      dir ← decode_leaf_dir_v3_with_base (lu_leaf_bytes input) header;
      if (lu_leaflet_target_rows input =? 0)%nat then Panic (* capacity divides by it *)
      else
        processed ← process_leaflets input (dd_payload_base dir) (dd_entries dir)
          (slice_novelty_to_leaflets (lu_novelty input) (lu_novelty_ops input) (dd_entries dir) (lu_order input));
        mret (assemble_output_leaves processed input)
  end.
End update.
