(* ===== verification/LeafUpdateLaws.v ===== *)
(** * What an update does to the leaflets of a leaf

    Novelty is sliced by key range without loss; the rows of a merged leaflet
    are cut into homogeneous chunks of bounded size and its history follows the
    rows, so each chunk represents the part of the log in its key range. *)

From S2P Require Import Prelude Bytes Cmp Segment RunRecord Columns HistorySidecar IndexLog NoveltyMerge MergeLaws.
From S2P Require Import Replay ReplayLaws TimeTravel Leaflet LeafBlob LeafUpdate.
From stdpp Require Import base list numbers sorting gmap.
From Stdlib Require Import ZArith Lia.

Local Open Scope Z_scope.

(** ** Partition points *)

Lemma partition_point_take {A} (p : A -> bool) l : Forall (fun x => p x = true) (take (partition_point p l) l).
Proof. induction l as [|x l IH]; cbn; [done|]. destruct (p x) eqn:E; cbn; auto. Qed.

Lemma partition_point_unique {A} (p : A -> bool) l : forall j,
  (j <= length l)%nat -> (forall i x, (i < j)%nat -> l !! i = Some x -> p x = true) ->
  (forall x, l !! j = Some x -> p x = false) -> partition_point p l = j.
Proof.
  induction l as [|x l IH]; intros j Hj Hlt Hge; cbn in *; [lia|]. destruct j as [|j].
  - by rewrite (Hge x).
  - rewrite (Hlt 0%nat x) by (done || lia). f_equal. apply IH; [lia| |done].
    intros i y Hi. apply (Hlt (S i)). lia.
Qed.

(** ** Slices of novelty *)

Lemma slice_by_keys_concat o keys : forall novelty ops,
  concat (slice_by_keys o novelty ops keys).*1 = novelty /\ concat (slice_by_keys o novelty ops keys).*2 = ops.
Proof.
  induction keys as [|k keys IH]; intros novelty ops; cbn [slice_by_keys].
  - cbn. by rewrite !app_nil_r.
  - rewrite !fmap_cons, !concat_cons. cbn [fst snd].
    match goal with |- context [drop ?n novelty] => destruct (IH (drop n novelty) (drop n ops)) as [-> ->] end.
    by rewrite !take_drop.
Qed.

Lemma length_slices o keys : forall novelty ops, length (slice_by_keys o novelty ops keys) = S (length keys).
Proof. induction keys as [|k keys IH]; intros; cbn; [done|]. by rewrite IH. Qed.

(** ** Chunks *)

Lemma chunks_of_spec {A} fuel n (l : list A) :
  (0 < n)%nat -> (length l <= fuel)%nat ->
  concat (chunks_of fuel n l) = l /\ Forall (fun c => c <> [] /\ (length c <= n)%nat) (chunks_of fuel n l).
Proof.
  intros Hn. revert l. induction fuel as [|fuel IH]; intros l Hl; [by destruct l; [|cbn in Hl; lia]|].
  destruct l as [|x l]; [done|]. cbn [chunks_of]. destruct (IH (drop n (x :: l))) as [Hc Hf].
  { rewrite length_drop. cbn in *. lia. }
  split; [by rewrite concat_cons, Hc, take_drop|]. constructor; [|done]. split.
  - destruct n; [lia|done].
  - rewrite length_take. lia.
Qed.

Lemma same_segment_refl o r : same_segment o r r = true.
Proof. destruct o; cbn; by rewrite ?Z.eqb_refl. Qed.

Lemma split_segments_spec o fuel : forall records,
  (length records <= fuel)%nat ->
  concat (split_segments fuel o records) = records /\
  Forall (fun s => exists first, Forall (fun r => same_segment o first r = true) s) (split_segments fuel o records).
Proof.
  induction fuel as [|fuel IH]; intros records Hl; [by destruct records; [|cbn in Hl; lia]|].
  destruct records as [|first rest]; [done|]. cbn [split_segments].
  set (records := first :: rest) in *.
  assert (1 <= segment_length o first records)%nat as Hn.
  { unfold segment_length. cbn. rewrite same_segment_refl. lia. }
  destruct (IH (drop (segment_length o first records) records)) as [Hc Hf].
  { rewrite length_drop. unfold records in *. cbn in *. lia. }
  split; [by rewrite concat_cons, Hc, take_drop|]. constructor; [|done].
  exists first. apply partition_point_take.
Qed.

(** The rows of a chunk: at most [target], not none, one segment. *)
Definition chunk_ok (o : RunSortOrder) (target : nat) (c : list RunRecordV2) : Prop :=
  c <> [] /\ (length c <= target)%nat /\
  forall a b, a ∈ c -> b ∈ c ->
    match o with
    | RPost | RPsot => rr_p_id a = rr_p_id b
    | ROpst => rr_o_type a = rr_o_type b
    | RSpot => True
    end.

Lemma concat_chunks {A} n (ls : list (list A)) :
  (0 < n)%nat -> concat (concat (row_chunks n <$> ls)) = concat ls.
Proof.
  intros Hn. induction ls as [|l ls IH]; [done|].
  rewrite fmap_cons, !concat_cons, concat_app, IH. f_equal. by apply chunks_of_spec.
Qed.

Lemma split_spec o records target chunks :
  (0 < target)%nat -> split_by_segmentation_and_size records o target = Ok chunks ->
  concat chunks = records /\ Forall (chunk_ok o target) chunks.
Proof.
  intros Ht H. unfold split_by_segmentation_and_size in H.
  destruct records as [|r rest]; [by injection H as <-|]. destruct target as [|n]; [lia|].
  set (records := r :: rest) in *.
  assert (chunks = concat (row_chunks (S n) <$> split_segments (length records) o records)) as ->
    by (unfold mret, outcome_ret in H; congruence). clear H. destruct (split_segments_spec o (length records) records ltac:(lia)) as [Hc Hf].
  split; [by rewrite concat_chunks, Hc by lia|].
  apply Forall_concat, Forall_fmap. eapply Forall_impl; [exact Hf|]. intros s (first & Hs). unfold compose, row_chunks.
  destruct (chunks_of_spec (length s) (S n) s ltac:(lia) ltac:(lia)) as [Hcat Hok].
  rewrite Forall_forall in Hok |- *. intros c Hcin. destruct (Hok c Hcin) as [Hne Hlen].
  split_and!; [done|done|]. intros a b Ha Hb. rewrite Forall_forall in Hs.
  assert (forall x, x ∈ c -> same_segment o first x = true) as Hseg.
  { intros x Hx. apply Hs. rewrite <- Hcat. apply list_elem_of_In, in_concat. exists c. by rewrite <- !list_elem_of_In. }
  specialize (Hseg a Ha) as Ea. specialize (Hseg b Hb) as Eb. destruct o; cbn in Ea, Eb; [done|lia|lia|lia].
Qed.

(** ** Restricting a log to some facts *)

Section restrict.
Context (K : FactKeyV3 -> Prop) `{!forall k, Decision (K k)}.

Definition in_keys (e : HistEntryV2) : Prop := K (he_key e).
#[local] Instance in_keys_dec e : Decision (in_keys e).
Proof. unfold in_keys. apply _. Defined.

Lemma restrict_state log k :
  log_state (filter in_keys log) !! k = if decide (K k) then log_state log !! k else None.
Proof.
  induction log as [|e log IH] using rev_ind; [by case_decide|].
  rewrite filter_app, filter_cons, filter_nil, log_state_snoc. unfold in_keys at 2.
  destruct (decide (K (he_key e))) as [He|He].
  - rewrite log_state_snoc. destruct (decide (he_key e = k)) as [<-|Hne].
    + rewrite decide_True by done. unfold apply_event.
      destruct (he_op e =? 1); [by rewrite !lookup_insert_eq|by rewrite !lookup_delete_eq].
    + by rewrite !apply_event_ne, IH.
  - rewrite app_nil_r, IH. destruct (decide (K k)) as [Hk|Hk]; [|done].
    by rewrite apply_event_ne by (intros <-; done).
Qed.

Lemma restrict_ok log : log_ok log -> log_ok (filter in_keys log).
Proof.
  induction log as [|e log IH] using rev_ind; [constructor|]. intros (Hok & Ht & He)%log_ok_snoc.
  rewrite filter_app, filter_cons, filter_nil. case_decide as Hk; [|by rewrite app_nil_r; apply IH].
  assert (Forall (fun x => he_t x <= he_t e) (filter in_keys log)) as Ht'.
  { rewrite Forall_forall in Ht |- *. intros x [_ Hx]%list_elem_of_filter. by apply Ht. }
  destruct He as [[Hop Hs]|(Hop & t & Hs & Hlt)].
  - apply log_ok_assert; [by apply IH|done|done|]. by rewrite restrict_state, decide_True.
  - apply (log_ok_retract _ _ t); [by apply IH|done|done| |done]. by rewrite restrict_state, decide_True.
Qed.

Lemma filter_sorted {A} (R : A -> A -> Prop) (P : A -> Prop) `{!forall x, Decision (P x)} l :
  StronglySorted R l -> StronglySorted R (filter P l).
Proof.
  induction 1 as [|x l Hl IH Hx]; [constructor|]. rewrite filter_cons. case_decide; [|done].
  constructor; [done|]. rewrite Forall_forall in Hx |- *. intros y [_ Hy]%list_elem_of_filter. by apply Hx.
Qed.

Lemma restrict_leaflet o log extra rows hist :
  leaflet_of o log extra rows hist ->
  leaflet_of o (filter in_keys log) (filter in_keys extra) (filter (fun r => K (rr_key r)) rows) (filter in_keys hist).
Proof.
  intros [Hok Hs Hr Hd Hh Hex]. split.
  - by apply restrict_ok.
  - by apply filter_sorted.
  - intros k t. rewrite restrict_state. unfold row_in. setoid_rewrite list_elem_of_filter.
    destruct (decide (K k)) as [Hk|Hk].
    + rewrite Hr. split; intros (r & Hin & <- & Ht); exists r; [done|]. by destruct Hin.
    + split; [done|]. intros (r & [HK _] & <- & _). done.
  - by apply filter_sorted.
  - rewrite Hh. by rewrite filter_app.
  - rewrite Forall_forall in Hex |- *. intros e [HK He]%list_elem_of_filter. destruct (Hex e He) as [Hop Hst].
    split; [done|]. by rewrite restrict_state, decide_True.
Qed.
End restrict.

(** ** Chunks and their key ranges *)

(** The chunk a fact belongs to, by the first rows of the later chunks. *)
Definition key_chunk (o : RunSortOrder) (boundaries : list RunRecordV2) (k : FactKeyV3) : nat :=
  partition_point (fun b => match cmp_v2_for_order o (fact_record k 0) b with Lt => false | _ => true end) boundaries.

Lemma chunk_index_key o bs e : chunk_index o bs e = key_chunk o bs (he_key e).
Proof. done. Qed.

Section chunk_rows.
Context (o : RunSortOrder) (chunks : list (list RunRecordV2)).
Context (Hne : Forall (fun c => c <> []) chunks) (Hs : StronglySorted (run_lt o) (concat chunks)).

Let bs := omap head (tail chunks).

Lemma concat_lt i j ci cj a b :
  chunks !! i = Some ci -> chunks !! j = Some cj -> (i < j)%nat -> a ∈ ci -> b ∈ cj -> run_lt o a b.
Proof.
  intros Hi Hj Hij Ha Hb. clear Hne bs. revert i j Hi Hj Hij. induction chunks as [|c cs IH]; [done|].
  rewrite concat_cons in Hs. intros [|i] [|j] Hi Hj Hij; try lia; cbn in Hi, Hj.
  - injection Hi as ->. apply list_elem_of_lookup in Ha as [na Ha].
    assert (b ∈ concat cs) as Hbc.
    { apply list_elem_of_In, in_concat. exists cj. rewrite <- !list_elem_of_In. split; [by eapply list_elem_of_lookup_2|done]. }
    apply list_elem_of_lookup in Hbc as [nb Hb'].
    eapply (sorted_lookup _ _ na (length ci + nb) a b Hs).
    + by apply lookup_app_l_Some.
    + rewrite lookup_app_r by lia. by replace (length ci + nb - length ci)%nat with nb by lia.
    + apply lookup_lt_Some in Ha. lia.
  - eapply IH; [|done|done|lia]. clear -Hs. induction c as [|x c IHc]; [done|].
    apply IHc. by apply StronglySorted_inv in Hs as [? _].
Qed.

Lemma boundary_lookup i : bs !! i = (chunks !! S i) ≫= head.
Proof.
  unfold bs. clear Hs bs. destruct chunks as [|c0 cs]; [done|]. apply Forall_cons in Hne as [_ Hcs]. cbn [tail].
  change ((c0 :: cs) !! S i) with (cs !! i). revert i. induction Hcs as [|c cs Hc _ IH]; intros i; [done|].
  destruct c as [|x c]; [done|]. destruct i as [|i]; [done|]. apply IH.
Qed.

Lemma row_chunk j c r : chunks !! j = Some c -> r ∈ c -> key_chunk o bs (rr_key r) = j.
Proof.
  intros Hj Hr. apply partition_point_unique.
  - apply lookup_lt_Some in Hj. destruct (decide (length bs < j)%nat) as [Hlt|]; [|lia]. exfalso.
    assert (j - 1 < length chunks)%nat as Hj1 by lia. assert (bs !! (j - 1)%nat = None) as Hno by (apply lookup_ge_None; lia).
    rewrite boundary_lookup in Hno. replace (S (j - 1)) with j in Hno by lia.
    destruct (lookup_lt_is_Some_2 chunks j Hj) as [cj Hcj]. rewrite Hcj in Hno. cbn in Hno.
    rewrite Forall_forall in Hne. specialize (Hne cj). destruct cj as [|x cj]; [|done].
    by apply Hne; [eapply list_elem_of_lookup_2|].
  - intros i b Hij Hb. rewrite boundary_lookup in Hb. destruct (chunks !! S i) as [ci|] eqn:Hci; [|done].
    cbn in Hb. destruct ci as [|x ci]; [done|]. injection Hb as ->.
    rewrite (cmp_run_key o _ r b b) by (apply rr_key_fact || done).
    destruct (decide (S i = j)) as [E|].
    + subst j. rewrite Hj in Hci. injection Hci as ->. apply elem_of_cons in Hr as [->|Hr].
      * by rewrite (cmp_refl (P := everything) b I).
      * assert (run_lt o b r) as Hbr.
        { clear -Hs Hj Hr. revert Hs. rewrite (concat_split chunks (S i) (b :: ci) Hj). intros H.
          apply list_elem_of_lookup in Hr as [n Hn]. set (pre := concat (take (S i) chunks)) in *.
          eapply (sorted_lookup _ _ (length pre) (length pre + S n) b r H); [by apply list_lookup_middle| |lia].
          rewrite lookup_app_r by lia. replace (length pre + S n - length pre)%nat with (S n) by lia.
          cbn. by apply lookup_app_l_Some. }
        unfold run_lt in Hbr. apply (cmp_gt_lt (P := everything)) in Hbr; [by rewrite Hbr|done|done].
    + assert (run_lt o b r) as Hbr by (eapply (concat_lt (S i) j); [done|done|lia|left|done]).
      unfold run_lt in Hbr. apply (cmp_gt_lt (P := everything)) in Hbr; [by rewrite Hbr|done|done].
  - intros b Hb. rewrite boundary_lookup in Hb. destruct (chunks !! S j) as [cj|] eqn:Hcj; [|done].
    cbn in Hb. destruct cj as [|x cj]; [done|]. injection Hb as ->.
    rewrite (cmp_run_key o _ r b b) by (apply rr_key_fact || done).
    assert (run_lt o r b) as -> by (eapply (concat_lt j (S j)); [done|done|lia|done|left]). done.
Qed.
End chunk_rows.

(** ** Every chunk is a leaflet *)

Definition chunk_bounds (chunks : list (list RunRecordV2)) : list RunRecordV2 := omap head (tail chunks).

(** The part of a log in the key range of chunk [j]. *)
Definition chunk_part (o : RunSortOrder) (chunks : list (list RunRecordV2)) (j : nat) (log : list HistEntryV2)
    : list HistEntryV2 :=
  filter (fun e => key_chunk o (chunk_bounds chunks) (he_key e) = j) log.

Lemma filter_concat {A} (P : A -> Prop) `{!forall x, Decision (P x)} (ls : list (list A)) :
  filter P (concat ls) = concat ((fun l => filter P l) <$> ls).
Proof. induction ls as [|l ls IH]; [done|]. by rewrite concat_cons, filter_app, fmap_cons, concat_cons, IH. Qed.

Lemma concat_only {A} (ls : list (list A)) j c :
  ls !! j = Some c -> (forall i l, ls !! i = Some l -> i <> j -> l = []) -> concat ls = c.
Proof.
  revert j. induction ls as [|l ls IH]; intros j; [done|]. rewrite concat_cons. destruct j as [|j].
  - intros [= ->] H. assert (concat ls = []) as ->; [|apply app_nil_r].
    clear IH. assert (forall i l, ls !! i = Some l -> l = []) as Hn by (intros i l Hi; by apply (H (S i))).
    clear H. induction ls as [|l ls IH]; [done|]. rewrite concat_cons, (Hn 0%nat l), IH; [done| |done].
    intros i l' Hi. by apply (Hn (S i)).
  - intros Hj H. rewrite (H 0%nat l) by done. cbn. eapply IH; [done|]. intros i l' Hi Hij. apply (H (S i)); [done|lia].
Qed.

Lemma chunk_filter o chunks j c :
  Forall (fun c => c <> []) chunks -> StronglySorted (run_lt o) (concat chunks) -> chunks !! j = Some c ->
  filter (fun r => key_chunk o (chunk_bounds chunks) (rr_key r) = j) (concat chunks) = c.
Proof.
  intros Hne Hs Hj. rewrite filter_concat. eapply (concat_only _ j).
  - rewrite list_lookup_fmap, Hj. cbn. f_equal. apply filter_keep. apply Forall_forall. intros r Hr.
    by apply (row_chunk o chunks Hne Hs j c r).
  - intros i l Hi Hij. rewrite list_lookup_fmap in Hi. destruct (chunks !! i) as [ci|] eqn:Hci; [|done].
    injection Hi as <-. apply filter_drop. apply Forall_forall. intros r Hr.
    unfold chunk_bounds. by rewrite (row_chunk o chunks Hne Hs i ci r).
Qed.

Lemma partition_lookup o chunks history j :
  (j < length chunks)%nat ->
  partition_history_to_chunks chunks history o !! j = Some (chunk_part o chunks j history).
Proof.
  intros Hj. unfold partition_history_to_chunks. by rewrite list_lookup_fmap, lookup_seq_lt by done.
Qed.

Lemma chunk_leaflet o log extra chunks hist j c :
  leaflet_of o log extra (concat chunks) hist -> Forall (fun c => c <> []) chunks -> chunks !! j = Some c ->
  leaflet_of o (chunk_part o chunks j log) (chunk_part o chunks j extra) c (chunk_part o chunks j hist).
Proof.
  intros Hlo Hne Hj.
  pose proof (restrict_leaflet (fun k => key_chunk o (chunk_bounds chunks) k = j) o _ _ _ _ Hlo) as H.
  rewrite <- (chunk_filter o chunks j c) at 1; [exact H|done|apply (lo_sorted _ _ _ _ _ Hlo)|done].
Qed.

Lemma chunk_part_single o c log : chunk_part o [c] 0 log = log.
Proof. apply filter_keep. by apply Forall_forall. Qed.

(** ** Encoding the chunks *)

Section encode_chunks.
Context `{SL : SortLib, SLL : !SortLaws, CZ : ColumnZstd}.
Context (level : Z) (Hcomp : forall bs, is_Some (zstd_bulk_compress bs level)).

Lemma append_columns_total cols : forall payload refs, exists res, append_columns cols level payload refs = Ok res.
Proof.
  induction cols as [|[[w id] vs] cols IH]; intros payload refs; cbn; [eauto|].
  unfold encode_column. destruct (Hcomp (slice_to_le_bytes w vs)) as [c ->]. cbn. apply IH.
Qed.

Lemma encode_leaflet_total records o : records <> [] -> exists e, encode_leaflet records o level = Ok e.
Proof.
  intros H. destruct records as [|first rest]; [done|]. unfold encode_leaflet.
  match goal with |- context [append_columns ?cols level [] []] =>
    destruct (append_columns_total cols [] []) as [[payload refs] ->] end.
  eexists. reflexivity.
Qed.

Lemma encode_chunks_total o cs : Forall (fun ch : list RunRecordV2 * list HistEntryV2 => ch.1 <> []) cs ->
  exists ps, encode_chunks o level cs = Ok ps /\
    Forall2 (fun p ch => encode_leaflet ch.1 o level = Ok (pl_encoded p) /\ pl_history p = ch.2) ps cs.
Proof.
  induction 1 as [|[c h] cs Hc _ IH]; cbn [encode_chunks]; [by exists []|].
  destruct (encode_leaflet_total c o Hc) as [e He]. destruct IH as (ps & Hps & HF).
  exists (mkProcessed e h :: ps). rewrite He. cbn [mbind outcome_bind]. rewrite Hps. split; [done|].
  by constructor.
Qed.

(** What the processed leaflets of a merge are: one per chunk of the merged
    rows, encoding it and carrying the history of its key range; or one
    leaflet without rows that keeps the whole history. *)
Definition processed_as (o : RunSortOrder) (target : nat) (entry : LeafletDirEntryV3)
    (log extra : list HistEntryV2) (ps : list ProcessedLeaflet) : Prop :=
  (exists h, ps = [mkProcessed (empty_encoded_leaflet_with_keys entry) h] /\ leaflet_of o log extra [] h) \/
  (exists chunks, Forall (chunk_ok o target) chunks /\ length ps = length chunks /\
     forall j p, ps !! j = Some p -> exists c, chunks !! j = Some c /\
       encode_leaflet c o level = Ok (pl_encoded p) /\
       leaflet_of o (chunk_part o chunks j log) (chunk_part o chunks j extra) c (pl_history p)).

Lemma processed_chunks o target entry log extra chunks hist cs ps :
  leaflet_of o log extra (concat chunks) hist -> Forall (chunk_ok o target) chunks ->
  cs.*1 = chunks -> (forall j h, cs.*2 !! j = Some h -> h = chunk_part o chunks j hist) ->
  Forall2 (fun p ch => encode_leaflet ch.1 o level = Ok (pl_encoded p) /\ pl_history p = ch.2) ps cs ->
  processed_as o target entry log extra ps.
Proof.
  intros Hlo Hok H1 H2 HF. right. exists chunks. split; [done|].
  split; [rewrite <- H1, length_fmap; by eapply Forall2_length|].
  intros j p Hp. destruct (Forall2_lookup_l _ _ _ _ _ HF Hp) as ([c h] & Hc & He & Hh). cbn in He, Hh.
  assert (chunks !! j = Some c) as Hj by by rewrite <- H1, list_lookup_fmap, Hc.
  exists c. split_and!; [done|done|]. rewrite Hh, (H2 j h) by by rewrite list_lookup_fmap, Hc.
  apply chunk_leaflet; [done| |done]. eapply Forall_impl; [done|]. by intros ? [? _].
Qed.

(** C18: re-encoding a leaflet whose columns or history do not load returns
    that error; a leaflet that an earlier merge emptied is such a leaflet
    ([emptied_leaflet_stuck]). If they load as the rows and the history of a
    log, the compressor does not fail, and the novelty is valid for the log
    ([valid_novelty]: one operation per fact, later than the log, retracting
    only present facts, touching no fact that only its built row records and
    not asserting again the newest entry of the history), it succeeds, and
    each leaflet it returns encodes at most the target number of rows of one
    segment and represents the part of the extended log in its key range. *)
Theorem merge_and_encode_keeps input entry base b rows hist log extra novelty :
  let o := lu_order input in
  lu_zstd_level input = level -> (0 < lu_leaflet_target_rows input)%nat ->
  (forall e, load_leaflet_columns (lu_leaf_bytes input) entry base cp_all = Err e ->
    merge_and_encode_leaflet input entry base novelty.*1 novelty.*2 = Err e) /\
  (load_leaflet_columns (lu_leaf_bytes input) entry base cp_all = Ok b ->
   (forall e, load_existing_history entry (lu_sidecar_bytes input) = Err e ->
     merge_and_encode_leaflet input entry base novelty.*1 novelty.*2 = Err e) /\
   (batch_holds b rows -> load_existing_history entry (lu_sidecar_bytes input) = Ok hist ->
    leaflet_of o log extra rows hist -> valid_novelty o log extra hist novelty ->
    exists ps, merge_and_encode_leaflet input entry base novelty.*1 novelty.*2 = Ok ps /\
      processed_as o (lu_leaflet_target_rows input) entry (extend_log log novelty) extra ps)).
Proof.
  intros o Hlevel Htarget. unfold merge_and_encode_leaflet. split; [by intros e ->|]. intros Hload.
  rewrite Hload. cbn [mbind outcome_bind]. split; [by intros e ->|]. intros Hb Hhist Hlo Hv. cbn [mbind outcome_bind]. rewrite Hhist. cbn [mbind outcome_bind].
  rewrite (merge_novelty_rows b rows) by done. cbn [mbind outcome_bind mo_records mo_history].
  pose proof (merge_extends o _ _ _ _ _ Hlo Hv) as Hlo'. fold o.
  set (out := (merge_rows o novelty rows).1) in *.
  set (h := assemble_history (merge_rows o novelty rows).2 hist) in *. rewrite Hlevel.
  destruct out as [|r rest] eqn:Eout.
  { eexists. split; [done|]. left. by exists h. }
  destruct (split_by_segmentation_and_size (r :: rest) o (lu_leaflet_target_rows input)) as [chunks| |] eqn:Es;
    [|by destruct (lu_leaflet_target_rows input)|by destruct (lu_leaflet_target_rows input); [lia|]].
  destruct (split_spec o _ _ _ Htarget Es) as [Hcat Hok]. cbn [mbind outcome_bind]. rewrite <- Hcat in Hlo'.
  assert (Forall (fun c => c <> []) chunks) as Hne by (eapply Forall_impl; [done|]; by intros ? [? _]).
  destruct chunks as [|c [|c2 cs]]; [done| |].
  - destruct (encode_chunks_total o [(c, h)]) as (ps & Hps & HF); [by apply Forall_cons in Hne as [? _]; repeat constructor|].
    exists ps. split; [done|]. eapply (processed_chunks o _ _ _ _ [c] h _ _ Hlo' Hok); [| |exact HF]; [done|].
    intros [|j] hj; [|done]. intros [= <-]. by rewrite chunk_part_single.
  - set (chunks := c :: c2 :: cs) in *.
    assert (length chunks = length (partition_history_to_chunks chunks h o)) as Hl.
    { unfold partition_history_to_chunks. by rewrite length_fmap, length_seq. }
    destruct (encode_chunks_total o (zip chunks (partition_history_to_chunks chunks h o))) as (ps & Hps & HF).
    { apply Forall_forall. intros [x y] Hxy%elem_of_zip_l. rewrite Forall_forall in Hne. by apply Hne. }
    exists ps. split; [done|]. eapply (processed_chunks o _ _ _ _ chunks h _ _ Hlo' Hok); [| |exact HF].
    + apply fst_zip. lia.
    + intros j hj. rewrite snd_zip by lia. intros Hj. apply lookup_lt_Some in Hj as Hlt.
      rewrite partition_lookup in Hj by lia. by injection Hj as <-.
Qed.
End encode_chunks.
