(* ===== verification/IndexFilter.v ===== *)
(** * Filters on index rows (read/column_types.rs, read/binary_cursor.rs)

    A [BinaryFilter] binds some identity columns.  Leaflets are skipped by their
    constants or by their key range, the rows of a batch are narrowed by binary
    searches on the bound prefix of the sort order and then filtered one by
    one.  None of it loses a matching row. *)

From S2P Require Import Prelude Bytes Cmp Segment RunRecord Columns HistorySidecar IndexLog Leaflet.
From stdpp Require Import base list numbers sorting gmap.
From Stdlib Require Import ZArith Lia.

Local Open Scope Z_scope.

Record BinaryFilter := mkFilter {
  bf_s_id : option Z; bf_p_id : option Z; bf_o_type : option Z; bf_o_key : option Z; bf_o_i : option Z;
}.

Definition bf_is_empty (f : BinaryFilter) : bool :=
  match f with mkFilter None None None None None => true | _ => false end.

Definition bound_ok (bound : option Z) (v : Z) : bool :=
  match bound with Some b => v =? b | None => true end.

Definition bf_matches (f : BinaryFilter) (s_id p_id o_type o_key o_i : Z) : bool :=
  bound_ok (bf_s_id f) s_id && bound_ok (bf_p_id f) p_id && bound_ok (bf_o_type f) o_type
  && bound_ok (bf_o_key f) o_key && bound_ok (bf_o_i f) o_i.

Definition const_differs (bound const : option Z) : bool :=
  match bound, const with Some b, Some c => negb (b =? c) | _, _ => false end.

Definition skip_leaflet (f : BinaryFilter) (p_const o_type_const : option Z) : bool :=
  const_differs (bf_p_id f) p_const || const_differs (bf_o_type f) o_type_const.

(** ** Key ranges *)

Inductive SortField := SortS | SortP | SortOType | SortOKey | SortOI.

Definition sort_fields (o : RunSortOrder) : list SortField :=
  match o with
  | RSpot => [SortS; SortP; SortOType; SortOKey; SortOI]
  | RPsot => [SortP; SortS; SortOType; SortOKey; SortOI]
  | RPost => [SortP; SortOType; SortOKey; SortOI; SortS]
  | ROpst => [SortOType; SortOKey; SortOI; SortP; SortS]
  end.

Definition field_value (r : RunRecordV2) (f : SortField) : Z :=
  match f with
  | SortS => rr_s_id r | SortP => rr_p_id r | SortOType => rr_o_type r
  | SortOKey => rr_o_key r | SortOI => rr_o_i r
  end.

Definition bound_value (bf : BinaryFilter) (f : SortField) : option Z :=
  match f with
  | SortS => bf_s_id bf | SortP => bf_p_id bf | SortOType => bf_o_type bf
  | SortOKey => bf_o_key bf | SortOI => bf_o_i bf
  end.

(** The loop over the sort columns. *)
Fixpoint out_of_range (bf : BinaryFilter) (first last_ : RunRecordV2) (fields : list SortField) : bool :=
  match fields with
  | [] => false
  | f :: fields =>
      let fv := field_value first f in
      let lv := field_value last_ f in
      match bound_value bf f with
      | None => if negb (fv =? lv) then false else out_of_range bf first last_ fields
      | Some v =>
          if (v <? fv) || (lv <? v) then true
          else if negb (fv =? lv) then false
          else out_of_range bf first last_ fields
      end
  end.

Definition leaflet_out_of_range (bf : BinaryFilter) (o : RunSortOrder) (first_key last_key : bytes) : bool :=
  match bound_value bf (default SortS (head (sort_fields o))) with
  | None => false
  | Some _ => out_of_range bf (read_ordered_key_v2 o first_key) (read_ordered_key_v2 o last_key) (sort_fields o)
  end.

(** ** Filtering a batch *)

Inductive Cascade := Narrowed (range : nat * nat) | Stop (range : nat * nat).

Definition cascade_and_then (c : Cascade) (f : nat * nat -> io Cascade) : io Cascade :=
  match c with Narrowed r => f r | Stop r => mret (Stop r) end.

Definition into_range (c : Cascade) : nat * nat :=
  match c with Narrowed r => r | Stop r => r end.

(** Slicing a block outside its values panics. *)
Definition cascade (range : nat * nat) (col : ColumnData) (bound : option Z) : io Cascade :=
  match bound with
  | None => mret (Stop range)
  | Some v =>
      match col with
      | ColBlock arr =>
          let '(lo, hi) := range in
          if (hi <? lo)%nat || (length arr <? hi)%nat then Panic
          else
            let window := take (hi - lo) (drop lo arr) in
            mret (Narrowed ((lo + partition_point (fun x => (x <? v)%Z) window)%nat,
                            (lo + partition_point (fun x => (x <=? v)%Z) window)%nat))
      | ColConst c => mret (Narrowed (if c =? v then range else (range.1, range.1)))
      | ColAbsentDefault => mret (Stop range)
      end
  end.

Definition batch_column (b : ColumnBatch) (f : SortField) : ColumnData :=
  match f with
  | SortS => cb_s_id b | SortP => cb_p_id b | SortOType => cb_o_type b
  | SortOKey => cb_o_key b | SortOI => cb_o_i b
  end.

(** The columns an order searches. *)
Definition cascade_fields (o : RunSortOrder) : list SortField :=
  match o with
  | RSpot => [SortS; SortP; SortOType; SortOKey]
  | RPsot => [SortP; SortS; SortOType; SortOKey]
  | RPost => [SortP; SortOType; SortOKey]
  | ROpst => [SortOType; SortOKey]
  end.

Fixpoint cascade_all (bf : BinaryFilter) (b : ColumnBatch) (fields : list SortField) (c : Cascade) : io Cascade :=
  match fields with
  | [] => mret c
  | f :: fields =>
      c ← cascade_and_then c (fun r => cascade r (batch_column b f) (bound_value bf f));
      cascade_all bf b fields c
  end.

Definition leading_bound_range (bf : BinaryFilter) (b : ColumnBatch) (o : RunSortOrder) : io (nat * nat) :=
  c ← cascade_all bf b (cascade_fields o) (Narrowed (0%nat, cb_row_count b));
  mret (into_range c).

Definition row_matches (bf : BinaryFilter) (b : ColumnBatch) (i : nat) : io bool :=
  s ← col_get (cb_s_id b) i;
  ok ← col_get (cb_o_key b) i;
  p ← col_get_or (cb_p_id b) i 0;
  ot ← col_get_or (cb_o_type b) i 0;
  oi ← col_get_or (cb_o_i b) i u32_max;
  mret (bf_matches bf s p ot ok oi).

Fixpoint matching_rows (bf : BinaryFilter) (b : ColumnBatch) (i n : nat) : io (list nat) :=
  match n with
  | O => mret []
  | S n =>
      m ← row_matches bf b i;
      rest ← matching_rows bf b (S i) n;
      mret (if m : bool then i :: rest else rest)
  end.

Fixpoint gather_values (arr : list Z) (indices : list nat) : io (list Z) :=
  match indices with
  | [] => mret []
  | i :: indices =>
      match arr !! i with
      | None => Panic
      | Some v => rest ← gather_values arr indices; mret (v :: rest)
      end
  end.

Definition gather_column (col : ColumnData) (indices : list nat) : io ColumnData :=
  match col with
  | ColBlock arr => vs ← gather_values arr indices; mret (ColBlock vs)
  | ColConst v => mret (ColConst v)
  | ColAbsentDefault => mret ColAbsentDefault
  end.

Definition gather_batch (src : ColumnBatch) (indices : list nat) : io ColumnBatch :=
  s ← gather_column (cb_s_id src) indices;
  ok ← gather_column (cb_o_key src) indices;
  p ← gather_column (cb_p_id src) indices;
  ot ← gather_column (cb_o_type src) indices;
  oi ← gather_column (cb_o_i src) indices;
  t ← gather_column (cb_t src) indices;
  mret (mkBatch (length indices) s ok p ot oi t).

Definition filter_batch (bf : BinaryFilter) (b : ColumnBatch) (o : RunSortOrder) : io ColumnBatch :=
  '(start, end_) ← leading_bound_range bf b o;
  matching ← matching_rows bf b start (end_ - start);
  if (length matching =? cb_row_count b)%nat then mret b else gather_batch b matching.

(** ** Orders as lists of columns *)

Fixpoint lex (fields : list SortField) (a b : RunRecordV2) : comparison :=
  match fields with
  | [] => Eq
  | f :: fields => then_with (field_value a f ?= field_value b f) (lex fields a b)
  end.

Lemma cmp_fields o a b : cmp_v2_for_order o a b = lex (sort_fields o) a b.
Proof. destruct o; cbn; by rewrite then_with_Eq_r. Qed.

Definition matches_row (bf : BinaryFilter) (r : RunRecordV2) : bool :=
  bf_matches bf (rr_s_id r) (rr_p_id r) (rr_o_type r) (rr_o_key r) (rr_o_i r).

Lemma matches_bound bf r f v :
  matches_row bf r = true -> bound_value bf f = Some v -> field_value r f = v.
Proof.
  unfold matches_row, bf_matches. rewrite !andb_true_iff. intros [[[[Hs Hp] Hot] Hok] Hoi].
  destruct f; cbn; intros E; rewrite E in *; cbn in *; lia.
Qed.

(** ** Skipped leaflets hold no match *)

Lemma out_of_range_sound bf first last_ r fields :
  out_of_range bf first last_ fields = true -> lex fields first r <> Gt -> lex fields r last_ <> Gt ->
  matches_row bf r = false.
Proof.
  induction fields as [|f fields IH]; [done|]. cbn [out_of_range lex]. intros H Hl Hr.
  assert (field_value first f <= field_value r f <= field_value last_ f) as Hb.
  { split; [destruct (Z.compare_spec (field_value first f) (field_value r f)); try lia; done|
            destruct (Z.compare_spec (field_value r f) (field_value last_ f)); try lia; done]. }
  assert (field_value first f = field_value last_ f -> out_of_range bf first last_ fields = true ->
          matches_row bf r = false) as Hdeep.
  { intros E Ho. apply IH; [done| |].
    - replace (field_value r f) with (field_value first f) in Hl by lia. by rewrite Z.compare_refl in Hl.
    - replace (field_value last_ f) with (field_value r f) in Hr by lia. by rewrite Z.compare_refl in Hr. }
  destruct (bound_value bf f) as [v|] eqn:Ev.
  - destruct ((v <? _) || _) eqn:Eo.
    + apply not_true_iff_false. intros Hm. rewrite (matches_bound bf r f v) in Hb by done. lia.
    + destruct (Z.eqb_spec (field_value first f) (field_value last_ f)); cbn in H; [by apply Hdeep|done].
  - destruct (Z.eqb_spec (field_value first f) (field_value last_ f)); cbn in H; [by apply Hdeep|done].
Qed.

(** The keys of a leaflet bound its rows. *)
Lemma leaflet_range_sound bf o rows first last_ :
  StronglySorted (run_lt o) rows -> head rows = Some first -> last rows = Some last_ ->
  rr_wf first -> rr_wf last_ ->
  leaflet_out_of_range bf o (write_ordered_key_v2 o first) (write_ordered_key_v2 o last_) = true ->
  Forall (fun r => matches_row bf r = false) rows.
Proof.
  intros Hs Hf Hl Hwf Hwl H. unfold leaflet_out_of_range in H. destruct (bound_value bf _) as [v|]; [|done].
  apply Forall_forall. intros r Hr. apply list_elem_of_lookup in Hr as [i Hi].
  rewrite (proj1 (ordered_key_roundtrip o first Hwf)), (proj1 (ordered_key_roundtrip o last_ Hwl)) in H. apply (out_of_range_sound _ _ _ r _ H); rewrite <- cmp_fields.
  - destruct i as [|i]; [rewrite head_lookup, Hi in Hf; injection Hf as ->; by rewrite (proj2 (cmp_run_Eq o _ _))|].
    rewrite head_lookup in Hf. pose proof (sorted_lookup _ _ 0 (S i) _ _ Hs Hf Hi ltac:(lia)) as Hlt.
    unfold run_lt in Hlt. rewrite (cmp_run_key o _ first r r), Hlt by done. done.
  - rewrite last_lookup in Hl. apply lookup_lt_Some in Hi as Hlen.
    destruct (decide (i = pred (length rows))) as [->|Hne].
    + rewrite Hi in Hl. injection Hl as ->. by rewrite (proj2 (cmp_run_Eq o _ _)).
    + pose proof (sorted_lookup _ _ i _ _ _ Hs Hi Hl ltac:(lia)) as Hlt.
      unfold run_lt in Hlt. rewrite (cmp_run_key o r r _ last_), Hlt by done. done.
Qed.

Lemma skip_sound bf p_const o_type_const rows :
  (forall r p, r ∈ rows -> p_const = Some p -> rr_p_id r = p) ->
  (forall r ot, r ∈ rows -> o_type_const = Some ot -> rr_o_type r = ot) ->
  skip_leaflet bf p_const o_type_const = true -> Forall (fun r => matches_row bf r = false) rows.
Proof.
  intros Hp Hot [H|H]%orb_true_iff; apply Forall_forall; intros r Hr; apply not_true_iff_false; intros Hm.
  - destruct (bf_p_id bf) as [b|] eqn:Eb, p_const as [c|]; try done. cbn in H.
    apply (matches_bound _ _ SortP b) in Hm; [|done]. cbn in Hm. rewrite (Hp r c) in Hm by done. lia.
  - destruct (bf_o_type bf) as [b|] eqn:Eb, o_type_const as [c|]; try done. cbn in H.
    apply (matches_bound _ _ SortOType b) in Hm; [|done]. cbn in Hm. rewrite (Hot r c) in Hm by done. lia.
Qed.

(** ** The bound prefix *)

Lemma partition_point_lookup {A} (p : A -> bool) l :
  (forall i j x y, l !! i = Some x -> l !! j = Some y -> (i < j)%nat -> p y = true -> p x = true) ->
  forall i x, l !! i = Some x -> (i < partition_point p l)%nat <-> p x = true.
Proof.
  induction l as [|a l IH]; intros Hdown i x Hi; [done|]. cbn [partition_point].
  assert (forall i j x y, l !! i = Some x -> l !! j = Some y -> (i < j)%nat -> p y = true -> p x = true) as Hd.
  { intros i' j' x' y' Hi' Hj' Hlt. apply (Hdown (S i') (S j')); [done|done|lia]. }
  destruct (p a) eqn:Ea; destruct i as [|i].
  - injection Hi as ->. rewrite Ea. split; [done|lia].
  - rewrite <- (IH Hd i x Hi). lia.
  - injection Hi as ->. rewrite Ea. split; [lia|done].
  - split; [lia|]. intros Hx. rewrite (Hdown 0%nat (S i) a x) in Ea by (done || lia). done.
Qed.

(** The rows of the range are those that carry the bounds of [fields]. *)
Definition range_of (bf : BinaryFilter) (rows : list RunRecordV2) (fields : list SortField) (range : nat * nat) : Prop :=
  (range.1 <= range.2 <= length rows)%nat /\
  forall i r, rows !! i = Some r ->
    (range.1 <= i < range.2)%nat <-> Forall (fun f => bound_value bf f = Some (field_value r f)) fields.

Lemma lex_prefix fields rest bf a b :
  Forall (fun f => bound_value bf f = Some (field_value a f)) fields ->
  Forall (fun f => bound_value bf f = Some (field_value b f)) fields ->
  lex (fields ++ rest) a b = lex rest a b.
Proof.
  induction fields as [|f fields IH]; [done|]. intros [Ha Has]%Forall_cons [Hb Hbs]%Forall_cons. cbn.
  rewrite IH by done. replace (field_value b f) with (field_value a f) by congruence. by rewrite Z.compare_refl.
Qed.

Section cascade.
Context (bf : BinaryFilter) (b : ColumnBatch) (rows : list RunRecordV2) (o : RunSortOrder).
Context (Hb : batch_holds b rows) (Hs : StronglySorted (run_lt o) rows).

(** The columns hold the fields, but for the optional list index. *)
Lemma column_gives f i r : f <> SortOI -> rows !! i = Some r -> col_get (batch_column b f) i = Ok (field_value r f).
Proof.
  intros Hf Hi. destruct (batch_row_columns b i r (batch_holds_row _ _ _ _ Hb Hi)) as (?&?&?&?&?&?&_).
  by destruct f.
Qed.

Lemma block_values f arr i r :
  f <> SortOI -> batch_column b f = ColBlock arr -> rows !! i = Some r -> arr !! i = Some (field_value r f).
Proof.
  intros Hf E Hi. pose proof (column_gives f i r Hf Hi) as H. rewrite E in H. cbn in H.
  destruct (arr !! i); [by injection H as ->|done].
Qed.

Lemma range_sorted fields f rest lo hi i j a c :
  range_of bf rows fields (lo, hi) -> sort_fields o = fields ++ f :: rest ->
  rows !! i = Some a -> rows !! j = Some c -> (lo <= i)%nat -> (i < j)%nat -> (j < hi)%nat ->
  field_value a f <= field_value c f.
Proof.
  intros [_ Hr] Ho Ha Hc Hi Hij Hj. pose proof (sorted_lookup _ _ i j _ _ Hs Ha Hc Hij) as Hlt.
  unfold run_lt in Hlt. rewrite cmp_fields, Ho, (lex_prefix _ _ bf) in Hlt by (eapply Hr; [done|cbn; lia]).
  cbn in Hlt. destruct (Z.compare_spec (field_value a f) (field_value c f)); [lia|lia|done].
Qed.

Lemma cascade_step fields f rest range v :
  range_of bf rows fields range -> sort_fields o = fields ++ f :: rest -> f <> SortOI ->
  bound_value bf f = Some v -> batch_column b f <> ColAbsentDefault ->
  exists range', cascade range (batch_column b f) (Some v) = Ok (Narrowed range') /\
    range_of bf rows (fields ++ [f]) range'.
Proof.
  intros Hr Ho Hf Hv Habs. destruct range as [lo hi]. pose proof Hr as [Hbd Hin]. cbn [fst snd] in *.
  destruct (batch_column b f) as [arr|c|] eqn:Ec; [| |done]; cbn [cascade].
  - assert (forall i r, rows !! i = Some r -> arr !! i = Some (field_value r f)) as Harr
      by (intros i r; by apply block_values).
    assert ((hi <= length arr)%nat) as Hlen.
    { destruct hi as [|hi']; [lia|]. destruct (lookup_lt_is_Some_2 rows hi' ltac:(lia)) as [r Hri].
      apply Harr, lookup_lt_Some in Hri. lia. }
    destruct (Nat.ltb_spec hi lo); [lia|]. destruct (Nat.ltb_spec (length arr) hi); [lia|]. cbn [orb].
    set (window := take (hi - lo) (drop lo arr)).
    assert (length window = (hi - lo)%nat) as Hwl by (unfold window; rewrite length_take, length_drop; lia).
    assert (forall k x, window !! k = Some x ->
      exists r, rows !! (lo + k)%nat = Some r /\ x = field_value r f /\ (lo + k < hi)%nat) as Hw.
    { intros k x Hk. apply lookup_lt_Some in Hk as Hkl. unfold window in Hk.
      rewrite lookup_take_lt, lookup_drop in Hk by lia.
      destruct (lookup_lt_is_Some_2 rows (lo + k) ltac:(lia)) as [r Hri]. exists r.
      rewrite (Harr _ _ Hri) in Hk. split_and!; [done|congruence|lia]. }
    assert (forall p : Z -> bool, (forall x y, x <= y -> p y = true -> p x = true) ->
      forall i r, rows !! i = Some r -> (lo <= i)%nat -> (i < hi)%nat ->
      (i < lo + partition_point p window)%nat <-> p (field_value r f) = true) as Hpp.
    { intros p Hp i r Hi Hl Hh.
      assert (window !! (i - lo)%nat = Some (field_value r f)) as Hk.
      { unfold window. rewrite lookup_take_lt, lookup_drop by lia. replace (lo + (i - lo))%nat with i by lia. by apply Harr. }
      rewrite <- (partition_point_lookup p window) with (i := (i - lo)%nat); [|clear Hk|exact Hk].
      - lia.
      - intros k k' x y Hk Hk' Hlt. destruct (Hw _ _ Hk) as (a & Ha & -> & Hah).
        destruct (Hw _ _ Hk') as (a' & Ha' & -> & Hah').
        apply Hp. apply (range_sorted fields f rest lo hi (lo + k) (lo + k') a a' Hr Ho Ha Ha'); lia. }
    pose proof (partition_point_le (fun x => x <? v)%Z window).
    pose proof (partition_point_le (fun x => x <=? v)%Z window).
    eexists. split; [reflexivity|]. split; cbn [fst snd].
    + split; [|lia]. apply Nat.add_le_mono_l.
      clear -window. induction window as [|x w IH]; cbn; [lia|].
      destruct (Z.ltb_spec x v), (Z.leb_spec x v); lia.
    + intros i r Hi. rewrite Forall_app, Forall_singleton, <- (Hin i r Hi), Hv.
      assert (lo <= i -> i < hi -> (i < lo + partition_point (fun x => x <? v)%Z window <-> (field_value r f < v)%Z))%nat as Ha.
      { intros ? ?. rewrite <- Z.ltb_lt. apply (Hpp (fun x => x <? v)%Z); [intros x y; lia|done|done|done]. }
      assert (lo <= i -> i < hi -> (i < lo + partition_point (fun x => x <=? v)%Z window <-> (field_value r f <= v)%Z))%nat as Hc.
      { intros ? ?. rewrite <- Z.leb_le. apply (Hpp (fun x => x <=? v)%Z); [intros x y; lia|done|done|done]. }
      split; [intros Hrg; split; [lia|f_equal; lia]|]. intros [Hrg [= E]]. lia.
  - assert (forall i r, rows !! i = Some r -> field_value r f = c) as Hc.
    { intros i r Hi. pose proof (column_gives f i r Hf Hi) as H. rewrite Ec in H. by injection H. }
    destruct (Z.eqb_spec c v) as [->|Hne]; (eexists; split; [reflexivity|]; split; cbn [fst snd]; [lia|]);
      intros i r Hi; rewrite Forall_app, Forall_singleton, <- (Hin i r Hi), Hv.
    + rewrite (Hc i r Hi). tauto.
    + rewrite (Hc i r Hi). split; [lia|]. intros [_ [=]]. congruence.
Qed.

Definition all_bound (fields : list SortField) : Prop := Forall (fun f => is_Some (bound_value bf f)) fields.

Lemma cascade_stop fields range : cascade_all bf b fields (Stop range) = Ok (Stop range).
Proof. induction fields as [|f fields IH]; [done|]. cbn. exact IH. Qed.

Lemma cascade_all_range rest : forall fields range tail_,
  range_of bf rows fields range -> all_bound fields -> sort_fields o = fields ++ rest ++ tail_ ->
  Forall (fun f => f <> SortOI) rest ->
  exists c fields', cascade_all bf b rest (Narrowed range) = Ok c /\
    range_of bf rows fields' (into_range c) /\ all_bound fields'.
Proof.
  induction rest as [|f rest IH]; intros fields range tail_ Hr Hbd Ho Hoi.
  - exists (Narrowed range), fields. done.
  - apply Forall_cons in Hoi as [Hf Hoi]. cbn [cascade_all cascade_and_then].
    destruct (bound_value bf f) as [v|] eqn:Ev.
    + destruct (batch_column b f) as [arr|c|] eqn:Ec.
      3: { cbn. rewrite cascade_stop. by exists (Stop range), fields. }
      all: destruct (cascade_step fields f (rest ++ tail_) range v Hr Ho Hf Ev) as (range' & Hc & Hr');
        [by rewrite Ec|]; rewrite Ec in Hc; rewrite Hc; cbn [mbind outcome_bind];
        apply (IH (fields ++ [f]) range' tail_ Hr'); [|by rewrite <- app_assoc|done];
        apply Forall_app; split; [done|]; apply Forall_singleton; by rewrite Ev.
    + cbn. rewrite cascade_stop. by exists (Stop range), fields.
Qed.

(** Rows outside the searched range do not match. *)
Lemma leading_range_sound :
  exists start end_, leading_bound_range bf b o = Ok (start, end_) /\ (start <= end_ <= length rows)%nat /\
    forall i r, rows !! i = Some r -> matches_row bf r = true -> (start <= i < end_)%nat.
Proof.
  assert (exists tail_, sort_fields o = cascade_fields o ++ tail_) as [tail_ Ho] by (destruct o; by eexists).
  destruct (cascade_all_range (cascade_fields o) [] (0%nat, length rows) tail_) as (c & fields & Hc & [Hbd Hin] & Hall).
  - split; cbn; [lia|]. intros i r Hi%lookup_lt_Some. split; [done|lia].
  - constructor.
  - done.
  - destruct o; repeat constructor; done.
  - unfold leading_bound_range. rewrite (batch_holds_count _ _ Hb), Hc. cbn [mbind outcome_bind].
    destruct (into_range c) as [start end_]. exists start, end_. split_and!; [done|apply Hbd|apply Hbd|].
    intros i r Hi Hm. apply (Hin i r Hi). unfold all_bound in Hall. rewrite Forall_forall in Hall |- *.
    intros f Hf. destruct (Hall f Hf) as [v Hv]. rewrite Hv. f_equal. symmetry. by eapply matches_bound.
Qed.

(** ** Filtered batches *)

Lemma row_matches_row i r : rows !! i = Some r -> row_matches bf b i = Ok (matches_row bf r).
Proof.
  intros Hi. destruct (batch_row_columns b i r (batch_holds_row _ _ _ _ Hb Hi)) as (Es & Ek & Ep & _ & Ei & Et & _).
  unfold row_matches. rewrite Es, Ek. cbn [mbind outcome_bind].
  rewrite (get_or_of_get _ _ _ 0 Ep), (get_or_of_get _ _ _ 0 Et). cbn [mbind outcome_bind].
  change u32_max with OI_NONE. by rewrite Ei.
Qed.

Definition row_at (i : nat) : bool := match rows !! i with Some r => matches_row bf r | None => false end.

Lemma matching_rows_filter n : forall i,
  (i + n <= length rows)%nat -> matching_rows bf b i n = Ok (List.filter row_at (seq i n)).
Proof.
  induction n as [|n IH]; intros i Hn; [done|]. cbn [matching_rows seq List.filter].
  destruct (lookup_lt_is_Some_2 rows i ltac:(lia)) as [r Hr].
  rewrite (row_matches_row i r Hr). cbn [mbind outcome_bind]. rewrite IH by lia. cbn [mbind outcome_bind].
  assert (row_at i = matches_row bf r) as -> by (unfold row_at; by rewrite Hr). by destruct (matches_row bf r).
Qed.

Lemma batch_row_get_or i r : rows !! i = Some r -> forall d,
  Forall (fun col => is_Some (match col_get_or col i d with Ok v => Some v | _ => None end))
    [cb_s_id b; cb_o_key b; cb_p_id b; cb_o_type b; cb_o_i b; cb_t b].
Proof.
  intros Hi d. destruct (batch_row_columns b i r (batch_holds_row _ _ _ _ Hb Hi)) as (Es & Ek & Ep & Et & Ei & Eo & _).
  assert (forall c d' v, col_get_or c i d' = Ok v -> is_Some (match col_get_or c i d with Ok v => Some v | _ => None end)) as Hd.
  { intros [vs|c|] d' v; cbn; [|done|done]. by destruct (vs !! i). }
  repeat (apply Forall_cons; split); try apply Forall_nil; try done.
  - rewrite (get_or_of_get _ _ _ d Es). done.
  - rewrite (get_or_of_get _ _ _ d Ek). done.
  - rewrite (get_or_of_get _ _ _ d Ep). done.
  - rewrite (get_or_of_get _ _ _ d Eo). done.
  - by eapply Hd.
  - by eapply Hd.
Qed.
End cascade.

(** Column [col'] has the values of [col] at [indices]. *)
Definition gathers (col col' : ColumnData) (indices : list nat) : Prop :=
  forall k i, indices !! k = Some i ->
    col_get col' k = col_get col i /\ forall d, col_get_or col' k d = col_get_or col i d.

Lemma gather_column_gathers col indices :
  Forall (fun i => is_Some (match col_get_or col i 0 with Ok v => Some v | _ => None end)) indices ->
  exists col', gather_column col indices = Ok col' /\ gathers col col' indices.
Proof.
  intros Hin. destruct col as [arr|c|]; [|by eexists|by eexists].
  assert (exists vs, gather_values arr indices = Ok vs /\ forall k i, indices !! k = Some i -> vs !! k = arr !! i)
    as (vs & Hvs & Hk).
  { induction Hin as [|i indices Hi _ IH]; [by exists []|]. destruct IH as (vs & Hvs & Hk). cbn in Hi |- *.
    destruct (arr !! i) as [v|] eqn:Ev; [|by destruct Hi]. rewrite Hvs. exists (v :: vs). split; [done|].
    intros [|k] i'; cbn; [by intros [= <-]|apply Hk]. }
  exists (ColBlock vs). cbn. rewrite Hvs. split; [done|]. intros k i Hki. cbn. by rewrite (Hk k i Hki).
Qed.

Lemma gather_batch_holds b rows indices out :
  batch_holds b rows -> Forall2 (fun i r => rows !! i = Some r) indices out ->
  exists b', gather_batch b indices = Ok b' /\ batch_holds b' out.
Proof.
  intros Hb HF.
  assert (forall col, col ∈ [cb_s_id b; cb_o_key b; cb_p_id b; cb_o_type b; cb_o_i b; cb_t b] ->
    exists col', gather_column col indices = Ok col' /\ gathers col col' indices) as Hg.
  { intros col Hcol. apply gather_column_gathers. apply Forall_lookup. intros k i Hk.
    destruct (Forall2_lookup_l _ _ _ _ _ HF Hk) as (r & _ & Hr).
    pose proof (batch_row_get_or b rows Hb i r Hr 0) as H. rewrite Forall_forall in H. by apply H. }
  unfold gather_batch.
  destruct (Hg (cb_s_id b)) as (s & -> & Gs); [set_solver|]. destruct (Hg (cb_o_key b)) as (ok & -> & Gok); [set_solver|].
  destruct (Hg (cb_p_id b)) as (p & -> & Gp); [set_solver|]. destruct (Hg (cb_o_type b)) as (ot & -> & Got); [set_solver|].
  destruct (Hg (cb_o_i b)) as (oi & -> & Goi); [set_solver|]. destruct (Hg (cb_t b)) as (t & -> & Gt); [set_solver|].
  eexists. split; [reflexivity|]. apply batch_holds_spec. cbn.
  split; [symmetry; by eapply Forall2_length|]. intros k r Hk.
  destruct (Forall2_lookup_r _ _ _ _ _ HF Hk) as (i & Hi & Hr). rewrite <- (batch_holds_row _ _ _ _ Hb Hr).
  unfold batch_row_to_record. cbn.
  by rewrite (proj1 (Gs k i Hi)), (proj1 (Gok k i Hi)), (proj1 (Gp k i Hi)), (proj2 (Gt k i Hi)), (proj2 (Goi k i Hi)), (proj1 (Got k i Hi)).
Qed.

Lemma filter_seq_range {A} (p : A -> bool) (rows : list A) start end_ :
  (start <= end_ <= length rows)%nat ->
  (forall i r, rows !! i = Some r -> p r = true -> (start <= i < end_)%nat) ->
  Forall2 (fun i r => rows !! i = Some r)
    (List.filter (fun i => match rows !! i with Some r => p r | None => false end) (seq start (end_ - start)))
    (List.filter p rows).
Proof.
  revert start end_. induction rows as [|r rows IH]; intros start end_ Hle Hin.
  - cbn in Hle. replace (end_ - start)%nat with 0%nat by lia. constructor.
  - assert (forall n m, List.filter (fun i => match (r :: rows) !! i with Some r => p r | None => false end) (seq (S n) m)
      = S <$> List.filter (fun i => match rows !! i with Some r => p r | None => false end) (seq n m)) as Hshift.
    { intros n m. revert n. induction m as [|m IHm]; intros n; [done|]. cbn. rewrite IHm.
      by destruct (match rows !! n with Some r0 => p r0 | None => false end). }
    assert (forall n m, (n <= m <= length rows)%nat -> (forall i r, rows !! i = Some r -> p r = true -> (n <= i < m)%nat) ->
      Forall2 (fun i x => (r :: rows) !! i = Some x)
        (List.filter (fun i => match (r :: rows) !! i with Some r => p r | None => false end) (seq (S n) (m - n)))
        (List.filter p rows)) as Hrest.
    { intros n m Hnm Hin'. rewrite Hshift. apply Forall2_fmap_l. eapply Forall2_impl; [by apply IH|]. done. }
    destruct start as [|start].
    + destruct end_ as [|end_].
      * assert (forall x, x ∈ r :: rows -> p x = false) as Hno.
        { intros x [i Hi]%list_elem_of_lookup. destruct (p x) eqn:Ep; [|done]. specialize (Hin i x Hi Ep). lia. }
        rewrite (filter_none p); [constructor|]. apply Forall_forall. done.
      * rewrite Nat.sub_0_r. cbn [seq List.filter]. rewrite lookup_cons. cbn -[seq].
        specialize (Hrest 0%nat end_). rewrite Nat.sub_0_r in Hrest.
        destruct (p r); [constructor; [done|]|]; (apply Hrest; [cbn in Hle; lia|]; intros i x Hi Hp; specialize (Hin (S i) x Hi Hp); lia).
    + destruct (p r) eqn:Er; [specialize (Hin 0%nat r eq_refl Er); lia|]. destruct end_ as [|end_]; [lia|].
      cbn [List.filter]. rewrite Er. apply (Hrest start end_); [cbn in Hle; lia|].
      intros i x Hi Hp. specialize (Hin (S i) x Hi Hp). lia.
Qed.

Lemma filter_length_all {A} (p : A -> bool) l : length (List.filter p l) = length l -> List.filter p l = l.
Proof.
  induction l as [|x l IH]; [done|]. cbn. destruct (p x); cbn; [by intros [= H]; rewrite IH|].
  pose proof (List.filter_length_le p l). lia.
Qed.

Lemma filter_batch_holds bf b o rows :
  batch_holds b rows -> StronglySorted (run_lt o) rows ->
  exists b', filter_batch bf b o = Ok b' /\ batch_holds b' (List.filter (matches_row bf) rows).
Proof.
  intros Hb Hs. destruct (leading_range_sound bf b rows o Hb Hs) as (start & end_ & Hr & Hle & Hin).
  unfold filter_batch. rewrite Hr. cbn [mbind outcome_bind].
  rewrite (matching_rows_filter bf b rows Hb) by lia. cbn [mbind outcome_bind].
  pose proof (filter_seq_range (matches_row bf) rows start end_ Hle Hin) as HF.
  change (fun i => match rows !! i with Some r => matches_row bf r | None => false end) with (row_at bf rows) in HF.
  rewrite (Forall2_length _ _ _ HF), (batch_holds_count _ _ Hb).
  destruct (Nat.eqb_spec (length (List.filter (matches_row bf) rows)) (length rows)) as [E|_].
  - exists b. split; [done|]. by rewrite filter_length_all.
  - by apply (gather_batch_holds b rows).
Qed.

(** The constants of a leaflet are those of its rows. *)
Lemma leaflet_skip_sound bf o rows first :
  head rows = Some first -> leaflet_rows_ok o rows ->
  skip_leaflet bf (leaflet_p_const o first) (leaflet_o_type_const o first rows) = true ->
  Forall (fun r => matches_row bf r = false) rows.
Proof.
  intros Hf [_ _ Hp Hot] Hk. destruct rows as [|r rest]; [done|]. injection Hf as ->. eapply skip_sound; [| |exact Hk].
  - intros x p Hx. unfold leaflet_p_const. destruct o; intros [= <-]; (apply Hp; [auto|done|left]).
  - intros x ot Hx. unfold leaflet_o_type_const. destruct o; [done| | |intros [= <-]; by apply Hot; [|done|left]];
      (destruct (all_type _ _) eqn:Ea; [|done]; intros [= <-]; unfold all_type in Ea;
       rewrite forallb_forall in Ea; apply list_elem_of_In in Hx; specialize (Ea x Hx); lia).
Qed.

(** C26: filtering a batch of sorted rows, with its binary searches on the bound
    prefix of the order, never panics and gives a batch of exactly the rows that
    match, in order; and a leaflet skipped by its constants or its key range
    holds none. *)
Theorem filter_exact bf b o rows :
  batch_holds b rows -> StronglySorted (run_lt o) rows ->
  (exists b', filter_batch bf b o = Ok b' /\ batch_holds b' (List.filter (matches_row bf) rows)) /\
  (forall first last_, head rows = Some first -> last rows = Some last_ -> rr_wf first -> rr_wf last_ ->
    leaflet_out_of_range bf o (write_ordered_key_v2 o first) (write_ordered_key_v2 o last_) = true ->
    List.filter (matches_row bf) rows = []) /\
  (forall first, head rows = Some first -> leaflet_rows_ok o rows ->
    skip_leaflet bf (leaflet_p_const o first) (leaflet_o_type_const o first rows) = true ->
    List.filter (matches_row bf) rows = []).
Proof.
  intros Hb Hs. split_and!.
  - by apply filter_batch_holds.
  - intros first last_ Hf Hl Hwf Hwl Ho. apply filter_none. by eapply leaflet_range_sound.
  - intros first Hf Hok Hk. by eapply filter_none, leaflet_skip_sound.
Qed.
