(* ===== verification/Overlay.v ===== *)
(** * Overlay operations (read/types.rs)

    Novelty in the integer space of the index: sorted by the order of a cursor,
    resolved to one operation per fact and cut to the window of a key range. *)

From S2P Require Import Prelude Bytes Cmp Segment RunRecord HistorySidecar IndexLog.
From stdpp Require Import base list numbers sorting gmap.
From Stdlib Require Import ZArith Lia.

Local Open Scope Z_scope.

Record OverlayOp := mkOverlay {
  ov_s_id : Z; ov_p_id : Z; ov_o_type : Z; ov_o_key : Z; ov_o_i : Z; ov_t : Z; ov_op : bool;
}.

#[export] Instance OverlayOp_eq_dec : EqDecision OverlayOp.
Proof. solve_decision. Defined.

Definition ov_key (ov : OverlayOp) : FactKeyV3 :=
  mkFactKey (ov_s_id ov) (ov_p_id ov) (ov_o_type ov) (ov_o_key ov) (ov_o_i ov).

Definition cmp_overlay_v3 (o : RunSortOrder) (a b : OverlayOp) : comparison :=
  match o with
  | RSpot => then_with (ov_s_id a ?= ov_s_id b) (then_with (ov_p_id a ?= ov_p_id b)
      (then_with (ov_o_type a ?= ov_o_type b) (then_with (ov_o_key a ?= ov_o_key b) (ov_o_i a ?= ov_o_i b))))
  | RPsot => then_with (ov_p_id a ?= ov_p_id b) (then_with (ov_s_id a ?= ov_s_id b)
      (then_with (ov_o_type a ?= ov_o_type b) (then_with (ov_o_key a ?= ov_o_key b) (ov_o_i a ?= ov_o_i b))))
  | RPost => then_with (ov_p_id a ?= ov_p_id b) (then_with (ov_o_type a ?= ov_o_type b)
      (then_with (ov_o_key a ?= ov_o_key b) (then_with (ov_o_i a ?= ov_o_i b) (ov_s_id a ?= ov_s_id b))))
  | ROpst => then_with (ov_o_type a ?= ov_o_type b) (then_with (ov_o_key a ?= ov_o_key b)
      (then_with (ov_o_i a ?= ov_o_i b) (then_with (ov_p_id a ?= ov_p_id b) (ov_s_id a ?= ov_s_id b))))
  end.

Definition cmp_row_vs_overlay (s_id p_id o_type o_key o_i : Z) (ov : OverlayOp) (o : RunSortOrder) : comparison :=
  match o with
  | RSpot => then_with (s_id ?= ov_s_id ov) (then_with (p_id ?= ov_p_id ov)
      (then_with (o_type ?= ov_o_type ov) (then_with (o_key ?= ov_o_key ov) (o_i ?= ov_o_i ov))))
  | RPsot => then_with (p_id ?= ov_p_id ov) (then_with (s_id ?= ov_s_id ov)
      (then_with (o_type ?= ov_o_type ov) (then_with (o_key ?= ov_o_key ov) (o_i ?= ov_o_i ov))))
  | RPost => then_with (p_id ?= ov_p_id ov) (then_with (o_type ?= ov_o_type ov)
      (then_with (o_key ?= ov_o_key ov) (then_with (o_i ?= ov_o_i ov) (s_id ?= ov_s_id ov))))
  | ROpst => then_with (o_type ?= ov_o_type ov) (then_with (o_key ?= ov_o_key ov)
      (then_with (o_i ?= ov_o_i ov) (then_with (p_id ?= ov_p_id ov) (s_id ?= ov_s_id ov))))
  end.

Definition cmp_overlay_vs_record (ov : OverlayOp) (rec : RunRecordV2) (o : RunSortOrder) : comparison :=
  match o with
  | RSpot => then_with (ov_s_id ov ?= rr_s_id rec) (then_with (ov_p_id ov ?= rr_p_id rec)
      (then_with (ov_o_type ov ?= rr_o_type rec) (then_with (ov_o_key ov ?= rr_o_key rec) (ov_o_i ov ?= rr_o_i rec))))
  | RPsot => then_with (ov_p_id ov ?= rr_p_id rec) (then_with (ov_s_id ov ?= rr_s_id rec)
      (then_with (ov_o_type ov ?= rr_o_type rec) (then_with (ov_o_key ov ?= rr_o_key rec) (ov_o_i ov ?= rr_o_i rec))))
  | RPost => then_with (ov_p_id ov ?= rr_p_id rec) (then_with (ov_o_type ov ?= rr_o_type rec)
      (then_with (ov_o_key ov ?= rr_o_key rec) (then_with (ov_o_i ov ?= rr_o_i rec) (ov_s_id ov ?= rr_s_id rec))))
  | ROpst => then_with (ov_o_type ov ?= rr_o_type rec) (then_with (ov_o_key ov ?= rr_o_key rec)
      (then_with (ov_o_i ov ?= rr_o_i rec) (then_with (ov_p_id ov ?= rr_p_id rec) (ov_s_id ov ?= rr_s_id rec))))
  end.

(** [better]: the later operation of a fact, a retract over an assert of one
    time. *)
Definition ov_better (x best : OverlayOp) : bool :=
  (ov_t best <? ov_t x) || ((ov_t x =? ov_t best) && negb (ov_op x) && ov_op best).

(** The loop of [resolve_overlay_ops] inside a group with [best] in hand. *)
Fixpoint resolve_from (best : OverlayOp) (ops : list OverlayOp) : list OverlayOp :=
  match ops with
  | [] => [best]
  | x :: ops =>
      if bool_decide (ov_key x = ov_key best)
      then resolve_from (if ov_better x best then x else best) ops
      else best :: resolve_from x ops
  end.

Definition resolve_overlay_ops (ops : list OverlayOp) : list OverlayOp :=
  match ops with [] => [] | x :: ops => resolve_from x ops end.

Definition is_Lt (c : comparison) : bool := match c with Lt => true | _ => false end.
Definition is_Gt (c : comparison) : bool := match c with Gt => true | _ => false end.

Definition overlay_window_for_range (ops : list OverlayOp) (min_key max_key : RunRecordV2) (o : RunSortOrder)
    : nat * nat :=
  let start := partition_point (fun ov => is_Lt (cmp_overlay_vs_record ov min_key o)) ops in
  let end_ := partition_point (fun ov => negb (is_Gt (cmp_overlay_vs_record ov max_key o))) ops in
  (start, Nat.max end_ start).

Section sort.
Context `{SL : SortLib}.
Definition sort_overlay_ops (ops : list OverlayOp) (o : RunSortOrder) : list OverlayOp :=
  sort_by (cmp_overlay_v3 o) ops.
End sort.

(** ** One comparator *)

(** The identity of an operation as a record. *)
Definition ov_record (ov : OverlayOp) : RunRecordV2 :=
  mkRun (ov_s_id ov) (ov_o_key ov) (ov_p_id ov) 0 (ov_o_i ov) (ov_o_type ov) 0.

Lemma ov_record_key ov : rr_key (ov_record ov) = ov_key ov.
Proof. done. Qed.

Lemma cmp_overlay_record o a b : cmp_overlay_v3 o a b = cmp_v2_for_order o (ov_record a) (ov_record b).
Proof. by destruct o. Qed.
Lemma cmp_row_record o r ov :
  cmp_row_vs_overlay (rr_s_id r) (rr_p_id r) (rr_o_type r) (rr_o_key r) (rr_o_i r) ov o
  = cmp_v2_for_order o r (ov_record ov).
Proof. by destruct o. Qed.
Lemma cmp_record_overlay o ov rec : cmp_overlay_vs_record ov rec o = cmp_v2_for_order o (ov_record ov) rec.
Proof. by destruct o. Qed.

#[export] Instance cmp_laws_overlay o : CmpLaws everything (cmp_overlay_v3 o).
Proof.
  eapply (cmp_laws_ext _ _ (fun a b => cmp_v2_for_order o (ov_record a) (ov_record b))).
  - intros a b _ _. apply cmp_overlay_record.
  - apply (cmp_laws_key _ everything ov_record); [done|apply _].
Qed.

(** Operations in the strict order of a cursor: one per fact. *)
Definition ov_lt (o : RunSortOrder) (a b : OverlayOp) : Prop := run_lt o (ov_record a) (ov_record b).

(** ** Resolution *)

(** [x] decides its fact among [ops]. *)
Definition yields (y x : OverlayOp) : Prop :=
  ov_t y < ov_t x \/ ov_t y = ov_t x /\ ov_op y = true /\ ov_op x = false.

Definition decides (ops : list OverlayOp) (x : OverlayOp) : Prop :=
  x ∈ ops /\ forall y, y ∈ ops -> ov_key y = ov_key x -> y = x \/ yields y x.

Definition ov_le (o : RunSortOrder) (a b : OverlayOp) : Prop := cmp_v2_for_order o (ov_record a) (ov_record b) <> Gt.

Lemma ov_eq_of a b : ov_key a = ov_key b -> ov_t a = ov_t b -> ov_op a = ov_op b -> a = b.
Proof. destruct a, b; cbn. intros [= -> -> -> -> ->] -> ->. done. Qed.

Lemma ov_better_spec x y : ov_key x = ov_key y ->
  if ov_better x y then yields y x else x = y \/ yields x y.
Proof.
  intros Hk. unfold ov_better, yields. destruct (Z.ltb_spec (ov_t y) (ov_t x)); cbn; [by left|].
  destruct (Z.eqb_spec (ov_t x) (ov_t y)) as [E|]; cbn; [|right; left; lia].
  destruct (ov_op x) eqn:Ex, (ov_op y) eqn:Ey; cbn; auto using ov_eq_of.
  - left. apply ov_eq_of; congruence.
  - left. apply ov_eq_of; congruence.
Qed.

Lemma yields_trans a b c : yields a b -> yields b c -> yields a c.
Proof. unfold yields. intros [?|(?&?&?)] [?|(?&?&?)]; first [left; lia | congruence]. Qed.

Lemma yields_asym a b : yields a b -> yields b a -> False.
Proof. unfold yields. intros [?|(?&?&?)] [?|(?&?&?)]; first [lia | congruence]. Qed.

Lemma decides_group best x ops z : ov_key x = ov_key best ->
  decides (best :: x :: ops) z <-> decides ((if ov_better x best then x else best) :: ops) z.
Proof.
  intros Hk. pose proof (ov_better_spec x best Hk) as Hb. set (w := if ov_better x best then x else best) in *.
  assert (exists l, (w = best /\ l = x \/ w = x /\ l = best) /\ (l = w \/ yields l w)) as (l & Hwl & Hd).
  { unfold w. destruct (ov_better x best); [exists best|exists x]; naive_solver. }
  assert (forall y, y ∈ best :: x :: ops <-> y = w \/ y = l \/ y ∈ ops) as Hin
    by (intros y; rewrite !elem_of_cons; naive_solver).
  assert (ov_key l = ov_key w) as Hkl by (destruct Hwl as [[-> ->]|[-> ->]]; congruence).
  clearbody w. clear Hb Hwl Hk. unfold decides. setoid_rewrite Hin. setoid_rewrite elem_of_cons. split.
  - intros [Hz Hall]. assert (z = w \/ z ∈ ops) as Hz'.
    { destruct Hz as [->|[->|]]; auto. destruct Hd as [->|Hd]; [auto|].
      destruct (Hall w (or_introl eq_refl) (eq_sym Hkl)) as [->|Hy]; [auto|]. by destruct (yields_asym _ _ Hd Hy). }
    split; [done|]. intros y [->|Hy] Hyk; apply Hall; auto.
  - intros [Hz Hall]. split; [naive_solver|]. intros y [->|[->|Hy]] Hyk; [apply Hall; auto| |apply Hall; auto].
    destruct (Hall w (or_introl eq_refl)) as [->|Hw]; [congruence|done|].
    right. destruct Hd as [->|Hd]; [done|]. by eapply yields_trans.
Qed.

Lemma decides_apart best ops z :
  Forall (fun y => ov_key y <> ov_key best) ops -> decides (best :: ops) z <-> z = best \/ decides ops z.
Proof.
  rewrite Forall_forall. intros Hne. unfold decides. setoid_rewrite elem_of_cons. split.
  - intros [[->|Hz] Hall]; [auto|right]. split; [done|]. intros y Hy. apply Hall. auto.
  - intros [->|[Hz Hall]]; [split; [auto|]|split; [auto|]].
    + intros y [->|Hy] Hk; [auto|]. by destruct (Hne y Hy).
    + intros y [->|Hy] Hk; [|by apply Hall]. by destruct (Hne z Hz).
Qed.

Lemma ov_le_key o a b c : ov_key a = ov_key b -> ov_le o a c -> ov_le o b c.
Proof. intros Hk. unfold ov_le. by rewrite (cmp_run_key o (ov_record a) (ov_record b) (ov_record c) (ov_record c)). Qed.

Lemma ov_le_apart o best x ops :
  ov_key x <> ov_key best -> ov_le o best x -> Forall (ov_le o x) ops -> Forall (fun y => ov_key y <> ov_key best) (x :: ops).
Proof.
  intros Hne Hbx Hx. constructor; [done|]. eapply Forall_impl; [exact Hx|]. cbn. intros y Hxy E.
  apply (ov_le_key o _ _ best) in E as Hyb; [|unfold ov_le; by rewrite (proj2 (cmp_run_Eq o _ _))].
  apply Hne. rewrite <- !ov_record_key. apply (cmp_run_Eq o). unfold ov_le in *.
  assert (cmp_v2_for_order o (ov_record x) (ov_record best) <> Gt) as Hxb
    by (by rewrite (cmp_run_key o (ov_record x) (ov_record x) (ov_record best) (ov_record y))).
  rewrite (cmp_sym (P := everything) (c := cmp_v2_for_order o) (ov_record best) (ov_record x)) in Hxb |- * by done.
  by destruct (cmp_v2_for_order o (ov_record best) (ov_record x)).
Qed.

Lemma resolve_from_spec o ops : forall best,
  StronglySorted (ov_le o) (best :: ops) ->
  StronglySorted (ov_lt o) (resolve_from best ops) /\ forall z, z ∈ resolve_from best ops <-> decides (best :: ops) z.
Proof.
  induction ops as [|x ops IH]; intros best Hs; cbn [resolve_from].
  - split; [repeat constructor|]. intros z. rewrite list_elem_of_singleton. unfold decides.
    setoid_rewrite list_elem_of_singleton. naive_solver.
  - apply StronglySorted_inv in Hs as [Hs Hb]. apply Forall_cons in Hb as [Hbx Hbo].
    apply StronglySorted_inv in Hs as [Hs' Hx]. case_bool_decide as Hk.
    + destruct (IH (if ov_better x best then x else best)) as [H1 H2].
      { constructor; [done|]. by destruct (ov_better x best). }
      split; [done|]. intros z. rewrite H2. symmetry. by apply decides_group.
    + assert (StronglySorted (ov_le o) (x :: ops)) as Hxs by by constructor.
      destruct (IH x Hxs) as [H1 H2].
      assert (Forall (fun y => ov_key y <> ov_key best) (x :: ops)) as Hne by by eapply ov_le_apart.
      split.
      * constructor; [done|]. apply Forall_forall. intros z [Hz _]%H2. unfold ov_lt, run_lt.
        assert (ov_le o best z) as Hle by (apply elem_of_cons in Hz as [->|Hz]; [done|]; rewrite Forall_forall in Hbo; by apply Hbo).
        unfold ov_le in Hle. rewrite Forall_forall in Hne. specialize (Hne z Hz).
        destruct (cmp_v2_for_order o (ov_record best) (ov_record z)) eqn:E; [|done|done].
        apply cmp_run_Eq in E. by rewrite !ov_record_key in E.
      * intros z. rewrite elem_of_cons, H2. symmetry. by apply decides_apart.
Qed.

Section resolve.
Context `{SL : SortLib, SLL : !SortLaws}.

(** Sorting and resolving overlay operations leaves, in the strict order of the
    cursor, exactly the operation that decides each fact: the latest, a retract
    over an assert of one time. *)
Theorem resolve_exact ops o :
  let res := resolve_overlay_ops (sort_overlay_ops ops o) in
  StronglySorted (ov_lt o) res /\ forall z, z ∈ res <-> decides ops z.
Proof.
  cbn zeta. assert (Forall everything ops) as Hall by by apply Forall_forall.
  pose proof (sort_by_perm _ (cmp_overlay_v3 o) ops _ Hall) as Hp.
  pose proof (sort_by_sorted _ (cmp_overlay_v3 o) ops _ Hall) as Hs.
  fold (sort_overlay_ops ops o) in Hp, Hs. set (srt := sort_overlay_ops ops o) in *.
  assert (forall z, decides srt z <-> decides ops z) as Hd by (intros z; unfold decides; by setoid_rewrite Hp).
  unfold resolve_overlay_ops. destruct srt as [|x rest].
  - split; [constructor|]. intros z. rewrite <- Hd. unfold decides. set_solver.
  - destruct (resolve_from_spec o rest x) as [H1 H2].
    { rewrite <- (list_fmap_id (x :: rest)). eapply StronglySorted_fmap; [|exact Hs]. intros a b. unfold cle, ov_le. by rewrite cmp_overlay_record. }
    split; [done|]. intros z. by rewrite H2, Hd.
Qed.
End resolve.
