(* ===== verification/Cursor.v ===== *)
(** * The index cursor (read/binary_cursor.rs, read/leaf_access.rs, format/branch.rs)

    A cursor walks the leaflets of a range of leaves, skips those that cannot
    match, replays them to an earlier transaction, filters their rows and merges
    the overlay operations of the novelty.  What does not change while it is read
    is its [CursorConfig]; [next_batch] moves its [CursorState].  The index store
    is the interface [LeafStore] that fetches blobs; leaflet caches, range reads
    and fuel are left out, and so are the debug assertions.  A cursor is not read
    on after an error. *)
From S2P Require Import Prelude Bytes Cmp Segment RunRecord Columns HistorySidecar IndexLog Replay Leaflet.
From S2P Require Import LeafBlob IndexFilter Overlay.
From stdpp Require Import base list numbers sorting gmap.
From Stdlib Require Import ZArith Lia.

Local Open Scope Z_scope.

(** ** Branches and leaf handles *)

(** A leaf entry names its blobs by the type [C] of content ids. *)
Record LeafEntry (C : Type) := mkLeafEntry {
  le_first_key : RunRecordV2; le_last_key : RunRecordV2; le_row_count : Z;
  le_leaf_cid : C; le_sidecar_cid : option C;
}.
Arguments mkLeafEntry {C}.
Arguments le_first_key {C}.
Arguments le_last_key {C}.
Arguments le_row_count {C}.
Arguments le_leaf_cid {C}.
Arguments le_sidecar_cid {C}.

Definition find_leaves_in_range {C} (leaves : list (LeafEntry C)) (min_key max_key : RunRecordV2)
    (o : RunSortOrder) : nat * nat :=
  match leaves with
  | [] => (0%nat, 0%nat)
  | _ =>
      (partition_point (fun e => is_Lt (cmp_v2_for_order o (le_last_key e) min_key)) leaves,
       partition_point (fun e => negb (is_Gt (cmp_v2_for_order o (le_first_key e) max_key))) leaves)
  end.

(** [FullBlobLeafHandle]. *)
Record LeafHandle := mkHandle { lh_bytes : bytes; lh_dir : DecodedLeafDirV3; lh_sidecar : option bytes }.

Definition full_blob_new (data : bytes) (sidecar : option bytes) : io LeafHandle :=
  header ← decode_leaf_header_v3 data;
  dir ← decode_leaf_dir_v3_with_base data header;
  mret (mkHandle data dir sidecar).

Class LeafStore (C : Type) := {
  store_max_t : Z;
  store_fetch : C -> io bytes;
}.

(** ** Overlay windows *)

Definition compute_overlay_window (ops : list OverlayOp) (leaf_first_key : RunRecordV2)
    (next_leaf_first_key : option RunRecordV2) (o : RunSortOrder) (is_first_leaf : bool) : nat * nat :=
  match ops with
  | [] => (0%nat, 0%nat)
  | _ =>
      (if is_first_leaf then 0%nat
       else partition_point (fun ov => is_Lt (cmp_overlay_vs_record ov leaf_first_key o)) ops,
       match next_leaf_first_key with
       | Some next_key => partition_point (fun ov => is_Lt (cmp_overlay_vs_record ov next_key o)) ops
       | None => length ops
       end)
  end.

(** ** State *)

Record CursorConfig (C : Type) := mkCursorConfig {
  cc_order : RunSortOrder; cc_leaves : list (LeafEntry C); cc_leaf_range : nat * nat;
  cc_filter : BinaryFilter; cc_projection : ColumnProjection;
  cc_overlay_ops : list OverlayOp; cc_overlay_end : nat; cc_to_t : Z;
  cc_range_min : option RunRecordV2; cc_range_max : option RunRecordV2;
}.
Arguments mkCursorConfig {C}.
Arguments cc_order {C}.
Arguments cc_leaves {C}.
Arguments cc_leaf_range {C}.
Arguments cc_filter {C}.
Arguments cc_projection {C}.
Arguments cc_overlay_ops {C}.
Arguments cc_overlay_end {C}.
Arguments cc_to_t {C}.
Arguments cc_range_min {C}.
Arguments cc_range_max {C}.

Record CursorState := mkCursorState {
  cs_current_leaf_idx : nat; cs_current_leaf : option LeafHandle; cs_current_leaflet_idx : nat;
  cs_exhausted : bool; cs_overlay_pos : nat; cs_leaf_overlay_end : nat;
}.

(** ** Construction *)

(** [i64::MAX] *)
Definition t_unbounded : Z := 2 ^ 63 - 1.

Section construct.
Context {C : Type}.

Definition initial_state (range : nat * nat) : CursorState := mkCursorState range.1 None 0 false 0 0.

Definition cursor_new (o : RunSortOrder) (leaves : list (LeafEntry C)) (min_key max_key : RunRecordV2)
    (f : BinaryFilter) (p : ColumnProjection) : CursorConfig C * CursorState :=
  let range := find_leaves_in_range leaves min_key max_key o in
  (mkCursorConfig o leaves range f p [] 0 t_unbounded (Some min_key) (Some max_key), initial_state range).

Definition scan_all (o : RunSortOrder) (leaves : list (LeafEntry C)) (f : BinaryFilter) (p : ColumnProjection)
    : CursorConfig C * CursorState :=
  let range := (0%nat, length leaves) in
  (mkCursorConfig o leaves range f p [] 0 t_unbounded None None, initial_state range).

Definition set_overlay_ops_window (cur : CursorConfig C * CursorState) (ops : list OverlayOp) (start end_ : nat)
    : CursorConfig C * CursorState :=
  let '(c, st) := cur in
  (mkCursorConfig (cc_order c) (cc_leaves c) (cc_leaf_range c) (cc_filter c) (cc_projection c) ops end_
     (cc_to_t c) (cc_range_min c) (cc_range_max c),
   mkCursorState (cs_current_leaf_idx st) (cs_current_leaf st) (cs_current_leaflet_idx st) (cs_exhausted st)
     start end_).

Definition set_overlay_ops (cur : CursorConfig C * CursorState) (ops : list OverlayOp)
    : CursorConfig C * CursorState :=
  set_overlay_ops_window cur ops 0 (length ops).

Definition set_to_t (cur : CursorConfig C * CursorState) (to_t : Z) : CursorConfig C * CursorState :=
  let '(c, st) := cur in
  (mkCursorConfig (cc_order c) (cc_leaves c) (cc_leaf_range c) (cc_filter c) (cc_projection c) (cc_overlay_ops c)
     (cc_overlay_end c) to_t (cc_range_min c) (cc_range_max c), st).
End construct.

(** ** Rows of a merge *)

Definition push_batch_row (b : ColumnBatch) (i : nat) : io RunRecordV2 :=
  s ← col_get (cb_s_id b) i;
  ok ← col_get (cb_o_key b) i;
  p ← col_get_or (cb_p_id b) i 0;
  ot ← col_get_or (cb_o_type b) i 0;
  oi ← col_get_or (cb_o_i b) i u32_max;
  t ← col_get_or (cb_t b) i 0;
  mret (mkRun s ok p t oi ot 0).

Definition push_overlay_row (ov : OverlayOp) : RunRecordV2 :=
  let t := Z.max (ov_t ov) 0 in
  mkRun (ov_s_id ov) (ov_o_key ov) (ov_p_id ov) (if t <=? u32_max then t else u32_max) (ov_o_i ov) (ov_o_type ov) 0.

(** The batch the output vectors become. *)
Definition block_batch (rows : list RunRecordV2) : ColumnBatch :=
  mkBatch (length rows) (ColBlock (rr_s_id <$> rows)) (ColBlock (rr_o_key <$> rows)) (ColBlock (rr_p_id <$> rows))
    (ColBlock (rr_o_type <$> rows)) (ColBlock (rr_o_i <$> rows)) (ColBlock (rr_t <$> rows)).

Section cursor.
Context {C : Type} `{LS : LeafStore C, SL : SortLib, SO : StatesOrder, CZ : ColumnZstd}.
Context (c : CursorConfig C).

Definition need_replay : bool := cc_to_t c <? store_max_t.

Definition open_leaf_handle (leaf_cid : C) (sidecar_cid : option C) (need_replay : bool) : io LeafHandle :=
  data ← store_fetch leaf_cid;
  sidecar ← match sidecar_cid with
            | Some sc => if need_replay then s ← store_fetch sc; mret (Some s) else mret None
            | None => mret None
            end;
  full_blob_new data sidecar.

Definition has_overlay (st : CursorState) : bool := (cs_overlay_pos st <? cs_leaf_overlay_end st)%nat.
Definition has_any_overlay (st : CursorState) : bool := (cs_overlay_pos st <? cc_overlay_end c)%nat.

Definition leaflet_decode_set (has_ov : bool) : Z :=
  if has_ov then CS_ALL
  else
    let set := cp_effective (cc_projection c) in
    let set := if bf_is_empty (cc_filter c) then set
               else cs_insert (cs_insert (cs_insert (cs_insert (cs_insert set ColSId) ColOKey) ColPId) ColOType) ColOI in
    if need_replay then cs_insert set ColT else set.

Definition filter_overlay (ov : OverlayOp) : bool :=
  bf_matches (cc_filter c) (ov_s_id ov) (ov_p_id ov) (ov_o_type ov) (ov_o_key ov) (ov_o_i ov).

Definition emits (ov : OverlayOp) : bool := ov_op ov && (ov_t ov <=? cc_to_t c) && filter_overlay ov.

Definition emit_row (ov : OverlayOp) (rest : list RunRecordV2) : list RunRecordV2 :=
  if emits ov then push_overlay_row ov :: rest else rest.

(** The loop of [merge_overlay_into_batch]: the operations of the window that
    are left, the next row and how many rows are left.  It returns the rows and
    how many operations it consumed. *)
Fixpoint merge_overlay (b : ColumnBatch) (last_key : RunRecordV2) (ops : list OverlayOp)
    : nat -> nat -> io (list RunRecordV2 * nat) :=
  fix go ri n :=
    match n with
    | O =>
        match ops with
        | [] => mret ([], 0%nat)
        | ov :: ops' =>
            if is_Gt (cmp_overlay_vs_record ov last_key (cc_order c)) then mret ([], 0%nat)
            else
              '(out, k) ← merge_overlay b last_key ops' ri 0%nat;
              mret (emit_row ov out, S k)
        end
    | S n' =>
        let row_first :=
          row ← push_batch_row b ri;
          '(out, k) ← go (S ri) n';
          mret (row :: out, k) in
        match ops with
        | [] => row_first
        | ov :: ops' =>
            s ← col_get (cb_s_id b) ri;
            p ← col_get_or (cb_p_id b) ri 0;
            ot ← col_get_or (cb_o_type b) ri 0;
            ok ← col_get (cb_o_key b) ri;
            oi ← col_get_or (cb_o_i b) ri u32_max;
            match cmp_row_vs_overlay s p ot ok oi ov (cc_order c) with
            | Lt => row_first
            | Gt =>
                '(out, k) ← merge_overlay b last_key ops' ri (S n');
                mret (emit_row ov out, S k)
            | Eq =>
                if (s =? ov_s_id ov) && (p =? ov_p_id ov) && (ot =? ov_o_type ov) && (ok =? ov_o_key ov)
                   && (oi =? ov_o_i ov)
                then
                  '(out, k) ← merge_overlay b last_key ops' (S ri) n';
                  mret (emit_row ov out, S k)
                else row_first
            end
        end
    end.

Definition window_ops (pos end_ : nat) : list OverlayOp := take (end_ - pos) (drop pos (cc_overlay_ops c)).

Definition merge_overlay_into_batch (st : CursorState) (b : ColumnBatch) (leaflet_last_key : RunRecordV2)
    : io (ColumnBatch * CursorState) :=
  '(out, k) ← merge_overlay b leaflet_last_key (window_ops (cs_overlay_pos st) (cs_leaf_overlay_end st)) 0 (cb_row_count b);
  mret (block_batch out,
        mkCursorState (cs_current_leaf_idx st) (cs_current_leaf st) (cs_current_leaflet_idx st) (cs_exhausted st)
          (cs_overlay_pos st + k) (cs_leaf_overlay_end st)).

(** It runs to the end of the operations, not of the window. *)
Definition emit_overlay_only (st : CursorState) : ColumnBatch * CursorState :=
  let rest := drop (cs_overlay_pos st) (cc_overlay_ops c) in
  (block_batch (foldr emit_row [] rest),
   mkCursorState (cs_current_leaf_idx st) (cs_current_leaf st) (cs_current_leaflet_idx st) (cs_exhausted st)
     (cs_overlay_pos st + length rest) (cs_leaf_overlay_end st)).

(** The end is [(pos + start) + (end - start)] with wrapping arithmetic, that is
    [pos + end] also when the window is inverted. *)
Definition slice_overlay_for_leaf (st : CursorState) (leaf_idx : nat) : io CursorState :=
  let with_window pos end_ :=
    mkCursorState (cs_current_leaf_idx st) (cs_current_leaf st) (cs_current_leaflet_idx st) (cs_exhausted st) pos end_ in
  if (length (cc_overlay_ops c) <? cc_overlay_end c)%nat then Panic
  else
  match window_ops (cs_overlay_pos st) (cc_overlay_end c) with
  | [] => mret (with_window (cs_overlay_pos st) (cs_overlay_pos st))
  | ops =>
      match cc_leaves c !! leaf_idx with
      | None => Panic
      | Some leaf_entry =>
          let next_first := le_first_key <$> cc_leaves c !! S leaf_idx in
          let '(start, end_) := compute_overlay_window ops (le_first_key leaf_entry) next_first (cc_order c)
                                  (leaf_idx =? (cc_leaf_range c).1)%nat in
          mret (with_window (cs_overlay_pos st + start)%nat (cs_overlay_pos st + end_)%nat)
      end
  end.

(** ** Leaflets *)

Inductive LeafletStep := Emit (b : ColumnBatch) (st : CursorState) | LeafDone (st : CursorState).

Definition entry_history (e : LeafletDirEntryV3) : HistoryDir :=
  mkHistoryDir (de_history_offset e) (de_history_len e) (de_history_min_t e) (de_history_max_t e).

(** Whether the next overlay operation belongs to the leaflet. *)
Definition leaflet_has_overlay (st : CursorState) (entry : LeafletDirEntryV3) : io bool :=
  if has_overlay st then
    match cc_overlay_ops c !! cs_overlay_pos st with
    | None => Panic
    | Some ov =>
        mret (negb (is_Gt (cmp_overlay_vs_record ov (read_ordered_key_v2 (cc_order c) (de_last_key entry)) (cc_order c))))
    end
  else mret false.

Definition past_range (entry : LeafletDirEntryV3) : bool :=
  match cc_range_max c with
  | Some max_key => is_Gt (cmp_v2_for_order (cc_order c) (read_ordered_key_v2 (cc_order c) (de_first_key entry)) max_key)
  | None => false
  end.

Definition needs_history_replay (entry : LeafletDirEntryV3) : bool :=
  need_replay && (0 <? de_history_len entry) && (u32_try_from_or_max (cc_to_t c) <? de_history_max_t entry).

(** The leaflets a cursor passes over before loading them. *)
Definition pre_skipped (entry : LeafletDirEntryV3) (has_ov : bool) : bool :=
  negb has_ov &&
  (skip_leaflet (cc_filter c) (de_p_const entry) (de_o_type_const entry)
   || ((de_row_count entry =? 0) && negb (needs_history_replay entry))
   || (negb (needs_history_replay entry)
       && leaflet_out_of_range (cc_filter c) (cc_order c) (de_first_key entry) (de_last_key entry))).

Definition read_leaflet (h : LeafHandle) (entry : LeafletDirEntryV3) (has_ov : bool) : io ColumnBatch :=
  batch ← (if 0 <? de_row_count entry
           then load_leaflet_columns (lh_bytes h) entry (dd_payload_base (lh_dir h))
                  (mkProjection (leaflet_decode_set has_ov) CS_EMPTY)
           else mret batch_empty);
  batch ← (if need_replay then cursor_replay batch (entry_history entry) (lh_sidecar h) (cc_to_t c) (cc_order c)
           else mret batch);
  if bf_is_empty (cc_filter c) || batch_is_empty batch then mret batch
  else filter_batch (cc_filter c) batch (cc_order c).

Definition at_leaflet (st : CursorState) (h : option LeafHandle) (idx : nat) : CursorState :=
  mkCursorState (cs_current_leaf_idx st) h idx (cs_exhausted st) (cs_overlay_pos st) (cs_leaf_overlay_end st).

(** The loop over the entries of the open leaf; the cursor does not hold the
    leaf meanwhile. *)
Fixpoint leaflet_loop (h : LeafHandle) (st : CursorState) (entries : list LeafletDirEntryV3) : io LeafletStep :=
  match entries with
  | [] => mret (LeafDone st)
  | entry :: entries =>
      let st := at_leaflet st None (S (cs_current_leaflet_idx st)) in
      has_ov ← leaflet_has_overlay st entry;
      if negb has_ov && negb need_replay && past_range entry then mret (LeafDone st)
      else if pre_skipped entry has_ov then leaflet_loop h st entries
      else
        batch ← read_leaflet h entry has_ov;
        '(batch, st) ← (if has_ov : bool
                        then merge_overlay_into_batch st batch (read_ordered_key_v2 (cc_order c) (de_last_key entry))
                        else mret (batch, st));
        if batch_is_empty batch then leaflet_loop h st entries
        else mret (Emit batch (at_leaflet st (Some h) (cs_current_leaflet_idx st)))
  end.

(** ** Leaves *)

Definition start_leaflet_idx (entries : list LeafletDirEntryV3) : nat :=
  if need_replay then 0%nat
  else match cc_range_min c with
       | Some min_key =>
           partition_point (fun e => is_Lt (cmp_v2_for_order (cc_order c)
                              (read_ordered_key_v2 (cc_order c) (de_last_key e)) min_key)) entries
       | None => 0%nat
       end.

(** The end of the leaves: what is left of the overlay. *)
Definition finish_cursor (st : CursorState) : option ColumnBatch * CursorState :=
  let st := mkCursorState (cs_current_leaf_idx st) None (cs_current_leaflet_idx st) (cs_exhausted st)
              (cs_overlay_pos st) (cc_overlay_end c) in
  let done st := mkCursorState (cs_current_leaf_idx st) None (cs_current_leaflet_idx st) true
                   (cs_overlay_pos st) (cs_leaf_overlay_end st) in
  if has_any_overlay st then
    let '(batch, st) := emit_overlay_only st in
    (if batch_is_empty batch then None else Some batch, done st)
  else (None, done st).

Definition open_leaf (st : CursorState) : io (LeafHandle * CursorState) :=
  let leaf_idx := cs_current_leaf_idx st in
  match cc_leaves c !! leaf_idx with
  | None => Panic
  | Some leaf =>
      let st := mkCursorState (S leaf_idx) None (cs_current_leaflet_idx st) (cs_exhausted st)
                  (cs_overlay_pos st) (cs_leaf_overlay_end st) in
      st ← (if has_any_overlay st then slice_overlay_for_leaf st leaf_idx else mret st);
      h ← open_leaf_handle (le_leaf_cid leaf) (le_sidecar_cid leaf) need_replay;
      mret (h, at_leaflet st (Some h) (start_leaflet_idx (dd_entries (lh_dir h))))
  end.

(** The loop of [next_batch], with [n] leaves left to open. *)
Fixpoint next_leaves (n : nat) (st : CursorState) : io (option ColumnBatch * CursorState) :=
  match n with
  | O => mret (finish_cursor st)
  | S n =>
      '(h, st) ← open_leaf st;
      step ← leaflet_loop h st (drop (cs_current_leaflet_idx st) (dd_entries (lh_dir h)));
      match step with
      | Emit b st => mret (Some b, st)
      | LeafDone st => next_leaves n st
      end
  end.

Definition next_batch (st : CursorState) : io (option ColumnBatch * CursorState) :=
  if cs_exhausted st then mret (None, st)
  else
    let left st := ((cc_leaf_range c).2 - cs_current_leaf_idx st)%nat in
    match cs_current_leaf st with
    | Some h =>
        step ← leaflet_loop h st (drop (cs_current_leaflet_idx st) (dd_entries (lh_dir h)));
        match step with
        | Emit b st => mret (Some b, st)
        | LeafDone st => next_leaves (left st) st
        end
    | None => next_leaves (left st) st
    end.

(** The batches of a cursor read to its end. *)
Inductive scans : CursorState -> list ColumnBatch -> Prop :=
| scans_end st st' : next_batch st = Ok (None, st') -> scans st []
| scans_batch st b st' bs : next_batch st = Ok (Some b, st') -> scans st' bs -> scans st (b :: bs).
End cursor.

(** ** Merging overlay operations with rows

    The two-pointer merge on lists of rows: what it returns, how it splits at a
    key, and that the loop of the cursor computes it on a batch. *)

Section merge.
Context {C : Type} (c : CursorConfig C).
Notation o := (cc_order c).

Fixpoint overlay_merge (ops : list OverlayOp) : list RunRecordV2 -> list RunRecordV2 :=
  fix go rows :=
    match ops with
    | [] => rows
    | ov :: ops' =>
        match rows with
        | [] => emit_row c ov (overlay_merge ops' [])
        | r :: rows' =>
            match cmp_v2_for_order o r (ov_record ov) with
            | Lt => r :: go rows'
            | Gt => emit_row c ov (overlay_merge ops' (r :: rows'))
            | Eq => emit_row c ov (overlay_merge ops' rows')
            end
        end
    end.

Lemma overlay_merge_nil rows : overlay_merge [] rows = rows.
Proof. by destruct rows. Qed.

Lemma overlay_merge_cons ov ops r rows :
  overlay_merge (ov :: ops) (r :: rows) =
  match cmp_v2_for_order o r (ov_record ov) with
  | Lt => r :: overlay_merge (ov :: ops) rows
  | Gt => emit_row c ov (overlay_merge ops (r :: rows))
  | Eq => emit_row c ov (overlay_merge ops rows)
  end.
Proof. done. Qed.

Lemma overlay_merge_end ops : overlay_merge ops [] = foldr (emit_row c) [] ops.
Proof. induction ops as [|ov ops IH]; [done|]. cbn. by rewrite IH. Qed.

Lemma emit_row_app ov a b : emit_row c ov (a ++ b) = emit_row c ov a ++ b.
Proof. unfold emit_row. by destruct (emits c ov). Qed.

(** ** What a merge returns *)

(** The rows of the result: those of no operation, and those of the operations
    that show. *)
Definition merged_row (ops : list OverlayOp) (rows : list RunRecordV2) (x : RunRecordV2) : Prop :=
  (x ∈ rows /\ forall ov, ov ∈ ops -> ov_key ov <> rr_key x) \/
  (exists ov, ov ∈ ops /\ emits c ov = true /\ x = push_overlay_row ov).

Lemma push_row_key ov : rr_key (push_overlay_row ov) = ov_key ov.
Proof. done. Qed.

Lemma elem_emit_row ov l x : x ∈ emit_row c ov l <-> (emits c ov = true /\ x = push_overlay_row ov) \/ x ∈ l.
Proof. unfold emit_row. destruct (emits c ov); rewrite ?elem_of_cons; naive_solver. Qed.

Definition rows_sorted := StronglySorted (run_lt o).
Definition ops_sorted := StronglySorted (ov_lt o).

Lemma run_lt_key a b x y : rr_key a = rr_key x -> rr_key b = rr_key y -> run_lt o a b -> run_lt o x y.
Proof. unfold run_lt. intros E1 E2 <-. by apply cmp_run_key. Qed.

Lemma ops_above ov ops : ops_sorted (ov :: ops) -> forall x, x ∈ ops -> run_lt o (ov_record ov) (ov_record x).
Proof. intros [_ H]%StronglySorted_inv. rewrite Forall_forall in H. done. Qed.

Lemma rows_above r rows : rows_sorted (r :: rows) -> forall x, x ∈ rows -> run_lt o r x.
Proof. intros [_ H]%StronglySorted_inv. rewrite Forall_forall in H. done. Qed.

Lemma merged_elem ops : forall rows x,
  ops_sorted ops -> rows_sorted rows -> x ∈ overlay_merge ops rows <-> merged_row ops rows x.
Proof.
  induction ops as [|ov ops IHo]; intros rows x Ho Hr.
  - rewrite overlay_merge_nil. unfold merged_row. set_solver.
  - pose proof (ops_above _ _ Ho) as Hab. pose proof (proj1 (StronglySorted_inv Ho)) as Ho'.
    induction rows as [|r rows IHr].
    + cbn. rewrite elem_emit_row, (IHo [] x) by (done || constructor). unfold merged_row. setoid_rewrite elem_of_cons. set_solver.
    + pose proof (rows_above _ _ Hr) as Har. pose proof (proj1 (StronglySorted_inv Hr)) as Hr'.
      rewrite overlay_merge_cons. destruct (cmp_v2_for_order o r (ov_record ov)) eqn:Ec.
      * rewrite elem_emit_row, IHo by done. unfold merged_row. setoid_rewrite elem_of_cons.
        apply cmp_run_Eq in Ec. rewrite ov_record_key in Ec.
        assert (forall y, y ∈ rows -> ov_key ov <> rr_key y) as Hne.
        { intros y Hy E. apply (run_lt_ne o r y); [by apply Har|congruence]. }
        naive_solver.
      * rewrite elem_of_cons, IHr by done. unfold merged_row. setoid_rewrite elem_of_cons.
        assert (forall y, y = ov \/ y ∈ ops -> ov_key y <> rr_key r) as Hne.
        { intros y Hy E. apply (run_lt_ne o r (ov_record y)); [|by rewrite ov_record_key].
          destruct Hy as [->|Hy]; [done|]. eapply run_lt_trans; [exact Ec|by apply Hab]. }
        naive_solver.
      * rewrite elem_emit_row, IHo by done. unfold merged_row. setoid_rewrite elem_of_cons.
        assert (forall y, y = r \/ y ∈ rows -> ov_key ov <> rr_key y) as Hne.
        { apply (cmp_gt_lt (P := everything)) in Ec; [|done|done].
          intros y Hy E. apply (run_lt_ne o (ov_record ov) y); [|by rewrite ov_record_key].
          destruct Hy as [->|Hy]; [done|]. eapply run_lt_trans; [exact Ec|by apply Har]. }
        naive_solver.
Qed.

Lemma merged_sorted ops : forall rows, ops_sorted ops -> rows_sorted rows -> rows_sorted (overlay_merge ops rows).
Proof.
  assert (forall ov l, rows_sorted l -> (forall x, x ∈ l -> run_lt o (ov_record ov) x) -> rows_sorted (emit_row c ov l)) as Hemit.
  { intros ov l Hl Hx. unfold emit_row. destruct (emits c ov); [|done]. constructor; [done|].
    apply Forall_forall. intros x Hin. apply (run_lt_key (ov_record ov) x); [done|done|by apply Hx]. }
  induction ops as [|ov ops IHo]; intros rows Ho Hr; [by rewrite overlay_merge_nil|].
  pose proof (ops_above _ _ Ho) as Hab. pose proof (proj1 (StronglySorted_inv Ho)) as Ho'.
  assert (forall l, rows_sorted l -> (forall x, x ∈ l -> run_lt o (ov_record ov) x) -> rows_sorted (emit_row c ov (overlay_merge ops l))) as Hout.
  { intros l Hl Hgt. apply Hemit; [by apply IHo|]. intros x [[Hx _]|(y & Hy & _ & ->)]%merged_elem; [|by apply (run_lt_key (ov_record ov) (ov_record y)), Hab|done|done].
    by apply Hgt. }
  induction rows as [|r rows IHr].
  - cbn. apply (Hout []); [constructor|]. by intros x ?%not_elem_of_nil.
  - pose proof (rows_above _ _ Hr) as Har. pose proof (proj1 (StronglySorted_inv Hr)) as Hr'.
    rewrite overlay_merge_cons. destruct (cmp_v2_for_order o r (ov_record ov)) eqn:Ec.
    + apply Hout; [done|]. intros x Hx. apply (run_lt_key r x); [by apply cmp_run_Eq in Ec|done|by apply Har].
    + constructor; [by apply IHr|]. apply Forall_forall.
      intros x [[Hx _]|(y & Hy & _ & ->)]%merged_elem; [by apply Har| |done|done].
      apply (run_lt_key r (ov_record y)); [done|done|]. apply elem_of_cons in Hy as [->|Hy]; [done|].
      eapply run_lt_trans; [exact Ec|by apply Hab].
    + apply (cmp_gt_lt (P := everything)) in Ec; [|done|done]. apply Hout; [done|].
      intros x [->|Hx]%elem_of_cons; [done|]. eapply run_lt_trans; [exact Ec|by apply Har].
Qed.

(** ** Splitting a merge at a key *)

Lemma merge_app ops1 ops2 : forall rows1 rows2,
  (forall x y, x ∈ ops1 -> y ∈ rows2 -> run_lt o (ov_record x) y) ->
  (forall x y, x ∈ rows1 -> y ∈ ops2 -> run_lt o x (ov_record y)) ->
  overlay_merge (ops1 ++ ops2) (rows1 ++ rows2) = overlay_merge ops1 rows1 ++ overlay_merge ops2 rows2.
Proof.
  induction ops1 as [|ov ops1 IHo]; intros rows1 rows2 Hor Hro.
  - rewrite overlay_merge_nil. cbn [app]. induction rows1 as [|r rows1 IHr]; [done|]. cbn [app].
    destruct ops2 as [|ov ops2]; [by rewrite !overlay_merge_nil|]. rewrite overlay_merge_cons.
    assert (run_lt o r (ov_record ov)) as -> by (apply Hro; left). by rewrite IHr by set_solver.
  - assert (forall rows, (forall x, x ∈ rows -> x ∈ rows1) ->
      overlay_merge (ops1 ++ ops2) (rows ++ rows2) = overlay_merge ops1 rows ++ overlay_merge ops2 rows2) as Hrest.
    { intros rows Hin. apply IHo; set_solver. }
    induction rows1 as [|r rows1 IHr].
    + cbn [app]. destruct rows2 as [|r rows2].
      * cbn. rewrite <- emit_row_app. f_equal. apply (Hrest []). set_solver.
      * rewrite overlay_merge_cons.
        assert (cmp_v2_for_order o r (ov_record ov) = Gt) as ->.
        { apply (cmp_gt_lt (P := everything)); [done|done|]. apply Hor; left. }
        cbn [overlay_merge]. rewrite <- emit_row_app. f_equal. apply (Hrest []). set_solver.
    + cbn [app]. rewrite !overlay_merge_cons. destruct (cmp_v2_for_order o r (ov_record ov)).
      * rewrite <- emit_row_app. f_equal. apply Hrest. set_solver.
      * cbn [app]. f_equal. apply IHr; [set_solver|]. intros rows Hin. apply Hrest. set_solver.
      * rewrite <- emit_row_app. f_equal. apply (Hrest (r :: rows1)). set_solver.
Qed.

(** ** The loop on a batch *)

(** The operations up to a key. *)
Definition upto (last_key : RunRecordV2) (ov : OverlayOp) : bool := negb (is_Gt (cmp_overlay_vs_record ov last_key o)).
Definition below (last_key : RunRecordV2) (ops : list OverlayOp) : list OverlayOp :=
  take (partition_point (upto last_key) ops) ops.
Definition beyond (last_key : RunRecordV2) (ops : list OverlayOp) : list OverlayOp :=
  drop (partition_point (upto last_key) ops) ops.

Lemma upto_spec last_key ov : upto last_key ov = true <-> cmp_v2_for_order o (ov_record ov) last_key <> Gt.
Proof. unfold upto. rewrite cmp_record_overlay. by destruct (cmp_v2_for_order o (ov_record ov) last_key). Qed.

Lemma below_cons last_key ov ops :
  below last_key (ov :: ops) = if upto last_key ov then ov :: below last_key ops else [].
Proof. unfold below. cbn. by destruct (upto last_key ov). Qed.

Lemma push_row_of b i r : batch_row_to_record b i = Ok r -> push_batch_row b i = Ok r.
Proof.
  intros H. pose proof H as Hr. apply batch_row_columns in H as (Es & Ek & Ep & Et & Ei & Eo & Eg). unfold push_batch_row.
  rewrite Es, Ek. cbn [mbind outcome_bind]. rewrite (get_or_of_get _ _ _ 0 Ep), (get_or_of_get _ _ _ 0 Eo).
  cbn [mbind outcome_bind]. change u32_max with OI_NONE. rewrite Ei, Et. cbn. f_equal. destruct r; cbn in *. by subst.
Qed.

Lemma merge_overlay_cons b last_key ov ops ri n :
  merge_overlay c b last_key (ov :: ops) ri (S n) =
  s ← col_get (cb_s_id b) ri; p ← col_get_or (cb_p_id b) ri 0; ot ← col_get_or (cb_o_type b) ri 0;
  ok ← col_get (cb_o_key b) ri; oi ← col_get_or (cb_o_i b) ri u32_max;
  match cmp_row_vs_overlay s p ot ok oi ov o with
  | Lt => row ← push_batch_row b ri; '(out, k) ← merge_overlay c b last_key (ov :: ops) (S ri) n; mret (row :: out, k)
  | Gt => '(out, k) ← merge_overlay c b last_key ops ri (S n); mret (emit_row c ov out, S k)
  | Eq =>
      if (s =? ov_s_id ov) && (p =? ov_p_id ov) && (ot =? ov_o_type ov) && (ok =? ov_o_key ov) && (oi =? ov_o_i ov)
      then '(out, k) ← merge_overlay c b last_key ops (S ri) n; mret (emit_row c ov out, S k)
      else row ← push_batch_row b ri; '(out, k) ← merge_overlay c b last_key (ov :: ops) (S ri) n; mret (row :: out, k)
  end.
Proof. done. Qed.

Lemma merge_overlay_row b last_key ov ops ri n r :
  batch_row_to_record b ri = Ok r ->
  merge_overlay c b last_key (ov :: ops) ri (S n) =
  match cmp_v2_for_order o r (ov_record ov) with
  | Lt => '(out, k) ← merge_overlay c b last_key (ov :: ops) (S ri) n; mret (r :: out, k)
  | Gt => '(out, k) ← merge_overlay c b last_key ops ri (S n); mret (emit_row c ov out, S k)
  | Eq => '(out, k) ← merge_overlay c b last_key ops (S ri) n; mret (emit_row c ov out, S k)
  end.
Proof.
  intros H. rewrite merge_overlay_cons, (push_row_of b ri r H).
  apply batch_row_columns in H as (Es & Ek & Ep & _ & Ei & Eo & _).
  rewrite Es, (get_or_of_get _ _ _ 0 Ep), (get_or_of_get _ _ _ 0 Eo), Ek. change u32_max with OI_NONE. rewrite Ei.
  cbn [mbind outcome_bind]. rewrite cmp_row_record.
  destruct (cmp_v2_for_order o r (ov_record ov)) eqn:Ec; [|done|done].
  apply cmp_run_Eq in Ec. unfold rr_key in Ec. cbn in Ec. injection Ec as -> -> -> -> ->. by rewrite !Z.eqb_refl.
Qed.

Lemma merge_overlay_rows b last_key ops : forall rows ri,
  rows_from b ri (length rows) = Ok rows -> Forall (fun r => cmp_v2_for_order o r last_key <> Gt) rows ->
  merge_overlay c b last_key ops ri (length rows)
  = Ok (overlay_merge (below last_key ops) rows, length (below last_key ops)).
Proof.
  induction ops as [|ov ops IHo]; intros rows; induction rows as [|r rows IHr]; intros ri H Hle.
  - done.
  - apply rows_from_Ok in H as Hrows. destruct Hrows as [_ Hrows].
    specialize (Hrows 0%nat r eq_refl). rewrite Nat.add_0_r in Hrows.
    cbn [length rows_from] in H. rewrite Hrows in H. cbn in H.
    destruct (rows_from b (S ri) (length rows)) as [rs| |] eqn:Er; [|done|done]. injection H as <-.
    apply Forall_cons in Hle as [_ Hle]. pose proof (IHr (S ri) Er Hle) as E.
    change (below last_key []) with (@nil OverlayOp) in *. rewrite overlay_merge_nil in E |- *.
    transitivity (row ← push_batch_row b ri;
                  '(out, k) ← merge_overlay c b last_key [] (S ri) (length rs); mret (row :: out, k)); [done|].
    by rewrite (push_row_of b ri r Hrows), E.
  - rewrite below_cons. cbn [length merge_overlay]. unfold upto.
    destruct (is_Gt (cmp_overlay_vs_record ov last_key o)); cbn [negb]; [done|].
    pose proof (IHo [] ri H Hle) as E. cbn [length] in E. rewrite E. done.
  - apply rows_from_Ok in H as Hrows. destruct Hrows as [_ Hrows].
    specialize (Hrows 0%nat r eq_refl). rewrite Nat.add_0_r in Hrows.
    assert (rows_from b (S ri) (length rows) = Ok rows) as Hrest.
    { cbn [length rows_from] in H. rewrite Hrows in H. cbn in H.
      destruct (rows_from b (S ri) (length rows)) as [rs| |]; [|done|done]. by injection H as <-. }
    apply Forall_cons in Hle as [Hr Hle]. cbn [length]. rewrite (merge_overlay_row _ _ _ _ _ _ r Hrows).
    assert (cmp_v2_for_order o r (ov_record ov) <> Lt -> upto last_key ov = true) as Hup.
    { intros Hn. apply upto_spec. apply (cmp_le_trans (P := everything) _ r); try done.
      rewrite (cmp_sym (P := everything) r (ov_record ov)) by done. by destruct (cmp_v2_for_order o r (ov_record ov)). }
    destruct (cmp_v2_for_order o r (ov_record ov)) eqn:Ec.
    + rewrite (IHo rows (S ri) Hrest Hle). cbn [mbind outcome_bind]. rewrite below_cons, Hup by done.
      rewrite overlay_merge_cons, Ec. done.
    + rewrite (IHr (S ri) Hrest Hle). cbn [mbind outcome_bind]. rewrite below_cons. destruct (upto last_key ov).
      * rewrite overlay_merge_cons, Ec. done.
      * by rewrite !overlay_merge_nil.
    + pose proof (IHo (r :: rows) ri H) as E. cbn [length] in E. rewrite E by by constructor.
      cbn [mbind outcome_bind]. rewrite below_cons, Hup by done. rewrite overlay_merge_cons, Ec. done.
Qed.

Lemma block_batch_holds rows : Forall (fun r => rr_g_id r = 0) rows -> batch_holds (block_batch rows) rows.
Proof.
  intros Hg. apply batch_holds_spec. split; [done|]. intros i r Hi. unfold batch_row_to_record. cbn.
  rewrite !list_lookup_fmap, Hi. cbn. rewrite Forall_lookup in Hg. specialize (Hg i r Hi). f_equal. destruct r; cbn in *. by subst.
Qed.

Lemma merged_graph ops rows :
  ops_sorted ops -> rows_sorted rows -> Forall (fun r => rr_g_id r = 0) rows ->
  Forall (fun r => rr_g_id r = 0) (overlay_merge ops rows).
Proof.
  intros Ho Hr Hg. apply Forall_forall. intros x [[Hx _]|(y & _ & _ & ->)]%merged_elem; [|done|done|done].
  rewrite Forall_forall in Hg. by apply Hg.
Qed.
End merge.
