(* ===== verification/CursorLaws.v ===== *)
(** * What a cursor returns

    A cursor over the present state of an index, read to its end, returns the
    rows that match its filter, with the facts of the overlay operations in
    their place.  An operation is lost only when it sorts between two leaves. *)

From S2P Require Import Prelude Bytes Cmp Segment RunRecord Columns HistorySidecar IndexLog Replay Leaflet.
From S2P Require Import LeafBlob LeafUpdateLaws IndexFilter Overlay Cursor.
From stdpp Require Import base list numbers sorting gmap.
From Stdlib Require Import ZArith Lia.

Local Open Scope Z_scope.

Lemma partition_point_app {A} (p : A -> bool) a b :
  Forall (fun x => p x = false) b -> partition_point p (a ++ b) = partition_point p a.
Proof.
  intros Hb. induction a as [|x a IH]; cbn; [|by rewrite IH]. destruct Hb as [|y b Hy _]; [done|]. cbn. by rewrite Hy.
Qed.

Lemma concat_concat {A} (ls : list (list (list A))) : concat (concat ls) = concat (@concat A <$> ls).
Proof. induction ls as [|l ls IH]; [done|]. cbn. by rewrite concat_app, IH. Qed.

(** No operation sorts after the last row of a leaf and before the first row of
    the next. *)
Definition no_gap (o : RunSortOrder) (ops : list OverlayOp) (rsss : list (list (list RunRecordV2))) : Prop :=
  forall i rss rss' a b ov,
  rsss !! i = Some rss -> rsss !! S i = Some rss' -> last (concat rss) = Some a -> head (concat rss') = Some b ->
  ov ∈ ops -> run_lt o a (ov_record ov) -> ~ run_lt o (ov_record ov) b.

(** The first key a branch keeps for a leaf. *)
Definition first_key_of (key : RunRecordV2) (rss : list (list RunRecordV2)) : Prop :=
  exists r, head (concat rss) = Some r /\ rr_key key = rr_key r.

Section laws.
Context {C : Type} `{LS : LeafStore C, SL : SortLib, SO : StatesOrder, CZ : ColumnZstd}.
Context (c : CursorConfig C).
Notation o := (cc_order c).
Notation ops := (cc_overlay_ops c).
Context (Hall : cp_effective (cc_projection c) = CS_ALL) (Hnow : need_replay c = false).
Context (Hmin : cc_range_min c = None) (Hmax : cc_range_max c = None) (Hrange : cc_leaf_range c = (0%nat, length (cc_leaves c))).
Context (Hops : ops_sorted c ops) (Hend : cc_overlay_end c = length ops).

(** ** Leaflets of an open leaf *)

Definition shown_rows (rs : list RunRecordV2) : list RunRecordV2 := List.filter (matches_row (cc_filter c)) rs.

Record entry_holds (h : LeafHandle) (entry : LeafletDirEntryV3) (rs : list RunRecordV2) : Prop := {
  eh_count : 0 < de_row_count entry;
  eh_sorted : rows_sorted c rs;
  eh_load : exists b, load_leaflet_columns (lh_bytes h) entry (dd_payload_base (lh_dir h)) cp_all = Ok b /\ batch_holds b rs;
  eh_last : exists l, last rs = Some l /\ rr_key (read_ordered_key_v2 o (de_last_key entry)) = rr_key l;
  eh_skip : skip_leaflet (cc_filter c) (de_p_const entry) (de_o_type_const entry) = true -> shown_rows rs = [];
  eh_range : leaflet_out_of_range (cc_filter c) o (de_first_key entry) (de_last_key entry) = true -> shown_rows rs = [];
}.

Lemma shown_sorted rs : rows_sorted c rs -> rows_sorted c (shown_rows rs).
Proof.
  unfold rows_sorted, shown_rows. induction 1 as [|r rs Hs IH Hr]; [constructor|]. cbn. destruct (matches_row _ r); [|done].
  constructor; [done|]. rewrite Forall_forall in Hr |- *. intros x Hx. apply Hr.
  apply list_elem_of_In, filter_In in Hx as [Hx _]. by apply list_elem_of_In.
Qed.

Lemma decode_all has_ov : leaflet_decode_set c has_ov = CS_ALL.
Proof. unfold leaflet_decode_set. rewrite Hall, Hnow. destruct has_ov; [done|]. by destruct (bf_is_empty _). Qed.

Lemma empty_shows rs : bf_is_empty (cc_filter c) = true -> shown_rows rs = rs.
Proof.
  intros He. unfold shown_rows. apply filter_all. apply Forall_forall. intros r _.
  destruct (cc_filter c) as [[?|] [?|] [?|] [?|] [?|]]; done.
Qed.

Lemma read_leaflet_holds h entry rs has_ov :
  entry_holds h entry rs -> exists b, read_leaflet c h entry has_ov = Ok b /\ batch_holds b (shown_rows rs).
Proof.
  intros [Hc Hs (b & Hl & Hb) (l & Hlast & _) _ _]. unfold read_leaflet. destruct (Z.ltb_spec 0 (de_row_count entry)); [|lia].
  rewrite decode_all. change (mkProjection CS_ALL CS_EMPTY) with cp_all. rewrite Hl. cbn [mbind outcome_bind].
  rewrite Hnow. cbn [mbind outcome_bind mret outcome_ret]. destruct (bf_is_empty (cc_filter c)) eqn:Ee; cbn [orb].
  - exists b. split; [done|]. by rewrite empty_shows.
  - unfold batch_is_empty. rewrite (batch_holds_count _ _ Hb). destruct rs as [|r rs]; [done|]. cbn [length Nat.eqb].
    by apply filter_batch_holds.
Qed.

(** ** The operations of a leaflet *)

Notation below := (below c).
Notation beyond := (beyond c).

Definition leaflet_out (rs : list RunRecordV2) (pend : list OverlayOp) : list RunRecordV2 :=
  match last rs with
  | Some l => overlay_merge c (below l pend) (shown_rows rs)
  | None => []
  end.

Definition leaflet_rest (rs : list RunRecordV2) (pend : list OverlayOp) : list OverlayOp :=
  match last rs with Some l => beyond l pend | None => pend end.

(** Where the window of a leaf ends: the operations after it sort after the
    leaflets that are left. *)
Definition window_ok (pos leaf_end : nat) (rs : list RunRecordV2) : Prop :=
  forall l, last rs = Some l -> Forall (fun ov => upto c l ov = false) (drop (Nat.max pos leaf_end) ops).

Lemma below_window l pos leaf_end :
  Forall (fun ov => upto c l ov = false) (drop (Nat.max pos leaf_end) ops) ->
  below l (window_ops c pos leaf_end) = below l (drop pos ops) /\
  (length (below l (drop pos ops)) <= leaf_end - pos)%nat.
Proof.
  intros H. unfold window_ops.
  assert (drop pos ops = take (leaf_end - pos) (drop pos ops) ++ drop (Nat.max pos leaf_end) ops) as E.
  { rewrite <- (take_drop (leaf_end - pos) (drop pos ops)) at 1. f_equal. rewrite drop_drop. f_equal. lia. }
  assert (below l (drop pos ops) = below l (take (leaf_end - pos) (drop pos ops))) as Eb.
  { rewrite E at 1. unfold Cursor.below. rewrite partition_point_app by done.
    apply take_app_le, partition_point_le. }
  split; [done|]. rewrite Eb. unfold Cursor.below. rewrite !length_take. lia.
Qed.

Lemma upto_key l l' ov : rr_key l = rr_key l' -> upto c l ov = upto c l' ov.
Proof. intros E. unfold upto. rewrite !cmp_record_overlay. by rewrite (cmp_run_key o _ (ov_record ov) _ l'). Qed.

Lemma below_key l l' pend : rr_key l = rr_key l' -> below l pend = below l' pend.
Proof.
  intros E. unfold Cursor.below. f_equal. clear -E. induction pend as [|ov pend IH]; [done|]. cbn.
  by rewrite (upto_key l l'), IH.
Qed.

Lemma has_overlay_below st entry rs h l :
  entry_holds h entry rs -> last rs = Some l -> (cs_leaf_overlay_end st <= length ops)%nat ->
  window_ok (cs_overlay_pos st) (cs_leaf_overlay_end st) rs ->
  leaflet_has_overlay c st entry = Ok (negb (length (below l (drop (cs_overlay_pos st) ops)) =? 0)%nat).
Proof.
  intros He Hl Hle Hw. destruct (eh_last _ _ _ He) as (l' & Hl' & Hk). rewrite Hl in Hl'. injection Hl' as <-.
  specialize (Hw l Hl). destruct (below_window l _ _ Hw) as [_ Hb]. unfold leaflet_has_overlay, has_overlay.
  destruct (Nat.ltb_spec (cs_overlay_pos st) (cs_leaf_overlay_end st)) as [Hlt|Hge].
  - destruct (lookup_lt_is_Some_2 ops (cs_overlay_pos st) ltac:(lia)) as [ov Hov]. rewrite Hov.
    rewrite (drop_S ops ov _ Hov), below_cons. rewrite <- (upto_key _ l ov Hk). unfold upto at 1.
    unfold mret, outcome_ret. f_equal. unfold upto. by destruct (is_Gt _).
  - replace (cs_leaf_overlay_end st - cs_overlay_pos st)%nat with 0%nat in Hb by lia.
    by replace (length (below l (drop (cs_overlay_pos st) ops))) with 0%nat by lia.
Qed.

Definition moved (st : CursorState) (h : option LeafHandle) (leaflets consumed : nat) : CursorState :=
  mkCursorState (cs_current_leaf_idx st) h (cs_current_leaflet_idx st + leaflets) (cs_exhausted st)
    (cs_overlay_pos st + consumed) (cs_leaf_overlay_end st).

Lemma rows_below rs l : rows_sorted c rs -> last rs = Some l -> Forall (fun r => cmp_v2_for_order o r l <> Gt) rs.
Proof.
  intros Hs Hl. rewrite last_lookup in Hl. apply Forall_lookup. intros i r Hi. apply lookup_lt_Some in Hi as Hlt.
  destruct (decide (i = pred (length rs))) as [->|Hne].
  - rewrite Hi in Hl. injection Hl as ->. by rewrite (cmp_refl (P := everything)).
  - pose proof (sorted_lookup _ _ i _ _ _ Hs Hi Hl ltac:(lia)) as H. unfold run_lt in H. by rewrite H.
Qed.

Lemma shown_below rs l : rows_sorted c rs -> last rs = Some l -> Forall (fun r => cmp_v2_for_order o r l <> Gt) (shown_rows rs).
Proof.
  intros Hs Hl. pose proof (rows_below rs l Hs Hl) as H. rewrite Forall_forall in H |- *. intros x Hx. apply H.
  apply list_elem_of_In, filter_In in Hx as [Hx _]. by apply list_elem_of_In.
Qed.

Lemma drop_sorted n : ops_sorted c (drop n ops).
Proof. apply (StronglySorted_app_1_r _ (take n ops)). by rewrite take_drop. Qed.

Lemma below_sorted l pos : ops_sorted c (below l (drop pos ops)).
Proof.
  unfold Cursor.below. apply (StronglySorted_app_1_l _ _ (drop (partition_point (upto c l) (drop pos ops)) (drop pos ops))).
  rewrite take_drop. apply drop_sorted.
Qed.

Lemma batch_empty_iff b rows : batch_holds b rows -> batch_is_empty b = true <-> rows = [].
Proof.
  intros Hb. unfold batch_is_empty. rewrite (batch_holds_count _ _ Hb), Nat.eqb_eq. apply length_zero_iff_nil.
Qed.

(** One leaflet: its rows with its operations, and the state after it. *)
Lemma leaflet_step h st entry entries rs l :
  entry_holds h entry rs -> last rs = Some l -> (cs_leaf_overlay_end st <= length ops)%nat ->
  window_ok (cs_overlay_pos st) (cs_leaf_overlay_end st) rs ->
  let pend := drop (cs_overlay_pos st) ops in
  let k := length (below l pend) in
  (leaflet_out rs pend = [] /\ leaflet_loop c h st (entry :: entries) = leaflet_loop c h (moved st None 1 k) entries) \/
  (leaflet_out rs pend <> [] /\ exists b, leaflet_loop c h st (entry :: entries) = Ok (Emit b (moved st (Some h) 1 k)) /\
     batch_holds b (leaflet_out rs pend)).
Proof.
  intros He Hl Hle Hw pend k. unfold leaflet_out. rewrite Hl. cbn [leaflet_loop].
  set (st0 := at_leaflet st None (S (cs_current_leaflet_idx st))).
  rewrite (has_overlay_below st0 entry rs h l He Hl Hle Hw). cbn [mbind outcome_bind]. fold pend.
  change (cs_overlay_pos st0) with (cs_overlay_pos st). fold pend. fold k.
  unfold past_range. rewrite Hmax, andb_false_r.
  destruct (read_leaflet_holds h entry rs (negb (k =? 0)%nat) He) as (b & Hread & Hb).
  destruct (below_window l (cs_overlay_pos st) (cs_leaf_overlay_end st) (Hw l Hl)) as [Hwin _].
  destruct (Nat.eqb_spec k 0) as [Hk|Hk]; cbn [negb] in *.
  - assert (below l pend = []) as Eb by by apply length_zero_iff_nil. rewrite Eb, overlay_merge_nil.
    assert (moved st None 1 k = st0) as Em.
    { unfold moved, st0, at_leaflet. rewrite Hk. by rewrite Nat.add_0_r, Nat.add_1_r. }
    destruct (pre_skipped c entry false) eqn:Ep.
    + left. rewrite Em. split; [|done]. unfold pre_skipped in Ep. cbn [negb andb] in Ep.
      unfold needs_history_replay in Ep. rewrite Hnow in Ep. cbn [negb andb] in Ep. rewrite andb_true_r in Ep.
      destruct (Z.eqb_spec (de_row_count entry) 0) as [E0|_]; [pose proof (eh_count _ _ _ He); lia|].
      rewrite orb_false_r in Ep. apply orb_true_iff in Ep as [Ep|Ep]; [by apply (eh_skip _ _ _ He)|by apply (eh_range _ _ _ He)].
    + rewrite Hread. cbn [mbind outcome_bind mret outcome_ret]. destruct (batch_is_empty b) eqn:Ee.
      * left. rewrite Em. split; [|done]. by apply (batch_empty_iff b).
      * right. split; [intros E; apply (batch_empty_iff b) in E; [congruence|done]|]. exists b. split; [|done].
        unfold moved, st0, at_leaflet. cbn. by rewrite Hk, Nat.add_0_r, Nat.add_1_r.
  - unfold pre_skipped. cbn [negb andb]. rewrite Hread. cbn [mbind outcome_bind].
    unfold merge_overlay_into_batch. change (cs_overlay_pos st0) with (cs_overlay_pos st).
    change (cs_leaf_overlay_end st0) with (cs_leaf_overlay_end st).
    destruct (eh_last _ _ _ He) as (l' & Hl' & Hkey). rewrite Hl in Hl'. injection Hl' as <-.
    rewrite (batch_holds_count _ _ Hb), (merge_overlay_rows c b).
    + rewrite (below_key _ l _ Hkey), Hwin. fold pend. cbn [mbind outcome_bind mret outcome_ret].
      assert (batch_holds (block_batch (overlay_merge c (below l pend) (shown_rows rs))) (overlay_merge c (below l pend) (shown_rows rs))) as Hbb.
      { apply block_batch_holds, merged_graph; [apply below_sorted|apply shown_sorted, (eh_sorted _ _ _ He)|].
        by eapply batch_holds_graph. }
      assert (forall h', at_leaflet (moved st0 None 0 k) h' (cs_current_leaflet_idx st0) = moved st h' 1 k) as Em.
      { intros h'. unfold moved, st0, at_leaflet. cbn. by rewrite Nat.add_1_r. }
      destruct (batch_is_empty _) eqn:Ee.
      * left. split; [by apply (batch_empty_iff _ _ Hbb)|]. f_equal. unfold moved, st0, at_leaflet. cbn. by rewrite Nat.add_1_r.
      * right. split; [intros E; apply (batch_empty_iff _ _ Hbb) in E; congruence|]. eexists. split; [|exact Hbb].
        do 2 f_equal. unfold moved, st0, at_leaflet. cbn. by rewrite Nat.add_1_r.
    + rewrite <- (batch_holds_count _ _ Hb). exact Hb.
    + eapply Forall_impl; [apply (shown_below rs l (eh_sorted _ _ _ He) Hl)|]. cbn. intros r Hr.
      by rewrite (cmp_run_key o r r _ l).
Qed.

(** ** The leaflets of a leaf *)

Fixpoint run_out (rss : list (list RunRecordV2)) (pend : list OverlayOp) : list RunRecordV2 :=
  match rss with
  | [] => []
  | rs :: rss => leaflet_out rs pend ++ run_out rss (leaflet_rest rs pend)
  end.

Fixpoint run_rest (rss : list (list RunRecordV2)) (pend : list OverlayOp) : list OverlayOp :=
  match rss with
  | [] => pend
  | rs :: rss => run_rest rss (leaflet_rest rs pend)
  end.

Lemma run_out_app rss1 rss2 pend : run_out (rss1 ++ rss2) pend = run_out rss1 pend ++ run_out rss2 (run_rest rss1 pend).
Proof. revert pend. induction rss1 as [|rs rss1 IH]; intros pend; [done|]. cbn. by rewrite IH, app_assoc. Qed.

Lemma run_rest_app rss1 rss2 pend : run_rest (rss1 ++ rss2) pend = run_rest rss2 (run_rest rss1 pend).
Proof. revert pend. induction rss1 as [|rs rss1 IH]; intros pend; [done|]. cbn. apply IH. Qed.

(** Same leaf, same window, [pend] to merge. *)
Record same_leaf (st st' : CursorState) (pend : list OverlayOp) : Prop := {
  sl_idx : cs_current_leaf_idx st' = cs_current_leaf_idx st;
  sl_exhausted : cs_exhausted st' = cs_exhausted st;
  sl_end : cs_leaf_overlay_end st' = cs_leaf_overlay_end st;
  sl_pos : (cs_overlay_pos st <= cs_overlay_pos st' <= length ops)%nat;
  sl_pend : drop (cs_overlay_pos st') ops = pend;
}.

Lemma same_leaf_trans st1 st2 st3 p q : same_leaf st1 st2 p -> same_leaf st2 st3 q -> same_leaf st1 st3 q.
Proof. intros [] []. split; congruence || lia. Qed.

Lemma moved_same st h n rs l :
  (cs_overlay_pos st <= length ops)%nat -> last rs = Some l ->
  same_leaf st (moved st h n (length (below l (drop (cs_overlay_pos st) ops))))
    (leaflet_rest rs (drop (cs_overlay_pos st) ops)).
Proof.
  intros Hle Hl. pose proof (partition_point_le (upto c l) (drop (cs_overlay_pos st) ops)) as Hp. rewrite length_drop in Hp.
  assert (length (below l (drop (cs_overlay_pos st) ops)) = partition_point (upto c l) (drop (cs_overlay_pos st) ops)) as E.
  { unfold Cursor.below. rewrite length_take, length_drop. lia. }
  split; cbn; try done; [lia|]. unfold leaflet_rest. rewrite Hl. unfold Cursor.beyond. by rewrite drop_drop, E.
Qed.

Lemma window_later st st' p rss :
  same_leaf st st' p -> Forall (window_ok (cs_overlay_pos st) (cs_leaf_overlay_end st)) rss ->
  Forall (window_ok (cs_overlay_pos st') (cs_leaf_overlay_end st')) rss.
Proof.
  intros [_ _ He Hp _] H. eapply Forall_impl; [exact H|]. cbn. intros rs Hw l Hl. rewrite He.
  set (m := Nat.max (cs_overlay_pos st) (cs_leaf_overlay_end st)).
  set (m' := Nat.max (cs_overlay_pos st') (cs_leaf_overlay_end st)).
  replace m' with (m + (m' - m))%nat by lia. rewrite <- drop_drop. apply Forall_drop. by apply Hw.
Qed.

Definition emitted (h : LeafHandle) (st : CursorState) (rss : list (list RunRecordV2)) (b : ColumnBatch) (st' : CursorState) : Prop :=
  exists rssA rs rssB, let pend := drop (cs_overlay_pos st) ops in
    rss = rssA ++ rs :: rssB /\ run_out rssA pend = [] /\ batch_holds b (leaflet_out rs (run_rest rssA pend)) /\
    same_leaf st st' (run_rest (rssA ++ [rs]) pend) /\ cs_current_leaf st' = Some h /\
    cs_current_leaflet_idx st' = (cs_current_leaflet_idx st + length (rssA ++ [rs]))%nat.

Lemma leaflet_loop_spec h entries rss :
  Forall2 (entry_holds h) entries rss -> forall st,
  (cs_overlay_pos st <= length ops)%nat -> (cs_leaf_overlay_end st <= length ops)%nat ->
  Forall (window_ok (cs_overlay_pos st) (cs_leaf_overlay_end st)) rss ->
  (exists st', leaflet_loop c h st entries = Ok (LeafDone st') /\ run_out rss (drop (cs_overlay_pos st) ops) = [] /\
     same_leaf st st' (run_rest rss (drop (cs_overlay_pos st) ops))) \/
  (exists b st', leaflet_loop c h st entries = Ok (Emit b st') /\ emitted h st rss b st').
Proof.
  induction 1 as [|entry rs entries rss He HF IH]; intros st Hpos Hle Hw.
  - left. exists st. split_and!; [done|done|]. by split.
  - apply Forall_cons in Hw as [Hw1 Hw]. destruct (eh_last _ _ _ He) as (l & Hl & _).
    set (pend := drop (cs_overlay_pos st) ops) in *. set (k := length (below l pend)).
    destruct (leaflet_step h st entry entries rs l He Hl Hle Hw1) as [[Eo ->]|(Eo & b & -> & Hb)]; fold pend in Eo; fold pend; fold k.
    + pose proof (moved_same st None 1 rs l Hpos Hl) as Hm. fold pend in Hm. fold k in Hm.
      destruct (IH (moved st None 1 k)) as [(st' & Hs & Ho & Hsl)|(b & st' & Hs & rssA & rs' & rssB & E & Ho & Hb & Hsl & Hh & Hi)].
      * apply (sl_pos _ _ _ Hm).
      * done.
      * by eapply window_later.
      * rewrite (sl_pend _ _ _ Hm) in Ho, Hsl. left. exists st'. split_and!; [done| |].
        -- cbn. by rewrite Eo, Ho.
        -- cbn. by eapply same_leaf_trans.
      * rewrite (sl_pend _ _ _ Hm) in Ho, Hb, Hsl. right. exists b, st'. split; [done|]. exists (rs :: rssA), rs', rssB. fold pend. cbn zeta.
        split_and!; [by rewrite E|by cbn; rewrite Eo, Ho|done|cbn; by eapply same_leaf_trans|done|].
        rewrite Hi. cbn. lia.
    + right. exists b, (moved st (Some h) 1 k). split; [done|]. exists [], rs, rss. fold pend. cbn zeta.
      split_and!; [done|done|done| |done|done]. by apply moved_same.
Qed.

(** ** The order of the walk *)

Notation after l := (fun ov => upto c l ov = false) (only parsing).

Lemma after_lt l ov : upto c l ov = false <-> run_lt o l (ov_record ov).
Proof.
  unfold upto, run_lt. rewrite cmp_record_overlay, (cmp_sym (P := everything) (ov_record ov) l) by done.
  by destruct (cmp_v2_for_order o (ov_record ov) l).
Qed.

Lemma after_trans a b ov : run_lt o a b -> upto c b ov = false -> upto c a ov = false.
Proof. rewrite !after_lt. apply run_lt_trans. Qed.

Lemma upto_down l (pend : list OverlayOp) : forall x y, x ∈ pend -> y ∈ pend -> ov_lt o x y -> upto c l y = true -> upto c l x = true.
Proof.
  intros x y _ _ Hxy Hy. destruct (upto c l x) eqn:Hx; [done|]. exfalso.
  assert (upto c l y = false) as E; [|congruence]. rewrite after_lt in Hx |- *. by eapply run_lt_trans.
Qed.

Lemma below_upto l pend : Forall (fun ov => upto c l ov = true) (below l pend).
Proof. unfold Cursor.below. induction pend as [|ov pend IH]; cbn; [constructor|]. destruct (upto c l ov) eqn:E; constructor; done. Qed.

Lemma beyond_after l pend : ops_sorted c pend -> Forall (after l) (beyond l pend).
Proof.
  intros Hs. unfold Cursor.beyond. rewrite (proj2 (partition_point_sorted _ (upto c l) pend Hs (upto_down l pend))).
  apply Forall_forall. intros x [_ Hx]%list_elem_of_In%filter_In. by apply negb_true_iff.
Qed.

Lemma below_beyond l pend : below l pend ++ beyond l pend = pend.
Proof. apply take_drop. Qed.

Lemma beyond_sorted l pend : ops_sorted c pend -> ops_sorted c (beyond l pend).
Proof. intros Hs. rewrite <- (below_beyond l pend) in Hs. by eapply StronglySorted_app_1_r. Qed.

Lemma run_rest_sorted rss : forall pend, ops_sorted c pend -> ops_sorted c (run_rest rss pend).
Proof.
  induction rss as [|rs rss IH]; intros pend Hs; [done|]. cbn. apply IH. unfold leaflet_rest.
  destruct (last rs); [by apply beyond_sorted|done].
Qed.

(** The operations left sort after the rows read. *)
Definition passed (rows : list RunRecordV2) (pend : list OverlayOp) : Prop := forall a, a ∈ rows -> Forall (after a) pend.

Lemma passed_sub rows pend pend' : (forall x, x ∈ pend' -> x ∈ pend) -> passed rows pend -> passed rows pend'.
Proof. intros Hsub H a Ha. specialize (H a Ha). rewrite Forall_forall in H |- *. intros x Hx. by apply H, Hsub. Qed.

Lemma leaflet_rest_sub rs pend x : x ∈ leaflet_rest rs pend -> x ∈ pend.
Proof.
  unfold leaflet_rest. destruct (last rs) as [l|]; [|done]. rewrite <- (below_beyond l pend) at 2. set_solver.
Qed.

Lemma leaflet_passed rs pend : rows_sorted c rs -> ops_sorted c pend -> passed rs (leaflet_rest rs pend).
Proof.
  intros Hr Ho a Ha. unfold leaflet_rest. destruct (last rs) as [l|] eqn:Hl.
  - pose proof (rows_below rs l Hr Hl) as Hle. rewrite Forall_forall in Hle. specialize (Hle a Ha).
    pose proof (beyond_after l pend Ho) as Hb. eapply Forall_impl; [exact Hb|]. cbn. intros ov Hov.
    destruct (cmp_v2_for_order o a l) eqn:E; [|by eapply after_trans|done].
    apply cmp_run_Eq in E. by rewrite (upto_key a l).
  - apply last_None in Hl. subst. by apply not_elem_of_nil in Ha.
Qed.

Lemma run_passed rss : forall rows pend,
  passed rows pend -> rows_sorted c (concat rss) -> ops_sorted c pend -> passed (rows ++ concat rss) (run_rest rss pend).
Proof.
  induction rss as [|rs rss IH]; intros rows pend Hp Hs Ho.
  - cbn. by rewrite app_nil_r.
  - cbn in Hs |- *. rewrite app_assoc. apply IH.
    + intros a [Ha|Ha]%elem_of_app; [by eapply passed_sub; [apply leaflet_rest_sub|exact Hp|]|].
      eapply leaflet_passed; [by eapply StronglySorted_app_1_l|done|done].
    + by eapply StronglySorted_app_1_r.
    + unfold leaflet_rest. destruct (last rs); [by apply beyond_sorted|done].
Qed.

(** Leaflet by leaflet, the walk merges all the rows with all the operations. *)
Lemma run_merge rss : forall pend,
  Forall (fun rs => rs <> []) rss -> rows_sorted c (concat rss) -> ops_sorted c pend ->
  run_out rss pend ++ foldr (emit_row c) [] (run_rest rss pend) = overlay_merge c pend (shown_rows (concat rss)).
Proof.
  induction rss as [|rs rss IH]; intros pend Hne Hs Ho.
  - cbn. by rewrite overlay_merge_end.
  - apply Forall_cons in Hne as [Hr Hne]. cbn in Hs |- *.
    destruct (last rs) as [l|] eqn:Hl; [|by apply last_None in Hl].
    unfold leaflet_out, leaflet_rest. rewrite Hl.
    pose proof (StronglySorted_app_1_l _ _ _ Hs) as Hs1. pose proof (StronglySorted_app_1_r _ _ _ Hs) as Hs2.
    rewrite <- app_assoc, IH; [|done|done|by apply beyond_sorted].
    unfold shown_rows. rewrite List.filter_app. fold (shown_rows rs). fold (shown_rows (concat rss)).
    rewrite <- (below_beyond l pend) at 3. symmetry. apply merge_app.
    + intros x y Hx [Hy _]%list_elem_of_In%filter_In. apply list_elem_of_In in Hy.
      pose proof (below_upto l pend) as Hb. rewrite Forall_forall in Hb. specialize (Hb x Hx). apply upto_spec in Hb.
      assert (run_lt o l y) as Hly.
      { eapply (StronglySorted_app_1_elem_of (run_lt o)); [exact Hs| |done]. by apply last_Some_elem_of. }
      unfold run_lt. destruct (cmp_v2_for_order o (ov_record x) l) eqn:E; [|by eapply run_lt_trans|done].
      apply cmp_run_Eq in E. by rewrite (cmp_run_key o (ov_record x) l y y).
    + intros x y Hx Hy. pose proof (shown_below rs l Hs1 Hl) as Hb. rewrite Forall_forall in Hb. specialize (Hb x Hx).
      pose proof (beyond_after l pend Ho) as Ha. rewrite Forall_forall in Ha. specialize (Ha y Hy). apply after_lt in Ha.
      unfold run_lt. destruct (cmp_v2_for_order o x l) eqn:E; [|by eapply run_lt_trans|done].
      apply cmp_run_Eq in E. by rewrite (cmp_run_key o x l (ov_record y) (ov_record y)).
Qed.

(** ** Leaves *)

Definition opens (le : LeafEntry C) (h : LeafHandle) : Prop := open_leaf_handle (le_leaf_cid le) (le_sidecar_cid le) false = Ok h.

Definition leaf_holds (le : LeafEntry C) (rss : list (list RunRecordV2)) : Prop :=
  exists h, opens le h /\ Forall2 (entry_holds h) (dd_entries (lh_dir h)) rss.

Context (rsss : list (list (list RunRecordV2))) (Hleaves : Forall2 leaf_holds (cc_leaves c) rsss).
Context (Hsorted : rows_sorted c (concat (concat rsss))).

Context (Hgap : no_gap o ops rsss).

Lemma leaves_order i j rss rss' a b :
  rsss !! i = Some rss -> rsss !! j = Some rss' -> (i < j)%nat -> a ∈ concat rss -> b ∈ concat rss' -> run_lt o a b.
Proof.
  intros Hi Hj Hij Ha Hb. apply (concat_lt o (@concat RunRecordV2 <$> rsss)) with (i := i) (j := j) (ci := concat rss) (cj := concat rss');
    try done; [|by rewrite list_lookup_fmap, Hi|by rewrite list_lookup_fmap, Hj].
  clear -Hsorted. unfold rows_sorted in Hsorted. by rewrite concat_concat in Hsorted.
Qed.

Lemma before_key x a b : rr_key b = rr_key x -> cmp_overlay_vs_record a b o = cmp_overlay_vs_record a x o.
Proof. intros E. rewrite !cmp_record_overlay. by apply cmp_run_key. Qed.

Lemma passed_take i rss pend a :
  rsss !! i = Some rss -> a ∈ concat rss -> passed (concat (concat (take (S i) rsss))) pend -> Forall (after a) pend.
Proof.
  intros Hi Ha Hp. apply Hp. rewrite (take_S_r _ _ _ Hi), concat_app, concat_app. cbn. rewrite app_nil_r. set_solver.
Qed.

Lemma after_of_lt a b ov : run_lt o a b -> is_Lt (cmp_overlay_vs_record ov b o) = false -> upto c a ov = false.
Proof.
  rewrite cmp_record_overlay. intros Hab Hx. apply after_lt. unfold run_lt. rewrite (cmp_sym (P := everything) (ov_record ov) a) by done.
  destruct (cmp_v2_for_order o (ov_record ov) a) eqn:E; [| |done]; exfalso.
  - apply cmp_run_Eq in E. rewrite (cmp_run_key o (ov_record ov) a b b) in Hx by done. unfold run_lt in Hab. by rewrite Hab in Hx.
  - assert (run_lt o (ov_record ov) b) as E' by by eapply run_lt_trans. unfold run_lt in E'. by rewrite E' in Hx.
Qed.

Lemma not_before b pend : ops_sorted c pend ->
  Forall (fun x => is_Lt (cmp_overlay_vs_record x b o) = false)
    (drop (partition_point (fun x => is_Lt (cmp_overlay_vs_record x b o)) pend) pend).
Proof.
  intros Hs. edestruct (partition_point_sorted _ (fun x => is_Lt (cmp_overlay_vs_record x b o)) pend Hs) as [_ ->].
  - intros x y _ _ Hxy Hy. rewrite cmp_record_overlay in Hy |- *.
    destruct (cmp_v2_for_order o (ov_record y) b) eqn:E; try done.
    assert (run_lt o (ov_record x) b) as E' by by eapply run_lt_trans. unfold run_lt in E'. by rewrite E'.
  - apply Forall_forall. intros x [_ Hx%negb_true_iff]%list_elem_of_In%filter_In. done.
Qed.

Context (Hkeys : ops <> [] -> Forall2 (fun le rss => first_key_of (le_first_key le) rss) (cc_leaves c) rsss).

(** All the operations left belong to the leaf opened next or to later ones. *)
Lemma leaf_window i rss le pend :
  cc_leaves c !! i = Some le -> rsss !! i = Some rss -> pend <> [] -> ops_sorted c pend -> (forall x, x ∈ pend -> x ∈ ops) ->
  passed (concat (concat (take i rsss))) pend ->
  exists e, compute_overlay_window pend (le_first_key le) (le_first_key <$> cc_leaves c !! S i) o (i =? 0)%nat = (0%nat, e)
    /\ (e <= length pend)%nat /\ forall a, a ∈ concat rss -> Forall (after a) (drop e pend).
Proof.
  intros Hle Hrss Hne Hs Hsub Hp. destruct pend as [|ov pend]; [done|].
  assert (ops <> []) as Hops0 by (intros E; specialize (Hsub ov ltac:(left)); rewrite E in Hsub; by apply not_elem_of_nil in Hsub).
  pose proof (Hkeys Hops0) as HK. destruct (Forall2_lookup_lr _ _ _ _ _ _ HK Hle Hrss) as (r & Hr & Hkey).
  unfold compute_overlay_window.
  eexists. split; [f_equal|split].
  - destruct i as [|i]; [done|]. cbn [Nat.eqb partition_point]. rewrite (before_key r ov _ Hkey).
    destruct (rsss !! i) as [rss0|] eqn:Hi; [|apply lookup_ge_None in Hi; apply lookup_lt_Some in Hrss; lia].
    destruct (last (concat rss0)) as [a|] eqn:Ha.
    + pose proof (passed_take i rss0 _ a Hi (last_Some_elem_of _ _ Ha) Hp) as Hf. apply Forall_cons in Hf as [Hf _].
      pose proof (Hgap i rss0 rss a r ov Hi Hrss Ha Hr (Hsub ov ltac:(left)) (proj1 (after_lt a ov) Hf)) as Hn.
      rewrite cmp_record_overlay. unfold run_lt in Hn. by destruct (cmp_v2_for_order o (ov_record ov) r).
    + destruct (Forall2_lookup_r _ _ _ _ _ HK Hi) as (le0 & _ & r0 & Hr0 & _). apply last_None in Ha. by rewrite Ha in Hr0.
  - destruct (le_first_key <$> cc_leaves c !! S i); [apply partition_point_le|done].
  - intros a Ha. destruct (cc_leaves c !! S i) as [le'|] eqn:Hle'; [|cbn; by rewrite drop_all].
    destruct (Forall2_lookup_l _ _ _ _ _ HK Hle') as (rss' & Hrss' & r' & Hr' & Hkey'). cbn [fmap option_fmap option_map].
    assert (run_lt o a r') as Har by (eapply (leaves_order i (S i)); [done|done|lia|done|by apply head_Some_elem_of]).
    pose proof (not_before (le_first_key le') (ov :: pend) Hs) as Hnb. eapply Forall_impl; [exact Hnb|]. cbn. intros x Hx.
    rewrite (before_key r' x _ Hkey') in Hx. by apply (after_of_lt a r').
Qed.

Lemma open_leaf_spec st i rss :
  cs_current_leaf_idx st = i -> rsss !! i = Some rss -> (cs_overlay_pos st <= length ops)%nat ->
  (cs_leaf_overlay_end st <= length ops)%nat ->
  passed (concat (concat (take i rsss))) (drop (cs_overlay_pos st) ops) ->
  exists h st', open_leaf c st = Ok (h, st') /\ Forall2 (entry_holds h) (dd_entries (lh_dir h)) rss /\
    cs_current_leaf_idx st' = S i /\ cs_current_leaf st' = Some h /\ cs_current_leaflet_idx st' = 0%nat /\
    cs_exhausted st' = cs_exhausted st /\ cs_overlay_pos st' = cs_overlay_pos st /\
    (cs_leaf_overlay_end st' <= length ops)%nat /\
    Forall (window_ok (cs_overlay_pos st') (cs_leaf_overlay_end st')) rss.
Proof.
  intros Hi Hrss Hpos Hle Hp. destruct (Forall2_lookup_r _ _ _ _ _ Hleaves Hrss) as (le & Hlei & h & Hopen & Hent).
  exists h. unfold open_leaf. rewrite Hi, Hlei. unfold has_any_overlay. cbn [cs_overlay_pos]. rewrite Hend.
  unfold opens in Hopen. rewrite Hnow, Hopen.
  assert (start_leaflet_idx c (dd_entries (lh_dir h)) = 0%nat) as Estart by (unfold start_leaflet_idx; by rewrite Hnow, Hmin).
  destruct (Nat.ltb_spec (cs_overlay_pos st) (length ops)) as [Hlt|Hge].
  - unfold slice_overlay_for_leaf. cbn [cs_overlay_pos]. unfold window_ops. rewrite Hend, Nat.ltb_irrefl.
    rewrite take_ge by (rewrite length_drop; lia). rewrite Hlei, Hrange. cbn [fst].
    assert (drop (cs_overlay_pos st) ops <> []) as Hne.
    { intros E%(f_equal length). rewrite length_drop in E. cbn in E. lia. }
    destruct (leaf_window i rss le (drop (cs_overlay_pos st) ops)) as (e & Ew & He & Haft); try done; [apply drop_sorted| |].
    { intros x Hx. rewrite <- (take_drop (cs_overlay_pos st) ops). set_solver. }
    rewrite length_drop in He. destruct (drop (cs_overlay_pos st) ops) as [|ov pend] eqn:Epend; [done|].
    rewrite Ew. cbn. rewrite Estart. eexists. split; [done|]. cbn. split_and!; try done; [lia|].
    apply Forall_forall. intros rs Hrs l Hl. rewrite Nat.add_0_r.
    replace (Nat.max _ _) with (cs_overlay_pos st + e)%nat by lia. rewrite <- drop_drop, Epend. apply Haft.
    apply list_elem_of_In, in_concat. exists rs. rewrite <- !list_elem_of_In. split; [done|by apply last_Some_elem_of].
  - cbn. rewrite Estart. eexists. split; [done|]. cbn. split_and!; try done.
    apply Forall_forall. intros rs Hrs l Hl. rewrite drop_ge by lia. constructor.
Qed.

(** ** The walk *)

Notation pending st := (drop (cs_overlay_pos st) ops).

(** Before leaf [i]. *)
Record at_leaf (st : CursorState) (i : nat) : Prop := {
  al_idx : cs_current_leaf_idx st = i;
  al_exhausted : cs_exhausted st = false;
  al_pos : (cs_overlay_pos st <= length ops)%nat;
  al_end : (cs_leaf_overlay_end st <= length ops)%nat;
  al_passed : passed (concat (concat (take i rsss))) (pending st);
}.

(** In leaf [i], with the leaflets [done] read and [left] to read. *)
Record in_leaf (st : CursorState) (h : LeafHandle) (i : nat) (done left : list (list RunRecordV2)) : Prop := {
  il_leaf : rsss !! i = Some (done ++ left);
  il_handle : cs_current_leaf st = Some h;
  il_leaflet : cs_current_leaflet_idx st = length done;
  il_idx : cs_current_leaf_idx st = S i;
  il_exhausted : cs_exhausted st = false;
  il_pos : (cs_overlay_pos st <= length ops)%nat;
  il_end : (cs_leaf_overlay_end st <= length ops)%nat;
  il_entries : Forall2 (entry_holds h) (dd_entries (lh_dir h)) (done ++ left);
  il_window : Forall (window_ok (cs_overlay_pos st) (cs_leaf_overlay_end st)) left;
  il_passed : passed (concat (concat (take i rsss)) ++ concat done) (pending st);
}.

Inductive ready (st : CursorState) : list (list RunRecordV2) -> Prop :=
| ready_at i : cs_current_leaf st = None -> (i <= length rsss)%nat -> at_leaf st i -> ready st (concat (drop i rsss))
| ready_in h i done left : in_leaf st h i done left -> ready st (left ++ concat (drop (S i) rsss)).

(** What a call of [next_batch] returns when the leaflets [left] and the
    operations [pend] are left. *)
Definition next_of (res : io (option ColumnBatch * CursorState)) (left : list (list RunRecordV2)) (pend : list OverlayOp) : Prop :=
  (exists st', res = Ok (finish_cursor c st') /\ run_out left pend = [] /\ (cs_overlay_pos st' <= length ops)%nat /\
     pending st' = run_rest left pend) \/
  (exists A rs B b st', res = Ok (Some b, st') /\ left = A ++ rs :: B /\ run_out A pend = [] /\
     batch_holds b (leaflet_out rs (run_rest A pend)) /\ ready st' B /\ pending st' = run_rest (A ++ [rs]) pend).

Lemma next_of_after res A left pend : run_out A pend = [] -> next_of res left (run_rest A pend) -> next_of res (A ++ left) pend.
Proof.
  intros HA [(st' & -> & Ho & Hp & Hr)|(A' & rs & B & b & st' & -> & -> & Ho & Hb & Hr & Hp)].
  - left. exists st'. by rewrite run_out_app, HA, Ho, run_rest_app.
  - right. exists (A ++ A'), rs, B, b, st'. rewrite !run_out_app, !run_rest_app, HA, Ho, <- app_assoc.
    by rewrite run_rest_app in Hp.
Qed.

Lemma rows_of_leaf i rss : rsss !! i = Some rss -> rows_sorted c (concat rss).
Proof.
  intros Hi. unfold rows_sorted in *. rewrite concat_concat in Hsorted.
  assert ((@concat RunRecordV2 <$> rsss) !! i = Some (concat rss)) as E by by rewrite list_lookup_fmap, Hi.
  rewrite <- (take_drop_middle _ _ _ E) in Hsorted. rewrite concat_app in Hsorted. cbn in Hsorted.
  apply StronglySorted_app_1_r in Hsorted. by apply StronglySorted_app_1_l in Hsorted.
Qed.

(** The leaflets left in the open leaf. *)
Lemma in_leaf_step st h i done left :
  in_leaf st h i done left ->
  let res := leaflet_loop c h st (drop (cs_current_leaflet_idx st) (dd_entries (lh_dir h))) in
  (exists st', res = Ok (LeafDone st') /\ run_out left (pending st) = [] /\ pending st' = run_rest left (pending st) /\
     at_leaf st' (S i)) \/
  (exists b st', res = Ok (Emit b st') /\ next_of (Ok (Some b, st')) (left ++ concat (drop (S i) rsss)) (pending st)).
Proof.
  intros [Hi Hh Hx Hidx Hex Hpos Hle Hent Hwin Hp] res.
  pose proof (rows_of_leaf _ _ Hi) as Hs. rewrite concat_app in Hs. apply StronglySorted_app_1_r in Hs.
  assert (Forall2 (entry_holds h) (drop (length done) (dd_entries (lh_dir h))) left) as Hent'.
  { apply Forall2_drop with (n := length done) in Hent. by rewrite drop_app_length in Hent. }
  subst res. rewrite Hx.
  destruct (leaflet_loop_spec h _ _ Hent' st Hpos Hle Hwin)
    as [(st' & Hl & Ho & [Ei Ee El Hp' Hr])|(b & st' & Hl & A & rs & B & E & Ho & Hb & Hsl & Hc & Hn)].
  - left. exists st'. split_and!; [done|done|done|]. split; [congruence|congruence|lia|lia|].
    rewrite Hr, (take_S_r _ _ _ Hi), !concat_app. cbn. rewrite app_nil_r, concat_app, app_assoc.
    apply run_passed; [done|done|apply drop_sorted].
  - right. exists b, st'. split; [done|]. right. subst left. exists A, rs, (B ++ concat (drop (S i) rsss)), b, st'.
    rewrite <- app_assoc. split_and!; try done; [|apply (sl_pend _ _ _ Hsl)].
    destruct Hsl as [Ei Ee El Hp' Hr]. apply (ready_in st' h i (done ++ A ++ [rs]) B). split; try congruence; try lia.
    + rewrite Hi. by rewrite <- !app_assoc.
    + rewrite Hn, Hx, !length_app. cbn. lia.
    + by rewrite <- !app_assoc.
    + apply (window_later st st' (run_rest (A ++ [rs]) (pending st))); [by split|].
      apply Forall_app in Hwin as [_ Hwin]. by apply Forall_cons in Hwin as [_ Hwin].
    + rewrite Hr, concat_app, app_assoc. apply run_passed; [done| |apply drop_sorted].
      replace (A ++ rs :: B) with ((A ++ [rs]) ++ B) in Hs by by rewrite <- app_assoc.
      rewrite (concat_app (A ++ [rs])) in Hs. by eapply StronglySorted_app_1_l.
Qed.

Lemma next_leaves_spec n : forall st i,
  at_leaf st i -> (n + i = length rsss)%nat -> next_of (next_leaves c n st) (concat (drop i rsss)) (pending st).
Proof.
  induction n as [|n IH]; intros st i Hat Hn.
  - left. exists st. rewrite drop_ge by lia. split_and!; [done|done|apply Hat|done].
  - destruct (lookup_lt_is_Some_2 rsss i ltac:(lia)) as [rss Hi].
    destruct Hat as [Hidx Hex Hpos Hle Hp].
    destruct (open_leaf_spec st i rss Hidx Hi Hpos Hle Hp) as (h & st1 & Hopen & Hent & E1 & E2 & E3 & E4 & E5 & E6 & Hw).
    cbn [next_leaves]. rewrite Hopen. cbn [mbind outcome_bind]. rewrite (drop_S _ _ _ Hi), concat_cons.
    assert (in_leaf st1 h i [] rss) as Hin.
    { split; try done; [congruence|lia|]. cbn. by rewrite app_nil_r, E5. }
    rewrite <- E5. destruct (in_leaf_step _ _ _ _ _ Hin) as [(st2 & -> & Ho & Hr & Hat)|(b & st2 & -> & Hnext)]; [|done].
    cbn [mbind outcome_bind]. apply next_of_after; [done|]. rewrite <- Hr. apply IH; [done|lia].
Qed.

Lemma next_batch_spec st left : ready st left -> next_of (next_batch c st) left (pending st).
Proof.
  pose proof (Forall2_length _ _ _ Hleaves) as Hlen. unfold next_batch. rewrite Hrange. cbn [snd].
  intros [i Hn Hile Hat|h i dn lft Hin].
  - rewrite (al_exhausted _ _ Hat), Hn. apply next_leaves_spec; [done|]. rewrite (al_idx _ _ Hat). lia.
  - rewrite (il_exhausted _ _ _ _ _ Hin), (il_handle _ _ _ _ _ Hin).
    destruct (in_leaf_step _ _ _ _ _ Hin) as [(st2 & -> & Ho & Hr & Hat)|(b & st2 & -> & Hnext)]; [|done].
    cbn [mbind outcome_bind]. apply next_of_after; [done|]. rewrite <- Hr. apply next_leaves_spec; [done|].
    rewrite (al_idx _ _ Hat). pose proof (lookup_lt_Some _ _ _ (il_leaf _ _ _ _ _ Hin)). lia.
Qed.

Lemma emitted_graph pend : Forall (fun r => rr_g_id r = 0) (foldr (emit_row c) [] pend).
Proof. induction pend as [|ov pend IH]; [constructor|]. cbn. unfold emit_row. destruct (emits c ov); [by constructor|done]. Qed.

(** The operations left when the leaves are read. *)
Lemma finish_scans st st' :
  next_batch c st = Ok (finish_cursor c st') -> (cs_overlay_pos st' <= length ops)%nat ->
  exists bs outs, scans c st bs /\ Forall2 batch_holds bs outs /\ concat outs = foldr (emit_row c) [] (pending st').
Proof.
  intros Hn Hpos. unfold finish_cursor, has_any_overlay in Hn. cbn [cs_overlay_pos cs_leaf_overlay_end] in Hn. rewrite Hend in Hn.
  destruct (Nat.ltb_spec (cs_overlay_pos st') (length ops)) as [Hlt|Hge].
  - unfold emit_overlay_only in Hn. cbn [cs_overlay_pos] in Hn.
    pose proof (block_batch_holds _ (emitted_graph (pending st'))) as Hb.
    destruct (batch_is_empty _) eqn:Ee.
    + exists [], []. split_and!; [by econstructor|constructor|]. by apply (batch_empty_iff _ _ Hb) in Ee.
    + eexists [_], [_]. split_and!; [|repeat constructor; exact Hb|by rewrite concat_cons, app_nil_r].
      eapply scans_batch; [exact Hn|]. eapply scans_end. unfold next_batch. cbn. done.
  - exists [], []. split_and!; [by econstructor|constructor|]. by rewrite drop_ge by lia.
Qed.

Lemma scan_from n : forall st left, (length left <= n)%nat -> ready st left ->
  exists bs outs, scans c st bs /\ Forall2 batch_holds bs outs /\
    concat outs = run_out left (pending st) ++ foldr (emit_row c) [] (run_rest left (pending st)).
Proof.
  induction n as [|n IH]; intros st left Hlen Hready;
    destruct (next_batch_spec st left Hready) as [(st' & Hn & -> & Hpos & <-)|(A & rs & B & b & st' & Hn & -> & Ho & Hb & Hr & Hp)];
    try (by apply (finish_scans st st')); rewrite length_app in Hlen; cbn in Hlen; [lia|].
  destruct (IH st' B ltac:(lia) Hr) as (bs & outs & Hs & Hbs & Hout). exists (b :: bs). eexists (_ :: outs).
  split_and!; [by eapply scans_batch|by constructor|].
  rewrite concat_cons, Hout, Hp, run_out_app, Ho. cbn [app run_out run_rest].
  rewrite !run_rest_app. cbn [run_rest]. by rewrite app_assoc.
Qed.

(** A cursor at its start returns the merge of the rows and the operations. *)
Lemma scan_start st :
  at_leaf st 0 -> cs_current_leaf st = None -> cs_overlay_pos st = 0%nat ->
  exists bs outs, scans c st bs /\ Forall2 batch_holds bs outs /\
    concat outs = overlay_merge c ops (shown_rows (concat (concat rsss))).
Proof.
  intros Hat Hnone Hpos. destruct (scan_from _ st (concat rsss) (le_n _)) as (bs & outs & Hs & Hbs & Hout).
  { apply (ready_at st 0); [done|lia|done]. }
  exists bs, outs. split_and!; [done|done|]. rewrite Hout, Hpos. cbn [drop]. apply run_merge; [|done|done].
  apply Forall_forall. intros rs Hrs. apply list_elem_of_In, in_concat in Hrs as (rss & Hrss & Hrs).
  apply list_elem_of_In, list_elem_of_lookup in Hrss as [i Hi]. destruct (Forall2_lookup_r _ _ _ _ _ Hleaves Hi) as (le & _ & h & _ & Hent).
  apply list_elem_of_In, list_elem_of_lookup in Hrs as [j Hj]. destruct (Forall2_lookup_r _ _ _ _ _ Hent Hj) as (e & _ & He).
  destruct (eh_last _ _ _ He) as (l & Hl & _). by intros ->.
Qed.
End laws.
