(* ===== verification/CursorStored.v ===== *)
(** * A cursor over stored leaves

    The leaves of an index are the blobs the leaf writer assembles.  A scan of
    them opens every blob, loads every leaflet that may match, filters it and
    merges the overlay: its batches are the matching rows of the leaves with the
    operations applied, in index order. *)

From S2P Require Import Prelude Bytes Cmp Segment RunRecord Columns HistorySidecar IndexLog Replay Leaflet.
From S2P Require Import LeafBlob LeafUpdateLaws IndexFilter Overlay Cursor CursorLaws.
From stdpp Require Import base list numbers sorting gmap.
From Stdlib Require Import ZArith Lia.

Local Open Scope Z_scope.

(** ** Rows without their graph *)

Lemma drop_graph_sorted o rows : StronglySorted (run_lt o) rows -> StronglySorted (run_lt o) (drop_graph <$> rows).
Proof.
  induction 1 as [|r rows Hs IH Hr]; [constructor|]. cbn. constructor; [done|]. rewrite Forall_fmap.
  eapply Forall_impl; [exact Hr|]. cbn. intros x Hx. unfold run_lt in *. by rewrite (cmp_run_key o _ r _ x).
Qed.

Lemma matches_drop_graph bf r : matches_row bf (drop_graph r) = matches_row bf r.
Proof. done. Qed.

Lemma none_shown {C} (c : CursorConfig C) rs :
  Forall (fun r => matches_row (cc_filter c) r = false) rs -> shown_rows c (drop_graph <$> rs) = [].
Proof. intros H. apply filter_none. by rewrite Forall_fmap. Qed.

(** The rows of the leaflets as a leaf stores them. *)
Definition no_graph (rss : list (list RunRecordV2)) : list (list RunRecordV2) := (fun rs : list RunRecordV2 => drop_graph <$> rs) <$> rss.

Lemma concat_no_graph rss : concat (no_graph rss) = drop_graph <$> concat rss.
Proof. symmetry. apply concat_map. Qed.

Section stored.
Context {C : Type} `{LS : LeafStore C, SL : SortLib, SO : StatesOrder, CZ : ColumnZstd, CZL : !ColumnZstdLaws}.

(** The blob of a leaf entry, with the rows of its leaflets. *)
Record leaf_blob_of (o : RunSortOrder) (rss : list (list RunRecordV2)) (data : bytes) : Prop := {
  lb_data : exists level leaflets segs fk lk,
    Forall2 (fun rs l => encode_leaflet rs o level = Ok l) rss leaflets /\ Forall seg_ok segs /\
    zlen fk = ORDERED_KEY_V2_SIZE /\ zlen lk = ORDERED_KEY_V2_SIZE /\
    foldr (fun l n => el_row_count l + n) 0 leaflets < 2 ^ 64 /\ zlen leaflets < 2 ^ 32 /\
    data = build_leaf_blob_raw_keys o leaflets segs fk lk;
  lb_rows : Forall (leaflet_rows_ok o) rss;
  lb_sentinel : Forall no_sentinel rss;
  lb_size : zlen data < 2 ^ 32;
}.

Definition stored_leaf (o : RunSortOrder) (le : LeafEntry C) (rss : list (list RunRecordV2)) : Prop :=
  exists data, store_fetch (le_leaf_cid le) = Ok data /\ leaf_blob_of o rss data.

Section leaf.
Context (c : CursorConfig C).
Notation o := (cc_order c).

Lemma entry_of_holds h rs level l off seg base :
  encode_leaflet rs o level = Ok l -> leaflet_rows_ok o rs -> zlen (el_payload l) < 2 ^ 32 -> rows_sorted c rs ->
  base = dd_payload_base (lh_dir h) ->
  (exists b, load_leaflet_columns (lh_bytes h) (entry_of l off seg) base cp_all = Ok b /\ batch_holds b (drop_graph <$> rs)) ->
  entry_holds c h (entry_of l off seg) (drop_graph <$> rs).
Proof.
  intros He Hok Hz Hs -> Hload.
  destruct (encode_leaflet_inv rs o level l He Hok Hz) as (first & rest & E & Hrc & Hp & Hot & _ & Hfk & Hlk & _).
  assert (last rs = Some (default first (last rs))) as Hlast.
  { destruct (last rs) as [x|] eqn:El; [done|]. apply last_None in El. congruence. }
  pose proof (lr_wf _ _ Hok) as Hwf. rewrite Forall_forall in Hwf.
  pose proof (Hwf _ (last_Some_elem_of _ _ Hlast)) as Hwl. assert (rr_wf first) as Hw1 by (apply Hwf; rewrite E; left).
  assert (head rs = Some first) as Hhead by by rewrite E.
  split; cbn [entry_of de_row_count de_last_key de_first_key de_p_const de_o_type_const].
  - rewrite Hrc, E, zlen_cons. pose proof (zlen_nonneg rest). lia.
  - by apply drop_graph_sorted.
  - done.
  - eexists. rewrite fmap_last, Hlast. split; [done|]. rewrite Hlk, (proj1 (ordered_key_roundtrip o _ Hwl)). done.
  - rewrite Hp, Hot. intros Hk. by eapply none_shown, leaflet_skip_sound.
  - rewrite Hfk, Hlk. intros Hk. by eapply none_shown, leaflet_range_sound.
Qed.

Lemma stored_holds le rss :
  stored_leaf o le rss -> rows_sorted c (concat rss) -> leaf_holds c le (no_graph rss).
Proof.
  intros (data & Hfetch & [(level & leaflets & segs & fk & lk & HF & Hsegs & Hfk & Hlk & Htot & Hcount & ->) Hrows Hns Hz]) Hs.
  pose proof Hz as Hz'. rewrite zlen_blob in Hz'.
  pose proof (zlen_nonneg (concat (leaf_header_fields o leaflets fk lk))).
  pose proof (zlen_nonneg (directory_bytes leaflets segs 0)).
  assert (Forall encoded_ok leaflets) as Hok by (eapply (leaflets_encoded o level); [done|done|done|lia]).
  destruct (decode_dir_blob o leaflets segs fk lk Hfk Hlk Hok Hsegs Hcount ltac:(lia) Htot) as (base & Hbase & Hdir).
  eexists (mkHandle _ (mkDecodedDir (placed leaflets segs 0) base) None). split.
  - unfold opens, open_leaf_handle. rewrite Hfetch. cbn [mbind outcome_bind].
    assert (forall (x : option C), (match x with Some sc => mret None | None => mret None end) = (Ok None : io (option bytes))) as Hnone by by intros [].
    cbn iota. rewrite Hnone. cbn [mbind outcome_bind]. unfold full_blob_new.
    apply outcome_bind_Ok in Hdir as (header & -> & Hd). cbn [mbind outcome_bind]. by rewrite Hd.
  - cbn [lh_dir dd_entries]. apply Forall2_same_length_lookup. split.
    { unfold no_graph. rewrite length_placed, length_fmap. symmetry. by eapply Forall2_length. }
    intros i entry rs' Hentry Hrs'. unfold no_graph in Hrs'. rewrite list_lookup_fmap_Some in Hrs'. destruct Hrs' as (rs & -> & Hrs).
    destruct (Forall2_lookup_l _ _ _ _ _ HF Hrs) as (l & Hl & He). rewrite (placed_lookup _ _ _ _ _ Hl) in Hentry. injection Hentry as <-.
    pose proof (payload_take leaflets i l Hl). pose proof (zlen_nonneg (concat (el_payload <$> take i leaflets))). unfold payload_size in *.
    assert (base = zlen (concat (leaf_header_fields o leaflets fk lk)) + zlen (directory_bytes leaflets segs 0)) as Hb.
    { by rewrite Hbase, (zlen_concat _ _ (header_fields_lengths o leaflets fk lk Hfk Hlk)). }
    eapply (entry_of_holds _ rs level); [done|by eapply Forall_lookup_1|lia| |done|].
    * apply list_elem_of_split_length in Hrs as (l1 & l2 & -> & _). rewrite concat_app in Hs. cbn in Hs.
      apply StronglySorted_app_1_r in Hs. by apply StronglySorted_app_1_l in Hs.
    * rewrite Hb. by apply (load_leaflet_at o level rss leaflets segs fk lk HF Hrows i rs l).
Qed.
End leaf.

Lemma first_key_stored key rss : first_key_of key rss -> first_key_of key (no_graph rss).
Proof.
  intros (r & Hr & Hkey). exists (drop_graph r). split; [|done]. rewrite concat_no_graph. by destruct (concat rss); [|injection Hr as ->].
Qed.

Lemma concat_stored (rsss : list (list (list RunRecordV2))) :
  concat (concat (no_graph <$> rsss)) = drop_graph <$> concat (concat rsss).
Proof. induction rsss as [|rss rsss IH]; [done|]. cbn. rewrite !concat_app, IH, concat_no_graph. by rewrite fmap_app. Qed.

Lemma no_gap_stored o ops rsss : no_gap o ops rsss -> no_gap o ops (no_graph <$> rsss).
Proof.
  intros H i rss rss' a b ov Hi Hj Ha Hb Hov Hlt Hgt.
  rewrite list_lookup_fmap_Some in Hi, Hj. destruct Hi as (r1 & -> & Hi), Hj as (r2 & -> & Hj).
  rewrite concat_no_graph, fmap_last in Ha. rewrite concat_no_graph in Hb.
  destruct (last (concat r1)) as [a'|] eqn:Ea; [|done]. destruct (concat r2) as [|b' l2] eqn:Eb; [done|].
  injection Ha as <-. injection Hb as <-. apply (H i r1 r2 a' b' ov); try done; [by rewrite Eb| |].
  - unfold run_lt in *. by rewrite (cmp_run_key o a' (drop_graph a') _ (ov_record ov)).
  - unfold run_lt in *. by rewrite (cmp_run_key o _ (ov_record ov) b' (drop_graph b')).
Qed.

(** The batches are the merge of the rows and the operations. *)
Lemma scan_merges o leaves rsss f p ops to_t :
  Forall2 (stored_leaf o) leaves rsss -> StronglySorted (run_lt o) (concat (concat rsss)) ->
  cp_effective p = CS_ALL -> store_max_t <= to_t ->
  StronglySorted (ov_lt o) ops -> no_gap o ops rsss ->
  (ops <> [] -> Forall2 (fun le rss => first_key_of (le_first_key le) rss) leaves rsss) ->
  let '(c, st) := set_to_t (set_overlay_ops (scan_all o leaves f p) ops) to_t in
  exists bs outs, scans c st bs /\ Forall2 batch_holds bs outs /\
    concat outs = overlay_merge c ops (shown_rows c (drop_graph <$> concat (concat rsss))).
Proof.
  intros Hleaves Hs Hp Ht Ho Hgap Hkeys. cbn.
  set (c := mkCursorConfig o leaves (0%nat, length leaves) f p ops (length ops) to_t None None).
  set (st := mkCursorState 0 None 0 false 0 (length ops)).
  pose proof (drop_graph_sorted o _ Hs) as Hs'. rewrite <- concat_stored in Hs'.
  assert (Forall2 (leaf_holds c) (cc_leaves c) (no_graph <$> rsss)) as Hl.
  { apply Forall2_fmap_r. apply Forall2_same_length_lookup. split; [by eapply Forall2_length|]. intros i le rss Hi Hj.
    apply (stored_holds c); [by eapply Forall2_lookup_lr|]. unfold rows_sorted. rewrite concat_concat in Hs.
    apply (f_equal (fmap (@concat RunRecordV2))) in Hj. cbn in Hj. rewrite <- list_lookup_fmap in Hj.
    rewrite <- (take_drop_middle _ _ _ Hj), concat_app in Hs. cbn in Hs.
    apply StronglySorted_app_1_r in Hs. by apply StronglySorted_app_1_l in Hs. }
  destruct (scan_start c) with (rsss := no_graph <$> rsss) (st := st) as (bs & outs & Hscan & Hb & Hout); try done.
  { unfold need_replay. cbn. lia. }
  { by apply no_gap_stored. }
  { intros Hne. apply Forall2_fmap_r. eapply Forall2_impl; [by apply Hkeys|]. intros le rss. apply first_key_stored. }
  { split; try done; [cbn; lia|]. by intros a ?%not_elem_of_nil. }
  exists bs, outs. by rewrite concat_stored in Hout.
Qed.

(** C4: a cursor over all columns of stored leaves, at the present ([to_t] no
    earlier than any time in the store, so that no history is replayed), with
    sorted overlay operations, none of which sorts between two leaves, and
    with a branch whose first keys are the first rows of the leaves if there
    are any operations, reads to its end without an error; its batches
    together are sorted in index order, and hold exactly the rows of the
    leaves that match the filter and whose fact no operation is about, and the
    facts of the assertions that match it and are no later than [to_t].
    Outside these conditions the cursor is wrong in the ways of
    [gap_assertion_lost], [cursor_ignores_empty_segment] and
    [closed_leaf_keys]. *)
Theorem scan_exact o leaves rsss f p ops to_t :
  Forall2 (stored_leaf o) leaves rsss -> StronglySorted (run_lt o) (concat (concat rsss)) ->
  cp_effective p = CS_ALL -> store_max_t <= to_t ->
  StronglySorted (ov_lt o) ops -> no_gap o ops rsss ->
  (ops <> [] -> Forall2 (fun le rss => first_key_of (le_first_key le) rss) leaves rsss) ->
  let '(c, st) := set_to_t (set_overlay_ops (scan_all o leaves f p) ops) to_t in
  exists bs outs, scans c st bs /\ Forall2 batch_holds bs outs /\ StronglySorted (run_lt o) (concat outs) /\
    forall x, x ∈ concat outs <->
      (exists r, x = drop_graph r /\ r ∈ concat (concat rsss) /\ matches_row f r = true /\
         forall ov, ov ∈ ops -> ov_key ov <> rr_key r) \/
      (exists ov, x = push_overlay_row ov /\ ov ∈ ops /\ ov_op ov = true /\ ov_t ov <= to_t /\
         bf_matches f (ov_s_id ov) (ov_p_id ov) (ov_o_type ov) (ov_o_key ov) (ov_o_i ov) = true).
Proof.
  intros Hleaves Hs Hp Ht Ho Hgap Hkeys. pose proof (scan_merges o leaves rsss f p ops to_t Hleaves Hs Hp Ht Ho Hgap Hkeys) as H. cbn in H |- *.
  set (c := mkCursorConfig o leaves (0%nat, length leaves) f p ops (length ops) to_t None None) in *.
  destruct H as (bs & outs & Hscan & Hb & Hout). pose proof (drop_graph_sorted o _ Hs) as Hs'.
  exists bs, outs. rewrite Hout. split_and!; [done|done| |].
  - apply (merged_sorted c); [done|]. by apply shown_sorted.
  - intros x. rewrite merged_elem; [|done|by apply shown_sorted]. unfold merged_row, shown_rows. f_equiv.
    + split.
      * intros [Hx Hn]. apply list_elem_of_In, filter_In in Hx as [Hx Hm]. apply list_elem_of_In, list_elem_of_fmap in Hx as (r & -> & Hr).
        by exists r.
      * intros (r & -> & Hr & Hm & Hn). split; [|done]. apply list_elem_of_In, filter_In. split; [|done].
        apply list_elem_of_In. by apply list_elem_of_fmap_2.
    + assert (forall ov, emits c ov = true <-> ov_op ov = true /\ ov_t ov <= to_t /\
        bf_matches f (ov_s_id ov) (ov_p_id ov) (ov_o_type ov) (ov_o_key ov) (ov_o_i ov) = true) as He.
      { intros ov. unfold emits, filter_overlay. cbn. rewrite !andb_true_iff, Z.leb_le. tauto. }
      split; intros (ov & H1 & H2 & H3); exists ov; naive_solver.
Qed.
End stored.
