(* ===== verification/KWayMerge.v ===== *)
(** * The k-way merge of run files (run_index/build/merge.rs)

    A binary heap of the next record of each stream, in an array.  A stream is
    the list of the records and operations it has left; reading it does not
    fail.  [next_record] takes the least record, [next_deduped] the latest
    record of a fact, with the others as its history. *)
From S2P Require Import Prelude Bytes Cmp Segment RunRecord Columns HistorySidecar IndexLog Leaflet.
From stdpp Require Import base list numbers sorting gmap.
From Stdlib Require Import ZArith Lia.

Local Open Scope Z_scope.

Definition run_item : Type := RunRecordV2 * Z.

Record HeapEntry := mkHeapEntry { hp_record : RunRecordV2; hp_op : Z; hp_stream : nat }.

Record KWayMerge := mkMerge { km_heap : list HeapEntry; km_streams : list (list run_item) }.

Section merge.
Context (o : RunSortOrder).

Definition entry_less (a b : HeapEntry) : bool :=
  match cmp_v2_for_order o (hp_record a) (hp_record b) with
  | Lt => true
  | Gt => false
  | Eq => (hp_stream a <? hp_stream b)%nat
  end.

Definition heap_less (h : list HeapEntry) (i j : nat) : io bool :=
  match h !! i, h !! j with
  | Some a, Some b => mret (entry_less a b)
  | _, _ => Panic
  end.

Definition heap_swap (h : list HeapEntry) (i j : nat) : io (list HeapEntry) :=
  match h !! i, h !! j with
  | Some a, Some b => mret (<[j:=a]> (<[i:=b]> h))
  | _, _ => Panic
  end.

(** The position grows at each turn, so the length of the heap is fuel enough. *)
Fixpoint sift_down (fuel : nat) (h : list HeapEntry) (pos : nat) : io (list HeapEntry) :=
  match fuel with
  | O => mret h
  | S fuel =>
      let left := (2 * pos + 1)%nat in
      if (length h <=? left)%nat then mret h
      else
        let right := S left in
        right_less ← (if (right <? length h)%nat then heap_less h right left else mret false);
        let smallest := if right_less : bool then right else left in
        less ← heap_less h pos smallest;
        if less : bool then mret h
        else
          h ← heap_swap h pos smallest;
          sift_down fuel h smallest
  end.

(** The first record of a stream as an entry. *)
Definition stream_entry (idx : nat) (stream : list run_item) : option HeapEntry :=
  match stream with
  | [] => None
  | (r, op) :: _ => Some (mkHeapEntry r op idx)
  end.

Definition stream_entries (streams : list (list run_item)) : list HeapEntry := omap id (imap stream_entry streams).

(** Bottom up, from node [i - 1] to the root. *)
Fixpoint build_heap (h : list HeapEntry) (i : nat) : io (list HeapEntry) :=
  match i with
  | O => mret h
  | S i => h ← sift_down (length h) h i; build_heap h i
  end.

Definition merge_new (streams : list (list run_item)) : io KWayMerge :=
  let heap := stream_entries streams in
  heap ← (if (1 <? length heap)%nat then build_heap heap (length heap / 2) else mret heap);
  mret (mkMerge heap streams).

(** The heap with the next entry of the winning stream at its root, or without
    its root when the stream has ended. *)
Definition replace_root (h : list HeapEntry) (next : option HeapEntry) : io (list HeapEntry) :=
  match next with
  | Some e => let h := <[0%nat:=e]> h in sift_down (length h) h 0
  | None =>
      h ← heap_swap h 0 (length h - 1);
      let h := take (length h - 1) h in
      match h with [] => mret h | _ => sift_down (length h) h 0 end
  end.

Definition next_record (m : KWayMerge) : io (option run_item * KWayMerge) :=
  match km_heap m with
  | [] => mret (None, m)
  | winner :: _ =>
      let idx := hp_stream winner in
      match km_streams m !! idx with
      | None => Panic
      | Some stream =>
          heap ← replace_root (km_heap m) (stream_entry idx (tail stream));
          mret (Some (hp_record winner, hp_op winner), mkMerge heap (<[idx:=tail stream]> (km_streams m)))
      end
  end.

(** The loop over the records that share the fact of the winner; [n] bounds the
    records that are left. *)
Fixpoint dedup_loop (n : nat) (m : KWayMerge) (winner : run_item) (history : list run_item)
    : io (run_item * list run_item * KWayMerge) :=
  match km_heap m with
  | [] => mret (winner, history, m)
  | top :: _ =>
      if same_identity_v2 winner.1 (hp_record top) then
        match n with
        | O => Panic
        | S n =>
            '(dup, m) ← next_record m;
            match dup with
            | None => Panic
            | Some dup =>
                if rr_t winner.1 <? rr_t dup.1 then dedup_loop n m dup (history ++ [winner])
                else dedup_loop n m winner (history ++ [dup])
            end
        end
      else mret (winner, history, m)
  end.

Definition records_left (m : KWayMerge) : nat := length (concat (km_streams m)).

Definition next_deduped_with_history (m : KWayMerge) : io (option (run_item * list run_item) * KWayMerge) :=
  '(first, m) ← next_record m;
  match first with
  | None => mret (None, m)
  | Some winner =>
      '(winner, history, m) ← dedup_loop (records_left m) m winner [];
      mret (Some (winner, history), m)
  end.

(** The same without the history. *)
Fixpoint winner_loop (n : nat) (m : KWayMerge) (winner : run_item) : io (run_item * KWayMerge) :=
  match km_heap m with
  | [] => mret (winner, m)
  | top :: _ =>
      if same_identity_v2 winner.1 (hp_record top) then
        match n with
        | O => Panic
        | S n =>
            '(dup, m) ← next_record m;
            match dup with
            | None => Panic
            | Some dup => winner_loop n m (if rr_t winner.1 <? rr_t dup.1 then dup else winner)
            end
        end
      else mret (winner, m)
  end.

Definition next_deduped (m : KWayMerge) : io (option run_item * KWayMerge) :=
  '(first, m) ← next_record m;
  match first with
  | None => mret (None, m)
  | Some winner => '(winner, m) ← winner_loop (records_left m) m winner; mret (Some winner, m)
  end.

(** The records of a merge read to its end. *)
Fixpoint read_records (n : nat) (m : KWayMerge) : io (list run_item) :=
  match n with
  | O => mret []
  | S n =>
      '(r, m) ← next_record m;
      match r with
      | None => mret []
      | Some r => rest ← read_records n m; mret (r :: rest)
      end
  end.

(** The facts of a merge, each with its history, read to its end. *)
Fixpoint read_groups (n : nat) (m : KWayMerge) : io (list (run_item * list run_item)) :=
  match n with
  | O => mret []
  | S n =>
      '(g, m) ← next_deduped_with_history m;
      match g with
      | None => mret []
      | Some g => rest ← read_groups n m; mret (g :: rest)
      end
  end.
End merge.

(** ** What the k-way merge returns

    The array is a heap after every operation, so merging sorted streams returns
    all their records in order, and the deduplicating reads return, fact by fact
    in index order, the latest record and all the others. *)

Section heap.
Context (o : RunSortOrder).

(** ** The order of heap entries *)

Definition cmp_entry (a b : HeapEntry) : comparison :=
  then_with (cmp_v2_for_order o (hp_record a) (hp_record b)) (Z.of_nat (hp_stream a) ?= Z.of_nat (hp_stream b)).

#[local] Instance cmp_laws_entry : CmpLaws everything cmp_entry.
Proof.
  apply (cmp_laws_then everything (fun a b => cmp_v2_for_order o (hp_record a) (hp_record b))
           (fun a b => Z.of_nat (hp_stream a) ?= Z.of_nat (hp_stream b))).
  - apply (cmp_laws_key _ everything hp_record); [done|apply _].
  - apply (cmp_laws_key _ everything (fun e => Z.of_nat (hp_stream e)) Z.compare); [done|apply _].
Qed.

Definition ele (a b : HeapEntry) : Prop := cmp_entry a b <> Gt.

Lemma ele_refl a : ele a a.
Proof. unfold ele. by rewrite (cmp_refl (P := everything)). Qed.

Lemma ele_trans a b c : ele a b -> ele b c -> ele a c.
Proof. by apply (cmp_le_trans (P := everything)). Qed.

Lemma entry_less_true a b : entry_less o a b = true -> ele a b.
Proof.
  unfold entry_less, ele, cmp_entry. destruct (cmp_v2_for_order o _ _); [|done|done]. cbn. intros H%Nat.ltb_lt.
  destruct (Z.compare_spec (Z.of_nat (hp_stream a)) (Z.of_nat (hp_stream b))); [done|done|lia].
Qed.

Lemma entry_less_false a b : entry_less o a b = false -> ele b a.
Proof.
  unfold entry_less, ele. rewrite (cmp_sym (P := everything) a b) by done. unfold cmp_entry.
  destruct (cmp_v2_for_order o (hp_record a) (hp_record b)); [|done|done]. cbn. intros H%Nat.ltb_ge.
  destruct (Z.compare_spec (Z.of_nat (hp_stream a)) (Z.of_nat (hp_stream b))); [done|lia|done].
Qed.

Lemma ele_record a b : ele a b -> cmp_v2_for_order o (hp_record a) (hp_record b) <> Gt.
Proof. unfold ele, cmp_entry. by destruct (cmp_v2_for_order o _ _). Qed.

(** ** Heaps *)

Definition heap_child (p c : nat) : Prop := (c = 2 * p + 1 \/ c = 2 * p + 2)%nat.

Definition ok_at (h : list HeapEntry) (i : nat) : Prop :=
  forall c a b, heap_child i c -> h !! i = Some a -> h !! c = Some b -> ele a b.

(** A heap from node [k] on, except at [pos], whose parent is below its
    children. *)
Definition sifting (k pos : nat) (h : list HeapEntry) : Prop :=
  (forall i, (k <= i)%nat -> i <> pos -> ok_at h i) /\
  (forall p c a b, (k <= p)%nat -> heap_child p pos -> heap_child pos c -> h !! p = Some a -> h !! c = Some b -> ele a b).

(** The smaller heap_child of [pos]. *)
Definition least_child (h : list HeapEntry) (pos s : nat) : Prop :=
  heap_child pos s /\ (s < length h)%nat /\ forall c a b, heap_child pos c -> h !! s = Some a -> h !! c = Some b -> ele a b.

Lemma pick_child h pos :
  (2 * pos + 1 < length h)%nat ->
  exists r, (if (S (2 * pos + 1) <? length h)%nat then heap_less o h (S (2 * pos + 1)) (2 * pos + 1) else mret false) = Ok r /\
    least_child h pos (if r : bool then S (2 * pos + 1) else (2 * pos + 1))%nat.
Proof.
  intros Hl. destruct (lookup_lt_is_Some_2 h (2 * pos + 1) Hl) as [a Ha].
  destruct (Nat.ltb_spec (S (2 * pos + 1)) (length h)) as [Hr|Hr].
  - destruct (lookup_lt_is_Some_2 h _ Hr) as [b Hb]. unfold heap_less. rewrite Hb, Ha. exists (entry_less o b a). split; [done|].
    destruct (entry_less o b a) eqn:E; (split; [unfold heap_child; lia|split; [lia|]]).
    + apply entry_less_true in E. intros c x y [-> | ->] Hx Hy; replace (2 * pos + 2)%nat with (S (2 * pos + 1)) in * by lia;
        simplify_eq; [done|apply ele_refl].
    + apply entry_less_false in E. intros c x y [-> | ->] Hx Hy; replace (2 * pos + 2)%nat with (S (2 * pos + 1)) in * by lia;
        simplify_eq; [apply ele_refl|done].
  - exists false. split; [done|]. split; [unfold heap_child; lia|split; [lia|]]. intros c x y [-> | ->] Hx Hy; simplify_eq; [apply ele_refl|].
    apply lookup_lt_Some in Hy. lia.
Qed.

Lemma lookup_swapped (h : list HeapEntry) (i j : nat) a b (k : nat) :
  i <> j -> h !! i = Some a -> h !! j = Some b ->
  <[j:=a]> (<[i:=b]> h) !! k = (if decide (k = i) then Some b else if decide (k = j) then Some a else h !! k).
Proof.
  intros Hij Hi Hj. apply lookup_lt_Some in Hi as Hil, Hj as Hjl. destruct (decide (k = i)) as [->|Hki].
  - rewrite list_lookup_insert_ne by done. by apply list_lookup_insert_eq.
  - destruct (decide (k = j)) as [->|Hkj].
    + apply list_lookup_insert_eq. by rewrite length_insert.
    + by rewrite !list_lookup_insert_ne.
Qed.

Lemma sift_step k pos s h a b :
  sifting k pos h -> (k <= pos)%nat -> least_child h pos s -> h !! pos = Some a -> h !! s = Some b -> ele b a ->
  sifting k s (<[s:=a]> (<[pos:=b]> h)).
Proof.
  intros [H1 H2] Hk (Hc & Hlt & Hmin) Ha Hb Hle.
  assert (pos <> s) as Hne by (unfold heap_child in Hc; lia).
  pose proof (fun k => lookup_swapped h pos s a b k Hne Ha Hb) as Hlk.
  split.
  - intros i Hi Hns c x y Hic Hx Hy. rewrite Hlk in Hx, Hy.
    destruct (decide (i = pos)) as [->|Hnp].
    + injection Hx as <-. destruct (decide (c = pos)); [unfold heap_child in *; lia|]. destruct (decide (c = s)); [by injection Hy as <-|].
      by apply (Hmin c b y Hic).
    + rewrite (decide_False (P := i = s)) in Hx by done. destruct (decide (c = pos)) as [->|Hcp].
      * injection Hy as <-. by apply (H2 i s x b).
      * destruct (decide (c = s)) as [->|Hcs]; [unfold heap_child in *; lia|]. by apply (H1 i Hi Hnp c x y).
  - intros p c x y Hp Hps Hsc Hx Hy. rewrite Hlk in Hx, Hy. assert (p = pos) as -> by (unfold heap_child in *; lia).
    rewrite decide_True in Hx by done. injection Hx as <-. unfold heap_child in *.
    rewrite (decide_False (P := c = pos)), (decide_False (P := c = s)) in Hy by lia.
    apply (H1 s ltac:(lia) ltac:(lia) c b y); [unfold heap_child; lia|done|done].
Qed.

Lemma sift_down_spec fuel : forall h pos k,
  (length h <= fuel + pos)%nat -> (k <= pos)%nat -> sifting k pos h ->
  exists h', sift_down o fuel h pos = Ok h' /\ h' ≡ₚ h /\ forall i, (k <= i)%nat -> ok_at h' i.
Proof.
  assert (forall h pos k, sifting k pos h -> (length h <= 2 * pos + 1)%nat -> forall i, (k <= i)%nat -> ok_at h i) as Hend.
  { intros h pos k [H1 _] Hl i Hi. destruct (decide (i = pos)) as [->|Hn]; [|by apply H1].
    intros c a b Hc _ Hb. apply lookup_lt_Some in Hb. unfold heap_child in Hc. lia. }
  induction fuel as [|fuel IH]; intros h pos k Hf Hk Hs; cbn [sift_down].
  - exists h. split_and!; [done|done|]. apply (Hend h pos); [done|lia].
  - destruct (Nat.leb_spec (length h) (2 * pos + 1)) as [Hl|Hl].
    { exists h. split_and!; [done|done|]. by apply (Hend h pos). }
    destruct (pick_child h pos Hl) as (r & -> & Hleast). cbn [mbind outcome_bind].
    set (s := (if r then S (2 * pos + 1) else 2 * pos + 1)%nat) in *. pose proof Hleast as (Hc & Hsl & Hmin).
    destruct (lookup_lt_is_Some_2 h s Hsl) as [b Hb]. destruct (lookup_lt_is_Some_2 h pos ltac:(unfold heap_child in Hc; lia)) as [a Ha].
    unfold heap_less, heap_swap. rewrite Ha, Hb. cbn [mbind outcome_bind mret outcome_ret].
    destruct (entry_less o a b) eqn:E.
    + exists h. split_and!; [done|done|]. apply entry_less_true in E. intros i Hi. destruct (decide (i = pos)) as [->|Hn]; [|by apply Hs].
      intros c x y Hcc Hx Hy. rewrite Ha in Hx. injection Hx as <-. apply (ele_trans a b y); [done|]. by apply (Hmin c).
    + apply entry_less_false in E. pose proof (Permutation_insert_swap h pos s a b Ha Hb) as Hp.
      destruct (IH (<[s:=a]> (<[pos:=b]> h)) s k) as (h' & -> & Hp' & Hok).
      * rewrite !length_insert. unfold heap_child in Hc. lia.
      * unfold heap_child in Hc. lia.
      * by apply sift_step.
      * exists h'. split_and!; [done|by rewrite Hp'|done].
Qed.

Definition is_heap (h : list HeapEntry) : Prop := forall i, ok_at h i.

(** Only the root is out of place. *)
Lemma sift_root h : (forall i, i <> 0%nat -> ok_at h i) ->
  exists h', sift_down o (length h) h 0 = Ok h' /\ h' ≡ₚ h /\ is_heap h'.
Proof.
  intros H. destruct (sift_down_spec (length h) h 0 0) as (h' & E & Hp & Hok); [lia|lia| |].
  - split; [by intros i _ Hi; apply H|]. intros p c a b _ Hp. unfold heap_child in Hp. lia.
  - exists h'. split_and!; [done|done|]. intros i. apply Hok. lia.
Qed.

Lemma build_heap_spec i : forall h, (forall j, (i <= j)%nat -> ok_at h j) ->
  exists h', build_heap o h i = Ok h' /\ h' ≡ₚ h /\ is_heap h'.
Proof.
  induction i as [|i IH]; intros h Hh; cbn [build_heap].
  - exists h. split_and!; [done|done|]. intros j. apply Hh. lia.
  - destruct (sift_down_spec (length h) h i i) as (h1 & -> & Hp1 & Hok1); [lia|lia| |].
    + split; [intros j Hj Hn; apply Hh; lia|]. intros p c a b Hp Hc. unfold heap_child in Hc. lia.
    + cbn [mbind outcome_bind]. destruct (IH h1 Hok1) as (h' & -> & Hp & Hok). exists h'. split_and!; [done|by rewrite Hp|done].
Qed.

Lemma heap_min h top : is_heap h -> h !! 0%nat = Some top -> Forall (ele top) h.
Proof.
  intros Hh H0. apply Forall_lookup. intros i. induction i as [i IH] using lt_wf_ind. intros a Ha.
  destruct (decide (i = 0%nat)) as [->|Hn]; [simplify_eq; apply ele_refl|].
  assert (exists p, heap_child p i /\ (p < i)%nat) as (p & Hc & Hp).
  { exists ((i - 1) / 2)%nat. unfold heap_child. pose proof (Nat.div_mod_eq (i - 1) 2). pose proof (Nat.mod_upper_bound (i - 1) 2). lia. }
  apply lookup_lt_Some in Ha as Hlt. destruct (lookup_lt_is_Some_2 h p ltac:(lia)) as [b Hb].
  apply (ele_trans top b a); [by apply (IH p)|by apply (Hh p i)].
Qed.

(** ** Streams and their heap *)

Lemma stream_entries_split s1 s s2 :
  stream_entries (s1 ++ s :: s2) =
  stream_entries s1 ++ option_list (stream_entry (length s1) s) ++ omap id (imap (fun i => stream_entry (length s1 + S i)) s2).
Proof.
  unfold stream_entries. rewrite imap_app, omap_app. cbn [imap]. f_equal. rewrite Nat.add_0_r. cbn [omap list_omap].
  by destruct (stream_entry (length s1) s).
Qed.

Lemma stream_entries_at streams idx s s' :
  streams !! idx = Some s ->
  exists rest, stream_entries streams ≡ₚ option_list (stream_entry idx s) ++ rest /\
    stream_entries (<[idx:=s']> streams) ≡ₚ option_list (stream_entry idx s') ++ rest.
Proof.
  intros H. apply list_elem_of_split_length in H as (s1 & s2 & -> & ->).
  rewrite insert_app_r_alt by done. rewrite Nat.sub_diag. cbn [insert list_insert]. rewrite !stream_entries_split.
  exists (stream_entries s1 ++ omap id (imap (fun i => stream_entry (length s1 + S i)) s2)).
  split; rewrite Permutation_app_swap_app; done.
Qed.

Lemma elem_stream_entries streams e :
  e ∈ stream_entries streams -> exists s : list run_item, streams !! hp_stream e = Some (((hp_record e, hp_op e) : run_item) :: s).
Proof.
  unfold stream_entries. rewrite list_elem_of_omap. intros (x & Hx & E). cbn in E. subst x.
  apply elem_of_lookup_imap_1 in Hx as (i & s & E & Hi). destruct s as [|[r op] s]; [done|]. injection E as ->. by exists s.
Qed.

Lemma stream_entries_none streams : stream_entries streams = [] -> concat streams = [].
Proof.
  induction streams as [|s streams IH] using rev_ind; [done|]. unfold stream_entries. rewrite imap_app, omap_app.
  intros [E1 E2]%app_nil. rewrite concat_app, (IH E1). cbn in E2 |- *. rewrite Nat.add_0_r in E2. by destruct s as [|[? ?] ?].
Qed.

(** Every record of a stream is at or after its first. *)
Definition op_le (a b : run_item) : Prop := cmp_v2_for_order o a.1 b.1 <> Gt.
Definition streams_sorted : list (list run_item) -> Prop := Forall (StronglySorted op_le).

Record kmerge_ok (m : KWayMerge) : Prop := {
  mo_heap : is_heap (km_heap m);
  mo_entries : km_heap m ≡ₚ stream_entries (km_streams m);
  mo_sorted : streams_sorted (km_streams m);
}.

Lemma merge_new_ok streams : streams_sorted streams -> exists m, merge_new o streams = Ok m /\ kmerge_ok m /\ km_streams m = streams.
Proof.
  intros Hs. unfold merge_new. destruct (Nat.ltb_spec 1 (length (stream_entries streams))) as [Hl|Hl].
  - set (h := stream_entries streams) in *. destruct (build_heap_spec (length h / 2) h) as (h' & -> & Hp & Hok).
    + intros j Hj c a b Hc _ Hb. apply lookup_lt_Some in Hb. pose proof (Nat.div_mod_eq (length h) 2).
      pose proof (Nat.mod_upper_bound (length h) 2). unfold heap_child in Hc. lia.
    + cbn. eexists. split; [done|]. split; [|done]. by split.
  - cbn. eexists. split; [done|]. split; [|done]. split; [|done|done]. intros i c a b Hc Ha Hb.
    apply lookup_lt_Some in Hb. cbn in Hb. unfold heap_child in Hc. lia.
Qed.

Lemma heap_drop_root h w t : is_heap h -> h = w :: t ->
  exists h', replace_root o h None = Ok h' /\ h' ≡ₚ t /\ is_heap h'.
Proof.
  intros Hh E. assert (h !! 0%nat = Some w) as H0 by by rewrite E.
  destruct (lookup_lt_is_Some_2 h (length h - 1)) as [l Hl]; [rewrite E; cbn; lia|].
  unfold replace_root, heap_swap. rewrite H0, Hl. cbn [mbind outcome_bind mret outcome_ret].
  pose proof (Permutation_insert_swap h 0 (length h - 1) w l H0 Hl) as Hp.
  set (h1 := <[(length h - 1)%nat:=w]> (<[0%nat:=l]> h)) in *.
  assert (length h1 = length h) as Hlen by (unfold h1; by rewrite !length_insert).
  assert (h1 !! (length h - 1)%nat = Some w) as Hlast.
  { unfold h1. apply list_lookup_insert_eq. rewrite length_insert. rewrite E. cbn. lia. }
  cbn zeta. rewrite Hlen. set (h2 := take (length h - 1) h1) in *.
  assert (h2 ≡ₚ t) as Hp2.
  { apply (Permutation_cons_inv (a := w)). rewrite <- E, <- Hp.
    rewrite <- (take_drop (length h - 1) h1). rewrite (drop_S _ _ _ Hlast), drop_ge by (rewrite Hlen, E; cbn; lia).
    fold h2. by rewrite Permutation_cons_append. }
  destruct (sift_root h2) as (h' & Eh & Hp' & Hok).
  - intros i Hi c a b Hc Ha Hb. unfold h2, h1 in Ha, Hb. apply lookup_take_Some in Ha as [Ha Hai], Hb as [Hb Hbi].
    rewrite !list_lookup_insert_ne in Ha, Hb by (unfold heap_child in Hc; lia). by apply (Hh i c).
  - destruct h2 as [|x h3] eqn:E2; [exists []; split_and!; [done|done|by intros ????]|].
    exists h'. split_and!; [done|by rewrite Hp'|done].
Qed.

Lemma sorted_tail s : StronglySorted op_le s -> StronglySorted op_le (tail s).
Proof. destruct 1; [constructor|done]. Qed.

(** The least record of all is taken. *)
Lemma next_record_spec m :
  kmerge_ok m ->
  (next_record o m = Ok (None, m) /\ km_heap m = [] /\ concat (km_streams m) = []) \/
  exists r m', next_record o m = Ok (Some r, m') /\ kmerge_ok m' /\ concat (km_streams m) ≡ₚ r :: concat (km_streams m') /\
    Forall (op_le r) (concat (km_streams m')) /\ exists top t, km_heap m = top :: t /\ r = (hp_record top, hp_op top).
Proof.
  intros [Hh He Hs]. unfold next_record. destruct (km_heap m) as [|w t] eqn:Eh.
  { left. split_and!; [done|done|]. apply stream_entries_none, Permutation_nil. by symmetry. }
  right. destruct (elem_stream_entries (km_streams m) w) as [s Hw]; [rewrite <- He; left|]. cbn zeta. rewrite Hw. cbn [tail].
  destruct (stream_entries_at _ _ _ s Hw) as (rest & Hp1 & Hp2). cbn [stream_entry option_list app] in Hp1.
  assert (t ≡ₚ rest) as Htr by (apply (Permutation_cons_inv (a := w)); rewrite He, Hp1; by destruct w).
  assert (exists h', replace_root o (w :: t) (stream_entry (hp_stream w) s) = Ok h' /\
            h' ≡ₚ option_list (stream_entry (hp_stream w) s) ++ rest /\ is_heap h') as (h' & -> & Hp' & Hok').
  { destruct (stream_entry (hp_stream w) s) as [e|].
    - unfold replace_root. cbn [insert list_insert]. destruct (sift_root (e :: t)) as (h' & -> & Hp & Hok).
      + intros i Hi c a b Hc Ha Hb. apply (Hh i c); [done| |]; [destruct i|destruct c]; try done; unfold heap_child in Hc; lia.
      + exists h'. split_and!; [done|by rewrite Hp, Htr|done].
    - destruct (heap_drop_root (w :: t) w t Hh eq_refl) as (h' & -> & Hp & Hok). exists h'. split_and!; [done|by rewrite Hp, Htr|done]. }
  cbn [mbind outcome_bind mret outcome_ret]. eexists _, _. split; [done|]. cbn [km_streams km_heap].
  assert (StronglySorted op_le ((hp_record w, hp_op w) :: s)) as Hws by by eapply Forall_lookup_1.
  pose proof (heap_min (w :: t) w Hh eq_refl) as Hmin. rewrite He in Hmin.
  split_and!.
  - split; cbn; [done|by rewrite Hp', Hp2|]. apply Forall_insert; [done|]. by inversion Hws.
  - apply list_elem_of_split_length in Hw as (s1 & s2 & -> & Ei). rewrite Ei, insert_app_r_alt, Nat.sub_diag by done.
    cbn [insert list_insert]. rewrite !concat_app. cbn. symmetry. apply Permutation_middle.
  - apply Forall_forall. intros x Hx. apply list_elem_of_In, in_concat in Hx as (si & Hsi & Hx).
    apply list_elem_of_In, list_elem_of_lookup in Hsi as [i Hsi]. apply list_elem_of_In in Hx.
    apply list_lookup_insert_Some in Hsi as [(<- & -> & _)|[Hne Hsi]].
    + apply StronglySorted_inv in Hws as [_ Hall]. rewrite Forall_forall in Hall. by apply Hall.
    + destruct si as [|y si]; [by apply not_elem_of_nil in Hx|].
      assert (op_le (hp_record w, hp_op w) y) as Hy.
      { apply (ele_record w (mkHeapEntry y.1 y.2 i)). rewrite Forall_forall in Hmin. apply Hmin.
        destruct (stream_entries_at _ _ _ [] Hsi) as (rest' & Hp3 & _). rewrite Hp3. destruct y. left. }
      apply elem_of_cons in Hx as [->|Hx]; [done|]. assert (StronglySorted op_le (y :: si)) as Hys by by eapply Forall_lookup_1.
      apply StronglySorted_inv in Hys as [_ Hall]. rewrite Forall_forall in Hall. specialize (Hall x Hx). unfold op_le in *.
      by apply (cmp_le_trans (P := everything) _ y.1).
  - by exists w, t.
Qed.

(** ** Facts *)

(** What is left after the records of one fact: the winner is the latest of
    them, and all later records are of later facts. *)
Record takes (m : KWayMerge) (before : list run_item) (w : run_item) (h : list run_item) (m' : KWayMerge) : Prop := {
  tk_ok : kmerge_ok m';
  tk_all : w :: h ++ concat (km_streams m') ≡ₚ before ++ concat (km_streams m);
  tk_fact : Forall (fun x : run_item => rr_key x.1 = rr_key w.1 /\ rr_t x.1 <= rr_t w.1) h;
  tk_later : Forall (fun x : run_item => run_lt o w.1 x.1) (concat (km_streams m'));
}.

Lemma op_le_key (a b x : run_item) : rr_key a.1 = rr_key b.1 -> op_le a x -> op_le b x.
Proof. intros E. unfold op_le. by rewrite (cmp_run_key o a.1 b.1 x.1 x.1). Qed.

Lemma top_least m top t :
  kmerge_ok m -> km_heap m = top :: t ->
  (hp_record top, hp_op top) ∈ concat (km_streams m) /\ Forall (op_le (hp_record top, hp_op top)) (concat (km_streams m)).
Proof.
  intros Hok Et. destruct (next_record_spec m Hok) as [(_ & E & _)|(r & m' & _ & _ & Hp & Hr & top' & t' & E & ->)]; [congruence|].
  rewrite E in Et. injection Et as -> ->. rewrite Hp. split; [left|]. constructor; [|done].
  unfold op_le. by rewrite (cmp_refl (P := everything)).
Qed.

Lemma next_fact m w top t :
  kmerge_ok m -> Forall (op_le w) (concat (km_streams m)) -> km_heap m = top :: t ->
  same_identity_v2 w.1 (hp_record top) = false -> Forall (fun x : run_item => run_lt o w.1 x.1) (concat (km_streams m)).
Proof.
  intros Hok Hw Et Hid. destruct (top_least m top t Hok Et) as [Hin Hle]. rewrite Forall_forall in Hw.
  specialize (Hw _ Hin). assert (run_lt o w.1 (hp_record top)) as Hlt.
  { unfold op_le in Hw. unfold run_lt. cbn in Hw. destruct (cmp_v2_for_order o w.1 (hp_record top)) eqn:E; [|done|done].
    apply cmp_run_Eq, same_identity_spec in E. congruence. }
  eapply Forall_impl; [exact Hle|]. cbn. intros x Hx. unfold run_lt. by apply (cmp_lt_le (P := everything) _ (hp_record top)).
Qed.

Lemma dedup_loop_spec n : forall m w h,
  kmerge_ok m -> (records_left m <= n)%nat -> Forall (op_le w) (concat (km_streams m)) ->
  Forall (fun x : run_item => rr_key x.1 = rr_key w.1 /\ rr_t x.1 <= rr_t w.1) h ->
  exists w' h' m', dedup_loop o n m w h = Ok (w', h', m') /\ takes m (w :: h) w' h' m' /\ rr_key w'.1 = rr_key w.1.
Proof.
  induction n as [|n IH]; intros m w h Hok Hn Hw Hh; cbn [dedup_loop].
  all: destruct (km_heap m) as [|top t] eqn:Et.
  1, 3: exists w, h, m; split_and!; try done; split; try done;
    (destruct (next_record_spec m Hok) as [(_ & _ & ->)|(r & m' & _ & _ & _ & _ & top & t & E & _)]; [constructor|congruence]).
  all: destruct (same_identity_v2 w.1 (hp_record top)) eqn:Hid.
  2, 4: exists w, h, m; split_and!; try done; split; try done; by eapply next_fact.
  - destruct (top_least m top t Hok Et) as [Hin _]. unfold records_left in Hn. destruct (concat (km_streams m)); [|cbn in Hn; lia].
    by apply not_elem_of_nil in Hin.
  - destruct (next_record_spec m Hok) as [(_ & E & _)|(r & m1 & -> & Hok1 & Hp & Hr & top' & t' & E & Er)]; [congruence|].
    rewrite Et in E. injection E as <- <-. cbn [mbind outcome_bind].
    assert (rr_key r.1 = rr_key w.1) as Hkey by (rewrite Er; symmetry; by apply same_identity_spec).
    assert (records_left m1 <= n)%nat as Hn1.
    { unfold records_left in *. rewrite (Permutation_length Hp) in Hn. cbn in Hn. lia. }
    assert (forall w1 h1, rr_key w1.1 = rr_key w.1 -> w1 :: h1 ≡ₚ r :: w :: h ->
      Forall (fun x : run_item => rr_key x.1 = rr_key w1.1 /\ rr_t x.1 <= rr_t w1.1) h1 ->
      exists w' h' m', dedup_loop o n m1 w1 h1 = Ok (w', h', m') /\ takes m (w :: h) w' h' m' /\ rr_key w'.1 = rr_key w.1) as Hgo.
    { intros w1 h1 Ek Hwh Hh1. destruct (IH m1 w1 h1 Hok1 Hn1) as (w' & h' & m' & -> & [T1 T2 T3 T4] & Ek').
      - eapply Forall_impl; [exact Hr|]. intros x. apply op_le_key. congruence.
      - done.
      - exists w', h', m'. split_and!; [done| |congruence]. split; try done. rewrite T2, Hp, Hwh. apply (Permutation_middle (w :: h)). }
    destruct (Z.ltb_spec (rr_t w.1) (rr_t r.1)); apply Hgo; try done.
    + by rewrite <- Permutation_cons_append.
    + apply Forall_app. split; [|by repeat constructor; [symmetry|lia]]. eapply Forall_impl; [exact Hh|]. cbn. intros x [? ?]. split; [congruence|lia].
    + rewrite <- Permutation_cons_append. apply Permutation_swap.
    + apply Forall_app. split; [done|]. by repeat constructor.
Qed.

(** One fact. *)
Lemma next_group_spec m :
  kmerge_ok m ->
  (next_deduped_with_history o m = Ok (None, m) /\ concat (km_streams m) = []) \/
  exists w h m', next_deduped_with_history o m = Ok (Some (w, h), m') /\ takes m [] w h m' /\ (records_left m' < records_left m)%nat.
Proof.
  intros Hok. unfold next_deduped_with_history.
  destruct (next_record_spec m Hok) as [(-> & _ & E)|(r & m1 & -> & Hok1 & Hp & Hr & _)]; [by left|right].
  cbn [mbind outcome_bind]. destruct (dedup_loop_spec (records_left m1) m1 r [] Hok1 (le_n _) Hr ltac:(constructor)) as (w & h & m' & -> & [T1 T2 T3 T4] & Hk).
  exists w, h, m'. split; [done|]. split.
  - split; try done. by rewrite T2, Hp.
  - apply Permutation_length in T2. unfold records_left. rewrite (Permutation_length Hp). cbn in T2 |- *. rewrite length_app in T2. lia.
Qed.

(** The deduplicating read without history gives the same winners. *)
Lemma winner_loop_dedup n : forall m w h,
  winner_loop o n m w = ('(w, _, m) ← dedup_loop o n m w h; mret (w, m)).
Proof.
  induction n as [|n IH]; intros m w h; cbn [winner_loop dedup_loop]; destruct (km_heap m) as [|top t]; try done;
    destruct (same_identity_v2 w.1 (hp_record top)); try done.
  destruct (next_record o m) as [[[dup|] m1]| |]; cbn [mbind outcome_bind]; try done. destruct (_ <? _); apply IH.
Qed.

Lemma next_deduped_winner m : next_deduped o m = ('(g, m) ← next_deduped_with_history o m; mret (option_map fst g, m)).
Proof.
  unfold next_deduped, next_deduped_with_history. destruct (next_record o m) as [[[w|] m1]| |]; cbn [mbind outcome_bind]; try done.
  rewrite (winner_loop_dedup _ _ _ []). by destruct (dedup_loop o _ m1 w []) as [[[w' h'] m']| |].
Qed.

(** The groups that a merge reads: every record once, facts in order, the
    latest record of each first. *)
Record groups_of (records : list run_item) (gs : list (run_item * list run_item)) : Prop := {
  go_all : concat ((fun g => g.1 :: g.2) <$> gs) ≡ₚ records;
  go_sorted : StronglySorted (run_lt o) ((fun g => g.1.1) <$> gs);
  go_fact : Forall (fun g : run_item * list run_item => Forall (fun x : run_item => rr_key x.1 = rr_key g.1.1 /\ rr_t x.1 <= rr_t g.1.1) g.2) gs;
}.

Lemma groups_cons m w h m' gs :
  takes m [] w h m' -> groups_of (concat (km_streams m')) gs -> groups_of (concat (km_streams m)) ((w, h) :: gs).
Proof.
  intros [T1 T2 T3 T4] [G1 G2 G3]. split.
  - cbn. rewrite G1. exact T2.
  - cbn. constructor; [done|]. rewrite Forall_fmap. apply Forall_forall. intros g Hg. rewrite Forall_forall in T4. apply T4.
    rewrite <- G1. apply list_elem_of_In, in_concat. exists (g.1 :: g.2). split; [|by left].
    apply list_elem_of_In. apply list_elem_of_fmap. by exists g.
  - by constructor.
Qed.

Lemma read_groups_spec n : forall m, kmerge_ok m -> (records_left m < n)%nat ->
  exists gs, read_groups o n m = Ok gs /\ groups_of (concat (km_streams m)) gs.
Proof.
  induction n as [|n IH]; intros m Hok Hn; [lia|]. cbn [read_groups].
  destruct (next_group_spec m Hok) as [[-> E]|(w & h & m' & -> & T & Hlt)]; cbn [mbind outcome_bind].
  - exists []. split; [done|]. rewrite E. split; constructor.
  - destruct (IH m' (tk_ok _ _ _ _ _ T) ltac:(lia)) as (gs & -> & Hgs). exists ((w, h) :: gs). split; [done|]. by eapply groups_cons.
Qed.

(** C15: merging sorted run streams never panics; read to its end, the merge
    returns every fact of the streams once, in index order, with its latest
    record as the winner and all its other records as history. *)
Theorem kway_merge_exact streams :
  streams_sorted streams ->
  exists m gs, merge_new o streams = Ok m /\ read_groups o (S (records_left m)) m = Ok gs /\ groups_of (concat streams) gs.
Proof.
  intros Hs. destruct (merge_new_ok streams Hs) as (m & Hm & Hok & Es).
  destruct (read_groups_spec (S (records_left m)) m Hok (le_n _)) as (gs & Hg & Hgs). exists m, gs. split_and!; [done|done|]. by rewrite <- Es.
Qed.
End heap.
