(* ===== verification/LeafWriter.v ===== *)
(** * The leaf writer (format/leaf.rs, [LeafWriter])

    Records arrive in index order and leave as leaves: a buffer becomes a
    leaflet when it is full or when the leading key changes, the leaflets become
    a leaf when they hold enough rows, and the history entries that arrive in
    between become the leaf's sidecar.  Content ids are left out. *)
From S2P Require Import Prelude Bytes Cmp Segment RunRecord Columns HistorySidecar Leaflet LeafBlob LeafUpdate.
From S2P Require Import LeafUpdateLaws.
From stdpp Require Import base list numbers sorting gmap.
From Stdlib Require Import ZArith Lia.

Local Open Scope Z_scope.

Record LeafInfo := mkLeafInfo {
  li_leaf_bytes : bytes; li_sidecar_bytes : option bytes; li_total_rows : Z;
  li_first_key : RunRecordV2; li_last_key : RunRecordV2; li_re_encoded : Z;
}.

(** What a writer is created with. *)
Record WriterConfig := mkWriterConfig {
  wc_order : RunSortOrder; wc_leaflet_target : nat; wc_leaf_target : Z; wc_zstd_level : Z; wc_skip_history : bool;
}.

Record LeafWriter := mkLeafWriter {
  lw_record_buf : list RunRecordV2;
  lw_sidecar : HistSidecarBuilder; lw_segment_started : bool;
  lw_seg_p_id : option Z; lw_seg_o_type : option Z;
  lw_encoded : list EncodedLeaflet; lw_accumulated : Z;
  lw_leaf_first : option RunRecordV2; lw_last : option RunRecordV2;
  lw_completed : list LeafInfo;
}.

Definition writer_new : LeafWriter := mkLeafWriter [] sidecar_new false None None [] 0 None None [].

(** Field updates. *)
Definition with_history (w : LeafWriter) (b : HistSidecarBuilder) (started : bool) : LeafWriter :=
  mkLeafWriter (lw_record_buf w) b started (lw_seg_p_id w) (lw_seg_o_type w) (lw_encoded w) (lw_accumulated w)
    (lw_leaf_first w) (lw_last w) (lw_completed w).

Definition with_completed (w : LeafWriter) (leaves : list LeafInfo) : LeafWriter :=
  mkLeafWriter (lw_record_buf w) (lw_sidecar w) (lw_segment_started w) (lw_seg_p_id w) (lw_seg_o_type w) (lw_encoded w)
    (lw_accumulated w) (lw_leaf_first w) (lw_last w) leaves.

Section writer.
Context `{SL : SortLib, CZ : ColumnZstd}.
Context (wc : WriterConfig).
Notation o := (wc_order wc).

Definition should_flush_for_segmentation (w : LeafWriter) (next : RunRecordV2) : bool :=
  match o with
  | RPost | RPsot => match lw_seg_p_id w with Some p => negb (p =? rr_p_id next) | None => false end
  | ROpst => match lw_seg_o_type w with Some ot => negb (ot =? rr_o_type next) | None => false end
  | RSpot => false
  end.

Definition flush_leaflet (w : LeafWriter) : io LeafWriter :=
  match lw_record_buf w with
  | [] => mret w
  | records =>
      encoded ← encode_leaflet records o (wc_zstd_level wc);
      mret (mkLeafWriter []
              (if negb (wc_skip_history wc) && negb (lw_segment_started w) then start_leaflet (lw_sidecar w) else lw_sidecar w)
              false None None (lw_encoded w ++ [encoded]) (lw_accumulated w + el_row_count encoded)
              (lw_leaf_first w) (lw_last w) (lw_completed w))
  end.

(** The sidecar of the leaf, with the segments of its leaflets. *)
Definition leaf_sidecar (w : LeafWriter) : option bytes * list HistorySegmentRef :=
  if negb (wc_skip_history wc) && has_history (lw_sidecar w)
  then let '(bytes, refs) := sidecar_build (lw_sidecar w) in (Some bytes, refs)
  else (None, []).

Definition flush_leaf (w : LeafWriter) : io LeafWriter :=
  match lw_encoded w with
  | [] => mret w
  | leaflets =>
      match lw_leaf_first w, lw_last w with
      | Some first_record, Some last_record =>
          let '(sidecar_bytes, seg_refs) := leaf_sidecar w in
          let info := mkLeafInfo (build_leaf_blob o leaflets seg_refs first_record last_record) sidecar_bytes
                        (lw_accumulated w) first_record last_record (as_u 32 (zlen leaflets)) in
          mret (mkLeafWriter (lw_record_buf w) sidecar_new (lw_segment_started w) (lw_seg_p_id w) (lw_seg_o_type w)
                  [] 0 None (lw_last w) (lw_completed w ++ [info]))
      | _, _ => Panic
      end
  end.

(** The record in the buffer, with the keys of the leaf and of the segment. *)
Definition buffer_record (w : LeafWriter) (record : RunRecordV2) : LeafWriter :=
  mkLeafWriter (lw_record_buf w ++ [record]) (lw_sidecar w) (lw_segment_started w)
    (match o with RPost | RPsot => Some (rr_p_id record) | _ => lw_seg_p_id w end)
    (match o with ROpst => Some (rr_o_type record) | _ => lw_seg_o_type w end)
    (lw_encoded w) (lw_accumulated w)
    (match lw_leaf_first w with None => Some record | first => first end) (Some record) (lw_completed w).

Definition push_record (w : LeafWriter) (record : RunRecordV2) : io LeafWriter :=
  w ← (if negb (bool_decide (lw_record_buf w = [])) && should_flush_for_segmentation w record then flush_leaflet w else mret w);
  let w := buffer_record w record in
  w ← (if (wc_leaflet_target wc <=? length (lw_record_buf w))%nat then flush_leaflet w else mret w);
  if wc_leaf_target wc <=? lw_accumulated w then flush_leaf w else mret w.

Definition push_history_entry (w : LeafWriter) (entry : HistEntryV2) : LeafWriter :=
  if wc_skip_history wc then w
  else
    let b := if lw_segment_started w then lw_sidecar w else start_leaflet (lw_sidecar w) in
    with_history w (push_entry b entry) true.

Definition drain_completed_leaves (w : LeafWriter) : list LeafInfo * LeafWriter := (lw_completed w, with_completed w []).

Definition writer_finish (w : LeafWriter) : io (list LeafInfo) :=
  w ← (if bool_decide (lw_record_buf w = []) then mret w else flush_leaflet w);
  w ← (if bool_decide (lw_encoded w = []) then mret w else flush_leaf w);
  mret (lw_completed w).

(** ** Feeding a writer *)

Inductive WriterItem := ItemRecord (r : RunRecordV2) | ItemHistory (e : HistEntryV2).

Definition feed_item (w : LeafWriter) (i : WriterItem) : io LeafWriter :=
  match i with ItemRecord r => push_record w r | ItemHistory e => mret (push_history_entry w e) end.

Fixpoint feed (w : LeafWriter) (items : list WriterItem) : io LeafWriter :=
  match items with
  | [] => mret w
  | i :: items => w ← feed_item w i; feed w items
  end.

Definition item_records (items : list WriterItem) : list RunRecordV2 :=
  omap (fun i => match i with ItemRecord r => Some r | ItemHistory _ => None end) items.
End writer.

(** ** What the leaf writer writes

    With a compressor that never fails no push fails or panics.  The leaves the
    writer gives hold the records pushed, in order, cut into leaflets of one
    segment each; in subject order their keys are those of their rows.  In the
    other orders a leaf may be closed while the first record of the next one is
    in the buffer: its last key is then that record's, the next leaf's first key
    is not, and the writer panics when no other record follows. *)

Definition one_segment (o : RunSortOrder) (rs : list RunRecordV2) : Prop :=
  forall a b, a ∈ rs -> b ∈ rs -> same_segment o a b = true.

Definition rows_total (leaflets : list EncodedLeaflet) : Z := foldr (fun l n => el_row_count l + n) 0 leaflets.

Lemma rows_total_app a b : rows_total (a ++ b) = rows_total a + rows_total b.
Proof. unfold rows_total. induction a as [|x a IH]; cbn; [done|]. rewrite IH. lia. Qed.

Section laws.
Context `{SL : SortLib, CZ : ColumnZstd}.
Context (wc : WriterConfig) (Hcomp : forall bs, is_Some (zstd_bulk_compress bs (wc_zstd_level wc))).
(** What holds of the history entries. *)
Context (P : HistEntryV2 -> Prop).
Notation o := (wc_order wc).
Notation encodes := (fun rs l => encode_leaflet rs o (wc_zstd_level wc) = Ok l).

(** A leaflet of a leaf. *)
Definition leaflet_cut (rs : list RunRecordV2) : Prop :=
  rs <> [] /\ (length rs <= Nat.max 1 (wc_leaflet_target wc))%nat /\ one_segment o rs.

Record leaf_written (li : LeafInfo) (rss : list (list RunRecordV2)) : Prop := {
  lwr_blob : exists leaflets segs, Forall2 encodes rss leaflets /\
    li_leaf_bytes li = build_leaf_blob o leaflets segs (li_first_key li) (li_last_key li) /\
    li_total_rows li = rows_total leaflets /\
    (li_sidecar_bytes li = None /\ segs = [] \/
     exists b data, li_sidecar_bytes li = Some data /\ sidecar_build b = (data, segs) /\ Forall (Forall P) b);
  lwr_cut : rss <> [] /\ Forall leaflet_cut rss;
  lwr_skip : wc_skip_history wc = true -> li_sidecar_bytes li = None;
  lwr_keys : o = RSpot -> head (concat rss) = Some (li_first_key li) /\ last (concat rss) = Some (li_last_key li);
}.

(** The segment key the writer tracks is that of the buffer. *)
Definition tracks (w : LeafWriter) : Prop := forall r, r ∈ lw_record_buf w ->
  match o with
  | RPost | RPsot => lw_seg_p_id w = Some (rr_p_id r)
  | ROpst => lw_seg_o_type w = Some (rr_o_type r)
  | RSpot => True
  end.

(** The contents of a writer: leaves of [rsss], leaflets of [rss]. *)
Record holds (w : LeafWriter) (rsss : list (list (list RunRecordV2))) (rss : list (list RunRecordV2)) : Prop := {
  wh_leaves : Forall2 leaf_written (lw_completed w) rsss;
  wh_leaflets : Forall2 encodes rss (lw_encoded w);
  wh_cut : Forall leaflet_cut rss;
  wh_rows : lw_accumulated w = rows_total (lw_encoded w);
  wh_tracks : tracks w;
  wh_history : Forall (Forall P) (lw_sidecar w);
  wh_keys : o = RSpot -> lw_leaf_first w = head (concat rss ++ lw_record_buf w) /\
    (concat rss ++ lw_record_buf w <> [] -> lw_last w = last (concat rss ++ lw_record_buf w));
}.

Lemma tracks_segment w : tracks w -> one_segment o (lw_record_buf w).
Proof.
  intros H a b Ha Hb. pose proof (H a Ha) as H1. pose proof (H b Hb) as H2. unfold same_segment.
  destruct o; [done| | |]; rewrite H1 in H2; injection H2 as ->; apply Z.eqb_refl.
Qed.

Lemma flush_leaflet_holds w rsss rss :
  holds w rsss rss -> lw_record_buf w <> [] -> (length (lw_record_buf w) <= Nat.max 1 (wc_leaflet_target wc))%nat ->
  exists w', flush_leaflet wc w = Ok w' /\ holds w' rsss (rss ++ [lw_record_buf w]) /\ lw_record_buf w' = [] /\
    lw_leaf_first w' = lw_leaf_first w /\ lw_last w' = lw_last w /\ lw_encoded w' <> [].
Proof.
  intros [H1 H2 H3 H4 H5 H7 H6] Hne Hlen. unfold flush_leaflet.
  destruct (encode_leaflet_total _ Hcomp (lw_record_buf w) o Hne) as [e He].
  destruct (lw_record_buf w) as [|r buf] eqn:Eb; [done|]. rewrite He. cbn [mbind outcome_bind mret outcome_ret].
  eexists. split; [done|]. split_and!; try done; [|by destruct (lw_encoded w)]. split; cbn; try done.
  - apply Forall2_app; [done|]. by constructor.
  - apply Forall_app. split; [done|]. constructor; [|done]. split_and!; [done|done|]. rewrite <- Eb. by apply tracks_segment.
  - rewrite H4, rows_total_app. unfold rows_total at 3. cbn. lia.
  - by intros x ?%not_elem_of_nil.
  - destruct (_ && _); [|done]. apply Forall_app. split; [done|]. repeat constructor.
  - intros Ho. rewrite concat_app. cbn. rewrite !app_nil_r. by apply H6.
Qed.

Lemma flush_leaf_holds w rsss rss first last_ :
  holds w rsss rss -> lw_encoded w <> [] -> lw_leaf_first w = Some first -> lw_last w = Some last_ ->
  (o = RSpot -> lw_record_buf w = []) ->
  exists w', flush_leaf wc w = Ok w' /\ holds w' (rsss ++ [rss]) [] /\ lw_encoded w' = [] /\
    lw_record_buf w' = lw_record_buf w /\ lw_leaf_first w' = None /\ lw_last w' = lw_last w.
Proof.
  intros [H1 H2 H3 H4 H5 H7 H6] Hne Hf Hl Hbuf. unfold flush_leaf. rewrite Hf, Hl.
  destruct (leaf_sidecar wc w) as [sc segs] eqn:Es. destruct (lw_encoded w) as [|e es] eqn:Ee; [done|]. rewrite <- Ee in *.
  assert ((sc = None /\ segs = [] \/ exists b data, sc = Some data /\ sidecar_build b = (data, segs) /\ Forall (Forall P) b) /\
    (wc_skip_history wc = true -> sc = None)) as [Hsc Hskip].
  { unfold leaf_sidecar in Es. destruct (wc_skip_history wc); cbn in Es; [injection Es as <- <-; split; [by left|done]|].
    destruct (has_history _); [|injection Es as <- <-; split; [by left|done]].
    destruct (sidecar_build _) as [data refs] eqn:Eb. injection Es as <- <-. split; [right|done]. by eexists _, data. }
  eexists. split; [done|]. split_and!; try done. split; cbn; try done.
  - apply Forall2_app; [done|]. constructor; [|done]. split; cbn; try done.
    + exists (lw_encoded w), segs. by split_and!.
    + split; [|done]. intros ->. apply Forall2_nil_inv_l in H2. congruence.
    + intros Ho. destruct (H6 Ho) as [E1 E2]. rewrite (Hbuf Ho), app_nil_r in E1, E2. split; [congruence|].
      rewrite <- E2, Hl; [done|]. intros E. by rewrite E in E1; rewrite Hf in E1.
  - intros Ho. by rewrite (Hbuf Ho).
Qed.

Definition short (w : LeafWriter) : Prop :=
  lw_record_buf w <> [] -> (length (lw_record_buf w) < Nat.max 1 (wc_leaflet_target wc))%nat.

(** A writer between two pushes. *)
Record at_rest (w : LeafWriter) (rsss : list (list (list RunRecordV2))) (rss : list (list RunRecordV2)) : Prop := {
  bw_holds : holds w rsss rss;
  bw_short : short w;
  bw_open : lw_encoded w = [] \/ lw_accumulated w < wc_leaf_target wc;
  bw_first : lw_leaf_first w = None -> lw_encoded w = [];
  bw_last : lw_leaf_first w <> None \/ lw_record_buf w <> [] -> is_Some (lw_last w);
}.

Lemma at_rest_new : at_rest writer_new [] [].
Proof.
  split; [|by intros ?|by left|done|by intros [?|?]].
  split; cbn; try done. by intros r ?%not_elem_of_nil.
Qed.

Definition contents (w : LeafWriter) (rsss : list (list (list RunRecordV2))) (rss : list (list RunRecordV2)) : list RunRecordV2 :=
  concat (concat rsss) ++ concat rss ++ lw_record_buf w.

Lemma buffer_holds w rsss rss r :
  holds w rsss rss -> lw_record_buf w = [] \/ should_flush_for_segmentation wc w r = false ->
  holds (buffer_record wc w r) rsss rss.
Proof.
  intros [H1 H2 H3 H4 H5 H7 H6] Hseg. split; cbn; try done.
  - intros x Hx. cbn in Hx |- *. apply elem_of_app in Hx as [Hx|Hx%list_elem_of_singleton]; [|subst x; by destruct o].
    specialize (H5 x Hx). destruct Hseg as [E|E]; [rewrite E in Hx; by apply not_elem_of_nil in Hx|].
    unfold should_flush_for_segmentation in E. destruct o; [done| | |]; rewrite H5 in E; apply negb_false_iff, Z.eqb_eq in E; congruence.
  - intros Ho. destruct (H6 Ho) as [E1 E2]. rewrite app_assoc. rewrite E1. split; [|by rewrite last_snoc].
    by destruct (concat rss ++ lw_record_buf w).
Qed.

(** Before the record is buffered: a change of segment closes the leaflet. *)
Lemma segment_flush w rsss rss r :
  at_rest w rsss rss ->
  exists w1 rss1, (if negb (bool_decide (lw_record_buf w = [])) && should_flush_for_segmentation wc w r
      then flush_leaflet wc w else mret w) = Ok w1 /\ holds w1 rsss rss1 /\
    (lw_record_buf w1 = [] \/ should_flush_for_segmentation wc w1 r = false) /\
    concat rss1 ++ lw_record_buf w1 = concat rss ++ lw_record_buf w /\ short w1 /\ (o = RSpot -> w1 = w).
Proof.
  intros [Hh Hshort _ _ _]. destruct (bool_decide_reflect (lw_record_buf w = [])) as [E|E]; cbn [negb andb].
  - exists w, rss. split_and!; try done. by left.
  - destruct (should_flush_for_segmentation wc w r) eqn:Es.
    + destruct (flush_leaflet_holds w rsss rss Hh E) as (w1 & -> & Hh1 & Hb & _); [specialize (Hshort E); lia|].
      exists w1, (rss ++ [lw_record_buf w]). rewrite Hb, app_nil_r, concat_app. cbn. rewrite app_nil_r.
      split_and!; try done; [by left|by intros ?|]. intros Ho. unfold should_flush_for_segmentation in Es. by rewrite Ho in Es.
    + exists w, rss. split_and!; try done. by right.
Qed.

(** After it: a full buffer closes the leaflet. *)
Lemma full_flush w rsss rss :
  holds w rsss rss -> lw_record_buf w <> [] -> (length (lw_record_buf w) <= Nat.max 1 (wc_leaflet_target wc))%nat ->
  exists w' rss', (if (wc_leaflet_target wc <=? length (lw_record_buf w))%nat then flush_leaflet wc w else mret w) = Ok w' /\
    holds w' rsss rss' /\ lw_leaf_first w' = lw_leaf_first w /\ lw_last w' = lw_last w /\
    concat rss' ++ lw_record_buf w' = concat rss ++ lw_record_buf w /\ short w' /\ (lw_record_buf w' = [] \/ w' = w).
Proof.
  intros Hh Hne Hlen. destruct (Nat.leb_spec (wc_leaflet_target wc) (length (lw_record_buf w))) as [Hfull|Hfew].
  - destruct (flush_leaflet_holds w rsss rss Hh Hne Hlen) as (w' & -> & Hh' & Hb & Ef & El & _).
    exists w', (rss ++ [lw_record_buf w]). rewrite Hb, app_nil_r, concat_app. cbn. rewrite app_nil_r.
    split_and!; try done; [unfold short; by rewrite Hb|by left].
  - exists w, rss. split_and!; try done; [unfold short; lia|by right].
Qed.

(** Then a full leaf is closed. *)
Lemma leaf_flush w rsss rss first r :
  holds w rsss rss -> lw_leaf_first w = Some first -> lw_last w = Some r -> short w ->
  (o = RSpot -> lw_record_buf w = [] \/ lw_encoded w = [] \/ lw_accumulated w < wc_leaf_target wc) ->
  exists w' rsss' rss', (if wc_leaf_target wc <=? lw_accumulated w then flush_leaf wc w else mret w) = Ok w' /\
    at_rest w' rsss' rss' /\ contents w' rsss' rss' = contents w rsss rss.
Proof.
  intros Hh Hf Hl Hs Hspot. destruct (Z.leb_spec (wc_leaf_target wc) (lw_accumulated w)) as [Hge|Hlt].
  - destruct (decide (lw_encoded w = [])) as [E|E].
    + exists w, rsss, rss. split; [unfold flush_leaf; by rewrite E|]. split; [|done]. split; try done; by left.
    + destruct (flush_leaf_holds w rsss rss first r Hh E Hf Hl) as (w' & -> & Hh' & E' & Eb & _ & El).
      { intros Ho. destruct (Hspot Ho) as [?|[?|?]]; [done|done|lia]. }
      exists w', (rsss ++ [rss]), []. split; [done|]. split.
      * split; try done; [unfold short; by rewrite Eb|by left|by rewrite El, Hl].
      * unfold contents. rewrite Eb, !concat_app. cbn. by rewrite app_nil_r, <- app_assoc.
  - exists w, rsss, rss. split; [done|]. split; [|done]. split; try done; [by right|by rewrite Hf].
Qed.

Lemma push_record_holds w rsss rss r :
  at_rest w rsss rss -> exists w' rsss' rss', push_record wc w r = Ok w' /\ at_rest w' rsss' rss' /\
    contents w' rsss' rss' = contents w rsss rss ++ [r].
Proof.
  intros Hbt. unfold push_record. destruct (segment_flush w rsss rss r Hbt) as (w1 & rss1 & -> & Hh1 & Hseg & Hc1 & Hs1 & Hspot).
  cbn [mbind outcome_bind]. pose proof (buffer_holds w1 rsss rss1 r Hh1 Hseg) as Hh2.
  set (w2 := buffer_record wc w1 r) in *. assert (lw_record_buf w2 = lw_record_buf w1 ++ [r]) as Eb2 by done.
  destruct (full_flush w2 rsss rss1 Hh2) as (w3 & rss3 & -> & Hh3 & Hf3 & Hl3 & Hc3 & Hs3 & Hfull).
  { rewrite Eb2. by destruct (lw_record_buf w1). }
  { rewrite Eb2, length_app. cbn. destruct (decide (lw_record_buf w1 = [])) as [->|Hn]; [cbn; lia|]. specialize (Hs1 Hn). lia. }
  assert (exists first, lw_leaf_first w2 = Some first) as [first Hf2] by (cbn; destruct (lw_leaf_first w1); by eexists).
  destruct (leaf_flush w3 rsss rss3 first r Hh3) as (w4 & rsss4 & rss4 & E4 & Hb4 & Hc4); [congruence|by rewrite Hl3|done| |].
  { intros Ho. destruct Hfull as [E|E]; [by left|right]. subst w3. unfold w2. rewrite (Hspot Ho). apply (bw_open _ _ _ Hbt). }
  exists w4, rsss4, rss4. split; [done|]. split; [done|]. rewrite Hc4. unfold contents. by rewrite Hc3, Eb2, (app_assoc (concat rss1)), Hc1, !app_assoc.
Qed.

Lemma push_entry_all b e : P e -> Forall (Forall P) b -> Forall (Forall P) (push_entry b e).
Proof.
  intros He Hb. unfold push_entry. destruct (last b) as [es|] eqn:El; [|done]. apply Forall_app. split; [by apply Forall_take|].
  constructor; [|done]. apply Forall_app. split; [|by repeat constructor]. rewrite Forall_forall in Hb. by apply Hb, last_Some_elem_of.
Qed.

Lemma history_holds w rsss rss e :
  P e -> at_rest w rsss rss -> at_rest (push_history_entry wc w e) rsss rss /\
    contents (push_history_entry wc w e) rsss rss = contents w rsss rss.
Proof.
  intros He. unfold push_history_entry. destruct (wc_skip_history wc); [done|]. intros [[? ? ? ? ? Hh ?] ? ? ? ?]. split; [|done].
  split; try done. split; try done. cbn. apply push_entry_all; [done|]. destruct (lw_segment_started w); [done|].
  apply Forall_app. split; [done|]. repeat constructor.
Qed.

Lemma feed_holds items : (forall e, ItemHistory e ∈ items -> P e) -> forall w rsss rss, at_rest w rsss rss ->
  exists w' rsss' rss', feed wc w items = Ok w' /\ at_rest w' rsss' rss' /\
    contents w' rsss' rss' = contents w rsss rss ++ item_records items.
Proof.
  induction items as [|i items IH]; intros HP w rsss rss Hb.
  - exists w, rsss, rss. by rewrite app_nil_r.
  - destruct i as [r|e]; cbn [feed feed_item].
    + destruct (push_record_holds w rsss rss r Hb) as (w1 & r1 & r2 & -> & Hb1 & Hc1). cbn [mbind outcome_bind].
      destruct (IH ltac:(set_solver) w1 r1 r2 Hb1) as (w' & rsss' & rss' & -> & Hb' & Hc'). exists w', rsss', rss'. split_and!; [done|done|].
      rewrite Hc', Hc1, <- app_assoc. done.
    + destruct (history_holds w rsss rss e ltac:(apply HP; left) Hb) as [Hb1 Hc1]. cbn [mbind outcome_bind mret outcome_ret].
      destruct (IH ltac:(set_solver) _ _ _ Hb1) as (w' & rsss' & rss' & -> & Hb' & Hc'). exists w', rsss', rss'. split_and!; [done|done|].
      by rewrite Hc', Hc1.
Qed.

(** The end of the input. *)
Lemma finish_holds w rsss rss :
  at_rest w rsss rss ->
  (lw_leaf_first w = None /\ lw_record_buf w <> [] /\ o <> RSpot /\ writer_finish wc w = Panic) \/
  exists leaves rsss', writer_finish wc w = Ok leaves /\ Forall2 leaf_written leaves rsss' /\
    concat (concat rsss') = contents w rsss rss.
Proof.
  intros [Hh Hshort Hopen Hfirst Hlast]. unfold writer_finish, contents.
  destruct (bool_decide_reflect (lw_record_buf w = [])) as [Eb|Eb]; cbn [mbind outcome_bind mret outcome_ret].
  - rewrite Eb, app_nil_r. right. destruct (bool_decide_reflect (lw_encoded w = [])) as [Ee|Ee]; cbn [mbind outcome_bind mret outcome_ret].
    + exists (lw_completed w), rsss. split_and!; [done|apply Hh|]. pose proof (wh_leaflets _ _ _ Hh) as H2. rewrite Ee in H2.
      apply Forall2_nil_inv_r in H2. subst rss. by rewrite app_nil_r.
    + destruct (lw_leaf_first w) as [first|] eqn:Ef; [|by destruct Ee; apply Hfirst]. destruct Hlast as [l El]; [by left|].
      destruct (flush_leaf_holds w rsss rss first l Hh Ee Ef El (fun _ => Eb)) as (w' & -> & Hh' & _).
      exists (lw_completed w'), (rsss ++ [rss]). split_and!; [done|apply Hh'|]. rewrite !concat_app. cbn. by rewrite app_nil_r.
  - destruct (flush_leaflet_holds w rsss rss Hh Eb) as (w1 & -> & Hh1 & Eb1 & Ef1 & El1 & Ene); [specialize (Hshort Eb); lia|].
    cbn [mbind outcome_bind mret outcome_ret]. rewrite (bool_decide_eq_false_2 _ Ene). destruct Hlast as [l El]; [by right|].
    destruct (lw_leaf_first w) as [first|] eqn:Ef.
    + right. destruct (flush_leaf_holds w1 rsss _ first l Hh1 Ene Ef1) as (w' & -> & Hh' & _); [congruence|done|].
      exists (lw_completed w'), (rsss ++ [rss ++ [lw_record_buf w]]). split_and!; [done|apply Hh'|].
      rewrite !concat_app. cbn. rewrite !concat_app. cbn. by rewrite !app_nil_r.
    + left. split_and!; [done|done| |].
      * intros Ho. destruct (wh_keys _ _ _ Hh Ho) as [E _]. rewrite Ef in E. destruct (concat rss); [|done]. cbn in E. by destruct (lw_record_buf w).
      * unfold flush_leaf. rewrite Ef1. by destruct (lw_encoded w1).
Qed.

End laws.
