(* ===== verification/IndexBuild.v ===== *)
(** * Building an index (run_index/build/index_build.rs)

    The sorted runs of a graph are merged and written as leaves: with every
    record, with the latest record of each fact, or with the latest record and
    the others as history.  Completed leaves leave the writer as they are
    produced.  Files, content ids and the progress counter are left out: an
    argument gives the id of a blob. *)
From S2P Require Import Prelude Bytes Cmp Segment RunRecord Columns HistorySidecar IndexLog Replay Leaflet.
From S2P Require Import LeafBlob LeafUpdate LeafUpdateLaws IndexFilter Overlay Cursor CursorLaws CursorStored KWayMerge LeafWriter.
From stdpp Require Import base list numbers sorting gmap.
From Stdlib Require Import ZArith Lia.

Local Open Scope Z_scope.

Record IndexBuildConfig := mkBuildConfig {
  ib_order : RunSortOrder; ib_leaflet_target : nat; ib_leaf_target : Z; ib_zstd_level : Z;
  ib_skip_dedup : bool; ib_skip_history : bool;
}.

Definition writer_config (cfg : IndexBuildConfig) : WriterConfig :=
  mkWriterConfig (ib_order cfg) (ib_leaflet_target cfg) (ib_leaf_target cfg) (ib_zstd_level cfg) (ib_skip_history cfg).

Record GraphIndexResult (C : Type) := mkGraphResult {
  gr_total_rows : Z; gr_leaf_infos : list LeafInfo; gr_leaf_entries : list (LeafEntry C);
}.
Arguments mkGraphResult {C}.
Arguments gr_total_rows {C}.
Arguments gr_leaf_infos {C}.
Arguments gr_leaf_entries {C}.

Record PersistingLeafWriter := mkPersisting { pw_inner : LeafWriter; pw_persisted : list LeafInfo }.

Definition persisting_new : PersistingLeafWriter := mkPersisting writer_new [].

Definition run_hist_entry (x : run_item) : HistEntryV2 :=
  mkHist (rr_s_id x.1) (rr_p_id x.1) (rr_o_type x.1) (rr_o_key x.1) (rr_o_i x.1) (rr_t x.1) x.2.

Section build.
Context `{SL : SortLib, CZ : ColumnZstd}.
Context (cfg : IndexBuildConfig).
Notation o := (ib_order cfg).
Notation wc := (writer_config cfg).

Definition persisting_push (pw : PersistingLeafWriter) (r : RunRecordV2) : io PersistingLeafWriter :=
  w ← push_record wc (pw_inner pw) r;
  let '(infos, w) := drain_completed_leaves w in
  mret (mkPersisting w (pw_persisted pw ++ infos)).

Definition persisting_history (pw : PersistingLeafWriter) (x : run_item) : PersistingLeafWriter :=
  mkPersisting (push_history_entry wc (pw_inner pw) (run_hist_entry x)) (pw_persisted pw).

Definition persisting_finish (pw : PersistingLeafWriter) : io (list LeafInfo) :=
  infos ← writer_finish wc (pw_inner pw);
  mret (pw_persisted pw ++ infos).

(** The loop over the merge, with the rows written so far; [n] bounds its turns. *)
Fixpoint build_loop (n : nat) (m : KWayMerge) (pw : PersistingLeafWriter) (rows : Z) : io (PersistingLeafWriter * Z) :=
  match n with
  | O => mret (pw, rows)
  | S n =>
      if ib_skip_dedup cfg then
        '(next, m) ← next_record o m;
        match next with
        | None => mret (pw, rows)
        | Some (record, op) =>
            if op =? 0 then build_loop n m pw rows
            else pw ← persisting_push pw record; build_loop n m pw (rows + 1)
        end
      else if ib_skip_history cfg then
        '(next, m) ← next_deduped o m;
        match next with
        | None => mret (pw, rows)
        | Some (record, op) =>
            if op =? 0 then build_loop n m pw rows
            else pw ← persisting_push pw record; build_loop n m pw (rows + 1)
        end
      else
        '(next, m) ← next_deduped_with_history o m;
        match next with
        | None => mret (pw, rows)
        | Some (winner, history) =>
            let pw := fold_left persisting_history history pw in
            if winner.2 =? 0 then build_loop n m (persisting_history pw winner) rows
            else pw ← persisting_push pw winner.1; build_loop n m pw (rows + 1)
        end
  end.

Definition build_graph_index_result {C} (cid_of : bytes -> C) (infos : list LeafInfo) : GraphIndexResult C :=
  mkGraphResult (foldr (fun l n => li_total_rows l + n) 0 infos) infos
    ((fun info => mkLeafEntry (li_first_key info) (li_last_key info) (li_total_rows info)
                    (cid_of (li_leaf_bytes info)) (cid_of <$> li_sidecar_bytes info)) <$> infos).

(** The graphs built, and the rows counted; [runs] are the run files. *)
Definition build_index {C} (cid_of : bytes -> C) (runs : list (list run_item)) : io (list (GraphIndexResult C) * Z) :=
  match runs with
  | [] => mret ([], 0)
  | _ =>
      m ← merge_new o runs;
      '(pw, rows) ← build_loop (S (records_left m)) m persisting_new 0;
      infos ← persisting_finish pw;
      mret ([build_graph_index_result cid_of infos], rows)
  end.
End build.

(** ** What an index build writes

    The leaves of a build hold exactly the current facts of its runs: for each
    fact whose latest record is an assertion that record, in index order.  A
    cursor over those leaves returns them. *)

(** ** Draining the writer *)

(** More completed leaves before those of the writer. *)
Definition shift (l : list LeafInfo) (w : LeafWriter) : LeafWriter := with_completed w (l ++ lw_completed w).

Definition drained (w : LeafWriter) : PersistingLeafWriter := mkPersisting (with_completed w []) (lw_completed w).

Section drain.
Context `{SL : SortLib, CZ : ColumnZstd}.
Context (wc : WriterConfig).

Lemma shift_flush_leaflet l w : flush_leaflet wc (shift l w) = (w ← flush_leaflet wc w; mret (shift l w)).
Proof. unfold flush_leaflet. cbn [lw_record_buf shift with_completed]. destruct (lw_record_buf w); [done|]. by destruct (encode_leaflet _ _ _). Qed.

Lemma shift_flush_leaf l w : flush_leaf wc (shift l w) = (w ← flush_leaf wc w; mret (shift l w)).
Proof.
  unfold flush_leaf. cbn [lw_encoded lw_leaf_first lw_last shift with_completed]. destruct (lw_encoded w); [done|].
  destruct (lw_leaf_first w), (lw_last w); try done. change (leaf_sidecar wc (shift l w)) with (leaf_sidecar wc w).
  destruct (leaf_sidecar wc w). unfold shift, with_completed. cbn -[build_leaf_blob as_u]. by rewrite app_assoc.
Qed.

Lemma shift_push_record l w r : push_record wc (shift l w) r = (w ← push_record wc w r; mret (shift l w)).
Proof.
  unfold push_record. change (should_flush_for_segmentation wc (shift l w) r) with (should_flush_for_segmentation wc w r).
  change (lw_record_buf (shift l w)) with (lw_record_buf w).
  assert (forall (c : bool) w, (if c then flush_leaflet wc (shift l w) else mret (shift l w))
     = (w ← (if c then flush_leaflet wc w else mret w); mret (shift l w))) as Hc1 by (intros [] ?; [apply shift_flush_leaflet|done]).
  assert (forall (c : bool) w, (if c then flush_leaf wc (shift l w) else mret (shift l w))
     = (w ← (if c then flush_leaf wc w else mret w); mret (shift l w))) as Hc2 by (intros [] ?; [apply shift_flush_leaf|done]).
  rewrite Hc1. destruct (if _ : bool then flush_leaflet wc w else mret w) as [w1| |]; [|done|done]. cbn [mbind outcome_bind mret outcome_ret].
  change (buffer_record wc (shift l w1) r) with (shift l (buffer_record wc w1 r)). set (w2 := buffer_record wc w1 r).
  change (lw_record_buf (shift l w2)) with (lw_record_buf w2). pose proof Hc1 as Hc1'. unfold mret, outcome_ret in Hc1', Hc2 |- *.
  rewrite Hc1'. destruct (if _ : bool then flush_leaflet wc w2 else Ok w2) as [w3| |]; [|done|done]. cbn [mbind outcome_bind].
  apply Hc2.
Qed.

Lemma shift_finish l w : writer_finish wc (shift l w) = (x ← writer_finish wc w; mret (l ++ x)).
Proof.
  unfold writer_finish. change (lw_record_buf (shift l w)) with (lw_record_buf w).
  destruct (bool_decide (lw_record_buf w = [])); [|rewrite shift_flush_leaflet; destruct (flush_leaflet wc w) as [w1| |]; [|done|done]];
    cbn [mbind outcome_bind mret outcome_ret]; match goal with |- context [lw_encoded (shift l ?v)] => change (lw_encoded (shift l v)) with (lw_encoded v);
    destruct (bool_decide (lw_encoded v = [])); [done|rewrite shift_flush_leaf; by destruct (flush_leaf wc v)] end.
Qed.

Lemma shift_drained w : shift (lw_completed w) (with_completed w []) = w.
Proof. unfold shift, with_completed. cbn. rewrite app_nil_r. by destruct w. Qed.
End drain.

Section build.
Context `{SL : SortLib, CZ : ColumnZstd}.
Context (cfg : IndexBuildConfig).
Notation o := (ib_order cfg).
Notation wc := (writer_config cfg).

Lemma persisting_push_drained w r : persisting_push cfg (drained w) r = (w ← push_record wc w r; mret (drained w)).
Proof.
  unfold persisting_push. cbn [drained pw_inner pw_persisted]. rewrite <- (shift_drained w) at 2. rewrite shift_push_record.
  destruct (push_record wc (with_completed w []) r); done.
Qed.

Lemma persisting_history_drained w x : persisting_history cfg (drained w) x = drained (push_history_entry wc w (run_hist_entry x)).
Proof. unfold persisting_history, push_history_entry. cbn. by destruct (ib_skip_history cfg). Qed.

Lemma persisting_finish_drained w : persisting_finish cfg (drained w) = writer_finish wc w.
Proof. unfold persisting_finish. cbn [drained pw_inner pw_persisted]. symmetry. rewrite <- (shift_drained w) at 1. by rewrite shift_finish. Qed.

Lemma feed_app a : forall w b, feed wc w (a ++ b) = (w ← feed wc w a; feed wc w b).
Proof.
  induction a as [|i a IH]; intros w b; [done|]. cbn [feed app]. destruct (feed_item wc w i) as [w1| |]; [|done|done].
  cbn [mbind outcome_bind]. apply IH.
Qed.

Lemma fold_history h : forall w,
  fold_left (persisting_history cfg) h (drained w)
  = drained (fold_left (fun w x => push_history_entry wc w (run_hist_entry x)) h w).
Proof. induction h as [|x h IH]; intros w; [done|]. cbn [fold_left]. rewrite persisting_history_drained. apply IH. Qed.

Lemma feed_history h : forall w,
  feed wc w ((fun x => ItemHistory (run_hist_entry x)) <$> h)
  = Ok (fold_left (fun w x => push_history_entry wc w (run_hist_entry x)) h w).
Proof. induction h as [|x h IH]; intros w; [done|]. cbn. apply IH. Qed.

(** ** The items of a fact *)

Definition fact_items (g : run_item * list run_item) : list WriterItem :=
  if ib_skip_history cfg then (if g.1.2 =? 0 then [] else [ItemRecord g.1.1])
  else ((fun x => ItemHistory (run_hist_entry x)) <$> g.2)
       ++ [if g.1.2 =? 0 then ItemHistory (run_hist_entry g.1) else ItemRecord g.1.1].

(** The rows of a build: the latest records that assert. *)
Definition asserted (gs : list (run_item * list run_item)) : list RunRecordV2 :=
  (fun g => g.1.1) <$> List.filter (fun g : run_item * list run_item => negb (g.1.2 =? 0)) gs.

Lemma item_records_app a b : item_records (a ++ b) = item_records a ++ item_records b.
Proof. apply omap_app. Qed.

Lemma item_records_history h : item_records ((fun x => ItemHistory (run_hist_entry x)) <$> h) = [].
Proof. induction h as [|x h IH]; [done|]. cbn. apply IH. Qed.

Lemma fact_items_records gs : item_records (concat (fact_items <$> gs)) = asserted gs.
Proof.
  induction gs as [|[w h] gs IH]; [done|]. rewrite fmap_cons, concat_cons, item_records_app, IH. unfold asserted. cbn [List.filter fst snd].
  unfold fact_items. cbn [fst snd]. destruct (ib_skip_history cfg).
  - by destruct (w.2 =? 0).
  - rewrite item_records_app, item_records_history. by destruct (w.2 =? 0).
Qed.

(** One turn of the loop feeds the items of one fact. *)
Lemma build_turn n m m' win h w rows rest :
  ib_skip_dedup cfg = false -> next_deduped_with_history o m = Ok (Some (win, h), m') ->
  (forall w rows, build_loop cfg n m' (drained w) rows = rest w rows) ->
  build_loop cfg (S n) m (drained w) rows
  = (w ← feed wc w (fact_items (win, h)); rest w (rows + (if win.2 =? 0 then 0 else 1))).
Proof.
  intros Hd Hn Hrest. cbn [build_loop]. rewrite Hd, next_deduped_winner, Hn. cbn [mbind outcome_bind mret outcome_ret option_map fst].
  unfold fact_items. cbn [fst snd]. destruct (ib_skip_history cfg).
  - destruct win as [r op]. cbn [fst snd]. destruct (op =? 0).
    + cbn. by rewrite Z.add_0_r.
    + rewrite persisting_push_drained. cbn [feed feed_item]. destruct (push_record wc w r) as [w1| |]; [|done|done]. cbn. apply Hrest.
  - rewrite fold_history, feed_app, feed_history. cbn [mbind outcome_bind]. set (w1 := fold_left _ h w). destruct (win.2 =? 0).
    + rewrite persisting_history_drained, Hrest. cbn. by rewrite Z.add_0_r.
    + rewrite persisting_push_drained. cbn [feed feed_item]. destruct (push_record wc w1 win.1) as [w2| |]; [|done|done]. cbn. apply Hrest.
Qed.

Lemma build_loop_facts n : ib_skip_dedup cfg = false -> forall m, kmerge_ok o m -> (records_left m < n)%nat ->
  exists gs, groups_of o (concat (km_streams m)) gs /\ forall w rows,
    build_loop cfg n m (drained w) rows
    = (w ← feed wc w (concat (fact_items <$> gs)); mret (drained w, rows + zlen (asserted gs))).
Proof.
  intros Hd. induction n as [|n IH]; intros m Hok Hn; [lia|].
  destruct (next_group_spec o m Hok) as [[En E]|(win & h & m' & En & T & Hlt)].
  - exists []. rewrite E. split; [split; constructor|]. intros w rows. cbn [build_loop]. rewrite Hd, next_deduped_winner, En. cbn.
    rewrite Z.add_0_r. by destruct (ib_skip_history cfg).
  - destruct (IH m' (tk_ok _ _ _ _ _ _ T) ltac:(lia)) as (gs & Hgs & Hrest). exists ((win, h) :: gs).
    split; [by eapply groups_cons|]. intros w rows. rewrite (build_turn n m m' win h w rows _ Hd En Hrest).
    rewrite fmap_cons, concat_cons, feed_app. destruct (feed wc w (fact_items (win, h))) as [w1| |]; [|done|done].
    cbn [mbind outcome_bind]. destruct (feed wc w1 _) as [w2| |]; [|done|done]. cbn. unfold asserted. cbn [List.filter fst snd].
    destruct (win.2 =? 0); cbn [negb]; [by rewrite Z.add_0_r|]. rewrite fmap_cons, zlen_cons. do 2 f_equal. lia.
Qed.

(** ** The current facts *)

(** The latest record of its fact, and an assertion. *)
Definition current (runs : list (list run_item)) (r : RunRecordV2) : Prop :=
  exists op, (r, op) ∈ concat runs /\ op <> 0 /\
    forall x : run_item, x ∈ concat runs -> rr_key x.1 = rr_key r -> rr_t x.1 <= rr_t r.

(** No two records of one fact have the same time. *)
Definition distinct_times (runs : list (list run_item)) : Prop :=
  forall x y : run_item, x ∈ concat runs -> y ∈ concat runs -> rr_key x.1 = rr_key y.1 -> rr_t x.1 = rr_t y.1 -> x = y.

Lemma group_elem records gs (x : run_item) :
  groups_of o records gs -> x ∈ records <-> exists g, g ∈ gs /\ (x = g.1 \/ x ∈ g.2).
Proof.
  intros [Hall _ _]. rewrite <- Hall. rewrite list_elem_of_In, in_concat. split.
  - intros (l & Hl & Hx). apply list_elem_of_In, list_elem_of_fmap in Hl as (g & -> & Hg). exists g. split; [done|].
    by apply list_elem_of_In, elem_of_cons in Hx.
  - intros (g & Hg & Hx). exists (g.1 :: g.2). rewrite <- !list_elem_of_In. split; [|by apply elem_of_cons].
    apply list_elem_of_fmap. by exists g.
Qed.

Lemma group_unique records gs g g' :
  groups_of o records gs -> g ∈ gs -> g' ∈ gs -> rr_key g.1.1 = rr_key g'.1.1 -> g = g'.
Proof.
  intros [_ Hs _] Hg Hg' E. apply list_elem_of_lookup in Hg as [i Hi], Hg' as [j Hj].
  assert (forall (i : nat) (g : run_item * list run_item), gs !! i = Some g -> ((fun g : run_item * list run_item => g.1.1) <$> gs) !! i = Some g.1.1) as Hl.
  { intros k x H. by rewrite list_lookup_fmap, H. }
  destruct (Nat.lt_trichotomy i j) as [Hij|[->|Hij]]; [exfalso| congruence|exfalso].
  - eapply (run_lt_ne o g.1.1 g'.1.1); [|done]. eapply (sorted_lookup _ _ i j); [exact Hs|by apply Hl|by apply Hl|done].
  - eapply (run_lt_ne o g'.1.1 g.1.1); [|done]. eapply (sorted_lookup _ _ j i); [exact Hs|by apply Hl|by apply Hl|done].
Qed.

Lemma elem_asserted gs r : r ∈ asserted gs <-> exists g, g ∈ gs /\ g.1.1 = r /\ g.1.2 <> 0.
Proof.
  unfold asserted. rewrite list_elem_of_fmap. split.
  - intros (g & -> & Hg). apply list_elem_of_In, filter_In in Hg as [Hg Hop%negb_true_iff%Z.eqb_neq]. exists g. by rewrite list_elem_of_In.
  - intros (g & Hg & <- & Hop). exists g. split; [done|]. apply list_elem_of_In, filter_In. rewrite <- list_elem_of_In. split; [done|]. by apply negb_true_iff, Z.eqb_neq.
Qed.

Lemma asserted_current runs gs r : groups_of o (concat runs) gs -> r ∈ asserted gs -> current runs r.
Proof.
  intros Hg (g & Hin & <- & Hop)%elem_asserted. exists g.1.2. split_and!.
  - apply (group_elem _ _ _ Hg). exists g. split; [done|left]. by destruct g as [[? ?] ?].
  - done.
  - intros x (g' & Hin' & Hx)%(group_elem _ _ _ Hg) Hk. pose proof (go_fact _ _ _ Hg) as Hf. rewrite Forall_forall in Hf.
    specialize (Hf g' Hin'). rewrite Forall_forall in Hf. destruct Hx as [->|Hx].
    + by rewrite (group_unique _ _ g' g Hg Hin' Hin Hk).
    + destruct (Hf x Hx) as [Hk' Ht]. by rewrite (group_unique _ _ g' g Hg Hin' Hin (eq_trans (eq_sym Hk') Hk)) in Ht.
Qed.

Lemma current_asserted runs gs r : groups_of o (concat runs) gs -> distinct_times runs -> current runs r -> r ∈ asserted gs.
Proof.
  intros Hg Hd (op & Hin & Hop & Hlatest). apply (group_elem _ _ _ Hg) in Hin as Hgr. destruct Hgr as (g & Hgs & Hx).
  apply elem_asserted. exists g. split; [done|]. destruct Hx as [E|Hx]; [destruct g as [[r' op'] h']; cbn in E |- *; by injection E as -> ->|].
  pose proof (go_fact _ _ _ Hg) as Hf. rewrite Forall_forall in Hf. specialize (Hf g Hgs). rewrite Forall_forall in Hf.
  destruct (Hf _ Hx) as [Hk Ht]. cbn in Hk, Ht.
  assert (g.1 ∈ concat runs) as Hw by (apply (group_elem _ _ _ Hg); exists g; auto).
  pose proof (Hlatest g.1 Hw (eq_sym Hk)) as Ht'. assert ((r, op) = g.1) as E by (apply Hd; [done|done|done|cbn; lia]).
  destruct g as [[r' op'] h']. cbn in E |- *. by injection E as -> ->.
Qed.

Lemma asserted_rows_sorted gs : StronglySorted (run_lt o) ((fun g => g.1.1) <$> gs) -> StronglySorted (run_lt o) (asserted gs).
Proof.
  induction gs as [|g gs IH]; intros Hs; [constructor|]. cbn in Hs. apply StronglySorted_inv in Hs as [Hs Hg].
  unfold asserted. cbn. destruct (negb _); [|by apply IH]. cbn. constructor; [by apply IH|].
  rewrite Forall_fmap in Hg. rewrite Forall_fmap. rewrite Forall_forall in Hg |- *. intros x Hx. apply Hg.
  apply list_elem_of_In, filter_In in Hx as [Hx _]. by apply list_elem_of_In.
Qed.

(** ** Builds *)

(** The leaves of a build, leaflet by leaflet. *)
Record built {C} (cid_of : bytes -> C) (runs : list (list run_item)) (gr : GraphIndexResult C) (rsss : list (list (list RunRecordV2))) : Prop := {
  bt_leaves : Forall2 (leaf_written wc (fun e => exists x, x ∈ concat runs /\ e = run_hist_entry x)) (gr_leaf_infos gr) rsss;
  bt_entries : gr = build_graph_index_result cid_of (gr_leaf_infos gr);
  bt_sorted : StronglySorted (run_lt o) (concat (concat rsss));
  bt_current : forall r, r ∈ concat (concat rsss) -> current runs r;
  bt_complete : distinct_times runs -> forall r, current runs r -> r ∈ concat (concat rsss);
}.

Lemma fact_items_history runs gs e :
  groups_of o (concat runs) gs -> ItemHistory e ∈ concat (fact_items <$> gs) -> exists x, x ∈ concat runs /\ e = run_hist_entry x.
Proof.
  intros Hg He. apply list_elem_of_In, in_concat in He as (l & Hl & He). apply list_elem_of_In, list_elem_of_fmap in Hl as (g & -> & Hgs).
  apply list_elem_of_In in He. unfold fact_items in He. destruct (ib_skip_history cfg).
  - destruct (g.1.2 =? 0); [by apply not_elem_of_nil in He|]. by apply list_elem_of_singleton in He.
  - apply elem_of_app in He as [He|He].
    + apply list_elem_of_fmap in He as (x & [= ->] & Hx). exists x. split; [|done]. apply (group_elem _ _ _ Hg). exists g. auto.
    + apply list_elem_of_singleton in He. destruct (g.1.2 =? 0); [|done]. injection He as ->. exists g.1. split; [|done].
      apply (group_elem _ _ _ Hg). exists g. auto.
Qed.

Lemma build_index_built {C} (cid_of : bytes -> C) runs :
  (forall bs, is_Some (zstd_bulk_compress bs (ib_zstd_level cfg))) -> ib_skip_dedup cfg = false ->
  runs <> [] -> streams_sorted o runs ->
  (o <> RSpot /\ build_index cfg cid_of runs = Panic) \/
  exists gr rsss, build_index cfg cid_of runs = Ok ([gr], zlen (concat (concat rsss))) /\ built cid_of runs gr rsss.
Proof.
  intros Hcomp Hd Hne Hs. unfold build_index. destruct runs as [|run runs]; [done|]. set (rs := run :: runs) in *.
  destruct (merge_new_ok o rs Hs) as (m & -> & Hok & Es). cbn [mbind outcome_bind].
  destruct (build_loop_facts (S (records_left m)) Hd m Hok (le_n _)) as (gs & Hgs & Hloop). rewrite Es in Hgs.
  change persisting_new with (drained writer_new). rewrite Hloop. set (P := fun e => exists x, x ∈ concat rs /\ e = run_hist_entry x).
  destruct (feed_holds wc Hcomp P (concat (fact_items <$> gs)) (fun e => fact_items_history rs gs e Hgs) writer_new [] [] (at_rest_new wc P))
    as (w & rsss & rss & -> & Hb & Hc). cbn [mbind outcome_bind mret outcome_ret]. rewrite persisting_finish_drained.
  destruct (finish_holds wc Hcomp P w rsss rss Hb) as [(_ & _ & Ho & ->)|(leaves & rsss' & -> & Hl & Hc')]; [by left|right].
  rewrite Hc in Hc'. cbn [contents concat app writer_new lw_record_buf] in Hc'. rewrite fact_items_records in Hc'.
  cbn [mbind outcome_bind mret outcome_ret]. exists (build_graph_index_result cid_of leaves), rsss'. rewrite Hc'. split; [done|]. split.
  - exact Hl.
  - done.
  - rewrite Hc'. apply asserted_rows_sorted, (go_sorted _ _ _ Hgs).
  - intros r. rewrite Hc'. by apply asserted_current.
  - intros Hdt r. rewrite Hc'. by apply current_asserted.
Qed.
End build.

(** ** Reading a built index

    The blobs of a build are the leaves a cursor expects, so a scan of a freshly
    built index returns exactly the current facts of the runs it was built
    from. *)

(** ** Segment references *)

Section segments.
Context `{SL : SortLib, SLL : !SortLaws}.

Definition time_ok (e : HistEntryV2) : Prop := in_u 32 (he_t e).

Lemma build_segment_ok out es out' seg :
  Forall time_ok es -> zlen out < 2 ^ 64 -> build_segment out es = (out', seg) -> seg_ok seg /\ zlen out <= zlen out'.
Proof.
  intros Ht Hz. assert (in_u 64 (zlen out)) as Ho by (pose proof (zlen_nonneg out); unfold in_u; lia).
  unfold build_segment. destruct es as [|e es]; intros [= <- <-].
  - rewrite zlen_app. match goal with |- context [zlen out + zlen ?x] => pose proof (zlen_nonneg x) end. split; [|lia]. split; [done|by vm_compute..].
  - set (srt := sort_by newest_first (e :: es)). assert (Forall time_ok srt) as Hs.
    { assert (srt ≡ₚ e :: es) as -> by (apply (sort_by_perm everything); [apply _|by apply Forall_forall]). done. }
    rewrite zlen_app. match goal with |- context [zlen out + zlen ?x] => pose proof (zlen_nonneg x) end. split; [|lia]. rewrite Forall_forall in Hs.
    split; cbn [sr_offset sr_len sr_min_t sr_max_t]; [done|by apply as_u_range| |].
    + destruct (last srt) as [x|] eqn:El; cbn; [by apply Hs, last_Some_elem_of|unfold in_u; lia].
    + destruct (head srt) as [x|] eqn:El; cbn; [by apply Hs, head_Some_elem_of|unfold in_u; lia].
Qed.

Lemma build_segments_ok leaflets : forall out data segs,
  Forall (Forall time_ok) leaflets -> build_segments out leaflets = (data, segs) -> zlen data < 2 ^ 64 ->
  Forall seg_ok segs /\ zlen out <= zlen data.
Proof.
  induction leaflets as [|es leaflets IH]; intros out data segs Ht; cbn [build_segments].
  - intros [= <- <-] _. split; [constructor|lia].
  - destruct (build_segment out es) as [out' seg] eqn:E1. destruct (build_segments out' leaflets) as [data' segs'] eqn:E2.
    intros [= <- <-] Hz. apply Forall_cons in Ht as [Ht1 Ht]. destruct (IH out' data' segs' Ht E2 Hz) as [Hs Hle].
    assert (zlen out <= zlen out') as Hle1.
    { unfold build_segment in E1. destruct es; injection E1 as <- _; rewrite zlen_app; match goal with |- _ <= _ + zlen ?x => pose proof (zlen_nonneg x) end; lia. }
    destruct (build_segment_ok out es out' seg Ht1 ltac:(lia) E1) as [Hok _]. split; [by constructor|lia].
Qed.
End segments.

(** ** Sizes of a leaf blob *)

Lemma directory_size leaflets : forall segs off,
  Forall encoded_ok leaflets -> 100 * zlen leaflets <= zlen (directory_bytes leaflets segs off).
Proof.
  induction leaflets as [|l leaflets IH]; intros segs off Hok; [done|]. apply Forall_cons in Hok as [Hl Hok].
  cbn [directory_bytes]. rewrite zlen_cons, zlen_app. specialize (IH (tail segs) (off + as_u 32 (zlen (el_payload l))) Hok).
  rewrite (zlen_concat _ _ (entry_fields_lengths l off (head segs) Hl)). unfold entry_lengths, sumZ. cbn [foldr].
  pose proof (zlen_nonneg (el_column_refs l)). lia.
Qed.

Lemma rows_total_bound leaflets : Forall encoded_ok leaflets -> rows_total leaflets <= 2 ^ 32 * zlen leaflets.
Proof.
  unfold rows_total. induction 1 as [|l ls Hl Hls IH]; [done|]. cbn [foldr]. rewrite zlen_cons. pose proof (eo_rows l Hl) as [_ ?]. lia.
Qed.

(** ** What a writer leaves *)

Section written.
Context `{SL : SortLib, SLL : !SortLaws, CZ : ColumnZstd, CZL : !ColumnZstdLaws}.
Context (wc : WriterConfig).
Notation o := (wc_order wc).

Lemma zlen_ordered_key r : zlen (write_ordered_key_v2 o r) = ORDERED_KEY_V2_SIZE.
Proof. by destruct o. Qed.

Lemma cut_rows_ok rs :
  8 * Z.of_nat (Nat.max 1 (wc_leaflet_target wc)) < 2 ^ 32 -> leaflet_cut wc rs -> Forall rr_wf rs -> leaflet_rows_ok o rs.
Proof.
  intros Ht (_ & Hlen & Hseg) Hwf. split; [done|unfold zlen; lia| |].
  - intros Ho a b Ha Hb. specialize (Hseg a b Ha Hb). unfold same_segment in Hseg. cbn in Hseg. destruct Ho as [E|E]; rewrite E in Hseg; lia.
  - intros Ho a b Ha Hb. specialize (Hseg a b Ha Hb). unfold same_segment in Hseg. cbn in Hseg. rewrite Ho in Hseg. lia.
Qed.

Lemma written_blob (P : HistEntryV2 -> Prop) li rss :
  8 * Z.of_nat (Nat.max 1 (wc_leaflet_target wc)) < 2 ^ 32 -> leaf_written wc P li rss -> (forall e, P e -> time_ok e) ->
  Forall (Forall rr_wf) rss -> Forall no_sentinel rss -> zlen (li_leaf_bytes li) < 2 ^ 32 ->
  (forall data, li_sidecar_bytes li = Some data -> zlen data < 2 ^ 64) ->
  leaf_blob_of o rss (li_leaf_bytes li).
Proof.
  intros Ht [(leaflets & segs & HF & Eb & _ & Hseg) [_ Hcut] _ _] HP Hwf Hns Hz Hsc.
  assert (Forall (leaflet_rows_ok o) rss) as Hrows.
  { apply Forall_forall. intros rs Hrs. rewrite Forall_forall in Hcut, Hwf. apply cut_rows_ok; auto. }
  unfold build_leaf_blob in Eb. pose proof Hz as Hz'. rewrite Eb, zlen_blob in Hz'.
  match type of Hz' with zlen ?h + zlen ?d + _ < _ => pose proof (zlen_nonneg h); pose proof (zlen_nonneg d) end.
  assert (Forall encoded_ok leaflets) as Hok by (eapply (leaflets_encoded o (wc_zstd_level wc)); [exact HF|done|done|lia]).
  pose proof (directory_size leaflets segs 0 Hok). pose proof (rows_total_bound leaflets Hok).
  pose proof (zlen_nonneg (concat (el_payload <$> leaflets))) as Hpl. fold (payload_size leaflets) in Hpl.
  split; [|done|done|done]. eexists (wc_zstd_level wc), leaflets, segs, _, _. split_and!; [exact HF| |apply zlen_ordered_key|apply zlen_ordered_key| | |exact Eb].
  - destruct Hseg as [[_ ->]|(b & data & Hd & Hbuild & HPb)]; [constructor|].
    apply (build_segments_ok b sidecar_header data segs); [|exact Hbuild|by apply Hsc].
    eapply Forall_impl; [exact HPb|]. intros es Hes. eapply Forall_impl; [exact Hes|exact HP].
  - change (rows_total leaflets < 2 ^ 64). cbn in *. lia.
  - cbn in *. lia.
Qed.

Lemma blob_of_loads rss data : leaf_blob_of o rss data -> exists segs, leaf_loads o data rss segs.
Proof.
  intros [(level & leaflets & segs & fk & lk & H1 & H2 & H3 & H4 & H5 & H6 & ->) Hr Hn Hz]. exists segs. by apply (blob_loads o level rss leaflets).
Qed.

(** Records the column formats hold. *)
Definition row_ok (r : RunRecordV2) : Prop := rr_wf r /\ rr_p_id r < u32_max /\ rr_o_type r < u16_max.

Lemma elem_of_concat2 {A} (lsss : list (list (list A))) lss ls x : lss ∈ lsss -> ls ∈ lss -> x ∈ ls -> x ∈ concat (concat lsss).
Proof.
  intros H1 H2 H3. rewrite !list_elem_of_In, !in_concat in *. exists ls. split; [|done]. apply in_concat. by exists lss.
Qed.

(** The blobs of a leaf fit their length fields. *)
Definition leaf_fits (li : LeafInfo) : Prop :=
  zlen (li_leaf_bytes li) < 2 ^ 32 /\ (forall data, li_sidecar_bytes li = Some data -> zlen data < 2 ^ 64).

(** C16: with a compressor that never fails, feeding a leaf writer with records
    and history entries never fails or panics.  Finishing it gives leaves that
    hold the records pushed, in order, cut into leaflets of one predicate (or
    object type) and at most the target size; the sidecars hold history entries
    that were pushed; in subject order the keys of each leaf are those of its
    first and last row.  If records and history times fit their columns, the
    bytes of every leaf within the 32-bit size decode to a directory of its
    leaflets, and the columns of each load as its records.  Finishing panics only
    when a leaf was closed with the last record already buffered, which subject
    order excludes. *)
Theorem leaf_writer_exact items :
  (forall bs, is_Some (zstd_bulk_compress bs (wc_zstd_level wc))) ->
  exists w, feed wc writer_new items = Ok w /\
    ((lw_leaf_first w = None /\ lw_record_buf w <> [] /\ o <> RSpot /\ writer_finish wc w = Panic) \/
     exists leaves rsss, writer_finish wc w = Ok leaves /\
       Forall2 (leaf_written wc (fun e => ItemHistory e ∈ items)) leaves rsss /\
       concat (concat rsss) = item_records items /\
       (8 * Z.of_nat (Nat.max 1 (wc_leaflet_target wc)) < 2 ^ 32 -> Forall row_ok (item_records items) ->
        (forall e, ItemHistory e ∈ items -> time_ok e) ->
        Forall2 (fun li rss => leaf_fits li -> exists segs, leaf_loads o (li_leaf_bytes li) rss segs) leaves rsss)).
Proof.
  intros Hcomp. set (P := fun e => ItemHistory e ∈ items).
  destruct (feed_holds wc Hcomp P items (fun _ H => H) writer_new [] [] (at_rest_new wc P)) as (w & rsss & rss & Hf & Hb & Hc).
  exists w. split; [done|]. destruct (finish_holds wc Hcomp P w rsss rss Hb) as [H|(leaves & rsss' & H1 & H2 & H3)]; [by left|right].
  assert (concat (concat rsss') = item_records items) as Hall by by rewrite H3, Hc.
  exists leaves, rsss'. split_and!; [done..|]. intros Ht Hrows Htime. apply Forall2_same_length_lookup. split; [by eapply Forall2_length|].
  intros i li rs Hi Hr [Hz Hsc]. apply blob_of_loads. pose proof (Forall2_lookup_lr _ _ _ _ _ _ H2 Hi Hr) as Hlw.
  apply list_elem_of_lookup_2 in Hr. rewrite <- Hall, Forall_forall in Hrows.
  apply (written_blob P); try done; apply Forall_forall; intros l Hl; apply Forall_forall; intros r Hrr;
    apply (Hrows r); by eapply elem_of_concat2.
Qed.
End written.

Section scan.
Context {C : Type} `{LS : LeafStore C, SL : SortLib, SLL : !SortLaws, SO : StatesOrder, CZ : ColumnZstd, CZL : !ColumnZstdLaws}.
Context (cfg : IndexBuildConfig).
Notation o := (ib_order cfg).
Notation wc := (writer_config cfg).

(** What the store keeps of a leaf. *)
Definition leaf_stored (cid_of : bytes -> C) (li : LeafInfo) : Prop :=
  store_fetch (cid_of (li_leaf_bytes li)) = Ok (li_leaf_bytes li) /\ zlen (li_leaf_bytes li) < 2 ^ 32 /\
  (forall data, li_sidecar_bytes li = Some data -> zlen data < 2 ^ 64).

(** C3: building an index of sorted runs of well-formed records, whose facts
    each have one record per time, and scanning the stored leaves with any
    filter, with no overlay and at the present, returns in index order exactly
    the current facts of the runs that match: those whose latest record is an
    assertion.  The build itself returns, unless the writer panics in an order
    other than subject order. *)
Theorem built_index_scans (cid_of : bytes -> C) runs f :
  (forall bs, is_Some (zstd_bulk_compress bs (ib_zstd_level cfg))) -> ib_skip_dedup cfg = false ->
  8 * Z.of_nat (Nat.max 1 (ib_leaflet_target cfg)) < 2 ^ 32 -> store_max_t <= t_unbounded ->
  runs <> [] -> streams_sorted o runs -> distinct_times runs ->
  Forall (fun x : run_item => rr_wf x.1 /\ rr_p_id x.1 < u32_max /\ rr_o_type x.1 < u16_max) (concat runs) ->
  (o <> RSpot /\ build_index cfg cid_of runs = Panic) \/
  exists gr n, build_index cfg cid_of runs = Ok ([gr], n) /\
    (Forall (leaf_stored cid_of) (gr_leaf_infos gr) ->
     let '(c, st) := scan_all o (gr_leaf_entries gr) f cp_all in
     exists bs outs, scans c st bs /\ Forall2 batch_holds bs outs /\ StronglySorted (run_lt o) (concat outs) /\
       forall x, x ∈ concat outs <-> exists r, x = drop_graph r /\ current runs r /\ matches_row f r = true).
Proof.
  intros Hcomp Hd Ht Hmax Hne Hs Hdist Hwf.
  destruct (build_index_built cfg cid_of runs Hcomp Hd Hne Hs) as [H|(gr & rsss & Hb & [B1 B2 B3 B4 B5])]; [by left|right].
  exists gr. eexists. split; [exact Hb|]. intros Hst.
  assert (forall r, r ∈ concat (concat rsss) -> rr_wf r /\ rr_p_id r < u32_max /\ rr_o_type r < u16_max) as Hrow.
  { intros r (op & Hin & _)%B4. rewrite Forall_forall in Hwf. apply (Hwf (r, op) Hin). }
  assert (forall rss rs r, rss ∈ rsss -> rs ∈ rss -> r ∈ rs -> r ∈ concat (concat rsss)) as Hin.
  { intros rss rs r H1 H2 H3. rewrite !list_elem_of_In, !in_concat in *. exists rs. split; [|done]. apply in_concat. by exists rss. }
  assert (Forall2 (stored_leaf o) (gr_leaf_entries gr) rsss) as Hleaves.
  { rewrite B2. cbn. apply Forall2_fmap_l, Forall2_same_length_lookup. split; [by eapply Forall2_length|]. intros i li rss Hi Hr.
    pose proof (Forall2_lookup_lr _ _ _ _ _ _ B1 Hi Hr) as Hlw. destruct (Forall_lookup_1 _ _ _ _ Hst Hi) as (Hf & Hz & Hsc).
    apply list_elem_of_lookup_2 in Hr. exists (li_leaf_bytes li). split; [done|].
    apply (written_blob wc (fun e => exists x, x ∈ concat runs /\ e = run_hist_entry x)); try done.
    - intros e (x & Hx & ->). rewrite Forall_forall in Hwf. destruct (Hwf x Hx) as [[] _]. done.
    - apply Forall_forall. intros rs Hrs. apply Forall_forall. intros r Hrr. apply (Hrow r). by eapply Hin.
    - apply Forall_forall. intros rs Hrs. apply Forall_forall. intros r Hrr. apply (Hrow r). by eapply Hin. }
  pose proof (scan_merges o (gr_leaf_entries gr) rsss f cp_all [] t_unbounded Hleaves B3 eq_refl Hmax) as Hscan.
  cbn [set_to_t set_overlay_ops set_overlay_ops_window scan_all initial_state cs_current_leaf_idx cs_current_leaf cs_current_leaflet_idx
    cs_exhausted cc_order cc_leaves cc_leaf_range cc_filter cc_projection cc_overlay_ops cc_overlay_end cc_range_min cc_range_max fst length] in Hscan |- *.
  destruct Hscan as (bs & outs & H1 & H2 & H3); [constructor|by intros ? ? ? ? ? ? ? ? ? ? ?%not_elem_of_nil|done|].
  rewrite overlay_merge_nil in H3. exists bs, outs. rewrite H3. split_and!; [done|done| |].
  - apply (shown_sorted (mkCursorConfig o (gr_leaf_entries gr) (0%nat, length (gr_leaf_entries gr)) f cp_all [] 0 t_unbounded None None)).
    by apply drop_graph_sorted.
  - intros x. unfold shown_rows. cbn. rewrite list_elem_of_In, filter_In, <- list_elem_of_In, list_elem_of_fmap. split.
    + intros [(r & -> & Hr) Hm]. exists r. split_and!; [done|by apply B4|done].
    + intros (r & -> & Hc & Hm). split; [|done]. exists r. split; [done|]. by apply B5.
Qed.
End scan.
