(* ===== verification/Branch.v ===== *)
(** * Branch manifests (format/branch.rs)

    The leaves of an index in key order: their binary form and the searches that
    route a key, a key range or a subject to leaves.  Decoding runs over the
    bytes that are left instead of a position.  Content ids are the interface
    [CidLib]. *)

From S2P Require Import Prelude Bytes Cmp Envelope Segment RunRecord Columns HistorySidecar IndexLog Replay.
From S2P Require Import Leaflet LeafBlob IndexFilter Overlay Cursor.
From stdpp Require Import base list numbers sorting gmap.
From Stdlib Require Import ZArith Lia.

Local Open Scope Z_scope.

(** ["FBR3"] *)
Definition BRANCH_V3_MAGIC : bytes := [0x46; 0x42; 0x52; 0x33].
Definition BRANCH_V3_VERSION : Z := 1.
Definition BRANCH_V3_HEADER_LEN : Z := 16.

(** ** Routing *)

Definition find_leaf {C} (leaves : list (LeafEntry C)) (key : RunRecordV2) (o : RunSortOrder) : io (option (LeafEntry C)) :=
  match leaves with
  | [] => mret None
  | _ =>
      let idx := partition_point (fun e => negb (is_Gt (cmp_v2_for_order o (le_first_key e) key))) leaves in
      match idx with
      | O => mret None
      | S idx =>
          match leaves !! idx with
          | None => Panic
          | Some candidate =>
              mret (if is_Gt (cmp_v2_for_order o key (le_last_key candidate)) then None else Some candidate)
          end
      end
  end.

Definition find_leaves_for_subject {C} (leaves : list (LeafEntry C)) (s_id : Z) : nat * nat :=
  match leaves with
  | [] => (0%nat, 0%nat)
  | _ =>
      (partition_point (fun e => rr_s_id (le_last_key e) <? s_id) leaves,
       partition_point (fun e => rr_s_id (le_first_key e) <=? s_id) leaves)
  end.

(** ** Encoding *)

Section codec.
Context `{CL : CidLib}.

Definition cid_field (cid : ContentId) : bytes := le_bytes 2 (as_u 16 (zlen (cid_to_bytes cid))) ++ cid_to_bytes cid.

Definition leaf_entry_bytes (leaf : LeafEntry ContentId) : bytes :=
  write_run_le (le_first_key leaf) ++ write_run_le (le_last_key leaf) ++ le_bytes 8 (le_row_count leaf)
  ++ cid_field (le_leaf_cid leaf)
  ++ match le_sidecar_cid leaf with Some sc => [1] ++ cid_field sc | None => [0] end.

Definition build_branch_bytes (o : RunSortOrder) (g_id : Z) (leaves : list (LeafEntry ContentId)) : bytes :=
  BRANCH_V3_MAGIC ++ [BRANCH_V3_VERSION] ++ [order_to_wire_id o] ++ le_bytes 2 g_id
  ++ le_bytes 4 (as_u 32 (zlen leaves)) ++ le_bytes 4 0 ++ concat (leaf_entry_bytes <$> leaves).

(** ** Decoding *)

(** The next [n] bytes, and the rest. *)
Definition take_field (n : Z) (data : bytes) : io (bytes * bytes) :=
  if zlen data <? n then Err IoInvalidData else mret (take (Z.to_nat n) data, drop (Z.to_nat n) data).

Definition read_cid (data : bytes) : io (ContentId * bytes) :=
  '(len, data) ← take_field 2 data;
  '(raw, data) ← take_field (le_int len) data;
  cid ← ok_or IoInvalidData (cid_from_bytes raw);
  mret (cid, data).

Definition read_leaf_entry (data : bytes) : io (LeafEntry ContentId * bytes) :=
  '(first, data) ← take_field RECORD_V2_WIRE_SIZE data;
  '(last, data) ← take_field RECORD_V2_WIRE_SIZE data;
  '(rows, data) ← take_field 8 data;
  '(leaf_cid, data) ← read_cid data;
  '(has_sidecar, data) ← take_field 1 data;
  '(sidecar_cid, data) ← (if le_int has_sidecar =? 0 then mret (None, data)
                          else '(sc, data) ← read_cid data; mret (Some sc, data));
  mret (mkLeafEntry (read_run_le first) (read_run_le last) (le_int rows) leaf_cid sidecar_cid, data).

Fixpoint read_leaf_entries (n : nat) (data : bytes) : io (list (LeafEntry ContentId)) :=
  match n with
  | O => mret []
  | S n => '(leaf, data) ← read_leaf_entry data; leaves ← read_leaf_entries n data; mret (leaf :: leaves)
  end.

Definition read_branch_from_bytes (data : bytes) : io (list (LeafEntry ContentId)) :=
  if zlen data <? BRANCH_V3_HEADER_LEN then Err IoInvalidData
  else if negb (bool_decide (slice data 0 4 = BRANCH_V3_MAGIC)) then Err IoInvalidData
  else if negb (le_int (slice data 4 5) =? BRANCH_V3_VERSION) then Err IoInvalidData
  else read_leaf_entries (Z.to_nat (le_int (slice data 8 12))) (drop 16 data).

Definition read_branch_order (data : bytes) : io RunSortOrder :=
  if zlen data <? BRANCH_V3_HEADER_LEN then Err IoInvalidData
  else if negb (bool_decide (slice data 0 4 = BRANCH_V3_MAGIC)) then Err IoInvalidData
  else ok_or IoInvalidData (order_from_u8 (le_int (slice data 5 6))).

Definition read_branch_g_id (data : bytes) : io Z :=
  if zlen data <? BRANCH_V3_HEADER_LEN then Err IoInvalidData
  else if negb (bool_decide (slice data 0 4 = BRANCH_V3_MAGIC)) then Err IoInvalidData
  else mret (le_int (slice data 6 8)).
End codec.

(** ** Round trip *)

Lemma take_field_app n (a b : bytes) : zlen a = n -> take_field n (a ++ b) = Ok (a, b).
Proof.
  intros <-. unfold take_field. rewrite zlen_app. pose proof (zlen_nonneg b). destruct (Z.ltb_spec (zlen a + zlen b) (zlen a)); [lia|].
  unfold zlen. by rewrite Nat2Z.id, take_app_length, drop_app_length.
Qed.

Section roundtrip.
Context `{CL : CidLib, CLL : !CidLaws}.

Lemma read_cid_field cid rest : read_cid (cid_field cid ++ rest) = Ok (cid, rest).
Proof.
  pose proof (cid_bytes_len cid). pose proof (zlen_nonneg (cid_to_bytes cid)).
  unfold read_cid, cid_field. rewrite <- app_assoc, (take_field_app 2) by done. cbn [mbind outcome_bind].
  rewrite as_u_id, le_int_bytes by (unfold in_u; cbn; lia). rewrite take_field_app by done. cbn [mbind outcome_bind].
  by rewrite cid_roundtrip.
Qed.

(** What the manifest keeps of an entry. *)
Definition stored_entry (leaf : LeafEntry ContentId) : LeafEntry ContentId :=
  mkLeafEntry (drop_graph (le_first_key leaf)) (drop_graph (le_last_key leaf)) (le_row_count leaf) (le_leaf_cid leaf) (le_sidecar_cid leaf).

Definition entry_wf (leaf : LeafEntry ContentId) : Prop :=
  rr_wf (le_first_key leaf) /\ rr_wf (le_last_key leaf) /\ in_u 64 (le_row_count leaf).

Lemma read_leaf_entry_bytes leaf rest : entry_wf leaf -> read_leaf_entry (leaf_entry_bytes leaf ++ rest) = Ok (stored_entry leaf, rest).
Proof.
  intros (Hf & Hl & Hr). destruct (record_roundtrip _ 0 Hf) as (Ef & _ & _ & Zf & _). destruct (record_roundtrip _ 0 Hl) as (El & _ & _ & Zl & _).
  unfold read_leaf_entry, leaf_entry_bytes. rewrite <- !app_assoc.
  rewrite take_field_app by done. cbn [mbind outcome_bind]. rewrite take_field_app by done. cbn [mbind outcome_bind].
  rewrite (take_field_app 8) by done. cbn [mbind outcome_bind]. rewrite read_cid_field. cbn [mbind outcome_bind].
  rewrite Ef, El, le_int_bytes by done. unfold stored_entry. destruct (le_sidecar_cid leaf) as [sc|].
  - rewrite <- app_assoc, (take_field_app 1) by done. cbn [mbind outcome_bind]. change (le_int [1] =? 0) with false. cbn iota.
    by rewrite read_cid_field.
  - by rewrite (take_field_app 1) by done.
Qed.

Lemma read_entries_bytes leaves : Forall entry_wf leaves ->
  read_leaf_entries (length leaves) (concat (leaf_entry_bytes <$> leaves)) = Ok (stored_entry <$> leaves).
Proof.
  induction 1 as [|leaf leaves Hl Hls IH]; [done|]. cbn [length read_leaf_entries]. rewrite fmap_cons, concat_cons.
  rewrite read_leaf_entry_bytes by done. cbn [mbind outcome_bind]. by rewrite IH.
Qed.

(** Reading back the manifest that was built gives its order, its graph and its
    leaf entries, whose keys are without their graph. *)
Theorem branch_roundtrip o g_id leaves :
  Forall entry_wf leaves -> in_u 16 g_id -> zlen leaves < 2 ^ 32 ->
  let data := build_branch_bytes o g_id leaves in
  read_branch_from_bytes data = Ok (stored_entry <$> leaves) /\ read_branch_order data = Ok o /\ read_branch_g_id data = Ok g_id.
Proof.
  intros Hwf Hg Hn data. pose proof (zlen_nonneg leaves).
  assert (exists b6 b7 b8 b9 b10 b11, le_bytes 2 g_id = [b6; b7] /\ le_bytes 4 (as_u 32 (zlen leaves)) = [b8; b9; b10; b11])
    as (b6 & b7 & b8 & b9 & b10 & b11 & E2 & E4) by (do 6 eexists; split; reflexivity).
  assert (data = BRANCH_V3_MAGIC ++ [BRANCH_V3_VERSION; order_to_wire_id o; b6; b7; b8; b9; b10; b11; 0; 0; 0; 0]
            ++ concat (leaf_entry_bytes <$> leaves)) as Ed by (unfold data, build_branch_bytes; by rewrite E2, E4).
  assert ((zlen data <? BRANCH_V3_HEADER_LEN) = false) as Hlen.
  { rewrite Ed, !zlen_app. pose proof (zlen_nonneg (concat (leaf_entry_bytes <$> leaves))). apply Z.ltb_ge.
    change (16 <= 4 + (12 + zlen (concat (leaf_entry_bytes <$> leaves)))). lia. }
  unfold read_branch_from_bytes, read_branch_order, read_branch_g_id. rewrite Hlen.
  assert (slice data 0 4 = BRANCH_V3_MAGIC) as -> by by rewrite Ed. rewrite (bool_decide_eq_true_2 _ eq_refl). cbn [negb].
  assert (slice data 4 5 = [BRANCH_V3_VERSION]) as -> by by rewrite Ed.
  assert (slice data 8 12 = le_bytes 4 (as_u 32 (zlen leaves))) as -> by (rewrite Ed, E4; done).
  assert (slice data 5 6 = [order_to_wire_id o]) as -> by by rewrite Ed.
  assert (slice data 6 8 = le_bytes 2 g_id) as -> by (rewrite Ed, E2; done).
  assert (drop 16 data = concat (leaf_entry_bytes <$> leaves)) as -> by by rewrite Ed.
  rewrite as_u_id, !le_int_bytes by (done || unfold in_u; cbn; lia). rewrite zlen_to_nat, read_entries_bytes by done.
  assert (forall x, le_int [x] = x) as H1 by (intros x; cbn; lia). rewrite !H1, order_wire_roundtrip. done.
Qed.
End roundtrip.

(** ** Routing *)

Section routing.
Context {C : Type} (o : RunSortOrder) (leaves : list (LeafEntry C)).
Notation cmp := (cmp_v2_for_order o).

(** Leaves in key order, with disjoint key ranges. *)
Record branch_sorted : Prop := {
  bs_ranges : Forall (fun e => cmp (le_first_key e) (le_last_key e) <> Gt) leaves;
  bs_order : StronglySorted (fun a b => run_lt o (le_last_key a) (le_first_key b)) leaves;
}.

Definition leaf_covers (e : LeafEntry C) (key : RunRecordV2) : Prop := cmp (le_first_key e) key <> Gt /\ cmp key (le_last_key e) <> Gt.

Context (Hs : branch_sorted).

Lemma ranges_apart i j a b : leaves !! i = Some a -> leaves !! j = Some b -> (i < j)%nat -> run_lt o (le_last_key a) (le_first_key b).
Proof. intros. by eapply (sorted_lookup _ _ i j a b (bs_order Hs)). Qed.

Lemma range_le i a : leaves !! i = Some a -> cmp (le_first_key a) (le_last_key a) <> Gt.
Proof. intros H. by apply (Forall_lookup_1 _ _ _ _ (bs_ranges Hs) H). Qed.

Lemma firsts_before i j a b : leaves !! i = Some a -> leaves !! j = Some b -> (i < j)%nat -> run_lt o (le_first_key a) (le_first_key b).
Proof.
  intros Hi Hj Hij. apply (cmp_le_lt (P := everything) _ (le_last_key a)); try done; [by eapply range_le|by eapply ranges_apart].
Qed.

Lemma lasts_before i j a b : leaves !! i = Some a -> leaves !! j = Some b -> (i < j)%nat -> run_lt o (le_last_key a) (le_last_key b).
Proof.
  intros Hi Hj Hij. apply (cmp_lt_le (P := everything) _ (le_first_key b)); try done; [by eapply ranges_apart|by eapply range_le].
Qed.

(** The leaves that start no later than a key. *)
Lemma starts_by key i e : leaves !! i = Some e ->
  (i < partition_point (fun e => negb (is_Gt (cmp (le_first_key e) key))) leaves)%nat <-> cmp (le_first_key e) key <> Gt.
Proof.
  intros Hi. rewrite (partition_point_lookup _ leaves) with (x := e); [by destruct (cmp (le_first_key e) key)| |exact Hi].
  intros a b x y Ha Hb Hab Hy. assert (cmp (le_first_key x) key <> Gt) as H; [|by destruct (cmp (le_first_key x) key)].
  apply (cmp_le_trans (P := everything) _ (le_first_key y)); try done.
  - pose proof (firsts_before _ _ _ _ Ha Hb Hab) as E. unfold run_lt in E. by rewrite E.
  - by destruct (cmp (le_first_key y) key).
Qed.

Lemma find_leaf_spec key : exists r, find_leaf leaves key o = Ok r /\ forall e, r = Some e <-> e ∈ leaves /\ leaf_covers e key.
Proof.
  unfold find_leaf. destruct leaves as [|l0 ls] eqn:El; [exists None; split; [done|set_solver]|]. rewrite <- El in *.
  destruct (partition_point (fun e => negb (is_Gt (cmp (le_first_key e) key))) leaves) as [|idx] eqn:Ei.
  - exists None. split; [done|]. intros e. split; [done|]. intros [He [Hf _]]. apply list_elem_of_lookup in He as [i Hi].
    apply (starts_by key i e Hi) in Hf. lia.
  - pose proof (partition_point_le (fun e => negb (is_Gt (cmp (le_first_key e) key))) leaves) as Hle.
    destruct (lookup_lt_is_Some_2 leaves idx ltac:(lia)) as [cand Hc]. rewrite Hc. eexists. split; [done|].
    assert (cmp (le_first_key cand) key <> Gt) as Hfc by (apply (starts_by key idx cand Hc); lia).
    assert (forall e, e ∈ leaves -> leaf_covers e key -> e = cand) as Huniq.
    { intros e He [Hf Hl]. apply list_elem_of_lookup in He as [i Hi]. apply (starts_by key i e Hi) in Hf.
      destruct (decide (i = idx)) as [->|Hne]; [congruence|]. exfalso. apply Hl.
      apply (cmp_gt_lt (P := everything)); [done|done|].
      apply (cmp_lt_le (P := everything) _ (le_first_key cand)); try done. eapply (ranges_apart i idx); [done|done|lia]. }
    intros e. split.
    + destruct (is_Gt _) eqn:Eg; [done|]. intros [= <-]. split; [by eapply list_elem_of_lookup_2|]. split; [done|].
      intros E. by rewrite E in Eg.
    + intros [He Hcov]. pose proof (Huniq e He Hcov) as ->. destruct Hcov as [_ Hl].
      destruct (cmp_v2_for_order o key (le_last_key cand)) eqn:E; done.
Qed.

Lemma find_range_spec min_key max_key i e : leaves !! i = Some e ->
  (let '(a, b) := find_leaves_in_range leaves min_key max_key o in (a <= i < b)%nat) <->
  cmp (le_last_key e) min_key <> Lt /\ cmp (le_first_key e) max_key <> Gt.
Proof.
  intros Hi. unfold find_leaves_in_range. destruct leaves as [|l0 ls] eqn:El; [done|]. rewrite <- El in *.
  rewrite <- (starts_by max_key i e Hi). rewrite Nat.le_ngt.
  rewrite (partition_point_lookup (fun e => is_Lt (cmp (le_last_key e) min_key)) leaves) with (x := e);
    [destruct (cmp (le_last_key e) min_key); naive_solver| |exact Hi].
  intros a b x y Ha Hb Hab Hy. assert (run_lt o (le_last_key x) min_key) as E; [|unfold run_lt in E; by rewrite E].
  apply (run_lt_trans o _ (le_last_key y)); [by eapply lasts_before|]. unfold run_lt. by destruct (cmp (le_last_key y) min_key).
Qed.

Lemma spot_subject_le a b : o = RSpot -> cmp a b <> Gt -> rr_s_id a <= rr_s_id b.
Proof. intros ->. cbn. unfold cmp_v2_spot. destruct (Z.compare_spec (rr_s_id a) (rr_s_id b)); cbn; [lia|lia|done]. Qed.

Lemma find_subject_spec s i e : o = RSpot -> leaves !! i = Some e ->
  (let '(a, b) := find_leaves_for_subject leaves s in (a <= i < b)%nat) <-> rr_s_id (le_first_key e) <= s <= rr_s_id (le_last_key e).
Proof.
  intros Ho Hi. unfold find_leaves_for_subject. destruct leaves as [|l0 ls] eqn:El; [done|]. rewrite <- El in *.
  assert (forall x y, run_lt o x y -> rr_s_id x <= rr_s_id y) as Hlt.
  { intros x y Hxy. apply spot_subject_le; [done|]. unfold run_lt in Hxy. by rewrite Hxy. }
  rewrite Nat.le_ngt. rewrite (partition_point_lookup (fun e => rr_s_id (le_last_key e) <? s) leaves) with (x := e); [| |exact Hi].
  - rewrite (partition_point_lookup (fun e => rr_s_id (le_first_key e) <=? s) leaves) with (x := e); [lia| |exact Hi].
    intros a b x y Ha Hb Hab Hy. pose proof (Hlt _ _ (firsts_before _ _ _ _ Ha Hb Hab)). lia.
  - intros a b x y Ha Hb Hab Hy. pose proof (Hlt _ _ (lasts_before _ _ _ _ Ha Hb Hab)). lia.
Qed.
End routing.

(** C27: on a branch whose leaves have disjoint key ranges in order, the binary
    searches never panic and are exact: [find_leaf] returns the one leaf whose
    range holds the key, the range search the leaves whose range meets the key
    range, and in subject order the subject search those that may hold the
    subject. *)
Theorem branch_routing {C} o (leaves : list (LeafEntry C)) :
  branch_sorted o leaves ->
  (forall key, exists r, find_leaf leaves key o = Ok r /\ forall e, r = Some e <-> e ∈ leaves /\ leaf_covers o e key) /\
  (forall min_key max_key i e, leaves !! i = Some e ->
    (let '(a, b) := find_leaves_in_range leaves min_key max_key o in (a <= i < b)%nat) <->
    cmp_v2_for_order o (le_last_key e) min_key <> Lt /\ cmp_v2_for_order o (le_first_key e) max_key <> Gt) /\
  (o = RSpot -> forall s i e, leaves !! i = Some e ->
    (let '(a, b) := find_leaves_for_subject leaves s in (a <= i < b)%nat) <->
    rr_s_id (le_first_key e) <= s <= rr_s_id (le_last_key e)).
Proof.
  intros Hs. split_and!.
  - by apply find_leaf_spec.
  - intros. by apply find_range_spec.
  - intros. by eapply find_subject_spec.
Qed.
