(* ===== verification/IndexPlain.v ===== *)
(** * Sample leaflets

    A leaflet built with one fact and merged twice, the properties of the index
    files at it, and merges and replays that do not do what the code means. *)
From stdpp Require Import base list numbers sorting gmap.
From Stdlib Require Import ZArith Lia.
From S2P Require Import Prelude Bytes Cmp Segment PlainNovelty RunRecord Columns HistorySidecar IndexLog NoveltyMerge.
From S2P Require Import MergeLaws Replay ReplayLaws TimeTravel Leaflet LeafBlob LeafUpdate LeafUpdateLaws IndexFilter Overlay.
From S2P Require Import Cursor CursorLaws CursorStored KWayMerge LeafWriter IndexBuild Branch.

Local Open Scope Z_scope.

#[export] Instance PlainStates : StatesOrder := fun m => map_to_list m.
#[export] Instance PlainStatesLaws : StatesOrderLaws.
Proof. by intros m. Qed.

(** Subject [s] with one integer property, asserted or retracted at [t]. *)
Definition ix (s t : Z) : RunRecordV2 := mkRun s 10 1 t u32_max 3 0.

Definition ix_built : ColumnBatch := batch_of_rows [ix 1 1].
Definition ix_nov1 : list nov_op := [(ix 2 2, 1); (ix 3 2, 1)].
Definition ix_nov2 : list nov_op := [(ix 2 3, 0); (ix 3 4, 1)].

Definition ix_merge (b : ColumnBatch) (hist : list HistEntryV2) (nov : list nov_op) : MergeOutput :=
  match merge_novelty b hist nov.*1 nov.*2 RSpot with Ok out => out | _ => mkMergeOutput [] [] end.
Definition ix_save (es : list HistEntryV2) : bytes * HistorySegmentRef :=
  let '(data, segs) := sidecar_build [es] in (data, default (mkSegRef 0 0 0 0) (head segs)).
Definition ix_load (es : list HistEntryV2) : list HistEntryV2 :=
  match decode_history_segment (ix_save es).1 (ix_save es).2 with Ok l => l | _ => [] end.

Definition ix_out1 : MergeOutput := ix_merge ix_built [] ix_nov1.
Definition ix_b1 : ColumnBatch := batch_of_rows (mo_records ix_out1).
Definition ix_hist1 : list HistEntryV2 := ix_load (mo_history ix_out1).
Definition ix_out2 : MergeOutput := ix_merge ix_b1 ix_hist1 ix_nov2.
Definition ix_b2 : ColumnBatch := batch_of_rows (mo_records ix_out2).
Definition ix_hist2 : list HistEntryV2 := ix_load (mo_history ix_out2).

Definition ix_log0 : list HistEntryV2 := build_log [ix 1 1].
Definition ix_log1 : list HistEntryV2 := extend_log ix_log0 ix_nov1.
Definition ix_log2 : list HistEntryV2 := extend_log ix_log1 ix_nov2.

Definition ix_entry : HistoryDir :=
  let seg := (ix_save ix_hist2).2 in mkHistoryDir (sr_offset seg) (sr_len seg) (sr_min_t seg) (sr_max_t seg).

(** The batch read at a transaction: subjects and times. *)
Definition shown (b : ColumnBatch) : list (Z * Z) :=
  match column_batch_to_records b with Ok rows => (fun r => (rr_s_id r, rr_t r)) <$> rows | _ => [] end.
Definition ix_read (T : Z) : option (list (Z * Z)) :=
  match replay_leaflet_at_t ix_b2 ix_entry (Some (ix_save ix_hist2).1) T RSpot with
  | Ok res => Some (shown (default ix_b2 res))
  | _ => None
  end.

Example ix_reads :
  (ix_read 0, ix_read 1, ix_read 2, ix_read 3, ix_read 4) =
  (Some [], Some [(1, 1)], Some [(1, 1); (2, 2); (3, 2)], Some [(1, 1); (3, 2)], Some [(1, 1); (3, 4)]).
Proof. vm_compute. reflexivity. Qed.

(** ** Deciding the hypotheses on samples *)

Lemma ix_saved es :
  leaflet_fits es -> zlen (ix_save es).1 <= isize_max -> saved es (ix_save es).1 (ix_save es).2.
Proof.
  intros Hf Hz. unfold ix_save in *. destruct (sidecar_build [es]) as [data segs] eqn:E. cbn [fst snd] in *.
  exists [es], segs, 0%nat. split_and!; try done; [by constructor|].
  unfold sidecar_build in E. cbn [build_segments] in E. destruct (build_segment sidecar_header es) as [d sg]. apply pair_eq in E as [_ <-]. done.
Qed.

Lemma run_sorted_1 o a : StronglySorted (run_lt o) [a].
Proof. repeat constructor. Qed.

Lemma run_sorted_2 o a b : cmp_v2_for_order o a b = Lt -> StronglySorted (run_lt o) [a; b].
Proof. intros H. repeat constructor. done. Qed.

Lemma fits_of es : Forall he_wf es -> (length es <= 100)%nat -> leaflet_fits es.
Proof. intros H Hl. split; [done|]. unfold HIST_ENTRY_V2_SIZE, zlen. lia. Qed.

Ltac ix_wf := repeat constructor; vm_compute; done.

Ltac ix_cases :=
  repeat match goal with
  | H : _ ∈ _ :: _ |- _ => apply elem_of_cons in H as [->|H]
  | H : _ ∈ [] |- _ => by apply not_elem_of_nil in H
  end.

Lemma ix_events0 : ix_log0 = [record_to_hist_entry (ix 1 1) 1].
Proof. vm_compute. reflexivity. Qed.
Lemma ix_events1 :
  ix_log1 = [record_to_hist_entry (ix 1 1) 1; record_to_hist_entry (ix 2 2) 1; record_to_hist_entry (ix 3 2) 1].
Proof. vm_compute. reflexivity. Qed.

Lemma ix_head1 : head ix_hist1 = Some (record_to_hist_entry (ix 2 2) 1).
Proof. vm_compute. reflexivity. Qed.

Lemma ix_valid1 : valid_novelty RSpot ix_log0 ix_log0 [] ix_nov1.
Proof.
  rewrite ix_events0. split.
  - by apply run_sorted_2.
  - intros i Hi. unfold ix_nov1 in Hi. ix_cases; by left.
  - intros e i He Hi. unfold ix_nov1 in Hi. ix_cases; done.
  - intros e i He Hi. unfold ix_nov1 in Hi. ix_cases; done.
  - done.
Qed.

Lemma ix_valid2 : valid_novelty RSpot ix_log1 ix_log0 ix_hist1 ix_nov2.
Proof.
  rewrite ix_events0, ix_events1. split.
  - by apply run_sorted_2.
  - intros i Hi. unfold ix_nov2 in Hi. ix_cases; [right|by left]. split; [done|]. vm_compute. eauto.
  - intros e i He Hi. unfold ix_nov2 in Hi. ix_cases; done.
  - intros e i He Hi. unfold ix_nov2 in Hi. ix_cases; done.
  - rewrite ix_head1. intros e i [= <-] _ Hi Hop. unfold ix_nov2 in Hi. ix_cases; done.
Qed.

Lemma ix_history : index_history RSpot ix_log2 ix_log0 ix_b2 ix_hist2.
Proof.
  assert (forall out, Forall he_wf (mo_history out) -> (length (mo_history out) <= 100)%nat ->
    zlen (ix_save (mo_history out)).1 <= isize_max ->
    saved (mo_history out) (ix_save (mo_history out)).1 (ix_save (mo_history out)).2) as Hsv.
  { intros out Hw Hl Hz. by apply ix_saved; [apply fits_of|]. }
  apply (ih_merge RSpot ix_log1 ix_log0 ix_b1 ix_hist1 ix_nov2 ix_out2 ix_b2
           (ix_save (mo_history ix_out2)).1 (ix_save (mo_history ix_out2)).2).
  - apply (ih_merge RSpot ix_log0 ix_log0 ix_built [] ix_nov1 ix_out1 ix_b1
           (ix_save (mo_history ix_out1)).1 (ix_save (mo_history ix_out1)).2).
    + apply (ih_build RSpot [ix 1 1]); [apply run_sorted_1|]. apply batch_of_rows_holds.
    + apply ix_valid1.
    + vm_compute. reflexivity.
    + apply batch_of_rows_holds.
    + apply Hsv; [ix_wf|vm_compute; lia|vm_compute; done].
    + vm_compute. reflexivity.
  - apply ix_valid2.
  - vm_compute. reflexivity.
  - apply batch_of_rows_holds.
  - apply Hsv; [ix_wf|vm_compute; lia|vm_compute; done].
  - vm_compute. reflexivity.
Qed.

Lemma ix_stored : stored ix_hist2 ix_entry (Some (ix_save ix_hist2).1).
Proof.
  right. exists (ix_save ix_hist2).1. split; [done|].
  assert (saved ix_hist2 (ix_save ix_hist2).1 (ix_save ix_hist2).2) as H; [|exact H].
  apply ix_saved; [apply fits_of; [ix_wf|vm_compute; lia]|vm_compute; done].
Qed.

Lemma ix_leaflet1 : leaflet_of RSpot ix_log0 ix_log0 [ix 1 1] [].
Proof. apply build_leaflet, run_sorted_1. Qed.


Lemma merge_keeps_leaflet_witness :
  exists out, merge_novelty ix_built [] ix_nov1.*1 ix_nov1.*2 RSpot = Ok out /\
    leaflet_of RSpot (extend_log ix_log0 ix_nov1) ix_log0 (mo_records out) (mo_history out).
Proof.
  apply (merge_keeps_leaflet RSpot ix_log0 ix_log0 [ix 1 1] [] ix_nov1 ix_built).
  - exact ix_leaflet1.
  - apply (batch_of_rows_holds [ix 1 1]).
  - exact ix_valid1.
Defined.

Lemma ordered_key_memcmp_witness :
  cmp_ordered_key_v2 (write_ordered_key_v2 RPost (ix 300 1)) (write_ordered_key_v2 RPost (ix 7 2))
  = cmp_v2_for_order RPost (ix 300 1) (ix 7 2) /\
  (write_ordered_key_v2 RPost (ix 300 1) = write_ordered_key_v2 RPost (ix 7 2)
   <-> same_identity_v2 (ix 300 1) (ix 7 2) = true).
Proof. apply (ordered_key_memcmp RPost (ix 300 1) (ix 7 2)); ix_wf. Defined.

Lemma sidecar_roundtrip_witness :
  let '(data, segs) := sidecar_build [ix_hist2; []; ix_hist1] in
  length segs = 3%nat /\
  forall i es, [ix_hist2; []; ix_hist1] !! i = Some es -> exists seg, segs !! i = Some seg /\ seg_holds data seg es.
Proof.
  destruct (sidecar_build [ix_hist2; []; ix_hist1]) as [data segs] eqn:E.
  apply (sidecar_roundtrip [ix_hist2; []; ix_hist1] data segs).
  - repeat constructor; vm_compute; done.
  - exact E.
  - assert (data = (sidecar_build [ix_hist2; []; ix_hist1]).1) as -> by by rewrite E. vm_compute. done.
Defined.

(** ** Where the code does not do what it means *)

Definition read_hist (b : ColumnBatch) (hist : list HistEntryV2) (T : Z) : option (list (Z * Z)) :=
  match replay_leaflet b hist T RSpot with
  | Ok res => Some (shown (default b res))
  | _ => None
  end.

Definition read_after (out : MergeOutput) (T : Z) : option (list (Z * Z)) :=
  read_hist (batch_of_rows (mo_records out)) (mo_history out) T.

(** A fact asserted and then retracted between two index runs: the merge gets
    both operations and keeps a row. *)
Lemma same_window_retract_survives :
  mo_records (ix_merge batch_empty [] [(ix 5 2, 1); (ix 5 3, 0)]) = [ix 5 2].
Proof. vm_compute. reflexivity. Qed.

(** Retracting a row of a full build loses the time of its assertion: the fact
    shows before it was asserted, with the time of its retraction. *)
Lemma retracted_built_row_predates :
  read_after (ix_merge (batch_of_rows [ix 1 3]) [] [(ix 1 5, 0)]) 2 = Some [(1, 5)].
Proof. vm_compute. reflexivity. Qed.

(** Re-asserting the newest fact of the history drops its first assertion. *)
Lemma reassert_forgets_first :
  let first := ix_merge batch_empty [] [(ix 1 2, 1)] in
  let second := ix_merge (batch_of_rows (mo_records first)) (mo_history first) [(ix 1 4, 1)] in
  mo_history second = [record_to_hist_entry (ix 1 4) 0; record_to_hist_entry (ix 1 4) 1] /\
  read_after second 1 = Some [(1, 4)].
Proof. vm_compute. done. Qed.

(** A retract of an absent fact is recorded, and undone as if it had been
    present. *)
Lemma absent_retract_shows :
  read_after (ix_merge batch_empty [] [(ix 1 5, 0)]) 4 = Some [(1, 5)].
Proof. vm_compute. reflexivity. Qed.

(** Before the first transaction [replay_leaflet] shows nothing and
    [replay_leaflet_at_t] everything. *)
Lemma negative_target_shows_all :
  read_hist ix_built [] (-1) = Some [] /\
  replay_leaflet_at_t ix_built (mkHistoryDir 0 0 0 0) None (-1) RSpot = Ok None.
Proof. vm_compute. done. Qed.

(** The cursor leaves rows after its target in a leaflet whose history segment
    is empty; the shared helper filters them. *)
Lemma cursor_ignores_empty_segment :
  let '(data, seg) := ix_save [] in
  let entry := mkHistoryDir (sr_offset seg) (sr_len seg) (sr_min_t seg) (sr_max_t seg) in
  let b := batch_of_rows [ix 1 1; ix 2 5] in
  (shown <$> cursor_replay b entry (Some data) 3 RSpot = Ok [(1, 1); (2, 5)]) /\
  ((fun r => shown (default b r)) <$> replay_leaflet_at_t b entry (Some data) 3 RSpot = Ok [(1, 1)]).
Proof. vm_compute. done. Qed.

(** ** Sample leaves

    A compressor that stores its input, a leaf of two leaflets built with it and
    updated, the properties of the leaf format at them, and a leaflet no update
    can extend. *)

#[export] Instance PlainColumnZstd : ColumnZstd := {|
  zstd_bulk_compress bs level := Some bs;
  zstd_bulk_decompress c cap := if zlen c <=? cap then Some c else None;
|}.

#[export] Instance PlainColumnZstdLaws : ColumnZstdLaws.
Proof.
  intros bs level c cap [= <-] H. cbn. by case_Z.
Qed.

(** Two leaflets in predicate order. *)
Definition lx (s p t : Z) : RunRecordV2 := mkRun s 10 p t u32_max 3 0.

Definition lx_rows1 : list RunRecordV2 := [lx 1 7 1; lx 2 7 2; lx 3 7 1].
Definition lx_rows2 : list RunRecordV2 := [lx 1 8 2; lx 5 8 2].

Definition lx_encoded (rows : list RunRecordV2) : EncodedLeaflet :=
  match encode_leaflet rows RPsot 3 with Ok e => e | _ => mkEncoded 0 0 [] [] None None 0 [] [] end.
Definition lx_leaflets : list EncodedLeaflet := [lx_encoded lx_rows1; lx_encoded lx_rows2].
Definition lx_first : bytes := write_ordered_key_v2 RPsot (lx 1 7 1).
Definition lx_last : bytes := write_ordered_key_v2 RPsot (lx 5 8 2).
Definition lx_leaf : bytes := build_leaf_blob_raw_keys RPsot lx_leaflets [] lx_first lx_last.

Definition lx_dir : DecodedLeafDirV3 :=
  match (header ← decode_leaf_header_v3 lx_leaf; decode_leaf_dir_v3_with_base lx_leaf header) with
  | Ok d => d
  | _ => mkDecodedDir [] 0
  end.

Lemma rows_ok_of rows p :
  Forall (fun r => rr_wf r /\ rr_p_id r = p) rows -> (length rows <= 100)%nat -> leaflet_rows_ok RPsot rows.
Proof.
  intros H Hl. apply Forall_and in H as [Hw Hp]. split; [done|unfold zlen; lia| |by intros [=]].
  rewrite Forall_forall in Hp. intros _ a b Ha Hb. by rewrite (Hp a), (Hp b).
Qed.

Lemma leaf_roundtrip_witness :
  exists dir, (header ← decode_leaf_header_v3 lx_leaf; decode_leaf_dir_v3_with_base lx_leaf header) = Ok dir /\
    length (dd_entries dir) = 2%nat /\
    forall i rs, [lx_rows1; lx_rows2] !! i = Some rs -> exists entry b,
      dd_entries dir !! i = Some entry /\
      load_leaflet_columns lx_leaf entry (dd_payload_base dir) cp_all = Ok b /\
      batch_holds b (drop_graph <$> rs) /\
      (exists first last_, head rs = Some first /\ last rs = Some last_ /\
         de_first_key entry = write_ordered_key_v2 RPsot first /\ de_last_key entry = write_ordered_key_v2 RPsot last_) /\
      mkSegRef (de_history_offset entry) (de_history_len entry) (de_history_min_t entry) (de_history_max_t entry)
      = seg_or_zero (([] : list HistorySegmentRef) !! i).
Proof.
  apply (leaf_roundtrip RPsot 3 [lx_rows1; lx_rows2] lx_leaflets [] lx_first lx_last).
  - repeat constructor.
  - constructor; [apply (rows_ok_of _ 7)|constructor; [apply (rows_ok_of _ 8)|constructor]]; ix_wf || (cbn; lia).
  - ix_wf.
  - constructor.
  - vm_compute. reflexivity.
  - vm_compute. reflexivity.
  - vm_compute. reflexivity.
  - vm_compute. reflexivity.
  - vm_compute. reflexivity.
Defined.

(** ** An update of the first leaflet *)

Definition lx_novelty : list nov_op := [(lx 4 7 4, 1); (lx 6 7 4, 1)].
Definition lx_input : LeafUpdateInput :=
  mkLeafUpdateInput lx_leaf lx_novelty.*1 lx_novelty.*2 RPsot 3 2 100 None.
Definition lx_no_entry : LeafletDirEntryV3 := mkDirEntry 0 0 [] [] None None 0 0 0 [] 0 0 0 0.
Definition lx_entry1 : LeafletDirEntryV3 := default lx_no_entry (head (dd_entries lx_dir)).
Definition lx_batch : ColumnBatch :=
  match load_leaflet_columns lx_leaf lx_entry1 (dd_payload_base lx_dir) cp_all with Ok b => b | _ => batch_empty end.
Definition lx_log : list HistEntryV2 := build_log lx_rows1.

Lemma lx_batch_holds : batch_holds lx_batch lx_rows1.
Proof. vm_compute. reflexivity. Qed.

Lemma lx_leaflet : leaflet_of RPsot lx_log lx_log lx_rows1 [].
Proof.
  apply build_leaflet. repeat constructor.
Qed.

Lemma lx_valid : valid_novelty RPsot lx_log lx_log [] lx_novelty.
Proof.
  assert (lx_log = (fun r => record_to_hist_entry r 1) <$> [lx 3 7 1; lx 1 7 1; lx 2 7 2]) as -> by (vm_compute; reflexivity).
  split.
  - by apply run_sorted_2.
  - intros i Hi. unfold lx_novelty in Hi. ix_cases; by left.
  - intros e i He Hi. unfold lx_novelty in Hi. cbn in He. ix_cases; done.
  - intros e i He Hi. unfold lx_novelty in Hi. cbn in He. ix_cases; done.
  - done.
Qed.

Lemma merge_and_encode_keeps_witness :
  exists ps, merge_and_encode_leaflet lx_input lx_entry1 (dd_payload_base lx_dir) lx_novelty.*1 lx_novelty.*2 = Ok ps /\
    processed_as 3 RPsot 2 lx_entry1 (extend_log lx_log lx_novelty) lx_log ps.
Proof.
  destruct (merge_and_encode_keeps 3 (fun bs => ltac:(by eexists)) lx_input lx_entry1 (dd_payload_base lx_dir) lx_batch lx_rows1 [] lx_log lx_log
    lx_novelty eq_refl ltac:(cbn; lia)) as [_ H].
  destruct H as [_ H]; [vm_compute; reflexivity|].
  exact (H lx_batch_holds eq_refl lx_leaflet lx_valid).
Defined.

(** The whole update: the first leaflet becomes three, the second is passed
    through. *)
Definition lx_updated : option (list (list Z)) :=
  match update_leaf lx_input with
  | Ok leaves => Some ((fun nl =>
      match (header ← decode_leaf_header_v3 (nl_leaf_bytes nl); decode_leaf_dir_v3_with_base (nl_leaf_bytes nl) header) with
      | Ok d => de_row_count <$> dd_entries d
      | _ => []
      end) <$> leaves)
  | _ => None
  end.

Example lx_update_splits : lx_updated = Some [[2; 2; 1; 2]].
Proof. vm_compute. reflexivity. Qed.

(** ** A leaflet no update can extend *)

(** When every row of a leaflet is retracted the update keeps a leaflet with a
    history and no columns; merging anything into it then fails, because the
    columns it needs are not there. *)
Lemma emptied_leaflet_stuck :
  let entry := entry_of (empty_encoded_leaflet_with_keys lx_entry1) 0 None in
  merge_and_encode_leaflet lx_input entry (dd_payload_base lx_dir) lx_novelty.*1 lx_novelty.*2 = Err IoInvalidData.
Proof. vm_compute. reflexivity. Qed.

(** ** Sample scans

    Two stored leaves, the properties of filters and cursors at them, and three
    overlays a cursor answers wrongly. *)

Definition cx_rows3 : list RunRecordV2 := [lx 1 9 2; lx 4 9 2].
Definition cx_leaf2 : bytes :=
  build_leaf_blob_raw_keys RPsot [lx_encoded cx_rows3] [] (write_ordered_key_v2 RPsot (lx 1 9 2))
    (write_ordered_key_v2 RPsot (lx 4 9 2)).

(** Blobs by number, indexed at time 2. *)
#[export] Instance PlainStore : LeafStore nat := {|
  store_max_t := 2;
  store_fetch n := match [lx_leaf; cx_leaf2] !! n with Some b => Ok b | None => Err IoInvalidData end;
|}.

Definition cx_leaves : list (LeafEntry nat) :=
  [mkLeafEntry (lx 1 7 1) (lx 5 8 2) 5 0%nat None; mkLeafEntry (lx 1 9 2) (lx 4 9 2) 2 1%nat None].
Definition cx_rows : list (list (list RunRecordV2)) := [[lx_rows1; lx_rows2]; [cx_rows3]].
Definition ox (s p t : Z) (op : bool) : OverlayOp := mkOverlay s p 3 10 u32_max t op.
Definition no_filter : BinaryFilter := mkFilter None None None None None.
Definition subjects_filter (s : Z) : BinaryFilter := mkFilter (Some s) None None None None.

Ltac sorted_rows := repeat (constructor; [|repeat (constructor; [vm_compute; reflexivity|]); constructor]); constructor.

(** ** Filters *)

Lemma filter_exact_witness :
  (exists b', filter_batch (mkFilter (Some 2) (Some 7) None None None) lx_batch RPsot = Ok b' /\ batch_holds b' [lx 2 7 2]) /\
  leaflet_out_of_range (mkFilter None (Some 9) None None None) RPsot lx_first lx_last = true /\
  List.filter (matches_row (mkFilter None (Some 9) None None None)) lx_rows1 = [].
Proof.
  assert (StronglySorted (run_lt RPsot) lx_rows1) as Hs by sorted_rows.
  destruct (filter_exact (mkFilter (Some 2) (Some 7) None None None) lx_batch RPsot lx_rows1 lx_batch_holds Hs) as [(b' & H1 & H2) _].
  split; [exists b'; split; [exact H1|exact H2]|]. split; [vm_compute; reflexivity|].
  apply (proj1 (proj2 (filter_exact (mkFilter None (Some 9) None None None) lx_batch RPsot lx_rows1 lx_batch_holds Hs)) (lx 1 7 1) (lx 3 7 1));
    try reflexivity; ix_wf.
Defined.

(** ** Scans *)

Definition cx_ops : list OverlayOp := [ox 2 7 5 false; ox 4 7 5 true; ox 3 8 5 true; ox 2 9 5 true; ox 9 9 5 true].

Lemma cx_stored : Forall2 (stored_leaf RPsot) cx_leaves cx_rows.
Proof.
  constructor; [|constructor; [|constructor]].
  - exists lx_leaf. split; [reflexivity|]. split.
    + exists 3, lx_leaflets, [], lx_first, lx_last. split_and!; [repeat constructor|constructor|vm_compute; reflexivity..].
    + constructor; [apply (rows_ok_of _ 7)|constructor; [apply (rows_ok_of _ 8)|constructor]]; ix_wf || (cbn; lia).
    + ix_wf.
    + vm_compute. reflexivity.
  - exists cx_leaf2. split; [reflexivity|]. split.
    + exists 3, [lx_encoded cx_rows3], [], (write_ordered_key_v2 RPsot (lx 1 9 2)), (write_ordered_key_v2 RPsot (lx 4 9 2)).
      split_and!; [repeat constructor|constructor|vm_compute; reflexivity..].
    + constructor; [apply (rows_ok_of _ 9)|constructor]; ix_wf || (cbn; lia).
    + ix_wf.
    + vm_compute. reflexivity.
Qed.

Lemma cx_no_gap : no_gap RPsot cx_ops cx_rows.
Proof.
  intros [|[|i]] rss rss' a b ov Hi Hj Ha Hb Hov; [|done|done]. injection Hi as <-. injection Hj as <-.
  vm_compute in Ha, Hb. injection Ha as <-. injection Hb as <-. unfold cx_ops in Hov. repeat (apply elem_of_cons in Hov as [->|Hov]; [by vm_compute|]).
  by apply not_elem_of_nil in Hov.
Qed.

Lemma scan_exact_witness :
  let '(c, st) := set_to_t (set_overlay_ops (scan_all RPsot cx_leaves no_filter cp_all) cx_ops) 5 in
  exists bs outs, scans c st bs /\ Forall2 batch_holds bs outs /\ StronglySorted (run_lt RPsot) (concat outs) /\
    forall x, x ∈ concat outs <->
      (exists r, x = drop_graph r /\ r ∈ concat (concat cx_rows) /\ matches_row no_filter r = true /\
         forall ov, ov ∈ cx_ops -> ov_key ov <> rr_key r) \/
      (exists ov, x = push_overlay_row ov /\ ov ∈ cx_ops /\ ov_op ov = true /\ ov_t ov <= 5 /\
         bf_matches no_filter (ov_s_id ov) (ov_p_id ov) (ov_o_type ov) (ov_o_key ov) (ov_o_i ov) = true).
Proof.
  apply (scan_exact RPsot cx_leaves cx_rows no_filter cp_all cx_ops 5).
  - exact cx_stored.
  - sorted_rows.
  - reflexivity.
  - vm_compute. intros [=].
  - sorted_rows.
  - exact cx_no_gap.
  - intros _. constructor; [exists (lx 1 7 1); split; reflexivity|].
    constructor; [exists (lx 1 9 2); split; reflexivity|constructor].
Defined.

(** The rows of a cursor, read with at most [n] calls. *)
Fixpoint cursor_rows {C} `{LeafStore C} (n : nat) (c : CursorConfig C) (st : CursorState) : io (list RunRecordV2) :=
  match n with
  | O => Err IoInvalidData
  | S n =>
      '(b, st) ← next_batch c st;
      match b with
      | None => mret []
      | Some b => rows ← rows_from b 0 (cb_row_count b); rest ← cursor_rows n c st; mret (rows ++ rest)
      end
  end.

Definition cx_read (f : BinaryFilter) (ops : list OverlayOp) (to_t : Z) : io (list RunRecordV2) :=
  let '(c, st) := set_to_t (set_overlay_ops (scan_all RPsot cx_leaves f cp_all) ops) to_t in cursor_rows 10 c st.

Example cx_scan : cx_read no_filter cx_ops 5
  = Ok [lx 1 7 1; lx 3 7 1; lx 4 7 5; lx 1 8 2; lx 3 8 5; lx 5 8 2; lx 1 9 2; lx 2 9 5; lx 4 9 2; lx 9 9 5].
Proof. vm_compute. reflexivity. Qed.

Example cx_scan_subject : cx_read (subjects_filter 1) cx_ops 5 = Ok [lx 1 7 1; lx 1 8 2; lx 1 9 2].
Proof. vm_compute. reflexivity. Qed.

(** ** Overlays that are answered wrongly *)

(** An assertion that sorts after the last row of a leaf and before the first
    row of the next is in no window: the merge of the first stops at its last
    key, the window of the second starts at its first key. *)
Lemma gap_assertion_lost :
  cx_read no_filter [ox 6 8 5 true] 5 = cx_read no_filter [] 5 /\
  cx_read no_filter [ox 4 8 5 true] 5 <> cx_read no_filter [] 5.
Proof. split; vm_compute; [reflexivity|discriminate]. Qed.

(** With one leaf the same assertion is returned. *)
Lemma gap_assertion_one_leaf :
  let '(c, st) := set_overlay_ops (scan_all RPsot (take 1 cx_leaves) no_filter cp_all) [ox 6 8 5 true] in
  cursor_rows 10 c st = Ok [lx 1 7 1; lx 2 7 2; lx 3 7 1; lx 1 8 2; lx 5 8 2; lx 6 8 5].
Proof. vm_compute. reflexivity. Qed.

(** The rows after the leaves run past the end of the window of a cursor. *)
Lemma window_end_ignored :
  let '(c, st) := set_overlay_ops_window (scan_all RPsot ([] : list (LeafEntry nat)) no_filter cp_all)
                    [ox 1 7 5 true; ox 2 7 5 true] 0 1 in
  cursor_rows 10 c st = Ok [lx 1 7 5; lx 2 7 5].
Proof. vm_compute. reflexivity. Qed.

(** An operation after [to_t] hides the row of its fact and shows nothing. *)
Lemma later_operation_hides :
  cx_read (subjects_filter 2) [] 3 = Ok [lx 2 7 2] /\ cx_read (subjects_filter 2) [ox 2 7 5 true] 3 = Ok [].
Proof. split; vm_compute; reflexivity. Qed.

(** ** Sample builds

    Runs that are merged, written and scanned, the properties of the build at
    them, and builds whose index does not answer as its runs say. *)

(** A store in which a blob is its own id. *)
Definition echo_store (max_t : Z) : LeafStore bytes := {| store_max_t := max_t; store_fetch := fun b => Ok b |}.

Lemma plain_compressor level : forall bs, is_Some (zstd_bulk_compress bs level).
Proof. intros bs. by eexists. Qed.

(** Three runs in subject order: fact (3, 8) is retracted at 4 and fact (1, 7)
    has two records. *)
Definition bx_runs : list (list run_item) :=
  [[(lx 1 7 1, 1); (lx 2 7 1, 1); (lx 3 8 2, 1)]; [(lx 1 7 3, 1); (lx 3 8 4, 0)]; []].
Definition bx_config (o : RunSortOrder) (leaflet : nat) (leaf : Z) (skip_history : bool) : IndexBuildConfig :=
  mkBuildConfig o leaflet leaf 3 false skip_history.

Lemma bx_sorted : streams_sorted RSpot bx_runs.
Proof. repeat constructor; vm_compute; done. Qed.

Lemma kway_merge_exact_witness :
  exists m gs, merge_new RSpot bx_runs = Ok m /\ read_groups RSpot (S (records_left m)) m = Ok gs /\
    groups_of RSpot (concat bx_runs) gs.
Proof. apply (kway_merge_exact RSpot bx_runs). exact bx_sorted. Defined.

Example bx_groups :
  (m ← merge_new RSpot bx_runs; read_groups RSpot 9 m)
  = Ok [((lx 1 7 3, 1), [(lx 1 7 1, 1)]); ((lx 2 7 1, 1), []); ((lx 3 8 4, 0), [(lx 3 8 2, 1)])].
Proof. vm_compute. reflexivity. Qed.

Definition bx_items : list WriterItem := [ItemRecord (lx 1 7 1); ItemHistory (mkHist 2 7 3 10 u32_max 2 0); ItemRecord (lx 2 7 2)].

Lemma leaf_writer_exact_witness :
  let wc := mkWriterConfig RSpot 2 4 3 false in
  exists w leaves rsss, feed wc writer_new bx_items = Ok w /\ writer_finish wc w = Ok leaves /\
    concat (concat rsss) = [lx 1 7 1; lx 2 7 2] /\
    Forall2 (fun li rss => leaf_fits li -> exists segs, leaf_loads RSpot (li_leaf_bytes li) rss segs) leaves rsss.
Proof.
  intros wc. destruct (leaf_writer_exact wc bx_items (plain_compressor 3)) as (w & E & [(_ & _ & H & _)|(leaves & rsss & E2 & _ & E3 & H)]);
    [done|].
  exists w, leaves, rsss. split; [exact E|]. split; [exact E2|]. split; [exact E3|]. apply H; [by vm_compute| |].
  - repeat constructor; by vm_compute.
  - intros e He. unfold bx_items in He. rewrite !elem_of_cons, elem_of_nil in He. destruct He as [He|[He|[He|He]]]; try done.
    injection He as ->. split; by vm_compute.
Defined.

Lemma built_index_scans_witness :
  let cfg := bx_config RSpot 2 2 false in
  (RSpot <> RSpot /\ build_index cfg id bx_runs = Panic) \/
  exists gr n, build_index cfg id bx_runs = Ok ([gr], n) /\
    (Forall (leaf_stored (LS := echo_store 4) id) (gr_leaf_infos gr) ->
     let '(c, st) := scan_all RSpot (gr_leaf_entries gr) no_filter cp_all in
     exists bs outs, scans (LS := echo_store 4) c st bs /\ Forall2 batch_holds bs outs /\ StronglySorted (run_lt RSpot) (concat outs) /\
       forall x, x ∈ concat outs <-> exists r, x = drop_graph r /\ current bx_runs r /\ matches_row no_filter r = true).
Proof.
  apply (built_index_scans (LS := echo_store 4) (bx_config RSpot 2 2 false) id bx_runs no_filter).
  - exact (plain_compressor 3).
  - reflexivity.
  - vm_compute. reflexivity.
  - vm_compute. intros [=].
  - discriminate.
  - exact bx_sorted.
  - intros x y Hx Hy. unfold bx_runs in Hx, Hy. cbn in Hx, Hy.
    repeat (apply elem_of_cons in Hx as [->|Hx]; [repeat (apply elem_of_cons in Hy as [->|Hy]; [done|]); by apply not_elem_of_nil in Hy|]).
    by apply not_elem_of_nil in Hx.
  - ix_wf.
Defined.

(** Building, storing and reading. *)
Definition build_and_read (o : RunSortOrder) (leaflet : nat) (leaf : Z) (runs : list (list run_item)) (max_t : Z)
    (open : list (LeafEntry bytes) -> CursorConfig bytes * CursorState) : io (list RunRecordV2) :=
  '(graphs, _) ← build_index (bx_config o leaflet leaf false) (id : bytes -> bytes) runs;
  match graphs with
  | [gr] => let '(c, st) := open (gr_leaf_entries gr) in cursor_rows (H := echo_store max_t) 20 c st
  | _ => Err IoInvalidData
  end.

Example bx_read : build_and_read RSpot 2 2 bx_runs 4 (fun leaves => scan_all RSpot leaves no_filter cp_all) = Ok [lx 1 7 3; lx 2 7 1].
Proof. vm_compute. reflexivity. Qed.

(** ** A leaf closed with the next record in the buffer *)

(** Five facts of predicate 7 and those of predicate 8, in predicate order. *)
Definition sx_run (rest : list RunRecordV2) : list (list run_item) :=
  [(fun r => (r, 1)) <$> [lx 1 7 1; lx 2 7 1; lx 3 7 1; lx 4 7 1; lx 5 7 1] ++ rest].

Definition built_keys (runs : list (list run_item)) : io (list (RunRecordV2 * RunRecordV2 * Z)) :=
  '(graphs, _) ← build_index (bx_config RPsot 3 5 false) (id : bytes -> bytes) runs;
  mret (concat ((fun gr => (fun e => (le_first_key e, le_last_key e, le_row_count e)) <$> gr_leaf_entries gr) <$> graphs)).

(** The first fact of predicate 8 closes the leaflet and fills the leaf: the
    leaf of five rows gets that fact as its last key, and the next leaf, which
    holds it, starts its key range after it. *)
Lemma closed_leaf_keys : built_keys (sx_run [lx 1 8 1; lx 2 8 1]) = Ok [(lx 1 7 1, lx 1 8 1, 5); (lx 2 8 1, lx 2 8 1, 2)].
Proof. vm_compute. reflexivity. Qed.

(** A lookup of the fact then opens the first leaf only and does not find it,
    while a scan does. *)
Lemma closed_leaf_lookup_misses :
  let f := mkFilter (Some 1) (Some 8) None None None in
  build_and_read RPsot 3 5 (sx_run [lx 1 8 1; lx 2 8 1]) 1 (fun leaves => cursor_new RPsot leaves (lx 1 8 1) (lx 1 8 1) f cp_all) = Ok [] /\
  build_and_read RPsot 3 5 (sx_run [lx 1 8 1; lx 2 8 1]) 1 (fun leaves => scan_all RPsot leaves f cp_all) = Ok [lx 1 8 1].
Proof. split; vm_compute; reflexivity. Qed.

(** When it is the last fact the build panics. *)
Lemma closed_leaf_panics : built_keys (sx_run [lx 1 8 1]) = Panic.
Proof. vm_compute. reflexivity. Qed.

(** ** History in the wrong leaflet *)

Definition read_at (o : RunSortOrder) (leaflet : nat) (runs : list (list run_item)) (max_t : Z) (f : BinaryFilter) (t : Z) : io (list RunRecordV2) :=
  build_and_read o leaflet 10 runs max_t (fun leaves => set_to_t (scan_all o leaves f cp_all) t).

Definition predicate_filter (p : Z) : BinaryFilter := mkFilter None (Some p) None None None.

(** Fact (1, 8) is asserted at 1 and retracted at 2. *)
Definition hx_runs : list (list run_item) := [[(lx 1 7 1, 1); (lx 1 8 1, 1); (lx 1 8 2, 0); (lx 2 8 1, 1)]].

(** Its history is pushed before the record that closes the leaflet of
    predicate 7, and so goes to that leaflet, which a query for predicate 8
    skips: in predicate order the query at 1 does not find the fact, in subject
    order it does. *)
Lemma first_fact_history_misplaced :
  read_at RPsot 3 hx_runs 2 (predicate_filter 8) 1 = Ok [lx 2 8 1] /\
  read_at RSpot 3 hx_runs 2 (predicate_filter 8) 1 = Ok [lx 1 8 1; lx 2 8 1].
Proof. split; vm_compute; reflexivity. Qed.

(** Asserted again at 3, its leaflet has an empty segment and a row of 3, which
    the query at 1 returns. *)
Lemma first_fact_history_future :
  let runs := [[(lx 1 7 1, 1); (lx 1 8 1, 1); (lx 1 8 2, 0); (lx 1 8 3, 1)]] in
  read_at RPsot 3 runs 3 (predicate_filter 8) 1 = Ok [lx 1 8 3] /\ read_at RSpot 3 runs 3 (predicate_filter 8) 1 = Ok [lx 1 8 1].
Proof. split; vm_compute; reflexivity. Qed.

(** ** History after the last leaflet *)

(** Fact (2, 7) is asserted at 1 and retracted at 2. *)
Definition tx_runs : list (list run_item) := [[(lx 1 7 1, 1); (lx 2 7 1, 1); (lx 2 7 2, 0)]].

(** When the last leaflet is full the history of the facts after it is in no
    leaflet: a query at 1 loses the fact. *)
Lemma trailing_history_lost :
  read_at RSpot 1 tx_runs 2 no_filter 1 = Ok [lx 1 7 1] /\ read_at RSpot 2 tx_runs 2 no_filter 1 = Ok [lx 1 7 1; lx 2 7 1].
Proof. split; vm_compute; reflexivity. Qed.

(** ** Routing *)

Lemma branch_routing_witness :
  (forall key, exists r, find_leaf cx_leaves key RPsot = Ok r /\ forall e, r = Some e <-> e ∈ cx_leaves /\ leaf_covers RPsot e key) /\
  (forall min_key max_key i e, cx_leaves !! i = Some e ->
    (let '(a, b) := find_leaves_in_range cx_leaves min_key max_key RPsot in (a <= i < b)%nat) <->
    cmp_v2_for_order RPsot (le_last_key e) min_key <> Lt /\ cmp_v2_for_order RPsot (le_first_key e) max_key <> Gt) /\
  (RPsot = RSpot -> forall s i e, cx_leaves !! i = Some e ->
    (let '(a, b) := find_leaves_for_subject cx_leaves s in (a <= i < b)%nat) <->
    rr_s_id (le_first_key e) <= s <= rr_s_id (le_last_key e)).
Proof.
  apply (branch_routing RPsot cx_leaves). split.
  - repeat constructor; vm_compute; intros [=].
  - repeat constructor; vm_compute; reflexivity.
Defined.

Example cx_routed : find_leaf cx_leaves (lx 3 8 1) RPsot = Ok (head cx_leaves) /\ find_leaf cx_leaves (lx 6 8 1) RPsot = Ok None.
Proof. split; vm_compute; reflexivity. Qed.
