(* ===== verification/LedgerId.v ===== *)
(** * Ledger identifiers

    Models [fluree-db-core/src/ledger_id.rs]: [name[:branch]] identifiers with
    their default branch, the time-travel suffix and the branch-name check.  A
    Rust [str] is its UTF-8 bytes in a [string]; the separators are ASCII, so
    byte positions and character positions split the text at the same places.
    Error values drop their message. *)

From stdpp Require Import base list numbers strings.
From Stdlib Require Import ZArith Lia Ascii String.
From S2P Require Import Prelude.

Local Open Scope string_scope.
Local Open Scope Z_scope.

(** ** Text primitives *)

Fixpoint str_contains_char (c : ascii) (s : string) : bool :=
  match s with
  | "" => false
  | String a s => bool_decide (a = c) || str_contains_char c s
  end.

(** The text before and after the first occurrence of [c]: [str::find] followed
    by slicing, and [splitn(2, c)]. *)
Fixpoint split_char (c : ascii) (s : string) : option (string * string) :=
  match s with
  | "" => None
  | String a s =>
      if bool_decide (a = c) then Some ("", s)
      else '(l, r) ← split_char c s; Some (String a l, r)
  end.

Fixpoint strip_prefix (p s : string) : option string :=
  match p, s with
  | "", _ => Some s
  | String a p, String b s => if bool_decide (a = b) then strip_prefix p s else None
  | String _ _, "" => None
  end.

Fixpoint str_contains (p s : string) : bool :=
  bool_decide (is_Some (strip_prefix p s)) ||
  match s with "" => false | String _ s => str_contains p s end.

Definition str_is_empty (s : string) : bool := match s with "" => true | _ => false end.

(** [<i64 as FromStr>::from_str]: an optional sign, at least one digit, and the
    value in range. *)
Definition digit (a : ascii) : option Z :=
  let n := Z.of_N (N_of_ascii a) in
  if (48 <=? n) && (n <=? 57) then Some (n - 48) else None.

Fixpoint parse_digits (acc : Z) (s : string) : option Z :=
  match s with
  | "" => Some acc
  | String a s => d ← digit a; parse_digits (10 * acc + d) s
  end.

Definition parse_i64 (s : string) : option Z :=
  let '(sign, digits) :=
    match s with
    | String "+" s => (1, s)
    | String "-" s => (-1, s)
    | _ => (1, s)
    end in
  if str_is_empty digits then None else
  n ← parse_digits 0 digits;
  let v := sign * n in
  if (- 2 ^ 63 <=? v) && (v <? 2 ^ 63) then Some v else None.

(** [s.trim().is_empty()]: every character of the text is Unicode white space.
    The multi-byte white-space characters are U+0085, U+00A0, U+1680,
    U+2000-200A, U+2028, U+2029, U+202F, U+205F and U+3000. *)
Definition byte_in (lo hi : Z) (a : ascii) : bool :=
  let n := Z.of_N (N_of_ascii a) in (lo <=? n) && (n <=? hi).

Fixpoint trims_to_empty (s : string) : bool :=
  match s with
  | "" => true
  | String a s1 =>
      if byte_in 9 13 a || byte_in 32 32 a then trims_to_empty s1 else
      match s1 with
      | String b s2 =>
          if byte_in 0xC2 0xC2 a && (byte_in 0x85 0x85 b || byte_in 0xA0 0xA0 b)
          then trims_to_empty s2 else
          match s2 with
          | String c s3 =>
              if (byte_in 0xE1 0xE1 a && byte_in 0x9A 0x9A b && byte_in 0x80 0x80 c)
                 || (byte_in 0xE2 0xE2 a && byte_in 0x80 0x80 b &&
                      (byte_in 0x80 0x8A c || byte_in 0xA8 0xA9 c || byte_in 0xAF 0xAF c))
                 || (byte_in 0xE2 0xE2 a && byte_in 0x81 0x81 b && byte_in 0x9F 0x9F c)
                 || (byte_in 0xE3 0xE3 a && byte_in 0x80 0x80 b && byte_in 0x80 0x80 c)
              then trims_to_empty s3 else false
          | "" => false
          end
      | "" => false
      end
  end.

(** ** Identifiers *)

Definition DEFAULT_BRANCH : string := "main".

Inductive LedgerIdTimeSpec :=
| AtT (t : Z)
| AtIso (s : string)
| AtCommit (s : string)
| AtRecorded (s : string).

Record ParsedLedgerId := mkParsedLedgerId {
  pl_name : string;
  pl_branch : string;
  pl_time : option LedgerIdTimeSpec;
}.

Inductive LedgerIdParseError := LedgerIdParseErr.

Definition split_ledger_id (ledger_id : string) : outcome LedgerIdParseError (string * string) :=
  match split_char ":" ledger_id with
  | None =>
      if str_is_empty ledger_id then Err LedgerIdParseErr else Ok (ledger_id, DEFAULT_BRANCH)
  | Some (name, branch) =>
      if str_is_empty name || str_is_empty branch then Err LedgerIdParseErr
      else if str_contains_char ":" branch then Err LedgerIdParseErr
      else Ok (name, branch)
  end.

Definition format_ledger_id (name branch : string) : string := name ++ ":" ++ branch.

Definition normalize_ledger_id (ledger_id : string) : outcome LedgerIdParseError string :=
  '(name, branch) ← split_ledger_id ledger_id;
  Ok (format_ledger_id name branch).

Definition parse_time_spec (time_str : string) : outcome LedgerIdParseError LedgerIdTimeSpec :=
  match strip_prefix "t:" time_str with
  | Some val =>
      if str_is_empty val then Err LedgerIdParseErr
      else match parse_i64 val with Some t => Ok (AtT t) | None => Err LedgerIdParseErr end
  | None =>
  match strip_prefix "iso:" time_str with
  | Some val => if str_is_empty val then Err LedgerIdParseErr else Ok (AtIso val)
  | None =>
  match strip_prefix "commit:" time_str with
  | Some val =>
      if str_is_empty val then Err LedgerIdParseErr
      else if (String.length val <? 6)%nat then Err LedgerIdParseErr
      else Ok (AtCommit val)
  | None =>
  match strip_prefix "recorded:" time_str with
  | Some val => if str_is_empty val then Err LedgerIdParseErr else Ok (AtRecorded val)
  | None => Err LedgerIdParseErr
  end end end end.

Definition split_time_travel_suffix (ledger_id : string) :
    outcome LedgerIdParseError (string * option LedgerIdTimeSpec) :=
  match split_char "@" ledger_id with
  | Some (base, time_str) =>
      if str_is_empty base then Err LedgerIdParseErr
      else time ← parse_time_spec time_str; Ok (base, Some time)
  | None => Ok (ledger_id, None)
  end.

Definition parse_ledger_id_with_time (ledger_id : string) : outcome LedgerIdParseError ParsedLedgerId :=
  '(base, time) ← split_time_travel_suffix ledger_id;
  '(name, branch) ← split_ledger_id base;
  Ok (mkParsedLedgerId name branch time).

Definition MAX_BRANCH_NAME_LEN : nat := 128.
Definition nul : ascii := Ascii.zero.

Definition validate_branch_name (name : string) : outcome LedgerIdParseError unit :=
  if str_is_empty name || trims_to_empty name then Err LedgerIdParseErr
  else if (MAX_BRANCH_NAME_LEN <? String.length name)%nat then Err LedgerIdParseErr
  else if str_contains_char ":" name then Err LedgerIdParseErr
  else if str_contains_char "@" name then Err LedgerIdParseErr
  else if str_contains_char nul name then Err LedgerIdParseErr
  else if bool_decide (name = "..") || str_contains "../" name || str_contains "/.." name
  then Err LedgerIdParseErr
  else Ok tt.

(** ** Lemmas *)

Lemma append_nil s : "" ++ s = s.
Proof. done. Qed.
Lemma append_cons a l r : String a l ++ r = String a (l ++ r).
Proof. done. Qed.

Lemma split_char_app c l r :
  str_contains_char c l = false -> split_char c (l ++ String c r) = Some (l, r).
Proof.
  induction l as [|a l IH]; rewrite ?append_nil, ?append_cons;
    cbn [split_char str_contains_char]; intros H.
  - by rewrite bool_decide_true.
  - apply orb_false_iff in H as [-> H]. by rewrite IH.
Qed.

Lemma split_char_none c s : str_contains_char c s = false -> split_char c s = None.
Proof.
  induction s as [|a s IH]; cbn [split_char str_contains_char]; [done|]. intros [-> H]%orb_false_iff. by rewrite IH.
Qed.

Lemma split_char_some c s l r :
  split_char c s = Some (l, r) -> s = l ++ String c r /\ str_contains_char c l = false.
Proof.
  revert l. induction s as [|a s IH]; intros l; cbn [split_char str_contains_char]; [done|]. case_bool_decide as E.
  - intros [= <- <-]. by rewrite E.
  - destruct (split_char c s) as [[l' r']|]; [|done]. intros [= <- <-].
    destruct (IH l' eq_refl) as [-> H]. cbn [str_contains_char].
    by rewrite append_cons, bool_decide_false.
Qed.

Lemma split_char_is_none c s : split_char c s = None -> str_contains_char c s = false.
Proof.
  induction s as [|a s IH]; cbn [split_char str_contains_char]; [done|]. case_bool_decide; [done|].
  destruct (split_char c s) as [[? ?]|]; [done|]. auto.
Qed.

Lemma contains_char_app c l r :
  str_contains_char c (l ++ r) = str_contains_char c l || str_contains_char c r.
Proof.
  induction l as [|a l IH]; rewrite ?append_nil, ?append_cons; cbn [str_contains_char]; [done|].
  by rewrite IH, orb_assoc.
Qed.

(** The names and branches a registered ledger can have. *)
Definition id_part (s : string) : bool := negb (str_is_empty s) && negb (str_contains_char ":" s).

Lemma split_format name branch :
  id_part name = true -> id_part branch = true ->
  split_ledger_id (format_ledger_id name branch) = Ok (name, branch).
Proof.
  unfold id_part, split_ledger_id, format_ledger_id. intros [Hn Hn']%andb_true_iff [Hb Hb']%andb_true_iff.
  apply negb_true_iff in Hn, Hn', Hb, Hb'.
  change (":" ++ branch) with (String ":" branch). by rewrite split_char_app, Hn, Hb, Hb'.
Qed.

Lemma split_parts id name branch :
  split_ledger_id id = Ok (name, branch) -> id_part name = true /\ id_part branch = true.
Proof.
  unfold split_ledger_id, id_part. destruct (split_char ":" id) as [[n b]|] eqn:E.
  - apply split_char_some in E as [-> Hn].
    destruct (str_is_empty n) eqn:En, (str_is_empty b) eqn:Eb; try done. cbn.
    destruct (str_contains_char ":" b) eqn:Hb; [done|]. intros [= <- <-].
    by rewrite En, Eb, Hn, Hb.
  - apply split_char_is_none in E. destruct (str_is_empty id) eqn:Hid; [done|].
    intros [= <- <-]. by rewrite Hid, E.
Qed.

(** [format_ledger_id] identifies the branch of a ledger. *)
Lemma format_ledger_id_inj n1 b1 n2 b2 :
  str_contains_char ":" n1 = false -> str_contains_char ":" n2 = false ->
  format_ledger_id n1 b1 = format_ledger_id n2 b2 -> n1 = n2 /\ b1 = b2.
Proof.
  intros H1 H2 E. unfold format_ledger_id in E.
  pose proof (split_char_app ":" n1 b1 H1) as E1. pose proof (split_char_app ":" n2 b2 H2) as E2.
  change (":" ++ b1) with (String ":" b1) in E. change (":" ++ b2) with (String ":" b2) in E.
  rewrite E, E2 in E1. by injection E1 as -> ->.
Qed.

(** ** Properties *)

(** A ledger identifier and its parts determine each other: a name and a
    branch that are not empty and hold no colon survive formatting and
    splitting, also behind a time-travel suffix, and every identifier that
    splits is normalised to the one identifier its parts format to, which
    splits to the same parts and is its own normal form. *)
Theorem ledger_id_roundtrip (id name branch : string) :
  (id_part name = true -> id_part branch = true ->
   split_ledger_id (format_ledger_id name branch) = Ok (name, branch)) /\
  (split_ledger_id id = Ok (name, branch) ->
   normalize_ledger_id id = Ok (format_ledger_id name branch) /\
   split_ledger_id (format_ledger_id name branch) = Ok (name, branch) /\
   normalize_ledger_id (format_ledger_id name branch) = Ok (format_ledger_id name branch)) /\
  (id_part name = true -> id_part branch = true ->
   str_contains_char "@" name = false -> str_contains_char "@" branch = false ->
   forall time_str time, parse_time_spec time_str = Ok time ->
   parse_ledger_id_with_time (format_ledger_id name branch ++ "@" ++ time_str) =
   Ok (mkParsedLedgerId name branch (Some time))).
Proof.
  split; [apply split_format|split].
  - intros E. destruct (split_parts _ _ _ E) as [Hn Hb].
    unfold normalize_ledger_id. by rewrite split_format, E.
  - intros Hn Hb Han Hab time_str time Et.
    unfold parse_ledger_id_with_time, split_time_travel_suffix.
    change ("@" ++ time_str) with (String "@" time_str).
    rewrite split_char_app; [|by unfold format_ledger_id; rewrite !contains_char_app, Han, Hab].
    replace (str_is_empty (format_ledger_id name branch)) with false by by destruct name.
    by rewrite Et; cbn; rewrite split_format.
Qed.

Lemma ledger_id_roundtrip_witness :
  split_ledger_id "mydb" = Ok ("mydb", "main") /\ normalize_ledger_id "mydb" = Ok "mydb:main" /\
  parse_ledger_id_with_time "mydb:dev@t:42" = Ok (mkParsedLedgerId "mydb" "dev" (Some (AtT 42))).
Proof.
  split; [reflexivity|]. split.
  - apply (ledger_id_roundtrip "mydb" "mydb" "main"). reflexivity.
  - apply (ledger_id_roundtrip "" "mydb" "dev") with (time_str := "t:42"); reflexivity.
Defined.

(** Names the check of [create_branch] accepts split back out of the identifier. *)
Lemma validated_branch_is_id_part branch :
  validate_branch_name branch = Ok () -> id_part branch = true.
Proof.
  unfold validate_branch_name, id_part. destruct (str_is_empty branch); [done|]. cbn [orb negb andb].
  destruct (trims_to_empty branch); [done|]. destruct (MAX_BRANCH_NAME_LEN <? String.length branch)%nat; [done|].
  by destruct (str_contains_char ":" branch).
Qed.
