(* ===== verification/RaftTypes.v ===== *)
(** * Replicated nameservice: data

    The state, commands and responses of the Raft state machine
    ([fluree-db-consensus/src/raft/state_machine.rs]) with the record types it
    takes from the consensus crate root and from the nameservice.  [HashMap]s
    are finite maps, [HashSet]/[BTreeSet]s finite sets, [VecDeque]s lists with
    the front first, and the [BTreeMap] of an object is its list of entries in
    key order.  Content ids are those of the commit codec; they are compared,
    stored and handed back. *)

From stdpp Require Import base list numbers gmap strings.
From Stdlib Require Import ZArith Lia.
From S2P Require Import Prelude Value Envelope LedgerId.

Local Open Scope Z_scope.

Abbreviation NodeId := Z (only parsing).

(** ** Keys *)

Record RefKey := mkRefKey { ledger_name : string; branch : string }.

#[export] Instance RefKey_eq_dec : EqDecision RefKey.
Proof. solve_decision. Defined.
#[export] Instance RefKey_countable : Countable RefKey.
Proof.
  refine (inj_countable' (fun k => (ledger_name k, branch k)) (fun '(l, b) => mkRefKey l b) _).
  by intros [].
Defined.

Definition ref_ledger_id (k : RefKey) : string := format_ledger_id (ledger_name k) (branch k).

(** An [IdempotencyKey] is a validated string. *)
Record IdempotencyCacheKey := mkIdemKey { ik_ledger_id : string; ik_key : string }.

#[export] Instance IdempotencyCacheKey_eq_dec : EqDecision IdempotencyCacheKey.
Proof. solve_decision. Defined.
#[export] Instance IdempotencyCacheKey_countable : Countable IdempotencyCacheKey.
Proof.
  refine (inj_countable' (fun k => (ik_ledger_id k, ik_key k)) (fun '(l, b) => mkIdemKey l b) _).
  by intros [].
Defined.

Inductive BodyKind :=
| JsonLdInsert | JsonLdUpsert | JsonLdUpdate | TurtleInsert | TurtleUpsert | TrigUpsert
| Sparql | Cypher | Pushed | Revert | Merge | Rebase.

(** ** Stored status and configuration values *)

Inductive CanonicalValue :=
| CNull
| CBool (b : bool)
| CInt (i : Z)
| CUInt (u : Z)
| CFloat (f : f64)
| CString (s : string)
| CArray (items : list CanonicalValue)
| CObject (entries : list (string * CanonicalValue)).

(** [==] on [f64], and the derived [PartialEq] of the tree: same shape, same
    leaves, floats by IEEE equality. *)
Definition f64_eqb (a b : f64) : bool :=
  match f64_partial_cmp a b with Some Eq => true | _ => false end.

Fixpoint canonical_eqb (a b : CanonicalValue) : bool :=
  match a, b with
  | CNull, CNull => true
  | CBool x, CBool y => Bool.eqb x y
  | CInt x, CInt y => x =? y
  | CUInt x, CUInt y => x =? y
  | CFloat x, CFloat y => f64_eqb x y
  | CString x, CString y => bool_decide (x = y)
  | CArray xs, CArray ys =>
      (fix go (xs ys : list CanonicalValue) : bool :=
         match xs, ys with
         | [], [] => true
         | x :: xs, y :: ys => canonical_eqb x y && go xs ys
         | _, _ => false
         end) xs ys
  | CObject xs, CObject ys =>
      (fix go (xs ys : list (string * CanonicalValue)) : bool :=
         match xs, ys with
         | [], [] => true
         | (k, x) :: xs, (l, y) :: ys => bool_decide (k = l) && canonical_eqb x y && go xs ys
         | _, _ => false
         end) xs ys
  | _, _ => false
  end.

Record StoredStatus := mkStoredStatus {
  ss_v : Z;
  ss_state : string;
  ss_extra : list (string * CanonicalValue);
}.

Definition stored_status_eqb (a b : StoredStatus) : bool :=
  (ss_v a =? ss_v b) && bool_decide (ss_state a = ss_state b) &&
  canonical_eqb (CObject (ss_extra a)) (CObject (ss_extra b)).

Section data.
Context `{CidLib}.

Record StoredConfigPayload := mkStoredConfigPayload {
  scp_default_context : option ContentId;
  scp_config_id : option ContentId;
  scp_extra : list (string * CanonicalValue);
}.

Record StoredConfig := mkStoredConfig { sc_v : Z; sc_payload : option StoredConfigPayload }.

Definition stored_config_eqb (a b : StoredConfig) : bool :=
  (sc_v a =? sc_v b) &&
  match sc_payload a, sc_payload b with
  | None, None => true
  | Some p, Some q =>
      bool_decide (scp_default_context p = scp_default_context q) &&
      bool_decide (scp_config_id p = scp_config_id q) &&
      canonical_eqb (CObject (scp_extra p)) (CObject (scp_extra q))
  | _, _ => false
  end.

(** ** Branch heads, ledgers, queues *)

Record IndexState := mkIndexState { ix_head : ContentId; ix_t : Z }.

Record RefEntry := mkRefEntry {
  re_head : ContentId;
  re_t : Z;
  re_last_advanced_at_millis : Z;
  re_last_advanced_index : Z;
  re_index : option IndexState;
  re_source_branch : option string;
  re_branches : Z;
}.

Record LedgerRecord := mkLedgerRecord {
  lr_created_at_millis : Z;
  lr_created_index : Z;
  lr_branches : list string;
}.

Record PolicyStats := mkPolicyStats { ps_executed : Z; ps_allowed : Z }.

Record RecordedReasoningTally := mkReasoningTally {
  rr_capped : bool;
  rr_capped_reason : option string;
  rr_derived_facts : Z;
  rr_iterations : Z;
  rr_duration_ms : Z;
}.

Record RecordedTally := mkRecordedTally {
  rt_time : option string;
  rt_fuel : option f64;
  rt_policy : option (gmap string PolicyStats);
  rt_reasoning : option RecordedReasoningTally;
}.

Record ApplyRecord := mkApplyRecord {
  ar_request_cid : ContentId;
  ar_body_cid : ContentId;
  ar_body_kind : BodyKind;
  ar_recorded_at_millis : Z;
  ar_head : ContentId;
  ar_t : Z;
  ar_recorded_index : Z;
  ar_tally : option RecordedTally;
  ar_flake_count : Z;
}.

Inductive PoisonReason :=
| StagingFailed (error : string) (attempts : Z)
| BodyMalformed (error : string)
| PolicyViolation (error : string)
| PoisonLedgerNotFound (ledger_id : string)
| PushCasFailed (head_at_worker expected_by_chain : option ContentId)
| WorkerPanic (message : string).

Record PoisonRecord := mkPoisonRecord {
  pr_request_cid : ContentId;
  pr_body_cid : ContentId;
  pr_reason : PoisonReason;
  pr_recorded_index : Z;
  pr_recorded_at_millis : Z;
}.

Inductive ApplyOutcome :=
| Applied (r : ApplyRecord)
| Failed (r : PoisonRecord).

Definition ao_request_cid (o : ApplyOutcome) : ContentId :=
  match o with Applied r => ar_request_cid r | Failed r => pr_request_cid r end.
Definition ao_body_cid (o : ApplyOutcome) : ContentId :=
  match o with Applied r => ar_body_cid r | Failed r => pr_body_cid r end.
Definition ao_recorded_at_millis (o : ApplyOutcome) : Z :=
  match o with Applied r => ar_recorded_at_millis r | Failed r => pr_recorded_at_millis r end.
Definition ao_recorded_index (o : ApplyOutcome) : Z :=
  match o with Applied r => ar_recorded_index r | Failed r => pr_recorded_index r end.

Record QueueEntry := mkQueueEntry {
  qe_queue_id : Z;
  qe_enqueued_index : Z;
  qe_enqueued_at_millis : Z;
  qe_idempotency : option IdempotencyCacheKey;
  qe_request_cid : ContentId;
  qe_body_cid : ContentId;
  qe_body_kind : BodyKind;
}.

Inductive ClearReason := BranchDroppedR | BranchPurgedR | BranchHeadResetR | BranchRetractedR.

Record ClearMarker := mkClearMarker { cm_reason : ClearReason; cm_applied_at_millis : Z }.

Record QueueConfig := mkQueueConfig { per_branch_cap : Z; global_cap : Z }.

Definition DEFAULT_PER_BRANCH : Z := 1024.
Definition DEFAULT_GLOBAL : Z := 16384.
Definition queue_config_default : QueueConfig := mkQueueConfig DEFAULT_PER_BRANCH DEFAULT_GLOBAL.

Inductive GraphSourceType :=
| Bm25 | VectorSource | Geo | R2rml | Iceberg | UnknownSource (s : string).

Record GraphSourceRecord := mkGraphSource {
  gs_graph_source_id : string;
  gs_name : string;
  gs_branch : string;
  gs_source_type : GraphSourceType;
  gs_config : string;
  gs_dependencies : list string;
  gs_index_id : option ContentId;
  gs_index_t : Z;
  gs_retracted : bool;
}.

Definition graph_source_new (name branch : string) (source_type : GraphSourceType)
    (config : string) (dependencies : list string) : GraphSourceRecord :=
  mkGraphSource (format_ledger_id name branch) name branch source_type config dependencies None 0 false.

Inductive RefKind := CommitHead | IndexHead.
Record RefValue := mkRefValue { rv_id : option ContentId; rv_t : Z }.

#[export] Instance RefValue_eq_dec : EqDecision RefValue.
Proof. solve_decision. Defined.

(** ** The state *)

Record NameServiceState := mkState {
  refs : gmap RefKey RefEntry;
  ledgers : gmap string LedgerRecord;
  retracted : gset RefKey;
  idempotency : gmap IdempotencyCacheKey ApplyOutcome;
  queues : gmap RefKey (list QueueEntry);
  next_queue_id : Z;
  recently_cleared : gmap RefKey ClearMarker;
  evicted_idempotency_count : Z;
  queue_config : QueueConfig;
  status : gmap string StoredStatus;
  config : gmap string StoredConfig;
  graph_sources : gmap string GraphSourceRecord;
  worker_eligible_voters : gset NodeId;
  configured_voters : gset NodeId;
}.

Definition state_new : NameServiceState :=
  mkState ∅ ∅ ∅ ∅ ∅ 0 ∅ 0 queue_config_default ∅ ∅ ∅ ∅ ∅.

(** One setter per field the commands assign to. *)
Definition with_refs (r : gmap RefKey RefEntry) (s : NameServiceState) : NameServiceState :=
  mkState r (ledgers s) (retracted s) (idempotency s) (queues s) (next_queue_id s)
    (recently_cleared s) (evicted_idempotency_count s) (queue_config s) (status s) (config s)
    (graph_sources s) (worker_eligible_voters s) (configured_voters s).
Definition with_ledgers (l : gmap string LedgerRecord) (s : NameServiceState) : NameServiceState :=
  mkState (refs s) l (retracted s) (idempotency s) (queues s) (next_queue_id s)
    (recently_cleared s) (evicted_idempotency_count s) (queue_config s) (status s) (config s)
    (graph_sources s) (worker_eligible_voters s) (configured_voters s).
Definition with_retracted (r : gset RefKey) (s : NameServiceState) : NameServiceState :=
  mkState (refs s) (ledgers s) r (idempotency s) (queues s) (next_queue_id s)
    (recently_cleared s) (evicted_idempotency_count s) (queue_config s) (status s) (config s)
    (graph_sources s) (worker_eligible_voters s) (configured_voters s).
Definition with_idempotency (i : gmap IdempotencyCacheKey ApplyOutcome) (s : NameServiceState) : NameServiceState :=
  mkState (refs s) (ledgers s) (retracted s) i (queues s) (next_queue_id s)
    (recently_cleared s) (evicted_idempotency_count s) (queue_config s) (status s) (config s)
    (graph_sources s) (worker_eligible_voters s) (configured_voters s).
Definition with_queues (q : gmap RefKey (list QueueEntry)) (s : NameServiceState) : NameServiceState :=
  mkState (refs s) (ledgers s) (retracted s) (idempotency s) q (next_queue_id s)
    (recently_cleared s) (evicted_idempotency_count s) (queue_config s) (status s) (config s)
    (graph_sources s) (worker_eligible_voters s) (configured_voters s).
Definition with_next_queue_id (n : Z) (s : NameServiceState) : NameServiceState :=
  mkState (refs s) (ledgers s) (retracted s) (idempotency s) (queues s) n
    (recently_cleared s) (evicted_idempotency_count s) (queue_config s) (status s) (config s)
    (graph_sources s) (worker_eligible_voters s) (configured_voters s).
Definition with_recently_cleared (m : gmap RefKey ClearMarker) (s : NameServiceState) : NameServiceState :=
  mkState (refs s) (ledgers s) (retracted s) (idempotency s) (queues s) (next_queue_id s)
    m (evicted_idempotency_count s) (queue_config s) (status s) (config s)
    (graph_sources s) (worker_eligible_voters s) (configured_voters s).
Definition with_evicted_count (n : Z) (s : NameServiceState) : NameServiceState :=
  mkState (refs s) (ledgers s) (retracted s) (idempotency s) (queues s) (next_queue_id s)
    (recently_cleared s) n (queue_config s) (status s) (config s)
    (graph_sources s) (worker_eligible_voters s) (configured_voters s).
Definition with_status (m : gmap string StoredStatus) (s : NameServiceState) : NameServiceState :=
  mkState (refs s) (ledgers s) (retracted s) (idempotency s) (queues s) (next_queue_id s)
    (recently_cleared s) (evicted_idempotency_count s) (queue_config s) m (config s)
    (graph_sources s) (worker_eligible_voters s) (configured_voters s).
Definition with_config (m : gmap string StoredConfig) (s : NameServiceState) : NameServiceState :=
  mkState (refs s) (ledgers s) (retracted s) (idempotency s) (queues s) (next_queue_id s)
    (recently_cleared s) (evicted_idempotency_count s) (queue_config s) (status s) m
    (graph_sources s) (worker_eligible_voters s) (configured_voters s).
Definition with_graph_sources (m : gmap string GraphSourceRecord) (s : NameServiceState) : NameServiceState :=
  mkState (refs s) (ledgers s) (retracted s) (idempotency s) (queues s) (next_queue_id s)
    (recently_cleared s) (evicted_idempotency_count s) (queue_config s) (status s) (config s)
    m (worker_eligible_voters s) (configured_voters s).
Definition with_voters (eligible configured : gset NodeId) (s : NameServiceState) : NameServiceState :=
  mkState (refs s) (ledgers s) (retracted s) (idempotency s) (queues s) (next_queue_id s)
    (recently_cleared s) (evicted_idempotency_count s) (queue_config s) (status s) (config s)
    (graph_sources s) eligible configured.

(** ** Commands *)

Record NewIndexHead := mkNewIndexHead {
  nih_ledger_id : string; nih_branch : string; nih_new_index_head : ContentId; nih_t : Z;
  nih_applied_at_millis : Z;
}.
Record NewLedger := mkNewLedger {
  nl_ledger_id : string; nl_branch : string; nl_created_at_millis : Z;
}.
Record NewBranch := mkNewBranch {
  nb_ledger_id : string; nb_branch : string; nb_source_branch : string;
  nb_at_commit : option (ContentId * Z); nb_applied_at_millis : Z;
}.
Record ResetHeadSnapshot := mkResetSnapshot {
  rhs_commit_head_id : option ContentId; rhs_commit_t : Z;
  rhs_index_head_id : option ContentId; rhs_index_t : Z;
}.
Record RefCas := mkRefCas {
  rc_ledger_id : string; rc_branch : string; rc_kind : RefKind; rc_expected : option RefValue;
  rc_new : RefValue; rc_applied_at_millis : Z;
}.
Record ConfigUpdate := mkConfigUpdate {
  cu_ledger_id : string; cu_expected : option StoredConfig; cu_new : StoredConfig;
}.
Record QueueSubmission := mkQueueSubmission {
  qs_ledger_id : string; qs_branch : string; qs_idempotency : option IdempotencyCacheKey;
  qs_request_cid : ContentId; qs_body_cid : ContentId; qs_body_kind : BodyKind;
  qs_applied_at_millis : Z;
}.
Record StagedHead := mkStagedHead {
  sh_ledger_id : string; sh_branch : string; sh_queue_id : Z; sh_commit_id : ContentId;
  sh_commit_t : Z; sh_applied_at_millis : Z; sh_tally : option RecordedTally; sh_flake_count : Z;
}.
Record EntryPoisoning := mkEntryPoisoning {
  ep_ledger_id : string; ep_branch : string; ep_queue_id : Z; ep_reason : PoisonReason;
  ep_applied_at_millis : Z;
}.
Record WorkerEligibility := mkWorkerEligibility {
  we_voter : NodeId; we_eligible : bool; we_applied_at_millis : Z;
}.

Inductive Command :=
| AdvanceIndexHead (args : NewIndexHead)
| RewriteIndexHead (args : NewIndexHead)
| CreateLedger (args : NewLedger)
| CreateBranch (args : NewBranch)
| DropBranch (ledger_id branch : string) (applied_at_millis : Z)
| ResetHead (ledger_id branch : string) (snapshot : ResetHeadSnapshot) (applied_at_millis : Z)
| RetractLedger (ledger_id branch : string) (applied_at_millis : Z)
| PurgeBranch (ledger_id branch : string) (applied_at_millis : Z)
| ReleaseContent (id : ContentId)
| CompareAndSetRef (args : RefCas)
| PushStatus (ledger_id : string) (expected : option StoredStatus) (new : StoredStatus)
| PushConfig (args : ConfigUpdate)
| PublishGraphSource (name branch : string) (source_type : GraphSourceType) (config : string)
    (dependencies : list string)
| PublishGraphSourceIndex (name branch : string) (index_id : ContentId) (index_t : Z)
| RetractGraphSource (name branch : string)
| EnqueueCommand (args : QueueSubmission)
| ApplyHead (args : StagedHead)
| PoisonQueueEntry (args : EntryPoisoning)
| EvictIdempotency (cutoff_millis marker_cutoff_millis : Z)
| SetWorkerEligibility (args : WorkerEligibility).

(** ** Responses *)

Inductive QueueFullScope := PerBranch | Global.

Inductive EligibilityRefusal := VoterNotConfigured.

Inductive DesyncReason :=
| WrongFront (actual_queue_id : Z)
| QueueCleared (reason : ClearReason)
| HeadNotMonotonic (current_t proposed_t : Z)
| InvariantViolated.

Inductive Response :=
| IndexAdvanced (index_t : Z) (index_head : ContentId)
| IndexStale (current_t : Z)
| IndexAhead (commit_t proposed_t : Z)
| RefCasUpdated
| RefCasConflict (actual : option RefValue)
| StatusUpdated
| StatusConflict (actual : option StoredStatus)
| ConfigUpdated
| ConfigConflict (actual : option StoredConfig)
| GraphSourcePublished
| GraphSourceIndexAdvanced (index_t : Z)
| GraphSourceIndexStale (current_t : Z)
| GraphSourceNotFound (graph_source_id : string)
| GraphSourceRetracted (graph_source_id : string)
| GraphSourceAlreadyRetracted (graph_source_id : string)
| Created (ledger_id : string)
| AlreadyExists (ledger_id : string)
| BranchCreated (ledger_id : string) (head : ContentId) (t : Z)
| SourceBranchNotFound (ledger_id : string)
| BranchDropped (ledger_id : string) (parent_branches : option Z)
    (released_envelopes : list (string * ContentId))
| BranchHasChildren (ledger_id : string) (children : Z)
| HeadReset (ledger_id : string) (released_envelopes : list (string * ContentId))
| Retracted (ledger_id : string) (released_envelopes : list (string * ContentId))
| AlreadyRetracted (ledger_id : string)
| LedgerRetracted (ledger_id : string)
| Purged (ledger_id : string) (released_envelopes : list (string * ContentId))
| AlreadyPurged (ledger_id : string)
| LedgerNotFound (ledger_id : string)
| BodyHashMismatch
| Enqueued (ledger_id : string) (queue_id : Z)
| IdempotencyHit (record : ApplyRecord)
| IdempotencyFailed (record : PoisonRecord)
| InFlight (ledger_id : string) (queue_id : Z)
| QueueFull (ledger_id : string) (depth cap : Z) (scope : QueueFullScope)
| HeadApplied (ledger_id : string) (commit_id : ContentId) (commit_t : Z)
    (released_envelope : option ContentId)
| QueueDesync (ledger_id : string) (requested_queue_id : Z) (reason : DesyncReason)
| Poisoned (ledger_id : string) (queue_id : Z) (reason : PoisonReason)
    (released_envelope : option ContentId)
| EvictionApplied (removed : Z) (released_envelopes : list (string * ContentId))
| WorkerEligibilitySet (voter : NodeId) (eligible changed : bool)
| WorkerEligibilityRefused (voter : NodeId) (eligible : bool) (reason : EligibilityRefusal)
| NoOp.
End data.
