(* ===== verification/RaftApply.v ===== *)
(** * Replicated nameservice: the state machine

    [apply] and its handlers, [fluree-db-consensus/src/raft/state_machine.rs].
    A handler takes the state and its arguments and returns the next state with
    the response.  Log indexes, queue ids and counters are [u64], the child
    counter is a [u32], logical times are [i64]; each operation on them is the
    one of the source (wrapping, saturating).  The [expect]s of the source
    follow a check of the same value in the same handler.

    [HashMap] iteration order is the interface [CacheOrder]: it matters to one
    handler, the eviction, which sorts what it iterates over. *)

From stdpp Require Import base list numbers gmap strings sorting.
From Stdlib Require Import ZArith Lia.
From S2P Require Import Prelude Value Envelope LedgerId RaftTypes.

Local Open Scope Z_scope.

Definition u32_saturating_add1 (n : Z) : Z := Z.min (n + 1) u32_max.
Definition u32_saturating_sub1 (n : Z) : Z := Z.max (n - 1) 0.
Definition u64_wrapping_add1 (n : Z) : Z := as_u 64 (n + 1).

(** The iteration order of the idempotency cache. *)
Class CacheOrder `{CidLib} :=
  cache_iter : gmap IdempotencyCacheKey ApplyOutcome -> list (IdempotencyCacheKey * ApplyOutcome).
Class CacheLaws `{CacheOrder} : Prop :=
  cache_iter_perm : forall m, cache_iter m ≡ₚ map_to_list m.

Section apply.
Context `{CacheOrder}.

Implicit Types s : NameServiceState.

(** ** Helpers *)

(** [state.ledgers.get(l).is_some_and(|l| l.branches.contains(b))]. *)
Definition branch_known (m : gmap string LedgerRecord) (l b : string) : bool :=
  match m !! l with
  | Some r => bool_decide (b ∈ lr_branches r)
  | None => false
  end.

Definition push_branch (b : string) (r : LedgerRecord) : LedgerRecord :=
  mkLedgerRecord (lr_created_at_millis r) (lr_created_index r) (lr_branches r ++ [b]).

Definition retain_other (b : string) (r : LedgerRecord) : LedgerRecord :=
  mkLedgerRecord (lr_created_at_millis r) (lr_created_index r)
    (base.filter (fun x => x <> b) (lr_branches r)).

Definition set_branches (n : Z) (r : RefEntry) : RefEntry :=
  mkRefEntry (re_head r) (re_t r) (re_last_advanced_at_millis r) (re_last_advanced_index r)
    (re_index r) (re_source_branch r) n.

Definition set_index (i : option IndexState) (at_millis : Z) (r : RefEntry) : RefEntry :=
  mkRefEntry (re_head r) (re_t r) at_millis (re_last_advanced_index r) i
    (re_source_branch r) (re_branches r).

Definition clear_queue_for_admin s (ref_key : RefKey) (reason : ClearReason)
    (applied_at_millis : Z) : NameServiceState * list (string * ContentId) :=
  match queues s !! ref_key with
  | None => (s, [])
  | Some queue =>
      let s := with_queues (delete ref_key (queues s)) s in
      match queue with
      | [] => (s, [])
      | _ :: _ =>
          (with_recently_cleared
             (<[ref_key := mkClearMarker reason applied_at_millis]> (recently_cleared s)) s,
           (fun e => (ref_ledger_id ref_key, qe_request_cid e)) <$> queue)
      end
  end.

Definition decrement_child_count s (ledger_id parent_branch : string) : NameServiceState * Z :=
  let k := mkRefKey ledger_id parent_branch in
  match refs s !! k with
  | Some parent =>
      let n := u32_saturating_sub1 (re_branches parent) in
      (with_refs (<[k := set_branches n parent]> (refs s)) s, n)
  | None => (s, 0)
  end.

(** [ledger.branches.retain(|b| b != branch)] and removal of an emptied record;
    the flag says whether the branch was listed. *)
Definition unregister_branch s (ledger_id branch : string) : NameServiceState * bool :=
  match ledgers s !! ledger_id with
  | Some ledger =>
      let ledger' := retain_other branch ledger in
      let removed := (length (lr_branches ledger') <? length (lr_branches ledger))%nat in
      match lr_branches ledger' with
      | [] => (with_ledgers (delete ledger_id (ledgers s)) s, removed)
      | _ :: _ => (with_ledgers (<[ledger_id := ledger']> (ledgers s)) s, removed)
      end
  | None => (s, false)
  end.

(** ** Ledger and branch lifecycle *)

Definition create_ledger s (log_index : Z) (args : NewLedger) : NameServiceState * Response :=
  let '(mkNewLedger ledger_id branch created_at_millis) := args in
  let ledger := default (mkLedgerRecord created_at_millis log_index []) (ledgers s !! ledger_id) in
  if bool_decide (branch ∈ lr_branches ledger)
  then (with_ledgers (<[ledger_id := ledger]> (ledgers s)) s,
        AlreadyExists (format_ledger_id ledger_id branch))
  else (with_ledgers (<[ledger_id := push_branch branch ledger]> (ledgers s)) s,
        Created (format_ledger_id ledger_id branch)).

Definition retract_ledger s (ledger_id branch : string) (applied_at_millis : Z) :
    NameServiceState * Response :=
  let key := mkRefKey ledger_id branch in
  let full := format_ledger_id ledger_id branch in
  if negb (branch_known (ledgers s) ledger_id branch) then (s, AlreadyRetracted full)
  else if bool_decide (key ∈ retracted s) then (s, AlreadyRetracted full)
  else
    let s := with_retracted ({[key]} ∪ retracted s) s in
    let '(s, released) := clear_queue_for_admin s key BranchRetractedR applied_at_millis in
    (s, Retracted full released).

Definition has_children s (key : RefKey) : option Z :=
  match refs s !! key with
  | Some entry => if 0 <? re_branches entry then Some (re_branches entry) else None
  | None => None
  end.

Definition purge_branch s (ledger_id branch : string) (applied_at_millis : Z) :
    NameServiceState * Response :=
  let key := mkRefKey ledger_id branch in
  let full := format_ledger_id ledger_id branch in
  match has_children s key with
  | Some n => (s, BranchHasChildren full n)
  | None =>
      let removed_entry := refs s !! key in
      let removed_ref := bool_decide (is_Some removed_entry) in
      let removed_source := removed_entry ≫= re_source_branch in
      let removed_retraction := bool_decide (key ∈ retracted s) in
      let s := with_retracted (retracted s ∖ {[key]}) (with_refs (delete key (refs s)) s) in
      let '(s, removed_branch) := unregister_branch s ledger_id branch in
      let s := match removed_source with
               | Some parent => fst (decrement_child_count s ledger_id parent)
               | None => s
               end in
      let '(s, released) := clear_queue_for_admin s key BranchPurgedR applied_at_millis in
      if removed_ref || removed_retraction || removed_branch
      then (s, Purged full released) else (s, AlreadyPurged full)
  end.

Definition create_branch s (log_index : Z) (args : NewBranch) : NameServiceState * Response :=
  let '(mkNewBranch ledger_id branch source_branch at_commit applied_at_millis) := args in
  let full := format_ledger_id ledger_id branch in
  match ledgers s !! ledger_id with
  | None => (s, LedgerNotFound ledger_id)
  | Some ledger =>
  if bool_decide (branch ∈ lr_branches ledger) then (s, AlreadyExists full) else
  let source_key := mkRefKey ledger_id source_branch in
  match refs s !! source_key with
  | None => (s, SourceBranchNotFound (format_ledger_id ledger_id source_branch))
  | Some source =>
      let '(head, t) := default (re_head source, re_t source) at_commit in
      let s := with_ledgers (<[ledger_id := push_branch branch ledger]> (ledgers s)) s in
      let s := with_refs (<[source_key :=
        set_branches (u32_saturating_add1 (re_branches source)) source]> (refs s)) s in
      let s := with_refs (<[mkRefKey ledger_id branch :=
        mkRefEntry head t applied_at_millis log_index None (Some source_branch) 0]> (refs s)) s in
      (s, BranchCreated full head t)
  end
  end.

Definition drop_branch s (ledger_id branch : string) (applied_at_millis : Z) :
    NameServiceState * Response :=
  let key := mkRefKey ledger_id branch in
  let full := format_ledger_id ledger_id branch in
  if negb (branch_known (ledgers s) ledger_id branch) then (s, LedgerNotFound full) else
  match has_children s key with
  | Some n => (s, BranchHasChildren full n)
  | None =>
      let removed_source := refs s !! key ≫= re_source_branch in
      let s := with_retracted (retracted s ∖ {[key]}) (with_refs (delete key (refs s)) s) in
      let '(s, _) := unregister_branch s ledger_id branch in
      let '(s, parent_branches) :=
        match removed_source with
        | Some parent => let '(s, n) := decrement_child_count s ledger_id parent in (s, Some n)
        | None => (s, None)
        end in
      let '(s, released) := clear_queue_for_admin s key BranchDroppedR applied_at_millis in
      (s, BranchDropped full parent_branches released)
  end.

Definition reset_head s (ledger_id branch : string) (snapshot : ResetHeadSnapshot)
    (applied_at_millis : Z) : NameServiceState * Response :=
  let key := mkRefKey ledger_id branch in
  let full := format_ledger_id ledger_id branch in
  if negb (branch_known (ledgers s) ledger_id branch) then (s, LedgerNotFound full)
  else if bool_decide (key ∈ retracted s) then (s, LedgerRetracted full)
  else
    let s :=
      match rhs_commit_head_id snapshot with
      | None => with_refs (delete key (refs s)) s
      | Some head =>
          let '(prior_source, prior_branches) :=
            match refs s !! key with
            | Some r => (re_source_branch r, re_branches r)
            | None => (None, 0)
            end in
          let index := (fun h => mkIndexState h (rhs_index_t snapshot)) <$> rhs_index_head_id snapshot in
          with_refs (<[key := mkRefEntry head (rhs_commit_t snapshot) 0 0 index
                                prior_source prior_branches]> (refs s)) s
      end in
    let '(s, released) := clear_queue_for_admin s key BranchHeadResetR applied_at_millis in
    (s, HeadReset full released).

(** ** Index heads and compare-and-set *)

Definition set_index_head s (args : NewIndexHead) (is_stale : Z -> Z -> bool) :
    NameServiceState * Response :=
  let '(mkNewIndexHead ledger_id branch new_index_head t applied_at_millis) := args in
  match ledgers s !! ledger_id with
  | None => (s, LedgerNotFound ledger_id)
  | Some _ =>
  let ref_key := mkRefKey ledger_id branch in
  if bool_decide (ref_key ∈ retracted s)
  then (s, LedgerRetracted (format_ledger_id ledger_id branch)) else
  match refs s !! ref_key with
  | None => (s, LedgerNotFound ledger_id)
  | Some entry =>
      let write :=
        if re_t entry <? t then (s, IndexAhead (re_t entry) t)
        else (with_refs (<[ref_key :=
                set_index (Some (mkIndexState new_index_head t)) applied_at_millis entry]> (refs s)) s,
              IndexAdvanced t new_index_head) in
      match re_index entry with
      | Some existing => if is_stale (ix_t existing) t then (s, IndexStale (ix_t existing)) else write
      | None => write
      end
  end
  end.

Definition advance_index_head s args := set_index_head s args (fun existing_t new_t => new_t <=? existing_t).
Definition rewrite_index_head s args := set_index_head s args (fun existing_t new_t => new_t <? existing_t).

Definition current_ref_value s (key : RefKey) (kind : RefKind) : option RefValue :=
  if negb (branch_known (ledgers s) (ledger_name key) (branch key)) then None else
  let entry := refs s !! key in
  Some match kind with
  | CommitHead => mkRefValue (re_head <$> entry) (default 0 (re_t <$> entry))
  | IndexHead =>
      let index := entry ≫= re_index in
      mkRefValue (ix_head <$> index) (default 0 (ix_t <$> index))
  end.

Definition apply_compare_and_set_ref s (log_index : Z) (args : RefCas) : NameServiceState * Response :=
  let '(mkRefCas ledger_id branch kind expected new applied_at_millis) := args in
  let key := mkRefKey ledger_id branch in
  let full := format_ledger_id ledger_id branch in
  match current_ref_value s key kind with
  | None => (s, LedgerNotFound full)
  | Some current =>
  if bool_decide (key ∈ retracted s) then (s, LedgerRetracted full) else
  let expected_matches :=
    match expected with
    | None => bool_decide (rv_id current = None)
    | Some rv => bool_decide (current = rv)
    end in
  if negb expected_matches then (s, RefCasConflict (Some current)) else
  let monotonic :=
    match kind with
    | CommitHead => rv_t current <? rv_t new
    | IndexHead => rv_t current <=? rv_t new
    end in
  if negb monotonic then (s, RefCasConflict (Some current)) else
  match kind with
  | CommitHead =>
      match rv_id new with
      | None => (s, RefCasConflict (Some current))
      | Some head =>
          let '(prior_index, prior_source, prior_branches) :=
            match refs s !! key with
            | Some r => (re_index r, re_source_branch r, re_branches r)
            | None => (None, None, 0)
            end in
          (with_refs (<[key := mkRefEntry head (rv_t new) applied_at_millis log_index
                                 prior_index prior_source prior_branches]> (refs s)) s,
           RefCasUpdated)
      end
  | IndexHead =>
      match refs s !! key with
      | None => (s, IndexAhead 0 (rv_t new))
      | Some entry =>
          if re_t entry <? rv_t new then (s, IndexAhead (re_t entry) (rv_t new)) else
          (with_refs (<[key := set_index ((fun h => mkIndexState h (rv_t new)) <$> rv_id new)
                                 applied_at_millis entry]> (refs s)) s,
           RefCasUpdated)
      end
  end
  end.

(** ** Versioned values *)

(** [trait VersionedValue]: what an absent record reads as, the version, the
    [==] of the value and the responses. *)
Record VersionedValue (T : Type) := mkVersioned {
  vv_absent : T;
  vv_v : T -> Z;
  vv_eqb : T -> T -> bool;
  vv_conflict : option T -> Response;
  vv_updated : Response;
}.
Arguments vv_absent {T}. Arguments vv_v {T}. Arguments vv_eqb {T}.
Arguments vv_conflict {T}. Arguments vv_updated {T}.

(** [StatusValue::initial] has version 1 and state "ready". *)
Definition stored_status_initial : StoredStatus := mkStoredStatus 1 "ready" [].
Definition stored_config_unborn : StoredConfig := mkStoredConfig 0 None.

Definition versioned_status : VersionedValue StoredStatus :=
  mkVersioned _ stored_status_initial ss_v stored_status_eqb StatusConflict StatusUpdated.
Definition versioned_config : VersionedValue StoredConfig :=
  mkVersioned _ stored_config_unborn sc_v stored_config_eqb ConfigConflict ConfigUpdated.

Definition apply_versioned_push {T} (V : VersionedValue T) (ls : gmap string LedgerRecord)
    (values : gmap string T) (ledger_id : string) (expected : option T) (new : T) :
    gmap string T * Response :=
  match split_ledger_id ledger_id with
  | Ok (name, branch) =>
      if negb (branch_known ls name branch) then (values, vv_conflict V None) else
      let current := default (vv_absent V) (values !! ledger_id) in
      let expected_is_current :=
        match expected with Some e => vv_eqb V e current | None => false end in
      if negb expected_is_current then (values, vv_conflict V (Some current))
      else if vv_v V new <=? vv_v V current then (values, vv_conflict V (Some current))
      else (<[ledger_id := new]> values, vv_updated V)
  | _ => (values, vv_conflict V None)
  end.

(** ** Graph sources *)

Definition apply_publish_graph_source s (name branch : string) (source_type : GraphSourceType)
    (config : string) (dependencies : list string) : NameServiceState * Response :=
  let graph_source_id := format_ledger_id name branch in
  let record :=
    match graph_sources s !! graph_source_id with
    | Some r => mkGraphSource (gs_graph_source_id r) (gs_name r) (gs_branch r) source_type config
                  dependencies (gs_index_id r) (gs_index_t r) (gs_retracted r)
    | None => graph_source_new name branch source_type config dependencies
    end in
  (with_graph_sources (<[graph_source_id := record]> (graph_sources s)) s, GraphSourcePublished).

Definition apply_publish_graph_source_index s (name branch : string) (index_id : ContentId)
    (index_t : Z) : NameServiceState * Response :=
  let graph_source_id := format_ledger_id name branch in
  match graph_sources s !! graph_source_id with
  | None => (s, GraphSourceNotFound graph_source_id)
  | Some r =>
      if index_t <=? gs_index_t r then (s, GraphSourceIndexStale (gs_index_t r)) else
      (with_graph_sources (<[graph_source_id :=
         mkGraphSource (gs_graph_source_id r) (gs_name r) (gs_branch r) (gs_source_type r)
           (gs_config r) (gs_dependencies r) (Some index_id) index_t (gs_retracted r)]>
         (graph_sources s)) s,
       GraphSourceIndexAdvanced index_t)
  end.

Definition apply_retract_graph_source s (name branch : string) : NameServiceState * Response :=
  let graph_source_id := format_ledger_id name branch in
  match graph_sources s !! graph_source_id with
  | Some r =>
      if negb (gs_retracted r) then
        (with_graph_sources (<[graph_source_id :=
           mkGraphSource (gs_graph_source_id r) (gs_name r) (gs_branch r) (gs_source_type r)
             (gs_config r) (gs_dependencies r) (gs_index_id r) (gs_index_t r) true]>
           (graph_sources s)) s,
         GraphSourceRetracted graph_source_id)
      else (s, GraphSourceAlreadyRetracted graph_source_id)
  | None => (s, GraphSourceAlreadyRetracted graph_source_id)
  end.

(** ** The command queue *)

Definition global_depth (qs : gmap RefKey (list QueueEntry)) : Z :=
  map_fold (fun _ q n => zlen q + n) 0 qs.

(** Step 1: the cached outcome of the key. *)
Definition cached_response (body_cid : ContentId) (outcome : ApplyOutcome) : Response :=
  if bool_decide (ao_body_cid outcome = body_cid) then
    match outcome with
    | Applied record => IdempotencyHit record
    | Failed record => IdempotencyFailed record
    end
  else BodyHashMismatch.

(** Step 2: the first queued entry with the key. *)
Fixpoint in_flight (full : string) (key : IdempotencyCacheKey) (body_cid : ContentId)
    (queue : list QueueEntry) : option Response :=
  match queue with
  | [] => None
  | entry :: queue =>
      if bool_decide (qe_idempotency entry = Some key) then
        Some (if bool_decide (qe_body_cid entry = body_cid)
              then InFlight full (qe_queue_id entry) else BodyHashMismatch)
      else in_flight full key body_cid queue
  end.

Definition dedup_response s (full : string) (ref_key : RefKey) (body_cid : ContentId)
    (key : IdempotencyCacheKey) : option Response :=
  match idempotency s !! key with
  | Some outcome => Some (cached_response body_cid outcome)
  | None => queues s !! ref_key ≫= in_flight full key body_cid
  end.

Definition append_entry s (ref_key : RefKey) (entry : QueueEntry) : NameServiceState :=
  let s := with_recently_cleared (delete ref_key (recently_cleared s)) s in
  let s := with_next_queue_id (u64_wrapping_add1 (next_queue_id s)) s in
  with_queues (<[ref_key := default [] (queues s !! ref_key) ++ [entry]]> (queues s)) s.

Definition apply_enqueue_command s (log_index : Z) (args : QueueSubmission) :
    NameServiceState * Response :=
  let '(mkQueueSubmission ledger_id branch idem request_cid body_cid body_kind applied_at_millis) := args in
  let full := format_ledger_id ledger_id branch in
  let ref_key := mkRefKey ledger_id branch in
  if negb (branch_known (ledgers s) ledger_id branch) then (s, LedgerNotFound full)
  else if bool_decide (ref_key ∈ retracted s) then (s, LedgerRetracted full) else
  match idem ≫= dedup_response s full ref_key body_cid with
  | Some resp => (s, resp)
  | None =>
      let per_branch_cap := per_branch_cap (queue_config s) in
      let per_branch_depth := zlen (default [] (queues s !! ref_key)) in
      if per_branch_cap <=? per_branch_depth
      then (s, QueueFull full per_branch_depth per_branch_cap PerBranch) else
      let global_cap := global_cap (queue_config s) in
      let global_depth := global_depth (queues s) in
      if global_cap <=? global_depth
      then (s, QueueFull full global_depth global_cap Global) else
      let queue_id := next_queue_id s in
      (append_entry s ref_key
         (mkQueueEntry queue_id log_index applied_at_millis idem request_cid body_cid body_kind),
       Enqueued full queue_id)
  end.

Definition pop_validated_front s (ref_key : RefKey) (full : string) (requested_queue_id : Z) :
    NameServiceState * (QueueEntry + Response) :=
  let desync reason := inr (QueueDesync full requested_queue_id reason) in
  match recently_cleared s !! ref_key with
  | Some marker =>
      (with_recently_cleared (delete ref_key (recently_cleared s)) s,
       desync (QueueCleared (cm_reason marker)))
  | None =>
      match queues s !! ref_key with
      | Some (entry :: rest) =>
          if negb (qe_queue_id entry =? requested_queue_id)
          then (s, desync (WrongFront (qe_queue_id entry)))
          else (with_queues (<[ref_key := rest]> (queues s)) s, inl entry)
      | _ => (s, desync InvariantViolated)
      end
  end.

Definition drop_queue_if_empty s (ref_key : RefKey) : NameServiceState :=
  match queues s !! ref_key with
  | Some [] => with_queues (delete ref_key (queues s)) s
  | _ => s
  end.

(** Record the outcome of a keyed entry; a keyless one hands its envelope back. *)
Definition record_outcome s (entry : QueueEntry) (outcome : ApplyOutcome) :
    NameServiceState * option ContentId :=
  match qe_idempotency entry with
  | Some key => (with_idempotency (<[key := outcome]> (idempotency s)) s, None)
  | None => (s, Some (qe_request_cid entry))
  end.

(** The branch's head after a commit: fields other than the head are kept. *)
Definition advanced_entry (old : option RefEntry) (commit_id : ContentId) (commit_t at_millis log_index : Z) :
    RefEntry :=
  match old with
  | Some r => mkRefEntry commit_id commit_t at_millis log_index (re_index r) (re_source_branch r)
                (re_branches r)
  | None => mkRefEntry commit_id commit_t at_millis log_index None None 0
  end.

Definition self_heal_branch s (ledger_id branch : string) : NameServiceState :=
  match ledgers s !! ledger_id with
  | Some ledger =>
      if bool_decide (branch ∈ lr_branches ledger) then s
      else with_ledgers (<[ledger_id := push_branch branch ledger]> (ledgers s)) s
  | None => s
  end.

Definition apply_head s (log_index : Z) (args : StagedHead) : NameServiceState * Response :=
  let '(mkStagedHead ledger_id branch queue_id commit_id commit_t applied_at_millis tally flake_count) := args in
  let full := format_ledger_id ledger_id branch in
  let ref_key := mkRefKey ledger_id branch in
  if bool_decide (ref_key ∈ retracted s) then (s, LedgerRetracted full) else
  match pop_validated_front s ref_key full queue_id with
  | (s, inr resp) => (s, resp)
  | (s, inl entry) =>
      let advance :=
        let s := drop_queue_if_empty s ref_key in
        let s := with_refs (<[ref_key :=
          advanced_entry (refs s !! ref_key) commit_id commit_t applied_at_millis log_index]> (refs s)) s in
        let s := self_heal_branch s ledger_id branch in
        let '(s, released_envelope) :=
          record_outcome s entry (Applied (mkApplyRecord (qe_request_cid entry) (qe_body_cid entry)
            (qe_body_kind entry) applied_at_millis commit_id commit_t log_index tally flake_count)) in
        (s, HeadApplied full commit_id commit_t released_envelope) in
      match refs s !! ref_key with
      | Some r =>
          if commit_t <=? re_t r then
            (with_queues (alter (cons entry) ref_key (queues s)) s,
             QueueDesync full queue_id (HeadNotMonotonic (re_t r) commit_t))
          else advance
      | None => advance
      end
  end.

Definition apply_poison_queue_entry s (log_index : Z) (args : EntryPoisoning) :
    NameServiceState * Response :=
  let '(mkEntryPoisoning ledger_id branch queue_id reason applied_at_millis) := args in
  let full := format_ledger_id ledger_id branch in
  let ref_key := mkRefKey ledger_id branch in
  match pop_validated_front s ref_key full queue_id with
  | (s, inr resp) => (s, resp)
  | (s, inl entry) =>
      let s := drop_queue_if_empty s ref_key in
      let '(s, released_envelope) :=
        record_outcome s entry (Failed (mkPoisonRecord (qe_request_cid entry) (qe_body_cid entry)
          reason log_index applied_at_millis)) in
      (s, Poisoned full queue_id reason released_envelope)
  end.

(** ** Eviction *)

Definition EVICT_BATCH_SIZE : nat := 1024.

(** [(recorded_at_millis, recorded_index)] in lexicographic order. *)
Definition evict_le (a b : Z * Z * IdempotencyCacheKey) : Prop :=
  a.1.1 < b.1.1 \/ (a.1.1 = b.1.1 /\ a.1.2 <= b.1.2).
#[export] Instance evict_le_dec : RelDecision evict_le.
Proof. intros a b. unfold evict_le. apply _. Defined.

Definition expired (cutoff_millis : Z) (cache : gmap IdempotencyCacheKey ApplyOutcome) :
    list (Z * Z * IdempotencyCacheKey) :=
  omap (fun '(key, outcome) =>
    if ao_recorded_at_millis outcome <? cutoff_millis
    then Some (ao_recorded_at_millis outcome, ao_recorded_index outcome, key) else None)
    (cache_iter cache).

Definition evict_batch (cutoff_millis : Z) (cache : gmap IdempotencyCacheKey ApplyOutcome) :
    list IdempotencyCacheKey :=
  snd <$> take EVICT_BATCH_SIZE (merge_sort evict_le (expired cutoff_millis cache)).

Definition evict_one (acc : gmap IdempotencyCacheKey ApplyOutcome * list (string * ContentId))
    (key : IdempotencyCacheKey) : gmap IdempotencyCacheKey ApplyOutcome * list (string * ContentId) :=
  let '(cache, released) := acc in
  match cache !! key with
  | Some outcome => (delete key cache, released ++ [(ik_ledger_id key, ao_request_cid outcome)])
  | None => (cache, released)
  end.

Definition apply_evict_idempotency s (cutoff_millis marker_cutoff_millis : Z) :
    NameServiceState * Response :=
  let batch := evict_batch cutoff_millis (idempotency s) in
  let '(cache, released) := fold_left evict_one batch (idempotency s, []) in
  let removed := zlen batch in
  let s := with_evicted_count (as_u 64 (evicted_idempotency_count s + removed)) (with_idempotency cache s) in
  let s := with_recently_cleared
    (base.filter (fun km => marker_cutoff_millis <= cm_applied_at_millis km.2) (recently_cleared s)) s in
  (s, EvictionApplied removed released).

(** ** Worker eligibility *)

Definition apply_set_worker_eligibility s (args : WorkerEligibility) : NameServiceState * Response :=
  let '(mkWorkerEligibility voter eligible _) := args in
  if negb (bool_decide (voter ∈ configured_voters s))
  then (s, WorkerEligibilityRefused voter eligible VoterNotConfigured)
  else
    let present := bool_decide (voter ∈ worker_eligible_voters s) in
    if eligible then
      (with_voters ({[voter]} ∪ worker_eligible_voters s) (configured_voters s) s,
       WorkerEligibilitySet voter eligible (negb present))
    else
      (with_voters (worker_eligible_voters s ∖ {[voter]}) (configured_voters s) s,
       WorkerEligibilitySet voter eligible present).

(** ** Dispatch *)

Definition apply s (command : Command) (log_index : Z) : NameServiceState * Response :=
  match command with
  | AdvanceIndexHead args => advance_index_head s args
  | RewriteIndexHead args => rewrite_index_head s args
  | CreateLedger args => create_ledger s log_index args
  | CreateBranch args => create_branch s log_index args
  | DropBranch ledger_id branch applied_at_millis => drop_branch s ledger_id branch applied_at_millis
  | ResetHead ledger_id branch snapshot applied_at_millis =>
      reset_head s ledger_id branch snapshot applied_at_millis
  | RetractLedger ledger_id branch applied_at_millis => retract_ledger s ledger_id branch applied_at_millis
  | PurgeBranch ledger_id branch applied_at_millis => purge_branch s ledger_id branch applied_at_millis
  | ReleaseContent _ => (s, NoOp)
  | CompareAndSetRef args => apply_compare_and_set_ref s log_index args
  | PushStatus ledger_id expected new =>
      let '(m, resp) := apply_versioned_push versioned_status (ledgers s) (status s) ledger_id expected new in
      (with_status m s, resp)
  | PushConfig (mkConfigUpdate ledger_id expected new) =>
      let '(m, resp) := apply_versioned_push versioned_config (ledgers s) (config s) ledger_id expected new in
      (with_config m s, resp)
  | PublishGraphSource name branch source_type config dependencies =>
      apply_publish_graph_source s name branch source_type config dependencies
  | PublishGraphSourceIndex name branch index_id index_t =>
      apply_publish_graph_source_index s name branch index_id index_t
  | RetractGraphSource name branch => apply_retract_graph_source s name branch
  | EnqueueCommand args => apply_enqueue_command s log_index args
  | ApplyHead args => apply_head s log_index args
  | PoisonQueueEntry args => apply_poison_queue_entry s log_index args
  | EvictIdempotency cutoff_millis marker_cutoff_millis =>
      apply_evict_idempotency s cutoff_millis marker_cutoff_millis
  | SetWorkerEligibility args => apply_set_worker_eligibility s args
  end.

End apply.
