(* ===== verification/RaftAdapter.v ===== *)
(** * Replicated nameservice: the node around the state machine

    [fluree-db-consensus/src/raft/state_machine_adapter.rs] (what a node does
    with a batch of committed log entries: apply, announce, wake waiters,
    release envelopes), [waiter.rs] (the map of parked proposers),
    [staged_receipt.rs] (receipts stashed between staging and applying) and
    [ownership.rs] (which node runs the worker of a branch).

    A oneshot channel is its number; sending on it is an element of the list of
    deliveries an operation returns, and a sender dropped unsent delivers
    nothing.  Events, head reports and releases are likewise returned as the
    lists the node emits, in order. *)

From stdpp Require Import base list numbers gmap strings.
From Stdlib Require Import ZArith Lia.
From S2P Require Import Prelude Value Envelope LedgerId RaftTypes RaftApply.

Local Open Scope Z_scope.

Inductive ConflictStrategy := TakeBoth | AbortStrategy | TakeSource | TakeBranch | SkipCommit.

Record IndexingStatus := mkIndexingStatus {
  is_enabled : bool; is_needed : bool; is_novelty_size : Z; is_index_t : Z; is_commit_t : Z;
}.

Section adapter.
Context `{CacheOrder}.

(** ** Receipts *)

Record TransactApplied := mkTransactApplied {
  ta_commit_id : ContentId; ta_commit_t : Z; ta_flake_count : Z; ta_tally : option RecordedTally;
}.
Record PushApplied := mkPushApplied {
  pa_commit_id : ContentId; pa_commit_t : Z; pa_accepted : Z; pa_indexing : IndexingStatus;
}.
Record RevertApplied := mkRevertApplied {
  rva_commit_id : ContentId; rva_commit_t : Z; rva_reverted_commits : list ContentId;
  rva_conflict_count : Z; rva_strategy : ConflictStrategy;
}.
Record MergeApplied := mkMergeApplied {
  ma_commit_id : ContentId; ma_commit_t : Z; ma_fast_forward : bool; ma_commits_copied : Z;
  ma_conflict_count : Z; ma_strategy : ConflictStrategy;
}.
Record RebaseApplied := mkRebaseApplied {
  rba_commit_id : ContentId; rba_commit_t : Z; rba_fast_forward : bool; rba_replayed : Z;
  rba_skipped : Z; rba_conflicts : Z; rba_failures : Z; rba_total_commits : Z;
  rba_source_head_t : Z; rba_source_head_id : ContentId; rba_strategy : ConflictStrategy;
}.

Inductive AppliedReceipt :=
| TransactReceipt (r : TransactApplied)
| PushReceipt (r : PushApplied)
| RevertReceipt (r : RevertApplied)
| MergeReceipt (r : MergeApplied)
| RebaseReceipt (r : RebaseApplied)
| Minimal (commit_id : ContentId) (commit_t : Z).

Definition receipt_commit_id (r : AppliedReceipt) : ContentId :=
  match r with
  | TransactReceipt r => ta_commit_id r
  | PushReceipt r => pa_commit_id r
  | RevertReceipt r => rva_commit_id r
  | MergeReceipt r => ma_commit_id r
  | RebaseReceipt r => rba_commit_id r
  | Minimal c _ => c
  end.

Definition receipt_commit_t (r : AppliedReceipt) : Z :=
  match r with
  | TransactReceipt r => ta_commit_t r
  | PushReceipt r => pa_commit_t r
  | RevertReceipt r => rva_commit_t r
  | MergeReceipt r => ma_commit_t r
  | RebaseReceipt r => rba_commit_t r
  | Minimal _ t => t
  end.

Abbreviation Receipts := (gmap Z (RefKey * AppliedReceipt)).

Definition stash (m : Receipts) (queue_id : Z) (k : RefKey) (r : AppliedReceipt) : Receipts :=
  <[queue_id := (k, r)]> m.

Definition stash_if_absent (m : Receipts) (queue_id : Z) (k : RefKey) (r : AppliedReceipt) :
    Receipts * bool :=
  match m !! queue_id with
  | None => (<[queue_id := (k, r)]> m, true)
  | Some _ => (m, false)
  end.

Definition take_receipt (m : Receipts) (queue_id : Z) : Receipts * option AppliedReceipt :=
  (delete queue_id m, snd <$> m !! queue_id).

Definition take_for_ref_key (m : Receipts) (k : RefKey) : Receipts * list AppliedReceipt :=
  (base.filter (fun x => x.2.1 <> k) m,
   (fun x => x.2.2) <$> map_to_list (base.filter (fun x => x.2.1 = k) m)).

Definition peek_queue_id_for (m : Receipts) (k : RefKey) : option Z :=
  match (map_to_list (base.filter (fun x => x.2.1 = k) m)).*1 with
  | [] => None
  | q :: qs => Some (fold_left Z.min qs q)
  end.

Definition take_pending (m : Receipts) (k : RefKey) : Receipts * option (Z * AppliedReceipt) :=
  match peek_queue_id_for m k with
  | None => (m, None)
  | Some queue_id => (delete queue_id m, (fun x => (queue_id, x.2)) <$> m !! queue_id)
  end.

Definition peek_transact_metadata (m : Receipts) (queue_id : Z) : option (Z * option RecordedTally) :=
  match m !! queue_id with
  | Some (_, TransactReceipt r) => Some (ta_flake_count r, ta_tally r)
  | _ => None
  end.

(** ** Waiters *)

Inductive AbortReason :=
| AbortBranchDropped | AbortBranchPurged | AbortBranchHeadReset | AbortBranchRetracted
| SnapshotInstalled
| PoisonedEntry (reason : PoisonReason).

Inductive WaiterOutcome :=
| WaiterApplied (r : AppliedReceipt)
| WaiterAborted (reason : AbortReason).

Inductive WaiterSlot :=
| Parked (ref_key : RefKey) (sender : Z)
| Resolved (o : WaiterOutcome).

Abbreviation Waiters := (gmap Z WaiterSlot).
Abbreviation Deliveries := (list (Z * WaiterOutcome)).

Definition register (w : Waiters) (queue_id : Z) (ref_key : RefKey) (sender : Z) : Waiters * Deliveries :=
  match w !! queue_id with
  | None => (<[queue_id := Parked ref_key sender]> w, [])
  | Some (Resolved o) => (delete queue_id w, [(sender, o)])
  | Some (Parked _ _) => (<[queue_id := Parked ref_key sender]> w, [])
  end.

Definition resolve_with (w : Waiters) (queue_id : Z) (o : WaiterOutcome) : Waiters * Deliveries :=
  match w !! queue_id with
  | None => (<[queue_id := Resolved o]> w, [])
  | Some (Parked _ sender) => (delete queue_id w, [(sender, o)])
  | Some (Resolved _) => (<[queue_id := Resolved o]> w, [])
  end.

Definition resolve_applied (w : Waiters) (queue_id : Z) (r : AppliedReceipt) : Waiters * Deliveries :=
  resolve_with w queue_id (WaiterApplied r).
Definition resolve_aborted (w : Waiters) (queue_id : Z) (reason : AbortReason) : Waiters * Deliveries :=
  resolve_with w queue_id (WaiterAborted reason).

Definition parked_on (ref_key : RefKey) (slot : WaiterSlot) : bool :=
  match slot with Parked rk _ => bool_decide (rk = ref_key) | Resolved _ => false end.

(** Run an operation on the map for each id, collecting what is delivered. *)
Definition for_each_id (f : Waiters -> Z -> Waiters * Deliveries) (ids : list Z) (w : Waiters) :
    Waiters * Deliveries :=
  fold_left (fun '(w, out) q => let '(w, d) := f w q in (w, out ++ d)) ids (w, []).

Definition abort_all_for_branch (w : Waiters) (ref_key : RefKey) (reason : AbortReason) :
    Waiters * Deliveries :=
  let to_resolve := (List.filter (fun x => parked_on ref_key x.2) (map_to_list w)).*1 in
  for_each_id (fun w q => resolve_aborted w q reason) to_resolve w.

Definition drain_all_with (w : Waiters) (reason : AbortReason) : Waiters * Deliveries :=
  for_each_id (fun w q =>
    (delete q w,
     match w !! q with Some (Parked _ sender) => [(sender, WaiterAborted reason)] | _ => [] end))
    (map_to_list w).*1 w.

(** ** What an applied command triggers *)

Inductive WaiterResolution :=
| ResolveApplied (queue_id : Z) (commit_id : ContentId) (commit_t : Z)
| ResolveAborted (queue_id : Z) (reason : AbortReason)
| AbortBranch (ref_key : RefKey) (reason : AbortReason).

Definition waiter_resolution_for (cmd : Command) (response : Response) : option WaiterResolution :=
  match cmd, response with
  | ApplyHead args, HeadApplied _ commit_id commit_t _ =>
      Some (ResolveApplied (sh_queue_id args) commit_id commit_t)
  | PoisonQueueEntry _, Poisoned _ queue_id reason _ =>
      Some (ResolveAborted queue_id (PoisonedEntry reason))
  | DropBranch l b _, BranchDropped _ _ _ => Some (AbortBranch (mkRefKey l b) AbortBranchDropped)
  | PurgeBranch l b _, Purged _ _ => Some (AbortBranch (mkRefKey l b) AbortBranchPurged)
  | ResetHead l b _ _, HeadReset _ _ => Some (AbortBranch (mkRefKey l b) AbortBranchHeadReset)
  | RetractLedger l b _, Retracted _ _ => Some (AbortBranch (mkRefKey l b) AbortBranchRetracted)
  | _, _ => None
  end.

Inductive NameServiceEvent :=
| LedgerCommitPublished (ledger_id : string) (commit_id : ContentId) (commit_t : Z)
| LedgerIndexPublished (ledger_id : string) (index_id : ContentId) (index_t : Z)
| LedgerRetractedEvent (ledger_id : string)
| GraphSourceConfigPublished (graph_source_id : string) (source_type : GraphSourceType)
    (dependencies : list string)
| GraphSourceIndexPublished (graph_source_id : string) (index_id : ContentId) (index_t : Z)
| GraphSourceRetractedEvent (graph_source_id : string).

Definition event_for (cmd : Command) (response : Response) : option NameServiceEvent :=
  match cmd, response with
  | ApplyHead args, HeadApplied _ commit_id commit_t _ =>
      Some (LedgerCommitPublished (format_ledger_id (sh_ledger_id args) (sh_branch args)) commit_id commit_t)
  | AdvanceIndexHead args, IndexAdvanced index_t index_head =>
      Some (LedgerIndexPublished (format_ledger_id (nih_ledger_id args) (nih_branch args)) index_head index_t)
  | RetractLedger _ _ _, Retracted ledger_id _ => Some (LedgerRetractedEvent ledger_id)
  | PurgeBranch _ _ _, Purged ledger_id _ => Some (LedgerRetractedEvent ledger_id)
  | DropBranch _ _ _, BranchDropped ledger_id _ _ => Some (LedgerRetractedEvent ledger_id)
  | CreateBranch _, BranchCreated ledger_id head t => Some (LedgerCommitPublished ledger_id head t)
  | _, _ => None
  end.

(** The pairs to release and the response with them taken out. *)
Definition drain_releases (response : Response) : Response * list (string * ContentId) :=
  match response with
  | EvictionApplied n released => (EvictionApplied n [], released)
  | Purged l released => (Purged l [], released)
  | BranchDropped l p released => (BranchDropped l p [], released)
  | HeadReset l released => (HeadReset l [], released)
  | Retracted l released => (Retracted l [], released)
  | HeadApplied l c t released => (HeadApplied l c t None, (fun cid => (l, cid)) <$> option_list released)
  | Poisoned l q r released => (Poisoned l q r None, (fun cid => (l, cid)) <$> option_list released)
  | r => (r, [])
  end.

(** ** Applying a batch of log entries *)

Inductive EntryPayload :=
| Blank
| Normal (cmd : Command)
| Membership (voter_ids : gset NodeId).

Definition apply_membership (s : NameServiceState) (new_voters : gset NodeId) : NameServiceState :=
  let surviving_demotions :=
    base.filter (fun id => id ∈ new_voters) (configured_voters s ∖ worker_eligible_voters s) in
  with_voters (new_voters ∖ surviving_demotions) new_voters s.

Record Batch := mkBatch {
  b_responses : list Response;
  b_events : list NameServiceEvent;
  b_resolutions : list WaiterResolution;
  b_releases : list (string * ContentId);
}.
Definition batch_new : Batch := mkBatch [] [] [] [].

Definition apply_entry (acc : NameServiceState * Batch) (entry : Z * EntryPayload) : NameServiceState * Batch :=
  let '(s, b) := acc in
  let '(log_index, payload) := entry in
  match payload with
  | Blank => (s, mkBatch (b_responses b ++ [NoOp]) (b_events b) (b_resolutions b) (b_releases b))
  | Normal cmd =>
      let '(s, response) := apply s cmd log_index in
      let '(drained, releases) := drain_releases response in
      (s, mkBatch (b_responses b ++ [drained])
            (b_events b ++ option_list (event_for cmd response))
            (b_resolutions b ++ option_list (waiter_resolution_for cmd response))
            (b_releases b ++ releases))
  | Membership m =>
      (apply_membership s m,
       mkBatch (b_responses b ++ [NoOp]) (b_events b) (b_resolutions b) (b_releases b))
  end.

Definition apply_entries (s : NameServiceState) (entries : list (Z * EntryPayload)) : NameServiceState * Batch :=
  fold_left apply_entry entries (s, batch_new).

(** [LedgerManager::note_head_advance] for each commit event. *)
Definition head_reports (events : list NameServiceEvent) : list (string * Z) :=
  omap (fun e => match e with LedgerCommitPublished l _ t => Some (l, t) | _ => None end) events.

Definition run_resolution (acc : Waiters * Receipts * Deliveries) (r : WaiterResolution) :
    Waiters * Receipts * Deliveries :=
  let '(w, receipts, out) := acc in
  match r with
  | ResolveApplied queue_id commit_id commit_t =>
      let '(receipts, found) := take_receipt receipts queue_id in
      let '(w, d) := resolve_applied w queue_id (default (Minimal commit_id commit_t) found) in
      (w, receipts, out ++ d)
  | ResolveAborted queue_id reason =>
      let '(receipts, _) := take_receipt receipts queue_id in
      let '(w, d) := resolve_aborted w queue_id reason in
      (w, receipts, out ++ d)
  | AbortBranch ref_key reason =>
      let '(receipts, _) := take_for_ref_key receipts ref_key in
      let '(w, d) := abort_all_for_branch w ref_key reason in
      (w, receipts, out ++ d)
  end.

Record Adapter := mkAdapter { ad_state : NameServiceState; ad_waiters : Waiters; ad_receipts : Receipts }.

(** The whole [RaftStateMachine::apply]: the new adapter, the responses, the
    events and head reports, the releases and the waiters' deliveries. *)
Definition adapter_apply (ad : Adapter) (entries : list (Z * EntryPayload)) :
    Adapter * Batch * list (string * Z) * Deliveries :=
  let '(s, b) := apply_entries (ad_state ad) entries in
  let '(w, receipts, out) :=
    fold_left run_resolution (b_resolutions b) (ad_waiters ad, ad_receipts ad, []) in
  (mkAdapter s w receipts, b, head_reports (b_events b), out).

(** [install_snapshot], after the snapshot bytes have been decoded. *)
Definition install_snapshot (ad : Adapter) (new_state : NameServiceState) :
    Adapter * list (string * Z) * Deliveries :=
  let restored_heads := (fun x => (ref_ledger_id x.1, re_t x.2)) <$> map_to_list (refs new_state) in
  let '(w, out) := drain_all_with (ad_waiters ad) SnapshotInstalled in
  (mkAdapter new_state w ∅, restored_heads, out).
End adapter.

(** ** Worker ownership

    [xxh64] is the interface; [max_by_key] keeps the last of equal maxima, and
    the keys [(score, node)] of distinct nodes differ. *)
Section ownership.
Context (xxh64 : list Z -> Z -> Z).

Definition RENDEZVOUS_SEED : Z := 0x6661656652464252.

Definition string_bytes (s : string) : list Z :=
  (fun a => Z.of_N (Ascii.N_of_ascii a)) <$> String.list_ascii_of_string s.

Definition node_le_bytes (n : Z) : list Z :=
  (fun i => Z.land (Z.shiftr n (8 * Z.of_nat i)) 255) <$> seq 0 8.

Definition key_digest (k : RefKey) : Z :=
  let hash := xxh64 (string_bytes (ledger_name k)) RENDEZVOUS_SEED in
  let hash := xxh64 (string_bytes ":") hash in
  xxh64 (string_bytes (branch k)) hash.

Definition rendezvous_score (node key_digest : Z) : Z := xxh64 (node_le_bytes node) key_digest.

(** [(score, node)] lexicographically. *)
Definition weight_leb (a b : Z * Z) : bool := (a.1 <? b.1) || ((a.1 =? b.1) && (a.2 <=? b.2)).

Definition max_by_weight (l : list (Z * Z)) : option (Z * Z) :=
  match l with
  | [] => None
  | x :: l => Some (fold_left (fun best y => if weight_leb best y then y else best) l x)
  end.

Definition owner (k : RefKey) (voters : list Z) : option Z :=
  let digest := key_digest k in
  snd <$> max_by_weight ((fun node => (rendezvous_score node digest, node)) <$> voters).
End ownership.
