(* ===== verification/RaftInv.v ===== *)
(** * Replicated nameservice: the state invariant

    What holds of the nameservice after every log entry: registered branches,
    queues, queue ids, depth caps, admin markers, the idempotency cache and the
    voter sets.  The invariant is split by the fields it reads, so that a
    handler has to re-establish the parts it writes. *)

From stdpp Require Import base list numbers gmap sets strings sorting relations.
From Stdlib Require Import ZArith Lia.
From S2P Require Import Prelude Value Envelope LedgerId RaftTypes RaftApply RaftAdapter.

Local Open Scope Z_scope.

Section inv.
Context {CL : CidLib} {CO : CacheOrder} {CW : CacheLaws}.

Implicit Types s : NameServiceState.

(** ** The invariant *)

Definition known (ls : gmap string LedgerRecord) (k : RefKey) : Prop :=
  branch_known ls (ledger_name k) (branch k) = true.

(** Heads and tombstones belong to registered branches; a ledger record lists
    at least one branch, and each once. *)
Record registry_ok (rs : gmap RefKey RefEntry) (ls : gmap string LedgerRecord)
    (dead : gset RefKey) : Prop := {
  rg_refs : forall k e, rs !! k = Some e -> known ls k;
  rg_dead : forall k, k ∈ dead -> known ls k;
  rg_ledger : forall l r, ls !! l = Some r -> lr_branches r <> [] /\ NoDup (lr_branches r);
}.

Definition ids (q : list QueueEntry) : list Z := qe_queue_id <$> q.

(** A queue belongs to a registered, live branch without an admin marker; it is
    not empty; its ids increase and were handed out; ids are unique across
    branches; depths respect the caps. *)
Record queues_ok (ls : gmap string LedgerRecord) (dead : gset RefKey)
    (qs : gmap RefKey (list QueueEntry)) (marks : gmap RefKey ClearMarker)
    (next : Z) (cfg : QueueConfig) : Prop := {
  qu_branch : forall k q, qs !! k = Some q -> known ls k /\ (k ∉ dead) /\ marks !! k = None;
  qu_shape : forall k q, qs !! k = Some q ->
    q <> [] /\ StronglySorted Z.lt (ids q) /\ Forall (fun i => 0 <= i < next) (ids q) /\
    zlen q <= per_branch_cap cfg;
  qu_apart : forall k1 k2 q1 q2 i, qs !! k1 = Some q1 -> qs !! k2 = Some q2 ->
    i ∈ ids q1 -> i ∈ ids q2 -> k1 = k2;
  qu_depth : global_depth qs <= global_cap cfg;
}.

(** Cached outcomes were recorded at distinct log indexes up to [i]. *)
Record cache_ok (cache : gmap IdempotencyCacheKey ApplyOutcome) (i : Z) : Prop := {
  ca_bound : forall k o, cache !! k = Some o -> ao_recorded_index o <= i;
  ca_apart : forall k1 k2 o1 o2, cache !! k1 = Some o1 -> cache !! k2 = Some o2 ->
    ao_recorded_index o1 = ao_recorded_index o2 -> k1 = k2;
}.

Record ns_inv (i : Z) (s : NameServiceState) : Prop := {
  inv_registry : registry_ok (refs s) (ledgers s) (retracted s);
  inv_queues : queues_ok (ledgers s) (retracted s) (queues s) (recently_cleared s)
    (next_queue_id s) (queue_config s);
  inv_next : 0 <= next_queue_id s <= i + 1;
  inv_cache : cache_ok (idempotency s) i;
  inv_voters : worker_eligible_voters s ⊆ configured_voters s;
  inv_config : queue_config s = queue_config_default;
}.

Lemma ns_inv_new : ns_inv (-1) state_new.
Proof.
  split; cbn.
  - split; [done|set_solver|done].
  - split; [done|done|done|]. by vm_compute.
  - lia.
  - split; done.
  - done.
  - done.
Qed.

(** ** Registered branches *)

Lemma known_iff ls k :
  known ls k <-> exists r, ls !! ledger_name k = Some r /\ branch k ∈ lr_branches r.
Proof.
  unfold known, branch_known. destruct (ls !! ledger_name k) as [r|] eqn:E.
  - rewrite bool_decide_eq_true. naive_solver.
  - naive_solver.
Qed.

Lemma known_push ls l r b k :
  ls !! l = Some r -> known ls k -> known (<[l := push_branch b r]> ls) k.
Proof.
  intros E. rewrite !known_iff. intros (r' & E' & Hb).
  destruct (decide (ledger_name k = l)) as [<-|Hn].
  - rewrite lookup_insert_eq. simplify_eq. eexists; split; [done|]. cbn. set_solver.
  - rewrite lookup_insert_ne by done. eauto.
Qed.

Lemma known_pushed ls l r b : known (<[l := push_branch b r]> ls) (mkRefKey l b).
Proof. rewrite known_iff. cbn. rewrite lookup_insert_eq. eexists; split; [done|]. cbn. set_solver. Qed.

Lemma known_new ls l r k : ls !! l = None -> known ls k -> known (<[l := r]> ls) k.
Proof.
  intros E. rewrite !known_iff. intros (r' & E' & Hb).
  destruct (decide (ledger_name k = l)) as [<-|Hn]; [congruence|].
  rewrite lookup_insert_ne by done. eauto.
Qed.

Lemma known_not_known ls l b : negb (branch_known ls l b) = false <-> known ls (mkRefKey l b).
Proof. unfold known. cbn. by destruct (branch_known ls l b). Qed.

(** *** Registry updates *)

Lemma registry_insert_ref rs ls dead k e :
  known ls k -> registry_ok rs ls dead -> registry_ok (<[k := e]> rs) ls dead.
Proof.
  intros Hk [H1 H2 H3]. split; [|done..]. intros k' e'.
  destruct (decide (k = k')) as [<-|Hn]; [done|]. rewrite lookup_insert_ne by done. apply H1.
Qed.

Lemma registry_delete_ref rs ls dead k : registry_ok rs ls dead -> registry_ok (delete k rs) ls dead.
Proof.
  intros [H1 H2 H3]. split; [|done..]. intros k' e' [_ E]%lookup_delete_Some. by eapply H1.
Qed.

Lemma registry_push rs ls dead l r b :
  ls !! l = Some r -> b ∉ lr_branches r ->
  registry_ok rs ls dead -> registry_ok rs (<[l := push_branch b r]> ls) dead.
Proof.
  intros E Hb [H1 H2 H3]. split.
  - intros k e He. eapply known_push; eauto.
  - intros k Hk. eapply known_push; eauto.
  - intros l' r' [[<- <-]|[Hn E']]%lookup_insert_Some; [|by eapply H3]. cbn.
    destruct (H3 _ _ E) as [_ Hd]. split; [by destruct (lr_branches r)|].
    apply NoDup_app. split; [done|]. split; [set_solver|apply NoDup_singleton].
Qed.

Lemma registry_new_ledger rs ls dead l b at_millis i :
  ls !! l = None -> registry_ok rs ls dead ->
  registry_ok rs (<[l := push_branch b (mkLedgerRecord at_millis i [])]> ls) dead.
Proof.
  intros E [H1 H2 H3]. split.
  - intros k e He. eapply known_new; eauto.
  - intros k Hk. eapply known_new; eauto.
  - intros l' r' [[<- <-]|[Hn E']]%lookup_insert_Some; [|by eapply H3]. cbn.
    split; [done|apply NoDup_singleton].
Qed.

Lemma registry_retract rs ls dead k :
  known ls k -> registry_ok rs ls dead -> registry_ok rs ls ({[k]} ∪ dead).
Proof. intros Hk [H1 H2 H3]. split; [done| |done]. set_solver. Qed.

(** [unregister_branch] and the other branches. *)
Lemma unregister_ledgers s l b k :
  k <> mkRefKey l b -> known (ledgers s) k -> known (ledgers (unregister_branch s l b).1) k.
Proof.
  intros Hn. rewrite !known_iff. intros (r & E & Hb). unfold unregister_branch.
  destruct (ledgers s !! l) as [r'|] eqn:El; cbv zeta; [|cbn; eauto].
  destruct (decide (ledger_name k = l)) as [<-|Hl].
  - simplify_eq. assert (branch k ∈ lr_branches (retain_other b r)) as Hb'.
    { cbn. apply list_elem_of_filter. split; [|done]. intros <-. by destruct k. }
    destruct (lr_branches (retain_other b r)) eqn:Ef; [by apply elem_of_nil in Hb'|].
    cbn [fst ledgers with_ledgers]. rewrite lookup_insert_eq.
    exists (retain_other b r). split; [done|]. by rewrite Ef.
  - destruct (lr_branches (retain_other b r')); cbn [fst ledgers with_ledgers].
    + rewrite lookup_delete_ne by done. eauto.
    + rewrite lookup_insert_ne by done. eauto.
Qed.

Lemma unregister_keeps s l b :
  let s' := (unregister_branch s l b).1 in
  refs s' = refs s /\ retracted s' = retracted s /\ idempotency s' = idempotency s /\
  queues s' = queues s /\ next_queue_id s' = next_queue_id s /\
  recently_cleared s' = recently_cleared s /\ queue_config s' = queue_config s /\
  worker_eligible_voters s' = worker_eligible_voters s /\
  configured_voters s' = configured_voters s.
Proof.
  cbn. unfold unregister_branch. destruct (ledgers s !! l) as [r|]; [|done].
  by destruct (lr_branches (retain_other b r)).
Qed.

Lemma unregister_ledger_ok s l b :
  (forall l r, ledgers s !! l = Some r -> lr_branches r <> [] /\ NoDup (lr_branches r)) ->
  forall l' r, ledgers (unregister_branch s l b).1 !! l' = Some r ->
    lr_branches r <> [] /\ NoDup (lr_branches r).
Proof.
  intros Hl l' r. unfold unregister_branch. destruct (ledgers s !! l) as [r0|] eqn:E; [|apply Hl]. cbv zeta.
  assert (NoDup (lr_branches (retain_other b r0))) as Hd by (apply NoDup_filter; by apply (Hl l)).
  destruct (lr_branches (retain_other b r0)) eqn:Ef; cbn [fst ledgers with_ledgers].
  - intros [_ E']%lookup_delete_Some. by eapply Hl.
  - intros [[<- <-]|[Hn E']]%lookup_insert_Some; [|by eapply Hl]. by rewrite Ef.
Qed.

(** ** Queues *)

Lemma global_depth_insert qs k q :
  qs !! k = None -> global_depth (<[k := q]> qs) = zlen q + global_depth qs.
Proof.
  intros E. unfold global_depth. rewrite map_fold_insert_L; [done| |done].
  intros; lia.
Qed.

Lemma global_depth_delete qs k q :
  qs !! k = Some q -> global_depth qs = zlen q + global_depth (delete k qs).
Proof.
  intros E. rewrite <- (insert_delete_id qs k q E) at 1.
  apply global_depth_insert, lookup_delete_eq.
Qed.

Lemma global_depth_replace qs k q :
  global_depth (<[k := q]> qs) = zlen q - zlen (default [] (qs !! k)) + global_depth qs.
Proof.
  rewrite <- (insert_delete_eq qs k), global_depth_insert by apply lookup_delete_eq.
  destruct (qs !! k) as [q'|] eqn:E; cbn [default from_option id].
  - rewrite (global_depth_delete qs k q' E). lia.
  - rewrite delete_id by done. rewrite zlen_nil. lia.
Qed.

Lemma queues_weaken ls ls' dead dead' qs marks marks' next next' cfg :
  queues_ok ls dead qs marks next cfg ->
  (forall k q, qs !! k = Some q -> known ls k -> known ls' k) ->
  (forall k q, qs !! k = Some q -> k ∈ dead' -> k ∈ dead) ->
  (forall k q, qs !! k = Some q -> marks !! k = None -> marks' !! k = None) ->
  next <= next' -> queues_ok ls' dead' qs marks' next' cfg.
Proof.
  intros [H1 H2 H3 H4] Hl Hd Hm Hn. split; [| |done..].
  - intros k q E. destruct (H1 k q E) as (? & ? & ?). naive_solver.
  - intros k q E. destruct (H2 k q E) as (? & ? & Hf & ?). split_and!; [done..| |done].
    eapply Forall_impl; [done|]. cbn. lia.
Qed.

Lemma queues_delete ls dead qs marks next cfg k :
  queues_ok ls dead qs marks next cfg -> queues_ok ls dead (delete k qs) marks next cfg.
Proof.
  intros [H1 H2 H3 H4]. split.
  - intros k' q [_ E]%lookup_delete_Some. eauto.
  - intros k' q [_ E]%lookup_delete_Some. eauto.
  - intros k1 k2 q1 q2 i [_ E1]%lookup_delete_Some [_ E2]%lookup_delete_Some. eauto.
  - destruct (qs !! k) as [q|] eqn:E; [|by rewrite delete_id].
    rewrite (global_depth_delete qs k q E) in H4. pose proof (zlen_nonneg q). lia.
Qed.

(** Popping the front of a queue. *)
Lemma queues_shrink ls dead qs marks next cfg k e rest :
  queues_ok ls dead qs marks next cfg -> qs !! k = Some (e :: rest) -> rest <> [] ->
  queues_ok ls dead (<[k := rest]> qs) marks next cfg.
Proof.
  intros [H1 H2 H3 H4] E Hr.
  assert (forall i, i ∈ ids rest -> i ∈ ids (e :: rest)) as Hin by set_solver.
  split.
  - intros k' q' [[<- <-]|[_ E']]%lookup_insert_Some; eauto.
  - intros k' q' [[<- <-]|[_ E']]%lookup_insert_Some; [|eauto].
    destruct (H2 k _ E) as (_ & Hss & Hf & Hc). rewrite zlen_cons in Hc.
    split_and!; [done| | |lia].
    + by apply StronglySorted_inv in Hss as [Hss _].
    + by apply Forall_cons in Hf as [_ Hf].
  - intros k1 k2 q1 q2 i [[<- <-]|[_ E1]]%lookup_insert_Some [[<- <-]|[_ E2]]%lookup_insert_Some;
      eauto.
  - rewrite global_depth_replace, E. cbn [default from_option id]. rewrite zlen_cons. lia.
Qed.

Lemma queues_append ls dead qs marks next cfg k e :
  queues_ok ls dead qs marks next cfg -> known ls k -> k ∉ dead -> 0 <= next ->
  zlen (default [] (qs !! k)) < per_branch_cap cfg -> global_depth qs < global_cap cfg ->
  qe_queue_id e = next ->
  queues_ok ls dead (<[k := default [] (qs !! k) ++ [e]]> qs) (delete k marks) (next + 1) cfg.
Proof.
  intros [H1 H2 H3 H4] Hk Hd Hn Hc Hg He.
  assert (forall k q i, qs !! k = Some q -> i ∈ ids q -> i < next) as Hlt.
  { intros k' q i E Hi. destruct (H2 k' q E) as (_ & _ & Hf & _).
    rewrite Forall_forall in Hf. by apply Hf. }
  assert (forall k' q, k' <> k -> qs !! k' = Some q -> next ∈ ids q -> False) as Hfresh.
  { intros k' q _ E Hi. specialize (Hlt _ _ _ E Hi). lia. }
  split.
  - intros k' q [[<- <-]|[Hne E]]%lookup_insert_Some; [by rewrite lookup_delete_eq|].
    rewrite lookup_delete_ne by done. eauto.
  - intros k' q [[<- <-]|[Hne E]]%lookup_insert_Some.
    + destruct (qs !! k) as [q|] eqn:E; cbn in Hc |- *; unfold ids.
      * destruct (H2 k q E) as (Hq & Hss & Hf & _). rewrite fmap_app, zlen_app.
        split_and!; [by destruct q| | |rewrite zlen_cons, zlen_nil; lia].
        -- apply StronglySorted_app. split_and!; [|done|by repeat constructor].
           intros x y Hx Hy. apply list_elem_of_singleton in Hy as ->. rewrite He. eauto.
        -- apply Forall_app. split; [|repeat constructor; cbn; lia].
           eapply Forall_impl; [done|]. cbn. lia.
      * split_and!; [done|by repeat constructor|repeat constructor; cbn; lia|].
        rewrite zlen_nil in Hc. rewrite zlen_cons, zlen_nil. lia.
    + destruct (H2 k' q E) as (? & ? & Hf & ?). split_and!; [done..| |done].
      eapply Forall_impl; [done|]. cbn. lia.
  - assert (forall i, i ∈ ids (default [] (qs !! k) ++ [e]) ->
      i = next \/ exists q, qs !! k = Some q /\ i ∈ ids q) as Hids.
    { intros i. unfold ids. rewrite fmap_app, elem_of_app. intros [Hi|Hi].
      - destruct (qs !! k) as [q|]; [eauto|by apply elem_of_nil in Hi].
      - cbn in Hi. apply list_elem_of_singleton in Hi as ->. by left. }
    intros k1 k2 q1 q2 i [[<- <-]|[Hn1 E1]]%lookup_insert_Some [[<- <-]|[Hn2 E2]]%lookup_insert_Some;
      [done| | |eauto].
    + intros [->|(q & E & Hi)]%Hids Hi2; [by eapply Hfresh in E2|eauto].
    + intros Hi1 [->|(q & E & Hi)]%Hids; [by eapply Hfresh in E1|eauto].
  - rewrite global_depth_replace, zlen_app, zlen_cons, zlen_nil. lia.
Qed.

(** ** Elementary steps of the handlers *)

Lemma ns_inv_mono i j s : i <= j -> ns_inv i s -> ns_inv j s.
Proof.
  intros Hij [H1 H2 H3 [H4 H4'] H5 H6]. split; [done|done|lia| |done|done].
  split; [|done]. intros k o E. specialize (H4 k o E). lia.
Qed.

Lemma ns_inv_with_refs i s rs :
  registry_ok rs (ledgers s) (retracted s) -> ns_inv i s -> ns_inv i (with_refs rs s).
Proof. intros Hr []. by split. Qed.

Lemma ns_inv_insert_ref i s k e :
  known (ledgers s) k -> ns_inv i s -> ns_inv i (with_refs (<[k := e]> (refs s)) s).
Proof. intros Hk Hi. apply ns_inv_with_refs; [|done]. apply registry_insert_ref, Hi; done. Qed.

Lemma ns_inv_with_marks i s m :
  (forall k q, queues s !! k = Some q -> recently_cleared s !! k = None -> m !! k = None) ->
  ns_inv i s -> ns_inv i (with_recently_cleared m s).
Proof.
  intros Hm []. split; try done. eapply queues_weaken; [done|naive_solver|naive_solver|done|cbn; lia].
Qed.

Lemma ns_inv_clear i s k reason t :
  ns_inv i s -> ns_inv i (clear_queue_for_admin s k reason t).1.
Proof.
  intros Hi. unfold clear_queue_for_admin. destruct (queues s !! k) as [q|] eqn:E; [|done].
  assert (ns_inv i (with_queues (delete k (queues s)) s)) as Hi'.
  { destruct Hi. split; try done. by apply queues_delete. }
  destruct q as [|e q]; [done|]. cbn [fst]. apply ns_inv_with_marks; [|done]. cbn.
  intros k' q' [Hn E']%lookup_delete_Some Hm. by rewrite lookup_insert_ne.
Qed.

Lemma ns_inv_decrement i s l p :
  ns_inv i s -> ns_inv i (decrement_child_count s l p).1.
Proof.
  intros Hi. unfold decrement_child_count.
  destruct (refs s !! mkRefKey l p) as [e|] eqn:E; [|done]. cbn [fst].
  apply ns_inv_insert_ref; [|done]. by eapply rg_refs; [apply Hi|].
Qed.

(** A branch leaves the registry with its head, its tombstone and its queue;
    the queue goes last, so the statement leaves the branch's queue out. *)
Definition without_branch (k : RefKey) s : NameServiceState :=
  with_queues (delete k (queues s)) s.

Lemma ns_inv_unregister i s l b :
  let k := mkRefKey l b in
  ns_inv i s ->
  ns_inv i (without_branch k (unregister_branch
    (with_retracted (retracted s ∖ {[k]}) (with_refs (delete k (refs s)) s)) l b).1).
Proof.
  intros k [[R1 R2 R3] Q N C V F].
  set (s1 := with_retracted (retracted s ∖ {[k]}) (with_refs (delete k (refs s)) s)).
  destruct (unregister_keeps s1 l b) as (E1 & E2 & E3 & E4 & E5 & E6 & E7 & E8 & E9).
  assert (forall k', k' <> k -> known (ledgers s) k' ->
    known (ledgers (unregister_branch s1 l b).1) k') as Hk by (intros; by apply unregister_ledgers).
  split; unfold without_branch; cbn -[unregister_branch];
    rewrite ?E1, ?E2, ?E3, ?E4, ?E5, ?E6, ?E7, ?E8, ?E9; cbn -[unregister_branch]; try done.
  - split.
    + intros k' e [Hn E]%lookup_delete_Some. eauto.
    + intros k' Hk'. apply Hk; [set_solver|apply R2; set_solver].
    + by apply unregister_ledger_ok.
  - eapply queues_weaken; [by apply queues_delete| | |done|lia].
    + intros k' q [Hn E]%lookup_delete_Some Hkn. by apply Hk.
    + set_solver.
Qed.

(** Clearing the queue of the branch that left. *)
Lemma ns_inv_clear_without i s k reason t :
  ns_inv i (without_branch k s) -> ns_inv i (clear_queue_for_admin s k reason t).1.
Proof.
  intros Hi. unfold clear_queue_for_admin. destruct (queues s !! k) as [q|] eqn:E.
  - fold (without_branch k s). destruct q as [|e q]; [done|]. cbn [fst].
    apply ns_inv_with_marks; [|done]. cbn.
    intros k' q' [Hn E']%lookup_delete_Some Hm. by rewrite lookup_insert_ne.
  - unfold without_branch in Hi. rewrite delete_id in Hi by done. by destruct s.
Qed.

Lemma ns_inv_decrement_without i s k l p :
  ns_inv i (without_branch k s) -> ns_inv i (without_branch k (decrement_child_count s l p).1).
Proof.
  intros Hi. apply (ns_inv_decrement i _ l p) in Hi. revert Hi.
  unfold decrement_child_count, without_branch; cbn. by destruct (refs s !! mkRefKey l p).
Qed.

(** ** Handlers *)

Lemma create_ledger_inv i s log args : ns_inv i s -> ns_inv i (create_ledger s log args).1.
Proof.
  intros Hi. destruct args as [l b t]. unfold create_ledger.
  pose proof Hi as [R Q ? ? ? ?].
  destruct (ledgers s !! l) as [r|] eqn:E; cbn [default from_option id].
  - case_bool_decide as Hb; cbn [fst].
    + rewrite insert_id by done. by destruct s.
    + split; try done; [by apply registry_push|].
      eapply queues_weaken; [done| |done|done|cbn; lia]. intros. by eapply known_push.
  - case_bool_decide as Hb; [by apply elem_of_nil in Hb|]. cbn [fst].
    split; try done; [by apply registry_new_ledger|].
    eapply queues_weaken; [done| |done|done|cbn; lia]. intros. by eapply known_new.
Qed.

Lemma retract_ledger_inv i s l b t : ns_inv i s -> ns_inv i (retract_ledger s l b t).1.
Proof.
  intros Hi. unfold retract_ledger.
  destruct (negb (branch_known (ledgers s) l b)) eqn:Hk; [done|]. apply known_not_known in Hk.
  case_bool_decide; [done|]. set (k := mkRefKey l b) in *.
  set (s1 := with_retracted _ s).
  assert (ns_inv i (without_branch k s1)) as Hi'.
  { destruct Hi. split; try done; [by apply registry_retract|].
    eapply queues_weaken; [by apply queues_delete|done| |done|cbn; lia].
    cbn. intros k' q [Hn _]%lookup_delete_Some. set_solver. }
  pose proof (ns_inv_clear_without i s1 k BranchRetractedR t Hi') as Hc.
  by destruct (clear_queue_for_admin s1 k BranchRetractedR t).
Qed.

Lemma purge_branch_inv i s l b t : ns_inv i s -> ns_inv i (purge_branch s l b t).1.
Proof.
  intros Hi. unfold purge_branch. destruct (has_children s (mkRefKey l b)); [done|].
  pose proof (ns_inv_unregister i s l b Hi) as Hu. cbv zeta in Hu |- *.
  destruct (unregister_branch _ l b) as [s2 removed]. cbn [fst] in Hu.
  set (s3 := match _ with Some parent => _ | None => s2 end).
  assert (ns_inv i (without_branch (mkRefKey l b) s3)) as H3.
  { unfold s3. destruct (refs s !! mkRefKey l b ≫= re_source_branch); [|done].
    by apply ns_inv_decrement_without. }
  pose proof (ns_inv_clear_without i s3 _ BranchPurgedR t H3) as Hc.
  destruct (clear_queue_for_admin s3 _ BranchPurgedR t). by destruct (_ || _).
Qed.

Lemma drop_branch_inv i s l b t : ns_inv i s -> ns_inv i (drop_branch s l b t).1.
Proof.
  intros Hi. unfold drop_branch. destruct (negb _); [done|].
  destruct (has_children s (mkRefKey l b)); [done|].
  pose proof (ns_inv_unregister i s l b Hi) as Hu. cbv zeta in Hu |- *.
  destruct (unregister_branch _ l b) as [s2 removed]. cbn [fst] in Hu.
  destruct (match _ with Some parent => _ | None => (s2, None) end) as [s3 n] eqn:E3.
  assert (ns_inv i (without_branch (mkRefKey l b) s3)) as H3.
  { destruct (refs s !! mkRefKey l b ≫= re_source_branch) as [p|]; [|by injection E3 as <- _].
    pose proof (ns_inv_decrement_without i s2 _ l p Hu) as Hd.
    destruct (decrement_child_count s2 l p). by injection E3 as <- _. }
  pose proof (ns_inv_clear_without i s3 _ BranchDroppedR t H3) as Hc.
  by destruct (clear_queue_for_admin s3 _ BranchDroppedR t).
Qed.

Lemma create_branch_inv i s log args : ns_inv i s -> ns_inv i (create_branch s log args).1.
Proof.
  intros Hi. destruct args as [l b src at_commit t]. unfold create_branch.
  destruct (ledgers s !! l) as [r|] eqn:E; [|done]. case_bool_decide as Hb; [done|].
  destruct (refs s !! mkRefKey l src) as [e|] eqn:Er; [|done].
  destruct (default _ at_commit) as [head ct]. cbv zeta. cbn [fst].
  assert (known (ledgers s) (mkRefKey l src)) as Hs by (by eapply rg_refs; [apply Hi|]).
  apply ns_inv_insert_ref; [apply known_pushed|].
  apply ns_inv_insert_ref; [by apply known_push|].
  destruct Hi as [R Q ? ? ? ?]. split; try done; [by apply registry_push|].
  eapply queues_weaken; [done| |done|done|cbn; lia]. intros. by eapply known_push.
Qed.

Lemma reset_head_inv i s l b snap t : ns_inv i s -> ns_inv i (reset_head s l b snap t).1.
Proof.
  intros Hi. unfold reset_head. destruct (negb _) eqn:Hk; [done|]. apply known_not_known in Hk.
  case_bool_decide; [done|]. set (s1 := match _ with None => _ | Some _ => _ end).
  assert (ns_inv i s1) as H1.
  { unfold s1. destruct (rhs_commit_head_id snap).
    - destruct (match refs s !! _ with Some _ => _ | None => _ end). by apply ns_inv_insert_ref.
    - apply ns_inv_with_refs; [|done]. apply registry_delete_ref, Hi. }
  pose proof (ns_inv_clear i s1 (mkRefKey l b) BranchHeadResetR t H1) as Hc.
  by destruct (clear_queue_for_admin s1 _ BranchHeadResetR t).
Qed.

Lemma set_index_head_inv i s args is_stale : ns_inv i s -> ns_inv i (set_index_head s args is_stale).1.
Proof.
  intros Hi. destruct args as [l b h t at_millis]. unfold set_index_head.
  destruct (ledgers s !! l); [|done]. case_bool_decide; [done|].
  destruct (refs s !! mkRefKey l b) as [e|] eqn:Er; [|done].
  assert (known (ledgers s) (mkRefKey l b)) as Hk by (by eapply rg_refs; [apply Hi|]).
  cbv zeta. destruct (re_index e) as [x|]; [destruct (is_stale _ _); [done|]|];
    (destruct (re_t e <? t); [done|]; by apply ns_inv_insert_ref).
Qed.

Lemma current_ref_known s k kind v : current_ref_value s k kind = Some v -> known (ledgers s) k.
Proof.
  unfold current_ref_value, known. by destruct (branch_known (ledgers s) (ledger_name k) (branch k)).
Qed.

Lemma compare_and_set_inv i s log args : ns_inv i s -> ns_inv i (apply_compare_and_set_ref s log args).1.
Proof.
  intros Hi. destruct args as [l b kind expected new t]. unfold apply_compare_and_set_ref.
  destruct (current_ref_value s (mkRefKey l b) kind) as [cur|] eqn:E; [|done].
  apply current_ref_known in E. case_bool_decide; [done|]. cbv zeta.
  destruct (negb _); [done|]. destruct (negb _); [done|]. destruct kind.
  - destruct (rv_id new); [|done]. destruct (match refs s !! _ with Some _ => _ | None => _ end) as [[? ?] ?].
    by apply ns_inv_insert_ref.
  - destruct (refs s !! mkRefKey l b) as [e|]; [|done]. destruct (re_t e <? rv_t new); [done|].
    by apply ns_inv_insert_ref.
Qed.

Lemma enqueue_inv i j s args :
  i < j < 2 ^ 64 - 1 -> ns_inv i s -> ns_inv j (apply_enqueue_command s j args).1.
Proof.
  intros Hij Hi. destruct args as [l b idem req body kind t]. unfold apply_enqueue_command.
  assert (ns_inv j s) as Hj by (apply (ns_inv_mono i); [lia|done]).
  destruct (negb _) eqn:Hk; [done|]. apply known_not_known in Hk.
  case_bool_decide; [done|]. destruct (idem ≫= _); [done|]. cbv zeta.
  destruct (Z.leb_spec (per_branch_cap (queue_config s)) (zlen (default [] (queues s !! mkRefKey l b)))) as [|Hp];
    [done|].
  destruct (Z.leb_spec (global_cap (queue_config s)) (global_depth (queues s))) as [|Hg]; [done|].
  destruct Hi as [R Q N C V F]. cbn [fst]. unfold append_entry.
  assert (u64_wrapping_add1 (next_queue_id s) = next_queue_id s + 1) as En.
  { apply as_u_id. unfold in_u. lia. }
  split; cbn; [done| |rewrite En; lia|by apply Hj|done|done].
  rewrite En. apply queues_append; done || lia.
Qed.

(** The state after a pop that found its entry. *)
Lemma pop_found s k full q s' e :
  pop_validated_front s k full q = (s', inl e) ->
  exists rest, recently_cleared s !! k = None /\ queues s !! k = Some (e :: rest) /\
    qe_queue_id e = q /\ s' = with_queues (<[k := rest]> (queues s)) s.
Proof.
  unfold pop_validated_front. destruct (recently_cleared s !! k); [done|].
  destruct (queues s !! k) as [[|x rest]|]; [done| |done].
  destruct (Z.eqb_spec (qe_queue_id x) q); cbn; [|done]. intros [= <- <-]. eauto.
Qed.

Lemma pop_refused_inv i s k full q s' resp :
  pop_validated_front s k full q = (s', inr resp) -> ns_inv i s -> ns_inv i s'.
Proof.
  unfold pop_validated_front. destruct (recently_cleared s !! k) as [m|] eqn:Em.
  - intros [= <- _] Hi. apply ns_inv_with_marks; [|done]. intros k' q' _ E.
    destruct (decide (k = k')) as [<-|]; [by rewrite lookup_delete_eq|by rewrite lookup_delete_ne].
  - destruct (queues s !! k) as [[|x rest]|]; [by intros [= <- _]| |by intros [= <- _]].
    destruct (negb _); [by intros [= <- _]|done].
Qed.

Definition popped (k : RefKey) (rest : list QueueEntry) s : NameServiceState :=
  with_queues (match rest with [] => delete k (queues s) | _ => <[k := rest]> (queues s) end) s.

Lemma drop_popped s k rest :
  drop_queue_if_empty (with_queues (<[k := rest]> (queues s)) s) k = popped k rest s.
Proof.
  unfold drop_queue_if_empty, popped. cbn. rewrite lookup_insert_eq.
  destruct rest; [|done]. by rewrite delete_insert_eq.
Qed.

Lemma popped_inv i s k e rest : queues s !! k = Some (e :: rest) -> ns_inv i s -> ns_inv i (popped k rest s).
Proof.
  intros E Hi. unfold popped. destruct Hi as [R Q ? ? ? ?]. split; try done. cbn.
  destruct rest as [|e' rest]; [by apply queues_delete|]. by eapply queues_shrink.
Qed.

Lemma self_heal_known s l b : known (ledgers s) (mkRefKey l b) -> self_heal_branch s l b = s.
Proof.
  rewrite known_iff. cbn. intros (r & E & Hb). unfold self_heal_branch. rewrite E.
  by rewrite bool_decide_true.
Qed.

Lemma record_outcome_inv i j s e o :
  i < j -> ao_recorded_index o = j -> ns_inv i s -> ns_inv j (record_outcome s e o).1.
Proof.
  intros Hij Ho Hi. assert (ns_inv j s) as Hj by (apply (ns_inv_mono i); [lia|done]).
  unfold record_outcome. destruct (qe_idempotency e) as [key|]; [|done]. cbn [fst].
  destruct Hi as [_ _ _ [C1 C2] _ _], Hj as [? ? ? [C3 _] ? ?]. split; try done. cbn. split.
  - intros k o' [[<- <-]|[_ E]]%lookup_insert_Some; [lia|by eapply C3].
  - intros k1 k2 o1 o2 [[<- <-]|[_ E1]]%lookup_insert_Some [[<- <-]|[_ E2]]%lookup_insert_Some Eq;
      [done| | |by eapply C2].
    + apply C1 in E2. lia.
    + apply C1 in E1. lia.
Qed.

Lemma apply_head_inv i j s args :
  i < j -> ns_inv i s -> ns_inv j (apply_head s j args).1.
Proof.
  intros Hij Hi. assert (ns_inv j s) as Hj by (apply (ns_inv_mono i); [lia|done]).
  destruct args as [l b q c ct t tally n]. unfold apply_head. case_bool_decide; [done|].
  destruct (pop_validated_front s _ _ q) as [s1 [e|resp]] eqn:Ep;
    [|by eapply pop_refused_inv].
  apply pop_found in Ep as (rest & Em & Eq & Hid & ->). set (k := mkRefKey l b) in *.
  rewrite drop_popped.
  assert (known (ledgers s) k) as Hk by (by eapply qu_branch; [apply Hi|]).
  pose proof (popped_inv i s k e rest Eq Hi) as Hp.
  cbn [refs with_queues].
  set (s2 := with_refs _ (popped k rest s)).
  assert (ns_inv i s2) as H2 by by apply ns_inv_insert_ref.
  rewrite self_heal_known by done.
  set (o := Applied _).
  pose proof (record_outcome_inv i j s2 e o Hij eq_refl H2) as Hr.
  destruct (record_outcome s2 e o) as [s3 rel]. cbn [fst] in Hr.
  destruct (refs s !! k) as [r|]; [|done]. destruct (ct <=? re_t r); [|done]. cbn [fst].
  replace (with_queues _ _) with s; [done|]. destruct s; unfold with_queues; cbn. f_equal.
  cbn in Eq. by rewrite alter_insert_eq, insert_id.
Qed.

Lemma poison_inv i j s args :
  i < j -> ns_inv i s -> ns_inv j (apply_poison_queue_entry s j args).1.
Proof.
  intros Hij Hi. assert (ns_inv j s) as Hj by (apply (ns_inv_mono i); [lia|done]).
  destruct args as [l b q reason t]. unfold apply_poison_queue_entry.
  destruct (pop_validated_front s _ _ q) as [s1 [e|resp]] eqn:Ep; [|by eapply pop_refused_inv].
  apply pop_found in Ep as (rest & Em & Eq & Hid & ->). rewrite drop_popped.
  pose proof (popped_inv i s _ e rest Eq Hi) as Hp. set (o := Failed _).
  pose proof (record_outcome_inv i j _ e o Hij eq_refl Hp) as Hr.
  by destruct (record_outcome _ e o).
Qed.

Lemma evict_fold_incl (batch : list IdempotencyCacheKey) cache released k o :
  (fold_left evict_one batch (cache, released)).1 !! k = Some o -> cache !! k = Some o.
Proof.
  revert cache released. induction batch as [|key batch IH]; intros cache released; [done|].
  cbn [fold_left evict_one]. destruct (cache !! key); intros E%IH; [|done].
  by apply lookup_delete_Some in E as [_ E].
Qed.

Lemma evict_inv i s cut mcut : ns_inv i s -> ns_inv i (apply_evict_idempotency s cut mcut).1.
Proof.
  intros Hi. unfold apply_evict_idempotency. cbv zeta.
  pose proof (evict_fold_incl (evict_batch cut (idempotency s)) (idempotency s) []) as Hf.
  destruct (fold_left evict_one _ _) as [cache released]. cbn [fst] in Hf |- *.
  apply ns_inv_with_marks; cbn.
  - intros k q _ E. apply map_lookup_filter_None. by left.
  - destruct Hi as [? ? ? [C1 C2] ? ?]. split; try done. split; cbn; eauto.
Qed.

(** ** Every entry of the log *)

Lemma apply_inv i j s cmd :
  i < j < 2 ^ 64 - 1 -> ns_inv i s -> ns_inv j (apply s cmd j).1.
Proof.
  intros Hij Hi. assert (ns_inv j s) as Hj by (apply (ns_inv_mono i); [lia|done]).
  destruct cmd; cbn [apply].
  - by apply set_index_head_inv.
  - by apply set_index_head_inv.
  - by apply create_ledger_inv.
  - by apply create_branch_inv.
  - by apply drop_branch_inv.
  - by apply reset_head_inv.
  - by apply retract_ledger_inv.
  - by apply purge_branch_inv.
  - done.
  - by apply compare_and_set_inv.
  - destruct (apply_versioned_push _ _ _ _ _ _). by destruct Hj; split.
  - destruct args. destruct (apply_versioned_push _ _ _ _ _ _). by destruct Hj; split.
  - unfold apply_publish_graph_source. by destruct Hj; split.
  - unfold apply_publish_graph_source_index. destruct (graph_sources s !! _) as [r|]; [|done].
    destruct (_ <=? _); [done|]. by destruct Hj; split.
  - unfold apply_retract_graph_source. destruct (graph_sources s !! _) as [r|]; [|done].
    destruct (negb _); [|done]. by destruct Hj; split.
  - by eapply enqueue_inv.
  - by apply (apply_head_inv i); [lia|].
  - by apply (poison_inv i); [lia|].
  - by apply evict_inv.
  - unfold apply_set_worker_eligibility. destruct args as [v el t].
    case_bool_decide as Hv; cbn [negb]; [|done].
    destruct Hj, el; cbn [fst]; split; try done; cbn; set_solver.
Qed.

Lemma membership_inv i s m : ns_inv i s -> ns_inv i (apply_membership s m).
Proof. intros []. split; try done. cbn. set_solver. Qed.

(** One committed log entry. *)
Definition log_step s (j : Z) (p : EntryPayload) : NameServiceState :=
  match p with
  | Blank => s
  | Normal cmd => (apply s cmd j).1
  | Membership m => apply_membership s m
  end.

Definition ok_payload (ok : Command -> Prop) (p : EntryPayload) : Prop :=
  match p with Normal cmd => ok cmd | _ => True end.

(** States reached by a log whose commands satisfy [ok], with the index of its
    last entry. *)
Inductive reachable (ok : Command -> Prop) : Z -> NameServiceState -> Prop :=
| reach_new : reachable ok (-1) state_new
| reach_step i j s p :
    reachable ok i s -> i < j < 2 ^ 64 - 1 -> ok_payload ok p -> reachable ok j (log_step s j p).

Lemma reachable_inv ok i s : reachable ok i s -> ns_inv i s.
Proof.
  induction 1 as [|i j s p _ IH Hij]; [apply ns_inv_new|].
  assert (ns_inv j s) by (apply (ns_inv_mono i); [lia|done]).
  destruct p; cbn; [done|by apply (apply_inv i)|by apply membership_inv].
Qed.

(** The log indexes after [i] increase and stay below the largest [u64]. *)
Fixpoint increasing (i : Z) (log : list (Z * EntryPayload)) : Prop :=
  match log with
  | [] => True
  | (j, _) :: log => i < j < 2 ^ 64 - 1 /\ increasing j log
  end.

Definition run_log s (log : list (Z * EntryPayload)) : NameServiceState :=
  fold_left (fun s '(j, p) => log_step s j p) log s.

Fixpoint last_index (i : Z) (log : list (Z * EntryPayload)) : Z :=
  match log with [] => i | (j, _) :: log => last_index j log end.

Lemma run_reachable ok i s log :
  reachable ok i s -> increasing i log -> Forall (fun e => ok_payload ok e.2) log ->
  reachable ok (last_index i log) (run_log s log).
Proof.
  revert i s. induction log as [|[j p] log IH]; intros i s Hr Hinc Hok; [done|].
  destruct Hinc as [Hij Hinc]. apply Forall_cons in Hok as [Hok Hoks].
  apply IH; [by eapply reach_step|done|done].
Qed.

Lemma reachable_bound ok i s : reachable ok i s -> -1 <= i < 2 ^ 64 - 1.
Proof. induction 1; lia. Qed.

(** C22: The replicated nameservice keeps its invariant.  After any log of
    committed entries: heads, tombstones and queues belong to registered
    branches, a ledger record lists at least one branch and each once; a queue
    is non-empty, its branch is neither retracted nor marked as cleared, its
    queue ids increase, were handed out before and occur in no other queue, and
    the depths respect both caps; cached outcomes were recorded at distinct
    indexes of the log; and only configured voters are eligible to host
    workers. *)
Theorem nameservice_invariant (i : Z) (s : NameServiceState) :
  reachable (fun _ => True) i s -> ns_inv i s.
Proof. apply reachable_inv. Qed.
End inv.
