(* ===== verification/RaftEffect.v ===== *)
(** * Replicated nameservice: effects on the queues and the cache

    Each handler does one of five things to the command queues and the
    idempotency cache.  [apply_effect] says which, together with the envelopes
    the response releases and the waiters it wakes; the properties that talk
    about envelopes, keys and waiters are proved by cases on the effect. *)

From stdpp Require Import base list numbers gmap sets strings sorting relations.
From Stdlib Require Import ZArith Lia.
From S2P Require Import Prelude Value Envelope LedgerId RaftTypes RaftApply RaftAdapter RaftInv.

Local Open Scope Z_scope.

Section effect.
Context {CL : CidLib} {CO : CacheOrder} {CW : CacheLaws}.

Implicit Types s : NameServiceState.

Definition releases (resp : Response) : list (string * ContentId) := (drain_releases resp).2.

(** The envelope the state machine takes charge of. *)
Definition accepted (cmd : Command) (resp : Response) : list ContentId :=
  match cmd, resp with
  | EnqueueCommand args, Enqueued _ _ => [qs_request_cid args]
  | _, _ => []
  end.

Definition envelopes (k : RefKey) (q : list QueueEntry) : list (string * ContentId) :=
  (fun e => (ref_ledger_id k, qe_request_cid e)) <$> q.

Definition keys_of (q : list QueueEntry) : list IdempotencyCacheKey := omap qe_idempotency q.

Definition recorded (cache : gmap IdempotencyCacheKey ApplyOutcome) (e : QueueEntry) (o : ApplyOutcome) :
    gmap IdempotencyCacheKey ApplyOutcome :=
  match qe_idempotency e with Some key => <[key := o]> cache | None => cache end.

Definition pop_releases (k : RefKey) (e : QueueEntry) : list (string * ContentId) :=
  match qe_idempotency e with Some _ => [] | None => [(ref_ledger_id k, qe_request_cid e)] end.

Definition resolves (queue_id : Z) (r : option WaiterResolution) : Prop :=
  match r with
  | Some (ResolveApplied q _ _) => q = queue_id
  | Some (ResolveAborted q _) => q = queue_id
  | _ => False
  end.

Inductive effect s (cmd : Command) s' :
    list (string * ContentId) -> list ContentId -> option WaiterResolution -> Prop :=
| eff_none :
    queues s' = queues s -> idempotency s' = idempotency s -> effect s cmd s' [] [] None
| eff_clear k reason :
    queues s' = delete k (queues s) -> idempotency s' = idempotency s ->
    effect s cmd s' (envelopes k (default [] (queues s !! k))) [] (Some (AbortBranch k reason))
| eff_append args e :
    let k := mkRefKey (qs_ledger_id args) (qs_branch args) in
    cmd = EnqueueCommand args ->
    qe_idempotency e = qs_idempotency args -> qe_request_cid e = qs_request_cid args ->
    qe_queue_id e = next_queue_id s ->
    (forall key, qe_idempotency e = Some key ->
      idempotency s !! key = None /\ (key ∉ keys_of (default [] (queues s !! k)))) ->
    queues s' = <[k := default [] (queues s !! k) ++ [e]]> (queues s) ->
    idempotency s' = idempotency s ->
    effect s cmd s' [] [qe_request_cid e] None
| eff_pop k e rest o res :
    queues s !! k = Some (e :: rest) ->
    queues s' = queues (popped k rest s) ->
    ao_request_cid o = qe_request_cid e ->
    idempotency s' = recorded (idempotency s) e o ->
    resolves (qe_queue_id e) res ->
    effect s cmd s' (pop_releases k e) [] res
| eff_evict cut mcut rel :
    cmd = EvictIdempotency cut mcut ->
    queues s' = queues s ->
    fold_left evict_one (evict_batch cut (idempotency s)) (idempotency s, []) = (idempotency s', rel) ->
    effect s cmd s' rel [] None.

(** ** The pieces *)

Lemma clear_effect s k reason t s' rel :
  clear_queue_for_admin s k reason t = (s', rel) ->
  queues s' = delete k (queues s) /\ idempotency s' = idempotency s /\
  rel = envelopes k (default [] (queues s !! k)).
Proof.
  unfold clear_queue_for_admin. destruct (queues s !! k) as [[|e q]|] eqn:E;
    intros [= <- <-]; cbn; [done|done|]. by rewrite delete_id.
Qed.

Lemma pop_refused_same s k full q s' resp :
  pop_validated_front s k full q = (s', inr resp) ->
  queues s' = queues s /\ idempotency s' = idempotency s /\ exists r, resp = QueueDesync full q r.
Proof.
  unfold pop_validated_front. destruct (recently_cleared s !! k) as [m|]; [intros [= <- <-]; cbn; eauto|].
  destruct (queues s !! k) as [[|x rest]|]; [intros [= <- <-]; eauto| |intros [= <- <-]; eauto].
  destruct (negb _); [intros [= <- <-]; eauto|done].
Qed.

Lemma decrement_same s l p :
  queues (decrement_child_count s l p).1 = queues s /\
  idempotency (decrement_child_count s l p).1 = idempotency s.
Proof. unfold decrement_child_count. by destruct (refs s !! mkRefKey l p). Qed.

Lemma in_flight_none full key body q : in_flight full key body q = None <-> key ∉ keys_of q.
Proof.
  induction q as [|e q IH]; cbn; [split; [intros _; apply not_elem_of_nil|done]|].
  case_bool_decide as E; rewrite ?E.
  - split; [done|]. intros Hn. exfalso. apply Hn. left.
  - rewrite IH. destruct (qe_idempotency e) as [key'|]; [|done].
    rewrite not_elem_of_cons. naive_solver.
Qed.

Lemma in_flight_kind full key body q resp :
  in_flight full key body q = Some resp ->
  (exists e, e ∈ q /\ qe_idempotency e = Some key /\ qe_body_cid e = body /\
     resp = InFlight full (qe_queue_id e)) \/ resp = BodyHashMismatch.
Proof.
  induction q as [|e q IH]; cbn; [done|]. case_bool_decide as E.
  - case_bool_decide as Eb; intros [= <-]; [|by right]. left. exists e. set_solver.
  - intros [(e' & ? & ?)|?]%IH; [left; exists e'; set_solver|by right].
Qed.

Lemma dedup_none s full k body key :
  dedup_response s full k body key = None ->
  idempotency s !! key = None /\ (key ∉ keys_of (default [] (queues s !! k))).
Proof.
  unfold dedup_response. destruct (idempotency s !! key); [done|].
  destruct (queues s !! k) as [q|]; cbn; [|intros _; split; [done|apply not_elem_of_nil]].
  intros ?%in_flight_none. done.
Qed.

Lemma record_outcome_effect s e o s' rel :
  record_outcome s e o = (s', rel) ->
  queues s' = queues s /\ idempotency s' = recorded (idempotency s) e o /\
  rel = match qe_idempotency e with Some _ => None | None => Some (qe_request_cid e) end.
Proof.
  unfold record_outcome, recorded. destruct (qe_idempotency e); by intros [= <- <-].
Qed.

Lemma unregister_removed s l b : known (ledgers s) (mkRefKey l b) -> (unregister_branch s l b).2 = true.
Proof.
  intros (r & E & Hb)%known_iff. cbn in E, Hb. unfold unregister_branch. rewrite E. cbv zeta.
  assert (length (lr_branches (retain_other b r)) < length (lr_branches r))%nat as Hlt%Nat.ltb_lt.
  { apply (length_filter_lt _ _ b); [done|]. by intros []. }
  rewrite Hlt. by destruct (lr_branches (retain_other b r)).
Qed.

Definition has_effect s (cmd : Command) (r : NameServiceState * Response) : Prop :=
  effect s cmd r.1 (releases r.2) (accepted cmd r.2) (waiter_resolution_for cmd r.2).

(** A handler that leaves queues and cache alone, and answers with a response
    that releases nothing and wakes nobody. *)
Ltac no_effect := apply eff_none; reflexivity.

Lemma set_index_head_effect s args is_stale cmd :
  (forall r, waiter_resolution_for cmd r = None) -> (forall r, accepted cmd r = []) ->
  has_effect s cmd (set_index_head s args is_stale).
Proof.
  intros Hw Ha. unfold has_effect. rewrite Hw, Ha. destruct args as [l b h t m]. unfold set_index_head.
  destruct (ledgers s !! l); [|no_effect]. case_bool_decide; [no_effect|].
  destruct (refs s !! mkRefKey l b) as [e|]; [|no_effect]. cbv zeta.
  destruct (re_index e); [destruct (is_stale _ _); [no_effect|]|];
    (destruct (re_t e <? t); no_effect).
Qed.

Lemma compare_and_set_effect s j args :
  has_effect s (CompareAndSetRef args) (apply_compare_and_set_ref s j args).
Proof.
  unfold has_effect. destruct args as [l b kind expected new t]. unfold apply_compare_and_set_ref.
  destruct (current_ref_value s (mkRefKey l b) kind) as [cur|]; [|no_effect].
  case_bool_decide; [no_effect|]. cbv zeta.
  destruct (negb _); [no_effect|]. destruct (negb _); [no_effect|]. destruct kind.
  - destruct (rv_id new); [|no_effect].
    destruct (match refs s !! _ with Some _ => _ | None => _ end) as [[? ?] ?]. no_effect.
  - destruct (refs s !! mkRefKey l b) as [e|]; [|no_effect].
    destruct (re_t e <? rv_t new); no_effect.
Qed.

Lemma create_branch_effect s j args : has_effect s (CreateBranch args) (create_branch s j args).
Proof.
  unfold has_effect. destruct args as [l b src at_commit t]. unfold create_branch.
  destruct (ledgers s !! l) as [r|]; [|no_effect]. case_bool_decide; [no_effect|].
  destruct (refs s !! mkRefKey l src); [|no_effect]. destruct (default _ at_commit). no_effect.
Qed.

Lemma retract_effect s l b t : has_effect s (RetractLedger l b t) (retract_ledger s l b t).
Proof.
  unfold has_effect, retract_ledger. destruct (negb _); [no_effect|]. case_bool_decide; [no_effect|].
  destruct (clear_queue_for_admin _ _ _ _) as [s' rel] eqn:E.
  apply clear_effect in E as (Eq & Ei & ->).
  by apply (eff_clear s _ s' (mkRefKey l b)).
Qed.

Lemma reset_effect s l b snap t : has_effect s (ResetHead l b snap t) (reset_head s l b snap t).
Proof.
  unfold has_effect, reset_head. destruct (negb _); [no_effect|]. case_bool_decide; [no_effect|].
  set (s1 := match _ with None => _ | Some _ => _ end).
  assert (queues s1 = queues s /\ idempotency s1 = idempotency s) as [E1 E2].
  { unfold s1. destruct (rhs_commit_head_id snap); [|done].
    by destruct (match refs s !! _ with Some _ => _ | None => _ end). }
  destruct (clear_queue_for_admin s1 _ _ _) as [s' rel] eqn:E.
  apply clear_effect in E as (Eq & Ei & ->). rewrite E1 in *. rewrite E2 in Ei.
  by apply (eff_clear s _ s' (mkRefKey l b)).
Qed.

Lemma drop_effect s l b t : has_effect s (DropBranch l b t) (drop_branch s l b t).
Proof.
  unfold has_effect, drop_branch. destruct (negb _); [no_effect|].
  destruct (has_children s _); [no_effect|]. cbv zeta.
  set (s1 := with_retracted _ _).
  destruct (unregister_keeps s1 l b) as (_ & _ & U1 & U2 & _).
  destruct (unregister_branch s1 l b) as [s2 removed]. cbn [fst] in U1, U2.
  destruct (match _ with Some parent => _ | None => (s2, None) end) as [s3 n] eqn:E3.
  assert (queues s3 = queues s /\ idempotency s3 = idempotency s) as [E1 E2].
  { destruct (refs s !! _ ≫= re_source_branch) as [p|]; [|by injection E3 as <- _].
    destruct (decrement_same s2 l p) as [D1 D2].
    destruct (decrement_child_count s2 l p). injection E3 as <- _. cbn in D1, D2. by rewrite D1, D2, U1, U2. }
  destruct (clear_queue_for_admin s3 _ _ _) as [s' rel] eqn:E.
  apply clear_effect in E as (Eq & Ei & ->). rewrite E1 in *. rewrite E2 in Ei.
  by apply (eff_clear s _ s' (mkRefKey l b)).
Qed.

Lemma purge_effect i s l b t : ns_inv i s -> has_effect s (PurgeBranch l b t) (purge_branch s l b t).
Proof.
  intros Hi. unfold has_effect, purge_branch. destruct (has_children s _); [no_effect|]. cbv zeta.
  set (k := mkRefKey l b). set (s1 := with_retracted _ _).
  destruct (unregister_keeps s1 l b) as (_ & _ & U1 & U2 & _).
  destruct (unregister_branch s1 l b) as [s2 removed] eqn:Eu. cbn [fst] in U1, U2.
  set (s3 := match _ with Some parent => _ | None => s2 end).
  assert (queues s3 = queues s /\ idempotency s3 = idempotency s) as [E1 E2].
  { unfold s3. destruct (refs s !! _ ≫= re_source_branch) as [p|]; [|done].
    destruct (decrement_same s2 l p) as [-> ->]. done. }
  destruct (clear_queue_for_admin s3 _ _ _) as [s' rel] eqn:E.
  apply clear_effect in E as (Eq & Ei & ->). rewrite E1 in *. rewrite E2 in Ei.
  destruct (bool_decide _ || bool_decide _ || removed) eqn:Er;
    [by apply (eff_clear s _ s' k)|].
  apply orb_false_iff in Er as [_ ->].
  assert (queues s !! k = None) as En.
  { destruct (queues s !! k) as [q|] eqn:Eqk; [|done]. exfalso.
    assert (known (ledgers s1) k) as Hk by (by eapply qu_branch; [apply Hi|]).
    apply unregister_removed in Hk. by rewrite Eu in Hk. }
  cbn. rewrite delete_id in Eq by done. by apply eff_none.
Qed.

Lemma enqueue_effect s j args : has_effect s (EnqueueCommand args) (apply_enqueue_command s j args).
Proof.
  unfold has_effect. destruct args as [l b idem req body kind t]. unfold apply_enqueue_command.
  destruct (negb _); [no_effect|]. case_bool_decide; [no_effect|].
  destruct (idem ≫= _) as [resp|] eqn:Ed.
  - destruct idem as [key|]; [|done]. cbn in Ed. unfold dedup_response in Ed.
    destruct (idempotency s !! key) as [o|].
    + injection Ed as <-. unfold cached_response. case_bool_decide; [destruct o|]; no_effect.
    + destruct (queues s !! mkRefKey l b) as [q|]; [|done]. cbn in Ed.
      apply in_flight_kind in Ed as [(e & _ & _ & _ & ->)| -> ]; no_effect.
  - cbv zeta. destruct (_ <=? _); [no_effect|]. destruct (_ <=? _); [no_effect|]. cbn [fst snd].
    set (e := mkQueueEntry _ _ _ _ _ _ _).
    apply (eff_append s _ _ (mkQueueSubmission l b idem req body kind t) e); try done.
    intros key Ek. cbn in Ek. rewrite Ek in Ed. by apply dedup_none in Ed.
Qed.

Lemma apply_head_effect i s j args :
  ns_inv i s -> has_effect s (ApplyHead args) (apply_head s j args).
Proof.
  intros Hi. unfold has_effect. destruct args as [l b q c ct t tally n]. unfold apply_head.
  case_bool_decide; [no_effect|].
  destruct (pop_validated_front s _ _ q) as [s1 [e|resp]] eqn:Ep.
  2: { apply pop_refused_same in Ep as (E1 & E2 & r & ->). by apply eff_none. }
  apply pop_found in Ep as (rest & Em & Eq & Hid & ->). set (k := mkRefKey l b) in *.
  rewrite drop_popped. cbn [refs with_queues].
  assert (known (ledgers s) k) as Hk by (by eapply qu_branch; [apply Hi|]).
  set (s2 := with_refs _ (popped k rest s)). rewrite self_heal_known by done. set (o := Applied _).
  destruct (record_outcome s2 e o) as [s3 rel] eqn:Er.
  apply record_outcome_effect in Er as (R1 & R2 & ->).
  assert (has_effect s (ApplyHead (mkStagedHead l b q c ct t tally n))
    (s3, HeadApplied (format_ledger_id l b) c ct
      match qe_idempotency e with Some _ => None | None => Some (qe_request_cid e) end)) as Hgo.
  { unfold has_effect. cbn [fst snd]. replace (releases _) with (pop_releases k e).
    - by apply (eff_pop s _ s3 k e rest o); [..|cbn].
    - unfold pop_releases. by destruct (qe_idempotency e). }
  destruct (refs s !! k) as [r|]; [|done]. destruct (ct <=? re_t r); [|done]. apply eff_none; [|done].
  cbn. by rewrite alter_insert_eq, insert_id.
Qed.

Lemma poison_effect s j args : has_effect s (PoisonQueueEntry args) (apply_poison_queue_entry s j args).
Proof.
  unfold has_effect. destruct args as [l b q reason t]. unfold apply_poison_queue_entry.
  destruct (pop_validated_front s _ _ q) as [s1 [e|resp]] eqn:Ep.
  2: { apply pop_refused_same in Ep as (E1 & E2 & r & ->). by apply eff_none. }
  apply pop_found in Ep as (rest & Em & Eq & Hid & ->). set (k := mkRefKey l b) in *.
  rewrite drop_popped. set (o := Failed _).
  destruct (record_outcome _ e o) as [s3 rel] eqn:Er.
  apply record_outcome_effect in Er as (R1 & R2 & ->). cbn [fst snd].
  replace (releases _) with (pop_releases k e).
  - by apply (eff_pop s _ s3 k e rest o); [..|cbn].
  - unfold pop_releases. by destruct (qe_idempotency e).
Qed.

Lemma apply_effect i s cmd j : ns_inv i s -> has_effect s cmd (apply s cmd j).
Proof.
  intros Hi. destruct cmd; cbn [apply].
  - by apply set_index_head_effect.
  - by apply set_index_head_effect.
  - destruct args as [l b t]. unfold has_effect, create_ledger. case_bool_decide; no_effect.
  - apply create_branch_effect.
  - apply drop_effect.
  - apply reset_effect.
  - apply retract_effect.
  - by apply (purge_effect i).
  - no_effect.
  - apply compare_and_set_effect.
  - unfold apply_versioned_push, has_effect. destruct (split_ledger_id ledger_id) as [[? ?]| |]; [|no_effect..].
    destruct (negb _); [no_effect|]. cbv zeta.
    destruct (negb _); [no_effect|]. destruct (_ <=? _); no_effect.
  - destruct args as [id expected new]. unfold apply_versioned_push, has_effect.
    destruct (split_ledger_id id) as [[? ?]| |]; [|no_effect..].
    destruct (negb _); [no_effect|]. cbv zeta.
    destruct (negb _); [no_effect|]. destruct (_ <=? _); no_effect.
  - no_effect.
  - unfold has_effect, apply_publish_graph_source_index. destruct (graph_sources s !! _); [|no_effect].
    destruct (_ <=? _); no_effect.
  - unfold has_effect, apply_retract_graph_source. destruct (graph_sources s !! _); [|no_effect].
    destruct (negb _); no_effect.
  - apply enqueue_effect.
  - by apply (apply_head_effect i).
  - apply poison_effect.
  - unfold has_effect, apply_evict_idempotency. cbv zeta.
    destruct (fold_left evict_one _ _) as [cache rel] eqn:E. by eapply (eff_evict s _ _ cutoff_millis).
  - unfold has_effect, apply_set_worker_eligibility. destruct args as [v el t].
    destruct (negb _); [no_effect|]. destruct el; no_effect.
Qed.
End effect.
