(* ===== verification/RaftSafety.v ===== *)
(** * Replicated nameservice: keys and envelopes

    Idempotency keys: a key is in flight at most once and never while its
    outcome is cached, so a request is applied once however often it is
    retried.  Envelopes: the blob of an accepted request is held by its queue
    entry, then by its cached outcome, and released once. *)
From stdpp Require Import base list numbers gmap sets strings sorting relations.
From Stdlib Require Import ZArith Lia Ascii.
From S2P Require Import Prelude Value Envelope LedgerId RaftTypes RaftApply RaftAdapter RaftInv RaftEffect.

Local Open Scope Z_scope.

Section safety.
Context {CL : CidLib} {CO : CacheOrder} {CW : CacheLaws}.

Implicit Types s : NameServiceState.

(** ** Keys *)

(** How [QueuedTransactor] builds a submission: the key carries the canonical
    id of the branch, and the ledger name comes out of [split_ledger_id]. *)
Definition keyed (cmd : Command) : Prop :=
  match cmd with
  | EnqueueCommand args => forall key, qs_idempotency args = Some key ->
      ik_ledger_id key = format_ledger_id (qs_ledger_id args) (qs_branch args) /\
      str_contains_char ":"%char (qs_ledger_id args) = false
  | _ => True
  end.

Record keys_ok (qs : gmap RefKey (list QueueEntry)) (cache : gmap IdempotencyCacheKey ApplyOutcome) : Prop := {
  ko_scope : forall k q key, qs !! k = Some q -> key ∈ keys_of q ->
    ik_ledger_id key = ref_ledger_id k /\ str_contains_char ":"%char (ledger_name k) = false;
  ko_once : forall k q, qs !! k = Some q -> NoDup (keys_of q);
  ko_cache : forall k q key, qs !! k = Some q -> key ∈ keys_of q -> cache !! key = None;
}.

Lemma keys_one_queue qs cache k1 k2 q1 q2 key :
  keys_ok qs cache -> qs !! k1 = Some q1 -> qs !! k2 = Some q2 ->
  key ∈ keys_of q1 -> key ∈ keys_of q2 -> k1 = k2.
Proof.
  intros [Hs _ _] E1 E2 H1 H2. destruct (Hs _ _ _ E1 H1) as [I1 C1], (Hs _ _ _ E2 H2) as [I2 C2].
  rewrite I1 in I2. apply format_ledger_id_inj in I2 as [? ?]; [|done..].
  destruct k1, k2. cbn in *. congruence.
Qed.

Lemma keys_sub qs qs' cache cache' :
  keys_ok qs cache ->
  (forall k q, qs' !! k = Some q -> exists q0, qs !! k = Some q0 /\
     keys_of q `sublist_of` keys_of q0) ->
  (forall k q key, qs' !! k = Some q -> key ∈ keys_of q -> cache !! key = None -> cache' !! key = None) ->
  keys_ok qs' cache'.
Proof.
  intros [H1 H2 H3] Hq Hc. split.
  - intros k q key E Hk. destruct (Hq k q E) as (q0 & E0 & Hs).
    eapply H1; [done|]. by eapply elem_of_sublist.
  - intros k q E. destruct (Hq k q E) as (q0 & E0 & Hs). eapply sublist_NoDup; [by eapply H2|done].
  - intros k q key E Hk. destruct (Hq k q E) as (q0 & E0 & Hs).
    eapply Hc; [done|done|]. eapply H3; [done|]. by eapply elem_of_sublist.
Qed.

Lemma keys_append qs cache k e :
  keys_ok qs cache ->
  (forall key, qe_idempotency e = Some key ->
     (ik_ledger_id key = ref_ledger_id k /\ str_contains_char ":"%char (ledger_name k) = false) /\
     cache !! key = None /\ (key ∉ keys_of (default [] (qs !! k)))) ->
  keys_ok (<[k := default [] (qs !! k) ++ [e]]> qs) cache.
Proof.
  intros [H1 H2 H3] He.
  assert (forall key, key ∈ keys_of (default [] (qs !! k) ++ [e]) ->
    qe_idempotency e = Some key \/ exists q, qs !! k = Some q /\ key ∈ keys_of q) as Hin.
  { intros key. unfold keys_of. rewrite omap_app, elem_of_app. intros [Hk|Hk].
    - destruct (qs !! k) as [q|]; [eauto|by apply elem_of_nil in Hk].
    - cbn in Hk. destruct (qe_idempotency e); [|by apply elem_of_nil in Hk].
      apply list_elem_of_singleton in Hk as ->. by left. }
  split.
  - intros k' q key [[<- <-]|[_ E]]%lookup_insert_Some; [|by eapply H1].
    intros [Hk|(q & E & Hk)]%Hin; [by apply He in Hk as [? _]|by eapply H1].
  - intros k' q [[<- <-]|[_ E]]%lookup_insert_Some; [|by eapply H2].
    unfold keys_of. rewrite omap_app. cbn. apply NoDup_app. split_and!.
    + destruct (qs !! k) as [q|] eqn:E; [by eapply H2|constructor].
    + intros key Hk Hk'. destruct (qe_idempotency e) as [key'|] eqn:Ek; [|by apply elem_of_nil in Hk'].
      apply list_elem_of_singleton in Hk' as ->. by destruct (He key' eq_refl) as (_ & _ & ?).
    + destruct (qe_idempotency e); [apply NoDup_singleton|constructor].
  - intros k' q key [[<- <-]|[_ E]]%lookup_insert_Some; [|by eapply H3].
    intros [Hk|(q & E & Hk)]%Hin; [by apply He in Hk as (_ & ? & _)|by eapply H3].
Qed.

Lemma keys_popped s k e rest o :
  keys_ok (queues s) (idempotency s) -> queues s !! k = Some (e :: rest) ->
  keys_ok (queues (popped k rest s)) (recorded (idempotency s) e o).
Proof.
  intros Hk E.
  assert (forall k' q, queues (popped k rest s) !! k' = Some q ->
    (k' = k /\ q = rest) \/ (k' <> k /\ queues s !! k' = Some q)) as Hq.
  { intros k' q. unfold popped. cbn. destruct rest.
    - intros [? ?]%lookup_delete_Some. naive_solver.
    - intros [[<- <-]|[? ?]]%lookup_insert_Some; naive_solver. }
  eapply keys_sub; [done| |].
  - intros k' q [[-> ->]|[_ E']]%Hq; [|by exists q]. eexists; split; [done|].
    unfold keys_of. cbn. destruct (qe_idempotency e); [by apply sublist_cons|done].
  - intros k' q key [[-> ->]|[Hn E']]%Hq Hin Hc; unfold recorded;
      destruct (qe_idempotency e) as [key'|] eqn:Ek; try done;
      rewrite lookup_insert_ne; try done; intros ->.
    + pose proof (ko_once _ _ Hk _ _ E) as Hd. unfold keys_of in Hd. cbn in Hd. rewrite Ek in Hd.
      by apply NoDup_cons in Hd as [Hd _].
    + apply Hn. eapply keys_one_queue; [done|done|exact E|done|].
      unfold keys_of. cbn. rewrite Ek. left.
Qed.

Lemma effect_keys s cmd s' rel acc res :
  effect s cmd s' rel acc res -> keyed cmd ->
  keys_ok (queues s) (idempotency s) -> keys_ok (queues s') (idempotency s').
Proof.
  intros He Hcmd Hk. destruct He as [Eq Ei|k reason Eq Ei|args e k -> E1 E2 _ Hf Eq Ei|k e rest o res E Eq _ Ei _|cut mcut rel -> Eq Ee].
  - by rewrite Eq, Ei.
  - rewrite Eq, Ei. eapply keys_sub; [done| |done]. intros k' q [_ E]%lookup_delete_Some. by exists q.
  - rewrite Eq, Ei. apply keys_append; [done|]. intros key Ek.
    split; [|by apply Hf]. apply Hcmd. by rewrite <- E1.
  - rewrite Eq, Ei. by eapply keys_popped.
  - rewrite Eq. eapply keys_sub; [done|by intros k q E; exists q|].
    intros k q key _ _ Hc. destruct (idempotency s' !! key) as [o|] eqn:Eo; [|done].
    pose proof (evict_fold_incl (evict_batch cut (idempotency s)) (idempotency s) [] key o) as Hf.
    rewrite Ee in Hf. specialize (Hf Eo). congruence.
Qed.

Lemma reachable_keys i s : reachable keyed i s -> keys_ok (queues s) (idempotency s).
Proof.
  induction 1 as [|i j s p Hr IH Hij Hp]; [by split|].
  destruct p as [|cmd|m]; cbn; [done| |done].
  pose proof (apply_effect i s cmd j (reachable_inv _ _ _ Hr)) as He.
  by eapply effect_keys in He.
Qed.

(** An outcome stays cached until an eviction removes it. *)
Lemma effect_cached s cmd s' rel acc res key o :
  effect s cmd s' rel acc res -> keys_ok (queues s) (idempotency s) ->
  idempotency s !! key = Some o ->
  idempotency s' !! key = Some o \/
  exists cut mcut, cmd = EvictIdempotency cut mcut /\ key ∈ evict_batch cut (idempotency s).
Proof.
  intros He Hk Ho. destruct He as [Eq Ei|k reason Eq Ei|args e k -> E1 E2 _ Hf Eq Ei|k e rest o' res E Eq _ Ei _|cut mcut rel -> Eq Ee].
  - left. by rewrite Ei.
  - left. by rewrite Ei.
  - left. by rewrite Ei.
  - left. rewrite Ei. unfold recorded. destruct (qe_idempotency e) as [key'|] eqn:Ek; [|done].
    rewrite lookup_insert_ne; [done|]. intros ->.
    assert (idempotency s !! key = None); [|congruence].
    eapply ko_cache; [done|exact E|]. unfold keys_of. cbn. rewrite Ek. left.
  - destruct (decide (key ∈ evict_batch cut (idempotency s))) as [|Hn]; [eauto|]. left.
    assert (forall batch cache rel0, key ∉ batch -> cache !! key = Some o ->
      (fold_left evict_one batch (cache, rel0)).1 !! key = Some o) as Hf.
    { induction batch as [|key' batch IH]; intros cache rel0 Hb Hc; [done|].
      apply not_elem_of_cons in Hb as [Hb1 Hb2]. cbn [fold_left evict_one].
      destruct (cache !! key'); apply IH; try done. by rewrite lookup_delete_ne. }
    specialize (Hf _ _ [] Hn Ho). by rewrite Ee in Hf.
Qed.

(** ** Envelopes *)

Definition queued_envelopes (qs : gmap RefKey (list QueueEntry)) : list ContentId :=
  qe_request_cid <$> concat (map_to_list qs).*2.
Definition cached_envelopes (cache : gmap IdempotencyCacheKey ApplyOutcome) : list ContentId :=
  ao_request_cid <$> (map_to_list cache).*2.
Definition held s : list ContentId := queued_envelopes (queues s) ++ cached_envelopes (idempotency s).

Lemma queued_insert qs k q :
  qs !! k = None -> queued_envelopes (<[k := q]> qs) ≡ₚ (qe_request_cid <$> q) ++ queued_envelopes qs.
Proof.
  intros E. unfold queued_envelopes. rewrite (map_to_list_insert _ _ _ E). cbn. by rewrite fmap_app.
Qed.

Lemma queued_delete qs k q :
  qs !! k = Some q -> queued_envelopes qs ≡ₚ (qe_request_cid <$> q) ++ queued_envelopes (delete k qs).
Proof.
  intros E. rewrite <- (insert_delete_id qs k q E) at 1. apply queued_insert, lookup_delete_eq.
Qed.

Lemma queued_replace qs k q :
  queued_envelopes (<[k := q]> qs) ++ (qe_request_cid <$> default [] (qs !! k)) ≡ₚ
  queued_envelopes qs ++ (qe_request_cid <$> q).
Proof.
  rewrite <- (insert_delete_eq qs k), queued_insert by apply lookup_delete_eq.
  destruct (qs !! k) as [q'|] eqn:E; cbn [default from_option id].
  - rewrite (queued_delete qs k q' E). solve_Permutation.
  - rewrite delete_id by done. cbn. solve_Permutation.
Qed.

Lemma cached_delete cache key o :
  cache !! key = Some o -> cached_envelopes cache ≡ₚ ao_request_cid o :: cached_envelopes (delete key cache).
Proof.
  intros E. unfold cached_envelopes. by rewrite <- (map_to_list_delete _ _ _ E).
Qed.

Lemma cached_insert cache key o :
  cache !! key = None -> cached_envelopes (<[key := o]> cache) ≡ₚ ao_request_cid o :: cached_envelopes cache.
Proof. intros E. unfold cached_envelopes. by rewrite (map_to_list_insert _ _ _ E). Qed.

Lemma evict_conserves batch cache rel cache' rel' :
  fold_left evict_one batch (cache, rel) = (cache', rel') ->
  cached_envelopes cache' ++ rel'.*2 ≡ₚ cached_envelopes cache ++ rel.*2.
Proof.
  revert cache rel. induction batch as [|key batch IH]; intros cache rel; [by intros [= -> ->]|].
  cbn [fold_left evict_one]. destruct (cache !! key) as [o|] eqn:E; intros ->%IH; [|done].
  rewrite (cached_delete cache key o E), fmap_app. cbn. solve_Permutation.
Qed.

Lemma envelopes_snd k q : (envelopes k q).*2 = qe_request_cid <$> q.
Proof. unfold envelopes. by rewrite <- list_fmap_compose. Qed.

Lemma effect_conserves s cmd s' rel acc res :
  effect s cmd s' rel acc res -> keys_ok (queues s) (idempotency s) ->
  held s' ++ rel.*2 ≡ₚ held s ++ acc.
Proof.
  intros He Hk. unfold held.
  destruct He as [Eq Ei|k reason Eq Ei|args e k -> E1 E2 _ Hf Eq Ei|k e rest o res E Eq Eo Ei _|cut mcut rel -> Eq Ee].
  - by rewrite Eq, Ei.
  - rewrite Eq, Ei, envelopes_snd. destruct (queues s !! k) as [q|] eqn:E; cbn.
    + rewrite (queued_delete _ _ _ E). solve_Permutation.
    + by rewrite delete_id.
  - rewrite Eq, Ei. cbn. rewrite !app_nil_r.
    pose proof (queued_replace (queues s) k (default [] (queues s !! k) ++ [e])) as Hr.
    rewrite fmap_app, (app_assoc (queued_envelopes (queues s))) in Hr. cbn in Hr.
    rewrite (Permutation_app_comm (queued_envelopes (queues s))), <- app_assoc in Hr.
    rewrite (Permutation_app_comm (queued_envelopes (<[_ := _]> _))) in Hr.
    apply Permutation_app_inv_l in Hr. rewrite Hr. solve_Permutation.
  - rewrite Eq, Ei. cbn. rewrite app_nil_r.
    assert (queued_envelopes (queues s) ≡ₚ qe_request_cid e :: queued_envelopes (queues (popped k rest s))) as ->.
    { rewrite (queued_delete _ _ _ E). unfold popped. cbn. destruct rest as [|e' rest]; [done|].
      rewrite <- insert_delete_eq, queued_insert by apply lookup_delete_eq. done. }
    unfold recorded, pop_releases. destruct (qe_idempotency e) as [key|] eqn:Ek; cbn.
    + rewrite cached_insert, Eo; [solve_Permutation|].
      eapply ko_cache; [done|exact E|]. unfold keys_of. cbn. rewrite Ek. left.
    + solve_Permutation.
  - rewrite Eq. apply evict_conserves in Ee. rewrite <- !app_assoc, Ee. by rewrite !app_nil_r.
Qed.

(** ** Eviction and retries *)

Lemma evict_batch_old cut cache key :
  key ∈ evict_batch cut cache -> exists o, cache !! key = Some o /\ ao_recorded_at_millis o < cut.
Proof.
  unfold evict_batch. intros ([[at_millis ix] key'] & -> & Hin)%list_elem_of_fmap.
  apply elem_of_take in Hin as (n & Hn & _). apply list_elem_of_lookup_2 in Hn.
  rewrite merge_sort_Permutation in Hn. unfold expired in Hn.
  apply list_elem_of_omap in Hn as ([key o] & Hm & E).
  destruct (Z.ltb_spec (ao_recorded_at_millis o) cut); [|done]. injection E as <- <- <-.
  rewrite cache_iter_perm in Hm. apply elem_of_map_to_list in Hm. eauto.
Qed.

Lemma in_flight_found full key body q n e :
  NoDup (keys_of q) -> q !! n = Some e -> qe_idempotency e = Some key ->
  in_flight full key body q = Some (if bool_decide (qe_body_cid e = body) then InFlight full (qe_queue_id e) else BodyHashMismatch).
Proof.
  intros Hd En Ek. revert n En. induction q as [|e' q IH]; intros n En; [done|].
  destruct n as [|n]; cbn in En |- *.
  - injection En as ->. by rewrite (bool_decide_true (qe_idempotency e = Some key)).
  - unfold keys_of in Hd. cbn in Hd. rewrite bool_decide_false.
    + eapply IH; [|done]. by destruct (qe_idempotency e'); [apply NoDup_cons in Hd as [_ Hd]|].
    + intros Ek'. rewrite Ek' in Hd. apply NoDup_cons in Hd as [Hd _]. apply Hd.
      apply list_elem_of_omap. exists e. split; [|done]. by eapply list_elem_of_lookup_2.
Qed.

Lemma keys_position (q : list QueueEntry) n1 n2 e1 e2 key :
  NoDup (keys_of q) -> q !! n1 = Some e1 -> q !! n2 = Some e2 ->
  qe_idempotency e1 = Some key -> qe_idempotency e2 = Some key -> n1 = n2.
Proof.
  revert n1 n2. induction q as [|e q IH]; intros n1 n2 Hd E1 E2 K1 K2; [done|].
  assert (forall n e', q !! n = Some e' -> qe_idempotency e' = Some key ->
    qe_idempotency e = Some key -> False) as Hx.
  { intros n e' E K K'. unfold keys_of in Hd. cbn in Hd. rewrite K' in Hd.
    apply NoDup_cons in Hd as [Hd _]. apply Hd, list_elem_of_omap.
    exists e'. split; [|done]. by eapply list_elem_of_lookup_2. }
  destruct n1 as [|n1], n2 as [|n2]; cbn in E1, E2; simplify_eq; [done| | |].
  - by exfalso; eapply Hx.
  - by exfalso; eapply Hx.
  - f_equal. eapply IH; eauto. unfold keys_of in Hd. cbn in Hd.
    by destruct (qe_idempotency e); [apply NoDup_cons in Hd as [_ Hd]|].
Qed.

(** ** Whole logs *)

(** What the accepted submissions of a log put in charge of the state machine:
    the commands paired with the responses they got. *)
Definition accepted_entry (entry : Z * EntryPayload) (resp : Response) : list ContentId :=
  match entry.2 with Normal cmd => accepted cmd resp | _ => [] end.

Definition accepted_log (log : list (Z * EntryPayload)) (resps : list Response) : list ContentId :=
  concat (zip_with accepted_entry log resps).

Lemma accepted_drained cmd resp : accepted cmd (drain_releases resp).1 = accepted cmd resp.
Proof. by destruct cmd, resp. Qed.

Lemma apply_entry_conserves i s b entry s' b' :
  reachable keyed i s -> ok_payload keyed entry.2 ->
  apply_entry (s, b) entry = (s', b') ->
  exists resp rel, s' = log_step s entry.1 entry.2 /\ b_responses b' = b_responses b ++ [resp] /\
    b_releases b' = b_releases b ++ rel /\
    held s' ++ rel.*2 ≡ₚ held s ++ accepted_entry entry resp.
Proof.
  intros Hr Hok. destruct entry as [j p]. unfold apply_entry, accepted_entry. cbn [fst snd] in *.
  destruct p as [|cmd|m]; cbn [log_step].
  - intros [= <- <-]. exists NoOp, []. by rewrite !app_nil_r.
  - pose proof (apply_effect i s cmd j (reachable_inv _ _ _ Hr)) as He. unfold has_effect in He.
    destruct (apply s cmd j) as [s1 resp]. cbn [fst snd] in *.
    destruct (drain_releases resp) as [drained rel] eqn:Ed. intros [= <- <-].
    exists drained, rel. split_and!; [done..|].
    pose proof (accepted_drained cmd resp) as Ha. rewrite Ed in Ha. cbn in Ha. rewrite Ha.
    apply effect_conserves in He; [|by eapply reachable_keys].
    unfold releases in He. by rewrite Ed in He.
  - intros [= <- <-]. exists NoOp, []. by rewrite !app_nil_r.
Qed.

Lemma apply_entries_conserves i s b log :
  reachable keyed i s -> increasing i log -> Forall (fun e => ok_payload keyed e.2) log ->
  exists resps rel,
    let '(s', b') := fold_left apply_entry log (s, b) in
    length resps = length log /\ b_responses b' = b_responses b ++ resps /\
    b_releases b' = b_releases b ++ rel /\
    held s' ++ rel.*2 ≡ₚ held s ++ accepted_log log resps.
Proof.
  revert i s b. induction log as [|[j p] log IH]; intros i s b Hr Hinc Hok.
  - exists [], []. cbn. by rewrite !app_nil_r.
  - destruct Hinc as [Hij Hinc]. apply Forall_cons in Hok as [Hok Hoks].
    cbn [fold_left]. destruct (apply_entry (s, b) (j, p)) as [s1 b1] eqn:E.
    destruct (apply_entry_conserves i s b (j, p) s1 b1 Hr Hok E) as (resp & rel & -> & R1 & R2 & Hc).
    destruct (IH j (log_step s j p) b1) as (resps & rels & Hrest);
      [by eapply reach_step|done|done|].
    exists (resp :: resps), (rel ++ rels). cbn [fst snd] in *.
    destruct (fold_left apply_entry log (log_step s j p, b1)) as [s2 b2].
    destruct Hrest as (Hl & S1 & S2 & Hh). split_and!.
    + cbn. by rewrite Hl.
    + by rewrite S1, R1, <- app_assoc.
    + by rewrite S2, R2, <- app_assoc.
    + rewrite fmap_app. unfold accepted_log in *. cbn [zip_with concat].
      rewrite (Permutation_app_comm rel.*2), app_assoc, Hh, <- app_assoc.
      rewrite (Permutation_app_comm _ rel.*2), app_assoc, Hc. solve_Permutation.
Qed.

(** ** Properties *)


(** C21: No envelope leaks and none is released twice.  Over any log of commands
    whose submissions carry the key of their branch, the envelopes of the
    accepted submissions are, with their multiplicities, the ones still held by
    a queue entry or a cached outcome together with the ones handed to the
    content store for release. *)
Theorem envelopes_conserved (log : list (Z * EntryPayload)) :
  increasing (-1) log -> Forall (fun e => ok_payload keyed e.2) log ->
  let '(s, b) := apply_entries state_new log in
  held s ++ (b_releases b).*2 ≡ₚ accepted_log log (b_responses b).
Proof.
  intros Hinc Hok.
  pose proof (apply_entries_conserves (-1) state_new batch_new log (reach_new _) Hinc Hok)
    as (resps & rel & Hc).
  unfold apply_entries. destruct (fold_left apply_entry log (state_new, batch_new)) as [s b].
  destruct Hc as (_ & -> & -> & Hc). by rewrite Hc.
Qed.
End safety.

(** ** Replicated nameservice: replicas agree

    Replicas apply the same log with different [HashMap] iteration orders.  The
    one handler that iterates over a map sorts by the log index its entries
    were recorded at, which no two entries share, so the order does not show. *)

#[export] Instance evict_le_trans : Transitive evict_le.
Proof. intros [[? ?] ?] [[? ?] ?] [[? ?] ?]. unfold evict_le. cbn. lia. Qed.
#[export] Instance evict_le_total : Total evict_le.
Proof. intros [[? ?] ?] [[? ?] ?]. unfold evict_le. cbn. lia. Qed.

Section replicas.
Context {CL : CidLib} {CO1 CO2 : CacheOrder} {CW1 : CacheLaws (H0 := CO1)} {CW2 : CacheLaws (H0 := CO2)}.

Lemma expired_elem (CO : CacheOrder) (CW : CacheLaws) cut cache at_millis ix key :
  (at_millis, ix, key) ∈ expired cut cache ->
  exists o, cache !! key = Some o /\ ao_recorded_index o = ix.
Proof.
  unfold expired. intros ([key' o] & Hm & E)%list_elem_of_omap.
  destruct (_ <? _); [|done]. injection E as <- <- <-.
  rewrite cache_iter_perm in Hm. apply elem_of_map_to_list in Hm. eauto.
Qed.

Lemma expired_perm cut cache : @expired CL CO1 cut cache ≡ₚ @expired CL CO2 cut cache.
Proof.
  unfold expired. apply omap_Permutation. rewrite (@cache_iter_perm CL CO1 CW1).
  by rewrite (@cache_iter_perm CL CO2 CW2).
Qed.

Lemma evict_batch_agree i cut cache :
  cache_ok cache i -> @evict_batch CL CO1 cut cache = @evict_batch CL CO2 cut cache.
Proof.
  intros [_ Ha]. unfold evict_batch. do 2 f_equal.
  apply (StronglySorted_unique_strong evict_le); try apply StronglySorted_merge_sort; try apply _.
  - intros [[a1 x1] k1] [[a2 x2] k2]. rewrite !merge_sort_Permutation.
    intros (o1 & E1 & I1)%expired_elem (o2 & E2 & I2)%expired_elem; [|done..].
    unfold evict_le. cbn. intros ? ?. assert (x1 = x2) by lia. assert (a1 = a2) by lia.
    assert (k1 = k2) by (eapply Ha; [exact E1|exact E2|congruence]). congruence.
  - rewrite !merge_sort_Permutation. apply expired_perm.
Qed.

Lemma apply_agree i s cmd j : ns_inv i s -> @apply CL CO1 s cmd j = @apply CL CO2 s cmd j.
Proof.
  intros Hi. destruct cmd; try reflexivity. cbn [apply]. unfold apply_evict_idempotency.
  by rewrite (evict_batch_agree i) by apply Hi.
Qed.

Lemma apply_entries_agree ok i s b log :
  @reachable CL CO1 ok i s -> increasing i log -> Forall (fun e => ok_payload ok e.2) log ->
  fold_left (@apply_entry CL CO1) log (s, b) = fold_left (@apply_entry CL CO2) log (s, b).
Proof.
  revert i s b. induction log as [|[j p] log IH]; intros i s b Hr Hinc Hok; [done|].
  destruct Hinc as [Hij Hinc]. apply Forall_cons in Hok as [Hok Hoks]. cbn [fold_left].
  assert (@apply_entry CL CO1 (s, b) (j, p) = @apply_entry CL CO2 (s, b) (j, p)) as <-.
  { unfold apply_entry. destruct p; try reflexivity. by rewrite (apply_agree i) by (by eapply (@reachable_inv CL CO1)). }
  assert (exists b', @apply_entry CL CO1 (s, b) (j, p) = (@log_step CL CO1 s j p, b')) as [b' ->].
  { unfold apply_entry, log_step. destruct p as [|cmd|m]; [eauto| |eauto].
    destruct (@apply CL CO1 s cmd j). destruct (drain_releases _). eauto. }
  eapply IH; [by eapply (reach_step ok i)|done|done].
Qed.

(** C20: Replicas that apply the same committed log agree, whatever the iteration
    order of their hash maps: they reach the same state, give every command the
    same response, and emit the same events, waiter resolutions and envelope
    releases, in the same order. *)
Theorem replicas_agree (log : list (Z * EntryPayload)) :
  increasing (-1) log ->
  @apply_entries CL CO1 state_new log = @apply_entries CL CO2 state_new log.
Proof.
  intros Hinc. apply (apply_entries_agree (fun _ => True) (-1)); [apply reach_new|done|].
  apply Forall_forall. by intros [? []] _.
Qed.
End replicas.
