(* ===== verification/RaftHeads.v ===== *)
(** * Replicated nameservice: branch heads and lineage

    What a command does to the branch heads, as one of six updates, and what
    follows: heads advance in logical time, tombstoned branches are frozen,
    the child counters count the children, and a worker that stages on the
    current head drains its queue. *)

From stdpp Require Import base list numbers gmap sets strings sorting relations.
From Stdlib Require Import ZArith Lia.
From S2P Require Import Prelude Value Envelope LedgerId RaftTypes RaftApply RaftAdapter RaftInv.

Local Open Scope Z_scope.

Section heads.
Context {CL : CidLib} {CO : CacheOrder} {CW : CacheLaws}.

Implicit Types s : NameServiceState.

Definition removes (cmd : Command) (k : RefKey) : Prop :=
  match cmd with
  | DropBranch l b _ | PurgeBranch l b _ => mkRefKey l b = k
  | _ => False
  end.

Definition resets (cmd : Command) (k : RefKey) : Prop :=
  match cmd with ResetHead l b _ _ => mkRefKey l b = k | _ => False end.

(** A compare-and-set of the index head to no index. *)
Definition clears_index (cmd : Command) (k : RefKey) : Prop :=
  match cmd with
  | CompareAndSetRef args =>
      mkRefKey (rc_ledger_id args) (rc_branch args) = k /\ rc_kind args = IndexHead /\
      rv_id (rc_new args) = None
  | _ => False
  end.

Definition removed_refs (rs : gmap RefKey RefEntry) (l b : string) : gmap RefKey RefEntry :=
  let rs' := delete (mkRefKey l b) rs in
  match rs !! mkRefKey l b ≫= re_source_branch with
  | Some p => alter (fun e => set_branches (u32_saturating_sub1 (re_branches e)) e) (mkRefKey l p) rs'
  | None => rs'
  end.

Definition reset_entry (old : option RefEntry) (head : ContentId) (snap : ResetHeadSnapshot) : RefEntry :=
  mkRefEntry head (rhs_commit_t snap) 0 0
    ((fun h => mkIndexState h (rhs_index_t snap)) <$> rhs_index_head_id snap)
    (old ≫= re_source_branch) (default 0 (re_branches <$> old)).

Definition index_grows (e : RefEntry) (ix : option IndexState) : Prop :=
  match ix with
  | Some x => ix_t x <= re_t e /\ forall y, re_index e = Some y -> ix_t y <= ix_t x
  | None => True
  end.

(** The heads and the tombstones after a command. *)
Inductive ref_effect s (cmd : Command) : gmap RefKey RefEntry -> gset RefKey -> Prop :=
| ref_same : ref_effect s cmd (refs s) (retracted s)
| ref_index k e ix m :
    refs s !! k = Some e -> k ∉ retracted s -> index_grows e ix -> (ix = None -> clears_index cmd k) ->
    ref_effect s cmd (<[k := set_index ix m e]> (refs s)) (retracted s)
| ref_advance k c t m j :
    k ∉ retracted s -> (forall e, refs s !! k = Some e -> re_t e < t) ->
    ref_effect s cmd (<[k := advanced_entry (refs s !! k) c t m j]> (refs s)) (retracted s)
| ref_fork l b src e c t m j :
    refs s !! mkRefKey l src = Some e -> refs s !! mkRefKey l b = None ->
    ref_effect s cmd (<[mkRefKey l b := mkRefEntry c t m j None (Some src) 0]>
      (<[mkRefKey l src := set_branches (u32_saturating_add1 (re_branches e)) e]> (refs s))) (retracted s)
| ref_remove l b :
    removes cmd (mkRefKey l b) -> has_children s (mkRefKey l b) = None ->
    ref_effect s cmd (removed_refs (refs s) l b) (retracted s ∖ {[mkRefKey l b]})
| ref_reset l b snap t :
    cmd = ResetHead l b snap t -> mkRefKey l b ∉ retracted s ->
    ref_effect s cmd
      (match rhs_commit_head_id snap with
       | None => delete (mkRefKey l b) (refs s)
       | Some h => <[mkRefKey l b := reset_entry (refs s !! mkRefKey l b) h snap]> (refs s)
       end) (retracted s)
| ref_retract k : ref_effect s cmd (refs s) ({[k]} ∪ retracted s).

(** ** Each handler has one of these effects *)

Definition has_ref_effect s (cmd : Command) s' : Prop := ref_effect s cmd (refs s') (retracted s').

Ltac ref_same :=
  match goal with
  | |- ref_effect ?s ?c _ _ => exact (ref_same s c)
  | |- has_ref_effect ?s ?c _ => exact (ref_same s c)
  end.

Lemma clear_keeps_refs s k reason t :
  refs (clear_queue_for_admin s k reason t).1 = refs s /\
  retracted (clear_queue_for_admin s k reason t).1 = retracted s.
Proof. unfold clear_queue_for_admin. by destruct (queues s !! k) as [[|]|]. Qed.

Lemma set_index_head_ref s args is_stale cmd :
  (forall a b, is_stale a b = false -> a <= b) ->
  has_ref_effect s cmd (set_index_head s args is_stale).1.
Proof.
  intros Hs. unfold has_ref_effect. destruct args as [l b h t m]. unfold set_index_head.
  destruct (ledgers s !! l); [|ref_same]. case_bool_decide; [ref_same|].
  destruct (refs s !! mkRefKey l b) as [e|] eqn:E; [|ref_same]. cbv zeta.
  destruct (Z.ltb_spec (re_t e) t).
  - destruct (re_index e); [destruct (is_stale _ _)|]; ref_same.
  - destruct (re_index e) as [x|] eqn:Ex; [destruct (is_stale (ix_t x) t) eqn:Est; [ref_same|]|];
      (cbn [fst refs retracted with_refs]; apply ref_index; [done|done| |done]; split; [done|]; intros y Hy; simplify_eq; auto).
Qed.

Lemma compare_and_set_ref s j args :
  has_ref_effect s (CompareAndSetRef args) (apply_compare_and_set_ref s j args).1.
Proof.
  unfold has_ref_effect. destruct args as [l b kind expected new t]. unfold apply_compare_and_set_ref.
  destruct (current_ref_value s (mkRefKey l b) kind) as [cur|] eqn:Ec; [|ref_same].
  case_bool_decide; [ref_same|]. cbv zeta.
  destruct (negb _); [ref_same|].
  unfold current_ref_value in Ec. cbn in Ec. destruct (negb _) in Ec; [done|]. injection Ec as <-.
  destruct kind; cbn [rv_t rv_id].
  - destruct (Z.ltb_spec (default 0 (re_t <$> refs s !! mkRefKey l b)) (rv_t new)) as [Hlt|]; cbn [negb];
      [|ref_same].
    destruct (rv_id new) as [c|]; [|ref_same].
    destruct (match refs s !! _ with Some _ => _ | None => _ end) as [[ix src] n] eqn:Ep. cbn.
    replace (mkRefEntry c (rv_t new) t j ix src n)
      with (advanced_entry (refs s !! mkRefKey l b) c (rv_t new) t j)
      by (unfold advanced_entry; destruct (refs s !! mkRefKey l b); by simplify_eq/=).
    apply ref_advance; [done|]. intros e E. rewrite E in Hlt. done.
  - destruct (refs s !! mkRefKey l b) as [e|] eqn:E; cbn.
    + destruct (Z.leb_spec (default 0 (ix_t <$> re_index e)) (rv_t new)) as [Hle|]; cbn [negb]; [|ref_same].
      destruct (Z.ltb_spec (re_t e) (rv_t new)); [ref_same|].
      cbn [fst refs retracted with_refs].
      apply ref_index; [done|done| |cbn; by destruct (rv_id new)].
      destruct (rv_id new); cbn; [|done]. split; [done|]. intros y Ey. by rewrite Ey in Hle.
    + destruct (negb _); ref_same.
Qed.

Lemma create_branch_ref i s j args :
  ns_inv i s -> has_ref_effect s (CreateBranch args) (create_branch s j args).1.
Proof.
  intros Hi. unfold has_ref_effect. destruct args as [l b src at_commit t]. unfold create_branch.
  destruct (ledgers s !! l) as [r|] eqn:El; [|ref_same]. case_bool_decide as Hb; [ref_same|].
  destruct (refs s !! mkRefKey l src) as [e|] eqn:Es; [|ref_same]. destruct (default _ at_commit) as [c ct].
  cbn [fst refs retracted with_refs with_ledgers]. apply ref_fork; [done|]. destruct (refs s !! mkRefKey l b) as [e'|] eqn:E; [|done]. exfalso.
  assert (known (ledgers s) (mkRefKey l b)) as (r' & E' & Hb')%known_iff by (by eapply rg_refs; [apply Hi|]).
  cbn in E', Hb'. by simplify_eq.
Qed.

Lemma decrement_refs s l p :
  refs (decrement_child_count s l p).1 =
    alter (fun e => set_branches (u32_saturating_sub1 (re_branches e)) e) (mkRefKey l p) (refs s) /\
  retracted (decrement_child_count s l p).1 = retracted s.
Proof.
  unfold decrement_child_count. destruct (refs s !! mkRefKey l p) as [e|] eqn:E; cbn.
  - split; [|done]. apply map_eq. intros k. destruct (decide (k = mkRefKey l p)) as [->|].
    + by rewrite lookup_insert_eq, lookup_alter_eq, E.
    + by rewrite lookup_insert_ne, lookup_alter_ne.
  - split; [|done]. symmetry. apply map_eq. intros k. destruct (decide (k = mkRefKey l p)) as [->|].
    + by rewrite lookup_alter_eq, E.
    + by rewrite lookup_alter_ne.
Qed.

Lemma purge_ref s l b t : has_ref_effect s (PurgeBranch l b t) (purge_branch s l b t).1.
Proof.
  unfold has_ref_effect, purge_branch. destruct (has_children s _) eqn:Hc; [ref_same|]. cbv zeta.
  set (s1 := with_retracted _ _).
  destruct (unregister_keeps s1 l b) as (U1 & U2 & _).
  destruct (unregister_branch s1 l b) as [s2 removed]. cbn [fst] in U1, U2.
  set (s3 := match _ with Some parent => _ | None => s2 end).
  assert (refs s3 = removed_refs (refs s) l b /\ retracted s3 = retracted s ∖ {[mkRefKey l b]}) as [E1 E2].
  { unfold s3, removed_refs. destruct (refs s !! _ ≫= re_source_branch) as [p|]; [|done].
    destruct (decrement_refs s2 l p) as [-> ->]. by rewrite U1, U2. }
  destruct (clear_keeps_refs s3 (mkRefKey l b) BranchPurgedR t) as [C1 C2].
  destruct (clear_queue_for_admin s3 _ _ _) as [s' rel]. cbn [fst] in C1, C2.
  destruct (_ || _); cbn [fst]; rewrite C1, C2, E1, E2; by apply ref_remove.
Qed.

Lemma drop_ref s l b t : has_ref_effect s (DropBranch l b t) (drop_branch s l b t).1.
Proof.
  unfold has_ref_effect, drop_branch. destruct (negb _); [ref_same|].
  destruct (has_children s _) eqn:Hc; [ref_same|]. cbv zeta.
  set (s1 := with_retracted _ _).
  destruct (unregister_keeps s1 l b) as (U1 & U2 & _).
  destruct (unregister_branch s1 l b) as [s2 removed]. cbn [fst] in U1, U2.
  destruct (match _ with Some parent => _ | None => (s2, None) end) as [s3 n] eqn:E3.
  assert (refs s3 = removed_refs (refs s) l b /\ retracted s3 = retracted s ∖ {[mkRefKey l b]}) as [E1 E2].
  { unfold removed_refs. destruct (refs s !! _ ≫= re_source_branch) as [p|]; [|by injection E3 as <- _].
    destruct (decrement_refs s2 l p) as [D1 D2]. destruct (decrement_child_count s2 l p) as [s4 n4].
    injection E3 as <- _. cbn in D1, D2. by rewrite D1, D2, U1, U2. }
  destruct (clear_keeps_refs s3 (mkRefKey l b) BranchDroppedR t) as [C1 C2].
  destruct (clear_queue_for_admin s3 _ _ _) as [s' rel]. cbn [fst] in C1, C2 |- *.
  rewrite C1, C2, E1, E2. by apply ref_remove.
Qed.

Lemma reset_ref s l b snap t : has_ref_effect s (ResetHead l b snap t) (reset_head s l b snap t).1.
Proof.
  unfold has_ref_effect, reset_head. destruct (negb _); [ref_same|].
  case_bool_decide; [ref_same|]. set (s1 := match _ with None => _ | Some _ => _ end).
  destruct (clear_keeps_refs s1 (mkRefKey l b) BranchHeadResetR t) as [C1 C2].
  destruct (clear_queue_for_admin s1 _ _ _) as [s' rel]. cbn [fst] in C1, C2 |- *. rewrite C1, C2.
  assert (retracted s1 = retracted s /\ refs s1 =
    match rhs_commit_head_id snap with
    | None => delete (mkRefKey l b) (refs s)
    | Some h => <[mkRefKey l b := reset_entry (refs s !! mkRefKey l b) h snap]> (refs s)
    end) as [-> ->]; [|by eapply ref_reset].
  unfold s1, reset_entry. destruct (rhs_commit_head_id snap); [|done].
  by destruct (refs s !! mkRefKey l b).
Qed.

Lemma retract_ref s l b t : has_ref_effect s (RetractLedger l b t) (retract_ledger s l b t).1.
Proof.
  unfold has_ref_effect, retract_ledger. destruct (negb _); [ref_same|]. case_bool_decide; [ref_same|].
  set (s1 := with_retracted _ _).
  destruct (clear_keeps_refs s1 (mkRefKey l b) BranchRetractedR t) as [C1 C2].
  destruct (clear_queue_for_admin s1 _ _ _) as [s' rel]. cbn [fst] in C1, C2 |- *. rewrite C1, C2.
  apply (ref_retract s _ (mkRefKey l b)).
Qed.

Lemma pop_keeps_refs s k full q s' r :
  pop_validated_front s k full q = (s', r) ->
  refs s' = refs s /\ retracted s' = retracted s /\ ledgers s' = ledgers s.
Proof.
  unfold pop_validated_front. destruct (recently_cleared s !! k); [by intros [= <- <-]|].
  destruct (queues s !! k) as [[|x rest]|]; [by intros [= <- <-]| |by intros [= <- <-]].
  destruct (negb _); by intros [= <- <-].
Qed.

Lemma record_keeps_refs s e o :
  refs (record_outcome s e o).1 = refs s /\ retracted (record_outcome s e o).1 = retracted s.
Proof. unfold record_outcome. by destruct (qe_idempotency e). Qed.

Lemma apply_head_ref i s j args :
  ns_inv i s -> has_ref_effect s (ApplyHead args) (apply_head s j args).1.
Proof.
  intros Hi. unfold has_ref_effect. destruct args as [l b q c ct t tally n]. unfold apply_head.
  case_bool_decide; [ref_same|].
  destruct (pop_validated_front s _ _ q) as [s1 [e|resp]] eqn:Ep.
  2: { apply pop_keeps_refs in Ep as (E1 & E2 & _). cbn [fst]. rewrite E1, E2. ref_same. }
  apply pop_found in Ep as (rest & Em & Eq & Hid & ->). set (k := mkRefKey l b) in *.
  rewrite drop_popped. cbn [refs with_queues].
  assert (known (ledgers s) k) as Hk by (by eapply qu_branch; [apply Hi|]).
  set (s2 := with_refs _ (popped k rest s)). rewrite self_heal_known by done. set (o := Applied _).
  destruct (record_keeps_refs s2 e o) as [R1 R2].
  destruct (record_outcome s2 e o) as [s3 rel]. cbn [fst] in R1, R2.
  destruct (refs s !! k) as [r|] eqn:Er; [destruct (Z.leb_spec ct (re_t r)); [ref_same|]|];
    (cbn [fst]; rewrite R1, R2; apply (ref_advance s _ k); [done|]; intros e' E'; by simplify_eq).
Qed.

Lemma apply_ref_effect i s cmd j : ns_inv i s -> has_ref_effect s cmd (apply s cmd j).1.
Proof.
  intros Hi. destruct cmd; cbn [apply].
  - apply set_index_head_ref. intros a b ?%Z.leb_gt. lia.
  - apply set_index_head_ref. intros a b ?%Z.ltb_ge. lia.
  - destruct args as [l b t]. unfold create_ledger. case_bool_decide; ref_same.
  - by apply (create_branch_ref i).
  - apply drop_ref.
  - apply reset_ref.
  - apply retract_ref.
  - apply purge_ref.
  - ref_same.
  - apply compare_and_set_ref.
  - destruct (apply_versioned_push _ _ _ _ _ _). ref_same.
  - destruct args. destruct (apply_versioned_push _ _ _ _ _ _). ref_same.
  - ref_same.
  - unfold apply_publish_graph_source_index. destruct (graph_sources s !! _); [|ref_same].
    destruct (_ <=? _); ref_same.
  - unfold apply_retract_graph_source. destruct (graph_sources s !! _); [|ref_same].
    destruct (negb _); ref_same.
  - destruct args as [l b idem req body kind t]. unfold apply_enqueue_command.
    destruct (negb _); [ref_same|]. case_bool_decide; [ref_same|].
    destruct (idem ≫= _); [ref_same|]. cbv zeta.
    destruct (_ <=? _); [ref_same|]. destruct (_ <=? _); ref_same.
  - by apply (apply_head_ref i).
  - destruct args as [l b q reason t]. unfold apply_poison_queue_entry.
    destruct (pop_validated_front s _ _ q) as [s1 [e|resp]] eqn:Ep; unfold has_ref_effect.
    + apply pop_found in Ep as (rest & Em & Eq & Hid & ->). rewrite drop_popped. set (o := Failed _).
      destruct (record_keeps_refs (popped (mkRefKey l b) rest s) e o) as [R1 R2].
      destruct (record_outcome _ e o) as [s3 rel]. cbn [fst] in *. rewrite R1, R2. ref_same.
    + apply pop_keeps_refs in Ep as (E1 & E2 & _). cbn [fst]. rewrite E1, E2. ref_same.
  - unfold apply_evict_idempotency. cbv zeta. destruct (fold_left evict_one _ _). ref_same.
  - unfold apply_set_worker_eligibility. destruct args as [v el t].
    destruct (negb _); [ref_same|]. destruct el; ref_same.
Qed.

(** ** Heads move forward *)

(** What a command that neither removes nor resets branch [k] leaves of its entry. *)
Definition entry_follows (frozen cleared : Prop) (e e' : RefEntry) : Prop :=
  re_t e <= re_t e' /\ (re_t e' = re_t e -> re_head e' = re_head e) /\
  re_source_branch e' = re_source_branch e /\
  (frozen -> re_t e' = re_t e /\ re_index e' = re_index e) /\
  (~ cleared -> forall x, re_index e = Some x -> exists x', re_index e' = Some x' /\ ix_t x <= ix_t x').

Lemma entry_follows_refl frozen cleared e : entry_follows frozen cleared e e.
Proof. split_and!; [done|done|done|done|]. intros _ x ->. eexists; split; [done|lia]. Qed.

Lemma entry_follows_branches frozen cleared n e e' :
  entry_follows frozen cleared e e' -> entry_follows frozen cleared e (set_branches n e').
Proof. done. Qed.

Lemma ref_effect_follows s cmd rs' dead' k e :
  ref_effect s cmd rs' dead' -> refs s !! k = Some e -> ~ removes cmd k -> ~ resets cmd k ->
  (k ∈ retracted s -> k ∈ dead') /\
  exists e', rs' !! k = Some e' /\ entry_follows (k ∈ retracted s) (clears_index cmd k) e e'.
Proof.
  intros He Ek Hrm Hrs. pose proof (entry_follows_refl (k ∈ retracted s) (clears_index cmd k) e) as Hrefl.
  destruct He as [|k0 e0 ix m E0 Hl Hg Hc|k0 c t m j Hl Ht|l b src e0 c t m j Es Eb|l b Hr Hc|l b snap t -> Hl|k0].
  - eauto.
  - split; [done|]. destruct (decide (k0 = k)) as [->|Hn]; [|rewrite lookup_insert_ne by done; eauto].
    rewrite lookup_insert_eq. eexists; split; [done|]. simplify_eq. split_and!; cbn; try done.
    intros Hcl x Ex. destruct ix as [y|]; [|by destruct Hcl; apply Hc].
    eexists; split; [done|]. by apply Hg.
  - split; [done|]. destruct (decide (k0 = k)) as [->|Hn]; [|rewrite lookup_insert_ne by done; eauto].
    rewrite lookup_insert_eq. eexists; split; [done|]. specialize (Ht e Ek). rewrite Ek.
    split_and!; cbn; try done; try lia. intros _ x ->. eexists; split; [done|lia].
  - split; [done|]. rewrite lookup_insert_ne by congruence.
    destruct (decide (mkRefKey l src = k)) as [<-|Hn]; [|rewrite lookup_insert_ne by done; eauto].
    rewrite lookup_insert_eq. simplify_eq. eauto.
  - assert (mkRefKey l b <> k) as Hn by (intros <-; done). split; [set_solver|].
    unfold removed_refs. destruct (refs s !! mkRefKey l b ≫= re_source_branch) as [p|].
    + destruct (decide (mkRefKey l p = k)) as [<-|Hp].
      * rewrite lookup_alter_eq, lookup_delete_ne, Ek by done. cbn. eauto using entry_follows_branches.
      * rewrite lookup_alter_ne, lookup_delete_ne by done. eauto.
    + rewrite lookup_delete_ne by done. eauto.
  - assert (mkRefKey l b <> k) as Hn by (intros <-; by apply Hrs). split; [done|].
    destruct (rhs_commit_head_id snap); [rewrite lookup_insert_ne by done|rewrite lookup_delete_ne by done];
      eauto.
  - split; [set_solver|]. eauto.
Qed.

(** ** Lineage *)

Definition child_of (k : RefKey) (x : RefKey * RefEntry) : Prop :=
  ledger_name x.1 = ledger_name k /\ re_source_branch x.2 = Some (branch k).
#[export] Instance child_of_dec k x : Decision (child_of k x).
Proof. unfold child_of. apply _. Defined.

Definition children (rs : gmap RefKey RefEntry) (k : RefKey) : Z :=
  Z.of_nat (size (base.filter (child_of k) rs)).

(** Every parent is born, and its counter counts its children. *)
Record lineage_ok (rs : gmap RefKey RefEntry) : Prop := {
  li_count : forall k e, rs !! k = Some e -> re_branches e = children rs k;
  li_parent : forall k e p, rs !! k = Some e -> re_source_branch e = Some p ->
    is_Some (rs !! mkRefKey (ledger_name k) p);
}.

Definition is_child (k : RefKey) (k' : RefKey) (o : option RefEntry) : Z :=
  match o with Some e => if decide (child_of k (k', e)) then 1 else 0 | None => 0 end.

Lemma children_delete rs k k' : children (delete k' rs) k = children rs k - is_child k k' (rs !! k').
Proof.
  unfold children, is_child. destruct (rs !! k') as [e|] eqn:E; [|rewrite delete_id by done; lia].
  rewrite map_filter_delete. case_decide as Hc.
  - rewrite map_size_delete_Some by (exists e; by apply map_lookup_filter_Some).
    assert (0 < size (base.filter (child_of k) rs))%nat; [|lia].
    apply Nat.neq_0_lt_0. intros Hz%map_size_empty_inv.
    assert (base.filter (child_of k) rs !! k' = Some e) as Hf by by apply map_lookup_filter_Some.
    by rewrite Hz in Hf.
  - rewrite delete_id; [lia|]. apply map_lookup_filter_None. right. intros x Ex. by simplify_eq.
Qed.

Lemma children_insert rs k k' e :
  children (<[k' := e]> rs) k = children rs k - is_child k k' (rs !! k') + is_child k k' (Some e).
Proof.
  rewrite <- (children_delete rs k k'), <- (insert_delete_eq rs k'). unfold children, is_child.
  case_decide as Hc.
  - rewrite map_filter_insert_True by done. rewrite map_size_insert_None; [lia|].
    apply map_lookup_filter_None. left. apply lookup_delete_eq.
  - rewrite map_filter_insert_False by done. rewrite delete_delete_eq. lia.
Qed.

Lemma children_pos rs k k' e : rs !! k' = Some e -> child_of k (k', e) -> 0 < children rs k.
Proof.
  intros E Hc. pose proof (children_delete rs k k') as Hd. rewrite E in Hd. cbn in Hd.
  rewrite decide_True in Hd by done. unfold children in *. lia.
Qed.

Lemma children_size rs k : children rs k <= Z.of_nat (size rs).
Proof. unfold children. apply inj_le, map_subseteq_size, map_filter_subseteq. Qed.

Lemma is_child_ext k k' e e' :
  re_source_branch e' = re_source_branch e -> is_child k k' (Some e') = is_child k k' (Some e).
Proof.
  intros Hs. unfold is_child.
  assert (child_of k (k', e') <-> child_of k (k', e)) by (unfold child_of; cbn; by rewrite Hs).
  do 2 case_decide; tauto.
Qed.

Lemma is_child_root k k' e : re_source_branch e = None -> is_child k k' (Some e) = 0.
Proof. intros Hs. unfold is_child, child_of. rewrite decide_False; [done|]. cbn. naive_solver. Qed.

(** Rewriting an entry without touching its parent or counter. *)
Lemma lineage_rewrite rs k e e' :
  rs !! k = Some e -> re_source_branch e' = re_source_branch e -> re_branches e' = re_branches e ->
  lineage_ok rs -> lineage_ok (<[k := e']> rs).
Proof.
  intros E Hs Hb [H1 H2].
  assert (forall k', children (<[k := e']> rs) k' = children rs k') as Hc.
  { intros k'. rewrite children_insert, E, (is_child_ext _ _ e e') by done. lia. }
  split.
  - intros k' x [[<- <-]|[_ E']]%lookup_insert_Some; rewrite Hc; [|eauto]. rewrite Hb. eauto.
  - intros k' x p Ex Ep. apply lookup_insert_is_Some'. right.
    apply lookup_insert_Some in Ex as [[<- <-]|[_ E']]; [|eauto]. rewrite Hs in Ep. eauto.
Qed.

Lemma children_unborn rs k : lineage_ok rs -> rs !! k = None -> children rs k = 0.
Proof.
  intros [_ H2] E. destruct (Z.eq_dec (children rs k) 0) as [|Hn]; [done|]. exfalso. unfold children in Hn.
  destruct (map_choose (base.filter (child_of k) rs)) as (k' & e' & [Ex [Hl Hp]]%map_lookup_filter_Some).
  { intros Hz. rewrite Hz, map_size_empty in Hn. done. }
  cbn in Hl, Hp. destruct (H2 k' e' _ Ex Hp) as [? Ek]. rewrite Hl in Ek. destruct k. cbn in Ek. congruence.
Qed.

Lemma is_child_parent l b p e k :
  re_source_branch e = Some p ->
  is_child k (mkRefKey l b) (Some e) = if decide (k = mkRefKey l p) then 1 else 0.
Proof.
  intros Hs. unfold is_child.
  assert (child_of k (mkRefKey l b, e) <-> k = mkRefKey l p).
  { unfold child_of. cbn. rewrite Hs. destruct k as [l' b']. cbn. split; [intros [<- [= ->]]; done|].
    by intros [= -> ->]. }
  do 2 case_decide; tauto.
Qed.

(** A new root. *)
Lemma lineage_root rs k e :
  rs !! k = None -> re_source_branch e = None -> re_branches e = 0 ->
  lineage_ok rs -> lineage_ok (<[k := e]> rs).
Proof.
  intros E Hs Hb [H1 H2].
  assert (forall k', children (<[k := e]> rs) k' = children rs k') as Hc.
  { intros k'. rewrite children_insert, E, is_child_root by done. cbn. lia. }
  assert (children rs k = 0) as H0 by (by apply children_unborn).
  split.
  - intros k' x [[<- <-]|[_ E']]%lookup_insert_Some; rewrite Hc; [congruence|eauto].
  - intros k' x p [[<- <-]|[_ E']]%lookup_insert_Some Ep; [congruence|].
    apply lookup_insert_is_Some'. right. eauto.
Qed.

Lemma lineage_advance rs k c t m j :
  lineage_ok rs -> lineage_ok (<[k := advanced_entry (rs !! k) c t m j]> rs).
Proof.
  intros H. destruct (rs !! k) as [e|] eqn:E; [by eapply lineage_rewrite|by apply lineage_root].
Qed.

Lemma lineage_fork rs l b src e x :
  rs !! mkRefKey l src = Some e -> rs !! mkRefKey l b = None ->
  re_source_branch x = Some src -> re_branches x = 0 -> Z.of_nat (size rs) < u32_max ->
  lineage_ok rs ->
  lineage_ok (<[mkRefKey l b := x]>
    (<[mkRefKey l src := set_branches (u32_saturating_add1 (re_branches e)) e]> rs)).
Proof.
  intros Es Eb Hsx Hbx Hsz Hl. pose proof Hl as [H1 H2].
  set (rs1 := <[mkRefKey l src := _]> rs).
  assert (mkRefKey l src <> mkRefKey l b) as Hne by congruence.
  assert (forall k, children (<[mkRefKey l b := x]> rs1) k =
    children rs k + if decide (k = mkRefKey l src) then 1 else 0) as Hc.
  { intros k. rewrite children_insert, (is_child_parent l b src x) by done.
    unfold rs1 at 2. rewrite lookup_insert_ne, Eb by done. unfold rs1. rewrite children_insert, Es.
    rewrite (is_child_ext k _ e (set_branches _ e)) by done. cbn [is_child]. lia. }
  pose proof (children_unborn rs _ Hl Eb) as Hb0. pose proof (children_size rs (mkRefKey l src)) as Hcs.
  split.
  - intros k y [[<- <-]|[Hn [[<- <-]|[Hn' E]]%lookup_insert_Some]]%lookup_insert_Some; rewrite Hc.
    + rewrite decide_False by done. lia.
    + rewrite decide_True by done. cbn. rewrite (H1 _ _ Es). unfold u32_saturating_add1. lia.
    + rewrite decide_False by done. rewrite (H1 _ _ E). lia.
  - intros k y p Ey Ep. apply lookup_insert_is_Some'. right. apply lookup_insert_is_Some'.
    apply lookup_insert_Some in Ey as [[<- <-]|[Hn [[<- <-]|[Hn' E]]%lookup_insert_Some]].
    + left. cbn. congruence.
    + right. by eapply H2.
    + right. by eapply H2.
Qed.

Lemma alter_insert_lookup (rs : gmap RefKey RefEntry) k e f :
  rs !! k = Some e -> alter f k rs = <[k := f e]> rs.
Proof.
  intros E. apply map_eq. intros k'. destruct (decide (k = k')) as [<-|].
  - by rewrite lookup_insert_eq, lookup_alter_eq, E.
  - by rewrite lookup_insert_ne, lookup_alter_ne.
Qed.

Lemma lineage_remove rs l b :
  (forall e, rs !! mkRefKey l b = Some e -> re_branches e <= 0) ->
  lineage_ok rs -> lineage_ok (removed_refs rs l b).
Proof.
  intros Hz Hl. pose proof Hl as [H1 H2]. unfold removed_refs. set (k := mkRefKey l b) in *.
  destruct (rs !! k) as [e|] eqn:E; [|by rewrite delete_id]. cbn [mbind option_bind].
  assert (children rs k = 0) as H0.
  { specialize (Hz e eq_refl). rewrite (H1 _ _ E) in Hz. unfold children in *. lia. }
  assert (forall k' y p, delete k rs !! k' = Some y -> re_source_branch y = Some p ->
    is_Some (delete k rs !! mkRefKey (ledger_name k') p)) as Hpar.
  { intros k' y p [Hn Ey]%lookup_delete_Some Ep. destruct (H2 _ _ _ Ey Ep) as [z Ez].
    exists z. apply lookup_delete_Some. split; [|done]. intros Heq.
    assert (0 < children rs k); [|lia]. apply (children_pos rs k k' y); [done|].
    rewrite Heq. by split. }
  destruct (re_source_branch e) as [p|] eqn:Ep.
  - destruct (H2 _ _ _ E Ep) as [ep Eep]. cbn in Eep.
    assert (k <> mkRefKey l p) as Hne.
    { intros Heq. assert (0 < children rs k); [|lia]. apply (children_pos rs k k e); [done|].
      split; [done|]. cbn. unfold k in Heq. by injection Heq as ->. }
    assert (forall k', children (delete k rs) k' = children rs k' - if decide (k' = mkRefKey l p) then 1 else 0) as Hc.
    { intros k'. rewrite children_delete, E, (is_child_parent l b p e) by done. done. }
    assert (delete k rs !! mkRefKey l p = Some ep) as Ed by by rewrite lookup_delete_ne.
    rewrite (alter_insert_lookup (delete k rs) (mkRefKey l p) ep) by done.
    assert (forall n k', children (<[mkRefKey l p := set_branches n ep]> (delete k rs)) k' =
      children (delete k rs) k') as Hc'.
    { intros n k'. rewrite children_insert, Ed, (is_child_ext k' _ ep (set_branches n ep)) by done. lia. }
    assert (0 < children rs (mkRefKey l p)) as Hpos.
    { apply (children_pos rs _ k e); [done|]. by split. }
    split.
    + intros k' y [[<- <-]|[Hn [_ Ey]%lookup_delete_Some]]%lookup_insert_Some; rewrite Hc', Hc.
      * rewrite decide_True by done. cbn. rewrite (H1 _ _ Eep). unfold u32_saturating_sub1. lia.
      * rewrite decide_False by done. rewrite (H1 _ _ Ey). lia.
    + intros k' y p' Ey Ep'. apply lookup_insert_is_Some'. right.
      apply lookup_insert_Some in Ey as [[<- <-]|[Hn Ey]]; by eapply Hpar.
  - split; [|done]. intros k' y [Hn Ey]%lookup_delete_Some.
    rewrite children_delete, E, is_child_root by done. rewrite (H1 _ _ Ey). lia.
Qed.

(** A reset that takes the head away. *)
Definition unborn_reset (cmd : Command) : Prop :=
  match cmd with ResetHead _ _ snap _ => rhs_commit_head_id snap = None | _ => False end.

Lemma ref_effect_lineage s cmd rs' dead' :
  ref_effect s cmd rs' dead' -> ~ unborn_reset cmd -> Z.of_nat (size (refs s)) < u32_max ->
  lineage_ok (refs s) -> lineage_ok rs'.
Proof.
  intros He Hu Hsz Hl.
  destruct He as [|k0 e0 ix m E0 _ _ _|k0 c t m j _ _|l b src e0 c t m j Es Eb|l b _ Hc|l b snap t -> _|k0].
  - done.
  - by eapply lineage_rewrite.
  - by apply lineage_advance.
  - by apply lineage_fork.
  - apply lineage_remove; [|done]. intros e E. unfold has_children in Hc. rewrite E in Hc.
    by destruct (Z.ltb_spec 0 (re_branches e)).
  - cbn in Hu. destruct (rhs_commit_head_id snap) as [h|]; [|done].
    destruct (refs s !! mkRefKey l b) as [e|] eqn:E; [by eapply lineage_rewrite|by apply lineage_root].
  - done.
Qed.

(** ** Draining a queue *)

(** The commits [(id, t)] a worker stages, one per queued entry, each after the
    head before it. *)
Fixpoint rising (t : option Z) (commits : list (ContentId * Z)) : Prop :=
  match commits with
  | [] => True
  | (_, t') :: commits => (match t with Some t => t < t' | None => True end) /\ rising (Some t') commits
  end.

(** One [ApplyHead] per entry, from log index [j] on. *)
Fixpoint drain_log (l b : string) (millis : Z) (q : list QueueEntry) (commits : list (ContentId * Z))
    (j : Z) : list (Z * EntryPayload) :=
  match q, commits with
  | e :: q, (c, t) :: commits =>
      (j, Normal (ApplyHead (mkStagedHead l b (qe_queue_id e) c t millis None 0)))
      :: drain_log l b millis q commits (j + 1)
  | _, _ => []
  end.

(** The response of a head that advanced, after its envelope was handed on. *)
Definition head_applied (l b : string) (commit : ContentId * Z) : Response :=
  HeadApplied (format_ledger_id l b) commit.1 commit.2 None.

Lemma apply_head_front i s l b j millis e rest c t :
  let k := mkRefKey l b in
  ns_inv i s -> queues s !! k = Some (e :: rest) ->
  match re_t <$> refs s !! k with Some t0 => t0 < t | None => True end ->
  exists s' rel,
    apply s (ApplyHead (mkStagedHead l b (qe_queue_id e) c t millis None 0)) j =
      (s', HeadApplied (format_ledger_id l b) c t rel) /\
    queues s' = queues (popped k rest s) /\
    refs s' = <[k := advanced_entry (refs s !! k) c t millis j]> (refs s).
Proof.
  intros k Hi Eq Ht. cbn [apply]. unfold apply_head. cbv zeta. fold k.
  destruct (qu_branch _ _ _ _ _ _ (inv_queues _ _ Hi) _ _ Eq) as (Hk & Hd & Hm).
  rewrite bool_decide_false by done. unfold pop_validated_front. rewrite Hm, Eq, Z.eqb_refl. cbn [negb].
  rewrite drop_popped. cbn [refs with_queues]. rewrite self_heal_known by done.
  set (s2 := with_refs _ (popped _ rest s)). set (o := Applied _). exists (record_outcome s2 e o).1.
  exists (record_outcome s2 e o).2.
  assert (queues (record_outcome s2 e o).1 = queues s2) as R1
    by (unfold record_outcome; by destruct (qe_idempotency e)).
  destruct (record_keeps_refs s2 e o) as [R2 _].
  destruct (record_outcome s2 e o) as [s3 rel]. cbn [fst snd] in *.
  split; [|by rewrite R1, R2].
  fold k. destruct (refs s !! k) as [r|]; [|done]. cbn in Ht. by destruct (Z.leb_spec t (re_t r)); [lia|].
Qed.

Lemma apply_entries_cons s b entry log :
  fold_left apply_entry (entry :: log) (s, b) = fold_left apply_entry log (apply_entry (s, b) entry).
Proof. done. Qed.

Definition head_of (rs : gmap RefKey RefEntry) (k : RefKey) : option (ContentId * Z) :=
  (fun e => (re_head e, re_t e)) <$> rs !! k.

Lemma drain_spec i s bt l b millis q commits j :
  let k := mkRefKey l b in
  ns_inv i s -> default [] (queues s !! k) = q -> length commits = length q ->
  rising (re_t <$> refs s !! k) commits -> i < j -> j + zlen q < 2 ^ 64 - 1 ->
  let '(s', bt') := fold_left apply_entry (drain_log l b millis q commits j) (s, bt) in
  queues s' !! k = None /\
  (forall k', k' <> k -> queues s' !! k' = queues s !! k' /\ refs s' !! k' = refs s !! k') /\
  b_responses bt' = b_responses bt ++ (head_applied l b <$> commits) /\
  head_of (refs s') k = from_option Some (head_of (refs s) k) (last commits).
Proof.
  intros k. revert i s bt commits j. induction q as [|e q IH]; intros i s bt commits j Hi Eq Hlen Hr Hij Hj.
  - destruct commits; [|done]. cbn. rewrite app_nil_r. split_and!; [|done..].
    destruct (queues s !! k) as [[|e q]|] eqn:Ek; [|done|done].
    by destruct (qu_shape _ _ _ _ _ _ (inv_queues _ _ Hi) _ _ Ek) as [? _].
  - destruct commits as [|[c t] commits]; [done|]. cbn in Hlen. injection Hlen as Hlen.
    destruct Hr as [Ht Hr]. rewrite zlen_cons in Hj. pose proof (zlen_nonneg q).
    destruct (queues s !! k) as [q0|] eqn:Ek; [|done]. cbn in Eq. subst q0.
    destruct (apply_head_front i s l b j millis e q c t Hi Ek Ht) as (s1 & rel & Ea & E1 & E2).
    fold k in E1, E2.
    assert (ns_inv j s1) as Hi1.
    { pose proof (apply_inv i j s (ApplyHead (mkStagedHead l b (qe_queue_id e) c t millis None 0))) as Hx.
      rewrite Ea in Hx. apply Hx; [lia|done]. }
    cbn [drain_log]. rewrite apply_entries_cons. cbn [apply_entry]. rewrite Ea. cbn [drain_releases].
    set (bt1 := mkBatch _ _ _ _).
    assert (head_of (refs s1) k = Some (c, t)) as Hh.
    { unfold head_of. rewrite E2, lookup_insert_eq. unfold advanced_entry. by destruct (refs s !! k). }
    specialize (IH j s1 bt1 commits (j + 1) Hi1).
    destruct (fold_left apply_entry _ (s1, bt1)) as [s' bt'].
    destruct IH as (D1 & D2 & D3 & D4).
    + rewrite E1. unfold popped. cbn. destruct q as [|e' q]; [by rewrite lookup_delete_eq|].
      by rewrite lookup_insert_eq.
    + done.
    + rewrite E2, lookup_insert_eq. unfold advanced_entry. by destruct (refs s !! k).
    + lia.
    + lia.
    + split_and!; [done| | |].
      * intros k' Hn. destruct (D2 k' Hn) as [-> ->]. rewrite E1, E2, lookup_insert_ne by done.
        split; [|done]. unfold popped. cbn. destruct q; [by rewrite lookup_delete_ne|by rewrite lookup_insert_ne].
      * rewrite D3. unfold bt1. cbn. by rewrite <- app_assoc.
      * rewrite D4, Hh, last_cons. by destruct (last commits).
Qed.

(** ** Properties *)

(** C24: Branch heads move forward and tombstoned branches do not move.  Whatever
    command a reachable state applies, a branch that the command does not drop,
    purge or reset keeps its head entry: its logical time does not decrease, a
    new head needs a later time, its parent stays, its index watermark does not
    decrease unless the command is a compare-and-set to no index, and while the
    branch is retracted it stays retracted with the head, time and index it
    has. *)
Theorem heads_advance (i : Z) (s : NameServiceState) (cmd : Command) (j : Z) (k : RefKey) (e : RefEntry) :
  reachable (fun _ => True) i s -> refs s !! k = Some e ->
  ~ removes cmd k -> ~ resets cmd k ->
  let s' := (apply s cmd j).1 in
  (k ∈ retracted s -> k ∈ retracted s') /\
  exists e', refs s' !! k = Some e' /\
    re_t e <= re_t e' /\ (re_t e' = re_t e -> re_head e' = re_head e) /\
    re_source_branch e' = re_source_branch e /\
    (k ∈ retracted s -> re_t e' = re_t e /\ re_index e' = re_index e) /\
    (~ clears_index cmd k -> forall x, re_index e = Some x ->
       exists x', re_index e' = Some x' /\ ix_t x <= ix_t x').
Proof.
  intros Hr E Hrm Hrs s'. pose proof (apply_ref_effect i s cmd j (reachable_inv _ _ _ Hr)) as He.
  by eapply ref_effect_follows in He.
Qed.

(** The child counters count the children.  From a reachable state in which
    each branch's counter is the number of branches forked from it and every
    parent has a head, any command other than a reset to an unborn head keeps
    it so, as long as the heads fit the 32-bit counter; and in such a state
    dropping or purging a registered branch is refused exactly while it has
    children. *)
Theorem lineage_counted (i : Z) (s : NameServiceState) (cmd : Command) (j : Z) :
  reachable (fun _ => True) i s -> lineage_ok (refs s) ->
  Z.of_nat (size (refs s)) < u32_max -> ~ unborn_reset cmd ->
  lineage_ok (refs (apply s cmd j).1) /\
  forall l b t, branch_known (ledgers s) l b = true ->
    let n := children (refs s) (mkRefKey l b) in
    ((apply s (DropBranch l b t) j).2 = BranchHasChildren (format_ledger_id l b) n <-> 0 < n) /\
    ((apply s (PurgeBranch l b t) j).2 = BranchHasChildren (format_ledger_id l b) n <-> 0 < n).
Proof.
  intros Hr Hl Hsz Hu. split.
  { eapply ref_effect_lineage; [by eapply apply_ref_effect, reachable_inv|done..]. }
  intros l b t Hb n.
  assert (has_children s (mkRefKey l b) = if 0 <? n then Some n else None) as Hn.
  { unfold has_children, n. destruct (refs s !! mkRefKey l b) as [e|] eqn:E.
    - by rewrite (li_count _ Hl _ _ E).
    - by rewrite (children_unborn _ _ Hl E). }
  cbn [apply]. unfold drop_branch, purge_branch. rewrite Hb, Hn. cbn [negb]. cbv zeta.
  destruct (Z.ltb_spec 0 n); [done|].
  destruct (unregister_branch _ l b) as [s2 removed].
  destruct (match _ with Some parent => _ | None => (s2, None) end) as [s3 m].
  destruct (clear_queue_for_admin s3 _ _ _).
  destruct (clear_queue_for_admin (match _ with Some parent => _ | None => s2 end) _ _ _).
  split; (split; [|lia]); [done|]. by destruct (_ || _).
Qed.

(** C25: A worker that stages on the current head drains its queue.  In a
    reachable state, for a branch with any queue and as many commits of rising
    logical time, the [ApplyHead] commands for its entries, in queue order,
    are all accepted: the branch ends with no queue and the last commit as its
    head, and the queues and heads of the other branches are untouched. *)
Theorem worker_drains_queue (i : Z) (s : NameServiceState) (l b : string) (millis : Z)
    (commits : list (ContentId * Z)) (j : Z) :
  let k := mkRefKey l b in
  let q := default [] (queues s !! k) in
  reachable (fun _ => True) i s -> length commits = length q ->
  rising (re_t <$> refs s !! k) commits -> i < j -> j + zlen q < 2 ^ 64 - 1 ->
  let '(s', bt) := apply_entries s (drain_log l b millis q commits j) in
  b_responses bt = head_applied l b <$> commits /\
  queues s' !! k = None /\
  head_of (refs s') k = from_option Some (head_of (refs s) k) (last commits) /\
  forall k', k' <> k -> queues s' !! k' = queues s !! k' /\ refs s' !! k' = refs s !! k'.
Proof.
  intros k q Hr Hlen Hrise Hij Hj. unfold apply_entries.
  pose proof (drain_spec i s batch_new l b millis q commits j (reachable_inv _ _ _ Hr) eq_refl
    Hlen Hrise Hij Hj) as Hd.
  destruct (fold_left apply_entry _ _) as [s' bt]. destruct Hd as (D1 & D2 & D3 & D4). done.
Qed.
End heads.
