(* ===== verification/RaftWaiters.v ===== *)
(** * Replicated nameservice: waiters and workers

    The proposers parked on a queue entry follow the entry: they are woken when
    it leaves the queue and not before.  Each branch has one worker, chosen by
    rendezvous hashing. *)

From stdpp Require Import base list numbers gmap sets strings sorting relations.
From Stdlib Require Import ZArith Lia.
From S2P Require Import Prelude Value Envelope LedgerId RaftTypes RaftApply RaftAdapter RaftInv RaftEffect.

Local Open Scope Z_scope.

Section waiters.
Context {CL : CidLib} {CO : CacheOrder} {CW : CacheLaws}.

Implicit Types (w : gmap Z WaiterSlot).

(** ** The waiter map *)

Lemma resolve_keeps_other w q o q' : q' <> q -> (resolve_with w q o).1 !! q' = w !! q'.
Proof.
  intros Hn. unfold resolve_with. destruct (w !! q) as [[k snd|o']|]; cbn;
    by rewrite ?lookup_insert_ne, ?lookup_delete_ne.
Qed.

Lemma resolve_parked w q o k sender :
  w !! q = Some (Parked k sender) -> resolve_with w q o = (delete q w, [(sender, o)]).
Proof. intros E. unfold resolve_with. by rewrite E. Qed.

(** Resolving the ids of a list one after the other. *)
Lemma for_each_resolve reason ids w out :
  NoDup ids ->
  let '(w', out') := fold_left (fun '(w, out) q => let '(w, d) := resolve_aborted w q reason in (w, out ++ d))
    ids (w, out) in
  (forall x, x ∈ out -> x ∈ out') /\
  (forall q, q ∉ ids -> w' !! q = w !! q) /\
  (forall q k sender, q ∈ ids -> w !! q = Some (Parked k sender) ->
     w' !! q = None /\ (sender, WaiterAborted reason) ∈ out').
Proof.
  revert w out. induction ids as [|q ids IH]; intros w out Hd.
  { cbn. split_and!; [done|done|]. by intros ? ? ? ?%elem_of_nil. }
  apply NoDup_cons in Hd as [Hq Hd]. cbn [fold_left].
  pose proof (fun q' => resolve_keeps_other w q (WaiterAborted reason) q') as Ho.
  pose proof (fun k snd => resolve_parked w q (WaiterAborted reason) k snd) as Hp.
  fold (resolve_aborted w q reason) in Ho, Hp.
  destruct (resolve_aborted w q reason) as [w1 d]. cbn [fst] in Ho. specialize (IH w1 (out ++ d) Hd).
  destruct (fold_left _ ids (w1, out ++ d)) as [w' out']. destruct IH as (I1 & I2 & I3). split_and!.
  - intros x Hx. apply I1. set_solver.
  - intros q' [Hn Hi]%not_elem_of_cons. by rewrite I2, Ho.
  - intros q' k sender [->|Hin]%elem_of_cons E.
    + specialize (Hp _ _ E). injection Hp as -> ->. rewrite I2 by done.
      split; [by rewrite lookup_delete_eq|]. apply I1. set_solver.
    + apply (I3 q' k sender Hin). rewrite Ho; [done|]. by intros ->.
Qed.

Lemma parked_ids_NoDup w k : NoDup (List.filter (fun x => parked_on k x.2) (map_to_list w)).*1.
Proof.
  pose proof (NoDup_fst_map_to_list w) as Hn. induction (map_to_list w) as [|x l IH]; cbn; [constructor|].
  cbn in Hn. apply NoDup_cons in Hn as [Hx Hn]. destruct (parked_on k x.2); cbn; [|auto].
  apply NoDup_cons. split; [|auto]. intros (y & Exy & Hy)%list_elem_of_fmap. apply Hx.
  apply list_elem_of_fmap. exists y. split; [done|]. apply list_elem_of_In in Hy.
  apply filter_In in Hy as [Hy _]. by apply list_elem_of_In.
Qed.

Lemma parked_ids_elem w k q :
  q ∈ (List.filter (fun x => parked_on k x.2) (map_to_list w)).*1 <-> exists sender, w !! q = Some (Parked k sender).
Proof.
  rewrite list_elem_of_fmap. split.
  - intros ([q' slot] & -> & Hy). apply list_elem_of_In, filter_In in Hy as [Hy Hp].
    apply list_elem_of_In, elem_of_map_to_list in Hy. cbn in *.
    destruct slot as [k' sender|]; [|done]. apply bool_decide_eq_true in Hp as ->. eauto.
  - intros [sender E]. exists (q, Parked k sender). split; [done|]. apply list_elem_of_In, filter_In.
    split; [by apply list_elem_of_In, elem_of_map_to_list|]. cbn. by apply bool_decide_eq_true.
Qed.

Lemma abort_all_spec w k reason :
  let '(w', out) := abort_all_for_branch w k reason in
  (forall q sender, w !! q = Some (Parked k sender) -> w' !! q = None /\ (sender, WaiterAborted reason) ∈ out) /\
  (forall q k' sender, k' <> k -> w !! q = Some (Parked k' sender) -> w' !! q = w !! q).
Proof.
  unfold abort_all_for_branch, for_each_id.
  pose proof (for_each_resolve reason _ w [] (parked_ids_NoDup w k)) as Hf.
  destruct (fold_left _ _ (w, [])) as [w' out]. destruct Hf as (_ & H2 & H3). split.
  - intros q sender E. eapply H3; [|done]. apply parked_ids_elem. eauto.
  - intros q k' sender Hn E. apply H2. rewrite parked_ids_elem. intros [? E']. congruence.
Qed.

(** Draining the map: every parked sender hears the reason, no slot is left. *)
Lemma drain_ids reason ids : forall w out, NoDup ids ->
  let '(w', out') := fold_left (fun '(w, out) q =>
      let '(w, d) := (delete q w, match w !! q with Some (Parked _ sender) => [(sender, WaiterAborted reason)] | _ => [] end) in
      (w, out ++ d)) ids (w, out) in
  (forall x, x ∈ out -> x ∈ out') /\
  (forall q, w' !! q = if bool_decide (q ∈ ids) then None else w !! q) /\
  (forall q k sender, q ∈ ids -> w !! q = Some (Parked k sender) -> (sender, WaiterAborted reason) ∈ out').
Proof.
  induction ids as [|q ids IH]; intros w out Hd.
  { cbn. split_and!; [done|done|]. by intros ? ? ? ?%elem_of_nil. }
  apply NoDup_cons in Hd as [Hq Hd]. cbn [fold_left].
  set (d := match w !! q with Some (Parked _ sender) => [(sender, WaiterAborted reason)] | _ => [] end).
  specialize (IH (delete q w) (out ++ d) Hd). destruct (fold_left _ ids (delete q w, out ++ d)) as [w' out'].
  destruct IH as (I1 & I2 & I3). split_and!.
  - intros x Hx. apply I1. set_solver.
  - intros q'. rewrite I2. destruct (decide (q' = q)) as [->|Hn].
    + rewrite (bool_decide_true (q ∈ q :: ids)) by left. case_bool_decide; [done|]. by rewrite lookup_delete_eq.
    + rewrite lookup_delete_ne by done. by rewrite (bool_decide_ext (q' ∈ q :: ids) (q' ∈ ids)) by set_solver.
  - intros q' k sender [->|Hin]%elem_of_cons E.
    + apply I1. subst d. rewrite E. set_solver.
    + eapply (I3 q'); [done|]. rewrite lookup_delete_ne; [exact E|]. by intros ->.
Qed.

Lemma drain_all_spec w reason :
  let '(w', out) := drain_all_with w reason in
  w' = ∅ /\ forall q k sender, w !! q = Some (Parked k sender) -> (sender, WaiterAborted reason) ∈ out.
Proof.
  unfold drain_all_with, for_each_id. pose proof (drain_ids reason _ w [] (NoDup_fst_map_to_list w)) as H.
  destruct (fold_left _ _ (w, [])) as [w' out]. destruct H as (_ & H2 & H3).
  assert (forall q, is_Some (w !! q) -> q ∈ (map_to_list w).*1) as Hin.
  { intros q [x Hx]. apply list_elem_of_fmap. exists (q, x). split; [done|]. by apply elem_of_map_to_list. }
  split.
  - apply map_empty. intros q. rewrite H2. case_bool_decide as Hq; [done|]. apply eq_None_not_Some. by intros ?%Hin.
  - intros q k sender E. eapply H3; [|done]. apply Hin. by eexists.
Qed.

(** ** Entries and their waiters *)

(** What the departure of an entry, or its stay, means for its waiter. *)
Definition entry_outcome (k : RefKey) (e : QueueEntry) (sender : Z)
    (qs' : gmap RefKey (list QueueEntry)) w' (out : list (Z * WaiterOutcome)) : Prop :=
  ((exists o, (sender, o) ∈ out) /\ w' !! qe_queue_id e = None /\
     forall k' q', qs' !! k' = Some q' -> qe_queue_id e ∉ ids q') \/
  ((exists q', qs' !! k = Some q' /\ e ∈ q') /\ w' !! qe_queue_id e = Some (Parked k sender)).

Definition run_one w (receipts : gmap Z (RefKey * AppliedReceipt)) (r : option WaiterResolution) :=
  fold_left run_resolution (option_list r) (w, receipts, []).

Lemma run_resolves w receipts q r :
  resolves q r -> exists o receipts',
    run_one w receipts r = let '(w', d) := resolve_with w q o in (w', receipts', d).
Proof.
  unfold run_one. destruct r as [[q' c t|q' reason|]|]; cbn; intros Hq; try done; subst q';
    unfold resolve_applied, resolve_aborted.
  - exists (WaiterApplied (default (Minimal c t) (snd <$> receipts !! q))), (delete q receipts).
    by destruct (resolve_with w q _).
  - exists (WaiterAborted reason), (delete q receipts). by destruct (resolve_with w q _).
Qed.

(** Popped and cleared entries are in no queue afterwards. *)
Lemma popped_gone ls dead qs marks next cfg k e rest k' q' :
  queues_ok ls dead qs marks next cfg -> qs !! k = Some (e :: rest) ->
  (match rest with [] => delete k qs | _ => <[k := rest]> qs end) !! k' = Some q' ->
  qe_queue_id e ∉ ids q'.
Proof.
  intros Hq E E' Hin.
  assert (k' <> k -> qs !! k' = Some q' -> False) as Hother.
  { intros Hn E2. apply Hn. eapply qu_apart; [done|exact E2|exact E|done|]. cbn. left. }
  assert (qe_queue_id e ∉ ids rest) as Hrest.
  { destruct (qu_shape _ _ _ _ _ _ Hq _ _ E) as (_ & Hs & _). apply StronglySorted_inv in Hs as [_ Hf].
    intros Hi. rewrite Forall_forall in Hf. specialize (Hf _ Hi). lia. }
  destruct rest as [|e' rest].
  - apply lookup_delete_Some in E' as [? ?]. by apply Hother.
  - apply lookup_insert_Some in E' as [[<- <-]|[? ?]]; [done|]. by apply Hother.
Qed.

Lemma effect_waiters i s cmd s' rel acc res w receipts k q e sender :
  ns_inv i s -> effect s cmd s' rel acc res ->
  queues s !! k = Some q -> e ∈ q -> w !! qe_queue_id e = Some (Parked k sender) ->
  let '(w', _, out) := run_one w receipts res in entry_outcome k e sender (queues s') w' out.
Proof.
  intros Hi He Eq Hin Hw. pose proof (inv_queues _ _ Hi) as Hq.
  assert (queues s' = queues s -> entry_outcome k e sender (queues s') w []) as Hsame.
  { intros ->. right. eauto. }
  destruct He as [E _|k0 reason E _|args e0 k0 -> _ _ _ _ E _|k0 e0 rest o res E0 E _ _ Hres|cut mcut rel -> E _];
    try by apply Hsame.
  - unfold run_one. cbn. pose proof (abort_all_spec w k0 reason) as Ha.
    destruct (abort_all_for_branch w k0 reason) as [w' out]. cbn. rewrite E.
    destruct Ha as [H1 H2]. destruct (decide (k = k0)) as [<-|Hn].
    + left. destruct (H1 _ _ Hw) as [Hnone Hout]. split_and!; [eauto|done|].
      intros k' q' [Hk E']%lookup_delete_Some Hid. apply Hk.
      eapply (qu_apart _ _ _ _ _ _ Hq k k'); [exact Eq|exact E'| |exact Hid]. by apply list_elem_of_fmap_2.
    + right. split; [exists q; split; [by rewrite lookup_delete_ne|done]|]. by erewrite H2.
  - unfold run_one. cbn. right. split; [|done]. rewrite E.
    destruct (decide (k0 = k)) as [->|Hn]; [|rewrite lookup_insert_ne by done; eauto].
    rewrite lookup_insert_eq, Eq. eexists; split; [done|]. cbn. set_solver.
  - destruct (run_resolves w receipts _ _ Hres) as (o' & receipts' & ->).
    destruct (decide (qe_queue_id e = qe_queue_id e0)) as [Heq|Hne].
    + rewrite <- Heq, (resolve_parked _ _ _ _ _ Hw). left. split_and!; [|by rewrite lookup_delete_eq|].
      { eexists. left. }
      intros k' q' Ek'. rewrite E in Ek'. rewrite Heq. by eapply popped_gone.
    + pose proof (resolve_keeps_other w (qe_queue_id e0) o' (qe_queue_id e) Hne) as Ho.
      destruct (resolve_with w _ o') as [w' d]. cbn in Ho. right. rewrite Ho. split; [|done]. rewrite E.
      destruct (decide (k0 = k)) as [->|Hn].
      * rewrite E0 in Eq. injection Eq as <-. apply elem_of_cons in Hin as [->|Hin]; [done|].
        unfold popped. cbn. destruct rest as [|e' rest]; [by apply elem_of_nil in Hin|].
        rewrite lookup_insert_eq. eauto.
      * unfold popped. cbn. exists q. split; [|done].
        destruct rest; [by rewrite lookup_delete_ne|by rewrite lookup_insert_ne].
Qed.

(** ** Properties *)

(** C29: A parked proposer hears from its queue entry exactly when a command takes
    the entry from the queue.  When a node applies a command in a reachable
    state, then for each queued entry with a proposer parked on it for its
    branch: either the proposer's channel receives an outcome, its slot is freed
    and the entry is in no queue any more, or the entry is still queued and the
    proposer still parked.  Parking and the resolution of one queue id commute:
    both orders deliver the outcome on the channel and leave no slot behind.
    (Clearing a whole branch resolves the proposers parked at that time only;
    see [late_waiter_parked].)  Installing a snapshot aborts every parked
    proposer, whether its entry survives or not, and leaves no slot. *)
Theorem waiters_follow_entries (i : Z) (ad : Adapter) (cmd : Command) (j : Z) :
  reachable (fun _ => True) i (ad_state ad) ->
  (forall k q e sender, queues (ad_state ad) !! k = Some q -> e ∈ q ->
     ad_waiters ad !! qe_queue_id e = Some (Parked k sender) ->
     let '(ad', _, _, out) := adapter_apply ad [(j, Normal cmd)] in
     entry_outcome k e sender (queues (ad_state ad')) (ad_waiters ad') out) /\
  (forall queue_id k sender o, ad_waiters ad !! queue_id = None ->
     let '(w1, d1) := register (ad_waiters ad) queue_id k sender in
     let '(w2, d2) := resolve_with w1 queue_id o in
     let '(w3, d3) := resolve_with (ad_waiters ad) queue_id o in
     let '(w4, d4) := register w3 queue_id k sender in
     (w2, d1 ++ d2) = (ad_waiters ad, [(sender, o)]) /\ (w4, d3 ++ d4) = (ad_waiters ad, [(sender, o)])) /\
  (forall new_state,
     let '(ad', _, out) := install_snapshot ad new_state in
     ad_state ad' = new_state /\ ad_waiters ad' = ∅ /\ ad_receipts ad' = ∅ /\
     forall queue_id k sender, ad_waiters ad !! queue_id = Some (Parked k sender) ->
       (sender, WaiterAborted SnapshotInstalled) ∈ out).
Proof.
  intros Hr. split_and!.
  - intros k q e sender Eq Hin Hw. unfold adapter_apply, apply_entries. cbn [fold_left apply_entry].
    pose proof (apply_effect i _ cmd j (reachable_inv _ _ _ Hr)) as He. unfold has_effect in He.
    destruct (apply (ad_state ad) cmd j) as [s' resp]. cbn [fst snd] in He.
    destruct (drain_releases resp) as [drained rel]. cbn [b_resolutions batch_new app].
    pose proof (effect_waiters i _ cmd s' _ _ _ _ (ad_receipts ad) k q e sender
      (reachable_inv _ _ _ Hr) He Eq Hin Hw) as Ho.
    unfold run_one in Ho. by destruct (fold_left run_resolution _ _) as [[w' receipts'] out].
  - intros queue_id k sender o E. unfold register, resolve_with. rewrite E. cbn.
    rewrite !lookup_insert_eq. cbn. by rewrite !delete_insert_id.
  - intros new_state. unfold install_snapshot. pose proof (drain_all_spec (ad_waiters ad) SnapshotInstalled) as H.
    destruct (drain_all_with (ad_waiters ad) SnapshotInstalled) as [w out]. cbn. destruct H as [-> H]. by split_and!.
Qed.
End waiters.

(** ** Ownership *)

Section ownership.
Context (xxh64 : list Z -> Z -> Z).

Lemma weight_leb_spec a b : weight_leb a b = true <-> a.1 < b.1 \/ (a.1 = b.1 /\ a.2 <= b.2).
Proof. unfold weight_leb. rewrite orb_true_iff, andb_true_iff, Z.ltb_lt, Z.eqb_eq, Z.leb_le. tauto. Qed.

Lemma fold_max_spec l x :
  let m := fold_left (fun best y => if weight_leb best y then y else best) l x in
  (m = x \/ m ∈ l) /\ weight_leb x m = true /\ forall y, y ∈ l -> weight_leb y m = true.
Proof.
  revert x. induction l as [|z l IH]; intros x; cbn.
  - split_and!; [by left|apply weight_leb_spec; lia|]. by intros ? ?%elem_of_nil.
  - destruct (IH (if weight_leb x z then z else x)) as (Hm & Hx & Hl).
    set (m := fold_left _ l _) in *. split_and!.
    + destruct Hm as [->|Hm]; [|set_solver]. destruct (weight_leb x z); set_solver.
    + destruct (weight_leb x z) eqn:E; [|done]. rewrite weight_leb_spec in *. lia.
    + intros y [->|Hy]%elem_of_cons; [|auto].
      destruct (weight_leb x z) eqn:E; [done|]. apply not_true_iff_false in E.
      rewrite weight_leb_spec in *. lia.
Qed.

(** The owner is the voter of greatest weight. *)
Lemma owner_spec k voters o :
  owner xxh64 k voters = Some o <->
  o ∈ voters /\ forall n, n ∈ voters ->
    weight_leb (rendezvous_score xxh64 n (key_digest xxh64 k), n)
               (rendezvous_score xxh64 o (key_digest xxh64 k), o) = true.
Proof.
  unfold owner. set (weight := fun node => (rendezvous_score xxh64 node (key_digest xxh64 k), node)).
  assert (forall m, max_by_weight (weight <$> voters) = Some m ->
    m.2 ∈ voters /\ m = weight m.2 /\ forall n, n ∈ voters -> weight_leb (weight n) m = true) as Hmax.
  { intros m Hm. destruct voters as [|v voters]; [done|]. cbn in Hm. injection Hm as <-.
    destruct (fold_max_spec (weight <$> voters) (weight v)) as (Hin & Hx & Hl).
    set (m := fold_left _ _ _) in *.
    assert (exists n, n ∈ v :: voters /\ m = weight n) as (n & Hn & ->).
    { destruct Hin as [->|(n & -> & Hn)%list_elem_of_fmap]; [exists v|exists n]; set_solver. }
    split_and!; [done|done|]. intros n' [->|Hn']%elem_of_cons; [done|].
    apply Hl, list_elem_of_fmap. eauto. }
  split.
  - destruct (max_by_weight _) as [m|]; [|done]. cbn. intros [= <-].
    destruct (Hmax m eq_refl) as (H1 & H2 & H3). split; [done|]. intros n Hn.
    specialize (H3 n Hn). rewrite H2 in H3. done.
  - intros [Ho Hle]. destruct (max_by_weight _) as [m|] eqn:Em.
    + destruct (Hmax m eq_refl) as (H1 & H2 & H3). cbn. f_equal.
      specialize (H3 o Ho). specialize (Hle _ H1). rewrite H2 in H3.
      rewrite weight_leb_spec in H3, Hle. cbn in H3, Hle. lia.
    + destruct voters; [by apply elem_of_nil in Ho|done].
Qed.

Lemma owner_none k voters : owner xxh64 k voters = None <-> voters = [].
Proof. unfold owner. by destruct voters. Qed.

(** Every non-empty voter set gives a branch exactly one worker, and changing
    the voters moves as little as possible: the owner does not depend on the
    order in which the voters are listed; a voter that joins takes over the
    branch or leaves it with its owner; and when a voter that is not the owner
    leaves, the owner stays.  This holds for any hash function. *)
Theorem rendezvous_stable (k : RefKey) (voters : list Z) :
  (owner xxh64 k voters = None <-> voters = []) /\
  (forall voters', (forall n, n ∈ voters <-> n ∈ voters') -> owner xxh64 k voters' = owner xxh64 k voters) /\
  (forall n, owner xxh64 k (n :: voters) = Some n \/ owner xxh64 k (n :: voters) = owner xxh64 k voters) /\
  (forall o n, owner xxh64 k voters = Some o -> n <> o ->
     owner xxh64 k (base.filter (fun v => v <> n) voters) = Some o).
Proof.
  split_and!.
  - apply owner_none.
  - intros voters' Hset. destruct (owner xxh64 k voters) as [o|] eqn:E.
    + apply owner_spec in E as [Ho Hle]. apply owner_spec. set_solver.
    + apply owner_none in E as ->. apply owner_none. destruct voters' as [|v voters']; [done|].
      exfalso. eapply elem_of_nil, Hset. left.
  - intros n. destruct (owner xxh64 k (n :: voters)) as [o|] eqn:E; [|done].
    apply owner_spec in E as [[->|Ho]%elem_of_cons Hle]; [by left|]. right. symmetry.
    apply owner_spec. set_solver.
  - intros o n [Ho Hle]%owner_spec Hn. apply owner_spec. split.
    + apply list_elem_of_filter. naive_solver.
    + intros m [_ Hm]%list_elem_of_filter. auto.
Qed.
End ownership.
