(* ===== verification/RaftPlain.v ===== *)
(** * Replicated nameservice: concrete runs

    A concrete iteration order, a short log of a one-ledger cluster, the
    instances of the properties at it, and runs that show behaviour the
    comments of the source do not lead one to expect. *)

From stdpp Require Import base list numbers gmap sets strings sorting.
From Stdlib Require Import ZArith Lia Ascii.
From S2P Require Import Prelude Value Envelope LedgerId RaftTypes RaftApply RaftAdapter RaftInv RaftEffect RaftSafety.
From S2P Require Import RaftHeads RaftWaiters.

Local Open Scope Z_scope.

#[export] Instance PlainCache : CacheOrder := map_to_list.
#[export] Instance PlainCacheLaws : CacheLaws.
Proof. intros m. done. Qed.

(** The opposite iteration order. *)
Definition ReversedCache : CacheOrder := fun m => reverse (map_to_list m).
Lemma ReversedCacheLaws : @CacheLaws _ ReversedCache.
Proof. intros m. apply reverse_Permutation. Qed.

Definition cid (n : nat) : ContentId := ascii_of_nat n.

Definition create_main : Command := CreateLedger (mkNewLedger "db" "main" 1000).
Definition submit (key : option string) (req body : nat) : Command :=
  EnqueueCommand (mkQueueSubmission "db" "main" (mkIdemKey "db:main" <$> key) (cid req) (cid body)
    JsonLdInsert 1000).
Definition advance (branch : string) (queue_id : Z) (commit : nat) (t : Z) : Command :=
  ApplyHead (mkStagedHead "db" branch queue_id (cid commit) t 1000 None 5).

(** Two submissions, the first with a key and already applied. *)
Definition sample_log : list (Z * EntryPayload) :=
  [(0, Membership {[1; 2; 3]}); (1, Normal create_main); (2, Normal (submit (Some "k1") 1 2));
   (3, Normal (submit None 3 4)); (4, Normal (advance "main" 0 5 1))].

Definition sample_state : NameServiceState := run_log state_new sample_log.

Lemma sample_increasing : increasing (-1) sample_log.
Proof. cbn. lia. Qed.

Lemma sample_keyed : Forall (fun e => ok_payload keyed e.2) sample_log.
Proof.
  repeat (apply Forall_cons; split; [first [done | intros key Hk; by simplify_eq/=]|]). constructor.
Qed.

Lemma sample_reachable ok :
  Forall (fun e => ok_payload ok e.2) sample_log -> reachable ok 4 sample_state.
Proof.
  intros Hok. apply (run_reachable ok (-1) state_new sample_log);
    [apply reach_new|apply sample_increasing|done].
Qed.

Lemma sample_reachable_any : reachable (fun _ => True) 4 sample_state.
Proof. apply sample_reachable. by repeat constructor. Qed.

(** The entry left in the queue of the sample. *)
Definition sample_entry : QueueEntry := mkQueueEntry 1 3 1000 None (cid 3) (cid 4) JsonLdInsert.
Definition main_key : RefKey := mkRefKey "db" "main".

Lemma sample_queue : queues sample_state !! main_key = Some [sample_entry].
Proof. by vm_compute. Qed.

(** ** Instances of the properties *)

Lemma nameservice_invariant_witness : ns_inv 4 sample_state.
Proof. exact (nameservice_invariant 4 sample_state sample_reachable_any). Defined.


Lemma envelopes_conserved_witness :
  let '(s, b) := apply_entries state_new sample_log in
  held s ++ (b_releases b).*2 ≡ₚ accepted_log sample_log (b_responses b).
Proof. exact (envelopes_conserved sample_log sample_increasing sample_keyed). Defined.

Lemma replicas_agree_witness :
  @apply_entries _ PlainCache state_new sample_log = @apply_entries _ ReversedCache state_new sample_log.
Proof.
  exact (@replicas_agree _ PlainCache ReversedCache PlainCacheLaws ReversedCacheLaws
    sample_log sample_increasing).
Defined.

(** The head of the sample. *)
Definition sample_head : RefEntry := mkRefEntry (cid 5) 1 1000 4 None None 0.

Lemma heads_advance_witness :
  exists e', refs (apply sample_state (advance "main" 1 6 2) 5).1 !! main_key = Some e' /\ 1 <= re_t e'.
Proof.
  destruct (heads_advance 4 sample_state (advance "main" 1 6 2) 5 main_key sample_head
    sample_reachable_any ltac:(by vm_compute) ltac:(by intros []) ltac:(by intros []))
    as (_ & e' & E & Ht & _).
  exists e'. split; [exact E|exact Ht].
Defined.

Definition fork_dev : Command := CreateBranch (mkNewBranch "db" "dev" "main" None 1000).

Lemma sample_lineage : lineage_ok (refs sample_state).
Proof.
  assert (refs sample_state = <[main_key := sample_head]> ∅) as -> by by vm_compute.
  apply lineage_root; [done..|]. by split.
Qed.

Lemma lineage_counted_witness : lineage_ok (refs (apply sample_state fork_dev 5).1).
Proof.
  apply (lineage_counted 4 sample_state fork_dev 5 sample_reachable_any sample_lineage);
    [by vm_compute|by intros []].
Defined.

Lemma worker_drains_queue_witness :
  let '(s', bt) := apply_entries sample_state (drain_log "db" "main" 2000 [sample_entry] [(cid 6, 2)] 5) in
  b_responses bt = [head_applied "db" "main" (cid 6, 2)] /\ queues s' !! main_key = None.
Proof.
  pose proof (worker_drains_queue 4 sample_state "db" "main" 2000 [(cid 6, 2)] 5
    sample_reachable_any ltac:(by vm_compute) ltac:(by vm_compute) ltac:(lia) ltac:(by vm_compute)) as Hd.
  change (default [] (queues sample_state !! mkRefKey "db" "main")) with [sample_entry] in Hd.
  destruct (apply_entries sample_state _) as [s' bt]. destruct Hd as (H1 & H2 & _). split; [exact H1|exact H2].
Defined.

Lemma waiters_follow_entries_witness :
  let ad := mkAdapter sample_state {[1 := Parked main_key 77]} ∅ in
  let '(ad', _, _, out) := adapter_apply ad [(5, Normal (advance "main" 1 6 2))] in
  entry_outcome main_key sample_entry 77 (queues (ad_state ad')) (ad_waiters ad') out.
Proof.
  apply (waiters_follow_entries 4 (mkAdapter sample_state {[1 := Parked main_key 77]} ∅)
    (advance "main" 1 6 2) 5 sample_reachable_any) with (q := [sample_entry]);
    [exact sample_queue|left|reflexivity].
Defined.

(** ** Runs worth knowing about *)

Definition run_commands (s : NameServiceState) (cmds : list Command) : NameServiceState * list Response :=
  fold_left (fun '(s, out) cmd => let '(s, r) := apply s cmd (Z.of_nat (length out) + 10) in (s, out ++ [r]))
    cmds (s, []).

Definition unborn_snapshot : ResetHeadSnapshot := mkResetSnapshot None 0 None 0.

(** Resetting a fork to unborn and dropping it leaves its parent with a child
    counted that does not exist: the parent can no longer be dropped. *)
Lemma unborn_reset_strands_parent :
  let '(s, out) := run_commands sample_state
    [fork_dev; ResetHead "db" "dev" unborn_snapshot 2000; DropBranch "db" "dev" 2000;
     DropBranch "db" "main" 2000] in
  children (refs s) main_key = 0 /\ last out = Some (BranchHasChildren "db:main" 1).
Proof. by vm_compute. Qed.

(** Resetting a parent to unborn forgets its children: once it has a head again
    it can be dropped under them. *)
Lemma unborn_reset_orphans_child :
  let '(s, out) := run_commands sample_state
    [fork_dev; ResetHead "db" "main" unborn_snapshot 2000;
     ResetHead "db" "main" (mkResetSnapshot (Some (cid 5)) 1 None 0) 2000; DropBranch "db" "main" 2000] in
  refs s !! main_key = None /\
  (refs s !! mkRefKey "db" "dev" ≫= re_source_branch) = Some "main"%string /\
  last out = Some (BranchDropped "db:main" None []).
Proof. by vm_compute. Qed.

(** A purge leaves the status record behind: the re-created branch does not
    start from the initial status. *)
Definition push_error : Command :=
  PushStatus "db:main" (Some stored_status_initial) (mkStoredStatus 2 "error" []).

Lemma purge_keeps_status :
  let '(s, out) := run_commands sample_state
    [push_error; PurgeBranch "db" "main" 2000; create_main; push_error] in
  ledgers s !! "db"%string = Some (mkLedgerRecord 1000 12 ["main"%string]) /\
  last out = Some (StatusConflict (Some (mkStoredStatus 2 "error" []))).
Proof. by vm_compute. Qed.

(** A reset can install an index beyond the head it comes with. *)
Lemma reset_index_ahead :
  let '(s, _) := run_commands sample_state
    [ResetHead "db" "main" (mkResetSnapshot (Some (cid 5)) 1 (Some (cid 7)) 9) 2000] in
  re_t <$> refs s !! main_key = Some 1 /\ ix_t <$> (refs s !! main_key ≫= re_index) = Some 9.
Proof. by vm_compute. Qed.

(** A compare-and-set can clear the index head, after which an older index is
    accepted. *)
Definition index_to (t : Z) (c : nat) : Command := AdvanceIndexHead (mkNewIndexHead "db" "main" (cid c) t 2000).

Lemma cleared_index_regresses :
  let '(s, out) := run_commands sample_state
    [advance "main" 1 6 7; index_to 7 8;
     CompareAndSetRef (mkRefCas "db" "main" IndexHead (Some (mkRefValue (Some (cid 8)) 7)) (mkRefValue None 7) 2000);
     index_to 3 9] in
  ix_t <$> (refs s !! main_key ≫= re_index) = Some 3 /\ last out = Some (IndexAdvanced 3 (cid 9)).
Proof. by vm_compute. Qed.

(** A commit head moved by compare-and-set is not announced: no event, so no
    report to the ledger cache. *)
Lemma cas_head_unannounced :
  let cmd := CompareAndSetRef
    (mkRefCas "db" "main" CommitHead (Some (mkRefValue (Some (cid 5)) 1)) (mkRefValue (Some (cid 6)) 2) 2000) in
  let '(s, b) := apply_entries sample_state [(5, Normal cmd)] in
  re_t <$> refs s !! main_key = Some 2 /\ b_events b = [] /\ head_reports (b_events b) = [].
Proof. by vm_compute. Qed.

(** A proposer that parks after its branch was cleared is not woken: the sweep
    buffers nothing for it. *)
Lemma late_waiter_parked :
  let ad := mkAdapter sample_state ∅ ∅ in
  let '(ad', _, _, out) := adapter_apply ad [(5, Normal (RetractLedger "db" "main" 2000))] in
  let '(w, d) := register (ad_waiters ad') 1 main_key 77 in
  queues (ad_state ad') !! main_key = None /\ out ++ d = [] /\ w !! 1 = Some (Parked main_key 77).
Proof. by vm_compute. Qed.
